(* ===== verification/_CoqProject ===== *)
-Q . S2P
Prelude.v
Lengths.v
FileInfo.v
ChunkTracker.v
Net.v
PieceTracker.v
PieceCompletion.v
DoubleBuf.v
Message.v
ReadBuf.v
TorrentQueue.v
DownloadOrder.v
HashId.v
RoutingTable.v
Peers.v
UdpTracker.v
CompactIp.v
Bencode.v
BencodeDepth.v
BencodeTypes.v
Extended.v
PeerConnection.v
Metainfo.v
TorrentFile.v
MetadataExchange.v
Storage.v
FileOps.v
Download.v
Repair.v
RepairFile.v
Damage.v
RepairRun.v
RemovePolicy.v
TorrentRules.v
Initializing.v
Lifecycle.v
Streaming.v
DhtMessage.v
PeerStore.v
Dht.v
DhtLookup.v
FsTree.v
OrphanCleanup.v
OrphanSafety.v
OrphanScan.v
IpRanges.v
Magnet.v
Relocate.v
RelocateSafety.v
RelocateRun.v
RelocateExecute.v
