(* ===== verification/Prelude.v ===== *)
(** * A verification library for rqbit

    rqbit is a BitTorrent client.  This library translates the parts of it that
    carry the protocol's and the client's own logic into executable definitions
    and proves what makes them correct.  Names follow the source; paths are below
    [src/crates/].

    ** How the parts work together

    A torrent comes as a file ([TorrentFile]), bencoded ([Bencode]), or as a magnet
    link ([Magnet]) whose metainfo is fetched from a peer ([MetadataExchange]).  The
    metainfo is validated and turned into a table of files ([Metainfo]).

    A torrent's geometry ([Lengths]) says how its bytes are cut into pieces and
    chunks, and [FileInfo] which pieces belong to which file.  [Initializing] checks
    what is on the disk already; [Lifecycle] is the state machine around it
    (checking, paused, live, error).  The [ChunkTracker] records which chunks and
    pieces are downloaded, wanted and queued; the [PieceTracker] wraps it and assigns
    queued pieces to peers, steals them from slow peers and takes them back from dead
    ones.  A received block runs through [Download]: it is written over the files by
    [FileOps] on any [Storage], and a complete piece is hashed; finishing it updates
    the files ([PieceCompletion]) and wakes the readers of [Streaming].
    [DownloadOrder] computes the order in which the picker walks the pieces.

    Peers: the [PeerStates] table ([Peers]) holds the state machine of every peer,
    [PeerConnection] the protocol of one connection.  Messages of the wire protocol
    ([Message], [Extended]) are read from a two-slice view ([DoubleBuf]) of a receive
    ring ([ReadBuf]).  Peers come from trackers ([UdpTracker]), from the DHT
    ([DhtMessage], [Dht], [DhtLookup], with the [RoutingTable] over [HashId] and the
    [PeerStore]), and as compact address lists ([CompactIp]); [IpRanges] decides which
    addresses are blocked.

    Around the torrents: [TorrentQueue] decides which of them run, [TorrentRules] when
    one is stopped by a rule, [RemovePolicy] what happens to the files of a removed
    one.  Damaged files are recovered by [Repair], [RepairFile], [Damage] and
    [RepairRun]; files are moved by [Relocate] and left-over ones cleaned up by
    [OrphanCleanup], both on the file system of [FsTree].

    ** Files

    - [Prelude]: panics and errors as monads ([outcome], [result], [exec]),
      machine integers, slices, sorting, big-endian byte strings, lexicographic
      order, tactics and hint databases.
    - [Lengths] (librqbit_core/src/lengths.rs): every method of [Lengths]; where each
      piece and chunk starts and ends and that they tile the torrent, a received block
      is accepted exactly when it is a chunk, the pieces of a file cover its bytes.
    - [FileInfo] (librqbit/src/file_info.rs): files and their piece order.
    - [ChunkTracker] (librqbit/src/chunk_tracker.rs): the four bit fields and the
      byte counters; every operation keeps them consistent, marking chunks
      refines insertion into a set of chunks, selecting files recomputes what is
      wanted, finishing is having every selected piece, the queue iterator
      yields exactly the queued pieces in priority order.
    - [Net]: addresses of [std::net].
    - [PieceTracker] (librqbit/src/piece_tracker.rs): every call keeps the chunk
      tracker consistent; in orderly runs (see Schedules) a piece is at most one of
      queued, in flight and had.  [acquire_piece] makes its choice in the documented
      order, for every order in which the hash map may be walked (class [MapIter]).
    - [PieceCompletion] (librqbit/src/torrent_state/live/mod.rs): the per-file
      counters agree with the pieces after each completed piece.
    - [DoubleBuf], [Message] (peer_binary_protocol): reads across the ring's seam
      equal reads of the concatenation; what is serialized is deserialized back,
      whatever follows it, never with a panic, and an incomplete frame asks for
      exactly the missing bytes; a bitfield cut by the seam asks to be made
      contiguous.  The body of an extended message is behind the interface [ExtCodec].
    - [ReadBuf] (librqbit/src/read_buf.rs): any sequence of basic messages (no extended
      ones) that fit the ring, cut into any chunks by the network, is read back in
      order.
    - [TorrentQueue] (librqbit/src/torrent_queue.rs): admission under limits, the
      rotation of seeding slots, queue moves, keeping the order in sync.
    - [DownloadOrder] (librqbit/src/download_order.rs): settings, patches, and the
      piece order as a duplicate-free enumeration of the files' pieces.
    - [HashId] (librqbit_core/src/hash_id.rs), [RoutingTable]
      (dht/src/routing_table.rs): the arena of buckets keeps a local invariant
      from which descent, iteration and insertion are shown correct; no sequence
      of operations panics or diverges.
    - [Peers] (librqbit/src/torrent_state/live/{peer,peers}/mod.rs and the
      handlers of live/mod.rs): each operation is one critical section on an
      entry of the table; in every interleaving the aggregate counters equal the
      state of the table.
    - [UdpTracker] (tracker_comms/src/tracker_comms_udp.rs): requests are the
      BEP 15 encoding; exactly the encodings of responses are parsed as such.
    - [CompactIp] (librqbit_core/src/compact_ip.rs): the traits are classes with
      laws; list round trips are proved once for every lawful address type.
    - [Bencode], [BencodeDepth], [BencodeTypes] (bencode/src): serializer and
      deserializer over serde's data model; round trip, totality with the limit on
      nesting for ignored values too, and round trips of structs from their fields.
    - [Extended] (peer_binary_protocol/src/extended): extension handshake,
      [ut_metadata], [ut_pex]; round trips, and the instance of [ExtCodec].
    - [PeerConnection] (librqbit/src/peer_connection.rs): handshake checks, dispatch,
      and the writer, whose fast path for chunks sends the encoded message.
    - [Metainfo] (librqbit_core/src/torrent_metainfo.rs), [TorrentFile]
      (and librqbit/src/create_torrent_file.rs): validation and the file table,
      reading, writing and creating torrent files.
    - [MetadataExchange] (librqbit/src/peer_info_reader): the reader against the
      server's replies in any order.
    - [Storage], [FileOps] (librqbit/src/storage, file_ops.rs): the trait as classes
      [TorrentStorage] and [StorageSpec]; reading, writing and hashing pieces over any
      storage that keeps the specification.
    - [Download] (live/mod.rs): the steps of receiving a block, interleaved over the
      peers; in orderly runs the downloaded pieces are verified on the storage.
    - [Repair], [RepairFile], [Damage], [RepairRun] (librqbit/src/repair.rs): scanning
      unreadable files, holes and atomic replacement under any failing system call, the
      damage tracker, and a whole repair with its re-check.
    - [RemovePolicy], [TorrentRules] (librqbit/src): what a removal deletes; rules read
      off the history of ticks.
    - [Initializing], [Lifecycle] (librqbit/src/torrent_state): the check a torrent
      starts with, and the state machine with its concurrent tasks.
    - [Streaming] (torrent_state/streaming.rs): seeks, reads, parked readers and the
      announcements that wake them.
    - [DhtMessage], [PeerStore], [Dht], [DhtLookup] (dht/src): messages and their two-pass
      reading, tokens and stored peers, queries answered and responses matched,
      termination of recursive lookups.
    - [FsTree]: directories, as far as [std::fs] is used on them.
    - [OrphanCleanup], [OrphanSafety], [OrphanScan] (librqbit/src/orphan_cleanup.rs): what
      torrents use is spared by every clean-up; what a scan reports is an orphan.
    - [Relocate], [RelocateSafety], [RelocateRun], [RelocateExecute]
      (librqbit/src/relocate.rs): one move, a plan step by step, and the relocation as a
      whole: on a plan that fits the disk no content is lost, whatever fails.
    - [IpRanges] (librqbit/src/ip_ranges.rs), [Magnet] (librqbit_core/src/magnet.rs,
      peer_id.rs): lists of addresses; links and the names of clients.

    ** Conventions

    Unsigned integers are [Z] with the wrap-around of the release profile
    written out ([u8] ... [u64]); indices into vectors are [nat] where the source
    only indexes.  A panic is the outcome [Panic] (or [XPanic]): theorems that say a
    function returns say that it does not panic.  Hash maps are [gmap]; where
    the iteration order of a hash map matters it is an argument.  Instants and
    durations are nanoseconds, and readings of the clock, random numbers and
    results of the operating system are arguments.  Third-party code (SHA-1, [atoi],
    character sets, hexadecimal and base32, URLs, the interval tree) is a parameter with
    its documented laws as hypotheses, and each theorem that has one is applied at a
    concrete instance.

    Loops that are not structural take fuel and return [None] or a panic when it runs
    out; every theorem about such a loop proves that a stated amount is enough: the
    number of pieces for the round robin of [DownloadOrder], 161 rounds (one per bit
    of an id and the last) for the routing table, the length of the input for address
    lists and the deserializer, the bytes still missing for the receive loop, the bytes
    of a chunk for the hashing loop, the bytes of a file for scans and copies, the depth
    of the tree for directories.

    ** Schedules

    Concurrent parts are step relations on a state in which each critical section of
    the code is one event; every order of events the tasks can produce is a run.  A few
    guarantees of the code hold only on runs without certain races.  There the
    reachability relation takes a flag: what a theorem says without the flag holds of
    all runs, the rest of the runs in which the named events do not occur, and a lemma
    shows what happens when they do.
    - [PieceTracker], [Download] (flag [orderly]): no late verdict for a piece in flight,
      no selection of files over pieces in flight, being checked or held back, no
      reservation for a stream.  Otherwise: [queued_and_inflight_races],
      [stream_priority_overwrites_verified_piece].
    - [Lifecycle] (flag [granted]): no start between the end of a check and its taking the
      lock, nothing between the wake-up of the error task and its taking the lock.
      Otherwise: [late_error_leaves_two_downloads].
    - [Streaming] (flag [keeps]): no pause between the mark of a piece and its
      announcement, no new check.  Otherwise: [paused_announcement_dropped],
      [new_streams_wake_nobody].
    - [Dht]: transaction ids are 16 bits; a request is matched while fewer than 65536 newer
      ones were made.  An aborted task leaves its key: [aborted_request_leaves_key].

    ** What modelling showed

    Besides the theorems above, lemmas exhibit behaviours that differ from what
    the code or its comments intend.  Wire and metainfo: a handshake split by TCP is
    refused, a bit field of many pieces does not fit the writer's buffer, metadata that
    comes before its handshake panics, a byte order mark hides ".." from the validation,
    sizes that wrap around are accepted.  Pieces and files: the piece offset of
    [compute_current_piece], a file that follows an empty file missing from the
    completion event, the races above, a broken file skipped by the initial check.
    Peers and DHT: slots left empty by a rotation pass, [len] of the routing table
    drifting, an address that stays listed after its peer is dropped, peers missing from
    the session total, stored peers never removed.  Files: an orphan called
    manifest.json lost in quarantine, batches of one second sharing their id, a moved file
    taken for a missing one and carried off ([relocation_carries_off]).

    ** Not modelled

    Sockets, timers and task spawning; the session that owns the torrents, their
    persistence, and the HTTP interface; HTTP trackers, UPnP and local discovery; the
    worker and the persistence of the DHT; speed estimation, rate limits and status
    texts; the back ends of the storage below the trait, with the write-through cache;
    user interfaces and the command line. *)

From stdpp Require Import base tactics option list list_numbers numbers decidable.
From Stdlib Require Import ZArith Lia.
Open Scope Z_scope.

(** ** Panics and errors

    [outcome] is the result of Rust code that may panic (an index out of
    bounds, a division by zero, an [unwrap] of [None]); [result] is Rust's
    [Result]. *)

Inductive outcome (A : Type) : Type :=
| Ret (a : A)
| Panic.
Arguments Ret {A} a.
Arguments Panic {A}.

Inductive result (E A : Type) : Type :=
| Ok (a : A)
| Err (e : E).
Arguments Ok {E A} a.
Arguments Err {E A} e.

#[export] Instance outcome_ret : MRet outcome := @Ret.
#[export] Instance outcome_bind : MBind outcome :=
  fun A B f m => match m with Ret a => f a | Panic => Panic end.
#[export] Instance outcome_fmap : FMap outcome :=
  fun A B f m => match m with Ret a => Ret (f a) | Panic => Panic end.

#[export] Instance result_ret {E} : MRet (result E) := @Ok E.
#[export] Instance result_bind {E} : MBind (result E) :=
  fun A B f m => match m with Ok a => f a | Err e => Err e end.
#[export] Instance result_fmap {E} : FMap (result E) :=
  fun A B f m => match m with Ok a => Ok (f a) | Err e => Err e end.

Definition result_ok {E A} (r : result E A) : option A :=
  match r with Ok a => Some a | Err _ => None end.

Definition ok_or {E A} (o : option A) (e : E) : result E A :=
  match o with Some a => Ok a | None => Err e end.

(** Run the monadic steps whose results are known. *)
Ltac run := cbn [mbind outcome_bind].

Lemma outcome_bind_Ret {A B} (m : outcome A) (f : A -> outcome B) b :
  (m ≫= f) = Ret b <-> exists a, m = Ret a /\ f a = Ret b.
Proof. destruct m; simpl; naive_solver. Qed.

Lemma result_bind_Ok {E A B} (m : result E A) (f : A -> result E B) b :
  (m ≫= f) = Ok b <-> exists a, m = Ok a /\ f a = Ok b.
Proof. destruct m; simpl; naive_solver. Qed.

(** [exec] is the result of code that may also return an error value:
    [outcome (result E A)] as one monad. *)
Inductive exec (E A : Type) : Type :=
| XOk (a : A)
| XErr (e : E)
| XPanic.
Arguments XOk {E A} a.
Arguments XErr {E A} e.
Arguments XPanic {E A}.

#[export] Instance exec_ret {E} : MRet (exec E) := @XOk E.
#[export] Instance exec_bind {E} : MBind (exec E) :=
  fun A B f m => match m with XOk a => f a | XErr e => XErr e | XPanic => XPanic end.

Definition exec_of_outcome {E A} (m : outcome A) : exec E A :=
  match m with Ret a => XOk a | Panic => XPanic end.

Definition exec_of_result {E A} (m : result E A) : exec E A :=
  match m with Ok a => XOk a | Err e => XErr e end.

(** Code that changes a state and may fail half way, keeping the changes. *)

Definition io (S E A : Type) : Type := S -> S * exec E A.

#[export] Instance io_ret {S E} : MRet (io S E) := fun A a s => (s, XOk a).
#[export] Instance io_bind {S E} : MBind (io S E) := fun A B f m s =>
  match m s with
  | (s, XOk a) => f a s
  | (s, XErr e) => (s, XErr e)
  | (s, XPanic) => (s, XPanic)
  end.

Definition io_state {S E A} (f : S -> S * exec E A) : io S E A := f.
Definition io_modify {S E} (f : S -> S) : io S E () := fun s => (f s, XOk ()).
Definition io_lift {S E A} (r : exec E A) : io S E A := fun s => (s, r).

Definition io_map_err {S E E' A} (f : E -> E') (m : io S E A) : io S E' A := fun s =>
  match m s with
  | (s, XOk a) => (s, XOk a)
  | (s, XErr e) => (s, XErr (f e))
  | (s, XPanic) => (s, XPanic)
  end.

Definition exec_map_err {E E' A} (f : E -> E') (m : exec E A) : exec E' A :=
  match m with XOk a => XOk a | XErr e => XErr (f e) | XPanic => XPanic end.

(** A [for] loop that threads a state and may leave early. *)
Fixpoint foldM {M : Type -> Type} `{MBind M, MRet M} {A B : Type}
    (f : B -> A -> M B) (b : B) (l : list A) : M B :=
  match l with
  | [] => mret b
  | x :: l => b' ← f b x; foldM f b' l
  end.

Lemma foldM_app {A B} (f : B -> A -> outcome B) (b : B) (l1 l2 : list A) :
  foldM f b (l1 ++ l2) = (foldM f b l1 ≫= fun b' => foldM f b' l2).
Proof. revert b. induction l1 as [|x l1 IH]; intros b; [done|]. cbn. destruct (f b x); cbn; [apply IH|done]. Qed.

Lemma foldM_Ret {A B} (f : B -> A -> outcome B) (g : B -> A -> B) (P : B -> Prop) (l : list A) b :
  P b -> (forall b x, P b -> x ∈ l -> f b x = Ret (g b x) /\ P (g b x)) ->
  foldM f b l = Ret (foldl g b l) /\ P (foldl g b l).
Proof.
  revert b. induction l as [|x l IH]; intros b Hb Hf; [done|]. simpl.
  destruct (Hf b x Hb ltac:(left)) as [-> HP]. simpl.
  apply IH; [done|]. intros b' x' ? ?. apply Hf; [done|]. by right.
Qed.

(** Invariant rule for a [for] loop that ends without a panic. *)
Lemma foldM_inv {A B} (f : B -> A -> outcome B) (P : B -> Prop) (l : list A) b :
  P b -> (forall b x, P b -> x ∈ l -> exists b', f b x = Ret b' /\ P b') ->
  exists b', foldM f b l = Ret b' /\ P b'.
Proof.
  revert b. induction l as [|x l IH]; intros b Hb Hf; [by exists b|]. simpl.
  destruct (Hf b x Hb ltac:(left)) as (b1 & -> & HP). simpl.
  apply IH; [done|]. intros b' x' ? ?. apply Hf; [done|]. by right.
Qed.

(** ** Machine integers

    A [w]-bit unsigned integer is a [Z] in [[0, 2^w)]; [u8] ... [u64] are the
    wrap-around of the release profile (no overflow checks) and of the [as]
    casts. *)

Definition wrap (w z : Z) : Z := z mod 2 ^ w.
Abbreviation u8 := (wrap 8).
Abbreviation u16 := (wrap 16).
Abbreviation u32 := (wrap 32).
Abbreviation u64 := (wrap 64).

Definition is_uint (w z : Z) : Prop := 0 <= z < 2 ^ w.
Abbreviation is_u8 := (is_uint 8).
Abbreviation is_u16 := (is_uint 16).
Abbreviation is_u32 := (is_uint 32).
Abbreviation is_u64 := (is_uint 64).

#[export] Instance is_uint_dec w z : Decision (is_uint w z).
Proof. unfold is_uint. apply _. Defined.

(** [a.saturating_sub(b)], [a.div_ceil(b)] and [u32::try_from]. *)
Definition saturating_sub (a b : Z) : Z := Z.max 0 (a - b).

Definition saturating_add (w a b : Z) : Z := Z.min (2 ^ w - 1) (a + b).

Definition saturating_mul (w a b : Z) : Z := Z.min (2 ^ w - 1) (a * b).

Definition div_ceil (a b : Z) : Z :=
  let d := a / b in
  if 0 <? a mod b then d + 1 else d.

Definition try_into (w z : Z) : option Z :=
  if (0 <=? z) && (z <? 2 ^ w) then Some z else None.

Lemma wrap_id w z : is_uint w z -> wrap w z = z.
Proof. intros ?. apply Z.mod_small. done. Qed.

Lemma wrap_range w z : 0 <= w -> is_uint w (wrap w z).
Proof. intros. apply Z.mod_pos_bound. by apply Z.pow_pos_nonneg. Qed.

Lemma try_into_Some w z v : try_into w z = Some v <-> is_uint w z /\ v = z.
Proof.
  unfold try_into, is_uint.
  destruct (Z.leb_spec 0 z), (Z.ltb_spec z (2 ^ w)); simpl; naive_solver lia.
Qed.

Lemma try_into_small w z : is_uint w z -> try_into w z = Some z.
Proof. intros. by apply try_into_Some. Qed.

Lemma div_ceil_spec a b : 0 < b -> (div_ceil a b - 1) * b < a <= div_ceil a b * b.
Proof.
  intros. unfold div_ceil.
  pose proof (Z.div_mod a b ltac:(lia)). pose proof (Z.mod_pos_bound a b ltac:(lia)).
  destruct (0 <? a mod b) eqn:?; nia.
Qed.

Lemma div_ceil_unique a b q : 0 < b -> (q - 1) * b < a <= q * b -> q = div_ceil a b.
Proof. intros ? ?. pose proof (div_ceil_spec a b ltac:(lia)). nia. Qed.

Lemma div_ceil_nonneg a b : 0 < b -> 0 <= a -> 0 <= div_ceil a b.
Proof. intros. pose proof (div_ceil_spec a b ltac:(lia)). nia. Qed.

Lemma div_ceil_pos a b : 0 < b -> 0 < a -> 0 < div_ceil a b.
Proof. intros. pose proof (div_ceil_spec a b ltac:(lia)). nia. Qed.

Lemma div_ceil_le a b : 0 < b -> 0 <= a -> div_ceil a b <= a.
Proof. intros. pose proof (div_ceil_spec a b ltac:(lia)). nia. Qed.

(** ** Slices and vectors

    [index] is [v[i]] (a panic out of range), [slice_get l a b] is
    [l.get(a..b)], [list_fill] is the [fill] of such a sub-slice in place. *)

Definition index {A} (l : list A) (i : nat) : outcome A :=
  match l !! i with Some a => Ret a | None => Panic end.

Definition slice_get {A} (l : list A) (a b : nat) : option (list A) :=
  if (a <=? b)%nat && (b <=? length l)%nat then Some (take (b - a) (drop a l)) else None.

Definition list_fill {A} (a b : nat) (v : A) (l : list A) : list A :=
  take a l ++ replicate (b - a) v ++ drop b l.

(** [set(i, v)] on a slice: a panic out of range. *)
Definition slice_set {A} (l : list A) (i : nat) (v : A) : outcome (list A) :=
  if (i <? length l)%nat then Ret (<[i := v]> l) else Panic.

(** [iter.take(n)] for an [n] that need not be small. *)
Fixpoint ztake {A} (n : Z) (l : list A) : list A :=
  match l with
  | [] => []
  | x :: l => if n <=? 0 then [] else x :: ztake (n - 1) l
  end.

Lemma ztake_take {A} n (l : list A) : ztake n l = take (Z.to_nat n) l.
Proof.
  revert n. induction l as [|x l IH]; intros n; [by rewrite take_nil|]. simpl.
  destruct (Z.leb_spec n 0).
  - by replace (Z.to_nat n) with 0%nat by lia.
  - replace (Z.to_nat n) with (S (Z.to_nat (n - 1))) by lia. simpl. by rewrite IH.
Qed.

Lemma slice_set_lt {A} (l : list A) i v :
  (i < length l)%nat -> slice_set l i v = Ret (<[i := v]> l).
Proof. intros. unfold slice_set. by destruct (Nat.ltb_spec i (length l)); [|lia]. Qed.

Lemma slice_get_Some {A} (l s : list A) a b :
  slice_get l a b = Some s <-> (a <= b <= length l)%nat /\ s = take (b - a) (drop a l).
Proof.
  unfold slice_get.
  destruct (Nat.leb_spec a b), (Nat.leb_spec b (length l)); simpl; naive_solver lia.
Qed.

Lemma length_list_fill {A} a b (v : A) l :
  (a <= b <= length l)%nat -> length (list_fill a b v l) = length l.
Proof.
  intros. unfold list_fill.
  rewrite !length_app, length_take, length_replicate, length_drop. lia.
Qed.

Lemma lookup_list_fill {A} a b (v : A) l i :
  (a <= b <= length l)%nat ->
  list_fill a b v l !! i = if decide (a <= i < b)%nat then Some v else l !! i.
Proof.
  intros. unfold list_fill. destruct (decide (a <= i < b)%nat).
  - rewrite lookup_app_r; rewrite length_take; [|lia].
    rewrite lookup_app_l by (rewrite length_replicate; lia).
    apply lookup_replicate. split; [done|lia].
  - destruct (decide (i < a)%nat).
    + rewrite lookup_app_l by (rewrite length_take; lia).
      rewrite lookup_take. by case_decide; [|lia].
    + rewrite lookup_app_r; rewrite length_take; [|lia].
      rewrite lookup_app_r; rewrite length_replicate; [|lia].
      rewrite lookup_drop. f_equal. lia.
Qed.

Lemma index_Ret {A} (l : list A) i a : index l i = Ret a <-> l !! i = Some a.
Proof. unfold index. destruct (l !! i); naive_solver. Qed.

Lemma lookup_slice {A} (l : list A) a b i :
  (i < b - a)%nat -> take (b - a) (drop a l) !! i = l !! (a + i)%nat.
Proof. intros. rewrite lookup_take. case_decide; [|lia]. by rewrite lookup_drop. Qed.

(** Sums over lists of integers. *)
Definition zsum (l : list Z) : Z := foldr Z.add 0 l.

Lemma zsum_cons x l : zsum (x :: l) = x + zsum l.
Proof. done. Qed.

Lemma zsum_app l1 l2 : zsum (l1 ++ l2) = zsum l1 + zsum l2.
Proof. induction l1 as [|x l1 IH]; simpl; lia. Qed.

Lemma zsum_nonneg l : Forall (Z.le 0) l -> 0 <= zsum l.
Proof. induction 1; simpl; lia. Qed.

Lemma zsum_replicate n x : zsum (replicate n x) = Z.of_nat n * x.
Proof. induction n; simpl replicate; cbn [zsum foldr] in *; unfold zsum in *; lia. Qed.

Lemma filter_all {A} (P : A -> Prop) `{!forall x, Decision (P x)} (l : list A) :
  (forall x, x ∈ l -> P x) -> filter P l = l.
Proof.
  induction l as [|x l IH]; intros Hall; [done|].
  rewrite filter_cons_True by (apply Hall; left). f_equal. apply IH. intros. apply Hall. by right.
Qed.

Lemma filter_ext_in {A} (P Q : A -> Prop) `{!forall x, Decision (P x), !forall x, Decision (Q x)}
    (l : list A) :
  (forall x, x ∈ l -> P x <-> Q x) -> filter P l = filter Q l.
Proof.
  induction l as [|x l IH]; intros Hpq; [done|]. rewrite !filter_cons.
  rewrite IH by (intros; apply Hpq; by right). pose proof (Hpq x ltac:(left)).
  by destruct (decide (P x)), (decide (Q x)); try tauto.
Qed.

(** ** Stable sorting

    [v.sort_by(cmp)] for a comparison given as a boolean "less or equal". *)

Section Sorting.
Context {A : Type} (leb : A -> A -> bool).

Fixpoint insert_by (x : A) (l : list A) : list A :=
  match l with
  | [] => [x]
  | y :: l' => if leb x y then x :: l else y :: insert_by x l'
  end.

Fixpoint sort_by (l : list A) : list A :=
  match l with
  | [] => []
  | x :: l => insert_by x (sort_by l)
  end.

Lemma insert_by_perm x l : insert_by x l ≡ₚ x :: l.
Proof.
  induction l as [|y l IH]; [done|]. simpl. destruct (leb x y); [done|].
  rewrite IH. apply Permutation_swap.
Qed.

Lemma sort_by_perm l : sort_by l ≡ₚ l.
Proof. induction l as [|x l IH]; [done|]. simpl. by rewrite insert_by_perm, IH. Qed.

Lemma length_sort_by l : length (sort_by l) = length l.
Proof. apply Permutation_length, sort_by_perm. Qed.

(** Every element is before or at those behind it. *)
Fixpoint sorted_by (l : list A) : Prop :=
  match l with
  | [] => True
  | x :: l => (forall y, y ∈ l -> leb x y = true) /\ sorted_by l
  end.

Lemma sort_by_sorted l :
  (forall x y, leb x y = true \/ leb y x = true) ->
  (forall x y z, leb x y = true -> leb y z = true -> leb x z = true) ->
  sorted_by (sort_by l).
Proof.
  intros Htot Htr. induction l as [|x l IH]; [done|]. simpl.
  induction (sort_by l) as [|y l' IHl]; simpl.
  - split; [|done]. by intros y ?%not_elem_of_nil.
  - destruct IH as [Hy Hs]. destruct (leb x y) eqn:E; simpl.
    + split; [|done]. intros z [->|Hz]%elem_of_cons; [done|]. by apply (Htr _ y); [|apply Hy].
    + split; [|by apply IHl]. intros z Hz. rewrite insert_by_perm in Hz.
      apply elem_of_cons in Hz as [->|Hz]; [|by apply Hy].
      destruct (Htot y x); congruence.
Qed.
End Sorting.

(** ** Big-endian byte strings *)

Abbreviation bytes := (list Z).
Abbreviation is_bytes := (Forall is_u8).

(** Lexicographic order of [Ord for [T]]. *)
Fixpoint lex_leb {A} (ltb : A -> A -> bool) (xs ys : list A) : bool :=
  match xs, ys with
  | [], _ => true
  | _ :: _, [] => false
  | x :: xs, y :: ys => if ltb x y then true else if ltb y x then false else lex_leb ltb xs ys
  end.

Definition bytes_leb : bytes -> bytes -> bool := lex_leb Z.ltb.

(** [x.to_be_bytes()] of an [n]-byte integer and [from_be_bytes]. *)
Fixpoint to_be_bytes (n : nat) (z : Z) : bytes :=
  match n with
  | O => []
  | S m => (z / 256 ^ Z.of_nat m) mod 256 :: to_be_bytes m z
  end.

Definition from_be_bytes (l : bytes) : Z := foldl (fun acc b => acc * 256 + b) 0 l.

Lemma length_to_be_bytes n z : length (to_be_bytes n z) = n.
Proof. induction n; simpl; congruence. Qed.

Lemma to_be_bytes_is_bytes n z : is_bytes (to_be_bytes n z).
Proof.
  induction n; simpl; constructor; [|done].
  unfold is_uint. apply Z.mod_pos_bound. lia.
Qed.

Lemma from_be_bytes_acc l a :
  foldl (fun acc b => acc * 256 + b) a l = a * 256 ^ Z.of_nat (length l) + from_be_bytes l.
Proof.
  revert a. induction l as [|b l IH]; intros a; simpl.
  - unfold from_be_bytes. simpl. lia.
  - unfold from_be_bytes. simpl. rewrite !IH, Nat2Z.inj_succ, Z.pow_succ_r by lia. lia.
Qed.

Lemma from_be_bytes_cons b l :
  from_be_bytes (b :: l) = b * 256 ^ Z.of_nat (length l) + from_be_bytes l.
Proof. unfold from_be_bytes at 1. simpl. apply from_be_bytes_acc. Qed.

Lemma from_be_bytes_app l1 l2 :
  from_be_bytes (l1 ++ l2) = from_be_bytes l1 * 256 ^ Z.of_nat (length l2) + from_be_bytes l2.
Proof. unfold from_be_bytes at 1. rewrite foldl_app. apply from_be_bytes_acc. Qed.

Lemma from_be_bytes_range l :
  is_bytes l -> 0 <= from_be_bytes l < 256 ^ Z.of_nat (length l).
Proof.
  induction 1 as [|b l Hb ? IH]; [done|].
  rewrite from_be_bytes_cons. simpl length.
  rewrite Nat2Z.inj_succ, Z.pow_succ_r by lia. unfold is_uint in Hb. nia.
Qed.

Lemma from_to_be_bytes_mod n z : from_be_bytes (to_be_bytes n z) = z mod 256 ^ Z.of_nat n.
Proof.
  induction n as [|n IH]; [by rewrite Z.mod_1_r|].
  cbn [to_be_bytes]. rewrite from_be_bytes_cons, IH, length_to_be_bytes.
  rewrite Nat2Z.inj_succ, Z.pow_succ_r by lia.
  assert (0 < 256 ^ Z.of_nat n) by (apply Z.pow_pos_nonneg; lia).
  rewrite (Z.mul_comm 256), Z.rem_mul_r by lia. lia.
Qed.

Lemma from_to_be_bytes n w z :
  w = 8 * Z.of_nat n -> is_uint w z -> from_be_bytes (to_be_bytes n z) = z.
Proof.
  intros -> Hz. rewrite from_to_be_bytes_mod. apply Z.mod_small.
  unfold is_uint in Hz. change 256 with (2 ^ 8). rewrite <- Z.pow_mul_r by lia. done.
Qed.

Lemma to_be_bytes_mod n z : to_be_bytes n (z mod 256 ^ Z.of_nat n) = to_be_bytes n z.
Proof.
  assert (forall m z k, (m <= k)%nat ->
    to_be_bytes m (z mod 256 ^ Z.of_nat k) = to_be_bytes m z) as H; [|by apply H].
  clear. induction m as [|m IH]; intros z k Hk; [done|].
  cbn [to_be_bytes]. rewrite IH by lia. f_equal.
  assert (0 < 256 ^ Z.of_nat m) by (apply Z.pow_pos_nonneg; lia).
  assert (0 < 256 ^ (Z.of_nat k - Z.of_nat m - 1)) by (apply Z.pow_pos_nonneg; lia).
  replace (256 ^ Z.of_nat k)
    with (256 ^ Z.of_nat m * (256 * 256 ^ (Z.of_nat k - Z.of_nat m - 1))).
  2:{ rewrite <- Z.pow_succ_r, <- Z.pow_add_r by lia. f_equal. lia. }
  set (p := 256 ^ Z.of_nat m) in *. set (q := 256 ^ (Z.of_nat k - Z.of_nat m - 1)) in *.
  rewrite (Z.rem_mul_r z p) by lia.
  rewrite (Z.mul_comm p), Z.div_add by lia.
  rewrite (Z.div_small (z mod p)) by (apply Z.mod_pos_bound; lia).
  rewrite Z.add_0_l, (Z.rem_mul_r _ 256 q) by lia.
  rewrite (Z.mul_comm 256), Z.mod_add by lia. by rewrite Z.mod_mod by lia.
Qed.

Lemma to_from_be_bytes l : is_bytes l -> to_be_bytes (length l) (from_be_bytes l) = l.
Proof.
  induction 1 as [|b l Hb Hl IH]; [done|].
  simpl length. cbn [to_be_bytes]. pose proof (from_be_bytes_range l Hl).
  rewrite from_be_bytes_cons. f_equal.
  - rewrite Z.add_comm, Z.div_add, Z.div_small by lia. unfold is_uint in Hb. simpl.
    apply Z.mod_small. lia.
  - rewrite <- to_be_bytes_mod, Z.add_comm, Z.mod_add, Z.mod_small by lia. done.
Qed.

Lemma from_be_bytes_inj l1 l2 :
  is_bytes l1 -> is_bytes l2 -> length l1 = length l2 ->
  from_be_bytes l1 = from_be_bytes l2 -> l1 = l2.
Proof.
  intros H1 H2 Hl He.
  by rewrite <- (to_from_be_bytes l1 H1), <- (to_from_be_bytes l2 H2), Hl, He.
Qed.

Lemma bytes_leb_total l1 l2 : bytes_leb l1 l2 = true \/ bytes_leb l2 l1 = true.
Proof.
  unfold bytes_leb. revert l2. induction l1 as [|x l1 IH]; intros [|y l2]; cbn; auto.
  destruct (Z.ltb_spec x y), (Z.ltb_spec y x); auto.
Qed.

Lemma bytes_leb_trans l1 l2 l3 :
  bytes_leb l1 l2 = true -> bytes_leb l2 l3 = true -> bytes_leb l1 l3 = true.
Proof.
  unfold bytes_leb. revert l2 l3. induction l1 as [|x l1 IH]; intros [|y l2] [|z l3]; cbn; try done.
  destruct (Z.ltb_spec x y), (Z.ltb_spec y x), (Z.ltb_spec y z), (Z.ltb_spec z y),
    (Z.ltb_spec x z), (Z.ltb_spec z x); try done; try lia. apply IH.
Qed.

Create HintDb bytes.
#[export] Hint Resolve to_be_bytes_is_bytes from_be_bytes_range to_from_be_bytes : bytes.
#[export] Hint Rewrite @length_app length_to_be_bytes @length_take @length_drop @length_replicate : bytes.

(** Compare the lengths of byte strings built from parts. *)
Ltac len := autorewrite with bytes in *; cbn [length] in *; lia.

(** On byte strings of one length the lexicographic order is the numeric one. *)
Lemma bytes_leb_val l1 l2 :
  length l1 = length l2 -> is_bytes l1 -> is_bytes l2 ->
  bytes_leb l1 l2 = (from_be_bytes l1 <=? from_be_bytes l2).
Proof.
  unfold bytes_leb. revert l2. induction l1 as [|x l1 IH]; intros [|y l2] Hl H1 H2; try done.
  apply Forall_cons_1 in H1 as [Hx H1]. apply Forall_cons_1 in H2 as [Hy H2]. injection Hl as Hl.
  cbn [lex_leb]. rewrite !from_be_bytes_cons, IH, Hl by done.
  pose proof (from_be_bytes_range l1 H1) as R1. pose proof (from_be_bytes_range l2 H2) as R2.
  rewrite Hl in R1. set (p := 256 ^ Z.of_nat (length l2)) in *.
  assert (0 < p) by (subst p; lia).
  destruct (Z.ltb_spec x y); [symmetry; apply Z.leb_le; nia|].
  destruct (Z.ltb_spec y x); [symmetry; apply Z.leb_gt; nia|].
  assert (x = y) as -> by lia.
  destruct (Z.leb_spec (from_be_bytes l1) (from_be_bytes l2)); symmetry; [apply Z.leb_le|apply Z.leb_gt]; lia.
Qed.
