(* ===== verification/Lengths.v ===== *)
(** * Piece and chunk arithmetic ([librqbit_core::lengths])

    [Lengths] is the geometry of a torrent: a blob of [total_length] bytes cut
    into pieces of [piece_length] bytes, each cut into chunks of
    [CHUNK_SIZE] bytes.  The file models every method of [lengths.rs], with
    the wrap-around of the [u32]/[u64] arithmetic written out, and shows that
    on a well-formed geometry nothing wraps and that pieces, chunks and files
    tile the torrent. *)

From stdpp Require Import base tactics option list list_numbers numbers decidable.
From Stdlib Require Import ZArith Lia.
From S2P Require Import Prelude.
Open Scope Z_scope.

Definition CHUNK_SIZE : Z := 16384.

Definition last_element_size (total_length piece_length : Z) : Z :=
  let rem := total_length mod piece_length in
  if rem =? 0 then piece_length else rem.

(** [ValidPieceIndex(u32)]: the newtype is its [u32]. *)
Abbreviation ValidPieceIndex := Z (only parsing).

Record PieceInfo := mkPieceInfo {
  pi_piece_index : ValidPieceIndex;
  pi_len : Z
}.

Record ChunkInfo := mkChunkInfo {
  ci_piece_index : ValidPieceIndex;
  ci_chunk_index : Z;
  ci_absolute_index : Z;
  ci_size : Z;
  ci_offset : Z
}.

#[export] Instance ChunkInfo_eq_dec : EqDecision ChunkInfo.
Proof. solve_decision. Defined.

Record Lengths := mkLengths {
  ln_total_length : Z;
  ln_piece_length : Z;
  ln_last_piece_id : Z;
  ln_last_piece_length : Z;
  ln_chunks_per_piece : Z
}.

Record CurrentPiece := mkCurrentPiece {
  cp_id : ValidPieceIndex;
  cp_piece_remaining : Z;
  cp_piece_offset : Z
}.

Inductive LengthsError :=
| BadTorrentZeroLength
| InvalidPieceIndex (index : Z).

(** [Lengths::new]: [div_ceil] panics on a zero [piece_length].  The fields are
    private and this is the only constructor, so the divisions by
    [piece_length] in the methods below never see a zero divisor. *)
Definition Lengths_new (total_length piece_length : Z) : outcome (result LengthsError Lengths) :=
  if total_length =? 0 then Ret (Err BadTorrentZeroLength)
  else if piece_length =? 0 then Panic
  else
    let total_pieces := u32 (div_ceil total_length piece_length) in
    Ret (Ok {|
      ln_total_length := total_length;
      ln_piece_length := piece_length;
      ln_chunks_per_piece := u32 (div_ceil piece_length CHUNK_SIZE);
      ln_last_piece_id := u32 (total_pieces - 1);
      ln_last_piece_length := u32 (last_element_size total_length piece_length)
    |}).

Definition total_pieces (l : Lengths) : Z := u32 (ln_last_piece_id l + 1).

Definition piece_bitfield_bytes (l : Lengths) : Z := div_ceil (total_pieces l) 8.

Definition chunks_per_piece (l : Lengths) (index : ValidPieceIndex) : Z :=
  if index =? ln_last_piece_id l then div_ceil (ln_last_piece_length l) CHUNK_SIZE
  else ln_chunks_per_piece l.

Definition total_chunks (l : Lengths) : Z :=
  u32 (u32 (ln_last_piece_id l * ln_chunks_per_piece l)
       + chunks_per_piece l (ln_last_piece_id l)).

Definition chunk_bitfield_bytes (l : Lengths) : Z := div_ceil (total_chunks l) 8.

Definition validate_piece_index (l : Lengths) (index : Z) : option ValidPieceIndex :=
  if index >? ln_last_piece_id l then None else Some index.

Definition try_validate_piece_index (l : Lengths) (index : Z)
    : result LengthsError ValidPieceIndex :=
  ok_or (validate_piece_index l index) (InvalidPieceIndex index).

Definition piece_length (l : Lengths) (index : ValidPieceIndex) : Z :=
  if index =? ln_last_piece_id l then ln_last_piece_length l else ln_piece_length l.

Definition piece_offset (l : Lengths) (index : ValidPieceIndex) : Z :=
  u64 (index * ln_piece_length l).

Definition chunk_absolute_offset (l : Lengths) (c : ChunkInfo) : Z :=
  u64 (piece_offset l (ci_piece_index c) + ci_offset c).

Definition iter_piece_infos (l : Lengths) : list PieceInfo :=
  (fun idx => {| pi_piece_index := idx;
                 pi_len := if idx =? ln_last_piece_id l
                           then ln_last_piece_length l else ln_piece_length l |})
  <$> seqZ 0 (total_pieces l).

(** The [Range<u32>] as its two ends. *)
Definition iter_pieces_within_offset (l : Lengths) (offset_bytes len : Z) : Z * Z :=
  let offset_bytes := Z.min offset_bytes (ln_total_length l) in
  let end_bytes := Z.min (u64 (offset_bytes + len)) (ln_total_length l) in
  let start_piece_id := u32 (offset_bytes / ln_piece_length l) in
  let end_piece_id :=
    if end_bytes =? offset_bytes then start_piece_id
    else u32 (div_ceil end_bytes (ln_piece_length l)) in
  (start_piece_id, end_piece_id).

(** The values of a [Range<u32>]. *)
Definition range_list (r : Z * Z) : list Z := seqZ r.1 (r.2 - r.1).

(** The [scan] of [iter_chunk_infos]: it stops at [remaining = 0]; the fuel
    [Z.to_nat remaining] is enough because a step removes at least one byte. *)
Fixpoint chunk_scan (fuel : nat) (index absolute_offset remaining offset idx : Z)
    : list ChunkInfo :=
  match fuel with
  | O => []
  | S fuel =>
    if remaining =? 0 then []
    else
      let s := Z.min remaining CHUNK_SIZE in
      {| ci_piece_index := index;
         ci_chunk_index := idx;
         ci_absolute_index := u32 (absolute_offset + idx);
         ci_size := s;
         ci_offset := offset |}
      :: chunk_scan fuel index absolute_offset (remaining - s) (u32 (offset + s)) (idx + 1)
  end.

Definition iter_chunk_infos (l : Lengths) (index : ValidPieceIndex) : list ChunkInfo :=
  let remaining := piece_length l index in
  let absolute_offset := u32 (index * ln_chunks_per_piece l) in
  chunk_scan (Z.to_nat remaining) index absolute_offset remaining 0 0.

Definition chunk_offset_in_piece (l : Lengths) (piece_index : ValidPieceIndex)
    (chunk_index : Z) : option Z :=
  if chunk_index >=? chunks_per_piece l piece_index then None
  else Some (u32 (chunk_index * CHUNK_SIZE)).

Definition chunk_size (l : Lengths) (piece_index : ValidPieceIndex) (chunk_index : Z)
    : option Z :=
  let pl := piece_length l piece_index in
  let last_chunk_id := u32 (div_ceil pl CHUNK_SIZE - 1) in
  if chunk_index <? last_chunk_id then Some CHUNK_SIZE
  else if chunk_index =? last_chunk_id then Some (last_element_size pl CHUNK_SIZE)
  else None.

Definition chunk_info_from_received_data (l : Lengths) (piece_index : ValidPieceIndex)
    (begin chunk_size_ : Z) : option ChunkInfo :=
  let index := begin / CHUNK_SIZE in
  expected_chunk_size ← chunk_size l piece_index index;
  offset ← chunk_offset_in_piece l piece_index index;
  if negb (offset =? begin) then None
  else if negb (expected_chunk_size =? chunk_size_) then None
  else
    let absolute_index := u32 (u32 (ln_chunks_per_piece l * piece_index) + index) in
    Some {| ci_piece_index := piece_index; ci_chunk_index := index;
            ci_size := chunk_size_; ci_offset := offset;
            ci_absolute_index := absolute_index |}.

Definition chunk_range (l : Lengths) (index : ValidPieceIndex) : Z * Z :=
  let start := u32 (index * ln_chunks_per_piece l) in
  let end_ := u32 (start + chunks_per_piece l index) in
  (start, end_).

Definition size_of_piece_in_file (l : Lengths) (piece_id file_offset file_len : Z) : Z :=
  let piece_offset := u64 (piece_id * ln_piece_length l) in
  let piece_end := u64 (piece_offset + ln_piece_length l) in
  let file_end := u64 (file_offset + file_len) in
  let offset := Z.max file_offset piece_offset in
  let end_ := Z.min file_end piece_end in
  saturating_sub end_ offset.

Definition compute_current_piece (l : Lengths) (file_pos file_torrent_abs_offset : Z)
    : option CurrentPiece :=
  let dpl := ln_piece_length l in
  let abs_pos := u64 (file_torrent_abs_offset + file_pos) in
  piece_id ← try_into 32 (abs_pos / dpl);
  piece_id ← validate_piece_index l piece_id;
  let piece_len := piece_length l piece_id in
  piece_offset ← try_into 32 (abs_pos / dpl);
  piece_remaining ← try_into 32 (u64 (piece_len - abs_pos mod dpl));
  Some {| cp_id := piece_id; cp_piece_offset := piece_offset;
          cp_piece_remaining := piece_remaining |}.

(** ** Well-formedness

    What [Lengths_new] establishes when the number of pieces fits a [u32];
    [chunks_fit] adds that the number of chunks does. *)

Record lengths_wf (l : Lengths) : Prop := {
  wf_total : 0 < ln_total_length l < 2 ^ 64;
  wf_piece : 0 < ln_piece_length l < 2 ^ 32;
  wf_pieces : div_ceil (ln_total_length l) (ln_piece_length l) < 2 ^ 32;
  wf_last_id : ln_last_piece_id l = div_ceil (ln_total_length l) (ln_piece_length l) - 1;
  wf_last_len :
    ln_last_piece_length l = last_element_size (ln_total_length l) (ln_piece_length l);
  wf_cpp : ln_chunks_per_piece l = div_ceil (ln_piece_length l) CHUNK_SIZE
}.

Definition chunks_fit (l : Lengths) : Prop :=
  (ln_last_piece_id l + 1) * ln_chunks_per_piece l < 2 ^ 32.

Definition valid_piece (l : Lengths) (i : Z) : Prop := 0 <= i <= ln_last_piece_id l.

Lemma last_element_size_spec t p :
  0 < p -> 0 < t ->
  last_element_size t p = t - (div_ceil t p - 1) * p /\ 0 < last_element_size t p <= p.
Proof.
  intros. unfold last_element_size.
  pose proof (div_ceil_spec t p ltac:(lia)).
  pose proof (Z.div_mod t p ltac:(lia)). pose proof (Z.mod_pos_bound t p ltac:(lia)).
  destruct (Z.eqb_spec (t mod p) 0).
  - assert (t / p = div_ceil t p) by (apply div_ceil_unique; nia). nia.
  - assert (t / p + 1 = div_ceil t p) by (apply div_ceil_unique; nia). nia.
Qed.

Lemma last_id_spec l :
  lengths_wf l ->
  ln_last_piece_id l * ln_piece_length l + ln_last_piece_length l = ln_total_length l
  /\ 0 < ln_last_piece_length l <= ln_piece_length l
  /\ 0 <= ln_last_piece_id l < 2 ^ 32 - 1.
Proof.
  intros [Ht Hp Hn Hid Hlen _].
  pose proof (last_element_size_spec (ln_total_length l) (ln_piece_length l)
    ltac:(lia) ltac:(lia)) as [He ?].
  pose proof (div_ceil_pos (ln_total_length l) (ln_piece_length l) ltac:(lia) ltac:(lia)).
  rewrite Hid, Hlen, He. split; [lia|]. split; [rewrite <- He; lia|lia].
Qed.

Lemma total_pieces_wf l : lengths_wf l -> total_pieces l = ln_last_piece_id l + 1.
Proof.
  intros H. pose proof (last_id_spec l H). unfold total_pieces.
  apply wrap_id. unfold is_uint. lia.
Qed.

Lemma piece_length_pos l i :
  lengths_wf l -> 0 < piece_length l i <= ln_piece_length l.
Proof.
  intros H. pose proof (last_id_spec l H). destruct H. unfold piece_length.
  destruct (i =? ln_last_piece_id l); lia.
Qed.

Lemma chunks_per_piece_spec l i :
  lengths_wf l -> chunks_per_piece l i = div_ceil (piece_length l i) CHUNK_SIZE.
Proof.
  intros []. unfold chunks_per_piece, piece_length. by destruct (_ =? _).
Qed.

Lemma cpp_pos l : lengths_wf l -> 0 < ln_chunks_per_piece l.
Proof. intros []. rewrite wf_cpp0. apply div_ceil_pos; unfold CHUNK_SIZE; lia. Qed.

Lemma div_ceil_mono a b c : 0 < c -> a <= b -> div_ceil a c <= div_ceil b c.
Proof.
  intros. pose proof (div_ceil_spec a c ltac:(lia)).
  pose proof (div_ceil_spec b c ltac:(lia)). nia.
Qed.

Lemma chunks_per_piece_bounds l i :
  lengths_wf l -> 0 < chunks_per_piece l i <= ln_chunks_per_piece l.
Proof.
  intros H. rewrite chunks_per_piece_spec by done. pose proof (piece_length_pos l i H).
  split; [apply div_ceil_pos; unfold CHUNK_SIZE; lia|].
  rewrite (wf_cpp _ H). apply div_ceil_mono; unfold CHUNK_SIZE; lia.
Qed.

Lemma validate_piece_index_Some l i p :
  validate_piece_index l i = Some p <-> p = i /\ i <= ln_last_piece_id l.
Proof.
  unfold validate_piece_index. rewrite Z.gtb_ltb.
  destruct (Z.ltb_spec (ln_last_piece_id l) i); naive_solver lia.
Qed.

Lemma validate_valid l i : valid_piece l i -> validate_piece_index l i = Some i.
Proof. intros [? ?]. by apply validate_piece_index_Some. Qed.

Create HintDb lengths.
#[export] Hint Resolve wf_total wf_piece wf_pieces wf_last_id wf_last_len wf_cpp
  last_id_spec total_pieces_wf piece_length_pos cpp_pos chunks_per_piece_bounds
  validate_valid : lengths.

(** ** Construction *)

Lemma Lengths_new_inv t p l :
  is_u64 t -> is_u32 p -> div_ceil t p < 2 ^ 32 ->
  Lengths_new t p = Ret (Ok l) ->
  lengths_wf l /\ ln_total_length l = t /\ ln_piece_length l = p.
Proof.
  unfold Lengths_new, is_uint. intros Ht Hp Hn.
  destruct (Z.eqb_spec t 0); [done|]. destruct (Z.eqb_spec p 0); [done|].
  intros [= <-]. split; [|done].
  pose proof (div_ceil_pos t p ltac:(lia) ltac:(lia)).
  pose proof (last_element_size_spec t p ltac:(lia) ltac:(lia)) as [_ ?].
  assert (0 <= div_ceil p CHUNK_SIZE <= p).
  { split; [apply div_ceil_nonneg|apply div_ceil_le]; unfold CHUNK_SIZE; lia. }
  split; simpl; try lia; rewrite ?wrap_id; try done; unfold is_uint; rewrite ?wrap_id;
    unfold is_uint; lia.
Qed.

(** ** Pieces tile the torrent *)

Lemma piece_infos_lens l :
  lengths_wf l ->
  pi_len <$> iter_piece_infos l
  = replicate (Z.to_nat (ln_last_piece_id l)) (ln_piece_length l)
    ++ [ln_last_piece_length l].
Proof.
  intros H. pose proof (last_id_spec l H) as (?&?&?).
  unfold iter_piece_infos. rewrite total_pieces_wf by done.
  rewrite <- list_fmap_compose, seqZ_app by lia. rewrite fmap_app. simpl. f_equal.
  - apply list_eq. intros i. rewrite list_lookup_fmap.
    destruct (decide (i < Z.to_nat (ln_last_piece_id l))%nat).
    + rewrite lookup_seqZ_lt, lookup_replicate_2 by lia. simpl.
      by destruct (Z.eqb_spec (0 + Z.of_nat i) (ln_last_piece_id l)); [lia|].
    + rewrite lookup_seqZ_ge by lia. symmetry. apply lookup_ge_None.
      rewrite length_replicate. lia.
  - unfold seqZ. simpl. destruct (Z.eqb_spec (Z.of_nat 0 + (0 + ln_last_piece_id l))
      (ln_last_piece_id l)); [done|lia].
Qed.

Lemma pieces_sum l :
  lengths_wf l -> zsum (pi_len <$> iter_piece_infos l) = ln_total_length l.
Proof.
  intros H. rewrite piece_infos_lens, zsum_app, zsum_replicate by done.
  pose proof (last_id_spec l H) as (?&?&?). rewrite Z2Nat.id by lia. simpl. lia.
Qed.

Lemma piece_info_lookup l k p :
  lengths_wf l -> iter_piece_infos l !! k = Some p ->
  pi_piece_index p = Z.of_nat k /\ valid_piece l (Z.of_nat k) /\ pi_len p = piece_length l (Z.of_nat k)
  /\ piece_offset l (Z.of_nat k) = zsum (pi_len <$> take k (iter_piece_infos l)).
Proof.
  intros H Hk. pose proof (last_id_spec l H) as (?&?&?). pose proof (wf_total _ H). pose proof (wf_piece _ H).
  rewrite fmap_take, piece_infos_lens by done.
  unfold iter_piece_infos in Hk. rewrite total_pieces_wf, list_lookup_fmap, fmap_Some in Hk by done.
  destruct Hk as (x & Hx & ->). apply lookup_seqZ in Hx as [-> Hx]. split_and!; [done|split; lia|done|].
  unfold piece_offset. rewrite wrap_id by (unfold is_uint; nia).
  rewrite take_app_le, take_replicate, zsum_replicate by (rewrite length_replicate; lia). rewrite Nat.min_l by lia. lia.
Qed.

Lemma piece_of_byte l b :
  lengths_wf l -> 0 <= b < ln_total_length l ->
  valid_piece l (b / ln_piece_length l)
  /\ piece_offset l (b / ln_piece_length l) + b mod ln_piece_length l = b
  /\ b mod ln_piece_length l < piece_length l (b / ln_piece_length l).
Proof.
  intros H Hb. pose proof (last_id_spec l H). pose proof (wf_piece _ H).
  pose proof (wf_total _ H).
  set (P := ln_piece_length l) in *.
  pose proof (Z.div_mod b P ltac:(lia)). pose proof (Z.mod_pos_bound b P ltac:(lia)).
  assert (0 <= b / P) by (apply Z.div_pos; lia).
  unfold valid_piece, piece_offset, piece_length. fold P.
  rewrite wrap_id by (unfold is_uint; nia).
  split_and!; [lia|nia|lia|].
  destruct (Z.eqb_spec (b / P) (ln_last_piece_id l)) as [He|]; [rewrite He in *; nia|lia].
Qed.

(** ** Chunks tile the piece *)

Lemma chunk_scan_spec index abs n : forall remaining offset idx fuel,
  0 <= remaining -> offset = idx * CHUNK_SIZE -> 0 <= idx ->
  idx * CHUNK_SIZE + remaining < 2 ^ 32 ->
  abs + idx + div_ceil remaining CHUNK_SIZE <= 2 ^ 32 -> 0 <= abs ->
  n = Z.to_nat (div_ceil remaining CHUNK_SIZE) ->
  (Z.to_nat remaining <= fuel)%nat ->
  chunk_scan fuel index abs remaining offset idx
  = (fun k => mkChunkInfo index k (abs + k) (Z.min CHUNK_SIZE (remaining - (k - idx) * CHUNK_SIZE))
                 (k * CHUNK_SIZE)) <$> seqZ idx (div_ceil remaining CHUNK_SIZE).
Proof.
  induction n as [|n IH]; intros remaining offset idx fuel Hr Ho Hi Hlt Habs Ha0 Hn Hf.
  all: pose proof (div_ceil_spec remaining CHUNK_SIZE eq_refl) as Hd;
    unfold CHUNK_SIZE in Hd at 1 3.
  - assert (remaining = 0) as -> by (unfold CHUNK_SIZE in *; lia). by destruct fuel.
  - assert (0 < div_ceil remaining CHUNK_SIZE) by lia.
    assert (0 < remaining) by (unfold CHUNK_SIZE in *; nia).
    destruct fuel as [|fuel]; [lia|]. cbn [chunk_scan].
    destruct (Z.eqb_spec remaining 0); [lia|].
    rewrite seqZ_cons by lia. cbn [fmap list_fmap].
    assert (div_ceil (remaining - Z.min remaining CHUNK_SIZE) CHUNK_SIZE
            = div_ceil remaining CHUNK_SIZE - 1) as Hdc.
    { symmetry. apply div_ceil_unique; unfold CHUNK_SIZE in *; lia. }
    f_equal.
    + f_equal; [apply wrap_id; unfold is_uint; lia | unfold CHUNK_SIZE in *; lia | done].
    + destruct (Z.le_gt_cases remaining CHUNK_SIZE).
      { assert (div_ceil remaining CHUNK_SIZE = 1) as Hone.
        { symmetry. apply div_ceil_unique; unfold CHUNK_SIZE in *; lia. }
        rewrite Hone. rewrite Z.min_l by lia. rewrite Z.sub_diag. by destruct fuel. }
      rewrite Z.min_r in * by lia.
      rewrite IH; try (unfold CHUNK_SIZE in *; lia).
      2:{ rewrite wrap_id; unfold is_uint, CHUNK_SIZE in *; lia. }
      rewrite Hdc. replace (Z.pred (div_ceil remaining CHUNK_SIZE))
        with (div_ceil remaining CHUNK_SIZE - 1) by lia.
      apply list_fmap_ext. intros i x Hx. f_equal. unfold CHUNK_SIZE. lia.
Qed.

(** The [k]-th chunk of piece [index]. *)
Definition nth_chunk (l : Lengths) (index k : Z) : ChunkInfo :=
  mkChunkInfo index k (index * ln_chunks_per_piece l + k)
    (Z.min CHUNK_SIZE (piece_length l index - k * CHUNK_SIZE)) (k * CHUNK_SIZE).

Lemma chunk_start_fits l i :
  lengths_wf l -> chunks_fit l -> valid_piece l i ->
  0 <= i * ln_chunks_per_piece l /\
  i * ln_chunks_per_piece l + chunks_per_piece l i < 2 ^ 32.
Proof.
  intros H Hf [? ?]. pose proof (cpp_pos l H). pose proof (chunks_per_piece_bounds l i H).
  unfold chunks_fit in Hf. nia.
Qed.

Lemma iter_chunk_infos_spec l i :
  lengths_wf l -> chunks_fit l -> valid_piece l i ->
  iter_chunk_infos l i = nth_chunk l i <$> seqZ 0 (chunks_per_piece l i).
Proof.
  intros H Hf Hv. pose proof (chunk_start_fits l i H Hf Hv) as [? Hs].
  pose proof (piece_length_pos l i H). pose proof (wf_piece _ H).
  pose proof (chunks_per_piece_bounds l i H).
  unfold iter_chunk_infos. rewrite chunks_per_piece_spec in * by done.
  rewrite wrap_id by (unfold is_uint; lia).
  erewrite chunk_scan_spec; try done; try lia; try (unfold CHUNK_SIZE; lia).
  apply list_fmap_ext. intros k x _. unfold nth_chunk. f_equal. f_equal.
  unfold CHUNK_SIZE. lia.
Qed.

Lemma chunk_size_spec l i k :
  lengths_wf l -> 0 <= k ->
  chunk_size l i k =
    if k <? chunks_per_piece l i
    then Some (Z.min CHUNK_SIZE (piece_length l i - k * CHUNK_SIZE)) else None.
Proof.
  intros H Hk. pose proof (piece_length_pos l i H). pose proof (wf_piece _ H).
  unfold chunk_size. rewrite chunks_per_piece_spec by done.
  set (n := piece_length l i) in *.
  pose proof (div_ceil_spec n CHUNK_SIZE eq_refl) as Hd.
  pose proof (div_ceil_pos n CHUNK_SIZE eq_refl ltac:(lia)).
  pose proof (div_ceil_le n CHUNK_SIZE eq_refl ltac:(lia)).
  rewrite wrap_id by (unfold is_uint; lia).
  pose proof (last_element_size_spec n CHUNK_SIZE eq_refl ltac:(lia)) as [He ?].
  unfold CHUNK_SIZE in *.
  destruct (Z.ltb_spec k (div_ceil n 16384 - 1)), (Z.ltb_spec k (div_ceil n 16384));
    try lia.
  - f_equal. lia.
  - destruct (Z.eqb_spec k (div_ceil n 16384 - 1)); [|lia]. rewrite He. f_equal. lia.
  - destruct (Z.eqb_spec k (div_ceil n 16384 - 1)); [lia|done].
Qed.

Lemma received_data_spec l i begin sz c :
  lengths_wf l -> chunks_fit l -> valid_piece l i -> is_u32 begin ->
  chunk_info_from_received_data l i begin sz = Some c <->
  exists k, 0 <= k < chunks_per_piece l i /\ c = nth_chunk l i k
    /\ begin = k * CHUNK_SIZE /\ sz = ci_size (nth_chunk l i k).
Proof.
  intros H Hf Hv Hb. unfold is_uint in Hb.
  pose proof (chunk_start_fits l i H Hf Hv) as [? Hs].
  pose proof (piece_length_pos l i H). pose proof (wf_piece _ H).
  pose proof (chunks_per_piece_bounds l i H).
  assert (0 <= begin / CHUNK_SIZE) by (apply Z.div_pos; unfold CHUNK_SIZE; lia).
  unfold chunk_info_from_received_data. rewrite chunk_size_spec by done.
  unfold chunk_offset_in_piece.
  pose proof (Z.mul_div_le begin CHUNK_SIZE eq_refl).
  rewrite (wrap_id 32 (begin / CHUNK_SIZE * CHUNK_SIZE)) by (unfold is_uint, CHUNK_SIZE in *; lia).
  rewrite Z.geb_leb, Z.leb_antisym.
  destruct (Z.ltb_spec (begin / CHUNK_SIZE) (chunks_per_piece l i)) as [Hlt|Hge]; simpl.
  2:{ split; [done|]. intros (k & Hk & -> & -> & ->).
      rewrite Z.div_mul in Hge by done. lia. }
  destruct (Z.eqb_spec (begin / CHUNK_SIZE * CHUNK_SIZE) begin) as [Hoff|Hoff]; simpl.
  2:{ split; [done|]. intros (k & Hk & -> & -> & ->). by rewrite Z.div_mul in Hoff. }
  destruct (Z.eqb_spec (Z.min CHUNK_SIZE (piece_length l i - begin / CHUNK_SIZE * CHUNK_SIZE)) sz)
    as [Hsz|Hsz]; simpl.
  2:{ split; [done|]. intros (k & Hk & -> & Hbk & ->). rewrite Hbk, Z.div_mul in Hsz by done.
      done. }
  rewrite (Z.mul_comm (ln_chunks_per_piece l)).
  rewrite !wrap_id; rewrite ?wrap_id; try (unfold is_uint; lia).
  split.
  - intros [= <-]. exists (begin / CHUNK_SIZE). unfold nth_chunk. simpl.
    split_and!; try done. by subst sz.
  - intros (k & Hk & -> & -> & ->). rewrite Z.div_mul by done. done.
Qed.

(** ** Files and pieces *)

Definition overlap (a b c d : Z) : Z := saturating_sub (Z.min b d) (Z.max a c).

Lemma overlap_split a m b c d :
  a <= m <= b -> overlap a b c d = overlap a m c d + overlap m b c d.
Proof. unfold overlap, saturating_sub. lia. Qed.

Lemma size_of_piece_in_file_overlap l p o n :
  lengths_wf l -> 0 <= p < 2 ^ 32 -> p * ln_piece_length l + ln_piece_length l < 2 ^ 64 ->
  0 <= o -> 0 <= n -> o + n < 2 ^ 64 ->
  size_of_piece_in_file l p o n
  = overlap (p * ln_piece_length l) ((p + 1) * ln_piece_length l) o (o + n).
Proof.
  intros H Hp Hpe ? ? ?. pose proof (wf_piece _ H).
  unfold size_of_piece_in_file, overlap.
  rewrite !wrap_id; rewrite ?wrap_id; try (unfold is_uint; nia).
  f_equal; lia.
Qed.

Lemma overlap_tiles P a n o e :
  0 < P -> 0 <= a ->
  zsum ((fun p => overlap (p * P) ((p + 1) * P) o e) <$> seqZ a (Z.of_nat n))
  = overlap (a * P) ((a + Z.of_nat n) * P) o e.
Proof.
  intros HP. revert a. induction n as [|n IH]; intros a Ha.
  - simpl. unfold overlap, saturating_sub. lia.
  - rewrite seqZ_cons by lia. cbn [fmap list_fmap zsum foldr].
    replace (Z.pred (Z.of_nat (S n))) with (Z.of_nat n) by lia.
    fold (zsum ((fun p => overlap (p * P) ((p + 1) * P) o e) <$> seqZ (Z.succ a) (Z.of_nat n))).
    rewrite IH by lia.
    rewrite (overlap_split (a * P) ((a + 1) * P) ((a + Z.of_nat (S n)) * P)) by nia.
    f_equal. f_equal; lia.
Qed.

Lemma file_range_spec l o n :
  lengths_wf l -> 0 <= o -> 0 <= n -> o + n <= ln_total_length l ->
  iter_pieces_within_offset l o n
  = (o / ln_piece_length l,
     if n =? 0 then o / ln_piece_length l else div_ceil (o + n) (ln_piece_length l)).
Proof.
  intros H ? ? ?. pose proof (wf_piece _ H). pose proof (wf_total _ H).
  pose proof (wf_pieces _ H).
  unfold iter_pieces_within_offset.
  rewrite (Z.min_l o) by lia. rewrite (wrap_id 64) by (unfold is_uint; lia).
  rewrite (Z.min_l (o + n)) by lia.
  assert (div_ceil (o + n) (ln_piece_length l) < 2 ^ 32).
  { pose proof (div_ceil_mono (o + n) (ln_total_length l) (ln_piece_length l)
      ltac:(lia) ltac:(lia)). lia. }
  pose proof (div_ceil_nonneg (o + n) (ln_piece_length l) ltac:(lia) ltac:(lia)).
  pose proof (div_ceil_spec (o + n) (ln_piece_length l) ltac:(lia)).
  assert (0 <= o / ln_piece_length l) by (apply Z.div_pos; lia).
  pose proof (Z.mul_div_le o (ln_piece_length l) ltac:(lia)).
  rewrite (wrap_id 32 (o / ln_piece_length l)) by (unfold is_uint; nia).
  f_equal. destruct (Z.eqb_spec (o + n) o), (Z.eqb_spec n 0); try lia.
  apply wrap_id. unfold is_uint. lia.
Qed.

Lemma file_range_bounds l o n :
  lengths_wf l -> 0 <= o -> 0 < n -> o + n <= ln_total_length l ->
  let r := iter_pieces_within_offset l o n in
  0 <= r.1 < r.2 /\ r.2 <= ln_last_piece_id l + 1
  /\ r.1 * ln_piece_length l <= o < (r.1 + 1) * ln_piece_length l
  /\ (r.2 - 1) * ln_piece_length l < o + n <= r.2 * ln_piece_length l.
Proof.
  intros H ? ? ?. rewrite file_range_spec by (done || lia). cbn.
  destruct (Z.eqb_spec n 0); [lia|].
  pose proof (wf_piece _ H). pose proof (wf_last_id _ H).
  pose proof (div_ceil_spec (o + n) (ln_piece_length l) ltac:(lia)).
  pose proof (Z.div_mod o (ln_piece_length l) ltac:(lia)).
  pose proof (Z.mod_pos_bound o (ln_piece_length l) ltac:(lia)).
  pose proof (div_ceil_mono (o + n) (ln_total_length l) (ln_piece_length l)
      ltac:(lia) ltac:(lia)).
  assert (0 <= o / ln_piece_length l) by (apply Z.div_pos; lia).
  split_and!; nia.
Qed.

(** The bytes of a file are counted once over the pieces of its range. *)
Lemma file_bytes_sum l o n :
  lengths_wf l -> ln_total_length l + ln_piece_length l <= 2 ^ 64 - 1 ->
  0 <= o -> 0 <= n -> o + n <= ln_total_length l ->
  zsum ((fun p => size_of_piece_in_file l p o n)
          <$> range_list (iter_pieces_within_offset l o n)) = n.
Proof.
  intros H Hsmall Ho Hn Hle. pose proof (wf_piece _ H). pose proof (wf_total _ H).
  pose proof (last_id_spec l H) as (?&?&?).
  destruct (Z.eq_dec n 0) as [->|].
  { rewrite file_range_spec by done. unfold range_list. simpl. by rewrite Z.sub_diag. }
  pose proof (file_range_bounds l o n H Ho ltac:(lia) Hle) as Hr.
  destruct (iter_pieces_within_offset l o n) as [a b]. unfold range_list. simpl in *.
  destruct Hr as (?&?&?&?).
  erewrite list_fmap_ext.
  2:{ intros i p Hp. apply list_elem_of_lookup_2, elem_of_seqZ in Hp.
      apply size_of_piece_in_file_overlap; try done; nia. }
  replace (b - a) with (Z.of_nat (Z.to_nat (b - a))) by lia.
  rewrite overlap_tiles by lia.
  rewrite Z2Nat.id by lia. replace (a + (b - a)) with b by lia.
  unfold overlap, saturating_sub. lia.
Qed.

(** ** Properties *)

Lemma chunk_sizes_prefix l i n :
  lengths_wf l -> (Z.of_nat n <= chunks_per_piece l i) ->
  zsum (ci_size <$> (nth_chunk l i <$> seqZ 0 (Z.of_nat n)))
  = Z.min (piece_length l i) (Z.of_nat n * CHUNK_SIZE).
Proof.
  intros H. pose proof (piece_length_pos l i H).
  rewrite chunks_per_piece_spec by done.
  pose proof (div_ceil_spec (piece_length l i) CHUNK_SIZE eq_refl).
  induction n as [|n IH]; intros Hn; [simpl; lia|].
  rewrite Nat2Z.inj_succ, <- Z.add_1_r, seqZ_app, !fmap_app, zsum_app by lia.
  rewrite IH by lia. unfold seqZ. simpl. unfold CHUNK_SIZE in *. lia.
Qed.

(** [Lengths::new] rejects an empty torrent, panics on a zero piece
    length, and otherwise returns the well-formed geometry of its arguments,
    provided the number of pieces fits a [u32]. *)
Theorem lengths_new_total (t p : Z) :
  is_u64 t -> is_u32 p -> (p = 0 \/ div_ceil t p < 2 ^ 32) ->
  (t = 0 /\ Lengths_new t p = Ret (Err BadTorrentZeroLength))
  \/ (t <> 0 /\ p = 0 /\ Lengths_new t p = Panic)
  \/ (t <> 0 /\ p <> 0 /\ exists l, Lengths_new t p = Ret (Ok l)
        /\ lengths_wf l /\ ln_total_length l = t /\ ln_piece_length l = p).
Proof.
  intros Ht Hp Hn. destruct (Z.eq_dec t 0) as [->|]; [by left|].
  right. destruct (Z.eq_dec p 0) as [->|].
  - left. split_and!; [done..|]. unfold Lengths_new. by destruct (Z.eqb_spec t 0).
  - right. split_and!; [done..|]. destruct Hn as [?|Hn]; [done|].
    assert (exists l, Lengths_new t p = Ret (Ok l)) as [l Hl].
    { unfold Lengths_new. destruct (Z.eqb_spec t 0), (Z.eqb_spec p 0); try done. eauto. }
    exists l. split; [done|]. by apply (Lengths_new_inv t p).
Qed.

Lemma lengths_new_total_witness :
  exists l, Lengths_new 1174243328 262144 = Ret (Ok l) /\ lengths_wf l.
Proof.
  destruct (lengths_new_total 1174243328 262144) as [[? _]|[(_ & ? & _)|(_ & _ & l & H)]];
    [done | done | right; reflexivity | done | done | ].
  exists l. by destruct H as (?&?&_).
Defined.

(** C18: the pieces tile the torrent and the chunks tile every piece. Piece [k] of the list
    has index [k] and starts, at [piece_offset], where the first [k] pieces end; all
    pieces but the last have the full length and the last is not empty; together they are the
    torrent. Chunk [k] of a piece has index [k] and starts where the first [k] chunks
    end; no chunk is empty or over 16 KiB; together they are the piece. *)
Theorem pieces_and_chunks_tile (l : Lengths) (i : Z) :
  lengths_wf l -> chunks_fit l -> valid_piece l i ->
  zsum (pi_len <$> iter_piece_infos l) = ln_total_length l
  /\ (forall k p, iter_piece_infos l !! k = Some p ->
        pi_piece_index p = Z.of_nat k /\ pi_len p = piece_length l (Z.of_nat k)
        /\ piece_offset l (Z.of_nat k) = zsum (pi_len <$> take k (iter_piece_infos l))
        /\ 0 < pi_len p <= ln_piece_length l
        /\ (Z.of_nat k < ln_last_piece_id l -> pi_len p = ln_piece_length l))
  /\ zsum (ci_size <$> iter_chunk_infos l i) = piece_length l i
  /\ (forall k c, iter_chunk_infos l i !! k = Some c ->
        ci_chunk_index c = Z.of_nat k /\ 0 < ci_size c <= CHUNK_SIZE
        /\ ci_offset c = zsum (ci_size <$> take k (iter_chunk_infos l i))).
Proof.
  intros H Hf Hv. pose proof (piece_length_pos l i H).
  pose proof (chunks_per_piece_bounds l i H). split; [by apply pieces_sum|]. split.
  { intros k p Hk. destruct (piece_info_lookup l k p H Hk) as (Hi & Hvk & Hl & Ho).
    pose proof (piece_length_pos l (Z.of_nat k) H). split_and!; try done; [lia..|]. intros Hlt. rewrite Hl. unfold piece_length.
    destruct (Z.eqb_spec (Z.of_nat k) (ln_last_piece_id l)); [lia|done]. }
  rewrite iter_chunk_infos_spec by done.
  pose proof (div_ceil_spec (piece_length l i) CHUNK_SIZE eq_refl) as Hd.
  rewrite <- chunks_per_piece_spec in Hd by done. split.
  - rewrite <- (Z2Nat.id (chunks_per_piece l i)) by lia.
    rewrite chunk_sizes_prefix by (done || lia). unfold CHUNK_SIZE in *. lia.
  - intros k c. rewrite list_lookup_fmap, fmap_Some. intros (x & Hx & ->).
    apply lookup_seqZ in Hx as [-> Hk]. simpl.
    rewrite <- fmap_take.
    replace (take k (seqZ 0 (chunks_per_piece l i))) with (seqZ 0 (Z.of_nat k)).
    2:{ replace (chunks_per_piece l i) with (Z.of_nat k + (chunks_per_piece l i - Z.of_nat k))
          by lia. rewrite seqZ_app by lia. rewrite take_app_length'; [done|].
        rewrite length_seqZ. lia. }
    rewrite chunk_sizes_prefix by (done || lia). unfold CHUNK_SIZE in *. lia.
Qed.

Lemma pieces_and_chunks_tile_witness :
  zsum (ci_size <$> iter_chunk_infos (mkLengths 21000 20000 1 1000 2) 0) = 20000.
Proof.
  apply (pieces_and_chunks_tile (mkLengths 21000 20000 1 1000 2) 0);
    [split; done | done | split; done].
Defined.

(** A block received from a peer is accepted exactly when it is one of the
    chunks of the piece: [chunk_info_from_received_data] answers [c] iff [c]
    is listed by [iter_chunk_infos] with that offset and size. *)
Theorem received_data_iff_chunk (l : Lengths) (i begin sz : Z) (c : ChunkInfo) :
  lengths_wf l -> chunks_fit l -> valid_piece l i -> is_u32 begin ->
  chunk_info_from_received_data l i begin sz = Some c <->
  c ∈ iter_chunk_infos l i /\ ci_offset c = begin /\ ci_size c = sz.
Proof.
  intros H Hf Hv Hb. rewrite received_data_spec, iter_chunk_infos_spec by done.
  rewrite list_elem_of_fmap. split.
  - intros (k & Hk & -> & -> & ->). split_and!; try done.
    exists k. split; [done|]. apply elem_of_seqZ. lia.
  - intros ((k & -> & Hk) & <- & <-). apply elem_of_seqZ in Hk.
    exists k. split_and!; (done || lia).
Qed.

Lemma received_data_iff_chunk_witness :
  mkChunkInfo 1 1 3 3616 16384 ∈ iter_chunk_infos (mkLengths 40000 20000 1 20000 2) 1.
Proof.
  apply (received_data_iff_chunk (mkLengths 40000 20000 1 20000 2) 1 16384 3616);
    [split; done | done | split; done | split; done | vm_compute; reflexivity].
Defined.

(** For a file inside the torrent, the pieces of its range are exactly the
    pieces that hold a byte of it, and the sizes of the file in those pieces
    add up to its length. *)
Theorem file_pieces_cover (l : Lengths) (o n : Z) :
  lengths_wf l -> ln_total_length l + ln_piece_length l < 2 ^ 64 ->
  0 <= o -> 0 <= n -> o + n <= ln_total_length l ->
  zsum ((fun p => size_of_piece_in_file l p o n)
          <$> range_list (iter_pieces_within_offset l o n)) = n
  /\ (forall p, valid_piece l p ->
        p ∈ range_list (iter_pieces_within_offset l o n)
        <-> 0 < size_of_piece_in_file l p o n).
Proof.
  intros H Hs Ho Hn Hle. split; [by apply file_bytes_sum; try done; lia|].
  intros p [Hp0 Hp]. pose proof (wf_piece _ H). pose proof (last_id_spec l H) as (?&?&?).
  pose proof (wf_total _ H).
  rewrite size_of_piece_in_file_overlap; try done; try nia.
  destruct (Z.eq_dec n 0) as [->|].
  { rewrite file_range_spec by done. unfold range_list, overlap, saturating_sub. simpl.
    rewrite elem_of_seqZ. lia. }
  pose proof (file_range_bounds l o n H Ho ltac:(lia) Hle) as Hr.
  destruct (iter_pieces_within_offset l o n) as [a b]. unfold range_list. simpl in *.
  destruct Hr as (?&?&?&?). rewrite elem_of_seqZ. unfold overlap, saturating_sub.
  set (P := ln_piece_length l) in *.
  pose proof (fun x y => Z.mul_le_mono_nonneg_r x y P ltac:(lia)) as Hmono.
  split; intros Hpos.
  - pose proof (Hmono a p ltac:(lia)). pose proof (Hmono (p + 1) b ltac:(lia)).
    pose proof (Hmono (a + 1) (p + 1) ltac:(lia)). pose proof (Hmono p (b - 1) ltac:(lia)). lia.
  - destruct (Z.lt_ge_cases p a); [pose proof (Hmono (p + 1) a ltac:(lia)); lia|].
    destruct (Z.lt_ge_cases p b); [lia|]. pose proof (Hmono b p ltac:(lia)). lia.
Qed.

Lemma file_pieces_cover_witness :
  iter_pieces_within_offset (mkLengths 21 10 2 1 1) 5 16 = (0, 3)
  /\ zsum ((fun p => size_of_piece_in_file (mkLengths 21 10 2 1 1) p 5 16)
          <$> range_list (iter_pieces_within_offset (mkLengths 21 10 2 1 1) 5 16)) = 16.
Proof.
  split; [reflexivity|].
  apply (file_pieces_cover (mkLengths 21 10 2 1 1) 5 16); [split; done | cbn; lia..].
Defined.

(** [compute_current_piece] of a position inside the torrent finds the piece
    that holds the byte and the number of bytes left in it, but its
    [piece_offset] is the index of the piece and not the offset inside it. *)
Lemma current_piece_offset_is_piece_index (l : Lengths) (pos off : Z) :
  lengths_wf l -> 0 <= off -> 0 <= pos -> off + pos < ln_total_length l ->
  exists cp, compute_current_piece l pos off = Some cp
    /\ piece_offset l (cp_id cp) <= off + pos
         < piece_offset l (cp_id cp) + piece_length l (cp_id cp)
    /\ cp_piece_remaining cp
         = piece_offset l (cp_id cp) + piece_length l (cp_id cp) - (off + pos)
    /\ cp_piece_offset cp = cp_id cp.
Proof.
  intros H ? ? ?. pose proof (wf_total _ H). pose proof (wf_piece _ H).
  destruct (piece_of_byte l (off + pos) H ltac:(lia)) as (Hv & Hb & Hr).
  pose proof (Z.mod_pos_bound (off + pos) (ln_piece_length l) ltac:(lia)).
  pose proof (piece_length_pos l ((off + pos) / ln_piece_length l) H).
  pose proof (last_id_spec l H) as (_&_&?). destruct Hv.
  unfold compute_current_piece. rewrite (wrap_id 64 (off + pos)) by (unfold is_uint; lia).
  rewrite try_into_small by (unfold is_uint; lia). simpl.
  rewrite validate_valid by (split; lia). simpl.
  rewrite wrap_id by (unfold is_uint; lia).
  rewrite try_into_small by (unfold is_uint; lia). simpl.
  eexists. split; [done|]. simpl. lia.
Qed.

Lemma current_piece_offset_is_piece_index_witness :
  exists cp, compute_current_piece (mkLengths 21 10 2 1 1) 3 10 = Some cp
    /\ cp_piece_offset cp = 1.
Proof.
  destruct (current_piece_offset_is_piece_index (mkLengths 21 10 2 1 1) 3 10)
    as (cp & Hcp & _ & _ & Ho); [split; done | lia | lia | simpl; lia |].
  exists cp. split; [done|]. rewrite Ho. vm_compute in Hcp. by simplify_eq.
Defined.
