(* ===== verification/FileInfo.v ===== *)
(** * Files of a torrent ([librqbit::file_info])

    [FileInfo] and the order in which the pieces of a file are handed out. *)

From stdpp Require Import base tactics option list list_numbers numbers decidable.
From Stdlib Require Import ZArith Lia.
From S2P Require Import Prelude Lengths.
Open Scope Z_scope.

Record FileDetailsAttrs := mkAttrs {
  fa_symlink : bool;
  fa_hidden : bool;
  fa_padding : bool;
  fa_executable : bool
}.

Definition FileDetailsAttrs_default : FileDetailsAttrs := mkAttrs false false false false.

(** A [PathBuf] is the list of its components; [piece_range] is a [Range<u32>]. *)
Record FileInfo := mkFileInfo {
  fi_relative_filename : list bytes;
  fi_offset_in_torrent : Z;
  fi_piece_range : Z * Z;
  fi_attrs : FileDetailsAttrs;
  fi_len : Z
}.

Definition range_len (r : Z * Z) : Z := Z.max 0 (r.2 - r.1).

(** First piece, last piece, then the others; the [overflowing_sub]s of an empty
    or one-piece range wrap to large counts, which the final [take] cuts. *)
Definition iter_piece_priorities (r : Z * Z) : list Z :=
  let first := [r.1] in
  let last := [u64 (r.1 + u64 (range_len r - 1))] in
  let mid := ztake (u64 (range_len r - 2)) (drop 1 (range_list r)) in
  ztake (range_len r) (first ++ last ++ mid).

Definition piece_range_usize (f : FileInfo) : Z * Z := fi_piece_range f.

Definition FileInfo_iter_piece_priorities (f : FileInfo) : list Z :=
  iter_piece_priorities (piece_range_usize f).

Lemma range_list_cons a b : a < b -> range_list (a, b) = a :: range_list (a + 1, b).
Proof.
  intros. unfold range_list. simpl. rewrite seqZ_cons by lia.
  f_equal. f_equal; lia.
Qed.

Lemma range_list_snoc a b : a < b -> range_list (a, b) = range_list (a, b - 1) ++ [b - 1].
Proof.
  intros. unfold range_list. simpl.
  replace (b - a) with ((b - 1 - a) + 1) by lia. rewrite seqZ_app by lia.
  f_equal. unfold seqZ. simpl. f_equal. lia.
Qed.

Lemma range_list_nil a b : b <= a -> range_list (a, b) = [].
Proof. intros. unfold range_list. simpl. apply seqZ_nil. lia. Qed.

Lemma elem_of_range_list a b x : x ∈ range_list (a, b) <-> a <= x < b.
Proof. unfold range_list. simpl. rewrite elem_of_seqZ. lia. Qed.

Lemma NoDup_range_list r : NoDup (range_list r).
Proof. apply NoDup_seqZ. Qed.

(** On a range of at least two pieces the order is first, last, middle. *)
Lemma iter_piece_priorities_long a b :
  0 <= a -> a + 2 <= b -> b < 2 ^ 64 ->
  iter_piece_priorities (a, b) = a :: (b - 1) :: range_list (a + 1, b - 1).
Proof.
  intros. unfold iter_piece_priorities. rewrite !ztake_take. unfold range_len. simpl.
  rewrite Z.max_r by lia. rewrite !wrap_id; rewrite ?wrap_id; try (unfold is_uint; lia).
  rewrite range_list_cons, range_list_snoc by lia. simpl.
  assert (length (range_list (a + 1, b - 1)) = Z.to_nat (b - a - 2)) as Hlen.
  { unfold range_list. rewrite length_seqZ. simpl. lia. }
  rewrite drop_0, (take_app_length' _ _ (Z.to_nat (b - a - 2))) by lia.
  replace (Z.to_nat (b - a)) with (S (S (Z.to_nat (b - a - 2)))) by lia. simpl.
  f_equal. f_equal; [lia|]. by rewrite take_ge by lia.
Qed.

(** Every piece of the range is produced exactly once. *)
Lemma iter_piece_priorities_perm a b :
  0 <= a -> b < 2 ^ 64 -> iter_piece_priorities (a, b) ≡ₚ range_list (a, b).
Proof.
  intros. destruct (Z.le_gt_cases b a).
  - rewrite range_list_nil by done. unfold iter_piece_priorities. rewrite ztake_take.
    unfold range_len. simpl. rewrite Z.max_l by lia. done.
  - destruct (Z.eq_dec b (a + 1)) as [->|].
    + rewrite range_list_cons, range_list_nil by lia.
      unfold iter_piece_priorities. rewrite ztake_take. unfold range_len. simpl.
      by replace (Z.to_nat (0 `max` (a + 1 - a))) with 1%nat by lia.
    + rewrite iter_piece_priorities_long by lia.
      rewrite (range_list_cons a b), (range_list_snoc (a + 1) b) by lia. constructor.
      apply Permutation_cons_append.
Qed.
