(* ===== verification/ChunkTracker.v ===== *)
(** * Chunk tracker ([librqbit::chunk_tracker])

    The bitfields that say which pieces are queued, selected and had, which
    chunks were written, and the byte counters kept beside them.  A bitfield
    ([BF], [BS], [BoxBitV]) is the list of its bits; a bit index out of range
    panics in [v[i]] and [set], and is [None] in [get]. *)

From stdpp Require Import base tactics option list list_numbers numbers decidable gmap.
From Stdlib Require Import ZArith Lia.
From S2P Require Import Prelude Lengths FileInfo.
Open Scope Z_scope.

Abbreviation BF := (list bool).

(** [BF::from_boxed_slice(vec![0u8; n])]. *)
Definition bf_zeroed (n_bytes : Z) : BF := replicate (Z.to_nat (8 * n_bytes)) false.

(** [iter_ones]: the indexes of the set bits, in order. *)
Definition iter_ones (b : BF) : list nat :=
  (fun p : nat * bool => p.1) <$> filter (fun p : nat * bool => p.2 = true) (imap pair b).

Record HaveNeededSelected := mkHNS {
  have_bytes : Z;
  needed_bytes : Z;
  selected_bytes : Z
}.

Definition HNS_default : HaveNeededSelected := mkHNS 0 0 0.

Definition hns_progress (h : HaveNeededSelected) : Z := u64 (selected_bytes h - needed_bytes h).

Definition hns_total (h : HaveNeededSelected) : Z := selected_bytes h.

Definition hns_finished (h : HaveNeededSelected) : bool := needed_bytes h =? 0.

Record ChunkTracker := mkChunkTracker {
  queue_pieces : BF;
  chunk_status : BF;
  have : BF;
  selected : BF;
  per_file_bytes : list Z;
  ct_lengths : Lengths;
  ct_hns : HaveNeededSelected
}.

Definition set_queue_pieces (q : BF) (ct : ChunkTracker) : ChunkTracker :=
  mkChunkTracker q (chunk_status ct) (have ct) (selected ct) (per_file_bytes ct)
    (ct_lengths ct) (ct_hns ct).

Definition set_chunk_status (c : BF) (ct : ChunkTracker) : ChunkTracker :=
  mkChunkTracker (queue_pieces ct) c (have ct) (selected ct) (per_file_bytes ct)
    (ct_lengths ct) (ct_hns ct).

Definition set_have (h : BF) (ct : ChunkTracker) : ChunkTracker :=
  mkChunkTracker (queue_pieces ct) (chunk_status ct) h (selected ct) (per_file_bytes ct)
    (ct_lengths ct) (ct_hns ct).

Definition set_selected (s : BF) (ct : ChunkTracker) : ChunkTracker :=
  mkChunkTracker (queue_pieces ct) (chunk_status ct) (have ct) s (per_file_bytes ct)
    (ct_lengths ct) (ct_hns ct).

Definition set_per_file_bytes (p : list Z) (ct : ChunkTracker) : ChunkTracker :=
  mkChunkTracker (queue_pieces ct) (chunk_status ct) (have ct) (selected ct) p
    (ct_lengths ct) (ct_hns ct).

Definition set_hns (h : HaveNeededSelected) (ct : ChunkTracker) : ChunkTracker :=
  mkChunkTracker (queue_pieces ct) (chunk_status ct) (have ct) (selected ct)
    (per_file_bytes ct) (ct_lengths ct) h.

Inductive CtError :=
| HavePiecesTooShort
| SelectedLenMismatch
| BugInBitvec.

(** [bf.get_mut(a..b)] followed by [fill(v)]: [None] when the range is not
    inside the slice. *)
Definition bf_fill_range (b : BF) (r : Z * Z) (v : bool) : option BF :=
  let a := Z.to_nat r.1 in
  let e := Z.to_nat r.2 in
  match slice_get b a e with
  | Some _ => Some (list_fill a e v b)
  | None => None
  end.

(** One round of the loop of [compute_chunk_have_status]. *)
Definition chunk_have_step (l : Lengths) (have_pieces chunk_bf : BF) (piece : PieceInfo)
    : exec CtError BF :=
  let chunks := chunks_per_piece l (pi_piece_index piece) in
  let offset := u32 (ln_chunks_per_piece l * pi_piece_index piece) in
  h ← exec_of_outcome (index have_pieces (Z.to_nat (pi_piece_index piece)));
  if (h : bool) then
    match bf_fill_range chunk_bf (offset, offset + chunks) true with
    | Some b => XOk b
    | None => XErr BugInBitvec
    end
  else XOk chunk_bf.

Definition compute_chunk_have_status (l : Lengths) (have_pieces : BF) : exec CtError BF :=
  if Z.of_nat (length have_pieces) <? total_pieces l then XErr HavePiecesTooShort
  else
    let chunk_bf := bf_zeroed (chunk_bitfield_bytes l) in
    foldM (chunk_have_step l have_pieces) chunk_bf (iter_piece_infos l).

Definition compute_queued_pieces_unchecked (have_pieces selected_pieces : BF) : BF :=
  zip_with (fun h s => negb h && s) have_pieces selected_pieces.

Definition compute_queued_pieces (have_pieces selected_pieces : BF) : exec CtError BF :=
  if negb (length have_pieces =? length selected_pieces)%nat then XErr SelectedLenMismatch
  else XOk (compute_queued_pieces_unchecked have_pieces selected_pieces).

Definition compute_selected_pieces (l : Lengths) (only_files_is_empty_or_contains : nat -> bool)
    (file_infos : list FileInfo) : BF :=
  foldl (fun bf (p : nat * FileInfo) =>
      let '(id, fi) := p in
      if negb (fa_padding (fi_attrs fi)) && only_files_is_empty_or_contains id then
        match bf_fill_range bf (piece_range_usize fi) true with
        | Some bf' => bf'
        | None => bf
        end
      else bf)
    (bf_zeroed (piece_bitfield_bytes l)) (imap pair file_infos).

Inductive ChunkMarkingResult :=
| PreviouslyCompleted
| NotCompleted
| Completed.

(** ** Byte counters *)

(** The [sum()] of one file in [recalculate_per_file_bytes]. *)
Definition file_have_bytes (l : Lengths) (hv : BF) (fi : FileInfo) : outcome Z :=
  foldM (fun acc p =>
      h ← index hv (Z.to_nat p);
      Ret (if (h : bool)
           then u64 (acc + size_of_piece_in_file l p (fi_offset_in_torrent fi) (fi_len fi))
           else acc))
    0 (range_list (fi_piece_range fi)).

Fixpoint recalculate_slots (l : Lengths) (hv : BF) (slots : list Z) (fis : list FileInfo)
    : outcome (list Z) :=
  match slots, fis with
  | _ :: slots, fi :: fis =>
    v ← file_have_bytes l hv fi;
    r ← recalculate_slots l hv slots fis;
    Ret (v :: r)
  | _, _ => Ret slots
  end.

Definition recalculate_per_file_bytes (ct : ChunkTracker) (file_infos : list FileInfo)
    : outcome ChunkTracker :=
  p ← recalculate_slots (ct_lengths ct) (have ct) (per_file_bytes ct) file_infos;
  Ret (set_per_file_bytes p ct).

Definition calc_hns (ct : ChunkTracker) : outcome HaveNeededSelected :=
  foldM (fun hns piece =>
      let id := Z.to_nat (pi_piece_index piece) in
      let len := pi_len piece in
      is_have ← index (have ct) id;
      is_selected ← index (selected ct) id;
      let is_needed := is_selected && negb is_have in
      Ret {| have_bytes := u64 (have_bytes hns + len * Z.b2z is_have);
             selected_bytes := u64 (selected_bytes hns + len * Z.b2z is_selected);
             needed_bytes := u64 (needed_bytes hns + len * Z.b2z is_needed) |})
    HNS_default (iter_piece_infos (ct_lengths ct)).

(** ** Construction *)

Definition ChunkTracker_new (have_pieces selected_pieces : BF) (l : Lengths)
    (file_infos : list FileInfo) : exec CtError ChunkTracker :=
  needed_pieces ← compute_queued_pieces have_pieces selected_pieces;
  status ← compute_chunk_have_status l have_pieces;
  let ct := {| chunk_status := status;
               queue_pieces := needed_pieces;
               selected := selected_pieces;
               ct_lengths := l;
               have := have_pieces;
               ct_hns := HNS_default;
               per_file_bytes := replicate (length file_infos) 0 |} in
  ct ← exec_of_outcome (recalculate_per_file_bytes ct file_infos);
  h ← exec_of_outcome (calc_hns ct);
  XOk (set_hns h ct).

(** ** Operations *)

Definition reserve_needed_piece (ct : ChunkTracker) (index : ValidPieceIndex)
    : outcome ChunkTracker :=
  q ← slice_set (queue_pieces ct) (Z.to_nat index) false;
  Ret (set_queue_pieces q ct).

(** The items of one file: the part of the iterator chain below [flat_map]. *)
Definition iter_queued_file (ct : ChunkTracker) (file_infos : list FileInfo)
    (acc : list ValidPieceIndex) (p : nat) : outcome (list ValidPieceIndex) :=
  match file_infos !! p with
  | None => Ret acc
  | Some f =>
    b ← index (per_file_bytes ct) p;
    if b =? fi_len f then Ret acc
    else
      foldM (fun acc id =>
          q ← index (queue_pieces ct) (Z.to_nat id);
          Ret (if (q : bool) then
                 match (i ← try_into 32 id; validate_piece_index (ct_lengths ct) i) with
                 | Some v => acc ++ [v]
                 | None => acc
                 end
               else acc))
        acc (FileInfo_iter_piece_priorities f)
  end.

Definition iter_queued_pieces (ct : ChunkTracker) (file_priorities : list nat)
    (file_infos : list FileInfo) : outcome (list ValidPieceIndex) :=
  foldM (iter_queued_file ct file_infos) [] file_priorities.

Definition iter_queued_in_order (ct : ChunkTracker) (order : list Z) : list ValidPieceIndex :=
  omap (fun id =>
      if default false (queue_pieces ct !! Z.to_nat id) then
        i ← try_into 32 id; validate_piece_index (ct_lengths ct) i
      else None) order.

Definition is_piece_have (ct : ChunkTracker) (id : ValidPieceIndex) : outcome bool :=
  index (have ct) (Z.to_nat id).

Definition clear_chunks (ct : ChunkTracker) (index : ValidPieceIndex) : ChunkTracker :=
  match bf_fill_range (chunk_status ct) (chunk_range (ct_lengths ct) index) false with
  | Some s => set_chunk_status s ct
  | None => ct
  end.

Definition mark_piece_broken_if_not_have (ct : ChunkTracker) (index : ValidPieceIndex)
    : outcome ChunkTracker :=
  if default false (have ct !! Z.to_nat index) then Ret ct
  else
    q ← slice_set (queue_pieces ct) (Z.to_nat index) true;
    Ret (clear_chunks (set_queue_pieces q ct) index).

Definition mark_piece_deferred (ct : ChunkTracker) (index : ValidPieceIndex)
    : outcome ChunkTracker :=
  if default false (have ct !! Z.to_nat index) then Ret ct
  else
    q ← slice_set (queue_pieces ct) (Z.to_nat index) false;
    Ret (clear_chunks (set_queue_pieces q ct) index).

(** One round of the loop of [mark_pieces_missing]. *)
Definition mark_piece_missing (st : ChunkTracker * Z) (idx : ValidPieceIndex)
    : outcome (ChunkTracker * Z) :=
  let '(ct, invalidated) := st in
  let id := Z.to_nat idx in
  h ← index (have ct) id;
  st ← (if (h : bool) then
          hv ← slice_set (have ct) id false;
          Ret (set_have hv ct, invalidated + 1)
        else Ret (ct, invalidated));
  let '(ct, invalidated) := (st : ChunkTracker * Z) in
  let ct := clear_chunks ct idx in
  s ← index (selected ct) id;
  if (s : bool) then
    q ← slice_set (queue_pieces ct) id true;
    Ret (set_queue_pieces q ct, invalidated)
  else Ret (ct, invalidated).

Definition mark_pieces_missing (ct : ChunkTracker) (pieces : list ValidPieceIndex)
    (file_infos : list FileInfo) : outcome (ChunkTracker * Z) :=
  st ← foldM mark_piece_missing (ct, 0) pieces;
  ct ← recalculate_per_file_bytes st.1 file_infos;
  h ← calc_hns ct;
  Ret (set_hns h ct, st.2).

Definition mark_piece_downloaded (ct : ChunkTracker) (idx : ValidPieceIndex)
    : outcome ChunkTracker :=
  let id := Z.to_nat idx in
  q ← slice_set (queue_pieces ct) id false;
  let ct := set_queue_pieces q ct in
  h ← index (have ct) id;
  if (h : bool) then Ret ct
  else
    hv ← slice_set (have ct) id true;
    let ct := set_have hv ct in
    let len := piece_length (ct_lengths ct) idx in
    let hns := ct_hns ct in
    let hns := mkHNS (u64 (have_bytes hns + len)) (needed_bytes hns) (selected_bytes hns) in
    s ← index (selected ct) id;
    let hns :=
      if (s : bool)
      then mkHNS (have_bytes hns) (u64 (needed_bytes hns - len)) (selected_bytes hns)
      else hns in
    Ret (set_hns hns ct).

Definition is_chunk_ready_to_upload (ct : ChunkTracker) (chunk : ChunkInfo) : bool :=
  default false (have ct !! Z.to_nat (ci_piece_index chunk)).

Definition get_remaining_bytes (ct : ChunkTracker) : Z := needed_bytes (ct_hns ct).

(** The block received: [piece.index], [piece.begin], [piece.len()]. *)
Definition mark_chunk_downloaded (ct : ChunkTracker) (p_index p_begin p_len : Z)
    : outcome (ChunkTracker * option ChunkMarkingResult) :=
  match validate_piece_index (ct_lengths ct) p_index with
  | None => Ret (ct, None)
  | Some pi =>
    match try_into 32 p_len with
    | None => Panic
    | Some len =>
      match chunk_info_from_received_data (ct_lengths ct) pi p_begin len with
      | None => Ret (ct, None)
      | Some ci =>
        let r := chunk_range (ct_lengths ct) (ci_piece_index ci) in
        match slice_get (chunk_status ct) (Z.to_nat r.1) (Z.to_nat r.2) with
        | None => Panic
        | Some bits =>
          if forallb id bits then Ret (ct, Some PreviouslyCompleted)
          else
            bits' ← slice_set bits (Z.to_nat (ci_chunk_index ci)) true;
            let status :=
              take (Z.to_nat r.1) (chunk_status ct) ++ bits'
              ++ drop (Z.to_nat r.2) (chunk_status ct) in
            let ct := set_chunk_status status ct in
            if forallb id bits' then Ret (ct, Some Completed)
            else Ret (ct, Some NotCompleted)
        end
      end
    end
  end.

(** The requeue block of [update_only_files]: the pieces that were not selected,
    are selected now and are not had. *)
Definition newly_needed (ct : ChunkTracker) (prev_selected : BF) : outcome BF :=
  foldM (fun b idx =>
      p ← index prev_selected idx;
      if (p : bool) then Ret b
      else
        h ← index (have ct) idx;
        if (h : bool) then Ret b else slice_set b idx true)
    (bf_zeroed (piece_bitfield_bytes (ct_lengths ct))) (iter_ones (selected ct)).

Definition requeue_pieces (ct : ChunkTracker) (b : BF) : outcome ChunkTracker :=
  foldM (fun ct idx =>
      match validate_piece_index (ct_lengths ct) (u32 (Z.of_nat idx)) with
      | Some i => mark_piece_broken_if_not_have ct i
      | None => Ret ct
      end) ct (iter_ones b).

Definition update_only_files (ct : ChunkTracker) (file_infos : list FileInfo)
    (new_only_files : gset nat) : outcome (ChunkTracker * HaveNeededSelected) :=
  let sel := compute_selected_pieces (ct_lengths ct)
               (fun idx => bool_decide (idx ∈ new_only_files)) file_infos in
  let prev_selected := selected ct in
  let ct := set_selected sel ct in
  b ← newly_needed ct prev_selected;
  ct ← requeue_pieces ct b;
  let have_or_selected := zip_with orb (selected ct) (have ct) in
  let ct := set_queue_pieces (zip_with andb (queue_pieces ct) have_or_selected) ct in
  h ← calc_hns ct;
  Ret (set_hns h ct, h).

Definition is_file_finished (ct : ChunkTracker) (fi : FileInfo) : bool :=
  let r := piece_range_usize fi in
  match slice_get (have ct) (Z.to_nat r.1) (Z.to_nat r.2) with
  | Some bits => forallb id bits
  | None => true
  end.

Definition is_finished (ct : ChunkTracker) : bool := hns_finished (ct_hns ct).

Definition update_file_have_on_piece_completed (ct : ChunkTracker) (piece_id : ValidPieceIndex)
    (file_id : nat) (fi : FileInfo) : outcome (ChunkTracker * Z) :=
  let diff_have := size_of_piece_in_file (ct_lengths ct) piece_id
                     (fi_offset_in_torrent fi) (fi_len fi) in
  b ← index (per_file_bytes ct) file_id;
  let b' := u64 (b + diff_have) in
  p ← slice_set (per_file_bytes ct) file_id b';
  Ret (set_per_file_bytes p ct, saturating_sub (fi_len fi) b').

(** ** Bits and sums *)

Definition bit (b : BF) (i : nat) : bool := default false (b !! i).

Lemma bit_true b i : bit b i = true <-> b !! i = Some true.
Proof. unfold bit. destruct (b !! i) as [[]|]; naive_solver. Qed.

Lemma bit_lookup b i : (i < length b)%nat -> b !! i = Some (bit b i).
Proof. intros. unfold bit. by destruct (lookup_lt_is_Some_2 b i) as [x ->]. Qed.

Lemma index_bit b i : (i < length b)%nat -> index b i = Ret (bit b i).
Proof. intros. apply index_Ret. by apply bit_lookup. Qed.

Lemma bit_insert b i j v :
  (i < length b)%nat -> bit (<[i := v]> b) j = if decide (i = j) then v else bit b j.
Proof.
  intros. unfold bit. destruct (decide (i = j)) as [->|].
  - by rewrite list_lookup_insert_eq.
  - by rewrite list_lookup_insert_ne.
Qed.

Lemma bit_fill b a e v i :
  (a <= e <= length b)%nat ->
  bit (list_fill a e v b) i = if decide (a <= i < e)%nat then v else bit b i.
Proof. intros. unfold bit. rewrite lookup_list_fill by done. by case_decide. Qed.

Lemma bit_zip f (a b : BF) i :
  length a = length b -> (i < length a)%nat ->
  bit (zip_with f a b) i = f (bit a i) (bit b i).
Proof.
  intros Hl Hi. unfold bit at 1. rewrite lookup_zip_with.
  by rewrite (bit_lookup a), (bit_lookup b) by lia.
Qed.

Lemma elem_of_iter_ones b i : i ∈ iter_ones b <-> b !! i = Some true.
Proof.
  unfold iter_ones. rewrite list_elem_of_fmap. split.
  - intros ([j v] & -> & Hf). apply list_elem_of_filter in Hf as [Hv Hin]. simpl in *. subst v.
    apply list_elem_of_lookup in Hin as [k Hk].
    rewrite list_lookup_imap in Hk. destruct (b !! k) eqn:E; simpl in Hk; [|done].
    by simplify_eq.
  - intros Hi. exists (i, true). split; [done|]. apply list_elem_of_filter. split; [done|].
    apply list_elem_of_lookup. exists i. by rewrite list_lookup_imap, Hi.
Qed.

Lemma length_bf_zeroed n : length (bf_zeroed n) = Z.to_nat (8 * n).
Proof. apply length_replicate. Qed.

Lemma bit_zeroed n i : bit (bf_zeroed n) i = false.
Proof.
  unfold bit, bf_zeroed. destruct (replicate _ _ !! i) eqn:E; [|done].
  by apply lookup_replicate in E as [-> _].
Qed.

(** The bytes of the pieces whose index satisfies [P]. *)
Definition bytes_where (l : Lengths) (P : nat -> bool) : Z :=
  zsum ((fun i => if P (Z.to_nat i) then piece_length l i else 0) <$> seqZ 0 (total_pieces l)).

Lemma zsum_fmap_le {A} (f g : A -> Z) (xs : list A) :
  (forall x, x ∈ xs -> f x <= g x) -> zsum (f <$> xs) <= zsum (g <$> xs).
Proof.
  induction xs as [|x xs IH]; intros H; [done|]. rewrite !fmap_cons, !zsum_cons.
  pose proof (H x ltac:(left)). assert (zsum (f <$> xs) <= zsum (g <$> xs)) by (apply IH; intros; apply H; by right).
  lia.
Qed.

Lemma zsum_fmap_update {A} (f g : A -> Z) (xs : list A) x :
  NoDup xs -> x ∈ xs -> (forall y, y ∈ xs -> y <> x -> f y = g y) ->
  zsum (g <$> xs) = zsum (f <$> xs) + g x - f x.
Proof.
  induction 1 as [|y xs Hy Hnd IH]; intros Hx Heq; [by apply not_elem_of_nil in Hx|].
  rewrite !fmap_cons, !zsum_cons. apply elem_of_cons in Hx as [<-|Hx].
  - assert (f <$> xs = g <$> xs) as ->; [|lia].
    apply list_fmap_ext. intros i z Hz. apply list_elem_of_lookup_2 in Hz.
    apply Heq; [by right|]. intros ->. done.
  - rewrite (Heq y); [|by left|by intros ->].
    rewrite IH; [lia|done|]. intros z Hz. apply Heq. by right.
Qed.

Lemma pieces_sum_seq l :
  lengths_wf l -> zsum (piece_length l <$> seqZ 0 (total_pieces l)) = ln_total_length l.
Proof.
  intros H. rewrite <- pieces_sum by done. unfold iter_piece_infos.
  by rewrite <- list_fmap_compose.
Qed.

Lemma bytes_where_bounds l P :
  lengths_wf l -> 0 <= bytes_where l P <= ln_total_length l.
Proof.
  intros H. split.
  - apply zsum_nonneg, Forall_fmap, Forall_forall. intros i _. simpl.
    pose proof (piece_length_pos l i H). by case_match; lia.
  - rewrite <- pieces_sum_seq by done. apply zsum_fmap_le. intros i _.
    pose proof (piece_length_pos l i H). by case_match; lia.
Qed.

Lemma bytes_where_ext l P Q :
  (forall i, 0 <= i < total_pieces l -> P (Z.to_nat i) = Q (Z.to_nat i)) ->
  bytes_where l P = bytes_where l Q.
Proof.
  intros H. unfold bytes_where. f_equal. apply list_fmap_ext. intros k i Hi.
  apply list_elem_of_lookup_2, elem_of_seqZ in Hi. rewrite H; [done|lia].
Qed.

(** Flipping one piece changes the sum by its length. *)
Lemma bytes_where_flip l P Q i :
  lengths_wf l -> valid_piece l i -> P (Z.to_nat i) = false -> Q (Z.to_nat i) = true ->
  (forall j, 0 <= j < total_pieces l -> j <> i -> P (Z.to_nat j) = Q (Z.to_nat j)) ->
  bytes_where l Q = bytes_where l P + piece_length l i.
Proof.
  intros H [? ?] HP HQ Heq. unfold bytes_where.
  rewrite (zsum_fmap_update (fun i => if P (Z.to_nat i) then piece_length l i else 0)
             (fun i => if Q (Z.to_nat i) then piece_length l i else 0) _ i).
  - simpl. rewrite HP, HQ. lia.
  - apply NoDup_seqZ.
  - apply elem_of_seqZ. rewrite total_pieces_wf by done. lia.
  - intros j Hj Hne. apply elem_of_seqZ in Hj. simpl. by rewrite Heq by lia.
Qed.

(** ** The specification of the counters *)

Definition hns_of (ct : ChunkTracker) : HaveNeededSelected :=
  let l := ct_lengths ct in
  {| have_bytes := bytes_where l (bit (have ct));
     needed_bytes := bytes_where l (fun i => bit (selected ct) i && negb (bit (have ct) i));
     selected_bytes := bytes_where l (bit (selected ct)) |}.

(** The shape of the bitfields, and that a piece we have is not queued. *)
Record ct_shape (ct : ChunkTracker) : Prop := {
  sh_lengths : lengths_wf (ct_lengths ct);
  sh_chunks : chunks_fit (ct_lengths ct);
  sh_queue : length (queue_pieces ct) = Z.to_nat (8 * piece_bitfield_bytes (ct_lengths ct));
  sh_have : length (have ct) = Z.to_nat (8 * piece_bitfield_bytes (ct_lengths ct));
  sh_selected : length (selected ct) = Z.to_nat (8 * piece_bitfield_bytes (ct_lengths ct));
  sh_status : length (chunk_status ct) = Z.to_nat (8 * chunk_bitfield_bytes (ct_lengths ct));
  sh_disjoint : forall i, bit (queue_pieces ct) i = true -> bit (have ct) i = false
}.

(** The invariant of the module: the shape, and the "MUST be in sync" counters. *)
Definition ct_wf (ct : ChunkTracker) : Prop := ct_shape ct /\ ct_hns ct = hns_of ct.

Lemma div_ceil_8_ge n : 0 <= n -> n <= 8 * div_ceil n 8.
Proof. intros. pose proof (div_ceil_spec n 8 eq_refl). lia. Qed.

Lemma bitfield_covers l i :
  lengths_wf l -> valid_piece l i -> (Z.to_nat i < Z.to_nat (8 * piece_bitfield_bytes l))%nat.
Proof.
  intros H [? ?]. unfold piece_bitfield_bytes.
  pose proof (total_pieces_wf l H). pose proof (div_ceil_8_ge (total_pieces l) ltac:(lia)). lia.
Qed.

Lemma total_chunks_wf l :
  lengths_wf l -> chunks_fit l ->
  total_chunks l = ln_last_piece_id l * ln_chunks_per_piece l
                   + chunks_per_piece l (ln_last_piece_id l).
Proof.
  intros H Hf. pose proof (last_id_spec l H) as (_&_&?).
  pose proof (chunk_start_fits l (ln_last_piece_id l) H Hf ltac:(split; lia)).
  pose proof (chunks_per_piece_bounds l (ln_last_piece_id l) H).
  unfold total_chunks. rewrite !wrap_id; rewrite ?wrap_id; unfold is_uint; lia.
Qed.

Lemma chunk_range_wf l i :
  lengths_wf l -> chunks_fit l -> valid_piece l i ->
  chunk_range l i = (i * ln_chunks_per_piece l,
                     i * ln_chunks_per_piece l + chunks_per_piece l i)
  /\ 0 <= i * ln_chunks_per_piece l
  /\ i * ln_chunks_per_piece l + chunks_per_piece l i <= total_chunks l.
Proof.
  intros H Hf Hv. pose proof (chunk_start_fits l i H Hf Hv) as [? ?].
  pose proof (chunks_per_piece_bounds l i H).
  rewrite total_chunks_wf by done. split_and!.
  - unfold chunk_range. rewrite !wrap_id; rewrite ?wrap_id; try done; unfold is_uint; lia.
  - done.
  - destruct Hv. pose proof (chunks_per_piece_bounds l (ln_last_piece_id l) H).
    destruct (Z.eq_dec i (ln_last_piece_id l)) as [->|]; [lia|]. nia.
Qed.

(** The ranges of two pieces in the chunk bitfield do not meet. *)
Lemma chunk_ranges_disjoint l i j :
  lengths_wf l -> chunks_fit l -> valid_piece l i -> valid_piece l j -> i <> j ->
  (chunk_range l i).2 <= (chunk_range l j).1 \/ (chunk_range l j).2 <= (chunk_range l i).1.
Proof.
  intros H Hf Hi Hj Hne.
  destruct (chunk_range_wf l i H Hf Hi) as [-> _], (chunk_range_wf l j H Hf Hj) as [-> _].
  pose proof (chunks_per_piece_bounds l i H). pose proof (chunks_per_piece_bounds l j H).
  simpl. destruct (Z.lt_trichotomy i j) as [|[|]]; [left; nia|lia|right; nia].
Qed.

Lemma chunk_range_in_status ct i :
  ct_shape ct -> valid_piece (ct_lengths ct) i ->
  let r := chunk_range (ct_lengths ct) i in
  (Z.to_nat r.1 <= Z.to_nat r.2 <= length (chunk_status ct))%nat.
Proof.
  intros [] Hv.
  destruct (chunk_range_wf (ct_lengths ct) i) as (-> & ? & ?); [done..|]. simpl.
  pose proof (chunks_per_piece_bounds (ct_lengths ct) i sh_lengths0).
  unfold chunk_bitfield_bytes in *.
  pose proof (div_ceil_8_ge (total_chunks (ct_lengths ct)) ltac:(lia)). lia.
Qed.

Lemma bf_fill_range_Some b r v :
  (Z.to_nat r.1 <= Z.to_nat r.2 <= length b)%nat ->
  bf_fill_range b r v = Some (list_fill (Z.to_nat r.1) (Z.to_nat r.2) v b).
Proof.
  intros. unfold bf_fill_range.
  by rewrite (proj2 (slice_get_Some b _ _ _) (conj H eq_refl)).
Qed.

Lemma bf_fill_range_length b r v b' : bf_fill_range b r v = Some b' -> length b' = length b.
Proof.
  unfold bf_fill_range. destruct (slice_get b _ _) eqn:E; [|done].
  apply slice_get_Some in E as [? _]. intros [= <-]. by apply length_list_fill.
Qed.

Lemma bf_fill_range_bit b r v b' i :
  bf_fill_range b r v = Some b' ->
  bit b' i = if decide (Z.to_nat r.1 <= i < Z.to_nat r.2)%nat then v else bit b i.
Proof.
  unfold bf_fill_range. destruct (slice_get b _ _) eqn:E; [|done].
  apply slice_get_Some in E as [? _]. intros [= <-]. by apply bit_fill.
Qed.

(** ** The counters are recomputed exactly *)

Lemma u64_add_l a b : u64 (u64 a + b) = u64 (a + b).
Proof. unfold wrap. by rewrite Zplus_mod_idemp_l. Qed.

Lemma u64_sub_l a b : u64 (u64 a - b) = u64 (a - b).
Proof. unfold wrap. by rewrite Zminus_mod_idemp_l. Qed.

Lemma u64_total l z : lengths_wf l -> 0 <= z <= ln_total_length l -> u64 z = z.
Proof. intros H ?. pose proof (wf_total _ H). apply wrap_id. unfold is_uint. lia. Qed.

Lemma mul_b2z x (b : bool) : x * Z.b2z b = if b then x else 0.
Proof. destruct b; simpl; lia. Qed.

Lemma valid_piece_seq l i : lengths_wf l -> i ∈ seqZ 0 (total_pieces l) <-> valid_piece l i.
Proof. intros H. rewrite elem_of_seqZ, total_pieces_wf by done. unfold valid_piece. lia. Qed.

Lemma calc_hns_spec ct : ct_shape ct -> calc_hns ct = Ret (hns_of ct).
Proof.
  intros [H _ _ Hh Hs _ _]. set (l := ct_lengths ct) in *.
  set (ph i := if bit (have ct) (Z.to_nat i) then piece_length l i else 0).
  set (pn i := if bit (selected ct) (Z.to_nat i) && negb (bit (have ct) (Z.to_nat i))
               then piece_length l i else 0).
  set (ps i := if bit (selected ct) (Z.to_nat i) then piece_length l i else 0).
  assert (Hstep : forall xs, (forall i, i ∈ xs -> valid_piece l i) -> forall a n s,
    foldM (fun hns piece =>
      let id := Z.to_nat (pi_piece_index piece) in
      let len := pi_len piece in
      is_have ← index (have ct) id;
      is_selected ← index (selected ct) id;
      let is_needed := is_selected && negb is_have in
      Ret {| have_bytes := u64 (have_bytes hns + len * Z.b2z is_have);
             selected_bytes := u64 (selected_bytes hns + len * Z.b2z is_selected);
             needed_bytes := u64 (needed_bytes hns + len * Z.b2z is_needed) |})
      (mkHNS (u64 a) (u64 n) (u64 s)) ((fun i => mkPieceInfo i (piece_length l i)) <$> xs)
    = Ret (mkHNS (u64 (a + zsum (ph <$> xs))) (u64 (n + zsum (pn <$> xs)))
             (u64 (s + zsum (ps <$> xs))))).
  { induction xs as [|i xs IH]; intros Hv a n s; [by rewrite !Z.add_0_r|].
    rewrite !fmap_cons, !zsum_cons. cbn [foldM pi_piece_index pi_len].
    pose proof (bitfield_covers l i H (Hv i ltac:(left))).
    rewrite (index_bit (have ct)), (index_bit (selected ct)) by lia. cbn.
    rewrite !u64_add_l, !mul_b2z, IH by (intros; apply Hv; by right).
    by rewrite !Z.add_assoc. }
  unfold calc_hns, iter_piece_infos. fold l.
  change HNS_default with (mkHNS (u64 0) (u64 0) (u64 0)).
  rewrite Hstep by (intros i; by rewrite valid_piece_seq).
  f_equal. unfold hns_of. fold l. rewrite !Z.add_0_l.
  by f_equal; apply (u64_total l); try apply bytes_where_bounds.
Qed.

(** A file whose range is inside the torrent, as the metadata builds it. *)
Record file_wf (l : Lengths) (fi : FileInfo) : Prop := {
  fw_range : fi_piece_range fi
             = iter_pieces_within_offset l (fi_offset_in_torrent fi) (fi_len fi);
  fw_offset : 0 <= fi_offset_in_torrent fi;
  fw_len : 0 <= fi_len fi;
  fw_end : fi_offset_in_torrent fi + fi_len fi <= ln_total_length l
}.

Lemma file_range_valid l fi p :
  lengths_wf l -> file_wf l fi -> p ∈ range_list (fi_piece_range fi) -> valid_piece l p.
Proof.
  intros H [Hr ? ? ?] Hp. rewrite Hr in Hp. destruct (Z.eq_dec (fi_len fi) 0) as [E|].
  - rewrite E, file_range_spec in Hp by (done || lia). simpl in Hp.
    apply elem_of_range_list in Hp. lia.
  - pose proof (file_range_bounds l (fi_offset_in_torrent fi) (fi_len fi) H) as Hb.
    destruct (iter_pieces_within_offset _ _ _) as [a b]. simpl in Hb.
    apply elem_of_range_list in Hp. unfold valid_piece. lia.
Qed.

(** The bytes of the file inside the pieces had. *)
Definition have_in_file (l : Lengths) (hv : BF) (fi : FileInfo) : Z :=
  zsum ((fun p => if bit hv (Z.to_nat p)
                  then size_of_piece_in_file l p (fi_offset_in_torrent fi) (fi_len fi) else 0)
          <$> range_list (fi_piece_range fi)).

Lemma size_of_piece_nonneg l p o n : 0 <= size_of_piece_in_file l p o n.
Proof. unfold size_of_piece_in_file, saturating_sub. lia. Qed.

Definition lengths_small (l : Lengths) : Prop :=
  ln_total_length l + ln_piece_length l < 2 ^ 64.

Lemma have_in_file_bounds l hv fi :
  lengths_wf l -> lengths_small l -> file_wf l fi -> 0 <= have_in_file l hv fi <= fi_len fi.
Proof.
  intros H Hs [Hr ? ? ?]. unfold have_in_file. split.
  - apply zsum_nonneg, Forall_fmap, Forall_forall. intros p _. simpl.
    pose proof (size_of_piece_nonneg l p (fi_offset_in_torrent fi) (fi_len fi)).
    by case_match; lia.
  - pose proof (file_bytes_sum l (fi_offset_in_torrent fi) (fi_len fi) H
      ltac:(unfold lengths_small in Hs; lia) ltac:(done) ltac:(done) ltac:(done)) as Hsum.
    eapply Z.le_trans; [|apply Z.eq_le_incl, Hsum].
    rewrite Hr. apply zsum_fmap_le. intros p _.
    pose proof (size_of_piece_nonneg l p (fi_offset_in_torrent fi) (fi_len fi)).
    by case_match; lia.
Qed.

Lemma file_have_bytes_spec l hv fi :
  lengths_wf l -> lengths_small l -> file_wf l fi ->
  length hv = Z.to_nat (8 * piece_bitfield_bytes l) ->
  file_have_bytes l hv fi = Ret (have_in_file l hv fi).
Proof.
  intros H Hs Hf Hl.
  assert (Hstep : forall xs, (forall p, p ∈ xs -> valid_piece l p) -> forall a,
    foldM (fun acc p =>
      h ← index hv (Z.to_nat p);
      Ret (if (h : bool)
           then u64 (acc + size_of_piece_in_file l p (fi_offset_in_torrent fi) (fi_len fi))
           else acc)) (u64 a) xs
    = Ret (u64 (a + zsum ((fun p => if bit hv (Z.to_nat p)
             then size_of_piece_in_file l p (fi_offset_in_torrent fi) (fi_len fi) else 0)
          <$> xs)))).
  { induction xs as [|p xs IH]; intros Hv a; [by rewrite Z.add_0_r|].
    rewrite !fmap_cons, !zsum_cons. cbn [foldM].
    pose proof (bitfield_covers l p H (Hv p ltac:(left))).
    rewrite (index_bit hv) by lia. cbn. rewrite u64_add_l.
    destruct (bit hv (Z.to_nat p)); rewrite IH by (intros; apply Hv; by right);
      [by rewrite Z.add_assoc|by rewrite Z.add_0_l]. }
  unfold file_have_bytes. change 0 with (u64 0) at 1.
  rewrite Hstep by (intros p; by apply file_range_valid).
  rewrite Z.add_0_l. fold (have_in_file l hv fi).
  pose proof (have_in_file_bounds l hv fi H Hs Hf). destruct Hf.
  f_equal. by apply (u64_total l); [|lia].
Qed.

Lemma recalculate_slots_spec l hv slots fis :
  lengths_wf l -> lengths_small l -> Forall (file_wf l) fis ->
  length hv = Z.to_nat (8 * piece_bitfield_bytes l) -> length slots = length fis ->
  recalculate_slots l hv slots fis = Ret (have_in_file l hv <$> fis).
Proof.
  intros H Hs Hf Hl. revert slots. induction Hf as [|fi fis Hfi Hfis IH];
    intros [|s slots] Hlen; try done.
  simpl. rewrite file_have_bytes_spec by done. simpl.
  by rewrite IH by (simpl in Hlen; lia).
Qed.

(** ** Shape-preserving updates *)

Lemma shape_set_queue q ct :
  ct_shape ct -> length q = length (queue_pieces ct) ->
  (forall i, bit q i = true -> bit (have ct) i = false) ->
  ct_shape (set_queue_pieces q ct).
Proof. intros [] Hq Hd. split; try done. simpl. congruence. Qed.

Lemma shape_set_status s ct :
  ct_shape ct -> length s = length (chunk_status ct) -> ct_shape (set_chunk_status s ct).
Proof. intros [] Hq. split; try done. simpl. congruence. Qed.

Lemma shape_set_files p ct : ct_shape ct -> ct_shape (set_per_file_bytes p ct).
Proof. by intros []. Qed.

Lemma shape_set_hns h ct : ct_shape ct -> ct_shape (set_hns h ct).
Proof. by intros []. Qed.

Lemma clear_chunks_eq ct i :
  ct_shape ct -> valid_piece (ct_lengths ct) i ->
  let r := chunk_range (ct_lengths ct) i in
  clear_chunks ct i
  = set_chunk_status (list_fill (Z.to_nat r.1) (Z.to_nat r.2) false (chunk_status ct)) ct.
Proof.
  intros Hs Hv. unfold clear_chunks. rewrite bf_fill_range_Some; [done|].
  by apply chunk_range_in_status.
Qed.

Lemma shape_clear ct i :
  ct_shape ct -> valid_piece (ct_lengths ct) i -> ct_shape (clear_chunks ct i).
Proof.
  intros Hs Hv. rewrite clear_chunks_eq by done. apply shape_set_status; [done|].
  apply length_list_fill. by apply chunk_range_in_status.
Qed.

Lemma piece_in_bits ct i :
  ct_shape ct -> valid_piece (ct_lengths ct) i ->
  (Z.to_nat i < length (queue_pieces ct))%nat /\ (Z.to_nat i < length (have ct))%nat
  /\ (Z.to_nat i < length (selected ct))%nat.
Proof.
  intros [] Hv. pose proof (bitfield_covers _ i sh_lengths0 Hv).
  rewrite sh_queue0, sh_have0, sh_selected0. done.
Qed.

Create HintDb ct.
#[export] Hint Resolve shape_set_queue shape_set_status shape_set_files shape_set_hns
  shape_clear sh_lengths sh_chunks : ct.

(** The queue after setting one bit. *)
Lemma shape_queue_insert ct i v :
  ct_shape ct -> valid_piece (ct_lengths ct) i ->
  (v = true -> bit (have ct) (Z.to_nat i) = false) ->
  ct_shape (set_queue_pieces (<[Z.to_nat i := v]> (queue_pieces ct)) ct).
Proof.
  intros Hs Hv Hb. destruct (piece_in_bits ct i Hs Hv) as (? & _ & _).
  apply shape_set_queue; [done|apply length_insert|].
  intros j. rewrite bit_insert by done. case_decide; subst; [done|].
  by apply sh_disjoint.
Qed.

(** ** Each operation, on a tracker that satisfies the invariant *)

Lemma reserve_spec ct i :
  ct_wf ct -> valid_piece (ct_lengths ct) i ->
  reserve_needed_piece ct i
  = Ret (set_queue_pieces (<[Z.to_nat i := false]> (queue_pieces ct)) ct)
  /\ ct_wf (set_queue_pieces (<[Z.to_nat i := false]> (queue_pieces ct)) ct).
Proof.
  intros [Hs Hh] Hv. destruct (piece_in_bits ct i Hs Hv) as (? & _ & _).
  unfold reserve_needed_piece. rewrite slice_set_lt by done.
  split; [done|]. split; [by apply shape_queue_insert|done].
Qed.

(** [mark_piece_broken_if_not_have] and [mark_piece_deferred] on a missing piece. *)
Definition forget_piece (v : bool) (i : Z) (ct : ChunkTracker) : ChunkTracker :=
  let r := chunk_range (ct_lengths ct) i in
  set_chunk_status (list_fill (Z.to_nat r.1) (Z.to_nat r.2) false (chunk_status ct))
    (set_queue_pieces (<[Z.to_nat i := v]> (queue_pieces ct)) ct).

Lemma forget_piece_shape v i ct :
  ct_shape ct -> valid_piece (ct_lengths ct) i ->
  bit (have ct) (Z.to_nat i) = false -> ct_shape (forget_piece v i ct).
Proof.
  intros Hs Hv Hb.
  assert (ct_shape (set_queue_pieces (<[Z.to_nat i := v]> (queue_pieces ct)) ct)) as Hq
    by (by apply shape_queue_insert).
  apply (shape_clear _ i) in Hq as Hc; [|done].
  by rewrite clear_chunks_eq in Hc.
Qed.

Lemma forget_spec v ct i :
  ct_shape ct -> valid_piece (ct_lengths ct) i ->
  (if default false (have ct !! Z.to_nat i) then Ret ct
   else q ← slice_set (queue_pieces ct) (Z.to_nat i) v;
        Ret (clear_chunks (set_queue_pieces q ct) i))
  = Ret (if bit (have ct) (Z.to_nat i) then ct else forget_piece v i ct).
Proof.
  intros Hs Hv. destruct (piece_in_bits ct i Hs Hv) as (? & _ & _). unfold bit.
  destruct (default false (have ct !! Z.to_nat i)) eqn:E; [done|].
  rewrite slice_set_lt by done. simpl. f_equal.
  rewrite clear_chunks_eq; [done| |done]. by apply shape_queue_insert.
Qed.

Lemma broken_spec ct i :
  ct_shape ct -> valid_piece (ct_lengths ct) i ->
  mark_piece_broken_if_not_have ct i
  = Ret (if bit (have ct) (Z.to_nat i) then ct else forget_piece true i ct).
Proof. apply forget_spec. Qed.

Lemma deferred_spec ct i :
  ct_shape ct -> valid_piece (ct_lengths ct) i ->
  mark_piece_deferred ct i
  = Ret (if bit (have ct) (Z.to_nat i) then ct else forget_piece false i ct).
Proof. apply forget_spec. Qed.

Lemma forget_wf v ct i :
  ct_wf ct -> valid_piece (ct_lengths ct) i ->
  ct_wf (if bit (have ct) (Z.to_nat i) then ct else forget_piece v i ct).
Proof.
  intros [Hs Hh] Hv. destruct (bit _ _) eqn:E; [done|].
  split; [by apply forget_piece_shape|done].
Qed.

Lemma have_removed_disjoint ct i q :
  ct_shape ct -> valid_piece (ct_lengths ct) i -> q = queue_pieces ct ->
  forall j, bit q j = true -> bit (<[Z.to_nat i := false]> (have ct)) j = false.
Proof.
  intros Hs Hv -> j Hj. destruct (piece_in_bits ct i Hs Hv) as (_ & ? & _).
  rewrite bit_insert by done. case_decide; [done|]. by apply sh_disjoint.
Qed.

Lemma missing_step_spec ct n i :
  ct_shape ct -> valid_piece (ct_lengths ct) i ->
  exists ct', mark_piece_missing (ct, n) i
              = Ret (ct', if bit (have ct) (Z.to_nat i) then n + 1 else n)
    /\ ct_shape ct' /\ ct_lengths ct' = ct_lengths ct /\ selected ct' = selected ct
    /\ per_file_bytes ct' = per_file_bytes ct
    /\ have ct' = <[Z.to_nat i := false]> (have ct)
    /\ (forall j, bit (queue_pieces ct') j
                  = bit (queue_pieces ct) j || bit (selected ct) j && bool_decide (j = Z.to_nat i)).
Proof.
  intros Hs Hv. destruct (piece_in_bits ct i Hs Hv) as (Hq & Hh & Hsel).
  assert (exists ct1, ct_shape ct1 /\ ct_lengths ct1 = ct_lengths ct
    /\ selected ct1 = selected ct /\ per_file_bytes ct1 = per_file_bytes ct
    /\ queue_pieces ct1 = queue_pieces ct
    /\ have ct1 = <[Z.to_nat i := false]> (have ct)
    /\ (if bit (have ct) (Z.to_nat i) then
          hv ← slice_set (have ct) (Z.to_nat i) false;
          Ret (set_have hv ct, n + 1)
        else Ret (ct, n)) = Ret (ct1, if bit (have ct) (Z.to_nat i) then n + 1 else n))
    as (ct1 & Hs1 & Hl1 & Hsel1 & Hp1 & Hq1 & Hh1 & Heq).
  { destruct (bit (have ct) (Z.to_nat i)) eqn:E.
    - exists (set_have (<[Z.to_nat i := false]> (have ct)) ct).
      rewrite slice_set_lt by done. split_and!; try done.
      pose proof (have_removed_disjoint ct i _ Hs Hv eq_refl). destruct Hs. split; try done.
      simpl. by rewrite length_insert.
    - exists ct. split_and!; try done. symmetry. apply list_insert_id.
      rewrite <- E. by apply bit_lookup. }
  unfold mark_piece_missing. rewrite index_bit by done. run.
  rewrite Heq. run. rewrite clear_chunks_eq by (rewrite ?Hl1; done).
  cbn [selected set_chunk_status queue_pieces]. rewrite Hsel1, index_bit by done.
  run.
  assert (Hs2 := shape_clear ct1 i Hs1 ltac:(by rewrite Hl1)).
  rewrite clear_chunks_eq in Hs2 by (rewrite ?Hl1; done).
  destruct (bit (selected ct) (Z.to_nat i)) eqn:E.
  - rewrite slice_set_lt by (by rewrite Hq1). run.
    eexists. split; [reflexivity|]. split_and!; try done.
    + apply (shape_queue_insert _ i true) in Hs2; [done|by rewrite <- Hl1 in Hv|].
      intros _. cbn. rewrite Hh1, bit_insert by done. by case_decide.
    + intros j. cbn. rewrite Hq1, bit_insert by done.
      destruct (decide (Z.to_nat i = j)) as [<-|].
      * by rewrite E, bool_decide_eq_true_2, orb_true_r by done.
      * by rewrite bool_decide_eq_false_2, andb_false_r, orb_false_r by done.
  - eexists. split; [reflexivity|]. split_and!; try done.
    intros j. cbn. rewrite Hq1. destruct (decide (j = Z.to_nat i)) as [->|].
    + by rewrite E, orb_false_r.
    + by rewrite bool_decide_eq_false_2, andb_false_r, orb_false_r by done.
Qed.

(** The number of set bits. *)
Definition ones (b : BF) : Z := zsum (Z.b2z <$> b).

Lemma ones_clear b i :
  (i < length b)%nat -> ones (<[i := false]> b) + (if bit b i then 1 else 0) = ones b.
Proof.
  unfold ones. revert i. induction b as [|x b IH]; intros i Hi; [simpl in Hi; lia|].
  destruct i as [|i].
  - change (<[0%nat := false]> (x :: b)) with (false :: b).
    rewrite !fmap_cons, !zsum_cons. destruct x; cbn; lia.
  - change (<[S i := false]> (x :: b)) with (x :: <[i := false]> b).
    rewrite !fmap_cons, !zsum_cons. change (bit (x :: b) (S i)) with (bit b i).
    specialize (IH i ltac:(simpl in Hi; lia)). lia.
Qed.

Lemma bool_decide_cons (j i : nat) ps :
  bool_decide (j ∈ i :: ps) = bool_decide (j = i) || bool_decide (j ∈ ps).
Proof.
  rewrite <- bool_decide_or. apply bool_decide_ext. apply elem_of_cons.
Qed.

(** What [mark_pieces_missing] does to the bitfields. *)
Record forgot (ct ct' : ChunkTracker) (ps : list Z) : Prop := {
  fg_shape : ct_shape ct';
  fg_lengths : ct_lengths ct' = ct_lengths ct;
  fg_selected : selected ct' = selected ct;
  fg_files : length (per_file_bytes ct') = length (per_file_bytes ct);
  fg_have : forall j, bit (have ct') j = bit (have ct) j && negb (bool_decide (j ∈ Z.to_nat <$> ps));
  fg_queue : forall j, bit (queue_pieces ct') j
    = bit (queue_pieces ct) j || bit (selected ct) j && bool_decide (j ∈ Z.to_nat <$> ps)
}.

Lemma missing_loop_spec ps : forall ct n,
  ct_shape ct -> Forall (valid_piece (ct_lengths ct)) ps ->
  exists ct', foldM mark_piece_missing (ct, n) ps = Ret (ct', n + ones (have ct) - ones (have ct'))
    /\ forgot ct ct' ps.
Proof.
  induction ps as [|i ps IH]; intros ct n Hs Hv.
  - exists ct. split; [simpl; do 2 f_equal; lia|]. split; try done.
    + intros j. by rewrite andb_true_r.
    + intros j. by rewrite andb_false_r, orb_false_r.
  - apply Forall_cons in Hv as [Hi Hv].
    destruct (missing_step_spec ct n i Hs Hi) as (ct1 & Heq & Hs1 & Hl & Hsel & Hp & Hh & Hq).
    cbn [foldM]. rewrite Heq. run.
    destruct (IH ct1 (if bit (have ct) (Z.to_nat i) then n + 1 else n) Hs1)
      as (ct2 & -> & Hf); [by rewrite Hl|].
    destruct (piece_in_bits ct i Hs Hi) as (_ & Hb & _).
    exists ct2. split.
    { do 2 f_equal. rewrite Hh. pose proof (ones_clear (have ct) (Z.to_nat i) Hb).
      destruct (bit (have ct) (Z.to_nat i)); lia. }
    destruct Hf as [? ? ? ? Hh2 Hq2]. split; try congruence.
    + intros j. rewrite Hh2, Hh, bit_insert, fmap_cons by done.
      rewrite bool_decide_cons. destruct (decide (Z.to_nat i = j)) as [<-|].
      * rewrite (bool_decide_eq_true_2 (Z.to_nat i = _)) by done. by rewrite andb_false_r.
      * by rewrite (bool_decide_eq_false_2 (j = _)) by congruence.
    + intros j. rewrite Hq2, Hq, Hsel, fmap_cons, bool_decide_cons, andb_orb_distrib_r, orb_assoc. done.
Qed.

Lemma missing_spec ct ps fis :
  ct_wf ct -> lengths_small (ct_lengths ct) -> Forall (valid_piece (ct_lengths ct)) ps ->
  Forall (file_wf (ct_lengths ct)) fis -> length (per_file_bytes ct) = length fis ->
  exists ct', mark_pieces_missing ct ps fis = Ret (ct', ones (have ct) - ones (have ct'))
    /\ forgot ct ct' ps /\ ct_wf ct'
    /\ per_file_bytes ct' = have_in_file (ct_lengths ct) (have ct') <$> fis.
Proof.
  intros [Hs _] Hsm Hps Hfis Hlen.
  destruct (missing_loop_spec ps ct 0 Hs Hps) as (ct1 & Heq & []).
  unfold mark_pieces_missing. rewrite Heq. cbn [mbind outcome_bind fst snd].
  unfold recalculate_per_file_bytes. rewrite fg_lengths0.
  assert (length (per_file_bytes ct1) = length fis) by congruence.
  pose proof (sh_have _ fg_shape0) as Hhl. rewrite fg_lengths0 in Hhl.
  rewrite recalculate_slots_spec by (done || apply Hs).
  run.
  set (ct2 := set_per_file_bytes _ ct1).
  assert (ct_shape ct2) by (by apply shape_set_files).
  rewrite calc_hns_spec by done. run.
  exists (set_hns (hns_of ct2) ct2). split_and!.
  - done.
  - split; try done; [by apply shape_set_hns|].
    simpl. by rewrite length_fmap.
  - split; [by apply shape_set_hns|done].
  - done.
Qed.

(** The counters after piece [i] turned from missing to had. *)
Lemma hns_of_add_have ct ct' i :
  ct_shape ct -> valid_piece (ct_lengths ct) i -> bit (have ct) (Z.to_nat i) = false ->
  ct_lengths ct' = ct_lengths ct -> selected ct' = selected ct ->
  have ct' = <[Z.to_nat i := true]> (have ct) ->
  let len := piece_length (ct_lengths ct) i in
  have_bytes (hns_of ct') = u64 (have_bytes (hns_of ct) + len)
  /\ needed_bytes (hns_of ct')
     = (if bit (selected ct) (Z.to_nat i) then u64 (needed_bytes (hns_of ct) - len)
        else needed_bytes (hns_of ct))
  /\ selected_bytes (hns_of ct') = selected_bytes (hns_of ct).
Proof.
  intros Hs Hv E Hl Hsel Hh. cbn zeta. pose proof (sh_lengths _ Hs) as Hwf.
  destruct (piece_in_bits ct i Hs Hv) as (_ & ? & _).
  unfold hns_of. cbn. rewrite Hl, Hsel, Hh. set (l := ct_lengths ct) in *.
  assert (Hother : forall j, 0 <= j < total_pieces l -> j <> i ->
    bit (have ct) (Z.to_nat j) = bit (<[Z.to_nat i:=true]> (have ct)) (Z.to_nat j)).
  { intros j ? ?. rewrite bit_insert by done. case_decide; [|done]. destruct Hv. lia. }
  assert (Hset : bit (<[Z.to_nat i:=true]> (have ct)) (Z.to_nat i) = true)
    by (rewrite bit_insert by done; by case_decide).
  split_and!; [| |done].
  - rewrite <- (bytes_where_flip l (bit (have ct)) _ i Hwf Hv E Hset Hother).
    symmetry. apply (u64_total l); [done|by apply bytes_where_bounds].
  - destruct (bit (selected ct) (Z.to_nat i)) eqn:Es.
    + rewrite (bytes_where_flip l
        (fun j => bit (selected ct) j && negb (bit (<[Z.to_nat i:=true]> (have ct)) j))
        (fun j => bit (selected ct) j && negb (bit (have ct) j)) i Hwf Hv);
        [|by rewrite Hset, andb_false_r|by rewrite Es, E
         |intros j ? ?; by rewrite (Hother j)].
      rewrite Z.add_simpl_r.
      symmetry. apply (u64_total l); [done|by apply bytes_where_bounds].
    + apply bytes_where_ext. intros j ?. destruct (Z.eq_dec j i) as [->|].
      * by rewrite Es.
      * by rewrite (Hother j).
Qed.

Lemma downloaded_spec ct i :
  ct_wf ct -> valid_piece (ct_lengths ct) i ->
  exists ct', mark_piece_downloaded ct i = Ret ct' /\ ct_wf ct'
    /\ have ct' = <[Z.to_nat i := true]> (have ct)
    /\ queue_pieces ct' = <[Z.to_nat i := false]> (queue_pieces ct)
    /\ selected ct' = selected ct /\ chunk_status ct' = chunk_status ct
    /\ ct_lengths ct' = ct_lengths ct /\ per_file_bytes ct' = per_file_bytes ct.
Proof.
  intros [Hs Hh] Hv. destruct (piece_in_bits ct i Hs Hv) as (? & ? & ?).
  unfold mark_piece_downloaded. rewrite slice_set_lt by done. run.
  cbn [have set_queue_pieces]. rewrite index_bit by done. run.
  destruct (bit (have ct) (Z.to_nat i)) eqn:E.
  - eexists. split; [reflexivity|]. cbn. split_and!; try done.
    + split; [by apply shape_queue_insert|done].
    + symmetry. apply list_insert_id. rewrite <- E. by apply bit_lookup.
  - rewrite slice_set_lt by done. cbn [mbind outcome_bind selected set_have set_queue_pieces].
    rewrite index_bit by done. run.
    eexists. split; [reflexivity|]. cbn [have queue_pieces selected chunk_status ct_lengths
      per_file_bytes set_hns set_have set_queue_pieces ct_hns].
    split_and!; try done. set (ct' := set_hns _ _).
    destruct (hns_of_add_have ct ct' i Hs Hv E) as (Hb & Hn & Hse); [done..|]. split.
    + destruct Hs. split; try done; cbn; rewrite ?length_insert; try done.
      intros j. rewrite !bit_insert by done. case_decide; [done|]. apply sh_disjoint0.
    + transitivity (mkHNS (have_bytes (hns_of ct')) (needed_bytes (hns_of ct'))
        (selected_bytes (hns_of ct'))); [|done]. rewrite Hb, Hn, Hse.
      cbn [ct' ct_hns set_hns]. rewrite Hh. by destruct (bit (selected ct) (Z.to_nat i)).
Qed.

(** ** Chunk marking *)

Lemma splice_insert {A} (l : list A) a b k v :
  (a <= b <= length l)%nat -> (k < b - a)%nat ->
  take a l ++ <[k := v]> (take (b - a) (drop a l)) ++ drop b l = <[(a + k)%nat := v]> l.
Proof.
  intros Hb Hk. replace (drop b l) with (drop (b - a) (drop a l))
    by (rewrite drop_drop; f_equal; lia).
  rewrite <- insert_app_l by (rewrite length_take, length_drop; lia).
  rewrite take_drop.
  replace (a + k)%nat with (length (take a l) + k)%nat by (rewrite length_take; lia).
  rewrite <- insert_app_r. by rewrite take_drop.
Qed.

(** The bits of one piece in [chunk_status]. *)
Definition piece_bits (ct : ChunkTracker) (i : Z) : BF :=
  let r := chunk_range (ct_lengths ct) i in
  take (Z.to_nat r.2 - Z.to_nat r.1) (drop (Z.to_nat r.1) (chunk_status ct)).

Lemma piece_bits_length ct i :
  ct_shape ct -> valid_piece (ct_lengths ct) i ->
  Z.of_nat (length (piece_bits ct i)) = chunks_per_piece (ct_lengths ct) i.
Proof.
  intros Hs Hv. pose proof (chunk_range_in_status ct i Hs Hv) as Hr. unfold piece_bits.
  rewrite length_take, length_drop.
  destruct (chunk_range_wf (ct_lengths ct) i) as (Heq & ? & ?); eauto with ct.
  pose proof (chunks_per_piece_bounds (ct_lengths ct) i (sh_lengths _ Hs)).
  rewrite Heq in *. simpl in *. lia.
Qed.

Definition write_chunk_bit (i k : Z) (ct : ChunkTracker) : ChunkTracker :=
  set_chunk_status
    (<[(Z.to_nat (chunk_range (ct_lengths ct) i).1 + Z.to_nat k)%nat := true]> (chunk_status ct)) ct.

Lemma write_chunk_bit_shape i k ct : ct_shape ct -> ct_shape (write_chunk_bit i k ct).
Proof. intros. apply shape_set_status; [done|]. apply length_insert. Qed.

Lemma write_chunk_bit_piece i k ct :
  ct_shape ct -> valid_piece (ct_lengths ct) i -> 0 <= k < chunks_per_piece (ct_lengths ct) i ->
  piece_bits (write_chunk_bit i k ct) i = <[Z.to_nat k := true]> (piece_bits ct i).
Proof.
  intros Hs Hv Hk. pose proof (piece_bits_length ct i Hs Hv) as Hlen.
  pose proof (chunk_range_in_status ct i Hs Hv) as Hr.
  unfold piece_bits in *. cbn in *. rewrite length_take, length_drop in Hlen.
  rewrite drop_insert_ge by lia. rewrite Nat.add_sub_swap, Nat.sub_diag by lia. simpl.
  by rewrite take_insert_lt by lia.
Qed.

Lemma write_chunk_bit_other i j k ct :
  ct_shape ct -> valid_piece (ct_lengths ct) i -> valid_piece (ct_lengths ct) j ->
  0 <= k < chunks_per_piece (ct_lengths ct) i -> i <> j ->
  piece_bits (write_chunk_bit i k ct) j = piece_bits ct j.
Proof.
  intros Hs Hi Hj Hk Hne. pose proof (piece_bits_length ct i Hs Hi) as Hlen.
  pose proof (chunk_range_in_status ct i Hs Hi). pose proof (chunk_range_in_status ct j Hs Hj).
  unfold piece_bits in *. rewrite length_take, length_drop in Hlen.
  destruct (chunk_ranges_disjoint (ct_lengths ct) i j) as [Hd|Hd]; eauto with ct; cbn in *.
  - by rewrite drop_insert_lt by lia.
  - rewrite drop_insert_ge by lia. by rewrite take_insert_ge by lia.
Qed.

(** A block that is not a chunk of the torrent is ignored. *)
Lemma mark_chunk_invalid ct index begin len :
  ct_shape ct -> is_u32 index -> is_u32 len ->
  (forall i, validate_piece_index (ct_lengths ct) index = Some i ->
     chunk_info_from_received_data (ct_lengths ct) i begin len = None) ->
  mark_chunk_downloaded ct index begin len = Ret (ct, None).
Proof.
  intros Hs Hi Hl Hn. unfold mark_chunk_downloaded.
  destruct (validate_piece_index _ _) as [i|]; [|done].
  rewrite try_into_small by done. by rewrite (Hn i).
Qed.

(** A chunk of the torrent is marked in the bits of its piece. *)
Lemma mark_chunk_valid ct i k :
  ct_shape ct -> valid_piece (ct_lengths ct) i -> 0 <= k < chunks_per_piece (ct_lengths ct) i ->
  let c := nth_chunk (ct_lengths ct) i k in
  mark_chunk_downloaded ct i (ci_offset c) (ci_size c)
  = Ret (if forallb id (piece_bits ct i) then (ct, Some PreviouslyCompleted)
         else (write_chunk_bit i k ct,
               Some (if forallb id (<[Z.to_nat k := true]> (piece_bits ct i))
                     then Completed else NotCompleted))).
Proof.
  intros Hs Hv Hk c. set (l := ct_lengths ct) in *.
  pose proof (sh_lengths _ Hs) as Hl. pose proof (sh_chunks _ Hs) as Hc.
  fold l in Hl, Hc.
  pose proof (chunk_range_in_status ct i Hs Hv) as Hr. cbn zeta in Hr. fold l in Hr.
  pose proof (piece_bits_length ct i Hs Hv) as Hlen. fold l in Hlen.
  pose proof (piece_length_pos l i Hl). pose proof (wf_piece _ Hl).
  rewrite chunks_per_piece_spec in Hk by done.
  pose proof (div_ceil_spec (piece_length l i) CHUNK_SIZE eq_refl).
  assert (Hci : chunk_info_from_received_data l i (ci_offset c) (ci_size c) = Some c).
  { apply received_data_spec; try done.
    - unfold is_uint, c. cbn. unfold CHUNK_SIZE in *. lia.
    - exists k. rewrite chunks_per_piece_spec by done. done. }
  unfold mark_chunk_downloaded. fold l.
  rewrite validate_valid by done. rewrite try_into_small.
  2:{ unfold is_uint, c. cbn. unfold CHUNK_SIZE in *. lia. }
  rewrite Hci. cbn [c nth_chunk ci_piece_index ci_chunk_index].
  rewrite (proj2 (slice_get_Some (chunk_status ct) _ _ _) (conj Hr eq_refl)).
  change (take _ (drop _ (chunk_status ct))) with (piece_bits ct i).
  destruct (forallb id (piece_bits ct i)) eqn:E; [done|].
  rewrite <- chunks_per_piece_spec in Hk by done.
  rewrite slice_set_lt by lia. run.
  assert (length (piece_bits ct i) = Z.to_nat (chunk_range l i).2 - Z.to_nat (chunk_range l i).1)%nat
    by (unfold piece_bits; cbn zeta; fold l; rewrite length_take, length_drop; lia).
  assert (take (Z.to_nat (chunk_range l i).1) (chunk_status ct)
    ++ <[Z.to_nat k := true]> (piece_bits ct i)
    ++ drop (Z.to_nat (chunk_range l i).2) (chunk_status ct)
    = chunk_status (write_chunk_bit i k ct)) as ->
    by (apply (splice_insert (chunk_status ct) (Z.to_nat (chunk_range l i).1)
                 (Z.to_nat (chunk_range l i).2)); lia).
  by destruct (forallb id (<[_ := true]> _)).
Qed.

(** ** Forgetting chunks *)

Lemma take_drop_fill_same {A} (l : list A) a b v :
  (a <= b <= length l)%nat ->
  take (b - a) (drop a (list_fill a b v l)) = replicate (b - a) v.
Proof.
  intros. apply list_eq. intros k. destruct (decide (k < b - a)%nat).
  - rewrite lookup_slice, lookup_list_fill by lia. case_decide; [|lia].
    by rewrite lookup_replicate_2.
  - rewrite !lookup_ge_None_2; [done| |].
    + rewrite length_replicate. lia.
    + rewrite length_take. lia.
Qed.

Lemma take_drop_fill_other {A} (l : list A) a b c d v :
  (a <= b <= length l)%nat -> (b <= c \/ d <= a)%nat ->
  take (d - c) (drop c (list_fill a b v l)) = take (d - c) (drop c l).
Proof.
  intros. apply list_eq. intros k. destruct (decide (k < d - c)%nat).
  - rewrite !lookup_slice, lookup_list_fill by lia. by case_decide; [lia|].
  - by rewrite !lookup_ge_None_2 by (rewrite length_take; lia).
Qed.

Lemma forget_piece_bits v i j ct :
  ct_shape ct -> valid_piece (ct_lengths ct) i -> valid_piece (ct_lengths ct) j ->
  piece_bits (forget_piece v i ct) j
  = if decide (i = j) then replicate (Z.to_nat (chunks_per_piece (ct_lengths ct) i)) false
    else piece_bits ct j.
Proof.
  intros Hs Hi Hj. pose proof (chunk_range_in_status ct i Hs Hi) as Hr.
  pose proof (piece_bits_length ct i Hs Hi) as Hlen. cbn zeta in Hr.
  case_decide as Hd.
  - subst j. unfold piece_bits in *. rewrite length_take, length_drop in Hlen.
    cbn [forget_piece chunk_status set_chunk_status set_queue_pieces ct_lengths] in *.
    rewrite take_drop_fill_same by done. f_equal. lia.
  - unfold piece_bits, forget_piece. cbn [chunk_status set_chunk_status set_queue_pieces ct_lengths].
    apply take_drop_fill_other; [done|].
    destruct (chunk_ranges_disjoint (ct_lengths ct) i j) as [Hx|Hx]; eauto with ct.
    + left. lia.
    + right. lia.
Qed.

(** ** Selecting files *)

Definition file_selects (only : nat -> bool) (j : nat) (p : nat * FileInfo) : Prop :=
  fa_padding (fi_attrs p.2) = false /\ only p.1 = true
  /\ (Z.to_nat (fi_piece_range p.2).1 <= j < Z.to_nat (fi_piece_range p.2).2)%nat.

Lemma file_range_in_bits l fi :
  lengths_wf l -> file_wf l fi ->
  (Z.to_nat (fi_piece_range fi).1 <= Z.to_nat (fi_piece_range fi).2
   <= Z.to_nat (8 * piece_bitfield_bytes l))%nat.
Proof.
  intros H [Hr ? ? ?]. destruct (Z.eq_dec (fi_len fi) 0) as [E0|].
  - rewrite Hr, E0, file_range_spec by (done || lia). simpl. split; [lia|].
    pose proof (wf_piece _ H). pose proof (last_id_spec l H).
    assert (fi_offset_in_torrent fi / ln_piece_length l <= ln_last_piece_id l + 1).
    { rewrite wf_last_id by done.
      pose proof (div_ceil_spec (ln_total_length l) (ln_piece_length l) ltac:(lia)).
      pose proof (Z.mul_div_le (fi_offset_in_torrent fi) (ln_piece_length l) ltac:(lia)).
      nia. }
    unfold piece_bitfield_bytes. rewrite total_pieces_wf by done.
    pose proof (div_ceil_8_ge (ln_last_piece_id l + 1) ltac:(lia)). lia.
  - pose proof (file_range_bounds l (fi_offset_in_torrent fi) (fi_len fi) H) as Hb'.
    rewrite <- Hr in Hb'. cbn zeta in Hb'.
    pose proof (bitfield_covers l ((fi_piece_range fi).2 - 1) H ltac:(split; lia)). lia.
Qed.

Lemma compute_selected_spec l only fis :
  lengths_wf l -> Forall (file_wf l) fis ->
  length (compute_selected_pieces l only fis) = Z.to_nat (8 * piece_bitfield_bytes l)
  /\ forall j, bit (compute_selected_pieces l only fis) j = true
     <-> exists id fi, fis !! id = Some fi /\ file_selects only j (id, fi).
Proof.
  intros H Hf.
  assert (Hgen : forall ps b, Forall (fun p : nat * FileInfo => file_wf l p.2) ps ->
    length b = Z.to_nat (8 * piece_bitfield_bytes l) ->
    let r := foldl (fun bf (p : nat * FileInfo) =>
      let '(id, fi) := p in
      if negb (fa_padding (fi_attrs fi)) && only id then
        match bf_fill_range bf (piece_range_usize fi) true with
        | Some bf' => bf'
        | None => bf
        end
      else bf) b ps in
    length r = length b
    /\ forall j, bit r j = true <-> bit b j = true \/ Exists (file_selects only j) ps).
  { induction ps as [|[id fi] ps IH]; intros b Hps Hb; simpl.
    { split; [done|]. intros j. rewrite Exists_nil. naive_solver. }
    apply Forall_cons in Hps as [Hfi Hps]. simpl in Hfi.
    destruct (negb (fa_padding (fi_attrs fi)) && only id) eqn:E.
    - assert (exists b', bf_fill_range b (piece_range_usize fi) true = Some b') as [b' Hb'].
      { eexists. apply bf_fill_range_Some. rewrite Hb. by apply file_range_in_bits. }
      rewrite Hb'. specialize (IH b' Hps). cbn zeta in IH.
      rewrite (bf_fill_range_length _ _ _ _ Hb') in IH. destruct (IH Hb) as [Hl Hbits].
      split; [done|]. intros j. rewrite Hbits, Exists_cons.
      rewrite (bf_fill_range_bit _ _ _ _ j Hb'). unfold file_selects at 2. simpl.
      apply andb_true_iff in E as [E1 E2]. apply negb_true_iff in E1.
      unfold piece_range_usize. case_decide; intuition congruence.
    - destruct (IH b Hps Hb) as [Hl Hbits]. split; [done|]. intros j.
      rewrite Hbits, Exists_cons. unfold file_selects at 2. simpl.
      apply andb_false_iff in E. rewrite negb_false_iff in E. intuition congruence. }
  specialize (Hgen (imap pair fis) (bf_zeroed (piece_bitfield_bytes l))). cbn zeta in Hgen.
  destruct Hgen as [Hl Hbits].
  - apply Forall_lookup. intros k p Hp. rewrite list_lookup_imap in Hp.
    destruct (fis !! k) eqn:Ek; simpl in Hp; [|done]. injection Hp as <-. simpl.
    by apply (Forall_lookup_1 _ _ _ _ Hf Ek).
  - apply length_bf_zeroed.
  - split; [by rewrite <- length_bf_zeroed|]. intros j. unfold compute_selected_pieces.
    rewrite Hbits, bit_zeroed, Exists_exists. split.
    + intros [?|([id fi] & Hin & Hsel)]; [done|]. exists id, fi. split; [|done].
      apply list_elem_of_lookup in Hin as [k Hk]. rewrite list_lookup_imap in Hk.
      destruct (fis !! k) eqn:Ek; simpl in Hk; [|done]. by simplify_eq.
    + intros (id & fi & Hfi & Hsel). right. exists (id, fi). split; [|done].
      apply list_elem_of_lookup. exists id. by rewrite list_lookup_imap, Hfi.
Qed.

(** ** Changing the selection *)

Lemma newly_needed_spec ct prev :
  length prev = length (selected ct) -> length (have ct) = length (selected ct) ->
  length (selected ct) = Z.to_nat (8 * piece_bitfield_bytes (ct_lengths ct)) ->
  exists b, newly_needed ct prev = Ret b
    /\ forall j, bit b j = bit (selected ct) j && negb (bit prev j) && negb (bit (have ct) j).
Proof.
  intros Hp Hh Hs.
  assert (Hgen : forall xs, (forall j, j ∈ xs -> (j < length (selected ct))%nat) -> forall b,
    length b = length (selected ct) ->
    exists b', foldM (fun b idx =>
      p ← index prev idx;
      if (p : bool) then Ret b
      else
        h ← index (have ct) idx;
        if (h : bool) then Ret b else slice_set b idx true) b xs = Ret b'
    /\ forall j, bit b' j = bit b j
         || bool_decide (j ∈ xs) && negb (bit prev j) && negb (bit (have ct) j)).
  { induction xs as [|x xs IH]; intros Hx b Hb.
    { exists b. split; [done|]. intros j. by rewrite orb_false_r. }
    pose proof (Hx x ltac:(left)). cbn [foldM].
    assert (Hcase : exists b1, (p ← index prev x; if (p : bool) then Ret b
      else h ← index (have ct) x; if (h : bool) then Ret b else slice_set b x true) = Ret b1
      /\ length b1 = length b /\ forall j, bit b1 j
        = bit b j || bool_decide (j = x) && negb (bit prev j) && negb (bit (have ct) j)).
    { rewrite !index_bit by lia. run.
      destruct (bit prev x) eqn:E1; [|destruct (bit (have ct) x) eqn:E2].
      3:{ rewrite slice_set_lt by lia. eexists. split; [done|].
          split; [apply length_insert|]. intros j. rewrite bit_insert by lia.
          destruct (decide (x = j)) as [<-|].
          - by rewrite bool_decide_eq_true_2, E1, E2, orb_true_r by done.
          - by rewrite bool_decide_eq_false_2, orb_false_r by done. }
      all: exists b; split_and!; try done; intros j;
        destruct (decide (j = x)) as [->|];
        [rewrite ?E1, ?E2; simpl; by rewrite ?andb_false_r, orb_false_r
        |by rewrite bool_decide_eq_false_2, orb_false_r by done]. }
    destruct Hcase as (b1 & -> & Hl1 & Hb1). run.
    destruct (IH (fun j Hj => Hx j ltac:(by right)) b1 ltac:(congruence)) as (b' & -> & Hb').
    exists b'. split; [done|]. intros j. rewrite Hb', Hb1, bool_decide_cons.
    by destruct (bit b j), (bool_decide (j = x)), (bool_decide (j ∈ xs)), (bit prev j),
      (bit (have ct) j). }
  destruct (Hgen (iter_ones (selected ct))) with (b := bf_zeroed (piece_bitfield_bytes (ct_lengths ct)))
    as (b & Hb & Hbits).
  - intros j Hj. apply elem_of_iter_ones in Hj. by apply lookup_lt_Some in Hj.
  - by rewrite length_bf_zeroed.
  - exists b. split; [done|]. intros j. rewrite Hbits, bit_zeroed. simpl. do 2 f_equal.
    apply eq_true_iff_eq. by rewrite bool_decide_eq_true, elem_of_iter_ones, bit_true.
Qed.

(** What the requeue loop does: the listed pieces are queued and forgotten. *)
Record requeued (ct ct' : ChunkTracker) (P : nat -> bool) : Prop := {
  rq_shape : ct_shape ct';
  rq_lengths : ct_lengths ct' = ct_lengths ct;
  rq_have : have ct' = have ct;
  rq_selected : selected ct' = selected ct;
  rq_files : per_file_bytes ct' = per_file_bytes ct;
  rq_queue : forall j, bit (queue_pieces ct') j = bit (queue_pieces ct) j || P j;
  rq_chunks : forall i, valid_piece (ct_lengths ct) i ->
    piece_bits ct' i
    = if P (Z.to_nat i) then replicate (Z.to_nat (chunks_per_piece (ct_lengths ct) i)) false
      else piece_bits ct i
}.

Lemma requeue_loop_spec xs : forall ct,
  ct_shape ct ->
  (forall j, j ∈ xs -> valid_piece (ct_lengths ct) (Z.of_nat j) /\ bit (have ct) j = false) ->
  exists ct', foldM (fun ct idx =>
      match validate_piece_index (ct_lengths ct) (u32 (Z.of_nat idx)) with
      | Some i => mark_piece_broken_if_not_have ct i
      | None => Ret ct
      end) ct xs = Ret ct'
    /\ requeued ct ct' (fun j => bool_decide (j ∈ xs)).
Proof.
  induction xs as [|x xs IH]; intros ct Hs Hx.
  { exists ct. split; [done|]. split; try done. intros j. by rewrite orb_false_r. }
  destruct (Hx x ltac:(left)) as [Hv Hh]. cbn [foldM].
  pose proof (last_id_spec _ (sh_lengths _ Hs)) as (_ & _ & ?).
  rewrite wrap_id by (destruct Hv; unfold is_uint; lia). rewrite validate_valid by done.
  rewrite broken_spec by done. rewrite Nat2Z.id, Hh. run.
  assert (Hs1 : ct_shape (forget_piece true (Z.of_nat x) ct))
    by (apply forget_piece_shape; rewrite ?Nat2Z.id; done).
  destruct (IH _ Hs1) as (ct' & -> & [? ? ? ? ? Hq Hc]).
  { intros j Hj. by apply Hx; right. }
  destruct (piece_in_bits ct (Z.of_nat x) Hs Hv) as (Hlen & _ & _).
  exists ct'. split; [done|]. split; try done.
  - intros j. rewrite Hq, bool_decide_cons. cbn. rewrite bit_insert by done.
    rewrite Nat2Z.id. destruct (decide (x = j)) as [->|].
    + by rewrite (bool_decide_eq_true_2 (j = j)), orb_true_r by done.
    + by rewrite (bool_decide_eq_false_2 (j = x)) by done.
  - intros i Hi. rewrite Hc by done. rewrite bool_decide_cons, forget_piece_bits by done.
    cbn [forget_piece ct_lengths set_chunk_status set_queue_pieces].
    destruct (decide (Z.of_nat x = i)) as [<-|].
    + rewrite Nat2Z.id, (bool_decide_eq_true_2 (x = x)) by done. by case_match.
    + destruct Hi. rewrite (bool_decide_eq_false_2 (Z.to_nat i = x)) by lia. done.
Qed.

Lemma selected_valid l only fis j :
  lengths_wf l -> Forall (file_wf l) fis ->
  bit (compute_selected_pieces l only fis) j = true -> valid_piece l (Z.of_nat j).
Proof.
  intros H Hf Hb. apply compute_selected_spec in Hb as (id & fi & Hfi & _ & _ & Hr); [|done..].
  apply (file_range_valid l fi); [done|by apply (Forall_lookup_1 _ _ _ _ Hf Hfi)|].
  cbn in Hr. destruct (fi_piece_range fi) as [a b]. apply elem_of_range_list. cbn in Hr. lia.
Qed.

(** What [update_only_files] does to a tracker. *)
Record reselected (ct ct' : ChunkTracker) (sel : BF) : Prop := {
  rs_lengths : ct_lengths ct' = ct_lengths ct;
  rs_have : have ct' = have ct;
  rs_selected : selected ct' = sel;
  rs_files : per_file_bytes ct' = per_file_bytes ct;
  rs_queue : forall j, bit (queue_pieces ct') j
    = bit sel j && negb (bit (have ct) j)
      && (bit (queue_pieces ct) j || negb (bit (selected ct) j));
  rs_chunks : forall i, valid_piece (ct_lengths ct) i ->
    piece_bits ct' i
    = if bit sel (Z.to_nat i) && negb (bit (selected ct) (Z.to_nat i))
         && negb (bit (have ct) (Z.to_nat i))
      then replicate (Z.to_nat (chunks_per_piece (ct_lengths ct) i)) false
      else piece_bits ct i
}.

Lemma only_files_spec ct fis s :
  ct_wf ct -> Forall (file_wf (ct_lengths ct)) fis ->
  exists ct', update_only_files ct fis s = Ret (ct', hns_of ct') /\ ct_wf ct'
    /\ reselected ct ct' (compute_selected_pieces (ct_lengths ct)
                            (fun idx => bool_decide (idx ∈ s)) fis).
Proof.
  intros [Hs Hh] Hf. unfold update_only_files.
  set (sel := compute_selected_pieces _ _ _).
  destruct (compute_selected_spec (ct_lengths ct) (fun idx => bool_decide (idx ∈ s)) fis)
    as [Hlen _]; [by destruct Hs|done|]. fold sel in Hlen.
  assert (Hs1 : ct_shape (set_selected sel ct)) by (destruct Hs; by split).
  destruct (newly_needed_spec (set_selected sel ct) (selected ct)) as (b & Hb & Hbits);
    [destruct Hs; cbn; congruence..|].
  rewrite Hb. cbn [mbind outcome_bind selected set_selected] in *.
  unfold requeue_pieces.
  destruct (requeue_loop_spec (iter_ones b) (set_selected sel ct) Hs1) as (ct1 & Hr & Hq).
  { intros j Hj. apply elem_of_iter_ones, bit_true in Hj. rewrite Hbits in Hj.
    apply andb_true_iff in Hj as [Hj Hhave]. apply andb_true_iff in Hj as [Hsel _].
    split; [|by apply negb_true_iff]. apply selected_valid in Hsel; [done|by destruct Hs|done]. }
  rewrite Hr. run. destruct Hq as [? Hl1 Hh1 Hse1 Hf1 Hq1 Hc1].
  cbn [ct_lengths have selected per_file_bytes queue_pieces set_selected] in *.
  set (q := zip_with _ (queue_pieces ct1) _).
  assert (Hones : forall j, bool_decide (j ∈ iter_ones b) = bit b j).
  { intros j. apply eq_true_iff_eq. by rewrite bool_decide_eq_true, elem_of_iter_ones, bit_true. }
  assert (Hlq : length q = length (queue_pieces ct1)).
  { unfold q. rewrite !length_zip_with. destruct rq_shape0. lia. }
  assert (Hbq : forall j, bit q j = bit sel j && negb (bit (have ct) j)
    && (bit (queue_pieces ct) j || negb (bit (selected ct) j))).
  { intros j. pose proof (sh_disjoint _ Hs j) as Hd.
    destruct (decide (j < length (queue_pieces ct1))%nat) as [Hj|Hj].
    - unfold q. rewrite bit_zip by (rewrite ?length_zip_with; destruct rq_shape0; lia).
      rewrite bit_zip by (destruct rq_shape0; lia).
      rewrite Hq1, Hones, Hbits, Hse1, Hh1.
      destruct (bit (queue_pieces ct) j); [rewrite Hd by done|];
        by destruct (bit sel j), (bit (selected ct) j), (bit (have ct) j).
    - assert (bit q j = false /\ bit sel j = false) as [-> ->]; [|done].
      unfold bit. rewrite !lookup_ge_None_2; [done| |lia].
      destruct rq_shape0. rewrite Hlen, <- Hl1. lia. }
  assert (Hs2 : ct_shape (set_queue_pieces q ct1)).
  { apply shape_set_queue; [done|done|]. intros j Hj. rewrite Hbq in Hj. rewrite Hh1.
    destruct (bit (have ct) j); [|done]. by rewrite andb_false_r in Hj. }
  rewrite calc_hns_spec by done. run.
  exists (set_hns (hns_of (set_queue_pieces q ct1)) (set_queue_pieces q ct1)).
  split; [reflexivity|]. split; [split; [by apply shape_set_hns|done]|].
  split; try done. intros i Hi. transitivity (piece_bits ct1 i); [done|].
  by rewrite Hc1, Hones, Hbits by done.
Qed.

(** ** Construction *)

Definition slice_of (l : Lengths) (s : BF) (i : Z) : BF :=
  let r := chunk_range l i in
  take (Z.to_nat r.2 - Z.to_nat r.1) (drop (Z.to_nat r.1) s).

Lemma chunk_have_step_spec l hv s x n :
  lengths_wf l -> chunks_fit l -> length hv = Z.to_nat (8 * piece_bitfield_bytes l) ->
  length s = Z.to_nat (8 * chunk_bitfield_bytes l) -> valid_piece l x ->
  exists s', chunk_have_step l hv s (mkPieceInfo x n) = XOk s' /\ length s' = length s
    /\ forall i, valid_piece l i -> slice_of l s' i =
         if bool_decide (i = x) && bit hv (Z.to_nat i)
         then replicate (Z.to_nat (chunks_per_piece l i)) true else slice_of l s i.
Proof.
  intros H Hc Hl Hs Hx. pose proof (bitfield_covers l x H Hx).
  destruct (chunk_range_wf l x H Hc Hx) as (Hr & Hr0 & Hr1).
  pose proof (chunk_start_fits l x H Hc Hx). pose proof (chunks_per_piece_bounds l x H).
  unfold chunk_have_step. cbn [pi_piece_index].
  rewrite index_bit by lia. cbn [exec_of_outcome mbind exec_bind].
  rewrite (Z.mul_comm (ln_chunks_per_piece l) x), wrap_id by (unfold is_uint; lia).
  rewrite <- Hr.
  assert (Hin : (Z.to_nat (chunk_range l x).1 <= Z.to_nat (chunk_range l x).2 <= length s)%nat).
  { rewrite Hr. simpl. unfold chunk_bitfield_bytes in Hs.
    pose proof (div_ceil_8_ge (total_chunks l) ltac:(lia)). lia. }
  destruct (bit hv (Z.to_nat x)) eqn:E.
  - rewrite bf_fill_range_Some by done. eexists. split; [done|].
    split; [by apply length_list_fill|]. intros i Hi.
    destruct (decide (i = x)) as [->|Hne].
    + rewrite bool_decide_eq_true_2, E by done. unfold slice_of.
      rewrite take_drop_fill_same by done. f_equal. rewrite Hr. simpl. lia.
    + rewrite bool_decide_eq_false_2 by done. unfold slice_of. simpl andb.
      destruct (chunk_ranges_disjoint l x i H Hc Hx Hi); [done|..];
        apply take_drop_fill_other; try done; lia.
  - exists s. split_and!; try done. intros i Hi. destruct (decide (i = x)) as [->|].
    + by rewrite E, andb_false_r.
    + by rewrite bool_decide_eq_false_2.
Qed.

Lemma chunk_have_loop_spec l hv xs :
  lengths_wf l -> chunks_fit l -> length hv = Z.to_nat (8 * piece_bitfield_bytes l) ->
  (forall i, i ∈ xs -> valid_piece l i) -> forall s,
  length s = Z.to_nat (8 * chunk_bitfield_bytes l) ->
  exists s', foldM (chunk_have_step l hv) s ((fun i => mkPieceInfo i (piece_length l i)) <$> xs)
             = XOk s'
    /\ length s' = length s
    /\ forall i, valid_piece l i -> slice_of l s' i =
         if bool_decide (i ∈ xs) && bit hv (Z.to_nat i)
         then replicate (Z.to_nat (chunks_per_piece l i)) true else slice_of l s i.
Proof.
  intros H Hc Hl. induction xs as [|x xs IH]; intros Hv s Hs; [by exists s|].
  destruct (chunk_have_step_spec l hv s x (piece_length l x)) as (s1 & Hs1 & Hl1 & Hb1);
    [done..|by apply Hv; left|].
  rewrite fmap_cons. cbn [foldM]. rewrite Hs1. cbn [mbind exec_bind].
  destruct (IH (fun i Hi => Hv i ltac:(by right)) s1 ltac:(congruence)) as (s' & -> & Hl' & Hb').
  exists s'. split_and!; [done|congruence|]. intros i Hi. rewrite Hb', Hb1 by done.
  replace (bool_decide (i ∈ x :: xs)) with (bool_decide (i = x) || bool_decide (i ∈ xs))
    by (rewrite <- bool_decide_or; apply bool_decide_ext; symmetry; apply elem_of_cons).
  by destruct (bool_decide (i = x)), (bool_decide (i ∈ xs)), (bit hv (Z.to_nat i)).
Qed.

Lemma bitfield_has_pieces l :
  lengths_wf l -> total_pieces l <= 8 * piece_bitfield_bytes l.
Proof.
  intros H. unfold piece_bitfield_bytes. pose proof (total_pieces_wf l H).
  pose proof (last_id_spec l H). pose proof (div_ceil_8_ge (total_pieces l) ltac:(lia)). lia.
Qed.

Lemma chunk_have_status_spec l hv :
  lengths_wf l -> chunks_fit l -> length hv = Z.to_nat (8 * piece_bitfield_bytes l) ->
  exists s, compute_chunk_have_status l hv = XOk s
    /\ length s = Z.to_nat (8 * chunk_bitfield_bytes l)
    /\ forall i, valid_piece l i ->
         slice_of l s i = replicate (Z.to_nat (chunks_per_piece l i)) (bit hv (Z.to_nat i)).
Proof.
  intros H Hc Hl. unfold compute_chunk_have_status. pose proof (bitfield_has_pieces l H).
  destruct (Z.ltb_spec (Z.of_nat (length hv)) (total_pieces l)); [lia|].
  destruct (chunk_have_loop_spec l hv (seqZ 0 (total_pieces l)) H Hc Hl
    (fun i => proj1 (valid_piece_seq l i H))
    (bf_zeroed (chunk_bitfield_bytes l)) (length_bf_zeroed _)) as (s & Hs & Hlen & Hbits).
  exists s. split_and!; [done|by rewrite Hlen, length_bf_zeroed|]. intros i Hi.
  rewrite Hbits, bool_decide_eq_true_2 by (done || by apply valid_piece_seq). simpl andb.
  destruct (bit hv (Z.to_nat i)); [done|]. unfold slice_of, bf_zeroed.
  destruct (chunk_range_wf l i H Hc Hi) as (-> & ? & ?). simpl.
  pose proof (chunks_per_piece_bounds l i H).
  rewrite drop_replicate, take_replicate. f_equal. unfold chunk_bitfield_bytes.
  pose proof (div_ceil_8_ge (total_chunks l) ltac:(lia)). lia.
Qed.

(** [ChunkTracker::new] succeeds on bitfields of the torrent's size and
    returns a tracker that satisfies the invariant: the queue is the selected
    pieces that are missing, the chunks of a piece are all marked or all clear,
    and every file's counter is the number of its bytes in the pieces had. *)
Theorem chunk_tracker_new_correct (hv sel : BF) (l : Lengths) (fis : list FileInfo) :
  lengths_wf l -> chunks_fit l -> lengths_small l -> Forall (file_wf l) fis ->
  length hv = Z.to_nat (8 * piece_bitfield_bytes l) -> length sel = length hv ->
  exists ct, ChunkTracker_new hv sel l fis = XOk ct /\ ct_wf ct
    /\ ct_lengths ct = l /\ have ct = hv /\ selected ct = sel
    /\ (forall j, bit (queue_pieces ct) j = bit sel j && negb (bit hv j))
    /\ per_file_bytes ct = have_in_file l hv <$> fis
    /\ forall i, valid_piece l i -> piece_bits ct i
         = replicate (Z.to_nat (chunks_per_piece l i)) (bit hv (Z.to_nat i)).
Proof.
  intros H Hc Hsm Hf Hh Hsl. unfold ChunkTracker_new, compute_queued_pieces.
  rewrite (proj2 (Nat.eqb_eq _ _)) by done. cbn [negb mbind exec_bind].
  destruct (chunk_have_status_spec l hv H Hc Hh) as (s & -> & Hls & Hbits).
  cbn [mbind exec_bind]. unfold recalculate_per_file_bytes.
  cbn [ct_lengths have per_file_bytes].
  rewrite recalculate_slots_spec by (done || apply length_replicate).
  cbn [mbind outcome_bind exec_of_outcome exec_bind]. set (ct := set_per_file_bytes _ _).
  assert (Hq : forall j, bit (queue_pieces ct) j = bit sel j && negb (bit hv j)).
  { intros j. cbn. unfold compute_queued_pieces_unchecked.
    destruct (decide (j < length hv)%nat).
    - rewrite bit_zip by lia. apply andb_comm.
    - unfold bit. rewrite !lookup_ge_None_2; [done|lia..|]. rewrite length_zip_with. lia. }
  assert (Hs : ct_shape ct).
  { split; try done; cbn; try congruence.
    - unfold compute_queued_pieces_unchecked. rewrite length_zip_with. lia.
    - intros j Hj. rewrite Hq in Hj. apply andb_true_iff in Hj as [_ Hj].
      by apply negb_true_iff in Hj. }
  rewrite calc_hns_spec by done. cbn [mbind outcome_bind exec_of_outcome exec_bind].
  eexists. split; [reflexivity|]. split_and!; try done. split; [by apply shape_set_hns|done].
Qed.

Lemma chunk_tracker_new_correct_witness :
  exists ct, ChunkTracker_new (replicate 8 false) (true :: replicate 7 false)
    (mkLengths 21 10 2 1 1) [mkFileInfo [] 0 (0, 3) FileDetailsAttrs_default 21] = XOk ct
    /\ ct_wf ct.
Proof.
  destruct (chunk_tracker_new_correct (replicate 8 false) (true :: replicate 7 false)
    (mkLengths 21 10 2 1 1) [mkFileInfo [] 0 (0, 3) FileDetailsAttrs_default 21])
    as (ct & Heq & Hwf & _).
  - by split.
  - done.
  - done.
  - by repeat constructor.
  - reflexivity.
  - reflexivity.
  - by exists ct.
Defined.

(** ** The operations as steps *)

Inductive ct_op :=
| OpReserve (i : ValidPieceIndex)
| OpBroken (i : ValidPieceIndex)
| OpDeferred (i : ValidPieceIndex)
| OpMissing (ps : list ValidPieceIndex) (fis : list FileInfo)
| OpDownloaded (i : ValidPieceIndex)
| OpChunk (index begin len : Z)
| OpOnlyFiles (fis : list FileInfo) (only : gset nat)
| OpFileHave (i : ValidPieceIndex) (file_id : nat) (fi : FileInfo).

Definition ct_step (ct : ChunkTracker) (op : ct_op) : outcome ChunkTracker :=
  match op with
  | OpReserve i => reserve_needed_piece ct i
  | OpBroken i => mark_piece_broken_if_not_have ct i
  | OpDeferred i => mark_piece_deferred ct i
  | OpMissing ps fis => r ← mark_pieces_missing ct ps fis; Ret r.1
  | OpDownloaded i => mark_piece_downloaded ct i
  | OpChunk index begin len => r ← mark_chunk_downloaded ct index begin len; Ret r.1
  | OpOnlyFiles fis only => r ← update_only_files ct fis only; Ret r.1
  | OpFileHave i file_id fi => r ← update_file_have_on_piece_completed ct i file_id fi; Ret r.1
  end.

(** The arguments the callers pass: validated piece indexes, the files of the
    torrent, and any block at all from a peer. *)
Definition ct_op_ok (l : Lengths) (nfiles : nat) (op : ct_op) : Prop :=
  match op with
  | OpReserve i | OpBroken i | OpDeferred i | OpDownloaded i => valid_piece l i
  | OpMissing ps fis =>
    Forall (valid_piece l) ps /\ Forall (file_wf l) fis /\ length fis = nfiles
  | OpChunk index begin len => is_u32 index /\ is_u32 begin /\ is_u32 len
  | OpOnlyFiles fis _ => Forall (file_wf l) fis
  | OpFileHave i file_id fi => (file_id < nfiles)%nat
  end.

Lemma mark_chunk_keeps ct index begin len :
  ct_wf ct -> is_u32 index -> is_u32 begin -> is_u32 len ->
  exists ct' r, mark_chunk_downloaded ct index begin len = Ret (ct', r) /\ ct_wf ct'
    /\ ct_lengths ct' = ct_lengths ct /\ queue_pieces ct' = queue_pieces ct
    /\ have ct' = have ct /\ per_file_bytes ct' = per_file_bytes ct.
Proof.
  intros [Hs Hh] Hi Hb Hl.
  destruct (validate_piece_index (ct_lengths ct) index) as [i|] eqn:Ei.
  2:{ exists ct, None. by rewrite mark_chunk_invalid by (done || by rewrite Ei). }
  pose proof Ei as Ei'. apply validate_piece_index_Some in Ei' as [-> Hle].
  assert (valid_piece (ct_lengths ct) index) as Hv by (unfold is_uint in Hi; split; lia).
  destruct (chunk_info_from_received_data (ct_lengths ct) index begin len) as [c|] eqn:Ec.
  2:{ exists ct, None. rewrite mark_chunk_invalid; try done. intros j. rewrite Ei. naive_solver. }
  apply received_data_spec in Ec as (k & Hk & -> & -> & ->); try done; eauto with ct.
  change (k * CHUNK_SIZE) with (ci_offset (nth_chunk (ct_lengths ct) index k)).
  rewrite mark_chunk_valid by done.
  destruct (forallb _ _); [by eexists ct, _|]. eexists _, _. split; [done|].
  split; [|done]. split; [by apply write_chunk_bit_shape|done].
Qed.

Lemma ct_step_wf ct op :
  ct_wf ct -> lengths_small (ct_lengths ct) ->
  ct_op_ok (ct_lengths ct) (length (per_file_bytes ct)) op ->
  exists ct', ct_step ct op = Ret ct' /\ ct_wf ct' /\ ct_lengths ct' = ct_lengths ct
    /\ length (per_file_bytes ct') = length (per_file_bytes ct).
Proof.
  intros Hwf Hsm Hok. destruct op as [i|i|i|ps fis|i|index begin len|fis only|i fid fi]; simpl in *.
  - destruct (reserve_spec ct i Hwf Hok) as [-> ?]. by eexists.
  - rewrite broken_spec by (done || apply Hwf). pose proof (forget_wf true ct i Hwf Hok).
    eexists. split; [done|]. split; [done|]. by destruct (bit _ _).
  - rewrite deferred_spec by (done || apply Hwf). pose proof (forget_wf false ct i Hwf Hok).
    eexists. split; [done|]. split; [done|]. by destruct (bit _ _).
  - destruct Hok as (? & ? & ?).
    destruct (missing_spec ct ps fis) as (ct' & -> & [] & ? & _); try done. by exists ct'.
  - destruct (downloaded_spec ct i Hwf Hok) as (ct' & -> & ? & _ & _ & _ & _ & ? & Hp).
    exists ct'. by rewrite Hp.
  - destruct Hok as (? & ? & ?).
    destruct (mark_chunk_keeps ct index begin len) as (ct' & r & -> & ? & ? & _ & _ & Hp);
      try done.
    exists ct'. by rewrite Hp.
  - destruct (only_files_spec ct fis only Hwf Hok) as (ct' & -> & ? & [? ? ? Hp ? ?]).
    exists ct'. by rewrite Hp.
  - unfold update_file_have_on_piece_completed.
    destruct (lookup_lt_is_Some_2 _ _ Hok) as [b Hb].
    rewrite (proj2 (index_Ret _ _ _) Hb). run.
    rewrite slice_set_lt by done. cbn [mbind outcome_bind fst].
    eexists. split; [done|]. destruct Hwf as [Hs Hh]. cbn. rewrite length_insert.
    split_and!; try done. split; [by apply shape_set_files|done].
Qed.

(** C1: no sequence of chunk-tracker operations on valid pieces, files of the
    torrent and arbitrary blocks panics, and after each sequence the bitfields
    keep their sizes, no piece is both queued and had, and the byte counters
    equal the sums over the bitfields (the "MUST be in sync" of the source). *)
Theorem chunk_tracker_invariant (ops : list ct_op) (ct : ChunkTracker) :
  ct_wf ct -> lengths_small (ct_lengths ct) ->
  Forall (ct_op_ok (ct_lengths ct) (length (per_file_bytes ct))) ops ->
  exists ct', foldM ct_step ct ops = Ret ct' /\ ct_wf ct' /\ ct_lengths ct' = ct_lengths ct.
Proof.
  revert ct. induction ops as [|op ops IH]; intros ct Hwf Hsm Hok; [by exists ct|].
  apply Forall_cons in Hok as [Hop Hok].
  destruct (ct_step_wf ct op Hwf Hsm Hop) as (ct1 & Hst & Hwf1 & Hl & Hp).
  cbn [foldM]. rewrite Hst. run.
  destruct (IH ct1) as (ct' & ? & ? & ?); [done|by rewrite Hl|by rewrite Hl, Hp|].
  exists ct'. by rewrite <- Hl.
Qed.

(** A torrent of three pieces with one file, used by the witnesses. *)
Definition ex_lengths : Lengths := mkLengths 50000 20000 2 10000 2.

Definition ex_file : FileInfo := mkFileInfo [] 0 (0, 3) FileDetailsAttrs_default 50000.

Definition ex_tracker : ChunkTracker :=
  mkChunkTracker [true; true; false; false; false; false; false; false]
    (replicate 8 false) [false; false; true; false; false; false; false; false]
    [true; true; true; false; false; false; false; false] [10000] ex_lengths
    (mkHNS 10000 40000 50000).

Lemma ex_tracker_wf : ct_wf ex_tracker.
Proof.
  split; [|reflexivity]. split; try done.
  intros i. do 8 (destruct i; [by vm_compute|]). done.
Qed.

Lemma chunk_tracker_invariant_witness :
  exists ct', foldM ct_step ex_tracker
    [OpReserve 0; OpChunk 0 0 16384; OpChunk 0 16384 3616; OpDownloaded 0; OpBroken 1;
     OpOnlyFiles [ex_file] {[0%nat]}; OpMissing [2] [ex_file]] = Ret ct' /\ ct_wf ct'.
Proof.
  destruct (chunk_tracker_invariant
    [OpReserve 0; OpChunk 0 0 16384; OpChunk 0 16384 3616; OpDownloaded 0; OpBroken 1;
     OpOnlyFiles [ex_file] {[0%nat]}; OpMissing [2] [ex_file]] ex_tracker ex_tracker_wf)
    as (ct' & ? & ? & _).
  - done.
  - repeat constructor; done.
  - exists ct'. split; assumption.
Defined.

(** C10: after any change of the selection, exactly these pieces are queued: the
    selected ones that are missing and were queued before or were not selected
    before; a piece that is selected again has its chunks forgotten; pieces had
    and the other pieces' chunks are untouched; the counters match. *)
Theorem update_only_files_correct (ct : ChunkTracker) (fis : list FileInfo) (s : gset nat) :
  ct_wf ct -> Forall (file_wf (ct_lengths ct)) fis ->
  exists ct', update_only_files ct fis s = Ret (ct', hns_of ct') /\ ct_wf ct'
    /\ reselected ct ct' (compute_selected_pieces (ct_lengths ct)
                            (fun idx => bool_decide (idx ∈ s)) fis)
    /\ forall j, bit (selected ct') j = true
       <-> exists id fi, fis !! id = Some fi /\ id ∈ s /\ fa_padding (fi_attrs fi) = false
           /\ Z.of_nat j ∈ range_list (fi_piece_range fi).
Proof.
  intros Hwf Hf. destruct (only_files_spec ct fis s Hwf Hf) as (ct' & -> & Hwf' & Hr).
  exists ct'. split_and!; try done. intros j. rewrite (rs_selected _ _ _ Hr).
  destruct Hwf as [Hs _]. rewrite (proj2 (compute_selected_spec _ _ fis (sh_lengths _ Hs) Hf)).
  unfold file_selects. simpl. setoid_rewrite bool_decide_eq_true.
  split; intros (id & fi & Hfi & Hrest); exists id, fi;
    pose proof (file_range_in_bits _ fi (sh_lengths _ Hs) (Forall_lookup_1 _ _ _ _ Hf Hfi));
    pose proof (file_range_valid _ fi (Z.of_nat j) (sh_lengths _ Hs)
      (Forall_lookup_1 _ _ _ _ Hf Hfi)) as Hv;
    destruct (fi_piece_range fi) as [a b]; rewrite elem_of_range_list in *; simpl in *.
  - split_and!; try tauto; lia.
  - destruct Hrest as (? & ? & ?). split_and!; try done; lia.
Qed.

Lemma update_only_files_correct_witness :
  exists ct', update_only_files ex_tracker [ex_file] ∅ = Ret (ct', hns_of ct') /\ ct_wf ct'.
Proof.
  destruct (update_only_files_correct ex_tracker [ex_file] ∅ ex_tracker_wf) as (ct' & ? & ? & _).
  - by repeat constructor.
  - exists ct'. split; assumption.
Defined.

(** The torrent is finished ([needed_bytes] is zero) exactly when every
    selected piece is had. *)
Theorem finished_iff_selected_had (ct : ChunkTracker) :
  ct_wf ct ->
  is_finished ct = true
  <-> forall i, valid_piece (ct_lengths ct) i ->
        bit (selected ct) (Z.to_nat i) = true -> bit (have ct) (Z.to_nat i) = true.
Proof.
  intros [Hs Hh]. pose proof (sh_lengths _ Hs) as Hl.
  unfold is_finished, hns_finished. rewrite Hh. cbn. rewrite Z.eqb_eq. split.
  - intros Hz i Hv Hsel. destruct (bit (have ct) (Z.to_nat i)) eqn:E; [done|exfalso].
    pose proof (piece_length_pos (ct_lengths ct) i Hl) as [Hpos _].
    set (P j := bit (selected ct) j && negb (bit (have ct) j)) in *.
    set (Q j := P j && negb (bool_decide (j = Z.to_nat i))).
    pose proof (bytes_where_bounds (ct_lengths ct) Q Hl) as [Hb _].
    rewrite (bytes_where_flip (ct_lengths ct) Q P i Hl Hv) in Hz.
    + lia.
    + unfold Q. by rewrite bool_decide_eq_true_2, andb_false_r.
    + unfold P. by rewrite Hsel, E.
    + intros j ? ?. unfold Q. destruct Hv. rewrite bool_decide_eq_false_2 by lia.
      by rewrite andb_true_r.
  - intros Hall. unfold bytes_where.
    erewrite (list_fmap_ext _ (fun _ => 0)).
    + assert (forall (xs : list Z), zsum ((fun _ => 0) <$> xs) = 0) as ->; [|done].
      induction xs as [|x xs IH]; [done|]. by rewrite fmap_cons, zsum_cons.
    + intros k i Hi. apply list_elem_of_lookup_2, valid_piece_seq in Hi; [|done].
      destruct (bit (selected ct) (Z.to_nat i)) eqn:E; [|done].
      by rewrite (Hall i Hi E).
Qed.

Lemma finished_iff_selected_had_witness : is_finished ex_tracker = false /\ ct_wf ex_tracker.
Proof.
  split; [|exact ex_tracker_wf]. destruct (is_finished ex_tracker) eqn:E; [|done].
  pose proof (proj1 (finished_iff_selected_had ex_tracker ex_tracker_wf) E 0
    ltac:(split; done) eq_refl). done.
Defined.

(** ** Chunk marking refines a set of received chunks *)

(** The abstract piece: the set of chunk indexes received so far. *)
Definition all_chunks (n : Z) : gset Z := list_to_set (seqZ 0 n).

Definition recv_chunk (n : Z) (recv : gset Z) (k : Z) : gset Z * ChunkMarkingResult :=
  if decide (all_chunks n ⊆ recv) then (recv, PreviouslyCompleted)
  else ({[k]} ∪ recv,
        if decide (all_chunks n ⊆ {[k]} ∪ recv) then Completed else NotCompleted).

(** The set of received chunks that the bits of a piece stand for. *)
Definition represents (bits : BF) (recv : gset Z) : Prop :=
  recv ⊆ all_chunks (Z.of_nat (length bits))
  /\ forall k, 0 <= k < Z.of_nat (length bits) -> bit bits (Z.to_nat k) = true <-> k ∈ recv.

Lemma elem_of_all_chunks n k : k ∈ all_chunks n <-> 0 <= k < n.
Proof. unfold all_chunks. rewrite elem_of_list_to_set, elem_of_seqZ. lia. Qed.

Lemma represents_all bits recv :
  represents bits recv ->
  forallb id bits = true <-> all_chunks (Z.of_nat (length bits)) ⊆ recv.
Proof.
  intros [_ Hr]. rewrite forallb_forall. split.
  - intros Hall k Hk. apply elem_of_all_chunks in Hk. apply Hr; [done|].
    apply bit_true. rewrite bit_lookup by lia. f_equal. apply Hall.
    apply list_elem_of_In, (list_elem_of_lookup_2 _ (Z.to_nat k)), bit_lookup. lia.
  - intros Hsub b Hb. apply list_elem_of_In, list_elem_of_lookup in Hb as [k Hk].
    pose proof (lookup_lt_Some _ _ _ Hk).
    assert (bit bits (Z.to_nat (Z.of_nat k)) = true) as Hbit.
    { apply Hr; [lia|]. apply Hsub, elem_of_all_chunks. lia. }
    rewrite Nat2Z.id in Hbit. unfold bit in Hbit. by rewrite Hk in Hbit.
Qed.

Lemma represents_insert bits recv k :
  represents bits recv -> 0 <= k < Z.of_nat (length bits) ->
  represents (<[Z.to_nat k := true]> bits) ({[k]} ∪ recv).
Proof.
  intros [Hsub Hr] Hk. unfold represents. rewrite length_insert. split.
  - intros x [->%elem_of_singleton|Hx]%elem_of_union; [by apply elem_of_all_chunks|by apply Hsub].
  - intros j Hj. rewrite bit_insert by lia. rewrite elem_of_union, elem_of_singleton.
    destruct (decide (Z.to_nat k = Z.to_nat j)) as [E|E].
    + split; [|done]. intros _. left. lia.
    + rewrite Hr by done. split; [tauto|]. intros [->|?]; [lia|done].
Qed.

(** Marking a list of chunks of one piece, with the answers. *)
Definition mark_next (l : Lengths) (i : Z)
    (st : ChunkTracker * list (option ChunkMarkingResult)) (k : Z)
    : outcome (ChunkTracker * list (option ChunkMarkingResult)) :=
  let c := nth_chunk l i k in
  r ← mark_chunk_downloaded st.1 i (ci_offset c) (ci_size c);
  Ret (r.1, st.2 ++ [r.2]).

Definition mark_chunks (l : Lengths) (i : Z) (ct : ChunkTracker) (ks : list Z)
    : outcome (ChunkTracker * list (option ChunkMarkingResult)) :=
  foldM (mark_next l i) (ct, []) ks.

Definition recv_next (n : Z) (st : gset Z * list (option ChunkMarkingResult)) (k : Z)
    : gset Z * list (option ChunkMarkingResult) :=
  let r := recv_chunk n st.1 k in (r.1, st.2 ++ [Some r.2]).

Definition recv_chunks (n : Z) (recv : gset Z) (ks : list Z)
    : gset Z * list (option ChunkMarkingResult) := foldl (recv_next n) (recv, []) ks.

Lemma mark_chunk_refines ct i k recv :
  ct_shape ct -> valid_piece (ct_lengths ct) i -> 0 <= k < chunks_per_piece (ct_lengths ct) i ->
  represents (piece_bits ct i) recv ->
  let c := nth_chunk (ct_lengths ct) i k in
  let a := recv_chunk (chunks_per_piece (ct_lengths ct) i) recv k in
  exists ct', mark_chunk_downloaded ct i (ci_offset c) (ci_size c) = Ret (ct', Some a.2)
    /\ ct_shape ct' /\ ct_lengths ct' = ct_lengths ct /\ represents (piece_bits ct' i) a.1
    /\ forall j, valid_piece (ct_lengths ct) j -> j <> i -> piece_bits ct' j = piece_bits ct j.
Proof.
  intros Hs Hv Hk Hr. cbn zeta. rewrite mark_chunk_valid by done. unfold recv_chunk.
  pose proof (piece_bits_length ct i Hs Hv) as Hlen.
  pose proof (represents_insert _ _ k Hr ltac:(lia)) as Hr'.
  pose proof (represents_all _ _ Hr) as Hall. pose proof (represents_all _ _ Hr') as Hall'.
  rewrite length_insert in Hall'. rewrite Hlen in Hall, Hall'.
  destruct (forallb id (piece_bits ct i)).
  - rewrite decide_True by (by apply Hall). by exists ct.
  - rewrite decide_False by (by rewrite <- Hall). eexists. split.
    + do 3 f_equal. cbn [snd].
      destruct (forallb id (<[_ := _]> _)), (decide (all_chunks _ ⊆ {[k]} ∪ recv)); naive_solver.
    + split_and!; [by apply write_chunk_bit_shape|done|by rewrite write_chunk_bit_piece|].
      intros j Hj Hne. by apply write_chunk_bit_other.
Qed.

(** C2: for any sequence of blocks of one piece, in any order and with
    duplicates, [mark_chunk_downloaded] answers what the set of received chunks
    answers: [NotCompleted] until the last missing chunk, [Completed] on it,
    [PreviouslyCompleted] after it, and the chunks of other pieces stay as they
    were. *)
Theorem mark_chunks_refine_set (ks : list Z) (ct : ChunkTracker) (i : Z) (recv : gset Z) :
  ct_shape ct -> valid_piece (ct_lengths ct) i ->
  Forall (fun k => 0 <= k < chunks_per_piece (ct_lengths ct) i) ks ->
  represents (piece_bits ct i) recv ->
  let a := recv_chunks (chunks_per_piece (ct_lengths ct) i) recv ks in
  exists ct', mark_chunks (ct_lengths ct) i ct ks = Ret (ct', a.2)
    /\ represents (piece_bits ct' i) a.1
    /\ forall j, valid_piece (ct_lengths ct) j -> j <> i -> piece_bits ct' j = piece_bits ct j.
Proof.
  intros Hs Hv Hks Hr. unfold mark_chunks, recv_chunks.
  generalize (@nil (option ChunkMarkingResult)) as out.
  set (l := ct_lengths ct) in *. assert (ct_lengths ct = l) as El by done.
  clearbody l. revert ct recv Hs El Hr.
  induction Hks as [|k ks Hk Hks IH]; intros ct recv Hs El Hr out; [by exists ct|].
  destruct (mark_chunk_refines ct i k recv) as (ct1 & Hm & Hs1 & Hl1 & Hr1 & Ho1);
    [done|by rewrite El..|done|]. rewrite El in *.
  cbn [foldM foldl]. unfold mark_next at 2, recv_next at 2 4. cbn [fst snd].
  rewrite Hm. cbn [mbind outcome_bind fst snd].
  destruct (IH ct1 _ Hs1 ltac:(done) Hr1 (out ++ [Some (recv_chunk (chunks_per_piece l i) recv k).2]))
    as (ct' & -> & Hr' & Ho').
  exists ct'. split_and!; [done|done|]. intros j Hj Hne. by rewrite Ho', Ho1.
Qed.

Lemma mark_chunks_refine_set_witness :
  exists ct', mark_chunks ex_lengths 0 ex_tracker [1; 1; 0; 1]
    = Ret (ct', [Some NotCompleted; Some NotCompleted; Some Completed; Some PreviouslyCompleted]).
Proof.
  destruct (mark_chunks_refine_set [1; 1; 0; 1] ex_tracker 0 ∅) as (ct' & Heq & _).
  - apply ex_tracker_wf.
  - split; done.
  - repeat constructor; done.
  - split; [set_solver|]. intros k Hk. change (0 <= k < 2) in Hk.
    assert (k = 0 \/ k = 1) as [-> | ->] by lia;
      split; intros E; (discriminate E || set_solver).
  - exists ct'. exact Heq.
Defined.

(** ** The queue, file by file *)

Definition queued_in_file (ct : ChunkTracker) (fis : list FileInfo) (id : nat) : list Z :=
  match fis !! id with
  | Some f =>
    if default 0 (per_file_bytes ct !! id) =? fi_len f then []
    else filter (fun p => bit (queue_pieces ct) (Z.to_nat p) = true)
           (FileInfo_iter_piece_priorities f)
  | None => []
  end.

Lemma queued_inner ct xs : forall acc,
  ct_shape ct -> Forall (valid_piece (ct_lengths ct)) xs ->
  foldM (fun acc id =>
      q ← index (queue_pieces ct) (Z.to_nat id);
      Ret (if (q : bool) then
             match (i ← try_into 32 id; validate_piece_index (ct_lengths ct) i) with
             | Some v => acc ++ [v]
             | None => acc
             end
           else acc)) acc xs
  = Ret (acc ++ filter (fun p => bit (queue_pieces ct) (Z.to_nat p) = true) xs).
Proof.
  intros acc Hs Hv. revert acc. induction Hv as [|x xs Hx Hxs IH]; intros acc.
  - by rewrite app_nil_r.
  - destruct (piece_in_bits ct x Hs Hx) as (? & _ & _).
    pose proof (last_id_spec _ (sh_lengths _ Hs)) as (_ & _ & ?).
    cbn [foldM]. rewrite index_bit by done.
    rewrite try_into_small by (destruct Hx; unfold is_uint; lia).
    rewrite filter_cons. cbn [mbind outcome_bind option_bind].
    rewrite validate_valid by done. rewrite IH.
    destruct (bit (queue_pieces ct) (Z.to_nat x)); simpl; [by rewrite <- app_assoc|done].
Qed.

Lemma file_priorities_perm l fi :
  lengths_wf l -> file_wf l fi ->
  FileInfo_iter_piece_priorities fi ≡ₚ range_list (fi_piece_range fi).
Proof.
  intros H [Hr ? ? ?]. unfold FileInfo_iter_piece_priorities, piece_range_usize. rewrite Hr.
  pose proof (last_id_spec l H) as (_ & _ & ?). pose proof (wf_piece _ H).
  destruct (Z.eq_dec (fi_len fi) 0) as [E0|].
  - rewrite E0, file_range_spec by (done || lia). simpl. pose proof (wf_total _ H).
    assert (0 <= fi_offset_in_torrent fi / ln_piece_length l) by (apply Z.div_pos; lia).
    pose proof (Z.div_le_upper_bound (fi_offset_in_torrent fi) (ln_piece_length l)
      (fi_offset_in_torrent fi) ltac:(lia) ltac:(nia)).
    apply iter_piece_priorities_perm; lia.
  - pose proof (file_range_bounds l (fi_offset_in_torrent fi) (fi_len fi) H) as Hb.
    destruct (iter_pieces_within_offset _ _ _) as [a b]. cbn in Hb.
    apply iter_piece_priorities_perm; lia.
Qed.

Lemma file_priorities_valid l fi :
  lengths_wf l -> file_wf l fi -> Forall (valid_piece l) (FileInfo_iter_piece_priorities fi).
Proof.
  intros H Hf. rewrite (file_priorities_perm l fi H Hf). apply Forall_forall.
  intros p. by apply file_range_valid.
Qed.

Lemma iter_queued_file_spec ct fis acc id :
  ct_shape ct -> Forall (file_wf (ct_lengths ct)) fis ->
  length (per_file_bytes ct) = length fis ->
  iter_queued_file ct fis acc id = Ret (acc ++ queued_in_file ct fis id).
Proof.
  intros Hs Hf Hlen. unfold queued_in_file, iter_queued_file.
  destruct (fis !! id) as [f|] eqn:Ef; [|by rewrite app_nil_r].
  destruct (lookup_lt_is_Some_2 (per_file_bytes ct) id) as [b Hb].
  { rewrite Hlen. by apply lookup_lt_is_Some. }
  rewrite (proj2 (index_Ret _ _ _) Hb), Hb. run.
  simpl default. destruct (b =? fi_len f); [by rewrite app_nil_r|].
  apply (queued_inner ct (FileInfo_iter_piece_priorities f) acc Hs).
  apply file_priorities_valid; [apply Hs|by apply (Forall_lookup_1 _ _ _ _ Hf Ef)].
Qed.

Lemma iter_queued_eq ct prios fis :
  ct_shape ct -> Forall (file_wf (ct_lengths ct)) fis ->
  length (per_file_bytes ct) = length fis ->
  iter_queued_pieces ct prios fis = Ret (mjoin (queued_in_file ct fis <$> prios)).
Proof.
  intros Hs Hf Hlen.
  enough (forall acc, foldM (iter_queued_file ct fis) acc prios
    = Ret (acc ++ mjoin (queued_in_file ct fis <$> prios))) as Hgen by apply (Hgen []).
  induction prios as [|id prios IH]; intros acc; [by rewrite app_nil_r|].
  cbn [foldM]. rewrite iter_queued_file_spec by done. run.
  rewrite IH, fmap_cons, <- app_assoc. done.
Qed.

Lemma elem_of_queued_list ct prios fis p :
  ct_shape ct -> Forall (file_wf (ct_lengths ct)) fis ->
  length (per_file_bytes ct) = length fis ->
  p ∈ mjoin (queued_in_file ct fis <$> prios)
  <-> bit (queue_pieces ct) (Z.to_nat p) = true
      /\ exists id fi, id ∈ prios /\ fis !! id = Some fi
           /\ per_file_bytes ct !! id <> Some (fi_len fi)
           /\ p ∈ range_list (fi_piece_range fi).
Proof.
  intros Hs Hf Hlen. rewrite list_elem_of_join. split.
  - intros (ps & Hp & (id & -> & Hid)%list_elem_of_fmap). unfold queued_in_file in Hp.
    destruct (fis !! id) as [f|] eqn:Ef; [|by apply not_elem_of_nil in Hp].
    destruct (Z.eqb_spec (default 0 (per_file_bytes ct !! id)) (fi_len f)) as [E|E];
      [by apply not_elem_of_nil in Hp|].
    apply list_elem_of_filter in Hp as [Hq Hp]. split; [done|]. exists id, f.
    split_and!; try done.
    + intros Hb. by rewrite Hb in E.
    + by rewrite (file_priorities_perm _ f (sh_lengths _ Hs)
        (Forall_lookup_1 _ _ _ _ Hf Ef)) in Hp.
  - intros (Hq & id & f & Hid & Ef & Hne & Hp). exists (queued_in_file ct fis id).
    split; [|apply list_elem_of_fmap; by exists id]. unfold queued_in_file. rewrite Ef.
    destruct (lookup_lt_is_Some_2 (per_file_bytes ct) id) as [b Hb].
    { rewrite Hlen. by apply lookup_lt_is_Some. }
    rewrite Hb in *. simpl. destruct (Z.eqb_spec b (fi_len f)); [congruence|].
    apply list_elem_of_filter. split; [done|].
    by rewrite (file_priorities_perm _ f (sh_lengths _ Hs) (Forall_lookup_1 _ _ _ _ Hf Ef)).
Qed.

(** The walk over the queue in file order never panics, lists the files in
    the order of their priorities and, inside a file, its queued pieces first
    piece first, last piece second; a piece is listed iff it is queued and in
    one of the files that is not complete. *)
Theorem iter_queued_pieces_correct (ct : ChunkTracker) (prios : list nat) (fis : list FileInfo) :
  ct_shape ct -> Forall (file_wf (ct_lengths ct)) fis ->
  length (per_file_bytes ct) = length fis ->
  iter_queued_pieces ct prios fis = Ret (mjoin (queued_in_file ct fis <$> prios))
  /\ forall p, p ∈ mjoin (queued_in_file ct fis <$> prios)
     <-> bit (queue_pieces ct) (Z.to_nat p) = true
         /\ exists id fi, id ∈ prios /\ fis !! id = Some fi
              /\ per_file_bytes ct !! id <> Some (fi_len fi)
              /\ p ∈ range_list (fi_piece_range fi).
Proof.
  intros Hs Hf Hlen. split; [by apply iter_queued_eq|].
  intros p. by apply elem_of_queued_list.
Qed.

Lemma iter_queued_pieces_correct_witness :
  iter_queued_pieces ex_tracker [0%nat] [ex_file] = Ret [0; 1].
Proof.
  apply (iter_queued_pieces_correct ex_tracker [0%nat] [ex_file]).
  - apply ex_tracker_wf.
  - by repeat constructor.
  - reflexivity.
Defined.
