(* ===== verification/Net.v ===== *)
(** * Network addresses

    The [std::net] types the code uses: an address is the integer of its
    octets in network order. *)

From stdpp Require Import base decidable countable numbers.
From Stdlib Require Import ZArith Lia.
From S2P Require Import Prelude.
Open Scope Z_scope.

Inductive IpAddr :=
| IpV4 (bits : Z)
| IpV6 (bits : Z).

Inductive SocketAddr :=
| SockV4 (ip port : Z)
| SockV6 (ip port flowinfo scope_id : Z).

(** How a peer is reached. *)
Inductive ConnectionKind := Tcp | Utp | Socks.

#[export] Instance IpAddr_eq_dec : EqDecision IpAddr.
Proof. solve_decision. Defined.

#[export] Instance SocketAddr_eq_dec : EqDecision SocketAddr.
Proof. solve_decision. Defined.

#[export] Instance SocketAddr_countable : Countable SocketAddr.
Proof.
  refine (inj_countable'
    (fun a => match a with
              | SockV4 i p => inl (i, p)
              | SockV6 i p f s => inr (i, p, f, s)
              end)
    (fun a => match a with
              | inl (i, p) => SockV4 i p
              | inr (i, p, f, s) => SockV6 i p f s
              end) _).
  by intros [].
Defined.

(** [SocketAddr::new(ip, port)], [ip()], [port()]. *)
Definition sock_new (ip : IpAddr) (port : Z) : SocketAddr :=
  match ip with
  | IpV4 b => SockV4 b port
  | IpV6 b => SockV6 b port 0 0
  end.

Definition sock_ip (a : SocketAddr) : IpAddr :=
  match a with
  | SockV4 i _ => IpV4 i
  | SockV6 i _ _ _ => IpV6 i
  end.

Definition sock_port (a : SocketAddr) : Z :=
  match a with
  | SockV4 _ p => p
  | SockV6 _ p _ _ => p
  end.
