(* ===== verification/PieceTracker.v ===== *)
(** * Piece tracker ([librqbit::piece_tracker])

    The chunk tracker with the map of pieces in flight.  A [Duration] and an
    [Instant] are integers of nanoseconds; a [HashMap] is a [gmap] whose
    iteration order is the parameter [map_iter]. *)

From stdpp Require Import base tactics option list list_numbers numbers decidable gmap.
From Stdlib Require Import ZArith Lia SpecFloat.
From S2P Require Import Prelude Lengths FileInfo ChunkTracker Net.
Open Scope Z_scope.

Abbreviation PeerHandle := SocketAddr.

(** ** Durations as [f64] *)

Definition f64_of_Z (z : Z) : spec_float := binary_normalize 53 1024 z 0 false.

(** [Duration::as_secs_f64]: the seconds plus the nanoseconds over [1e9]. *)
Definition as_secs_f64 (d : Z) : spec_float :=
  SFadd 53 1024 (f64_of_Z (d / 1000000000))
    (SFdiv 53 1024 (f64_of_Z (d mod 1000000000)) (f64_of_Z 1000000000)).

Definition div_half_even (n d : Z) : Z :=
  let q := n / d in
  let r := n mod d in
  if 2 * r <? d then q
  else if d <? 2 * r then q + 1
  else if Z.even q then q else q + 1.

(** [Duration::from_secs_f64]: to the nearest nanosecond, a panic when the value
    is negative, not finite or has more than [u64::MAX] seconds. *)
Definition from_secs_f64 (f : spec_float) : outcome Z :=
  match f with
  | S754_zero _ => Ret 0
  | S754_finite false m e =>
    let nanos :=
      if 0 <=? e then Z.pos m * 2 ^ e * 1000000000
      else div_half_even (Z.pos m * 1000000000) (2 ^ (- e)) in
    if nanos <? 2 ^ 64 * 1000000000 then Ret nanos else Panic
  | _ => Panic
  end.

(** [Duration::from_secs_f64(avg.as_secs_f64() * threshold)] for an integral
    threshold. *)
Definition scale_duration (avg threshold : Z) : outcome Z :=
  from_secs_f64 (SFmul 53 1024 (as_secs_f64 avg) (f64_of_Z threshold)).

(** [Instant::elapsed] saturates at zero. *)
Definition elapsed (now started : Z) : Z := saturating_sub now started.

(** ** Data *)

Record InflightPiece := mkInflight {
  if_peer : PeerHandle;
  if_started : Z
}.

Abbreviation inflight_map := (gmap Z InflightPiece).

(** The order in which the map is walked: any permutation of its entries. *)
Class MapIter := {
  map_iter : inflight_map -> list (Z * InflightPiece);
  map_iter_perm : forall m, map_iter m ≡ₚ map_to_list m
}.

Definition MapIter_to_list : MapIter := {| map_iter := map_to_list; map_iter_perm _ := reflexivity _ |}.

Inductive AcquireResult :=
| Reserved (piece : ValidPieceIndex)
| Stolen (piece : ValidPieceIndex) (from_peer : PeerHandle)
| NoneAvailable.

(** [clock p] is the clock reading taken for piece [p], [now] the one stored. *)
Record AcquireRequest := mkReq {
  ar_peer : PeerHandle;
  ar_peer_avg_time : option Z;
  ar_priority_pieces : list ValidPieceIndex;
  ar_file_priorities : list nat;
  ar_file_infos : list FileInfo;
  ar_piece_order : option (list Z);
  ar_peer_has_piece : ValidPieceIndex -> bool;
  ar_can_steal : ValidPieceIndex -> bool;
  ar_clock : ValidPieceIndex -> Z;
  ar_now : Z
}.

Record PieceTracker := mkPT {
  pt_chunks : ChunkTracker;
  pt_inflight : inflight_map
}.

Definition PieceTracker_new (chunks : ChunkTracker) : PieceTracker := mkPT chunks ∅.

Section Ops.
Context `{MapIter}.

Definition into_chunks (pt : PieceTracker) : outcome ChunkTracker :=
  foldM (fun ct (p : Z * InflightPiece) => mark_piece_broken_if_not_have ct p.1)
    (pt_chunks pt) (map_iter (pt_inflight pt)).

(** ** Acquisition *)

Definition reserve_piece (pt : PieceTracker) (piece : ValidPieceIndex) (peer : PeerHandle)
    (now : Z) : outcome (PieceTracker * AcquireResult) :=
  ct ← reserve_needed_piece (pt_chunks pt) piece;
  Ret (mkPT ct (<[piece := mkInflight peer now]> (pt_inflight pt)), Reserved piece).

(** [max_by_key]: the last of the largest. *)
Definition max_by_elapsed (l : list (Z * PeerHandle * Z)) : option (Z * PeerHandle * Z) :=
  foldl (fun acc x =>
      match acc with
      | None => Some x
      | Some y => if x.2 <? y.2 then Some y else Some x
      end) None l.

Definition steal_candidates (pt : PieceTracker) (req : AcquireRequest) (min_elapsed : Z)
    : list (Z * PeerHandle * Z) :=
  filter (fun c : Z * PeerHandle * Z => min_elapsed <= c.2)
    ((fun p : Z * InflightPiece =>
        (p.1, if_peer p.2, elapsed (ar_clock req p.1) (if_started p.2)))
     <$> filter (fun p : Z * InflightPiece =>
                   if_peer p.2 <> ar_peer req /\ ar_peer_has_piece req p.1 = true)
           (map_iter (pt_inflight pt))).

Definition try_steal (pt : PieceTracker) (req : AcquireRequest) (threshold : Z)
    : outcome (PieceTracker * option AcquireResult) :=
  match ar_peer_avg_time req with
  | None => Ret (pt, None)
  | Some my_avg =>
    min_elapsed ← scale_duration my_avg threshold;
    match max_by_elapsed (steal_candidates pt req min_elapsed) with
    | None => Ret (pt, None)
    | Some (piece, old_peer, _) =>
      if negb (ar_can_steal req piece) then Ret (pt, None)
      else
        match pt_inflight pt !! piece with
        | None => Ret (pt, None)
        | Some _ =>
          Ret (mkPT (pt_chunks pt)
                 (<[piece := mkInflight (ar_peer req) (ar_now req)]> (pt_inflight pt)),
               Some (Stolen piece old_peer))
        end
    end
  end.

(** The [for] loop over [priority_pieces]: the piece it reserves. *)
Fixpoint find_priority (pt : PieceTracker) (req : AcquireRequest) (ps : list ValidPieceIndex)
    : outcome (option ValidPieceIndex) :=
  match ps with
  | [] => Ret None
  | p :: ps =>
    h ← is_piece_have (pt_chunks pt) p;
    if negb h && negb (bool_decide (is_Some (pt_inflight pt !! p))) && ar_peer_has_piece req p
    then Ret (Some p)
    else find_priority pt req ps
  end.

Definition queued_pieces (pt : PieceTracker) (req : AcquireRequest)
    : outcome (list ValidPieceIndex) :=
  match ar_piece_order req with
  | Some order => Ret (iter_queued_in_order (pt_chunks pt) order)
  | None => iter_queued_pieces (pt_chunks pt) (ar_file_priorities req) (ar_file_infos req)
  end.

Definition acquire_piece (pt : PieceTracker) (req : AcquireRequest)
    : outcome (PieceTracker * AcquireResult) :=
  r ← try_steal pt req 10;
  match r with
  | (pt, Some res) => Ret (pt, res)
  | (pt, None) =>
    prio ← find_priority pt req (ar_priority_pieces req);
    match prio with
    | Some p => reserve_piece pt p (ar_peer req) (ar_now req)
    | None =>
      queued ← queued_pieces pt req;
      match list_find (fun p => ar_peer_has_piece req p = true) queued with
      | Some (_, p) => reserve_piece pt p (ar_peer req) (ar_now req)
      | None =>
        r ← try_steal pt req 3;
        match r with
        | (pt, Some res) => Ret (pt, res)
        | (pt, None) => Ret (pt, NoneAvailable)
        end
      end
    end
  end.

(** ** Completion *)

Definition take_inflight (pt : PieceTracker) (piece : ValidPieceIndex) (now : Z)
    : PieceTracker * option Z :=
  match pt_inflight pt !! piece with
  | None => (pt, None)
  | Some i =>
    (mkPT (pt_chunks pt) (delete piece (pt_inflight pt)), Some (elapsed now (if_started i)))
  end.

Definition mark_piece_hash_ok (pt : PieceTracker) (piece : ValidPieceIndex)
    : outcome PieceTracker :=
  ct ← mark_piece_downloaded (pt_chunks pt) piece;
  Ret (mkPT ct (pt_inflight pt)).

Definition mark_piece_hash_failed (pt : PieceTracker) (piece : ValidPieceIndex)
    : outcome PieceTracker :=
  ct ← mark_piece_broken_if_not_have (pt_chunks pt) piece;
  Ret (mkPT ct (pt_inflight pt)).

Definition defer_piece (pt : PieceTracker) (piece : ValidPieceIndex) : outcome PieceTracker :=
  ct ← mark_piece_deferred (pt_chunks pt) piece;
  Ret (mkPT ct (delete piece (pt_inflight pt))).

Definition pieces_owned_by (pt : PieceTracker) (peer : PeerHandle) : list ValidPieceIndex :=
  (fun p : Z * InflightPiece => p.1)
  <$> filter (fun p : Z * InflightPiece => if_peer p.2 = peer) (map_iter (pt_inflight pt)).

Definition release_piece (pt : PieceTracker) (piece : ValidPieceIndex) : outcome PieceTracker :=
  ct ← mark_piece_broken_if_not_have (pt_chunks pt) piece;
  Ret (mkPT ct (delete piece (pt_inflight pt))).

Definition release_pieces_owned_by (pt : PieceTracker) (peer : PeerHandle)
    : outcome (PieceTracker * nat) :=
  let pieces_to_release := pieces_owned_by pt peer in
  pt' ← foldM release_piece pt pieces_to_release;
  Ret (pt', length pieces_to_release).

(** ** Queries and pass-through *)

Definition get_inflight (pt : PieceTracker) (piece : ValidPieceIndex) : option InflightPiece :=
  pt_inflight pt !! piece.

Definition is_inflight (pt : PieceTracker) (piece : ValidPieceIndex) : bool :=
  bool_decide (is_Some (pt_inflight pt !! piece)).

Definition inflight_count (pt : PieceTracker) : nat := size (pt_inflight pt).

Definition pt_mark_chunk_downloaded (pt : PieceTracker) (index begin len : Z)
    : outcome (PieceTracker * option ChunkMarkingResult) :=
  r ← mark_chunk_downloaded (pt_chunks pt) index begin len;
  Ret (mkPT r.1 (pt_inflight pt), r.2).

Definition pt_update_only_files (pt : PieceTracker) (fis : list FileInfo) (only : gset nat)
    : outcome (PieceTracker * HaveNeededSelected) :=
  r ← update_only_files (pt_chunks pt) fis only;
  Ret (mkPT r.1 (pt_inflight pt), r.2).

Definition pt_update_file_have_on_piece_completed (pt : PieceTracker) (piece : ValidPieceIndex)
    (file_id : nat) (fi : FileInfo) : outcome (PieceTracker * Z) :=
  r ← update_file_have_on_piece_completed (pt_chunks pt) piece file_id fi;
  Ret (mkPT r.1 (pt_inflight pt), r.2).
End Ops.

(** ** Invariant

    Each piece in flight is a piece of the torrent, is not queued and is not
    had: with the disjointness of queue and have in [ct_wf], the "exactly one
    state" of the module's documentation. *)
Record pt_ok (pt : PieceTracker) : Prop := {
  pk_chunks : ct_wf (pt_chunks pt);
  pk_inflight : forall p i, pt_inflight pt !! p = Some i ->
    valid_piece (ct_lengths (pt_chunks pt)) p
    /\ bit (queue_pieces (pt_chunks pt)) (Z.to_nat p) = false
    /\ bit (have (pt_chunks pt)) (Z.to_nat p) = false
}.

(** What holds whatever calls are made, in whatever order. *)
Record pt_sound (pt : PieceTracker) : Prop := {
  ps_chunks : ct_wf (pt_chunks pt);
  ps_inflight : forall p i, pt_inflight pt !! p = Some i -> valid_piece (ct_lengths (pt_chunks pt)) p
}.

Lemma pt_ok_sound pt : pt_ok pt -> pt_sound pt.
Proof. intros [Hc Hi]. split; [done|]. intros p i Hp. by apply (Hi p i). Qed.

(** [p] is the first element of [l] with [P]. *)
Definition first_of (P : Z -> Prop) (l : list Z) (p : Z) : Prop :=
  exists pre post, l = pre ++ p :: post /\ P p /\ Forall (fun q => ~ P q) pre.

(** The file metadata and the clock arithmetic a request relies on. *)
Record req_ok (l : Lengths) (nfiles : nat) (req : AcquireRequest) : Prop := {
  ro_priority : Forall (valid_piece l) (ar_priority_pieces req);
  ro_files : Forall (file_wf l) (ar_file_infos req);
  ro_nfiles : nfiles = length (ar_file_infos req);
  ro_order : match ar_piece_order req with
             | Some o => Forall (fun p => 0 <= p) o
             | None => True
             end;
  ro_avg : match ar_peer_avg_time req with
           | Some avg => scale_duration avg 10 <> Panic /\ scale_duration avg 3 <> Panic
           | None => True
           end
}.

Lemma max_by_elapsed_spec l :
  match max_by_elapsed l with
  | Some x => x ∈ l /\ forall y, y ∈ l -> y.2 <= x.2
  | None => l = []
  end.
Proof.
  unfold max_by_elapsed.
  assert (Hgen : forall l acc seen,
    match acc with
    | Some x => x ∈ seen /\ forall y, y ∈ seen -> y.2 <= x.2
    | None => seen = []
    end ->
    match foldl (fun acc (x : Z * PeerHandle * Z) =>
      match acc with
      | None => Some x
      | Some y => if x.2 <? y.2 then Some y else Some x
      end) acc l with
    | Some x => x ∈ seen ++ l /\ forall y, y ∈ seen ++ l -> y.2 <= x.2
    | None => seen ++ l = []
    end).
  { clear l. induction l as [|x l IH]; intros acc seen Hacc; simpl.
    - by rewrite app_nil_r.
    - replace (seen ++ x :: l) with ((seen ++ [x]) ++ l) by (by rewrite <- app_assoc).
      apply IH. destruct acc as [y|].
      + destruct Hacc as [Hy Hmax]. destruct (Z.ltb_spec x.2 y.2).
        * split; [set_solver|]. intros z [Hz| ->%list_elem_of_singleton]%elem_of_app; [by apply Hmax|lia].
        * split; [set_solver|]. intros z [Hz| ->%list_elem_of_singleton]%elem_of_app; [|lia].
          specialize (Hmax z Hz). lia.
      + subst seen. split; [set_solver|]. intros z ->%list_elem_of_singleton. lia. }
  apply (Hgen l None [] eq_refl).
Qed.

Section Proofs.
Context `{MapIter}.

Lemma elem_of_map_iter m p i : (p, i) ∈ map_iter m <-> m !! p = Some i.
Proof. rewrite map_iter_perm. by rewrite elem_of_map_to_list. Qed.

Lemma elem_of_steal_candidates pt req m p peer e :
  (p, peer, e) ∈ steal_candidates pt req m <->
  exists i, pt_inflight pt !! p = Some i /\ if_peer i = peer /\ peer <> ar_peer req
    /\ ar_peer_has_piece req p = true /\ e = elapsed (ar_clock req p) (if_started i) /\ m <= e.
Proof.
  unfold steal_candidates. rewrite list_elem_of_filter, list_elem_of_fmap. split.
  - intros (Hm & [q i] & Heq & [[Hne Hhas] Hin]%list_elem_of_filter). simpl in *. simplify_eq.
    apply elem_of_map_iter in Hin. by exists i.
  - intros (i & Hi & <- & Hne & Hhas & -> & Hm). split; [done|]. exists (p, i).
    split; [done|]. apply list_elem_of_filter. split; [done|]. by apply elem_of_map_iter.
Qed.

(** The piece a steal looks at: in flight for another peer, offered by this one, past
    [t] times the average of this one, and the slowest of those. *)
Definition past_due (pt : PieceTracker) (req : AcquireRequest) (t p : Z) (old : PeerHandle) : Prop :=
  exists avg m i, ar_peer_avg_time req = Some avg /\ scale_duration avg t = Ret m
    /\ pt_inflight pt !! p = Some i /\ if_peer i = old /\ old <> ar_peer req
    /\ ar_peer_has_piece req p = true
    /\ m <= elapsed (ar_clock req p) (if_started i)
    /\ forall q j, pt_inflight pt !! q = Some j -> if_peer j <> ar_peer req ->
         ar_peer_has_piece req q = true ->
         elapsed (ar_clock req q) (if_started j) <= elapsed (ar_clock req p) (if_started i).

(** No steal: there is no such piece, or the one looked at may not be stolen. *)
Definition no_steal (pt : PieceTracker) (req : AcquireRequest) (t : Z) : Prop :=
  (forall p old, ~ past_due pt req t p old)
  \/ exists p old, past_due pt req t p old /\ ar_can_steal req p = false.

Lemma try_steal_spec pt req t :
  match ar_peer_avg_time req with Some avg => scale_duration avg t <> Panic | None => True end ->
  (try_steal pt req t = Ret (pt, None) /\ no_steal pt req t)
  \/ exists p old, past_due pt req t p old /\ ar_can_steal req p = true
       /\ try_steal pt req t
          = Ret (mkPT (pt_chunks pt)
                   (<[p := mkInflight (ar_peer req) (ar_now req)]> (pt_inflight pt)),
                 Some (Stolen p old)).
Proof.
  intros Havg. unfold try_steal. destruct (ar_peer_avg_time req) as [avg|] eqn:Eavg.
  2:{ left. split; [done|]. left. intros p old (? & ? & ? & ? & _). congruence. }
  destruct (scale_duration avg t) as [m|] eqn:Em; [|done]. run.
  pose proof (max_by_elapsed_spec (steal_candidates pt req m)) as Hmax.
  destruct (max_by_elapsed _) as [[[p old] e]|].
  2:{ left. split; [done|]. left. intros p old (avg' & m' & i & Ea & Em' & Hi & Ho & Hne & Hhas & Hm & _).
      assert ((p, old, elapsed (ar_clock req p) (if_started i)) ∈ steal_candidates pt req m) as Hin.
      { apply elem_of_steal_candidates. exists i. split_and!; try done. congruence. }
      rewrite Hmax in Hin. by apply not_elem_of_nil in Hin. }
  destruct Hmax as [(i & Hi & Ho & Hne & Hhas & -> & Hm)%elem_of_steal_candidates Hmax].
  assert (past_due pt req t p old) as Hdue.
  { exists avg, m, i. split_and!; try done. intros q j Hq Hpe Hhq.
    destruct (Z.le_gt_cases m (elapsed (ar_clock req q) (if_started j))); [|lia].
    apply (Hmax (q, if_peer j, elapsed (ar_clock req q) (if_started j))).
    apply elem_of_steal_candidates. by exists j. }
  destruct (ar_can_steal req p) eqn:Hs; simpl.
  - rewrite Hi. right. by exists p, old.
  - left. split; [done|]. right. by exists p, old.
Qed.

(** A priority piece that can be reserved. *)
Definition free_offered (pt : PieceTracker) (req : AcquireRequest) (p : Z) : Prop :=
  bit (have (pt_chunks pt)) (Z.to_nat p) = false /\ pt_inflight pt !! p = None
  /\ ar_peer_has_piece req p = true.

Lemma find_priority_spec pt req ps :
  pt_sound pt -> Forall (valid_piece (ct_lengths (pt_chunks pt))) ps ->
  exists r, find_priority pt req ps = Ret r
    /\ match r with
       | Some p => first_of (free_offered pt req) ps p
       | None => Forall (fun p => ~ free_offered pt req p) ps
       end.
Proof.
  intros Hok. pose proof (proj1 (ps_chunks _ Hok)) as Hs.
  induction 1 as [|p ps Hp Hps (r & IH & Hr)]; [by exists None|].
  destruct (piece_in_bits _ p Hs Hp) as (_ & ? & _). cbn [find_priority].
  unfold is_piece_have. rewrite index_bit by done. run.
  destruct (negb (bit (have (pt_chunks pt)) (Z.to_nat p)) && negb (bool_decide (is_Some (pt_inflight pt !! p)))
    && ar_peer_has_piece req p) eqn:E.
  - exists (Some p). split; [done|]. exists [], ps. split; [done|]. split; [|done].
    apply andb_true_iff in E as [[Hh%negb_true_iff Hi%negb_true_iff]%andb_true_iff Ho].
    split_and!; try done. by apply bool_decide_eq_false, eq_None_not_Some in Hi.
  - assert (~ free_offered pt req p) as Hno.
    { intros (Hh & Hi & Ho). by rewrite Hh, Hi, Ho in E. }
    exists r. split; [done|]. destruct r as [q|]; [|by constructor].
    destruct Hr as (pre & post & -> & Hq & Hpre). exists (p :: pre), post. split_and!; [done|done|by constructor].
Qed.

Lemma reserve_piece_spec pt p peer now :
  pt_sound pt -> valid_piece (ct_lengths (pt_chunks pt)) p ->
  reserve_piece pt p peer now
  = Ret (mkPT (set_queue_pieces (<[Z.to_nat p := false]> (queue_pieces (pt_chunks pt))) (pt_chunks pt))
           (<[p := mkInflight peer now]> (pt_inflight pt)), Reserved p).
Proof. intros [Hc _] Hv. unfold reserve_piece. by rewrite (proj1 (reserve_spec _ p Hc Hv)). Qed.

(** The queued pieces a request looks at, in the order it asks for: that of [piece_order],
    or file by file and in a file its first piece, its last and the others. *)
Definition request_queue (pt : PieceTracker) (req : AcquireRequest) : list Z :=
  match ar_piece_order req with
  | Some order => filter (fun p => bit (queue_pieces (pt_chunks pt)) (Z.to_nat p) = true
                                   /\ p <= ln_last_piece_id (ct_lengths (pt_chunks pt))) order
  | None => mjoin (queued_in_file (pt_chunks pt) (ar_file_infos req) <$> ar_file_priorities req)
  end.

Lemma in_order_eq ct order :
  ct_shape ct -> Forall (fun p => 0 <= p) order ->
  iter_queued_in_order ct order
  = filter (fun p => bit (queue_pieces ct) (Z.to_nat p) = true /\ p <= ln_last_piece_id (ct_lengths ct)) order.
Proof.
  intros Hs. pose proof (last_id_spec _ (sh_lengths _ Hs)) as (_ & _ & ?).
  unfold iter_queued_in_order. induction 1 as [|p order Hp Ho IH]; [done|]. cbn [omap list_omap].
  fold (bit (queue_pieces ct) (Z.to_nat p)). destruct (bit (queue_pieces ct) (Z.to_nat p)) eqn:Eb.
  2:{ rewrite filter_cons_False by (intros [? _]; congruence). exact IH. }
  destruct (decide (p <= ln_last_piece_id (ct_lengths ct))) as [Hle|Hgt].
  - rewrite filter_cons_True by done. rewrite try_into_small by (unfold is_uint; lia). cbn.
    rewrite validate_valid by done. cbn. f_equal. exact IH.
  - rewrite filter_cons_False by tauto. destruct (try_into 32 p) as [i|] eqn:Ei; cbn.
    + apply try_into_Some in Ei as [_ ->]. unfold validate_piece_index.
      rewrite (proj2 (Z.gtb_lt _ _)) by lia. exact IH.
    + exact IH.
Qed.

Lemma queued_pieces_spec pt req :
  pt_sound pt -> req_ok (ct_lengths (pt_chunks pt)) (length (per_file_bytes (pt_chunks pt))) req ->
  queued_pieces pt req = Ret (request_queue pt req)
  /\ Forall (fun p => valid_piece (ct_lengths (pt_chunks pt)) p
                      /\ bit (queue_pieces (pt_chunks pt)) (Z.to_nat p) = true) (request_queue pt req).
Proof.
  intros [Hc _] [_ Hf Hn Ho _]. pose proof (proj1 Hc) as Hs.
  unfold queued_pieces, request_queue. destruct (ar_piece_order req) as [order|].
  - rewrite in_order_eq by done. split; [done|]. apply Forall_forall. intros p [[Hq Hle] Hp]%list_elem_of_filter.
    rewrite Forall_forall in Ho. split; [split; [by apply Ho|done]|done].
  - rewrite iter_queued_eq by done. split; [done|]. apply Forall_forall. intros p Hp.
    apply elem_of_queued_list in Hp as (Hq & id & fi & _ & Hfi & _ & Hr); [|done..]. split; [|done].
    apply (file_range_valid _ fi); [apply Hs|by apply (Forall_lookup_1 _ _ _ _ Hf Hfi)|done].
Qed.

(** What [acquire_piece] promises for each answer: which piece it is, why the steps before
    gave none, and the state that it leaves. *)
Definition acquired (pt pt' : PieceTracker) (req : AcquireRequest) (res : AcquireResult) : Prop :=
  let ct := pt_chunks pt in
  let offered := fun p => ar_peer_has_piece req p = true in
  let no_priority := Forall (fun p => ~ free_offered pt req p) (ar_priority_pieces req) in
  let no_queued := Forall (fun p => ~ offered p) (request_queue pt req) in
  let assigned p := pt_inflight pt' = <[p := mkInflight (ar_peer req) (ar_now req)]> (pt_inflight pt) in
  match res with
  | Reserved p =>
    no_steal pt req 10
    /\ (first_of (free_offered pt req) (ar_priority_pieces req) p
        \/ (no_priority /\ first_of offered (request_queue pt req) p
            /\ bit (queue_pieces ct) (Z.to_nat p) = true))
    /\ valid_piece (ct_lengths ct) p /\ bit (have ct) (Z.to_nat p) = false
    /\ pt_chunks pt' = set_queue_pieces (<[Z.to_nat p := false]> (queue_pieces ct)) ct /\ assigned p
  | Stolen p old =>
    (past_due pt req 10 p old
     \/ (no_steal pt req 10 /\ no_priority /\ no_queued /\ past_due pt req 3 p old))
    /\ ar_can_steal req p = true
    /\ pt_chunks pt' = ct /\ assigned p
  | NoneAvailable => pt' = pt /\ no_steal pt req 10 /\ no_priority /\ no_queued /\ no_steal pt req 3
  end.

Lemma queued_not_inflight pt p :
  pt_ok pt -> bit (queue_pieces (pt_chunks pt)) (Z.to_nat p) = true -> pt_inflight pt !! p = None.
Proof.
  intros [_ Hi] Hq. destruct (pt_inflight pt !! p) eqn:E; [|done].
  destruct (Hi _ _ E) as (_ & Hq' & _). congruence.
Qed.

Lemma first_of_elem P l p : first_of P l p -> p ∈ l.
Proof. intros (pre & post & -> & _). apply elem_of_app. right. left. Qed.

Lemma acquire_spec pt req :
  pt_sound pt -> req_ok (ct_lengths (pt_chunks pt)) (length (per_file_bytes (pt_chunks pt))) req ->
  exists pt' res, acquire_piece pt req = Ret (pt', res) /\ acquired pt pt' req res.
Proof.
  intros Hok Hreq. pose proof Hreq as [Hp _ _ _ Havg]. unfold acquire_piece.
  destruct (try_steal_spec pt req 10) as [[-> H10]|(p & old & Hdue & Hcan & ->)].
  { by destruct (ar_peer_avg_time req); [apply Havg|]. }
  2:{ run. eexists _, _. split; [done|]. split; [by left|done]. }
  run. destruct (find_priority_spec pt req _ Hok Hp) as (r & -> & Hr). run.
  destruct r as [p|].
  { pose proof (first_of_elem _ _ _ Hr) as Hin. rewrite Forall_forall in Hp. specialize (Hp p Hin).
    rewrite reserve_piece_spec by done. eexists _, _. split; [done|].
    pose proof Hr as (_ & _ & _ & (Hh & _ & _) & _). split_and!; try done. by left. }
  destruct (queued_pieces_spec pt req Hok Hreq) as [-> Hqs]. run.
  destruct (list_find _ (request_queue pt req)) as [[n p]|] eqn:Ef.
  { apply list_find_Some in Ef as (Hn & Hhas & Hpre).
    pose proof (proj1 (Forall_forall _ _) Hqs p (list_elem_of_lookup_2 _ _ _ Hn)) as [Hv Hq].
    pose proof (sh_disjoint _ (proj1 (ps_chunks _ Hok)) _ Hq) as Hh.
    rewrite reserve_piece_spec by done. eexists _, _. split; [done|]. split_and!; try done. right. split_and!; try done.
    exists (take n (request_queue pt req)), (drop (S n) (request_queue pt req)).
    split; [by rewrite take_drop_middle|]. split; [done|]. apply Forall_lookup. intros k q Hk.
    apply lookup_take_Some in Hk as [Hk Hlt]. by apply (Hpre k q Hk). }
  apply list_find_None in Ef.
  destruct (try_steal_spec pt req 3) as [[-> H3]|(p & old & Hdue & Hcan & ->)].
  { by destruct (ar_peer_avg_time req); [apply Havg|]. }
  - run. eexists _, _. split; [done|]. done.
  - run. eexists _, _. split; [done|]. split; [by right|done].
Qed.

Lemma acquired_sound pt pt' req res : pt_sound pt -> acquired pt pt' req res -> pt_sound pt'.
Proof.
  intros [Hc Hi] Hacq. destruct res as [p|p old|].
  - destruct Hacq as (_ & _ & Hv & _ & Hct & Hif). split; rewrite Hct; [by apply (reserve_spec _ p)|].
    intros q i. rewrite Hif. intros [[<- _]|[_ Hq]]%lookup_insert_Some; [done|by eapply Hi].
  - destruct Hacq as (Hdue & _ & Hct & Hif). split; rewrite Hct; [done|]. intros q i. rewrite Hif.
    intros [[<- _]|[_ Hq]]%lookup_insert_Some; [|by eapply Hi].
    destruct Hdue as [(? & ? & j & _ & _ & Hj & _)|(_ & _ & _ & (? & ? & j & _ & _ & Hj & _))]; by eapply Hi.
  - destruct Hacq as [-> _]. done.
Qed.

Lemma acquired_lengths pt pt' req res : acquired pt pt' req res -> ct_lengths (pt_chunks pt') = ct_lengths (pt_chunks pt).
Proof.
  destruct res as [p|p old|]; [intros (_ & _ & _ & _ & -> & _)|intros (_ & _ & -> & _)|intros [-> _]]; done.
Qed.

Lemma acquired_ok pt pt' req res :
  pt_ok pt -> acquired pt pt' req res ->
  pt_ok pt' /\ forall p, res = Reserved p -> pt_inflight pt !! p = None.
Proof.
  intros Hok Hacq. pose proof Hok as [Hc Hi]. destruct (acquired_sound _ _ _ _ (pt_ok_sound _ Hok) Hacq) as [Hc' Hi'].
  destruct res as [p|p old|].
  - destruct Hacq as (_ & Hwhich & Hv & Hh & Hct & Hif). destruct (piece_in_bits _ p (proj1 Hc) Hv) as (Hlen & _ & _).
    split.
    + split; [done|]. intros q i Hq. split; [by eapply Hi'|]. rewrite Hct. cbn. rewrite bit_insert by done.
      rewrite Hif in Hq. apply lookup_insert_Some in Hq as [[<- _]|[_ Hq]]; [by rewrite decide_True|].
      destruct (Hi q i Hq) as (_ & ? & ?). split; [by case_decide|done].
    + intros q [= <-]. destruct Hwhich as [(_ & _ & _ & (_ & ? & _) & _)|(_ & _ & Hq)]; [done|by apply queued_not_inflight].
  - destruct Hacq as (Hdue & _ & Hct & Hif). split; [|done]. split; [done|]. intros q i. rewrite Hif, Hct.
    intros [[<- _]|[_ Hq]]%lookup_insert_Some; [|by eapply Hi].
    destruct Hdue as [(? & ? & j & _ & _ & Hj & _)|(_ & _ & _ & (? & ? & j & _ & _ & Hj & _))]; by eapply Hi.
  - by destruct Hacq as [-> _].
Qed.

(** ** Peer death and pause *)

(** The state after the pieces [ps] went back to the queue. *)
Record released (pt pt' : PieceTracker) (ps : list Z) : Prop := {
  rl_ok : pt_ok pt';
  rl_lengths : ct_lengths (pt_chunks pt') = ct_lengths (pt_chunks pt);
  rl_have : have (pt_chunks pt') = have (pt_chunks pt);
  rl_selected : selected (pt_chunks pt') = selected (pt_chunks pt);
  rl_inflight : forall p, pt_inflight pt' !! p = if decide (p ∈ ps) then None else pt_inflight pt !! p;
  rl_queue : forall p, valid_piece (ct_lengths (pt_chunks pt)) p ->
    bit (queue_pieces (pt_chunks pt')) (Z.to_nat p)
    = bit (queue_pieces (pt_chunks pt)) (Z.to_nat p) || bool_decide (p ∈ ps)
}.

Lemma release_piece_spec pt p :
  pt_ok pt -> is_Some (pt_inflight pt !! p) ->
  exists pt', release_piece pt p = Ret pt' /\ released pt pt' [p].
Proof.
  intros Hok [i Hi]. pose proof Hok as [Hc Hinv]. destruct (Hinv p i Hi) as (Hv & Hq & Hh).
  destruct (piece_in_bits _ p (proj1 Hc) Hv) as (Hlen & _ & _).
  unfold release_piece. rewrite broken_spec by (done || apply Hc). rewrite Hh.
  run. eexists. split; [done|]. split; try done; cbn.
  - split; cbn.
    + pose proof (forget_wf true _ p Hc Hv) as Hwf. by rewrite Hh in Hwf.
    + intros q j Hj. apply lookup_delete_Some in Hj as [Hne Hj].
      destruct (Hinv q j Hj) as (Hvq & ? & ?). split_and!; try done.
      rewrite bit_insert by done. case_decide; [|done].
      destruct Hv, Hvq. lia.
  - intros q. rewrite lookup_delete. case_decide as E; [subst|].
    + by rewrite decide_True by (by left).
    + by rewrite decide_False by (by rewrite list_elem_of_singleton).
  - intros q [? ?]. rewrite bit_insert by done. destruct Hv.
    destruct (decide (Z.to_nat p = Z.to_nat q)) as [E|E].
    + rewrite bool_decide_eq_true_2 by (apply list_elem_of_singleton; lia).
      by rewrite orb_true_r.
    + rewrite bool_decide_eq_false_2 by (rewrite list_elem_of_singleton; lia).
      by rewrite orb_false_r.
Qed.

Lemma release_loop_spec ps : forall pt,
  pt_ok pt -> NoDup ps -> (forall p, p ∈ ps -> is_Some (pt_inflight pt !! p)) ->
  exists pt', foldM release_piece pt ps = Ret pt' /\ released pt pt' ps.
Proof.
  induction ps as [|p ps IH]; intros pt Hok Hnd Hin.
  { exists pt. split; [done|]. split; try done. intros p _. by rewrite orb_false_r. }
  apply NoDup_cons in Hnd as [Hp Hnd].
  destruct (release_piece_spec pt p Hok (Hin p ltac:(left))) as (pt1 & Hr & [Hok1 Hl1 Hh1 Hs1 Hi1 Hq1]).
  cbn [foldM]. rewrite Hr. run.
  destruct (IH pt1 Hok1 Hnd) as (pt' & -> & [Hok' Hl' Hh' Hs' Hi' Hq']).
  { intros q Hq. rewrite Hi1. rewrite decide_False; [by apply Hin; right|].
    rewrite list_elem_of_singleton. by intros ->. }
  exists pt'. split; [done|]. split; [done|congruence..| |].
  - intros q. rewrite Hi', Hi1.
    destruct (decide (q ∈ ps)) as [?|?], (decide (q ∈ [p])) as [E%list_elem_of_singleton|E];
      destruct (decide (q ∈ p :: ps)) as [Hx|Hx]; try done; set_solver.
  - intros q Hq. rewrite Hq', Hq1 by (rewrite ?Hl1; done). rewrite <- orb_assoc. f_equal.
    rewrite <- bool_decide_or. apply bool_decide_ext. set_solver.
Qed.

Lemma elem_of_pieces_owned_by pt peer p :
  p ∈ pieces_owned_by pt peer <-> exists i, pt_inflight pt !! p = Some i /\ if_peer i = peer.
Proof.
  unfold pieces_owned_by. rewrite list_elem_of_fmap. split.
  - intros ([q i] & -> & [Hpe Hin]%list_elem_of_filter). apply elem_of_map_iter in Hin. by exists i.
  - intros (i & Hi & Hpe). exists (p, i). split; [done|]. apply list_elem_of_filter.
    split; [done|]. by apply elem_of_map_iter.
Qed.

Lemma NoDup_pieces_owned_by pt peer : NoDup (pieces_owned_by pt peer).
Proof.
  unfold pieces_owned_by. apply (NoDup_fmap_fst).
  - intros x y1 y2 [_ H1]%list_elem_of_filter [_ H2]%list_elem_of_filter.
    apply elem_of_map_iter in H1, H2. congruence.
  - apply NoDup_filter. rewrite map_iter_perm. apply NoDup_map_to_list.
Qed.

Lemma release_spec pt peer :
  pt_ok pt ->
  exists pt', release_pieces_owned_by pt peer = Ret (pt', length (pieces_owned_by pt peer))
    /\ released pt pt' (pieces_owned_by pt peer).
Proof.
  intros Hok. unfold release_pieces_owned_by.
  destruct (release_loop_spec (pieces_owned_by pt peer) pt Hok (NoDup_pieces_owned_by pt peer))
    as (pt' & -> & Hr).
  { intros p (i & -> & _)%elem_of_pieces_owned_by. by eexists. }
  run. by exists pt'.
Qed.
End Proofs.

(** ** The tracker as a state machine *)

Inductive pt_op :=
| PAcquire (req : AcquireRequest)
| PTake (p : ValidPieceIndex) (now : Z)
| PHashOk (p : ValidPieceIndex)
| PHashFailed (p : ValidPieceIndex)
| PDefer (p : ValidPieceIndex)
| PRelease (peer : PeerHandle)
| PChunk (index begin len : Z)
| POnlyFiles (fis : list FileInfo) (only : gset nat)
| PFileHave (p : ValidPieceIndex) (file_id : nat) (fi : FileInfo).

Section Machine.
Context `{MapIter}.

Definition pt_exec (pt : PieceTracker) (op : pt_op) : outcome PieceTracker :=
  match op with
  | PAcquire req => r ← acquire_piece pt req; Ret r.1
  | PTake p now => Ret (take_inflight pt p now).1
  | PHashOk p => mark_piece_hash_ok pt p
  | PHashFailed p => mark_piece_hash_failed pt p
  | PDefer p => defer_piece pt p
  | PRelease peer => r ← release_pieces_owned_by pt peer; Ret r.1
  | PChunk index begin len => r ← pt_mark_chunk_downloaded pt index begin len; Ret r.1
  | POnlyFiles fis only => r ← pt_update_only_files pt fis only; Ret r.1
  | PFileHave p file_id fi => r ← pt_update_file_have_on_piece_completed pt p file_id fi; Ret r.1
  end.

(** What the types of the arguments say: pieces and files of this torrent. *)
Definition pt_args (pt : PieceTracker) (op : pt_op) : Prop :=
  let l := ct_lengths (pt_chunks pt) in
  let nfiles := length (per_file_bytes (pt_chunks pt)) in
  match op with
  | PAcquire req => req_ok l nfiles req
  | PHashOk p | PHashFailed p | PDefer p => valid_piece l p
  | PChunk index begin len => is_u32 index /\ is_u32 begin /\ is_u32 len
  | POnlyFiles fis _ => Forall (file_wf l) fis
  | PFileHave p file_id fi => (file_id < nfiles)%nat
  | PTake _ _ | PRelease _ => True
  end.

(** The order of calls that keeps the three states apart: the hash of a piece is reported
    while the piece is not in flight, and no piece in flight becomes selected
    by a change of the selection. *)
Definition pt_guard (pt : PieceTracker) (op : pt_op) : Prop :=
  let l := ct_lengths (pt_chunks pt) in
  let nfiles := length (per_file_bytes (pt_chunks pt)) in
  match op with
  | PAcquire req => req_ok l nfiles req
  | PTake _ _ => True
  | PHashOk p | PHashFailed p => valid_piece l p /\ is_inflight pt p = false
  | PDefer p => valid_piece l p
  | PRelease _ => True
  | PChunk index begin len => is_u32 index /\ is_u32 begin /\ is_u32 len
  | POnlyFiles fis _ =>
    Forall (file_wf l) fis
    /\ forall p, is_inflight pt p = true -> bit (selected (pt_chunks pt)) (Z.to_nat p) = true
  | PFileHave p file_id fi => (file_id < nfiles)%nat
  end.

Lemma pt_guard_args pt op : pt_guard pt op -> pt_args pt op.
Proof. destruct op; cbn; tauto. Qed.

(** Any calls in any order; the flag tells that all of them kept the order above. *)
Inductive pt_reachable (ct : ChunkTracker) : bool -> PieceTracker -> Prop :=
| reach_new : pt_reachable ct true (PieceTracker_new ct)
| reach_step orderly pt op pt' :
    pt_reachable ct orderly pt -> pt_guard pt op -> pt_exec pt op = Ret pt' -> pt_reachable ct orderly pt'
| reach_any orderly pt op pt' :
    pt_reachable ct orderly pt -> pt_args pt op -> pt_exec pt op = Ret pt' -> pt_reachable ct false pt'.

(** *** Whatever the order *)

Definition sound_next (pt pt' : PieceTracker) : Prop :=
  pt_sound pt' /\ ct_lengths (pt_chunks pt') = ct_lengths (pt_chunks pt).

Lemma sound_chunks pt ct inflight :
  pt_sound pt -> ct_wf ct -> ct_lengths ct = ct_lengths (pt_chunks pt) -> inflight ⊆ pt_inflight pt ->
  sound_next pt (mkPT ct inflight).
Proof.
  intros [Hc Hi] Hwf Hl Hsub. split; [|done]. split; [done|]. intros p i Hp. cbn in *. rewrite Hl.
  apply (Hi p i). by eapply lookup_weaken.
Qed.

Lemma forget_sound v pt p inflight :
  pt_sound pt -> valid_piece (ct_lengths (pt_chunks pt)) p -> inflight ⊆ pt_inflight pt ->
  sound_next pt (mkPT (if bit (have (pt_chunks pt)) (Z.to_nat p) then pt_chunks pt
                       else forget_piece v p (pt_chunks pt)) inflight).
Proof.
  intros Hok Hv Hsub. apply (sound_chunks pt); [done|by apply forget_wf; [apply Hok|]| |done]. by destruct (bit _ _).
Qed.

Lemma release_sound pt ps :
  pt_sound pt -> (forall p, p ∈ ps -> valid_piece (ct_lengths (pt_chunks pt)) p) ->
  exists pt', foldM release_piece pt ps = Ret pt' /\ sound_next pt pt'.
Proof.
  revert pt. induction ps as [|p ps IH]; intros pt Hok Hps; [by exists pt|]. cbn [foldM].
  pose proof (Hps p ltac:(left)) as Hv.
  assert (release_piece pt p = Ret (mkPT (if bit (have (pt_chunks pt)) (Z.to_nat p) then pt_chunks pt
    else forget_piece true p (pt_chunks pt)) (delete p (pt_inflight pt)))) as ->
    by (unfold release_piece; by rewrite broken_spec by (done || apply Hok)).
  run. destruct (forget_sound true pt p (delete p (pt_inflight pt)) Hok Hv (delete_subseteq _ _)) as [Hs Hl].
  match type of Hs with pt_sound ?x => destruct (IH x Hs) as (pt' & -> & Hs' & Hl') end.
  - intros q Hq. rewrite Hl. apply Hps. by right.
  - exists pt'. split; [done|]. split; [done|congruence].
Qed.

Lemma pt_exec_sound pt op :
  pt_sound pt -> pt_args pt op -> exists pt', pt_exec pt op = Ret pt' /\ sound_next pt pt'.
Proof.
  intros Hok Hg. pose proof Hok as [Hc Hi].
  destruct op as [req|p now|p|p|p|peer|index begin len|fis s|p fid fi]; simpl in *.
  - destruct (acquire_spec pt req Hok Hg) as (pt' & res & -> & Hacq). exists pt'. split; [done|].
    split; [by eapply acquired_sound|by eapply acquired_lengths].
  - eexists. split; [done|]. unfold take_inflight. destruct (pt_inflight pt !! p); [|by split].
    apply (sound_chunks pt); [done|done|done|apply delete_subseteq].
  - unfold mark_piece_hash_ok. destruct (downloaded_spec _ p Hc Hg) as (ct' & -> & Hwf & _ & _ & _ & _ & Hl & _). run.
    eexists. split; [done|]. by apply (sound_chunks pt).
  - unfold mark_piece_hash_failed. rewrite broken_spec by (done || apply Hc). eexists. split; [done|]. by apply forget_sound.
  - unfold defer_piece. rewrite deferred_spec by (done || apply Hc). eexists. split; [done|].
    apply forget_sound; [done|done|apply delete_subseteq].
  - unfold release_pieces_owned_by. destruct (release_sound pt (pieces_owned_by pt peer) Hok) as (pt' & -> & ?).
    { intros p (i & Hp & _)%elem_of_pieces_owned_by. by eapply Hi. }
    run. by exists pt'.
  - destruct Hg as (? & ? & ?). unfold pt_mark_chunk_downloaded.
    destruct (mark_chunk_keeps (pt_chunks pt) index begin len) as (ct' & r & -> & Hwf & Hl & _); try done.
    cbn [mbind outcome_bind fst]. eexists. split; [done|]. by apply (sound_chunks pt).
  - unfold pt_update_only_files. destruct (only_files_spec _ fis s Hc Hg) as (ct' & -> & Hwf & [Hl _ _ _ _ _]).
    cbn [mbind outcome_bind fst]. eexists. split; [done|]. by apply (sound_chunks pt).
  - unfold pt_update_file_have_on_piece_completed, update_file_have_on_piece_completed.
    destruct (lookup_lt_is_Some_2 _ _ Hg) as [b Hb]. rewrite (proj2 (index_Ret _ _ _) Hb). run.
    rewrite slice_set_lt by done. cbn [mbind outcome_bind fst]. eexists. split; [done|]. apply (sound_chunks pt); try done.
    destruct Hc. split; [by apply shape_set_files|done].
Qed.

(** *** In order *)

Lemma is_inflight_false pt p : is_inflight pt p = false <-> pt_inflight pt !! p = None.
Proof. unfold is_inflight. by rewrite bool_decide_eq_false, eq_None_not_Some. Qed.

(** Replacing the chunk tracker keeps the invariant when no piece in flight
    becomes queued or had. *)
Lemma pt_ok_chunks pt ct :
  pt_ok pt -> ct_wf ct -> ct_lengths ct = ct_lengths (pt_chunks pt) ->
  (forall p, is_Some (pt_inflight pt !! p) -> valid_piece (ct_lengths ct) p ->
     bit (queue_pieces (pt_chunks pt)) (Z.to_nat p) = false ->
     bit (have (pt_chunks pt)) (Z.to_nat p) = false ->
     bit (queue_pieces ct) (Z.to_nat p) = false /\ bit (have ct) (Z.to_nat p) = false) ->
  pt_ok (mkPT ct (pt_inflight pt)).
Proof.
  intros [Hc Hi] Hwf Hl Hnew. split; [done|]. intros p i Hp. simpl in *.
  destruct (Hi p i Hp) as (? & ? & ?). rewrite Hl. split; [done|].
  apply Hnew; try done. by rewrite Hl.
Qed.

Lemma valid_to_nat_ne l p q :
  valid_piece l p -> valid_piece l q -> p <> q -> Z.to_nat p <> Z.to_nat q.
Proof. unfold valid_piece. lia. Qed.

Lemma hash_ok_spec pt p :
  pt_ok pt -> valid_piece (ct_lengths (pt_chunks pt)) p -> is_inflight pt p = false ->
  exists pt', mark_piece_hash_ok pt p = Ret pt' /\ pt_ok pt'
    /\ have (pt_chunks pt') = <[Z.to_nat p := true]> (have (pt_chunks pt)).
Proof.
  intros Hok Hv Hn%is_inflight_false. pose proof (pk_chunks _ Hok) as Hc.
  destruct (piece_in_bits _ p (proj1 Hc) Hv) as (? & ? & _).
  destruct (downloaded_spec _ p Hc Hv) as (ct' & Heq & Hwf & Hh & Hq & Hs & _ & Hl & _).
  unfold mark_piece_hash_ok. rewrite Heq. run.
  eexists. split; [done|]. split; [|done]. apply pt_ok_chunks; try done.
  intros q [i Hi] Hvq Hqq Hhq. rewrite Hl in Hvq.
  rewrite Hq, Hh, !bit_insert by done.
  rewrite !decide_False by (eapply valid_to_nat_ne; try done; congruence). done.
Qed.

Lemma forget_ok v pt p :
  pt_ok pt -> valid_piece (ct_lengths (pt_chunks pt)) p ->
  (v = true -> pt_inflight pt !! p = None) ->
  pt_ok (mkPT (if bit (have (pt_chunks pt)) (Z.to_nat p) then pt_chunks pt
               else forget_piece v p (pt_chunks pt)) (pt_inflight pt)).
Proof.
  intros Hok Hv Hn. pose proof (pk_chunks _ Hok) as Hc.
  destruct (piece_in_bits _ p (proj1 Hc) Hv) as (? & ? & _).
  apply pt_ok_chunks; try done; [by apply forget_wf|by destruct (bit _ _)|].
  intros q [i Hi] Hvq Hqq Hhq. destruct (bit (have (pt_chunks pt)) (Z.to_nat p)); [done|].
  cbn in *. rewrite bit_insert by done. split; [|done]. case_decide as E; [|done].
  destruct v; [|done]. specialize (Hn eq_refl).
  destruct (decide (p = q)); [congruence|]. by destruct (valid_to_nat_ne _ _ _ Hv Hvq n).
Qed.

Lemma only_files_ok pt fis s :
  pt_ok pt -> pt_guard pt (POnlyFiles fis s) ->
  exists pt', pt_exec pt (POnlyFiles fis s) = Ret pt' /\ pt_ok pt'.
Proof.
  intros Hok [Hf Hsel]. simpl. unfold pt_update_only_files.
  destruct (only_files_spec _ fis s (pk_chunks _ Hok) Hf) as (ct' & -> & Hwf & [Hl Hh Hs Hp Hq _]).
  cbn [mbind outcome_bind fst]. eexists. split; [done|].
  apply pt_ok_chunks; try done. intros p Hi _ Hqp Hhp. rewrite Hh, Hq, Hqp.
  split; [|done]. rewrite Hsel by (unfold is_inflight; by apply bool_decide_eq_true).
  by rewrite andb_false_r.
Qed.

Lemma pt_exec_ok pt op :
  pt_ok pt -> pt_guard pt op -> exists pt', pt_exec pt op = Ret pt' /\ pt_ok pt'.
Proof.
  intros Hok Hg. pose proof (pk_chunks _ Hok) as Hc.
  destruct op as [req|p now|p|p|p|peer|index begin len|fis s|p fid fi]; simpl in *.
  - destruct (acquire_spec pt req (pt_ok_sound _ Hok) Hg) as (pt' & res & -> & Hacq). exists pt'.
    split; [done|]. by apply (acquired_ok pt pt' req res).
  - eexists. split; [done|]. unfold take_inflight. destruct (pt_inflight pt !! p); [|done].
    destruct Hok as [_ Hi]. split; [done|]. intros q j. simpl.
    intros [_ Hq]%lookup_delete_Some. by eapply Hi.
  - destruct Hg as [Hv Hn]. destruct (hash_ok_spec pt p Hok Hv Hn) as (pt' & ? & ? & _). by exists pt'.
  - destruct Hg as [Hv Hn%is_inflight_false]. unfold mark_piece_hash_failed.
    rewrite broken_spec by (done || apply Hc). eexists. split; [done|]. by apply forget_ok.
  - unfold defer_piece. rewrite deferred_spec by (done || apply Hc). eexists. split; [done|].
    pose proof (forget_ok false pt p Hok Hg ltac:(done)) as [Hc' Hi'].
    split; [done|]. intros q i. cbn [pt_inflight]. intros [_ Hq]%lookup_delete_Some. by eapply Hi'.
  - destruct (release_spec pt peer Hok) as (pt' & -> & [Hok' _ _ _ _ _]). by exists pt'.
  - destruct Hg as (? & ? & ?). unfold pt_mark_chunk_downloaded.
    destruct (mark_chunk_keeps (pt_chunks pt) index begin len) 
      as (ct' & r & -> & Hwf & Hl & Hq & Hh & _);
      try done. cbn [mbind outcome_bind fst]. eexists. split; [done|].
    apply pt_ok_chunks; try done. intros q _ _ ? ?. by rewrite Hq, Hh.
  - by apply only_files_ok.
  - unfold pt_update_file_have_on_piece_completed, update_file_have_on_piece_completed.
    destruct (lookup_lt_is_Some_2 _ _ Hg) as [b Hb].
    rewrite (proj2 (index_Ret _ _ _) Hb). run.
    rewrite slice_set_lt by done. cbn [mbind outcome_bind fst].
    eexists. split; [done|]. apply pt_ok_chunks; try done.
    destruct Hc. split; [by apply shape_set_files|done].
Qed.

(** C4: whatever calls are made on a fresh tracker, in whatever order, and in whatever
    order the in-flight map is walked: no call panics, the invariant of the chunk
    tracker holds (so no piece is both HAVE and QUEUED), and pieces in flight are
    pieces of the torrent. In a run in which the verdict on a piece is given only while
    the piece is not in flight, and the selection is changed only while all pieces in
    flight are selected, a piece is also in at most one of the states HAVE, QUEUED and
    IN_FLIGHT. (Outside such runs it can be in two: [queued_and_inflight_races].) *)
Theorem piece_states_exclusive (ct : ChunkTracker) (orderly : bool) (pt : PieceTracker) :
  ct_wf ct -> pt_reachable ct orderly pt ->
  ct_wf (pt_chunks pt)
  /\ (forall p, valid_piece (ct_lengths (pt_chunks pt)) p ->
        (Z.b2z (bit (have (pt_chunks pt)) (Z.to_nat p))
         + Z.b2z (bit (queue_pieces (pt_chunks pt)) (Z.to_nat p)) <= 1))
  /\ (forall p, is_inflight pt p = true -> valid_piece (ct_lengths (pt_chunks pt)) p)
  /\ (forall op, pt_args pt op -> pt_exec pt op <> Panic)
  /\ (orderly = true -> forall p, valid_piece (ct_lengths (pt_chunks pt)) p ->
        (Z.b2z (bit (have (pt_chunks pt)) (Z.to_nat p))
         + Z.b2z (bit (queue_pieces (pt_chunks pt)) (Z.to_nat p))
         + Z.b2z (is_inflight pt p) <= 1)).
Proof.
  intros Hct Hr. assert (pt_sound pt /\ (orderly = true -> pt_ok pt)) as [Hs Hok].
  { induction Hr as [|o pt op pt' Hr [IHs IHo] Hg Hex|o pt op pt' Hr [IHs _] Hg Hex].
    - split; [split; [done|]|intros _; split; [done|]]; intros p i Hp; cbn in Hp; by rewrite lookup_empty in Hp.
    - split.
      + destruct (pt_exec_sound pt op IHs (pt_guard_args _ _ Hg)) as (pt1 & Heq & ? & _). congruence.
      + intros Ho. destruct (pt_exec_ok pt op (IHo Ho) Hg) as (pt1 & Heq & ?). congruence.
    - split; [|done]. destruct (pt_exec_sound pt op IHs Hg) as (pt1 & Heq & ? & _). congruence. }
  pose proof (fun p => sh_disjoint _ (proj1 (ps_chunks _ Hs)) (Z.to_nat p)) as Hd.
  split_and!; [apply Hs| | | |].
  - intros p Hv. specialize (Hd p). destruct (bit (queue_pieces _) _); [rewrite Hd by done|]; by destruct (bit _ _).
  - intros p [i Hp]%bool_decide_eq_true. by eapply ps_inflight.
  - intros op Hg. by destruct (pt_exec_sound pt op Hs Hg) as (pt' & -> & _).
  - intros Ho p Hv. specialize (Hd p). specialize (Hok Ho).
    unfold is_inflight. destruct (pt_inflight pt !! p) as [i|] eqn:E.
    + destruct (pk_inflight _ Hok p i E) as (_ & -> & ->).
      by rewrite bool_decide_eq_true_2.
    + rewrite bool_decide_eq_false_2 by (by intros [? ?]).
      destruct (bit (queue_pieces _) _); [rewrite Hd by done|]; by destruct (bit _ _).
Qed.
End Machine.

(** A request of a peer that has every piece and no download history. *)
Definition ex_peer (n : Z) : PeerHandle := SockV4 (2130706432 + n) 6881.

Definition ex_request (n : Z) (avg : option Z) (now : Z) : AcquireRequest :=
  mkReq (ex_peer n) avg [] [0%nat] [ex_file] None (fun _ => true) (fun _ => true) (fun _ => now) now.

Lemma ex_request_ok n avg now :
  match avg with
  | Some a => scale_duration a 10 <> Panic /\ scale_duration a 3 <> Panic
  | None => True
  end -> req_ok ex_lengths 1 (ex_request n avg now).
Proof. intros Ha. by split; repeat constructor. Qed.

Lemma piece_states_exclusive_witness :
  exists pt, @pt_reachable MapIter_to_list ex_tracker true pt
    /\ is_inflight pt 0 = true /\ ct_wf (pt_chunks pt).
Proof.
  set (I := MapIter_to_list).
  assert (exists pt, @pt_exec I (PieceTracker_new ex_tracker) (PAcquire (ex_request 1 None 5)) = Ret pt
    /\ is_inflight pt 0 = true) as (pt & Hpt & Hin) by (eexists; split; vm_compute; reflexivity).
  assert (@pt_reachable I ex_tracker true pt) as Hr.
  { eapply (@reach_step I); [apply (@reach_new I)| |exact Hpt]. by apply ex_request_ok. }
  exists pt. split_and!; [exact Hr|exact Hin|].
  apply (@piece_states_exclusive I ex_tracker true pt ex_tracker_wf Hr).
Defined.

(** C8: [acquire_piece] always answers, and does what its documentation lists, in that
    order: it takes the piece that is in flight for the longest time with another peer,
    if that is past ten times the own average; else it reserves the first priority
    piece that is neither had nor in flight and that the peer offers; else the first
    offered one of the queued pieces in the requested order; else it takes the piece
    longest in flight past three times the average; and it finds none only if all of
    this fails. A steal looks at the slowest piece only: if that one may not be stolen,
    no other is tried. The piece leaves the queue, belongs to the peer, and nothing
    else changes. *)
Theorem acquire_piece_correct `{MapIter} (pt : PieceTracker) (req : AcquireRequest) :
  pt_ok pt -> req_ok (ct_lengths (pt_chunks pt)) (length (per_file_bytes (pt_chunks pt))) req ->
  exists pt' res, acquire_piece pt req = Ret (pt', res) /\ pt_ok pt' /\ acquired pt pt' req res
    /\ forall p, res = Reserved p -> pt_inflight pt !! p = None.
Proof.
  intros Hok Hreq. destruct (acquire_spec pt req (pt_ok_sound _ Hok) Hreq) as (pt' & res & Heq & Hacq).
  destruct (acquired_ok pt pt' req res Hok Hacq) as [? ?]. by exists pt', res.
Qed.

Definition ex_pt : PieceTracker :=
  mkPT (set_queue_pieces (replicate 8 false) ex_tracker)
    {[ 0 := mkInflight (ex_peer 1) 0; 1 := mkInflight (ex_peer 2) 5 ]}.

Lemma ex_pt_ok : pt_ok ex_pt.
Proof.
  split.
  - split; [|reflexivity]. apply shape_set_queue; [apply ex_tracker_wf|reflexivity|].
    intros i. unfold bit. destruct (replicate 8 false !! i) eqn:E; [|done].
    by apply lookup_replicate in E as [-> _].
  - intros p i Hp. cbn in Hp. apply lookup_insert_Some in Hp as [[<- _]|[_ Hp]]; [done|].
    by apply lookup_singleton_Some in Hp as [<- _].
Qed.

Lemma acquire_piece_correct_witness :
  exists pt', @acquire_piece MapIter_to_list ex_pt (ex_request 3 (Some 1) 100)
              = Ret (pt', Stolen 0 (ex_peer 1)) /\ pt_ok pt'.
Proof.
  destruct (@acquire_piece_correct MapIter_to_list ex_pt (ex_request 3 (Some 1) 100) ex_pt_ok)
    as (pt' & res & Heq & Hok & _).
  - apply ex_request_ok. split; vm_compute; discriminate.
  - exists pt'. split; [|exact Hok]. rewrite Heq. vm_compute in Heq.
    injection Heq as _ <-. reflexivity.
Defined.

(** When a peer dies, exactly the pieces it owned leave the in-flight map
    and enter the queue, in whatever order the map is walked, and the number
    reported is their number; pieces of other peers and pieces had are
    untouched and no piece is lost. *)
Theorem release_requeues_owned `{MapIter} (pt : PieceTracker) (peer : PeerHandle) :
  pt_ok pt ->
  exists pt' n, release_pieces_owned_by pt peer = Ret (pt', n) /\ pt_ok pt'
    /\ have (pt_chunks pt') = have (pt_chunks pt)
    /\ (size (pt_inflight pt') + n)%nat = size (pt_inflight pt)
    /\ forall p, valid_piece (ct_lengths (pt_chunks pt)) p ->
       let owned := bool_decide (if_peer <$> pt_inflight pt !! p = Some peer) in
       pt_inflight pt' !! p = (if owned then None else pt_inflight pt !! p)
       /\ bit (queue_pieces (pt_chunks pt')) (Z.to_nat p)
          = bit (queue_pieces (pt_chunks pt)) (Z.to_nat p) || owned.
Proof.
  intros Hok. destruct (release_spec pt peer Hok) as (pt' & Heq & [Hok' Hl Hh Hs Hi Hq]).
  assert (Hown : forall p, p ∈ pieces_owned_by pt peer
    <-> if_peer <$> pt_inflight pt !! p = Some peer).
  { intros p. rewrite elem_of_pieces_owned_by, fmap_Some. naive_solver. }
  eexists _, _. split; [exact Heq|]. split_and!; try done.
  - assert (dom (pt_inflight pt) = dom (pt_inflight pt') ∪ list_to_set (pieces_owned_by pt peer))
      as Hd.
    { apply set_eq. intros p. rewrite elem_of_union, elem_of_list_to_set, !elem_of_dom, Hi.
      destruct (decide (p ∈ pieces_owned_by pt peer)) as [Hp|Hp]; [|tauto].
      apply elem_of_pieces_owned_by in Hp as Hp'. destruct Hp' as (i & -> & _).
      split; [tauto|]. by eexists. }
    rewrite <- !size_dom, Hd, size_union.
    + rewrite size_list_to_set by apply NoDup_pieces_owned_by. done.
    + intros p Hp1 Hp2%elem_of_list_to_set. apply elem_of_dom in Hp1. rewrite Hi in Hp1.
      rewrite decide_True in Hp1 by done. by destruct Hp1.
  - intros p Hv. cbn zeta. rewrite Hi, Hq by done.
    rewrite (bool_decide_ext _ _ (Hown p)). split; [|done].
    destruct (decide (p ∈ pieces_owned_by pt peer)) as [Hp|Hp].
    + by rewrite bool_decide_eq_true_2 by (by apply Hown).
    + by rewrite bool_decide_eq_false_2 by (by rewrite <- Hown).
Qed.

Lemma release_requeues_owned_witness :
  exists pt' n, @release_pieces_owned_by MapIter_to_list ex_pt (ex_peer 2) = Ret (pt', n)
    /\ (size (pt_inflight pt') + n)%nat = 2%nat.
Proof.
  destruct (@release_requeues_owned MapIter_to_list ex_pt (ex_peer 2) ex_pt_ok)
    as (pt' & n & Heq & _ & _ & Hsz & _).
  exists pt', n. split; [exact Heq|exact Hsz].
Defined.

Lemma into_chunks_loop xs : forall ct,
  ct_wf ct -> Forall (fun x : Z * InflightPiece => valid_piece (ct_lengths ct) x.1
                        /\ bit (have ct) (Z.to_nat x.1) = false) xs ->
  exists ct', foldM (fun ct (p : Z * InflightPiece) => mark_piece_broken_if_not_have ct p.1) ct xs
              = Ret ct'
    /\ ct_wf ct' /\ ct_lengths ct' = ct_lengths ct /\ have ct' = have ct
    /\ selected ct' = selected ct
    /\ forall p, valid_piece (ct_lengths ct) p -> bit (queue_pieces ct') (Z.to_nat p)
         = bit (queue_pieces ct) (Z.to_nat p) || bool_decide (p ∈ xs.*1).
Proof.
  induction xs as [|[q i] xs IH]; intros ct Hc Hxs.
  { exists ct. split_and!; try done. intros p _. by rewrite orb_false_r. }
  apply Forall_cons in Hxs as [[Hv Hh] Hxs]. simpl in Hv, Hh.
  destruct (piece_in_bits _ q (proj1 Hc) Hv) as (? & _ & _).
  cbn [foldM fst]. rewrite broken_spec by (done || apply Hc). rewrite Hh. run.
  pose proof (forget_wf true ct q Hc Hv) as Hc1. rewrite Hh in Hc1.
  destruct (IH _ Hc1 Hxs) as (ct' & Heq & ? & ? & ? & ? & Hq). exists ct'.
  split_and!; try done. intros p Hp. rewrite Hq by done. cbn. rewrite bit_insert by done.
  replace (bool_decide (p ∈ q :: xs.*1)) with (bool_decide (p = q) || bool_decide (p ∈ xs.*1))
    by (rewrite <- bool_decide_or; apply bool_decide_ext; symmetry; apply elem_of_cons).
  destruct (decide (p = q)) as [->|Hne].
  - rewrite decide_True, (bool_decide_eq_true_2 (q = q)) by done. by rewrite orb_true_r.
  - rewrite decide_False by (intros E; destruct (valid_to_nat_ne _ _ _ Hv Hp); congruence).
    by rewrite (bool_decide_eq_false_2 (p = q)).
Qed.

(** Pausing a torrent loses no work: the chunk tracker handed back satisfies
    its invariant, has the same pieces, and queues the pieces that were queued
    and those that were in flight. *)
Lemma into_chunks_sound `{MapIter} (pt : PieceTracker) :
  pt_sound pt ->
  exists ct, into_chunks pt = Ret ct /\ ct_wf ct /\ ct_lengths ct = ct_lengths (pt_chunks pt).
Proof.
  intros [Hc Hi]. unfold into_chunks.
  assert (Forall (fun x => valid_piece (ct_lengths (pt_chunks pt)) x.1) (map_iter (pt_inflight pt))) as Hv.
  { apply Forall_forall. intros [p i] Hp%elem_of_map_iter. by eapply Hi. }
  revert Hc Hv. generalize (pt_chunks pt) (map_iter (pt_inflight pt)). clear Hi.
  intros ct xs. revert ct. induction xs as [|[p i] xs IH]; intros ct Hc Hv; [by exists ct|].
  apply Forall_cons in Hv as [Hp Hv]. cbn in Hp. cbn [foldM fst]. rewrite broken_spec by (done || apply Hc).
  cbn [mbind outcome_bind].
  destruct (IH (if bit (have ct) (Z.to_nat p) then ct else forget_piece true p ct)) as (ct' & -> & Hwf & Hl).
  - by apply forget_wf.
  - by destruct (bit _ _).
  - exists ct'. split_and!; [done|done|]. rewrite Hl. by destruct (bit _ _).
Qed.

Theorem into_chunks_requeues `{MapIter} (pt : PieceTracker) :
  pt_ok pt ->
  exists ct', into_chunks pt = Ret ct' /\ ct_wf ct' /\ ct_lengths ct' = ct_lengths (pt_chunks pt)
    /\ have ct' = have (pt_chunks pt) /\ selected ct' = selected (pt_chunks pt)
    /\ forall p, valid_piece (ct_lengths (pt_chunks pt)) p ->
       bit (queue_pieces ct') (Z.to_nat p)
       = bit (queue_pieces (pt_chunks pt)) (Z.to_nat p) || is_inflight pt p.
Proof.
  intros [Hc Hi].
  destruct (into_chunks_loop (map_iter (pt_inflight pt)) (pt_chunks pt) Hc)
    as (ct' & Heq & ? & ? & ? & ? & Hq).
  { apply Forall_forall. intros [p i] Hp%elem_of_map_iter. destruct (Hi p i Hp) as (? & _ & ?). done. }
  exists ct'. split_and!; try done. intros p Hp. rewrite Hq by done. f_equal.
  apply bool_decide_ext. rewrite list_elem_of_fmap. split.
  - intros ([q i] & -> & Hq'%elem_of_map_iter). by eexists.
  - intros [i Hp']. exists (p, i). split; [done|]. by apply elem_of_map_iter.
Qed.

Lemma into_chunks_requeues_witness :
  exists ct', @into_chunks MapIter_to_list ex_pt = Ret ct' /\ ct_wf ct'
    /\ bit (queue_pieces ct') 1 = true.
Proof.
  destruct (@into_chunks_requeues MapIter_to_list ex_pt ex_pt_ok)
    as (ct' & Heq & Hwf & _ & _ & _ & Hq).
  exists ct'. split_and!; [exact Heq|exact Hwf|].
  change 1%nat with (Z.to_nat 1). rewrite (Hq 1); [reflexivity|split; done].
Defined.

(** Reporting a failed hash for a piece that was handed out again while its
    hash was computed, and selecting a file again while one of its pieces is in
    flight, leave that piece both QUEUED and IN_FLIGHT. *)
Definition race_hash_failed : outcome PieceTracker :=
  let I := MapIter_to_list in
  let req := mkReq (ex_peer 2) None [0] [0%nat] [ex_file] None (fun _ => true) (fun _ => true)
               (fun _ => 9) 9 in
  pt ← @pt_exec I (PieceTracker_new ex_tracker) (PAcquire (ex_request 1 None 5));
  pt ← @pt_exec I pt (PTake 0 7);
  pt ← @pt_exec I pt (PAcquire req);
  @pt_exec I pt (PHashFailed 0).

Definition race_reselect : outcome PieceTracker :=
  let I := MapIter_to_list in
  pt ← @pt_exec I (PieceTracker_new ex_tracker) (PAcquire (ex_request 1 None 5));
  pt ← @pt_exec I pt (POnlyFiles [ex_file] ∅);
  @pt_exec I pt (POnlyFiles [ex_file] {[0%nat]}).

(** Without the order of calls that the state machine's guards ask for, the
    "exactly one state" of the module's documentation fails: both interleavings
    end with piece 0 queued and in flight. *)
Theorem queued_and_inflight_races :
  (exists pt, race_hash_failed = Ret pt /\ is_inflight pt 0 = true
     /\ bit (queue_pieces (pt_chunks pt)) 0 = true)
  /\ exists pt, race_reselect = Ret pt /\ is_inflight pt 0 = true
     /\ bit (queue_pieces (pt_chunks pt)) 0 = true.
Proof. split; (eexists; split_and!; vm_compute; reflexivity). Qed.
