(* ===== verification/PieceCompletion.v ===== *)
(** * File counters on piece completion ([TorrentStateLive::on_piece_completed])

    The loop that adds a completed piece to the counters of the files it
    touches and collects the files that are finished. *)

From stdpp Require Import base tactics option list list_numbers numbers decidable gmap.
From Stdlib Require Import ZArith Lia.
From S2P Require Import Prelude Lengths FileInfo ChunkTracker.
Open Scope Z_scope.

Fixpoint skip_while {A} (f : A -> bool) (l : list A) : list A :=
  match l with
  | [] => []
  | x :: l' => if f x then skip_while f l' else l
  end.

Fixpoint take_while {A} (f : A -> bool) (l : list A) : list A :=
  match l with
  | [] => []
  | x :: l => if f x then x :: take_while f l else []
  end.

(** [fi.piece_range.contains(&id)]. *)
Definition range_contains (r : Z * Z) (id : Z) : bool := (r.1 <=? id) && (id <? r.2).

(** The files the loop visits. *)
Definition files_of_piece (fis : list FileInfo) (id : Z) : list (nat * FileInfo) :=
  take_while (fun p : nat * FileInfo => range_contains (fi_piece_range p.2) id)
    (skip_while (fun p : nat * FileInfo => negb (range_contains (fi_piece_range p.2) id))
       (imap pair fis)).

Definition complete_file (id : ValidPieceIndex) (st : ChunkTracker * list nat)
    (p : nat * FileInfo) : outcome (ChunkTracker * list nat) :=
  r ← update_file_have_on_piece_completed st.1 id p.1 p.2;
  let '(ct, remaining) := (r : ChunkTracker * Z) in
  Ret (ct, if (remaining =? 0) && negb (fa_padding (fi_attrs p.2)) then st.2 ++ [p.1] else st.2).

(** The counters part of [on_piece_completed]: the tracker and [finished_files]. *)
Definition on_piece_completed_files (ct : ChunkTracker) (fis : list FileInfo)
    (id : ValidPieceIndex) : outcome (ChunkTracker * list nat) :=
  foldM (complete_file id) (ct, []) (files_of_piece fis id).

(** ** The files of one piece *)

(** Files in the order of the torrent, each starting where the last one ends. *)
Fixpoint files_layout (offset : Z) (fis : list FileInfo) : Prop :=
  match fis with
  | [] => True
  | fi :: fis => fi_offset_in_torrent fi = offset /\ files_layout (offset + fi_len fi) fis
  end.

Lemma range_contains_spec r p : range_contains r p = true <-> p ∈ range_list r.
Proof.
  destruct r as [a b]. rewrite elem_of_range_list. unfold range_contains. simpl.
  rewrite andb_true_iff, Z.leb_le, Z.ltb_lt. done.
Qed.

Lemma filter_false {A} (f : A -> bool) (l : list A) :
  Forall (fun x => f x = false) l -> filter (fun x => f x = true) l = [].
Proof. induction 1 as [|x l Hx Hl IH]; [done|]. rewrite filter_cons, decide_False; congruence. Qed.

(** The loop visits every file that contains the piece, when no file that does
    not contain it sits between two that do. *)
Lemma take_skip_filter {A} (f : A -> bool) (l : list A) :
  (forall l1 x l2, l = l1 ++ x :: l2 -> f x = false ->
     Forall (fun y => f y = false) l1 \/ Forall (fun y => f y = false) l2) ->
  take_while f (skip_while (fun x => negb (f x)) l) = filter (fun x => f x = true) l.
Proof.
  induction l as [|x l IH]; intros Hc; [done|].
  cbn [skip_while]. rewrite filter_cons. destruct (f x) eqn:E; simpl.
  - rewrite E. f_equal.
    assert (Htail : forall l1 y l2, l = l1 ++ y :: l2 -> f y = false ->
      Forall (fun y => f y = false) l2).
    { intros l1 y l2 -> Hy. destruct (Hc (x :: l1) y l2 eq_refl Hy) as [H1|]; [|done].
      apply Forall_cons in H1 as [? _]. congruence. }
    clear IH Hc. induction l as [|y l IH]; [done|]. cbn [take_while]. rewrite filter_cons.
    destruct (f y) eqn:Ey.
    + simpl. f_equal. apply IH. intros l1 z l2 ->. apply (Htail (y :: l1)). done.
    + simpl. rewrite filter_false; [done|]. by apply (Htail [] y l).
  - apply IH. intros l1 y l2 -> Hy. destruct (Hc (x :: l1) y l2 eq_refl Hy) as [H1|]; [|by right].
    left. by apply Forall_cons in H1 as [_ ?].
Qed.

Lemma files_layout_app o l1 l2 :
  files_layout o (l1 ++ l2)
  <-> files_layout o l1 /\ files_layout (o + zsum (fi_len <$> l1)) l2.
Proof.
  revert o. induction l1 as [|f l1 IH]; intros o.
  - simpl. rewrite Z.add_0_r. tauto.
  - cbn [app files_layout]. rewrite IH, fmap_cons, zsum_cons, Z.add_assoc. tauto.
Qed.

Lemma files_layout_ge o l fi :
  Forall (fun f => 0 < fi_len f) l -> files_layout o l -> fi ∈ l -> o <= fi_offset_in_torrent fi.
Proof.
  intros Hl. revert o. induction Hl as [|f l Hf Hl IH]; intros o; [by intros _ ?%not_elem_of_nil|].
  intros [Ho Hlay] [->|Hin]%elem_of_cons; [lia|]. specialize (IH _ Hlay Hin). lia.
Qed.

Lemma files_layout_le o l fi :
  Forall (fun f => 0 < fi_len f) l -> files_layout o l -> fi ∈ l ->
  fi_offset_in_torrent fi + fi_len fi <= o + zsum (fi_len <$> l).
Proof.
  intros Hl. revert o. induction Hl as [|f l Hf Hl IH]; intros o; [by intros _ ?%not_elem_of_nil|].
  intros [Ho Hlay]. rewrite fmap_cons, zsum_cons.
  intros [->|Hin]%elem_of_cons; [|specialize (IH _ Hlay Hin); lia].
  assert (0 <= zsum (fi_len <$> l)); [|lia].
  apply zsum_nonneg, Forall_fmap, (Forall_impl _ _ _ Hl). simpl. lia.
Qed.

Lemma contains_bounds l fi p :
  lengths_wf l -> file_wf l fi -> 0 < fi_len fi ->
  p ∈ range_list (fi_piece_range fi)
  <-> fi_offset_in_torrent fi < (p + 1) * ln_piece_length l
      /\ p * ln_piece_length l < fi_offset_in_torrent fi + fi_len fi.
Proof.
  intros H [Hr ? ? ?] Hlen. pose proof (wf_piece _ H). rewrite Hr.
  pose proof (file_range_bounds l (fi_offset_in_torrent fi) (fi_len fi) H) as Hb.
  destruct (iter_pieces_within_offset _ _ _) as [a b]. cbn in Hb.
  destruct Hb as (? & ? & ? & ?); [lia..|]. rewrite elem_of_range_list.
  set (P := ln_piece_length l) in *.
  pose proof (fun x y => Z.mul_le_mono_nonneg_r x y P ltac:(lia)) as Hmono.
  split.
  - intros [? ?]. pose proof (Hmono (a + 1) (p + 1) ltac:(lia)).
    pose proof (Hmono p (b - 1) ltac:(lia)). lia.
  - intros [? ?]. split.
    + destruct (Z.le_gt_cases a p); [done|]. pose proof (Hmono (p + 1) a ltac:(lia)). lia.
    + destruct (Z.lt_ge_cases p b); [done|]. pose proof (Hmono b p ltac:(lia)). lia.
Qed.

Lemma imap_pair_snd {A} (l : list A) : (imap pair l).*2 = l.
Proof.
  apply list_eq. intros i. rewrite list_lookup_fmap, list_lookup_imap. by destruct (l !! i).
Qed.

Lemma elem_of_imap_pair {A} (l : list A) i x : (i, x) ∈ imap pair l <-> l !! i = Some x.
Proof.
  rewrite list_elem_of_lookup. setoid_rewrite list_lookup_imap. split.
  - intros [k Hk]. destruct (l !! k) eqn:E; simpl in Hk; [|done]. by simplify_eq.
  - intros Hi. exists i. by rewrite Hi.
Qed.

Lemma files_of_piece_filter l fis p :
  lengths_wf l -> Forall (file_wf l) fis -> Forall (fun f => 0 < fi_len f) fis ->
  files_layout 0 fis ->
  files_of_piece fis p
  = filter (fun x : nat * FileInfo => range_contains (fi_piece_range x.2) p = true) (imap pair fis).
Proof.
  intros H Hwf Hpos Hlay.
  apply (take_skip_filter (fun x : nat * FileInfo => range_contains (fi_piece_range x.2) p)).
  intros l1 [k x] l2 Heq Hx. simpl in Hx.
  assert (Hfis : fis = l1.*2 ++ x :: l2.*2)
    by (rewrite <- (imap_pair_snd fis), Heq, fmap_app; done).
  rewrite Hfis in Hwf, Hpos, Hlay. clear Heq Hfis.
  apply Forall_app in Hwf as [Hwf1 [Hwfx Hwf2]%Forall_cons].
  apply Forall_app in Hpos as [Hpos1 [Hposx Hpos2]%Forall_cons].
  apply files_layout_app in Hlay as [Hlay1 [Hox Hlay2]].
  assert (~ p ∈ range_list (fi_piece_range x)) as Hn by (rewrite <- range_contains_spec; by rewrite Hx).
  rewrite (contains_bounds l) in Hn by done.
  destruct (Z.lt_ge_cases (fi_offset_in_torrent x) ((p + 1) * ln_piece_length l)).
  - left. apply Forall_forall. intros [j y] Hy. apply not_true_is_false. intros Hc. simpl in Hc.
    apply (list_elem_of_fmap_2 snd) in Hy. simpl in Hy.
    rewrite Forall_forall in Hwf1, Hpos1.
    apply range_contains_spec, (contains_bounds l) in Hc; [|done|by apply Hwf1|by apply Hpos1].
    pose proof (files_layout_le 0 _ y ltac:(by apply Forall_forall) Hlay1 Hy). lia.
  - right. apply Forall_forall. intros [j y] Hy. apply not_true_is_false. intros Hc. simpl in Hc.
    apply (list_elem_of_fmap_2 snd) in Hy. simpl in Hy.
    rewrite Forall_forall in Hwf2, Hpos2.
    apply range_contains_spec, (contains_bounds l) in Hc; [|done|by apply Hwf2|by apply Hpos2].
    pose proof (files_layout_ge _ _ y ltac:(by apply Forall_forall) Hlay2 Hy). lia.
Qed.

(** ** The counters *)

Definition files_in_sync (ct : ChunkTracker) (fis : list FileInfo) : Prop :=
  per_file_bytes ct = have_in_file (ct_lengths ct) (have ct) <$> fis.

(** Gaining piece [p] adds its share to the files that contain it. *)
Lemma have_in_file_gain l hv fi p :
  lengths_wf l -> file_wf l fi -> valid_piece l p ->
  (Z.to_nat p < length hv)%nat -> bit hv (Z.to_nat p) = false ->
  have_in_file l (<[Z.to_nat p := true]> hv) fi
  = have_in_file l hv fi
    + if range_contains (fi_piece_range fi) p
      then size_of_piece_in_file l p (fi_offset_in_torrent fi) (fi_len fi) else 0.
Proof.
  intros H Hf [Hp0 Hp1] Hlen Hb. unfold have_in_file.
  assert (Hother : forall q, q ∈ range_list (fi_piece_range fi) -> q <> p ->
    bit (<[Z.to_nat p := true]> hv) (Z.to_nat q) = bit hv (Z.to_nat q)).
  { intros q Hq Hne. destruct (file_range_valid l fi q H Hf Hq).
    rewrite bit_insert by done. by rewrite decide_False by lia. }
  destruct (range_contains (fi_piece_range fi) p) eqn:E.
  - apply range_contains_spec in E.
    rewrite (zsum_fmap_update (fun q => if bit hv (Z.to_nat q)
      then size_of_piece_in_file l q (fi_offset_in_torrent fi) (fi_len fi) else 0)
      (fun q => if bit (<[Z.to_nat p := true]> hv) (Z.to_nat q)
      then size_of_piece_in_file l q (fi_offset_in_torrent fi) (fi_len fi) else 0) _ p
      (NoDup_range_list _) E).
    + cbn beta. rewrite bit_insert, decide_True, Hb by done. lia.
    + intros q Hq Hne. simpl. by rewrite Hother.
  - rewrite Z.add_0_r. f_equal. apply list_fmap_ext. intros k q Hq.
    apply list_elem_of_lookup_2 in Hq. rewrite Hother; [done|done|].
    intros ->. apply range_contains_spec in Hq. congruence.
Qed.

Lemma complete_loop l p xs : forall ct out,
  ct_lengths ct = l -> NoDup xs.*1 ->
  Forall (fun x : nat * FileInfo => (x.1 < length (per_file_bytes ct))%nat) xs ->
  let gain x := size_of_piece_in_file l p (fi_offset_in_torrent x) (fi_len x) in
  exists b fin, foldM (complete_file p) (ct, out) xs = Ret (set_per_file_bytes b ct, out ++ fin)
    /\ length b = length (per_file_bytes ct)
    /\ (forall i, i ∉ xs.*1 -> b !! i = per_file_bytes ct !! i)
    /\ (forall i fi, (i, fi) ∈ xs ->
          b !! i = (fun v => u64 (v + gain fi)) <$> per_file_bytes ct !! i)
    /\ forall i, i ∈ fin <-> exists fi v, (i, fi) ∈ xs /\ b !! i = Some v
         /\ fa_padding (fi_attrs fi) = false /\ fi_len fi <= v.
Proof.
  induction xs as [|[i fi] xs IH]; intros ct out Hl Hnd Hlt gain.
  { exists (per_file_bytes ct), []. rewrite app_nil_r. destruct ct. split_and!; try done.
    - by intros i fi ?%not_elem_of_nil.
    - intros i. split; [by intros ?%not_elem_of_nil|].
      by intros (? & ? & ?%not_elem_of_nil & _). }
  apply NoDup_cons in Hnd as [Hni Hnd]. apply Forall_cons in Hlt as [Hi Hlt]. cbn in Hni, Hi.
  destruct (lookup_lt_is_Some_2 _ _ Hi) as [v Hv].
  cbn [foldM]. unfold complete_file at 2. cbn [fst snd].
  unfold update_file_have_on_piece_completed.
  rewrite (proj2 (index_Ret _ _ _) Hv). run. rewrite slice_set_lt by done.
  run. rewrite Hl. fold (gain fi).
  set (b1 := <[i := u64 (v + gain fi)]> (per_file_bytes ct)).
  assert (Hb1 : b1 !! i = Some (u64 (v + gain fi))) by (by apply list_lookup_insert_eq).
  set (out1 := if (saturating_sub (fi_len fi) (u64 (v + gain fi)) =? 0)
                  && negb (fa_padding (fi_attrs fi)) then out ++ [i] else out).
  destruct (IH (set_per_file_bytes b1 ct) out1) as (b & fin & Heq & Hlen & Hno & Hyes & Hfin);
    [done|done| |].
  { cbn. unfold b1. by rewrite length_insert. }
  cbn in Hlen, Hno, Hyes, Hfin. unfold b1 in Hlen. rewrite length_insert in Hlen.
  assert (Hbi : b !! i = Some (u64 (v + gain fi))) by (rewrite Hno; done).
  set (fin1 := if (saturating_sub (fi_len fi) (u64 (v + gain fi)) =? 0)
                  && negb (fa_padding (fi_attrs fi)) then [i] else []).
  exists b, (fin1 ++ fin). split_and!; [|done| | |].
  - rewrite Heq. unfold out1, fin1. cbn. destruct (_ && _); cbn; [|done].
    by rewrite <- app_assoc.
  - intros j Hj. cbn in Hj. rewrite not_elem_of_cons in Hj. destruct Hj as [Hne Hj].
    rewrite Hno by done. unfold b1. by rewrite list_lookup_insert_ne by done.
  - intros j fj [[= -> ->]|Hin]%elem_of_cons; [by rewrite Hbi, Hv|].
    rewrite (Hyes j fj Hin). unfold b1. rewrite list_lookup_insert_ne; [done|].
    intros ->. apply Hni. by apply (list_elem_of_fmap_2 fst _ (j, fj)).
  - intros j. rewrite elem_of_app, Hfin.
    assert (j ∈ fin1 <-> j = i /\ fa_padding (fi_attrs fi) = false
              /\ fi_len fi <= u64 (v + gain fi)) as ->.
    { unfold fin1, saturating_sub.
      destruct (Z.eqb_spec (Z.max 0 (fi_len fi - u64 (v + gain fi))) 0),
        (fa_padding (fi_attrs fi)); simpl; rewrite ?list_elem_of_singleton, ?elem_of_nil;
        split; intros Hj; try tauto; try (destruct Hj as (? & ? & ?); lia || done).
      split_and!; [done|done|lia]. }
    split.
    + intros [(-> & ? & ?)|(fj & w & Hin & ? & ? & ?)].
      * exists fi, (u64 (v + gain fi)). split_and!; try done. left.
      * exists fj, w. split_and!; try done. by right.
    + intros (fj & w & [[= -> ->]|Hin]%elem_of_cons & Hw & ? & ?).
      * left. split_and!; try done. congruence.
      * right. by exists fj, w.
Qed.

(** A verified piece: [mark_piece_hash_ok] then [on_piece_completed]. *)
Definition complete_piece (ct : ChunkTracker) (fis : list FileInfo) (id : ValidPieceIndex)
    : outcome (ChunkTracker * list nat) :=
  ct ← mark_piece_downloaded ct id;
  on_piece_completed_files ct fis id.

Lemma NoDup_imap_pair {A} (l : list A) : NoDup (imap pair l).*1.
Proof.
  assert ((imap pair l).*1 = seq 0 (length l)) as ->; [|apply NoDup_seq].
  apply list_eq. intros i. rewrite list_lookup_fmap, list_lookup_imap.
  destruct (decide (i < length l)%nat).
  - destruct (lookup_lt_is_Some_2 l i) as [x ->]; [done|]. by rewrite lookup_seq_lt.
  - rewrite !lookup_ge_None_2; [done|rewrite length_seq; lia|lia].
Qed.

(** C37: completing a missing piece keeps every file's counter equal to the bytes
    of the file in the pieces had, and reports exactly the touched, non-padding
    files that became complete, when no file of the torrent is empty. *)
Theorem piece_completion_files_in_sync (ct : ChunkTracker) (fis : list FileInfo) (p : Z) :
  ct_wf ct -> lengths_small (ct_lengths ct) -> Forall (file_wf (ct_lengths ct)) fis ->
  Forall (fun f => 0 < fi_len f) fis -> files_layout 0 fis -> files_in_sync ct fis ->
  valid_piece (ct_lengths ct) p -> bit (have ct) (Z.to_nat p) = false ->
  exists ct' fin, complete_piece ct fis p = Ret (ct', fin) /\ ct_wf ct' /\ files_in_sync ct' fis
    /\ have ct' = <[Z.to_nat p := true]> (have ct)
    /\ forall i, i ∈ fin <-> exists fi, fis !! i = Some fi
         /\ p ∈ range_list (fi_piece_range fi) /\ fa_padding (fi_attrs fi) = false
         /\ have_in_file (ct_lengths ct) (have ct') fi = fi_len fi.
Proof.
  intros Hwf Hsm Hf Hpos Hlay Hsync Hv Hb. pose proof (sh_lengths _ (proj1 Hwf)) as Hl.
  destruct (piece_in_bits ct p (proj1 Hwf) Hv) as (_ & Hplen & _).
  destruct (downloaded_spec ct p Hwf Hv) as (ct1 & Hd & Hwf1 & Hh1 & _ & _ & _ & Hl1 & Hp1).
  unfold complete_piece. rewrite Hd. run. unfold on_piece_completed_files.
  rewrite (files_of_piece_filter (ct_lengths ct)) by done. unfold files_in_sync in *.
  set (xs := filter _ (imap pair fis)).
  assert (Hxs : forall i fi, (i, fi) ∈ xs
    <-> range_contains (fi_piece_range fi) p = true /\ fis !! i = Some fi).
  { intros i fi. unfold xs. rewrite list_elem_of_filter, elem_of_imap_pair. done. }
  destruct (complete_loop (ct_lengths ct) p xs ct1 [] Hl1) as (b & fin & -> & Hlen & Hno & Hyes & Hfin).
  { unfold xs. eapply sublist_NoDup; [apply (NoDup_imap_pair fis)|apply fmap_sublist, sublist_filter]. }
  { apply Forall_forall. intros [i fi] [_ Hi]%Hxs. rewrite Hp1, Hsync, length_fmap.
    by apply lookup_lt_Some in Hi. }
  assert (Hsync' : b = have_in_file (ct_lengths ct) (have ct1) <$> fis).
  { apply list_eq. intros i. rewrite list_lookup_fmap, Hh1.
    rewrite Hp1, Hsync in Hno, Hyes. destruct (fis !! i) as [fi|] eqn:Ei; simpl.
    2:{ apply lookup_ge_None_2. rewrite Hlen, Hp1, Hsync, length_fmap. by apply lookup_ge_None_1. }
    pose proof (Forall_lookup_1 _ _ _ _ Hf Ei) as Hfi.
    rewrite (have_in_file_gain _ _ fi p) by done.
    destruct (range_contains (fi_piece_range fi) p) eqn:Ec.
    - rewrite (Hyes i fi) by (by apply Hxs). rewrite list_lookup_fmap, Ei. simpl. f_equal.
      pose proof (have_in_file_bounds _ (<[Z.to_nat p := true]> (have ct)) fi Hl Hsm Hfi) as Hbd.
      rewrite (have_in_file_gain _ _ fi p), Ec in Hbd by done. destruct Hfi.
      apply (u64_total (ct_lengths ct)); [done|lia].
    - rewrite Hno, list_lookup_fmap, Ei; simpl; [by rewrite Z.add_0_r|].
      intros ([j fj] & -> & [Hc Hj]%Hxs)%list_elem_of_fmap. simpl in *. congruence. }
  exists (set_per_file_bytes b ct1), fin. split_and!; [done| |cbn; by rewrite Hl1|done|].
  { destruct Hwf1. split; [by apply shape_set_files|done]. }
  intros i. rewrite Hfin. split.
  - intros (fi & v & [Hc Hi]%Hxs & Hbi & Hpad & Hle). exists fi.
    apply range_contains_spec in Hc. split_and!; try done.
    rewrite Hsync', list_lookup_fmap, Hi in Hbi. injection Hbi as <-. cbn.
    pose proof (have_in_file_bounds _ (have ct1) fi Hl Hsm (Forall_lookup_1 _ _ _ _ Hf Hi)). lia.
  - intros (fi & Hi & Hc & Hpad & Heq). exists fi, (fi_len fi).
    split_and!; [|by rewrite Hsync', list_lookup_fmap, Hi; cbn; rewrite <- Heq|done|lia].
    apply Hxs. split; [by apply range_contains_spec|done].
Qed.

Definition ex_two_files : list FileInfo :=
  [mkFileInfo [] 0 (0, 2) FileDetailsAttrs_default 30000;
   mkFileInfo [] 30000 (1, 3) FileDetailsAttrs_default 20000].

Definition ex_two_tracker : ChunkTracker := set_per_file_bytes [0; 10000] ex_tracker.

Lemma piece_completion_files_in_sync_witness :
  exists ct' fin, complete_piece ex_two_tracker ex_two_files 1 = Ret (ct', fin)
    /\ files_in_sync ct' ex_two_files.
Proof.
  destruct (piece_completion_files_in_sync ex_two_tracker ex_two_files 1)
    as (ct' & fin & Heq & _ & Hs & _).
  - split; [apply shape_set_files, ex_tracker_wf|reflexivity].
  - reflexivity.
  - by repeat constructor.
  - by repeat constructor.
  - by repeat constructor.
  - vm_compute. reflexivity.
  - split; done.
  - reflexivity.
  - exists ct', fin. split; [exact Heq|exact Hs].
Defined.

(** Two files of ten bytes in one piece of twenty, with an empty file between. *)
Definition empty_between_files : list FileInfo :=
  [mkFileInfo [] 0 (0, 1) FileDetailsAttrs_default 10;
   mkFileInfo [] 10 (0, 0) FileDetailsAttrs_default 0;
   mkFileInfo [] 10 (0, 1) FileDetailsAttrs_default 10].

(** An empty file between two files of the same piece ends the walk early:
    after the torrent's only piece completed, the file behind it has all its
    bytes but its counter stays zero and it is not reported as finished. *)
Theorem empty_file_hides_next_file :
  exists ct ct' fin l, Lengths_new 20 20 = Ret (Ok l)
    /\ ChunkTracker_new (replicate 8 false) (true :: replicate 7 false) l empty_between_files
       = XOk ct
    /\ complete_piece ct empty_between_files 0 = Ret (ct', fin)
    /\ is_finished ct' = true
    /\ per_file_bytes ct' = [10; 0; 0] /\ fin = [0%nat]
    /\ (have_in_file l (have ct') <$> empty_between_files) = [10; 0; 10].
Proof.
  eexists _, _, _, _. split; [vm_compute; reflexivity|]. split; [vm_compute; reflexivity|].
  split; [vm_compute; reflexivity|]. split_and!; reflexivity.
Qed.
