(* ===== verification/DoubleBuf.v ===== *)
(** * Split buffers ([peer_binary_protocol::double_buf])

    The helper that reads a byte string stored as two slices (the two halves of
    the receive ring buffer).  Methods that take [&mut self] return the advanced
    helper. *)

From stdpp Require Import base tactics option list list_numbers numbers decidable.
From Stdlib Require Import ZArith Lia.
From S2P Require Import Prelude.
Open Scope Z_scope.

Record DoubleBuf := mkDB {
  buf_0 : bytes;
  buf_1 : bytes
}.

Definition db_len (d : DoubleBuf) : nat := (length (buf_0 d) + length (buf_1 d))%nat.

Definition db_is_empty (d : DoubleBuf) : bool :=
  (length (buf_0 d) =? 0)%nat && (length (buf_1 d) =? 0)%nat.

(** [Err] carries the number of missing bytes. *)
Definition consume_variable (d : DoubleBuf) (len : nat)
    : result nat (bytes * bytes * DoubleBuf) :=
  let available := (length (buf_0 d) + length (buf_1 d))%nat in
  if (available <? len)%nat then Err (len - available)%nat
  else
    let first_len := Nat.min (length (buf_0 d)) len in
    let second_len := Nat.min (len - first_len) (length (buf_1 d)) in
    Ok (take first_len (buf_0 d), take second_len (buf_1 d),
        mkDB (drop first_len (buf_0 d)) (drop second_len (buf_1 d))).

Definition consume (n : nat) (d : DoubleBuf) : result nat (bytes * DoubleBuf) :=
  let l0 := length (buf_0 d) in
  let l1 := length (buf_1 d) in
  if (n <=? l0)%nat then Ok (take n (buf_0 d), mkDB (drop n (buf_0 d)) (buf_1 d))
  else if (l0 =? 0)%nat && (n <=? l1)%nat then
    Ok (take n (buf_1 d), mkDB (buf_0 d) (drop n (buf_1 d)))
  else
    let first := Nat.min l0 n in
    let second := Nat.min l1 (n - first) in
    let missing := (n - first - second)%nat in
    if (0 <? missing)%nat then Err missing
    else Ok (take first (buf_0 d) ++ take second (buf_1 d),
             mkDB (drop first (buf_0 d)) (drop second (buf_1 d))).

Definition read_u32_be (d : DoubleBuf) : result nat (Z * DoubleBuf) :=
  r ← consume 4 d; Ok (from_be_bytes r.1, r.2).

Definition read_u8 (d : DoubleBuf) : option (Z * DoubleBuf) :=
  match buf_0 d, buf_1 d with
  | b :: r, b1 => Some (b, mkDB r b1)
  | [], b :: r => Some (b, mkDB [] r)
  | [], [] => None
  end.

Definition get_contiguous (d : DoubleBuf) (len : nat) : option bytes :=
  let l0 := length (buf_0 d) in
  let l1 := length (buf_1 d) in
  if (len <=? l0)%nat then Some (take len (buf_0 d))
  else if (l0 =? 0)%nat && (len <=? l1)%nat then Some (take len (buf_1 d))
  else None.

Definition db_advance (d : DoubleBuf) (offset : nat) : DoubleBuf :=
  let buf_0_adv := Nat.min (length (buf_0 d)) offset in
  let buf_1_adv := Nat.min (offset - buf_0_adv) (length (buf_1 d)) in
  mkDB (drop buf_0_adv (buf_0 d)) (drop buf_1_adv (buf_1 d)).

Definition with_max_len (d : DoubleBuf) (max_len : nat) : DoubleBuf :=
  let buf_0_len := Nat.min (length (buf_0 d)) max_len in
  let buf_1_len := Nat.min (max_len - buf_0_len) (length (buf_1 d)) in
  mkDB (take buf_0_len (buf_0 d)) (take buf_1_len (buf_1 d)).

Definition as_ioslices (d : DoubleBuf) (len_limit : nat) : bytes * bytes :=
  let buf_0_len := Nat.min (length (buf_0 d)) len_limit in
  let buf_1_len := Nat.min (len_limit - buf_0_len) (length (buf_1 d)) in
  (take buf_0_len (buf_0 d), take buf_1_len (buf_1 d)).

(** ** The byte string behind the two slices *)

Definition db_bytes (d : DoubleBuf) : bytes := buf_0 d ++ buf_1 d.

Lemma length_db_bytes d : length (db_bytes d) = db_len d.
Proof. apply length_app. Qed.

Lemma take_split {A} (a b : list A) n :
  take (Nat.min (length a) n) a ++ take (Nat.min (n - Nat.min (length a) n) (length b)) b
  = take n (a ++ b).
Proof.
  rewrite take_app. destruct (Nat.le_gt_cases n (length a)).
  - rewrite !Nat.min_r by lia. rewrite Nat.sub_diag. simpl. by replace (n - length a)%nat with 0%nat by lia.
  - rewrite !Nat.min_l by lia. rewrite firstn_all, (take_ge a) by lia. f_equal.
    destruct (Nat.le_gt_cases (n - length a) (length b)).
    + by rewrite Nat.min_l.
    + by rewrite Nat.min_r, firstn_all, take_ge by lia.
Qed.

Lemma drop_split {A} (a b : list A) n :
  drop (Nat.min (length a) n) a ++ drop (Nat.min (n - Nat.min (length a) n) (length b)) b
  = drop n (a ++ b).
Proof.
  rewrite drop_app. destruct (Nat.le_gt_cases n (length a)).
  - rewrite !Nat.min_r by lia. rewrite Nat.sub_diag. simpl. by replace (n - length a)%nat with 0%nat by lia.
  - rewrite !Nat.min_l by lia. rewrite drop_all, (drop_ge a) by lia. f_equal.
    destruct (Nat.le_gt_cases (n - length a) (length b)).
    + by rewrite Nat.min_l.
    + by rewrite Nat.min_r, drop_all, drop_ge by lia.
Qed.

Lemma consume_spec n d :
  match consume n d with
  | Ok (r, d') => (n <= db_len d)%nat /\ r = take n (db_bytes d) /\ db_bytes d' = drop n (db_bytes d)
  | Err m => (n = db_len d + m)%nat /\ (0 < m)%nat
  end.
Proof.
  destruct d as [a b]. unfold consume, db_bytes, db_len. cbn [buf_0 buf_1].
  destruct (Nat.leb_spec n (length a)).
  - split_and!; [lia| |].
    + by rewrite take_app_le by lia.
    + cbn. by rewrite drop_app_le by lia.
  - destruct (Nat.eqb_spec (length a) 0) as [E|E]; [destruct (Nat.leb_spec n (length b))|]; simpl.
    + apply nil_length_inv in E as ->. simpl. done.
    + apply nil_length_inv in E as ->. simpl.
      destruct (Nat.ltb_spec 0 (n - 0 - Nat.min (length b) (n - 0))); lia.
    + rewrite Nat.min_l by lia.
      destruct (Nat.ltb_spec 0 (n - length a - Nat.min (length b) (n - length a))); [lia|].
      rewrite Nat.min_r by lia. split_and!; [lia| |].
      * rewrite take_app, !(take_ge a) by lia. done.
      * cbn. rewrite drop_app, !(drop_ge a) by lia. done.
Qed.

Lemma consume_variable_spec n d :
  match consume_variable d n with
  | Ok (r0, r1, d') => (n <= db_len d)%nat /\ r0 ++ r1 = take n (db_bytes d)
                       /\ db_bytes d' = drop n (db_bytes d)
  | Err m => (n = db_len d + m)%nat /\ (0 < m)%nat
  end.
Proof.
  destruct d as [a b]. unfold consume_variable, db_bytes, db_len. cbn [buf_0 buf_1].
  destruct (Nat.ltb_spec (length a + length b) n); [lia|].
  split_and!; [lia|apply take_split|apply drop_split].
Qed.

Lemma read_u8_spec d :
  match read_u8 d with
  | Some (b, d') => db_bytes d = b :: db_bytes d'
  | None => db_bytes d = []
  end.
Proof. destruct d as [[|x a] [|y b]]; done. Qed.

Lemma get_contiguous_spec d n :
  match get_contiguous d n with
  | Some r => (n <= db_len d)%nat /\ r = take n (db_bytes d)
  | None => (length (buf_0 d) < n)%nat /\ (buf_0 d = [] -> db_len d < n)%nat
  end.
Proof.
  destruct d as [a b]. unfold get_contiguous, db_bytes, db_len. cbn [buf_0 buf_1].
  destruct (Nat.leb_spec n (length a)).
  - split; [lia|]. by rewrite take_app_le by lia.
  - destruct (Nat.eqb_spec (length a) 0) as [E|E]; simpl.
    + apply nil_length_inv in E as ->. simpl. destruct (Nat.leb_spec n (length b)); [done|].
      split; [simpl in *; lia|done].
    + split; [lia|]. intros ->. done.
Qed.

(** Every read of a split buffer gives what the same read of the
    concatenation gives, wherever the split is: the bytes, the rest and, when
    there are too few bytes, how many are missing; a contiguous view is refused
    only when the wanted bytes straddle the split or are missing. *)
Theorem double_buf_refines_concat (d : DoubleBuf) (n : nat) :
  (match consume n d with
   | Ok (r, d') => (n <= length (db_bytes d))%nat /\ r = take n (db_bytes d)
                   /\ db_bytes d' = drop n (db_bytes d)
   | Err m => n = (length (db_bytes d) + m)%nat /\ (0 < m)%nat
   end)
  /\ (match consume_variable d n with
      | Ok (r0, r1, d') => (n <= length (db_bytes d))%nat /\ r0 ++ r1 = take n (db_bytes d)
                           /\ db_bytes d' = drop n (db_bytes d)
      | Err m => n = (length (db_bytes d) + m)%nat /\ (0 < m)%nat
      end)
  /\ (match get_contiguous d n with
      | Some r => (n <= length (db_bytes d))%nat /\ r = take n (db_bytes d)
      | None => (length (buf_0 d) < n)%nat /\ (buf_0 d = [] -> length (db_bytes d) < n)%nat
      end)
  /\ db_bytes (db_advance d n) = drop n (db_bytes d)
  /\ db_bytes (with_max_len d n) = take n (db_bytes d).
Proof.
  rewrite length_db_bytes. split_and!.
  - apply consume_spec.
  - apply consume_variable_spec.
  - apply get_contiguous_spec.
  - apply drop_split.
  - apply take_split.
Qed.

(** ** Reads that succeed *)

Lemma consume_ok n d :
  (n <= length (db_bytes d))%nat ->
  exists d', consume n d = Ok (take n (db_bytes d), d') /\ db_bytes d' = drop n (db_bytes d)
    /\ buf_0 d' = drop n (buf_0 d) /\ buf_1 d' = drop (n - length (buf_0 d)) (buf_1 d).
Proof.
  intros Hn. pose proof (consume_spec n d) as Hs. rewrite length_db_bytes in Hn.
  destruct (consume n d) as [[r d']|m] eqn:E; [|lia]. destruct Hs as (_ & -> & Hd).
  exists d'. split_and!; [done|done| |]; unfold consume in E; unfold db_len in Hn;
    destruct (Nat.leb_spec n (length (buf_0 d)));
    [injection E as _ <-; cbn| |injection E as _ <-; cbn|].
  - done.
  - destruct (Nat.eqb_spec (length (buf_0 d)) 0) as [E0|E0]; simpl in E.
    + rewrite (proj2 (Nat.leb_le _ _)) in E by lia. injection E as _ <-. cbn.
      apply nil_length_inv in E0 as ->. by rewrite drop_nil.
    + destruct (0 <? _)%nat; [done|]. injection E as _ <-. cbn. rewrite Nat.min_l by lia.
      by rewrite !drop_ge by lia.
  - replace (n - length (buf_0 d))%nat with 0%nat by lia. done.
  - destruct (Nat.eqb_spec (length (buf_0 d)) 0) as [E0|E0]; simpl in E.
    + rewrite (proj2 (Nat.leb_le _ _)) in E by lia. injection E as _ <-. cbn.
      rewrite E0. by rewrite Nat.sub_0_r.
    + destruct (0 <? _)%nat; [done|]. injection E as _ <-. cbn.
      rewrite (Nat.min_l (length (buf_0 d)) n) by lia. by rewrite Nat.min_r by lia.
Qed.

Lemma consume_short n d :
  (length (db_bytes d) < n)%nat -> consume n d = Err (n - length (db_bytes d))%nat.
Proof.
  intros Hn. pose proof (consume_spec n d) as Hs. rewrite length_db_bytes in *.
  destruct (consume n d) as [[r d']|m]; [lia|]. f_equal. lia.
Qed.

Lemma consume_variable_ok n d :
  (n <= length (db_bytes d))%nat ->
  exists r0 r1 d', consume_variable d n = Ok (r0, r1, d') /\ r0 ++ r1 = take n (db_bytes d).
Proof.
  intros Hn. pose proof (consume_variable_spec n d) as Hs. rewrite length_db_bytes in Hn.
  destruct (consume_variable d n) as [[[r0 r1] d']|m]; [|lia]. exists r0, r1, d'. tauto.
Qed.

Lemma read_u32_be_ok x d rest :
  is_u32 x -> db_bytes d = to_be_bytes 4 x ++ rest ->
  exists d', read_u32_be d = Ok (x, d') /\ db_bytes d' = rest
    /\ buf_0 d' = drop 4 (buf_0 d) /\ buf_1 d' = drop (4 - length (buf_0 d)) (buf_1 d).
Proof.
  intros Hx Hd. destruct (consume_ok 4 d) as (d' & Hc & Hd' & H0 & H1).
  { rewrite Hd, length_app, length_to_be_bytes. lia. }
  assert (Ht : take 4 (to_be_bytes 4 x ++ rest) = to_be_bytes 4 x)
    by (apply take_app_length'; by rewrite length_to_be_bytes).
  assert (Hr : drop 4 (to_be_bytes 4 x ++ rest) = rest)
    by (apply drop_app_length'; by rewrite length_to_be_bytes).
  exists d'. unfold read_u32_be. rewrite Hc. cbn [mbind result_bind fst snd].
  rewrite Hd, Ht, ?Hr in *. by rewrite (from_to_be_bytes 4 32).
Qed.

Lemma read_u8_ok b d rest :
  db_bytes d = b :: rest ->
  exists d', read_u8 d = Some (b, d') /\ db_bytes d' = rest
    /\ buf_0 d' = drop 1 (buf_0 d) /\ buf_1 d' = drop (1 - length (buf_0 d)) (buf_1 d).
Proof.
  destruct d as [[|x a] c]; unfold db_bytes; cbn.
  - intros ->. by eexists.
  - intros [= -> <-]. by eexists.
Qed.
