(* ===== verification/Message.v ===== *)
(** * The peer wire protocol ([peer_binary_protocol])

    Messages, their framing and the handshake.  A serializer writes into the
    buffer it is given and returns the buffer with the number of bytes written;
    a write outside the buffer panics.  The body of an extended message is the
    interface [ExtCodec]. *)

From stdpp Require Import base tactics option list list_numbers numbers decidable.
From Stdlib Require Import ZArith Lia.
From S2P Require Import Prelude Lengths DoubleBuf.
Open Scope Z_scope.

Definition INTEGER_LEN : nat := 4.
Definition MSGID_LEN : nat := 1.
Definition PREAMBLE_LEN : nat := 5.
Definition PIECE_MESSAGE_PREAMBLE_LEN : nat := 13.

Definition MSGID_CHOKE : Z := 0.
Definition MSGID_UNCHOKE : Z := 1.
Definition MSGID_INTERESTED : Z := 2.
Definition MSGID_NOT_INTERESTED : Z := 3.
Definition MSGID_HAVE : Z := 4.
Definition MSGID_BITFIELD : Z := 5.
Definition MSGID_REQUEST : Z := 6.
Definition MSGID_PIECE : Z := 7.
Definition MSGID_CANCEL : Z := 8.
Definition MSGID_EXTENDED : Z := 20.

(** [b"BitTorrent protocol"]. *)
Definition PSTR_BT1 : bytes :=
  [66; 105; 116; 84; 111; 114; 114; 101; 110; 116; 32; 112; 114; 111; 116; 111; 99; 111; 108].

(** [DeOther] stands for the variants that only the bodies of extended messages
    produce (bencode and [ut_metadata] errors). *)
Inductive MessageDeserializeError (E : Type) :=
| NotEnoughData (missing : Z) (msg_id : option Z)
| NeedContiguous
| UnsupportedMessageId (msg_id : Z)
| IncorrectMsgLen (received expected : Z) (msg_id : Z)
| HandshakePstrWrongContent
| HandshakePstrWrongLength (len : Z)
| DeOther (e : E).
Arguments NotEnoughData {E}.
Arguments NeedContiguous {E}.
Arguments UnsupportedMessageId {E}.
Arguments IncorrectMsgLen {E}.
Arguments HandshakePstrWrongContent {E}.
Arguments HandshakePstrWrongLength {E}.
Arguments DeOther {E}.

Inductive SerializeError (E : Type) :=
| NoSpaceInBuffer
| SerOther (e : E).
Arguments NoSpaceInBuffer {E}.
Arguments SerOther {E}.

(** [out[at..at+data.len()].copy_from_slice(data)]. *)
Definition put (out : bytes) (at_ : nat) (data : bytes) : outcome bytes :=
  if (at_ + length data <=? length out)%nat
  then Ret (take at_ out ++ data ++ drop (at_ + length data) out) else Panic.

(** A call on [&mut out[n..]]. *)
Definition on_tail (out : bytes) (n : nat) (f : bytes -> outcome bytes) : outcome bytes :=
  if (n <=? length out)%nat then r ← f (drop n out); Ret (take n out ++ r) else Panic.

(** ** Requests, pieces *)

Record Request := mkRequest {
  req_index : Z;
  req_begin : Z;
  req_length : Z
}.

Definition Request_serialize_unchecked_len (r : Request) (buf : bytes) : outcome bytes :=
  buf ← put buf 0 (to_be_bytes 4 (req_index r));
  buf ← put buf 4 (to_be_bytes 4 (req_begin r));
  put buf 8 (to_be_bytes 4 (req_length r)).

Record Piece := mkPiece {
  p_index : Z;
  p_begin : Z;
  p_block_0 : bytes;
  p_block_1 : bytes
}.

Definition Piece_len (p : Piece) : nat := (length (p_block_0 p) + length (p_block_1 p))%nat.

Definition Piece_from_data (index begin : Z) (block : bytes) : Piece :=
  mkPiece index begin block [].

Definition Piece_serialize_unchecked_len (p : Piece) (buf : bytes) : outcome bytes :=
  buf ← put buf 0 (to_be_bytes 4 (p_index p));
  buf ← put buf 4 (to_be_bytes 4 (p_begin p));
  on_tail buf 8 (fun buf =>
    buf ← put buf 0 (p_block_0 p);
    on_tail buf (length (p_block_0 p)) (fun buf => put buf 0 (p_block_1 p))).

(** The preamble written in front of a chunk that is read from disk. *)
Definition serialize_piece_preamble (chunk : ChunkInfo) (buf : bytes) : outcome (bytes * nat) :=
  let len_prefix := u32 (1 + 4 * 2 + ci_size chunk) in
  buf ← put buf 0 (to_be_bytes 4 len_prefix);
  buf ← put buf 4 [MSGID_PIECE];
  buf ← on_tail buf 5 (fun buf =>
    buf ← put buf 0 (to_be_bytes 4 (ci_piece_index chunk));
    put buf 4 (to_be_bytes 4 (ci_offset chunk)));
  Ret (buf, PIECE_MESSAGE_PREAMBLE_LEN).

(** ** The interface of extended messages

    What the framing relies on: the body written fits the buffer, and when it is
    one the other side knows under these ids ([ext_ok]), it is read back from
    exactly its bytes when they lie in one of the two slices. *)
Class ExtCodec := {
  Ext : Type;
  ExtIds : Type;
  ExtSerError : Type;
  ExtDeError : Type;
  ext_serialize : Ext -> bytes -> ExtIds -> exec (SerializeError ExtSerError) (bytes * nat);
  ext_deserialize : DoubleBuf -> exec (MessageDeserializeError ExtDeError) Ext;
  ext_ok : Ext -> ExtIds -> Prop;
  ext_equiv : Ext -> Ext -> Prop;
  ext_deserialize_total : forall d, ext_deserialize d <> XPanic;
  ext_serialize_fits : forall e buf ids buf' n, ext_serialize e buf ids = XOk (buf', n) ->
    length buf' = length buf /\ (0 < n <= length buf)%nat;
  ext_roundtrip : forall e buf ids buf' n, ext_ok e ids -> ext_serialize e buf ids = XOk (buf', n) ->
    (exists e', ext_deserialize (mkDB (take n buf') []) = XOk e' /\ ext_equiv e e')
    /\ (exists e', ext_deserialize (mkDB [] (take n buf')) = XOk e' /\ ext_equiv e e')
}.

Section Messages.
Context `{ExtCodec}.

Inductive Message :=
| MRequest (r : Request)
| MCancel (r : Request)
| MBitfield (b : bytes)
| MKeepAlive
| MHave (v : Z)
| MChoke
| MUnchoke
| MInterested
| MNotInterested
| MPiece (p : Piece)
| MExtended (e : Ext).

(** [check_len!] and [write_preamble!]. *)
Definition check_len {A} (out : bytes) (l : nat) (k : exec (SerializeError ExtSerError) A)
    : exec (SerializeError ExtSerError) A :=
  if (length out <? l)%nat then XErr NoSpaceInBuffer else k.

Definition write_preamble (out : bytes) (msg_len msg_id : Z) : outcome bytes :=
  out ← put out 0 (to_be_bytes 4 (u32 (msg_len + 1)));
  put out 4 [msg_id].

Definition serialize_request (out : bytes) (msg_id : Z) (r : Request)
    : exec (SerializeError ExtSerError) (bytes * nat) :=
  let total_len := (PREAMBLE_LEN + INTEGER_LEN * 3)%nat in
  check_len out total_len (exec_of_outcome (
    out ← write_preamble out 12 msg_id;
    out ← on_tail out PREAMBLE_LEN (Request_serialize_unchecked_len r);
    Ret (out, total_len))).

Definition serialize_empty (out : bytes) (msg_id : Z)
    : exec (SerializeError ExtSerError) (bytes * nat) :=
  check_len out PREAMBLE_LEN (exec_of_outcome (
    out ← write_preamble out 0 msg_id;
    Ret (out, PREAMBLE_LEN))).

Definition Message_serialize (m : Message) (out : bytes) (ids : ExtIds)
    : exec (SerializeError ExtSerError) (bytes * nat) :=
  match m with
  | MRequest r => serialize_request out MSGID_REQUEST r
  | MCancel r => serialize_request out MSGID_CANCEL r
  | MBitfield b =>
    let block_len := length b in
    let total_len := (PREAMBLE_LEN + block_len)%nat in
    check_len out total_len (exec_of_outcome (
      out ← write_preamble out (u32 (Z.of_nat block_len)) MSGID_BITFIELD;
      out ← put out PREAMBLE_LEN b;
      Ret (out, total_len)))
  | MChoke => serialize_empty out MSGID_CHOKE
  | MUnchoke => serialize_empty out MSGID_UNCHOKE
  | MInterested => serialize_empty out MSGID_INTERESTED
  | MNotInterested => serialize_empty out MSGID_NOT_INTERESTED
  | MPiece p =>
    let block_len := Piece_len p in
    let payload_len := (INTEGER_LEN * 2 + block_len)%nat in
    let total_len := (PREAMBLE_LEN + payload_len)%nat in
    check_len out total_len (exec_of_outcome (
      out ← write_preamble out (u32 (Z.of_nat payload_len)) MSGID_PIECE;
      out ← on_tail out PREAMBLE_LEN (Piece_serialize_unchecked_len p);
      Ret (out, total_len)))
  | MKeepAlive =>
    check_len out 4 (exec_of_outcome (
      out ← put out 0 (to_be_bytes 4 0);
      Ret (out, 4%nat)))
  | MHave v =>
    check_len out (PREAMBLE_LEN + INTEGER_LEN) (exec_of_outcome (
      out ← write_preamble out 4 MSGID_HAVE;
      out ← put out 5 (to_be_bytes 4 v);
      Ret (out, 9%nat)))
  | MExtended e =>
    check_len out (PREAMBLE_LEN + 2)
      (r ← ext_serialize e (drop PREAMBLE_LEN out) ids;
       let '(tail, msg_len) := (r : bytes * nat) in
       exec_of_outcome (
         out ← write_preamble (take PREAMBLE_LEN out ++ tail) (u32 (Z.of_nat msg_len))
                 MSGID_EXTENDED;
         Ret (out, (PREAMBLE_LEN + msg_len)%nat)))
  end.

(** ** Reading *)

Abbreviation DeErr := (MessageDeserializeError ExtDeError).

(** [unwrap] of a read. *)
Definition unwrap_read {A} (r : result nat A) : exec DeErr A :=
  match r with Ok a => XOk a | Err _ => XPanic end.

(** [check_msg_len!]. *)
Definition check_msg_len {A} (ok : bool) (len_prefix expected msg_id : Z) (k : exec DeErr A)
    : exec DeErr A :=
  if ok then k else XErr (IncorrectMsgLen (u32 (len_prefix - 1)) expected msg_id).

(** The [match msg_id] of [deserialize]; [msg_len] bytes are available. *)
Definition deserialize_body (buf : DoubleBuf) (len_prefix msg_id : Z) : exec DeErr (Message * Z) :=
  let total_len := len_prefix + 4 in
  let msg_len := len_prefix - 1 in
  let empty m := check_msg_len (msg_len =? 0) len_prefix 0 msg_id (XOk (m, total_len)) in
  if msg_id =? MSGID_CHOKE then empty MChoke
  else if msg_id =? MSGID_UNCHOKE then empty MUnchoke
  else if msg_id =? MSGID_INTERESTED then empty MInterested
  else if msg_id =? MSGID_NOT_INTERESTED then empty MNotInterested
  else if msg_id =? MSGID_HAVE then
    check_msg_len (msg_len =? 4) len_prefix 4 msg_id (
      r ← unwrap_read (read_u32_be buf);
      XOk (MHave r.1, total_len))
  else if msg_id =? MSGID_BITFIELD then
    check_msg_len (1 <=? msg_len) len_prefix 1 msg_id (
      match get_contiguous buf (Z.to_nat msg_len) with
      | None => XErr NeedContiguous
      | Some data => XOk (MBitfield data, total_len)
      end)
  else if (msg_id =? MSGID_REQUEST) || (msg_id =? MSGID_CANCEL) then
    check_msg_len (msg_len =? 12) len_prefix 12 msg_id (
      r ← unwrap_read (consume 12 buf);
      let req := r.1 in
      let request := mkRequest (from_be_bytes (take 4 req))
                       (from_be_bytes (take 4 (drop 4 req)))
                       (from_be_bytes (take 4 (drop 8 req))) in
      XOk (if msg_id =? MSGID_REQUEST then MRequest request else MCancel request, total_len))
  else if msg_id =? MSGID_PIECE then
    if msg_len <? 9 then XErr (IncorrectMsgLen (u32 msg_len) 9 msg_id)
    else
      r1 ← unwrap_read (read_u32_be buf);
      r2 ← unwrap_read (read_u32_be r1.2);
      r3 ← unwrap_read (consume_variable r2.2 (Z.to_nat (msg_len - 8)));
      XOk (MPiece (mkPiece r1.1 r2.1 r3.1.1 r3.1.2), total_len)
  else if msg_id =? MSGID_EXTENDED then
    e ← ext_deserialize (with_max_len buf (Z.to_nat msg_len));
    XOk (MExtended e, Z.of_nat PREAMBLE_LEN + msg_len)
  else XErr (UnsupportedMessageId msg_id).

Definition Message_deserialize (buf buf2 : bytes) : exec DeErr (Message * Z) :=
  let d := mkDB buf buf2 in
  match read_u32_be d with
  | Err rem => XErr (NotEnoughData (Z.of_nat rem) None)
  | Ok (len_prefix, d) =>
    let total_len := len_prefix + 4 in
    if len_prefix =? 0 then XOk (MKeepAlive, total_len)
    else
      match read_u8 d with
      | None => XErr (NotEnoughData len_prefix None)
      | Some (msg_id, d) =>
        let msg_len := len_prefix - 1 in
        if Z.of_nat (db_len d) <? msg_len then
          XErr (NotEnoughData (msg_len - Z.of_nat (db_len d)) (Some msg_id))
        else deserialize_body d len_prefix msg_id
      end
  end.
End Messages.

(** ** Handshake *)

Record Handshake := mkHandshake {
  hs_reserved : Z;
  hs_info_hash : bytes;
  hs_peer_id : bytes
}.

Definition Handshake_new (info_hash peer_id : bytes) : Handshake :=
  mkHandshake (Z.lor 0 (Z.shiftl 1 20)) info_hash peer_id.

Definition HANDSHAKE_LEN : nat := (1 + length PSTR_BT1 + 8 + 20 + 20)%nat.

Definition Handshake_deserialize {E} (b : bytes)
    : exec (MessageDeserializeError E) (Handshake * nat) :=
  if (length b <? HANDSHAKE_LEN)%nat then
    XErr (NotEnoughData (Z.of_nat (HANDSHAKE_LEN - length b)) None)
  else
    b0 ← exec_of_outcome (index b 0);
    if negb (b0 =? Z.of_nat (length PSTR_BT1)) then XErr (HandshakePstrWrongLength b0)
    else if negb (bool_decide (take 19 (drop 1 b) = PSTR_BT1)) then XErr HandshakePstrWrongContent
    else
      XOk ({| hs_reserved := from_be_bytes (take 8 (drop 20 b));
              hs_info_hash := take 20 (drop 28 b);
              hs_peer_id := take 20 (drop 48 b) |}, HANDSHAKE_LEN).

Definition supports_extended (h : Handshake) : outcome bool :=
  b ← index (to_be_bytes 8 (hs_reserved h)) 5;
  Ret (0 <? Z.land b 16).

Definition Handshake_serialize_unchecked_len (h : Handshake) (buf : bytes)
    : outcome (bytes * nat) :=
  buf ← put buf 0 [19];
  buf ← put buf 1 PSTR_BT1;
  buf ← put buf 20 (to_be_bytes 8 (hs_reserved h));
  buf ← put buf 28 (hs_info_hash h);
  buf ← put buf 48 (hs_peer_id h);
  Ret (buf, 68%nat).

(** ** Writing into a buffer *)

Lemma put_spec pre mid post data n :
  n = length pre -> length mid = length data ->
  put (pre ++ mid ++ post) n data = Ret (pre ++ data ++ post).
Proof.
  intros -> Hl. unfold put. rewrite !length_app.
  rewrite (proj2 (Nat.leb_le _ _)) by lia. rewrite take_app_length. do 3 f_equal.
  rewrite <- Hl, app_assoc, <- length_app, drop_app_length. done.
Qed.

Lemma put_head mid post data :
  length mid = length data -> put (mid ++ post) 0 data = Ret (data ++ post).
Proof. apply (put_spec [] mid post data 0). done. Qed.

Lemma on_tail_spec pre post n f r :
  n = length pre -> f post = Ret r -> on_tail (pre ++ post) n f = Ret (pre ++ r).
Proof.
  intros -> Hf. unfold on_tail. rewrite length_app, (proj2 (Nat.leb_le _ _)) by lia.
  rewrite drop_app_length, Hf, take_app_length. done.
Qed.

(** Cutting a buffer into fields. *)
Lemma buf_cut (out : bytes) n :
  (n <= length out)%nat -> exists a b, out = a ++ b /\ length a = n.
Proof.
  intros. exists (take n out), (drop n out). rewrite take_drop, length_take. split; [done|lia].
Qed.

Lemma from_to_u32 z : is_u32 z -> from_be_bytes (to_be_bytes 4 z) = z.
Proof. by apply from_to_be_bytes. Qed.

Section Wire.
Context `{ExtCodec}.

(** The bytes of a frame: the length of the rest, the id, the payload. *)
Definition frame (id : Z) (payload : bytes) : bytes :=
  to_be_bytes 4 (Z.of_nat (length payload) + 1) ++ id :: payload.

Definition encode_request (r : Request) : bytes :=
  to_be_bytes 4 (req_index r) ++ to_be_bytes 4 (req_begin r) ++ to_be_bytes 4 (req_length r).

Definition encode_piece (p : Piece) : bytes :=
  to_be_bytes 4 (p_index p) ++ to_be_bytes 4 (p_begin p) ++ p_block_0 p ++ p_block_1 p.

(** The wire format (BEP 3) of the messages without an extended body. *)
Definition encode (m : Message) : bytes :=
  match m with
  | MKeepAlive => to_be_bytes 4 0
  | MChoke => frame 0 []
  | MUnchoke => frame 1 []
  | MInterested => frame 2 []
  | MNotInterested => frame 3 []
  | MHave v => frame 4 (to_be_bytes 4 v)
  | MBitfield b => frame 5 b
  | MRequest r => frame 6 (encode_request r)
  | MPiece p => frame 7 (encode_piece p)
  | MCancel r => frame 8 (encode_request r)
  | MExtended _ => []
  end.

Definition request_wf (r : Request) : Prop :=
  is_u32 (req_index r) /\ is_u32 (req_begin r) /\ is_u32 (req_length r).

(** The messages the wire can carry; bitfields and blocks are not empty. *)
Definition msg_wf (m : Message) : Prop :=
  match m with
  | MRequest r | MCancel r => request_wf r
  | MBitfield b => is_bytes b /\ (0 < length b)%nat /\ Z.of_nat (length b) + 1 < 2 ^ 32
  | MHave v => is_u32 v
  | MPiece p => is_u32 (p_index p) /\ is_u32 (p_begin p)
      /\ is_bytes (p_block_0 p) /\ is_bytes (p_block_1 p)
      /\ (0 < Piece_len p)%nat /\ Z.of_nat (Piece_len p) + 9 < 2 ^ 32
  | MExtended _ => False
  | _ => True
  end.

Lemma length_frame id p : length (frame id p) = (5 + length p)%nat.
Proof. unfold frame. rewrite length_app, length_to_be_bytes. done. Qed.

Lemma write_preamble_spec pre post n id :
  length pre = 5%nat -> 0 <= n < 2 ^ 32 - 1 ->
  write_preamble (pre ++ post) n id = Ret (to_be_bytes 4 (n + 1) ++ id :: post).
Proof.
  intros Hp Hn. unfold write_preamble.
  rewrite wrap_id by (unfold is_uint; lia).
  do 5 (destruct pre as [|? pre]; [done|]). destruct pre; [|done].
  change ([z; z0; z1; z2; z3] ++ post) with ([z; z0; z1; z2] ++ z3 :: post).
  rewrite put_head by (by rewrite length_to_be_bytes). run.
  change (z3 :: post) with ([z3] ++ post).
  by rewrite put_spec by (by rewrite ?length_to_be_bytes).
Qed.

Lemma request_serialize_spec r a post :
  length a = 12%nat ->
  Request_serialize_unchecked_len r (a ++ post) = Ret (encode_request r ++ post).
Proof.
  intros Ha. unfold Request_serialize_unchecked_len, encode_request.
  destruct (buf_cut a 4) as (a1 & a' & -> & H1); [lia|]. rewrite length_app in Ha.
  destruct (buf_cut a' 4) as (a2 & a3 & -> & H2); [lia|]. rewrite length_app in Ha.
  rewrite <- !app_assoc, put_head by (rewrite length_to_be_bytes; lia). run.
  rewrite put_spec by (rewrite ?length_to_be_bytes; lia). run.
  rewrite (app_assoc (to_be_bytes 4 (req_index r))).
  rewrite put_spec by (rewrite ?length_app, ?length_to_be_bytes; lia).
  by rewrite <- !app_assoc.
Qed.

Lemma piece_serialize_spec p a post :
  length a = (8 + Piece_len p)%nat ->
  Piece_serialize_unchecked_len p (a ++ post) = Ret (encode_piece p ++ post).
Proof.
  intros Ha. unfold Piece_serialize_unchecked_len, encode_piece, Piece_len in *.
  destruct (buf_cut a 4) as (a1 & a' & -> & H1); [lia|]. rewrite length_app in Ha.
  destruct (buf_cut a' 4) as (a2 & a'' & -> & H2); [lia|]. rewrite length_app in Ha.
  destruct (buf_cut a'' (length (p_block_0 p))) as (a3 & a4 & -> & H3); [lia|].
  rewrite length_app in Ha.
  rewrite <- !app_assoc, put_head by (rewrite length_to_be_bytes; lia). run.
  rewrite put_spec by (rewrite ?length_to_be_bytes; lia). run.
  rewrite (app_assoc (to_be_bytes 4 (p_index p))).
  erewrite on_tail_spec; [by rewrite <- !app_assoc| |].
  { by rewrite length_app, !length_to_be_bytes. }
  rewrite put_head by lia. run.
  apply on_tail_spec; [done|]. apply put_head. lia.
Qed.

(** A frame whose payload is written by [k] behind the preamble. *)
Lemma write_frame_spec a post id payload n k :
  length a = length (frame id payload) -> Z.of_nat (length payload) = n -> n < 2 ^ 32 - 1 ->
  (forall a' post', length a' = length payload -> k (a' ++ post') = Ret (payload ++ post')) ->
  exists o, write_preamble (a ++ post) n id = Ret o /\ on_tail o 5 k = Ret (frame id payload ++ post).
Proof.
  intros Hla Hn Hlt Hk. rewrite length_frame in Hla.
  destruct (buf_cut a 5) as (a1 & a2 & -> & H1); [lia|]. rewrite length_app in Hla.
  rewrite <- app_assoc, write_preamble_spec by lia. eexists. split; [done|].
  change (id :: a2 ++ post) with ([id] ++ a2 ++ post). rewrite app_assoc.
  erewrite on_tail_spec; [|by rewrite length_app, length_to_be_bytes|apply Hk; lia].
  unfold frame. rewrite Hn. by rewrite <- !app_assoc.
Qed.

Lemma write_frame_put a post id payload n :
  length a = length (frame id payload) -> Z.of_nat (length payload) = n -> n < 2 ^ 32 - 1 ->
  exists o, write_preamble (a ++ post) n id = Ret o /\ put o 5 payload = Ret (frame id payload ++ post).
Proof.
  intros Hla Hn Hlt. rewrite length_frame in Hla.
  destruct (buf_cut a 5) as (a1 & a2 & -> & H1); [lia|]. rewrite length_app in Hla.
  rewrite <- app_assoc, write_preamble_spec by lia. eexists. split; [done|].
  change (id :: a2 ++ post) with ([id] ++ a2 ++ post). rewrite app_assoc.
  rewrite put_spec; [|by rewrite length_app, length_to_be_bytes|lia].
  unfold frame. rewrite Hn. by rewrite <- !app_assoc.
Qed.

Lemma ltb_ge_nat n m : (m <= n)%nat -> (n <? m)%nat = false.
Proof. apply Nat.ltb_ge. Qed.

Lemma serialize_request_spec a post id r :
  length a = length (frame id (encode_request r)) ->
  serialize_request (a ++ post) id r = XOk (frame id (encode_request r) ++ post, 17%nat).
Proof.
  intros Ha. pose proof Ha as Ha'. rewrite length_frame in Ha'.
  assert (length (encode_request r) = 12%nat) as H12
    by (unfold encode_request; by rewrite !length_app, !length_to_be_bytes).
  unfold serialize_request, check_len. rewrite ltb_ge_nat.
  2:{ rewrite length_app. unfold PREAMBLE_LEN, INTEGER_LEN. lia. }
  destruct (write_frame_spec a post id (encode_request r) 12 (Request_serialize_unchecked_len r))
    as (o & -> & Ho); [done|by rewrite H12|done| |].
  { intros a' post' Hl. apply request_serialize_spec. lia. }
  run. change PREAMBLE_LEN with 5%nat. by rewrite Ho.
Qed.

Lemma serialize_empty_spec a post id :
  length a = 5%nat -> serialize_empty (a ++ post) id = XOk (frame id [] ++ post, 5%nat).
Proof.
  intros Ha. unfold serialize_empty, check_len. rewrite ltb_ge_nat.
  2:{ rewrite length_app. unfold PREAMBLE_LEN. lia. }
  rewrite write_preamble_spec by (done || lia). cbn [mbind outcome_bind exec_of_outcome].
  unfold frame. by rewrite <- app_assoc.
Qed.

(** [serialize] writes exactly the wire format at the start of the buffer, and
    refuses a buffer that is too short. *)
Lemma serialize_encode m out ids :
  msg_wf m ->
  Message_serialize m out ids
  = if (length out <? length (encode m))%nat then XErr NoSpaceInBuffer
    else XOk (encode m ++ drop (length (encode m)) out, length (encode m)).
Proof.
  intros Hwf. destruct (Nat.ltb_spec (length out) (length (encode m))) as [Hlt|Hge].
  { destruct m; cbn [Message_serialize encode msg_wf] in *;
      unfold serialize_request, serialize_empty, check_len, PREAMBLE_LEN, INTEGER_LEN;
      rewrite ?length_frame in Hlt; unfold encode_request, encode_piece, Piece_len in *;
      rewrite ?length_app, ?length_to_be_bytes in Hlt; simpl length in *;
      try (rewrite (proj2 (Nat.ltb_lt _ _)) by lia; done); done. }
  destruct (buf_cut out (length (encode m))) as (a & post & -> & Ha); [lia|].
  rewrite <- Ha, drop_app_length, Ha. clear Hge.
  destruct m as [r|r|b| |v| | | | |p|e]; cbn [Message_serialize encode] in *;
    try (rewrite serialize_request_spec by done; done);
    try (rewrite serialize_empty_spec by done; done); try done.
  - destruct Hwf as (_ & _ & Hn). unfold check_len. rewrite ltb_ge_nat.
    2:{ rewrite length_app, Ha, length_frame. unfold PREAMBLE_LEN. lia. }
    rewrite wrap_id by (unfold is_uint; lia).
    change MSGID_BITFIELD with 5.
    destruct (write_frame_put a post 5 b (Z.of_nat (length b))) as (o & -> & Ho); [done|done|lia|].
    run. change PREAMBLE_LEN with 5%nat. rewrite Ho, length_frame. done.
  - unfold check_len. rewrite ltb_ge_nat by (rewrite length_app, Ha, length_to_be_bytes; lia).
    by rewrite put_head by (by rewrite length_to_be_bytes).
  - unfold check_len, PREAMBLE_LEN, INTEGER_LEN. rewrite ltb_ge_nat.
    2:{ rewrite length_app, Ha, length_frame, length_to_be_bytes. lia. }
    change MSGID_HAVE with 4.
    destruct (write_frame_put a post 4 (to_be_bytes 4 v) 4) as (o & -> & Ho); [done..|].
    run. by rewrite Ho.
  - destruct Hwf as (_ & _ & _ & _ & _ & Hn).
    assert (length (encode_piece p) = (8 + Piece_len p)%nat) as Hlp.
    { unfold encode_piece, Piece_len. rewrite !length_app, !length_to_be_bytes. lia. }
    unfold check_len, INTEGER_LEN, PREAMBLE_LEN. rewrite ltb_ge_nat.
    2:{ rewrite length_app, Ha, length_frame. lia. }
    rewrite wrap_id by (unfold is_uint; lia).
    change MSGID_PIECE with 7.
    destruct (write_frame_spec a post 7 (encode_piece p) (Z.of_nat (4 * 2 + Piece_len p))
      (Piece_serialize_unchecked_len p)) as (o & -> & Ho); [done|lia|lia| |].
    { intros a' post' Hl. apply piece_serialize_spec. lia. }
    run. rewrite Ho, length_frame, Hlp. done.
Qed.
End Wire.

Section Reading.
Context `{ExtCodec}.

(** The two slices behind the five bytes of the preamble. *)
Definition after_preamble (b0 b1 : bytes) : DoubleBuf :=
  mkDB (drop 5 b0) (drop (5 - length b0) b1).

Lemma deserialize_frame b0 b1 id payload rest :
  b0 ++ b1 = frame id payload ++ rest -> Z.of_nat (length payload) + 1 < 2 ^ 32 ->
  Message_deserialize b0 b1
  = deserialize_body (after_preamble b0 b1) (Z.of_nat (length payload) + 1) id
  /\ db_bytes (after_preamble b0 b1) = payload ++ rest.
Proof.
  intros Hb Hlen. unfold frame in Hb. rewrite <- app_assoc in Hb.
  unfold Message_deserialize.
  destruct (read_u32_be_ok (Z.of_nat (length payload) + 1) (mkDB b0 b1) _
    ltac:(unfold is_uint; lia) Hb) as (d1 & -> & Hd1 & H10 & H11).
  cbn [fst snd]. destruct (Z.eqb_spec (Z.of_nat (length payload) + 1) 0); [lia|].
  destruct (read_u8_ok id d1 _ Hd1) as (d2 & -> & Hd2 & H20 & H21).
  assert (d2 = after_preamble b0 b1) as ->.
  { destruct d2 as [x y]. cbn in *. subst x y. rewrite H10, H11. unfold after_preamble. cbn.
    rewrite length_drop, !drop_drop. f_equal. f_equal. lia. }
  rewrite <- length_db_bytes, Hd2, length_app.
  destruct (Z.ltb_spec (Z.of_nat (length payload + length rest))
    (Z.of_nat (length payload) + 1 - 1)); [lia|]. done.
Qed.

(** The same message, up to where its block is cut in two. *)
Definition msg_equiv (m m' : Message) : Prop :=
  match m, m' with
  | MPiece p, MPiece p' =>
    p_index p = p_index p' /\ p_begin p = p_begin p'
    /\ p_block_0 p ++ p_block_1 p = p_block_0 p' ++ p_block_1 p'
  | MExtended e, MExtended e' => ext_equiv e e'
  | _, _ => m = m'
  end.

(** Where the wire bytes may be cut for the message to be readable. *)
Definition cut_ok (m : Message) (k n : nat) : Prop :=
  match m with
  | MBitfield _ | MExtended _ => (k <= 5)%nat \/ (n <= k)%nat
  | _ => True
  end.

Lemma take_be_app x rest : take 4 (to_be_bytes 4 x ++ rest) = to_be_bytes 4 x.
Proof. apply take_app_length'. by rewrite length_to_be_bytes. Qed.

Lemma drop_be_app x rest : drop 4 (to_be_bytes 4 x ++ rest) = rest.
Proof. apply drop_app_length'. by rewrite length_to_be_bytes. Qed.

Lemma deserialize_request_body d r rest id :
  id = 6 \/ id = 8 -> request_wf r -> db_bytes d = encode_request r ++ rest ->
  deserialize_body d 13 id = XOk (if id =? 6 then MRequest r else MCancel r, 17).
Proof.
  intros Hid (H1 & H2 & H3) Hd.
  assert (length (encode_request r) = 12%nat) as H12
    by (unfold encode_request; by rewrite !length_app, !length_to_be_bytes).
  destruct (consume_ok 12 d) as (d' & Hc & _ & _ & _); [rewrite Hd, length_app; lia|].
  assert (take 12 (db_bytes d) = encode_request r) as Ht
    by (rewrite Hd; by apply take_app_length').
  assert (deserialize_body d 13 id
    = (r ← unwrap_read (consume 12 d);
       let req := r.1 in
       let request := mkRequest (from_be_bytes (take 4 req))
                        (from_be_bytes (take 4 (drop 4 req)))
                        (from_be_bytes (take 4 (drop 8 req))) in
       XOk (if id =? 6 then MRequest request else MCancel request, 17))) as ->
    by (by destruct Hid as [-> | ->]).
  rewrite Hc, Ht. cbn [unwrap_read mbind exec_bind fst]. unfold encode_request.
  change 8%nat with (4 + 4)%nat. rewrite <- (drop_drop _ 4 4).
  rewrite !take_be_app, !drop_be_app, take_be_app, (take_ge (to_be_bytes 4 (req_length r)))
    by (by rewrite length_to_be_bytes).
  rewrite !from_to_u32 by done. by destruct r.
Qed.

Lemma deserialize_piece_body d p rest :
  msg_wf (MPiece p) -> db_bytes d = encode_piece p ++ rest ->
  exists p', deserialize_body d (Z.of_nat (Piece_len p) + 9) 7
             = XOk (MPiece p', Z.of_nat (Piece_len p) + 13)
    /\ msg_equiv (MPiece p) (MPiece p').
Proof.
  intros (H1 & H2 & _ & _ & Hpos & Hlen) Hd. unfold encode_piece in Hd. rewrite <- !app_assoc in Hd.
  destruct (read_u32_be_ok _ _ _ H1 Hd) as (d1 & E1 & Hd1 & _).
  destruct (read_u32_be_ok _ _ _ H2 Hd1) as (d2 & E2 & Hd2 & _).
  rewrite (app_assoc (p_block_0 p)) in Hd2.
  destruct (consume_variable_ok (Piece_len p) d2) as (r0 & r1 & d3 & E3 & Hr).
  { rewrite Hd2, !length_app. unfold Piece_len. lia. }
  exists (mkPiece (p_index p) (p_begin p) r0 r1). split.
  - unfold deserialize_body. cbn [Z.eqb MSGID_CHOKE MSGID_UNCHOKE MSGID_INTERESTED
      MSGID_NOT_INTERESTED MSGID_HAVE MSGID_BITFIELD MSGID_REQUEST MSGID_CANCEL MSGID_PIECE orb].
    destruct (Z.ltb_spec (Z.of_nat (Piece_len p) + 9 - 1) 9); [lia|].
    rewrite E1. cbn [unwrap_read mbind exec_bind fst snd]. rewrite E2.
    cbn [unwrap_read mbind exec_bind fst snd].
    replace (Z.to_nat (Z.of_nat (Piece_len p) + 9 - 1 - 8)) with (Piece_len p) by lia.
    rewrite E3. cbn [unwrap_read mbind exec_bind fst snd]. do 2 f_equal. lia.
  - split_and!; try done. cbn. rewrite Hr, Hd2. symmetry. apply take_app_length'.
    rewrite length_app. done.
Qed.

Lemma deserialize_bitfield_body b0 b1 b rest :
  (0 < length b)%nat -> b0 ++ b1 = frame 5 b ++ rest ->
  (length b0 <= 5)%nat \/ (length (frame 5 b) <= length b0)%nat ->
  db_bytes (after_preamble b0 b1) = b ++ rest ->
  deserialize_body (after_preamble b0 b1) (Z.of_nat (length b) + 1) 5
  = XOk (MBitfield b, Z.of_nat (length b) + 5).
Proof.
  intros Hpos Hb Hcut Hd. unfold deserialize_body, check_msg_len.
  cbn [Z.eqb MSGID_CHOKE MSGID_UNCHOKE MSGID_INTERESTED MSGID_NOT_INTERESTED MSGID_HAVE
    MSGID_BITFIELD].
  destruct (Z.leb_spec 1 (Z.of_nat (length b) + 1 - 1)); [|lia].
  replace (Z.to_nat (Z.of_nat (length b) + 1 - 1)) with (length b) by lia.
  pose proof (get_contiguous_spec (after_preamble b0 b1) (length b)) as Hg.
  destruct (get_contiguous _ _) as [data|].
  - destruct Hg as [_ ->]. rewrite Hd, take_app_length. do 2 f_equal. lia.
  - exfalso. destruct Hg as [Hg1 Hg2]. rewrite length_frame in Hcut. cbn in Hg1.
    rewrite length_drop in Hg1. destruct Hcut as [Hk|Hk]; [|lia].
    specialize (Hg2 (drop_ge _ _ Hk)). rewrite <- length_db_bytes, Hd, length_app in Hg2. lia.
Qed.

(** A bitfield that straddles the two slices asks for a contiguous buffer. *)
Lemma deserialize_bitfield_cut b0 b1 b rest :
  Z.of_nat (length b) + 1 < 2 ^ 32 -> b0 ++ b1 = frame 5 b ++ rest ->
  (5 < length b0 < length (frame 5 b))%nat ->
  Message_deserialize b0 b1 = XErr NeedContiguous.
Proof.
  intros Hlen Hb Hcut. rewrite length_frame in Hcut.
  destruct (deserialize_frame b0 b1 5 b rest Hb Hlen) as [-> Hd].
  unfold deserialize_body, check_msg_len.
  cbn [Z.eqb MSGID_CHOKE MSGID_UNCHOKE MSGID_INTERESTED MSGID_NOT_INTERESTED MSGID_HAVE
    MSGID_BITFIELD].
  destruct (Z.leb_spec 1 (Z.of_nat (length b) + 1 - 1)); [|lia].
  replace (Z.to_nat (Z.of_nat (length b) + 1 - 1)) with (length b) by lia.
  assert (get_contiguous (after_preamble b0 b1) (length b) = None) as ->; [|done].
  unfold get_contiguous, after_preamble. cbn [buf_0 buf_1]. rewrite length_drop.
  destruct (Nat.leb_spec (length b) (length b0 - 5)); [lia|].
  by destruct (Nat.eqb_spec (length b0 - 5) 0); [lia|].
Qed.

(** Reads the preamble of a frame that is cut at [k]. *)
Ltac read_frame :=
  match goal with
  | |- context [Message_deserialize (take ?k (frame ?id ?pl ++ ?rest)) _] =>
    let Hd := fresh "Hd" in
    destruct (deserialize_frame (take k (frame id pl ++ rest)) (drop k (frame id pl ++ rest))
      id pl rest) as [-> Hd]; [apply take_drop| |]
  end.

Lemma deserialize_encode m k rest :
  msg_wf m -> cut_ok m k (length (encode m)) ->
  let w := encode m ++ rest in
  exists m', Message_deserialize (take k w) (drop k w) = XOk (m', Z.of_nat (length (encode m)))
    /\ msg_equiv m m'.
Proof.
  intros Hwf Hcut. cbn zeta.
  assert (Hreq : forall r, length (encode_request r) = 12%nat)
    by (intros; unfold encode_request; by rewrite !length_app, !length_to_be_bytes).
  destruct m as [r|r|b| |v| | | | |p|e]; try done; cbn [encode] in *.
  - read_frame; rewrite ?length_frame, !Hreq; [done|].
    exists (MRequest r). split; [|done]. by apply (deserialize_request_body _ r rest 6); [left|..].
  - read_frame; rewrite ?length_frame, !Hreq; [done|].
    exists (MCancel r). split; [|done]. by apply (deserialize_request_body _ r rest 8); [right|..].
  - destruct Hwf as (_ & Hpos & Hlen). read_frame; [lia|]. exists (MBitfield b). split; [|done].
    rewrite length_frame, (deserialize_bitfield_body _ _ b rest); try done.
    + do 2 f_equal. lia.
    + apply take_drop.
    + cbn in Hcut. rewrite length_take, length_app, length_frame in *. lia.
  - exists MKeepAlive. split; [|done]. unfold Message_deserialize.
    destruct (read_u32_be_ok 0 (mkDB (take k (to_be_bytes 4 0 ++ rest)) (drop k (to_be_bytes 4 0 ++ rest)))
      rest) as (d & -> & _); [done|apply take_drop|done].
  - read_frame; rewrite ?length_frame, ?length_to_be_bytes; [done|].
    exists (MHave v). split; [|done]. destruct (read_u32_be_ok _ _ _ Hwf Hd) as (d & E & _).
    transitivity (r ← unwrap_read (read_u32_be (after_preamble
      (take k (frame 4 (to_be_bytes 4 v) ++ rest)) (drop k (frame 4 (to_be_bytes 4 v) ++ rest))));
      XOk (E := MessageDeserializeError ExtDeError) (MHave r.1, 9)); [done|]. by rewrite E.
  - read_frame; [done|]. by exists MChoke.
  - read_frame; [done|]. by exists MUnchoke.
  - read_frame; [done|]. by exists MInterested.
  - read_frame; [done|]. by exists MNotInterested.
  - assert (length (encode_piece p) = (8 + Piece_len p)%nat) as Hlp.
    { unfold encode_piece, Piece_len. rewrite !length_app, !length_to_be_bytes. lia. }
    read_frame; rewrite ?length_frame, Hlp.
    { destruct Hwf as (_ & _ & _ & _ & _ & Hlen). lia. }
    destruct (deserialize_piece_body _ p rest Hwf Hd) as (p' & Hp & Heq). exists (MPiece p').
    split; [|done]. replace (Z.of_nat (8 + Piece_len p) + 1) with (Z.of_nat (Piece_len p) + 9) by lia.
    rewrite Hp. do 2 f_equal. lia.
Qed.

(** The frame that [serialize] leaves for an extended message. *)
Lemma serialize_extended e out ids out' n :
  ext_ok e ids -> Message_serialize (MExtended e) out ids = XOk (out', n) -> Z.of_nat n < 2 ^ 32 ->
  exists body, take n out' = frame 20 body /\ n = (5 + length body)%nat
    /\ (exists e', ext_deserialize (mkDB body []) = XOk e' /\ ext_equiv e e')
    /\ (exists e', ext_deserialize (mkDB [] body) = XOk e' /\ ext_equiv e e').
Proof.
  cbn [Message_serialize]. unfold check_len. intros Hok Hs Hn.
  destruct (Nat.ltb_spec (length out) (PREAMBLE_LEN + 2)) as [|Hlen]; [done|].
  change PREAMBLE_LEN with 5%nat in *.
  destruct (ext_serialize e (drop 5 out) ids) as [[tail len]|er|] eqn:E; [|done..]. cbn [mbind exec_bind] in Hs.
  destruct (ext_serialize_fits _ _ _ _ _ E) as [Hl1 Hl2].
  destruct (ext_roundtrip _ _ _ _ _ Hok E) as [Hr1 Hr2]. rewrite length_drop in *.
  rewrite (wrap_id 32) in Hs.
  2:{ unfold is_uint. split; [lia|]. destruct (write_preamble _ _ _); [|done].
      injection Hs as _ <-. lia. }
  assert (Z.of_nat len + 5 < 2 ^ 32) as Hlt.
  { destruct (write_preamble _ _ _); [|done]. injection Hs as _ <-. lia. }
  rewrite write_preamble_spec in Hs by (rewrite ?length_take; lia).
  remember (to_be_bytes 4 (Z.of_nat len + 1)) as pre eqn:Hpre. injection Hs as <- <-.
  exists (take len tail). rewrite length_take, Nat.min_l by lia.
  split_and!; try done. unfold frame. rewrite length_take, Nat.min_l, <- Hpre by lia.
  assert (length pre = 4%nat) as Hlp by (rewrite Hpre; apply length_to_be_bytes).
  rewrite take_app, take_ge, Hlp by lia.
  done.
Qed.

Lemma deserialize_extended body e k rest :
  (exists e', ext_deserialize (mkDB body []) = XOk e' /\ ext_equiv e e') ->
  (exists e', ext_deserialize (mkDB [] body) = XOk e' /\ ext_equiv e e') ->
  Z.of_nat (length body) + 1 < 2 ^ 32 -> (k <= 5)%nat \/ (5 + length body <= k)%nat ->
  let w := frame 20 body ++ rest in
  exists e', Message_deserialize (take k w) (drop k w) = XOk (MExtended e', Z.of_nat (5 + length body))
    /\ ext_equiv e e'.
Proof.
  intros H1 H2 Hlen Hcut. cbn zeta. read_frame; [lia|].
  set (d := after_preamble _ _) in *.
  assert (with_max_len d (length body) = mkDB body [] \/ with_max_len d (length body) = mkDB [] body)
    as Hw.
  { pose proof (f_equal length Hd) as Hl. rewrite length_db_bytes, length_app in Hl.
    unfold db_bytes, db_len, with_max_len in *. unfold d, after_preamble in *. cbn [buf_0 buf_1] in *.
    destruct Hcut as [Hk|Hk].
    - right. rewrite (drop_ge (take k _) 5) in * by (rewrite length_take; lia). simpl in *.
      rewrite Hd, Nat.sub_0_r, Nat.min_l by (rewrite length_app; lia). by rewrite take_app_length.
    - left. destruct (decide (length body + length rest = 0)%nat) as [Hz|Hz].
      { assert (length body = 0%nat) as Hb by lia. apply nil_length_inv in Hb as ->.
        by rewrite Nat.min_0_r, !take_0. }
      assert (length body <= length (drop 5 (take k (frame 20 body ++ rest))))%nat as Hle.
      { rewrite length_drop, length_take, length_app, length_frame. lia. }
      rewrite Nat.min_r, Nat.sub_diag, Nat.min_0_l, take_0 by lia.
      match type of Hd with ?x ++ ?y = _ => rewrite <- (take_app_le x y (length body) Hle) end.
      by rewrite Hd, take_app_length. }
  unfold deserialize_body. cbn [Z.eqb Pos.eqb MSGID_CHOKE MSGID_UNCHOKE MSGID_INTERESTED
    MSGID_NOT_INTERESTED MSGID_HAVE MSGID_BITFIELD MSGID_REQUEST MSGID_CANCEL MSGID_PIECE
    MSGID_EXTENDED orb].
  replace (Z.to_nat (Z.of_nat (length body) + 1 - 1)) with (length body) by lia.
  assert (exists e', ext_deserialize (with_max_len d (length body)) = XOk e' /\ ext_equiv e e')
    as (e' & -> & He) by (destruct Hw as [-> | ->]; done).
  exists e'. split; [|done]. cbn [mbind exec_bind]. do 2 f_equal. unfold PREAMBLE_LEN. lia.
Qed.
End Reading.

(** ** Properties *)

(** A codec of one-byte bodies, for the witnesses. *)
Definition byte_codec_serialize (e : Z) (buf : bytes) (ids : unit)
    : exec (SerializeError unit) (bytes * nat) :=
  match buf with
  | [] => XErr NoSpaceInBuffer
  | _ :: r => XOk (e :: r, 1%nat)
  end.

Definition byte_codec_deserialize (d : DoubleBuf) : exec (MessageDeserializeError unit) Z :=
  match db_bytes d with
  | [e] => XOk e
  | _ => XErr NeedContiguous
  end.

Definition byte_codec : ExtCodec.
Proof.
  refine {| Ext := Z; ExtIds := unit; ExtSerError := unit; ExtDeError := unit;
            ext_serialize := byte_codec_serialize; ext_deserialize := byte_codec_deserialize;
            ext_ok := fun _ _ => True; ext_equiv := eq |}.
  - intros d. unfold byte_codec_deserialize. by repeat case_match.
  - intros e [|b buf] [] buf' n; [done|]. intros [= <- <-]. simpl. split; [done|lia].
  - intros e [|b buf] [] buf' n _; [done|]. intros [= <- <-]. split; by exists e.
Defined.

(** C12: what [Message::serialize] writes, [Message::deserialize] reads back, with
    the number of bytes consumed equal to the number written, whatever follows
    in the buffer.  The receive ring may cut the bytes in two anywhere, except in
    the payload of a bitfield or an extended message, which has to be in one
    slice; a bitfield that is cut is answered with [NeedContiguous].  Messages of
    all kinds are covered; bitfields and blocks of pieces are not empty (those are
    written, but refused by the reader, see [empty_payloads_refused]), and extended
    messages are those the codec can read back. *)
Theorem message_roundtrip `{ExtCodec} (m : Message) (out : bytes) (ids : ExtIds)
    (out' : bytes) (n : nat) (rest : bytes) (k : nat) :
  match m with MExtended e => ext_ok e ids | _ => msg_wf m end ->
  Message_serialize m out ids = XOk (out', n) -> Z.of_nat n < 2 ^ 32 ->
  let w := take n out' ++ rest in
  (cut_ok m k n ->
   exists m', Message_deserialize (take k w) (drop k w) = XOk (m', Z.of_nat n) /\ msg_equiv m m')
  /\ (forall b, m = MBitfield b -> ~ cut_ok m k n ->
       Message_deserialize (take k w) (drop k w) = XErr NeedContiguous).
Proof.
  intros Hwf Hs Hn. cbn zeta.
  assert (msg_wf m \/ exists e, m = MExtended e /\ ext_ok e ids) as [Hwf'|(e & -> & Hok)]
    by (destruct m; try (by left); right; by eexists).
  - rewrite serialize_encode in Hs by done.
    destruct (length out <? length (encode m))%nat; [done|]. injection Hs as <- <-.
    rewrite take_app_length. split; [by apply deserialize_encode|]. intros b -> Hcut.
    destruct Hwf' as (_ & _ & Hlen). cbn [encode cut_ok] in *. rewrite length_frame in Hcut.
    apply (deserialize_bitfield_cut _ _ b rest); [lia|apply take_drop|].
    rewrite length_take, length_app, length_frame. lia.
  - split; [|done]. intros Hcut.
    destruct (serialize_extended e out ids out' n Hok Hs Hn) as (body & -> & -> & H1 & H2).
    destruct (deserialize_extended body e k rest H1 H2 ltac:(lia) Hcut) as (e' & ? & ?). by exists (MExtended e').
Qed.

Lemma message_roundtrip_witness :
  (exists m', Message_deserialize (H := byte_codec) [0; 0; 0; 12; 7; 0; 0; 0; 1; 0]
               [0; 64; 0; 10; 11; 12; 99]
             = XOk (m', 16) /\ msg_equiv (MPiece (mkPiece 1 16384 [10; 11; 12] [])) m')
  /\ Message_deserialize (H := byte_codec) [0; 0; 0; 3; 5; 255] [128] = XErr NeedContiguous.
Proof.
  split.
  - apply (@message_roundtrip byte_codec (MPiece (mkPiece 1 16384 [10; 11; 12] [])) (replicate 20 0) tt
      ([0; 0; 0; 12; 7; 0; 0; 0; 1; 0; 0; 64; 0; 10; 11; 12] ++ replicate 4 0) 16 [99] 10).
    + cbn. split_and!; try done; repeat constructor; done.
    + vm_compute. reflexivity.
    + done.
    + done.
  - apply (@message_roundtrip byte_codec (MBitfield [255; 128]) (replicate 7 0) tt [0; 0; 0; 3; 5; 255; 128] 7 [] 6) with (b := [255; 128]).
    + cbn. split_and!; try done; [repeat constructor; done|lia].
    + vm_compute. reflexivity.
    + done.
    + done.
    + cbn. lia.
Defined.

(** An empty bitfield and a piece without a block are written, but not read. *)
Lemma empty_payloads_refused :
  (exists out', Message_serialize (H := byte_codec) (MBitfield []) (replicate 5 0) tt = XOk (out', 5%nat)
    /\ Message_deserialize (H := byte_codec) out' [] = XErr (IncorrectMsgLen 0 1 5))
  /\ (exists out', Message_serialize (H := byte_codec) (MPiece (mkPiece 1 0 [] [])) (replicate 13 0) tt = XOk (out', 13%nat)
    /\ Message_deserialize (H := byte_codec) out' [] = XErr (IncorrectMsgLen 8 9 7)).
Proof. split; [exists [0; 0; 0; 1; 5]|exists [0; 0; 0; 9; 7; 0; 0; 0; 1; 0; 0; 0; 0]]; split; reflexivity. Qed.

(** [Message::serialize] puts exactly the BEP 3 encoding of the message at the
    front of the buffer, leaves the rest of the buffer alone, reports its
    length, and reports [NoSpaceInBuffer] exactly when it does not fit. *)
Theorem message_serialize_wire `{ExtCodec} (m : Message) (out : bytes) (ids : ExtIds) :
  msg_wf m ->
  Message_serialize m out ids
  = if (length out <? length (encode m))%nat then XErr NoSpaceInBuffer
    else XOk (encode m ++ drop (length (encode m)) out, length (encode m)).
Proof. apply serialize_encode. Qed.

Lemma message_serialize_wire_witness :
  Message_serialize (H := byte_codec) (MHave 258) (replicate 9 0) tt
  = XOk ([0; 0; 0; 5; 4; 0; 0; 1; 2], 9%nat).
Proof.
  rewrite (@message_serialize_wire byte_codec (MHave 258) (replicate 9 0) tt); [reflexivity|done].
Defined.

(** The number of bytes the frame at the front of [w] takes, as far as it is known. *)
Definition frame_need (w : bytes) : Z :=
  if (length w <? 4)%nat then 4 else from_be_bytes (take 4 w) + 4.

Lemma read_u32_be_split d :
  is_bytes (db_bytes d) ->
  (length (db_bytes d) < 4)%nat /\ read_u32_be d = Err (4 - length (db_bytes d))%nat
  \/ (4 <= length (db_bytes d))%nat /\ is_u32 (from_be_bytes (take 4 (db_bytes d)))
     /\ exists d', read_u32_be d = Ok (from_be_bytes (take 4 (db_bytes d)), d')
        /\ db_bytes d' = drop 4 (db_bytes d).
Proof.
  intros Hb. destruct (decide (length (db_bytes d) < 4)%nat).
  - left. split; [done|]. unfold read_u32_be. by rewrite consume_short.
  - right. split; [lia|]. destruct (consume_ok 4 d) as (d' & E & Hd' & _ & _); [lia|]. split.
    + pose proof (from_be_bytes_range (take 4 (db_bytes d)) (Forall_take _ _ _ Hb)) as Hr.
      rewrite length_take, Nat.min_l in Hr by lia. exact Hr.
    + exists d'. unfold read_u32_be. rewrite E. done.
Qed.

Lemma deserialize_body_total `{ExtCodec} d len_prefix msg_id :
  is_bytes (db_bytes d) -> 0 < len_prefix -> len_prefix - 1 <= Z.of_nat (length (db_bytes d)) ->
  deserialize_body d len_prefix msg_id <> XPanic
  /\ (msg_id <> 20 -> forall r i, deserialize_body d len_prefix msg_id <> XErr (NotEnoughData r i)).
Proof.
  intros Hb Hlp Hlen. unfold deserialize_body, check_msg_len.
  repeat (match goal with |- context [msg_id =? ?x] => destruct (Z.eqb_spec msg_id x) end; simpl);
    try (by destruct (len_prefix - 1 =? 0)).
  - destruct (Z.eqb_spec (len_prefix - 1) 4); [|done].
    destruct (read_u32_be_split d Hb) as [[? _]|(_ & _ & d' & -> & _)]; [lia|done].
  - destruct (1 <=? len_prefix - 1); [|done]. by destruct (get_contiguous _ _).
  - destruct (Z.eqb_spec (len_prefix - 1) 12); [|done].
    destruct (consume_ok 12 d) as (d' & -> & _); [lia|done].
  - destruct (Z.eqb_spec (len_prefix - 1) 12); [|done].
    destruct (consume_ok 12 d) as (d' & -> & _); [lia|done].
  - destruct (Z.ltb_spec (len_prefix - 1) 9); [done|].
    destruct (read_u32_be_split d Hb) as [[? _]|(_ & _ & d1 & E1 & Hd1)]; [lia|].
    rewrite E1. cbn [unwrap_read mbind exec_bind fst snd].
    assert (is_bytes (db_bytes d1)) as Hb1 by (rewrite Hd1; by apply Forall_drop).
    destruct (read_u32_be_split d1 Hb1) as [[Hs _]|(_ & _ & d2 & E2 & Hd2)].
    { rewrite Hd1, length_drop in Hs. lia. }
    rewrite E2. cbn [unwrap_read mbind exec_bind fst snd].
    destruct (consume_variable_ok (Z.to_nat (len_prefix - 1 - 8)) d2) as (r0 & r1 & d3 & -> & _);
      [|done]. rewrite Hd2, Hd1, !length_drop. lia.
  - split; [|done]. pose proof (ext_deserialize_total (with_max_len d (Z.to_nat (len_prefix - 1)))).
    by destruct (ext_deserialize _).
Qed.

Lemma deserialize_incremental_spec `{ExtCodec} (b0 b1 : bytes) :
  is_bytes (b0 ++ b1) ->
  let w := b0 ++ b1 in
  Message_deserialize b0 b1 <> XPanic
  /\ (Z.of_nat (length w) < frame_need w ->
        exists id, Message_deserialize b0 b1
                   = XErr (NotEnoughData (frame_need w - Z.of_nat (length w)) id))
  /\ (frame_need w <= Z.of_nat (length w) -> nth 4 w 0 <> 20 ->
        forall r id, Message_deserialize b0 b1 <> XErr (NotEnoughData r id)).
Proof.
  intros Hb. cbn zeta. unfold frame_need, Message_deserialize.
  destruct (read_u32_be_split (mkDB b0 b1) Hb) as [[Hs ->]|(Hs & Hu & d1 & -> & Hd1)];
    unfold db_bytes in Hs; cbn [buf_0 buf_1] in Hs.
  - rewrite (proj2 (Nat.ltb_lt _ _)) by done. cbn [db_bytes buf_0 buf_1]. split_and!; [done| |lia].
    intros _. exists None. do 2 f_equal. unfold db_bytes. cbn. lia.
  - rewrite (ltb_ge_nat (length (b0 ++ b1)) 4) by done.
    unfold db_bytes in Hu, Hd1. cbn [buf_0 buf_1] in Hu, Hd1.
    change (db_bytes (mkDB b0 b1)) with (b0 ++ b1).
    set (w := b0 ++ b1) in *. set (L := from_be_bytes (take 4 w)) in *. unfold is_uint in Hu.
    destruct (Z.eqb_spec L 0) as [E0|E0]; [split_and!; [done|lia|done]|].
    fold (db_bytes d1) in Hd1.
    pose proof (read_u8_spec d1) as H8. destruct (read_u8 d1) as [[id d2]|].
    2:{ rewrite Hd1 in H8. apply (f_equal length) in H8. rewrite length_drop in H8. simpl in H8.
        split_and!; [done| |lia]. intros _. exists None. do 2 f_equal. lia. }
    rewrite Hd1 in H8. pose proof (f_equal length H8) as Hl. rewrite length_drop in Hl. simpl in Hl.
    rewrite <- length_db_bytes.
    assert (is_bytes (db_bytes d2)) as Hb2.
    { apply (Forall_drop _ 4) in Hb. rewrite H8 in Hb. by inversion Hb. }
    assert (nth 4 w 0 = id) as Hid.
    { rewrite <- (take_drop 4 w), app_nth2; rewrite length_take, Nat.min_l by lia; [|lia].
      by rewrite H8. }
    destruct (Z.ltb_spec (Z.of_nat (length (db_bytes d2))) (L - 1)).
    + split_and!; [done| |lia]. intros _. exists (Some id). do 2 f_equal. lia.
    + destruct (deserialize_body_total d2 L id) as [Hp Hne]; [done|lia|lia|].
      split_and!; [done|lia|]. intros _ Hn. apply Hne. congruence.
Qed.

(** C22: reading never panics on bytes from the network; as long as a frame is
    incomplete the reader asks for exactly the missing bytes (for the length
    prefix first), and once it is complete it never asks for more. *)
Theorem deserialize_incremental `{ExtCodec} (b0 b1 : bytes) :
  is_bytes (b0 ++ b1) ->
  let w := b0 ++ b1 in
  Message_deserialize b0 b1 <> XPanic
  /\ (Z.of_nat (length w) < frame_need w ->
        exists id, Message_deserialize b0 b1
                   = XErr (NotEnoughData (frame_need w - Z.of_nat (length w)) id))
  /\ (frame_need w <= Z.of_nat (length w) -> nth 4 w 0 <> 20 ->
        forall r id, Message_deserialize b0 b1 <> XErr (NotEnoughData r id)).
Proof. apply deserialize_incremental_spec. Qed.

Lemma deserialize_incremental_witness :
  Message_deserialize (H := byte_codec) [0; 0] [0; 5; 4] <> XPanic
  /\ Message_deserialize (H := byte_codec) [0; 0] [0; 5; 4]
     = XErr (NotEnoughData 4 (Some 4)).
Proof.
  destruct (@deserialize_incremental byte_codec [0; 0] [0; 5; 4]) as (Hp & _ & _).
  - by repeat constructor.
  - split; [exact Hp|reflexivity].
Defined.

(** A handshake that was written is read back from any 68 bytes or more, its
    extension bit is seen by [supports_extended], and a short, foreign or
    mislabelled handshake is refused with the matching error. *)
Theorem handshake_roundtrip {E} (h : Handshake) (buf rest : bytes) :
  is_u64 (hs_reserved h) -> length (hs_info_hash h) = 20%nat -> length (hs_peer_id h) = 20%nat ->
  length buf = 68%nat ->
  (exists w, Handshake_serialize_unchecked_len h buf = Ret (w, 68%nat)
     /\ Handshake_deserialize (E := E) (w ++ rest) = XOk (h, 68%nat)
     /\ forall k, (k < 68)%nat ->
          Handshake_deserialize (E := E) (take k w)
          = XErr (NotEnoughData (68 - Z.of_nat k) None))
  /\ supports_extended (Handshake_new (hs_info_hash h) (hs_peer_id h)) = Ret true.
Proof.
  intros Hr Hi Hp Hb. split; [|reflexivity].
  set (w := [19] ++ PSTR_BT1 ++ to_be_bytes 8 (hs_reserved h) ++ hs_info_hash h ++ hs_peer_id h).
  assert (length w = 68%nat) as Hlw
    by (unfold w; rewrite !length_app, length_to_be_bytes, Hi, Hp; done).
  exists w. split_and!.
  - unfold Handshake_serialize_unchecked_len.
    destruct (buf_cut buf 1) as (a1 & r1 & -> & H1); [lia|]. rewrite length_app in Hb.
    destruct (buf_cut r1 19) as (a2 & r2 & -> & H2); [lia|]. rewrite length_app in Hb.
    destruct (buf_cut r2 8) as (a3 & r3 & -> & H3); [lia|]. rewrite length_app in Hb.
    destruct (buf_cut r3 20) as (a4 & a5 & -> & H4); [lia|]. rewrite length_app in Hb.
    rewrite put_head by done. run.
    rewrite put_spec by done. run.
    rewrite (app_assoc [19]), put_spec by (rewrite ?length_to_be_bytes; done).
    run.
    rewrite (app_assoc ([19] ++ PSTR_BT1)).
    rewrite put_spec by (rewrite ?length_app, ?length_to_be_bytes; simpl; lia).
    run.
    rewrite (app_assoc (([19] ++ PSTR_BT1) ++ _)), <- (app_nil_r a5).
    rewrite put_spec by (rewrite ?length_app, ?length_to_be_bytes; simpl; lia).
    run. rewrite app_nil_r. unfold w. by rewrite <- !app_assoc.
  - unfold Handshake_deserialize. change HANDSHAKE_LEN with 68%nat.
    rewrite ltb_ge_nat by (rewrite length_app, Hlw; lia).
    assert (Hw : w ++ rest = ([19] ++ PSTR_BT1) ++ to_be_bytes 8 (hs_reserved h)
              ++ hs_info_hash h ++ hs_peer_id h ++ rest) by (unfold w; by rewrite <- !app_assoc).
    rewrite Hw. cbn [exec_of_outcome index mbind exec_bind app lookup list_lookup].
    change (negb (19 =? Z.of_nat (length PSTR_BT1))) with false.
    rewrite bool_decide_eq_true_2 by reflexivity. cbn [negb].
    assert (H28 : drop 28 (([19] ++ PSTR_BT1) ++ to_be_bytes 8 (hs_reserved h)
       ++ hs_info_hash h ++ hs_peer_id h ++ rest) = hs_info_hash h ++ hs_peer_id h ++ rest).
    { rewrite app_assoc. apply drop_app_length'. by rewrite length_app, length_to_be_bytes. }
    assert (H48 : drop 48 (([19] ++ PSTR_BT1) ++ to_be_bytes 8 (hs_reserved h)
       ++ hs_info_hash h ++ hs_peer_id h ++ rest) = hs_peer_id h ++ rest).
    { change 48%nat with (28 + 20)%nat. rewrite <- drop_drop, H28.
      by apply drop_app_length'. }
    f_equal. f_equal. destruct h as [rs ih pid]. cbn [hs_reserved hs_info_hash hs_peer_id] in *.
    f_equal.
    + change (drop 20 _) with (to_be_bytes 8 rs ++ ih ++ pid ++ rest).
      rewrite take_app_length' by (by rewrite length_to_be_bytes).
      by apply (from_to_be_bytes 8 64).
    + transitivity (take 20 (ih ++ pid ++ rest)); [|by apply take_app_length'].
      by rewrite <- H28.
    + transitivity (take 20 (pid ++ rest)); [|by apply take_app_length']. f_equal. exact H48.
  - intros k Hk. unfold Handshake_deserialize. rewrite length_take, Hlw, Nat.min_l by lia.
    change HANDSHAKE_LEN with 68%nat.
    rewrite (proj2 (Nat.ltb_lt _ _)) by lia. do 2 f_equal. lia.
Qed.

Lemma handshake_roundtrip_witness :
  exists w, Handshake_serialize_unchecked_len
    (Handshake_new (replicate 20 1) (replicate 20 2)) (replicate 68 0) = Ret (w, 68%nat)
    /\ Handshake_deserialize (E := unit) (w ++ [9]) = XOk (Handshake_new (replicate 20 1) (replicate 20 2), 68%nat).
Proof.
  destruct (@handshake_roundtrip unit (Handshake_new (replicate 20 1) (replicate 20 2))
    (replicate 68 0) [9]) as [(w & H1 & H2 & _) _]; [split; done|done..|].
  exists w. split; [exact H1|exact H2].
Defined.
