(* ===== verification/ReadBuf.v ===== *)
(** * The receive ring buffer ([librqbit::read_buf])

    Messages are read from the socket into a ring of [BUFLEN] bytes and
    deserialized from its two slices.  The connection is the list of chunks in
    which the peer's bytes arrive: a read returns at most one chunk, cut to the
    free space; the empty list is the end of the stream. *)

From stdpp Require Import base tactics option list list_numbers numbers decidable.
From Stdlib Require Import ZArith Lia.
From S2P Require Import Prelude DoubleBuf Message.
Open Scope Z_scope.

Definition BUFLEN : nat := Z.to_nat 32768.

Record ReadBuf := mkRB {
  rb_buf : bytes;
  rb_start : nat;
  rb_len : nat
}.

Abbreviation conn := (list bytes).

Inductive ReadError (E : Type) :=
| PeerDisconnectedReadingHandshake
| PeerDisconnected
| ReadBufFull (need : Z)
| BugReadBufMakeContiguous (start len : Z)
| DeserializeHandshake (e : MessageDeserializeError E)
| Deserialize (e : MessageDeserializeError E).
Arguments PeerDisconnectedReadingHandshake {E}.
Arguments PeerDisconnected {E}.
Arguments ReadBufFull {E}.
Arguments BugReadBufMakeContiguous {E}.
Arguments DeserializeHandshake {E}.
Arguments Deserialize {E}.

Definition ReadBuf_new : ReadBuf := mkRB (replicate BUFLEN 0) 0 0.

(** [advance!]. *)
Definition rb_advance (rb : ReadBuf) (n : nat) : ReadBuf :=
  mkRB (rb_buf rb) ((rb_start rb + n) mod BUFLEN)%nat (rb_len rb - n)%nat.

Definition is_contiguous (rb : ReadBuf) : bool :=
  (rb_start rb + rb_len rb =? (rb_start rb + rb_len rb) mod BUFLEN)%nat.

(** The two ranges as (start, end). *)
Definition as_slice_ranges (rb : ReadBuf) : (nat * nat) * (nat * nat) :=
  let len := Nat.min (rb_len rb) BUFLEN in
  let start := Nat.min (rb_start rb) BUFLEN in
  let first_len := Nat.min len (BUFLEN - start) in
  ((start, (start + first_len)%nat), (0%nat, (len - first_len)%nat)).

Definition as_slices (rb : ReadBuf) : bytes * bytes :=
  let '((a, b), (c, d)) := as_slice_ranges rb in
  (take (b - a) (drop a (rb_buf rb)), take (d - c) (drop c (rb_buf rb))).

Definition make_contiguous {E} (rb : ReadBuf) : result (ReadError E) ReadBuf :=
  if is_contiguous rb then
    Err (BugReadBufMakeContiguous (u16 (Z.of_nat (rb_start rb))) (u16 (Z.of_nat (rb_len rb))))
  else
    let '(first, second) := as_slices rb in
    Ok (mkRB (first ++ second ++ replicate (BUFLEN - (length first + length second)) 0)
          0 (rb_len rb)).

Definition is_full (rb : ReadBuf) : bool := (rb_len rb =? BUFLEN)%nat.

(** The two free ranges as (start, length). *)
Definition unfilled_ioslices (rb : ReadBuf) : (nat * nat) * (nat * nat) :=
  let write_start := ((rb_start rb + rb_len rb) mod BUFLEN)%nat in
  let available_len := (BUFLEN - rb_len rb)%nat in
  let first_len := Nat.min (BUFLEN - write_start) available_len in
  let second_len := (available_len - first_len)%nat in
  let first_len := Nat.min first_len (length (rb_buf rb) - write_start) in
  let second_len := Nat.min second_len write_start in
  ((write_start, first_len), (0%nat, second_len)).

(** Overwriting part of the ring. *)
Definition splice (l : bytes) (at_ : nat) (data : bytes) : bytes :=
  take at_ l ++ data ++ drop (at_ + length data) l.

(** [conn.read_vectored(slices)]: the bytes fill the first slice, then the second. *)
Definition read_vectored (rb : ReadBuf) (c : conn) : nat * bytes * conn :=
  let '((s0, n0), (s1, n1)) := unfilled_ioslices rb in
  match c with
  | [] => (0%nat, rb_buf rb, [])
  | chunk :: c =>
    let data := take (n0 + n1) chunk in
    let rest := drop (n0 + n1) chunk in
    let buf := splice (rb_buf rb) s0 (take n0 data) in
    let buf := splice buf s1 (drop n0 data) in
    (length data, buf, match rest with [] => c | _ => rest :: c end)
  end.

Section Reader.
Context `{ExtCodec}.

Abbreviation RErr := (ReadError ExtDeError).

Definition read_handshake (rb : ReadBuf) (c : conn) : exec RErr (Handshake * ReadBuf * conn) :=
  match c with
  | [] => XErr PeerDisconnectedReadingHandshake
  | chunk :: c =>
    let data := take BUFLEN chunk in
    let rest := drop BUFLEN chunk in
    let rb := mkRB (splice (rb_buf rb) 0 data) (rb_start rb) (length data) in
    let c := match rest with [] => c | _ => rest :: c end in
    if (rb_len rb =? 0)%nat then XErr PeerDisconnectedReadingHandshake
    else
      match Handshake_deserialize (take (rb_len rb) (rb_buf rb)) with
      | XOk (h, size) => XOk (h, rb_advance rb size, c)
      | XErr e => XErr (DeserializeHandshake e)
      | XPanic => XPanic
      end
  end.

(** The inner [while need_additional_bytes > 0]. *)
Fixpoint fill (fuel : nat) (rb : ReadBuf) (c : conn) (need : Z) : option (exec RErr (ReadBuf * conn)) :=
  match fuel with
  | O => None
  | S fuel =>
    if 0 <? need then
      if is_full rb then Some (XErr (ReadBufFull (u16 need)))
      else
        let '(size, buf, c) := read_vectored rb c in
        if (size =? 0)%nat then Some (XErr PeerDisconnected)
        else fill fuel (mkRB buf (rb_start rb) (rb_len rb + size)) c
               (saturating_sub need (Z.of_nat size))
    else Some (XOk (rb, c))
  end.

(** The [loop] of [read_message]; [None] is fuel running out. *)
Fixpoint read_message (fuel : nat) (rb : ReadBuf) (c : conn)
    : option (exec RErr (Message * ReadBuf * conn)) :=
  match fuel with
  | O => None
  | S fuel =>
    let '(first, second) := as_slices rb in
    match Message_deserialize first second with
    | XOk (msg, size) => Some (XOk (msg, rb_advance rb (Z.to_nat size), c))
    | XPanic => Some XPanic
    | XErr (NotEnoughData need _) =>
      match fill fuel rb c need with
      | None => None
      | Some (XOk (rb, c)) => read_message fuel rb c
      | Some (XErr e) => Some (XErr e)
      | Some XPanic => Some XPanic
      end
    | XErr NeedContiguous =>
      match make_contiguous rb with
      | Ok rb => read_message fuel rb c
      | Err e => Some (XErr e)
      end
    | XErr e => Some (XErr (Deserialize e))
    end
  end.
End Reader.

(** ** The ring as a queue of bytes *)

Definition rb_wf (rb : ReadBuf) : Prop :=
  length (rb_buf rb) = BUFLEN /\ (rb_start rb < BUFLEN)%nat /\ (rb_len rb <= BUFLEN)%nat.

Definition rb_bytes (rb : ReadBuf) : bytes := (as_slices rb).1 ++ (as_slices rb).2.

Lemma BUFLEN_pos : (0 < BUFLEN)%nat.
Proof. unfold BUFLEN. lia. Qed.

Lemma mod_once x : (x < 2 * BUFLEN)%nat ->
  (x mod BUFLEN)%nat = if (x <? BUFLEN)%nat then x else (x - BUFLEN)%nat.
Proof.
  intros. pose proof BUFLEN_pos. destruct (Nat.ltb_spec x BUFLEN).
  - by apply Nat.mod_small.
  - replace x with (x - BUFLEN + 1 * BUFLEN)%nat at 1 by lia.
    rewrite Nat.Div0.mod_add. apply Nat.mod_small. lia.
Qed.

(** Position [i] of the logical contents inside the ring. *)
Definition ring_pos (rb : ReadBuf) (i : nat) : nat :=
  if (rb_start rb + i <? BUFLEN)%nat then (rb_start rb + i)%nat else (rb_start rb + i - BUFLEN)%nat.

Lemma rb_bytes_length rb : rb_wf rb -> length (rb_bytes rb) = rb_len rb.
Proof.
  intros (Hb & Hs & Hl). unfold rb_bytes, as_slices, as_slice_ranges. cbn [fst snd].
  rewrite length_app, !length_take, !length_drop. lia.
Qed.

Lemma rb_bytes_lookup rb i :
  rb_wf rb -> (i < rb_len rb)%nat -> rb_bytes rb !! i = rb_buf rb !! ring_pos rb i.
Proof.
  intros (Hb & Hs & Hl) Hi. unfold rb_bytes, as_slices, as_slice_ranges, ring_pos. cbn [fst snd].
  rewrite (Nat.min_l (rb_len rb)), (Nat.min_l (rb_start rb)) by lia.
  destruct (Nat.ltb_spec (rb_start rb + i) BUFLEN).
  - rewrite lookup_app_l by (rewrite length_take, length_drop; lia).
    rewrite lookup_take_lt by lia. by rewrite lookup_drop.
  - rewrite lookup_app_r by (rewrite length_take, length_drop; lia).
    rewrite length_take, length_drop. rewrite lookup_take_lt by lia. rewrite lookup_drop. f_equal. lia.
Qed.

Lemma rb_bytes_eq rb l :
  rb_wf rb -> length l = rb_len rb ->
  (forall i, (i < rb_len rb)%nat -> l !! i = rb_buf rb !! ring_pos rb i) -> rb_bytes rb = l.
Proof.
  intros Hwf Hl Hi. apply list_eq. intros i. destruct (decide (i < rb_len rb)%nat).
  - rewrite rb_bytes_lookup, Hi; done.
  - rewrite !lookup_ge_None_2; [done|lia|rewrite rb_bytes_length by done; lia].
Qed.

Lemma advance_wf rb n : rb_wf rb -> rb_wf (rb_advance rb n).
Proof.
  intros (? & ? & ?). split_and!; cbn; [done| |lia]. pose proof BUFLEN_pos.
  apply Nat.mod_upper_bound. lia.
Qed.

Lemma advance_bytes rb n :
  rb_wf rb -> (n <= rb_len rb)%nat -> rb_bytes (rb_advance rb n) = drop n (rb_bytes rb).
Proof.
  intros Hwf Hn. apply rb_bytes_eq; [by apply advance_wf| |].
  - rewrite length_drop, rb_bytes_length by done. done.
  - intros i Hi. cbn [rb_advance rb_len] in Hi. rewrite lookup_drop, rb_bytes_lookup by (done || lia).
    destruct Hwf as (? & ? & ?). unfold ring_pos, rb_advance. cbn [rb_start rb_len rb_buf]. f_equal.
    rewrite mod_once by lia. destruct (Nat.ltb_spec (rb_start rb + n) BUFLEN).
    + rewrite Nat.add_assoc. done.
    + destruct (Nat.ltb_spec (rb_start rb + n - BUFLEN + i) BUFLEN),
        (Nat.ltb_spec (rb_start rb + (n + i)) BUFLEN); lia.
Qed.

Lemma length_splice l a d :
  (a + length d <= length l)%nat -> length (splice l a d) = length l.
Proof. intros. unfold splice. rewrite !length_app, length_take, length_drop. lia. Qed.

Lemma lookup_splice l a d i :
  (a + length d <= length l)%nat ->
  splice l a d !! i = if decide (a <= i < a + length d)%nat then d !! (i - a)%nat else l !! i.
Proof.
  intros Hl. unfold splice. destruct (decide (a <= i < a + length d)%nat).
  - rewrite lookup_app_r; rewrite length_take; [|lia].
    rewrite lookup_app_l by lia. f_equal. lia.
  - destruct (decide (i < a)%nat).
    + rewrite lookup_app_l by (rewrite length_take; lia). by rewrite lookup_take_lt.
    + rewrite lookup_app_r; rewrite length_take; [|lia].
      rewrite lookup_app_r by lia. rewrite lookup_drop. f_equal. lia.
Qed.

(** A read appends the bytes it got and takes nothing else from the stream. *)
Lemma read_vectored_spec rb c size buf c' :
  rb_wf rb -> Forall (fun x => x <> []) c -> read_vectored rb c = (size, buf, c') ->
  let rb' := mkRB buf (rb_start rb) (rb_len rb + size) in
  rb_wf rb' /\ Forall (fun x => x <> []) c'
  /\ rb_bytes rb' ++ mjoin c' = rb_bytes rb ++ mjoin c
  /\ (rb_len rb < BUFLEN -> c <> [] -> 0 < size)%nat.
Proof.
  intros Hwf Hc Hr. pose proof Hwf as (Hb & Hs & Hl). pose proof BUFLEN_pos as HB.
  unfold read_vectored, unfilled_ioslices in Hr.
  set (ws := ((rb_start rb + rb_len rb) mod BUFLEN)%nat) in *.
  assert (Hws : (ws < BUFLEN)%nat) by (apply Nat.mod_upper_bound; lia).
  assert (Hwse : ws = if (rb_start rb + rb_len rb <? BUFLEN)%nat
      then (rb_start rb + rb_len rb)%nat else (rb_start rb + rb_len rb - BUFLEN)%nat)
    by (apply mod_once; lia).
  clearbody ws. rewrite Hb in Hr. set (av := (BUFLEN - rb_len rb)%nat) in *.
  replace (Nat.min (Nat.min (BUFLEN - ws) av) (BUFLEN - ws)) with (Nat.min (BUFLEN - ws) av) in Hr by lia.
  set (n0 := Nat.min (BUFLEN - ws) av) in *.
  assert (Hn1 : Nat.min (av - n0) ws = (av - n0)%nat).
  { unfold n0, av in *.
    destruct (Nat.ltb_spec (rb_start rb + rb_len rb) BUFLEN); lia. }
  rewrite Hn1 in Hr. replace (n0 + (av - n0))%nat with av in Hr by (unfold n0; lia).
  destruct c as [|chunk c].
  { injection Hr as <- <- <-. cbn zeta. rewrite Nat.add_0_r. destruct rb. done. }
  injection Hr as <- <- <-. apply Forall_cons_1 in Hc as [Hne Hc].
  set (data := take av chunk). cbn zeta.
  assert (Hd : (length data <= av)%nat) by (unfold data; rewrite length_take; lia).
  set (buf1 := splice (rb_buf rb) ws (take n0 data)).
  assert (H1 : (ws + length (take n0 data) <= length (rb_buf rb))%nat)
    by (rewrite length_take, Hb; unfold n0; lia).
  assert (Hl1 : length buf1 = BUFLEN) by (unfold buf1; rewrite length_splice; done).
  assert (H2 : (0 + length (drop n0 data) <= length buf1)%nat)
    by (rewrite length_drop, Hl1; unfold av in *; lia).
  assert (Hwf' : rb_wf (mkRB (splice buf1 0 (drop n0 data)) (rb_start rb) (rb_len rb + length data))).
  { split_and!; cbn; [by rewrite length_splice|done|unfold av in *; lia]. }
  assert (Hbytes : rb_bytes (mkRB (splice buf1 0 (drop n0 data)) (rb_start rb) (rb_len rb + length data))
    = rb_bytes rb ++ data).
  { apply rb_bytes_eq; [done|cbn [rb_len]; rewrite length_app, rb_bytes_length by done; done|].
    cbn [rb_buf rb_len rb_start]. intros i Hi. rewrite lookup_splice by done.
    unfold buf1. rewrite lookup_splice by done. rewrite length_take, length_drop.
    unfold ring_pos. cbn [rb_start].
    destruct (decide (i < rb_len rb)%nat) as [Hlt|Hge].
    - rewrite lookup_app_l by (rewrite rb_bytes_length by done; done).
      rewrite rb_bytes_lookup by done. unfold ring_pos.
      destruct (Nat.ltb_spec (rb_start rb + i) BUFLEN), (Nat.ltb_spec (rb_start rb + rb_len rb) BUFLEN);
        rewrite !decide_False by (unfold n0, av in *; lia); done.
    - rewrite lookup_app_r by (rewrite rb_bytes_length by done; lia).
      rewrite rb_bytes_length by done.
      destruct (Nat.ltb_spec (rb_start rb + i) BUFLEN), (Nat.ltb_spec (rb_start rb + rb_len rb) BUFLEN);
        try lia.
      + rewrite decide_False by (unfold n0, av in *; lia).
        rewrite decide_True by (unfold n0, av in *; lia).
        rewrite lookup_take_lt by (unfold n0, av in *; lia). f_equal. lia.
      + rewrite decide_True by (unfold n0, av in *; lia). rewrite lookup_drop. f_equal.
        unfold n0, av in *. lia.
      + rewrite decide_False by (unfold n0, av in *; lia).
        rewrite decide_True by (unfold n0, av in *; lia).
        rewrite lookup_take_lt by (unfold n0, av in *; lia). f_equal. lia. }
  split_and!; [done| | |].
  - destruct (drop av chunk) eqn:E; [done|]. constructor; [done|done].
  - rewrite Hbytes, <- app_assoc. f_equal.
    change (mjoin (chunk :: c)) with (chunk ++ mjoin c). unfold data.
    transitivity ((take av chunk ++ drop av chunk) ++ mjoin c); [|by rewrite take_drop].
    rewrite <- app_assoc. f_equal. by destruct (drop av chunk).
  - intros Hlt _. unfold data. rewrite length_take. unfold av. destruct chunk; [done|]. simpl. lia.
Qed.

Section Reading.
Context `{ExtCodec}.

Abbreviation chunks_ok := (Forall (fun x : bytes => x <> [])).

Lemma fill_spec fuel : forall rb c need,
  rb_wf rb -> chunks_ok c -> 0 <= need -> (Z.to_nat need < fuel)%nat ->
  Z.of_nat (rb_len rb) + need <= Z.of_nat BUFLEN -> need <= Z.of_nat (length (mjoin c)) ->
  exists rb' c', fill fuel rb c need = Some (XOk (rb', c')) /\ rb_wf rb' /\ chunks_ok c'
    /\ rb_bytes rb' ++ mjoin c' = rb_bytes rb ++ mjoin c
    /\ Z.of_nat (rb_len rb) + need <= Z.of_nat (rb_len rb').
Proof.
  induction fuel as [|fuel IH]; intros rb c need Hwf Hc Hn Hf Hroom Hav; [lia|].
  cbn [fill]. destruct (Z.ltb_spec 0 need) as [Hpos|Hz].
  2:{ exists rb, c. split_and!; try done. lia. }
  unfold is_full. destruct (Nat.eqb_spec (rb_len rb) BUFLEN); [lia|].
  destruct (read_vectored rb c) as [[size buf] c1] eqn:Hr.
  destruct (read_vectored_spec rb c size buf c1 Hwf Hc Hr) as (Hwf1 & Hc1 & Hb1 & Hs1).
  assert (0 < size)%nat as Hsz.
  { apply Hs1; [destruct Hwf as (? & ? & ?); lia|]. intros ->. simpl in Hav. lia. }
  destruct (Nat.eqb_spec size 0); [lia|].
  pose proof (f_equal length Hb1) as Hlen. rewrite !length_app, !rb_bytes_length in Hlen by done.
  cbn [rb_len] in Hlen.
  destruct (Z.le_gt_cases need (Z.of_nat size)) as [Hle|Hgt].
  - destruct fuel as [|fuel]; [lia|]. cbn [fill].
    unfold saturating_sub. rewrite Z.max_l by lia. cbn.
    exists (mkRB buf (rb_start rb) (rb_len rb + size)), c1. split_and!; try done. cbn. lia.
  - destruct (IH (mkRB buf (rb_start rb) (rb_len rb + size)) c1 (need - Z.of_nat size))
      as (rb' & c' & Hfill & ? & ? & Hb' & Hl'); try done; cbn [rb_len]; try lia.
    unfold saturating_sub. rewrite Z.max_r by lia. exists rb', c'.
    split_and!; try done; [by rewrite Hb'|]. cbn in Hl'. lia.
Qed.

Lemma make_contiguous_spec rb :
  rb_wf rb -> ((as_slices rb).2 <> []) ->
  exists rb', make_contiguous (E := ExtDeError) rb = Ok rb' /\ rb_wf rb' /\ rb_start rb' = 0%nat
    /\ rb_len rb' = rb_len rb /\ rb_bytes rb' = rb_bytes rb.
Proof.
  intros Hwf Hne. pose proof Hwf as (Hb & Hs & Hl). pose proof BUFLEN_pos.
  pose proof (rb_bytes_length rb Hwf) as Hlen. unfold rb_bytes in Hlen.
  assert (BUFLEN < rb_start rb + rb_len rb)%nat as Hover.
  { destruct (Nat.le_gt_cases (rb_start rb + rb_len rb) BUFLEN); [|lia]. exfalso. apply Hne.
    unfold as_slices, as_slice_ranges. cbn [snd].
    replace (_ - _ - 0)%nat with 0%nat by lia. done. }
  unfold make_contiguous, is_contiguous. rewrite mod_once by lia.
  destruct (Nat.ltb_spec (rb_start rb + rb_len rb) BUFLEN); [lia|].
  destruct (Nat.eqb_spec (rb_start rb + rb_len rb) (rb_start rb + rb_len rb - BUFLEN)); [lia|].
  destruct (as_slices rb) as [first second] eqn:Es. cbn [fst snd] in Hlen.
  rewrite length_app in Hlen. eexists. split; [done|].
  assert (Hwf' : rb_wf (mkRB (first ++ second ++ replicate (BUFLEN - (length first + length second)) 0)
    0 (rb_len rb))).
  { split_and!; cbn [rb_buf rb_start rb_len]; [|lia|done].
    rewrite !length_app, length_replicate. lia. }
  split_and!; try done. unfold rb_bytes at 2. rewrite Es. cbn [fst snd].
  apply rb_bytes_eq; [done|by rewrite length_app|]. cbn [rb_buf rb_len]. intros i Hi.
  unfold ring_pos. cbn [rb_start]. destruct (Nat.ltb_spec (0 + i) BUFLEN); [|lia].
  rewrite (app_assoc first), (lookup_app_l (first ++ second)) by (rewrite length_app; lia). done.
Qed.

Lemma encode_prefix m :
  msg_wf m -> exists tl, encode m = to_be_bytes 4 (Z.of_nat (length (encode m)) - 4) ++ tl
    /\ Z.of_nat (length (encode m)) - 4 = Z.of_nat (length tl)
    /\ is_u32 (Z.of_nat (length (encode m)) - 4) /\ is_bytes (encode m).
Proof.
  assert (Hfr : forall id p, is_u8 id -> is_bytes p -> Z.of_nat (length p) + 1 < 2 ^ 32 ->
    exists tl, frame id p = to_be_bytes 4 (Z.of_nat (length (frame id p)) - 4) ++ tl
    /\ Z.of_nat (length (frame id p)) - 4 = Z.of_nat (length tl)
    /\ is_u32 (Z.of_nat (length (frame id p)) - 4) /\ is_bytes (frame id p)).
  { intros id p Hid Hp Hl. exists (id :: p). rewrite length_frame.
    replace (Z.of_nat (5 + length p) - 4) with (Z.of_nat (length p) + 1) by lia.
    split_and!; [done|simpl; lia|unfold is_uint; lia|]. unfold frame.
    apply Forall_app. split; [apply to_be_bytes_is_bytes|by constructor]. }
  assert (Hreq : forall r, is_bytes (encode_request r) /\ length (encode_request r) = 12%nat).
  { intros r. unfold encode_request. split; [|by rewrite !length_app, !length_to_be_bytes].
    rewrite !Forall_app. split_and!; apply to_be_bytes_is_bytes. }
  intros Hwf. destruct m as [r|r|b| |v| | | | |p|e]; cbn [encode] in *; try done.
  - destruct (Hreq r) as [? Hl]. apply Hfr; [done|done|by rewrite Hl].
  - destruct (Hreq r) as [? Hl]. apply Hfr; [done|done|by rewrite Hl].
  - destruct Hwf as (? & ? & ?). by apply Hfr.
  - exists []. rewrite length_to_be_bytes, app_nil_r. split_and!; try done.
    apply to_be_bytes_is_bytes.
  - apply Hfr; [done|apply to_be_bytes_is_bytes|by rewrite length_to_be_bytes].
  - by apply Hfr.
  - by apply Hfr.
  - by apply Hfr.
  - by apply Hfr.
  - destruct Hwf as (_ & _ & ? & ? & _ & ?). apply Hfr; [done| |].
    + unfold encode_piece. rewrite !Forall_app. split_and!; try done; apply to_be_bytes_is_bytes.
    + unfold encode_piece, Piece_len in *. rewrite !length_app, !length_to_be_bytes. lia.
Qed.

(** The number of bytes the reader asks for, on a strict prefix of a message. *)
Lemma frame_need_prefix m w rest :
  msg_wf m -> (length w < length (encode m))%nat -> w ++ rest = encode m ++ [] ++ drop (length (encode m)) (w ++ rest) ->
  (length w < 4)%nat /\ frame_need w = 4
  \/ (4 <= length w)%nat /\ frame_need w = Z.of_nat (length (encode m)).
Proof.
  intros Hwf Hlt Heq. unfold frame_need. destruct (Nat.ltb_spec (length w) 4); [by left|]. right.
  split; [done|]. destruct (encode_prefix m Hwf) as (tl & Henc & _ & Hu & _).
  assert (take 4 w = to_be_bytes 4 (Z.of_nat (length (encode m)) - 4)) as ->.
  { rewrite <- (take_app_le w rest) by lia. rewrite Heq, Henc at 1. rewrite <- app_assoc.
    apply take_app_length'. by rewrite length_to_be_bytes. }
  rewrite from_to_u32 by done. lia.
Qed.

Lemma prefix_split (a b x y : bytes) :
  a ++ b = x ++ y -> (length x <= length a)%nat -> exists z, a = x ++ z /\ y = z ++ b.
Proof.
  intros Heq Hle. exists (drop (length x) a).
  assert (take (length x) a = x) as Ht.
  { rewrite <- (take_app_le a b) by done. rewrite Heq. by apply take_app_length. }
  assert (a = x ++ drop (length x) a) as Ha by (by rewrite <- Ht at 1; rewrite take_drop).
  split; [done|]. rewrite Ha, <- app_assoc in Heq. by apply app_inv_head in Heq.
Qed.

(** A message that is complete in the ring and cut where its reader can bear it. *)
Lemma read_complete_cut fuel rb c m rest :
  rb_wf rb -> msg_wf m -> rb_bytes rb = encode m ++ rest ->
  cut_ok m (length (as_slices rb).1) (length (encode m)) ->
  exists m', read_message (S fuel) rb c = Some (XOk (m', rb_advance rb (length (encode m)), c))
    /\ msg_equiv m m' /\ rb_bytes (rb_advance rb (length (encode m))) = rest.
Proof.
  intros Hwf Hm Hb Hcut. cbn [read_message]. unfold rb_bytes in Hb.
  destruct (as_slices rb) as [first second] eqn:Es. cbn [fst snd] in *.
  destruct (deserialize_encode m (length first) rest Hm Hcut) as (m' & Hd & Heq).
  rewrite <- Hb, take_app_length, drop_app_length in Hd. rewrite Hd.
  exists m'. rewrite Nat2Z.id. split_and!; [done|done|].
  assert (rb_bytes rb = encode m ++ rest) as Hb' by (unfold rb_bytes; by rewrite Es).
  rewrite advance_bytes, Hb', drop_app_length; [done|done|].
  rewrite <- (rb_bytes_length rb Hwf), Hb', length_app. lia.
Qed.

Lemma read_complete fuel rb c m rest :
  rb_wf rb -> msg_wf m -> rb_bytes rb = encode m ++ rest ->
  exists m' rb', read_message (S (S fuel)) rb c = Some (XOk (m', rb', c))
    /\ msg_equiv m m' /\ rb_wf rb' /\ rb_bytes rb' = rest.
Proof.
  intros Hwf Hm Hb.
  assert (cut_ok m (length (as_slices rb).1) (length (encode m))
    \/ exists b, m = MBitfield b
         /\ (5 < length (as_slices rb).1 < length (encode m))%nat) as [Hcut|(b & -> & Hcut)].
  { destruct m; cbn [cut_ok]; try (left; done).
    destruct (decide (length (as_slices rb).1 <= 5)%nat); [by left; left|].
    destruct (decide (length (encode (MBitfield b)) <= length (as_slices rb).1)%nat); [by left; right|].
    right. exists b. split; [done|]. lia. }
  { destruct (read_complete_cut (S fuel) rb c m rest Hwf Hm Hb Hcut) as (m' & Hr & ? & ?).
    exists m', (rb_advance rb (length (encode m))). split_and!; try done. by apply advance_wf. }
  assert ((as_slices rb).2 <> []) as Hne.
  { intros E. unfold rb_bytes in Hb. rewrite E, app_nil_r in Hb. rewrite Hb, length_app in Hcut. lia. }
  destruct (make_contiguous_spec rb Hwf Hne) as (rb1 & Hmc & Hwf1 & Hs1 & Hl1 & Hb1).
  rewrite Hb in Hb1.
  destruct (read_complete_cut fuel rb1 c (MBitfield b) rest Hwf1 Hm Hb1) as (m' & Hr & ? & ?).
  { right. unfold as_slices, as_slice_ranges. rewrite Hs1. cbn [fst snd].
    pose proof (rb_bytes_length rb1 Hwf1) as Hlen. rewrite Hb1, length_app in Hlen.
    destruct Hwf1 as (Hbl & _ & ?). rewrite length_take, length_drop, Hbl. lia. }
  exists m', (rb_advance rb1 (length (encode (MBitfield b)))).
  assert (Message_deserialize (as_slices rb).1 (as_slices rb).2 = XErr NeedContiguous) as Hd.
  { destruct Hm as (_ & _ & ?). by apply (deserialize_bitfield_cut _ _ b rest). }
  split_and!; [|done|by apply advance_wf|done].
  rewrite <- Hr. set (f := S fuel). cbn [read_message].
  destruct (as_slices rb) as [first second]. cbn [fst snd] in Hd. by rewrite Hd, Hmc.
Qed.

Lemma read_done fuel rb c m rest :
  rb_wf rb -> chunks_ok c -> msg_wf m -> (2 <= fuel)%nat ->
  rb_bytes rb ++ mjoin c = encode m ++ rest -> (length (encode m) <= rb_len rb)%nat ->
  exists m' rb' c', read_message fuel rb c = Some (XOk (m', rb', c')) /\ msg_equiv m m'
    /\ rb_wf rb' /\ chunks_ok c' /\ rb_bytes rb' ++ mjoin c' = rest.
Proof.
  intros Hwf Hc Hm Hf Heq Hlen. rewrite <- (rb_bytes_length rb Hwf) in Hlen.
  destruct (prefix_split _ _ _ _ Heq Hlen) as (z & Hz & ->).
  destruct fuel as [|[|fuel]]; [lia..|].
  destruct (read_complete fuel rb c m z Hwf Hm Hz) as (m' & rb' & ? & ? & ? & <-).
  by exists m', rb', c.
Qed.

(** One round on an incomplete message fetches what the reader asks for: the
    length prefix first, then the rest of the message. *)
Lemma read_round fuel rb c m rest :
  rb_wf rb -> chunks_ok c -> msg_wf m -> (length (encode m) <= BUFLEN)%nat ->
  (length (encode m) < fuel)%nat ->
  is_bytes (rb_bytes rb) -> rb_bytes rb ++ mjoin c = encode m ++ rest ->
  (rb_len rb < length (encode m))%nat ->
  exists rb' c', read_message (S fuel) rb c = read_message fuel rb' c' /\ rb_wf rb' /\ chunks_ok c'
    /\ rb_bytes rb' ++ mjoin c' = encode m ++ rest
    /\ (rb_len rb < 4 -> 4 <= rb_len rb')%nat
    /\ (4 <= rb_len rb -> length (encode m) <= rb_len rb')%nat.
Proof.
  intros Hwf Hc Hm Hfit Hf Hb1 Heq Hlt. pose proof (rb_bytes_length rb Hwf) as Hlen.
  assert (Hneed : (length (rb_bytes rb) < 4)%nat /\ frame_need (rb_bytes rb) = 4
    \/ (4 <= length (rb_bytes rb))%nat /\ frame_need (rb_bytes rb) = Z.of_nat (length (encode m))).
  { apply (frame_need_prefix m _ (mjoin c)); [done|lia|]. by rewrite Heq, drop_app_length. }
  destruct (encode_prefix m Hm) as (tl & Henc & Htl & _ & _).
  pose proof (f_equal length Henc) as Hlenc. rewrite length_app, length_to_be_bytes in Hlenc.
  pose proof (f_equal length Heq) as Htot. rewrite !length_app, Hlen in Htot.
  set (need := frame_need (rb_bytes rb) - Z.of_nat (rb_len rb)).
  assert (Hdes : exists id, Message_deserialize (as_slices rb).1 (as_slices rb).2
                            = XErr (NotEnoughData need id)).
  { destruct (deserialize_incremental_spec (as_slices rb).1 (as_slices rb).2 Hb1) as (_ & Hi & _).
    fold (rb_bytes rb) in Hi. rewrite Hlen in Hi. apply Hi. lia. }
  destruct Hdes as [id Hdes].
  destruct (fill_spec fuel rb c need Hwf Hc) as (rb' & c' & Hfill & ? & ? & Hb' & Hl');
    unfold need in *; try lia.
  exists rb', c'. split_and!; try done; try lia; [|by rewrite Hb'].
  cbn [read_message]. destruct (as_slices rb) as [first second]. cbn [fst snd] in Hdes.
  by rewrite Hdes, Hfill.
Qed.

(** One [read_message]: from any state of the ring and any chunking of the
    stream, the next message comes out and the stream moves on behind it. *)
Lemma read_message_spec fuel rb c m rest :
  rb_wf rb -> chunks_ok c -> msg_wf m -> (length (encode m) <= BUFLEN)%nat ->
  is_bytes (rb_bytes rb ++ mjoin c) ->
  rb_bytes rb ++ mjoin c = encode m ++ rest -> (length (encode m) + 5 <= fuel)%nat ->
  exists m' rb' c', read_message fuel rb c = Some (XOk (m', rb', c')) /\ msg_equiv m m'
    /\ rb_wf rb' /\ chunks_ok c' /\ rb_bytes rb' ++ mjoin c' = rest.
Proof.
  intros Hwf Hc Hm Hfit Hby Heq Hfuel.
  destruct (encode_prefix m Hm) as (tl & Henc & Htl & _ & _).
  pose proof (f_equal length Henc) as Hlenc. rewrite length_app, length_to_be_bytes in Hlenc.
  pose proof (proj1 (proj1 (Forall_app _ _ _) Hby)) as Hb0.
  destruct (decide (length (encode m) <= rb_len rb)%nat); [by apply read_done; [..|lia| |]|].
  destruct fuel as [|fuel]; [lia|].
  destruct (read_round fuel rb c m rest) as (rb1 & c1 & -> & Hwf1 & Hc1 & Heq1 & H4 & Hn);
    try done; try lia.
  destruct (decide (length (encode m) <= rb_len rb1)%nat); [by apply read_done; [..|lia| |]|].
  destruct fuel as [|fuel]; [lia|].
  rewrite Heq, <- Heq1 in Hby. pose proof (proj1 (proj1 (Forall_app _ _ _) Hby)) as Hb1.
  destruct (read_round fuel rb1 c1 m rest) as (rb2 & c2 & -> & Hwf2 & Hc2 & Heq2 & _ & Hn2);
    try done; try lia.
  apply read_done; try done; lia.
Qed.

(** Reading [n] messages in a row. *)
Fixpoint read_messages (n fuel : nat) (rb : ReadBuf) (c : conn)
    : option (exec (ReadError ExtDeError) (list Message * ReadBuf * conn)) :=
  match n with
  | O => Some (XOk ([], rb, c))
  | S n =>
    match read_message fuel rb c with
    | Some (XOk (m, rb, c)) =>
      match read_messages n fuel rb c with
      | Some (XOk (ms, rb, c)) => Some (XOk (m :: ms, rb, c))
      | r => r
      end
    | Some (XErr e) => Some (XErr e)
    | Some XPanic => Some XPanic
    | None => None
    end
  end.

Lemma read_messages_spec ms : forall fuel rb c rest,
  rb_wf rb -> chunks_ok c ->
  Forall (fun m => msg_wf m /\ (length (encode m) <= BUFLEN)%nat) ms ->
  is_bytes (rb_bytes rb ++ mjoin c) -> (BUFLEN + 5 <= fuel)%nat ->
  rb_bytes rb ++ mjoin c = mjoin (encode <$> ms) ++ rest ->
  exists ms' rb' c', read_messages (length ms) fuel rb c = Some (XOk (ms', rb', c'))
    /\ Forall2 msg_equiv ms ms' /\ rb_bytes rb' ++ mjoin c' = rest.
Proof.
  induction ms as [|m ms IH]; intros fuel rb c rest Hwf Hc Hms Hby Hf Heq.
  { exists [], rb, c. split_and!; try done. }
  apply Forall_cons_1 in Hms as [[Hm Hfit] Hms].
  assert (Hsplit : mjoin (encode <$> m :: ms) ++ rest = encode m ++ mjoin (encode <$> ms) ++ rest)
    by (rewrite fmap_cons; symmetry; apply app_assoc).
  rewrite Hsplit in Heq. clear Hsplit.
  destruct (read_message_spec fuel rb c m (mjoin (encode <$> ms) ++ rest))
    as (m' & rb1 & c1 & Hr & Hmm & Hwf1 & Hc1 & Heq1); try done; try lia.
  destruct (IH fuel rb1 c1 rest) as (ms' & rb' & c' & Hrs & Hall & Hend); try done.
  { rewrite Heq in Hby. rewrite Heq1. by apply Forall_app in Hby as [_ ?]. }
  exists (m' :: ms'), rb', c'. cbn [length read_messages]. rewrite Hr, Hrs.
  split_and!; try done. by constructor.
Qed.
End Reading.

(** C14: whatever messages of the basic protocol a peer sends (all kinds but extended
    messages, with bitfields and blocks that are not empty, none longer than the ring) and
    however the network cuts them into reads, the reader hands out exactly those messages, in
    order, and leaves exactly the bytes behind them in the ring and the stream; it
    terminates within the stated fuel (a byte per round). *)
Theorem read_stream_correct `{ExtCodec} (ms : list Message) (c : conn) (rest : bytes) :
  Forall (fun m => msg_wf m /\ (length (encode m) <= BUFLEN)%nat) ms ->
  Forall (fun x : bytes => x <> []) c -> is_bytes (mjoin c) ->
  mjoin c = mjoin (encode <$> ms) ++ rest ->
  exists ms' rb' c', read_messages (length ms) (BUFLEN + 5) ReadBuf_new c = Some (XOk (ms', rb', c'))
    /\ Forall2 msg_equiv ms ms' /\ rb_bytes rb' ++ mjoin c' = rest.
Proof.
  intros Hms Hc Hby Heq.
  assert (rb_wf ReadBuf_new) as Hwf.
  { split_and!; cbn [ReadBuf_new rb_buf rb_start rb_len]; [apply length_replicate|apply BUFLEN_pos|lia]. }
  assert (rb_bytes ReadBuf_new = []) as Hnil
    by (apply nil_length_inv; by rewrite rb_bytes_length).
  apply read_messages_spec; rewrite ?Hnil; try done.
Qed.

Lemma read_stream_correct_witness :
  exists ms' rb' c', read_messages (H := byte_codec) 2 (BUFLEN + 5) ReadBuf_new
      [[0; 0]; [0; 5; 4; 0; 0]; [0; 9; 0; 0; 0; 1; 1; 7]] = Some (XOk (ms', rb', c'))
    /\ Forall2 msg_equiv [MHave 9; MUnchoke] ms' /\ rb_bytes rb' ++ mjoin c' = [7].
Proof.
  apply (@read_stream_correct byte_codec [MHave 9; MUnchoke]).
  - assert (forall n, (n <= 9)%nat -> (n <= BUFLEN)%nat) as Hle by (unfold BUFLEN; lia).
    apply Forall_cons_2; [|apply Forall_cons_2; [|apply Forall_nil_2]];
      (split; [done|apply Hle; cbn; lia]).
  - by repeat constructor.
  - by repeat constructor.
  - reflexivity.
Defined.

(** The handshake is read with a single read: when its 68 bytes arrive in two
    segments, the connection fails with a "not enough data" error although the
    rest is on its way. *)
Theorem split_handshake_refused `{ExtCodec} (w : bytes) (k : nat) (c : conn) :
  length w = 68%nat -> (0 < k < 68)%nat ->
  read_handshake ReadBuf_new (take k w :: drop k w :: c)
  = XErr (DeserializeHandshake (NotEnoughData (68 - Z.of_nat k) None)).
Proof.
  intros Hw Hk. unfold read_handshake. rewrite (take_ge (take k w)).
  2:{ rewrite length_take. unfold BUFLEN. lia. }
  cbn [rb_len rb_buf]. rewrite length_take, Nat.min_l by lia.
  destruct (Nat.eqb_spec k 0); [lia|]. unfold splice.
  rewrite take_0, app_nil_l, take_app_length' by (rewrite length_take; lia).
  unfold Handshake_deserialize. change HANDSHAKE_LEN with 68%nat.
  rewrite length_take, Nat.min_l by lia. rewrite (proj2 (Nat.ltb_lt _ _)) by lia.
  do 3 f_equal. lia.
Qed.

Lemma split_handshake_refused_witness :
  exists w, Handshake_serialize_unchecked_len (Handshake_new (replicate 20 1) (replicate 20 2))
              (replicate 68 0) = Ret (w, 68%nat)
    /\ read_handshake (H := byte_codec) ReadBuf_new [take 30 w; drop 30 w]
       = XErr (DeserializeHandshake (NotEnoughData 38 None)).
Proof.
  eexists. split; [vm_compute; reflexivity|].
  apply (@split_handshake_refused byte_codec _ 30 []); [reflexivity|lia].
Defined.
