(* ===== verification/TorrentQueue.v ===== *)
(** * Torrent queue ([librqbit::torrent_queue])

    Which torrents may run under the limits, the rotation of seeding slots and
    the order of the queue.  Instants and durations are nanoseconds. *)

From stdpp Require Import base tactics option list list_numbers numbers decidable gmap.
From Stdlib Require Import ZArith Lia.
From S2P Require Import Prelude.
Open Scope Z_scope.

Abbreviation TorrentId := nat.

Record QueueLimits := mkLimits {
  max_downloads : option Z;
  max_uploads : option Z;
  max_active : option Z;
  ignore_slow : bool
}.

Record QueueCandidate := mkCand {
  qc_id : TorrentId;
  qc_seeding : bool;
  qc_active : bool;
  qc_slow : bool
}.

(** ** Admission *)

Definition under (n : Z) (lim : option Z) : bool :=
  match lim with Some m => n <? m | None => true end.

Record AdmitState := mkAdmit {
  ad_dl : Z;
  ad_up : Z;
  ad_total : Z;
  ad_out : gset TorrentId
}.

Definition exempt (l : QueueLimits) (seed_pick : option (gset TorrentId)) (c : QueueCandidate)
    : bool :=
  ignore_slow l && qc_active c && qc_slow c
  && negb (qc_seeding c && bool_decide (is_Some seed_pick)).

Definition fits (l : QueueLimits) (seed_pick : option (gset TorrentId)) (s : AdmitState)
    (c : QueueCandidate) : bool :=
  (if qc_seeding c then
     match seed_pick with
     | Some pick => bool_decide (qc_id c ∈ pick)
     | None => under (ad_up s) (max_uploads l)
     end
   else under (ad_dl s) (max_downloads l))
  && under (ad_total s) (max_active l).

(** One round of the loop of [admit_with]. *)
Definition admit_step (l : QueueLimits) (seed_pick : option (gset TorrentId)) (s : AdmitState)
    (c : QueueCandidate) : AdmitState :=
  if exempt l seed_pick c then
    mkAdmit (ad_dl s) (ad_up s) (ad_total s) ({[qc_id c]} ∪ ad_out s)
  else if fits l seed_pick s c then
    mkAdmit (if qc_seeding c then ad_dl s else u32 (ad_dl s + 1))
      (if qc_seeding c then u32 (ad_up s + 1) else ad_up s)
      (u32 (ad_total s + 1)) ({[qc_id c]} ∪ ad_out s)
  else s.

Definition admit_with (cands : list QueueCandidate) (l : QueueLimits)
    (seed_pick : option (gset TorrentId)) : gset TorrentId :=
  ad_out (foldl (admit_step l seed_pick) (mkAdmit 0 0 0 ∅) cands).

Definition admit_queue (cands : list QueueCandidate) (l : QueueLimits) : gset TorrentId :=
  admit_with cands l None.

(** ** Rotation of seeding slots *)

Record SeedCand := mkSeed {
  sc_id : TorrentId;
  sc_active : bool;
  sc_uploading : bool
}.

Record RotationState := mkRot {
  slot_since : gmap TorrentId Z;
  waiting_since : gmap TorrentId Z;
  last_upload : gmap TorrentId Z
}.

Record RotationResult := mkRotRes {
  rr_pick : gset TorrentId;
  rr_rotated_out : list TorrentId;
  rr_rotated_in : list TorrentId;
  rr_eta_secs : gmap TorrentId Z
}.

(** [map[&k]]: a panic when the key is missing. *)
Definition map_index {V} (m : gmap TorrentId V) (k : TorrentId) : outcome V :=
  match m !! k with Some v => Ret v | None => Panic end.

(** [m.entry(k).or_insert(v)]. *)
Definition or_insert {V} (m : gmap TorrentId V) (k : TorrentId) (v : V) : gmap TorrentId V :=
  match m !! k with Some _ => m | None => <[k := v]> m end.

Definition retain_ids {V} (ids : gset TorrentId) (m : gmap TorrentId V) : gmap TorrentId V :=
  filter (fun kv => kv.1 ∈ ids) m.

(** The bookkeeping of one candidate. *)
Definition rot_observe (now : Z) (st : RotationState) (c : SeedCand) : RotationState :=
  if sc_active c then
    let slot := or_insert (slot_since st) (sc_id c) now in
    let since := default now (slot !! sc_id c) in
    mkRot slot (delete (sc_id c) (waiting_since st))
      (if sc_uploading c then <[sc_id c := now]> (last_upload st)
       else or_insert (last_upload st) (sc_id c) since)
  else
    mkRot (delete (sc_id c) (slot_since st))
      (or_insert (waiting_since st) (sc_id c) now) (delete (sc_id c) (last_upload st)).

(** [sort_by_key(|id| (m[id], id))]. *)
Definition key_leb (a b : Z * TorrentId) : bool :=
  (a.1 <? b.1) || ((a.1 =? b.1) && (a.2 <=? b.2)%nat).

Fixpoint with_keys {A} (m : gmap TorrentId Z) (id_of : A -> TorrentId) (xs : list A)
    : outcome (list (Z * TorrentId * A)) :=
  match xs with
  | [] => Ret []
  | x :: xs =>
    k ← map_index m (id_of x);
    r ← with_keys m id_of xs;
    Ret ((k, id_of x, x) :: r)
  end.

Definition sort_on {A} (m : gmap TorrentId Z) (id_of : A -> TorrentId) (xs : list A)
    : outcome (list A) :=
  ks ← with_keys m id_of xs;
  Ret ((sort_by (fun a b : Z * TorrentId * A => key_leb a.1 b.1) ks).*2).

(** Whether a holder's slot may be given away: used up, or idle for too long. *)
Definition releasable_holder (st : RotationState) (slot_len idle_grace now : Z) (c : SeedCand)
    : outcome bool :=
  s ← map_index (slot_since st) (sc_id c);
  u ← map_index (last_upload st) (sc_id c);
  let held_for := saturating_sub now s in
  let idle_for := saturating_sub now u in
  let expired := slot_len <=? held_for in
  let idle := (idle_grace <=? idle_for) && negb (sc_uploading c) in
  Ret (expired || idle).

Fixpoint split_holders (rel : SeedCand -> outcome bool) (hs : list SeedCand)
    : outcome (list TorrentId * list TorrentId) :=
  match hs with
  | [] => Ret ([], [])
  | h :: hs =>
    b ← rel h;
    r ← split_holders rel hs;
    Ret (if (b : bool) then (r.1, sc_id h :: r.2) else (sc_id h :: r.1, r.2))
  end.

(** [while keep.len() > slots { releasable.push(keep.pop()) }]. *)
Definition overflow_holders (slots : nat) (keep releasable : list TorrentId)
    : list TorrentId * list TorrentId :=
  (take slots keep, releasable ++ reverse (drop slots keep)).

(** The loop over [releasable]: the free slots left, the picks made, who came in
    and who went out, and the rest of the waiting list. *)
Fixpoint hand_over (free : nat) (waiting releasable : list TorrentId)
    : nat * list TorrentId * list TorrentId * list TorrentId * list TorrentId :=
  match releasable with
  | [] => (free, [], [], [], waiting)
  | r :: rs =>
    match free with
    | O =>
      let '(f, pick, rin, rout, w) := hand_over O waiting rs in (f, pick, rin, r :: rout, w)
    | S free =>
      match waiting with
      | w :: ws =>
        let '(f, pick, rin, rout, w') := hand_over free ws rs in
        (f, w :: pick, w :: rin, r :: rout, w')
      | [] =>
        let '(f, pick, rin, rout, w') := hand_over free [] rs in
        (f, r :: pick, rin, rout, w')
      end
    end
  end.

(** The estimate for those still waiting. *)
Definition seed_etas (st : RotationState) (pick waiting : list TorrentId) (slot_len now : Z)
    : gmap TorrentId Z :=
  let remaining := sort_by Z.leb
    ((fun id => let since := default now (slot_since st !! id) in
                saturating_sub slot_len (saturating_sub now since) / 1000000000) <$> pick) in
  match remaining with
  | [] => ∅
  | _ =>
    let n := length remaining in
    list_to_map (reverse (imap (fun rank id =>
      (id, u64 (default 0 (remaining !! (rank mod n)%nat)
                + u64 (Z.of_nat (rank / n)%nat * (slot_len / 1000000000))))) waiting))
  end.

Definition rotate_seeds (cands : list SeedCand) (slots : nat) (slot_len idle_grace : Z)
    (st : RotationState) (now : Z) : outcome (RotationState * RotationResult) :=
  let ids : gset TorrentId := list_to_set (sc_id <$> cands) in
  let st := mkRot (retain_ids ids (slot_since st)) (retain_ids ids (waiting_since st))
              (retain_ids ids (last_upload st)) in
  let st := foldl (rot_observe now) st cands in
  if (length cands <=? slots)%nat then Ret (st, mkRotRes ids [] [] ∅)
  else
    waiting ← sort_on (waiting_since st) id
                (sc_id <$> filter (fun c => sc_active c = false) cands);
    holders ← sort_on (slot_since st) sc_id (filter (fun c => sc_active c = true) cands);
    kr ← split_holders (releasable_holder st slot_len idle_grace now) holders;
    let '(keep, releasable) := overflow_holders slots kr.1 kr.2 in
    let '(free, pick, rin, rout, waiting) :=
      hand_over (slots - length keep) waiting releasable in
    let pick := keep ++ pick ++ take free waiting in
    let rin := rin ++ take free waiting in
    let waiting := drop free waiting in
    Ret (st, mkRotRes (list_to_set pick) rout rin (seed_etas st pick waiting slot_len now)).

(** ** Moving entries *)

Inductive QueueMove := MoveUp | MoveDown | MoveTop | MoveBottom.

Section Moves.
Context {T : Type} `{Countable T}.

(** [order.swap(i, j)]. *)
Definition swap (order : list T) (i j : nat) : outcome (list T) :=
  a ← index order i;
  b ← index order j;
  Ret (<[i := b]> (<[j := a]> order)).

(** One round of the [Up] and [Down] loops: swap when the first of the pair at
    [i] differs from the second as the move asks. *)
Definition up_step (sel : gset T) (order : list T) (i : nat) : outcome (list T) :=
  x ← index order i;
  y ← index order (i - 1);
  if bool_decide (x ∈ sel) && negb (bool_decide (y ∈ sel)) then swap order (i - 1) i
  else Ret order.

Definition down_step (sel : gset T) (order : list T) (i : nat) : outcome (list T) :=
  x ← index order i;
  y ← index order (i + 1);
  if bool_decide (x ∈ sel) && negb (bool_decide (y ∈ sel)) then swap order i (i + 1)
  else Ret order.

Definition apply_move (order : list T) (sel : gset T) (mv : QueueMove) : outcome (list T) :=
  let n := length order in
  match mv with
  | MoveUp => foldM (up_step sel) order (seq 1 (n - 1))
  | MoveDown => foldM (down_step sel) order (reverse (seq 0 (n - 1)))
  | MoveTop => Ret (filter (fun x => x ∈ sel) order ++ filter (fun x => x ∉ sel) order)
  | MoveBottom => Ret (filter (fun x => x ∉ sel) order ++ filter (fun x => x ∈ sel) order)
  end.

(** ** Keeping the order in sync with the session *)

(** The new order and whether it has to be saved. *)
Definition sync (order : list T) (present : list (TorrentId * T)) : list T * bool :=
  let set : gset T := list_to_set present.*2 in
  let kept := filter (fun h => h ∈ set) order in
  let changed := negb (length kept =? length order)%nat in
  let known : gset T := list_to_set kept in
  let new := filter (fun p : TorrentId * T => p.2 ∉ known) present in
  let new := sort_by (fun a b : TorrentId * T => (a.1 <=? b.1)%nat) new in
  match new with
  | [] => (kept, changed)
  | _ => (kept ++ new.*2, true)
  end.

Definition position (order : list T) (h : T) : option nat :=
  (fun p : nat * T => (p.1 + 1)%nat) <$> list_find (fun x => x = h) order.
End Moves.

(** ** Slow torrents *)

Definition SLOW_RATE_BYTES_PER_SEC : Z := 2 * 1024.
Definition SLOW_AFTER : Z := 60 * 1000000000.

Definition observe_speed (slow_since : gmap TorrentId Z) (id : TorrentId) (down_bps up_bps now : Z)
    : gmap TorrentId Z * bool :=
  if (down_bps <? SLOW_RATE_BYTES_PER_SEC) && (up_bps <? SLOW_RATE_BYTES_PER_SEC) then
    let m := or_insert slow_since id now in
    (m, SLOW_AFTER <=? saturating_sub now (default now (m !! id)))
  else (delete id slow_since, false).

Definition forget_speed (slow_since : gmap TorrentId Z) (id : TorrentId) : gmap TorrentId Z :=
  delete id slow_since.

(** ** Admission respects the limits *)

Section Admit.
Context (l : QueueLimits) (seed_pick : option (gset TorrentId)).

(** The admitted candidates of one kind that count toward a limit. *)
Definition counted (kind : QueueCandidate -> bool) (cands : list QueueCandidate)
    (out : gset TorrentId) : Z :=
  Z.of_nat (length (filter (fun c => kind c = true /\ qc_id c ∈ out
                                     /\ exempt l seed_pick c = false) cands)).

Definition is_download (c : QueueCandidate) : bool := negb (qc_seeding c).
Definition any_kind (c : QueueCandidate) : bool := true.

Definition within (n : Z) (lim : option Z) : Prop :=
  match lim with Some m => n <= m | None => True end.

(** The limit that kept a candidate out was reached by the ones before it. *)
Definition limit_reached (before : list QueueCandidate) (out : gset TorrentId)
    (c : QueueCandidate) : Prop :=
  max_active l = Some (counted any_kind before out)
  \/ (if qc_seeding c then
        match seed_pick with
        | Some pick => qc_id c ∉ pick
        | None => max_uploads l = Some (counted qc_seeding before out)
        end
      else max_downloads l = Some (counted is_download before out)).

Definition limits_nonneg : Prop :=
  (forall m, max_downloads l = Some m -> 0 <= m) /\ (forall m, max_uploads l = Some m -> 0 <= m)
  /\ (forall m, max_active l = Some m -> 0 <= m).

Lemma counted_snoc kind cands c out :
  counted kind (cands ++ [c]) out
  = counted kind cands out
    + Z.b2z (kind c && bool_decide (qc_id c ∈ out) && negb (exempt l seed_pick c)).
Proof.
  unfold counted. rewrite filter_app, length_app, filter_cons, filter_nil.
  case_decide as Hd; simpl.
  - destruct Hd as (-> & Hin & ->). rewrite bool_decide_eq_true_2 by done. simpl. lia.
  - destruct (kind c), (bool_decide (qc_id c ∈ out)) eqn:Eb, (exempt l seed_pick c); simpl; try lia.
    apply bool_decide_eq_true in Eb. tauto.
Qed.

Lemma counted_ext kind cands out out' :
  (forall c, c ∈ cands -> qc_id c ∈ out <-> qc_id c ∈ out') ->
  counted kind cands out = counted kind cands out'.
Proof.
  intros Hext. unfold counted. do 2 f_equal. apply filter_ext_in.
  intros c Hc. by rewrite (Hext c).
Qed.

(** What the loop has established after the candidates [cands]. *)
Record admit_inv (cands : list QueueCandidate) (s : AdmitState) : Prop := {
  ai_dl : ad_dl s = counted is_download cands (ad_out s);
  ai_up : ad_up s = counted qc_seeding cands (ad_out s);
  ai_total : ad_total s = counted any_kind cands (ad_out s);
  ai_sub : forall x, x ∈ ad_out s -> x ∈ qc_id <$> cands;
  ai_dl_within : within (ad_dl s) (max_downloads l);
  ai_up_within : seed_pick = None -> within (ad_up s) (max_uploads l);
  ai_pick : forall pick c, seed_pick = Some pick -> c ∈ cands -> qc_seeding c = true ->
    qc_id c ∈ ad_out s -> qc_id c ∈ pick;
  ai_total_within : within (ad_total s) (max_active l);
  ai_refused : forall i c, cands !! i = Some c -> qc_id c ∉ ad_out s ->
    exempt l seed_pick c = false /\ limit_reached (take i cands) (ad_out s) c
}.

Lemma counted_bounds kind cands out : 0 <= counted kind cands out <= Z.of_nat (length cands).
Proof.
  unfold counted. split; [lia|]. apply inj_le.
  rewrite (length_filter _ cands). done.
Qed.

Lemma under_false n lim : under n lim = false -> within n lim -> lim = Some n.
Proof. destruct lim as [m|]; simpl; [|done]. rewrite Z.ltb_ge. intros. f_equal. lia. Qed.

Lemma under_within n lim : under n lim = true -> within (n + 1) lim.
Proof. destruct lim as [m|]; simpl; [|done]. rewrite Z.ltb_lt. lia. Qed.

(** Deciding on [c] does not change what was decided on the others. *)
Lemma counted_keep kind cands c out :
  qc_id c ∉ qc_id <$> cands ->
  counted kind cands ({[qc_id c]} ∪ out) = counted kind cands out.
Proof.
  intros Hn. apply counted_ext. intros d Hd. rewrite elem_of_union, elem_of_singleton.
  split; [|by right]. intros [E|?]; [|done]. exfalso. apply Hn. rewrite <- E.
  by apply list_elem_of_fmap_2.
Qed.

Lemma limit_reached_keep before c d out :
  qc_id c ∉ qc_id <$> before ->
  limit_reached before out d -> limit_reached before ({[qc_id c]} ∪ out) d.
Proof. intros Hn. unfold limit_reached. by rewrite !counted_keep. Qed.

Lemma lookup_snoc_cases {A} (xs : list A) x i y :
  (xs ++ [x]) !! i = Some y ->
  (i < length xs)%nat /\ xs !! i = Some y /\ take i (xs ++ [x]) = take i xs
  \/ i = length xs /\ y = x /\ take i (xs ++ [x]) = xs.
Proof.
  intros Hi. destruct (decide (i < length xs)%nat).
  - left. rewrite lookup_app_l in Hi by done. split_and!; try done.
    by rewrite take_app_le by lia.
  - right. rewrite lookup_app_r in Hi by lia.
    destruct (i - length xs)%nat eqn:E; [|by rewrite lookup_cons_ne_0, lookup_nil in Hi].
    simpl in Hi. injection Hi as <-. assert (i = length xs) as -> by lia.
    split_and!; [done|done|]. by apply take_app_length.
Qed.

Lemma not_in_take c (cands : list QueueCandidate) i :
  qc_id c ∉ qc_id <$> cands -> qc_id c ∉ qc_id <$> take i cands.
Proof.
  intros Hn Hin. apply Hn. apply list_elem_of_fmap in Hin as (d & -> & Hd).
  apply list_elem_of_fmap_2. by apply elem_of_take in Hd as (j & Hj & _); eapply list_elem_of_lookup_2.
Qed.

(** The refusals recorded before stay valid when [c] is admitted. *)
Lemma refused_keep cands s c :
  admit_inv cands s -> qc_id c ∉ qc_id <$> cands ->
  forall i d, (cands ++ [c]) !! i = Some d -> qc_id d ∉ {[qc_id c]} ∪ ad_out s ->
    exempt l seed_pick d = false
    /\ limit_reached (take i (cands ++ [c])) ({[qc_id c]} ∪ ad_out s) d.
Proof.
  intros Hinv Hn i d Hi Hd.
  destruct (lookup_snoc_cases _ _ _ _ Hi) as [(Hlt & Hi' & ->)|(-> & -> & _)]; [|set_solver].
  destruct (ai_refused _ _ Hinv i d Hi') as [He Hl]; [set_solver|].
  split; [done|]. apply limit_reached_keep; [by apply not_in_take|done].
Qed.

Lemma admit_step_inv cands s c :
  admit_inv cands s -> qc_id c ∉ qc_id <$> cands -> Z.of_nat (length cands) + 1 < 2 ^ 32 ->
  admit_inv (cands ++ [c]) (admit_step l seed_pick s c).
Proof.
  intros Hinv Hn Hlen. pose proof (refused_keep cands s c Hinv Hn) as Href.
  assert (qc_id c ∉ ad_out s) as Hno by (intros Hin; by apply Hn, (ai_sub _ _ Hinv)).
  pose proof Hinv as [Hd Hu Ht Hsub Hdw Huw Hpk Htw Hr].
  assert (Hin : forall x, x ∈ {[qc_id c]} ∪ ad_out s -> x ∈ qc_id <$> (cands ++ [c])).
  { intros x. rewrite fmap_app, elem_of_app, elem_of_union, elem_of_singleton. simpl.
    intros [->|?]; [right; left|left; by apply Hsub]. }
  assert (Hb : forall k, 0 <= counted k cands (ad_out s) <= Z.of_nat (length cands))
    by (intros; apply counted_bounds).
  unfold admit_step. destruct (exempt l seed_pick c) eqn:Ee; [|destruct (fits l seed_pick s c) eqn:Ef].
  - split; cbn [ad_dl ad_up ad_total ad_out]; rewrite ?counted_snoc, ?counted_keep, ?Ee by done;
      rewrite ?andb_false_r, ?Z.add_0_r; try done.
    intros pick d Hs [Hd'| ->%list_elem_of_singleton]%elem_of_app Hse Hdo.
    + apply (Hpk pick d Hs Hd' Hse). apply elem_of_union in Hdo as [E%elem_of_singleton|?]; [|done].
      exfalso. apply Hn. rewrite <- E. by apply list_elem_of_fmap_2.
    + exfalso. unfold exempt in Ee. rewrite Hs, Hse in Ee. simpl in Ee.
      by rewrite andb_false_r in Ee.
  - unfold fits in Ef. apply andb_true_iff in Ef as [Ef1 Ef2].
    rewrite (wrap_id 32 (ad_total s + 1)) by (rewrite Ht; specialize (Hb any_kind); unfold is_uint; lia).
    rewrite (wrap_id 32 (ad_dl s + 1)) by (rewrite Hd; specialize (Hb is_download); unfold is_uint; lia).
    rewrite (wrap_id 32 (ad_up s + 1)) by (rewrite Hu; specialize (Hb qc_seeding); unfold is_uint; lia).
    pose proof (under_within _ _ Ef2).
    split; cbn [ad_dl ad_up ad_total ad_out]; rewrite ?counted_snoc, ?counted_keep, ?Ee by done;
      rewrite ?(bool_decide_eq_true_2 (qc_id c ∈ {[qc_id c]} ∪ ad_out s)) by set_solver;
      rewrite ?andb_true_r; try done.
    + rewrite Hd. unfold is_download at 4. destruct (qc_seeding c); cbn [negb Z.b2z]; lia.
    + rewrite Hu. destruct (qc_seeding c); cbn [Z.b2z]; lia.
    + rewrite Ht. unfold any_kind at 3. cbn [Z.b2z]. lia.
    + destruct (qc_seeding c); [done|]. by apply under_within.
    + intros Hs. destruct (qc_seeding c); [|by apply Huw]. rewrite Hs in Ef1. by apply under_within.
    + intros pick d Hs [Hd'| ->%list_elem_of_singleton]%elem_of_app Hse Hdo.
      * apply (Hpk pick d Hs Hd' Hse). apply elem_of_union in Hdo as [E%elem_of_singleton|?]; [|done].
        exfalso. apply Hn. rewrite <- E. by apply list_elem_of_fmap_2.
      * rewrite Hse, Hs in Ef1. by apply bool_decide_eq_true in Ef1.
  - split; rewrite ?counted_snoc; rewrite ?(bool_decide_eq_false_2 (qc_id c ∈ ad_out s)) by done;
      rewrite ?andb_false_r, ?Z.add_0_r; try done.
    + intros x Hx. rewrite fmap_app. apply elem_of_app. left. by apply Hsub.
    + intros pick d Hs [Hd'| ->%list_elem_of_singleton]%elem_of_app Hse Hdo; [by apply (Hpk pick d)|done].
    + intros i d Hi Hdo.
      destruct (lookup_snoc_cases _ _ _ _ Hi) as [(Hlt & Hi' & ->)|(-> & -> & ->)]; [by apply Hr|].
      split; [done|]. unfold limit_reached. unfold fits in Ef. apply andb_false_iff in Ef as [Ef|Ef].
      * right. destruct (qc_seeding c).
        -- destruct seed_pick as [pick|]; [by apply bool_decide_eq_false in Ef|].
           rewrite <- Hu. apply under_false; [done|by apply Huw].
        -- rewrite <- Hd. by apply under_false.
      * left. rewrite <- Ht. by apply under_false.
Qed.

Lemma admit_fold_inv cands :
  limits_nonneg -> NoDup (qc_id <$> cands) -> Z.of_nat (length cands) < 2 ^ 32 ->
  admit_inv cands (foldl (admit_step l seed_pick) (mkAdmit 0 0 0 ∅) cands).
Proof.
  intros (Hd & Hu & Ha). induction cands as [|c cands IH] using rev_ind; intros Hnd Hlen.
  - split; cbn; try done; try set_solver.
    + destruct (max_downloads l) as [m|]; simpl; [by apply Hd|done].
    + intros _. destruct (max_uploads l) as [m|]; simpl; [by apply Hu|done].
    + destruct (max_active l) as [m|]; simpl; [by apply Ha|done].
  - rewrite foldl_snoc. rewrite fmap_app in Hnd. apply NoDup_app in Hnd as (Hnd & Hdis & _).
    rewrite length_app in Hlen. simpl in Hlen. apply admit_step_inv; [apply IH; [done|lia]| |lia].
    intros Hin. apply (Hdis _ Hin). left.
Qed.
End Admit.


Definition ex_cands : list QueueCandidate :=
  [mkCand 1 false true true; mkCand 2 false true false; mkCand 3 false false false;
   mkCand 4 true true false].


(** ** The rotation is fair *)

(** After the bookkeeping, a candidate has the entries its role needs. *)
Definition observed (st : RotationState) (c : SeedCand) : Prop :=
  if sc_active c then is_Some (slot_since st !! sc_id c) /\ is_Some (last_upload st !! sc_id c)
  else is_Some (waiting_since st !! sc_id c).

Lemma or_insert_lookup {V} (m : gmap TorrentId V) k v : is_Some (or_insert m k v !! k).
Proof. unfold or_insert. destruct (m !! k) eqn:E; [by rewrite E|by rewrite lookup_insert_eq]. Qed.

Lemma or_insert_lookup_ne {V} (m : gmap TorrentId V) k v k' :
  k <> k' -> or_insert m k v !! k' = m !! k'.
Proof. intros. unfold or_insert. destruct (m !! k); [done|]. by apply lookup_insert_ne. Qed.

Lemma rot_observe_self now st c : observed (rot_observe now st c) c.
Proof.
  unfold observed, rot_observe. destruct (sc_active c); cbn; [|apply or_insert_lookup].
  split; [apply or_insert_lookup|]. destruct (sc_uploading c); [|apply or_insert_lookup].
  rewrite lookup_insert_eq. by eexists.
Qed.

Lemma rot_observe_other now st c d :
  sc_id c <> sc_id d -> observed st d -> observed (rot_observe now st c) d.
Proof.
  intros Hne. unfold observed, rot_observe.
  destruct (sc_active c), (sc_uploading c), (sc_active d); cbn;
    rewrite ?or_insert_lookup_ne, ?lookup_delete_ne, ?lookup_insert_ne by done; done.
Qed.

Lemma rot_observe_all now cands st :
  NoDup (sc_id <$> cands) -> Forall (observed (foldl (rot_observe now) st cands)) cands.
Proof.
  induction cands as [|c cands IH] using rev_ind; intros Hnd; [done|].
  rewrite fmap_app in Hnd. apply NoDup_app in Hnd as (Hnd & Hdis & _).
  rewrite foldl_snoc. apply Forall_app. split; [|apply Forall_singleton, rot_observe_self].
  specialize (IH Hnd). rewrite Forall_forall in IH |- *. intros d Hd.
  apply rot_observe_other; [|by apply IH].
  intros E. apply (Hdis (sc_id d)); [by apply list_elem_of_fmap_2|]. rewrite <- E. left.
Qed.

Definition key_of {A} (m : gmap TorrentId Z) (id_of : A -> TorrentId) (x : A) : Z * TorrentId :=
  (default 0 (m !! id_of x), id_of x).

Lemma with_keys_total {A} m (id_of : A -> TorrentId) xs :
  Forall (fun x => is_Some (m !! id_of x)) xs ->
  with_keys m id_of xs = Ret ((fun x => (key_of m id_of x, x)) <$> xs).
Proof.
  induction 1 as [|x xs [k Hk] _ IH]; [done|].
  cbn. unfold map_index. rewrite Hk. cbn. rewrite IH. cbn.
  unfold key_of at 2. by rewrite Hk.
Qed.

Lemma key_leb_total a b : key_leb a b = true \/ key_leb b a = true.
Proof. unfold key_leb. rewrite !orb_true_iff, !andb_true_iff, !Z.ltb_lt, !Z.eqb_eq, !Nat.leb_le. lia. Qed.

Lemma key_leb_trans a b c : key_leb a b = true -> key_leb b c = true -> key_leb a c = true.
Proof. unfold key_leb. rewrite !orb_true_iff, !andb_true_iff, !Z.ltb_lt, !Z.eqb_eq, !Nat.leb_le. lia. Qed.

Lemma sorted_by_fmap {A B} (leb : B -> B -> bool) (f : A -> B) (xs : list A) :
  sorted_by leb (f <$> xs) -> sorted_by (fun x y => leb (f x) (f y)) xs.
Proof.
  induction xs as [|x xs IH]; [done|]. intros [Hx Hs]. split; [|by apply IH].
  intros y Hy. apply Hx. by apply list_elem_of_fmap_2.
Qed.

Lemma sort_on_total {A} m (id_of : A -> TorrentId) xs :
  Forall (fun x => is_Some (m !! id_of x)) xs ->
  exists ys, sort_on m id_of xs = Ret ys /\ ys ≡ₚ xs
    /\ sorted_by (fun x y => key_leb (key_of m id_of x) (key_of m id_of y)) ys.
Proof.
  intros Hall. unfold sort_on. rewrite (with_keys_total _ _ _ Hall). cbn.
  set (ks := (fun x => (key_of m id_of x, x)) <$> xs).
  set (leb := fun a b : Z * TorrentId * A => key_leb a.1 b.1).
  assert (Hperm : sort_by leb ks ≡ₚ ks) by apply sort_by_perm.
  assert (Hks : ks.*2 = xs).
  { subst ks. rewrite <- list_fmap_compose. apply list_fmap_id. }
  exists (sort_by leb ks).*2. split; [done|]. split; [by rewrite Hperm, Hks|].
  apply (sorted_by_fmap key_leb (key_of m id_of)).
  assert (Heq : key_of m id_of <$> (sort_by leb ks).*2 = (sort_by leb ks).*1).
  { rewrite <- list_fmap_compose. apply list_fmap_ext. intros i [k x] Hi.
    apply list_elem_of_lookup_2 in Hi. rewrite Hperm in Hi. subst ks.
    by apply list_elem_of_fmap in Hi as (x' & [= -> ->] & _). }
  rewrite Heq. clear Heq Hperm Hks.
  assert (Hs : sorted_by leb (sort_by leb ks)).
  { apply sort_by_sorted; subst leb; [intros; apply key_leb_total|intros ? ? ?; apply key_leb_trans]. }
  induction (sort_by leb ks) as [|a l IH]; [done|]. destruct Hs as [Ha Hs].
  split; [|by apply IH]. intros y Hy. apply list_elem_of_fmap in Hy as (b & -> & Hb). by apply Ha.
Qed.

(** ** The loop over the releasable holders, in closed form *)

Lemma hand_over_spec free W R :
  let k := Nat.min free (length R) in
  let m := Nat.min k (length W) in
  hand_over free W R
  = ((free - k)%nat, take m W ++ drop m (take k R), take m W, take m R ++ drop k R, drop m W).
Proof.
  revert free W. induction R as [|r R IH]; intros free W.
  - cbn. rewrite Nat.min_0_r. cbn. by rewrite Nat.sub_0_r.
  - destruct free as [|free].
    + cbn. specialize (IH 0%nat W). cbn in IH. by rewrite IH.
    + destruct W as [|w W].
      * cbn. specialize (IH free []). cbn in IH. rewrite Nat.min_0_r in IH. cbn in IH. by rewrite IH.
      * cbn. specialize (IH free W). cbn in IH. by rewrite IH.
Qed.

Definition releasable_b (st : RotationState) (slot_len idle_grace now : Z) (c : SeedCand) : bool :=
  let held_for := saturating_sub now (default 0 (slot_since st !! sc_id c)) in
  let idle_for := saturating_sub now (default 0 (last_upload st !! sc_id c)) in
  (slot_len <=? held_for) || ((idle_grace <=? idle_for) && negb (sc_uploading c)).

Lemma releasable_holder_total st slot_len idle_grace now c :
  is_Some (slot_since st !! sc_id c) -> is_Some (last_upload st !! sc_id c) ->
  releasable_holder st slot_len idle_grace now c = Ret (releasable_b st slot_len idle_grace now c).
Proof.
  intros [s Hs] [u Hu]. unfold releasable_holder, releasable_b, map_index. by rewrite Hs, Hu.
Qed.

Lemma split_holders_total st slot_len idle_grace now hs :
  Forall (fun c => is_Some (slot_since st !! sc_id c) /\ is_Some (last_upload st !! sc_id c)) hs ->
  let rel := releasable_b st slot_len idle_grace now in
  split_holders (releasable_holder st slot_len idle_grace now) hs
  = Ret (sc_id <$> filter (fun c => rel c = false) hs, sc_id <$> filter (fun c => rel c = true) hs).
Proof.
  cbn zeta. induction 1 as [|c hs Hc _ IH]; [done|].
  cbn [split_holders]. rewrite releasable_holder_total by apply Hc. rewrite IH.
  rewrite !filter_cons. by destruct (releasable_b _ _ _ _ c).
Qed.

Lemma overflow_holders_perm slots K R :
  let '(K', R') := overflow_holders slots K R in
  (length K' <= slots)%nat /\ K' ++ R' ≡ₚ K ++ R /\ ((length K <= slots)%nat -> K' = K /\ R' = R).
Proof.
  unfold overflow_holders. split_and!.
  - rewrite length_take. lia.
  - rewrite reverse_Permutation, (Permutation_app_comm R), app_assoc, take_drop. done.
  - intros. rewrite take_ge, drop_ge by lia. by rewrite app_nil_r.
Qed.

(** What a rotation pass over the waiting list [W], the kept holders [K] and the
    releasable ones [R] ends with. *)
Record rotation_ends (slots : nat) (W K R pick rin rout left : list TorrentId) : Prop := {
  re_in : exists p, rin = take p W /\ left = drop p W;
  re_pick : forall x, x ∈ pick <-> x ∈ K \/ x ∈ rin \/ (x ∈ R /\ x ∉ rout);
  re_out : forall x, x ∈ rout -> x ∈ R;
  re_nodup : NoDup pick;
  re_len : (length pick <= slots)%nat;
  re_full : (slots <= length K + length R)%nat -> length pick = slots
}.

Lemma rotation_pass slots W K R :
  NoDup (W ++ K ++ R) -> (length K <= slots)%nat ->
  let '(free, pick, rin, rout, W') := hand_over (slots - length K) W R in
  rotation_ends slots W K R (K ++ pick ++ take free W') (rin ++ take free W') rout (drop free W').
Proof.
  intros Hnd HK. rewrite hand_over_spec.
  set (k := Nat.min (slots - length K) (length R)). set (m := Nat.min k (length W)).
  set (f := (slots - length K - k)%nat).
  assert (Hrin : take m W ++ take f (drop m W) = take (m + f) W) by apply take_take_drop.
  assert (Hpk : K ++ (take m W ++ drop m (take k R)) ++ take f (drop m W)
                ≡ₚ K ++ take (m + f) W ++ drop m (take k R)).
  { rewrite <- Hrin. solve_Permutation. }
  assert (HR : R = take m R ++ drop m (take k R) ++ drop k R).
  { rewrite <- (take_drop k R) at 1.
    rewrite <- (take_drop m (take k R)) at 1. rewrite take_take, Nat.min_l by lia. by rewrite app_assoc. }
  apply NoDup_app in Hnd as (HndW & HW & HndKR). apply NoDup_app in HndKR as (HndK & HKR & HndR).
  split.
  - exists (m + f)%nat. split; [done|]. by rewrite drop_drop.
  - intros x. rewrite Hpk, Hrin, !elem_of_app. rewrite HR in HndR.
    split.
    + intros [?|[?|Hx]]; [by left|by right; left|]. right. right.
      split; [rewrite HR; set_solver|]. intros Hout.
      apply NoDup_app in HndR as (_ & H1 & (_ & H2 & _)%NoDup_app). set_solver.
    + intros [?|[?|[HxR Hout]]]; [by left|by right; left|]. rewrite HR in HxR. set_solver.
  - intros x. rewrite HR at 3. set_solver.
  - rewrite Hpk. apply NoDup_app. split_and!; [done| |].
    + intros x HxK [Hx|Hx]%elem_of_app.
      * apply (HW x); [by eapply subseteq_take|set_solver].
      * apply (HKR x HxK). rewrite HR. set_solver.
    + apply NoDup_app. split_and!.
      * apply (sublist_NoDup _ W); [done|apply sublist_take].
      * intros x Hx Hx'. apply (HW x); [by eapply subseteq_take|]. rewrite HR. set_solver.
      * rewrite HR in HndR. by apply NoDup_app in HndR as (_ & _ & (? & _ & _)%NoDup_app).
  - rewrite Hpk, !length_app, length_take, length_drop, length_take. lia.
  - rewrite Hpk, !length_app, length_take, length_drop, length_take. lia.
Qed.

Lemma sorted_by_split {A} (leb : A -> A -> bool) (xs ys : list A) x y :
  sorted_by leb (xs ++ ys) -> x ∈ xs -> y ∈ ys -> leb x y = true.
Proof.
  induction xs as [|z xs IH]; [by intros _ ?%not_elem_of_nil|].
  intros [Hz Hs] [->|Hx]%elem_of_cons Hy; [apply Hz; set_solver|by apply IH].
Qed.

Lemma filter_split_perm {A} (f : A -> bool) (xs : list A) :
  filter (fun x => f x = false) xs ++ filter (fun x => f x = true) xs ≡ₚ xs.
Proof.
  induction xs as [|x xs IH]; [done|]. rewrite !filter_cons.
  destruct (f x); simpl; [rewrite <- Permutation_middle|]; by rewrite IH.
Qed.

Definition waiting_ids (cands : list SeedCand) : list TorrentId :=
  sc_id <$> filter (fun c => sc_active c = false) cands.
Definition holder_ids (cands : list SeedCand) : list TorrentId :=
  sc_id <$> filter (fun c => sc_active c = true) cands.

Definition rotation_observed (cands : list SeedCand) (st : RotationState) (now : Z)
    : RotationState :=
  let ids : gset TorrentId := list_to_set (sc_id <$> cands) in
  foldl (rot_observe now) (mkRot (retain_ids ids (slot_since st)) (retain_ids ids (waiting_since st))
    (retain_ids ids (last_upload st))) cands.

(** The pass of [rotate_seeds] when not everyone fits. *)
Lemma rotate_seeds_pass cands slots slot_len idle_grace st now :
  NoDup (sc_id <$> cands) -> (slots < length cands)%nat ->
  let st' := rotation_observed cands st now in
  let rel := releasable_b st' slot_len idle_grace now in
  exists W K R pick rin rout left,
    rotate_seeds cands slots slot_len idle_grace st now
      = Ret (st', mkRotRes (list_to_set pick) rout rin (seed_etas st' pick left slot_len now))
    /\ W ≡ₚ waiting_ids cands /\ K ++ R ≡ₚ holder_ids cands
    /\ sorted_by (fun x y => key_leb (key_of (waiting_since st') id x) (key_of (waiting_since st') id y)) W
    /\ ((length (holder_ids cands) <= slots)%nat ->
        forall c, c ∈ cands -> sc_active c = true -> rel c = false -> sc_id c ∈ K)
    /\ rotation_ends slots W K R pick rin rout left.
Proof.
  intros Hnd Hlen st' rel.
  pose proof (rot_observe_all now cands (mkRot (retain_ids (list_to_set (sc_id <$> cands)) (slot_since st))
    (retain_ids (list_to_set (sc_id <$> cands)) (waiting_since st))
    (retain_ids (list_to_set (sc_id <$> cands)) (last_upload st))) Hnd) as Hobs.
  change (foldl _ _ cands) with st' in Hobs. rewrite Forall_forall in Hobs.
  unfold rotate_seeds. cbv zeta.
  change (foldl (rot_observe now) _ cands) with st'.
  rewrite (proj2 (Nat.leb_gt _ _)) by done.
  destruct (sort_on_total (waiting_since st') id (waiting_ids cands)) as (W & HW & HWp & HWs).
  { apply Forall_forall. intros x (c & -> & Hc)%list_elem_of_fmap.
    apply list_elem_of_filter in Hc as [Ha Hc]. specialize (Hobs c Hc). unfold observed in Hobs.
    by rewrite Ha in Hobs. }
  destruct (sort_on_total (slot_since st') sc_id (filter (fun c => sc_active c = true) cands))
    as (hs & Hhs & Hhp & _).
  { apply Forall_forall. intros c [Ha Hc]%list_elem_of_filter. specialize (Hobs c Hc).
    unfold observed in Hobs. rewrite Ha in Hobs. by destruct Hobs. }
  unfold waiting_ids in HW at 1. rewrite HW. run. rewrite Hhs. run.
  rewrite split_holders_total; cycle 1.
  { apply Forall_forall. intros c Hc. rewrite Hhp in Hc. apply list_elem_of_filter in Hc as [Ha Hc].
    specialize (Hobs c Hc). unfold observed in Hobs. by rewrite Ha in Hobs. }
  cbn [mbind outcome_bind fst snd].
  set (K0 := sc_id <$> _). set (R0 := sc_id <$> _).
  assert (HKR0 : K0 ++ R0 ≡ₚ holder_ids cands).
  { subst K0 R0. rewrite <- fmap_app, (filter_split_perm (releasable_b st' slot_len idle_grace now) hs), Hhp. done. }
  pose proof (overflow_holders_perm slots K0 R0) as Ho.
  destruct (overflow_holders slots K0 R0) as [K R]. destruct Ho as (HKl & HKR & Hkeep).
  assert (HndW : NoDup (W ++ K ++ R)).
  { rewrite HKR, HKR0, HWp. unfold waiting_ids, holder_ids.
    by rewrite <- fmap_app, (filter_split_perm sc_active cands). }
  pose proof (rotation_pass slots W K R HndW HKl) as Hp.
  destruct (hand_over _ W R) as [[[[free pick] rin] rout] W'].
  eexists W, K, R, _, _, rout, _. split; [reflexivity|]. split_and!; try done.
  - by rewrite HKR.
  - intros Hh c Hc Ha Hr. destruct Hkeep as [-> _].
    { rewrite <- HKR0, length_app in Hh. lia. }
    subst K0. apply list_elem_of_fmap_2, list_elem_of_filter. split; [done|].
    rewrite Hhp. by apply list_elem_of_filter.
Qed.

(** A rotation pass never panics and never runs more seeders than there are
    slots; when at least as many torrents hold slots as there are slots it fills
    them all. Those that come in were waiting and are picked, those that go out
    held a slot and are not picked; everyone picked either held a slot or came
    in. Whoever comes in waited at least as long as anyone still waiting, and a
    holder whose slot is neither used up nor idle keeps it (unless the limit was
    lowered below the number of holders). *)
Theorem rotate_seeds_correct (cands : list SeedCand) (slots : nat) (slot_len idle_grace : Z)
    (st : RotationState) (now : Z) :
  NoDup (sc_id <$> cands) ->
  let st' := rotation_observed cands st now in
  exists r, rotate_seeds cands slots slot_len idle_grace st now = Ret (st', r)
  /\ (size (rr_pick r) <= slots)%nat
  /\ ((length cands <= slots)%nat -> forall x, x ∈ rr_pick r <-> x ∈ sc_id <$> cands)
  /\ ((slots <= length (holder_ids cands))%nat -> (slots < length cands)%nat ->
      size (rr_pick r) = slots)
  /\ (forall x, x ∈ rr_rotated_in r -> x ∈ waiting_ids cands /\ x ∈ rr_pick r)
  /\ (forall x, x ∈ rr_rotated_out r -> x ∈ holder_ids cands /\ x ∉ rr_pick r)
  /\ (forall x y, x ∈ rr_rotated_in r -> y ∈ waiting_ids cands -> y ∉ rr_rotated_in r ->
      key_leb (key_of (waiting_since st') id x) (key_of (waiting_since st') id y) = true)
  /\ ((length (holder_ids cands) <= slots)%nat ->
      forall c, c ∈ cands -> sc_active c = true ->
        releasable_b st' slot_len idle_grace now c = false -> sc_id c ∈ rr_pick r).
Proof.
  intros Hnd st'. destruct (decide (length cands <= slots)%nat) as [Hfit|Hfit].
  { eexists. split.
    { unfold rotate_seeds. cbv zeta. by rewrite (proj2 (Nat.leb_le _ _)) by done. }
    cbn. assert (Hin : forall x, x ∈ (list_to_set (sc_id <$> cands) : gset TorrentId) <-> x ∈ sc_id <$> cands)
      by (intros; apply elem_of_list_to_set).
    split_and!; try set_solver; try done.
    - by rewrite size_list_to_set, length_fmap.
    - intros; lia. }
  destruct (rotate_seeds_pass cands slots slot_len idle_grace st now Hnd) as
    (W & K & R & pick & rin & rout & left & Hrun & HW & HKR & Hsort & Hkeep & [Hin Hpk Hout Hndp Hlen Hfull]);
    [lia|].
  destruct Hin as (p & -> & ->).
  assert (Hndall : NoDup (W ++ K ++ R)).
  { rewrite HKR, HW. unfold waiting_ids, holder_ids. by rewrite <- fmap_app, (filter_split_perm sc_active cands). }
  apply NoDup_app in Hndall as (_ & HdW & (_ & HdK & _)%NoDup_app).
  eexists. split; [exact Hrun|]. cbn. rewrite (size_list_to_set pick) by done.
  setoid_rewrite elem_of_list_to_set. split_and!.
  - done.
  - lia.
  - intros Hs _. apply Hfull. rewrite <- HKR, length_app in Hs. lia.
  - intros x Hx. split; [|by apply Hpk; right; left]. rewrite <- HW. by eapply subseteq_take.
  - intros x Hx. assert (x ∈ R) as HxR by by apply Hout.
    split; [rewrite <- HKR; set_solver|]. rewrite Hpk. intros [?|[?|?]]; [by apply (HdK x)| |by destruct_and!].
    apply (HdW x); [by eapply subseteq_take|set_solver].
  - intros x y Hx Hy Hny. rewrite <- HW, <- (take_drop p W) in Hy. apply elem_of_app in Hy as [?|Hy]; [done|].
    rewrite <- (take_drop p W) in Hsort. by apply (sorted_by_split _ _ _ x y Hsort).
  - intros Hh c Hc Ha Hr. apply Hpk. left. by apply Hkeep.
Qed.

Definition ex_seeds : list SeedCand :=
  [mkSeed 1 true false; mkSeed 2 false false; mkSeed 3 false true; mkSeed 4 true true].

Lemma rotate_seeds_correct_witness :
  exists st r, rotate_seeds ex_seeds 2 5 5 (mkRot ∅ ∅ ∅) 10 = Ret (st, r)
    /\ (size (rr_pick r) = 2)%nat.
Proof.
  destruct (rotate_seeds_correct ex_seeds 2 5 5 (mkRot ∅ ∅ ∅) 10) as (r & Hr & _ & _ & Hs & _).
  - apply (bool_decide_unpack _). vm_compute. exact I.
  - eexists _, r. split; [exact Hr|]. apply Hs; vm_compute; lia.
Defined.

(** A pass may leave a slot empty while torrents wait: with four slots, two
    holders whose time is up and three torrents waiting, each holder is
    displaced by a waiting torrent although two slots are free, and only three
    of the five torrents run. *)
Theorem rotation_leaves_slot_empty :
  let cands := [mkSeed 1 true false; mkSeed 2 true false; mkSeed 3 false false;
                mkSeed 4 false false; mkSeed 5 false false] in
  exists st r, rotate_seeds cands 4 5 5 (mkRot {[1%nat := 0; 2%nat := 0]} ∅ ∅) 10 = Ret (st, r)
    /\ rr_pick r = {[3%nat; 4%nat; 5%nat]} /\ rr_rotated_out r = [1%nat; 2%nat].
Proof. eexists _, _. split; [vm_compute; reflexivity|]. split; vm_compute; reflexivity. Qed.

(** ** Moving entries keeps the relative order *)

Section MoveProofs.
Context {T : Type} `{Countable T}.
Implicit Types (order : list T) (sel : gset T).

(** The [Up] loop as a single scan: an unselected entry is carried past the
    selected ones behind it. *)
Fixpoint carry (sel : gset T) (p : T) (xs : list T) : list T :=
  match xs with
  | [] => [p]
  | x :: xs =>
    if bool_decide (x ∈ sel) && negb (bool_decide (p ∈ sel)) then x :: carry sel p xs
    else p :: carry sel x xs
  end.

Definition move_up_spec (sel : gset T) (order : list T) : list T :=
  match order with [] => [] | p :: xs => carry sel p xs end.

Lemma index_at {A} (pre : list A) x suf : index (pre ++ x :: suf) (length pre) = Ret x.
Proof. apply index_Ret. by apply list_lookup_middle. Qed.

Lemma swap_adjacent (pre : list T) a b suf i :
  i = length pre -> swap (pre ++ a :: b :: suf) i (S i) = Ret (pre ++ b :: a :: suf).
Proof.
  intros ->. unfold swap. rewrite index_at. cbn.
  assert (E : pre ++ a :: b :: suf = (pre ++ [a]) ++ b :: suf) by by rewrite <- app_assoc.
  rewrite E. replace (S (length pre)) with (length (pre ++ [a])) by (rewrite length_app; simpl; lia).
  rewrite index_at. cbn. rewrite insert_app_r_alt, Nat.sub_diag by done. cbn.
  rewrite <- app_assoc, insert_app_r_alt, Nat.sub_diag by done. done.
Qed.

Lemma up_step_at sel pre p x xs :
  up_step sel (pre ++ p :: x :: xs) (S (length pre))
  = Ret (if bool_decide (x ∈ sel) && negb (bool_decide (p ∈ sel)) then pre ++ x :: p :: xs
         else pre ++ p :: x :: xs).
Proof.
  unfold up_step. rewrite (proj2 (index_Ret _ (S (length pre)) x)); cycle 1.
  { rewrite lookup_app_r by lia. by replace (S (length pre) - length pre)%nat with 1%nat by lia. }
  cbn. rewrite Nat.sub_0_r, index_at. cbn. rewrite swap_adjacent by done. by destruct (_ && _).
Qed.

Lemma down_step_at sel pre x p xs :
  down_step sel (pre ++ x :: p :: xs) (length pre)
  = Ret (if bool_decide (x ∈ sel) && negb (bool_decide (p ∈ sel)) then pre ++ p :: x :: xs
         else pre ++ x :: p :: xs).
Proof.
  unfold down_step. rewrite index_at. cbn. rewrite (proj2 (index_Ret _ (length pre + 1)%nat p)); cycle 1.
  { rewrite lookup_app_r by lia. by replace (length pre + 1 - length pre)%nat with 1%nat by lia. }
  cbn. rewrite Nat.add_1_r, swap_adjacent by done. by destruct (_ && _).
Qed.

Lemma up_loop sel pre p xs :
  foldM (up_step sel) (pre ++ p :: xs) (seq (S (length pre)) (length xs)) = Ret (pre ++ carry sel p xs).
Proof.
  revert pre p. induction xs as [|x xs IH]; intros pre p; [done|].
  cbn [length seq foldM carry]. rewrite up_step_at. run.
  assert (Hl : forall z : T, S (S (length pre)) = S (length (pre ++ [z])))
    by (intros; rewrite length_app; simpl; lia).
  destruct (_ && _).
  - specialize (IH (pre ++ [x]) p). rewrite <- (Hl x), <- !app_assoc in IH. exact IH.
  - specialize (IH (pre ++ [p]) x). rewrite <- (Hl p), <- !app_assoc in IH. exact IH.
Qed.

Lemma down_loop sel xs p suf :
  foldM (down_step sel) (reverse xs ++ p :: suf) (reverse (seq 0 (length xs)))
  = Ret (reverse (carry sel p xs) ++ suf).
Proof.
  revert p suf. induction xs as [|x xs IH]; intros p suf; [done|].
  cbn [length]. rewrite seq_S, reverse_snoc. cbn [foldM].
  rewrite reverse_cons, <- app_assoc. cbn [app].
  replace (0 + length xs)%nat with (length (reverse xs)) by (rewrite length_reverse; lia).
  rewrite down_step_at. cbn [mbind outcome_bind carry].
  destruct (_ && _); rewrite reverse_cons, <- app_assoc; cbn [app]; apply IH.
Qed.

Lemma apply_move_up order sel : apply_move order sel MoveUp = Ret (move_up_spec sel order).
Proof.
  destruct order as [|p xs]; [done|]. cbn. rewrite Nat.sub_0_r. apply (up_loop sel [] p xs).
Qed.

Lemma apply_move_down order sel :
  apply_move (reverse order) sel MoveDown = Ret (reverse (move_up_spec sel order)).
Proof.
  destruct order as [|p xs]; [done|]. unfold apply_move. rewrite length_reverse. cbn [length].
  rewrite Nat.sub_1_r. cbn [pred]. rewrite reverse_cons.
  pose proof (down_loop sel xs p []) as E. by rewrite app_nil_r in E.
Qed.

Lemma carry_filter (P : T -> Prop) `{!forall x, Decision (P x)} sel p xs :
  (forall x y, x ∈ sel -> y ∉ sel -> ~ (P x /\ P y)) ->
  filter P (carry sel p xs) = filter P (p :: xs).
Proof.
  intros Hex. revert p. induction xs as [|x xs IH]; intros p; [done|]. cbn [carry].
  destruct (bool_decide (x ∈ sel)) eqn:Ex, (bool_decide (p ∈ sel)) eqn:Ep; cbn [andb negb];
    rewrite ?filter_cons, IH, ?filter_cons; try done.
  apply bool_decide_eq_true in Ex. apply bool_decide_eq_false in Ep. specialize (Hex x p Ex Ep).
  repeat case_decide; done || tauto.
Qed.

(** Past an unselected entry every selected one moves up by one. *)
Lemma carry_shift sel p xs i x :
  p ∉ sel -> xs !! i = Some x -> x ∈ sel -> carry sel p xs !! i = Some x.
Proof.
  revert p i. induction xs as [|y xs IH]; intros p i Hp Hi Hx; [done|]. cbn [carry].
  rewrite (bool_decide_eq_false_2 (p ∈ sel)) by done.
  destruct (bool_decide (y ∈ sel)) eqn:Ey; cbn [andb negb].
  - destruct i; [done|]. by apply IH.
  - apply bool_decide_eq_false in Ey. destruct i as [|i]; cbn in Hi; [congruence|]. by apply IH.
Qed.

Lemma carry_position sel p xs i x :
  (p :: xs) !! i = Some x -> x ∈ sel ->
  (Forall (fun y => y ∈ sel) (take i (p :: xs)) -> carry sel p xs !! i = Some x)
  /\ (~ Forall (fun y => y ∈ sel) (take i (p :: xs)) -> carry sel p xs !! pred i = Some x).
Proof.
  revert p i. induction xs as [|y xs IH]; intros p i Hi Hx.
  - destruct i; [|done]. cbn in *. split; [done|]. intros Hf. exfalso. by apply Hf.
  - destruct (decide (p ∈ sel)) as [Hp|Hp].
    + cbn [carry]. rewrite (bool_decide_eq_true_2 (p ∈ sel)) by done. rewrite andb_false_r.
      destruct i as [|i]; [split; [done|intros Hf; exfalso; by apply Hf]|].
      destruct (IH y i Hi Hx) as [H1 H2]. cbn [take]. rewrite Forall_cons. split.
      * intros [_ Hf]. by apply H1.
      * intros Hf. destruct i as [|i]; [exfalso; by apply Hf|]. apply H2. tauto.
    + destruct i as [|i]; [cbn in Hi; congruence|]. split; [by intros [??]%Forall_cons|].
      intros _. cbn [pred]. by apply carry_shift.
Qed.

Lemma filter_partition_filter (P Q R : T -> Prop) `{!forall x, Decision (P x), !forall x, Decision (Q x),
    !forall x, Decision (R x)} order :
  (forall x, R x -> P x) -> (forall x, Q x -> ~ R x) -> 
  filter R (filter P order) = filter R order /\ filter R (filter Q order) = [].
Proof.
  intros HP HQ. split.
  - rewrite list_filter_filter. apply filter_ext_in. intros x _. naive_solver.
  - induction order as [|x xs IH]; [done|]. rewrite filter_cons.
    case_decide; [|done]. rewrite filter_cons_False by naive_solver. done.
Qed.
End MoveProofs.

(** Moving entries never panics and keeps the relative order both of the
    selected and of the other entries (so it permutes the queue). [Up] moves
    each selected entry by one place, except the ones with only selected entries
    before them, which stay; [Down] is its mirror image. *)
Theorem apply_move_correct `{Countable T} (order : list T) (sel : gset T) (mv : QueueMove) :
  exists order', apply_move order sel mv = Ret order'
  /\ filter (fun x => x ∈ sel) order' = filter (fun x => x ∈ sel) order
  /\ filter (fun x => x ∉ sel) order' = filter (fun x => x ∉ sel) order
  /\ (mv = MoveUp -> forall i x, order !! i = Some x -> x ∈ sel ->
      order' !! (if decide (Forall (fun y => y ∈ sel) (take i order)) then i else pred i) = Some x)
  /\ (mv = MoveUp -> apply_move (reverse order) sel MoveDown = Ret (reverse order')).
Proof.
  assert (Hup : forall order, filter (fun x => x ∈ sel) (move_up_spec sel order) = filter (fun x => x ∈ sel) order
    /\ filter (fun x => x ∉ sel) (move_up_spec sel order) = filter (fun x => x ∉ sel) order).
  { intros [|p xs]; [done|]. split; apply carry_filter; tauto. }
  destruct mv.
  - rewrite apply_move_up. eexists. split; [done|]. split_and!; [apply Hup|apply Hup| |].
    + intros _ i x Hi Hx. destruct order as [|p xs]; [done|].
      destruct (carry_position sel p xs i x Hi Hx) as [H1 H2]. case_decide; auto.
    + intros _. apply apply_move_down.
  - rewrite <- (reverse_involutive order), apply_move_down. eexists. split; [done|].
    rewrite !filter_reverse. destruct (Hup (reverse order)) as [-> ->].
    by rewrite <- !filter_reverse, reverse_involutive.
  - eexists. split; [done|]. rewrite !filter_app.
    destruct (filter_partition_filter (fun x => x ∈ sel) (fun x => x ∉ sel) (fun x => x ∈ sel) order) as [-> ->];
      [done..|].
    destruct (filter_partition_filter (fun x => x ∉ sel) (fun x => x ∈ sel) (fun x => x ∉ sel) order) as [-> ->];
      [tauto..|]. rewrite ?app_nil_r. by split_and!.
  - eexists. split; [done|]. rewrite !filter_app.
    destruct (filter_partition_filter (fun x => x ∈ sel) (fun x => x ∉ sel) (fun x => x ∈ sel) order) as [-> ->];
      [done..|].
    destruct (filter_partition_filter (fun x => x ∉ sel) (fun x => x ∈ sel) (fun x => x ∉ sel) order) as [-> ->];
      [tauto..|]. rewrite ?app_nil_r. by split_and!.
Qed.

Lemma filter_length_full {A} (P : A -> Prop) `{!forall x, Decision (P x)} (l : list A) :
  length (filter P l) = length l -> filter P l = l.
Proof.
  induction l as [|x l IH]; [done|]. rewrite filter_cons. case_decide; simpl; intros E.
  - f_equal. apply IH. lia.
  - pose proof (length_filter P l). lia.
Qed.

(** [sync] leaves exactly the torrents of the session in the queue, each
    once: the known ones first and in their old order, then the new ones by id;
    and it asks for a save exactly when the order changed. *)
Theorem sync_correct `{Countable T} (order : list T) (present : list (TorrentId * T)) :
  NoDup order -> NoDup present.*2 ->
  let '(order', changed) := sync order present in
  order' ≡ₚ present.*2
  /\ (exists new, order' = filter (fun h => h ∈ present.*2) order ++ new.*2
      /\ sorted_by (fun a b : TorrentId * T => (a.1 <=? b.1)%nat) new
      /\ forall p, p ∈ new <-> p ∈ present /\ p.2 ∉ order)
  /\ (changed = true <-> order' <> order).
Proof.
  intros Hnd Hndp. unfold sync.
  set (kept := filter (fun h => h ∈ (list_to_set present.*2 : gset T)) order).
  set (new := sort_by _ _).
  assert (Hk : kept = filter (fun h => h ∈ present.*2) order).
  { apply filter_ext_in. intros x _. apply elem_of_list_to_set. }
  assert (Hkept : forall x, x ∈ kept <-> x ∈ present.*2 /\ x ∈ order).
  { intros x. rewrite Hk. by rewrite list_elem_of_filter. }
  assert (Hperm : new ≡ₚ filter (fun p : TorrentId * T => p.2 ∉ order) present).
  { subst new. rewrite sort_by_perm. erewrite filter_ext_in; [reflexivity|]. intros p Hp.
    rewrite elem_of_list_to_set, Hkept. pose proof (list_elem_of_fmap_2 snd _ _ Hp). tauto. }
  assert (Hin : forall p, p ∈ new <-> p ∈ present /\ p.2 ∉ order).
  { intros p. rewrite Hperm, list_elem_of_filter. tauto. }
  assert (Hall : kept ++ new.*2 ≡ₚ present.*2).
  { apply NoDup_Permutation; [|done|].
    - apply NoDup_app. split_and!.
      + by apply NoDup_filter.
      + intros x Hx (p & -> & Hp)%list_elem_of_fmap. apply Hkept in Hx. apply Hin in Hp. tauto.
      + rewrite Hperm. eapply sublist_NoDup; [exact Hndp|]. apply fmap_sublist, sublist_filter.
    - intros x. rewrite elem_of_app, Hkept. split.
      + intros [?|(p & -> & Hp)%list_elem_of_fmap]; [tauto|]. apply list_elem_of_fmap_2, Hin, Hp.
      + intros Hx. destruct (decide (x ∈ order)); [tauto|]. right.
        apply list_elem_of_fmap in Hx as (p & -> & Hp). apply list_elem_of_fmap_2, Hin. done. }
  assert (Hs : sorted_by (fun a b : TorrentId * T => (a.1 <=? b.1)%nat) new).
  { apply sort_by_sorted; intros *; rewrite !Nat.leb_le; lia. }
  assert (Hkl : (length kept <= length order)%nat) by apply length_filter.
  assert (Hke : length kept = length order <-> kept = order).
  { split; [apply filter_length_full|by intros ->]. }
  assert (Hnew : new = [] -> kept ++ new.*2 = kept) by (intros ->; apply app_nil_r).
  assert (Hch : new <> [] -> kept ++ new.*2 <> order).
  { intros Hne E. destruct new as [|p new']; [done|]. destruct (proj1 (Hin p)) as [_ Hp]; [left|].
    apply Hp. rewrite <- E. apply elem_of_app. right. left. }
  assert (Hout : (match new with
                  | [] => (kept, negb (length kept =? length order)%nat)
                  | _ :: _ => (kept ++ new.*2, true)
                  end) = (kept ++ new.*2, bool_decide (kept ++ new.*2 <> order))).
  { destruct new as [|p new'] eqn:En.
    - rewrite Hnew by done. f_equal. rewrite bool_decide_not, <- (bool_decide_ext _ _ Hke). f_equal.
      apply eq_true_iff_eq. by rewrite Nat.eqb_eq, bool_decide_eq_true.
    - by rewrite bool_decide_eq_true_2 by (by apply Hch). }
  rewrite Hout. split_and!; [done|exists new; by rewrite <- Hk|apply bool_decide_eq_true].
Qed.

Lemma sync_correct_witness :
  let '(order', _) := sync [3%nat; 1%nat; 2%nat] [(0%nat, 2%nat); (9%nat, 5%nat); (4%nat, 3%nat)] in
  order' ≡ₚ [2%nat; 5%nat; 3%nat].
Proof.
  pose proof (sync_correct [3%nat; 1%nat; 2%nat] [(0%nat, 2%nat); (9%nat, 5%nat); (4%nat, 3%nat)]) as Hs.
  destruct (sync _ _). apply Hs; apply (bool_decide_unpack _); vm_compute; exact I.
Defined.
