(* ===== verification/DownloadOrder.v ===== *)
(** * Download order ([librqbit::download_order])

    The settings that decide in which order the picker walks the pieces, their
    three levels (preferences, torrent, file), the patch that edits them, and
    the piece order they produce. *)

From stdpp Require Import base tactics option list list_numbers numbers decidable gmap.
From Stdlib Require Import ZArith Lia.
From S2P Require Import Prelude Lengths FileInfo.
Open Scope Z_scope.

(** ** Settings *)

Inductive FileOrder := ByName | ByTorrent | SmallestFirst | LargestFirst.

Record DownloadOrderDefaults := mkOrderDefaults {
  dd_sequential_files : bool;
  dd_file_order : FileOrder;
  dd_sequential : bool;
  dd_first_last_first : bool
}.

Definition DownloadOrderDefaults_default : DownloadOrderDefaults :=
  mkOrderDefaults true ByName true true.

Record FileOrderSettings := mkFileOrder {
  fo_sequential : option bool;
  fo_first_last_first : option bool
}.

Definition FileOrderSettings_default : FileOrderSettings := mkFileOrder None None.

Definition FileOrderSettings_is_empty (s : FileOrderSettings) : bool :=
  bool_decide (fo_sequential s = None) && bool_decide (fo_first_last_first s = None).

Record TorrentDownloadOrder := mkTorrentOrder {
  to_sequential_files : option bool;
  to_file_order : option FileOrder;
  to_sequential : option bool;
  to_first_last_first : option bool;
  to_files : gmap nat FileOrderSettings
}.

Definition TorrentDownloadOrder_default : TorrentDownloadOrder :=
  mkTorrentOrder None None None None ∅.

Definition TorrentDownloadOrder_is_empty (o : TorrentDownloadOrder) : bool :=
  match to_sequential_files o, to_file_order o, to_sequential o, to_first_last_first o with
  | None, None, None, None => bool_decide (to_files o = ∅)
  | _, _, _, _ => false
  end.

(** ** The patch of [POST /torrents/{id}/download_order]

    [None] leaves a setting, [Some None] clears it, [Some (Some v)] sets it. *)

Record FilesPatch := mkFilesPatch {
  fp_ids : list nat;
  fp_sequential : option (option bool);
  fp_first_last_first : option (option bool)
}.

Record DownloadOrderPatch := mkOrderPatch {
  dp_sequential_files : option (option bool);
  dp_file_order : option (option FileOrder);
  dp_sequential : option (option bool);
  dp_first_last_first : option (option bool);
  dp_files : list FilesPatch;
  dp_reset : bool
}.

(** "file id {id} out of range (torrent has {file_count} files)" *)
Inductive PatchError := FileIdOutOfRange (id file_count : nat).

Definition patch_setting {A} (p : option (option A)) (old : option A) : option A :=
  match p with Some v => v | None => old end.

Definition patch_file (fp : FilesPatch) (e : FileOrderSettings) : FileOrderSettings :=
  mkFileOrder (patch_setting (fp_sequential fp) (fo_sequential e))
    (patch_setting (fp_first_last_first fp) (fo_first_last_first e)).

(** The loop over the ids of one [FilesPatch]: what it left in the map and
    whether it stopped. *)
Fixpoint patch_ids (fp : FilesPatch) (file_count : nat) (ids : list nat)
    (files : gmap nat FileOrderSettings) : gmap nat FileOrderSettings * result PatchError unit :=
  match ids with
  | [] => (files, Ok ())
  | id :: ids =>
    if (file_count <=? id)%nat then (files, Err (FileIdOutOfRange id file_count))
    else
      let e := default FileOrderSettings_default (files !! id) in
      patch_ids fp file_count ids (<[id := patch_file fp e]> files)
  end.

Fixpoint patch_files (fps : list FilesPatch) (file_count : nat)
    (files : gmap nat FileOrderSettings) : gmap nat FileOrderSettings * result PatchError unit :=
  match fps with
  | [] => (files, Ok ())
  | fp :: fps =>
    match patch_ids fp file_count (fp_ids fp) files with
    | (files, Ok _) => patch_files fps file_count files
    | (files, Err e) => (files, Err e)
    end
  end.

(** The settings after the call, also when it returns an error. *)
Definition apply_patch (p : DownloadOrderPatch) (o : TorrentDownloadOrder) (file_count : nat)
    : TorrentDownloadOrder * result PatchError unit :=
  let o := if dp_reset p then TorrentDownloadOrder_default else o in
  let set_files := mkTorrentOrder
    (patch_setting (dp_sequential_files p) (to_sequential_files o))
    (patch_setting (dp_file_order p) (to_file_order o))
    (patch_setting (dp_sequential p) (to_sequential o))
    (patch_setting (dp_first_last_first p) (to_first_last_first o)) in
  match patch_files (dp_files p) file_count (to_files o) with
  | (files, Err e) => (set_files files, Err e)
  | (files, Ok _) =>
    (set_files (filter (fun kv => FileOrderSettings_is_empty kv.2 = false) files), Ok ())
  end.

(** ** Resolving the levels *)

Record EffectiveTorrentOrder := mkEffective {
  eo_sequential_files : bool;
  eo_file_order : FileOrder;
  eo_sequential : bool;
  eo_first_last_first : bool
}.

Definition effective (g : DownloadOrderDefaults) (t : TorrentDownloadOrder)
    : EffectiveTorrentOrder :=
  mkEffective (default (dd_sequential_files g) (to_sequential_files t))
    (default (dd_file_order g) (to_file_order t))
    (default (dd_sequential g) (to_sequential t))
    (default (dd_first_last_first g) (to_first_last_first t)).

Definition effective_file (e : EffectiveTorrentOrder) (t : TorrentDownloadOrder) (file : nat)
    : bool * bool :=
  let f := default FileOrderSettings_default (to_files t !! file) in
  (default (eo_sequential e) (fo_sequential f), default (eo_first_last_first e) (fo_first_last_first f)).

(** ** Pieces of one file *)

(** splitmix64. *)
Definition scatter_key (piece : Z) : Z :=
  let z := u64 (u64 piece + 0x9E3779B97F4A7C15) in
  let z := u64 (Z.lxor z (Z.shiftr z 30) * 0xBF58476D1CE4E5B9) in
  let z := u64 (Z.lxor z (Z.shiftr z 27) * 0x94D049BB133111EB) in
  Z.lxor z (Z.shiftr z 31).

Definition file_piece_order (r : Z * Z) (sequential first_last_first : bool) : list Z :=
  if r.2 <=? r.1 then []
  else
    let first := r.1 in
    let last := r.2 - 1 in
    let out :=
      if first_last_first then first :: (if last =? first then [] else [last]) else [] in
    let rest := filter (fun p => negb first_last_first || (negb (p =? first) && negb (p =? last)) = true)
                  (range_list r) in
    let rest := if sequential then rest
                else sort_by (fun a b => scatter_key a <=? scatter_key b) rest in
    out ++ rest.

(** ** The order over all files *)

(** [Path::cmp]: component by component. *)
Definition path_leb : list bytes -> list bytes -> bool :=
  lex_leb (fun a b => negb (bytes_leb b a)).

Definition order_files (o : FileOrder) (ids : list (nat * FileInfo))
    : list (nat * FileInfo) :=
  match o with
  | ByName =>
    sort_by (fun a b : nat * FileInfo =>
      path_leb (fi_relative_filename a.2) (fi_relative_filename b.2)) ids
  | ByTorrent => ids
  | SmallestFirst =>
    sort_by (fun a b : nat * FileInfo =>
      (fi_len a.2 <? fi_len b.2) || ((fi_len a.2 =? fi_len b.2) && (a.1 <=? b.1)%nat)) ids
  | LargestFirst =>
    sort_by (fun a b : nat * FileInfo =>
      (fi_len b.2 <? fi_len a.2) || ((fi_len b.2 =? fi_len a.2) && (a.1 <=? b.1)%nat)) ids
  end.

(** [if seen.insert(p) { out.push(p) }]. *)
Definition push_new (s : gset Z * list Z) (p : Z) : gset Z * list Z :=
  if bool_decide (p ∈ s.1) then s else ({[p]} ∪ s.1, s.2 ++ [p]).

(** One turn of the round-robin loop: the advanced iterators, whether any of
    them produced a piece, and the pieces pushed. *)
Fixpoint rr_round (iters : list (list Z)) (s : gset Z * list Z)
    : list (list Z) * bool * (gset Z * list Z) :=
  match iters with
  | [] => ([], false, s)
  | [] :: iters => let '(its, any, s) := rr_round iters s in ([] :: its, any, s)
  | (p :: it) :: iters =>
    let '(its, _, s) := rr_round iters (push_new s p) in (it :: its, true, s)
  end.

Fixpoint rr_loop (fuel : nat) (iters : list (list Z)) (s : gset Z * list Z)
    : option (gset Z * list Z) :=
  match fuel with
  | O => None
  | S fuel =>
    let '(iters, any, s) := rr_round iters s in
    if (any : bool) then rr_loop fuel iters s else Some s
  end.

Definition compute_piece_order (fuel : nat) (files : list FileInfo) (g : DownloadOrderDefaults)
    (t : TorrentDownloadOrder) : option (list Z) :=
  let e := effective g t in
  let ids := filter (fun p : nat * FileInfo => fa_padding (fi_attrs p.2) = false)
               (imap (fun i f => (i, f)) files) in
  let ids := order_files (eo_file_order e) ids in
  let per_file := (fun p : nat * FileInfo =>
    let '(sq, fl) := effective_file e t p.1 in
    file_piece_order (piece_range_usize p.2) sq fl) <$> ids in
  if eo_sequential_files e then Some (foldl push_new (∅, []) (concat per_file)).2
  else snd <$> rr_loop fuel per_file (∅, []).

(** ** The pieces of one file are permuted *)

Lemma file_piece_order_nil a b sq fl : b <= a -> file_piece_order (a, b) sq fl = [].
Proof. intros. unfold file_piece_order. cbn. by rewrite (proj2 (Z.leb_le _ _)) by lia. Qed.

Lemma middle_pieces a b :
  a + 2 <= b ->
  filter (fun p => negb (p =? a) && negb (p =? b - 1) = true) (range_list (a, b))
  = range_list (a + 1, b - 1).
Proof.
  intros. rewrite range_list_cons, range_list_snoc by lia.
  rewrite filter_cons_False by (rewrite Z.eqb_refl; done).
  rewrite filter_app, filter_cons_False by (rewrite Z.eqb_refl, andb_false_r; done).
  rewrite filter_nil, app_nil_r. apply filter_all. intros x Hx. apply elem_of_range_list in Hx.
  rewrite (proj2 (Z.eqb_neq x a)), (proj2 (Z.eqb_neq x (b - 1))) by lia. done.
Qed.

Lemma file_piece_order_first_last a b sq :
  a + 2 <= b ->
  exists rest, file_piece_order (a, b) sq true = a :: b - 1 :: rest
    /\ rest ≡ₚ range_list (a + 1, b - 1)
    /\ (sq = true -> rest = range_list (a + 1, b - 1)).
Proof.
  intros. unfold file_piece_order. cbn [fst snd negb orb].
  rewrite (proj2 (Z.leb_gt _ _)), (proj2 (Z.eqb_neq (b - 1) a)), middle_pieces by lia.
  eexists. split; [reflexivity|]. destruct sq; [done|]. split; [apply sort_by_perm|done].
Qed.

Lemma file_piece_order_perm r sq fl : file_piece_order r sq fl ≡ₚ range_list r.
Proof.
  destruct r as [a b]. destruct (Z.le_gt_cases b a).
  { by rewrite file_piece_order_nil, range_list_nil. }
  destruct fl.
  - destruct (decide (b = a + 1)) as [->|].
    + unfold file_piece_order. cbn [fst snd negb orb].
      rewrite (proj2 (Z.leb_gt _ _)), (proj2 (Z.eqb_eq (a + 1 - 1) a)) by lia.
      rewrite range_list_cons, range_list_nil by lia.
      rewrite filter_cons_False by (rewrite Z.eqb_refl; done). by destruct sq.
    + destruct (file_piece_order_first_last a b sq) as (rest & -> & Hr & _); [lia|].
      rewrite Hr, (range_list_cons a b), (range_list_snoc (a + 1) b) by lia.
      constructor. apply Permutation_cons_append.
  - unfold file_piece_order. cbn [fst snd negb orb]. rewrite (proj2 (Z.leb_gt _ _)) by lia.
    assert (Hf : filter (fun _ : Z => true = true) (range_list (a, b)) = range_list (a, b))
      by by apply filter_all.
    rewrite Hf. destruct sq; [done|]. apply sort_by_perm.
Qed.

(** With the default settings a file's pieces come in the order of
    [iter_piece_priorities]. *)
Lemma file_piece_order_default a b :
  0 <= a -> b < 2 ^ 64 -> file_piece_order (a, b) true true = iter_piece_priorities (a, b).
Proof.
  intros. destruct (Z.le_gt_cases b a).
  { rewrite file_piece_order_nil by done. symmetry. apply Permutation_nil_r.
    rewrite iter_piece_priorities_perm, range_list_nil by done. done. }
  destruct (decide (b = a + 1)) as [->|].
  - assert (E : iter_piece_priorities (a, a + 1) = [a]).
    { apply Permutation_singleton_r. rewrite iter_piece_priorities_perm by done.
      by rewrite range_list_cons, range_list_nil by lia. }
    rewrite E. apply Permutation_singleton_r. rewrite file_piece_order_perm.
    by rewrite range_list_cons, range_list_nil by lia.
  - rewrite iter_piece_priorities_long by lia.
    destruct (file_piece_order_first_last a b true) as (rest & -> & _ & ->); [lia|done|done].
Qed.

(** ** Duplicates are dropped at their second occurrence *)

Lemma push_all xs s :
  exists fresh, foldl push_new s xs = (s.1 ∪ list_to_set xs, s.2 ++ fresh)
    /\ fresh `sublist_of` xs /\ NoDup fresh /\ forall p, p ∈ fresh <-> p ∈ xs /\ p ∉ s.1.
Proof.
  revert s. induction xs as [|x xs IH]; intros s.
  - exists []. cbn. rewrite app_nil_r. split_and!; [|done|constructor|set_solver].
    destruct s. f_equal; cbn; set_solver.
  - cbn [foldl list_to_set]. unfold push_new at 2. destruct (bool_decide (x ∈ s.1)) eqn:E.
    + apply bool_decide_eq_true in E. destruct (IH s) as (fresh & -> & Hs & Hnd & Hin).
      exists fresh. split_and!; [f_equal; set_solver|by constructor|done|].
      intros p. rewrite Hin, elem_of_cons. destruct (decide (p = x)) as [->|]; tauto.
    + apply bool_decide_eq_false in E. destruct (IH ({[x]} ∪ s.1, s.2 ++ [x])) as (fresh & -> & Hs & Hnd & Hin).
      cbn [fst snd] in *. exists (x :: fresh). split_and!.
      * f_equal; [set_solver|by rewrite <- app_assoc].
      * by constructor.
      * constructor; [rewrite Hin; set_solver|done].
      * intros p. rewrite elem_of_cons, Hin, elem_of_cons, not_elem_of_union, not_elem_of_singleton.
        destruct (decide (p = x)) as [->|]; tauto.
Qed.

(** A round takes the head of every non-empty iterator. *)
Definition heads (iters : list (list Z)) : list Z := omap head iters.

Lemma rr_round_spec iters s :
  rr_round iters s
  = (tail <$> iters, bool_decide (heads iters <> []), foldl push_new s (heads iters)).
Proof.
  revert s. induction iters as [|[|p it] iters IH]; intros s; [done| |].
  - cbn [rr_round]. by rewrite IH.
  - cbn [rr_round]. by rewrite IH.
Qed.

Lemma heads_tails_perm iters : heads iters ++ concat (tail <$> iters) ≡ₚ concat iters.
Proof.
  induction iters as [|[|p it] iters IH]; [done|done|]. cbn. constructor.
  change (omap head iters) with (heads iters). rewrite <- IH. solve_Permutation.
Qed.

Lemma heads_nil iters : heads iters = [] -> concat iters = [].
Proof. induction iters as [|[|p it] iters IH]; [done|done|]. done. Qed.

Lemma rr_loop_total fuel iters s :
  (length (concat iters) < fuel)%nat ->
  exists xs, xs ≡ₚ concat iters /\ rr_loop fuel iters s = Some (foldl push_new s xs).
Proof.
  revert iters s. induction fuel as [|fuel IH]; intros iters s Hf; [lia|].
  cbn [rr_loop]. rewrite rr_round_spec. case_bool_decide as Hh.
  - pose proof (heads_tails_perm iters) as Hp. pose proof (Permutation_length Hp) as Hl.
    rewrite length_app in Hl. destruct (heads iters) as [|h hs] eqn:Eh; [done|]. cbn [length] in Hl.
    destruct (IH (tail <$> iters) (foldl push_new s (h :: hs))) as (xs & Hxs & ->); [lia|].
    exists ((h :: hs) ++ xs). split; [by rewrite Hxs|]. by rewrite foldl_app.
  - exists []. rewrite Hh, (heads_nil _ Hh). done.
Qed.

Lemma order_files_perm o ids : order_files o ids ≡ₚ ids.
Proof. destruct o; [apply sort_by_perm|done|apply sort_by_perm|apply sort_by_perm]. Qed.

(** The files that take part, with their index, in the order of the settings. *)
Definition picked_files (g : DownloadOrderDefaults) (t : TorrentDownloadOrder)
    (files : list FileInfo) : list (nat * FileInfo) :=
  order_files (eo_file_order (effective g t))
    (filter (fun p : nat * FileInfo => fa_padding (fi_attrs p.2) = false)
       (imap (fun i f => (i, f)) files)).

Definition pieces_of (g : DownloadOrderDefaults) (t : TorrentDownloadOrder) (p : nat * FileInfo)
    : list Z :=
  let '(sq, fl) := effective_file (effective g t) t p.1 in
  file_piece_order (piece_range_usize p.2) sq fl.

Definition piece_count (files : list FileInfo) : nat :=
  length (concat ((fun f => range_list (fi_piece_range f)) <$> files)).

Lemma pieces_of_perm g t p : pieces_of g t p ≡ₚ range_list (fi_piece_range p.2).
Proof. unfold pieces_of. destruct (effective_file _ _ _). apply file_piece_order_perm. Qed.

Lemma picked_files_elem g t files i f :
  (i, f) ∈ picked_files g t files <-> files !! i = Some f /\ fa_padding (fi_attrs f) = false.
Proof.
  unfold picked_files. rewrite order_files_perm, list_elem_of_filter. cbn.
  rewrite list_elem_of_lookup. setoid_rewrite list_lookup_imap. split.
  - intros [Hp (j & Hj)]. split; [|done]. destruct (files !! j) eqn:E; [|done].
    by injection Hj as <- <-.
  - intros [Hi Hp]. split; [done|]. exists i. by rewrite Hi.
Qed.

Lemma concat_fmap_length_le {A} (f h : A -> list Z) (xs : list A) :
  (forall x, x ∈ xs -> length (f x) = length (h x)) ->
  length (concat (f <$> xs)) = length (concat (h <$> xs)).
Proof.
  induction xs as [|x xs IH]; intros Hx; [done|]. cbn. rewrite !length_app, Hx by left.
  f_equal. apply IH. intros. apply Hx. by right.
Qed.

Lemma picked_count g t files :
  (length (concat (pieces_of g t <$> picked_files g t files)) <= piece_count files)%nat.
Proof.
  rewrite (concat_fmap_length_le _ (fun p => range_list (fi_piece_range p.2))) by
    (intros; by rewrite pieces_of_perm).
  unfold picked_files. rewrite (order_files_perm _ _). unfold piece_count.
  assert (E : files = (imap (fun i f => (i, f)) files).*2).
  { apply list_eq. intros i. rewrite list_lookup_fmap, list_lookup_imap. by destruct (files !! i). }
  rewrite E at 2. rewrite <- list_fmap_compose. clear E.
  apply sublist_length.
  induction (imap _ _) as [|p ps IH]; [done|]. rewrite filter_cons. case_decide; cbn.
  - apply sublist_app; [done|exact IH].
  - apply sublist_inserts_l. exact IH.
Qed.

Lemma elem_of_concat (p : Z) (pss : list (list Z)) : p ∈ concat pss <-> exists ps, ps ∈ pss /\ p ∈ ps.
Proof. induction pss as [|ps pss IH]; cbn; [set_solver|]. rewrite elem_of_app, IH. set_solver. Qed.

Lemma elem_of_pieces g t files p :
  p ∈ concat (pieces_of g t <$> picked_files g t files)
  <-> exists f, f ∈ files /\ fa_padding (fi_attrs f) = false
        /\ (fi_piece_range f).1 <= p < (fi_piece_range f).2.
Proof.
  rewrite elem_of_concat. split.
  - intros (ps & ([i f] & -> & Hf)%list_elem_of_fmap & Hp).
    rewrite pieces_of_perm in Hp. cbn in Hp. destruct (fi_piece_range f) as [a b] eqn:E.
    apply elem_of_range_list in Hp. apply picked_files_elem in Hf as [Hf Hpad].
    exists f. rewrite E. split_and!; [by eapply list_elem_of_lookup_2|done|cbn; lia..].
  - intros (f & (i & Hi)%list_elem_of_lookup & Hpad & Hp).
    exists (pieces_of g t (i, f)). split.
    + by apply list_elem_of_fmap_2, picked_files_elem.
    + rewrite pieces_of_perm. cbn. destruct (fi_piece_range f). by apply elem_of_range_list.
Qed.

Lemma fresh_segments (pss : list (list Z)) s :
  exists segs, (foldl push_new s (concat pss)).2 = s.2 ++ concat segs
    /\ Forall2 (fun ps seg => seg `sublist_of` ps) pss segs.
Proof.
  revert s. induction pss as [|ps pss IH]; intros s.
  - exists []. cbn. by rewrite app_nil_r.
  - cbn [concat]. rewrite foldl_app. destruct (push_all ps s) as (fresh & -> & Hs & _ & _).
    destruct (IH (s.1 ∪ list_to_set ps, s.2 ++ fresh)) as (segs & -> & Hf).
    exists (fresh :: segs). cbn. rewrite app_assoc. by split; [|constructor].
Qed.


Definition ex_order_files : list FileInfo :=
  [mkFileInfo [[98]] 0 (0, 3) FileDetailsAttrs_default 40;
   mkFileInfo [[97]] 40 (2, 6) FileDetailsAttrs_default 50;
   mkFileInfo [[99]] 90 (5, 7) (mkAttrs false false true false) 10].


(** ** The patch *)

Lemma patch_file_twice fp e : patch_file fp (patch_file fp e) = patch_file fp e.
Proof. unfold patch_file. cbn. by destruct (fp_sequential fp), (fp_first_last_first fp). Qed.

Definition file_settings (files : gmap nat FileOrderSettings) (id : nat) : FileOrderSettings :=
  default FileOrderSettings_default (files !! id).

(** What the patches of the request make of one file's settings. *)
Definition patched_file (fps : list FilesPatch) (id : nat) (e : FileOrderSettings)
    : FileOrderSettings :=
  foldl (fun e fp => if bool_decide (id ∈ fp_ids fp) then patch_file fp e else e) e fps.

Lemma patch_ids_ok fp n ids files :
  (forall id, id ∈ ids -> (id < n)%nat) ->
  exists files', patch_ids fp n ids files = (files', Ok ()) /\ forall id,
    file_settings files' id
    = if bool_decide (id ∈ ids) then patch_file fp (file_settings files id) else file_settings files id.
Proof.
  revert files. induction ids as [|i ids IH]; intros files Hok; [by eexists|].
  cbn [patch_ids]. rewrite (proj2 (Nat.leb_gt _ _)) by (apply Hok; left).
  destruct (IH (<[i := patch_file fp (file_settings files i)]> files)) as (files' & E & Hf).
  { intros id Hid. apply Hok. by right. }
  exists files'. split; [exact E|]. intros id. rewrite Hf.
  assert (Hs : file_settings (<[i := patch_file fp (file_settings files i)]> files) id
    = if decide (id = i) then patch_file fp (file_settings files i) else file_settings files id).
  { unfold file_settings at 1. case_decide as Hd; [by rewrite Hd, lookup_insert_eq|].
    by rewrite lookup_insert_ne. }
  rewrite Hs.
  destruct (decide (id = i)) as [->|Hne].
  - rewrite patch_file_twice, (bool_decide_eq_true_2 (i ∈ i :: ids)) by left.
    by case_bool_decide.
  - rewrite (bool_decide_ext (id ∈ i :: ids) (id ∈ ids)); [done|].
    rewrite elem_of_cons. tauto.
Qed.

Lemma patch_ids_err fp n ids files :
  ~ (forall id, id ∈ ids -> (id < n)%nat) ->
  exists files' id, patch_ids fp n ids files = (files', Err (FileIdOutOfRange id n))
    /\ id ∈ ids /\ (n <= id)%nat.
Proof.
  revert files. induction ids as [|i ids IH]; intros files Hbad.
  { exfalso. apply Hbad. by intros ? ?%not_elem_of_nil. }
  cbn [patch_ids]. destruct (Nat.leb_spec n i); [by eexists _, i; split_and!; [done|left|]|].
  destruct (IH (<[i := patch_file fp (file_settings files i)]> files)) as (files' & id & E & Hid & Hn).
  { intros Hall. apply Hbad. intros id [->|Hid]%elem_of_cons; [done|by apply Hall]. }
  exists files', id. split; [exact E|]. split; [by right|done].
Qed.

Definition patch_in_range (p : DownloadOrderPatch) (n : nat) : Prop :=
  forall fp id, fp ∈ dp_files p -> id ∈ fp_ids fp -> (id < n)%nat.

Lemma patch_files_ok fps n files :
  (forall fp id, fp ∈ fps -> id ∈ fp_ids fp -> (id < n)%nat) ->
  exists files', patch_files fps n files = (files', Ok ()) /\ forall id,
    file_settings files' id = patched_file fps id (file_settings files id).
Proof.
  revert files. induction fps as [|fp fps IH]; intros files Hok; [by eexists|].
  cbn [patch_files]. destruct (patch_ids_ok fp n (fp_ids fp) files) as (files1 & -> & H1).
  { intros id. apply Hok. left. }
  destruct (IH files1) as (files' & -> & H2).
  { intros fp' id Hfp. apply Hok. by right. }
  exists files'. split; [done|]. intros id. by rewrite H2, H1.
Qed.

Lemma patch_files_err fps n files :
  ~ (forall fp id, fp ∈ fps -> id ∈ fp_ids fp -> (id < n)%nat) ->
  exists files' fp id, patch_files fps n files = (files', Err (FileIdOutOfRange id n))
    /\ fp ∈ fps /\ id ∈ fp_ids fp /\ (n <= id)%nat.
Proof.
  revert files. induction fps as [|fp fps IH]; intros files Hbad.
  { exfalso. apply Hbad. by intros ? ? ?%not_elem_of_nil. }
  cbn [patch_files]. destruct (decide (Forall (fun id => (id < n)%nat) (fp_ids fp))) as [Hok|Hno].
  - rewrite Forall_forall in Hok. destruct (patch_ids_ok fp n (fp_ids fp) files Hok) as (files1 & -> & _).
    destruct (IH files1) as (files' & fp' & id & -> & Hfp & Hid & Hn).
    { intros Hall. apply Hbad. intros fp' id [->|Hin]%elem_of_cons; [apply Hok|by apply Hall]. }
    exists files', fp', id. split_and!; [done|by right|done|done].
  - rewrite Forall_forall in Hno. destruct (patch_ids_err fp n (fp_ids fp) files Hno) as (files1 & id & -> & ? & ?).
    exists files1, fp, id. split_and!; [done|left|done|done].
Qed.

(** A patch is accepted exactly when every file id it names exists. Then
    each file's settings are the old ones (none after a reset) with the
    patches that name it applied in order, and no empty settings are stored;
    otherwise the error names an id of the patch that is out of range. *)
Theorem apply_patch_correct (p : DownloadOrderPatch) (o : TorrentDownloadOrder) (n : nat) :
  let base := if dp_reset p then ∅ else to_files o in
  (patch_in_range p n /\ exists o', apply_patch p o n = (o', Ok ()) /\ forall id,
     let e := patched_file (dp_files p) id (file_settings base id) in
     to_files o' !! id = if FileOrderSettings_is_empty e then None else Some e)
  \/ exists o' fp id, apply_patch p o n = (o', Err (FileIdOutOfRange id n))
     /\ fp ∈ dp_files p /\ id ∈ fp_ids fp /\ (n <= id)%nat.
Proof.
  cbv zeta. set (base := if dp_reset p then ∅ else to_files o).
  assert (Hb : to_files (if dp_reset p then TorrentDownloadOrder_default else o) = base)
    by (subst base; by destruct (dp_reset p)).
  unfold apply_patch. rewrite Hb. cbv zeta.
  destruct (decide (Forall (fun fp => Forall (fun id => (id < n)%nat) (fp_ids fp)) (dp_files p))) as [Hok|Hno].
  - assert (Hr : patch_in_range p n).
    { intros fp id Hfp Hid. rewrite Forall_forall in Hok. specialize (Hok fp Hfp).
      rewrite Forall_forall in Hok. by apply Hok. }
    left. split; [done|]. destruct (patch_files_ok (dp_files p) n base Hr) as (files & -> & Hf).
    eexists. split; [done|]. intros id. cbn [to_files]. rewrite <- Hf. unfold file_settings.
    rewrite map_lookup_filter. destruct (files !! id) as [e|] eqn:E; cbn; [|done].
    destruct (FileOrderSettings_is_empty e) eqn:Ee; by case_guard.
  - right. destruct (patch_files_err (dp_files p) n base) as (files & fp & id & -> & ?).
    { intros Hall. apply Hno. apply Forall_forall. intros fp Hfp. apply Forall_forall.
      intros id. by apply Hall. }
    by eexists _, fp, id.
Qed.
