(* ===== verification/HashId.v ===== *)
(** * Hash ids ([librqbit_core::hash_id])

    [Id<N>] is the list of its [N] bytes.  Bits are numbered from the most
    significant bit of the first byte.  The order derived on [[u8; N]] is the
    lexicographic one, which is the order of the big-endian numbers. *)

From stdpp Require Import base tactics option list list_numbers numbers decidable.
From Stdlib Require Import ZArith Lia.
From S2P Require Import Prelude.
Open Scope Z_scope.

Abbreviation Id := bytes.

Definition id_leb (a b : Id) : bool := bytes_leb a b.
Definition id_ltb (a b : Id) : bool := negb (bytes_leb b a).

(** "buffer length must be {}, but it's {}" *)
Inductive IdError := BadLength (expected got : nat).

Definition from_bytes (n : nat) (b : bytes) : result IdError Id :=
  if (length b =? n)%nat then Ok b else Err (BadLength n (length b)).

Definition distance (a b : Id) : Id := zip_with Z.lxor a b.

(** [1 << (7 - bit % 8)]. *)
Definition bit_mask (bit : Z) : Z := Z.shiftl 1 (7 - bit mod 8).

Definition get_bit (l : Id) (bit : Z) : outcome bool :=
  n ← index l (Z.to_nat (bit / 8));
  Ret (0 <? Z.land n (bit_mask bit)).

Definition set_bit (l : Id) (bit : Z) (value : bool) : outcome Id :=
  n ← index l (Z.to_nat (bit / 8));
  slice_set l (Z.to_nat (bit / 8))
    (if value then Z.lor n (bit_mask bit) else Z.land n (255 - bit_mask bit)).

Definition set_bits_range (l : Id) (lo hi : Z) (value : bool) : outcome Id :=
  foldM (fun l bit => set_bit l bit value) l (seqZ lo (hi - lo)).

(** [Id32::truncate_for_dht]. *)
Definition truncate_for_dht (l : Id) : Id := take 20 l.

(** An id of [n] bytes and its number. *)
Definition is_id (n : nat) (l : Id) : Prop := length l = n /\ is_bytes l.
Abbreviation id_val := from_be_bytes.

#[export] Instance is_id_dec n l : Decision (is_id n l).
Proof. unfold is_id. apply _. Defined.

(** ** Bits of a byte string *)

Lemma testbit_cat x u m i :
  0 <= m -> 0 <= u < 2 ^ m -> 0 <= i ->
  Z.testbit (x * 2 ^ m + u) i = if i <? m then Z.testbit u i else Z.testbit x (i - m).
Proof.
  intros Hm Hu Hi. destruct (Z.ltb_spec i m).
  - rewrite <- (Z.mod_pow2_bits_low _ m) by lia. by rewrite Z.add_comm, Z.mod_add, Z.mod_small by lia.
  - replace i with ((i - m) + m) at 1 by lia. rewrite <- Z.div_pow2_bits by lia.
    by rewrite Z.add_comm, Z.div_add, Z.div_small by lia.
Qed.

Lemma pow256 k : 256 ^ Z.of_nat k = 2 ^ (8 * Z.of_nat k).
Proof. change 256 with (2 ^ 8). rewrite <- Z.pow_mul_r by lia. done. Qed.

(** Facts about one byte, checked on all of them. *)
Definition on_bytes (P : Z -> Z -> bool) : bool :=
  forallb (fun n => forallb (P n) (seqZ 0 8)) (seqZ 0 256).

Lemma on_bytes_spec P n j : on_bytes P = true -> is_u8 n -> 0 <= j < 8 -> P n j = true.
Proof.
  unfold on_bytes, is_uint. rewrite forallb_forall. intros H Hn Hj.
  specialize (H n). rewrite forallb_forall in H.
  apply H; apply list_elem_of_In;
    apply elem_of_seqZ; lia.
Qed.

Lemma byte_land n j : is_u8 n -> 0 <= j < 8 -> (0 <? Z.land n (Z.shiftl 1 j)) = Z.testbit n j.
Proof.
  intros. apply eqb_prop.
  apply (on_bytes_spec (fun n j => Bool.eqb (0 <? Z.land n (Z.shiftl 1 j)) (Z.testbit n j))); [|done|done].
  vm_compute. done.
Qed.

Lemma byte_set n j : is_u8 n -> 0 <= j < 8 ->
  Z.lor n (Z.shiftl 1 j) = n + (if Z.testbit n j then 0 else 2 ^ j).
Proof.
  intros. apply Z.eqb_eq.
  apply (on_bytes_spec (fun n j => Z.lor n (Z.shiftl 1 j) =? n + (if Z.testbit n j then 0 else 2 ^ j)));
    [|done|done]. vm_compute. done.
Qed.

Lemma byte_clear n j : is_u8 n -> 0 <= j < 8 ->
  Z.land n (255 - Z.shiftl 1 j) = n - (if Z.testbit n j then 2 ^ j else 0).
Proof.
  intros. apply Z.eqb_eq.
  apply (on_bytes_spec (fun n j => Z.land n (255 - Z.shiftl 1 j) =? n - (if Z.testbit n j then 2 ^ j else 0)));
    [|done|done]. vm_compute. done.
Qed.

Lemma byte_write_range n j (v : bool) : is_u8 n -> 0 <= j < 8 ->
  is_u8 (if v then Z.lor n (Z.shiftl 1 j) else Z.land n (255 - Z.shiftl 1 j)).
Proof.
  intros Hn Hj.
  assert (E : on_bytes (fun n j => bool_decide
    (is_u8 (if v then Z.lor n (Z.shiftl 1 j) else Z.land n (255 - Z.shiftl 1 j)))) = true)
    by (destruct v; vm_compute; done).
  by apply (bool_decide_eq_true_1 _), (on_bytes_spec _ n j E).
Qed.

(** The byte at [i] inside the number. *)
Lemma id_val_split l i n :
  l !! i = Some n ->
  id_val l = (id_val (take i l) * 256 + n) * 256 ^ Z.of_nat (length l - S i) + id_val (drop (S i) l).
Proof.
  intros Hi. rewrite <- (take_drop_middle l i n Hi) at 1.
  rewrite from_be_bytes_app, from_be_bytes_cons, length_drop. cbn [length].
  rewrite length_drop, Nat2Z.inj_succ, Z.pow_succ_r by lia. lia.
Qed.

Lemma id_val_insert l i n m :
  l !! i = Some n -> id_val (<[i := m]> l) = id_val l + (m - n) * 256 ^ Z.of_nat (length l - S i).
Proof.
  intros Hi. pose proof (lookup_lt_Some _ _ _ Hi).
  rewrite (id_val_split (<[i := m]> l) i m) by by apply list_lookup_insert_eq.
  rewrite (id_val_split l i n Hi), length_insert, take_insert_ge, drop_insert_lt by lia. lia.
Qed.

(** ** Reading and writing a bit *)

Section Bits.
Context (n : nat) (l : Id) (bit : Z) (Hl : is_id n l) (Hbit : 0 <= bit < 8 * Z.of_nat n).

(** The weight of bit [bit] in the number. *)
Definition bit_pos : Z := 8 * Z.of_nat n - 1 - bit.

Lemma bit_byte : exists b, l !! Z.to_nat (bit / 8) = Some b /\ is_u8 b.
Proof.
  destruct Hl as [Hlen Hb]. assert (0 <= bit / 8 < Z.of_nat n).
  { split; [apply Z.div_pos; lia|]. apply Z.div_lt_upper_bound; lia. }
  destruct (lookup_lt_is_Some_2 l (Z.to_nat (bit / 8))) as [b Hi]; [lia|].
  exists b. split; [done|]. by eapply Forall_lookup_1.
Qed.

Lemma bit_pos_split :
  bit_pos = 8 * Z.of_nat (length l - S (Z.to_nat (bit / 8))) + (7 - bit mod 8).
Proof.
  destruct Hl as [Hlen _]. unfold bit_pos. rewrite Hlen.
  pose proof (Z.div_mod bit 8 ltac:(lia)). pose proof (Z.mod_pos_bound bit 8 ltac:(lia)).
  assert (0 <= bit / 8 < Z.of_nat n) by (split; [apply Z.div_pos; lia|apply Z.div_lt_upper_bound; lia]).
  lia.
Qed.

Lemma get_bit_val : get_bit l bit = Ret (Z.testbit (id_val l) bit_pos).
Proof.
  destruct bit_byte as (b & Hi & Hb). unfold get_bit. rewrite (proj2 (index_Ret _ _ _) Hi). run.
  pose proof (Z.mod_pos_bound bit 8 ltac:(lia)).
  unfold bit_mask. rewrite byte_land by (done || lia). f_equal.
  rewrite (id_val_split _ _ _ Hi), pow256, bit_pos_split.
  destruct Hl as [_ Hbs]. pose proof (from_be_bytes_range (drop (S (Z.to_nat (bit / 8))) l)) as R.
  rewrite length_drop, pow256 in R. specialize (R (Forall_drop _ _ _ Hbs)).
  rewrite testbit_cat by lia. rewrite (proj2 (Z.ltb_ge _ _)) by lia.
  rewrite Z.add_simpl_l. change 256 with (2 ^ 8). unfold is_uint in Hb. rewrite testbit_cat by lia.
  by rewrite (proj2 (Z.ltb_lt _ _)) by lia.
Qed.

(** Setting a bit adds its weight when the bit was clear, clearing it subtracts
    the weight when it was set. *)
Lemma set_bit_val v :
  exists l', set_bit l bit v = Ret l' /\ is_id n l'
    /\ id_val l' = id_val l + (Z.b2z v - Z.b2z (Z.testbit (id_val l) bit_pos)) * 2 ^ bit_pos.
Proof.
  pose proof get_bit_val as Hg. revert Hg. destruct bit_byte as (b & Hi & Hb).
  pose proof (Z.mod_pos_bound bit 8 ltac:(lia)). pose proof (lookup_lt_Some _ _ _ Hi).
  unfold get_bit, set_bit. rewrite (proj2 (index_Ret _ _ _) Hi). run.
  unfold bit_mask. rewrite byte_land, byte_set, byte_clear by (done || lia). intros [= Ht]. rewrite <- Ht.
  set (j := 7 - bit mod 8) in *. set (m := if v then _ else _).
  assert (Hm : m = b + (Z.b2z v - Z.b2z (Z.testbit b j)) * 2 ^ j)
    by (subst m; destruct v, (Z.testbit b j); cbn [Z.b2z]; lia).
  assert (Hm8 : is_u8 m).
  { subst m. rewrite <- byte_set, <- byte_clear by (done || lia). apply byte_write_range; [done|lia]. }
  rewrite slice_set_lt by done. eexists. split; [done|]. destruct Hl as [Hlen Hbs]. split.
  - split; [by rewrite length_insert|]. by apply Forall_insert.
  - rewrite (id_val_insert _ _ _ _ Hi), Hm, bit_pos_split, Z.pow_add_r, pow256 by lia.
    fold j. ring.
Qed.
End Bits.

(** Reading back a written bit. *)
Lemma testbit_write x p (v : bool) q :
  0 <= p -> 0 <= q ->
  Z.testbit (x + (Z.b2z v - Z.b2z (Z.testbit x p)) * 2 ^ p) q
  = if decide (q = p) then v else Z.testbit x q.
Proof.
  intros Hp Hq. set (t := Z.testbit x p).
  assert (Hx : x = (x / 2 ^ p / 2 * 2 ^ 1 + Z.b2z t) * 2 ^ p + x mod 2 ^ p).
  { assert (Ht : Z.b2z t = (x / 2 ^ p) mod 2)
      by (subst t; rewrite <- Z.testbit_spec' by done; done).
    rewrite Ht, Z.pow_1_r, (Z.mul_comm _ 2), <- Z.div_mod by lia. rewrite Z.mul_comm.
    apply Z.div_mod. lia. }
  set (h := x / 2 ^ p / 2) in *. set (lo := x mod 2 ^ p) in *.
  assert (Hlo : 0 <= lo < 2 ^ p) by (apply Z.mod_pos_bound; lia).
  assert (Hn : x + (Z.b2z v - Z.b2z t) * 2 ^ p = (h * 2 ^ 1 + Z.b2z v) * 2 ^ p + lo) by lia.
  assert (Hb : forall b : bool, 0 <= Z.b2z b < 2 ^ 1) by (intros []; cbn; lia).
  rewrite Hn. replace (Z.testbit x q) with (Z.testbit ((h * 2 ^ 1 + Z.b2z t) * 2 ^ p + lo) q)
    by (by rewrite <- Hx).
  rewrite (testbit_cat _ lo p q), (testbit_cat _ lo p q) by (done || lia).
  destruct (Z.ltb_spec q p); [by rewrite decide_False by lia|].
  rewrite (testbit_cat _ (Z.b2z v) 1), (testbit_cat _ (Z.b2z t) 1) by (apply Hb || lia).
  case_decide as Hd.
  - subst q. rewrite Z.sub_diag. cbn. by destruct v.
  - by rewrite (proj2 (Z.ltb_ge _ _)) by lia.
Qed.

(** ** Order and distance *)

Lemma id_leb_val n a b : is_id n a -> is_id n b -> id_leb a b = (id_val a <=? id_val b).
Proof. intros [Ha ?] [Hb ?]. apply bytes_leb_val; [congruence|done|done]. Qed.

Lemma id_ltb_val n a b : is_id n a -> is_id n b -> id_ltb a b = (id_val a <? id_val b).
Proof.
  intros Ha Hb. unfold id_ltb. change (bytes_leb b a) with (id_leb b a).
  rewrite (id_leb_val n) by done. destruct (Z.leb_spec (id_val b) (id_val a)), (Z.ltb_spec (id_val a) (id_val b)); lia || done.
Qed.

Lemma id_val_inj n a b : is_id n a -> is_id n b -> id_val a = id_val b -> a = b.
Proof. intros [? ?] [? ?]. apply from_be_bytes_inj; [done|done|congruence]. Qed.

Lemma id_val_range a : is_id 20 a -> 0 <= id_val a < 2 ^ 160.
Proof. intros [Hl Hb]. pose proof (from_be_bytes_range a Hb) as R. by rewrite Hl in R. Qed.

Lemma lxor_u8 x y : is_u8 x -> is_u8 y -> is_u8 (Z.lxor x y).
Proof.
  unfold is_uint. intros [Hx1 Hx2] [Hy1 Hy2]. assert (0 <= Z.lxor x y) by (by apply Z.lxor_nonneg).
  split; [done|]. destruct (Z.eq_dec (Z.lxor x y) 0) as [->|]; [lia|].
  apply Z.log2_lt_pow2; [lia|]. eapply Z.le_lt_trans; [by apply Z.log2_lxor|].
  apply Z.max_lub_lt; destruct (Z.eq_dec x 0), (Z.eq_dec y 0); subst; cbn; try lia;
    apply Z.log2_lt_pow2; lia.
Qed.

Lemma distance_id n a b : is_id n a -> is_id n b -> is_id n (distance a b).
Proof.
  intros [<- Ha] [Hl Hb]. unfold distance. split; [rewrite length_zip_with; lia|].
  clear Hl. revert b Hb. induction Ha as [|x a Hx Ha IH]; intros [|y b] Hb; cbn; try done.
  apply Forall_cons_1 in Hb as [Hy Hb]. constructor; [by apply lxor_u8|by apply IH].
Qed.

Lemma distance_val n a b :
  is_id n a -> is_id n b -> id_val (distance a b) = Z.lxor (id_val a) (id_val b).
Proof.
  intros [<- Ha] [Hl Hb]. revert b Hl Hb.
  induction Ha as [|x a Hx Ha IH]; intros [|y b] Hl Hb; try done.
  injection Hl as Hl. apply Forall_cons_1 in Hb as [Hy Hb].
  change (distance (x :: a) (y :: b)) with (Z.lxor x y :: distance a b).
  pose proof (from_be_bytes_range a Ha) as Ra. pose proof (from_be_bytes_range b Hb) as Rb.
  destruct (distance_id (length a) a b) as [Hd Hdb]; [done|done|].
  pose proof (from_be_bytes_range _ Hdb) as Rd.
  rewrite !from_be_bytes_cons, Hd, Hl, IH by done. rewrite Hl in Rb. rewrite Hd in Rd.
  rewrite IH in Rd by done. rewrite !pow256 in *. apply Z.bits_inj'. intros i Hi.
  rewrite Z.lxor_spec, !testbit_cat by lia. destruct (i <? _); by rewrite Z.lxor_spec.
Qed.

(** The distance of two ids is the exclusive or of their numbers, so it is
    symmetric, zero exactly on equal ids, satisfies the triangle equality of
    Kademlia, and for every id and distance there is exactly one id at that
    distance; and ids are ordered as their numbers. *)
Theorem distance_is_xor_metric (n : nat) (a b c : Id) :
  is_id n a -> is_id n b -> is_id n c ->
  is_id n (distance a b)
  /\ id_val (distance a b) = Z.lxor (id_val a) (id_val b)
  /\ distance a b = distance b a
  /\ (id_val (distance a b) = 0 <-> a = b)
  /\ distance (distance a b) (distance b c) = distance a c
  /\ distance a (distance a b) = b
  /\ (id_ltb a b = true <-> id_val a < id_val b).
Proof.
  intros Ha Hb Hc. pose proof (distance_id n a b Ha Hb) as Hab.
  pose proof (distance_val n a b Ha Hb) as Eab.
  split_and!; [done|done| | | | |].
  - apply (id_val_inj n); [done|by apply distance_id|]. rewrite Eab, (distance_val n b a) by done. apply Z.lxor_comm.
  - rewrite Eab. split; [|intros ->; apply Z.lxor_nilpotent].
    intros E%Z.lxor_eq. by apply (id_val_inj n).
  - apply (id_val_inj n); [by repeat apply distance_id|by apply distance_id|].
    rewrite (distance_val n (distance a b)), Eab, (distance_val n b c), (distance_val n a c)
      by (done || by apply distance_id).
    rewrite Z.lxor_assoc, <- (Z.lxor_assoc (id_val b)), Z.lxor_nilpotent, Z.lxor_0_l. done.
  - apply (id_val_inj n); [by repeat apply distance_id|done|].
    rewrite (distance_val n), Eab by done. by rewrite <- Z.lxor_assoc, Z.lxor_nilpotent, Z.lxor_0_l.
  - rewrite (id_ltb_val n) by done. apply Z.ltb_lt.
Qed.

Lemma distance_is_xor_metric_witness :
  distance [1; 2; 255] (distance [1; 2; 255] [7; 8; 9]) = [7; 8; 9].
Proof.
  apply (distance_is_xor_metric 3 [1; 2; 255] [7; 8; 9] [0; 0; 0]);
    apply (bool_decide_unpack _); vm_compute; exact I.
Defined.

(** Bits are independent: writing a bit of an id never panics and yields an
    id, in which that bit reads back as written and every other bit as before;
    and writing a range of bits writes exactly those of the range. *)
Lemma set_bits_range_correct (n : nat) (l : Id) (lo hi : Z) (v : bool) :
  is_id n l -> 0 <= lo -> hi <= 8 * Z.of_nat n ->
  exists l', set_bits_range l lo hi v = Ret l' /\ is_id n l'
    /\ forall bit, 0 <= bit < 8 * Z.of_nat n ->
         get_bit l' bit = if decide (lo <= bit < hi) then Ret v else get_bit l bit.
Proof.
  intros Hl Hlo Hhi. unfold set_bits_range.
  assert (Hgen : forall m, 0 <= m -> lo + m <= 8 * Z.of_nat n ->
    exists l', foldM (fun l bit => set_bit l bit v) l (seqZ lo m) = Ret l' /\ is_id n l'
      /\ forall bit, 0 <= bit < 8 * Z.of_nat n ->
         get_bit l' bit = if decide (lo <= bit < lo + m) then Ret v else get_bit l bit).
  { intros m Hm. pattern m. apply natlike_ind; [| |done]; clear m Hm.
    - intros _. exists l. split_and!; [done|done|]. intros bit _. by rewrite decide_False by lia.
    - intros m Hm IH Hle. destruct IH as (l1 & E1 & H1 & G1); [lia|].
      rewrite <- Z.add_1_r, seqZ_app by lia. rewrite foldM_app, E1.
      replace (seqZ (lo + m) 1) with [lo + m] by (unfold seqZ; cbn; f_equal; lia).
      cbn [mbind outcome_bind foldM].
      destruct (set_bit_val n l1 (lo + m) H1) with (v := v) as (l2 & E2 & H2 & V2); [lia|].
      rewrite E2. exists l2. split_and!; [done|done|]. intros bit Hb.
      rewrite (get_bit_val n l2 bit), V2, testbit_write by (done || unfold bit_pos; lia).
      pose proof (get_bit_val n l1 bit H1 Hb) as Hg. rewrite G1 in Hg by done.
      destruct (decide (bit_pos n bit = bit_pos n (lo + m))) as [Hd|Hd];
        [rewrite decide_True by (unfold bit_pos in Hd; lia); done|].
      rewrite <- Hg. assert (bit <> lo + m) by (intros ->; by apply Hd).
      destruct (decide (lo <= bit < lo + m)); [by rewrite decide_True by lia|by rewrite decide_False by lia]. }
  destruct (Z.le_gt_cases lo hi).
  - destruct (Hgen (hi - lo)) as (l' & E & H' & G); [lia|lia|]. exists l'. split_and!; [done|done|].
    intros bit Hb. rewrite G by done. by replace (lo + (hi - lo)) with hi by lia.
  - rewrite seqZ_nil by lia. exists l. split_and!; [done|done|]. intros bit _. by rewrite decide_False by lia.
Qed.

Lemma set_bits_range_correct_witness :
  exists l', set_bits_range (replicate 20 0) 9 17 true = Ret l' /\ get_bit l' 16 = Ret true.
Proof.
  destruct (set_bits_range_correct 20 (replicate 20 0) 9 17 true) as (l' & E & _ & G);
    [apply (bool_decide_unpack _); vm_compute; exact I|lia|lia|].
  exists l'. split; [exact E|]. rewrite (G 16) by lia. reflexivity.
Defined.
