(* ===== verification/RoutingTable.v ===== *)
(** * DHT routing table ([dht::routing_table])

    The buckets form a binary tree over the 160-bit id space, stored in a vector
    whose nodes refer to their children by index.  Instants and durations are
    nanoseconds; every reading of the clock is an argument. *)

From stdpp Require Import base tactics option list list_numbers numbers decidable sorting sets.
From Stdlib Require Import ZArith Lia.
From S2P Require Import Prelude HashId Net.
Open Scope Z_scope.

Definition INACTIVITY_TIMEOUT : Z := 15 * 60 * 1000000000.

(** ** Nodes *)

Record RoutingTableNode := mkNode {
  rn_id : Id;
  rn_addr : SocketAddr;
  rn_last_request : option Z;
  rn_last_response : option Z;
  rn_last_query : option Z;
  rn_errors_in_a_row : Z
}.

Inductive NodeStatus := Good | Questionable | Bad | Unknown.

#[export] Instance NodeStatus_eq_dec : EqDecision NodeStatus.
Proof. solve_decision. Defined.

(** [now - t < INACTIVITY_TIMEOUT] and [now - t > INACTIVITY_TIMEOUT]: the
    subtraction of instants saturates at zero. *)
Definition recent (now t : Z) : bool := saturating_sub now t <? INACTIVITY_TIMEOUT.
Definition inactive (now t : Z) : bool := INACTIVITY_TIMEOUT <? saturating_sub now t.

(** The guard of an arm with an or-pattern is tried for each alternative. *)
Definition status (n : RoutingTableNode) (now : Z) : NodeStatus :=
  let outgoing_inactive :=
    match rn_last_request n with Some e => inactive now e | None => true end in
  let holds (f : Z -> bool) (o : option Z) := match o with Some t => f t | None => false end in
  match rn_last_request n with
  | Some _ =>
    if 2 <=? rn_errors_in_a_row n then Bad
    else if holds (recent now) (rn_last_response n)
            || (bool_decide (is_Some (rn_last_response n)) && holds (recent now) (rn_last_query n))
    then Good
    else if (holds (inactive now) (rn_last_query n) || holds (inactive now) (rn_last_response n))
            && outgoing_inactive
    then Questionable
    else Unknown
  | None =>
    if (holds (inactive now) (rn_last_query n) || holds (inactive now) (rn_last_response n))
       && outgoing_inactive
    then Questionable
    else Unknown
  end.

Definition node_mark_outgoing_request (now : Z) (n : RoutingTableNode) : RoutingTableNode :=
  mkNode (rn_id n) (rn_addr n) (Some now) (rn_last_response n) (rn_last_query n)
    (rn_errors_in_a_row n).

Definition node_mark_last_query (now : Z) (n : RoutingTableNode) : RoutingTableNode :=
  mkNode (rn_id n) (rn_addr n) (rn_last_request n) (rn_last_response n) (Some now)
    (rn_errors_in_a_row n).

Definition node_mark_response (now : Z) (n : RoutingTableNode) : RoutingTableNode :=
  mkNode (rn_id n) (rn_addr n)
    (match rn_last_request n with None => Some now | r => r end)
    (Some now) (rn_last_query n) 0.

Definition node_mark_error (n : RoutingTableNode) : RoutingTableNode :=
  mkNode (rn_id n) (rn_addr n) (rn_last_request n) (rn_last_response n) (rn_last_query n)
    (u64 (rn_errors_in_a_row n + 1)).

(** ** The bucket tree *)

Record LeafBucket := mkLeaf {
  lb_nodes : list RoutingTableNode;
  lb_last_refreshed : Z
}.

Inductive BucketTreeNodeData :=
| Leaf (b : LeafBucket)
| LeftRight (left_idx right_idx : nat).

Record BucketTreeNode := mkTreeNode {
  tn_bits : Z;
  tn_start : Id;
  tn_end_inclusive : Id;
  tn_data : BucketTreeNodeData
}.

Record BucketTree := mkTree {
  bt_data : list BucketTreeNode;
  bt_size : Z;
  bt_max_size : Z
}.

Definition BucketTree_new (max_size now : Z) : BucketTree :=
  mkTree [mkTreeNode 160 (replicate 20 0) (replicate 20 255) (Leaf (mkLeaf [] now))] 0 max_size.

(** The leaves from the left: the iterator pops an index, and pushes the
    children of an inner node. *)
Fixpoint iter_leaves (fuel : nat) (data : list BucketTreeNode) (queue : list nat)
    : option (list BucketTreeNode) :=
  match fuel with
  | O => None
  | S fuel =>
    match queue with
    | [] => Some []
    | idx :: queue =>
      match data !! idx with
      | Some node =>
        match tn_data node with
        | Leaf _ => cons node <$> iter_leaves fuel data queue
        | LeftRight l r => iter_leaves fuel data (l :: r :: queue)
        end
      | None => iter_leaves fuel data queue
      end
    end
  end.

Definition leaf_nodes (n : BucketTreeNode) : list RoutingTableNode :=
  match tn_data n with Leaf b => lb_nodes b | LeftRight _ _ => [] end.

Definition bt_iter (fuel : nat) (t : BucketTree) : option (list RoutingTableNode) :=
  (fun ls => concat (leaf_nodes <$> ls)) <$> iter_leaves fuel (bt_data t) [0%nat].

(** [*id >= start && *id <= end_inclusive]. *)
Definition in_bounds (n : BucketTreeNode) (id : Id) : bool :=
  id_leb (tn_start n) id && id_leb id (tn_end_inclusive n).

(** The loop of [get_leaf]; [None] when it has not ended within [fuel] rounds. *)
Fixpoint get_leaf_from (fuel : nat) (data : list BucketTreeNode) (id : Id) (idx : nat)
    : option (outcome nat) :=
  match fuel with
  | O => None
  | S fuel =>
    match index data idx with
    | Panic => Some Panic
    | Ret node =>
      match tn_data node with
      | Leaf _ => Some (Ret idx)
      | LeftRight l r =>
        match index data l with
        | Panic => Some Panic
        | Ret lnode => get_leaf_from fuel data id (if in_bounds lnode id then l else r)
        end
      end
    end
  end.

Definition get_leaf (fuel : nat) (t : BucketTree) (id : Id) : option (outcome nat) :=
  get_leaf_from fuel (bt_data t) id 0.

(** [nodes.iter_mut().find(|r| p(r))] and the update through the reference. *)
Fixpoint update_first (p : RoutingTableNode -> bool) (f : RoutingTableNode -> RoutingTableNode)
    (ns : list RoutingTableNode) : option (RoutingTableNode * list RoutingTableNode) :=
  match ns with
  | [] => None
  | n :: ns =>
    if p n then Some (n, f n :: ns)
    else (fun r : RoutingTableNode * list RoutingTableNode => (r.1, n :: r.2)) <$> update_first p f ns
  end.

Definition id_eqb (a b : Id) : bool := bool_decide (a = b).

Definition set_data (n : BucketTreeNode) (d : BucketTreeNodeData) : BucketTreeNode :=
  mkTreeNode (tn_bits n) (tn_start n) (tn_end_inclusive n) d.

(** [get_mut] and the change its caller makes through the reference: the tree
    after it, and whether the node was found. *)
Definition get_mut (fuel : nat) (t : BucketTree) (id : Id) (refresh : option Z)
    (f : RoutingTableNode -> RoutingTableNode) : option (outcome (BucketTree * bool)) :=
  r ← get_leaf fuel t id;
  Some (
    idx ← r;
    node ← index (bt_data t) idx;
    match tn_data node with
    | LeftRight _ _ => Panic
    | Leaf leaf =>
      match update_first (fun b => id_eqb (rn_id b) id) f (lb_nodes leaf) with
      | None => Ret (t, false)
      | Some (_, ns) =>
        let leaf := mkLeaf ns (default (lb_last_refreshed leaf) refresh) in
        Ret (mkTree (<[idx := set_data node (Leaf leaf)]> (bt_data t)) (bt_size t) (bt_max_size t),
             true)
      end
    end).

(** ** Insertion *)

Inductive InsertResult :=
| WasExisting
| ReplacedBad (n : RoutingTableNode)
| Added
| Ignored.

Definition compute_split_start_end (start end_inclusive : Id) (bits : Z)
    : outcome ((Id * Id) * (Id * Id)) :=
  let changing_bit := u8 (160 - bits) in
  new_left_end ← set_bit end_inclusive changing_bit false;
  new_right_start ← set_bit start changing_bit true;
  Ret ((start, new_left_end), (new_right_start, end_inclusive)).

Definition sort_nodes (ns : list RoutingTableNode) : list RoutingTableNode :=
  sort_by (fun a b => id_leb (rn_id a) (rn_id b)) ns.

(** One round of the loop of [insert_into_leaf]: the tree after it and either
    the result or the leaf to go on with.  [clock] are the two readings made by
    the [Default] of the new leaves. *)
Definition insert_round (now : Z) (clock : Z * Z) (self_id id : Id) (addr : SocketAddr)
    (t : BucketTree) (idx : nat) : outcome (BucketTree * (InsertResult + nat)) :=
  let data := bt_data t in
  leaf ← index data idx;
  match tn_data leaf with
  | LeftRight _ _ => Panic
  | Leaf b =>
    let nodes := lb_nodes b in
    let with_nodes ns size :=
      mkTree (<[idx := set_data leaf (Leaf (mkLeaf ns now))]> data) size (bt_max_size t) in
    if existsb (fun r => id_eqb (rn_id r) id) nodes then Ret (t, inl WasExisting)
    else
      let new_node := mkNode id addr None None None 0 in
      match update_first (fun r => bool_decide (status r now = Bad)) (fun _ => new_node) nodes with
      | Some (bad, ns) => Ret (with_nodes (sort_nodes ns) (bt_size t), inl (ReplacedBad bad))
      | None =>
        if bt_size t =? bt_max_size t then Ret (t, inl Ignored)
        else if (length nodes <? 8)%nat then
          Ret (with_nodes (sort_nodes (nodes ++ [new_node])) (u64 (bt_size t + 1)), inl Added)
        else if id_ltb self_id (tn_start leaf) || id_ltb (tn_end_inclusive leaf) self_id then
          Ret (t, inl Ignored)
        else
          '((ls, le), (rs, re)) ←
            compute_split_start_end (tn_start leaf) (tn_end_inclusive leaf) (tn_bits leaf);
          let ld := filter (fun n => id_ltb (rn_id n) rs = true) nodes in
          let rd := filter (fun n => id_ltb (rn_id n) rs = false) nodes in
          let bits := u8 (tn_bits leaf - 1) in
          let lnode := mkTreeNode bits ls le (Leaf (mkLeaf ld clock.1)) in
          let rnode := mkTreeNode bits rs re (Leaf (mkLeaf rd clock.2)) in
          let left_idx := length data in
          let right_idx := S (length data) in
          let data' := <[idx := set_data leaf (LeftRight left_idx right_idx)]>
                         ((data ++ [lnode]) ++ [rnode]) in
          Ret (mkTree data' (bt_size t) (bt_max_size t),
               inr (if id_ltb id rs then left_idx else right_idx))
      end
  end.

Fixpoint insert_into_leaf (fuel : nat) (now : Z) (clock : nat -> Z * Z) (self_id id : Id)
    (addr : SocketAddr) (t : BucketTree) (idx : nat) : option (outcome (BucketTree * InsertResult)) :=
  match fuel with
  | O => None
  | S fuel =>
    match insert_round now (clock fuel) self_id id addr t idx with
    | Panic => Some Panic
    | Ret (t, inl r) => Some (Ret (t, r))
    | Ret (t, inr idx) => insert_into_leaf fuel now clock self_id id addr t idx
    end
  end.

Definition bt_add_node (fuel : nat) (now : Z) (clock : nat -> Z * Z) (t : BucketTree)
    (self_id id : Id) (addr : SocketAddr) : option (outcome (BucketTree * InsertResult)) :=
  match get_leaf fuel t id with
  | None => None
  | Some Panic => Some Panic
  | Some (Ret idx) => insert_into_leaf fuel now clock self_id id addr t idx
  end.

(** ** The routing table *)

Record RoutingTable := mkRT {
  rt_id : Id;
  rt_size : Z;
  rt_buckets : BucketTree
}.

Definition DEFAULT_MAX_SIZE : Z := 512.

Definition RoutingTable_new (id : Id) (max_size : option Z) (now : Z) : RoutingTable :=
  mkRT id 0 (BucketTree_new (default DEFAULT_MAX_SIZE max_size) now).

Definition rt_len (rt : RoutingTable) : Z := rt_size rt.

Definition status_rank (s : NodeStatus) : Z :=
  match s with Good => 0 | Questionable => 1 | Unknown => 2 | Bad => 3 end.

(** The sort key [(status, id.distance(&n.id))]. *)
Definition node_key_leb (id : Id) (now : Z) (a b : RoutingTableNode) : bool :=
  let sa := status_rank (status a now) in
  let sb := status_rank (status b now) in
  (sa <? sb) || ((sa =? sb) && id_leb (distance id (rn_id a)) (distance id (rn_id b))).

Definition sorted_by_distance_from (fuel : nat) (rt : RoutingTable) (id : Id) (now : Z)
    : option (list RoutingTableNode) :=
  sort_by (node_key_leb id now) <$> bt_iter fuel (rt_buckets rt).

Definition rt_add_node (fuel : nat) (now : Z) (clock : nat -> Z * Z) (rt : RoutingTable)
    (id : Id) (addr : SocketAddr) : option (outcome (RoutingTable * InsertResult)) :=
  r ← bt_add_node fuel now clock (rt_buckets rt) (rt_id rt) id addr;
  Some (
    '(t, res) ← r;
    let replaced :=
      match res with
      | WasExisting => false
      | ReplacedBad _ => true
      | Added => true
      | Ignored => false
      end in
    Ret (mkRT (rt_id rt) (if replaced then u64 (rt_size rt + 1) else rt_size rt) t, res)).

Definition rt_update (fuel : nat) (rt : RoutingTable) (id : Id) (refresh : option Z)
    (f : RoutingTableNode -> RoutingTableNode) : option (outcome (RoutingTable * bool)) :=
  r ← get_mut fuel (rt_buckets rt) id refresh f;
  Some ('(t, found) ← r; Ret (mkRT (rt_id rt) (rt_size rt) t, found)).

Definition rt_mark_outgoing_request fuel (rt : RoutingTable) (id : Id) (now : Z) :=
  rt_update fuel rt id None (node_mark_outgoing_request now).
Definition rt_mark_response fuel (rt : RoutingTable) (id : Id) (now : Z) :=
  rt_update fuel rt id (Some now) (node_mark_response now).
Definition rt_mark_error fuel (rt : RoutingTable) (id : Id) :=
  rt_update fuel rt id None node_mark_error.
Definition rt_mark_last_query fuel (rt : RoutingTable) (id : Id) (now : Z) :=
  rt_update fuel rt id None (node_mark_last_query now).

#[local] Arguments from_be_bytes : simpl never.

(** ** The invariant of the arena

    It is local: every node covers an aligned block of [2^bits] ids, the
    children of an inner node are its halves, and a leaf holds at most eight
    nodes of its block in ascending order. *)

Definition lo (n : BucketTreeNode) : Z := id_val (tn_start n).

Definition in_node (n : BucketTreeNode) (x : Id) : Prop :=
  lo n <= id_val x < lo n + 2 ^ tn_bits n.

Record meta_ok (n : BucketTreeNode) : Prop := {
  mo_bits : 0 <= tn_bits n <= 160;
  mo_start : is_id 20 (tn_start n);
  mo_end : is_id 20 (tn_end_inclusive n);
  mo_aligned : lo n mod 2 ^ tn_bits n = 0;
  mo_last : id_val (tn_end_inclusive n) = lo n + 2 ^ tn_bits n - 1
}.

Definition ascending : list RoutingTableNode -> Prop :=
  StronglySorted (fun a b => id_val (rn_id a) < id_val (rn_id b)).

Record leaf_ok (n : BucketTreeNode) (ns : list RoutingTableNode) : Prop := {
  lo_ids : forall m, m ∈ ns -> is_id 20 (rn_id m) /\ in_node n (rn_id m);
  lo_asc : ascending ns;
  lo_len : (length ns <= 8)%nat
}.

Definition children_ok (data : list BucketTreeNode) (n : BucketTreeNode) (l r : nat) : Prop :=
  exists ln rn, data !! l = Some ln /\ data !! r = Some rn /\ 1 <= tn_bits n
    /\ tn_bits ln = tn_bits n - 1 /\ tn_bits rn = tn_bits n - 1
    /\ lo ln = lo n /\ lo rn = lo n + 2 ^ (tn_bits n - 1).

Definition node_ok (data : list BucketTreeNode) (n : BucketTreeNode) : Prop :=
  meta_ok n /\ match tn_data n with
               | Leaf b => leaf_ok n (lb_nodes b)
               | LeftRight l r => children_ok data n l r
               end.

Record tree_ok (data : list BucketTreeNode) : Prop := {
  to_root : exists root, data !! 0%nat = Some root /\ tn_bits root = 160 /\ lo root = 0;
  to_nodes : forall i n, data !! i = Some n -> node_ok data n
}.

Lemma pow2_half b : 1 <= b -> 2 ^ b = 2 ^ (b - 1) + 2 ^ (b - 1).
Proof.
  intros. replace b with (Z.succ (b - 1)) at 1 by lia. rewrite Z.pow_succ_r by lia. lia.
Qed.

Lemma in_bounds_spec n x :
  meta_ok n -> is_id 20 x -> in_bounds n x = true <-> in_node n x.
Proof.
  intros Hm Hx. unfold in_bounds, in_node. rewrite andb_true_iff.
  rewrite (id_leb_val 20), (id_leb_val 20), !Z.leb_le by (done || apply Hm).
  rewrite (mo_last _ Hm). unfold lo. lia.
Qed.

(** Descending from node [i], the id [x] reaches the leaf [j]. *)
Inductive leads (data : list BucketTreeNode) (x : Id) : nat -> nat -> Prop :=
| leads_leaf i n b : data !! i = Some n -> tn_data n = Leaf b -> leads data x i i
| leads_node i n l r ln j :
    data !! i = Some n -> tn_data n = LeftRight l r -> data !! l = Some ln ->
    leads data x (if in_bounds ln x then l else r) j -> leads data x i j.

Lemma leads_det data x i j j' : leads data x i j -> leads data x i j' -> j = j'.
Proof.
  intros H. revert j'. induction H as [i n b Hi Hd|i n l r ln j Hi Hd Hl _ IH]; intros j' H'.
  - inversion H'; simplify_eq; congruence.
  - inversion H' as [i' n' b' Hi' Hd'|i' n' l' r' ln' j'' Hi' Hd' Hl' Hc]; subst.
    + congruence.
    + assert (n' = n) as -> by congruence. rewrite Hd in Hd'. injection Hd' as <- <-.
      assert (ln' = ln) as -> by congruence. by apply IH.
Qed.

Section Tree.
Context (data : list BucketTreeNode) (Hok : tree_ok data).

Lemma child_step i n l r x :
  data !! i = Some n -> tn_data n = LeftRight l r -> is_id 20 x -> in_node n x ->
  exists ln c, data !! l = Some ln /\ data !! (if in_bounds ln x then l else r) = Some c
    /\ tn_bits c = tn_bits n - 1 /\ in_node c x /\ 1 <= tn_bits n.
Proof.
  intros Hi Hd Hx Hin. destruct (to_nodes _ Hok i n Hi) as [Hm Hc]. rewrite Hd in Hc.
  destruct Hc as (ln & rn & Hl & Hr & Hb & Hbl & Hbr & Hll & Hlr).
  destruct (to_nodes _ Hok l ln Hl) as [Hml _].
  pose proof (in_bounds_spec ln x Hml Hx) as Hs. exists ln.
  pose proof (pow2_half (tn_bits n) ltac:(lia)) as Hp.
  destruct (in_bounds ln x).
  - exists ln. split_and!; try done. by apply Hs.
  - exists rn. split_and!; try done. unfold in_node in *. rewrite Hll, Hbl in Hs. rewrite Hlr, Hbr.
    assert (~ (lo n <= id_val x < lo n + 2 ^ (tn_bits n - 1))) by (intros Hc; by apply Hs in Hc).
    lia.
Qed.

Lemma get_leaf_leads fuel i n x :
  data !! i = Some n -> is_id 20 x -> in_node n x -> (Z.to_nat (tn_bits n) < fuel)%nat ->
  exists j nj b, get_leaf_from fuel data x i = Some (Ret j) /\ leads data x i j
    /\ data !! j = Some nj /\ tn_data nj = Leaf b /\ in_node nj x.
Proof.
  revert i n. induction fuel as [|fuel IH]; intros i n Hi Hx Hin Hf; [lia|].
  cbn [get_leaf_from]. rewrite (proj2 (index_Ret _ _ _) Hi). destruct (tn_data n) as [b|l r] eqn:Hd.
  - exists i, n, b. split_and!; try done. by eapply leads_leaf.
  - destruct (child_step i n l r x Hi Hd Hx Hin) as (ln & c & Hl & Hc & Hbc & Hcx & Hb).
    rewrite (proj2 (index_Ret _ _ _) Hl).
    destruct (IH _ c Hc Hx Hcx) as (j & nj & b & E & Hj & ?); [lia|].
    exists j, nj, b. split; [exact E|]. split; [|done]. by eapply leads_node.
Qed.

Lemma root_in x : is_id 20 x -> exists root, data !! 0%nat = Some root /\ tn_bits root = 160 /\ in_node root x.
Proof.
  intros Hx. destruct (to_root _ Hok) as (root & H0 & Hb & Hlo). exists root. split_and!; try done.
  unfold in_node. rewrite Hb, Hlo. apply (id_val_range x Hx).
Qed.

Lemma get_leaf_total fuel x :
  is_id 20 x -> (160 < fuel)%nat ->
  exists j nj b, get_leaf_from fuel data x 0 = Some (Ret j) /\ leads data x 0 j
    /\ data !! j = Some nj /\ tn_data nj = Leaf b /\ in_node nj x.
Proof.
  intros Hx Hf. destruct (root_in x Hx) as (root & H0 & Hb & Hin).
  apply (get_leaf_leads fuel 0 root x H0 Hx Hin). rewrite Hb. lia.
Qed.
End Tree.

(** ** What the tree holds *)

(** The leaf of [x] holds [m]. *)
Definition leaf_of (data : list BucketTreeNode) (i : nat) (x : Id) (m : RoutingTableNode) : Prop :=
  exists j nj b, leads data x i j /\ data !! j = Some nj /\ tn_data nj = Leaf b /\ m ∈ lb_nodes b.

Definition holds_node (data : list BucketTreeNode) (m : RoutingTableNode) : Prop :=
  is_id 20 (rn_id m) /\ leaf_of data 0 (rn_id m) m.

(** The leaves below node [i], from the left. *)
Inductive leaves (data : list BucketTreeNode) : nat -> list BucketTreeNode -> Prop :=
| leaves_leaf i n b : data !! i = Some n -> tn_data n = Leaf b -> leaves data i [n]
| leaves_node i n l r ls rs :
    data !! i = Some n -> tn_data n = LeftRight l r -> leaves data l ls -> leaves data r rs ->
    leaves data i (ls ++ rs).

Lemma iter_leaves_spec data i ls :
  leaves data i ls ->
  exists k, forall fuel q, iter_leaves (k + fuel) data (i :: q) = (app ls) <$> iter_leaves fuel data q.
Proof.
  induction 1 as [i n b Hi Hd|i n l r ls rs Hi Hd _ (kl & IHl) _ (kr & IHr)].
  - exists 1%nat. intros fuel q. cbn. rewrite Hi, Hd. done.
  - exists (S (kl + kr)). intros fuel q. cbn [Nat.add iter_leaves]. rewrite Hi, Hd.
    rewrite <- Nat.add_assoc, IHl, IHr. destruct (iter_leaves fuel data q); cbn; [|done].
    by rewrite app_assoc.
Qed.

Abbreviation nodes_in ls := (concat (leaf_nodes <$> ls)).

Lemma ascending_app l1 l2 :
  ascending (l1 ++ l2) <-> ascending l1 /\ ascending l2
    /\ forall a b, a ∈ l1 -> b ∈ l2 -> id_val (rn_id a) < id_val (rn_id b).
Proof.
  unfold ascending. rewrite StronglySorted_app. set_solver.
Qed.

Section Contents.
Context (data : list BucketTreeNode) (Hok : tree_ok data).

Lemma leaves_total i n :
  data !! i = Some n ->
  exists ls, leaves data i ls /\ ascending (nodes_in ls)
    /\ forall m, m ∈ nodes_in ls <-> is_id 20 (rn_id m) /\ in_node n (rn_id m) /\ leaf_of data i (rn_id m) m.
Proof.
  intros Hi. assert (Hb : 0 <= tn_bits n) by (destruct (to_nodes _ Hok i n Hi) as [Hm _]; apply Hm).
  remember (Z.to_nat (tn_bits n)) as k eqn:Hk. revert i n Hi Hb Hk.
  induction k as [k IH] using lt_wf_ind; intros i n Hi Hb Hk.
  destruct (to_nodes _ Hok i n Hi) as [Hm Hn]. destruct (tn_data n) as [b|l r] eqn:Hd.
  - exists [n]. split; [by eapply leaves_leaf|]. cbn. unfold leaf_nodes. rewrite Hd, app_nil_r.
    split; [apply Hn|]. intros m. split.
    + intros Hin. destruct (lo_ids _ _ Hn m Hin) as [? ?]. split_and!; [done|done|].
      exists i, n, b. split_and!; try done. by eapply leads_leaf.
    + intros (_ & _ & j & nj & b' & Hl & Hj & Hdj & Hin).
      assert (j = i) as -> by (eapply leads_det; [exact Hl|by eapply leads_leaf]). congruence.
  - pose proof Hn as (ln & rn & Hl & Hr & Hb1 & Hbl & Hbr & Hll & Hlr).
    pose proof (pow2_half (tn_bits n) ltac:(lia)) as Hp.
    assert (0 < 2 ^ (tn_bits n - 1)) by lia.
    destruct (IH (Z.to_nat (tn_bits ln)) ltac:(lia) l ln Hl ltac:(lia) eq_refl) as (ls & Lls & Als & Mls).
    destruct (IH (Z.to_nat (tn_bits rn)) ltac:(lia) r rn Hr ltac:(lia) eq_refl) as (rs & Lrs & Ars & Mrs).
    exists (ls ++ rs). split; [by eapply leaves_node|]. rewrite fmap_app, concat_app. split.
    + apply ascending_app. split_and!; [done|done|]. intros a c (_ & Ha & _)%Mls (_ & Hc & _)%Mrs.
      unfold in_node in *. rewrite ?Hll, ?Hbl, ?Hlr, ?Hbr in *. lia.
    + destruct (to_nodes _ Hok l ln Hl) as [Hml _].
      intros m. rewrite elem_of_app, Mls, Mrs. unfold leaf_of.
      assert (Hside : is_id 20 (rn_id m) -> in_bounds ln (rn_id m) = true <-> in_node ln (rn_id m))
        by (intros; by apply in_bounds_spec).
      split.
      * intros [(Hx & Hin & j & nj & b & Hj & ?)|(Hx & Hin & j & nj & b & Hj & ?)].
        -- split_and!; [done|unfold in_node in *; rewrite Hll, Hbl in Hin; lia|].
           exists j, nj, b. split; [|done]. eapply leads_node; [done..|].
           by rewrite (proj2 (Hside Hx)).
        -- split_and!; [done|unfold in_node in *; rewrite Hlr, Hbr in Hin; lia|].
           exists j, nj, b. split; [|done]. eapply leads_node; [done..|].
           specialize (Hside Hx). destruct (in_bounds ln (rn_id m)); [|done].
           destruct Hside as [E _]. specialize (E eq_refl). unfold in_node in *. rewrite Hll, Hbl in E. rewrite Hlr, Hbr in Hin. lia.
      * intros (Hx & Hin & j & nj & b & Hj & Hrest).
        inversion Hj as [i' n' b' Hi' Hd'|i' n' l' r' ln' j'' Hi' Hd' Hl' Hc]; subst; [congruence|].
        assert (n' = n) as -> by congruence. rewrite Hd in Hd'. injection Hd' as <- <-.
        assert (ln' = ln) as -> by congruence.
        specialize (Hside Hx). destruct (in_bounds ln (rn_id m)).
        -- left. split_and!; [done|by apply Hside|]. by exists j, nj, b.
        -- right. split_and!; [done| |by exists j, nj, b].
           assert (~ in_node ln (rn_id m)) by (intros Hc0; by apply Hside in Hc0).
           unfold in_node in *. rewrite Hll, Hbl in *. rewrite Hlr, Hbr. lia.
Qed.
End Contents.

(** [ns] is what iterating over the tree yields. *)
Definition contents (data : list BucketTreeNode) (ns : list RoutingTableNode) : Prop :=
  exists ls, leaves data 0 ls /\ ns = nodes_in ls.

Lemma contents_total data :
  tree_ok data ->
  exists ns, contents data ns /\ ascending ns /\ (forall m, m ∈ ns <-> holds_node data m)
    /\ exists k, forall fuel t, (k <= fuel)%nat -> bt_data t = data -> bt_iter fuel t = Some ns.
Proof.
  intros Hok. destruct (to_root _ Hok) as (root & H0 & Hb & Hlo).
  destruct (leaves_total data Hok 0 root H0) as (ls & Hls & Ha & Hm).
  exists (nodes_in ls). split; [by exists ls|]. split; [done|]. split.
  - intros m. rewrite Hm. unfold holds_node, in_node. rewrite Hb, Hlo. split; [tauto|].
    intros [Hx ?]. split_and!; try done; apply (id_val_range _ Hx).
  - destruct (iter_leaves_spec data 0 ls Hls) as (k & Hk). exists (k + 1)%nat. intros fuel t Hf <-.
    unfold bt_iter. replace fuel with (k + S (fuel - k - 1))%nat by lia. rewrite Hk. cbn.
    by rewrite app_nil_r.
Qed.

Lemma leaves_det data i ls ls' : leaves data i ls -> leaves data i ls' -> ls = ls'.
Proof.
  intros H. revert ls'. induction H as [i n b Hi Hd|i n l r ls rs Hi Hd _ IHl _ IHr]; intros ls' H';
    inversion H' as [i' n' b' Hi' Hd'|i' n' l' r' ls1 rs1 Hi' Hd' H1 H2]; subst;
    assert (n' = n) as -> by congruence; try congruence.
  rewrite Hd in Hd'. injection Hd' as <- <-. f_equal; auto.
Qed.

Lemma contents_det data ns ns' : contents data ns -> contents data ns' -> ns = ns'.
Proof. intros (ls & H & ->) (ls' & H' & ->). by rewrite (leaves_det _ _ _ _ H H'). Qed.

(** ** All ids of a leaf's block lead to it *)

Section LeadsRange.
Context (data : list BucketTreeNode) (Hok : tree_ok data).

Lemma leads_range y i j n nj x :
  leads data y i j -> data !! i = Some n -> data !! j = Some nj -> in_node nj x -> in_node n x.
Proof.
  intros Hl. revert n. induction Hl as [i n b Hi Hd|i n l r ln j Hi Hd Hl _ IH]; intros n0 Hn0 Hj Hx.
  - congruence.
  - assert (n0 = n) as -> by congruence. destruct (to_nodes _ Hok i n Hi) as [_ Hc]. rewrite Hd in Hc.
    destruct Hc as (ln' & rn & Hl' & Hr & Hb & Hbl & Hbr & Hll & Hlr).
    assert (ln' = ln) as -> by congruence.
    pose proof (pow2_half (tn_bits n) ltac:(lia)) as Hp.
    unfold in_node in *. destruct (in_bounds ln y).
    + specialize (IH ln Hl Hj Hx). rewrite Hll, Hbl in IH. lia.
    + specialize (IH rn Hr Hj Hx). rewrite Hlr, Hbr in IH. lia.
Qed.

Lemma leads_same y x i j nj :
  leads data y i j -> data !! j = Some nj -> is_id 20 y -> is_id 20 x -> in_node nj x ->
  leads data x i j.
Proof.
  intros Hl. induction Hl as [i n b Hi Hd|i n l r ln j Hi Hd Hl Hsub IH]; intros Hj Hy Hx Hin.
  - eapply leads_leaf; [exact Hi|exact Hd].
  - eapply leads_node; [done..|]. destruct (to_nodes _ Hok i n Hi) as [_ Hc]. rewrite Hd in Hc.
    destruct Hc as (ln' & rn & Hl' & Hr & Hb & Hbl & Hbr & Hll & Hlr).
    assert (ln' = ln) as -> by congruence. destruct (to_nodes _ Hok l ln Hl) as [Hml _].
    assert (Heq : in_bounds ln x = in_bounds ln y); [|rewrite Heq; by apply IH].
    pose proof (in_bounds_spec ln x Hml Hx) as Hs. destruct (in_bounds ln y).
    + apply Hs. by apply (leads_range y l j ln nj).
    + apply not_true_iff_false. intros Hc%Hs.
      pose proof (leads_range y r j rn nj x Hsub Hr Hj Hin) as Hrx.
      unfold in_node in Hc, Hrx. rewrite Hll, Hbl in Hc. rewrite Hlr, Hbr in Hrx. lia.
Qed.

Lemma leads_dec x j : is_id 20 x -> leads data x 0 j \/ ~ leads data x 0 j.
Proof.
  intros Hx. destruct (get_leaf_total data Hok 161 x Hx ltac:(lia)) as (k & _ & _ & _ & Hk & _).
  destruct (decide (k = j)) as [->|Hne]; [by left|]. right. intros Hj. by apply Hne, (leads_det _ _ _ _ _ Hk).
Qed.
End LeadsRange.

(** ** Changing the nodes of one leaf *)

Lemma children_ok_mono data data' n l r :
  (forall i c, data !! i = Some c -> exists c', data' !! i = Some c' /\ tn_bits c' = tn_bits c
     /\ tn_start c' = tn_start c) ->
  children_ok data n l r -> children_ok data' n l r.
Proof.
  intros Hsame (ln & rn & Hl & Hr & Hb & Hbl & Hbr & Hll & Hlr).
  destruct (Hsame l ln Hl) as (ln' & Hl' & Eb & Es). destruct (Hsame r rn Hr) as (rn' & Hr' & Eb' & Es').
  exists ln', rn'. unfold lo in *. by rewrite Eb, Es, Eb', Es'.
Qed.

Section SetLeaf.
Context (data : list BucketTreeNode) (idx : nat) (leaf : BucketTreeNode) (b : LeafBucket)
  (ns : list RoutingTableNode) (now : Z).
Context (Hok : tree_ok data) (Hleaf : data !! idx = Some leaf) (Hd : tn_data leaf = Leaf b)
  (Hns : leaf_ok leaf ns).

Let leaf' := set_data leaf (Leaf (mkLeaf ns now)).
Let data' := <[idx := leaf']> data.

Lemma set_leaf_lookup i n :
  data !! i = Some n -> exists n', data' !! i = Some n' /\ tn_bits n' = tn_bits n
    /\ tn_start n' = tn_start n /\ tn_end_inclusive n' = tn_end_inclusive n
    /\ (i <> idx -> n' = n).
Proof.
  intros Hi. unfold data' in *. destruct (decide (i = idx)) as [->|Hne].
  - rewrite list_lookup_insert_eq by (by eapply lookup_lt_Some). eexists. split; [done|].
    unfold leaf' in *. assert (n = leaf) as -> by congruence. by split_and!.
  - rewrite list_lookup_insert_ne by done. exists n. by split_and!.
Qed.

Lemma set_leaf_ok : tree_ok data'.
Proof.
  split.
  - destruct (to_root _ Hok) as (root & H0 & Hb & Hlo).
    destruct (set_leaf_lookup 0 root H0) as (root' & H0' & Eb & Es & _).
    exists root'. unfold lo. by rewrite Eb, Es.
  - intros i n Hi. unfold data' in *. destruct (decide (i = idx)) as [->|Hne].
    + rewrite list_lookup_insert_eq in Hi by (by eapply lookup_lt_Some). injection Hi as <-.
      destruct (to_nodes _ Hok idx leaf Hleaf) as [[] _]. unfold leaf' in *. split; [by split|]. cbn.
      by destruct Hns.
    + rewrite list_lookup_insert_ne in Hi by done. destruct (to_nodes _ Hok i n Hi) as [Hm Hn].
      split; [done|]. destruct (tn_data n); [done|]. eapply children_ok_mono; [|exact Hn].
      intros j c Hj. destruct (set_leaf_lookup j c Hj) as (c' & ? & ? & ? & _). by exists c'.
Qed.

Lemma set_leaf_leads x i j : leads data x i j -> leads data' x i j.
Proof.
  induction 1 as [i n b0 Hi Hdi|i n l r ln j Hi Hdi Hl _ IH].
  - destruct (set_leaf_lookup i n Hi) as (n' & Hi' & _ & _ & _ & Hne).
    destruct (decide (i = idx)) as [->|Hn].
    + eapply leads_leaf; [exact Hi'|]. unfold data' in *.
      rewrite list_lookup_insert_eq in Hi' by (by eapply lookup_lt_Some). by injection Hi' as <-.
    + rewrite (Hne Hn) in Hi'. by eapply leads_leaf.
  - destruct (set_leaf_lookup i n Hi) as (n' & Hi' & _ & _ & _ & Hne).
    assert (i <> idx) by (intros ->; congruence). rewrite Hne in Hi' by done.
    destruct (set_leaf_lookup l ln Hl) as (ln' & Hl' & Eb & Es & Ee & _).
    eapply leads_node; [done..|]. unfold in_bounds in *. by rewrite Es, Ee.
Qed.

(** The other leaves are untouched. *)
Lemma set_leaf_holds m :
  holds_node data' m <-> is_id 20 (rn_id m)
    /\ ((leads data (rn_id m) 0 idx /\ m ∈ ns) \/ (~ leads data (rn_id m) 0 idx /\ holds_node data m)).
Proof.
  unfold holds_node, leaf_of.
  assert (Hnew : data' !! idx = Some leaf')
    by (unfold data'; apply list_lookup_insert_eq; by eapply lookup_lt_Some).
  split.
  - intros (Hx & j & nj & b' & Hj & Hnj & Hb' & Hin). split; [done|].
    destruct (get_leaf_total data Hok 161 (rn_id m) Hx ltac:(lia)) as (k & nk & bk & _ & Hk & Hnk & Hbk & _).
    assert (j = k) as -> by (eapply leads_det; [exact Hj|by apply set_leaf_leads]).
    destruct (decide (k = idx)) as [->|Hne].
    + left. split; [done|]. rewrite Hnew in Hnj. injection Hnj as <-. cbn in Hb'. by injection Hb' as <-.
    + right. split; [intros H; by apply Hne, (leads_det _ _ _ _ _ Hk)|].
      unfold data' in *. rewrite list_lookup_insert_ne in Hnj by done. split; [done|]. by exists k, nj, b'.
  - intros (Hx & [[Hl Hin]|(Hnl & _ & j & nj & b' & Hj & Hnj & Hb' & Hin)]); (split; [done|]).
    + exists idx, leaf', (mkLeaf ns now). split_and!; try done. by apply set_leaf_leads.
    + exists j, nj, b'. split_and!; try done; [by apply set_leaf_leads|]. unfold data' in *.
      rewrite list_lookup_insert_ne; [done|]. intros ->. by apply Hnl.
Qed.
End SetLeaf.

(** ** Splitting a leaf *)

Lemma aligned_testbit a b :
  1 <= b -> a mod 2 ^ b = 0 ->
  Z.testbit a (b - 1) = false /\ Z.testbit (a + 2 ^ b - 1) (b - 1) = true
  /\ a mod 2 ^ (b - 1) = 0 /\ (a + 2 ^ (b - 1)) mod 2 ^ (b - 1) = 0.
Proof.
  intros Hb Ha. pose proof (pow2_half b Hb) as Hp.
  pose proof (Z.div_mod a (2 ^ b) ltac:(lia)) as Hdm. rewrite Ha, Z.add_0_r, Z.mul_comm in Hdm.
  set (q := a / 2 ^ b) in *.
  assert (Hm : a mod 2 ^ (b - 1) = 0).
  { rewrite Hdm, Hp. replace (q * _) with ((q * 2) * 2 ^ (b - 1)) by lia. apply Z.mod_mul. lia. }
  split_and!.
  - rewrite Hdm. replace (q * 2 ^ b) with (q * 2 ^ b + 0) by lia. rewrite testbit_cat by lia.
    rewrite (proj2 (Z.ltb_lt _ _)) by lia. apply Z.testbit_0_l.
  - rewrite Hdm. replace (q * 2 ^ b + 2 ^ b - 1) with (q * 2 ^ b + (2 ^ b - 1)) by lia.
    rewrite testbit_cat by lia. rewrite (proj2 (Z.ltb_lt _ _)) by lia.
    rewrite Z.sub_1_r, <- Z.ones_equiv. apply Z.ones_spec_low. lia.
  - done.
  - rewrite <- Z.add_mod_idemp_l, Hm, Z.add_0_l by lia. apply Z.mod_same. lia.
Qed.

Lemma compute_split_spec n :
  meta_ok n -> 1 <= tn_bits n ->
  exists le rs,
    compute_split_start_end (tn_start n) (tn_end_inclusive n) (tn_bits n)
      = Ret ((tn_start n, le), (rs, tn_end_inclusive n))
    /\ is_id 20 le /\ is_id 20 rs
    /\ id_val rs = lo n + 2 ^ (tn_bits n - 1) /\ id_val le = id_val rs - 1.
Proof.
  intros [Hb Hs He Ha Hl] H1. pose proof (pow2_half _ H1) as Hp.
  destruct (aligned_testbit (lo n) (tn_bits n) H1 Ha) as (Ts & Te & _).
  unfold compute_split_start_end. rewrite wrap_id by (unfold is_uint; lia).
  destruct (set_bit_val 20 (tn_end_inclusive n) (160 - tn_bits n) He ltac:(lia) false) as (le & -> & Hle & Vle).
  destruct (set_bit_val 20 (tn_start n) (160 - tn_bits n) Hs ltac:(lia) true) as (rs & Ers & Hrs & Vrs).
  run. rewrite Ers. exists le, rs. split; [done|]. split; [done|]. split; [done|].
  assert (Hpos : bit_pos 20 (160 - tn_bits n) = tn_bits n - 1) by (unfold bit_pos; lia).
  rewrite Hpos in Vle, Vrs. rewrite Hl, Te in Vle. fold (lo n) in Vrs. rewrite Ts in Vrs.
  cbn [Z.b2z] in *. lia.
Qed.

Section Split.
Context (data : list BucketTreeNode) (idx : nat) (leaf : BucketTreeNode) (b : LeafBucket)
  (le rs : Id) (now1 now2 : Z).
Context (Hok : tree_ok data) (Hleaf : data !! idx = Some leaf) (Hd : tn_data leaf = Leaf b)
  (H1 : 1 <= tn_bits leaf) (Hle : is_id 20 le) (Hrs : is_id 20 rs)
  (Vrs : id_val rs = lo leaf + 2 ^ (tn_bits leaf - 1)) (Vle : id_val le = id_val rs - 1).

Let ld := filter (fun n => id_ltb (rn_id n) rs = true) (lb_nodes b).
Let rd := filter (fun n => id_ltb (rn_id n) rs = false) (lb_nodes b).
Let lnode := mkTreeNode (u8 (tn_bits leaf - 1)) (tn_start leaf) le (Leaf (mkLeaf ld now1)).
Let rnode := mkTreeNode (u8 (tn_bits leaf - 1)) rs (tn_end_inclusive leaf) (Leaf (mkLeaf rd now2)).
Let L := length data.
Let inner := set_data leaf (LeftRight L (S L)).
Let data' := <[idx := inner]> ((data ++ [lnode]) ++ [rnode]).

Lemma split_bits : u8 (tn_bits leaf - 1) = tn_bits leaf - 1.
Proof.
  destruct (to_nodes _ Hok idx leaf Hleaf) as [Hm _]. pose proof (mo_bits _ Hm).
  apply wrap_id. unfold is_uint. lia.
Qed.

Lemma split_idx_lt : (idx < L)%nat.
Proof. by eapply lookup_lt_Some. Qed.

Lemma split_lookup_left : data' !! L = Some lnode.
Proof.
  pose proof split_idx_lt. unfold data'. rewrite list_lookup_insert_ne by lia.
  rewrite lookup_app_l by (rewrite length_app; cbn; lia).
  rewrite lookup_app_r by lia. by rewrite Nat.sub_diag.
Qed.

Lemma split_lookup_right : data' !! S L = Some rnode.
Proof.
  pose proof split_idx_lt. unfold data'. rewrite list_lookup_insert_ne by lia.
  rewrite lookup_app_r by (rewrite length_app; cbn; lia). rewrite length_app. cbn.
  by replace (S L - (length data + 1))%nat with 0%nat by (unfold L; lia).
Qed.

Lemma split_lookup_idx : data' !! idx = Some inner.
Proof.
  pose proof split_idx_lt. unfold data'. apply list_lookup_insert_eq.
  rewrite !length_app. cbn. unfold L in *. lia.
Qed.

Lemma split_lookup_old i : (i < L)%nat -> i <> idx -> data' !! i = data !! i.
Proof.
  intros Hi Hne. unfold data'. rewrite list_lookup_insert_ne by done.
  rewrite lookup_app_l by (rewrite length_app; cbn; unfold L in *; lia).
  by rewrite lookup_app_l by done.
Qed.

Lemma split_lookup i n :
  data !! i = Some n -> exists n', data' !! i = Some n' /\ tn_bits n' = tn_bits n
    /\ tn_start n' = tn_start n /\ tn_end_inclusive n' = tn_end_inclusive n
    /\ (i <> idx -> n' = n).
Proof.
  intros Hi. pose proof (lookup_lt_Some _ _ _ Hi). destruct (decide (i = idx)) as [->|Hne].
  - exists inner. rewrite split_lookup_idx. assert (n = leaf) as -> by congruence. by split_and!.
  - exists n. rewrite split_lookup_old by done. by split_and!.
Qed.

Lemma ascending_filter (P : RoutingTableNode -> Prop) `{!forall x, Decision (P x)} ns :
  ascending ns -> ascending (filter P ns).
Proof.
  unfold ascending. induction 1 as [|n ns Hs IH Hn]; [constructor|]. rewrite filter_cons.
  case_decide; [|done]. constructor; [done|]. rewrite Forall_forall in *.
  intros m [_ Hm]%list_elem_of_filter. by apply Hn.
Qed.

Lemma split_ltb x : is_id 20 x -> id_ltb x rs = true <-> id_val x < lo leaf + 2 ^ (tn_bits leaf - 1).
Proof. intros Hx. rewrite (id_ltb_val 20), Z.ltb_lt by done. by rewrite Vrs. Qed.

Lemma split_leaf_ok_left : node_ok data' lnode.
Proof.
  destruct (to_nodes _ Hok idx leaf Hleaf) as [Hm Hn]. rewrite Hd in Hn. pose proof (mo_bits _ Hm).
  destruct (aligned_testbit (lo leaf) (tn_bits leaf) H1 (mo_aligned _ Hm)) as (_ & _ & Ha & _).
  unfold node_ok, lnode. cbn. split.
  - split; cbn; rewrite ?split_bits; [lia|apply Hm|done|done|].
    unfold lo. cbn. rewrite Vle, Vrs. unfold lo. lia.
  - destruct Hn as [Hids Hasc Hlen]. split.
    + intros m [Hlt Hin]%list_elem_of_filter. destruct (Hids m Hin) as [Hx Hr]. split; [done|].
      apply split_ltb in Hlt; [|done]. unfold in_node, lo in *. cbn. rewrite split_bits. lia.
    + by apply ascending_filter.
    + pose proof (length_filter (fun n => id_ltb (rn_id n) rs = true) (lb_nodes b)). unfold ld. lia.
Qed.

Lemma split_leaf_ok_right : node_ok data' rnode.
Proof.
  destruct (to_nodes _ Hok idx leaf Hleaf) as [Hm Hn]. rewrite Hd in Hn. pose proof (mo_bits _ Hm).
  pose proof (pow2_half _ H1).
  destruct (aligned_testbit (lo leaf) (tn_bits leaf) H1 (mo_aligned _ Hm)) as (_ & _ & _ & Ha).
  unfold node_ok, rnode. cbn. split.
  - split; cbn; rewrite ?split_bits; [lia|done|apply Hm| |]; unfold lo; cbn; rewrite Vrs; [done|].
    rewrite (mo_last _ Hm). lia.
  - destruct Hn as [Hids Hasc Hlen]. split.
    + intros m [Hlt Hin]%list_elem_of_filter. destruct (Hids m Hin) as [Hx Hr]. split; [done|].
      assert (~ id_val (rn_id m) < lo leaf + 2 ^ (tn_bits leaf - 1))
        by (intros Hc%split_ltb; [congruence|done]).
      unfold in_node in *. unfold lo at 1 2. cbn. rewrite split_bits, Vrs. lia.
    + by apply ascending_filter.
    + pose proof (length_filter (fun n => id_ltb (rn_id n) rs = false) (lb_nodes b)). unfold rd. lia.
Qed.

Lemma split_ok : tree_ok data'.
Proof.
  split.
  - destruct (to_root _ Hok) as (root & H0 & Hb & Hlo).
    destruct (split_lookup 0 root H0) as (root' & H0' & Eb & Es & _).
    exists root'. unfold lo. by rewrite Eb, Es.
  - intros i n Hi. destruct (decide (i = L)) as [->|].
    { rewrite split_lookup_left in Hi. injection Hi as <-. apply split_leaf_ok_left. }
    destruct (decide (i = S L)) as [->|].
    { rewrite split_lookup_right in Hi. injection Hi as <-. apply split_leaf_ok_right. }
    assert (i < L)%nat.
    { apply lookup_lt_Some in Hi. unfold data' in Hi. rewrite length_insert, !length_app in Hi.
      cbn in Hi. unfold L in *. lia. }
    destruct (decide (i = idx)) as [->|].
    + rewrite split_lookup_idx in Hi. injection Hi as <-. destruct (to_nodes _ Hok idx leaf Hleaf) as [[] _].
      unfold inner. split; [by split|]. cbn. exists lnode, rnode.
      split; [apply split_lookup_left|]. split; [apply split_lookup_right|]. cbn. rewrite split_bits.
      by split_and!.
    + rewrite split_lookup_old in Hi by done. destruct (to_nodes _ Hok i n Hi) as [Hm Hn].
      split; [done|]. destruct (tn_data n); [done|]. eapply children_ok_mono; [|exact Hn].
      intros j c Hj. destruct (split_lookup j c Hj) as (c' & ? & ? & ? & _). by exists c'.
Qed.

Definition split_side (x : Id) : nat := if id_ltb x rs then L else S L.

Lemma split_in_bounds x : is_id 20 x -> in_node leaf x -> in_bounds lnode x = id_ltb x rs.
Proof.
  intros Hx Hin. apply eq_true_iff_eq. destruct split_leaf_ok_left as [Hm _].
  rewrite (in_bounds_spec lnode x Hm Hx), split_ltb by done. unfold in_node in *. cbn.
  rewrite split_bits. change (lo lnode) with (lo leaf). lia.
Qed.

Lemma split_leads_side x : is_id 20 x -> in_node leaf x -> leads data' x idx (split_side x).
Proof.
  intros Hx Hin. eapply leads_node; [apply split_lookup_idx|done|apply split_lookup_left|].
  rewrite split_in_bounds by done. unfold split_side. destruct (id_ltb x rs).
  - eapply leads_leaf; [apply split_lookup_left|done].
  - eapply leads_leaf; [apply split_lookup_right|done].
Qed.

Lemma split_leads x i j :
  is_id 20 x -> (j = idx -> in_node leaf x) -> leads data x i j ->
  leads data' x i (if decide (j = idx) then split_side x else j).
Proof.
  intros Hx Hj Hl. induction Hl as [i n b0 Hi Hdi|i n l r ln j Hi Hdi Hl _ IH].
  - case_decide as Hc; [subst i; by apply split_leads_side, Hj|].
    eapply leads_leaf; [|exact Hdi]. rewrite split_lookup_old; [done|by eapply lookup_lt_Some|done].
  - destruct (split_lookup i n Hi) as (n' & Hi' & _ & _ & _ & Hne).
    assert (i <> idx) by (intros ->; congruence). rewrite Hne in Hi' by done.
    destruct (split_lookup l ln Hl) as (ln' & Hl' & Eb & Es & Ee & _).
    eapply leads_node; [done..|]. unfold in_bounds in *. rewrite Es, Ee. by apply IH.
Qed.

Lemma leads_in_node x n j : is_id 20 x -> leads data x 0 j -> data !! j = Some n -> in_node n x.
Proof.
  intros Hx Hl Hn. destruct (get_leaf_total data Hok 161 x Hx ltac:(lia)) as (k & nk & bk & _ & Hk & Hnk & _ & Hin).
  assert (j = k) as -> by (eapply leads_det; done). congruence.
Qed.

(** The tree holds the same nodes after the split. *)
Lemma split_holds m : holds_node data' m <-> holds_node data m.
Proof.
  unfold holds_node. enough (is_id 20 (rn_id m) -> leaf_of data' 0 (rn_id m) m <-> leaf_of data 0 (rn_id m) m) by tauto.
  intros Hx. destruct (get_leaf_total data Hok 161 (rn_id m) Hx ltac:(lia)) as (k & nk & bk & _ & Hk & Hnk & Hbk & Hin).
  assert (Hk' : leads data' (rn_id m) 0 (if decide (k = idx) then split_side (rn_id m) else k)).
  { apply split_leads; [done| |done]. intros ->. by assert (nk = leaf) as <- by congruence. }
  assert (Hold : leaf_of data 0 (rn_id m) m <-> m ∈ lb_nodes bk).
  { split; [|by exists k, nk, bk]. intros (j & nj & bj & Hj & Hnj & Hbj & ?).
    assert (j = k) as -> by (by eapply leads_det). congruence. }
  rewrite Hold. case_decide as Hc.
  - subst k. assert (nk = leaf) as -> by congruence. assert (bk = b) as -> by congruence.
    unfold split_side in Hk'. destruct (id_ltb (rn_id m) rs) eqn:E.
    + split.
      * intros (j & nj & bj & Hj & Hnj & Hbj & Hm). assert (j = L) as -> by (by eapply leads_det).
        rewrite split_lookup_left in Hnj. injection Hnj as <-. injection Hbj as <-.
        by apply list_elem_of_filter in Hm as [_ ?].
      * intros Hm. exists L, lnode, (mkLeaf ld now1). split_and!; [done|apply split_lookup_left|done|].
        by apply list_elem_of_filter.
    + split.
      * intros (j & nj & bj & Hj & Hnj & Hbj & Hm). assert (j = S L) as -> by (by eapply leads_det).
        rewrite split_lookup_right in Hnj. injection Hnj as <-. injection Hbj as <-.
        by apply list_elem_of_filter in Hm as [_ ?].
      * intros Hm. exists (S L), rnode, (mkLeaf rd now2). split_and!; [done|apply split_lookup_right|done|].
        by apply list_elem_of_filter.
  - assert (Hnk' : data' !! k = Some nk) by (rewrite split_lookup_old; [done|by eapply lookup_lt_Some|done]).
    split; [|by exists k, nk, bk]. intros (j & nj & bj & Hj & Hnj & Hbj & ?).
    assert (j = k) as -> by (by eapply leads_det). congruence.
Qed.
End Split.

(** ** Node lists of a leaf *)

Lemma update_first_Some p f ns x ns' :
  update_first p f ns = Some (x, ns') ->
  exists l1 l2, ns = l1 ++ x :: l2 /\ ns' = l1 ++ f x :: l2 /\ p x = true.
Proof.
  revert ns'. induction ns as [|n ns IH]; intros ns' E; [done|]. cbn in E. destruct (p n) eqn:Ep.
  - injection E as <- <-. by exists [], ns.
  - destruct (update_first p f ns) as [[y ns1]|]; [|done]. cbn in E. injection E as <- <-.
    destruct (IH ns1 eq_refl) as (l1 & l2 & -> & -> & Hp). by exists (n :: l1), l2.
Qed.

Lemma update_first_None p f ns : update_first p f ns = None -> forall m, m ∈ ns -> p m = false.
Proof.
  induction ns as [|n ns IH]; cbn; intros E m Hm; [by apply not_elem_of_nil in Hm|].
  destruct (p n) eqn:Ep; [done|]. destruct (update_first p f ns) eqn:Eu; [done|].
  apply elem_of_cons in Hm as [->|Hm]; [done|]. by apply IH.
Qed.

Lemma ascending_NoDup ns : ascending ns -> NoDup (rn_id <$> ns).
Proof.
  unfold ascending. induction 1 as [|n ns Hs IH Hn]; [constructor|]. cbn. constructor; [|done].
  intros (m & E & Hm)%list_elem_of_fmap. rewrite Forall_forall in Hn. specialize (Hn m Hm).
  rewrite E in Hn. lia.
Qed.

Lemma sort_nodes_perm ns : sort_nodes ns ≡ₚ ns.
Proof. apply sort_by_perm. Qed.

Lemma sort_nodes_ascending ns :
  (forall m, m ∈ ns -> is_id 20 (rn_id m)) -> NoDup (rn_id <$> ns) -> ascending (sort_nodes ns).
Proof.
  intros Hids Hnd.
  assert (Hs : sorted_by (fun a b => id_leb (rn_id a) (rn_id b)) (sort_nodes ns)).
  { apply sort_by_sorted; intros *; [apply bytes_leb_total|apply bytes_leb_trans]. }
  assert (Hids' : forall m, m ∈ sort_nodes ns -> is_id 20 (rn_id m))
    by (intros m; rewrite sort_nodes_perm; apply Hids).
  assert (Hnd' : NoDup (rn_id <$> sort_nodes ns)) by (by rewrite sort_nodes_perm).
  clear Hids Hnd. unfold ascending. induction (sort_nodes ns) as [|n l IH]; [constructor|].
  destruct Hs as [Hn Hs]. apply NoDup_cons in Hnd' as [Hni Hnd'].
  constructor; [apply IH; [done| |done]; intros; apply Hids'; by right|].
  apply Forall_forall. intros m Hm. specialize (Hn m Hm).
  rewrite (id_leb_val 20), Z.leb_le in Hn by (apply Hids'; first [by left|by right]).
  assert (id_val (rn_id n) <> id_val (rn_id m)); [|lia]. intros E.
  apply (id_val_inj 20) in E; [|apply Hids'; left|apply Hids'; by right].
  apply Hni. rewrite E. by apply list_elem_of_fmap_2.
Qed.

Lemma existsb_id nodes id :
  existsb (fun r => id_eqb (rn_id r) id) nodes = true <-> exists m, m ∈ nodes /\ rn_id m = id.
Proof.
  rewrite existsb_exists. unfold id_eqb. setoid_rewrite bool_decide_eq_true.
  split; intros (m & Hm & E); exists m; split; try done; by apply list_elem_of_In.
Qed.

Section Insert.
Context (now : Z) (self_id id : Id) (addr : SocketAddr) (Hid : is_id 20 id).

Definition fresh_node : RoutingTableNode := mkNode id addr None None None 0.

(** The effect of an insertion on what the tree holds. *)
Definition insert_effect (t t' : BucketTree) (r : InsertResult) : Prop :=
  let old := holds_node (bt_data t) in
  let new := holds_node (bt_data t') in
  match r with
  | WasExisting =>
    bt_size t' = bt_size t /\ (exists m, old m /\ rn_id m = id) /\ forall m, new m <-> old m
  | ReplacedBad bad =>
    bt_size t' = bt_size t /\ old bad /\ status bad now = Bad
    /\ (forall m, old m -> rn_id m <> id)
    /\ forall m, new m <-> m = fresh_node \/ (old m /\ m <> bad)
  | Added =>
    bt_size t' = u64 (bt_size t + 1) /\ bt_size t <> bt_max_size t
    /\ (forall m, old m -> rn_id m <> id) /\ forall m, new m <-> m = fresh_node \/ old m
  | Ignored =>
    bt_size t' = bt_size t /\ (forall m, old m -> rn_id m <> id) /\ forall m, new m <-> old m
  end.

Lemma insert_effect_mono t1 t2 t' r :
  bt_size t1 = bt_size t2 -> bt_max_size t1 = bt_max_size t2 ->
  (forall m, holds_node (bt_data t2) m <-> holds_node (bt_data t1) m) ->
  insert_effect t2 t' r -> insert_effect t1 t' r.
Proof.
  intros Hs Hm Hh. unfold insert_effect. rewrite Hs, Hm. destruct r; setoid_rewrite Hh; tauto.
Qed.

Section Leaf.
Context (t : BucketTree) (idx : nat) (leaf : BucketTreeNode) (b : LeafBucket).
Context (Hok : tree_ok (bt_data t)) (Hlead : leads (bt_data t) id 0 idx)
  (Hleaf : bt_data t !! idx = Some leaf) (Hd : tn_data leaf = Leaf b) (Hin : in_node leaf id).

Lemma leaf_holds m : m ∈ lb_nodes b -> leads (bt_data t) (rn_id m) 0 idx -> holds_node (bt_data t) m.
Proof.
  intros Hm Hl. destruct (to_nodes _ Hok idx leaf Hleaf) as [_ Hn]. rewrite Hd in Hn.
  split; [by apply (lo_ids _ _ Hn)|]. by exists idx, leaf, b.
Qed.

Lemma holds_leaf m : holds_node (bt_data t) m -> leads (bt_data t) (rn_id m) 0 idx -> m ∈ lb_nodes b.
Proof.
  intros (_ & j & nj & bj & Hj & Hnj & Hbj & Hm) Hl.
  assert (j = idx) as -> by (by eapply leads_det). congruence.
Qed.

Lemma absent_in_tree :
  existsb (fun r => id_eqb (rn_id r) id) (lb_nodes b) = false ->
  forall m, holds_node (bt_data t) m -> rn_id m <> id.
Proof.
  intros He m Hm E. apply not_true_iff_false in He. apply He, existsb_id. exists m. split; [|done].
  apply holds_leaf; [done|]. by rewrite E.
Qed.

Lemma insert_leaf_ok ns l1 l2 :
  lb_nodes b ≡ₚ l1 ++ l2 -> ns ≡ₚ fresh_node :: l1 -> (length ns <= 8)%nat ->
  existsb (fun r => id_eqb (rn_id r) id) (lb_nodes b) = false ->
  leaf_ok leaf (sort_nodes ns).
Proof.
  intros Hp Hns Hlen He. destruct (to_nodes _ Hok idx leaf Hleaf) as [_ Hn]. rewrite Hd in Hn.
  assert (Hids : forall m, m ∈ ns -> is_id 20 (rn_id m) /\ in_node leaf (rn_id m)).
  { intros m. rewrite Hns. intros [->|Hm]%elem_of_cons; [done|].
    apply (lo_ids _ _ Hn). rewrite Hp. by apply elem_of_app; left. }
  split.
  - intros m. rewrite sort_nodes_perm. apply Hids.
  - apply sort_nodes_ascending; [intros; by apply Hids|].
    pose proof (ascending_NoDup _ (lo_asc _ _ Hn)) as Hnd. rewrite Hp, fmap_app in Hnd.
    apply NoDup_app in Hnd as (Hnd & _ & _). rewrite Hns. cbn. constructor; [|done].
    intros (m & E & Hm)%list_elem_of_fmap.
    apply not_true_iff_false in He. apply He, existsb_id. exists m. split; [|done].
    rewrite Hp. by apply elem_of_app; left.
  - by rewrite sort_nodes_perm.
Qed.

(** Replacing the node list of the leaf by one made of [fresh_node] and [l1]. *)
Lemma insert_leaf_holds ns l1 l2 size :
  lb_nodes b ≡ₚ l1 ++ l2 -> ns ≡ₚ fresh_node :: l1 -> (length ns <= 8)%nat ->
  existsb (fun r => id_eqb (rn_id r) id) (lb_nodes b) = false ->
  let t' := mkTree (<[idx := set_data leaf (Leaf (mkLeaf (sort_nodes ns) now))]> (bt_data t)) size
              (bt_max_size t) in
  tree_ok (bt_data t') /\
  forall m, holds_node (bt_data t') m <-> m = fresh_node \/ (holds_node (bt_data t) m /\ m ∉ l2).
Proof.
  intros Hp Hns Hlen He. cbv zeta. cbn [bt_data].
  pose proof (insert_leaf_ok ns l1 l2 Hp Hns Hlen He) as Hlo. split; [by eapply set_leaf_ok|].
  destruct (to_nodes _ Hok idx leaf Hleaf) as [_ Hn]. rewrite Hd in Hn.
  pose proof (ascending_NoDup _ (lo_asc _ _ Hn)) as Hnd. apply NoDup_fmap_1 in Hnd.
  assert (Hleads : forall m, m ∈ lb_nodes b -> leads (bt_data t) (rn_id m) 0 idx).
  { intros m Hm. destruct (lo_ids _ _ Hn m Hm). by eapply (leads_same _ Hok id). }
  rewrite Hp in Hnd. apply NoDup_app in Hnd as (_ & Hdis & _).
  intros m. erewrite set_leaf_holds by done. rewrite sort_nodes_perm, Hns, elem_of_cons. split.
  - intros (Hx & [[Hl [->|Hm]]|[Hnl Hm]]); [by left| |]; right.
    + split; [|by apply Hdis]. apply leaf_holds; [|done]. rewrite Hp. by apply elem_of_app; left.
    + split; [done|]. intros Hm2. apply Hnl, Hleads. rewrite Hp. by apply elem_of_app; right.
  - intros [->|[Hm Hm2]]; [split; [done|]; left; split; [done|by left]|]. split; [apply Hm|].
    destruct (leads_dec _ Hok (rn_id m) idx) as [Hl|Hnl]; [apply Hm| |by right].
    left. split; [done|]. right. pose proof (holds_leaf m Hm Hl) as Hb. rewrite Hp in Hb.
    by apply elem_of_app in Hb as [?|?].
Qed.

(** A full leaf can be split: eight nodes do not fit in a block of one id. *)
Lemma full_leaf_bits : (8 <= length (lb_nodes b))%nat -> 1 <= tn_bits leaf.
Proof.
  intros H8. destruct (to_nodes _ Hok idx leaf Hleaf) as [Hm Hn]. rewrite Hd in Hn.
  pose proof (mo_bits _ Hm). destruct (decide (tn_bits leaf = 0)) as [E|]; [exfalso|lia].
  destruct Hn as [Hids Hasc _]. destruct (lb_nodes b) as [|x [|y ns]]; cbn in H8; try lia.
  apply StronglySorted_inv in Hasc as [_ Hxy]. apply Forall_cons_1 in Hxy as [Hxy _].
  destruct (Hids x) as [_ Hx]; [left|]. destruct (Hids y) as [_ Hy]; [right; left|].
  unfold in_node in *. rewrite E in *. lia.
Qed.

(** One round either decides, or splits the leaf and goes on in the half of
    [id], with the same nodes in the tree. *)
Lemma insert_round_spec clock :
  (exists t' r, insert_round now clock self_id id addr t idx = Ret (t', inl r)
     /\ tree_ok (bt_data t') /\ bt_max_size t' = bt_max_size t /\ insert_effect t t' r)
  \/ (exists t' idx' leaf' b', insert_round now clock self_id id addr t idx = Ret (t', inr idx')
     /\ tree_ok (bt_data t') /\ bt_max_size t' = bt_max_size t /\ bt_size t' = bt_size t
     /\ leads (bt_data t') id 0 idx' /\ bt_data t' !! idx' = Some leaf' /\ tn_data leaf' = Leaf b'
     /\ in_node leaf' id /\ tn_bits leaf' = tn_bits leaf - 1 /\ 1 <= tn_bits leaf
     /\ forall m, holds_node (bt_data t') m <-> holds_node (bt_data t) m).
Proof.
  unfold insert_round. rewrite (proj2 (index_Ret _ _ _) Hleaf). run. rewrite Hd.
  destruct (to_nodes _ Hok idx leaf Hleaf) as [Hm Hn]. rewrite Hd in Hn.
  destruct (existsb _ (lb_nodes b)) eqn:He.
  { left. exists t, WasExisting. cbv [insert_effect]. split_and!; try done.
    apply existsb_id in He as (m & Hmb & Em). exists m. split; [|done].
    apply leaf_holds; [done|]. by rewrite Em. }
  pose proof (absent_in_tree He) as Habs.
  destruct (update_first _ _ (lb_nodes b)) as [[bad ns]|] eqn:Eu.
  { left. apply update_first_Some in Eu as (l1 & l2 & Eb & -> & Hbad).
    assert (Hp : lb_nodes b ≡ₚ (l1 ++ l2) ++ [bad]).
    { rewrite Eb. solve_Permutation. }
    destruct (insert_leaf_holds (l1 ++ fresh_node :: l2) (l1 ++ l2) [bad] (bt_size t)) as [Hok' Hh];
      [done|by rewrite Permutation_middle| |done|].
    { pose proof (lo_len _ _ Hn) as Hlen. rewrite Eb, !length_app in *. done. }
    eexists _, _. split; [reflexivity|]. cbv [insert_effect]. split_and!; [exact Hok'|done|done| |by apply bool_decide_eq_true in Hbad|done|].
    - apply leaf_holds; [rewrite Eb; by apply elem_of_app; right; left|].
      destruct (lo_ids _ _ Hn bad) as [? ?]; [rewrite Eb; by apply elem_of_app; right; left|].
      by eapply (leads_same _ Hok id).
    - intros m. rewrite Hh. by rewrite list_elem_of_singleton. }
  destruct (Z.eqb_spec (bt_size t) (bt_max_size t)) as [Emax|Emax].
  { left. exists t, Ignored. cbv [insert_effect]. by split_and!. }
  destruct (Nat.ltb_spec (length (lb_nodes b)) 8) as [Hlt|Hfull].
  { left. destruct (insert_leaf_holds (lb_nodes b ++ [fresh_node]) (lb_nodes b) [] (u64 (bt_size t + 1)))
      as [Hok' Hh]; [by rewrite app_nil_r|by rewrite Permutation_app_comm| |done|].
    { rewrite length_app. cbn. lia. }
    eexists _, _. split; [reflexivity|]. cbv [insert_effect]. split_and!; [exact Hok'|done|done|done|done|].
    intros m. rewrite Hh. pose proof (not_elem_of_nil m). tauto. }
  destruct (_ || _); [left; exists t, Ignored; cbv [insert_effect]; by split_and!|]. right.
  pose proof (full_leaf_bits Hfull) as H1.
  destruct (compute_split_spec leaf Hm H1) as (le & rs & -> & Hle & Hrs & Vrs & Vle).
  run.
  pose proof (split_ok (bt_data t) idx leaf b le rs clock.1 clock.2 Hok Hleaf Hd H1 Hle Hrs Vrs Vle) as Hok'.
  pose proof (split_bits (bt_data t) idx leaf Hok Hleaf H1) as Hbits.
  assert (Hl' := split_leads (bt_data t) idx leaf b le rs clock.1 clock.2 Hok Hleaf Hd H1 Hle Hrs Vrs Vle
    id 0 idx Hid (fun _ => Hin) Hlead).
  rewrite decide_True in Hl' by done. unfold split_side in Hl'.
  assert (Hlk : exists leaf' b', (<[idx := set_data leaf (LeftRight (length (bt_data t)) (S (length (bt_data t))))]>
      ((bt_data t ++ [mkTreeNode (u8 (tn_bits leaf - 1)) (tn_start leaf) le (Leaf (mkLeaf
        (filter (fun n => id_ltb (rn_id n) rs = true) (lb_nodes b)) clock.1))])
       ++ [mkTreeNode (u8 (tn_bits leaf - 1)) rs (tn_end_inclusive leaf) (Leaf (mkLeaf
        (filter (fun n => id_ltb (rn_id n) rs = false) (lb_nodes b)) clock.2))]))
      !! (if id_ltb id rs then length (bt_data t) else S (length (bt_data t))) = Some leaf'
      /\ tn_data leaf' = Leaf b' /\ tn_bits leaf' = tn_bits leaf - 1).
  { destruct (id_ltb id rs).
    - eexists _, _. split; [by eapply split_lookup_left|]. by split.
    - eexists _, _. split; [by eapply split_lookup_right|]. by split. }
  destruct Hlk as (leaf' & b' & Hlk & Hb' & Hbits').
  eexists _, _, leaf', b'. split; [reflexivity|]. cbn [bt_data bt_size bt_max_size].
  split_and!; try done.
  - by eapply leads_in_node.
  - intros m. by apply split_holds.
Qed.
End Leaf.

(** Each split halves the block, so the loop ends within [bits + 1] rounds. *)
Lemma insert_into_leaf_spec fuel clock t idx leaf b :
  tree_ok (bt_data t) -> leads (bt_data t) id 0 idx -> bt_data t !! idx = Some leaf ->
  tn_data leaf = Leaf b -> in_node leaf id -> 0 <= tn_bits leaf < Z.of_nat fuel ->
  exists t' r, insert_into_leaf fuel now clock self_id id addr t idx = Some (Ret (t', r))
    /\ tree_ok (bt_data t') /\ bt_max_size t' = bt_max_size t /\ insert_effect t t' r.
Proof.
  revert t idx leaf b. induction fuel as [|fuel IH]; intros t idx leaf b Hok Hl Hleaf Hd Hin Hf; [lia|].
  cbn [insert_into_leaf].
  destruct (insert_round_spec t idx leaf b Hok Hl Hleaf Hd Hin (clock fuel)) as
    [(t' & r & -> & ?)|(t1 & idx1 & leaf1 & b1 & -> & Hok1 & Hm1 & Hs1 & Hl1 & Hlf1 & Hd1 & Hi1 & Hb1 & H1 & Hh)].
  - by exists t', r.
  - destruct (IH t1 idx1 leaf1 b1) as (t' & r & E & Hok' & Hm' & He); [done..|lia|].
    exists t', r. split_and!; [done|done|congruence|].
    by apply (insert_effect_mono t t1).
Qed.

Lemma bt_add_node_spec fuel clock t :
  tree_ok (bt_data t) -> (160 < fuel)%nat ->
  exists t' r, bt_add_node fuel now clock t self_id id addr = Some (Ret (t', r))
    /\ tree_ok (bt_data t') /\ bt_max_size t' = bt_max_size t /\ insert_effect t t' r.
Proof.
  intros Hok Hf. unfold bt_add_node, get_leaf.
  destruct (get_leaf_total (bt_data t) Hok fuel id Hid Hf) as (j & nj & b & -> & Hl & Hnj & Hb & Hin).
  destruct (to_nodes _ Hok j nj Hnj) as [Hm _]. pose proof (mo_bits _ Hm).
  apply (insert_into_leaf_spec fuel clock t j nj b); [done..|lia].
Qed.
End Insert.

(** ** Updating a node in place *)

Lemma ascending_ids ns ns' : rn_id <$> ns = rn_id <$> ns' -> ascending ns -> ascending ns'.
Proof.
  unfold ascending. intros E H. revert ns' E. induction H as [|n ns Hs IH Hn]; intros [|n' ns'] E; try done.
  - constructor.
  - injection E as En E. change (rn_id <$> ns = rn_id <$> ns') in E. constructor; [by apply IH|].
    rewrite Forall_forall in *. intros m Hm.
    assert (rn_id m ∈ rn_id <$> ns) as (m0 & -> & Hm0)%list_elem_of_fmap
      by (rewrite E; by apply list_elem_of_fmap_2).
    rewrite <- En. by apply Hn.
Qed.

Section Update.
Context (id : Id) (f : RoutingTableNode -> RoutingTableNode) (Hid : is_id 20 id)
  (Hf : forall n, rn_id (f n) = rn_id n).

Definition apply_to (m : RoutingTableNode) : RoutingTableNode :=
  if id_eqb (rn_id m) id then f m else m.

Lemma apply_to_id m : rn_id (apply_to m) = rn_id m.
Proof. unfold apply_to. by destruct (id_eqb _ _). Qed.

Lemma update_first_map ns x ns' :
  NoDup (rn_id <$> ns) ->
  update_first (fun b => id_eqb (rn_id b) id) f ns = Some (x, ns') -> ns' = apply_to <$> ns.
Proof.
  revert ns'. induction ns as [|n ns IH]; intros ns' Hnd E; [done|]. cbn in E.
  apply NoDup_cons in Hnd as [Hni Hnd]. cbn. unfold apply_to at 1. destruct (id_eqb (rn_id n) id) eqn:En.
  - injection E as <- <-. f_equal. symmetry. rewrite <- (list_fmap_id ns) at 2.
    apply list_fmap_ext. intros i m Hm. cbn. unfold apply_to.
    destruct (id_eqb (rn_id m) id) eqn:Em; [|done]. exfalso. unfold id_eqb in *.
    apply bool_decide_eq_true in En, Em. apply Hni. rewrite En, <- Em.
    apply list_elem_of_fmap_2. by eapply list_elem_of_lookup_2.
  - destruct (update_first _ _ ns) as [[y ns1]|]; [|done]. cbn in E. injection E as <- <-.
    f_equal. by apply IH.
Qed.

Lemma get_mut_spec fuel t refresh :
  tree_ok (bt_data t) -> (160 < fuel)%nat ->
  exists t' found, get_mut fuel t id refresh f = Some (Ret (t', found))
    /\ tree_ok (bt_data t') /\ bt_size t' = bt_size t /\ bt_max_size t' = bt_max_size t
    /\ (found = true <-> exists m, holds_node (bt_data t) m /\ rn_id m = id)
    /\ forall m, holds_node (bt_data t') m <-> exists m0, holds_node (bt_data t) m0 /\ m = apply_to m0.
Proof.
  intros Hok Hfuel. unfold get_mut, get_leaf.
  destruct (get_leaf_total (bt_data t) Hok fuel id Hid Hfuel) as (j & leaf & b & -> & Hl & Hj & Hb & Hin).
  cbn [mbind option_bind outcome_bind]. rewrite (proj2 (index_Ret _ _ _) Hj).
  run.
  destruct (to_nodes _ Hok j leaf Hj) as [_ Hn]. rewrite Hb in Hn |- *.
  destruct Hn as [Hids Hasc Hlen]. pose proof (ascending_NoDup _ Hasc) as Hnd.
  destruct (update_first _ f (lb_nodes b)) as [[x ns]|] eqn:Eu.
  - pose proof (update_first_map _ _ _ Hnd Eu) as ->. apply update_first_Some in Eu as (l1 & l2 & Eb & _ & Hx).
    set (ns := apply_to <$> lb_nodes b).
    assert (Hns : leaf_ok leaf ns).
    { assert (Eid : rn_id <$> lb_nodes b = rn_id <$> ns).
      { subst ns. rewrite <- list_fmap_compose. apply list_fmap_ext. intros. cbn. by rewrite apply_to_id. }
      split.
      - intros m (m0 & -> & Hm0)%list_elem_of_fmap. rewrite apply_to_id. by apply Hids.
      - by apply (ascending_ids (lb_nodes b)).
      - subst ns. by rewrite length_fmap. }
    eexists _, true. split; [reflexivity|]. cbn [bt_data bt_size bt_max_size].
    split; [by eapply set_leaf_ok|]. split; [done|]. split; [done|]. split.
    + split; [intros _|done]. exists x. apply bool_decide_eq_true in Hx. split; [|done].
      split; [rewrite Hx; done|]. exists j, leaf, b. rewrite Hx. split_and!; try done.
      rewrite Eb. by apply elem_of_app; right; left.
    + intros m. erewrite set_leaf_holds by done. split.
      * intros (Hxm & [[Hlm (m0 & -> & Hm0)%list_elem_of_fmap]|[Hnl Hm]]).
        -- exists m0. split; [|done]. rewrite apply_to_id in Hlm, Hxm. split; [done|]. by exists j, leaf, b.
        -- exists m. split; [done|]. unfold apply_to. destruct (id_eqb (rn_id m) id) eqn:Em; [|done].
           apply bool_decide_eq_true in Em. exfalso. apply Hnl. by rewrite Em.
      * intros (m0 & Hm0 & ->). rewrite apply_to_id. split; [apply Hm0|].
        destruct (leads_dec _ Hok (rn_id m0) j) as [Hl0|Hnl]; [apply Hm0| |].
        -- left. split; [done|]. apply list_elem_of_fmap_2. destruct Hm0 as (_ & k & nk & bk & Hk & Hnk & Hbk & Hm0).
           assert (k = j) as -> by (by eapply leads_det). congruence.
        -- right. split; [done|]. unfold apply_to. destruct (id_eqb (rn_id m0) id) eqn:Em; [|done].
           apply bool_decide_eq_true in Em. exfalso. apply Hnl. by rewrite Em.
  - pose proof (update_first_None _ _ _ Eu) as Hno.
    assert (Habs : forall m, holds_node (bt_data t) m -> rn_id m <> id).
    { intros m (_ & k & nk & bk & Hk & Hnk & Hbk & Hm) E. rewrite E in Hk.
      assert (k = j) as -> by (by eapply leads_det). assert (bk = b) as -> by congruence.
      specialize (Hno m Hm). apply bool_decide_eq_false in Hno. done. }
    exists t, false. split_and!; try done.
    + split; [done|]. intros (m & Hm & E). by apply Habs in Hm.
    + intros m. assert (Hnoop : forall m0, holds_node (bt_data t) m0 -> apply_to m0 = m0).
      { intros m0 Hm0. unfold apply_to, id_eqb. by rewrite bool_decide_eq_false_2 by (by apply Habs). }
      split; [intros Hm; exists m; by rewrite Hnoop|]. intros (m0 & Hm0 & ->). by rewrite Hnoop.
Qed.
End Update.

(** ** The invariant of the table *)

Record tree_wf (t : BucketTree) : Prop := {
  tw_ok : tree_ok (bt_data t);
  tw_size : forall ns, contents (bt_data t) ns -> bt_size t = Z.of_nat (length ns);
  tw_max : 0 <= bt_size t <= bt_max_size t;
  tw_width : is_u64 (bt_max_size t)
}.

Lemma BucketTree_new_wf max_size now : is_u64 max_size -> tree_wf (BucketTree_new max_size now).
Proof.
  intros Hm. split; [| |cbn; unfold is_uint in Hm; lia|done].
  - split; [eexists; by split_and!|]. intros [|i] n Hi; [|done]. injection Hi as <-. split.
    + split; cbn; try lia; [apply (bool_decide_unpack _); by vm_compute..| |]; by vm_compute.
    + split; cbn; [by intros ? ?%not_elem_of_nil|constructor|lia].
  - intros ns (ls & Hls & ->).
    inversion Hls as [i n b Hi Hd|i n l r ls1 rs1 Hi Hd]; subst; cbn in Hi; injection Hi as <-; [done|].
    discriminate Hd.
Qed.

(** Two trees that hold related nodes have related contents. *)
Lemma contents_perm data data' (g : list RoutingTableNode -> list RoutingTableNode) ns :
  tree_ok data -> tree_ok data' -> contents data ns ->
  NoDup (g ns) -> (forall m, m ∈ g ns <-> holds_node data' m) ->
  exists ns', contents data' ns' /\ ascending ns' /\ ns' ≡ₚ g ns.
Proof.
  intros Hok Hok' Hc Hnd Hin. destruct (contents_total data' Hok') as (ns' & Hc' & Ha' & Hm' & _).
  exists ns'. split_and!; [done|done|]. apply NoDup_Permutation; [|done|].
  - eapply NoDup_fmap_1, ascending_NoDup, Ha'.
  - intros m. by rewrite Hm', Hin.
Qed.

Lemma contents_spec data ns :
  tree_ok data -> contents data ns -> ascending ns /\ forall m, m ∈ ns <-> holds_node data m.
Proof.
  intros Hok Hc. destruct (contents_total data Hok) as (ns' & Hc' & Ha & Hm & _).
  by rewrite (contents_det _ _ _ Hc Hc').
Qed.

Lemma ascending_NoDup_nodes ns : ascending ns -> NoDup ns.
Proof. intros H. eapply NoDup_fmap_1, ascending_NoDup, H. Qed.

(** What an insertion does to the nodes the table yields, in ascending order. *)
Definition add_effect (now : Z) (id : Id) (addr : SocketAddr) (ns ns' : list RoutingTableNode)
    (r : InsertResult) : Prop :=
  let fresh := mkNode id addr None None None 0 in
  match r with
  | WasExisting => id ∈ rn_id <$> ns /\ ns' = ns
  | Ignored => id ∉ rn_id <$> ns /\ ns' = ns
  | Added => id ∉ rn_id <$> ns /\ ns' ≡ₚ fresh :: ns
  | ReplacedBad bad =>
    id ∉ rn_id <$> ns /\ status bad now = Bad /\ exists rest, ns ≡ₚ bad :: rest /\ ns' ≡ₚ fresh :: rest
  end.

Lemma ascending_perm_eq ns ns' : ascending ns -> ascending ns' -> ns ≡ₚ ns' -> ns = ns'.
Proof.
  unfold ascending. intros H1 H2 Hp. eapply StronglySorted_unique_strong; [|exact H1|exact H2|done].
  cbn. intros x1 x2 _ _ ? ?. lia.
Qed.

Lemma tree_add_correct now clock self_id id addr fuel t :
  tree_wf t -> is_id 20 id -> (160 < fuel)%nat ->
  exists t' r ns ns', bt_add_node fuel now clock t self_id id addr = Some (Ret (t', r))
    /\ tree_wf t' /\ bt_max_size t' = bt_max_size t
    /\ contents (bt_data t) ns /\ contents (bt_data t') ns' /\ add_effect now id addr ns ns' r.
Proof.
  intros [Hok Hsize Hmax Hw] Hid Hf.
  destruct (bt_add_node_spec now self_id id addr Hid fuel clock t Hok Hf) as (t' & r & -> & Hok' & Hm' & He).
  destruct (contents_total _ Hok) as (ns & Hc & Ha & Hh & _).
  destruct (contents_total _ Hok') as (ns' & Hc' & Ha' & Hh' & _).
  pose proof (ascending_NoDup_nodes _ Ha) as Hnd. pose proof (ascending_NoDup_nodes _ Ha') as Hnd'.
  assert (Habs : (forall m, holds_node (bt_data t) m -> rn_id m <> id) -> id ∉ rn_id <$> ns).
  { intros H (m & -> & Hm)%list_elem_of_fmap. by apply (H m); [apply Hh|]. }
  assert (Hsame : (forall m, holds_node (bt_data t') m <-> holds_node (bt_data t) m) -> ns' = ns).
  { intros H. apply ascending_perm_eq; [done|done|]. apply NoDup_Permutation; [done|done|].
    intros m. by rewrite Hh', Hh. }
  assert (Hfin : add_effect now id addr ns ns' r /\ bt_size t' = Z.of_nat (length ns')
                 /\ bt_size t' <= bt_max_size t').
  { pose proof (Hsize ns Hc) as Hs. rewrite Hm'. destruct r; cbn in He |- *.
    - destruct He as (Es & (m & Hm & Em) & Hall). rewrite (Hsame Hall), Es. split_and!; try done; try lia.
      rewrite <- Em. by apply list_elem_of_fmap_2, Hh.
    - destruct He as (Es & Hbad & Hst & Hno & Hall).
      apply Hh in Hbad. apply elem_of_Permutation in Hbad as (rest & Hp).
      assert (Hp' : ns' ≡ₚ fresh_node id addr :: rest).
      { rewrite Hp in Hnd. apply NoDup_cons in Hnd as [Hnb Hnr].
        apply NoDup_Permutation; [done| |].
        - constructor; [|done]. intros Hin. apply (Hno (fresh_node id addr)); [|done].
          apply Hh. rewrite Hp. by right.
        - intros m. rewrite Hh', Hall, elem_of_cons, <- Hh, Hp, elem_of_cons.
          split; [tauto|]. intros [?|Hm]; [by left|]. right. split; [by right|]. by intros ->. }
      split_and!; [by apply Habs|done|by exists rest| |lia].
      rewrite Es, Hs, Hp, Hp'. done.
    - destruct He as (Es & Hne & Hno & Hall).
      assert (Hp' : ns' ≡ₚ fresh_node id addr :: ns).
      { apply NoDup_Permutation; [done| |].
        - constructor; [|done]. intros Hin. by apply (Hno (fresh_node id addr)); [apply Hh|].
        - intros m. by rewrite Hh', Hall, elem_of_cons, Hh. }
      unfold is_uint in Hw. rewrite wrap_id in Es by (unfold is_uint; lia).
      split_and!; [by apply Habs|done| |lia]. rewrite Es, Hs, Hp'. cbn [length]. lia.
    - destruct He as (Es & Hno & Hall). rewrite (Hsame Hall), Es. split_and!; try done; try lia.
      by apply Habs. }
  destruct Hfin as (Heff & Hs' & Hle). exists t', r, ns, ns'. split_and!; try done.
  split; [done| |lia|by rewrite Hm'].
  intros ns1 Hc1. by rewrite (contents_det _ _ _ Hc1 Hc').
Qed.

Lemma tree_update_correct id f fuel t refresh :
  tree_wf t -> is_id 20 id -> (forall n, rn_id (f n) = rn_id n) -> (160 < fuel)%nat ->
  exists t' found ns, get_mut fuel t id refresh f = Some (Ret (t', found))
    /\ tree_wf t' /\ bt_max_size t' = bt_max_size t
    /\ contents (bt_data t) ns /\ contents (bt_data t') (apply_to id f <$> ns)
    /\ (found = true <-> id ∈ rn_id <$> ns).
Proof.
  intros [Hok Hsize Hmax Hw] Hid Hf Hfuel.
  destruct (get_mut_spec id f Hid Hf fuel t refresh Hok Hfuel) as (t' & found & -> & Hok' & Hs' & Hm' & Hfd & Hall).
  destruct (contents_total _ Hok) as (ns & Hc & Ha & Hh & _).
  destruct (contents_total _ Hok') as (ns' & Hc' & Ha' & Hh' & _).
  assert (Hasc : ascending (apply_to id f <$> ns)).
  { apply (ascending_ids ns); [|done]. rewrite <- list_fmap_compose. apply list_fmap_ext.
    intros. cbn. by rewrite apply_to_id. }
  assert (E : ns' = apply_to id f <$> ns).
  { apply ascending_perm_eq; [done|done|]. apply NoDup_Permutation; try by apply ascending_NoDup_nodes.
    intros m. rewrite Hh', Hall, list_elem_of_fmap. setoid_rewrite Hh.
    split; intros (m0 & ? & ?); by exists m0. }
  exists t', found, ns. split_and!; try done.
  - split; [done| |by rewrite Hs', Hm'|by rewrite Hm'].
    intros ns1 Hc1. rewrite (contents_det _ _ _ Hc1 Hc'), E, length_fmap, Hs'. by apply Hsize.
  - by rewrite <- E.
  - rewrite Hfd, list_elem_of_fmap. setoid_rewrite Hh. split; intros (m & ? & ?); by exists m.
Qed.

(** ** Operations of the table *)

Inductive rt_op :=
| OpAdd (now : Z) (clock : nat -> Z * Z) (id : Id) (addr : SocketAddr)
| OpRequest (id : Id) (now : Z)
| OpResponse (id : Id) (now : Z)
| OpError (id : Id)
| OpQuery (id : Id) (now : Z).

Definition op_id (op : rt_op) : Id :=
  match op with
  | OpAdd _ _ id _ | OpRequest id _ | OpResponse id _ | OpError id | OpQuery id _ => id
  end.

(** The table after an operation, without its return value. *)
Definition table_of {A} (r : option (outcome (RoutingTable * A))) : option (outcome RoutingTable) :=
  match r with
  | Some (Ret p) => Some (Ret p.1)
  | Some Panic => Some Panic
  | None => None
  end.

Definition run_op (fuel : nat) (rt : RoutingTable) (op : rt_op) : option (outcome RoutingTable) :=
  match op with
  | OpAdd now clock id addr => table_of (rt_add_node fuel now clock rt id addr)
  | OpRequest id now => table_of (rt_mark_outgoing_request fuel rt id now)
  | OpResponse id now => table_of (rt_mark_response fuel rt id now)
  | OpError id => table_of (rt_mark_error fuel rt id)
  | OpQuery id now => table_of (rt_mark_last_query fuel rt id now)
  end.

Fixpoint run_ops (fuel : nat) (rt : RoutingTable) (ops : list rt_op) : option (outcome RoutingTable) :=
  match ops with
  | [] => Some (Ret rt)
  | op :: ops =>
    match run_op fuel rt op with
    | Some (Ret rt) => run_ops fuel rt ops
    | r => r
    end
  end.

Lemma rt_update_total fuel rt id refresh f :
  tree_wf (rt_buckets rt) -> is_id 20 id -> (forall n, rn_id (f n) = rn_id n) -> (160 < fuel)%nat ->
  exists rt', table_of (rt_update fuel rt id refresh f) = Some (Ret rt')
    /\ tree_wf (rt_buckets rt') /\ bt_max_size (rt_buckets rt') = bt_max_size (rt_buckets rt).
Proof.
  intros Hwf Hid Hf Hfuel. unfold rt_update.
  destruct (tree_update_correct id f fuel (rt_buckets rt) refresh Hwf Hid Hf Hfuel)
    as (t' & found & ns & -> & Hwf' & Hm & _).
  eexists. by split.
Qed.

Lemma run_op_total fuel rt op :
  tree_wf (rt_buckets rt) -> is_id 20 (op_id op) -> (160 < fuel)%nat ->
  exists rt', run_op fuel rt op = Some (Ret rt') /\ tree_wf (rt_buckets rt')
    /\ bt_max_size (rt_buckets rt') = bt_max_size (rt_buckets rt).
Proof.
  intros Hwf Hid Hfuel. destruct op; cbn in Hid; cbn [run_op];
    try (apply rt_update_total; [done|done|by intros []|done]).
  unfold rt_add_node.
  destruct (tree_add_correct now clock (rt_id rt) id addr fuel (rt_buckets rt) Hwf Hid Hfuel)
    as (t' & r & ns & ns' & -> & Hwf' & Hm & _).
  eexists. by split.
Qed.

Lemma run_ops_total fuel rt ops :
  tree_wf (rt_buckets rt) -> Forall (fun op => is_id 20 (op_id op)) ops -> (160 < fuel)%nat ->
  exists rt', run_ops fuel rt ops = Some (Ret rt') /\ tree_wf (rt_buckets rt')
    /\ bt_max_size (rt_buckets rt') = bt_max_size (rt_buckets rt).
Proof.
  intros Hwf Hops Hfuel. revert rt Hwf. induction Hops as [|op ops Hop _ IH]; intros rt Hwf; [by exists rt|].
  cbn [run_ops]. destruct (run_op_total fuel rt op Hwf Hop Hfuel) as (rt1 & -> & Hwf1 & Hm1).
  destruct (IH rt1 Hwf1) as (rt' & E & Hwf' & Hm'). exists rt'. split_and!; [done|done|congruence].
Qed.

(** C11: whatever sequence of insertions and updates runs on a new table, with
    whatever clock, no operation panics and every loop ends (161 rounds are
    enough, one per bit of the id space and the last). The nodes of the tree
    tile the id space: each leaf holds at most eight nodes, all of its block.
    Iterating over the table yields every node once, in ascending order of ids;
    the tree's size is their number and never exceeds the maximum. *)
Theorem routing_table_invariant (id : Id) (max_size : option Z) (now : Z) (ops : list rt_op)
    (fuel : nat) :
  is_u64 (default DEFAULT_MAX_SIZE max_size) -> Forall (fun op => is_id 20 (op_id op)) ops ->
  (160 < fuel)%nat ->
  exists rt ns, run_ops fuel (RoutingTable_new id max_size now) ops = Some (Ret rt)
    /\ tree_ok (bt_data (rt_buckets rt))
    /\ (exists k, forall fuel', (k <= fuel')%nat -> bt_iter fuel' (rt_buckets rt) = Some ns)
    /\ ascending ns /\ (forall m, m ∈ ns <-> holds_node (bt_data (rt_buckets rt)) m)
    /\ bt_size (rt_buckets rt) = Z.of_nat (length ns)
    /\ Z.of_nat (length ns) <= default DEFAULT_MAX_SIZE max_size.
Proof.
  intros Hm Hops Hfuel.
  destruct (run_ops_total fuel (RoutingTable_new id max_size now) ops) as (rt & E & [Hok Hsize Hmax Hw] & Hms);
    [by apply BucketTree_new_wf|done|done|].
  destruct (contents_total _ Hok) as (ns & Hc & Ha & Hh & k & Hk). exists rt, ns. cbn in Hms.
  pose proof (Hsize ns Hc). split_and!; try done; [|lia]. exists k. intros fuel' Hf. by apply Hk.
Qed.

Definition ex_id (x : Z) : Id := to_be_bytes 20 x.
Definition ex_ops : list rt_op :=
  (fun x => OpAdd 5 (fun _ => (6, 7)) (ex_id x) (SockV4 1 2)) <$> [1; 2; 3; 4; 5; 6; 7; 8; 9; 2 ^ 159].

Lemma routing_table_invariant_witness :
  exists rt (ns : list RoutingTableNode), run_ops 161 (RoutingTable_new (ex_id 3) None 0) ex_ops = Some (Ret rt)
    /\ bt_size (rt_buckets rt) = Z.of_nat (length ns) /\ length ns = 10%nat.
Proof.
  destruct (routing_table_invariant (ex_id 3) None 0 ex_ops 161) as (rt & ns & E & _ & _ & _ & _ & Hs & _).
  - by apply (bool_decide_unpack _); vm_compute.
  - apply (bool_decide_unpack _). vm_compute. exact I.
  - lia.
  - exists rt, ns. split; [exact E|]. split; [exact Hs|].
    assert (Ht : bt_size (rt_buckets rt) = 10).
    { vm_compute in E. injection E as <-. reflexivity. }
    lia.
Defined.

(** [add_node] adds the new node, or replaces exactly one bad node by it,
    or leaves the nodes as they are when the id is known or there is no room;
    in every case the other nodes keep their place. *)
Theorem add_node_correct (now : Z) (clock : nat -> Z * Z) (rt : RoutingTable) (id : Id)
    (addr : SocketAddr) (fuel : nat) :
  tree_wf (rt_buckets rt) -> is_id 20 id -> (160 < fuel)%nat ->
  exists rt' r ns ns', rt_add_node fuel now clock rt id addr = Some (Ret (rt', r))
    /\ tree_wf (rt_buckets rt')
    /\ contents (bt_data (rt_buckets rt)) ns /\ contents (bt_data (rt_buckets rt')) ns'
    /\ add_effect now id addr ns ns' r
    /\ rt_len rt' = match r with Added | ReplacedBad _ => u64 (rt_len rt + 1) | _ => rt_len rt end.
Proof.
  intros Hwf Hid Hfuel. unfold rt_add_node.
  destruct (tree_add_correct now clock (rt_id rt) id addr fuel (rt_buckets rt) Hwf Hid Hfuel)
    as (t' & r & ns & ns' & -> & Hwf' & Hm & Hc & Hc' & He).
  eexists _, r, ns, ns'. split; [reflexivity|]. split_and!; try done. by destruct r.
Qed.

Lemma add_node_correct_witness :
  exists rt' r ns ns', rt_add_node 161 5 (fun _ => (6, 7)) (RoutingTable_new (ex_id 3) None 0) (ex_id 8)
      (SockV4 1 2) = Some (Ret (rt', r)) /\ add_effect 5 (ex_id 8) (SockV4 1 2) ns ns' r.
Proof.
  destruct (add_node_correct 5 (fun _ => (6, 7)) (RoutingTable_new (ex_id 3) None 0) (ex_id 8) (SockV4 1 2) 161)
    as (rt' & r & ns & ns' & E & _ & _ & _ & He & _).
  - apply BucketTree_new_wf. by apply (bool_decide_unpack _); vm_compute.
  - apply (bool_decide_unpack _). vm_compute. exact I.
  - lia.
  - exists rt', r, ns, ns'. split; [exact E|exact He].
Defined.

(** Replacing a bad node still counts as one more: after one replacement
    [len] is 2 while the table holds a single node. *)
Lemma len_drifts_on_replacement :
  let ops := [OpAdd 0 (fun _ => (0, 0)) (ex_id 1) (SockV4 1 2); OpRequest (ex_id 1) 1;
              OpError (ex_id 1); OpError (ex_id 1);
              OpAdd 2 (fun _ => (0, 0)) (ex_id 2) (SockV4 3 4)] in
  exists rt n, run_ops 161 (RoutingTable_new (ex_id 3) None 0) ops = Some (Ret rt)
    /\ rt_len rt = 2 /\ bt_iter 9 (rt_buckets rt) = Some [n] /\ rn_id n = ex_id 2.
Proof. eexists _, _. split; [vm_compute; reflexivity|]. by split_and!. Qed.

Lemma node_key_leb_total id now a b : node_key_leb id now a b = true \/ node_key_leb id now b a = true.
Proof.
  unfold node_key_leb. rewrite !orb_true_iff, !andb_true_iff, !Z.ltb_lt, !Z.eqb_eq.
  destruct (bytes_leb_total (distance id (rn_id a)) (distance id (rn_id b))) as [H|H];
    unfold id_leb; rewrite H; lia.
Qed.

Lemma node_key_leb_trans id now a b c :
  node_key_leb id now a b = true -> node_key_leb id now b c = true -> node_key_leb id now a c = true.
Proof.
  unfold node_key_leb. rewrite !orb_true_iff, !andb_true_iff, !Z.ltb_lt, !Z.eqb_eq.
  intros [?|[? H1]] [?|[? H2]]; [lia..|]. right. split; [lia|]. by eapply bytes_leb_trans.
Qed.

(** [sorted_by_distance_from] yields every node of the table once, better
    status first and, within a status, closer ids first. *)
Theorem sorted_by_distance_correct (rt : RoutingTable) (id : Id) (now : Z) :
  tree_wf (rt_buckets rt) ->
  exists k res, (forall fuel, (k <= fuel)%nat -> sorted_by_distance_from fuel rt id now = Some res)
    /\ NoDup res /\ (forall m, m ∈ res <-> holds_node (bt_data (rt_buckets rt)) m)
    /\ sorted_by (node_key_leb id now) res.
Proof.
  intros [Hok _ _ _]. destruct (contents_total _ Hok) as (ns & _ & Ha & Hh & k & Hk).
  exists k, (sort_by (node_key_leb id now) ns). split_and!.
  - intros fuel Hf. unfold sorted_by_distance_from. by rewrite (Hk fuel _ Hf eq_refl).
  - rewrite sort_by_perm. by apply ascending_NoDup_nodes.
  - intros m. rewrite sort_by_perm. apply Hh.
  - apply sort_by_sorted; intros *; [apply node_key_leb_total|apply node_key_leb_trans].
Qed.

Lemma sorted_by_distance_correct_witness :
  exists k res, (forall fuel, (k <= fuel)%nat ->
      sorted_by_distance_from fuel (RoutingTable_new (ex_id 3) None 0) (ex_id 8) 5 = Some res)
    /\ sorted_by (node_key_leb (ex_id 8) 5) res.
Proof.
  destruct (sorted_by_distance_correct (RoutingTable_new (ex_id 3) None 0) (ex_id 8) 5) as (k & res & E & _ & _ & Hs).
  - apply BucketTree_new_wf. by apply (bool_decide_unpack _); vm_compute.
  - exists k, res. split; [exact E|exact Hs].
Defined.
