(* ===== verification/Peers.v ===== *)
(** * Peers of a live torrent ([torrent_state::live::{peer, peers}])

    The state of each known peer, the table of peers, and the counters that
    summarise it, per torrent and per session.

    One operation of this file is one critical section on an entry of the peer
    table: the code holds the entry's lock for exactly that long, so a sequence
    of operations is an interleaving of the tasks that share the table.  Channel
    ends are numbers; [ps_sent] and [ps_queue] collect what is put into the
    writer channels of the peers and into the queue of addresses to connect to. *)

From stdpp Require Import base tactics option list list_numbers numbers decidable gmap.
From Stdlib Require Import ZArith Lia.
From S2P Require Import Prelude Lengths Net PieceTracker.
Open Scope Z_scope.

(** ** Aggregate counters: one atomic [u32] per name *)

Inductive Stat :=
| St_queued | St_connecting | St_live | St_live_tcp | St_live_utp | St_live_socks
| St_live_seeders | St_seen | St_dead | St_not_needed | St_steals.

#[export] Instance Stat_eq_dec : EqDecision Stat.
Proof. solve_decision. Defined.

Definition AggregatePeerStats : Type := Stat -> Z.

Definition AggregatePeerStats_default : AggregatePeerStats := fun _ => 0.

(** [fetch_add] and [fetch_sub] wrap around. *)
Definition atomic_add (s : Stat) (d : Z) (st : AggregatePeerStats) : AggregatePeerStats :=
  fun k => if decide (k = s) then u32 (st k + d) else st k.
Definition atomic_inc (s : Stat) (st : AggregatePeerStats) : AggregatePeerStats := atomic_add s 1 st.
Definition atomic_dec (s : Stat) (st : AggregatePeerStats) : AggregatePeerStats := atomic_add s (-1) st.

(** ** Peers *)

(** [client_name] (display only) and the [Notify] that wakes the requester are
    left out. *)
Record LivePeerState := mkLive {
  lp_peer_id : bytes;
  lp_peer_interested : bool;
  lp_bitfield : list bool;
  lp_seeder : bool;
  lp_inflight_requests : list ChunkInfo;
  lp_late_cancelled_request_tolerance : Z;
  lp_tx : nat;
  lp_connection_kind : ConnectionKind
}.

Definition LivePeerState_new (peer_id : bytes) (tx : nat) (initial_interested : bool)
    (kind : ConnectionKind) : LivePeerState :=
  mkLive peer_id initial_interested [] false [] 0 tx kind.

Inductive PeerState :=
| Queued
| Connecting (tx : nat)
| Live (l : LivePeerState)
| Dead
| NotNeeded.

(** Of the per-peer counters, those the state machine reads or the table's
    operations write. *)
Record PeerCounters := mkCounters {
  pc_incoming_connections : Z;
  pc_outgoing_connections : Z;
  pc_errors : Z;
  pc_times_stolen_from_me : Z;
  pc_times_i_stole : Z
}.

Definition PeerCounters_default : PeerCounters := mkCounters 0 0 0 0 0.

Record Peer := mkPeer {
  peer_addr : SocketAddr;
  peer_state : PeerState;
  peer_counters : PeerCounters;
  peer_outgoing_address : option SocketAddr
}.

(** What [PeerStates] shares with the peers: the counters and the live
    addresses we connected to. *)
Record Shared := mkShared {
  sh_session_stats : AggregatePeerStats;
  sh_stats : AggregatePeerStats;
  sh_live_outgoing_peers : gset SocketAddr
}.

Inductive WriterRequest :=
| WCancel (index begin length : Z)
| WDisconnect.

Record PeerStates := mkPeers {
  ps_shared : Shared;
  ps_states : gmap SocketAddr Peer;
  ps_sent : list (nat * WriterRequest);
  ps_queue : list SocketAddr
}.

(** ** Counting states *)

Definition counter (s : PeerState) : Stat :=
  match s with
  | Connecting _ => St_connecting
  | Live _ => St_live
  | Queued => St_queued
  | Dead => St_dead
  | NotNeeded => St_not_needed
  end.

Definition live_kind_counter (l : LivePeerState) : Stat :=
  match lp_connection_kind l with
  | Tcp => St_live_tcp
  | Utp => St_live_utp
  | Socks => St_live_socks
  end.

Definition stats_inc (s : PeerState) (st : AggregatePeerStats) : AggregatePeerStats :=
  let st :=
    match s with
    | Live l =>
      let st := atomic_inc (live_kind_counter l) st in
      if lp_seeder l then atomic_inc St_live_seeders st else st
    | _ => st
    end in
  atomic_inc (counter s) st.

Definition stats_dec (s : PeerState) (st : AggregatePeerStats) : AggregatePeerStats :=
  let st :=
    match s with
    | Live l =>
      let st := atomic_dec (live_kind_counter l) st in
      if lp_seeder l then atomic_dec St_live_seeders st else st
    | _ => st
    end in
  atomic_dec (counter s) st.

Definition seeder_flag_changed (seeder : bool) (st : AggregatePeerStats) : AggregatePeerStats :=
  if seeder then atomic_inc St_live_seeders st else atomic_dec St_live_seeders st.

Definition stats_incdec (old new : PeerState) (st : AggregatePeerStats) : AggregatePeerStats :=
  stats_inc new (stats_dec old st).

Definition inc_steals (st : AggregatePeerStats) : AggregatePeerStats := atomic_inc St_steals st.

(** [for counter in [&session_stats, &stats] { f(counter) }]. *)
Definition both (f : AggregatePeerStats -> AggregatePeerStats) (sh : Shared) : Shared :=
  mkShared (f (sh_session_stats sh)) (f (sh_stats sh)) (sh_live_outgoing_peers sh).

Definition with_outgoing (f : gset SocketAddr -> gset SocketAddr) (sh : Shared) : Shared :=
  mkShared (sh_session_stats sh) (sh_stats sh) (f (sh_live_outgoing_peers sh)).

Definition is_live (s : PeerState) : bool := match s with Live _ => true | _ => false end.

Definition with_state (p : Peer) (s : PeerState) : Peer :=
  mkPeer (peer_addr p) s (peer_counters p) (peer_outgoing_address p).

Definition with_counters (p : Peer) (c : PeerCounters) : Peer :=
  mkPeer (peer_addr p) (peer_state p) c (peer_outgoing_address p).

(** ** Operations of a peer; each also returns the shared counters *)

Definition new_live_for_incoming_connection (addr : SocketAddr) (peer_id : bytes) (tx : nat)
    (sh : Shared) (kind : ConnectionKind) : Peer * Shared :=
  let state := Live (LivePeerState_new peer_id tx true kind) in
  (mkPeer addr state PeerCounters_default None, both (stats_inc state) sh).

Definition new_with_outgoing_address (addr : SocketAddr) : Peer :=
  mkPeer addr Queued PeerCounters_default (Some addr).

(** The peer and counters after, and the previous state. *)
Definition set_state (p : Peer) (new : PeerState) (sh : Shared) : Peer * Shared * PeerState :=
  let sh := both (stats_incdec (peer_state p) new) sh in
  let sh :=
    match peer_outgoing_address p with
    | Some addr =>
      let sh := if is_live (peer_state p) then with_outgoing (fun s => s ∖ {[addr]}) sh else sh in
      if is_live new && (0 <? pc_outgoing_connections (peer_counters p))
      then with_outgoing (fun s => {[addr]} ∪ s) sh else sh
    | None => sh
    end in
  (with_state p new, sh, peer_state p).

Definition take_state (p : Peer) (sh : Shared) : Peer * Shared * PeerState := set_state p Queued sh.

(** The shared part after [destroy]. *)
Definition destroy (p : Peer) (sh : Shared) : Shared :=
  let sh := both (stats_dec (peer_state p)) sh in
  match peer_outgoing_address p, peer_state p with
  | Some addr, Live _ => with_outgoing (fun s => s ∖ {[addr]}) sh
  | _, _ => sh
  end.

Definition reconnect_not_needed_peer (p : Peer) (sh : Shared) : Peer * Shared * option SocketAddr :=
  match peer_state p with
  | NotNeeded =>
    match peer_outgoing_address p with
    | None => (p, sh, None)
    | Some a =>
      if bool_decide (peer_addr p = a) then
        let '(p, sh, _) := set_state p Queued sh in (p, sh, Some a)
      else (p, sh, Some a)
    end
  | _ => (p, sh, None)
  end.

Definition idle_to_connecting (p : Peer) (tx : nat) (sh : Shared) : option (Peer * Shared) :=
  match peer_state p with
  | Queued | NotNeeded => let '(p, sh, _) := set_state p (Connecting tx) sh in Some (p, sh)
  | _ => None
  end.

(** [Err(AlreadyActive)] is [None]. *)
Definition incoming_connection (p : Peer) (peer_id : bytes) (tx : nat) (sh : Shared)
    (kind : ConnectionKind) : outcome (option (Peer * Shared)) :=
  match peer_state p with
  | Connecting _ | Live _ => Ret None
  | _ =>
    let '(p, sh, prev) := take_state p sh in
    match prev with
    | Queued | Dead | NotNeeded =>
      let '(p, sh, _) := set_state p (Live (LivePeerState_new peer_id tx true kind)) sh in
      Ret (Some (p, sh))
    | Connecting _ | Live _ => Panic
    end
  end.

Definition connecting_to_live (p : Peer) (peer_id : bytes) (sh : Shared) (kind : ConnectionKind)
    : outcome (option (Peer * Shared)) :=
  match peer_state p with
  | Connecting _ =>
    let '(p, sh, prev) := take_state p sh in
    match prev with
    | Connecting tx =>
      let '(p, sh, _) := set_state p (Live (LivePeerState_new peer_id tx false kind)) sh in
      Ret (Some (p, sh))
    | _ => Panic
    end
  | _ => Ret None
  end.

Definition set_not_needed (p : Peer) (sh : Shared) : Peer * Shared * PeerState :=
  set_state p NotNeeded sh.

(** ** Requests in flight *)

(** [bitfield.get(0..n).is_some_and(|s| s.all())]. *)
Definition has_full_torrent (l : LivePeerState) (total_pieces : nat) : bool :=
  (total_pieces <=? length (lp_bitfield l))%nat && forallb id (take total_pieces (lp_bitfield l)).

Inductive RemoveInflightRequestResult := Expected | LateCanceled | Unexpected.

Definition with_requests (l : LivePeerState) (reqs : list ChunkInfo) (tolerance : Z) : LivePeerState :=
  mkLive (lp_peer_id l) (lp_peer_interested l) (lp_bitfield l) (lp_seeder l) reqs tolerance (lp_tx l)
    (lp_connection_kind l).

(** The set is kept as a list without duplicates, in the (unspecified) order
    the hash set is walked in. *)
Definition add_inflight_request (l : LivePeerState) (c : ChunkInfo) : LivePeerState * bool :=
  if bool_decide (c ∈ lp_inflight_requests l) then (l, false)
  else (with_requests l (c :: lp_inflight_requests l) (lp_late_cancelled_request_tolerance l), true).

Definition remove_inflight_request (l : LivePeerState) (c : ChunkInfo)
    : LivePeerState * RemoveInflightRequestResult :=
  if bool_decide (c ∈ lp_inflight_requests l) then
    (with_requests l (filter (fun d => d <> c) (lp_inflight_requests l))
       (lp_late_cancelled_request_tolerance l), Expected)
  else if 0 <? lp_late_cancelled_request_tolerance l then
    (with_requests l (lp_inflight_requests l) (lp_late_cancelled_request_tolerance l - 1), LateCanceled)
  else (l, Unexpected).

(** The peer's state and the messages put into its channel. *)
Definition cancel_inflight_requests_for_piece (l : LivePeerState) (piece : Z)
    : LivePeerState * list (nat * WriterRequest) :=
  let cancelled := filter (fun c => ci_piece_index c = piece) (lp_inflight_requests l) in
  (with_requests l (filter (fun c => ci_piece_index c <> piece) (lp_inflight_requests l))
     (u32 (lp_late_cancelled_request_tolerance l + Z.of_nat (length cancelled))),
   (fun c => (lp_tx l, WCancel piece (ci_offset c) (ci_size c))) <$> cancelled).

(** ** The table of peers *)

Definition with_entry (ps : PeerStates) (addr : SocketAddr) (p : Peer) (sh : Shared) : PeerStates :=
  mkPeers sh (<[addr := p]> (ps_states ps)) (ps_sent ps) (ps_queue ps).

(** [with_peer_mut] and [with_live_mut]: the change [f] of the entry, if it is
    there (and live), with the shared counters, and its result. *)
Definition with_peer_mut {R} (ps : PeerStates) (addr : SocketAddr)
    (f : Peer -> Shared -> Peer * Shared * R) : PeerStates * option R :=
  match ps_states ps !! addr with
  | Some p => let '(p, sh, r) := f p (ps_shared ps) in (with_entry ps addr p sh, Some r)
  | None => (ps, None)
  end.

Definition with_live_mut {R} (ps : PeerStates) (addr : SocketAddr)
    (f : LivePeerState -> Shared -> LivePeerState * Shared * R) : PeerStates * option R :=
  match ps_states ps !! addr with
  | Some p =>
    match peer_state p with
    | Live l =>
      let '(l, sh, r) := f l (ps_shared ps) in
      (with_entry ps addr (with_state p (Live l)) sh, Some r)
    | _ => (ps, None)
    end
  | None => (ps, None)
  end.

Definition add_if_not_seen (ps : PeerStates) (addr : SocketAddr) : PeerStates * option SocketAddr :=
  match ps_states ps !! addr with
  | Some _ => (ps, None)
  | None =>
    let sh := both (atomic_inc St_seen) (both (atomic_inc St_queued) (ps_shared ps)) in
    (with_entry ps addr (new_with_outgoing_address addr) sh, Some addr)
  end.

Definition drop_peer (ps : PeerStates) (addr : SocketAddr) : PeerStates * option Peer :=
  match ps_states ps !! addr with
  | Some p =>
    (mkPeers (both (stats_dec (peer_state p)) (ps_shared ps)) (delete addr (ps_states ps))
       (ps_sent ps) (ps_queue ps), Some p)
  | None => (ps, None)
  end.

(** [Drop]: every peer is destroyed. *)
Definition drop_all (ps : PeerStates) : Shared :=
  foldl (fun sh (kp : SocketAddr * Peer) => destroy kp.2 sh) (ps_shared ps)
    (map_to_list (ps_states ps)).

Definition is_peer_not_interested_and_has_full_torrent (ps : PeerStates) (addr : SocketAddr)
    (total_pieces : nat) : bool :=
  match ps_states ps !! addr with
  | Some p =>
    match peer_state p with
    | Live l => negb (lp_peer_interested l) && has_full_torrent l total_pieces
    | _ => false
    end
  | None => false
  end.

Definition mark_peer_interested (ps : PeerStates) (addr : SocketAddr) (is_interested : bool)
    : PeerStates * option bool :=
  with_live_mut ps addr (fun l sh =>
    (mkLive (lp_peer_id l) is_interested (lp_bitfield l) (lp_seeder l) (lp_inflight_requests l)
       (lp_late_cancelled_request_tolerance l) (lp_tx l) (lp_connection_kind l), sh,
     lp_peer_interested l)).

Definition with_bitfield (l : LivePeerState) (bf : list bool) (seeder : bool) : LivePeerState :=
  mkLive (lp_peer_id l) (lp_peer_interested l) bf seeder (lp_inflight_requests l)
    (lp_late_cancelled_request_tolerance l) (lp_tx l) (lp_connection_kind l).

Definition update_seeder_flag (l : LivePeerState) (total_pieces : nat) (sh : Shared)
    : LivePeerState * Shared :=
  let seeder := has_full_torrent l total_pieces in
  if Bool.eqb seeder (lp_seeder l) then (l, sh)
  else
    (with_bitfield l (lp_bitfield l) seeder, both (seeder_flag_changed seeder) sh).

Definition update_bitfield (ps : PeerStates) (addr : SocketAddr) (bf : list bool)
    (total_pieces : nat) : PeerStates * option () :=
  with_live_mut ps addr (fun l sh =>
    let '(l, sh) := update_seeder_flag (with_bitfield l bf (lp_seeder l)) total_pieces sh in
    (l, sh, ())).

Inductive PeerError := BugPeerNotFound | BugInvalidPeerState.

Definition mark_peer_connecting (ps : PeerStates) (addr : SocketAddr) (tx : nat)
    : PeerStates * result PeerError nat :=
  match ps_states ps !! addr with
  | None => (ps, Err BugPeerNotFound)
  | Some p =>
    match idle_to_connecting p tx (ps_shared ps) with
    | Some (p, sh) => (with_entry ps addr p sh, Ok tx)
    | None => (ps, Err BugInvalidPeerState)
    end
  end.

Definition mark_peer_not_needed (ps : PeerStates) (addr : SocketAddr) : PeerStates * option PeerState :=
  with_peer_mut ps addr set_not_needed.

Definition bump_counters (ps : PeerStates) (addr : SocketAddr) (f : PeerCounters -> PeerCounters)
    : PeerStates :=
  (with_peer_mut ps addr (fun p sh => (with_counters p (f (peer_counters p)), sh, ()))).1.

Definition inc_stole (c : PeerCounters) : PeerCounters :=
  mkCounters (pc_incoming_connections c) (pc_outgoing_connections c) (pc_errors c)
    (pc_times_stolen_from_me c) (u32 (pc_times_i_stole c + 1)).
Definition inc_stolen_from (c : PeerCounters) : PeerCounters :=
  mkCounters (pc_incoming_connections c) (pc_outgoing_connections c) (pc_errors c)
    (u32 (pc_times_stolen_from_me c + 1)) (pc_times_i_stole c).

Definition on_steal (ps : PeerStates) (from_peer to_peer : SocketAddr) (piece : Z) : PeerStates :=
  let ps := bump_counters ps to_peer inc_stole in
  let ps := bump_counters ps from_peer inc_stolen_from in
  let ps := mkPeers (both inc_steals (ps_shared ps)) (ps_states ps) (ps_sent ps) (ps_queue ps) in
  let '(ps, sent) := with_live_mut ps from_peer (fun l sh =>
    let '(l, sent) := cancel_inflight_requests_for_piece l piece in (l, sh, sent)) in
  mkPeers (ps_shared ps) (ps_states ps) (ps_sent ps ++ default [] sent) (ps_queue ps).

(** ** Handlers of the live torrent that change the table *)

Definition inc_incoming (c : PeerCounters) : PeerCounters :=
  mkCounters (u32 (pc_incoming_connections c + 1)) (pc_outgoing_connections c) (pc_errors c)
    (pc_times_stolen_from_me c) (pc_times_i_stole c).
Definition inc_outgoing (c : PeerCounters) : PeerCounters :=
  mkCounters (pc_incoming_connections c) (u32 (pc_outgoing_connections c + 1)) (pc_errors c)
    (pc_times_stolen_from_me c) (pc_times_i_stole c).
Definition inc_errors (c : PeerCounters) : PeerCounters :=
  mkCounters (pc_incoming_connections c) (pc_outgoing_connections c) (u32 (pc_errors c + 1))
    (pc_times_stolen_from_me c) (pc_times_i_stole c).

Inductive AddIncomingPeerResult := ConcurrencyLimitReached | AlreadyActive | AddedPeer.

(** [permit] tells whether the semaphore of live peers has room. *)
Definition add_incoming_peer (ps : PeerStates) (permit : bool) (addr : SocketAddr) (peer_id : bytes)
    (tx : nat) (kind : ConnectionKind) : outcome (PeerStates * AddIncomingPeerResult) :=
  if negb permit then Ret (bump_counters ps addr inc_incoming, ConcurrencyLimitReached)
  else
    match ps_states ps !! addr with
    | Some p =>
      r ← incoming_connection p peer_id tx (ps_shared ps) kind;
      match r with
      | None => Ret (ps, AlreadyActive)
      | Some (p, sh) =>
        Ret (with_entry ps addr (with_counters p (inc_incoming (peer_counters p))) sh, AddedPeer)
      end
    | None =>
      let sh := ps_shared ps in
      let sh := mkShared (sh_session_stats sh) (atomic_inc St_seen (sh_stats sh))
                  (sh_live_outgoing_peers sh) in
      let '(p, sh) := new_live_for_incoming_connection addr peer_id tx sh kind in
      Ret (with_entry ps addr (with_counters p (inc_incoming (peer_counters p))) sh, AddedPeer)
    end.

Definition set_peer_live (ps : PeerStates) (addr : SocketAddr) (peer_id : bytes)
    (kind : ConnectionKind) : outcome PeerStates :=
  match ps_states ps !! addr with
  | Some p =>
    r ← connecting_to_live p peer_id (ps_shared ps) kind;
    Ret (match r with Some (p, sh) => with_entry ps addr p sh | None => ps end)
  | None => Ret ps
  end.

(** [on_connected]: the connection's counters are those of the entry. *)
Definition on_connected (ps : PeerStates) (addr : SocketAddr) : PeerStates :=
  bump_counters ps addr inc_outgoing.

(** The last step of [on_extended_handshake] for an incoming connection. *)
Definition update_outgoing_addr (ps : PeerStates) (addr outgoing_addr : SocketAddr) : PeerStates :=
  (with_peer_mut ps addr (fun p sh =>
    (mkPeer (peer_addr p) (peer_state p) (peer_counters p) (Some outgoing_addr), sh, ()))).1.

(** [bitfield_bytes] is the length of the torrent's bitfield. *)
Definition on_have (ps : PeerStates) (addr : SocketAddr) (have bitfield_bytes total_pieces : nat)
    : PeerStates :=
  (with_live_mut ps addr (fun l sh =>
    let bf := match lp_bitfield l with [] => replicate (8 * bitfield_bytes) false | bf => bf end in
    if (have <? length bf)%nat then
      let '(l, sh) := update_seeder_flag (with_bitfield l (<[have := true]> bf) (lp_seeder l))
                        total_pieces sh in
      (l, sh, ())
    else (with_bitfield l bf (lp_seeder l), sh, ()))).1.

(** One turn of [disconnect_all_peers_that_have_full_torrent]. *)
Definition disconnect_if_full (ps : PeerStates) (addr : SocketAddr) (total_pieces : nat)
    : outcome PeerStates :=
  match ps_states ps !! addr with
  | Some p =>
    match peer_state p with
    | Live l =>
      if has_full_torrent l total_pieces then
        let '(p, sh, prev) := set_not_needed p (ps_shared ps) in
        match prev with
        | Live l =>
          let ps := with_entry ps addr p sh in
          Ret (mkPeers (ps_shared ps) (ps_states ps) (ps_sent ps ++ [(lp_tx l, WDisconnect)]) (ps_queue ps))
        | _ => Panic
        end
      else Ret ps
    | _ => Ret ps
    end
  | None => Ret ps
  end.

(** One turn of [reconnect_all_not_needed_peers]. *)
Definition reconnect_not_needed (ps : PeerStates) (addr : SocketAddr) : PeerStates :=
  let '(ps, r) := with_peer_mut ps addr reconnect_not_needed_peer in
  match r with
  | Some (Some a) => mkPeers (ps_shared ps) (ps_states ps) (ps_sent ps) (ps_queue ps ++ [a])
  | _ => ps
  end.

(** What the task of a dead peer goes on to do after it has released the
    entry: nothing, wait and requeue, or drop the peer. *)
Inductive AfterDeath := DeathDone | DeathErr | DeathDrop | DeathWait.

(** [on_peer_died] up to the release of the entry.  [error] tells whether the
    connection ended with an error, [finished] is
    [is_finished_and_no_active_streams()], [backoff] whether the back-off yields
    another delay; the piece tracker is [None] when the torrent was paused. *)
Definition on_peer_died `{MapIter} (ps : PeerStates) (pieces : option PieceTracker)
    (addr : SocketAddr) (error finished incoming backoff : bool)
    : outcome (PeerStates * option PieceTracker * AfterDeath) :=
  match ps_states ps !! addr with
  | None => Ret (ps, pieces, DeathDone)
  | Some p =>
    let '(p, sh, prev) := take_state p (ps_shared ps) in
    let to s := let '(p, sh, _) := set_state p s sh in with_entry ps addr p sh in
    let after pieces :=
      if negb error then Ret (to NotNeeded, pieces, DeathDone)
      else
        let p := with_counters p (inc_errors (peer_counters p)) in
        let to s := let '(p, sh, _) := set_state p s sh in with_entry ps addr p sh in
        if finished then Ret (to NotNeeded, pieces, DeathDone)
        else if incoming then Ret (to Dead, pieces, DeathDone)
        else Ret (to Dead, pieces, if backoff then DeathWait else DeathDrop) in
    match prev with
    | Connecting _ => after pieces
    | Live _ =>
      match pieces with
      | None => Ret (with_entry ps addr p sh, None, DeathErr)
      | Some pt => r ← release_pieces_owned_by pt addr; after (Some r.1)
      end
    | NotNeeded => Ret (to NotNeeded, pieces, DeathDone)
    | Queued | Dead => Ret (with_entry ps addr p sh, pieces, DeathDrop)
    end
  end.

(** The end of the wait: back to the queue if still dead. *)
Definition dead_to_queued (ps : PeerStates) (addr : SocketAddr) : PeerStates :=
  match ps_states ps !! addr with
  | Some p =>
    match peer_state p with
    | Dead =>
      let '(p, sh, _) := set_state p Queued (ps_shared ps) in
      let ps := with_entry ps addr p sh in
      mkPeers (ps_shared ps) (ps_states ps) (ps_sent ps) (ps_queue ps ++ [addr])
    | _ => ps
    end
  | None => ps
  end.

(** ** What the counters should say *)

(** Whether a peer in state [s] is counted under [k]. *)
Definition belongs (k : Stat) (s : PeerState) : bool :=
  match k, s with
  | St_queued, Queued => true
  | St_connecting, Connecting _ => true
  | St_live, Live _ => true
  | St_dead, Dead => true
  | St_not_needed, NotNeeded => true
  | St_live_tcp, Live l => match lp_connection_kind l with Tcp => true | _ => false end
  | St_live_utp, Live l => match lp_connection_kind l with Utp => true | _ => false end
  | St_live_socks, Live l => match lp_connection_kind l with Socks => true | _ => false end
  | St_live_seeders, Live l => lp_seeder l
  | _, _ => false
  end.

Definition weight (k : Stat) (s : PeerState) : Z := Z.b2z (belongs k s).

(** The number of peers of the table counted under [k]. *)
Definition count (k : Stat) (m : gmap SocketAddr Peer) : Z :=
  map_fold (fun _ p acc => weight k (peer_state p) + acc) 0 m.

Lemma count_insert k m a p :
  count k (<[a := p]> m)
  = count k m + weight k (peer_state p) - from_option (fun q => weight k (peer_state q)) 0 (m !! a).
Proof.
  unfold count. destruct (m !! a) as [q|] eqn:E; cbn.
  - rewrite <- insert_delete_eq, map_fold_insert_L by (intros; lia || by rewrite lookup_delete_eq).
    rewrite <- (insert_delete_id m a q E) at 2.
    rewrite map_fold_insert_L by (intros; lia || by rewrite lookup_delete_eq). lia.
  - rewrite map_fold_insert_L by (intros; lia || done). lia.
Qed.

Lemma count_delete k m a p :
  m !! a = Some p -> count k (delete a m) = count k m - weight k (peer_state p).
Proof.
  intros E. unfold count. rewrite <- (insert_delete_id m a p E) at 2.
  rewrite map_fold_insert_L by (intros; lia || by rewrite lookup_delete_eq). lia.
Qed.

(** [st] holds the numbers [x], modulo [2^32]. *)
Definition tracks (st : AggregatePeerStats) (x : Stat -> Z) : Prop := forall k, st k = u32 (x k).

Lemma u32_add a b : u32 (u32 a + b) = u32 (a + b).
Proof. unfold wrap. by rewrite Zplus_mod_idemp_l. Qed.

Lemma tracks_add st x s d :
  tracks st x -> tracks (atomic_add s d st) (fun k => x k + if decide (k = s) then d else 0).
Proof.
  intros Ht k. unfold atomic_add. rewrite Ht. case_decide; [apply u32_add|]. by rewrite Z.add_0_r.
Qed.

Lemma tracks_ext st x y : tracks st x -> (forall k, x k = y k) -> tracks st y.
Proof. intros Ht E k. by rewrite Ht, E. Qed.

(** Compare two numbers for every counter. *)
Ltac stat_cases := intros []; cbn; repeat case_decide; simplify_eq; cbn; lia.

Lemma tracks_inc st x s : tracks st x -> tracks (stats_inc s st) (fun k => x k + weight k s).
Proof.
  intros Ht. unfold stats_inc, atomic_inc, weight.
  destruct s as [|tx|l| |]; try (eapply tracks_ext; [by apply tracks_add|stat_cases]).
  destruct (lp_seeder l) eqn:Es.
  - eapply tracks_ext; [by repeat apply tracks_add|]. unfold belongs, live_kind_counter.
    rewrite Es. destruct (lp_connection_kind l); stat_cases.
  - eapply tracks_ext; [by repeat apply tracks_add|]. unfold belongs, live_kind_counter.
    rewrite Es. destruct (lp_connection_kind l); stat_cases.
Qed.

Lemma tracks_dec st x s : tracks st x -> tracks (stats_dec s st) (fun k => x k - weight k s).
Proof.
  intros Ht. unfold stats_dec, atomic_dec, weight.
  destruct s as [|tx|l| |]; try (eapply tracks_ext; [by apply tracks_add|stat_cases]).
  destruct (lp_seeder l) eqn:Es.
  - eapply tracks_ext; [by repeat apply tracks_add|]. unfold belongs, live_kind_counter.
    rewrite Es. destruct (lp_connection_kind l); stat_cases.
  - eapply tracks_ext; [by repeat apply tracks_add|]. unfold belongs, live_kind_counter.
    rewrite Es. destruct (lp_connection_kind l); stat_cases.
Qed.

(** From [sh] to [sh'] both sets of counters move by [d]. *)
Definition shift (sh sh' : Shared) (d : Stat -> Z) : Prop :=
  forall x, (tracks (sh_stats sh) x -> tracks (sh_stats sh') (fun k => x k + d k))
    /\ (tracks (sh_session_stats sh) x -> tracks (sh_session_stats sh') (fun k => x k + d k)).

Lemma shift_trans sh1 sh2 sh3 d1 d2 :
  shift sh1 sh2 d1 -> shift sh2 sh3 d2 -> shift sh1 sh3 (fun k => d1 k + d2 k).
Proof.
  intros H1 H2 x. split; intros Ht; (eapply tracks_ext; [by apply H2, H1|]; intros k; cbn; lia).
Qed.

Lemma shift_ext sh sh' d d' : shift sh sh' d -> (forall k, d k = d' k) -> shift sh sh' d'.
Proof. intros H E x. split; intros Ht; (eapply tracks_ext; [by apply H|]; intros k; cbn; by rewrite E). Qed.

Lemma shift_refl sh : shift sh sh (fun _ => 0).
Proof. intros x. split; intros Ht; (eapply tracks_ext; [done|]; intros; cbn; lia). Qed.

Lemma shift_outgoing f sh sh' d : shift sh sh' d -> shift sh (with_outgoing f sh') d.
Proof. done. Qed.

Lemma shift_incdec old new sh :
  shift sh (both (stats_incdec old new) sh) (fun k => weight k new - weight k old).
Proof.
  intros x. unfold both, stats_incdec. cbn.
  split; intros Ht; (eapply tracks_ext; [by apply tracks_inc, tracks_dec|]; intros; cbn; lia).
Qed.

Lemma set_state_spec p new sh :
  exists sh', set_state p new sh = (with_state p new, sh', peer_state p)
    /\ shift sh sh' (fun k => weight k new - weight k (peer_state p)).
Proof.
  unfold set_state. eexists. split; [reflexivity|]. destruct (peer_outgoing_address p) as [a|];
    [|apply shift_incdec]. destruct (_ && _); destruct (is_live (peer_state p)); repeat apply shift_outgoing;
    apply shift_incdec.
Qed.

(** ** The invariant *)

Definition seeder_ok (total : nat) (s : PeerState) : Prop :=
  match s with Live l => lp_seeder l = has_full_torrent l total | _ => True end.

(** A correction that only concerns the two running totals. *)
Definition totals_only (e : Stat -> Z) : Prop := forall k, k <> St_seen -> k <> St_steals -> e k = 0.

(** [base] is what the other torrents of the session contribute. *)
Record peers_inv (total : nat) (base : Stat -> Z) (ps : PeerStates) : Prop := {
  pi_stats : exists e, totals_only e
    /\ tracks (sh_stats (ps_shared ps)) (fun k => count k (ps_states ps) + e k);
  pi_session : exists e, totals_only e
    /\ tracks (sh_session_stats (ps_shared ps)) (fun k => base k + count k (ps_states ps) + e k);
  pi_addr : forall a p, ps_states ps !! a = Some p -> peer_addr p = a;
  pi_seeder : forall a p, ps_states ps !! a = Some p -> seeder_ok total (peer_state p)
}.

Section Inv.
Context (total : nat) (Htotal : (0 < total)%nat) (base : Stat -> Z).

Lemma totals_only_add e f : totals_only e -> totals_only f -> totals_only (fun k => e k + f k).
Proof. intros He Hf k H1 H2. by rewrite He, Hf. Qed.

Lemma totals_only_0 : totals_only (fun _ => 0).
Proof. done. Qed.

(** Replacing one entry and moving the counters by the difference keeps the
    invariant; [e1] and [e2] may change the running totals. *)
Lemma inv_entry ps addr p sh' sent queue e1 e2 :
  peers_inv total base ps ->
  (let d k := weight k (peer_state p)
              - from_option (fun q => weight k (peer_state q)) 0 (ps_states ps !! addr) in
   forall x, (tracks (sh_stats (ps_shared ps)) x -> tracks (sh_stats sh') (fun k => x k + d k + e1 k))
     /\ (tracks (sh_session_stats (ps_shared ps)) x ->
         tracks (sh_session_stats sh') (fun k => x k + d k + e2 k))) ->
  totals_only e1 -> totals_only e2 -> peer_addr p = addr -> seeder_ok total (peer_state p) ->
  peers_inv total base (mkPeers sh' (<[addr := p]> (ps_states ps)) sent queue).
Proof.
  cbv zeta. intros [(e & He & Hs) (e' & He' & Hss) Ha Hsd] Hshift H1 H2 Hpa Hps. split; cbn.
  - exists (fun k => e k + e1 k). split; [by apply totals_only_add|].
    eapply tracks_ext; [by apply Hshift|]. intros k. cbn. rewrite count_insert. lia.
  - exists (fun k => e' k + e2 k). split; [by apply totals_only_add|].
    eapply tracks_ext; [by apply Hshift|]. intros k. cbn. rewrite count_insert. lia.
  - intros a q. destruct (decide (a = addr)) as [->|]; [rewrite lookup_insert_eq; by intros [= <-]|].
    rewrite lookup_insert_ne by done. apply Ha.
  - intros a q. destruct (decide (a = addr)) as [->|]; [rewrite lookup_insert_eq; by intros [= <-]|].
    rewrite lookup_insert_ne by done. apply Hsd.
Qed.

Lemma inv_shift ps addr p p' sh' sent queue :
  peers_inv total base ps -> ps_states ps !! addr = Some p ->
  shift (ps_shared ps) sh' (fun k => weight k (peer_state p') - weight k (peer_state p)) ->
  peer_addr p' = peer_addr p -> seeder_ok total (peer_state p') ->
  peers_inv total base (mkPeers sh' (<[addr := p']> (ps_states ps)) sent queue).
Proof.
  intros Hinv Hp Hsh Hpa Hps.
  apply (inv_entry ps addr p' sh' sent queue (fun _ => 0) (fun _ => 0)); try done.
  - cbn. rewrite Hp. cbn. intros x. destruct (Hsh x) as [H1 H2].
    split; intros Ht; (eapply tracks_ext; [by (apply H1 || apply H2)|]; intros k; cbn; lia).
  - rewrite Hpa. by apply (pi_addr _ _ _ Hinv).
Qed.

(** Changing a peer without changing its state. *)
Lemma inv_same_state ps addr p p' sent queue :
  peers_inv total base ps -> ps_states ps !! addr = Some p ->
  peer_addr p' = peer_addr p -> peer_state p' = peer_state p ->
  peers_inv total base (mkPeers (ps_shared ps) (<[addr := p']> (ps_states ps)) sent queue).
Proof.
  intros Hinv Hp Hpa Hs. eapply inv_shift; [done|exact Hp| |done|].
  - eapply shift_ext; [apply shift_refl|]. intros k. cbn. rewrite Hs. lia.
  - rewrite Hs. by apply (pi_seeder _ _ _ Hinv addr).
Qed.

Lemma inv_set_state ps addr p p0 new sh0 sent queue :
  peers_inv total base ps -> ps_states ps !! addr = Some p ->
  shift (ps_shared ps) sh0 (fun k => weight k (peer_state p0) - weight k (peer_state p)) ->
  peer_addr p0 = peer_addr p -> seeder_ok total new ->
  let '(p', sh', _) := set_state p0 new sh0 in
  peers_inv total base (mkPeers sh' (<[addr := p']> (ps_states ps)) sent queue).
Proof.
  intros Hinv Hp Hsh Hpa Hs. destruct (set_state_spec p0 new sh0) as (sh' & -> & Hsh').
  eapply inv_shift; [done|exact Hp| |done|done].
  eapply shift_ext; [by eapply shift_trans|]. intros k. cbn. lia.
Qed.

Lemma new_live_seeder_ok peer_id tx interested kind :
  seeder_ok total (Live (LivePeerState_new peer_id tx interested kind)).
Proof. cbn. unfold has_full_torrent. cbn. destruct total; [lia|done]. Qed.

Lemma inv_log ps sent queue :
  peers_inv total base ps -> peers_inv total base (mkPeers (ps_shared ps) (ps_states ps) sent queue).
Proof. intros []. by split. Qed.

Lemma inv_bump ps addr f : peers_inv total base ps -> peers_inv total base (bump_counters ps addr f).
Proof.
  intros Hinv. unfold bump_counters, with_peer_mut. destruct (ps_states ps !! addr) as [p|] eqn:E; [|done].
  by eapply inv_same_state.
Qed.

(** A change of a live peer that keeps its kind and leaves the seeder flag to
    [update_seeder_flag]. *)
Lemma update_seeder_flag_spec l sh :
  exists l' sh', update_seeder_flag l total sh = (l', sh')
    /\ shift sh sh' (fun k => weight k (Live l') - weight k (Live l))
    /\ seeder_ok total (Live l').
Proof.
  unfold update_seeder_flag. destruct (Bool.eqb (has_full_torrent l total) (lp_seeder l)) eqn:E.
  - eexists _, _. split; [done|]. split; [|by apply eqb_prop in E].
    eapply shift_ext; [apply shift_refl|]. intros k; cbn; lia.
  - eexists _, _. split; [done|]. split; [|done].
    apply eqb_false_iff in E. unfold both, seeder_flag_changed, atomic_inc, atomic_dec. intros x. cbn [sh_stats sh_session_stats].
    destruct (has_full_torrent l total) eqn:Ef, (lp_seeder l) eqn:El; try done;
      (split; intros Ht; (eapply tracks_ext; [by apply tracks_add|]); unfold weight, belongs; cbn;
       rewrite ?El; stat_cases).
Qed.

Lemma inv_with_live {R} ps addr (f : LivePeerState -> Shared -> LivePeerState * Shared * R) :
  peers_inv total base ps ->
  (forall l sh, seeder_ok total (Live l) -> let '(l', sh', _) := f l sh in
     shift sh sh' (fun k => weight k (Live l') - weight k (Live l)) /\ seeder_ok total (Live l')) ->
  peers_inv total base (with_live_mut ps addr f).1.
Proof.
  intros Hinv Hf. unfold with_live_mut. destruct (ps_states ps !! addr) as [p|] eqn:E; [|done].
  destruct (peer_state p) as [| |l| |] eqn:Es; try done.
  specialize (Hf l (ps_shared ps)). destruct (f l (ps_shared ps)) as [[l' sh'] r].
  destruct Hf as [Hsh Hs]; [rewrite <- Es; by apply (pi_seeder _ _ _ Hinv addr)|].
  eapply inv_shift; [done|exact E| |done|done]. by rewrite Es.
Qed.

(** Requests and interest do not matter to the counters. *)
Lemma live_same l l' sh :
  lp_bitfield l' = lp_bitfield l -> lp_seeder l' = lp_seeder l ->
  lp_connection_kind l' = lp_connection_kind l -> seeder_ok total (Live l) ->
  shift sh sh (fun k => weight k (Live l') - weight k (Live l)) /\ seeder_ok total (Live l').
Proof.
  intros Hb Hs Hk Hok. split.
  - eapply shift_ext; [apply shift_refl|]. intros k. unfold weight, belongs. rewrite Hs, Hk.
    destruct k; cbn; lia.
  - cbn in *. unfold has_full_torrent in *. by rewrite Hb, Hs.
Qed.

Lemma add_if_not_seen_inv ps addr :
  peers_inv total base ps -> peers_inv total base (add_if_not_seen ps addr).1.
Proof.
  intros Hinv. unfold add_if_not_seen. destruct (ps_states ps !! addr) as [p|] eqn:E; [done|].
  set (e := fun k => if decide (k = St_seen) then 1 else 0).
  apply (inv_entry ps addr _ _ _ _ e e); try done.
  - cbn. rewrite E. cbn. unfold atomic_inc. intros x.
    split; intros Ht; (eapply tracks_ext; [by repeat apply tracks_add|]); unfold weight, e; stat_cases.
  - intros k H1 H2. unfold e. by rewrite decide_False.
  - intros k H1 H2. unfold e. by rewrite decide_False.
Qed.

Lemma drop_peer_inv ps addr : peers_inv total base ps -> peers_inv total base (drop_peer ps addr).1.
Proof.
  intros Hinv. unfold drop_peer. destruct (ps_states ps !! addr) as [p|] eqn:E; [|done].
  destruct Hinv as [(e & He & Hs) (e' & He' & Hss) Ha Hsd]. split; cbn.
  - exists e. split; [done|]. eapply tracks_ext; [by apply tracks_dec|]. intros k. cbn.
    rewrite (count_delete _ _ _ _ E). lia.
  - exists e'. split; [done|]. eapply tracks_ext; [by apply tracks_dec|]. intros k. cbn.
    rewrite (count_delete _ _ _ _ E). lia.
  - intros a q [_ Hq]%lookup_delete_Some. by apply Ha.
  - intros a q [_ Hq]%lookup_delete_Some. by apply (Hsd a).
Qed.

Lemma update_bitfield_inv ps addr bf :
  peers_inv total base ps -> peers_inv total base (update_bitfield ps addr bf total).1.
Proof.
  intros Hinv. unfold update_bitfield. apply inv_with_live; [done|]. intros l sh _.
  destruct (update_seeder_flag_spec (with_bitfield l bf (lp_seeder l)) sh) as (l' & sh' & -> & Hsh & Hs).
  done.
Qed.

Lemma on_have_inv ps addr have bytes :
  peers_inv total base ps -> peers_inv total base (on_have ps addr have bytes total).
Proof.
  intros Hinv. unfold on_have. apply inv_with_live; [done|]. intros l sh Hok.
  set (bf := match lp_bitfield l with [] => _ | _ => _ end).
  destruct (Nat.ltb_spec have (length bf)).
  - destruct (update_seeder_flag_spec (with_bitfield l (<[have := true]> bf) (lp_seeder l)) sh)
      as (l' & sh' & -> & Hsh & Hs). done.
  - split; [eapply shift_ext; [apply shift_refl|]; intros []; unfold weight; cbn; lia|].
    unfold seeder_ok in *. cbn [with_bitfield lp_seeder]. rewrite Hok. unfold has_full_torrent.
    cbn [with_bitfield lp_bitfield]. unfold bf.
    destruct (lp_bitfield l) as [|b bits]; [|done]. destruct total as [|n]; [lia|].
    destruct (8 * bytes)%nat; cbn; by rewrite ?andb_false_r.
Qed.

(** A change of state through [set_state] in the entry of [addr]. *)
Lemma inv_to ps addr p p0 new sh0 :
  peers_inv total base ps -> ps_states ps !! addr = Some p ->
  shift (ps_shared ps) sh0 (fun k => weight k (peer_state p0) - weight k (peer_state p)) ->
  peer_addr p0 = peer_addr p -> seeder_ok total new ->
  peers_inv total base (let '(p', sh', _) := set_state p0 new sh0 in with_entry ps addr p' sh').
Proof.
  intros Hinv Hp Hsh Hpa Hs. pose proof (inv_set_state ps addr p p0 new sh0 (ps_sent ps) (ps_queue ps) Hinv Hp Hsh Hpa Hs) as H.
  destruct (set_state p0 new sh0) as [[p' sh'] o]. exact H.
Qed.

Lemma shift_id (p : Peer) sh : shift sh sh (fun k => weight k (peer_state p) - weight k (peer_state p)).
Proof. eapply shift_ext; [apply shift_refl|]. intros; cbn; lia. Qed.

Lemma inv_one ps addr p new :
  peers_inv total base ps -> ps_states ps !! addr = Some p -> seeder_ok total new ->
  peers_inv total base (let '(p', sh', _) := set_state p new (ps_shared ps) in with_entry ps addr p' sh').
Proof. intros Hinv Hp Hs. eapply inv_to; [done|exact Hp|apply shift_id|done|done]. Qed.

Lemma connecting_inv ps addr tx :
  peers_inv total base ps -> peers_inv total base (mark_peer_connecting ps addr tx).1.
Proof.
  intros Hinv. unfold mark_peer_connecting. destruct (ps_states ps !! addr) as [p|] eqn:E; [|done].
  unfold idle_to_connecting. pose proof (inv_one ps addr p (Connecting tx) Hinv E I) as H.
  destruct (set_state p _ _) as [[p' sh'] o]. by destruct (peer_state p).
Qed.

Lemma not_needed_inv ps addr :
  peers_inv total base ps -> peers_inv total base (mark_peer_not_needed ps addr).1.
Proof.
  intros Hinv. unfold mark_peer_not_needed, with_peer_mut. destruct (ps_states ps !! addr) as [p|] eqn:E; [|done].
  pose proof (inv_one ps addr p NotNeeded Hinv E I) as H. unfold set_not_needed.
  by destruct (set_state p _ _) as [[p' sh'] o].
Qed.

Lemma dead_to_queued_inv ps addr :
  peers_inv total base ps -> peers_inv total base (dead_to_queued ps addr).
Proof.
  intros Hinv. unfold dead_to_queued. destruct (ps_states ps !! addr) as [p|] eqn:E; [|done].
  pose proof (inv_one ps addr p Queued Hinv E I) as H. destruct (peer_state p); try done.
  destruct (set_state p _ _) as [[p' sh'] o]. by apply inv_log.
Qed.

Lemma reconnect_inv ps addr :
  peers_inv total base ps -> peers_inv total base (reconnect_not_needed ps addr).
Proof.
  intros Hinv. unfold reconnect_not_needed, with_peer_mut. destruct (ps_states ps !! addr) as [p|] eqn:E; [|done].
  unfold reconnect_not_needed_peer. pose proof (inv_one ps addr p Queued Hinv E I) as H.
  assert (Hid : peers_inv total base (with_entry ps addr p (ps_shared ps)))
    by (by eapply inv_same_state).
  destruct (peer_state p); try done. destruct (peer_outgoing_address p) as [a|]; [|done].
  case_bool_decide; [|by apply inv_log].
  destruct (set_state p _ _) as [[p' sh'] o]. by apply inv_log.
Qed.

Lemma disconnect_inv ps addr :
  peers_inv total base ps -> exists ps', disconnect_if_full ps addr total = Ret ps' /\ peers_inv total base ps'.
Proof.
  intros Hinv. unfold disconnect_if_full. destruct (ps_states ps !! addr) as [p|] eqn:E; [|by eexists].
  pose proof (inv_one ps addr p NotNeeded Hinv E I) as H. destruct (peer_state p) as [| |l| |] eqn:Es; try by eexists.
  destruct (has_full_torrent l total); [|by eexists]. unfold set_not_needed.
  destruct (set_state_spec p NotNeeded (ps_shared ps)) as (sh' & Eset & _). rewrite Eset in H |- *. rewrite Es.
  eexists. split; [done|]. by apply inv_log.
Qed.

Lemma on_steal_inv ps from to piece :
  peers_inv total base ps -> peers_inv total base (on_steal ps from to piece).
Proof.
  intros Hinv. unfold on_steal.
  set (ps1 := bump_counters (bump_counters ps to inc_stole) from inc_stolen_from).
  assert (H1 : peers_inv total base ps1) by (by apply inv_bump, inv_bump).
  set (ps2 := mkPeers (both inc_steals (ps_shared ps1)) _ _ _).
  assert (H2 : peers_inv total base ps2).
  { destruct H1 as [(e & He & Hs) (e' & He' & Hss) Ha Hsd]. set (d := fun k => if decide (k = St_steals) then 1 else 0).
    assert (Hd : totals_only d) by (intros k ? ?; unfold d; by rewrite decide_False).
    split; cbn; [exists (fun k => e k + d k)|exists (fun k => e' k + d k)|done|done];
      (split; [by apply totals_only_add|]); (eapply tracks_ext; [by apply tracks_add|]);
      intros k; cbn; unfold d; lia. }
  match goal with |- context [with_live_mut ps2 from ?f] => pose proof (inv_with_live ps2 from f H2) as H end.
  destruct (with_live_mut ps2 from _) as [ps3 sent]. apply inv_log, H.
  intros l sh Hl. unfold cancel_inflight_requests_for_piece. by apply live_same.
Qed.

Lemma incoming_inv ps permit addr peer_id tx kind :
  peers_inv total base ps ->
  exists ps' r, add_incoming_peer ps permit addr peer_id tx kind = Ret (ps', r) /\ peers_inv total base ps'.
Proof.
  intros Hinv. unfold add_incoming_peer. destruct permit; cbn [negb]; cycle 1.
  { eexists _, _. split; [done|]. by apply inv_bump. }
  destruct (ps_states ps !! addr) as [p|] eqn:E.
  - unfold incoming_connection, take_state.
    destruct (set_state_spec p Queued (ps_shared ps)) as (sh1 & -> & Hsh1).
    destruct (set_state_spec (with_state p Queued) (Live (LivePeerState_new peer_id tx true kind)) sh1)
      as (sh2 & E2 & Hsh2).
    assert (Hok : peers_inv total base (with_entry ps addr (with_counters (with_state (with_state p Queued)
        (Live (LivePeerState_new peer_id tx true kind))) (inc_incoming (peer_counters p))) sh2)).
    { eapply inv_shift; [done|exact E| |done|apply new_live_seeder_ok].
      eapply shift_ext; [by eapply shift_trans|]. intros k. cbn. lia. }
    destruct (peer_state p); run; rewrite ?E2; by eexists _, _.
  - cbn. eexists _, _. split; [done|].
    set (e := fun k => if decide (k = St_seen) then 1 else 0).
    apply (inv_entry ps addr _ _ _ _ e (fun _ => 0)); try done; try apply new_live_seeder_ok.
    + cbn [sh_stats sh_session_stats both]. rewrite E. cbn [from_option]. intros x. unfold atomic_inc.
      split; intros Ht; (eapply tracks_ext; [by apply tracks_inc; try apply tracks_add|]); intros k; cbn;
        unfold e; lia.
    + intros k ? ?. unfold e. by rewrite decide_False.
Qed.

Lemma set_live_inv ps addr peer_id kind :
  peers_inv total base ps ->
  exists ps', set_peer_live ps addr peer_id kind = Ret ps' /\ peers_inv total base ps'.
Proof.
  intros Hinv. unfold set_peer_live. destruct (ps_states ps !! addr) as [p|] eqn:E; [|by eexists].
  unfold connecting_to_live, take_state. destruct (set_state_spec p Queued (ps_shared ps)) as (sh1 & -> & Hsh1).
  destruct (peer_state p) as [|tx|l| |] eqn:Es; try by eexists.
  pose proof (inv_to ps addr p (with_state p Queued) (Live (LivePeerState_new peer_id tx false kind)) sh1 Hinv E) as H.
  destruct (set_state (with_state p Queued) _ sh1) as [[p' sh'] o]. cbn. eexists. split; [done|].
  apply H; [by rewrite Es|done|apply new_live_seeder_ok].
Qed.

Lemma died_inv `{MapIter} ps pieces addr error finished incoming backoff :
  peers_inv total base ps -> (forall pt, pieces = Some pt -> pt_ok pt) ->
  exists ps' pieces' r, on_peer_died ps pieces addr error finished incoming backoff = Ret (ps', pieces', r)
    /\ peers_inv total base ps'.
Proof.
  intros Hinv Hpt. unfold on_peer_died. destruct (ps_states ps !! addr) as [p|] eqn:E; [|by eexists _, _, _].
  unfold take_state. destruct (set_state_spec p Queued (ps_shared ps)) as (sh1 & -> & Hsh1).
  assert (Hto : forall c new, seeder_ok total new -> peers_inv total base
    (let '(p', sh', _) := set_state (with_counters (with_state p Queued) c) new sh1 in with_entry ps addr p' sh')).
  { intros c new Hs. by eapply inv_to. }
  pose proof (Hto (peer_counters p)) as Hto'. change (with_counters (with_state p Queued) (peer_counters p))
    with (with_state p Queued) in Hto'.
  assert (Hq : peers_inv total base (with_entry ps addr (with_state p Queued) sh1)) by (by eapply inv_shift).
  destruct (peer_state p) as [|tx|l| |] eqn:Es.
  - by eexists _, _, _.
  - destruct error, finished, incoming, backoff; cbn [negb]; eexists _, _, _; (split; [reflexivity|]);
      first [by apply Hto'|by apply Hto].
  - destruct pieces as [pt|]; [|by eexists _, _, _].
    destruct (release_spec pt addr (Hpt pt eq_refl)) as (pt' & -> & _). cbn [mbind outcome_bind fst].
    destruct error, finished, incoming, backoff; cbn [negb]; eexists _, _, _; (split; [reflexivity|]);
      first [by apply Hto'|by apply Hto].
  - by eexists _, _, _.
  - eexists _, _, _. split; [reflexivity|]. by apply Hto'.
Qed.
End Inv.

(** ** Interleavings *)

Section Run.
Context `{MapIter} (total bitfield_bytes : nat).

Inductive peer_op :=
| PAdd (a : SocketAddr)
| PConnecting (a : SocketAddr) (tx : nat)
| PConnected (a : SocketAddr)
| PSetLive (a : SocketAddr) (peer_id : bytes) (kind : ConnectionKind)
| PIncoming (permit : bool) (a : SocketAddr) (peer_id : bytes) (tx : nat) (kind : ConnectionKind)
| POutgoingAddr (a out : SocketAddr)
| PHave (a : SocketAddr) (piece : nat)
| PBitfield (a : SocketAddr) (bf : list bool)
| PInterested (a : SocketAddr) (b : bool)
| PNotNeeded (a : SocketAddr)
| PDisconnectIfFull (a : SocketAddr)
| PReconnect (a : SocketAddr)
| PDied (a : SocketAddr) (pieces : option PieceTracker) (error finished incoming backoff : bool)
| PDrop (a : SocketAddr)
| PDeadToQueued (a : SocketAddr)
| PSteal (from to : SocketAddr) (piece : Z)
| PAddRequest (a : SocketAddr) (c : ChunkInfo)
| PRemoveRequest (a : SocketAddr) (c : ChunkInfo).

Definition run_peer_op (ps : PeerStates) (op : peer_op) : outcome PeerStates :=
  match op with
  | PAdd a => Ret (add_if_not_seen ps a).1
  | PConnecting a tx => Ret (mark_peer_connecting ps a tx).1
  | PConnected a => Ret (on_connected ps a)
  | PSetLive a peer_id kind => set_peer_live ps a peer_id kind
  | PIncoming permit a peer_id tx kind => fst <$> add_incoming_peer ps permit a peer_id tx kind
  | POutgoingAddr a out => Ret (update_outgoing_addr ps a out)
  | PHave a piece => Ret (on_have ps a piece bitfield_bytes total)
  | PBitfield a bf => Ret (update_bitfield ps a bf total).1
  | PInterested a b => Ret (mark_peer_interested ps a b).1
  | PNotNeeded a => Ret (mark_peer_not_needed ps a).1
  | PDisconnectIfFull a => disconnect_if_full ps a total
  | PReconnect a => Ret (reconnect_not_needed ps a)
  | PDied a pieces error finished incoming backoff =>
    (fun r => r.1.1) <$> on_peer_died ps pieces a error finished incoming backoff
  | PDrop a => Ret (drop_peer ps a).1
  | PDeadToQueued a => Ret (dead_to_queued ps a)
  | PSteal from to piece => Ret (on_steal ps from to piece)
  | PAddRequest a c => Ret (with_live_mut ps a (fun l sh => let '(l, r) := add_inflight_request l c in (l, sh, r))).1
  | PRemoveRequest a c => Ret (with_live_mut ps a (fun l sh => let '(l, r) := remove_inflight_request l c in (l, sh, r))).1
  end.

Definition PeerStates_new (session_stats : AggregatePeerStats) : PeerStates :=
  mkPeers (mkShared session_stats AggregatePeerStats_default ∅) ∅ [] [].

Definition peer_op_ok (op : peer_op) : Prop :=
  match op with PDied _ (Some pt) _ _ _ _ => pt_ok pt | _ => True end.

Lemma run_peer_op_inv base ps op :
  (0 < total)%nat -> peers_inv total base ps -> peer_op_ok op ->
  exists ps', run_peer_op ps op = Ret ps' /\ peers_inv total base ps'.
Proof.
  intros Ht Hinv Hok. destruct op; cbn [run_peer_op].
  - eexists. split; [done|]. by apply add_if_not_seen_inv.
  - eexists. split; [done|]. by apply connecting_inv.
  - eexists. split; [done|]. by apply inv_bump.
  - by apply set_live_inv.
  - destruct (incoming_inv total Ht base ps permit a peer_id tx kind Hinv) as (ps' & r & -> & ?). by exists ps'.
  - eexists. split; [done|]. unfold update_outgoing_addr, with_peer_mut.
    destruct (ps_states ps !! a) eqn:E; [|done]. by eapply inv_same_state.
  - eexists. split; [done|]. by apply on_have_inv.
  - eexists. split; [done|]. by apply update_bitfield_inv.
  - eexists. split; [done|]. apply inv_with_live; [done|done|]. intros l sh Hl. by apply live_same.
  - eexists. split; [done|]. by apply not_needed_inv.
  - by apply disconnect_inv.
  - eexists. split; [done|]. by apply reconnect_inv.
  - destruct (died_inv total Ht base ps pieces a error finished incoming backoff Hinv) as (ps' & pc & r & -> & ?).
    { intros pt ->. done. } by exists ps'.
  - eexists. split; [done|]. by apply drop_peer_inv.
  - eexists. split; [done|]. by apply dead_to_queued_inv.
  - eexists. split; [done|]. by apply on_steal_inv.
  - eexists. split; [done|]. apply inv_with_live; [done|done|]. intros l sh Hl. unfold add_inflight_request.
    case_bool_decide; by apply live_same.
  - eexists. split; [done|]. apply inv_with_live; [done|done|]. intros l sh Hl. unfold remove_inflight_request.
    case_bool_decide; [by apply live_same|]. destruct (0 <? _); by apply live_same.
Qed.

Lemma run_peer_ops_inv base ps ops :
  (0 < total)%nat -> peers_inv total base ps -> Forall peer_op_ok ops ->
  exists ps', foldM run_peer_op ps ops = Ret ps' /\ peers_inv total base ps'.
Proof.
  intros Ht Hinv Hops. revert ps Hinv. induction Hops as [|op ops Hop _ IH]; intros ps Hinv; [by eexists|].
  cbn. destruct (run_peer_op_inv base ps op Ht Hinv Hop) as (ps1 & -> & H1). cbn. by apply IH.
Qed.

(** C9: in every interleaving of the tasks that share the peer table no
    operation panics, and the aggregate counters are exact: each per-state
    counter of the torrent is the number of peers in that state (per connection
    kind for the live ones), the session's counters moved by the same amount,
    [live_seeders] counts the live peers flagged as seeders, the flag says
    whether the peer's bitfield covers the torrent, and every peer is filed
    under its own address. *)
Theorem peer_counters_exact (session : AggregatePeerStats) (ops : list peer_op) :
  (0 < total)%nat -> (forall k, is_u32 (session k)) -> Forall peer_op_ok ops ->
  exists ps, foldM run_peer_op (PeerStates_new session) ops = Ret ps
    /\ (forall k, k <> St_seen -> k <> St_steals ->
          sh_stats (ps_shared ps) k = u32 (count k (ps_states ps))
          /\ sh_session_stats (ps_shared ps) k = u32 (session k + count k (ps_states ps)))
    /\ (forall a p, ps_states ps !! a = Some p -> peer_addr p = a
          /\ forall l, peer_state p = Live l -> lp_seeder l = has_full_torrent l total).
Proof.
  intros Ht Hs Hops. destruct (run_peer_ops_inv session (PeerStates_new session) ops Ht) as (ps & E & Hinv); [|done|].
  { split; cbn; [exists (fun _ => 0)|exists (fun _ => 0)| |]; try (intros ? ?; by rewrite lookup_empty).
    - split; [done|]. by intros k.
    - split; [done|]. intros k. cbn. change (count k ∅) with 0. rewrite !Z.add_0_r. symmetry. apply wrap_id, Hs. }
  exists ps. split; [done|]. destruct Hinv as [(e & He & H1) (e' & He' & H2) Ha Hsd]. split.
  - intros k Hk1 Hk2. rewrite H1, H2, He, He' by done. by rewrite !Z.add_0_r.
  - intros a p Hp. split; [by apply Ha|]. intros l El. specialize (Hsd a p Hp). by rewrite El in Hsd.
Qed.
End Run.

Definition ex_addr (i : Z) : SocketAddr := SockV4 i 6881.

Definition ex_peer_ops : list peer_op :=
  [PAdd (ex_addr 1); PConnecting (ex_addr 1) 0; PConnected (ex_addr 1);
   PSetLive (ex_addr 1) [] Tcp; PBitfield (ex_addr 1) (replicate 8 true);
   PIncoming true (ex_addr 2) [] 1 Utp; PHave (ex_addr 2) 3; PAdd (ex_addr 3);
   PDied (ex_addr 3) None true false false true; PDrop (ex_addr 3)].

Lemma peer_counters_exact_witness :
  exists ps, foldM (@run_peer_op MapIter_to_list 4 1) (PeerStates_new AggregatePeerStats_default) ex_peer_ops
      = Ret ps
    /\ sh_stats (ps_shared ps) St_live_seeders = 1 /\ count St_live_seeders (ps_states ps) = 1.
Proof.
  destruct (@peer_counters_exact MapIter_to_list 4 1 AggregatePeerStats_default ex_peer_ops)
    as (ps & E & Hc & _).
  - lia.
  - intros k. by vm_compute.
  - repeat constructor.
  - exists ps. split; [exact E|]. destruct (Hc St_live_seeders) as [H1 _]; [done|done|].
    assert (Hcount : count St_live_seeders (ps_states ps) = 1).
    { assert (Hm : match foldM (@run_peer_op MapIter_to_list 4 1) (PeerStates_new AggregatePeerStats_default)
        ex_peer_ops with Ret ps => count St_live_seeders (ps_states ps) | Panic => 0 end = 1)
        by (vm_compute; reflexivity). rewrite E in Hm. exact Hm. }
    split; [rewrite H1, Hcount; reflexivity|exact Hcount].
Defined.

(** The address of a peer can stay among the live addresses after the peer
    is gone: between [on_peer_died] releasing the entry and [drop_peer], the
    peer connects to us again, becomes live and is listed; then [drop_peer]
    removes the entry but not the address. *)
Theorem dropped_peer_stays_listed :
  let ops := [PAdd (ex_addr 1); PConnecting (ex_addr 1) 0; PConnected (ex_addr 1);
              PDied (ex_addr 1) None true false false false;
              PIncoming true (ex_addr 1) [] 1 Tcp; PDrop (ex_addr 1)] in
  exists ps, foldM (@run_peer_op MapIter_to_list 4 1) (PeerStates_new AggregatePeerStats_default) ops = Ret ps
    /\ ps_states ps !! ex_addr 1 = None /\ ex_addr 1 ∈ sh_live_outgoing_peers (ps_shared ps).
Proof.
  eexists. split; [reflexivity|]. split; [vm_compute; reflexivity|].
  apply (bool_decide_unpack _). vm_compute. exact I.
Qed.

(** A peer first seen through an incoming connection is counted as seen by
    the torrent but not by the session. *)
Lemma incoming_peer_not_seen_by_session :
  exists ps, foldM (@run_peer_op MapIter_to_list 4 1) (PeerStates_new AggregatePeerStats_default)
      [PIncoming true (ex_addr 1) [] 0 Tcp] = Ret ps
    /\ sh_stats (ps_shared ps) St_seen = 1 /\ sh_session_stats (ps_shared ps) St_seen = 0.
Proof. eexists. split; [reflexivity|]. split; vm_compute; reflexivity. Qed.
