(* ===== verification/UdpTracker.v ===== *)
(** * UDP tracker protocol ([tracker_comms::tracker_comms_udp], BEP 15)

    Serialization of requests into a caller's buffer and parsing of responses.
    Sending, transactions and time-outs are not modelled. *)

From stdpp Require Import base tactics option list list_numbers numbers decidable.
From Stdlib Require Import ZArith Lia.
From S2P Require Import Prelude Net HashId.
Open Scope Z_scope.

Definition ACTION_CONNECT : Z := 0.
Definition ACTION_ANNOUNCE : Z := 1.
Definition ACTION_ERROR : Z := 3.
Definition CONNECTION_ID_MAGIC : Z := 0x41727101980.

Record AnnounceFields := mkAnnounce {
  af_info_hash : Id;
  af_peer_id : Id;
  af_downloaded : Z;
  af_left : Z;
  af_uploaded : Z;
  af_event : Z;
  af_key : Z;
  af_port : Z
}.

Inductive UdpRequest :=
| ReqConnect
| ReqAnnounce (connection_id : Z) (fields : AnnounceFields).

(** ** Writing a request *)

Record W := mkW {
  w_buf : bytes;
  w_offset : nat
}.

(** "not enough space in buffer" *)
Inductive UdpError := NotEnoughSpace | ExpectedBytes (n : nat) | UnsupportedAction (a : Z) | RemainingBytes (n : nat).

Definition extend_from_slice (w : W) (s : bytes) : W * result UdpError unit :=
  if (length (w_buf w) <? w_offset w + length s)%nat then (w, Err NotEnoughSpace)
  else (mkW (take (w_offset w) (w_buf w) ++ s ++ drop (w_offset w + length s) (w_buf w))
          (w_offset w + length s), Ok ()).

(** A sequence of [w.extend_from_slice(..)?]. *)
Fixpoint extend_all (w : W) (parts : list bytes) : W * result UdpError unit :=
  match parts with
  | [] => (w, Ok ())
  | s :: parts =>
    match extend_from_slice w s with
    | (w, Ok _) => extend_all w parts
    | (w, Err e) => (w, Err e)
    end
  end.

(** The slices written, in order; [(-1i32).to_be_bytes()] is [2^32 - 1]. *)
Definition request_parts (r : UdpRequest) (transaction_id : Z) : list bytes :=
  match r with
  | ReqConnect =>
    [to_be_bytes 8 CONNECTION_ID_MAGIC; to_be_bytes 4 ACTION_CONNECT; to_be_bytes 4 transaction_id]
  | ReqAnnounce connection_id f =>
    [to_be_bytes 8 connection_id; to_be_bytes 4 ACTION_ANNOUNCE; to_be_bytes 4 transaction_id;
     af_info_hash f; af_peer_id f; to_be_bytes 8 (af_downloaded f); to_be_bytes 8 (af_left f);
     to_be_bytes 8 (af_uploaded f); to_be_bytes 4 (af_event f); to_be_bytes 4 0;
     to_be_bytes 4 (af_key f); to_be_bytes 4 (u32 (-1)); to_be_bytes 2 (af_port f)]
  end.

(** The buffer after the call and the number of bytes written. *)
Definition serialize (r : UdpRequest) (transaction_id : Z) (buf : bytes) : bytes * result UdpError nat :=
  match extend_all (mkW buf 0) (request_parts r transaction_id) with
  | (w, Ok _) => (w_buf w, Ok (w_offset w))
  | (w, Err e) => (w_buf w, Err e)
  end.

(** ** Parsing a response *)

Record AnnounceResponse := mkAnnounceResponse {
  ar_interval : Z;
  ar_leechers : Z;
  ar_seeders : Z;
  ar_addrs : list SocketAddr
}.

Inductive Response :=
| RespConnect (connection_id : Z)
| RespAnnounce (r : AnnounceResponse)
| RespError (msg : bytes)
| RespUnknown.

Definition split_slice (s : bytes) (first_len : nat) : option (bytes * bytes) :=
  if (length s <? first_len)%nat then None else Some (take first_len s, drop first_len s).

(** [uN::parse_num] for an unsigned type of [size] bytes. *)
Definition parse_num (size : nat) (buf : bytes) : result UdpError (Z * bytes) :=
  match split_slice buf size with
  | None => Err (ExpectedBytes size)
  | Some (b, rest) => Ok (from_be_bytes b, rest)
  end.

(** The loop over the addresses; [fuel] bounds its rounds. *)
Fixpoint parse_addrs (fuel : nat) (is_ipv6 : bool) (b : bytes) : option (result UdpError (list SocketAddr)) :=
  match b with
  | [] => Some (Ok [])
  | _ =>
    match fuel with
    | O => None
    | S fuel =>
      match parse_num (if is_ipv6 then 16 else 4) b with
      | Err e => Some (Err e)
      | Ok (ip, b) =>
        match parse_num 2 b with
        | Err e => Some (Err e)
        | Ok (port, b) =>
          match parse_addrs fuel is_ipv6 b with
          | Some (Ok addrs) => Some (Ok (sock_new (if is_ipv6 then IpV6 ip else IpV4 ip) port :: addrs))
          | r => r
          end
        end
      end
    end
  end.

(** UTF-8 validity, as [std::str::from_utf8] checks it. *)
Definition in_range (b lo hi : Z) : bool := (lo <=? b) && (b <=? hi).
Definition is_cont (b : Z) : bool := in_range b 0x80 0xBF.

Fixpoint utf8_valid (fuel : nat) (s : bytes) : bool :=
  match fuel, s with
  | _, [] => true
  | O, _ => false
  | S fuel, b :: s =>
    if b <? 0x80 then utf8_valid fuel s
    else if in_range b 0xC2 0xDF then
      match s with c1 :: s => is_cont c1 && utf8_valid fuel s | _ => false end
    else if in_range b 0xE0 0xEF then
      match s with
      | c1 :: c2 :: s =>
        (if b =? 0xE0 then in_range c1 0xA0 0xBF else if b =? 0xED then in_range c1 0x80 0x9F else is_cont c1)
        && is_cont c2 && utf8_valid fuel s
      | _ => false
      end
    else if in_range b 0xF0 0xF4 then
      match s with
      | c1 :: c2 :: c3 :: s =>
        (if b =? 0xF0 then in_range c1 0x90 0xBF else if b =? 0xF4 then in_range c1 0x80 0x8F else is_cont c1)
        && is_cont c2 && is_cont c3 && utf8_valid fuel s
      | _ => false
      end
    else false
  end.

Definition from_utf8 (s : bytes) : option bytes := if utf8_valid (length s) s then Some s else None.

(** [CStr::from_bytes_with_nul(buf).ok()] without the terminator. *)
Definition cstr_with_nul (buf : bytes) : option bytes :=
  match list_find (fun b => b = 0) buf with
  | Some (i, _) => if (S i =? length buf)%nat then Some (take i buf) else None
  | None => None
  end.

(** ["<invalid UTF-8>"] *)
Definition INVALID_UTF8 : bytes :=
  [60; 105; 110; 118; 97; 108; 105; 100; 32; 85; 84; 70; 45; 56; 62].

Definition error_text (buf : bytes) : bytes :=
  match (cstr_with_nul buf ≫= from_utf8) with
  | Some s => s
  | None => default INVALID_UTF8 (from_utf8 buf)
  end.

Definition parse_response (fuel : nat) (action : Z) (is_ipv6 : bool) (buf : bytes)
    : option (result UdpError Response) :=
  let finish (response : Response) (rest : bytes) :=
    match rest with
    | [] => Some (Ok response)
    | _ => Some (Err (RemainingBytes (length rest)))
    end in
  if action =? ACTION_CONNECT then
    match parse_num 8 buf with
    | Ok (connection_id, b) => finish (RespConnect connection_id) b
    | Err e => Some (Err e)
    end
  else if action =? ACTION_ANNOUNCE then
    match parse_num 4 buf with
    | Err e => Some (Err e)
    | Ok (interval, b) =>
      match parse_num 4 b with
      | Err e => Some (Err e)
      | Ok (leechers, b) =>
        match parse_num 4 b with
        | Err e => Some (Err e)
        | Ok (seeders, b) =>
          match parse_addrs fuel is_ipv6 b with
          | None => None
          | Some (Err e) => Some (Err e)
          | Some (Ok addrs) => finish (RespAnnounce (mkAnnounceResponse interval leechers seeders addrs)) []
          end
        end
      end
    end
  else if action =? ACTION_ERROR then Some (Ok (RespError (error_text buf)))
  else Some (Err (UnsupportedAction action)).

(** [Response::parse]; [None] only when [fuel] does not suffice. *)
Definition parse (fuel : nat) (buf : bytes) (is_ipv6 : bool) : option (result UdpError (Z * Response)) :=
  match parse_num 4 buf with
  | Err e => Some (Err e)
  | Ok (action, buf) =>
    match parse_num 4 buf with
    | Err e => Some (Err e)
    | Ok (tid, buf) =>
      match parse_response fuel action is_ipv6 buf with
      | None => None
      | Some (Ok r) => Some (Ok (tid, r))
      | Some (Err _) => Some (Ok (tid, RespUnknown))
      end
    end
  end.

(** ** Requests on the wire *)

Lemma extend_all_ok parts w :
  (w_offset w + length (concat parts) <= length (w_buf w))%nat ->
  extend_all w parts
  = (mkW (take (w_offset w) (w_buf w) ++ concat parts ++ drop (w_offset w + length (concat parts)) (w_buf w))
       (w_offset w + length (concat parts)), Ok ()).
Proof.
  revert w. induction parts as [|s parts IH]; intros w Hw; cbn [concat extend_all].
  - cbn. rewrite Nat.add_0_r, take_drop. by destruct w.
  - cbn [concat] in Hw. rewrite length_app in Hw |- *. unfold extend_from_slice.
    rewrite (proj2 (Nat.ltb_ge _ _)) by lia.
    assert (Hlen : length (take (w_offset w) (w_buf w) ++ s) = (w_offset w + length s)%nat)
      by len.
    rewrite IH; cbn [w_buf w_offset]; cycle 1.
    { rewrite !length_app, length_take, length_drop. lia. }
    rewrite !app_assoc. rewrite take_app_length' by done.
    rewrite drop_app, Hlen, drop_ge by (rewrite Hlen; lia).
    rewrite drop_drop. f_equal. f_equal; [|lia]. cbn [app]. rewrite <- !app_assoc.
    do 3 f_equal. f_equal. lia.
Qed.

Lemma extend_all_err parts w :
  (length (w_buf w) < w_offset w + length (concat parts))%nat -> (w_offset w <= length (w_buf w))%nat ->
  exists w', extend_all w parts = (w', Err NotEnoughSpace) /\ length (w_buf w') = length (w_buf w).
Proof.
  revert w. induction parts as [|s parts IH]; intros w Hw Ho; cbn [concat extend_all].
  - cbn in Hw. lia.
  - cbn [concat] in Hw. rewrite length_app in Hw. unfold extend_from_slice.
    destruct (Nat.ltb_spec (length (w_buf w)) (w_offset w + length s)); [by eexists|].
    assert (Hlen : length (take (w_offset w) (w_buf w) ++ s ++ drop (w_offset w + length s) (w_buf w))
                   = length (w_buf w)) by len.
    match goal with |- context [extend_all ?w' parts] => destruct (IH w') as (w'' & -> & Hl) end;
      cbn [w_buf w_offset] in *; [lia|lia|]. exists w''. split; [done|lia].
Qed.

Definition request_ok (r : UdpRequest) : Prop :=
  match r with
  | ReqConnect => True
  | ReqAnnounce _ f => is_id 20 (af_info_hash f) /\ is_id 20 (af_peer_id f)
  end.

Definition request_len (r : UdpRequest) : nat := match r with ReqConnect => 16 | ReqAnnounce _ _ => 98 end.

(** A request is written as BEP 15 prescribes (16 bytes for a connect, 98
    for an announce, in the order of the specification, the rest of the buffer
    untouched) exactly when it fits, and otherwise refused. *)
Theorem udp_request_wire (r : UdpRequest) (tid : Z) (buf : bytes) :
  request_ok r ->
  let wire := concat (request_parts r tid) in
  length wire = request_len r
  /\ ((request_len r <= length buf)%nat ->
      serialize r tid buf = (wire ++ drop (request_len r) buf, Ok (request_len r)))
  /\ ((length buf < request_len r)%nat ->
      exists buf', serialize r tid buf = (buf', Err NotEnoughSpace) /\ length buf' = length buf).
Proof.
  intros Hr. cbv zeta.
  assert (Hl : length (concat (request_parts r tid)) = request_len r).
  { destruct r as [|cid f]; cbn [request_parts concat request_len];
      rewrite !length_app, ?length_to_be_bytes; [done|].
    destruct Hr as [[-> _] [-> _]]. done. }
  split; [done|]. unfold serialize. split; intros Hlen.
  - rewrite extend_all_ok by (cbn; lia). cbn. by rewrite Hl.
  - destruct (extend_all_err (request_parts r tid) (mkW buf 0)) as (w' & -> & Hw'); [cbn; lia|cbn; lia|].
    by eexists.
Qed.

Lemma udp_request_wire_witness :
  serialize ReqConnect 7 (replicate 20 255)
  = (concat (request_parts ReqConnect 7) ++ [255; 255; 255; 255], Ok 16%nat).
Proof. apply (udp_request_wire ReqConnect 7 (replicate 20 255)); [exact I|vm_compute; lia]. Defined.

(** ** Responses *)

Lemma parse_num_app n z rest :
  is_uint (8 * Z.of_nat n) z -> parse_num n (to_be_bytes n z ++ rest) = Ok (z, rest).
Proof.
  intros Hz. unfold parse_num, split_slice.
  rewrite (proj2 (Nat.ltb_ge _ _)) by len.
  rewrite take_app_length', drop_app_length' by (by rewrite length_to_be_bytes).
  by rewrite (from_to_be_bytes n (8 * Z.of_nat n)).
Qed.

Lemma parse_num_Ok n buf z rest :
  is_bytes buf -> parse_num n buf = Ok (z, rest) ->
  buf = to_be_bytes n z ++ rest /\ is_uint (8 * Z.of_nat n) z /\ is_bytes rest.
Proof.
  intros Hb. unfold parse_num, split_slice. destruct (Nat.ltb_spec (length buf) n); [done|].
  intros [= <- <-].
  assert (Hl : length (take n buf) = n) by (rewrite length_take; lia).
  assert (Hbt : is_bytes (take n buf)) by (by apply Forall_take).
  split_and!.
  - rewrite <- Hl at 1. rewrite to_from_be_bytes by done. by rewrite take_drop.
  - pose proof (from_be_bytes_range _ Hbt) as R. rewrite Hl, pow256 in R. done.
  - by apply Forall_drop.
Qed.

Lemma parse_num_None n buf : (length buf < n)%nat -> parse_num n buf = Err (ExpectedBytes n).
Proof. intros. unfold parse_num, split_slice. by rewrite (proj2 (Nat.ltb_lt _ _)) by done. Qed.

(** The compact form of an address. *)
Definition addr_bytes (a : SocketAddr) : bytes :=
  match a with
  | SockV4 ip port => to_be_bytes 4 ip ++ to_be_bytes 2 port
  | SockV6 ip port _ _ => to_be_bytes 16 ip ++ to_be_bytes 2 port
  end.

(** An address as the parser makes it. *)
Definition addr_ok (is_ipv6 : bool) (a : SocketAddr) : Prop :=
  match a with
  | SockV4 ip port => is_ipv6 = false /\ is_u32 ip /\ is_u16 port
  | SockV6 ip port flow scope => is_ipv6 = true /\ is_uint 128 ip /\ is_u16 port /\ flow = 0 /\ scope = 0
  end.

Lemma addr_bytes_cons a rest : exists b l, addr_bytes a ++ rest = b :: l.
Proof. destruct a; cbn; by eexists _, _. Qed.

Lemma parse_addrs_encode fuel v6 addrs :
  Forall (addr_ok v6) addrs -> (length addrs <= fuel)%nat ->
  parse_addrs fuel v6 (concat (addr_bytes <$> addrs)) = Some (Ok addrs).
Proof.
  intros Ha. revert fuel. induction Ha as [|a addrs Ha _ IH]; intros fuel Hf; [by destruct fuel|].
  cbn [fmap list_fmap concat length] in *. destruct fuel as [|fuel]; [lia|].
  destruct (addr_bytes_cons a (concat (addr_bytes <$> addrs))) as (b & l & E).
  cbn [parse_addrs]. rewrite E. cbn beta iota. rewrite <- E.
  destruct a as [ip port|ip port flow scope]; cbn [addr_ok addr_bytes] in *.
  - destruct Ha as (-> & Hip & Hp). rewrite <- app_assoc, parse_num_app, parse_num_app by done.
    by rewrite IH by lia.
  - destruct Ha as (-> & Hip & Hp & -> & ->). rewrite <- app_assoc, parse_num_app, parse_num_app by done.
    by rewrite IH by lia.
Qed.

Lemma parse_num_shorter n buf z rest : (0 < n)%nat -> parse_num n buf = Ok (z, rest) -> (length rest < length buf)%nat.
Proof.
  unfold parse_num, split_slice. destruct (Nat.ltb_spec (length buf) n); [done|].
  intros ? [= _ <-]. rewrite length_drop. lia.
Qed.

Lemma parse_addrs_total fuel v6 b :
  is_bytes b -> (length b <= fuel)%nat ->
  exists r, parse_addrs fuel v6 b = Some r
    /\ forall addrs, r = Ok addrs -> b = concat (addr_bytes <$> addrs) /\ Forall (addr_ok v6) addrs.
Proof.
  revert b. induction fuel as [|fuel IH]; intros b Hb Hf.
  - destruct b; [|cbn in Hf; lia]. eexists. split; [done|]. by intros addrs [= <-].
  - destruct b as [|x b0]; [eexists; split; [done|]; by intros addrs [= <-]|].
    cbn [parse_addrs]. remember (x :: b0) as b eqn:Eb. clear Eb x b0.
    destruct (parse_num (if v6 then 16 else 4) b) as [[ip b1]|e] eqn:E1; [|by eexists].
    assert (Hsz : (0 < (if v6 then 16 else 4))%nat) by (destruct v6; lia).
    pose proof (parse_num_shorter _ _ _ _ Hsz E1). apply parse_num_Ok in E1 as (-> & Hip & Hb1); [|done].
    destruct (parse_num 2 b1) as [[port b2]|e] eqn:E2; [|by eexists].
    pose proof (parse_num_shorter _ _ _ _ Nat.lt_0_2 E2). apply parse_num_Ok in E2 as (-> & Hp & Hb2); [|done].
    destruct (IH b2 Hb2) as (r & -> & Hr); [lia|]. destruct r as [addrs|e]; [|by eexists].
    eexists. split; [done|]. intros ? [= <-]. destruct (Hr addrs eq_refl) as [-> Ha].
    destruct v6; cbn [sock_new fmap list_fmap concat addr_bytes]; rewrite <- !app_assoc; (split; [done|]);
      constructor; done.
Qed.

(** A response as BEP 15 lays it out. *)
Definition response_bytes (tid : Z) (r : Response) : bytes :=
  match r with
  | RespConnect cid => to_be_bytes 4 ACTION_CONNECT ++ to_be_bytes 4 tid ++ to_be_bytes 8 cid
  | RespAnnounce a =>
    to_be_bytes 4 ACTION_ANNOUNCE ++ to_be_bytes 4 tid ++ to_be_bytes 4 (ar_interval a)
      ++ to_be_bytes 4 (ar_leechers a) ++ to_be_bytes 4 (ar_seeders a) ++ concat (addr_bytes <$> ar_addrs a)
  | _ => []
  end.

Definition response_ok (is_ipv6 : bool) (r : Response) : Prop :=
  match r with
  | RespConnect cid => is_u64 cid
  | RespAnnounce a =>
    is_u32 (ar_interval a) /\ is_u32 (ar_leechers a) /\ is_u32 (ar_seeders a)
    /\ Forall (addr_ok is_ipv6) (ar_addrs a)
  | _ => False
  end.

Lemma concat_length_ge (addrs : list SocketAddr) : (length addrs <= length (concat (addr_bytes <$> addrs)))%nat.
Proof.
  induction addrs as [|a addrs IH]; [done|]. cbn [fmap list_fmap concat length]. rewrite length_app.
  assert (1 <= length (addr_bytes a))%nat; [|cbn in *; lia].
  destruct a; cbn [addr_bytes]; rewrite length_app, !length_to_be_bytes; lia.
Qed.

Lemma parse_encode fuel tid v6 r :
  is_u32 tid -> response_ok v6 r -> (length (response_bytes tid r) <= fuel)%nat ->
  parse fuel (response_bytes tid r) v6 = Some (Ok (tid, r)).
Proof.
  intros Ht Hr Hf. unfold parse, parse_response. destruct r as [cid|[i l s addrs]| |]; try done; cbn [response_bytes] in *.
  - rewrite !parse_num_app by done. cbn [ACTION_CONNECT Z.eqb].
    rewrite <- (app_nil_r (to_be_bytes 8 cid)), parse_num_app by done. done.
  - cbn in Hr. destruct Hr as (Hi & Hl & Hs & Ha). rewrite !parse_num_app by done.
    change (ACTION_ANNOUNCE =? ACTION_CONNECT) with false. change (ACTION_ANNOUNCE =? ACTION_ANNOUNCE) with true.
    cbn [ar_interval ar_leechers ar_seeders ar_addrs] in *. cbn beta iota. rewrite ?parse_num_app by done.
    rewrite parse_addrs_encode; [done|done|]. pose proof (concat_length_ge addrs).
    rewrite !length_app in Hf. lia.
Qed.

(** Parsing a tracker's datagram is total: it ends, and fails exactly when
    the datagram is shorter than its eight-byte header. It yields a connect or
    announce response exactly when the datagram is the BEP 15 encoding of that
    response, to the last byte (so a truncated address list is never
    half-read); a damaged body is reported as unknown, with its transaction. *)
Theorem udp_response_parse_correct (fuel : nat) (buf : bytes) (is_ipv6 : bool) :
  is_bytes buf -> (length buf <= fuel)%nat ->
  exists res, parse fuel buf is_ipv6 = Some res
    /\ ((length buf < 8)%nat <-> exists e, res = Err e)
    /\ forall tid r, (exists cid, r = RespConnect cid) \/ (exists a, r = RespAnnounce a) ->
         res = Ok (tid, r) <-> is_u32 tid /\ response_ok is_ipv6 r /\ buf = response_bytes tid r.
Proof.
  intros Hb Hf.
  assert (Henc : forall tid r res, parse fuel buf is_ipv6 = Some res ->
    is_u32 tid /\ response_ok is_ipv6 r /\ buf = response_bytes tid r -> res = Ok (tid, r)).
  { intros tid r res Hp (Ht & Hr & ->). rewrite parse_encode in Hp by done. congruence. }
  unfold parse in *. destruct (parse_num 4 buf) as [[action b1]|e] eqn:E1; cycle 1.
  { eexists. split; [done|]. split.
    - split; [by eexists|]. intros _. unfold parse_num, split_slice in E1.
      destruct (Nat.ltb_spec (length buf) 4); [lia|done].
    - intros tid r _. split; [done|]. by apply Henc. }
  pose proof (parse_num_Ok _ _ _ _ Hb E1) as (Eb & Ha & Hb1).
  destruct (parse_num 4 b1) as [[tid0 b2]|e] eqn:E2; cycle 1.
  { eexists. split; [done|]. split.
    - split; [by eexists|]. intros _. unfold parse_num, split_slice in E2.
      destruct (Nat.ltb_spec (length b1) 4); [|done]. rewrite Eb, length_app, length_to_be_bytes. lia.
    - intros tid r _. split; [done|]. by apply Henc. }
  pose proof (parse_num_Ok _ _ _ _ Hb1 E2) as (Eb1 & Ht0 & Hb2).
  assert (Hlen : (8 + length b2 = length buf)%nat)
    by (rewrite Eb, Eb1, !length_app, !length_to_be_bytes; lia).
  assert (Hresp : exists rr, parse_response fuel action is_ipv6 b2 = Some rr
    /\ forall r, rr = Ok r -> (exists cid, r = RespConnect cid) \/ (exists a, r = RespAnnounce a) ->
         response_ok is_ipv6 r /\ buf = response_bytes tid0 r).
  { rewrite Eb, Eb1. unfold parse_response. destruct (Z.eqb_spec action ACTION_CONNECT) as [->|].
    { destruct (parse_num 8 b2) as [[cid b3]|e] eqn:E3; [|by eexists].
      pose proof (parse_num_Ok _ _ _ _ Hb2 E3) as (-> & Hc & _). destruct b3; [|by eexists].
      eexists. split; [done|]. intros r [= <-] _. split; [done|].
      unfold response_bytes. by rewrite app_nil_r. }
    destruct (Z.eqb_spec action ACTION_ANNOUNCE) as [->|].
    { destruct (parse_num 4 b2) as [[i b3]|e] eqn:E3; [|by eexists].
      pose proof (parse_num_Ok _ _ _ _ Hb2 E3) as (-> & Hi & Hb3).
      destruct (parse_num 4 b3) as [[l b4]|e] eqn:E4; [|by eexists].
      pose proof (parse_num_Ok _ _ _ _ Hb3 E4) as (-> & Hl & Hb4).
      destruct (parse_num 4 b4) as [[s b5]|e] eqn:E5; [|by eexists].
      pose proof (parse_num_Ok _ _ _ _ Hb4 E5) as (-> & Hs & Hb5).
      destruct (parse_addrs_total fuel is_ipv6 b5 Hb5) as (ra & -> & Hra).
      { rewrite !length_app in Hlen. lia. }
      destruct ra as [addrs|e]; [|by eexists]. destruct (Hra addrs eq_refl) as [-> Haddr].
      eexists. split; [done|]. intros r [= <-] _. by split. }
    destruct (Z.eqb_spec action ACTION_ERROR); [|by eexists].
    eexists. split; [done|]. intros r [= <-] [[? [=]]|[? [=]]]. }
  destruct Hresp as (rr & Er & Hrr). rewrite Er in *. destruct rr as [r0|e].
  - eexists. split; [done|]. split; [split; [lia|by intros [? ?]]|]. intros tid r Hr. split; [|by apply Henc].
    intros [= <- <-]. split; [done|]. by apply Hrr.
  - eexists. split; [done|]. split; [split; [lia|by intros [? ?]]|]. intros tid r Hr. split; [|by apply Henc].
    intros [= _ <-]. by destruct Hr as [[? [=]]|[? [=]]].
Qed.

Lemma udp_response_parse_correct_witness :
  parse 40 (response_bytes 5 (RespAnnounce (mkAnnounceResponse 60 1 2 [SockV4 1 2; SockV4 3 4]))) false
  = Some (Ok (5, RespAnnounce (mkAnnounceResponse 60 1 2 [SockV4 1 2; SockV4 3 4]))).
Proof.
  destruct (udp_response_parse_correct 40
    (response_bytes 5 (RespAnnounce (mkAnnounceResponse 60 1 2 [SockV4 1 2; SockV4 3 4]))) false)
    as (res & E & _ & H).
  - apply (bool_decide_unpack _). vm_compute. exact I.
  - vm_compute. lia.
  - rewrite E. f_equal. apply H; [right; by eexists|]. unfold response_ok, is_uint. cbn [ar_interval ar_leechers ar_seeders ar_addrs].
    split; [lia|]. split; [|reflexivity]. split; [lia|]. split; [lia|]. split; [lia|].
    constructor; [|constructor; [|constructor]]; (split; [reflexivity|]); unfold is_uint; lia.
Defined.
