(* ===== verification/CompactIp.v ===== *)
(** * Compact addresses ([librqbit_core::compact_ip])

    The trait [CompactSerialize] is a type class here, with its laws in a second
    class: the list functions are written and proved against the classes, and
    the address types are instances. *)

From Stdlib Require Import ZArith Lia.
From stdpp Require Import base tactics option list list_numbers numbers decidable sets.
From S2P Require Import Prelude Net HashId.
Open Scope Z_scope.

(** ** [SmallSlice<N>] *)

Record SmallSlice := mkSmall {
  ss_data : bytes;
  ss_len : nat
}.

Definition SmallSlice_new (n : nat) : SmallSlice := mkSmall (replicate n 0) 0.

(** [data[len..len + buf.len()].copy_from_slice(buf)]: a panic when out of range. *)
Definition SmallSlice_extend (s : SmallSlice) (buf : bytes) : outcome SmallSlice :=
  let e := (ss_len s + length buf)%nat in
  if (length (ss_data s) <? e)%nat then Panic
  else Ret (mkSmall (take (ss_len s) (ss_data s) ++ buf ++ drop e (ss_data s)) e).

Definition SmallSlice_new_from_buf (n : nat) (buf : bytes) : outcome SmallSlice :=
  SmallSlice_extend (SmallSlice_new n) buf.

Definition SmallSlice_as_slice (s : SmallSlice) : bytes := take (ss_len s) (ss_data s).

(** ** The traits *)

Class CompactSerialize (T : Type) := {
  as_slice : T -> outcome bytes;
  from_slice : bytes -> outcome (option T);
  from_slice_unchecked_len : bytes -> outcome T
}.

Class CompactSerializeFixedLen (T : Type) := fixed_len : nat.
#[global] Arguments fixed_len T {_}.

(** What the list functions rely on: values of [compact_valid] have an encoding
    of [fixed_len] bytes; [compact_norm] is what the encoding keeps of a value,
    and exactly the byte strings of that length are encodings. *)
Class CompactLaws (T : Type) `{CompactSerialize T, CompactSerializeFixedLen T} := {
  compact_valid : T -> Prop;
  compact_norm : T -> T;
  fixed_len_pos : (0 < fixed_len T)%nat;
  as_slice_len x : compact_valid x -> exists b, as_slice x = Ret b /\ length b = fixed_len T /\ is_bytes b;
  unchecked_as_slice x b : compact_valid x -> as_slice x = Ret b ->
    from_slice_unchecked_len b = Ret (compact_norm x);
  unchecked_total b : length b = fixed_len T -> is_bytes b ->
    exists x, from_slice_unchecked_len b = Ret x /\ compact_valid x /\ compact_norm x = x /\ as_slice x = Ret b
}.

(** [TryInto::<[u8; n]>::try_into(buf).unwrap()]. *)
Definition to_array (n : nat) (buf : bytes) : outcome bytes :=
  if (length buf =? n)%nat then Ret buf else Panic.

(** ** Addresses *)

Record Ipv4Addr := mkV4 { v4_bits : Z }.
Record Ipv6Addr := mkV6 { v6_bits : Z }.
Record SocketAddrV4 := mkSock4 { s4_ip : Ipv4Addr; s4_port : Z }.
Record SocketAddrV6 := mkSock6 { s6_ip : Ipv6Addr; s6_port : Z; s6_flowinfo : Z; s6_scope_id : Z }.

Definition v4_from_slice_unchecked_len (buf : bytes) : outcome Ipv4Addr :=
  b ← to_array 4 buf; Ret (mkV4 (from_be_bytes b)).

Definition v4_from_slice (buf : bytes) : outcome (option Ipv4Addr) :=
  match slice_get buf 0 4 with
  | None => Ret None
  | Some s => b ← to_array 4 s; Ret (Some (mkV4 (from_be_bytes b)))
  end.

#[export] Instance CompactSerialize_Ipv4Addr : CompactSerialize Ipv4Addr := {
  as_slice a := Ret (to_be_bytes 4 (v4_bits a));
  from_slice := v4_from_slice;
  from_slice_unchecked_len := v4_from_slice_unchecked_len
}.
#[export] Instance FixedLen_Ipv4Addr : CompactSerializeFixedLen Ipv4Addr := 4%nat.

Definition v6_from_slice_unchecked_len (buf : bytes) : outcome Ipv6Addr :=
  b ← to_array 16 buf; Ret (mkV6 (from_be_bytes b)).

Definition v6_from_slice (buf : bytes) : outcome (option Ipv6Addr) :=
  match slice_get buf 0 16 with
  | None => Ret None
  | Some s => b ← to_array 16 s; Ret (Some (mkV6 (from_be_bytes b)))
  end.

#[export] Instance CompactSerialize_Ipv6Addr : CompactSerialize Ipv6Addr := {
  as_slice a := Ret (to_be_bytes 16 (v6_bits a));
  from_slice := v6_from_slice;
  from_slice_unchecked_len := v6_from_slice_unchecked_len
}.
#[export] Instance FixedLen_Ipv6Addr : CompactSerializeFixedLen Ipv6Addr := 16%nat.

Definition ip_as_slice (a : IpAddr) : outcome bytes :=
  s ← (match a with
       | IpV4 b => x ← as_slice (mkV4 b); SmallSlice_new_from_buf 16 x
       | IpV6 b => x ← as_slice (mkV6 b); SmallSlice_new_from_buf 16 x
       end);
  Ret (SmallSlice_as_slice s).

Definition ip_from_slice (buf : bytes) : outcome (option IpAddr) :=
  if (length buf =? 4)%nat then a ← v4_from_slice_unchecked_len buf; Ret (Some (IpV4 (v4_bits a)))
  else if (length buf =? 16)%nat then a ← v6_from_slice_unchecked_len buf; Ret (Some (IpV6 (v6_bits a)))
  else Ret None.

(** The default [from_slice_unchecked_len]: [from_slice(buf).unwrap()]. *)
Definition unwrap_slice {T} (f : bytes -> outcome (option T)) (buf : bytes) : outcome T :=
  o ← f buf; match o with Some x => Ret x | None => Panic end.

#[export] Instance CompactSerialize_IpAddr : CompactSerialize IpAddr := {
  as_slice := ip_as_slice;
  from_slice := ip_from_slice;
  from_slice_unchecked_len := unwrap_slice ip_from_slice
}.

Definition s4_as_slice (a : SocketAddrV4) : outcome bytes :=
  Ret (to_be_bytes 4 (v4_bits (s4_ip a)) ++ to_be_bytes 2 (s4_port a)).

(** [&buf[..4]], [buf[4]], [buf[5]] panic when out of range. *)
Definition s4_from_slice_unchecked_len (buf : bytes) : outcome SocketAddrV4 :=
  s ← (match slice_get buf 0 4 with Some s => Ret s | None => Panic end);
  ip ← v4_from_slice_unchecked_len s;
  a ← index buf 4;
  b ← index buf 5;
  Ret (mkSock4 ip (from_be_bytes [a; b])).

Definition s4_from_slice (buf : bytes) : outcome (option SocketAddrV4) :=
  if negb (length buf =? 6)%nat then Ret None
  else Some <$> s4_from_slice_unchecked_len buf.

#[export] Instance CompactSerialize_SocketAddrV4 : CompactSerialize SocketAddrV4 := {
  as_slice := s4_as_slice;
  from_slice := s4_from_slice;
  from_slice_unchecked_len := s4_from_slice_unchecked_len
}.
#[export] Instance FixedLen_SocketAddrV4 : CompactSerializeFixedLen SocketAddrV4 := 6%nat.

Definition s6_as_slice (a : SocketAddrV6) : outcome bytes :=
  Ret (to_be_bytes 16 (v6_bits (s6_ip a)) ++ to_be_bytes 2 (s6_port a)).

Definition s6_from_slice_unchecked_len (buf : bytes) : outcome SocketAddrV6 :=
  s ← (match slice_get buf 0 16 with Some s => Ret s | None => Panic end);
  ip ← v6_from_slice_unchecked_len s;
  a ← index buf 16;
  b ← index buf 17;
  Ret (mkSock6 ip (from_be_bytes [a; b]) 0 0).

Definition s6_from_slice (buf : bytes) : outcome (option SocketAddrV6) :=
  if negb (length buf =? 18)%nat then Ret None
  else Some <$> s6_from_slice_unchecked_len buf.

#[export] Instance CompactSerialize_SocketAddrV6 : CompactSerialize SocketAddrV6 := {
  as_slice := s6_as_slice;
  from_slice := s6_from_slice;
  from_slice_unchecked_len := s6_from_slice_unchecked_len
}.
#[export] Instance FixedLen_SocketAddrV6 : CompactSerializeFixedLen SocketAddrV6 := 18%nat.

Definition sock_as_slice (a : SocketAddr) : outcome bytes :=
  ip ← ip_as_slice (sock_ip a);
  s ← SmallSlice_new_from_buf 18 ip;
  s ← SmallSlice_extend s (to_be_bytes 2 (sock_port a));
  Ret (SmallSlice_as_slice s).

Definition sock_from_slice (buf : bytes) : outcome (option SocketAddr) :=
  if (length buf =? 6)%nat then
    a ← s4_from_slice_unchecked_len buf; Ret (Some (SockV4 (v4_bits (s4_ip a)) (s4_port a)))
  else if (length buf =? 18)%nat then
    a ← s6_from_slice_unchecked_len buf;
    Ret (Some (SockV6 (v6_bits (s6_ip a)) (s6_port a) (s6_flowinfo a) (s6_scope_id a)))
  else Ret None.

#[export] Instance CompactSerialize_SocketAddr : CompactSerialize SocketAddr := {
  as_slice := sock_as_slice;
  from_slice := sock_from_slice;
  from_slice_unchecked_len := unwrap_slice sock_from_slice
}.

(** ** Lists in a buffer *)

(** [chunks_exact(n)]. *)
Fixpoint chunks_exact (fuel n : nat) (buf : bytes) : list bytes :=
  match fuel with
  | O => []
  | S fuel => if (length buf <? n)%nat then [] else take n buf :: chunks_exact fuel n (drop n buf)
  end.

Fixpoint traverse {A B} (f : A -> outcome B) (xs : list A) : outcome (list B) :=
  match xs with
  | [] => Ret []
  | x :: xs => y ← f x; ys ← traverse f xs; Ret (y :: ys)
  end.

Section Lists.
Context (T : Type) `{CompactSerialize T, CompactSerializeFixedLen T}.

Definition new_from_iter (items : list T) : outcome bytes :=
  foldM (fun b item => s ← as_slice item; Ret (b ++ s)) [] items.

Definition compact_iter (buf : bytes) : outcome (list T) :=
  traverse from_slice_unchecked_len (chunks_exact (length buf) (fixed_len T) buf).

Definition compact_get (buf : bytes) (idx : Z) : outcome (option T) :=
  let offset := u64 (idx * Z.of_nat (fixed_len T)) in
  let e := u64 (offset + Z.of_nat (fixed_len T)) in
  match slice_get buf (Z.to_nat offset) (Z.to_nat e) with
  | None => Ret None
  | Some b => Some <$> from_slice_unchecked_len b
  end.

(** The check of [Deserialize]: [None] is [invalid_length]. *)
Definition compact_deserialize (buf : bytes) : option bytes :=
  if negb (length buf mod fixed_len T =? 0)%nat then None else Some buf.
End Lists.

(** ** The address types keep the laws *)

Lemma to_array_ok n b : length b = n -> to_array n b = Ret b.
Proof. intros. unfold to_array. by rewrite (proj2 (Nat.eqb_eq _ _)). Qed.

(** A big-endian integer of [n] bytes, as an address of [n] bytes is. *)
Lemma uint_bytes n z :
  is_uint (8 * Z.of_nat n) z ->
  length (to_be_bytes n z) = n /\ is_bytes (to_be_bytes n z) /\ from_be_bytes (to_be_bytes n z) = z.
Proof.
  intros Hz. split_and!; [apply length_to_be_bytes|apply to_be_bytes_is_bytes|].
  by apply (from_to_be_bytes n (8 * Z.of_nat n)).
Qed.

Lemma bytes_uint n b :
  length b = n -> is_bytes b ->
  is_uint (8 * Z.of_nat n) (from_be_bytes b) /\ to_be_bytes n (from_be_bytes b) = b.
Proof.
  intros <- Hb. split; [|by apply to_from_be_bytes].
  pose proof (from_be_bytes_range b Hb) as R. by rewrite pow256 in R.
Qed.

#[export] Program Instance CompactLaws_Ipv4Addr : CompactLaws Ipv4Addr := {
  compact_valid a := is_u32 (v4_bits a);
  compact_norm a := a
}.
Next Obligation. unfold fixed_len, FixedLen_Ipv4Addr. lia. Qed.
Next Obligation.
  intros [z] Hz. destruct (uint_bytes 4 z Hz) as (Hl & Hb & _). eexists. split; [reflexivity|]. by split.
Qed.
Next Obligation.
  intros [z] b Hz Ea. change (Ret (to_be_bytes 4 z) = Ret b) in Ea. assert (b = to_be_bytes 4 z) as -> by congruence.
  destruct (uint_bytes 4 z Hz) as (Hl & Hb & E).
  cbn [from_slice_unchecked_len CompactSerialize_Ipv4Addr v4_bits]. unfold v4_from_slice_unchecked_len.
  rewrite to_array_ok by done. run. by rewrite E.
Qed.
Next Obligation.
  intros b Hl Hb. destruct (bytes_uint 4 b Hl Hb) as [Hr E]. exists (mkV4 (from_be_bytes b)).
  cbn [from_slice_unchecked_len CompactSerialize_Ipv4Addr as_slice v4_bits].
  unfold v4_from_slice_unchecked_len. rewrite to_array_ok, E by done. by split_and!.
Qed.

#[export] Program Instance CompactLaws_Ipv6Addr : CompactLaws Ipv6Addr := {
  compact_valid a := is_uint 128 (v6_bits a);
  compact_norm a := a
}.
Next Obligation. unfold fixed_len, FixedLen_Ipv6Addr. lia. Qed.
Next Obligation.
  intros [z] Hz. destruct (uint_bytes 16 z Hz) as (Hl & Hb & _). eexists. split; [reflexivity|]. by split.
Qed.
Next Obligation.
  intros [z] b Hz Ea. change (Ret (to_be_bytes 16 z) = Ret b) in Ea. assert (b = to_be_bytes 16 z) as -> by congruence.
  destruct (uint_bytes 16 z Hz) as (Hl & Hb & E).
  cbn [from_slice_unchecked_len CompactSerialize_Ipv6Addr v6_bits]. unfold v6_from_slice_unchecked_len.
  rewrite to_array_ok by done. run. by rewrite E.
Qed.
Next Obligation.
  intros b Hl Hb. destruct (bytes_uint 16 b Hl Hb) as [Hr E]. exists (mkV6 (from_be_bytes b)).
  cbn [from_slice_unchecked_len CompactSerialize_Ipv6Addr as_slice v6_bits].
  unfold v6_from_slice_unchecked_len. rewrite to_array_ok, E by done. by split_and!.
Qed.

(** The last two bytes of [n + 2] are the port. *)
Lemma port_split n b :
  length b = (n + 2)%nat -> is_bytes b ->
  exists ipb x y, b = ipb ++ [x; y] /\ length ipb = n /\ is_bytes ipb /\ is_bytes [x; y]
    /\ slice_get b 0 n = Some ipb /\ index b n = Ret x /\ index b (S n) = Ret y.
Proof.
  intros Hl Hb. assert (Ht : length (take n b) = n) by (rewrite length_take; lia).
  assert (Hd : length (drop n b) = 2%nat) by (rewrite length_drop; lia).
  destruct (drop n b) as [|x [|y [|]]] eqn:E; try done.
  assert (Eb : b = take n b ++ [x; y]) by (by rewrite <- E, take_drop).
  exists (take n b), x, y. split; [done|]. split; [done|]. split; [by apply Forall_take|].
  split; [rewrite <- E; by apply Forall_drop|]. split_and!.
  - apply slice_get_Some. rewrite drop_0, Nat.sub_0_r. split; [lia|done].
  - apply index_Ret. rewrite Eb, lookup_app_r, Ht, Nat.sub_diag by lia. done.
  - apply index_Ret. rewrite Eb, lookup_app_r, Ht by lia. by replace (S n - n)%nat with 1%nat by lia.
Qed.

Lemma ip_port_bytes n ip port :
  is_uint (8 * Z.of_nat n) ip -> is_u16 port ->
  exists x y, to_be_bytes 2 port = [x; y] /\ from_be_bytes [x; y] = port
    /\ length (to_be_bytes n ip ++ [x; y]) = (n + 2)%nat /\ is_bytes (to_be_bytes n ip ++ [x; y])
    /\ slice_get (to_be_bytes n ip ++ [x; y]) 0 n = Some (to_be_bytes n ip)
    /\ index (to_be_bytes n ip ++ [x; y]) n = Ret x /\ index (to_be_bytes n ip ++ [x; y]) (S n) = Ret y.
Proof.
  intros Hip Hp. destruct (uint_bytes n ip Hip) as (Hl & Hb & _). destruct (uint_bytes 2 port Hp) as (Hl2 & Hb2 & E2).
  destruct (to_be_bytes 2 port) as [|x [|y [|]]] eqn:Ep; try done.
  assert (Hlen : length (to_be_bytes n ip ++ [x; y]) = (n + 2)%nat) by (rewrite length_app, Hl; done).
  assert (Hbs : is_bytes (to_be_bytes n ip ++ [x; y])) by (by apply Forall_app).
  exists x, y. split_and!; try done.
  - apply slice_get_Some. rewrite drop_0, Nat.sub_0_r, take_app_length' by done. split; [lia|done].
  - apply index_Ret. by rewrite lookup_app_r, Hl, Nat.sub_diag by lia.
  - apply index_Ret. rewrite lookup_app_r, Hl by lia. by replace (S n - n)%nat with 1%nat by lia.
Qed.

Lemma s4_unchecked_encode ip port :
  is_u32 ip -> is_u16 port ->
  s4_from_slice_unchecked_len (to_be_bytes 4 ip ++ to_be_bytes 2 port) = Ret (mkSock4 (mkV4 ip) port).
Proof.
  intros Hip Hp. destruct (ip_port_bytes 4 ip port Hip Hp) as (x & y & -> & Ep & _ & _ & Hs & Hx & Hy).
  unfold s4_from_slice_unchecked_len. rewrite Hs. run. unfold v4_from_slice_unchecked_len.
  destruct (uint_bytes 4 ip Hip) as (Hl & _ & E). rewrite to_array_ok by done. run.
  rewrite E, Hx, Hy. run. by rewrite Ep.
Qed.

Lemma s6_unchecked_encode ip port :
  is_uint 128 ip -> is_u16 port ->
  s6_from_slice_unchecked_len (to_be_bytes 16 ip ++ to_be_bytes 2 port) = Ret (mkSock6 (mkV6 ip) port 0 0).
Proof.
  intros Hip Hp. destruct (ip_port_bytes 16 ip port Hip Hp) as (x & y & -> & Ep & _ & _ & Hs & Hx & Hy).
  unfold s6_from_slice_unchecked_len. rewrite Hs. run. unfold v6_from_slice_unchecked_len.
  destruct (uint_bytes 16 ip Hip) as (Hl & _ & E). rewrite to_array_ok by done. run.
  rewrite E, Hx, Hy. run. by rewrite Ep.
Qed.

(** Every byte string of [n + 2] bytes is an address and a port. *)
Lemma bytes_ip_port n b :
  length b = (n + 2)%nat -> is_bytes b ->
  exists ip port, is_uint (8 * Z.of_nat n) ip /\ is_u16 port /\ b = to_be_bytes n ip ++ to_be_bytes 2 port.
Proof.
  intros Hl Hb. destruct (port_split n b Hl Hb) as (ipb & x & y & -> & Hlen & Hip & Hxy & _).
  exists (from_be_bytes ipb), (from_be_bytes [x; y]).
  destruct (bytes_uint n ipb Hlen Hip) as [? ->]. destruct (bytes_uint 2 [x; y] eq_refl Hxy) as [? ->]. done.
Qed.

#[export] Program Instance CompactLaws_SocketAddrV4 : CompactLaws SocketAddrV4 := {
  compact_valid a := is_u32 (v4_bits (s4_ip a)) /\ is_u16 (s4_port a);
  compact_norm a := a
}.
Next Obligation. unfold fixed_len, FixedLen_SocketAddrV4. lia. Qed.
Next Obligation.
  intros [[ip] port] [Hip Hp]. cbn [v4_bits s4_ip s4_port] in *. eexists. split; [reflexivity|].
  destruct (ip_port_bytes 4 ip port Hip Hp) as (x & y & E & _ & Hl & Hb & _). cbn [v4_bits s4_ip s4_port].
  by rewrite E.
Qed.
Next Obligation. intros [[ip] port] b [Hip Hp] [= <-]. by apply s4_unchecked_encode. Qed.
Next Obligation.
  intros b Hl Hb. destruct (bytes_ip_port 4 b Hl Hb) as (ip & port & Hip & Hp & ->).
  exists (mkSock4 (mkV4 ip) port). split_and!; try done. by apply s4_unchecked_encode.
Qed.

(** The flow and the scope of an IPv6 socket address are not sent. *)
#[export] Program Instance CompactLaws_SocketAddrV6 : CompactLaws SocketAddrV6 := {
  compact_valid a := is_uint 128 (v6_bits (s6_ip a)) /\ is_u16 (s6_port a);
  compact_norm a := mkSock6 (s6_ip a) (s6_port a) 0 0
}.
Next Obligation. unfold fixed_len, FixedLen_SocketAddrV6. lia. Qed.
Next Obligation.
  intros [[ip] port fl sc] [Hip Hp]. cbn [v6_bits s6_ip s6_port] in *. eexists. split; [reflexivity|].
  destruct (ip_port_bytes 16 ip port Hip Hp) as (x & y & E & _ & Hl & Hb & _). cbn [v6_bits s6_ip s6_port].
  by rewrite E.
Qed.
Next Obligation. intros [[ip] port fl sc] b [Hip Hp] [= <-]. by apply s6_unchecked_encode. Qed.
Next Obligation.
  intros b Hl Hb. destruct (bytes_ip_port 16 b Hl Hb) as (ip & port & Hip & Hp & ->).
  exists (mkSock6 (mkV6 ip) port 0 0). split_and!; try done. by apply s6_unchecked_encode.
Qed.

(** ** Lists of compact values, for any type that keeps the laws *)

Section ListProofs.
Context {T : Type} `{Laws : CompactLaws T}.
Let n := fixed_len T.

Lemma new_from_iter_app xs acc :
  Forall compact_valid xs ->
  exists bs, foldM (fun b item => s ← as_slice item; Ret (b ++ s)) acc xs = Ret (acc ++ concat bs)
    /\ Forall2 (fun (x : T) b => as_slice x = Ret b /\ length b = n /\ is_bytes b) xs bs.
Proof.
  intros Hv. revert acc. induction Hv as [|x xs Hx _ IH]; intros acc.
  - exists []. cbn. by rewrite app_nil_r.
  - cbn [foldM]. destruct (as_slice_len x Hx) as (b & Eb & Hl & Hb). rewrite Eb. run.
    destruct (IH (acc ++ b)) as (bs & -> & Hbs). exists (b :: bs). cbn [concat]. rewrite app_assoc.
    split; [done|]. by constructor.
Qed.

Lemma chunks_concat (bs : list bytes) fuel :
  Forall (fun b => length b = n) bs -> (length (concat bs) <= fuel)%nat ->
  chunks_exact fuel n (concat bs) = bs.
Proof.
  pose proof (fixed_len_pos (T := T)) as Hn. fold n in Hn. intros Hb. revert fuel.
  induction Hb as [|b bs Hb _ IH]; intros fuel Hf.
  - destruct fuel; [done|]. cbn [chunks_exact concat length]. by rewrite (proj2 (Nat.ltb_lt _ _)).
  - cbn [concat] in *. rewrite length_app in Hf. destruct fuel as [|fuel]; [lia|]. cbn [chunks_exact].
    rewrite (proj2 (Nat.ltb_ge _ _)) by (rewrite length_app; lia).
    rewrite take_app_length', drop_app_length' by done. f_equal. apply IH. lia.
Qed.

(** A buffer whose length is a multiple of [n] is a concatenation of chunks. *)
Lemma concat_chunks k (buf : bytes) :
  length buf = (k * n)%nat -> is_bytes buf ->
  exists bs, buf = concat bs /\ length bs = k /\ Forall (fun b => length b = n /\ is_bytes b) bs.
Proof.
  revert buf. induction k as [|k IH]; intros buf Hl Hb.
  - exists []. destruct buf; [done|cbn in Hl; lia].
  - destruct (IH (drop n buf)) as (bs & E & Hk & Hbs); [rewrite length_drop; lia|by apply Forall_drop|].
    exists (take n buf :: bs). cbn. rewrite <- E, take_drop. split_and!; [done|congruence|].
    constructor; [|done]. split; [rewrite length_take; lia|by apply Forall_take].
Qed.

Lemma traverse_Forall2 {A B} (f : A -> outcome B) xs ys :
  Forall2 (fun x y => f x = Ret y) xs ys -> traverse f xs = Ret ys.
Proof. induction 1 as [|x y xs ys E _ IH]; [done|]. cbn. rewrite E. cbn. by rewrite IH. Qed.

Lemma lookup_concat (bs : list bytes) i b :
  Forall (fun b => length b = n) bs -> bs !! i = Some b ->
  take n (drop (i * n) (concat bs)) = b /\ (i * n + n <= length (concat bs))%nat.
Proof.
  intros Hb. revert i. induction Hb as [|c bs Hc _ IH]; intros i Hi; [done|].
  cbn [concat]. rewrite length_app. destruct i as [|i].
  - cbn in Hi. injection Hi as ->. cbn. rewrite drop_0, take_app_length' by done. split; [done|lia].
  - destruct (IH i Hi) as [E Hl]. split; [|cbn; lia].
    replace (S i * n)%nat with (length c + i * n)%nat by (cbn; lia). by rewrite <- drop_drop, drop_app_length.
Qed.

Lemma length_concat_const (bs : list bytes) :
  Forall (fun b => length b = n) bs -> length (concat bs) = (length bs * n)%nat.
Proof. induction 1 as [|b bs Hb _ IH]; [done|]. cbn. rewrite length_app, IH. lia. Qed.

Lemma compact_get_spec (bs : list bytes) (i : Z) :
  Forall (fun b => length b = n) bs -> 0 <= i -> (i + 1) * Z.of_nat n < 2 ^ 64 ->
  compact_get T (concat bs) i
  = match bs !! Z.to_nat i with Some b => Some <$> from_slice_unchecked_len b | None => Ret None end.
Proof.
  intros Hb Hi Hlt. pose proof (fixed_len_pos (T := T)) as Hn. fold n in Hn. unfold compact_get. fold n.
  rewrite !wrap_id; rewrite ?wrap_id; try (unfold is_uint; nia).
  assert (E1 : Z.to_nat (i * Z.of_nat n) = (Z.to_nat i * n)%nat) by nia.
  assert (E2 : Z.to_nat (i * Z.of_nat n + Z.of_nat n) = (Z.to_nat i * n + n)%nat) by nia.
  rewrite E1, E2. unfold slice_get. rewrite (proj2 (Nat.leb_le _ _)) by lia. cbn [andb].
  replace (Z.to_nat i * n + n - Z.to_nat i * n)%nat with n by lia.
  destruct (bs !! Z.to_nat i) as [b|] eqn:E.
  - destruct (lookup_concat bs _ b Hb E) as [-> Hl]. by rewrite (proj2 (Nat.leb_le _ _)) by lia.
  - apply lookup_ge_None in E. rewrite (proj2 (Nat.leb_gt _ _)); [done|].
    rewrite length_concat_const by done. nia.
Qed.

Lemma compact_list_encode (xs : list T) :
  Forall compact_valid xs ->
  exists buf, new_from_iter T xs = Ret buf /\ is_bytes buf /\ length buf = (length xs * n)%nat
    /\ compact_deserialize T buf = Some buf
    /\ compact_iter T buf = Ret (compact_norm <$> xs)
    /\ forall i, 0 <= i -> (i + 1) * Z.of_nat n < 2 ^ 64 ->
         compact_get T buf i = Ret (compact_norm <$> xs !! Z.to_nat i).
Proof.
  intros Hv. destruct (new_from_iter_app xs [] Hv) as (bs & E & H2). exists (concat bs). split; [exact E|].
  assert (Hbs : Forall (fun b => length b = n) bs).
  { apply Forall_forall. intros b (i & Hi)%list_elem_of_lookup.
    destruct (Forall2_lookup_r _ _ _ _ _ H2 Hi) as (x & _ & _ & ? & _). done. }
  assert (Hlen : length bs = length xs) by (symmetry; by eapply Forall2_length).
  assert (Hdec : Forall2 (fun b (y : T) => from_slice_unchecked_len b = Ret y) bs (compact_norm <$> xs)).
  { apply Forall2_fmap_r. rewrite Forall_forall in Hv. clear E Hbs Hlen.
    induction H2 as [|x b xs bs (Ea & _ & _) _ IH]; [constructor|]. constructor.
    - apply unchecked_as_slice; [apply Hv; left|done].
    - apply IH. intros y Hy. apply Hv. by right. }
  split_and!.
  - apply Forall_concat. apply Forall_forall. intros b (i & Hi)%list_elem_of_lookup.
    destruct (Forall2_lookup_r _ _ _ _ _ H2 Hi) as (x & _ & _ & _ & ?). done.
  - by rewrite length_concat_const, Hlen.
  - unfold compact_deserialize. fold n. rewrite length_concat_const, Nat.Div0.mod_mul by done. done.
  - unfold compact_iter. fold n. rewrite chunks_concat by done. by apply traverse_Forall2.
  - intros i Hi Hlt. rewrite compact_get_spec by done.
    destruct (bs !! Z.to_nat i) as [b|] eqn:Eb.
    + destruct (Forall2_lookup_l _ _ _ _ _ Hdec Eb) as (y & Hy & ->). rewrite list_lookup_fmap in Hy.
      destruct (xs !! Z.to_nat i); [|done]. cbn in *. congruence.
    + apply lookup_ge_None in Eb. rewrite lookup_ge_None_2 by lia. done.
Qed.

Lemma compact_list_decode (buf : bytes) :
  is_bytes buf -> compact_deserialize T buf = Some buf ->
  exists xs, compact_iter T buf = Ret xs /\ Forall compact_valid xs /\ new_from_iter T xs = Ret buf.
Proof.
  intros Hb Hd. unfold compact_deserialize in Hd. fold n in Hd.
  destruct (Nat.eqb_spec (length buf mod n) 0) as [Hm|]; [|done].
  pose proof (fixed_len_pos (T := T)) as Hn. fold n in Hn.
  destruct (concat_chunks (length buf / n) buf) as (bs & -> & _ & Hbs); [|done|].
  { pose proof (Nat.div_mod (length buf) n). lia. }
  assert (Hl : Forall (fun b => length b = n) bs) by (eapply Forall_impl; [exact Hbs|]; by intros ? []).
  assert (Hex : exists xs, Forall2 (fun b (x : T) => from_slice_unchecked_len b = Ret x) bs xs
    /\ Forall compact_valid xs /\ forall acc, foldM (fun b item => s ← as_slice item; Ret (b ++ s)) acc xs
         = Ret (acc ++ concat bs)).
  { clear Hb Hd Hm Hl. induction Hbs as [|b bs [Hlb Hbb] _ (xs & H2 & Hv & Hf)].
    - exists []. split_and!; [constructor|constructor|]. intros acc. cbn. by rewrite app_nil_r.
    - destruct (unchecked_total b Hlb Hbb) as (x & Ex & Hx & _ & Ea). exists (x :: xs).
      split_and!; [by constructor|by constructor|]. intros acc. cbn [foldM]. rewrite Ea.
      cbn [mbind outcome_bind concat]. rewrite Hf. by rewrite app_assoc. }
  destruct Hex as (xs & H2 & Hv & Hf). exists xs. split_and!; [|done|apply (Hf [])].
  unfold compact_iter. fold n. rewrite chunks_concat by done. by apply traverse_Forall2.
Qed.
End ListProofs.

(** For every address type with a fixed compact length: a list of valid
    addresses is written without a panic, accepted back, iterated and indexed
    as the same addresses (without flow and scope), and every accepted buffer
    is the compact form of the addresses it is iterated as. *)
Theorem compact_list_roundtrip (T : Type) `{CompactLaws T} (xs : list T) (buf : bytes) :
  Forall compact_valid xs -> is_bytes buf -> compact_deserialize T buf = Some buf ->
  (exists b, new_from_iter T xs = Ret b /\ compact_deserialize T b = Some b
     /\ compact_iter T b = Ret (compact_norm <$> xs)
     /\ forall i, 0 <= i -> (i + 1) * Z.of_nat (fixed_len T) < 2 ^ 64 ->
          compact_get T b i = Ret (compact_norm <$> xs !! Z.to_nat i))
  /\ exists ys, compact_iter T buf = Ret ys /\ Forall compact_valid ys /\ new_from_iter T ys = Ret buf.
Proof.
  intros Hv Hb Hd. split; [|by apply compact_list_decode].
  destruct (compact_list_encode xs Hv) as (b & E & _ & _ & ? & ? & ?). by exists b.
Qed.

Lemma compact_list_roundtrip_witness :
  exists ys, compact_iter SocketAddrV6 (replicate 36 7) = Ret ys /\ length ys = 2%nat
    /\ new_from_iter SocketAddrV6 ys = Ret (replicate 36 7).
Proof.
  destruct (compact_list_roundtrip SocketAddrV6 [mkSock6 (mkV6 1) 2 3 4] (replicate 36 7)) as [_ (ys & E & Hv & Hn)].
  - constructor; [|constructor]. split; unfold is_uint; cbn [v6_bits s6_ip s6_port]; lia.
  - apply (bool_decide_unpack _). vm_compute. exact I.
  - reflexivity.
  - exists ys. split; [exact E|]. split; [|exact Hn]. vm_compute in E. injection E as <-. reflexivity.
Defined.

(** ** Addresses of either family *)

Definition sock_valid (a : SocketAddr) : Prop :=
  match a with
  | SockV4 ip port => is_u32 ip /\ is_u16 port
  | SockV6 ip port _ _ => is_uint 128 ip /\ is_u16 port
  end.

Definition sock_norm (a : SocketAddr) : SocketAddr := sock_new (sock_ip a) (sock_port a).

Lemma SmallSlice_extend_ok s buf :
  (ss_len s + length buf <= length (ss_data s))%nat ->
  exists s', SmallSlice_extend s buf = Ret s' /\ length (ss_data s') = length (ss_data s)
    /\ ss_len s' = (ss_len s + length buf)%nat
    /\ SmallSlice_as_slice s' = SmallSlice_as_slice s ++ buf.
Proof.
  intros Hl. unfold SmallSlice_extend. rewrite (proj2 (Nat.ltb_ge _ _)) by lia.
  eexists. split; [done|]. unfold SmallSlice_as_slice. cbn [ss_data ss_len]. split_and!.
  - rewrite !length_app, length_take, length_drop. lia.
  - done.
  - rewrite app_assoc, take_app_length'; [done|]. rewrite length_app, length_take. lia.
Qed.

Lemma SmallSlice_new_from_buf_ok n buf :
  (length buf <= n)%nat ->
  exists s, SmallSlice_new_from_buf n buf = Ret s /\ length (ss_data s) = n /\ ss_len s = length buf
    /\ SmallSlice_as_slice s = buf.
Proof.
  intros Hl. unfold SmallSlice_new_from_buf.
  destruct (SmallSlice_extend_ok (SmallSlice_new n) buf) as (s & -> & Hd & Hs & E);
    [cbn; rewrite length_replicate; lia|].
  exists s. split_and!; [done|rewrite Hd; cbn; apply length_replicate|done|done].
Qed.

Lemma sock_as_slice_spec a :
  sock_as_slice a = Ret (match a with
    | SockV4 ip port => to_be_bytes 4 ip ++ to_be_bytes 2 port
    | SockV6 ip port _ _ => to_be_bytes 16 ip ++ to_be_bytes 2 port
    end).
Proof.
  assert (Hgen : forall ipb port, (length ipb <= 16)%nat ->
    (s ← SmallSlice_new_from_buf 18 ipb; s ← SmallSlice_extend s (to_be_bytes 2 port); Ret (SmallSlice_as_slice s))
    = Ret (ipb ++ to_be_bytes 2 port)).
  { intros ipb port Hl. destruct (SmallSlice_new_from_buf_ok 18 ipb) as (s & -> & Hd & Hs & E); [lia|].
    run. destruct (SmallSlice_extend_ok s (to_be_bytes 2 port)) as (s' & -> & _ & _ & E').
    { rewrite length_to_be_bytes. lia. } run. by rewrite E', E. }
  destruct a as [ip port|ip port fl sc]; unfold sock_as_slice, ip_as_slice;
    cbn [sock_ip sock_port as_slice CompactSerialize_Ipv4Addr CompactSerialize_Ipv6Addr mbind outcome_bind v4_bits v6_bits].
  - destruct (SmallSlice_new_from_buf_ok 16 (to_be_bytes 4 ip)) as (s & -> & _ & _ & E);
      [len|].
    run. rewrite E. apply Hgen. rewrite length_to_be_bytes. lia.
  - destruct (SmallSlice_new_from_buf_ok 16 (to_be_bytes 16 ip)) as (s & -> & _ & _ & E);
      [len|].
    run. rewrite E. apply Hgen. rewrite length_to_be_bytes. lia.
Qed.

(** Either family is written without a panic and read back by its length;
    other lengths are refused. *)
Lemma sock_roundtrip a b :
  sock_valid a ->
  (exists s, sock_as_slice a = Ret s /\ sock_from_slice s = Ret (Some (sock_norm a)))
  /\ (sock_from_slice b = Ret None <-> length b <> 6%nat /\ length b <> 18%nat).
Proof.
  intros Hv. split.
  - rewrite sock_as_slice_spec. eexists. split; [reflexivity|]. unfold sock_from_slice.
    destruct a as [ip port|ip port fl sc]; cbn [sock_valid] in Hv; destruct Hv as [Hip Hp].
    + rewrite length_app, !length_to_be_bytes. cbn [Nat.add Nat.eqb]. by rewrite s4_unchecked_encode.
    + rewrite length_app, !length_to_be_bytes. cbn [Nat.add Nat.eqb]. by rewrite s6_unchecked_encode.
  - unfold sock_from_slice. destruct (Nat.eqb_spec (length b) 6); [split; [|lia]|].
    { destruct (s4_from_slice_unchecked_len b); done. }
    destruct (Nat.eqb_spec (length b) 18); [split; [|lia]|tauto].
    destruct (s6_from_slice_unchecked_len b); done.
Qed.
