(* ===== verification/Bencode.v ===== *)
(** * Bencode ([crates/bencode])

    The serializer and the deserializer behind serde, and [BencodeValue].  What
    a type asks of the serializer is a value of serde's data model, [Ser]; what
    it asks of the deserializer is a [shape]: the method it calls and what its
    visitor does.  Parsing integers from text is the [atoi] crate, the class
    [Atoi] with its documented behaviour [AtoiSpec]. *)

From stdpp Require Import base tactics option list list_numbers numbers decidable.
From Stdlib Require Import ZArith Lia.
From S2P Require Import Prelude.
Open Scope Z_scope.

(** ** Decimal numbers, as [Display] writes them *)

Definition is_digit (c : Z) : Prop := 48 <= c <= 57.

#[export] Instance is_digit_dec c : Decision (is_digit c) := _.

Definition dec_value (ds : bytes) : Z := foldl (fun acc d => acc * 10 + (d - 48)) 0 ds.

(** The digits of [n], least significant first. *)
Fixpoint rev_digits (fuel : nat) (n : Z) : bytes :=
  match fuel with
  | O => []
  | S fuel => (48 + n mod 10) :: (if n <? 10 then [] else rev_digits fuel (n / 10))
  end.

Definition digits (n : Z) : bytes := reverse (rev_digits (S (Z.to_nat (Z.log2 n))) n).

Definition display (z : Z) : bytes := if z <? 0 then 45 :: digits (- z) else digits z.

Arguments digits n : simpl never.
Arguments display z : simpl never.

(** ** The serializer *)

(** What [Serialize] implementations call. *)
Inductive Ser :=
| SerBool (b : bool)
| SerInt (z : Z)
| SerBytes (b : bytes)
| SerNone
| SerSome (v : Ser)
| SerSeq (l : list Ser)
| SerMap (kvs : list (Ser * Ser))
| SerStruct (fields : list (bytes * Ser))
| SerRaw (b : bytes)
| SerUnsupported.

Inductive SerError :=
| SerIo
| SerText.

(** The writer with the room it has left, if bounded. *)
Record BencodeSerializer := mkSerializer {
  bs_out : bytes;
  bs_room : option nat;
  bs_hack_no_bytestring_prefix : bool
}.

Definition BencodeSerializer_new (room : option nat) : BencodeSerializer := mkSerializer [] room false.

Definition set_hack (h : bool) : io BencodeSerializer SerError () := fun s =>
  (mkSerializer (bs_out s) (bs_room s) h, XOk ()).

(** [write_all] on a [Vec] or on a cursor over a slice. *)
Definition write_raw (buf : bytes) : io BencodeSerializer SerError () := fun s =>
  match bs_room s with
  | None => (mkSerializer (bs_out s ++ buf) None (bs_hack_no_bytestring_prefix s), XOk ())
  | Some room =>
    let s' := mkSerializer (bs_out s ++ take room buf) (Some (room - length buf)%nat)
                (bs_hack_no_bytestring_prefix s) in
    if (length buf <=? room)%nat then (s', XOk ()) else (s', XErr SerIo)
  end.

Definition write_byte (b : Z) : io BencodeSerializer SerError () := write_raw [b].

Definition write_number (z : Z) : io BencodeSerializer SerError () :=
  write_raw (105 :: display z ++ [101]).

Definition write_bytes (b : bytes) : io BencodeSerializer SerError () :=
  _ ← io_state (fun s => if bs_hack_no_bytestring_prefix s then (s, XOk ())
                         else write_raw (display (Z.of_nat (length b)) ++ [58]) s);
  write_raw b.

(** A value written into a buffer of its own. *)
Definition to_vec (hack : bool) (m : io BencodeSerializer SerError ()) : exec SerError bytes :=
  match m (mkSerializer [] None hack) with
  | (s, XOk _) => XOk (bs_out s)
  | (_, XErr e) => XErr e
  | (_, XPanic) => XPanic
  end.

Definition key_leb (x y : bytes * bytes) : bool := bytes_leb x.1 y.1.

Fixpoint write_entries (kvs : list (bytes * bytes)) : io BencodeSerializer SerError () :=
  match kvs with
  | [] => mret ()
  | (k, v) :: kvs => _ ← write_bytes k; _ ← write_raw v; write_entries kvs
  end.

(** [SerializeMap::end] and [SerializeStruct::end]. *)
Definition end_map (tmp : list (bytes * bytes)) : io BencodeSerializer SerError () :=
  _ ← write_entries (sort_by key_leb tmp); write_byte 101.

(** The calls on [SerializeSeq], [SerializeMap] and [SerializeStruct]. *)
Section Parts.
Context (serialize : Ser -> io BencodeSerializer SerError ()).

Fixpoint serialize_elements (l : list Ser) : io BencodeSerializer SerError () :=
  match l with
  | [] => mret ()
  | x :: l => _ ← serialize x; serialize_elements l
  end.

Fixpoint serialize_entries (kvs : list (Ser * Ser))
    : io BencodeSerializer SerError (list (bytes * bytes)) :=
  match kvs with
  | [] => mret []
  | (k, v) :: kvs =>
    key ← io_lift (to_vec true (serialize k));
    value ← io_lift (to_vec false (serialize v));
    rest ← serialize_entries kvs;
    mret ((key, value) :: rest)
  end.

Fixpoint serialize_fields (fields : list (bytes * Ser))
    : io BencodeSerializer SerError (list (bytes * bytes)) :=
  match fields with
  | [] => mret []
  | (key, v) :: fields =>
    value ← io_lift (to_vec false (serialize v));
    rest ← serialize_fields fields;
    mret ((key, value) :: rest)
  end.
End Parts.

Fixpoint serialize (v : Ser) : io BencodeSerializer SerError () :=
  match v with
  | SerBool b => write_number (if b then 1 else 0)
  | SerInt z => write_number z
  | SerBytes b => write_bytes b
  | SerNone => io_lift (XErr SerText)
  | SerSome v => serialize v
  | SerSeq l => _ ← write_byte 108; _ ← serialize_elements serialize l; write_byte 101
  | SerMap kvs => _ ← write_byte 100; tmp ← serialize_entries serialize kvs; end_map tmp
  | SerStruct fields => _ ← write_byte 100; tmp ← serialize_fields serialize fields; end_map tmp
  | SerRaw b => _ ← set_hack true; _ ← write_bytes b; set_hack false
  | SerUnsupported => io_lift (XErr SerText)
  end.

(** [bencode_serialize_to_writer]. *)
Definition bencode_serialize_to_writer (v : Ser) (room : option nat)
    : BencodeSerializer * exec SerError () := serialize v (BencodeSerializer_new room).

(** ** The deserializer *)

Class Atoi := {
  from_radix_10 : Z -> bytes -> Z * nat;
  from_radix_10_signed : Z -> bytes -> Z * nat
}.

Inductive CustomError :=
| MissingField (name : bytes)
| DuplicateField (name : bytes)
| VisitorError.

Inductive DeError :=
| Custom (e : CustomError)
| InvalidBool (v : Z)
| BytesRemaining (n : nat)
| InvalidValue
| DepthLimit (n : nat)
| Eof.

Definition DEFAULT_MAX_DEPTH : nat := 128.

Record BencodeDeserializer := mkDe {
  de_buf : bytes;
  de_field_context : list bytes;
  de_field_context_did_not_fit : Z;
  de_parsing_key : bool;
  de_depth : nat;
  de_max_depth : nat
}.

Definition new_from_buf (buf : bytes) : BencodeDeserializer := mkDe buf [] 0 false 0 DEFAULT_MAX_DEPTH.

Definition with_max_depth (max_depth : nat) (s : BencodeDeserializer) : BencodeDeserializer :=
  mkDe (de_buf s) (de_field_context s) (de_field_context_did_not_fit s) (de_parsing_key s) (de_depth s)
    max_depth.

Definition set_buf (b : bytes) (s : BencodeDeserializer) : BencodeDeserializer :=
  mkDe b (de_field_context s) (de_field_context_did_not_fit s) (de_parsing_key s) (de_depth s)
    (de_max_depth s).

Definition set_depth (n : nat) (s : BencodeDeserializer) : BencodeDeserializer :=
  mkDe (de_buf s) (de_field_context s) (de_field_context_did_not_fit s) (de_parsing_key s) n (de_max_depth s).

Definition set_parsing_key (b : bool) (s : BencodeDeserializer) : BencodeDeserializer :=
  mkDe (de_buf s) (de_field_context s) (de_field_context_did_not_fit s) b (de_depth s) (de_max_depth s).

Definition set_context (ctx : list bytes) (n : Z) (s : BencodeDeserializer) : BencodeDeserializer :=
  mkDe (de_buf s) ctx n (de_parsing_key s) (de_depth s) (de_max_depth s).

Abbreviation de := (io BencodeDeserializer DeError).

Definition parse_first_byte (c : Z) (err : DeError) : de () := fun s =>
  match de_buf s with
  | start :: rest => if start =? c then (set_buf rest s, XOk ()) else (s, XErr err)
  | [] => (s, XErr Eof)
  end.

Definition parse_integer (atoi : bytes -> Z * nat) : de Z :=
  _ ← parse_first_byte 105 InvalidValue;
  io_state (fun s =>
    let '(v, len) := atoi (de_buf s) in
    if (0 <? len)%nat && bool_decide (de_buf s !! len = Some 101)
    then (set_buf (drop (len + 1) (de_buf s)) s, XOk v)
    else (s, XErr InvalidValue)).

(** A key is pushed on the context, which holds four. *)
Definition push_context (b : bytes) (s : BencodeDeserializer) : BencodeDeserializer :=
  if (length (de_field_context s) <? 4)%nat
  then set_context (de_field_context s ++ [b]) (de_field_context_did_not_fit s) s
  else set_context (de_field_context s) (saturating_add 8 (de_field_context_did_not_fit s) 1) s.

Definition pop_context (s : BencodeDeserializer) : BencodeDeserializer :=
  if 0 <? de_field_context_did_not_fit s
  then set_context (de_field_context s) (de_field_context_did_not_fit s - 1) s
  else set_context (removelast (de_field_context s)) (de_field_context_did_not_fit s) s.

Definition enter_container : de () := fun s =>
  if (de_max_depth s <=? de_depth s)%nat then (s, XErr (DepthLimit (de_max_depth s)))
  else (set_depth (S (de_depth s)) s, XOk ()).

(** What [deserialize_seq] and [deserialize_map] do around their visitor. *)
Definition container {A} (c : Z) (visit : de A) : de A :=
  _ ← parse_first_byte c InvalidValue;
  _ ← enter_container;
  io_state (fun s => let '(s, r) := visit s in (set_depth (pred (de_depth s)) s, r)).

(** [starts_with(b"e")], with what follows it. *)
Definition strip_e (b : bytes) : option bytes :=
  match b with
  | c :: rest => if c =? 101 then Some rest else None
  | [] => None
  end.

(** [SeqAccess::next_element_seed]. *)
Definition next_element {A} (seed : de A) : de (option A) := fun s =>
  match strip_e (de_buf s) with
  | Some rest => (set_buf rest s, XOk None)
  | None => (x ← seed; mret (Some x)) s
  end.

(** [MapAccess::next_key_seed] and [next_value_seed]. *)
Definition next_key {A} (seed : de A) : de (option A) := fun s =>
  match strip_e (de_buf s) with
  | Some rest => (set_buf rest s, XOk None)
  | None =>
    (_ ← io_modify (set_parsing_key true);
     x ← seed;
     _ ← io_modify (set_parsing_key false);
     mret (Some x)) s
  end.

Definition next_value {A} (seed : de A) : de A :=
  v ← seed;
  _ ← io_modify pop_context;
  mret v.

(** The loops of the visitors; [n] bounds the number of elements. *)
Fixpoint seq_loop {A} (n : nat) (seed : de A) : de (list A) :=
  match n with
  | O => io_lift XPanic
  | S n =>
    o ← next_element seed;
    match o with
    | None => mret []
    | Some x => xs ← seq_loop n seed; mret (x :: xs)
    end
  end.

Fixpoint map_loop {K A} (n : nat) (key : de K) (step : K -> A -> de A) (acc : A) : de A :=
  match n with
  | O => io_lift XPanic
  | S n =>
    o ← next_key key;
    match o with
    | None => mret acc
    | Some k => acc ← step k acc; map_loop n key step acc
    end
  end.

(** [deserialize_any], by what the visitor makes of each kind. *)
Definition deserialize_any {A} (on_map on_int on_seq on_bytes : de A) : de A := fun s =>
  match de_buf s with
  | c :: _ =>
    if c =? 100 then on_map s
    else if c =? 105 then on_int s
    else if c =? 108 then on_seq s
    else on_bytes s
  | [] => (s, XErr Eof)
  end.

(** A [HashMap] is kept as the list of its entries in the order of their keys. *)
Inductive BencodeValue :=
| Bytes (b : bytes)
| Integer (v : Z)
| List (l : list BencodeValue)
| Dict (d : list (bytes * BencodeValue)).

Fixpoint dict_insert {A} (k : bytes) (v : A) (d : list (bytes * A)) : list (bytes * A) :=
  match d with
  | [] => [(k, v)]
  | (k', v') :: d' =>
    if bool_decide (k = k') then (k, v) :: d'
    else if bytes_leb k k' then (k, v) :: d
    else (k', v') :: dict_insert k v d'
  end.

(** What a type asks for: [deserialize_*] and its visitor.  A struct's field is
    optional when it has a default. *)
Inductive shape :=
| ShValue
| ShIgnored
| ShBool
| ShUnsigned (bits : Z)
| ShSigned (bits : Z)
| ShBytes (accept : bytes -> bool)
| ShSeq (s : shape)
| ShStruct (fields : list (bytes * bool * shape))
| ShRaw (s : shape)
| ShPair (a b : shape).

Inductive value :=
| VValue (v : BencodeValue)
| VIgnored
| VBool (b : bool)
| VInt (z : Z)
| VBytes (b : bytes)
| VSeq (l : list value)
| VStruct (slots : list (option value))
| VRaw (data : value) (raw_bytes : bytes).

Abbreviation field := (bytes * bool * shape)%type.

Fixpoint find_field (key : bytes) (fields : list field) : option (nat * shape) :=
  match fields with
  | [] => None
  | (name, _, sh) :: fields =>
    if bool_decide (key = name) then Some (O, sh)
    else '(i, sh) ← find_field key fields; Some (S i, sh)
  end.

(** The end of a derived [visit_map]: the first required field without a value
    is reported. *)
Fixpoint missing_field (fields : list field) (slots : list (option value)) : option bytes :=
  match fields, slots with
  | (name, required, _) :: fields, slot :: slots =>
    match (required : bool), slot with
    | true, None => Some name
    | _, _ => missing_field fields slots
    end
  | _, _ => None
  end.

Section Deserialize.
Context `{Atoi}.

Definition parse_bytes : de bytes := fun s =>
  let '(v, len) := from_radix_10 64 (de_buf s) in
  if (0 <? len)%nat && bool_decide (de_buf s !! len = Some 58) then
    let s := set_buf (drop (len + 1) (de_buf s)) s in
    if Z.of_nat (length (de_buf s)) <? v then (s, XErr Eof)
    else
      let b := take (Z.to_nat v) (de_buf s) in
      let s := set_buf (drop (Z.to_nat v) (de_buf s)) s in
      (if de_parsing_key s then push_context b s else s, XOk b)
  else (s, XErr InvalidValue).

Definition deserialize_bool : de bool :=
  v ← parse_integer (from_radix_10 8);
  if 1 <? v then io_lift (XErr (InvalidBool v)) else mret (v =? 1).

(** The body of a derived [visit_map] for one key. *)
Definition struct_step (value_of : shape -> de value) (fields : list field) (key : bytes)
    (slots : list (option value)) : de (list (option value)) :=
  match find_field key fields with
  | Some (i, sh) =>
    match slots !! i with
    | Some (Some _) => io_lift (XErr (Custom (DuplicateField key)))
    | _ => v ← next_value (value_of sh); mret (<[i := Some v]> slots)
    end
  | None => _ ← next_value (value_of ShIgnored); mret slots
  end.

Definition struct_finish (fields : list field) (slots : list (option value)) : de value :=
  match missing_field fields slots with
  | Some name => io_lift (XErr (Custom (MissingField name)))
  | None => mret (VStruct slots)
  end.

(** The visitor of a list of two elements, [a] and [b]. *)
Definition visit_pair (a b : de value) (other : de ()) : de value :=
  x ← next_element a;
  match x with
  | None => io_lift (XErr (Custom VisitorError))
  | Some x =>
    y ← next_element b;
    match y with
    | None => io_lift (XErr (Custom VisitorError))
    | Some y =>
      o ← next_element other;
      match o with
      | Some _ => io_lift (XErr (Custom VisitorError))
      | None => mret (VSeq [x; y])
      end
    end
  end.

(** [BencodeValue]'s visitor and [IgnoredAny]'s. *)
Definition visit_value (n : nat) (rec : de BencodeValue) : de BencodeValue :=
  deserialize_any
    (d ← container 100 (map_loop n parse_bytes (fun k d => v ← next_value rec; mret (dict_insert k v d)) []);
     mret (Dict d))
    (v ← parse_integer (from_radix_10_signed 64); mret (Integer v))
    (l ← container 108 (seq_loop n rec); mret (List l))
    (b ← parse_bytes; mret (Bytes b)).

Definition visit_ignored (n : nat) (rec : de ()) : de () :=
  deserialize_any
    (container 100 (map_loop n rec (fun _ _ => next_value rec) ()))
    (_ ← parse_integer (from_radix_10_signed 64); mret ())
    (_ ← container 108 (seq_loop n rec); mret ())
    (_ ← parse_bytes; mret ()).

Fixpoint de_value (fuel : nat) : de BencodeValue :=
  match fuel with O => io_lift XPanic | S n => visit_value n (de_value n) end.

Fixpoint de_ignored (fuel : nat) : de () :=
  match fuel with O => io_lift XPanic | S n => visit_ignored n (de_ignored n) end.

(** [WithRawBytes]: the value and the bytes it was read from. *)
Definition with_raw_bytes (data : de value) : de value := fun s =>
  match data s with
  | (s', XOk v) =>
    let consumed := (length (de_buf s) - length (de_buf s'))%nat in
    (s', XOk (VRaw v (take consumed (de_buf s))))
  | (s', XErr e) => (s', XErr e)
  | (s', XPanic) => (s', XPanic)
  end.

Fixpoint deserialize (fuel : nat) (sh : shape) : de value :=
  match fuel with
  | O => io_lift XPanic
  | S n =>
    match sh with
    | ShValue => v ← de_value n; mret (VValue v)
    | ShIgnored => _ ← de_ignored n; mret VIgnored
    | ShBool => b ← deserialize_bool; mret (VBool b)
    | ShUnsigned bits => v ← parse_integer (from_radix_10 bits); mret (VInt v)
    | ShSigned bits => v ← parse_integer (from_radix_10_signed bits); mret (VInt v)
    | ShBytes accept =>
      b ← parse_bytes; if accept b then mret (VBytes b) else io_lift (XErr (Custom VisitorError))
    | ShSeq s => l ← container 108 (seq_loop n (deserialize n s)); mret (VSeq l)
    | ShStruct fields =>
      container 100
        (slots ← map_loop n parse_bytes (struct_step (deserialize n) fields) (replicate (length fields) None);
         struct_finish fields slots)
    | ShRaw s => with_raw_bytes (deserialize n s)
    | ShPair a b => container 108 (visit_pair (deserialize n a) (deserialize n b) (de_ignored n))
    end
  end.

(** How deep a shape nests. *)
Fixpoint sh_height (sh : shape) : nat :=
  match sh with
  | ShSeq s | ShRaw s => S (sh_height s)
  | ShPair a b => S (Nat.max (sh_height a) (sh_height b))
  | ShStruct fields => S (foldr (fun f acc => Nat.max (sh_height f.2) acc) 1%nat fields)
  | _ => 1
  end.

(** [from_bytes_with_rest] and [from_bytes]; the fuel is never used up. *)
Definition from_bytes_with_rest (sh : shape) (buf : bytes) : exec (DeError * list bytes) (value * bytes) :=
  match deserialize (length buf + sh_height sh + 2) sh (new_from_buf buf) with
  | (s, XOk v) => XOk (v, de_buf s)
  | (s, XErr e) => XErr (e, de_field_context s)
  | (_, XPanic) => XPanic
  end.

Definition from_bytes (sh : shape) (buf : bytes) : exec (DeError * list bytes) value :=
  r ← from_bytes_with_rest sh buf;
  match r.2 with
  | [] => XOk r.1
  | rest => XErr (BytesRemaining (length rest), [])
  end.
End Deserialize.

(** ** What is relied on of [atoi] *)

Definition no_digit (rest : bytes) : Prop :=
  match rest with c :: _ => ~ is_digit c | [] => True end.

Class AtoiSpec `{Atoi} : Prop := {
  radix_10_spec bits ds rest :
    ds <> [] -> Forall is_digit ds -> no_digit rest -> dec_value ds < 2 ^ bits ->
    from_radix_10 bits (ds ++ rest) = (dec_value ds, length ds);
  radix_10_signed_spec bits ds rest :
    ds <> [] -> Forall is_digit ds -> no_digit rest -> dec_value ds < 2 ^ (bits - 1) ->
    from_radix_10_signed bits (ds ++ rest) = (dec_value ds, length ds);
  radix_10_negative_spec bits ds rest :
    ds <> [] -> Forall is_digit ds -> no_digit rest -> dec_value ds <= 2 ^ (bits - 1) ->
    from_radix_10_signed bits (45 :: ds ++ rest) = (- dec_value ds, S (length ds))
}.

(** An [atoi] that has this behaviour. *)
Fixpoint leading_digits (b : bytes) : bytes :=
  match b with
  | c :: b => if decide (is_digit c) then c :: leading_digits b else []
  | [] => []
  end.

Definition read_digits (w : Z) (b : bytes) : Z * nat :=
  let ds := leading_digits b in (wrap w (dec_value ds), length ds).

Definition wrap_signed (bits z : Z) : Z := wrap bits (z + 2 ^ (bits - 1)) - 2 ^ (bits - 1).

Definition read_signed (bits : Z) (b : bytes) : Z * nat :=
  match b with
  | c :: b' =>
    if c =? 45 then
      let ds := leading_digits b' in (wrap_signed bits (- dec_value ds), S (length ds))
    else let ds := leading_digits b in (wrap_signed bits (dec_value ds), length ds)
  | [] => (0, O)
  end.

Definition atoi_ref : Atoi := {| from_radix_10 := read_digits; from_radix_10_signed := read_signed |}.

Lemma leading_digits_app ds rest :
  Forall is_digit ds -> no_digit rest -> leading_digits (ds ++ rest) = ds.
Proof.
  intros Hds Hr. induction Hds as [|d ds Hd _ IH]; cbn.
  - destruct rest as [|c rest]; [done|]. cbn. by rewrite decide_False.
  - by rewrite decide_True, IH.
Qed.

Lemma dec_value_acc ds a : foldl (fun acc d => acc * 10 + (d - 48)) a ds = a * 10 ^ Z.of_nat (length ds) + dec_value ds.
Proof.
  unfold dec_value. revert a. induction ds as [|d ds IH]; intros a; cbn [foldl length]; [lia|].
  rewrite IH, (IH (0 * 10 + _)), Nat2Z.inj_succ, Z.pow_succ_r by lia. lia.
Qed.

Lemma dec_value_snoc ds d : dec_value (ds ++ [d]) = dec_value ds * 10 + (d - 48).
Proof. unfold dec_value. by rewrite foldl_app. Qed.

Lemma dec_value_nonneg ds : Forall is_digit ds -> 0 <= dec_value ds.
Proof.
  induction ds as [|d ds IH] using rev_ind; [done|]. intros [Hds Hd]%Forall_app.
  apply Forall_cons_1 in Hd as [Hd _]. rewrite dec_value_snoc. unfold is_digit in Hd. specialize (IH Hds). lia.
Qed.

Lemma wrap_signed_id bits z : 0 < bits -> - 2 ^ (bits - 1) <= z < 2 ^ (bits - 1) -> wrap_signed bits z = z.
Proof.
  intros Hb Hz. unfold wrap_signed. rewrite wrap_id; [lia|]. unfold is_uint.
  replace (2 ^ bits) with (2 * 2 ^ (bits - 1)); [lia|]. rewrite <- Z.pow_succ_r by lia. f_equal. lia.
Qed.

Lemma dec_value_small ds b : Forall is_digit ds -> dec_value ds < 2 ^ b -> 0 <= b.
Proof.
  intros Hds Hv. pose proof (dec_value_nonneg ds Hds). destruct (Z.le_gt_cases 0 b); [done|].
  rewrite Z.pow_neg_r in Hv by lia. lia.
Qed.

#[export] Instance atoi_ref_spec : @AtoiSpec atoi_ref.
Proof.
  split; intros bits ds rest Hne Hds Hr Hv; cbn; pose proof (dec_value_nonneg ds Hds).
  - unfold read_digits. rewrite leading_digits_app, wrap_id by done. done.
  - pose proof (dec_value_small _ _ Hds Hv). destruct ds as [|d ds]; [done|]. cbn [app read_signed].
    pose proof (Forall_cons_1 _ _ _ Hds) as [Hd _]. destruct (Z.eqb_spec d 45) as [->|]; [by destruct Hd|].
    rewrite app_comm_cons, leading_digits_app, wrap_signed_id by (done || lia). done.
  - rewrite leading_digits_app by done. destruct (Z.le_gt_cases 1 bits).
    + rewrite wrap_signed_id by lia. done.
    + rewrite Z.pow_neg_r in Hv by lia. replace (dec_value ds) with 0 by lia.
      unfold wrap_signed, wrap. rewrite (Z.pow_neg_r 2 (bits - 1)) by lia.
      destruct (Z.eq_dec bits 0) as [->|]; [done|]. by rewrite Z.pow_neg_r by lia.
Qed.

(** ** The digits of a number *)

Lemma rev_digits_spec fuel n :
  0 <= n < 2 ^ Z.of_nat fuel -> (0 < fuel)%nat ->
  rev_digits fuel n <> [] /\ Forall is_digit (rev_digits fuel n) /\ dec_value (reverse (rev_digits fuel n)) = n.
Proof.
  revert n. induction fuel as [|fuel IH]; intros n Hn Hf; [lia|]. cbn [rev_digits].
  pose proof (Z.mod_pos_bound n 10 eq_refl). pose proof (Z.div_mod n 10 ltac:(done)).
  rewrite Nat2Z.inj_succ, Z.pow_succ_r in Hn by lia.
  destruct (Z.ltb_spec n 10) as [Hs|Hs].
  - split_and!; [done|repeat constructor; lia|]. cbn. rewrite Z.mod_small by lia. lia.
  - destruct (IH (n / 10)) as (_ & Hd & Hv).
    { split; [apply Z.div_pos; lia|]. apply Z.div_lt_upper_bound; lia. }
    { destruct fuel; [cbn in *; lia|lia]. }
    split_and!; [done|constructor; [unfold is_digit; lia|done]|].
    rewrite reverse_cons, dec_value_snoc, Hv. lia.
Qed.

Lemma digits_spec n :
  0 <= n -> digits n <> [] /\ Forall is_digit (digits n) /\ dec_value (digits n) = n.
Proof.
  intros Hn. destruct (rev_digits_spec (S (Z.to_nat (Z.log2 n))) n) as (Hne & Hd & Hv); [|lia|].
  - split; [done|]. rewrite Nat2Z.inj_succ, Z2Nat.id by apply Z.log2_nonneg.
    destruct (Z.eq_dec n 0) as [->|]; [done|]. apply Z.log2_spec. lia.
  - unfold digits. split_and!; [|by apply Forall_reverse|done].
    intros E. by apply (f_equal reverse) in E; rewrite reverse_involutive in E.
Qed.

(** ** The bytes of a value *)

Definition enc_bytes (b : bytes) : bytes := digits (Z.of_nat (length b)) ++ 58 :: b.
Definition enc_int (z : Z) : bytes := 105 :: display z ++ [101].
Definition enc_entry (kv : bytes * bytes) : bytes := enc_bytes kv.1 ++ kv.2.
Definition enc_map (kvs : list (bytes * bytes)) : bytes := 100 :: concat (enc_entry <$> kvs) ++ [101].

Fixpoint enc_value (v : BencodeValue) : bytes :=
  match v with
  | Bytes b => enc_bytes b
  | Integer z => enc_int z
  | List l => 108 :: concat (map enc_value l) ++ [101]
  | Dict d => enc_map (map (fun kv => (kv.1, enc_value kv.2)) d)
  end.

(** The values that can be written: 64-bit integers, and maps by ascending keys. *)
Fixpoint keys_ascend {A} (d : list (bytes * A)) : Prop :=
  match d with
  | [] => True
  | (k, _) :: d' => Forall (fun kv => bytes_leb kv.1 k = false) d' /\ keys_ascend d'
  end.

Fixpoint value_ok (v : BencodeValue) : Prop :=
  match v with
  | Bytes b => Z.of_nat (length b) < 2 ^ 64
  | Integer z => - 2 ^ 63 <= z < 2 ^ 63
  | List l => foldr (fun v P => value_ok v /\ P) True l
  | Dict d =>
    keys_ascend d /\ foldr (fun kv P => (Z.of_nat (length kv.1) < 2 ^ 64 /\ value_ok kv.2) /\ P) True d
  end.

Fixpoint height (v : BencodeValue) : nat :=
  match v with
  | Bytes _ | Integer _ => 0
  | List l => S (foldr (fun v n => Nat.max (height v) n) 0%nat l)
  | Dict d => S (foldr (fun kv n => Nat.max (height kv.2) n) 0%nat d)
  end.

Lemma BencodeValue_ind' (P : BencodeValue -> Prop) :
  (forall b, P (Bytes b)) -> (forall z, P (Integer z)) ->
  (forall l, Forall P l -> P (List l)) ->
  (forall d, Forall (fun kv => P kv.2) d -> P (Dict d)) -> forall v, P v.
Proof.
  intros Hb Hi Hl Hd. fix IH 1. intros [b|z|l|d]; [done..| |].
  - apply Hl. induction l; constructor; [apply IH|done].
  - apply Hd. induction d as [|[k v] d IHd]; constructor; [apply IH|done].
Qed.

Lemma foldr_and_Forall {A} (P : A -> Prop) l : foldr (fun x Q => P x /\ Q) True l <-> Forall P l.
Proof. induction l as [|x l IH]; cbn; [by split|]. by rewrite Forall_cons_iff, IH. Qed.

Lemma foldr_max_le {A} (f : A -> nat) l n :
  (foldr (fun x m => Nat.max (f x) m) 0 l <= n)%nat <-> Forall (fun x => (f x <= n)%nat) l.
Proof. induction l as [|x l IH]; cbn; [split; [done|lia]|]. rewrite Forall_cons_iff, <- IH. lia. Qed.

(** ** The serializer writes them

    [writes m b]: [m] appends [b] when there is room, and reports an error
    otherwise. *)

Definition fits (room : option nat) (n : nat) : bool :=
  match room with Some r => (n <=? r)%nat | None => true end.

Definition wrote (s : BencodeSerializer) (b : bytes) : BencodeSerializer :=
  mkSerializer (bs_out s ++ b) ((fun r => r - length b)%nat <$> bs_room s) (bs_hack_no_bytestring_prefix s).

Definition writes (m : io BencodeSerializer SerError ()) (b : bytes) : Prop :=
  forall s, bs_hack_no_bytestring_prefix s = false ->
    if fits (bs_room s) (length b) then m s = (wrote s b, XOk ())
    else exists s', m s = (s', XErr SerIo).

Lemma write_raw_writes b : writes (write_raw b) b.
Proof.
  intros [out [room|] h] Hh; cbn; [|done]. unfold write_raw. cbn.
  destruct (Nat.leb_spec (length b) room); [by rewrite take_ge|by eexists].
Qed.

Lemma writes_nil : writes (mret ()) [].
Proof. intros [out [room|] h] Hh; unfold wrote; cbn; by rewrite ?Nat.sub_0_r, app_nil_r. Qed.

Lemma fits_app room n m :
  fits room (n + m) = fits room n && fits ((fun r => r - n)%nat <$> room) m.
Proof.
  destruct room as [r|]; [|done]. cbn.
  by destruct (Nat.leb_spec (n + m) r), (Nat.leb_spec n r), (Nat.leb_spec m (r - n)); cbn; try lia.
Qed.

Lemma writes_bind m f b c : writes m b -> writes (f ()) c -> writes (m ≫= f) (b ++ c).
Proof.
  intros Hm Hf s Hs. specialize (Hm s Hs). rewrite length_app, fits_app.
  destruct (fits (bs_room s) (length b)); cbn [andb].
  - specialize (Hf (wrote s b) Hs). unfold mbind, io_bind. rewrite Hm. cbn [bs_room wrote] in Hf.
    destruct (fits _ (length c)); [|done]. rewrite Hf. unfold wrote. cbn. f_equal.
    rewrite <- app_assoc. f_equal. destruct (bs_room s); cbn; [|done]. by rewrite length_app, Nat.sub_add_distr.
  - destruct Hm as (s' & Hm). exists s'. unfold mbind, io_bind. by rewrite Hm.
Qed.

Lemma write_bytes_writes b : writes (write_bytes b) (enc_bytes b).
Proof.
  unfold enc_bytes, write_bytes. change (58 :: b) with ([58] ++ b). rewrite app_assoc.
  apply writes_bind; [|apply write_raw_writes]. intros s Hs. unfold io_state. rewrite Hs.
  unfold display. destruct (Z.ltb_spec (Z.of_nat (length b)) 0); [lia|]. by apply write_raw_writes.
Qed.

Lemma write_entries_writes kvs : writes (write_entries kvs) (concat (enc_entry <$> kvs)).
Proof.
  induction kvs as [|[k v] kvs IH]; [apply writes_nil|]. cbn. unfold enc_entry at 1. cbn.
  rewrite <- app_assoc. apply writes_bind; [apply write_bytes_writes|].
  by apply writes_bind; [apply write_raw_writes|].
Qed.

(** Written to a [Vec], the value is there. *)
Lemma to_vec_writes m b : writes m b -> to_vec false m = XOk b.
Proof. intros Hm. unfold to_vec. by rewrite (Hm (mkSerializer [] None false) eq_refl). Qed.

Lemma end_map_writes kvs : writes (end_map kvs) (concat (enc_entry <$> sort_by key_leb kvs) ++ [101]).
Proof. apply writes_bind; [apply write_entries_writes|apply write_raw_writes]. Qed.

Definition entry_of {K} (key_of : K -> bytes -> Prop) (x : K * Ser) (kv : bytes * bytes) : Prop :=
  key_of x.1 kv.1 /\ writes (serialize x.2) kv.2.

Lemma serialize_seq_writes l bs :
  Forall2 (fun v b => writes (serialize v) b) l bs -> writes (serialize (SerSeq l)) (108 :: concat bs ++ [101]).
Proof.
  intros Hl. cbn [serialize]. change (108 :: concat bs ++ [101]) with ([108] ++ concat bs ++ [101]).
  apply writes_bind; [apply write_raw_writes|]. apply writes_bind; [|apply write_raw_writes].
  induction Hl as [|v b l bs Hv _ IH]; [apply writes_nil|by apply writes_bind].
Qed.

(** A map or a struct: the entries are buffered, sorted and written. *)
Lemma buffered_writes (entries : io BencodeSerializer SerError (list (bytes * bytes))) kvs :
  (forall s, entries s = (s, XOk kvs)) ->
  writes (_ ← write_byte 100; tmp ← entries; end_map tmp) (enc_map (sort_by key_leb kvs)).
Proof.
  intros He. unfold enc_map. change (100 :: ?x) with ([100] ++ x).
  apply writes_bind; [apply write_raw_writes|]. intros s Hs. unfold mbind, io_bind. rewrite He.
  by apply end_map_writes.
Qed.

Lemma serialize_struct_writes fields kvs :
  Forall2 (entry_of eq) fields kvs -> writes (serialize (SerStruct fields)) (enc_map (sort_by key_leb kvs)).
Proof.
  intros Hf. apply (buffered_writes (serialize_fields serialize fields)). intros s.
  induction Hf as [|[k v] [k' b] fields kvs [[= ->] Hv] _ IH]; [done|]. cbn [snd] in Hv.
  cbn [serialize_fields fst]. unfold mbind, io_bind, io_lift in *. by rewrite (to_vec_writes _ _ Hv), IH.
Qed.

Lemma serialize_map_writes kvs' kvs :
  Forall2 (entry_of (fun k b => k = SerBytes b)) kvs' kvs ->
  writes (serialize (SerMap kvs')) (enc_map (sort_by key_leb kvs)).
Proof.
  intros Hf. apply (buffered_writes (serialize_entries serialize kvs')). intros s.
  induction Hf as [|[k v] [k' b] kvs' kvs [Hk Hv] _ IH]; [done|]. cbn [fst snd] in Hk, Hv. subst k.
  cbn [serialize_entries fst]. unfold mbind, io_bind, io_lift in *.
  change (to_vec true (serialize (SerBytes k'))) with (@XOk SerError _ k'). by rewrite (to_vec_writes _ _ Hv), IH.
Qed.

(** *** [BencodeValue], whatever the order a [HashMap] iterates in *)

Class DictIter := {
  dict_iter : list (bytes * Ser) -> list (bytes * Ser);
  dict_iter_perm d : dict_iter d ≡ₚ d
}.

Fixpoint value_ser `{DictIter} (v : BencodeValue) : Ser :=
  match v with
  | Bytes b => SerBytes b
  | Integer z => SerInt z
  | List l => SerSeq (map value_ser l)
  | Dict d =>
    SerMap (map (fun kv => (SerBytes kv.1, kv.2)) (dict_iter (map (fun kv => (kv.1, value_ser kv.2)) d)))
  end.

Lemma bytes_leb_refl l : bytes_leb l l = true.
Proof. by destruct (bytes_leb_total l l). Qed.

Lemma bytes_leb_antisym l1 l2 : bytes_leb l1 l2 = true -> bytes_leb l2 l1 = true -> l1 = l2.
Proof.
  unfold bytes_leb. revert l2. induction l1 as [|x l1 IH]; intros [|y l2]; cbn; try done.
  destruct (Z.ltb_spec x y), (Z.ltb_spec y x); try done; try lia. intros. f_equal; [lia|by apply IH].
Qed.

(** Sorting the entries of a map restores the order of its keys. *)
Lemma sort_ascending (l d : list (bytes * bytes)) :
  keys_ascend d -> l ≡ₚ d -> sort_by key_leb l = d.
Proof.
  intros Hd Hp.
  assert (forall x y, key_leb x y = true \/ key_leb y x = true) as Htot by (intros; apply bytes_leb_total).
  assert (sorted_by key_leb (sort_by key_leb l)) as Hs.
  { apply sort_by_sorted; [done|]. intros x y z. apply bytes_leb_trans. }
  rewrite <- (sort_by_perm key_leb l) in Hp. revert Hs Hp. generalize (sort_by key_leb l). clear l.
  induction d as [|x d IH]; intros l Hs Hp; [by apply Permutation_nil_r in Hp|].
  destruct l as [|y l]; [by apply Permutation_nil_l in Hp|]. destruct Hs as [Hy Hs].
  destruct x as [k v]. destruct Hd as [Hk Hd].
  assert (y = (k, v)) as ->.
  { assert (y ∈ (k, v) :: d) as Hin by (rewrite <- Hp; left).
    apply elem_of_cons in Hin as [->|Hin]; [done|].
    assert ((k, v) ∈ y :: l) as Hin' by (rewrite Hp; left).
    apply elem_of_cons in Hin' as [->|Hin']; [done|]. apply Hy in Hin'. unfold key_leb in Hin'. cbn in Hin'.
    eapply list.Forall_forall in Hk; [|exact Hin]. congruence. }
  f_equal. apply IH; [done..|]. by apply Permutation_cons_inv in Hp.
Qed.

Lemma keys_ascend_map {A B} (f : A -> B) (d : list (bytes * A)) :
  keys_ascend d -> keys_ascend (map (fun kv => (kv.1, f kv.2)) d).
Proof.
  induction d as [|[k v] d IH]; [done|]. intros [Hk Hd]. split; [|by apply IH].
  apply Forall_map. exact Hk.
Qed.

Lemma byte_keys l kvs :
  Forall2 (entry_of eq) l kvs ->
  Forall2 (entry_of (fun k b => k = SerBytes b)) (map (fun kv => (SerBytes kv.1, kv.2)) l) kvs.
Proof. induction 1 as [|x y ? ? [? ?]]; constructor; [|done]. by split; [cbn; f_equal|]. Qed.

Lemma value_ser_writes `{DictIter} v : value_ok v -> writes (serialize (value_ser v)) (enc_value v).
Proof.
  induction v as [b|z|l IH|d IH] using BencodeValue_ind'; intros Hv.
  - apply write_bytes_writes.
  - apply write_raw_writes.
  - apply serialize_seq_writes. cbn [value_ok] in Hv. apply foldr_and_Forall in Hv.
    rewrite list_fmap_alt. induction IH as [|v l Hw _ IHl]; cbn; [done|].
    apply Forall_cons_1 in Hv as [Hv Hvs]. constructor; [by apply Hw|by apply IHl].
  - destruct Hv as [Hk Hv]. apply foldr_and_Forall in Hv. cbn [enc_value].
    set (es := map (fun kv => (kv.1, enc_value kv.2)) d).
    assert (Forall2 (entry_of eq) (map (fun kv => (kv.1, value_ser kv.2)) d) es) as Hes.
    { subst es. clear Hk. induction IH as [|[k v] d Hw _ IHd]; cbn; [done|].
      apply Forall_cons_1 in Hv as [[_ Hv] Hvs]. constructor; [split; [done|by apply Hw]|by apply IHd]. }
    destruct (Permutation_Forall2 (symmetry (dict_iter_perm _)) Hes) as (kvs & Hp & Hkvs).
    rewrite <- (sort_ascending kvs es) by (by apply keys_ascend_map || by symmetry).
    by apply serialize_map_writes, byte_keys.
Qed.

(** ** The deserializer reads them back *)

Section Reading.
Context `{AtoiSpec}.

(** The state between two values: [h] more levels fit, and the context holds
    the keys of the maps that are open. *)
Definition ready (h : nat) (s : BencodeDeserializer) : Prop :=
  de_parsing_key s = false /\ (de_depth s + h <= de_max_depth s <= 255)%nat
  /\ 0 <= de_field_context_did_not_fit s <= Z.of_nat (de_depth s)
  /\ (length (de_field_context s) <= 4)%nat
  /\ (0 < de_field_context_did_not_fit s -> length (de_field_context s) = 4%nat).

(** The same inside a map, before a key. *)
Definition in_map (h : nat) (s : BencodeDeserializer) : Prop :=
  ready h s /\ de_field_context_did_not_fit s + 1 <= Z.of_nat (de_depth s).

Definition reads {A} (h : nat) (m : de A) (enc : bytes) (a : A) : Prop :=
  forall s rest, ready h s -> de_buf s = enc ++ rest -> m s = (set_buf rest s, XOk a).

Lemma set_buf_buf b b' s : set_buf b (set_buf b' s) = set_buf b s.
Proof. done. Qed.

Lemma reads_fmap {A B} h (m : de A) (f : A -> B) enc a :
  reads h m enc a -> reads h (x ← m; mret (f x)) enc (f a).
Proof. intros Hm s rest Hs Hb. unfold mbind, io_bind. by rewrite (Hm s rest Hs Hb). Qed.

Lemma parse_bytes_spec s b rest :
  Z.of_nat (length b) < 2 ^ 64 -> de_buf s = enc_bytes b ++ rest ->
  parse_bytes s = (if de_parsing_key s then push_context b (set_buf rest s) else set_buf rest s, XOk b).
Proof.
  intros Hlen Hb. unfold enc_bytes in Hb. rewrite <- app_assoc in Hb. cbn in Hb.
  destruct (digits_spec (Z.of_nat (length b)) ltac:(lia)) as (Hne & Hd & Hv).
  unfold parse_bytes. rewrite Hb, (radix_10_spec 64 _ (58 :: b ++ rest)) by (done || lia || (cbn; unfold is_digit; lia)).
  rewrite Hv. destruct (digits (Z.of_nat (length b))) as [|d ds] eqn:Ed; [done|].
  rewrite lookup_app_r, Nat.sub_diag by lia. cbn [lookup list_lookup bool_decide andb].
  rewrite bool_decide_eq_true_2 by done. cbn [length Nat.ltb Nat.leb andb].
  rewrite drop_app_ge by (cbn; lia). replace (_ - _)%nat with 1%nat by (cbn; lia). cbn [drop de_buf set_buf].
  rewrite !drop_0, length_app. destruct (Z.ltb_spec (Z.of_nat (length b + length rest)) (Z.of_nat (length b))); [lia|].
  by rewrite Nat2Z.id, take_app_length, drop_app_length.
Qed.

Lemma parse_bytes_reads b : Z.of_nat (length b) < 2 ^ 64 -> reads 0 parse_bytes (enc_bytes b) b.
Proof. intros Hl s rest (Hk & _) Hb. by rewrite (parse_bytes_spec s b rest), Hk. Qed.

(** An integer, for an [atoi] that reads its digits. *)
Lemma parse_integer_reads (atoi : bytes -> Z * nat) h z :
  (forall rest, no_digit rest -> atoi (display z ++ rest) = (z, length (display z))) ->
  reads h (parse_integer atoi) (enc_int z) z.
Proof.
  intros Ha s rest _ Hb. unfold enc_int in Hb. unfold parse_integer, parse_first_byte, mbind, io_bind.
  rewrite Hb. cbn [app Z.eqb Pos.eqb]. unfold io_state. cbn [de_buf set_buf].
  rewrite <- app_assoc, Ha by (cbn; unfold is_digit; lia).
  assert (display z <> []) as Hne.
  { unfold display. destruct (Z.ltb_spec z 0); [done|]. by apply digits_spec. }
  rewrite lookup_app_r, Nat.sub_diag by lia. cbn [lookup list_lookup app].
  rewrite bool_decide_eq_true_2 by done. destruct (display z) eqn:E; [done|]. cbn [length Nat.ltb Nat.leb andb].
  rewrite drop_app_ge by (cbn; lia). replace (_ - _)%nat with 1%nat by (cbn; lia). done.
Qed.

Lemma unsigned_reads h bits z :
  0 <= z < 2 ^ bits -> reads h (parse_integer (from_radix_10 bits)) (enc_int z) z.
Proof.
  intros Hz. destruct (digits_spec z ltac:(lia)) as (Hne & Hd & Hv).
  apply parse_integer_reads. intros rest Hr. unfold display.
  destruct (Z.ltb_spec z 0); [lia|]. rewrite radix_10_spec by (done || lia). by rewrite Hv.
Qed.

Lemma signed_reads h bits z :
  - 2 ^ (bits - 1) <= z < 2 ^ (bits - 1) -> reads h (parse_integer (from_radix_10_signed bits)) (enc_int z) z.
Proof.
  intros Hz. destruct (digits_spec (Z.abs z) ltac:(lia)) as (Hne & Hd & Hv).
  apply parse_integer_reads. intros rest Hr. unfold display. destruct (Z.ltb_spec z 0).
  - rewrite Z.abs_neq in * by lia. cbn [app]. rewrite radix_10_negative_spec by (done || lia).
    rewrite Hv, Z.opp_involutive. done.
  - rewrite Z.abs_eq in * by lia. rewrite radix_10_signed_spec by (done || lia). by rewrite Hv.
Qed.

Definition reads_in {A} (h : nat) (m : de A) (enc : bytes) (a : A) : Prop :=
  forall s rest, in_map h s -> de_buf s = enc ++ rest -> m s = (set_buf rest s, XOk a).

Lemma ready_mono h h' s : (h' <= h)%nat -> ready h s -> ready h' s.
Proof. intros Hh (? & ? & ?). repeat split; naive_solver lia. Qed.

Lemma reads_mono {A} h h' (m : de A) enc a : (h <= h')%nat -> reads h m enc a -> reads h' m enc a.
Proof. intros Hh Hm s rest Hs. apply Hm. by eapply ready_mono. Qed.

Lemma ready_set_buf h b s : ready h s -> ready h (set_buf b s).
Proof. done. Qed.

Lemma container_reads {A} h c (m : de A) enc a :
  reads_in h m enc a -> reads (S h) (container c m) (c :: enc) a.
Proof.
  intros Hm s rest (Hk & Hd & Hu & Hc & Hf) Hb. unfold container, parse_first_byte, mbind, io_bind.
  rewrite Hb. cbn [app]. rewrite Z.eqb_refl. unfold enter_container. cbn [de_max_depth de_depth set_buf].
  destruct (Nat.leb_spec (de_max_depth s) (de_depth s)); [lia|]. unfold io_state.
  rewrite (Hm (set_depth (S (de_depth s)) (set_buf (enc ++ rest) s)) rest); [done| |done].
  split; [repeat split|]; cbn; auto; lia.
Qed.

(** A key goes on the context and comes off with its value. *)
Lemma push_context_ready h k s : in_map h s -> ready h (push_context k s).
Proof.
  intros [(Hk & Hd & Hu & Hc & Hf) Hm]. unfold push_context.
  destruct (Nat.ltb_spec (length (de_field_context s)) 4).
  - repeat split; cbn; rewrite ?length_app; cbn; try done; try lia.
  - repeat split; cbn; unfold saturating_add; try done; try lia.
Qed.

Lemma pop_push_context h k s : in_map h s -> pop_context (push_context k s) = s.
Proof.
  intros [(Hk & Hd & Hu & Hc & Hf) Hm]. unfold push_context.
  destruct (Nat.ltb_spec (length (de_field_context s)) 4); unfold pop_context;
    cbn [de_field_context_did_not_fit de_field_context set_context].
  - destruct (Z.ltb_spec 0 (de_field_context_did_not_fit s)); [lia|]. rewrite removelast_last. by destruct s.
  - unfold saturating_add. rewrite Z.min_r by lia.
    destruct (Z.ltb_spec 0 (de_field_context_did_not_fit s + 1)); [|lia]. rewrite Z.add_simpl_r. by destruct s.
Qed.

Lemma push_context_set_buf k b s : push_context k (set_buf b s) = set_buf b (push_context k s).
Proof. unfold push_context. cbn [de_field_context set_buf]. by case_match. Qed.

Lemma push_context_buf k s : de_buf (push_context k s) = de_buf s.
Proof. unfold push_context. by case_match. Qed.

Lemma next_value_reads {A} h (m : de A) enc v k s rest :
  reads h m enc v -> in_map h s -> de_buf s = enc ++ rest ->
  next_value m (push_context k s) = (set_buf rest s, XOk v).
Proof.
  intros Hm Hs Hb. unfold next_value, mbind, io_bind, io_modify.
  rewrite (Hm (push_context k s) rest); [|by apply push_context_ready|].
  - cbn. by rewrite <- push_context_set_buf, (pop_push_context h).
  - by rewrite push_context_buf.
Qed.

Lemma strip_e_digit b rest : strip_e (enc_bytes b ++ rest) = None.
Proof.
  unfold enc_bytes. destruct (digits_spec (Z.of_nat (length b)) ltac:(lia)) as (Hne & Hd & _).
  destruct (digits _) as [|d ds]; [done|]. apply Forall_cons_1 in Hd as [Hd _]. cbn.
  unfold is_digit in Hd. by destruct (Z.eqb_spec d 101); [lia|].
Qed.

Lemma next_key_reads s k rest :
  de_parsing_key s = false -> Z.of_nat (length k) < 2 ^ 64 -> de_buf s = enc_bytes k ++ rest ->
  next_key parse_bytes s = (push_context k (set_buf rest s), XOk (Some k)).
Proof.
  intros Hp Hk Hb. unfold next_key. rewrite Hb, strip_e_digit. unfold mbind, io_bind, io_modify.
  rewrite (parse_bytes_spec _ k rest) by done. cbn [de_parsing_key set_parsing_key].
  unfold mret, io_ret. f_equal. unfold push_context. cbn [de_field_context set_buf set_parsing_key].
  by case_match; unfold set_parsing_key, set_context; cbn; rewrite Hp.
Qed.

(** *** The loops *)

Lemma seq_loop_reads {A} h n (m : de A) (encs : list bytes) (xs : list A) :
  Forall2 (reads h m) encs xs -> Forall (fun e => forall rest, strip_e (e ++ rest) = None) encs ->
  (length xs < n)%nat -> reads_in h (seq_loop n m) (concat encs ++ [101]) xs.
Proof.
  intros Hr. revert n. induction Hr as [|e x encs xs Hx _ IH]; intros n He Hn s rest Hs Hb;
    (destruct n as [|n]; [cbn in Hn; lia|]); cbn [seq_loop]; unfold mbind at 1, io_bind at 1, next_element.
  - by rewrite Hb.
  - apply Forall_cons_1 in He as [He Hes]. cbn in Hb. rewrite <- !app_assoc in Hb. rewrite Hb, He.
    unfold mbind, io_bind. rewrite (Hx s _ (proj1 Hs) Hb). cbn.
    cbn in Hn. rewrite (IH n Hes ltac:(lia) _ rest); [done|done|]. cbn. by rewrite <- app_assoc.
Qed.

(** Each entry takes the accumulator one step further. *)
Inductive steps {A} (h : nat) (step : bytes -> A -> de A) : list (bytes * bytes) -> A -> A -> Prop :=
| steps_nil acc : steps h step [] acc acc
| steps_cons k e es acc acc1 acc2 :
    Z.of_nat (length k) < 2 ^ 64 ->
    (forall s rest, in_map h s -> de_buf s = e ++ rest ->
       step k acc (push_context k s) = (set_buf rest s, XOk acc1)) ->
    steps h step es acc1 acc2 -> steps h step ((k, e) :: es) acc acc2.

Lemma map_loop_reads {A} h n (step : bytes -> A -> de A) es acc acc' :
  steps h step es acc acc' -> (length es < n)%nat ->
  reads_in h (map_loop n parse_bytes step acc) (concat (enc_entry <$> es) ++ [101]) acc'.
Proof.
  intros Hst. revert n. induction Hst as [acc|k e es acc acc1 acc2 Hk Hstep _ IH]; intros n Hn s rest Hs Hb;
    (destruct n as [|n]; [cbn in Hn; lia|]); cbn [map_loop]; unfold mbind at 1, io_bind at 1.
  - unfold next_key. by rewrite Hb.
  - cbn in Hb. unfold enc_entry at 1 in Hb. cbn in Hb. rewrite <- !app_assoc in Hb.
    rewrite (next_key_reads s k _ (proj1 (proj1 Hs)) Hk Hb). cbn. unfold mbind, io_bind.
    erewrite (Hstep (set_buf _ s)) by done. cbn in Hn. rewrite (IH n ltac:(lia) _ rest); [done|done|].
    cbn. by rewrite <- app_assoc.
Qed.

(** *** Values *)

Lemma enc_value_head v rest : strip_e (enc_value v ++ rest) = None.
Proof. destruct v; [apply strip_e_digit|done..]. Qed.

Lemma any_reads {A} h c e (m1 m2 m3 m4 : de A) a :
  reads h (if c =? 100 then m1 else if c =? 105 then m2 else if c =? 108 then m3 else m4) (c :: e) a ->
  reads h (deserialize_any m1 m2 m3 m4) (c :: e) a.
Proof.
  intros Hm s rest Hs Hb. rewrite <- (Hm s rest Hs Hb). unfold deserialize_any. rewrite Hb. cbn.
  by repeat case_match.
Qed.

Lemma enc_bytes_any {A} h b (m1 m2 m3 m4 : de A) a :
  reads h m4 (enc_bytes b) a -> reads h (deserialize_any m1 m2 m3 m4) (enc_bytes b) a.
Proof.
  unfold enc_bytes. destruct (digits_spec (Z.of_nat (length b)) ltac:(lia)) as (Hne & Hd & _).
  destruct (digits _) as [|d ds]; [done|]. apply Forall_cons_1 in Hd as [Hd _]. unfold is_digit in Hd.
  intros Hm. apply any_reads. destruct (Z.eqb_spec d 100), (Z.eqb_spec d 105), (Z.eqb_spec d 108); try lia. exact Hm.
Qed.

Lemma length_concat_ge (encs : list bytes) :
  Forall (fun e => e <> []) encs -> (length encs <= length (concat encs))%nat.
Proof.
  induction 1 as [|e encs He _ IH]; cbn; [lia|]. rewrite length_app. destruct e; [done|]. cbn. lia.
Qed.

Lemma strip_e_nonempty e : (forall rest, strip_e (e ++ rest) = None) -> e <> [].
Proof. intros He ->. by specialize (He [101]). Qed.

Lemma concat_in_le (encs : list bytes) e : e ∈ encs -> (length e <= length (concat encs))%nat.
Proof. induction 1; cbn; rewrite length_app; lia. Qed.

Lemma dict_insert_last {A} k (v : A) d :
  Forall (fun kv => bytes_leb k kv.1 = false) d -> dict_insert k v d = d ++ [(k, v)].
Proof.
  induction 1 as [|[k' v'] d Hk _ IH]; [done|]. cbn in *. rewrite bool_decide_eq_false_2, Hk, IH; [done|].
  intros ->. by rewrite bytes_leb_refl in Hk.
Qed.

Lemma keys_ascend_app {A} (d1 d2 : list (bytes * A)) k v :
  keys_ascend (d1 ++ (k, v) :: d2) -> Forall (fun kv => bytes_leb k kv.1 = false) d1.
Proof.
  induction d1 as [|[k' v'] d1 IH]; [done|]. intros [Hk Hd]. constructor; [|by apply IH].
  apply (proj1 (list.Forall_forall _ _) Hk (k, v)). apply elem_of_app. right. left.
Qed.

Lemma dict_steps h (rec : de BencodeValue) d1 d2 :
  keys_ascend (d1 ++ d2) -> Forall (fun kv => Z.of_nat (length kv.1) < 2 ^ 64) d2 ->
  Forall (fun kv => reads h rec (enc_value kv.2) kv.2) d2 ->
  steps h (fun k d => v ← next_value rec; mret (dict_insert k v d)) (map (fun kv => (kv.1, enc_value kv.2)) d2)
    d1 (d1 ++ d2).
Proof.
  intros Hk Hl Hr. revert d1 Hk. induction Hr as [|[k v] d2 Hv _ IH]; intros d1 Hk.
  - rewrite app_nil_r. constructor.
  - apply Forall_cons_1 in Hl as [Hl Hls]. cbn [map fst snd] in *. eapply (steps_cons _ _ _ _ _ _ (d1 ++ [(k, v)])); [done| |].
    + intros s rest Hs Hb. unfold mbind, io_bind. rewrite (next_value_reads h rec (enc_value v) v k s rest) by done.
      by rewrite dict_insert_last by by eapply keys_ascend_app.
    + change ((k, v) :: d2) with ([(k, v)] ++ d2). rewrite app_assoc. apply IH; [done|]. by rewrite <- app_assoc.
Qed.

Lemma value_reads v fuel :
  value_ok v -> (length (enc_value v) < fuel)%nat -> reads (height v) (de_value fuel) (enc_value v) v.
Proof.
  revert fuel. induction v as [b|z|l IH|d IH] using BencodeValue_ind'; intros fuel Hv Hf;
    (destruct fuel as [|n]; [lia|]); cbn [de_value]; unfold visit_value.
  - apply enc_bytes_any, (reads_fmap 0 parse_bytes Bytes), parse_bytes_reads, Hv.
  - apply any_reads. apply (reads_fmap 0 _ Integer _ z). by apply signed_reads.
  - cbn [value_ok] in Hv. apply foldr_and_Forall in Hv. cbn in Hf. rewrite length_app in Hf. cbn in Hf.
    set (h := foldr (fun v n => Nat.max (height v) n) 0%nat l). change (height (List l)) with (S h).
    assert (Forall (fun e : bytes => forall rest, strip_e (e ++ rest) = None) (map enc_value l)) as Hhead.
    { apply Forall_map, list.Forall_forall. intros v _. apply enc_value_head. }
    apply any_reads. apply (reads_fmap (S h) _ List _ l), container_reads, seq_loop_reads; [|done|].
    + assert (Forall (fun v => (height v <= h)%nat) l) as Hh by by apply foldr_max_le.
      apply Forall2_fmap_l, Forall_Forall2_diag. apply list.Forall_forall. intros v Hin.
      eapply list.Forall_forall in Hh, IH, Hv; [|done..]. eapply reads_mono; [exact Hh|]. apply IH; [done|].
      pose proof (concat_in_le (map enc_value l) (enc_value v) ltac:(by apply list_elem_of_fmap_2)). lia.
    + assert (length l <= length (concat (map enc_value l)))%nat; [|lia].
      rewrite <- (length_map enc_value l). apply length_concat_ge. eapply Forall_impl; [|exact Hhead].
      cbn. intros e. apply strip_e_nonempty.
  - destruct Hv as [Hk Hv]. apply foldr_and_Forall in Hv. cbn [enc_value] in *.
    set (h := foldr (fun kv n => Nat.max (height kv.2) n) 0%nat d). change (height (Dict d)) with (S h).
    unfold enc_map in *. cbn in Hf. rewrite length_app in Hf. cbn in Hf.
    apply any_reads. apply (reads_fmap (S h) _ Dict _ d), container_reads, map_loop_reads.
    + apply (dict_steps h _ [] d Hk); [by eapply Forall_impl; [|exact Hv]; intros ? []|].
      assert (Forall (fun kv => (height kv.2 <= h)%nat) d) as Hh by by apply (foldr_max_le (fun kv => height kv.2)).
      apply list.Forall_forall. intros kv Hin. eapply list.Forall_forall in Hh, IH, Hv; [|done..].
      eapply reads_mono; [exact Hh|]. apply IH; [by apply Hv|].
      assert (enc_entry (kv.1, enc_value kv.2) ∈ enc_entry <$> map (fun kv => (kv.1, enc_value kv.2)) d) as He%concat_in_le.
      { apply list_elem_of_fmap_2. by apply (list_elem_of_fmap_2 (fun kv => (kv.1, enc_value kv.2))). }
      unfold enc_entry at 1 in He. cbn in He. rewrite length_app in He. lia.
    + assert (length (map (fun kv => (kv.1, enc_value kv.2)) d)
        <= length (concat (enc_entry <$> map (fun kv => (kv.1, enc_value kv.2)) d)))%nat; [|lia].
      rewrite <- (length_fmap enc_entry). apply length_concat_ge, Forall_fmap, Forall_map, list.Forall_forall.
      intros kv _. cbn. unfold enc_entry, enc_bytes. destruct (digits_spec (Z.of_nat (length kv.1)) ltac:(lia)) as (? & _).
      by destruct (digits _).
Qed.
End Reading.

(** The state [from_bytes] starts with. *)
Lemma new_from_buf_ready h b : (h <= DEFAULT_MAX_DEPTH)%nat -> ready h (new_from_buf b).
Proof. unfold ready, new_from_buf, DEFAULT_MAX_DEPTH. cbn. intros. repeat split; intros; (done || lia). Qed.

(** C19: Writing a value and reading it back gives the value, with what followed
    it left over: for 64-bit integers, strings of any bytes and maps and lists
    nested up to the depth limit, whatever order a map is iterated in.  The
    bytes do not depend on that order. *)
Theorem bencode_roundtrip `{AtoiSpec} `{DictIter} (v : BencodeValue) (rest : bytes) :
  value_ok v -> (height v <= DEFAULT_MAX_DEPTH)%nat ->
  bencode_serialize_to_writer (value_ser v) None
  = (wrote (BencodeSerializer_new None) (enc_value v), XOk ())
  /\ from_bytes_with_rest ShValue (enc_value v ++ rest) = XOk (VValue v, rest).
Proof.
  intros Hv Hh. split; [by apply (value_ser_writes v Hv (BencodeSerializer_new None))|].
  unfold from_bytes_with_rest. rewrite length_app. cbn [sh_height]. rewrite <- Nat.add_assoc, Nat.add_comm.
  cbn [Nat.add deserialize]. unfold mbind, io_bind.
  rewrite (value_reads v _ Hv) with (rest := rest); [done|lia|by apply new_from_buf_ready|done].
Qed.

Definition ex_dict : BencodeValue :=
  Dict [([97], List [Integer (-7); Bytes []]); ([97; 98], Dict []); ([98], Integer 300)].

(** A [HashMap] that iterates backwards. *)
Definition dict_iter_rev : DictIter := {| dict_iter := reverse; dict_iter_perm d := reverse_Permutation d |}.

Lemma bencode_roundtrip_witness :
  from_bytes_with_rest (H := atoi_ref) ShValue (enc_value ex_dict ++ [1; 2]) = XOk (VValue ex_dict, [1; 2]).
Proof.
  apply (@bencode_roundtrip atoi_ref atoi_ref_spec dict_iter_rev ex_dict [1; 2]).
  - cbn. repeat split; try done; repeat constructor; done.
  - vm_compute. lia.
Defined.

(** ** Every input is answered

    [runs n min Q m]: on a buffer of fewer than [n] bytes [m] neither panics nor
    runs out of fuel; it leaves a suffix of the buffer, at least [min] bytes
    shorter on success, and the depth as it was; and [Q] holds of the levels
    that were left and the result. *)

Definition runs {A} (n min : nat) (Q : nat -> A -> Prop) (m : de A) : Prop :=
  forall s, (length (de_buf s) < n)%nat ->
    let '(s', r) := m s in
    de_depth s' = de_depth s /\ de_max_depth s' = de_max_depth s /\ suffix (de_buf s') (de_buf s)
    /\ match r with
       | XOk a => (length (de_buf s') + min <= length (de_buf s))%nat /\ Q (de_max_depth s - de_depth s)%nat a
       | XErr _ => True
       | XPanic => False
       end.

Definition anything {A} (_ : nat) (_ : A) : Prop := True.

Lemma runs_weaken {A} n n' min min' (Q Q' : nat -> A -> Prop) m :
  (n' <= n)%nat -> (min' <= min)%nat -> (forall k a, Q k a -> Q' k a) -> runs n min Q m -> runs n' min' Q' m.
Proof.
  intros Hn Hmin HQ Hm s Hs. specialize (Hm s ltac:(lia)). destruct (m s) as [s' r].
  destruct Hm as (? & ? & ? & Hr). split_and!; [done..|]. destruct r; [|done..]. destruct Hr. split; [lia|auto].
Qed.

Lemma runs_bind {A B} n min1 min2 (Q1 : nat -> A -> Prop) (Q2 : nat -> B -> Prop) m f :
  runs n min1 Q1 m -> (forall a, runs (n - min1) min2 (fun k b => Q1 k a -> Q2 k b) (f a)) ->
  runs n (min1 + min2) Q2 (m ≫= f).
Proof.
  intros Hm Hf s Hs. specialize (Hm s Hs). unfold mbind, io_bind. destruct (m s) as [s1 [a|e|]];
    destruct Hm as (Hd & Hx & Hsuf & Hr); [|by split_and!|done].
  destruct Hr as [Hlen HQ]. specialize (Hf a s1 ltac:(lia)). destruct (f a s1) as [s2 r].
  destruct Hf as (Hd2 & Hx2 & Hsuf2 & Hr2). split_and!; [congruence..|by transitivity (de_buf s1)|].
  destruct r; [|done..]. rewrite Hd, Hx in Hr2. destruct Hr2. split; [lia|auto].
Qed.

Lemma runs_ret {A} n (Q : nat -> A -> Prop) a : (forall k, Q k a) -> runs n 0 Q (mret a).
Proof. intros HQ s Hs. cbn. split_and!; [done..|lia|done]. Qed.

Lemma runs_throw {A} n min (Q : nat -> A -> Prop) e : runs n min Q (io_lift (XErr e)).
Proof. intros s Hs. cbn. by split_and!. Qed.

Lemma runs_fmap {A B} n min (Q1 : nat -> A -> Prop) (Q2 : nat -> B -> Prop) m (f : A -> B) :
  runs n min Q1 m -> (forall k a, Q1 k a -> Q2 k (f a)) -> runs n min Q2 (x ← m; mret (f x)).
Proof.
  intros Hm HQ. rewrite <- (Nat.add_0_r min). eapply runs_bind; [done|]. intros a. apply runs_ret. auto.
Qed.

(** Changes of the context and of the key flag do not count. *)
Definition same_input (f : BencodeDeserializer -> BencodeDeserializer) : Prop :=
  forall s, de_buf (f s) = de_buf s /\ de_depth (f s) = de_depth s /\ de_max_depth (f s) = de_max_depth s.

Lemma runs_modify n f : same_input f -> runs n 0 anything (io_modify f).
Proof. intros Hf s Hs. cbn. destruct (Hf s) as (-> & -> & ->). by split_and!; try lia. Qed.

Lemma pop_context_same : same_input pop_context.
Proof. intros s. unfold pop_context. by case_match. Qed.

Lemma set_parsing_key_same b : same_input (set_parsing_key b).
Proof. done. Qed.

Lemma first_byte_runs n c e : runs n 1 anything (parse_first_byte c e).
Proof.
  intros s Hs. unfold parse_first_byte. destruct (de_buf s) as [|b rest] eqn:Hb; [by rewrite Hb|].
  destruct (b =? c); cbn; rewrite ?Hb; split_and!; try done; [by apply suffix_cons_r|cbn; lia].
Qed.

Lemma drop_runs (b : bytes) len c :
  b !! len = Some c -> suffix (drop (len + 1) b) b /\ (length (drop (len + 1) b) + 1 <= length b)%nat.
Proof.
  intros Hc%lookup_lt_Some. split; [apply suffix_drop|]. rewrite length_drop. lia.
Qed.

Lemma parse_integer_runs n atoi : runs n 1 anything (parse_integer atoi).
Proof.
  apply (runs_bind n 1 0 anything); [apply first_byte_runs|]. intros u s Hs. unfold io_state.
  destruct (atoi (de_buf s)) as [v len]. destruct (_ && _) eqn:E; [|by split_and!].
  apply andb_true_iff in E as [_ Hc%bool_decide_eq_true]. destruct (drop_runs _ _ _ Hc).
  cbn. split_and!; try done. lia.
Qed.

Lemma parse_bytes_runs `{Atoi} n : runs n 1 anything parse_bytes.
Proof.
  intros s Hs. unfold parse_bytes. destruct (from_radix_10 64 (de_buf s)) as [v len].
  destruct (_ && _) eqn:E; [|by split_and!].
  apply andb_true_iff in E as [_ Hc%bool_decide_eq_true]. destruct (drop_runs _ _ _ Hc) as [Hsuf Hlen].
  cbn [de_buf set_buf]. destruct (_ <? v); [by split_and!|].
  assert (forall s', de_buf s' = drop (Z.to_nat v) (drop (len + 1) (de_buf s)) ->
    suffix (de_buf s') (de_buf s) /\ (length (de_buf s') + 1 <= length (de_buf s))%nat) as Hs'.
  { intros s' ->. split; [|rewrite length_drop; lia].
    transitivity (drop (len + 1) (de_buf s)); [apply suffix_drop|done]. }
  case_match; [unfold push_context; case_match|]; split_and!; try done; by eapply Hs'.
Qed.

Lemma strip_e_runs {A} n (Q : nat -> option A -> Prop) (m : de (option A)) :
  (forall k, Q k None) -> runs n 1 Q m ->
  runs n 1 Q (fun s => match strip_e (de_buf s) with
                       | Some rest => (set_buf rest s, XOk None)
                       | None => m s
                       end).
Proof.
  intros HN Hm s Hs. destruct (strip_e (de_buf s)) as [rest|] eqn:E; [|by apply Hm].
  unfold strip_e in E. destruct (de_buf s) as [|c b]; [done|]. destruct (c =? 101); [|done]. injection E as <-.
  cbn. split_and!; try done; [by apply suffix_cons_r|lia].
Qed.

Lemma next_element_runs {A} n (Q : nat -> A -> Prop) seed :
  runs n 1 Q seed -> runs n 1 (fun k o => forall x, o = Some x -> Q k x) (next_element seed).
Proof.
  intros Hs. apply strip_e_runs; [done|]. eapply runs_fmap; [exact Hs|]. by intros k a HQ x [= ->].
Qed.

Lemma next_key_runs {A} n (seed : de A) : runs n 1 anything seed -> runs n 1 anything (next_key seed).
Proof.
  intros Hs. apply strip_e_runs; [done|]. apply (runs_bind n 0 1 anything); [by apply runs_modify|]. intros u.
  rewrite Nat.sub_0_r. apply (runs_bind n 1 0 anything); [done|]. intros a.
  apply (runs_bind _ 0 0 anything); [by apply runs_modify|]. intros ?. by apply runs_ret.
Qed.

Lemma next_value_runs {A} n min (Q : nat -> A -> Prop) seed : runs n min Q seed -> runs n min Q (next_value seed).
Proof.
  intros Hs. rewrite <- (Nat.add_0_r min). eapply runs_bind; [exact Hs|]. intros a.
  apply (runs_bind _ 0 0 anything); [apply runs_modify, pop_context_same|]. intros ?. by apply runs_ret.
Qed.

Lemma seq_loop_runs {A} f n (Q : nat -> A -> Prop) seed :
  (n <= f)%nat -> runs n 1 Q seed -> runs n 1 (fun k l => Forall (Q k) l) (seq_loop f seed).
Proof.
  revert n. induction f as [|f IH]; intros n Hn Hs; [intros s; lia|]. cbn [seq_loop].
  eapply (runs_bind n 1 0); [by apply next_element_runs|]. intros [x|]; [|by apply runs_ret; intros; constructor].
  eapply runs_weaken; [reflexivity|apply Nat.le_0_l| |eapply runs_fmap; [apply IH|]]; [| |eapply runs_weaken..| ].
  - intros k l Hl. exact Hl.
  - lia.
  - by apply Nat.le_sub_l.
  - done.
  - by intros k a; apply id.
  - exact Hs.
  - cbn. intros k l Hl Hx. constructor; [by apply Hx|done].
Qed.

Lemma map_loop_runs {K A} f n (P : nat -> A -> Prop) (key : de K) step acc :
  (n <= f)%nat -> runs n 1 anything key ->
  (forall k acc, runs n 0 (fun r acc' => P r acc -> P r acc') (step k acc)) ->
  runs n 1 (fun r acc' => P r acc -> P r acc') (map_loop f key step acc).
Proof.
  intros Hn Hkey Hstep. revert n acc Hn Hkey Hstep. induction f as [|f IH]; intros n acc Hn Hkey Hstep; [intros s; lia|].
  cbn [map_loop]. eapply (runs_bind n 1 0); [by apply next_key_runs|]. intros [k|]; [|by apply runs_ret].
  eapply (runs_bind _ 0 0).
  - eapply runs_weaken; [apply Nat.le_sub_l|reflexivity| |apply Hstep]. by intros ? ?; apply id.
  - intros acc1. eapply runs_weaken; [| | |apply (IH (n - 1)%nat acc1)].
    + lia.
    + lia.
    + cbn. intros r acc2 H2 H1 _ H0. auto.
    + lia.
    + eapply runs_weaken; [apply Nat.le_sub_l|reflexivity|done|exact Hkey].
    + intros k' acc'. eapply runs_weaken; [apply Nat.le_sub_l|reflexivity| |apply Hstep]. by intros ? ?; apply id.
Qed.

Lemma container_runs {A} n c (Q : nat -> A -> Prop) (visit : de A) :
  runs n 0 Q visit -> runs (S n) 1 (fun k a => exists k', k = S k' /\ Q k' a) (container c visit).
Proof.
  intros Hv. eapply (runs_bind _ 1 0); [apply first_byte_runs|]. intros u s Hs. cbn in Hs.
  unfold mbind, io_bind, enter_container, io_state.
  destruct (Nat.leb_spec (de_max_depth s) (de_depth s)); [by split_and!|].
  specialize (Hv (set_depth (S (de_depth s)) s) ltac:(cbn; lia)). destruct (visit _) as [s' r].
  cbn in Hv. destruct Hv as (Hd & Hx & Hsuf & Hr). cbn. rewrite Hd. split_and!; try done.
  destruct r; [|done..]. destruct Hr as [Hlen HQ]. split; [done|]. intros _. eexists. split; [|exact HQ]. lia.
Qed.

Section Total.
Context `{Atoi}.

Lemma any_runs {A} n (Q : nat -> A -> Prop) m1 m2 m3 m4 :
  runs n 1 Q m1 -> runs n 1 Q m2 -> runs n 1 Q m3 -> runs n 1 Q m4 ->
  runs n 1 Q (deserialize_any m1 m2 m3 m4).
Proof.
  intros H1 H2 H3 H4 s Hs. unfold deserialize_any. destruct (de_buf s) as [|c b] eqn:Hb; [by rewrite Hb|].
  rewrite <- Hb in Hs. specialize (H1 s Hs). specialize (H2 s Hs). specialize (H3 s Hs). specialize (H4 s Hs).
  rewrite Hb in *. destruct (c =? 100); [exact H1|]. destruct (c =? 105); [exact H2|]. by destruct (c =? 108).
Qed.

Definition shallow (k : nat) (v : BencodeValue) : Prop := (height v <= k)%nat.

Lemma dict_insert_shallow k key v (d : list (bytes * BencodeValue)) :
  shallow k v -> Forall (fun kv => shallow k kv.2) d -> Forall (fun kv => shallow k kv.2) (dict_insert key v d).
Proof.
  intros Hv. induction 1 as [|[k' v'] d Hv' Hd IH]; cbn; [by repeat constructor|].
  repeat case_match; repeat (constructor; try done).
Qed.

Lemma de_value_runs fuel : runs fuel 1 shallow (de_value fuel).
Proof.
  induction fuel as [|n IH]; [intros s; lia|]. cbn [de_value]. apply any_runs.
  - eapply runs_fmap; [apply (container_runs n _ (fun k d => Forall (fun kv => shallow k kv.2) d))|].
    + eapply runs_weaken; [reflexivity|apply Nat.le_0_l| |
        apply (map_loop_runs n n (fun k d => Forall (fun kv => shallow k kv.2) d)); [done|apply parse_bytes_runs|]].
      * intros k a Ha. by apply Ha.
      * intros key d. eapply runs_weaken; [reflexivity|apply Nat.le_0_l| |
          eapply runs_fmap; [by apply next_value_runs|]]; [intros k a Ha; exact Ha|].
        intros k v Hv Hd. by apply dict_insert_shallow.
    + intros k d (k' & -> & Hd). unfold shallow. cbn. apply le_n_S. by apply (foldr_max_le (fun kv => height kv.2)).
  - eapply runs_fmap; [apply parse_integer_runs|]. unfold shallow. cbn. lia.
  - eapply runs_fmap; [eapply container_runs, runs_weaken; [reflexivity|apply Nat.le_0_l| |by apply seq_loop_runs]|].
    + intros k l Hl. exact Hl.
    + intros k l (k' & -> & Hl). unfold shallow. cbn. apply le_n_S. by apply foldr_max_le.
  - eapply runs_fmap; [apply parse_bytes_runs|]. unfold shallow. cbn. lia.
Qed.

Lemma de_ignored_runs fuel : runs fuel 1 anything (de_ignored fuel).
Proof.
  induction fuel as [|n IH]; [intros s; lia|]. cbn [de_ignored]. apply any_runs.
  - eapply runs_weaken; [reflexivity|reflexivity| |apply (container_runs n _ anything)]; [done|].
    eapply runs_weaken; [reflexivity|apply Nat.le_0_l| |apply (map_loop_runs n n anything); [done|exact IH|]]; [done|].
    intros k acc. eapply runs_weaken; [reflexivity|apply Nat.le_0_l| |by apply next_value_runs]. done.
  - by eapply runs_fmap; [apply parse_integer_runs|].
  - eapply runs_fmap; [apply (container_runs n _ anything)|done].
    eapply runs_weaken; [reflexivity|apply Nat.le_0_l| |by apply seq_loop_runs]. done.
  - by eapply runs_fmap; [apply parse_bytes_runs|].
Qed.

(** The shape that was asked for [ShValue] is read with its depth. *)
Definition answer (k : nat) (v : value) : Prop := match v with VValue b => shallow k b | _ => True end.

Lemma pair_runs n (Q1 Q2 : nat -> value -> Prop) a b other :
  runs n 1 Q1 a -> runs n 1 Q2 b -> runs n 1 anything other -> runs n 1 answer (visit_pair a b other).
Proof.
  intros Ha Hb Ho.
  assert (forall A (Q : nat -> A -> Prop) m, runs n 1 Q m -> runs (n - 1) 0 anything (next_element m)) as Hnext.
  { intros A Q m Hm. eapply runs_weaken; [| | |apply next_element_runs, Hm]; [lia|lia|done]. }
  eapply (runs_bind n 1 0); [apply next_element_runs, Ha|]. intros [x|]; [|apply runs_throw].
  eapply (runs_bind _ 0 0); [by eapply Hnext|]. intros [y|]; [|apply runs_throw]. rewrite Nat.sub_0_r.
  eapply (runs_bind _ 0 0); [by eapply Hnext|]. intros [z|]; [apply runs_throw|by apply runs_ret].
Qed.

Lemma find_field_height key (fields : list field) i sh :
  find_field key fields = Some (i, sh) ->
  (sh_height sh <= foldr (fun f acc => Nat.max (sh_height f.2) acc) 1%nat fields)%nat.
Proof.
  revert i sh. induction fields as [|[[name r] sh'] fields IH]; intros i sh Hf; [done|]. cbn in *.
  case_bool_decide; [by simplify_eq; lia|].
  destruct (find_field key fields) as [[j sh'']|]; [|done]. cbn in Hf. simplify_eq. specialize (IH j sh eq_refl). lia.
Qed.

Lemma deserialize_runs fuel sh n : (n + sh_height sh <= fuel)%nat -> runs n 1 answer (deserialize fuel sh).
Proof.
  revert sh n. induction fuel as [|f IH]; intros sh n Hf; [by destruct sh; cbn in Hf; intros s; lia|].
  destruct sh as [| | |bits|bits|accept|sh|fields|sh|sh1 sh2]; cbn [deserialize sh_height] in *.
  - eapply runs_fmap; [eapply runs_weaken; [|reflexivity| |apply de_value_runs]|]; [lia|intros k a Ha; exact Ha|done].
  - eapply runs_fmap; [eapply runs_weaken; [|reflexivity| |apply de_ignored_runs]|]; [lia|intros k a Ha; exact Ha|done].
  - eapply runs_fmap; [|done]. apply (runs_bind n 1 0 anything); [apply parse_integer_runs|].
    intros v. case_match; [apply runs_throw|by apply (runs_ret _ (fun k b => _ -> anything k b))].
  - by eapply runs_fmap; [apply parse_integer_runs|].
  - by eapply runs_fmap; [apply parse_integer_runs|].
  - apply (runs_bind n 1 0 anything); [apply parse_bytes_runs|]. intros b.
    case_match; [by apply runs_ret|apply runs_throw].
  - eapply runs_fmap; [|done]. eapply runs_weaken; [|reflexivity| |apply (container_runs n _ anything)]; [lia|done|].
    eapply runs_weaken; [reflexivity|apply Nat.le_0_l| |apply seq_loop_runs; [lia|apply IH; lia]]. done.
  - set (Q := fun (_ : nat) v => exists slots, v = VStruct slots).
    eapply runs_weaken; [|reflexivity| |apply (container_runs n _ Q)]; [lia|by intros k a (? & _ & ? & ->)|].
    eapply (runs_weaken n n 1 0 Q); [reflexivity|lia|done|apply (runs_bind n 1 0 anything)].
    + eapply runs_weaken; [reflexivity|reflexivity| |apply (map_loop_runs f n anything)]; [done|lia|apply parse_bytes_runs|].
      intros key slots. unfold struct_step. destruct (find_field key fields) as [[i sh]|] eqn:Ef.
      * apply find_field_height in Ef. case_match; [case_match; [apply runs_throw|]|];
          (eapply runs_weaken; [reflexivity|apply Nat.le_0_l| |
             apply (runs_fmap _ _ answer anything); [apply next_value_runs, IH; lia|done]]; done).
      * eapply runs_weaken; [reflexivity|apply Nat.le_0_l| |
          apply (runs_fmap _ _ answer anything); [apply next_value_runs, (IH ShIgnored)|done]]; [done|].
        cbn. clear -Hf. assert (1 <= foldr (fun f acc => Nat.max (sh_height f.2) acc) 1 fields)%nat; [|lia].
        induction fields; cbn; lia.
    + intros slots. unfold struct_finish. case_match; [apply runs_throw|apply runs_ret]. intros k _. by eexists.
  - intros s Hs. specialize (IH sh n ltac:(lia) s Hs). unfold with_raw_bytes.
    destruct (deserialize f sh s) as [s' [v|e|]]; [|done..]. destruct IH as (? & ? & ? & ? & _). by split_and!.
  - eapply runs_weaken; [|reflexivity| |apply (container_runs n _ answer)]; [lia| |].
    { intros k a (k' & -> & Ha). destruct a; try done. cbn in *. unfold shallow in *. lia. }
    eapply runs_weaken; [reflexivity|apply Nat.le_0_l|by intros k a Ha; exact Ha|].
    apply (pair_runs _ answer answer); [apply IH; lia..|]. eapply runs_weaken; [|reflexivity| |apply de_ignored_runs]; [lia|done].
Qed.

Lemma from_bytes_answers (sh : shape) (buf : bytes) :
  match from_bytes_with_rest sh buf with
  | XOk (v, rest) =>
    (exists used, used <> [] /\ buf = used ++ rest)
    /\ match v with VValue b => (height b <= DEFAULT_MAX_DEPTH)%nat | _ => True end
  | XErr _ => True
  | XPanic => False
  end.
Proof.
  pose proof (deserialize_runs (length buf + sh_height sh + 2) sh (S (length buf)) ltac:(lia)
    (new_from_buf buf) ltac:(cbn; lia)) as Hr.
  unfold from_bytes_with_rest. destruct (deserialize _ sh _) as [s [v|e|]]; [|done|by destruct Hr as (_ & _ & _ & [])].
  destruct Hr as (_ & _ & [used Hu] & Hlen & Hv). cbn in Hu, Hlen, Hv. split.
  - exists used. split; [|done]. intros ->. cbn in Hu. subst. lia.
  - by destruct v.
Qed.
End Total.
