(* ===== verification/BencodeDepth.v ===== *)
(** * What the bencode deserializer takes from its input ([crates/bencode])

    For every type that is asked for, with the values that the type ignores, the bytes
    that are consumed spell one value that nests no deeper than the limit. *)

From stdpp Require Import base tactics option list list_numbers numbers decidable.
From Stdlib Require Import ZArith Lia.
From S2P Require Import Prelude Bencode.
Open Scope Z_scope.

(** ** What is read

    The spelling of a value whose lists and dictionaries nest at most [k] deep.  The
    length of a string is what its digits say, where that fits 64 bits; the keys of a
    dictionary whose value nobody asked for may be anything. *)

Definition number_char (c : Z) : Prop := is_digit c \/ c = 43 \/ c = 45.

Inductive item : nat -> bytes -> Prop :=
| item_int k body : body <> [] -> Forall number_char body -> item k (105 :: body ++ [101])
| item_bytes k ds data :
    ds <> [] -> Forall is_digit ds -> (dec_value ds < 2 ^ 64 -> Z.of_nat (length data) = dec_value ds) ->
    item k (ds ++ 58 :: data)
| item_list k es : Forall (item k) es -> item (S k) (108 :: concat es ++ [101])
| item_dict k kvs :
    Forall (fun kv => item k kv.1 /\ item k kv.2) kvs ->
    item (S k) (100 :: concat ((fun kv => kv.1 ++ kv.2) <$> kvs) ++ [101]).

(** [atoi] reads only what can be of a number. *)
Class AtoiDigits `{Atoi} : Prop := {
  radix_10_digits bits b :
    let n := (from_radix_10 bits b).2 in (n <= length b)%nat /\ Forall is_digit (take n b);
  radix_10_signed_chars bits b :
    let n := (from_radix_10_signed bits b).2 in (n <= length b)%nat /\ Forall number_char (take n b)
}.

Lemma leading_digits_take b :
  (length (leading_digits b) <= length b)%nat /\ take (length (leading_digits b)) b = leading_digits b
  /\ Forall is_digit (leading_digits b).
Proof.
  induction b as [|c b (? & IH & ?)]; cbn; [done|]. destruct (decide (is_digit c)); cbn; [|by split; [lia|]].
  rewrite IH. split_and!; [lia|done|by constructor].
Qed.

#[export] Instance atoi_ref_digits : @AtoiDigits atoi_ref.
Proof.
  split; intros bits b; cbn.
  - destruct (leading_digits_take b) as (? & -> & ?). done.
  - assert (forall l, Forall is_digit l -> Forall number_char l) as Hc.
    { intros l Hl. eapply list.Forall_impl; [exact Hl|]. by left. }
    unfold read_signed. destruct b as [|c b]; [done|]. destruct (Z.eqb_spec c 45) as [->|_].
    + destruct (leading_digits_take b) as (? & E & ?). cbn. rewrite E. split; [lia|].
      constructor; [by right; right|by apply Hc].
    + destruct (leading_digits_take (c :: b)) as (? & E & ?). cbn [snd]. rewrite E. split; [done|by apply Hc].
Qed.

(** [spells G m]: when [m] succeeds, what it took from the buffer is as [G] says for the
    levels that were left and the result. *)
Definition spells {A} (G : nat -> A -> bytes -> Prop) (m : de A) : Prop :=
  forall s s' a, m s = (s', XOk a) ->
    exists used, de_buf s = used ++ de_buf s' /\ de_depth s' = de_depth s /\ de_max_depth s' = de_max_depth s
      /\ G (de_max_depth s - de_depth s)%nat a used.

Definition of_kind {A} (P : nat -> bytes -> Prop) (k : nat) (_ : A) (u : bytes) : Prop := P k u.
Definition no_input {A} (_ : nat) (_ : A) (u : bytes) : Prop := u = [].

Lemma spells_weaken {A} (G G' : nat -> A -> bytes -> Prop) m :
  (forall k a u, G k a u -> G' k a u) -> spells G m -> spells G' m.
Proof. intros HG Hm s s' a E. destruct (Hm s s' a E) as (u & ? & ? & ? & ?). exists u. auto. Qed.

Lemma spells_bind {A B} (G1 : nat -> A -> bytes -> Prop) (G2 : A -> nat -> B -> bytes -> Prop)
    (G : nat -> B -> bytes -> Prop) m f :
  spells G1 m -> (forall a, spells (G2 a) (f a)) ->
  (forall k a b u1 u2, G1 k a u1 -> G2 a k b u2 -> G k b (u1 ++ u2)) -> spells G (m ≫= f).
Proof.
  intros Hm Hf HG s s' b. unfold mbind, io_bind. destruct (m s) as [s1 [a|e|]] eqn:E1; [|done..]. intros E2.
  destruct (Hm s s1 a E1) as (u1 & Hb1 & Hd1 & Hx1 & H1). destruct (Hf a s1 s' b E2) as (u2 & Hb2 & Hd2 & Hx2 & H2).
  exists (u1 ++ u2). rewrite Hd1, Hx1 in H2. split_and!; [|congruence..|by eapply HG].
  rewrite Hb1, Hb2. apply app_assoc.
Qed.

Lemma spells_ret {A} (a : A) : spells (fun _ b u => b = a /\ u = []) (mret a).
Proof. intros s s' b [= <- <-]. by exists []. Qed.

Lemma spells_throw {A} (G : nat -> A -> bytes -> Prop) e : spells G (io_lift (XErr e)).
Proof. by intros s s' a [=]. Qed.

Lemma spells_panic {A} (G : nat -> A -> bytes -> Prop) : spells G (io_lift XPanic).
Proof. by intros s s' a [=]. Qed.

Lemma spells_fmap {A B} P (m : de A) (f : A -> B) :
  spells (of_kind P) m -> spells (of_kind P) (x ← m; mret (f x)).
Proof.
  intros Hm. eapply spells_bind; [exact Hm|intros a; apply spells_ret|]. unfold of_kind.
  intros k a b u1 u2 H1 [_ ->]. by rewrite app_nil_r.
Qed.

Lemma spells_modify f : same_input f -> spells no_input (io_modify f).
Proof. intros Hf s s' a [= <- <-]. destruct (Hf s) as (-> & -> & ->). by exists []. Qed.

Lemma first_byte_spells c e : spells (fun _ _ u => u = [c]) (parse_first_byte c e).
Proof.
  intros s s' a. unfold parse_first_byte. destruct (de_buf s) as [|b rest] eqn:Hb; [done|].
  destruct (Z.eqb_spec b c) as [->|]; [|done]. intros [= <- _]. by exists [c].
Qed.

Lemma lookup_split (b : bytes) n c : b !! n = Some c -> b = take n b ++ c :: drop (n + 1) b.
Proof. intros Hc. rewrite <- (take_drop_middle b n c Hc) at 1. by rewrite Nat.add_1_r. Qed.

Lemma parse_integer_spells atoi :
  (forall b, (((atoi b).2 : nat) <= length b)%nat /\ Forall number_char (take (atoi b).2 b)) ->
  spells (of_kind item) (parse_integer atoi).
Proof.
  intros Ha. apply (spells_bind (fun _ _ u => u = [105])
    (fun _ _ _ u => exists body, body <> [] /\ Forall number_char body /\ u = body ++ [101])).
  - apply first_byte_spells.
  - intros u s s' v. unfold io_state. specialize (Ha (de_buf s)). destruct (atoi (de_buf s)) as [z n]. cbn in Ha.
    destruct (_ && _) eqn:E; [|done]. intros [= <- _].
    apply andb_true_iff in E as [Hn%Nat.ltb_lt Hc%bool_decide_eq_true].
    exists (take n (de_buf s) ++ [101]). cbn. split_and!; [|done..|].
    + rewrite <- app_assoc. by apply lookup_split.
    + eexists. split_and!; [|apply Ha|done]. intros Hz%(f_equal length). rewrite length_take in Hz. cbn in Hz. lia.
  - intros k a b u1 u2 -> (body & ? & ? & ->). by apply item_int.
Qed.

Lemma strip_e_spells {A} (G : nat -> option A -> bytes -> Prop) (m : de (option A)) :
  (forall k, G k None [101]) -> spells G m ->
  spells G (fun s => match strip_e (de_buf s) with
                     | Some rest => (set_buf rest s, XOk None)
                     | None => m s
                     end).
Proof.
  intros HN Hm s s' a. destruct (strip_e (de_buf s)) as [rest|] eqn:E; [|apply Hm].
  unfold strip_e in E. destruct (de_buf s) as [|c b] eqn:Hb; [done|]. destruct (Z.eqb_spec c 101) as [->|]; [|done].
  injection E as ->. intros [= <- <-]. by exists [101].
Qed.

(** The end of a list or dictionary, or an element of it. *)
Definition end_or {A} (P : nat -> bytes -> Prop) (k : nat) (o : option A) (u : bytes) : Prop :=
  match o with Some _ => P k u | None => u = [101] end.

Lemma next_element_spells {A} P (seed : de A) : spells (of_kind P) seed -> spells (end_or P) (next_element seed).
Proof.
  intros Hs. apply strip_e_spells; [done|]. eapply spells_bind; [exact Hs|intros a; apply spells_ret|].
  intros k a b u1 u2 H1 [-> ->]. by rewrite app_nil_r.
Qed.

Lemma next_key_spells {A} P (seed : de A) : spells (of_kind P) seed -> spells (end_or P) (next_key seed).
Proof.
  intros Hs. apply strip_e_spells; [done|].
  eapply (spells_bind no_input (fun _ => end_or P)); [by apply spells_modify, set_parsing_key_same| |by intros k a b u1 u2 ->].
  intros _. eapply (spells_bind (of_kind P) (fun a k b u => b = Some a /\ u = [])); [exact Hs| |].
  - intros a. eapply (spells_bind no_input (fun _ k b u => b = Some a /\ u = []));
      [by apply spells_modify, set_parsing_key_same|intros _; apply spells_ret|by intros k x b u1 u2 ->].
  - intros k a b u1 u2 H1 [-> ->]. by rewrite app_nil_r.
Qed.

Lemma next_value_spells {A} P (seed : de A) : spells (of_kind P) seed -> spells (of_kind P) (next_value seed).
Proof.
  intros Hs. eapply (spells_bind (of_kind P) (fun _ => no_input)); [exact Hs| |].
  - intros a. eapply (spells_bind no_input (fun _ => no_input)); [apply spells_modify, pop_context_same| |].
    + intros _. eapply spells_weaken; [|apply spells_ret]. by intros k b u [_ ->].
    + by intros k x b u1 u2 -> ->.
  - intros k a b u1 u2 H1 ->. by rewrite app_nil_r.
Qed.

(** The elements, and the entries, up to the end. *)
Definition elements (k : nat) (u : bytes) : Prop :=
  exists es, u = concat es ++ [101] /\ Forall (item k) es.

Definition entries (k : nat) (u : bytes) : Prop :=
  exists kvs, u = concat ((fun kv => kv.1 ++ kv.2) <$> kvs) ++ [101]
    /\ Forall (fun kv => item k kv.1 /\ item k kv.2) kvs.

Lemma elements_cons k e u : item k e -> elements k u -> elements k (e ++ u).
Proof. intros He (es & -> & Hes). exists (e :: es). cbn. rewrite app_assoc. split; [done|by constructor]. Qed.

Lemma elements_nil k : elements k [101].
Proof. by exists []. Qed.

Lemma seq_loop_spells {A} n (seed : de A) :
  spells (of_kind item) seed -> spells (of_kind elements) (seq_loop n seed).
Proof.
  intros Hs. induction n as [|n IH]; cbn [seq_loop]; [apply spells_panic|].
  eapply (spells_bind (end_or item) (fun o k _ u => match o with Some _ => elements k u | None => u = [] end)).
  - by apply next_element_spells.
  - intros [x|]; [by apply spells_fmap|]. eapply spells_weaken; [|apply spells_ret]. by intros k b u [_ ->].
  - unfold of_kind. intros k [x|] b u1 u2 H1 H2; [by apply elements_cons|]. cbn in H1. subst. apply elements_nil.
Qed.

Lemma map_loop_spells {K A} n (key : de K) (step : K -> A -> de A) acc :
  spells (of_kind item) key -> (forall k acc, spells (of_kind item) (step k acc)) ->
  spells (of_kind entries) (map_loop n key step acc).
Proof.
  intros Hk Hstep. revert acc. induction n as [|n IH]; intros acc; cbn [map_loop]; [apply spells_panic|].
  eapply (spells_bind (end_or item) (fun o k _ u => match o with
    | Some _ => exists v u', u = v ++ u' /\ item k v /\ entries k u' | None => u = [] end)).
  - by apply next_key_spells.
  - intros [x|].
    + eapply (spells_bind (of_kind item) (fun _ => of_kind entries)); [apply Hstep|intros acc'; apply IH|].
      intros k a b u1 u2 H1 H2. by exists u1, u2.
    + eapply spells_weaken; [|apply spells_ret]. by intros k b u [_ ->].
  - unfold of_kind. intros k [x|] b u1 u2 H1 H2.
    + destruct H2 as (v & u' & -> & Hv & kvs & -> & Hkvs). exists ((u1, v) :: kvs). cbn. rewrite <- !app_assoc.
      split; [done|by constructor].
    + cbn in H1. subst. by exists [].
Qed.

Lemma container_spells {A} c (P : nat -> bytes -> Prop) (visit : de A) :
  spells (of_kind P) visit ->
  spells (of_kind (fun k u => exists k' u', k = S k' /\ u = c :: u' /\ P k' u')) (container c visit).
Proof.
  intros Hv. eapply (spells_bind (fun _ _ u => u = [c]) (fun _ k _ u => exists k', k = S k' /\ P k' u)).
  - apply first_byte_spells.
  - intros _ s s' a. unfold mbind, io_bind, enter_container, io_state.
    destruct (Nat.leb_spec (de_max_depth s) (de_depth s)); [done|].
    destruct (visit _) as [s1 [x|e|]] eqn:E; [|done..]. intros [= <- <-].
    destruct (Hv _ _ _ E) as (u & Hb & Hd & Hx & HP). cbn in Hb, Hd, Hx, HP. exists u. cbn. rewrite Hd.
    split_and!; try done. eexists. split; [|exact HP]. lia.
  - intros k a b u1 u2 -> (k' & -> & HP). by exists k', u2.
Qed.

Lemma list_spells {A} (visit : de A) :
  spells (of_kind elements) visit -> spells (of_kind item) (container 108 visit).
Proof.
  intros Hv. eapply spells_weaken; [|by apply container_spells].
  intros k a u (k' & u' & -> & -> & es & -> & Hes). by apply item_list.
Qed.

Lemma dict_spells {A} (visit : de A) :
  spells (of_kind entries) visit -> spells (of_kind item) (container 100 visit).
Proof.
  intros Hv. eapply spells_weaken; [|by apply container_spells].
  intros k a u (k' & u' & -> & -> & kvs & -> & Hkvs). by apply item_dict.
Qed.

Lemma any_spells {A} (G : nat -> A -> bytes -> Prop) m1 m2 m3 m4 :
  spells G m1 -> spells G m2 -> spells G m3 -> spells G m4 -> spells G (deserialize_any m1 m2 m3 m4).
Proof.
  intros H1 H2 H3 H4 s s' a. unfold deserialize_any. destruct (de_buf s) as [|c b] eqn:Hb; [done|]. rewrite <- Hb.
  destruct (c =? 100); [apply H1|]. destruct (c =? 105); [apply H2|]. destruct (c =? 108); [apply H3|apply H4].
Qed.

Section Spelled.
Context `{Atoi} `{!AtoiSpec} `{!AtoiDigits}.

Lemma parse_bytes_spells : spells (of_kind item) parse_bytes.
Proof.
  intros s s' a. unfold parse_bytes. destruct (radix_10_digits 64 (de_buf s)) as [Hlen Hds].
  destruct (from_radix_10 64 (de_buf s)) as [v n] eqn:Ea. cbn [snd] in Hlen, Hds. destruct (_ && _) eqn:E; [|done].
  apply andb_true_iff in E as [Hn%Nat.ltb_lt Hc%bool_decide_eq_true]. cbn [de_buf set_buf].
  destruct (Z.ltb_spec (Z.of_nat (length (drop (n + 1) (de_buf s)))) v) as [|Hv]; [done|]. intros Hs'.
  set (data := take (Z.to_nat v) (drop (n + 1) (de_buf s))).
  assert (de_buf s' = drop (Z.to_nat v) (drop (n + 1) (de_buf s)) /\ de_depth s' = de_depth s
    /\ de_max_depth s' = de_max_depth s) as (Hb & Hd & Hx).
  { injection Hs' as <- _. case_match; [unfold push_context; case_match|]; done. }
  assert (de_buf s = take n (de_buf s) ++ 58 :: drop (n + 1) (de_buf s)) as Hsplit by by apply lookup_split.
  exists (take n (de_buf s) ++ 58 :: data). split_and!; [|done|done|].
  - rewrite Hb, <- app_assoc. cbn. unfold data. by rewrite take_drop.
  - assert (take n (de_buf s) <> []) as Hne.
    { intros Hz%(f_equal length). rewrite length_take in Hz. cbn in Hz. lia. }
    apply item_bytes; [done|done|]. intros Hfit.
    pose proof (radix_10_spec 64 (take n (de_buf s)) (58 :: drop (n + 1) (de_buf s)) Hne Hds
      ltac:(cbn; unfold is_digit; lia) Hfit) as Hr.
    rewrite <- Hsplit, Ea in Hr. injection Hr as -> _. pose proof (dec_value_nonneg _ Hds).
    unfold data. rewrite length_take. lia.
Qed.

Lemma unsigned_spells bits : spells (of_kind item) (parse_integer (from_radix_10 bits)).
Proof.
  apply parse_integer_spells. intros b. destruct (radix_10_digits bits b) as [? Hd]. split; [done|].
  eapply list.Forall_impl; [exact Hd|]. by left.
Qed.

Lemma signed_spells bits : spells (of_kind item) (parse_integer (from_radix_10_signed bits)).
Proof. apply parse_integer_spells. intros b. apply (radix_10_signed_chars bits b). Qed.

Lemma de_value_spells fuel : spells (of_kind item) (de_value fuel).
Proof.
  induction fuel as [|n IH]; cbn [de_value]; [apply spells_panic|]. apply any_spells; apply spells_fmap.
  - apply dict_spells, map_loop_spells; [apply parse_bytes_spells|]. intros k d. by apply spells_fmap, next_value_spells.
  - apply signed_spells.
  - by apply list_spells, seq_loop_spells.
  - apply parse_bytes_spells.
Qed.

Lemma de_ignored_spells fuel : spells (of_kind item) (de_ignored fuel).
Proof.
  induction fuel as [|n IH]; cbn [de_ignored]; [apply spells_panic|].
  apply any_spells; [|apply spells_fmap..].
  - apply dict_spells, map_loop_spells; [done|]. intros k d. by apply next_value_spells.
  - apply signed_spells.
  - by apply list_spells, seq_loop_spells.
  - apply parse_bytes_spells.
Qed.

Lemma pair_spells (a b : de value) (other : de ()) :
  spells (of_kind item) a -> spells (of_kind item) b -> spells (of_kind item) other ->
  spells (of_kind elements) (visit_pair a b other).
Proof.
  intros Ha Hb Ho. unfold visit_pair.
  assert (Hnext : forall k (x : option value) (v : value) u1 u2, end_or item k x u1 ->
    match x with Some _ => elements k u2 | None => False end -> of_kind elements k v (u1 ++ u2)).
  { intros k [x|] v u1 u2 Hu1 Hu2; [by apply elements_cons|done]. }
  eapply (spells_bind (end_or item) (fun x k (v : value) u => match x with Some _ => elements k u | None => False end));
    [by apply next_element_spells| |exact Hnext].
  intros [x|]; [|apply spells_throw].
  eapply (spells_bind (end_or item) (fun x k (v : value) u => match x with Some _ => elements k u | None => False end));
    [by apply next_element_spells| |exact Hnext].
  intros [y|]; [|apply spells_throw].
  eapply (spells_bind (end_or item) (fun (o : option ()) k v u => match o with Some _ => False | None => u = [] end));
    [by apply next_element_spells| |].
  - intros [z|]; [apply spells_throw|]. eapply spells_weaken; [|apply spells_ret]. by intros k v u [_ ->].
  - intros k [z|] v u1 u2 Hu1 Hu2; [done|]. cbn in Hu1. subst. apply elements_nil.
Qed.

Lemma spells_check {A B} P (m : de A) (f : A -> de B) :
  spells (of_kind P) m -> (forall a, spells no_input (f a)) -> spells (of_kind P) (m ≫= f).
Proof.
  intros Hm Hf. eapply spells_bind; [exact Hm|exact Hf|]. unfold of_kind, no_input.
  intros k a b u1 u2 Hu1 ->. by rewrite app_nil_r.
Qed.

Lemma ret_no_input {A} (a : A) : spells no_input (mret a).
Proof. eapply spells_weaken; [|apply spells_ret]. by intros k b u [_ ->]. Qed.

Lemma deserialize_spells fuel sh : spells (of_kind item) (deserialize fuel sh).
Proof.
  revert sh. induction fuel as [|f IH]; intros sh; [apply spells_panic|].
  destruct sh as [| | |bits|bits|accept|sh|fields|sh|sh1 sh2]; cbn [deserialize].
  - apply spells_fmap, de_value_spells.
  - apply spells_fmap, de_ignored_spells.
  - apply spells_fmap, spells_check; [apply unsigned_spells|].
    intros v. case_match; [apply spells_throw|apply ret_no_input].
  - apply spells_fmap, unsigned_spells.
  - apply spells_fmap, signed_spells.
  - apply spells_check; [apply parse_bytes_spells|]. intros b. case_match; [apply ret_no_input|apply spells_throw].
  - by apply spells_fmap, list_spells, seq_loop_spells.
  - apply dict_spells, spells_check.
    + apply map_loop_spells; [apply parse_bytes_spells|]. intros key slots. unfold struct_step.
      destruct (find_field key fields) as [[i sh]|]; [|by apply spells_fmap, next_value_spells].
      repeat case_match; try apply spells_throw; by apply spells_fmap, next_value_spells.
    + intros slots. unfold struct_finish. case_match; [apply spells_throw|apply ret_no_input].
  - intros s s' v. unfold with_raw_bytes. destruct (deserialize f sh s) as [s1 [x|e|]] eqn:E; [|done..].
    intros [= <- _]. by apply (IH sh s s1 x).
  - apply list_spells, pair_spells; [apply IH..|apply de_ignored_spells].
Qed.

(** C20: Whatever bytes come in and whatever type is asked for, the deserializer
    answers: it ends without panicking.  When it succeeds, the bytes it took from the
    front of the input are not empty and spell one value whose lists and dictionaries
    nest no deeper than the limit of 128, also where the type ignores them; what it
    leaves over is the rest.  A dynamic value that it returns nests no deeper either. *)
Theorem from_bytes_total (sh : shape) (buf : bytes) :
  match from_bytes_with_rest sh buf with
  | XOk (v, rest) =>
    (exists used, used <> [] /\ buf = used ++ rest /\ item DEFAULT_MAX_DEPTH used)
    /\ match v with VValue b => (height b <= DEFAULT_MAX_DEPTH)%nat | _ => True end
  | XErr _ => True
  | XPanic => False
  end.
Proof.
  pose proof (from_bytes_answers sh buf) as Ha. unfold from_bytes_with_rest in *.
  destruct (deserialize _ sh _) as [s [v|e|]] eqn:E; [|done..]. destruct Ha as [(used & Hne & Hu) Hv].
  split; [|done]. exists used. split_and!; [done|done|].
  destruct (deserialize_spells _ _ _ _ _ E) as (u & Hb & _ & _ & Hi). cbn in Hb, Hi.
  rewrite Hu in Hb. apply app_inv_tail in Hb as ->. exact Hi.
Qed.
End Spelled.

(** A key that the type ignores has a list in a dictionary: the bytes up to the end of the
    outer dictionary are one value. *)
Definition ex_nested : bytes := [100; 49; 58; 97; 100; 49; 58; 98; 108; 105; 45; 55; 101; 101; 101; 101; 120].

Lemma from_bytes_total_witness :
  @from_bytes_with_rest atoi_ref (ShStruct []) ex_nested = XOk (VStruct [], [120])
  /\ exists used, ex_nested = used ++ [120] /\ item DEFAULT_MAX_DEPTH used.
Proof.
  pose proof (@from_bytes_total atoi_ref _ _ (ShStruct []) ex_nested) as Ht.
  assert (@from_bytes_with_rest atoi_ref (ShStruct []) ex_nested = XOk (VStruct [], [120])) as E by by vm_compute.
  split; [exact E|]. rewrite E in Ht. destruct Ht as [(used & _ & Hu & Hi) _]. by exists used.
Defined.

(** What nests one level deeper than the limit is refused, ignored or not. *)
Lemma too_deep_refused :
  let deep n := replicate n 108 ++ replicate n 101 in
  @from_bytes_with_rest atoi_ref ShIgnored (deep 128%nat) = XOk (VIgnored, [])
  /\ @from_bytes_with_rest atoi_ref ShIgnored (deep 129%nat) = XErr (DepthLimit 128, [])
  /\ @from_bytes_with_rest atoi_ref ShValue (deep 129%nat) = XErr (DepthLimit 128, []).
Proof. by vm_compute. Qed.
