(* ===== verification/BencodeTypes.v ===== *)
(** * Types in bencode

    How the [Serialize] and [Deserialize] implementations that serde derives for
    a struct use the serializer and the deserializer of [Bencode], and the round
    trip of a type put together from that of its fields. *)

From stdpp Require Import base tactics option list list_numbers numbers decidable.
From Stdlib Require Import ZArith Lia.
From S2P Require Import Prelude Bencode.
Open Scope Z_scope.

(** ** Derived implementations *)

(** A struct whose fields that are [None] are skipped. *)
Definition struct_ser (fields : list (bytes * option Ser)) : Ser :=
  SerStruct (omap (fun f : bytes * option Ser => (fun s => (f.1, s)) <$> f.2) fields).

(** The field at position [i] of a struct that was read. *)
Definition slot_int (v : value) (i : nat) : option Z :=
  match v with
  | VStruct slots => match slots !! i with Some (Some (VInt z)) => Some z | _ => None end
  | _ => None
  end.

Definition slot_bytes (v : value) (i : nat) : option bytes :=
  match v with
  | VStruct slots => match slots !! i with Some (Some (VBytes b)) => Some b | _ => None end
  | _ => None
  end.

Definition slot_bool (v : value) (i : nat) : option bool :=
  match v with
  | VStruct slots => match slots !! i with Some (Some (VBool b)) => Some b | _ => None end
  | _ => None
  end.

(** A field that is a list, of elements read by [f]. *)
Definition slot_seq {A} (f : value -> A) (v : value) (i : nat) : option (list A) :=
  match v with
  | VStruct slots => match slots !! i with Some (Some (VSeq l)) => Some (f <$> l) | _ => None end
  | _ => None
  end.

Definition value_bytes (v : value) : bytes := match v with VBytes b => b | _ => [] end.

Definition any_bytes (b : bytes) : bool := true.

(** ** Codecs

    [codec h sh v s e]: the value [v] of a type of shape [sh] is written as the
    calls [s], that is as the bytes [e], and read back from them; its maps and
    lists nest [h] deep. *)

Record tfield := mkTF {
  tf_name : bytes;
  tf_required : bool;
  tf_shape : shape;
  tf_content : option (value * Ser * bytes)
}.

Definition fields_of (ts : list tfield) : list field := (fun t => (tf_name t, tf_required t, tf_shape t)) <$> ts.

Definition slot_of (t : tfield) : option value := (fun c => c.1.1) <$> tf_content t.

Definition slots_of (ts : list tfield) : list (option value) := slot_of <$> ts.

Definition fields_ser (ts : list tfield) : list (bytes * Ser) :=
  omap (fun t => (fun c => (tf_name t, c.1.2)) <$> tf_content t) ts.

Definition fields_enc (ts : list tfield) : list (bytes * bytes) :=
  omap (fun t => (fun c => (tf_name t, c.2)) <$> tf_content t) ts.

Definition int_content (z : Z) : value * Ser * bytes := (VInt z, SerInt z, enc_int z).
Definition some_content (z : Z) : value * Ser * bytes := (VInt z, SerSome (SerInt z), enc_int z).
Definition bytes_content (b : bytes) : value * Ser * bytes := (VBytes b, SerBytes b, enc_bytes b).

Definition bool_content (b : bool) : value * Ser * bytes := (VBool b, SerBool b, enc_int (if b then 1 else 0)).

Definition seq_content (cs : list (value * Ser * bytes)) : value * Ser * bytes :=
  (VSeq ((fun c => c.1.1) <$> cs), SerSeq ((fun c => c.1.2) <$> cs), 108 :: concat (cs.*2) ++ [101]).

Definition struct_content (ts : list tfield) : value * Ser * bytes :=
  (VStruct (slots_of ts), SerStruct (fields_ser ts), enc_map (sort_by key_leb (fields_enc ts))).

(** A struct serializes as the fields that have a content. *)
Lemma struct_ser_fields ts l :
  Forall2 (fun f t => f = (tf_name t, (fun c => c.1.2) <$> tf_content t)) l ts ->
  struct_ser l = SerStruct (fields_ser ts).
Proof.
  intros Hl. unfold struct_ser, fields_ser. f_equal. induction Hl as [|f t l ts -> _ IH]; [done|].
  cbn. rewrite IH. by destruct (tf_content t).
Qed.

Lemma option_ser_content {A} (ser : A -> Ser) (c : A -> value * Ser * bytes) (o : option A) :
  (forall a, ser a = (c a).1.2) -> ser <$> o = (fun c => c.1.2) <$> (c <$> o).
Proof. intros Hc. destruct o; [|done]. cbn. by rewrite Hc. Qed.

Lemma some_ser_content s (c : value * Ser * bytes) :
  s = c.1.2 -> Some s = (fun c : value * Ser * bytes => c.1.2) <$> Some c.
Proof. by intros ->. Qed.

(** Compare the fields one by one; [tac] proves the types of fields. *)
Ltac same_fields_by tac :=
  repeat (apply Forall2_cons_2;
    [f_equal; first [reflexivity|match goal with |- _ <$> ?o = _ => by destruct o end
                    |apply option_ser_content; tac|apply some_ser_content; tac]|]);
  apply Forall2_nil_2.

Ltac same_fields := same_fields_by fail.

(** The fields of a struct that was read. *)
Lemma slot_int_fields ts i t o :
  ts !! i = Some t -> tf_content t = int_content <$> o \/ tf_content t = some_content <$> o ->
  slot_int (VStruct (slots_of ts)) i = o.
Proof.
  intros Hi Hc. cbn. unfold slots_of. rewrite list_lookup_fmap, Hi. cbn. unfold slot_of.
  by destruct Hc as [-> | ->], o.
Qed.

Lemma slot_bytes_fields ts i t (o : option bytes) :
  ts !! i = Some t -> tf_content t = bytes_content <$> o -> slot_bytes (VStruct (slots_of ts)) i = o.
Proof.
  intros Hi Hc. cbn. unfold slots_of. rewrite list_lookup_fmap, Hi. cbn. unfold slot_of. rewrite Hc. by destruct o.
Qed.

Lemma slot_bool_fields ts i t o :
  ts !! i = Some t -> tf_content t = bool_content <$> o -> slot_bool (VStruct (slots_of ts)) i = o.
Proof.
  intros Hi Hc. cbn. unfold slots_of. rewrite list_lookup_fmap, Hi. cbn. unfold slot_of. rewrite Hc. by destruct o.
Qed.

Lemma slot_seq_fields {A} (f : value -> A) (c : A -> value * Ser * bytes) ts i t (o : option (list A)) :
  (forall l, o = Some l -> forall a, a ∈ l -> f (c a).1.1 = a) -> ts !! i = Some t ->
  tf_content t = (fun l => seq_content (c <$> l)) <$> o ->
  slot_seq f (VStruct (slots_of ts)) i = o.
Proof.
  intros Hf Hi Hc. cbn. unfold slots_of. rewrite list_lookup_fmap, Hi. cbn. unfold slot_of. rewrite Hc.
  destruct o as [l|]; [|done]. cbn. f_equal. rewrite <- !list_fmap_compose.
  rewrite <- (list_fmap_id l) at 2. apply list_fmap_ext. intros j a Ha. apply (Hf l eq_refl).
  by eapply list_elem_of_lookup_2.
Qed.

Section Typed.
Context `{AtoiSpec}.

Definition codec (h : nat) (sh : shape) (v : value) (s : Ser) (e : bytes) : Prop :=
  writes (serialize s) e
  /\ forall fuel, (length e + sh_height sh < fuel)%nat -> reads h (deserialize fuel sh) e v.

Lemma codec_unsigned h bits z : 0 <= z < 2 ^ bits -> codec h (ShUnsigned bits) (VInt z) (SerInt z) (enc_int z).
Proof.
  intros Hz. split; [apply write_raw_writes|]. intros [|fuel] Hf; [lia|]. by apply (reads_fmap h _ VInt), unsigned_reads.
Qed.

Lemma codec_signed h bits z :
  - 2 ^ (bits - 1) <= z < 2 ^ (bits - 1) -> codec h (ShSigned bits) (VInt z) (SerInt z) (enc_int z).
Proof.
  intros Hz. split; [apply write_raw_writes|]. intros [|fuel] Hf; [lia|]. by apply (reads_fmap h _ VInt), signed_reads.
Qed.

Lemma codec_bytes h accept b :
  Z.of_nat (length b) < 2 ^ 64 -> accept b = true ->
  codec h (ShBytes accept) (VBytes b) (SerBytes b) (enc_bytes b).
Proof.
  intros Hb Ha. split; [apply write_bytes_writes|]. intros [|fuel] Hf; [lia|]. intros s rest Hs Hbuf.
  cbn [deserialize]. unfold mbind, io_bind.
  rewrite (parse_bytes_reads b Hb s rest); [by rewrite Ha|by eapply ready_mono; [|exact Hs]; lia|done].
Qed.

Lemma codec_value `{DictIter} v :
  value_ok v -> codec (height v) ShValue (VValue v) (value_ser v) (enc_value v).
Proof.
  intros Hv. split; [by apply value_ser_writes|]. cbn. intros [|fuel] Hf; [lia|].
  apply (reads_fmap (height v) _ VValue), value_reads; [done|lia].
Qed.

Lemma codec_some h sh v s e : codec h sh v s e -> codec h sh v (SerSome s) e.
Proof. done. Qed.

Lemma codec_bool h b : codec h ShBool (VBool b) (SerBool b) (enc_int (if b then 1 else 0)).
Proof.
  split; [apply write_raw_writes|]. intros [|fuel] Hf; [lia|]. intros s rest Hs Hbuf. cbn [deserialize].
  unfold deserialize_bool, mbind, io_bind.
  rewrite (unsigned_reads h 8 (if b then 1 else 0) ltac:(by destruct b) s rest Hs Hbuf). by destruct b.
Qed.

(** An encoding that is not the end of a list. *)
Definition element (e : bytes) : Prop := forall rest, strip_e (e ++ rest) = None.

Lemma enc_map_element kvs : element (enc_map kvs).
Proof. done. Qed.

Lemma codec_seq h sh cs :
  Forall (fun c => codec h sh c.1.1 c.1.2 c.2 /\ element c.2) cs ->
  codec (S h) (ShSeq sh) (seq_content cs).1.1 (seq_content cs).1.2 (seq_content cs).2.
Proof.
  intros Hcs. split; cbn [seq_content fst snd].
  - apply serialize_seq_writes. rewrite Forall2_fmap. apply Forall_Forall2_diag.
    eapply list.Forall_impl; [exact Hcs|]. intros c [[Hc _] _]. exact Hc.
  - intros [|n] Hf; [lia|]. cbn [deserialize sh_height length] in *. rewrite length_app in Hf. cbn in Hf.
    assert (forall c, c ∈ cs -> (length c.2 <= length (concat cs.*2))%nat) as Hle.
    { intros c Hc. apply concat_in_le. by apply (list_elem_of_fmap_2 snd). }
    assert (Forall element cs.*2) as Hel.
    { apply Forall_fmap. eapply list.Forall_impl; [exact Hcs|]. by intros c [_ ?]. }
    apply (reads_fmap (S h) _ VSeq), container_reads, (seq_loop_reads h n); [|done|].
    + rewrite Forall2_fmap. apply Forall_Forall2_diag, list.Forall_forall. intros c Hc.
      destruct (proj1 (list.Forall_forall _ _) Hcs c Hc) as [[_ Hr] _]. apply Hr.
      pose proof (Hle c Hc). lia.
    + rewrite length_fmap, <- (length_fmap snd cs).
      assert (length cs.*2 <= length (concat cs.*2))%nat; [|lia]. apply length_concat_ge.
      eapply list.Forall_impl; [exact Hel|]. intros e. apply strip_e_nonempty.
Qed.

Lemma codec_raw h sh v s e : codec h sh v s e -> codec h (ShRaw sh) (VRaw v e) s e.
Proof.
  intros [Hw Hr]. split; [done|]. intros [|n] Hf; [lia|]. cbn [deserialize sh_height] in *.
  intros st rest Hst Hb. unfold with_raw_bytes. rewrite (Hr n ltac:(lia) st rest Hst Hb).
  cbn [de_buf set_buf]. rewrite Hb, length_app, Nat.add_sub, take_app_length. done.
Qed.

Lemma codec_mono h h' sh v s e : (h <= h')%nat -> codec h sh v s e -> codec h' sh v s e.
Proof. intros Hh [Hw Hr]. split; [done|]. intros fuel Hf. by eapply reads_mono, Hr. Qed.

(** *** Structs *)

Definition content_ok (h : nat) (t : tfield) : Prop :=
  Z.of_nat (length (tf_name t)) < 2 ^ 64
  /\ match tf_content t with
     | Some (v, s, e) => codec h (tf_shape t) v s e
     | None => tf_required t = false
     end.

(** The slots when the keys [ks] have been read. *)
Definition slots_with (ks : list bytes) (ts : list tfield) : list (option value) :=
  (fun t => if bool_decide (tf_name t ∈ ks) then slot_of t else None) <$> ts.

Lemma find_field_lookup ts i t :
  NoDup (tf_name <$> ts) -> ts !! i = Some t -> find_field (tf_name t) (fields_of ts) = Some (i, tf_shape t).
Proof.
  unfold fields_of. revert i. induction ts as [|t' ts IH]; intros i Hnd Ht; [done|]. rewrite fmap_cons in *.
  apply list.NoDup_cons in Hnd as [Hn Hnd]. cbn [find_field]. destruct i as [|i]; cbn [lookup list_lookup] in Ht.
  - injection Ht as ->. by rewrite bool_decide_eq_true_2.
  - rewrite bool_decide_eq_false_2; [by rewrite (IH i Hnd Ht)|]. intros E. apply Hn. rewrite <- E.
    apply list_elem_of_fmap_2. by eapply list_elem_of_lookup_2.
Qed.

Lemma slots_with_insert ts i t ks v :
  NoDup (tf_name <$> ts) -> ts !! i = Some t -> slot_of t = Some v ->
  <[i := Some v]> (slots_with ks ts) = slots_with (tf_name t :: ks) ts.
Proof.
  intros Hnd Ht Hv. apply list_eq. intros j. unfold slots_with. rewrite list_lookup_fmap.
  destruct (decide (i = j)) as [<-|Hij].
  - rewrite list_lookup_insert_eq by (rewrite length_fmap; by eapply lookup_lt_Some). rewrite Ht. cbn.
    by rewrite bool_decide_eq_true_2, Hv by left.
  - rewrite list_lookup_insert_ne, list_lookup_fmap by done. destruct (ts !! j) as [u|] eqn:Hu; [|done]. cbn.
    assert (tf_name u <> tf_name t) as Hne.
    { intros E. apply Hij. eapply (NoDup_lookup (tf_name <$> ts)); [done| |];
        rewrite list_lookup_fmap; [by rewrite Ht|by rewrite Hu; cbn; rewrite E]. }
    by rewrite (bool_decide_ext (tf_name u ∈ ks) (tf_name u ∈ tf_name t :: ks)) by (rewrite elem_of_cons; tauto).
Qed.

Lemma fields_enc_lookup ts k e :
  (k, e) ∈ fields_enc ts ->
  exists i t v s, ts !! i = Some t /\ tf_name t = k /\ tf_content t = Some (v, s, e).
Proof.
  unfold fields_enc. rewrite list_elem_of_omap. intros (t & Hin & Hc).
  apply fmap_Some in Hc as ([[v s] e'] & Hc & [= -> ->]). apply list_elem_of_lookup in Hin as [i Hi].
  by exists i, t, v, s.
Qed.

(** Entries of distinct keys fill the slots of their fields. *)
Lemma struct_steps h n ts es ks :
  NoDup (tf_name <$> ts) -> Forall (content_ok h) ts -> NoDup es.*1 ->
  (forall ke, ke ∈ es -> ke ∈ fields_enc ts /\ ke.1 ∉ ks) ->
  (forall t v s e, t ∈ ts -> tf_content t = Some (v, s, e) -> (length e + sh_height (tf_shape t) < n)%nat) ->
  steps h (struct_step (deserialize n) (fields_of ts)) es (slots_with ks ts) (slots_with (reverse es.*1 ++ ks) ts).
Proof.
  intros Hnd Hok Hes Hin Hn. revert ks Hes Hin. induction es as [|[k e] es IH]; intros ks Hes Hin; [constructor|].
  cbn [fmap list_fmap fst] in *. apply list.NoDup_cons in Hes as [Hk Hes].
  destruct (Hin (k, e) ltac:(left)) as [Hke Hks]. cbn in Hks.
  destruct (fields_enc_lookup ts k e Hke) as (i & t & v & s & Hi & <- & Hc).
  pose proof (list_elem_of_lookup_2 _ _ _ Hi) as Ht.
  destruct (proj1 (list.Forall_forall _ _) Hok t Ht) as [Hlen Hcod]. rewrite Hc in Hcod.
  apply (steps_cons _ _ _ _ _ _ (slots_with (tf_name t :: ks) ts)); [done| |].
  - intros st rest Hst Hb. unfold struct_step. rewrite (find_field_lookup ts i t Hnd Hi).
    assert (slots_with ks ts !! i = Some None) as ->.
    { unfold slots_with. rewrite list_lookup_fmap, Hi. cbn. by rewrite bool_decide_eq_false_2. }
    unfold mbind, io_bind. rewrite (next_value_reads h _ e v _ st rest); [|by eapply Hcod, Hn|done..].
    rewrite (slots_with_insert ts i t ks v) by (done || unfold slot_of; by rewrite Hc). done.
  - rewrite reverse_cons, <- app_assoc. cbn [app]. apply IH; [done|]. intros [k' e'] Hin'.
    destruct (Hin (k', e') ltac:(by right)) as [? Hks']. split; [done|]. cbn in *.
    rewrite not_elem_of_cons. split; [|done]. intros ->. apply Hk. by apply (list_elem_of_fmap_2 fst) in Hin'.
Qed.

Lemma slots_with_all ts : slots_with (fields_enc ts).*1 ts = slots_of ts.
Proof.
  unfold slots_with, slots_of. apply list_fmap_ext. intros i t Hi. case_bool_decide as Hk; [done|].
  unfold slot_of. destruct (tf_content t) as [c|] eqn:Hc; [|done]. exfalso. apply Hk.
  apply (list_elem_of_fmap_2' fst _ (tf_name t, c.2)); [|done]. unfold fields_enc. apply list_elem_of_omap.
  exists t. split; [by eapply list_elem_of_lookup_2|by rewrite Hc].
Qed.

Lemma slots_with_perm ks ks' ts : ks ≡ₚ ks' -> slots_with ks ts = slots_with ks' ts.
Proof.
  intros Hp. unfold slots_with. apply list_fmap_ext. intros i t _.
  by rewrite (bool_decide_ext (tf_name t ∈ ks) (tf_name t ∈ ks')) by by rewrite Hp.
Qed.

Lemma fields_enc_nodup ts : NoDup (tf_name <$> ts) -> NoDup (fields_enc ts).*1.
Proof.
  induction ts as [|t ts IH]; intros Hnd; [constructor|]. rewrite fmap_cons in Hnd.
  apply list.NoDup_cons in Hnd as [Hn Hnd]. unfold fields_enc. cbn. destruct (tf_content t) as [c|]; cbn; [|by apply IH].
  apply list.NoDup_cons. split; [|by apply IH]. intros Hin. apply Hn. apply list_elem_of_fmap in Hin as ([k e] & -> & Hin).
  apply fields_enc_lookup in Hin as (i & u & v & s & Hu & <- & _). cbn. apply list_elem_of_fmap_2. by eapply list_elem_of_lookup_2.
Qed.

Lemma no_field_missing h ts : Forall (content_ok h) ts -> missing_field (fields_of ts) (slots_of ts) = None.
Proof.
  induction 1 as [|t ts [_ Ht] _ IH]; [done|]. unfold fields_of, slots_of. rewrite !fmap_cons. cbn [missing_field].
  unfold slot_of at 1. destruct (tf_content t); cbn; [by destruct (tf_required t)|by rewrite Ht].
Qed.

Lemma fields_height ts t :
  t ∈ ts -> (sh_height (tf_shape t) < sh_height (ShStruct (fields_of ts)))%nat.
Proof.
  cbn [sh_height]. unfold fields_of. induction 1 as [t ts|t u ts _ IH]; rewrite fmap_cons; cbn in *; lia.
Qed.

Lemma codec_struct h ts :
  NoDup (tf_name <$> ts) -> Forall (content_ok h) ts ->
  codec (S h) (ShStruct (fields_of ts)) (VStruct (slots_of ts)) (SerStruct (fields_ser ts))
    (enc_map (sort_by key_leb (fields_enc ts))).
Proof.
  intros Hnd Hok. split.
  - apply serialize_struct_writes. unfold fields_ser, fields_enc. clear Hnd.
    induction Hok as [|t ts [_ Ht] _ IH]; cbn; [constructor|]. destruct (tf_content t) as [[[v s] e]|]; cbn; [|done].
    constructor; [split; [done|apply Ht]|done].
  - intros [|n] Hf; [lia|]. set (es := sort_by key_leb (fields_enc ts)) in *.
    pose proof (sort_by_perm key_leb (fields_enc ts)) as Hp. fold es in Hp.
    unfold enc_map in *. cbn [length deserialize] in *. rewrite length_app in Hf.
    assert (forall ke, ke ∈ es -> (length ke.2 < length (enc_entry ke) <= length (concat (enc_entry <$> es)))%nat) as Hle.
    { intros ke Hin. split; [|apply concat_in_le; by apply list_elem_of_fmap_2].
      unfold enc_entry, enc_bytes. rewrite !length_app. cbn. lia. }
    apply container_reads. intros st rest Hst Hb.
    assert (map_loop n parse_bytes (struct_step (deserialize n) (fields_of ts)) (replicate (length (fields_of ts)) None) st
            = (set_buf rest st, XOk (slots_of ts))) as Hloop.
    { rewrite <- slots_with_all, <- (slots_with_perm (reverse es.*1 ++ []) (fields_enc ts).*1).
      2:{ by rewrite app_nil_r, reverse_Permutation, Hp. }
      replace (replicate (length (fields_of ts)) None) with (slots_with [] ts).
      2:{ unfold fields_of, slots_with. rewrite length_fmap. clear. induction ts; [done|]. cbn. by f_equal. }
      apply (map_loop_reads h n _ es); [apply struct_steps; try done| |done|done].
      - rewrite Hp. by apply fields_enc_nodup.
      - intros ke Hin. rewrite Hp in Hin. split; [done|apply not_elem_of_nil].
      - intros t v s e Ht Hc. pose proof (fields_height ts t Ht).
        assert ((tf_name t, e) ∈ es) as Hin.
        { rewrite Hp. unfold fields_enc. apply list_elem_of_omap. exists t. split; [done|by rewrite Hc]. }
        destruct (Hle _ Hin). cbn [snd] in *. lia.
      - assert (length es <= length (concat (enc_entry <$> es)))%nat; [|lia].
        rewrite <- (length_fmap enc_entry). apply length_concat_ge, Forall_fmap, list.Forall_forall.
        intros ke Hin. destruct (Hle _ Hin) as [? _]. cbn. destruct (enc_entry ke); [cbn in *; lia|done]. }
    unfold mbind, io_bind. rewrite Hloop. unfold struct_finish. by rewrite (no_field_missing h ts Hok).
Qed.
(** *** Fields *)

Definition opt_ok {A} (P : A -> Prop) (o : option A) : Prop := forall a, o = Some a -> P a.

Definition short (b : bytes) : Prop := Z.of_nat (length b) < 2 ^ 64.

Lemma int_field_ok h name bits o :
  short name -> opt_ok (fun z => 0 <= z < 2 ^ bits) o ->
  content_ok h (mkTF name false (ShUnsigned bits) (int_content <$> o)).
Proof.
  intros Hn Ho. split; [done|]. destruct o as [z|]; [|done]. apply codec_unsigned. by apply Ho.
Qed.

Lemma bytes_field_ok {A} h name accept (f : A -> bytes) o :
  short name -> opt_ok (fun a => short (f a) /\ accept (f a) = true) o ->
  content_ok h (mkTF name false (ShBytes accept) (bytes_content ∘ f <$> o)).
Proof.
  intros Hn Ho. split; [done|]. destruct o as [a|]; [|done]. destruct (Ho a eq_refl). by apply codec_bytes.
Qed.

(** A list of byte strings. *)
Lemma bytes_list_codec h (l : list bytes) :
  Forall short l ->
  let c := seq_content (bytes_content <$> l) in codec (S h) (ShSeq (ShBytes any_bytes)) c.1.1 c.1.2 c.2.
Proof.
  intros Hl. apply codec_seq, Forall_fmap. eapply list.Forall_impl; [exact Hl|]. intros b Hb.
  split; [by apply codec_bytes|]. intros rest. apply strip_e_digit.
Qed.

Lemma list_field_ok h name (o : option (list bytes)) :
  short name -> opt_ok (Forall short) o ->
  content_ok (S h) (mkTF name false (ShSeq (ShBytes any_bytes)) ((fun l => seq_content (bytes_content <$> l)) <$> o)).
Proof.
  intros Hn Ho. split; [done|]. destruct o as [l|]; [|done]. cbn [tf_content fmap option_fmap option_map].
  by apply (bytes_list_codec h), Ho.
Qed.

(** *** Values that are skipped *)

(** An encoding that [IgnoredAny] passes over. *)
Definition skips (h : nat) (e : bytes) : Prop :=
  element e /\ forall fuel, (length e < fuel)%nat -> reads h (de_ignored fuel) e ().

Lemma skips_bytes h b : short b -> skips h (enc_bytes b).
Proof.
  intros Hb. split; [intros rest; apply strip_e_digit|]. intros [|n] Hf; [lia|]. cbn [de_ignored].
  apply enc_bytes_any, (reads_fmap h _ (fun _ => ()) _ b). eapply reads_mono; [|by apply parse_bytes_reads]. lia.
Qed.

Lemma skips_int h z : - 2 ^ 63 <= z < 2 ^ 63 -> skips h (enc_int z).
Proof.
  intros Hz. split; [done|]. intros [|n] Hf; [lia|]. cbn [de_ignored].
  apply any_reads. cbn [Z.eqb Pos.eqb]. apply (reads_fmap h _ (fun _ => ()) _ z). by apply (signed_reads h 64).
Qed.

Lemma skips_mono h h' e : (h <= h')%nat -> skips h e -> skips h' e.
Proof. intros Hh [He Hr]. split; [done|]. intros fuel Hf. eapply reads_mono; [exact Hh|]. by apply Hr. Qed.

Lemma skips_list h es : Forall (skips h) es -> skips (S h) (108 :: concat es ++ [101]).
Proof.
  intros Hes. split; [done|]. intros [|n] Hf; [lia|]. cbn [de_ignored length] in *. rewrite length_app in Hf. cbn in Hf.
  assert (Forall (fun e => e <> []) es) as Hne.
  { eapply list.Forall_impl; [exact Hes|]. intros e [He _]. by apply strip_e_nonempty. }
  pose proof (length_concat_ge es Hne).
  apply any_reads. cbn [Z.eqb Pos.eqb]. apply (reads_fmap (S h) _ (fun _ => ()) _ (replicate (length es) ())).
  apply container_reads, (seq_loop_reads h n).
  - apply Forall2_replicate_r; [done|]. apply list.Forall_forall. intros e He.
    eapply list.Forall_forall in Hes as [_ Hr]; [|exact He]. apply Hr. pose proof (concat_in_le es e He). lia.
  - eapply list.Forall_impl; [exact Hes|]. by intros e [He _].
  - rewrite length_replicate. lia.
Qed.

Lemma any_digit {A} b rest s (m1 m2 m3 m4 : de A) :
  de_buf s = enc_bytes b ++ rest -> deserialize_any m1 m2 m3 m4 s = m4 s.
Proof.
  intros Hb. unfold deserialize_any. rewrite Hb. unfold enc_bytes.
  destruct (digits_spec (Z.of_nat (length b)) ltac:(lia)) as (Hne & Hd & _).
  destruct (digits _) as [|d ds]; [done|]. apply Forall_cons_1 in Hd as [Hd _]. unfold is_digit in Hd. cbn.
  by destruct (Z.eqb_spec d 100), (Z.eqb_spec d 105), (Z.eqb_spec d 108); try lia.
Qed.

Lemma next_key_ignored n s k rest :
  de_parsing_key s = false -> short k -> de_buf s = enc_bytes k ++ rest ->
  next_key (de_ignored (S n)) s = (push_context k (set_buf rest s), XOk (Some ())).
Proof.
  intros Hp Hk Hb. unfold next_key. rewrite Hb, strip_e_digit. cbn [de_ignored]. unfold mbind, io_bind, io_modify.
  unfold visit_ignored. rewrite (any_digit k rest) by done. unfold mbind, io_bind.
  rewrite (parse_bytes_spec _ k rest) by done. cbn [de_parsing_key set_parsing_key].
  unfold mret, io_ret. f_equal. unfold push_context. cbn [de_field_context set_buf set_parsing_key].
  by case_match; unfold set_parsing_key, set_context; cbn; rewrite Hp.
Qed.

Lemma skip_entries h n m (kes : list (bytes * bytes)) :
  Forall (fun ke => short ke.1 /\ reads h (de_ignored (S n)) ke.2 ()) kes -> (length kes < m)%nat ->
  reads_in h (map_loop m (de_ignored (S n)) (fun _ _ => next_value (de_ignored (S n))) ()) (concat (enc_entry <$> kes) ++ [101]) ().
Proof.
  intros Hk. revert m. induction Hk as [|[k e] kes [Hk He] _ IH]; intros m Hm s rest Hs Hb;
    (destruct m as [|m]; [cbn in Hm; lia|]); cbn [map_loop]; unfold mbind at 1, io_bind at 1.
  - unfold next_key. by rewrite Hb.
  - cbn in Hb. unfold enc_entry at 1 in Hb. cbn in Hb. rewrite <- !app_assoc in Hb.
    rewrite (next_key_ignored n s k _ (proj1 (proj1 Hs)) Hk Hb). unfold mbind, io_bind.
    erewrite (next_value_reads h (de_ignored (S n)) e () k (set_buf _ s)) by done.
    cbn in Hm. rewrite (IH m ltac:(lia) _ rest); [done|done|]. cbn. by rewrite <- app_assoc.
Qed.

Lemma entries_length (kes : list (bytes * bytes)) :
  (length kes <= length (concat (enc_entry <$> kes)))%nat /\
  forall ke, ke ∈ kes -> (length ke.2 < length (concat (enc_entry <$> kes)))%nat.
Proof.
  assert (forall ke : bytes * bytes, (length ke.2 < length (enc_entry ke))%nat) as Hlt.
  { intros ke. unfold enc_entry, enc_bytes. rewrite !length_app. cbn. lia. }
  split.
  - rewrite <-(length_fmap enc_entry). apply length_concat_ge, Forall_fmap, list.Forall_forall.
    intros ke _. cbn. specialize (Hlt ke). destruct (enc_entry ke); [cbn in *; lia|done].
  - intros ke Hin. pose proof (concat_in_le (enc_entry <$> kes) (enc_entry ke) ltac:(by apply list_elem_of_fmap_2)).
    specialize (Hlt ke). lia.
Qed.

Lemma skips_map h kes : Forall (fun ke => short ke.1 /\ skips h ke.2) kes -> skips (S h) (enc_map kes).
Proof.
  intros Hk. split; [done|]. intros [|n] Hf; [lia|]. unfold enc_map in *. cbn [de_ignored length] in *.
  rewrite length_app in Hf. cbn in Hf. destruct (entries_length kes) as [Hl Hle]. destruct n as [|n]; [lia|].
  apply any_reads. cbn [Z.eqb Pos.eqb]. apply container_reads, skip_entries; [|lia].
  apply list.Forall_forall. intros ke Hin. eapply list.Forall_forall in Hk as [Hs [_ Hr]]; [|exact Hin].
  split; [done|]. apply Hr. specialize (Hle ke Hin). lia.
Qed.

Lemma codec_ignored h s e : writes (serialize s) e -> skips h e -> codec h ShIgnored VIgnored s e.
Proof.
  intros Hw [_ Hr]. split; [done|]. intros [|n] Hf; [lia|]. cbn [deserialize sh_height] in *.
  apply (reads_fmap h _ (fun _ => VIgnored) _ ()), Hr. lia.
Qed.

(** A list of two. *)
Lemma codec_pair h sh1 sh2 c1 c2 :
  codec h sh1 c1.1.1 c1.1.2 c1.2 -> element c1.2 -> codec h sh2 c2.1.1 c2.1.2 c2.2 -> element c2.2 ->
  let c := seq_content [c1; c2] in codec (S h) (ShPair sh1 sh2) c.1.1 c.1.2 c.2.
Proof.
  intros [Hw1 Hr1] He1 [Hw2 Hr2] He2. split; cbn [seq_content fst snd].
  - apply serialize_seq_writes. by repeat constructor.
  - intros [|n] Hf; [lia|]. cbn [deserialize sh_height length fmap list_fmap concat app] in *.
    rewrite !length_app in Hf. cbn in Hf. rewrite app_nil_r, <-app_assoc. apply container_reads.
    intros s rest Hs Hb. rewrite <-!app_assoc in Hb. unfold visit_pair, mbind at 1, io_bind at 1, next_element at 1.
    rewrite Hb, He1. unfold mbind at 1, io_bind at 1. rewrite (Hr1 n ltac:(lia) s _ (proj1 Hs) Hb). cbn [mret io_ret].
    unfold mbind at 1, io_bind at 1, next_element at 1. cbn [de_buf set_buf]. rewrite He2.
    unfold mbind at 1, io_bind at 1.
    rewrite (Hr2 n ltac:(lia) (set_buf (c2.2 ++ [101] ++ rest) s) ([101] ++ rest)); [|by apply ready_set_buf, Hs|done].
    done.
Qed.

(** The fields of a struct that is skipped. *)
Lemma struct_skips h ts :
  Forall (fun t => short (tf_name t) /\ forall c, tf_content t = Some c -> skips h c.2) ts ->
  skips (S h) (struct_content ts).2.
Proof.
  intros Hts. apply skips_map. apply list.Forall_forall. intros ke Hin. rewrite sort_by_perm in Hin.
  unfold fields_enc in Hin. apply list_elem_of_omap in Hin as (t & Ht & Hc).
  eapply list.Forall_forall in Hts as [Hn Hs]; [|exact Ht]. destruct (tf_content t) as [c|] eqn:Ec; [|done].
  cbn in Hc. injection Hc as <-. cbn. auto.
Qed.

(** What a codec means for [from_bytes]. *)
Lemma codec_from_bytes_with_rest h sh v s e rest :
  codec h sh v s e -> (h <= DEFAULT_MAX_DEPTH)%nat -> from_bytes_with_rest sh (e ++ rest) = XOk (v, rest).
Proof.
  intros [_ Hr] Hh. unfold from_bytes_with_rest. rewrite length_app.
  rewrite (Hr (length e + length rest + sh_height sh + 2)%nat ltac:(lia)) with (rest := rest); [done|by apply new_from_buf_ready|done].
Qed.

Lemma codec_from_bytes h sh v s e :
  codec h sh v s e -> (h <= DEFAULT_MAX_DEPTH)%nat -> from_bytes sh e = XOk v.
Proof.
  intros Hc Hh. unfold from_bytes. rewrite <- (app_nil_r e). by rewrite (codec_from_bytes_with_rest h sh v s e [] Hc Hh).
Qed.
End Typed.

(** ** More fuel

    [extends m m']: where [m] does not run out of fuel, [m'] does the same. *)

Definition extends {A} (m m' : de A) : Prop := forall s, (m s).2 <> XPanic -> m' s = m s.

Lemma extends_refl {A} (m : de A) : extends m m.
Proof. done. Qed.

Lemma extends_bind {A B} (m m' : de A) (f f' : A -> de B) :
  extends m m' -> (forall a, extends (f a) (f' a)) -> extends (m ≫= f) (m' ≫= f').
Proof.
  intros Hm Hf s. unfold mbind, io_bind. specialize (Hm s). destruct (m s) as [s1 [a|e|]]; cbn in *; intros Hp.
  - rewrite Hm by done. by apply Hf.
  - by rewrite Hm.
  - done.
Qed.

Lemma extends_fmap {A B} (m m' : de A) (f : A -> B) : extends m m' -> extends (x ← m; mret (f x)) (x ← m'; mret (f x)).
Proof. intros Hm. by apply extends_bind. Qed.

Lemma extends_container {A} c (m m' : de A) : extends m m' -> extends (container c m) (container c m').
Proof.
  intros Hm. unfold container. apply extends_bind; [done|]. intros _. apply extends_bind; [done|]. intros _ s.
  unfold io_state. specialize (Hm s). destruct (m s) as [s1 r]. cbn in *. intros Hp. by rewrite Hm.
Qed.

Lemma extends_next_element {A} (m m' : de A) : extends m m' -> extends (next_element m) (next_element m').
Proof. intros Hm s. unfold next_element. destruct (strip_e (de_buf s)); [done|]. by apply extends_fmap. Qed.

Lemma extends_next_key {A} (m m' : de A) : extends m m' -> extends (next_key m) (next_key m').
Proof.
  intros Hm s. unfold next_key. destruct (strip_e (de_buf s)); [done|]. apply extends_bind; [done|]. intros _.
  by apply extends_bind.
Qed.

Lemma extends_next_value {A} (m m' : de A) : extends m m' -> extends (next_value m) (next_value m').
Proof. intros Hm. by apply extends_bind. Qed.

Lemma extends_seq_loop {A} n n' (m m' : de A) : (n <= n')%nat -> extends m m' -> extends (seq_loop n m) (seq_loop n' m').
Proof.
  intros Hn Hm. revert n' Hn. induction n as [|n IH]; intros n' Hn; [by intros s []|]. destruct n' as [|n']; [lia|]. cbn [seq_loop].
  apply extends_bind; [by apply extends_next_element|]. intros [x|]; [|done]. apply extends_fmap, IH. lia.
Qed.

Lemma extends_map_loop {K A} n n' (key key' : de K) (step step' : K -> A -> de A) acc :
  (n <= n')%nat -> extends key key' -> (forall k a, extends (step k a) (step' k a)) ->
  extends (map_loop n key step acc) (map_loop n' key' step' acc).
Proof.
  intros Hn Hk Hs. revert n' acc Hn. induction n as [|n IH]; intros n' acc Hn; [by intros s []|]. destruct n' as [|n']; [lia|]. cbn [map_loop].
  apply extends_bind; [by apply extends_next_key|]. intros [k|]; [|done]. apply extends_bind; [done|]. intros a. apply IH. lia.
Qed.

Lemma extends_any {A} (m1 m2 m3 m4 m1' m2' m3' m4' : de A) :
  extends m1 m1' -> extends m2 m2' -> extends m3 m3' -> extends m4 m4' ->
  extends (deserialize_any m1 m2 m3 m4) (deserialize_any m1' m2' m3' m4').
Proof. intros H1 H2 H3 H4 s. unfold deserialize_any. repeat case_match; auto. Qed.

Section Fuel.
Context `{Atoi}.

Lemma de_value_extends n n' : (n <= n')%nat -> extends (de_value n) (de_value n').
Proof.
  revert n'. induction n as [|n IH]; intros n' Hn; [by intros s []|]. destruct n' as [|n']; [lia|]. cbn [de_value].
  specialize (IH n' ltac:(lia)). apply extends_any; [| | |done].
  - apply extends_fmap, extends_container, extends_map_loop; [lia|done|]. intros k a. by apply extends_fmap, extends_next_value.
  - done.
  - apply extends_fmap, extends_container, extends_seq_loop; [lia|done].
Qed.

Lemma de_ignored_extends n n' : (n <= n')%nat -> extends (de_ignored n) (de_ignored n').
Proof.
  revert n'. induction n as [|n IH]; intros n' Hn; [by intros s []|]. destruct n' as [|n']; [lia|]. cbn [de_ignored].
  specialize (IH n' ltac:(lia)). apply extends_any; [| | |done].
  - apply extends_container, extends_map_loop; [lia|done|]. intros k a. by apply extends_next_value.
  - done.
  - apply extends_fmap, extends_container, extends_seq_loop; [lia|done].
Qed.

Lemma deserialize_extends n n' sh : (n <= n')%nat -> extends (deserialize n sh) (deserialize n' sh).
Proof.
  revert n' sh. induction n as [|n IH]; intros n' sh Hn; [by intros s []|]. destruct n' as [|n']; [lia|].
  assert (forall sh, extends (deserialize n sh) (deserialize n' sh)) as IH' by (intros; apply IH; lia).
  destruct sh as [| | |bits|bits|accept|sh|fields|sh|sh1 sh2]; cbn [deserialize]; try done.
  - apply extends_fmap, de_value_extends. lia.
  - apply extends_fmap, de_ignored_extends. lia.
  - apply extends_fmap, extends_container, extends_seq_loop; [lia|done].
  - apply extends_container, extends_bind; [|done]. apply extends_map_loop; [lia|done|]. intros k a. unfold struct_step.
    repeat case_match; try done; by apply extends_fmap, extends_next_value.
  - intros s. unfold with_raw_bytes. specialize (IH' sh s). destruct (deserialize n sh s) as [s1 r]. cbn in *.
    intros Hp. rewrite IH'; [done|]. by destruct r.
  - apply extends_container, extends_bind; [by apply extends_next_element|]. intros [x|]; [|done].
    apply extends_bind; [by apply extends_next_element|]. intros [y|]; [|done].
    apply extends_bind; [|done]. apply extends_next_element, de_ignored_extends. lia.
Qed.

(** The loop over the keys when a buffer is read as a struct. *)
Lemma struct_loop_read (fields : list field) buf v :
  from_bytes (ShStruct fields) buf = XOk v ->
  exists slots rest, v = VStruct slots /\ buf = 100 :: rest /\
    forall n, (length buf + sh_height (ShStruct fields) + 2 <= S n)%nat ->
      exists s', map_loop n parse_bytes (struct_step (deserialize n) fields) (replicate (length fields) None)
        (set_depth 1 (set_buf rest (new_from_buf buf))) = (s', XOk slots).
Proof.
  unfold from_bytes, from_bytes_with_rest. set (f := (length buf + sh_height (ShStruct fields) + 2)%nat).
  destruct (deserialize f (ShStruct fields) (new_from_buf buf)) as [s [v'|e|]] eqn:E; [|done|done]. cbn.
  destruct (de_buf s); [|done]. intros [= ->].
  assert (forall n, (f <= S n)%nat -> deserialize (S n) (ShStruct fields) (new_from_buf buf) = (s, XOk v)) as Hn.
  { intros n Hn. rewrite (deserialize_extends f (S n) (ShStruct fields) Hn); [done|]. by rewrite E. }
  assert (exists rest, buf = 100 :: rest) as [rest ->].
  { specialize (Hn f ltac:(lia)). cbn [deserialize] in Hn. unfold container, mbind, io_bind, parse_first_byte in Hn.
    cbn [de_buf new_from_buf] in Hn. destruct buf as [|c rest]; [done|]. exists rest.
    destruct (Z.eqb_spec c 100) as [->|]; done. }
  assert (forall n, (f <= S n)%nat -> exists s' slots, v = VStruct slots /\
    map_loop n parse_bytes (struct_step (deserialize n) fields) (replicate (length fields) None)
      (set_depth 1 (set_buf rest (new_from_buf (100 :: rest)))) = (s', XOk slots)) as Hloop.
  { intros n Hf. specialize (Hn n Hf). cbn [deserialize] in Hn. unfold container in Hn.
    unfold mbind, io_bind, parse_first_byte, enter_container, io_state in Hn.
    cbn [de_buf new_from_buf Z.eqb Pos.eqb de_max_depth de_depth set_buf Nat.leb DEFAULT_MAX_DEPTH] in Hn.
    destruct (map_loop n parse_bytes _ _ _) as [s' [slots|e|]]; [|done|done].
    exists s', slots. split; [|done]. unfold struct_finish in Hn. by destruct (missing_field fields slots); injection Hn. }
  destruct (Hloop f ltac:(lia)) as (s1 & slots & -> & _). exists slots, rest. split_and!; [done|done|].
  intros n Hf. destruct (Hloop n Hf) as (s' & slots' & [= <-] & E1). by exists s'.
Qed.

(** ** A buffer read as two structs

    The fields of the two differ only in the type of field [j]. *)

Context (fields1 fields2 : list field) (j : nat).

Definition differ_at : Prop :=
  forall key, match find_field key fields1, find_field key fields2 with
              | Some (i, sh), Some (i', sh') => i = i' /\ (sh = sh' \/ i = j)
              | None, None => True
              | _, _ => False
              end.

Lemma slot_stays fields n m slots v s s' slots' :
  slots !! j = Some (Some v) ->
  map_loop m parse_bytes (struct_step (deserialize n) fields) slots s = (s', XOk slots') -> slots' !! j = Some (Some v).
Proof.
  revert slots s. induction m as [|m IH]; intros slots s Hj; [done|]. cbn [map_loop]. unfold mbind at 1, io_bind at 1.
  destruct (next_key parse_bytes s) as [s1 [[k|]|e|]]; [|by intros [= _ <-]|done|done].
  unfold mbind, io_bind. destruct (struct_step (deserialize n) fields k slots s1) as [s2 [slots1|e|]] eqn:Es; [|done|done].
  apply IH. revert Es. unfold struct_step. destruct (find_field k fields) as [[i sh]|].
  - destruct (slots !! i) as [[v'|]|] eqn:Ei; [done| |]; unfold mbind, io_bind;
      (destruct (next_value _ s1) as [s3 [x|e|]]; [|done|done]); intros [= _ <-];
      (rewrite list_lookup_insert_ne; [done|]); intros ->; congruence.
  - unfold mbind, io_bind. destruct (next_value _ s1) as [s3 [x|e|]]; [|done|done]. by intros [= _ <-].
Qed.

Lemma two_passes n m slots s s1 slots1 s2 slots2 :
  differ_at -> slots !! j = Some None ->
  map_loop m parse_bytes (struct_step (deserialize n) fields1) slots s = (s1, XOk slots1) ->
  map_loop m parse_bytes (struct_step (deserialize n) fields2) slots s = (s2, XOk slots2) ->
  ((exists v, slots1 !! j = Some (Some v)) /\ (exists v, slots2 !! j = Some (Some v))) \/
  (slots1 = slots2 /\ slots1 !! j = Some None).
Proof.
  intros Hd. revert slots s. induction m as [|m IH]; intros slots s Hj; [done|]. cbn [map_loop].
  unfold mbind at 1, io_bind at 1. unfold mbind at 2, io_bind at 2.
  destruct (next_key parse_bytes s) as [s0 [[k|]|e|]]; [|intros [= _ <-] [= _ <-]; auto|done|done].
  unfold mbind, io_bind.
  destruct (struct_step (deserialize n) fields1 k slots s0) as [t1 [a1|e|]] eqn:E1; [|done|done]. intros H1.
  destruct (struct_step (deserialize n) fields2 k slots s0) as [t2 [a2|e|]] eqn:E2; [|done|done]. intros H2.
  specialize (Hd k). unfold struct_step in E1, E2.
  destruct (find_field k fields1) as [[i sh]|], (find_field k fields2) as [[i' sh']|]; [|done|done|].
  - destruct Hd as [<- Hsh]. destruct (decide (i = j)) as [->|Hne].
    + rewrite Hj in E1, E2. unfold mbind, io_bind in E1, E2. left.
      destruct (next_value (deserialize n sh) s0) as [? [v1|e|]]; [|done|done]. injection E1 as <- <-.
      destruct (next_value (deserialize n sh') s0) as [? [v2|e|]]; [|done|done]. injection E2 as <- <-.
      assert (j < length slots)%nat by (by eapply lookup_lt_Some).
      split; eexists; (eapply slot_stays; [|eassumption]); by rewrite list_lookup_insert_eq.
    + destruct Hsh as [<-|Hsh]; [|done].
      assert (forall t a, match slots !! i with
          | Some (Some _) => io_lift (XErr (Custom (DuplicateField k)))
          | _ => v ← next_value (deserialize n sh); mret (<[i:=Some v]> slots)
          end s0 = (t, XOk a) -> a !! j = Some None) as Ha.
      { intros t a. destruct (slots !! i) as [[v|]|]; [done| |]; unfold mbind, io_bind;
          (destruct (next_value _ s0) as [s3 [x|e|]]; [|done|done]); intros [= _ <-]; by rewrite list_lookup_insert_ne. }
      rewrite E1 in E2. injection E2 as <- <-. eapply IH; [|eassumption..]. by eapply Ha.
  - rewrite E1 in E2. injection E2 as <- <-. eapply IH; [|eassumption..].
    unfold mbind, io_bind in E1. destruct (next_value _ s0) as [? [x|e|]]; [|done|done]. by injection E1 as <- <-.
Qed.

Lemma read_two_ways buf v1 v2 :
  differ_at -> length fields1 = length fields2 -> (j < length fields1)%nat ->
  from_bytes (ShStruct fields1) buf = XOk v1 -> from_bytes (ShStruct fields2) buf = XOk v2 ->
  exists slots1 slots2, v1 = VStruct slots1 /\ v2 = VStruct slots2 /\
    (((exists v, slots1 !! j = Some (Some v)) /\ (exists v, slots2 !! j = Some (Some v))) \/
     (slots1 = slots2 /\ slots1 !! j = Some None)).
Proof.
  intros Hd Hlen Hj (slots1 & rest & -> & -> & H1)%struct_loop_read (slots2 & rest' & -> & [= <-] & H2)%struct_loop_read.
  exists slots1, slots2. split; [done|]. split; [done|].
  set (n := (length (100%Z :: rest) + sh_height (ShStruct fields1) + sh_height (ShStruct fields2) + 2)%nat).
  destruct (H1 n ltac:(lia)) as (s1 & E1). destruct (H2 n ltac:(lia)) as (s2 & E2). rewrite <-Hlen in E2.
  eapply two_passes; [done| |exact E1|exact E2]. by apply lookup_replicate_2.
Qed.
End Fuel.

(** ** What is read has the type that was asked for *)

(** [v] is a value of a type of shape [sh]: integers fit their width, byte
    strings were accepted, and a struct has its required fields. *)
Fixpoint has_shape (sh : shape) (v : value) {struct sh} : Prop :=
  match sh, v with
  | ShValue, VValue _ | ShIgnored, VIgnored | ShBool, VBool _ => True
  | ShUnsigned bits, VInt z => 0 < bits -> 0 <= z < 2 ^ bits
  | ShSigned bits, VInt z => 0 < bits -> - 2 ^ (bits - 1) <= z < 2 ^ (bits - 1)
  | ShBytes accept, VBytes b => accept b = true
  | ShSeq s, VSeq l => Forall (has_shape s) l
  | ShStruct fields, VStruct slots =>
    (fix go (fields : list (bytes * bool * shape)) (slots : list (option value)) : Prop :=
       match fields, slots with
       | [], [] => True
       | (_, required, s) :: fields, slot :: slots =>
         match slot with Some v => has_shape s v | None => required = false end /\ go fields slots
       | _, _ => False
       end) fields slots
  | ShRaw s, VRaw data _ => has_shape s data
  | ShPair a b, VSeq [x; y] => has_shape a x /\ has_shape b y
  | _, _ => False
  end.

(** The results of [atoi] are integers of the type they are asked as. *)
Class AtoiTyped `{Atoi} : Prop := {
  radix_10_range bits b : 0 < bits -> 0 <= (from_radix_10 bits b).1 < 2 ^ bits;
  radix_10_signed_range bits b :
    0 < bits -> - 2 ^ (bits - 1) <= (from_radix_10_signed bits b).1 < 2 ^ (bits - 1)
}.

#[export] Instance atoi_ref_typed : @AtoiTyped atoi_ref.
Proof.
  assert (forall bits z, 0 < bits -> - 2 ^ (bits - 1) <= wrap_signed bits z < 2 ^ (bits - 1)) as Hs.
  { intros bits z Hb. unfold wrap_signed. pose proof (wrap_range bits (z + 2 ^ (bits - 1)) ltac:(lia)) as Hw.
    unfold is_uint in Hw. replace (2 ^ bits) with (2 * 2 ^ (bits - 1)) in Hw; [lia|].
    rewrite <- Z.pow_succ_r by lia. f_equal. lia. }
  split; intros bits b Hb; cbn.
  - apply wrap_range. lia.
  - destruct b as [|c b]; cbn; [lia|]. destruct (c =? 45); by apply Hs.
Qed.

Section Typing.
Context `{AtoiTyped}.

(** What holds of every value that is read. *)
Definition gives {A} (P : A -> Prop) (m : de A) : Prop := forall s s' a, m s = (s', XOk a) -> P a.

Lemma gives_bind {A B} (P : A -> Prop) (Q : B -> Prop) m f :
  gives P m -> (forall a, P a -> gives Q (f a)) -> gives Q (m ≫= f).
Proof.
  intros Hm Hf s s' b. unfold mbind, io_bind. destruct (m s) as [s1 [a|e|]] eqn:E; [|done..].
  by apply Hf, (Hm s s1).
Qed.

Lemma gives_any {A} (m : de A) : gives (fun _ => True) m.
Proof. done. Qed.

Lemma gives_ret {A} (P : A -> Prop) a : P a -> gives P (mret a).
Proof. intros HP s s' b [= _ <-]. done. Qed.

Lemma gives_fmap {A B} (P : A -> Prop) (Q : B -> Prop) m (f : A -> B) :
  gives P m -> (forall a, P a -> Q (f a)) -> gives Q (x ← m; mret (f x)).
Proof. intros Hm HQ. eapply gives_bind; [exact Hm|]. intros a Ha. by apply gives_ret, HQ. Qed.

Lemma gives_throw {A} (P : A -> Prop) e : gives P (io_lift (XErr e)).
Proof. by intros s s' a. Qed.

Lemma gives_container {A} (P : A -> Prop) c m : gives P m -> gives P (container c m).
Proof.
  intros Hm. unfold container. eapply gives_bind; [apply gives_any|]. intros _ _.
  eapply gives_bind; [apply gives_any|]. intros _ _ s s' a. unfold io_state.
  destruct (m s) as [s1 r] eqn:E. intros [= _ ->]. by apply (Hm s s1).
Qed.

Lemma gives_next_value {A} (P : A -> Prop) m : gives P m -> gives P (next_value m).
Proof.
  intros Hm. unfold next_value. eapply gives_bind; [exact Hm|]. intros a Ha.
  eapply gives_bind; [apply gives_any|]. intros _ _. by apply gives_ret.
Qed.

Lemma gives_next_element {A} (P : A -> Prop) m : gives P m -> gives (fun o => forall a, o = Some a -> P a) (next_element m).
Proof.
  intros Hm s s' o. unfold next_element. destruct (strip_e (de_buf s)); [by intros [= _ <-]|].
  revert s s' o. change (gives (fun o => forall a, o = Some a -> P a) (x ← m; mret (Some x))).
  eapply gives_fmap; [exact Hm|]. by intros a Ha ? [= <-].
Qed.

Lemma gives_seq_loop {A} (P : A -> Prop) n m : gives P m -> gives (Forall P) (seq_loop n m).
Proof.
  intros Hm. induction n as [|n IH]; cbn [seq_loop]; [by intros s s' a|].
  eapply gives_bind; [by apply gives_next_element|]. intros [x|] Hx; [|by apply gives_ret].
  eapply gives_bind; [exact IH|]. intros l Hl. apply gives_ret. constructor; [by apply Hx|done].
Qed.

Lemma gives_map_loop {K A} (P : A -> Prop) n (key : de K) step acc :
  (forall k a, P a -> gives P (step k a)) -> P acc -> gives P (map_loop n key step acc).
Proof.
  intros Hstep. revert acc. induction n as [|n IH]; intros acc Ha; cbn [map_loop]; [by intros s s' a|].
  eapply gives_bind; [apply gives_any|]. intros [k|] _; [|by apply gives_ret].
  eapply gives_bind; [by apply Hstep|]. exact IH.
Qed.

Lemma gives_integer (atoi : bytes -> Z * nat) (P : Z -> Prop) : (forall b, P (atoi b).1) -> gives P (parse_integer atoi).
Proof.
  intros HP. unfold parse_integer. eapply gives_bind; [apply gives_any|]. intros _ _ s s' z. unfold io_state.
  specialize (HP (de_buf s)). destruct (atoi (de_buf s)) as [v len]. destruct (_ && _); [|done]. by intros [= _ <-].
Qed.

(** The fields of a struct and its slots. *)
Definition slots_typed (fields : list field) (slots : list (option value)) : Prop :=
  Forall2 (fun f slot => forall v, slot = Some v -> has_shape f.2 v) fields slots.

Lemma find_field_typed key (fields : list field) i sh slots v :
  find_field key fields = Some (i, sh) -> has_shape sh v -> slots_typed fields slots ->
  slots_typed fields (<[i := Some v]> slots).
Proof.
  intros Hf Hv Hs. revert i Hf. induction Hs as [|[[name r] sh'] slot fields slots Hslot Hs IH]; intros i Hf; [done|].
  cbn in Hf. case_bool_decide.
  - injection Hf as <- ->. constructor; [|done]. by intros ? [= <-].
  - destruct (find_field key fields) as [[j sh'']|]; [|done]. cbn in Hf. injection Hf as <- ->.
    constructor; [done|]. by apply IH.
Qed.

Lemma struct_typed (fields : list field) slots :
  slots_typed fields slots -> missing_field fields slots = None -> has_shape (ShStruct fields) (VStruct slots).
Proof.
  induction 1 as [|[[name r] sh] slot fields slots Hslot _ IH]; cbn; [done|]. intros Hm.
  destruct slot as [v|]; [|destruct r; [done|]].
  - split; [by apply Hslot|]. apply IH. by destruct r.
  - split; [done|]. by apply IH.
Qed.

Lemma deserialize_typed fuel sh : gives (has_shape sh) (deserialize fuel sh).
Proof.
  revert sh. induction fuel as [|n IH]; intros sh; [by intros s s' a|].
  destruct sh as [| | |bits|bits|accept|sh|fields|sh|sh1 sh2]; cbn [deserialize].
  - by eapply gives_fmap; [apply gives_any|].
  - by eapply gives_fmap; [apply gives_any|].
  - by eapply gives_fmap; [apply gives_any|].
  - eapply gives_fmap; [apply (gives_integer _ (fun z => 0 < bits -> 0 <= z < 2 ^ bits))|done].
    intros b Hb. by apply radix_10_range.
  - eapply gives_fmap; [apply (gives_integer _ (fun z => 0 < bits -> - 2 ^ (bits - 1) <= z < 2 ^ (bits - 1)))|done].
    intros b Hb. by apply radix_10_signed_range.
  - eapply gives_bind; [apply gives_any|]. intros b _.
    destruct (accept b) eqn:Ha; [by apply gives_ret|apply gives_throw].
  - by eapply gives_fmap; [apply gives_container, gives_seq_loop, IH|].
  - apply gives_container. eapply gives_bind; [apply (gives_map_loop (slots_typed fields))|].
    + intros key slots Hs. unfold struct_step. destruct (find_field key fields) as [[i sh]|] eqn:Hf.
      * assert (gives (slots_typed fields) (v ← next_value (deserialize n sh); mret (<[i := Some v]> slots))) as Hg.
        { eapply gives_fmap; [apply gives_next_value, IH|]. intros v Hv. by eapply find_field_typed. }
        destruct (slots !! i) as [[v|]|]; [apply gives_throw|exact Hg..].
      * by eapply gives_fmap; [apply gives_any|].
    + clear. unfold slots_typed. induction fields; cbn; constructor; done.
    + intros slots Hs. unfold struct_finish. destruct (missing_field fields slots) eqn:Hm; [apply gives_throw|].
      apply gives_ret. by apply struct_typed.
  - intros s s' v. unfold with_raw_bytes. destruct (deserialize n sh s) as [s1 [d|e|]] eqn:E; [|done..].
    intros [= <- <-]. cbn. by apply (IH sh s s1).
  - apply gives_container. eapply gives_bind; [apply gives_next_element, (IH sh1)|]. intros [x|] Hx; [|apply gives_throw].
    eapply gives_bind; [apply gives_next_element, (IH sh2)|]. intros [y|] Hy; [|apply gives_throw].
    eapply gives_bind; [apply gives_any|]. intros [z|] _; [apply gives_throw|]. apply gives_ret. cbn. auto.
Qed.

(** A value that the deserializer returns has the type it was asked for: its
    integers fit their widths, its byte strings passed the visitor of their
    field, every required field of a struct is there, and this at every depth. *)
Theorem from_bytes_typed (sh : shape) (buf : bytes) (v : value) (rest : bytes) :
  from_bytes_with_rest sh buf = XOk (v, rest) -> has_shape sh v.
Proof.
  unfold from_bytes_with_rest. destruct (deserialize _ sh _) as [s [v'|e|]] eqn:E; [|done..]. intros [= <- _].
  by apply deserialize_typed in E.
Qed.
End Typing.

Lemma from_bytes_typed_witness :
  has_shape (ShStruct [([97], true, ShUnsigned 8)]) (VStruct [Some (VInt 7)]).
Proof.
  apply (@from_bytes_typed atoi_ref atoi_ref_typed (ShStruct [([97], true, ShUnsigned 8)])
    [100; 49; 58; 97; 105; 55; 101; 101] (VStruct [Some (VInt 7)]) []).
  vm_compute. reflexivity.
Defined.
