(* ===== verification/Extended.v ===== *)
(** * Extended peer messages ([peer_binary_protocol::extended])

    The extension handshake, [ut_metadata], [ut_pex] and messages of unknown
    extensions: bencoded bodies behind a one-byte id, and for [ut_metadata] data
    that follows the bencoded header.  The file ends with the instance of
    [ExtCodec] that the framing of [Message] relies on. *)

From stdpp Require Import base tactics option list list_numbers numbers decidable.
From Stdlib Require Import ZArith Lia.
From S2P Require Import Prelude Lengths Net DoubleBuf Message CompactIp Bencode BencodeTypes.
Open Scope Z_scope.

Definition MY_EXTENDED_UT_METADATA : Z := 3.
Definition MY_EXTENDED_UT_PEX : Z := 1.

(** Names of fields. *)
Definition N_m : bytes := [109].
Definition N_p : bytes := [112].
Definition N_v : bytes := [118].
Definition N_yourip : bytes := [121; 111; 117; 114; 105; 112].
Definition N_ipv6 : bytes := [105; 112; 118; 54].
Definition N_ipv4 : bytes := [105; 112; 118; 52].
Definition N_reqq : bytes := [114; 101; 113; 113].
Definition N_metadata_size : bytes := [109; 101; 116; 97; 100; 97; 116; 97; 95; 115; 105; 122; 101].
Definition N_complete_ago : bytes := [99; 111; 109; 112; 108; 101; 116; 101; 95; 97; 103; 111].
Definition N_upload_only : bytes := [117; 112; 108; 111; 97; 100; 95; 111; 110; 108; 121].
Definition N_ut_metadata : bytes := [117; 116; 95; 109; 101; 116; 97; 100; 97; 116; 97].
Definition N_ut_pex : bytes := [117; 116; 95; 112; 101; 120].
Definition N_msg_type : bytes := [109; 115; 103; 95; 116; 121; 112; 101].
Definition N_piece : bytes := [112; 105; 101; 99; 101].
Definition N_total_size : bytes := [116; 111; 116; 97; 108; 95; 115; 105; 122; 101].
Definition N_added : bytes := [97; 100; 100; 101; 100].
Definition N_added_f : bytes := [97; 100; 100; 101; 100; 46; 102].
Definition N_added6 : bytes := [97; 100; 100; 101; 100; 54].
Definition N_added6_f : bytes := [97; 100; 100; 101; 100; 54; 46; 102].
Definition N_dropped : bytes := [100; 114; 111; 112; 112; 101; 100].
Definition N_dropped6 : bytes := [100; 114; 111; 112; 112; 101; 100; 54].

(** ** Ids and the handshake *)

Record PeerExtendedMessageIds := mkIds {
  ids_ut_metadata : option Z;
  ids_ut_pex : option Z
}.

Definition ids_my : PeerExtendedMessageIds :=
  mkIds (Some MY_EXTENDED_UT_METADATA) (Some MY_EXTENDED_UT_PEX).

Definition ids_default : PeerExtendedMessageIds := mkIds None None.

(** An [Option] field without [skip_serializing_if]. *)
Definition option_ser (o : option Z) : Ser := match o with Some z => SerSome (SerInt z) | None => SerNone end.

Definition ids_ser (i : PeerExtendedMessageIds) : Ser :=
  struct_ser [(N_ut_metadata, Some (option_ser (ids_ut_metadata i))); (N_ut_pex, Some (option_ser (ids_ut_pex i)))].

Definition ids_shape : shape :=
  ShStruct [(N_ut_metadata, false, ShUnsigned 8); (N_ut_pex, false, ShUnsigned 8)].

Definition ids_of (v : value) : PeerExtendedMessageIds := mkIds (slot_int v 0) (slot_int v 1).

Record ExtendedHandshake := mkHs {
  hs_m : PeerExtendedMessageIds;
  hs_p : option Z;
  hs_v : option bytes;
  hs_yourip : option IpAddr;
  hs_ipv6 : option Ipv6Addr;
  hs_ipv4 : option Ipv4Addr;
  hs_reqq : option Z;
  hs_metadata_size : option Z;
  hs_complete_ago : option Z;
  hs_upload_only : option Z
}.

Definition handshake_new : ExtendedHandshake :=
  mkHs ids_my None None None None None None None None None.

(** [ip_addr] and [port]. *)
Definition handshake_ip_addr (h : ExtendedHandshake) : option IpAddr :=
  match hs_ipv4 h, hs_ipv6 h with
  | Some b, _ => Some (IpV4 (v4_bits b))
  | None, Some b => Some (IpV6 (v6_bits b))
  | None, None => None
  end.

Definition handshake_port (h : ExtendedHandshake) : option Z := p ← hs_p h; try_into 16 p.

(** [Compact<T>]: serialized as its bytes, accepted when [from_slice] accepts. *)
Definition compact_bytes {T} `{CompactSerialize T} (x : T) : bytes :=
  match as_slice x with Ret b => b | Panic => [] end.

Definition compact_value {T} `{CompactSerialize T} (b : bytes) : option T :=
  match from_slice b with Ret o => o | Panic => None end.

Definition compact_accept (T : Type) `{CompactSerialize T} (b : bytes) : bool :=
  match compact_value (T := T) b with Some _ => true | None => false end.

Definition handshake_ser (h : ExtendedHandshake) : Ser :=
  struct_ser
    [(N_m, Some (ids_ser (hs_m h)));
     (N_p, SerInt <$> hs_p h);
     (N_v, SerBytes <$> hs_v h);
     (N_yourip, SerBytes ∘ compact_bytes <$> hs_yourip h);
     (N_ipv6, SerBytes ∘ compact_bytes <$> hs_ipv6 h);
     (N_ipv4, SerBytes ∘ compact_bytes <$> hs_ipv4 h);
     (N_reqq, SerInt <$> hs_reqq h);
     (N_metadata_size, SerInt <$> hs_metadata_size h);
     (N_complete_ago, SerInt <$> hs_complete_ago h);
     (N_upload_only, SerInt <$> hs_upload_only h)].

Definition handshake_shape : shape :=
  ShStruct
    [(N_m, false, ids_shape);
     (N_p, false, ShUnsigned 32);
     (N_v, false, ShBytes any_bytes);
     (N_yourip, false, ShBytes (compact_accept IpAddr));
     (N_ipv6, false, ShBytes (compact_accept Ipv6Addr));
     (N_ipv4, false, ShBytes (compact_accept Ipv4Addr));
     (N_reqq, false, ShUnsigned 32);
     (N_metadata_size, false, ShUnsigned 32);
     (N_complete_ago, false, ShSigned 32);
     (N_upload_only, false, ShUnsigned 32)].

Definition handshake_of (v : value) : ExtendedHandshake :=
  mkHs
    (match v with
     | VStruct (Some m :: _) => ids_of m
     | _ => ids_default
     end)
    (slot_int v 1) (slot_bytes v 2)
    (slot_bytes v 3 ≫= compact_value) (slot_bytes v 4 ≫= compact_value) (slot_bytes v 5 ≫= compact_value)
    (slot_int v 6) (slot_int v 7) (slot_int v 8) (slot_int v 9).

(** ** [ut_pex] *)

Record Flags := mkFlags { flags_bits : Z }.

#[export] Instance CompactSerialize_Flags : CompactSerialize Flags := {
  as_slice f := Ret [flags_bits f];
  from_slice buf := Ret (mkFlags <$> head buf);
  from_slice_unchecked_len buf :=
    match head buf with Some b => Ret (mkFlags b) | None => Panic end
}.
#[export] Instance FixedLen_Flags : CompactSerializeFixedLen Flags := 1%nat.

(** The buffers of the compact lists. *)
Record UtPex := mkPex {
  px_added : option bytes;
  px_added_f : option bytes;
  px_added6 : option bytes;
  px_added6_f : option bytes;
  px_dropped : option bytes;
  px_dropped6 : option bytes
}.

Definition pex_ser (p : UtPex) : Ser :=
  struct_ser
    [(N_added, SerBytes <$> px_added p);
     (N_added_f, SerBytes <$> px_added_f p);
     (N_added6, SerBytes <$> px_added6 p);
     (N_added6_f, SerBytes <$> px_added6_f p);
     (N_dropped, SerBytes <$> px_dropped p);
     (N_dropped6, SerBytes <$> px_dropped6 p)].

Definition list_accept (T : Type) `{CompactSerializeFixedLen T} (b : bytes) : bool :=
  match compact_deserialize T b with Some _ => true | None => false end.

Definition pex_shape : shape :=
  ShStruct
    [(N_added, false, ShBytes (list_accept SocketAddrV4));
     (N_added_f, false, ShBytes (list_accept Flags));
     (N_added6, false, ShBytes (list_accept SocketAddrV6));
     (N_added6_f, false, ShBytes (list_accept Flags));
     (N_dropped, false, ShBytes (list_accept SocketAddrV4));
     (N_dropped6, false, ShBytes (list_accept SocketAddrV6))].

Definition pex_of (v : value) : UtPex :=
  mkPex (slot_bytes v 0) (slot_bytes v 1) (slot_bytes v 2) (slot_bytes v 3) (slot_bytes v 4) (slot_bytes v 5).

Record PexPeerInfo := mkPexPeer {
  pp_flags : Z;
  pp_addr : SocketAddr
}.

Definition s4_sock (a : SocketAddrV4) : SocketAddr := SockV4 (v4_bits (s4_ip a)) (s4_port a).
Definition s6_sock (a : SocketAddrV6) : SocketAddr :=
  SockV6 (v6_bits (s6_ip a)) (s6_port a) (s6_flowinfo a) (s6_scope_id a).

(** [added_peers_inner]: the addresses with their flags, 0 without. *)
Definition added_peers_inner {T} `{CompactSerialize T, CompactSerializeFixedLen T} (into : T -> SocketAddr)
    (buf flags : option bytes) : outcome (list PexPeerInfo) :=
  match buf with
  | None => Ret []
  | Some b =>
    addrs ← compact_iter T b;
    traverse (fun x : nat * T =>
      fl ← (match flags with
            | None => Ret None
            | Some f => compact_get Flags f (Z.of_nat x.1)
            end);
      Ret (mkPexPeer (default 0 (flags_bits <$> fl)) (into x.2))) (imap pair addrs)
  end.

Definition added_peers (p : UtPex) : outcome (list PexPeerInfo) :=
  a ← added_peers_inner s4_sock (px_added p) (px_added_f p);
  b ← added_peers_inner s6_sock (px_added6 p) (px_added6_f p);
  Ret (a ++ b).

Definition dropped_peers (p : UtPex) : outcome (list PexPeerInfo) :=
  a ← added_peers_inner s4_sock (px_dropped p) None;
  b ← added_peers_inner s6_sock (px_dropped6 p) None;
  Ret (a ++ b).

(** [from_addrs] and its [split]. *)
Definition as_v4 (a : SocketAddr) : option SocketAddrV4 :=
  match a with SockV4 ip port => Some (mkSock4 (mkV4 ip) port) | _ => None end.
Definition as_v6 (a : SocketAddr) : option SocketAddrV6 :=
  match a with SockV6 ip port fl sc => Some (mkSock6 (mkV6 ip) port fl sc) | _ => None end.

Definition nonempty (b : bytes) : option bytes := if bool_decide (b = []) then None else Some b.

Definition pex_split (addrs : list SocketAddr) : outcome (option bytes * option bytes) :=
  v4 ← new_from_iter SocketAddrV4 (omap as_v4 addrs);
  v6 ← new_from_iter SocketAddrV6 (omap as_v6 addrs);
  Ret (nonempty v4, nonempty v6).

Definition from_addrs (addrs_live addrs_closed : list SocketAddr) : outcome UtPex :=
  a ← pex_split addrs_live;
  d ← pex_split addrs_closed;
  Ret (mkPex a.1 None a.2 None d.1 d.2).

(** ** [ut_metadata] *)

Inductive ExtSerErr :=
| EBencode (e : SerError)
| NeedUtMetadata
| NeedPex.

Inductive ExtDeErr :=
| DeBencode (e : DeError)
| UtMetadataTooLarge (len : Z)
| UtMetadataTrailingBytes
| UtMetadataMissingTotalSize
| UtMetadataTypeUnknown (ty : Z)
| UtMetadataPieceOutOfBounds (total_pieces received_piece : Z)
| UtMetadataSizeMismatch (expected_size received_size : Z).

Record UtMetadataData := mkData {
  ud_piece : Z;
  ud_total_size : Z;
  ud_data_0 : bytes;
  ud_data_1 : bytes
}.

Definition UtMetadataData_from_bytes (piece total_size : Z) (data : bytes) : UtMetadataData :=
  mkData piece total_size data [].

Definition ud_len (d : UtMetadataData) : nat := (length (ud_data_0 d) + length (ud_data_1 d))%nat.

Definition ud_validate (d : UtMetadataData) : result ExtDeErr () :=
  let len := Z.of_nat (ud_len d) in
  if ud_total_size d =? 0 then Err UtMetadataMissingTotalSize
  else if CHUNK_SIZE <? len then Err (UtMetadataTooLarge (u32 len))
  else
    let total_pieces := div_ceil (ud_total_size d) CHUNK_SIZE in
    if total_pieces <=? ud_piece d then Err (UtMetadataPieceOutOfBounds total_pieces (ud_piece d))
    else
      let expected_size :=
        Z.min (saturating_sub (ud_total_size d) (u32 (ud_piece d * CHUNK_SIZE))) CHUNK_SIZE in
      if negb (u32 len =? expected_size) then Err (UtMetadataSizeMismatch expected_size (u32 len))
      else Ok ().

Inductive UtMetadata :=
| UtRequest (piece : Z)
| UtData (d : UtMetadataData)
| UtReject (piece : Z).

Definition ut_message (msg_type piece : Z) (total_size : option Z) : Ser :=
  struct_ser
    [(N_msg_type, Some (SerInt msg_type)); (N_piece, Some (SerInt piece)); (N_total_size, SerInt <$> total_size)].

(** What an [io::Error] becomes. *)
Definition no_space (e : SerError) : SerializeError ExtSerErr := NoSpaceInBuffer.
Definition bencode_error (e : SerError) : SerializeError ExtSerErr := SerOther (EBencode e).

Abbreviation cursor := (io BencodeSerializer (SerializeError ExtSerErr)).

Definition write_all (b : bytes) : cursor () := io_map_err no_space (write_raw b).
Definition write_bencode (s : Ser) : cursor () := io_map_err bencode_error (serialize s).

Definition UtMetadata_serialize (u : UtMetadata) : cursor () :=
  match u with
  | UtRequest piece => write_bencode (ut_message 0 piece None)
  | UtData d =>
    _ ← write_bencode (ut_message 1 (ud_piece d) (Some (ud_total_size d)));
    _ ← write_all (ud_data_0 d);
    write_all (ud_data_1 d)
  | UtReject piece => write_bencode (ut_message 2 piece None)
  end.

Definition ut_shape : shape :=
  ShStruct [(N_msg_type, true, ShUnsigned 32); (N_piece, true, ShUnsigned 32); (N_total_size, false, ShUnsigned 32)].

(** [b"d8:msg_typei10e5:piecei4294967296e10:total_sizei16384ee".len()]. *)
Definition MAX_BMSG_SIZE : nat := 55.

Section Deserialize.
Context `{Atoi}.

Abbreviation de_result := (exec (MessageDeserializeError ExtDeErr)).

(** What follows the header, by the type of the message. *)
Definition ut_body (buf : DoubleBuf) (message : value) : de_result UtMetadata :=
  let msg_type := default 0 (slot_int message 0) in
  let piece := default 0 (slot_int message 1) in
  if msg_type =? 0 then
    if negb (db_is_empty buf) then XErr (DeOther UtMetadataTrailingBytes) else XOk (UtRequest piece)
  else if msg_type =? 1 then
    match slot_int message 2 with
    | None => XErr (DeOther UtMetadataMissingTotalSize)
    | Some total_size =>
      let d := mkData piece total_size (buf_0 buf) (buf_1 buf) in
      match ud_validate d with
      | Err e => XErr (DeOther e)
      | Ok _ => XOk (UtData d)
      end
    end
  else if msg_type =? 2 then
    if negb (db_is_empty buf) then XErr (DeOther UtMetadataTrailingBytes) else XOk (UtReject piece)
  else XErr (DeOther (UtMetadataTypeUnknown msg_type)).

Definition UtMetadata_deserialize (buf : DoubleBuf) : de_result UtMetadata :=
  let '(contig, is_contig) :=
    match get_contiguous buf (Nat.min MAX_BMSG_SIZE (db_len buf)) with
    | Some c => (c, true)
    | None => (buf_0 buf, false)
    end in
  match from_bytes_with_rest ut_shape contig with
  | XOk (message, rest) => ut_body (db_advance buf (length contig - length rest)) message
  | XErr (e, _) => if (is_contig : bool) then XErr (DeOther (DeBencode e)) else XErr NeedContiguous
  | XPanic => XPanic
  end.

(** ** All of them *)

Inductive ExtendedMessage :=
| ExtHandshake (h : ExtendedHandshake)
| ExtUtMetadata (u : UtMetadata)
| ExtUtPex (p : UtPex)
| ExtDyn (id : Z) (v : BencodeValue).

Definition ext_write `{DictIter} (e : ExtendedMessage) (ids : PeerExtendedMessageIds) : cursor () :=
  match e with
  | ExtDyn msg_id v => _ ← write_all [msg_id]; write_bencode (value_ser v)
  | ExtHandshake h => _ ← write_all [0]; write_bencode (handshake_ser h)
  | ExtUtMetadata u =>
    match ids_ut_metadata ids with
    | None => io_lift (XErr (SerOther NeedUtMetadata))
    | Some emsg_id => _ ← write_all [emsg_id]; UtMetadata_serialize u
    end
  | ExtUtPex p =>
    match ids_ut_pex ids with
    | None => io_lift (XErr (SerOther NeedPex))
    | Some emsg_id => _ ← write_all [emsg_id]; write_bencode (pex_ser p)
    end
  end.

(** The buffer after the cursor wrote into it, and its position. *)
Definition ExtendedMessage_serialize `{DictIter} (e : ExtendedMessage) (out : bytes)
    (ids : PeerExtendedMessageIds) : exec (SerializeError ExtSerErr) (bytes * nat) :=
  match ext_write e ids (BencodeSerializer_new (Some (length out))) with
  | (s, XOk _) => XOk (bs_out s ++ drop (length (bs_out s)) out, length (bs_out s))
  | (_, XErr e) => XErr e
  | (_, XPanic) => XPanic
  end.

Definition from_bytes_contig (sh : shape) (buf : DoubleBuf) : de_result value :=
  match get_contiguous buf (db_len buf) with
  | None => XErr NeedContiguous
  | Some b =>
    match from_bytes sh b with
    | XOk v => XOk v
    | XErr (e, _) => XErr (DeOther (DeBencode e))
    | XPanic => XPanic
    end
  end.

Definition value_of (v : value) : BencodeValue := match v with VValue b => b | _ => Bytes [] end.

Definition ExtendedMessage_deserialize (buf : DoubleBuf) : de_result ExtendedMessage :=
  match read_u8 buf with
  | None => XErr (NotEnoughData 1 (Some MSGID_EXTENDED))
  | Some (emsg_id, buf) =>
    if emsg_id =? 0 then v ← from_bytes_contig handshake_shape buf; XOk (ExtHandshake (handshake_of v))
    else if emsg_id =? MY_EXTENDED_UT_METADATA then u ← UtMetadata_deserialize buf; XOk (ExtUtMetadata u)
    else if emsg_id =? MY_EXTENDED_UT_PEX then v ← from_bytes_contig pex_shape buf; XOk (ExtUtPex (pex_of v))
    else v ← from_bytes_contig ShValue buf; XOk (ExtDyn emsg_id (value_of v))
  end.
End Deserialize.

(** ** The types as structs of fields *)

Definition ids_fields (i : PeerExtendedMessageIds) : list tfield :=
  [mkTF N_ut_metadata false (ShUnsigned 8) (some_content <$> ids_ut_metadata i);
   mkTF N_ut_pex false (ShUnsigned 8) (some_content <$> ids_ut_pex i)].

Definition handshake_fields (h : ExtendedHandshake) : list tfield :=
  [mkTF N_m false ids_shape (Some (struct_content (ids_fields (hs_m h))));
   mkTF N_p false (ShUnsigned 32) (int_content <$> hs_p h);
   mkTF N_v false (ShBytes any_bytes) (bytes_content <$> hs_v h);
   mkTF N_yourip false (ShBytes (compact_accept IpAddr)) (bytes_content ∘ compact_bytes <$> hs_yourip h);
   mkTF N_ipv6 false (ShBytes (compact_accept Ipv6Addr)) (bytes_content ∘ compact_bytes <$> hs_ipv6 h);
   mkTF N_ipv4 false (ShBytes (compact_accept Ipv4Addr)) (bytes_content ∘ compact_bytes <$> hs_ipv4 h);
   mkTF N_reqq false (ShUnsigned 32) (int_content <$> hs_reqq h);
   mkTF N_metadata_size false (ShUnsigned 32) (int_content <$> hs_metadata_size h);
   mkTF N_complete_ago false (ShSigned 32) (int_content <$> hs_complete_ago h);
   mkTF N_upload_only false (ShUnsigned 32) (int_content <$> hs_upload_only h)].

Definition pex_fields (p : UtPex) : list tfield :=
  [mkTF N_added false (ShBytes (list_accept SocketAddrV4)) (bytes_content <$> px_added p);
   mkTF N_added_f false (ShBytes (list_accept Flags)) (bytes_content <$> px_added_f p);
   mkTF N_added6 false (ShBytes (list_accept SocketAddrV6)) (bytes_content <$> px_added6 p);
   mkTF N_added6_f false (ShBytes (list_accept Flags)) (bytes_content <$> px_added6_f p);
   mkTF N_dropped false (ShBytes (list_accept SocketAddrV4)) (bytes_content <$> px_dropped p);
   mkTF N_dropped6 false (ShBytes (list_accept SocketAddrV6)) (bytes_content <$> px_dropped6 p)].

Definition ut_fields (msg_type piece : Z) (total_size : option Z) : list tfield :=
  [mkTF N_msg_type true (ShUnsigned 32) (Some (int_content msg_type));
   mkTF N_piece true (ShUnsigned 32) (Some (int_content piece));
   mkTF N_total_size false (ShUnsigned 32) (int_content <$> total_size)].

Lemma pex_ser_fields p : pex_ser p = SerStruct (fields_ser (pex_fields p)).
Proof. destruct p. apply struct_ser_fields. cbn. same_fields. Qed.

Lemma ut_message_fields t p s : ut_message t p s = SerStruct (fields_ser (ut_fields t p s)).
Proof. apply struct_ser_fields. cbn. same_fields. Qed.

Lemma ids_ser_fields i : is_Some (ids_ut_metadata i) -> is_Some (ids_ut_pex i) ->
  ids_ser i = SerStruct (fields_ser (ids_fields i)).
Proof. intros [a Ha] [b Hb]. destruct i; cbn in *; subst. done. Qed.

Lemma handshake_ser_fields h : is_Some (ids_ut_metadata (hs_m h)) -> is_Some (ids_ut_pex (hs_m h)) ->
  handshake_ser h = SerStruct (fields_ser (handshake_fields h)).
Proof.
  intros Ha Hb. apply struct_ser_fields. rewrite ids_ser_fields by done. destruct h; cbn.
  same_fields.
Qed.

(** An address that fits its encoding. *)
Definition ip_valid (a : IpAddr) : Prop := match a with IpV4 b => is_u32 b | IpV6 b => is_uint 128 b end.

Lemma slice_get_all (b : bytes) n : length b = n -> slice_get b 0 n = Some b.
Proof.
  intros <-. apply slice_get_Some. rewrite drop_0, Nat.sub_0_r, firstn_all. split; [lia|done].
Qed.

Lemma v4_compact a : is_u32 (v4_bits a) -> compact_value (compact_bytes a) = Some a.
Proof.
  intros Ha. destruct a as [z]. cbn in Ha. destruct (uint_bytes 4 z Ha) as (Hl & _ & E).
  unfold compact_value, compact_bytes. cbn -[to_be_bytes v4_from_slice]. unfold v4_from_slice.
  rewrite slice_get_all, to_array_ok by done. run. by rewrite E.
Qed.

Lemma v6_compact a : is_uint 128 (v6_bits a) -> compact_value (compact_bytes a) = Some a.
Proof.
  intros Ha. destruct a as [z]. cbn in Ha. destruct (uint_bytes 16 z Ha) as (Hl & _ & E).
  unfold compact_value, compact_bytes. cbn -[to_be_bytes v6_from_slice]. unfold v6_from_slice.
  rewrite slice_get_all, to_array_ok by done. run. by rewrite E.
Qed.

Lemma ip_bytes a : ip_valid a ->
  compact_bytes a = match a with IpV4 b => to_be_bytes 4 b | IpV6 b => to_be_bytes 16 b end.
Proof.
  intros Ha. unfold compact_bytes. cbn -[to_be_bytes]. unfold ip_as_slice.
  destruct a as [z|z]; cbn -[to_be_bytes SmallSlice_new_from_buf SmallSlice_as_slice].
  - destruct (SmallSlice_new_from_buf_ok 16 (to_be_bytes 4 z)) as (s & -> & _ & _ & Hs);
      [rewrite length_to_be_bytes; lia|]. run. by rewrite Hs.
  - destruct (SmallSlice_new_from_buf_ok 16 (to_be_bytes 16 z)) as (s & -> & _ & _ & Hs);
      [rewrite length_to_be_bytes; lia|]. run. by rewrite Hs.
Qed.

Lemma ip_compact a : ip_valid a -> compact_value (compact_bytes a) = Some a.
Proof.
  intros Ha. rewrite ip_bytes by done. unfold compact_value. cbn -[to_be_bytes]. unfold ip_from_slice.
  destruct a as [z|z]; rewrite length_to_be_bytes; cbn -[to_be_bytes].
  - destruct (uint_bytes 4 z Ha) as (Hl & _ & E). unfold v4_from_slice_unchecked_len.
    rewrite to_array_ok by done. run. cbn [v4_bits]. by rewrite E.
  - destruct (uint_bytes 16 z Ha) as (Hl & _ & E). unfold v6_from_slice_unchecked_len.
    rewrite to_array_ok by done. run. cbn [v6_bits]. by rewrite E.
Qed.

(** ** The messages that can be written *)

Definition is_i32 (z : Z) : Prop := - 2 ^ 31 <= z < 2 ^ 31.

Record handshake_ok (h : ExtendedHandshake) : Prop := {
  ho_ut_metadata : exists z, ids_ut_metadata (hs_m h) = Some z /\ is_u8 z;
  ho_ut_pex : exists z, ids_ut_pex (hs_m h) = Some z /\ is_u8 z;
  ho_p : opt_ok is_u32 (hs_p h);
  ho_v : opt_ok short (hs_v h);
  ho_yourip : opt_ok ip_valid (hs_yourip h);
  ho_ipv6 : opt_ok (fun a => is_uint 128 (v6_bits a)) (hs_ipv6 h);
  ho_ipv4 : opt_ok (fun a => is_u32 (v4_bits a)) (hs_ipv4 h);
  ho_reqq : opt_ok is_u32 (hs_reqq h);
  ho_metadata_size : opt_ok is_u32 (hs_metadata_size h);
  ho_complete_ago : opt_ok is_i32 (hs_complete_ago h);
  ho_upload_only : opt_ok is_u32 (hs_upload_only h)
}.

Definition list_ok (T : Type) `{CompactSerializeFixedLen T} (b : bytes) : Prop :=
  short b /\ list_accept T b = true.

Record pex_ok (p : UtPex) : Prop := {
  po_added : opt_ok (list_ok SocketAddrV4) (px_added p);
  po_added_f : opt_ok (list_ok Flags) (px_added_f p);
  po_added6 : opt_ok (list_ok SocketAddrV6) (px_added6 p);
  po_added6_f : opt_ok (list_ok Flags) (px_added6_f p);
  po_dropped : opt_ok (list_ok SocketAddrV4) (px_dropped p);
  po_dropped6 : opt_ok (list_ok SocketAddrV6) (px_dropped6 p)
}.

Section Codecs.
Context `{AtoiSpec}.

Lemma compact_field_ok {T} `{CompactSerialize T} h name (P : T -> Prop) o :
  short name -> opt_ok P o ->
  (forall a, P a -> short (compact_bytes a) /\ compact_value (compact_bytes a) = Some a) ->
  content_ok h (mkTF name false (ShBytes (compact_accept T)) (bytes_content ∘ compact_bytes <$> o)).
Proof.
  intros Hn Ho HP. apply bytes_field_ok; [done|]. intros a Ha. destruct (HP a (Ho a Ha)) as [? Hv].
  split; [done|]. unfold compact_accept. by rewrite Hv.
Qed.

Lemma ids_codec h i :
  (exists z, ids_ut_metadata i = Some z /\ is_u8 z) -> (exists z, ids_ut_pex i = Some z /\ is_u8 z) ->
  codec (S h) ids_shape (VStruct (slots_of (ids_fields i))) (SerStruct (fields_ser (ids_fields i)))
    (enc_map (sort_by key_leb (fields_enc (ids_fields i)))).
Proof.
  intros (a & Ha & Hau) (b & Hb & Hbu). apply (codec_struct h (ids_fields i)); [by apply (bool_decide_unpack _)|].
  unfold ids_fields. rewrite Ha, Hb. repeat apply Forall_cons_2; try apply Forall_nil_2;
    (split; [done|by apply codec_some, codec_unsigned]).
Qed.

Lemma handshake_codec h :
  handshake_ok h ->
  codec 2 handshake_shape (VStruct (slots_of (handshake_fields h))) (handshake_ser h)
    (enc_map (sort_by key_leb (fields_enc (handshake_fields h)))).
Proof.
  intros Hh. rewrite handshake_ser_fields.
  2: by destruct (ho_ut_metadata _ Hh) as (? & -> & _).
  2: by destruct (ho_ut_pex _ Hh) as (? & -> & _).
  apply (codec_struct 1 (handshake_fields h)); [by apply (bool_decide_unpack _)|]. destruct Hh.
  repeat apply Forall_cons_2; try apply Forall_nil_2.
  - split; [done|]. by apply ids_codec.
  - by apply int_field_ok.
  - apply (bytes_field_ok _ _ _ (fun b => b)); [done|]. intros b Hb. split; [by apply ho_v0|done].
  - eapply compact_field_ok; [done|done|]. intros a Ha. split; [|by apply ip_compact].
    rewrite ip_bytes by done. unfold short. destruct a; rewrite length_to_be_bytes; done.
  - eapply compact_field_ok; [done|done|]. intros a Ha. split; [|by apply v6_compact]. done.
  - eapply compact_field_ok; [done|done|]. intros a Ha. split; [|by apply v4_compact]. done.
  - by apply int_field_ok.
  - by apply int_field_ok.
  - split; [done|]. cbn. destruct (hs_complete_ago h) as [z|]; [|done]. apply codec_signed. by apply ho_complete_ago0.
  - by apply int_field_ok.
Qed.

Lemma handshake_of_fields h : handshake_ok h -> handshake_of (VStruct (slots_of (handshake_fields h))) = h.
Proof.
  intros [_ _ _ _ Hy H6 H4 _ _ _ _]. unfold handshake_of.
  rewrite (slot_int_fields _ 1 _ (hs_p h)), (slot_bytes_fields _ 2 _ (hs_v h)),
    (slot_bytes_fields _ 3 _ (compact_bytes <$> hs_yourip h)), (slot_bytes_fields _ 4 _ (compact_bytes <$> hs_ipv6 h)),
    (slot_bytes_fields _ 5 _ (compact_bytes <$> hs_ipv4 h)),
    (slot_int_fields _ 6 _ (hs_reqq h)), (slot_int_fields _ 7 _ (hs_metadata_size h)),
    (slot_int_fields _ 8 _ (hs_complete_ago h)), (slot_int_fields _ 9 _ (hs_upload_only h))
    by (try reflexivity; try (by left); by destruct h as [? ? ? [] [] []]).
  destruct h as [m p v y a6 a4 r ms ca uo]. cbn in *. f_equal.
  - change (ids_of (VStruct (slots_of (ids_fields m))) = m). unfold ids_of.
    rewrite (slot_int_fields _ 0 _ (ids_ut_metadata m)), (slot_int_fields _ 1 _ (ids_ut_pex m))
      by (try reflexivity; by right). by destruct m.
  - destruct y; [|done]. by apply ip_compact, Hy.
  - destruct a6; [|done]. by apply v6_compact, H6.
  - destruct a4; [|done]. by apply v4_compact, H4.
Qed.

Lemma pex_codec p :
  pex_ok p ->
  codec 1 pex_shape (VStruct (slots_of (pex_fields p))) (pex_ser p)
    (enc_map (sort_by key_leb (fields_enc (pex_fields p)))).
Proof.
  intros Hp. rewrite pex_ser_fields. apply (codec_struct 0 (pex_fields p)); [by apply (bool_decide_unpack _)|].
  destruct Hp. repeat apply Forall_cons_2; try apply Forall_nil_2;
    by apply (bytes_field_ok _ _ _ (fun b => b)).
Qed.

Lemma pex_of_fields p : pex_of (VStruct (slots_of (pex_fields p))) = p.
Proof.
  unfold pex_of.
  rewrite (slot_bytes_fields _ 0 _ (px_added p)), (slot_bytes_fields _ 1 _ (px_added_f p)),
    (slot_bytes_fields _ 2 _ (px_added6 p)), (slot_bytes_fields _ 3 _ (px_added6_f p)),
    (slot_bytes_fields _ 4 _ (px_dropped p)), (slot_bytes_fields _ 5 _ (px_dropped6 p)) by reflexivity.
  by destruct p.
Qed.

(** The header of a [ut_metadata] message. *)
Definition ut_header (msg_type piece : Z) (total_size : option Z) : bytes :=
  enc_map (sort_by key_leb (fields_enc (ut_fields msg_type piece total_size))).

Lemma ut_codec msg_type piece total_size :
  is_u32 msg_type -> is_u32 piece -> opt_ok is_u32 total_size ->
  codec 1 ut_shape (VStruct (slots_of (ut_fields msg_type piece total_size)))
    (ut_message msg_type piece total_size) (ut_header msg_type piece total_size).
Proof.
  intros Ht Hp Hs. rewrite ut_message_fields. apply (codec_struct 0 (ut_fields msg_type piece total_size));
    [by apply (bool_decide_unpack _)|].
  repeat apply Forall_cons_2; try apply Forall_nil_2; [..|by apply int_field_ok];
    (split; [done|by apply codec_unsigned]).
Qed.

End Codecs.

(** ** Writing through the cursor *)

Definition cwrites (m : cursor ()) (b : bytes) : Prop :=
  forall s, bs_hack_no_bytestring_prefix s = false ->
    if fits (bs_room s) (length b) then m s = (wrote s b, XOk ())
    else exists s' e, m s = (s', XErr e).

Lemma map_err_writes f m b : writes m b -> cwrites (io_map_err f m) b.
Proof.
  intros Hm s Hs. specialize (Hm s Hs). unfold io_map_err.
  destruct (fits _ _); [by rewrite Hm|]. destruct Hm as (s' & ->). by eexists _, _.
Qed.

Lemma cwrites_bind m f b c : cwrites m b -> cwrites (f ()) c -> cwrites (m ≫= f) (b ++ c).
Proof.
  intros Hm Hf s Hs. specialize (Hm s Hs). rewrite length_app, fits_app.
  destruct (fits (bs_room s) (length b)); cbn [andb].
  - specialize (Hf (wrote s b) Hs). unfold mbind, io_bind. rewrite Hm. cbn [bs_room wrote] in Hf.
    destruct (fits _ (length c)); [|done]. rewrite Hf. unfold wrote. cbn. f_equal.
    rewrite <- app_assoc. f_equal. destruct (bs_room s); cbn; [|done]. by rewrite length_app, Nat.sub_add_distr.
  - destruct Hm as (s' & e & Hm). exists s', e. unfold mbind, io_bind. by rewrite Hm.
Qed.

Lemma write_all_writes b : cwrites (write_all b) b.
Proof. apply map_err_writes, write_raw_writes. Qed.

Lemma tagged_writes id m b : cwrites m b -> cwrites (_ ← write_all [id]; m) (id :: b).
Proof. intros Hm. by apply (cwrites_bind _ (fun _ => m) [id]); [apply write_all_writes|]. Qed.

(** What a run of the cursor leaves in the buffer. *)
Lemma serialize_writes `{DictIter} e out ids b :
  cwrites (ext_write e ids) b ->
  match ExtendedMessage_serialize e out ids with
  | XOk (out', n) => n = length b /\ take n out' = b /\ (length b <= length out)%nat
  | XErr _ => (length out < length b)%nat
  | XPanic => False
  end.
Proof.
  intros Hw. specialize (Hw (BencodeSerializer_new (Some (length out))) eq_refl).
  unfold ExtendedMessage_serialize. cbn [bs_room BencodeSerializer_new fits] in Hw.
  destruct (Nat.leb_spec (length b) (length out)).
  - rewrite Hw. cbn. split_and!; [done|by apply take_app_length|done].
  - by destruct Hw as (s' & er & ->).
Qed.

(** Nothing that is written goes past the end of the buffer. *)
Definition grows (s s' : BencodeSerializer) : Prop :=
  exists b, bs_out s' = bs_out s ++ b /\ bs_room s' = (fun r => r - length b)%nat <$> bs_room s
    /\ fits (bs_room s) (length b) = true.

Definition grower {E A} (m : io BencodeSerializer E A) : Prop := forall s, grows s (m s).1.

Lemma grows_refl s s' : bs_out s' = bs_out s -> bs_room s' = bs_room s -> grows s s'.
Proof.
  intros Ho Hr. exists []. rewrite app_nil_r. split_and!; [done| |by destruct (bs_room s)].
  rewrite Hr. destruct (bs_room s); cbn; [by rewrite Nat.sub_0_r|done].
Qed.

Lemma grows_trans s1 s2 s3 : grows s1 s2 -> grows s2 s3 -> grows s1 s3.
Proof.
  intros (b & Ho & Hr & Hf) (c & Ho' & Hr' & Hf'). exists (b ++ c). rewrite Ho', Ho, Hr', Hr, app_assoc. rewrite Hr in Hf'.
  split_and!; [done| |by rewrite length_app, fits_app, Hf, Hf'].
  destruct (bs_room s1); cbn; [|done]. by rewrite length_app, Nat.sub_add_distr.
Qed.

Lemma grower_bind {E A B} (m : io BencodeSerializer E A) (f : A -> io BencodeSerializer E B) :
  grower m -> (forall a, grower (f a)) -> grower (m ≫= f).
Proof.
  intros Hm Hf s. specialize (Hm s). unfold mbind, io_bind. destruct (m s) as [s1 [a|e|]]; [|done..].
  eapply grows_trans; [exact Hm|apply Hf].
Qed.

Lemma grower_lift {E A} (r : exec E A) : grower (io_lift (S := BencodeSerializer) r).
Proof. intros s. by apply grows_refl. Qed.

Lemma grower_ret {E A} (a : A) : grower (mret a : io BencodeSerializer E A).
Proof. intros s. by apply grows_refl. Qed.

Lemma grower_raw b : grower (write_raw b).
Proof.
  intros s. unfold write_raw. destruct (bs_room s) as [r|] eqn:E; cbn.
  - exists (take r b). rewrite E. case_match; cbn; rewrite length_take; (split_and!; [done| |apply Nat.leb_le; lia]);
      f_equal; lia.
  - exists b. by rewrite E.
Qed.

Lemma grower_write_bytes b : grower (write_bytes b).
Proof.
  apply grower_bind; [|intros; apply grower_raw]. intros s. unfold io_state.
  case_match; [by apply grows_refl|apply grower_raw].
Qed.

(** Follow the structure of the code. *)
Ltac grow :=
  repeat first [assumption | apply grower_raw | apply grower_lift | apply grower_ret
               | apply grower_write_bytes
               | match goal with |- grower (_ ≫= _) => apply grower_bind; [|intros ?] end | intros s; by apply grows_refl].

Lemma grower_end_map kvs : grower (end_map kvs).
Proof.
  unfold end_map, write_byte. grow. induction (sort_by key_leb kvs) as [|[k v] l IH]; cbn [write_entries]; grow.
Qed.

Lemma grower_serialize v : grower (serialize v).
Proof.
  revert v. fix IH 1. intros [b|z|b| |v|l|kvs|fields|b|]; cbn [serialize]; unfold write_number, write_byte;
    [grow|grow|grow|grow|apply IH| | | |grow|grow].
  - grow. induction l as [|x l IHl]; cbn [serialize_elements]; grow. apply IH.
  - grow; [|apply grower_end_map]. induction kvs as [|[k v] kvs IHl]; cbn [serialize_entries]; grow.
  - grow; [|apply grower_end_map]. induction fields as [|[k v] kvs IHl]; cbn [serialize_fields]; grow.
Qed.

Lemma grower_map_err {E E' A} (f : E -> E') (m : io BencodeSerializer E A) : grower m -> grower (io_map_err f m).
Proof. intros Hm s. specialize (Hm s). unfold io_map_err. by destruct (m s) as [s' []]. Qed.

Lemma serialize_fits `{DictIter} e out ids out' n :
  ExtendedMessage_serialize e out ids = XOk (out', n) ->
  length out' = length out /\ (0 < n <= length out)%nat.
Proof.
  unfold ExtendedMessage_serialize. set (s0 := BencodeSerializer_new _).
  assert (grower (ext_write e ids) /\ forall s' u, ext_write e ids s0 = (s', XOk u) -> bs_out s' <> []) as [Hg Hne].
  { assert (forall id (m : cursor ()), grower m -> grower (_ ← write_all [id]; m)
      /\ forall s' u, (_ ← write_all [id]; m) s0 = (s', XOk u) -> bs_out s' <> []) as Htag.
    { intros id m Hm. split; [by apply grower_bind; [apply grower_map_err, grower_raw|]|].
      intros s' u Hs. pose proof (write_all_writes [id] s0 eq_refl) as Hw. unfold mbind, io_bind in Hs.
      destruct (fits _ _); [|by destruct Hw as (? & ? & Hw); rewrite Hw in Hs].
      rewrite Hw in Hs. destruct (Hm (wrote s0 [id])) as (b & Ho & _). rewrite Hs in Ho. cbn in Ho. by rewrite Ho. }
    assert (forall v, grower (write_bencode v)) as Hb by (intros; apply grower_map_err, grower_serialize).
    destruct e as [h|u|p|id v]; cbn [ext_write]; [by apply Htag| | |by apply Htag];
      (case_match; [apply Htag|split; [apply grower_lift|done]]); [|done].
    destruct u; cbn; [done| |done]. apply grower_bind; [done|]. intros _.
    apply grower_bind; intros; apply grower_map_err, grower_raw. }
  destruct (Hg s0) as (b & Ho & Hr & Hf). destruct (ext_write e ids s0) as [s' [u|er|]]; [|done..].
  intros [= <- <-]. specialize (Hne s' u eq_refl). cbn in Ho, Hf. rewrite Ho in *. cbn in Hf.
  apply Nat.leb_le in Hf. rewrite length_app, length_drop. destruct b; [done|]. cbn [app length] in *. lia.
Qed.

(** ** Reading [ut_metadata] *)

Lemma length_rev_digits fuel n k :
  0 <= n < 10 ^ Z.of_nat (S k) -> (length (rev_digits fuel n) <= S k)%nat.
Proof.
  revert fuel n. induction k as [|k IH]; intros [|fuel] n Hn; cbn [rev_digits length]; try lia.
  - change (10 ^ Z.of_nat 1) with 10 in Hn. destruct (Z.ltb_spec n 10); [done|lia].
  - destruct (n <? 10); [cbn; lia|]. apply le_n_S, IH. rewrite (Nat2Z.inj_succ (S k)), Z.pow_succ_r in Hn by lia.
    split; [apply Z.div_pos; lia|]. apply Z.div_lt_upper_bound; lia.
Qed.

Lemma length_enc_int n k :
  0 <= n < 10 ^ Z.of_nat (S k) -> (length (enc_int n) <= S k + 2)%nat.
Proof.
  intros Hn. unfold enc_int, display. destruct (Z.ltb_spec n 0); [lia|]. cbn. rewrite length_app. cbn.
  unfold digits. rewrite length_reverse. pose proof (length_rev_digits (S (Z.to_nat (Z.log2 n))) n k Hn). lia.
Qed.

Definition ud_bytes (d : UtMetadataData) : bytes := ud_data_0 d ++ ud_data_1 d.

(** The same message, up to where its data is cut. *)
Definition ut_equiv (u u' : UtMetadata) : Prop :=
  match u, u' with
  | UtData d, UtData d' =>
    ud_piece d = ud_piece d' /\ ud_total_size d = ud_total_size d' /\ ud_bytes d = ud_bytes d'
  | _, _ => u = u'
  end.

Definition ut_ok (u : UtMetadata) : Prop :=
  match u with
  | UtRequest piece | UtReject piece => is_u32 piece
  | UtData d => is_u32 (ud_piece d) /\ is_u32 (ud_total_size d) /\ ud_validate d = Ok ()
  end.

Definition ut_head (u : UtMetadata) : bytes :=
  match u with
  | UtRequest piece => ut_header 0 piece None
  | UtData d => ut_header 1 (ud_piece d) (Some (ud_total_size d))
  | UtReject piece => ut_header 2 piece None
  end.

Definition ut_data (u : UtMetadata) : bytes := match u with UtData d => ud_bytes d | _ => [] end.

(** A valid data message: the piece lies in the metadata and has its size. *)
Lemma ud_validate_spec d :
  is_u32 (ud_total_size d) -> 0 <= ud_piece d ->
  ud_validate d = Ok ()
  <-> 0 < ud_total_size d
      /\ ud_piece d * CHUNK_SIZE < ud_total_size d
      /\ Z.of_nat (ud_len d) = Z.min (ud_total_size d - ud_piece d * CHUNK_SIZE) CHUNK_SIZE.
Proof.
  intros Ht Hp. unfold ud_validate, saturating_sub. unfold CHUNK_SIZE in *. unfold is_uint in Ht.
  pose proof (div_ceil_spec (ud_total_size d) 16384 ltac:(lia)) as Hc.
  destruct (Z.eqb_spec (ud_total_size d) 0); [split; [done|lia]|].
  destruct (Z.ltb_spec 16384 (Z.of_nat (ud_len d))); [split; [done|lia]|].
  destruct (Z.leb_spec (div_ceil (ud_total_size d) 16384) (ud_piece d)); [split; [done|nia]|].
  rewrite !wrap_id by (unfold is_uint; nia).
  destruct (Z.eqb_spec (Z.of_nat (ud_len d))
    (Z.min (Z.max 0 (ud_total_size d - ud_piece d * 16384)) 16384)); cbn; (split; [done||nia|done||nia]).
Qed.

Lemma length_enc_entry k e :
  length (enc_entry (k, e)) = (length (digits (Z.of_nat (length k))) + 1 + length k + length e)%nat.
Proof. unfold enc_entry, enc_bytes. rewrite !length_app. cbn. lia. Qed.

(** The lengths of the names, and of their lengths. *)
Ltac lens :=
  cbn -[enc_int];
  repeat match goal with |- context [digits (Z.of_nat ?n)] =>
    let d := eval vm_compute in (digits (Z.of_nat n)) in change (digits (Z.of_nat n)) with d end;
  cbn [length]; lia.

(** Every header fits in the part of the buffer that is looked at. *)
Lemma ut_head_fits u : ut_ok u -> (length (ut_head u) <= MAX_BMSG_SIZE)%nat.
Proof.
  assert (forall t p, 0 <= t < 10 -> is_u32 p -> (length (ut_header t p None) <= 55)%nat) as Hshort.
  { intros t p Ht Hp. pose proof (length_enc_int t 0 ltac:(cbn; lia)).
    pose proof (length_enc_int p 9 ltac:(unfold is_uint in Hp; cbn; lia)).
    unfold ut_header, enc_map. repeat progress (cbn -[enc_int enc_entry]; rewrite ?length_app). rewrite !length_enc_entry. lens. }
  destruct u as [p|d|p]; cbn [ut_ok ut_head]; intros Hu; [by apply Hshort| |by apply Hshort].
  destruct Hu as (Hp & Ht & Hv). apply ud_validate_spec in Hv; [|done|by apply Hp]. unfold CHUNK_SIZE, is_uint in *.
  pose proof (length_enc_int 1 0 ltac:(cbn; lia)).
  pose proof (length_enc_int (ud_piece d) 5 ltac:(cbn; lia)).
  pose proof (length_enc_int (ud_total_size d) 9 ltac:(cbn; lia)).
  unfold ut_header, enc_map, MAX_BMSG_SIZE. repeat progress (cbn -[enc_int enc_entry]; rewrite ?length_app). rewrite !length_enc_entry. lens.
Qed.

(** The contiguous part begins with the header. *)
Lemma ut_contiguous a b hd data :
  a ++ b = hd ++ data -> hd <> [] -> (length hd <= MAX_BMSG_SIZE)%nat -> a = [] \/ (length hd <= length a)%nat ->
  exists rest, match get_contiguous (mkDB a b) (Nat.min MAX_BMSG_SIZE (db_len (mkDB a b))) with
               | Some c => c
               | None => a
               end = hd ++ rest.
Proof.
  intros Hab Hne Hmax Hcut. pose proof (f_equal length Hab) as Hl. rewrite !length_app in Hl.
  assert (forall n, (length hd <= n)%nat -> take n (hd ++ data) = hd ++ take (n - length hd) data) as Htake.
  { intros n Hn. by rewrite take_app, take_ge by lia. }
  unfold get_contiguous, db_len. cbn [buf_0 buf_1]. destruct Hcut as [->|Hcut].
  - cbn [length app] in *. subst b. destruct hd as [|c hd]; [done|].
    destruct (Nat.leb_spec (Nat.min MAX_BMSG_SIZE (0 + length ((c :: hd) ++ data))) 0) as [Hle|_].
    { rewrite length_app in Hle. cbn in *. lia. }
    cbn [Nat.eqb andb]. destruct (Nat.leb_spec (Nat.min MAX_BMSG_SIZE (0 + length ((c :: hd) ++ data)))
      (length ((c :: hd) ++ data))); [|lia]. rewrite Htake; [by eexists|]. rewrite length_app. lia.
  - destruct (Nat.leb_spec (Nat.min MAX_BMSG_SIZE (length a + length b)) (length a)).
    + rewrite <- (take_app_le a b) by lia. rewrite Hab, Htake by lia. by eexists.
    + destruct (Nat.eqb_spec (length a) 0) as [Hz|_]; [destruct hd; [done|cbn in *; lia]|]. cbn [andb].
      exists (drop (length hd) a). rewrite <- (take_drop (length hd) a) at 1. f_equal.
      rewrite <- (take_app_le a b), Hab by lia. apply take_app_length.
Qed.

Section Roundtrip.
Context `{AtoiSpec}.

Lemma ut_slots msg_type piece total_size :
  let v := VStruct (slots_of (ut_fields msg_type piece total_size)) in
  slot_int v 0 = Some msg_type /\ slot_int v 1 = Some piece /\ slot_int v 2 = total_size.
Proof. cbn zeta. by destruct total_size. Qed.

Lemma ut_head_codec u :
  ut_ok u -> exists t p s, ut_head u = ut_header t p s
    /\ codec 1 ut_shape (VStruct (slots_of (ut_fields t p s))) (ut_message t p s) (ut_head u)
    /\ forall d, db_bytes d = ut_data u ->
         exists u', ut_body d (VStruct (slots_of (ut_fields t p s))) = XOk u' /\ ut_equiv u u'.
Proof.
  assert (forall d, db_bytes d = [] -> db_is_empty d = true) as Hempty.
  { intros [a b]. unfold db_bytes. cbn. intros [-> ->]%app_nil. done. }
  destruct u as [p|d|p]; cbn [ut_ok ut_head ut_data]; intros Hu.
  - exists 0, p, None. split_and!; [done|by apply ut_codec|]. intros b Hb%Hempty. unfold ut_body.
    destruct (ut_slots 0 p None) as (-> & -> & _). cbn. rewrite Hb. by eexists.
  - destruct Hu as (Hp & Ht & Hv). exists 1, (ud_piece d), (Some (ud_total_size d)).
    split_and!; [done|by apply ut_codec; [..|intros ? [= <-]]|]. intros b Hb. unfold ut_body.
    destruct (ut_slots 1 (ud_piece d) (Some (ud_total_size d))) as (-> & -> & ->). cbn [default Z.eqb Pos.eqb].
    set (d' := mkData _ _ _ _). assert (ud_validate d' = Ok ()) as ->.
    { apply ud_validate_spec; [done|by apply Hp|]. apply ud_validate_spec in Hv; [|done|by apply Hp].
      replace (ud_len d') with (ud_len d); [exact Hv|]. unfold ud_len, d'. cbn.
      rewrite <- !length_app. f_equal. symmetry. exact Hb. }
    eexists. split; [done|]. by split_and!.
  - exists 2, p, None. split_and!; [done|by apply ut_codec|]. intros b Hb%Hempty. unfold ut_body.
    destruct (ut_slots 2 p None) as (-> & -> & _). cbn. rewrite Hb. by eexists.
Qed.

Lemma db_advance_bytes d n : db_bytes (db_advance d n) = drop n (db_bytes d).
Proof. destruct d as [a b]. apply drop_split. Qed.

Lemma ut_deserialize u a b :
  ut_ok u -> a ++ b = ut_head u ++ ut_data u -> a = [] \/ (length (ut_head u) <= length a)%nat ->
  exists u', UtMetadata_deserialize (mkDB a b) = XOk u' /\ ut_equiv u u'.
Proof.
  intros Hu Hab Hcut. destruct (ut_head_codec u Hu) as (t & p & s & Hh & Hc & Hbody).
  destruct (ut_contiguous a b (ut_head u) (ut_data u) Hab) as (rest & Hr);
    [by rewrite Hh|by apply ut_head_fits|done|].
  unfold UtMetadata_deserialize. destruct (get_contiguous _ _); cbn [buf_0];
    rewrite Hr, (codec_from_bytes_with_rest 1 _ _ _ _ rest Hc) by (unfold DEFAULT_MAX_DEPTH; lia);
    try rewrite Hr in Hab; apply Hbody; rewrite db_advance_bytes, length_app, Nat.add_sub;
    unfold db_bytes; cbn [buf_0 buf_1]; rewrite Hab; apply drop_app_length.
Qed.

Lemma ut_writes u : ut_ok u -> cwrites (UtMetadata_serialize u) (ut_head u ++ ut_data u).
Proof.
  destruct u as [p|d|p]; cbn [ut_ok ut_head ut_data UtMetadata_serialize]; intros Hu.
  1,3: rewrite app_nil_r; by apply map_err_writes, ut_codec.
  destruct Hu as (Hp & Ht & _). apply cwrites_bind; [apply map_err_writes, ut_codec; [done..|by intros ? [= <-]]|].
  unfold ud_bytes. apply cwrites_bind; apply write_all_writes.
Qed.
End Roundtrip.

(** ** The codec the framing relies on *)

(** What the other side reads back: unknown extensions under an id of their own,
    the others under the ids this program announces. *)
Definition ext_msg_ok (e : ExtendedMessage) (ids : PeerExtendedMessageIds) : Prop :=
  match e with
  | ExtHandshake h => handshake_ok h
  | ExtUtMetadata u => ut_ok u /\ ids_ut_metadata ids = Some MY_EXTENDED_UT_METADATA
  | ExtUtPex p => pex_ok p /\ ids_ut_pex ids = Some MY_EXTENDED_UT_PEX
  | ExtDyn id v =>
    id <> 0 /\ id <> MY_EXTENDED_UT_METADATA /\ id <> MY_EXTENDED_UT_PEX
    /\ value_ok v /\ (height v <= DEFAULT_MAX_DEPTH)%nat
  end.

Definition ext_msg_equiv (e e' : ExtendedMessage) : Prop :=
  match e, e' with
  | ExtUtMetadata u, ExtUtMetadata u' => ut_equiv u u'
  | _, _ => e = e'
  end.

(** The bytes of a message. *)
Definition ext_bytes (e : ExtendedMessage) : bytes :=
  match e with
  | ExtHandshake h => 0 :: enc_map (sort_by key_leb (fields_enc (handshake_fields h)))
  | ExtUtMetadata u => MY_EXTENDED_UT_METADATA :: ut_head u ++ ut_data u
  | ExtUtPex p => MY_EXTENDED_UT_PEX :: enc_map (sort_by key_leb (fields_enc (pex_fields p)))
  | ExtDyn id v => id :: enc_value v
  end.

Section Codec.
Context `{AtoiSpec} `{DictIter}.

Lemma ext_writes e ids : ext_msg_ok e ids -> cwrites (ext_write e ids) (ext_bytes e).
Proof.
  destruct e as [h|u|p|id v]; cbn [ext_msg_ok ext_write ext_bytes].
  - intros Hh. by apply tagged_writes, map_err_writes, handshake_codec.
  - intros [Hu ->]. by apply tagged_writes, ut_writes.
  - intros [Hp ->]. by apply tagged_writes, map_err_writes, pex_codec.
  - intros (_ & _ & _ & Hv & _). by apply tagged_writes, map_err_writes, value_ser_writes.
Qed.

(** A body that is read from one slice. *)
Lemma contig_reads h sh v s b d :
  codec h sh v s b -> (h <= DEFAULT_MAX_DEPTH)%nat -> d = mkDB b [] \/ d = mkDB [] b ->
  from_bytes_contig sh d = XOk v.
Proof.
  intros Hc Hh Hd. unfold from_bytes_contig.
  assert (get_contiguous d (db_len d) = Some b) as ->.
  { unfold get_contiguous, db_len. destruct Hd as [-> | ->]; cbn [buf_0 buf_1 length].
    - rewrite Nat.add_0_r, Nat.leb_refl. by rewrite firstn_all.
    - cbn [Nat.add]. destruct (Nat.leb_spec (length b) 0).
      + destruct b; [done|cbn in *; lia].
      + cbn [Nat.eqb andb]. by rewrite Nat.leb_refl, firstn_all. }
  by rewrite (codec_from_bytes h sh v s b Hc Hh).
Qed.

Lemma ext_reads e ids d :
  ext_msg_ok e ids -> d = mkDB (ext_bytes e) [] \/ d = mkDB [] (ext_bytes e) ->
  exists e', ExtendedMessage_deserialize d = XOk e' /\ ext_msg_equiv e e'.
Proof.
  intros Hok Hd.
  assert (exists id body d', ext_bytes e = id :: body /\ read_u8 d = Some (id, d') /\ (d' = mkDB body [] \/ d' = mkDB [] body))
    as (id & body & d' & Hb & Hr & Hd').
  { destruct (ext_bytes e) as [|id body] eqn:Eb; [by destruct e|]. exists id, body.
    destruct Hd as [-> | ->]; cbn; eexists; (split; [done|]); (split; [reflexivity|]); [by left|by right]. }
  unfold ExtendedMessage_deserialize. rewrite Hr.
  destruct e as [h|u|p|id' v]; cbn [ext_bytes ext_msg_ok] in Hb, Hok; injection Hb as <- <-.
  - rewrite (contig_reads _ _ _ _ _ _ (handshake_codec h Hok)) by (done || unfold DEFAULT_MAX_DEPTH; lia).
    cbn [Z.eqb mbind exec_bind]. rewrite handshake_of_fields by done. by eexists.
  - destruct Hok as [Hu _]. cbn [MY_EXTENDED_UT_METADATA Z.eqb Pos.eqb].
    assert (exists u', UtMetadata_deserialize d' = XOk u' /\ ut_equiv u u') as (u' & -> & He).
    { destruct Hd' as [-> | ->]; apply ut_deserialize; try done; [by rewrite app_nil_r| |by left].
      right. rewrite length_app. lia. }
    by eexists.
  - destruct Hok as [Hp _]. cbn [MY_EXTENDED_UT_PEX MY_EXTENDED_UT_METADATA Z.eqb Pos.eqb].
    rewrite (contig_reads _ _ _ _ _ _ (pex_codec p Hp)) by (done || unfold DEFAULT_MAX_DEPTH; lia).
    cbn [mbind exec_bind]. rewrite pex_of_fields. by eexists.
  - destruct Hok as (Hn0 & Hn1 & Hn2 & Hv & Hh). rewrite (proj2 (Z.eqb_neq _ _) Hn0), (proj2 (Z.eqb_neq _ _) Hn1),
      (proj2 (Z.eqb_neq _ _) Hn2). rewrite (contig_reads _ _ _ _ _ _ (codec_value v Hv) Hh Hd'). by eexists.
Qed.

Lemma from_bytes_contig_total sh d : from_bytes_contig sh d <> XPanic.
Proof.
  unfold from_bytes_contig. destruct (get_contiguous _ _) as [b|]; [|done]. unfold from_bytes.
  pose proof (from_bytes_answers sh b) as Ht. destruct (from_bytes_with_rest sh b) as [[v r]|[]|]; [|done|done].
  cbn. by destruct r.
Qed.

Lemma ext_deserialize_no_panic d : ExtendedMessage_deserialize d <> XPanic.
Proof.
  unfold ExtendedMessage_deserialize. destruct (read_u8 d) as [[id d']|]; [|done].
  pose proof (fun sh => from_bytes_contig_total sh d') as Hc.
  assert (UtMetadata_deserialize d' <> XPanic) as Hu.
  { unfold UtMetadata_deserialize. case_match. pose proof (from_bytes_answers ut_shape l) as Ht.
    destruct (from_bytes_with_rest ut_shape l) as [[v r]|[? ?]|]; [|by destruct b|done].
    unfold ut_body. by repeat case_match. }
  repeat case_match; unfold mbind, exec_bind; case_match; try done; naive_solver.
Qed.

(** [ExtCodec] is what [Message] was proved against. *)
#[export] Program Instance ext_codec : ExtCodec := {|
  Ext := ExtendedMessage;
  ExtIds := PeerExtendedMessageIds;
  ExtSerError := ExtSerErr;
  ExtDeError := ExtDeErr;
  ext_serialize := ExtendedMessage_serialize;
  ext_deserialize := ExtendedMessage_deserialize;
  ext_ok := ext_msg_ok;
  ext_equiv := ext_msg_equiv
|}.
Next Obligation. apply ext_deserialize_no_panic. Qed.
Next Obligation. intros e buf ids buf' n. apply serialize_fits. Qed.
Next Obligation.
  intros e buf ids buf' n Hok Hs. pose proof (serialize_writes e buf ids _ (ext_writes e ids Hok)) as Hw.
  rewrite Hs in Hw. destruct Hw as (-> & -> & _). split; eapply ext_reads; eauto.
Qed.
End Codec.

(** ** Peer exchange *)

Definition is_v4 (a : SocketAddr) : bool := match a with SockV4 _ _ => true | SockV6 _ _ _ _ => false end.

Definition v4_of (addrs : list SocketAddr) : list SocketAddr := filter (fun a => is_v4 a = true) addrs.

Definition v6_of (addrs : list SocketAddr) : list SocketAddr := filter (fun a => is_v4 a = false) addrs.

(** What a peer learns of a list: the IPv4 addresses, then the IPv6 ones without
    flow and scope, all without flags. *)
Definition pex_view (addrs : list SocketAddr) : list PexPeerInfo :=
  mkPexPeer 0 <$> v4_of addrs ++ (sock_norm <$> v6_of addrs).

Lemma traverse_pairs {T} (f : nat -> nat) (into : T -> SocketAddr) (l : list T) :
  traverse (fun x : nat * T => Ret (mkPexPeer 0 (into x.2))) (imap (fun i => pair (f i)) l)
  = Ret (mkPexPeer 0 ∘ into <$> l).
Proof.
  revert f. induction l as [|x l IH]; intros f; [done|]. rewrite imap_cons. cbn [traverse]. run.
  change (imap (_ ∘ S) l) with (imap (fun i => pair (f (S i))) l : list (nat * T)).
  by rewrite (IH (fun i => f (S i))).
Qed.

Lemma peers_without_flags {T} `{CompactLaws T} (into : T -> SocketAddr) (xs : list T) b :
  compact_iter T b = Ret xs ->
  added_peers_inner into (nonempty b) None = Ret (mkPexPeer 0 ∘ into <$> xs).
Proof.
  intros Hi. unfold nonempty. case_bool_decide as Hb; cbn [added_peers_inner].
  - subst b. cbn in Hi. injection Hi as <-. done.
  - rewrite Hi. run. apply (traverse_pairs (fun i => i)).
Qed.

Lemma as_v4_view addrs : s4_sock <$> omap as_v4 addrs = v4_of addrs.
Proof.
  unfold v4_of. induction addrs as [|[] addrs IH]; [done|..]; cbn [omap list_omap as_v4].
  - by rewrite filter_cons_True, fmap_cons, <- IH by done.
  - by rewrite filter_cons_False, <- IH by done.
Qed.

Lemma as_v6_view addrs : s6_sock ∘ compact_norm <$> omap as_v6 addrs = sock_norm <$> v6_of addrs.
Proof.
  unfold v6_of. induction addrs as [|[] addrs IH]; [done|..]; cbn [omap list_omap as_v6].
  - by rewrite filter_cons_False, <- IH by done.
  - by rewrite filter_cons_True, !fmap_cons, <- IH by done.
Qed.

Lemma nonempty_ok (T : Type) `{CompactSerializeFixedLen T} b :
  short b -> compact_deserialize T b = Some b -> opt_ok (list_ok T) (nonempty b).
Proof.
  intros Hs Hd c Hc. unfold nonempty in Hc. case_bool_decide; [done|]. injection Hc as <-.
  split; [done|]. unfold list_accept. by rewrite Hd.
Qed.

Lemma pex_split_spec addrs :
  Forall sock_valid addrs -> Z.of_nat (length addrs) < 2 ^ 32 ->
  exists a b, pex_split addrs = Ret (a, b)
    /\ opt_ok (list_ok SocketAddrV4) a /\ opt_ok (list_ok SocketAddrV6) b
    /\ (x ← added_peers_inner s4_sock a None; y ← added_peers_inner s6_sock b None; Ret (x ++ y))
       = Ret (pex_view addrs).
Proof.
  intros Hv Hlen. unfold pex_split.
  destruct (compact_list_encode (omap as_v4 addrs)) as (b4 & -> & _ & Hl4 & Hd4 & Hi4 & _).
  { apply list.Forall_forall. intros a (x & Hx & Ha)%list_elem_of_omap.
    eapply list.Forall_forall in Hv; [|exact Hx]. destruct x; [|done]. injection Ha as <-. exact Hv. }
  destruct (compact_list_encode (omap as_v6 addrs)) as (b6 & -> & _ & Hl6 & Hd6 & Hi6 & _).
  { apply list.Forall_forall. intros a (x & Hx & Ha)%list_elem_of_omap.
    eapply list.Forall_forall in Hv; [|exact Hx]. destruct x; [done|]. injection Ha as <-. exact Hv. }
  assert (forall {T} (f : SocketAddr -> option T), (length (omap f addrs) <= length addrs)%nat) as Hle.
  { intros T f. clear. induction addrs as [|x l IH]; cbn; [done|]. destruct (f x); cbn; lia. }
  pose proof (Hle _ as_v4). pose proof (Hle _ as_v6). run. eexists _, _. split; [done|].
  split; [apply nonempty_ok; [unfold short; rewrite Hl4; change (fixed_len SocketAddrV4) with 6%nat; lia|done]|].
  split; [apply nonempty_ok; [unfold short; rewrite Hl6; change (fixed_len SocketAddrV6) with 18%nat; lia|done]|].
  rewrite (peers_without_flags s4_sock _ _ Hi4), (peers_without_flags s6_sock _ _ Hi6). run. f_equal.
  unfold pex_view. rewrite <- as_v4_view, <- as_v6_view, fmap_app, <- !list_fmap_compose. done.
Qed.

Lemma pex_from_addrs_spec live closed :
  Forall sock_valid live -> Forall sock_valid closed ->
  Z.of_nat (length live) < 2 ^ 32 -> Z.of_nat (length closed) < 2 ^ 32 ->
  exists p, from_addrs live closed = Ret p /\ pex_ok p
    /\ added_peers p = Ret (pex_view live) /\ dropped_peers p = Ret (pex_view closed).
Proof.
  intros Hl Hc Hln Hcn. unfold from_addrs.
  destruct (pex_split_spec live Hl Hln) as (a4 & a6 & -> & H4 & H6 & Ha).
  destruct (pex_split_spec closed Hc Hcn) as (d4 & d6 & -> & G4 & G6 & Hd). run.
  eexists. split; [done|]. split; [by split|]. split; [exact Ha|exact Hd].
Qed.

(** ** Properties *)

(** C21: An extended message is written when it fits and refused otherwise; what is
    written is read back as the same message from either half of the receive
    buffer, for the extension handshake, requests, data and rejects of
    [ut_metadata], [ut_pex], and unknown extensions. *)
Theorem extended_roundtrip `{AtoiSpec} `{DictIter} (e : ExtendedMessage) (ids : PeerExtendedMessageIds)
    (out : bytes) :
  ext_msg_ok e ids ->
  match ExtendedMessage_serialize e out ids with
  | XOk (out', n) =>
    (exists e', ExtendedMessage_deserialize (mkDB (take n out') []) = XOk e' /\ ext_msg_equiv e e')
    /\ (exists e', ExtendedMessage_deserialize (mkDB [] (take n out')) = XOk e' /\ ext_msg_equiv e e')
  | XErr _ => (length out < length (ext_bytes e))%nat
  | XPanic => False
  end.
Proof.
  intros Hok. pose proof (serialize_writes e out ids _ (ext_writes e ids Hok)) as Hw.
  destruct (ExtendedMessage_serialize e out ids) as [[out' n]|er|]; [|done..].
  destruct Hw as (-> & -> & _). split; eapply ext_reads; eauto.
Qed.

Definition ex_hs : ExtendedHandshake :=
  mkHs ids_my (Some 6881) (Some [114; 113]) (Some (IpV4 2130706433)) None (Some (mkV4 16909060)) None (Some 31235)
    (Some (-1)) None.

Lemma ex_hs_ok : handshake_ok ex_hs.
Proof. split; try (eexists; split; [reflexivity|by vm_compute]); by intros ? [= <-]. Qed.

Lemma extended_roundtrip_witness :
  exists out' n,
    @ExtendedMessage_serialize dict_iter_rev (ExtHandshake ex_hs) (replicate 200 0) ids_default = XOk (out', n)
    /\ exists e', ExtendedMessage_deserialize (H := atoi_ref) (mkDB (take n out') []) = XOk e'
         /\ ext_msg_equiv (ExtHandshake ex_hs) e'.
Proof.
  pose proof (@extended_roundtrip atoi_ref atoi_ref_spec dict_iter_rev (ExtHandshake ex_hs) ids_default
    (replicate 200 0) ex_hs_ok) as Hr.
  destruct (@ExtendedMessage_serialize dict_iter_rev (ExtHandshake ex_hs) (replicate 200 0) ids_default)
    as [[out' n]|e|] eqn:E; [|exfalso; clear Hr; vm_compute in E; discriminate..].
  exists out', n. split; [reflexivity|]. exact (proj1 Hr).
Defined.

(** The header of every valid [ut_metadata] message fits in the
    [MAX_BMSG_SIZE] bytes the reader looks at, so that the message is read back
    when the receive buffer is cut anywhere outside the header. *)
Theorem ut_metadata_any_cut `{AtoiSpec} (u : UtMetadata) (k : nat) :
  ut_ok u -> k = 0%nat \/ (length (ut_head u) <= k)%nat ->
  let w := ut_head u ++ ut_data u in
  (length (ut_head u) <= MAX_BMSG_SIZE)%nat
  /\ exists u', UtMetadata_deserialize (mkDB (take k w) (drop k w)) = XOk u' /\ ut_equiv u u'.
Proof.
  intros Hu Hk. cbn zeta. split; [by apply ut_head_fits|]. apply ut_deserialize; [done|apply take_drop|].
  destruct Hk as [->|Hk]; [by left|]. right. rewrite length_take, length_app. lia.
Qed.

Definition ex_ut : UtMetadata := UtData (mkData 262143 4294950917 [1; 2] [3; 4; 5]).

Lemma ut_metadata_any_cut_witness :
  (length (ut_head ex_ut) <= MAX_BMSG_SIZE)%nat
  /\ exists u', UtMetadata_deserialize (H := atoi_ref)
       (mkDB (take 56 (ut_head ex_ut ++ ut_data ex_ut)) (drop 56 (ut_head ex_ut ++ ut_data ex_ut))) = XOk u'
       /\ ut_equiv ex_ut u'.
Proof.
  apply (@ut_metadata_any_cut atoi_ref atoi_ref_spec ex_ut 56).
  - split_and!; [by vm_compute|by vm_compute|reflexivity].
  - right. apply Nat.leb_le. by vm_compute.
Defined.

(** The addresses put into a peer exchange message come out of it again: the
    live ones as added and the closed ones as dropped, first IPv4 and then IPv6,
    without flags, flow and scope; and the message can be sent. *)
Theorem pex_from_addrs_correct (live closed : list SocketAddr) :
  Forall sock_valid live -> Forall sock_valid closed ->
  Z.of_nat (length live) < 2 ^ 32 -> Z.of_nat (length closed) < 2 ^ 32 ->
  exists p, from_addrs live closed = Ret p /\ pex_ok p
    /\ added_peers p = Ret (pex_view live) /\ dropped_peers p = Ret (pex_view closed).
Proof. apply pex_from_addrs_spec. Qed.

Lemma pex_from_addrs_correct_witness :
  exists p, from_addrs [SockV6 1 2 3 4; SockV4 5 6] [] = Ret p
    /\ added_peers p = Ret [mkPexPeer 0 (SockV4 5 6); mkPexPeer 0 (SockV6 1 2 0 0)].
Proof.
  destruct (pex_from_addrs_correct [SockV6 1 2 3 4; SockV4 5 6] []) as (p & Hp & _ & Ha & _).
  - repeat apply Forall_cons_2; try apply Forall_nil_2; by vm_compute.
  - apply Forall_nil_2.
  - done.
  - done.
  - exists p. split; [exact Hp|exact Ha].
Defined.
