(* ===== verification/PeerConnection.v ===== *)
(** * Peer connections ([librqbit::peer_connection])

    The protocol of one connection, generic in the handler: the checks on the
    handshake, what is sent first, the dispatch of received messages and the
    frames the writer sends.  [PeerConnectionHandler] is the trait; its instances
    are the handler of a live torrent and the reader of metadata
    ([MetadataExchange]).  Sockets, timeouts and the [select] of reader and
    writer are not modelled: a step is one message read or one request written. *)

From stdpp Require Import base tactics option list list_numbers numbers decidable sets.
From Stdlib Require Import ZArith Lia.
From S2P Require Import Prelude Lengths Net DoubleBuf Message CompactIp Bencode BencodeTypes Extended.
Open Scope Z_scope.

(** [PREAMBLE_LEN + 1 + 46 + CHUNK_SIZE + 64]. *)
Definition MAX_MSG_LEN : nat := Z.to_nat (5 + 1 + 46 + CHUNK_SIZE + 64).

Inductive ConnError (E : Type) :=
| WrongInfoHash
| ConnectingToOurselves
| Anyhow (e : E)
| Serialize (e : SerializeError ExtSerErr)
| ReadChunk (e : E)
| Disconnect
| DisconnectWithSource.
Arguments WrongInfoHash {E}.
Arguments ConnectingToOurselves {E}.
Arguments Anyhow {E}.
Arguments Serialize {E}.
Arguments ReadChunk {E}.
Arguments Disconnect {E}.
Arguments DisconnectWithSource {E}.

Section Connection.
Context `{Atoi} `{!AtoiSpec} `{DictIter}.

Inductive WriterRequest :=
| WMessage (m : Message)
| WUtMetadata (u : UtMetadata)
| WUtPex (p : UtPex)
| WReadChunkRequest (c : ChunkInfo)
| WDisconnect (ok : bool).

(** [trait PeerConnectionHandler]. *)
Class PeerConnectionHandler (T E : Type) := {
  should_send_bitfield : T -> bool;
  serialize_bitfield_message_to_buf : T -> bytes -> exec E (bytes * nat);
  on_handshake : Handshake -> ConnectionKind -> io T E ();
  on_extended_handshake : ExtendedHandshake -> io T E ();
  on_received_message : Message -> io T E ();
  should_transmit_have : T -> Z -> bool;
  on_uploaded_bytes : Z -> T -> T;
  read_chunk : T -> ChunkInfo -> exec E bytes;
  update_my_extended_handshake : T -> ExtendedHandshake -> exec E ExtendedHandshake;
  client_name_and_version : T -> bytes
}.

Context {T E : Type} `{!PeerConnectionHandler T E}.

(** The connection: its handler, the peer's extension ids, the buffer the
    writer reuses and the bytes sent so far. *)
Record PeerConnection := mkConn {
  pc_addr : SocketAddr;
  pc_info_hash : bytes;
  pc_peer_id : bytes;
  pc_handler : T;
  pc_extended_handshake : option PeerExtendedMessageIds;
  pc_write_buf : bytes;
  pc_sent : bytes
}.

Definition set_handler (t : T) (c : PeerConnection) : PeerConnection :=
  mkConn (pc_addr c) (pc_info_hash c) (pc_peer_id c) t (pc_extended_handshake c) (pc_write_buf c) (pc_sent c).

Definition set_extended_handshake (i : PeerExtendedMessageIds) (c : PeerConnection) : PeerConnection :=
  mkConn (pc_addr c) (pc_info_hash c) (pc_peer_id c) (pc_handler c) (Some i) (pc_write_buf c) (pc_sent c).

Definition set_write_buf (b : bytes) (c : PeerConnection) : PeerConnection :=
  mkConn (pc_addr c) (pc_info_hash c) (pc_peer_id c) (pc_handler c) (pc_extended_handshake c) b (pc_sent c).

Abbreviation conn := (io PeerConnection (ConnError E)).

(** A call on the handler. *)
Definition on_handler {A} (wrap_err : E -> ConnError E) (m : io T E A) : conn A := fun c =>
  match m (pc_handler c) with
  | (t, XOk a) => (set_handler t c, XOk a)
  | (t, XErr e) => (set_handler t c, XErr (wrap_err e))
  | (t, XPanic) => (set_handler t c, XPanic)
  end.

Definition ask_handler {A} (wrap_err : E -> ConnError E) (f : T -> exec E A) : conn A :=
  on_handler wrap_err (fun t => (t, f t)).

(** [write.write_all(&write_buf[..len])]. *)
Definition write_out (len : nat) : conn () := fun c =>
  if (len <=? length (pc_write_buf c))%nat then
    (mkConn (pc_addr c) (pc_info_hash c) (pc_peer_id c) (pc_handler c) (pc_extended_handshake c) (pc_write_buf c)
       (pc_sent c ++ take len (pc_write_buf c)), XOk ())
  else (c, XPanic).

(** Serialize into the write buffer. *)
Definition into_write_buf {A E'} (wrap_err : E' -> ConnError E) (f : bytes -> exec E' (bytes * A)) : conn A := fun c =>
  match f (pc_write_buf c) with
  | XOk (buf, a) => (set_write_buf buf c, XOk a)
  | XErr e => (c, XErr (wrap_err e))
  | XPanic => (c, XPanic)
  end.

Definition serialize_into_buf (m : Message) (ids : PeerExtendedMessageIds) : conn nat :=
  into_write_buf Serialize (fun buf => Message_serialize m buf ids).

(** *** Handshakes *)

Definition check_handshake (h : Handshake) : conn () := fun c =>
  if negb (bool_decide (hs_info_hash h = pc_info_hash c)) then (c, XErr WrongInfoHash)
  else if bool_decide (hs_peer_id h = pc_peer_id c) then (c, XErr ConnectingToOurselves)
  else (c, XOk ()).

Definition write_handshake : conn () := fun c =>
  (hlen ← into_write_buf (E' := E) Anyhow (fun buf => exec_of_outcome
            (Handshake_serialize_unchecked_len (Handshake_new (pc_info_hash c) (pc_peer_id c)) buf));
   write_out hlen) c.

(** *** What is sent first in [manage_peer] *)

Definition send_extended_handshake : conn () := fun c =>
  let my_extended := handshake_new in
  let my_extended := mkHs (hs_m my_extended) (hs_p my_extended) (Some (client_name_and_version (pc_handler c)))
    (Some match pc_addr c with SockV4 ip _ => IpV4 ip | SockV6 ip _ _ _ => IpV6 ip end)
    (hs_ipv6 my_extended) (hs_ipv4 my_extended) (hs_reqq my_extended) (hs_metadata_size my_extended)
    (hs_complete_ago my_extended) (hs_upload_only my_extended) in
  (my_extended ← ask_handler Anyhow (fun t => update_my_extended_handshake t my_extended);
   esz ← serialize_into_buf (MExtended (ExtHandshake my_extended)) ids_default;
   write_out esz) c.

Definition send_bitfield : conn () :=
  len ← (fun c => into_write_buf Anyhow (serialize_bitfield_message_to_buf (pc_handler c)) c);
  write_out len.

Definition manage_peer_start (supports_extended : bool) : conn () :=
  _ ← (if supports_extended then send_extended_handshake else mret ());
  _ ← (fun c => (if should_send_bitfield (pc_handler c) then send_bitfield else mret ()) c);
  len ← serialize_into_buf MUnchoke ids_default;
  write_out len.

(** The two entry points, up to the loops. *)
Definition manage_peer_incoming (h : Handshake) (kind : ConnectionKind) : conn () :=
  _ ← check_handshake h;
  _ ← io_modify (set_write_buf (replicate MAX_MSG_LEN 0));
  _ ← write_handshake;
  supports ← io_lift (exec_of_outcome (supports_extended h));
  _ ← on_handler Anyhow (on_handshake h kind);
  manage_peer_start supports.

Definition manage_peer_outgoing (h : Handshake) (kind : ConnectionKind) : conn () :=
  _ ← io_modify (set_write_buf (replicate MAX_MSG_LEN 0));
  _ ← write_handshake;
  supports ← io_lift (exec_of_outcome (supports_extended h));
  _ ← check_handshake h;
  _ ← on_handler Anyhow (on_handshake h kind);
  manage_peer_start supports.

(** *** The loops *)

Definition reader_step (message : Message) : conn () :=
  match message with
  | MExtended (ExtHandshake h) =>
    _ ← io_modify (set_extended_handshake (hs_m h)); on_handler Anyhow (on_extended_handshake h)
  | _ => on_handler Anyhow (on_received_message message)
  end.

(** The reader's loop over the messages that arrive. *)
Fixpoint reader_loop (messages : list Message) : conn () :=
  match messages with
  | [] => mret ()
  | m :: messages => _ ← reader_step m; reader_loop messages
  end.

(** What becomes of a broadcast [Have]. *)
Definition have_request (id : Z) (c : PeerConnection) : option WriterRequest :=
  if should_transmit_have (pc_handler c) id then Some (WMessage (MHave id)) else None.

(** [ReadChunkRequest]: the preamble, then the chunk read in place. *)
Definition read_chunk_into_buf (chunk : ChunkInfo) : conn nat :=
  preamble_len ← into_write_buf (E' := E) Anyhow (fun buf => exec_of_outcome (serialize_piece_preamble chunk buf));
  let full_len := (preamble_len + Z.to_nat (ci_size chunk))%nat in
  _ ← (fun c => if (full_len <=? length (pc_write_buf c))%nat then (c, XOk ()) else (c, XPanic));
  data ← ask_handler ReadChunk (fun t => read_chunk t chunk);
  _ ← io_modify (fun c => set_write_buf (take preamble_len (pc_write_buf c) ++ data
                                         ++ drop full_len (pc_write_buf c)) c);
  mret full_len.

Definition ext_msg_ids (c : PeerConnection) : PeerExtendedMessageIds := default ids_default (pc_extended_handshake c).

Definition writer_step (req : WriterRequest) : conn () := fun c =>
  (r ← match req with
       | WMessage m => len ← serialize_into_buf m (ext_msg_ids c); mret (len, None)
       | WUtMetadata u => len ← serialize_into_buf (MExtended (ExtUtMetadata u)) (ext_msg_ids c); mret (len, None)
       | WUtPex p => len ← serialize_into_buf (MExtended (ExtUtPex p)) (ext_msg_ids c); mret (len, None)
       | WReadChunkRequest chunk => full_len ← read_chunk_into_buf chunk; mret (full_len, Some (ci_size chunk))
       | WDisconnect ok => io_lift (XErr (if ok then Disconnect else DisconnectWithSource))
       end;
   let '(len, uploaded_add) := (r : nat * option Z) in
   _ ← write_out len;
   match uploaded_add with
   | Some n => io_modify (fun c => set_handler (on_uploaded_bytes n (pc_handler c)) c)
   | None => mret ()
   end) c.
End Connection.

Lemma max_msg_len : Z.of_nat MAX_MSG_LEN = 16500.
Proof. reflexivity. Qed.

(** ** Frames *)

Section Frames.
Context `{Atoi} `{!AtoiSpec} `{DictIter} {T E : Type} `{!PeerConnectionHandler T E}.
Implicit Types c : PeerConnection (T := T).

(** [c'] is [c] after [b] was sent. *)
Definition sends (c c' : PeerConnection (T := T)) (b : bytes) : Prop :=
  pc_sent c' = pc_sent c ++ b /\ pc_handler c' = pc_handler c
  /\ pc_extended_handshake c' = pc_extended_handshake c /\ pc_info_hash c' = pc_info_hash c
  /\ pc_peer_id c' = pc_peer_id c /\ length (pc_write_buf c') = length (pc_write_buf c).

Lemma encode_piece_length p : length (encode (MPiece p)) = (13 + Piece_len p)%nat.
Proof.
  cbn [encode]. rewrite length_frame. unfold encode_piece, Piece_len. rewrite !length_app, !length_to_be_bytes. lia.
Qed.

(** The preamble is the start of the frame of the piece. *)
Lemma piece_preamble_spec chunk data buf :
  Z.of_nat (length data) = ci_size chunk -> ci_size chunk + 9 < 2 ^ 32 -> (13 + length data <= length buf)%nat ->
  exists pre, serialize_piece_preamble chunk buf = Ret (pre ++ drop 13 buf, 13%nat) /\ length pre = 13%nat
    /\ pre ++ data = encode (MPiece (Piece_from_data (ci_piece_index chunk) (ci_offset chunk) data)).
Proof.
  intros Hd Hs Hb. unfold serialize_piece_preamble. rewrite wrap_id by (unfold is_uint; lia).
  exists (to_be_bytes 4 (1 + 4 * 2 + ci_size chunk) ++ [MSGID_PIECE] ++ to_be_bytes 4 (ci_piece_index chunk)
          ++ to_be_bytes 4 (ci_offset chunk)).
  destruct (buf_cut buf 4) as (b1 & b' & -> & H1'); [lia|]. rewrite length_app in Hb.
  destruct (buf_cut b' 1) as (b2 & b'' & -> & H2'); [lia|]. rewrite length_app in Hb.
  destruct (buf_cut b'' 4) as (b3 & b''' & -> & H3'); [lia|]. rewrite length_app in Hb.
  destruct (buf_cut b''' 4) as (b4 & rest & -> & H4'); [lia|].
  rewrite put_head by (rewrite length_to_be_bytes; lia). run.
  rewrite put_spec by (rewrite ?length_to_be_bytes; done || lia). run.
  rewrite (app_assoc (to_be_bytes 4 _)).
  erewrite on_tail_spec; [|by rewrite length_app, length_to_be_bytes|].
  2:{ rewrite put_head by (rewrite length_to_be_bytes; lia). run.
      rewrite put_spec by (rewrite ?length_to_be_bytes; done || lia). done. }
  run. split_and!.
  - assert (drop 13 (b1 ++ b2 ++ b3 ++ b4 ++ rest) = rest) as ->.
    { rewrite !app_assoc, drop_app_ge by len. replace (13 - _)%nat with 0%nat by len. by rewrite drop_0. }
    by rewrite <- !app_assoc.
  - len.
  - cbn [encode Piece_from_data]. unfold frame, encode_piece. cbn [p_index p_begin p_block_0 p_block_1].
    rewrite app_nil_r, <- app_assoc. f_equal. f_equal. unfold Piece_from_data. cbn [p_index p_begin p_block_0].
    rewrite !length_app, !length_to_be_bytes. lia.
Qed.

(** A chunk put behind the preamble in the buffer. *)
Lemma splice_read (pre data x y : bytes) k n :
  length pre = k -> length data = n -> take (k + n) (take k (pre ++ x) ++ data ++ y) = pre ++ data.
Proof. intros <- <-. rewrite take_app_length, app_assoc, <- length_app. apply take_app_length. Qed.

Lemma write_out_sends c len :
  (len <= length (pc_write_buf c))%nat ->
  exists c', write_out (E := E) len c = (c', XOk ()) /\ sends c c' (take len (pc_write_buf c)).
Proof. intros Hl. unfold write_out. rewrite (proj2 (Nat.leb_le _ _) Hl). by eexists. Qed.

(** A serialized message is sent as its frame. *)
Lemma serialize_sends c m ids b :
  (forall out, (length b <= length out)%nat ->
     exists out', Message_serialize m out ids = XOk (out', length b) /\ take (length b) out' = b
       /\ length out' = length out) ->
  (length b <= length (pc_write_buf c))%nat ->
  exists c', (len ← serialize_into_buf (E := E) m ids; write_out len) c = (c', XOk ()) /\ sends c c' b.
Proof.
  intros Hs Hl. destruct (Hs (pc_write_buf c) Hl) as (out & Ho & Ht & Hlen).
  unfold serialize_into_buf, into_write_buf, mbind, io_bind. rewrite Ho.
  destruct (write_out_sends (set_write_buf out c) (length b)) as (c' & -> & ?); [cbn; lia|].
  exists c'. split; [done|]. unfold sends in *. cbn in *. by rewrite <- Ht at 1; rewrite Hlen in *.
Qed.

Lemma plain_serialize m out ids :
  msg_wf m -> (length (encode m) <= length out)%nat ->
  exists out', Message_serialize m out ids = XOk (out', length (encode m)) /\ take (length (encode m)) out' = encode m
    /\ length out' = length out.
Proof.
  intros Hm Hl. rewrite serialize_encode by done. rewrite (proj2 (Nat.ltb_ge _ _) Hl). eexists.
  split; [done|]. rewrite take_app_length, length_app, length_drop. split; [done|lia].
Qed.

(** An extended message is sent as a frame around its body. *)
Lemma extended_serialize e out ids b :
  cwrites (ext_write e ids) b -> (2 <= length b)%nat -> (length (frame MSGID_EXTENDED b) <= length out)%nat ->
  Z.of_nat (length b) + 1 < 2 ^ 32 ->
  exists out', Message_serialize (MExtended e) out ids = XOk (out', length (frame MSGID_EXTENDED b))
    /\ take (length (frame MSGID_EXTENDED b)) out' = frame MSGID_EXTENDED b /\ length out' = length out.
Proof.
  intros Hw Hne Hl Hb. rewrite length_frame in *. cbn [Message_serialize]. unfold check_len.
  rewrite ltb_ge_nat by (unfold PREAMBLE_LEN; lia).
  destruct (buf_cut out 5) as (a & rest & -> & Ha); [lia|]. rewrite length_app in Hl.
  change PREAMBLE_LEN with 5%nat. rewrite <- Ha, drop_app_length, take_app_length, Ha.
  pose proof (serialize_writes e rest ids b Hw) as Hs. pose proof (serialize_fits e rest ids) as Hf.
  cbn [ext_serialize ext_codec]. destruct (ExtendedMessage_serialize e rest ids) as [[tail n]|err|]; [|lia|done].
  destruct Hs as (-> & Ht & _). destruct (Hf tail (length b) eq_refl) as [Hlt _].
  cbn [mbind exec_bind]. rewrite wrap_id by (unfold is_uint; lia).
  rewrite write_preamble_spec by (done || lia). cbn [mbind outcome_bind exec_of_outcome].
  eexists. split; [done|]. unfold frame. split; [|len].
  rewrite take_app_ge by len. rewrite length_to_be_bytes. f_equal. replace (5 + length b - 4)%nat with (S (length b)) by lia. cbn [take]. by rewrite Ht.
Qed.
End Frames.

(** A handler for witnesses: it reads chunks from its bytes. *)
Definition toy_handler `{Atoi} `{!AtoiSpec} `{DictIter} : PeerConnectionHandler bytes () := {|
  should_send_bitfield _ := false;
  serialize_bitfield_message_to_buf _ _ := XErr ();
  on_handshake _ _ := mret ();
  on_extended_handshake _ := mret ();
  on_received_message _ := mret ();
  should_transmit_have _ _ := false;
  on_uploaded_bytes _ t := t;
  read_chunk t c := XOk (take (Z.to_nat (ci_size c)) (drop (Z.to_nat (ci_offset c)) t));
  update_my_extended_handshake _ h := XOk h;
  client_name_and_version _ := []
|}.

Section Theorems.
Context `{Atoi} `{!AtoiSpec} `{DictIter} {T E : Type} `{!PeerConnectionHandler T E}.

(** C32: answering a request by reading the chunk from disk straight into the
    write buffer sends the same bytes as serializing the [Piece] message that
    carries the chunk, whatever an earlier message left in the buffer, and
    counts the chunk as uploaded; the largest chunk fits the buffer. *)
Theorem read_chunk_request_sends_piece (c : PeerConnection (T := T)) (chunk : ChunkInfo) (data : bytes) :
  length (pc_write_buf c) = MAX_MSG_LEN ->
  is_u32 (ci_piece_index chunk) -> is_u32 (ci_offset chunk) -> 0 < ci_size chunk <= CHUNK_SIZE ->
  read_chunk (pc_handler c) chunk = XOk data -> Z.of_nat (length data) = ci_size chunk -> is_bytes data ->
  let piece := MPiece (Piece_from_data (ci_piece_index chunk) (ci_offset chunk) data) in
  exists c1 c2,
    writer_step (E := E) (WReadChunkRequest chunk) c = (c1, XOk ())
    /\ writer_step (E := E) (WMessage piece) c = (c2, XOk ())
    /\ pc_sent c1 = pc_sent c ++ encode piece /\ pc_sent c2 = pc_sent c1
    /\ pc_handler c1 = on_uploaded_bytes (ci_size chunk) (pc_handler c) /\ pc_handler c2 = pc_handler c.
Proof.
  intros Hbuf Hi Ho Hs Hr Hd Hb piece. unfold CHUNK_SIZE in *.
  pose proof max_msg_len as Hmax. rewrite <- Hbuf in Hmax.
  assert (length (encode piece) = (13 + length data)%nat) as Hlen.
  { unfold piece. rewrite encode_piece_length. cbn. lia. }
  assert (msg_wf piece) as Hwf.
  { unfold piece, Piece_from_data. cbn. unfold Piece_len. cbn. split_and!; done || lia || constructor. }
  destruct (piece_preamble_spec chunk data (pc_write_buf c)) as (pre & Hpre & Hpl & Henc); [done|lia|lia|].
  destruct (serialize_sends (E := E) c piece (ext_msg_ids c) (encode piece)) as (c2 & Hc2 & Hsent);
    [intros out ?; by apply plain_serialize|lia|].
  fold piece in Henc. eexists _, c2. split_and!.
  - unfold writer_step, read_chunk_into_buf, into_write_buf, ask_handler, on_handler, write_out, io_modify, mbind, io_bind, mret, io_ret.
    rewrite Hpre. cbn -[Nat.leb Nat.add take drop].
    rewrite (proj2 (Nat.leb_le (13 + _) _)) by len. cbn -[Nat.leb Nat.add take drop]. rewrite Hr.
    cbn -[Nat.leb Nat.add take drop]. rewrite (proj2 (Nat.leb_le _ _)) by len. reflexivity.
  - unfold writer_step, mbind, io_bind, mret, io_ret in *. destruct (serialize_into_buf piece (ext_msg_ids c) c) as [? []]; try done.
    by rewrite Hc2.
  - cbn -[take drop Nat.add encode]. f_equal. rewrite <- Henc. apply splice_read; lia.
  - destruct Hsent as (-> & _). cbn -[take drop Nat.add encode]. f_equal. rewrite <- Henc. symmetry. apply splice_read; lia.
  - done.
  - apply Hsent.
Qed.

Lemma ut_head_long u : (2 <= length (ut_head u))%nat.
Proof. destruct u; cbn [ut_head]; unfold ut_header, enc_map; cbn [length]; rewrite length_app; cbn; lia. Qed.

Lemma ut_data_short u : ut_ok u -> Z.of_nat (length (ut_data u)) <= CHUNK_SIZE.
Proof.
  destruct u as [p|d|p]; cbn [ut_ok ut_data length]; [done| |done]. intros (Hp & Ht & Hv).
  apply ud_validate_spec in Hv; [|done|by apply Hp]. destruct Hv as (_ & _ & Hl). unfold ud_len in Hl.
  unfold ud_bytes. rewrite length_app. lia.
Qed.

(** Every [ut_metadata] message that can be sent, the data of a full 16 KiB
    piece included, fits the writer's buffer, and is sent as the frame of its
    header and data under the id the peer asked for. *)
Theorem ut_metadata_fits (c : PeerConnection (T := T)) (u : UtMetadata) (id : Z) :
  length (pc_write_buf c) = MAX_MSG_LEN -> ut_ok u -> ids_ut_metadata (ext_msg_ids c) = Some id ->
  exists c', writer_step (E := E) (WUtMetadata u) c = (c', XOk ())
    /\ sends c c' (frame MSGID_EXTENDED (id :: ut_head u ++ ut_data u)).
Proof.
  intros Hbuf Hu Hid. pose proof max_msg_len as Hmax. rewrite <- Hbuf in Hmax.
  pose proof (ut_head_fits u Hu). pose proof (ut_head_long u). pose proof (ut_data_short u Hu).
  unfold MAX_BMSG_SIZE, CHUNK_SIZE in *.
  set (b := id :: ut_head u ++ ut_data u).
  assert (length b = S (length (ut_head u) + length (ut_data u))) as Hb by (cbn; by rewrite length_app).
  destruct (serialize_sends (E := E) c (@MExtended ext_codec (ExtUtMetadata u)) (ext_msg_ids c) (frame MSGID_EXTENDED b))
    as (c' & Hc & Hs).
  - intros out Hl. apply extended_serialize; [|lia|done|lia].
    cbn [ext_write]. rewrite Hid. by apply tagged_writes, ut_writes.
  - rewrite length_frame. lia.
  - exists c'. split; [|done]. unfold writer_step, mbind, io_bind, mret, io_ret in *.
    destruct (serialize_into_buf _ _ c) as [? []]; try done. by rewrite Hc.
Qed.

Lemma put_ok (buf : bytes) n data :
  (n + length data <= length buf)%nat -> exists b, put buf n data = Ret b /\ length b = length buf.
Proof. intros Hl. unfold put. rewrite (proj2 (Nat.leb_le _ _) Hl). eexists. split; [done|len]. Qed.

Lemma write_handshake_sends (c : PeerConnection (T := T)) :
  (68 <= length (pc_write_buf c))%nat -> length (pc_info_hash c) = 20%nat -> length (pc_peer_id c) = 20%nat ->
  exists c' b, write_handshake (E := E) c = (c', XOk ()) /\ sends c c' b /\ length b = 68%nat.
Proof.
  intros Hl Hi Hp.
  assert (exists buf, Handshake_serialize_unchecked_len (Handshake_new (pc_info_hash c) (pc_peer_id c)) (pc_write_buf c)
    = Ret (buf, 68%nat) /\ length buf = length (pc_write_buf c)) as (buf & Hbuf & Hb).
  { unfold Handshake_serialize_unchecked_len. cbn [hs_reserved hs_info_hash hs_peer_id Handshake_new].
    destruct (put_ok (pc_write_buf c) 0 [19]) as (b1 & -> & H1'); [cbn; lia|]. run.
    destruct (put_ok b1 1 PSTR_BT1) as (b2 & -> & H2'); [cbn; lia|]. run.
    destruct (put_ok b2 20 (to_be_bytes 8 (Z.lor 0 (1 ≪ 20)))) as (b3 & -> & H3'); [rewrite length_to_be_bytes; lia|]. run.
    destruct (put_ok b3 28 (pc_info_hash c)) as (b4 & -> & H4'); [lia|]. run.
    destruct (put_ok b4 48 (pc_peer_id c)) as (b5 & -> & H5'); [lia|]. run. exists b5. split; [done|lia]. }
  destruct (write_out_sends (E := E) (set_write_buf buf c) 68) as (c' & Hc & Hs); [cbn; lia|].
  exists c', (take 68 buf). unfold write_handshake, into_write_buf, mbind, io_bind. rewrite Hbuf. cbn [exec_of_outcome].
  rewrite Hc. split_and!; [done| |rewrite length_take; lia]. unfold sends in *. cbn in *. by rewrite Hb in Hs.
Qed.

(** A peer of another torrent, or ourselves, is refused before the handler
    hears of it: on an incoming connection nothing at all is sent, on an
    outgoing one nothing but our own handshake. *)
Theorem foreign_peer_refused (c : PeerConnection (T := T)) (h : Handshake) (kind : ConnectionKind) :
  length (pc_info_hash c) = 20%nat -> length (pc_peer_id c) = 20%nat ->
  hs_info_hash h <> pc_info_hash c \/ hs_peer_id h = pc_peer_id c ->
  exists e, (e = WrongInfoHash \/ e = ConnectingToOurselves)
    /\ manage_peer_incoming (E := E) h kind c = (c, XErr e)
    /\ exists c' b, manage_peer_outgoing (E := E) h kind c = (c', XErr e)
         /\ pc_sent c' = pc_sent c ++ b /\ length b = 68%nat /\ pc_handler c' = pc_handler c.
Proof.
  intros Hi Hp Hbad.
  assert (exists e, (e = WrongInfoHash \/ e = ConnectingToOurselves)
    /\ forall c' : PeerConnection (T := T), pc_info_hash c' = pc_info_hash c -> pc_peer_id c' = pc_peer_id c ->
         check_handshake (E := E) h c' = (c', XErr e)) as (e & He & Hcheck).
  { destruct (decide (hs_info_hash h = pc_info_hash c)) as [E1|E1].
    - exists ConnectingToOurselves. split; [by right|]. intros c' Hc1 Hc2. unfold check_handshake. rewrite Hc1, Hc2.
      rewrite bool_decide_eq_true_2 by done. destruct Hbad; [done|]. by rewrite bool_decide_eq_true_2.
    - exists WrongInfoHash. split; [by left|]. intros c' Hc1 Hc2. unfold check_handshake. rewrite Hc1.
      by rewrite bool_decide_eq_false_2. }
  exists e. split; [done|]. split.
  { unfold manage_peer_incoming, mbind, io_bind. by rewrite Hcheck. }
  set (c0 := set_write_buf (replicate MAX_MSG_LEN 0) c).
  pose proof max_msg_len. destruct (write_handshake_sends c0) as (c1 & b & Hw & Hs & Hb);
    [unfold c0; cbn [pc_write_buf set_write_buf]; rewrite length_replicate; lia|done|done|].
  destruct Hs as (Hsent & Hh & _ & Hih & Hid & _).
  exists c1, b. split_and!; [|done..]. unfold manage_peer_outgoing, io_modify, mbind, io_bind.
  fold c0. rewrite Hw. unfold io_lift, supports_extended, index.
  destruct (lookup_lt_is_Some_2 (to_be_bytes 8 (hs_reserved h)) 5) as [x ->]; [rewrite length_to_be_bytes; lia|].
  cbn [mbind outcome_bind exec_of_outcome]. by rewrite Hcheck.
Qed.

(** A bitfield of more than 131960 pieces does not fit the buffer: a torrent
    that large refuses every connection on which it would send one. *)
Lemma long_bitfield_refused (b buf : bytes) :
  length buf = MAX_MSG_LEN -> 16495 < Z.of_nat (length b) ->
  Message_serialize (MBitfield b) buf ids_default = XErr NoSpaceInBuffer.
Proof.
  intros Hbuf Hb. pose proof max_msg_len. cbn [Message_serialize]. unfold check_len, PREAMBLE_LEN.
  by rewrite (proj2 (Nat.ltb_lt _ _)) by lia.
Qed.
End Theorems.

(** ** Witnesses *)

Section Witnesses.
Local Existing Instance atoi_ref.
Local Existing Instance dict_iter_rev.
Local Existing Instance toy_handler.

(** A connection with something left over in its buffer. *)
Definition toy_conn : PeerConnection (T := bytes) :=
  mkConn (SockV4 1 2) (replicate 20 7) (replicate 20 8) [10; 20; 30; 40] (Some (mkIds (Some 5) None))
    (replicate MAX_MSG_LEN 255) [].

Lemma toy_conn_buf : length (pc_write_buf toy_conn) = MAX_MSG_LEN.
Proof. apply length_replicate. Qed.

Lemma read_chunk_request_sends_piece_witness :
  let chunk := mkChunkInfo 3 0 0 2 1 in
  exists c1, writer_step (E := ()) (WReadChunkRequest chunk) toy_conn = (c1, XOk ())
    /\ pc_sent c1 = [0; 0; 0; 11; 7; 0; 0; 0; 3; 0; 0; 0; 1; 20; 30].
Proof.
  intros chunk.
  destruct (read_chunk_request_sends_piece (E := ()) toy_conn chunk [20; 30] toy_conn_buf)
    as (c1 & _ & H1 & _ & H2 & _); [by vm_compute..|reflexivity|reflexivity|repeat constructor; by vm_compute|].
  exists c1. split; [exact H1|exact H2].
Defined.

Lemma ut_metadata_fits_witness :
  exists c', writer_step (E := ()) (WUtMetadata (UtRequest 1)) toy_conn = (c', XOk ())
    /\ length (pc_sent c') = 31%nat.
Proof.
  destruct (ut_metadata_fits (E := ()) toy_conn (UtRequest 1) 5 toy_conn_buf) as (c' & Hw & Hs & _);
    [by vm_compute|reflexivity|].
  exists c'. split; [exact Hw|]. rewrite Hs. reflexivity.
Defined.

Lemma foreign_peer_refused_witness :
  exists e, manage_peer_incoming (E := ()) (Handshake_new (replicate 20 1) (replicate 20 2)) Tcp toy_conn
            = (toy_conn, XErr e).
Proof.
  destruct (foreign_peer_refused (E := ()) toy_conn (Handshake_new (replicate 20 1) (replicate 20 2)) Tcp eq_refl eq_refl)
    as (e & _ & Hin & _); [left; discriminate|].
  exists e. exact Hin.
Defined.
End Witnesses.
