(* ===== verification/Metainfo.v ===== *)
(** * Torrent metainfo ([librqbit_core::torrent_metainfo], [TorrentMetadata])

    The parsed [info] dictionary, the validation every torrent goes through
    before it is used, and the file table that is computed from it.  Strings
    are their UTF-8 bytes; a path is its byte string, with the separator rules
    of a Unix [PathBuf].

    Character sets are not this program's code: [decode] stands for
    [Encoding::decode] of encoding_rs and [guess] for the detector of chardetng. *)

From stdpp Require Import base tactics option list list_numbers numbers decidable sets.
From Stdlib Require Import ZArith Lia.
From S2P Require Import Prelude Lengths FileInfo ChunkTracker PieceCompletion.
Open Scope Z_scope.

(** ** Paths *)

Definition SEP : Z := 47.        (* '/' *)
Definition BACKSLASH : Z := 92.  (* '\' *)
Definition DOT : bytes := [46].
Definition DOTDOT : bytes := [46; 46].

(** [PathBuf::push] of a string. *)
Definition path_push (buf p : bytes) : bytes :=
  if bool_decide (head p = Some SEP) then p
  else if bool_decide (buf = []) || bool_decide (last buf = Some SEP) then buf ++ p
  else buf ++ [SEP] ++ p.

(** The parts between separators. *)
Fixpoint path_split (p : bytes) : list bytes :=
  match p with
  | [] => [[]]
  | c :: p =>
    if c =? SEP then [] :: path_split p
    else match path_split p with [] => [[c]] | q :: qs => (c :: q) :: qs end
  end.

(** [std::path::Component] and [Path::components]. *)
Inductive Component :=
| RootDir
| CurDir
| ParentDir
| Normal (name : bytes).

#[export] Instance Component_eq_dec : EqDecision Component.
Proof. solve_decision. Defined.

Definition path_part (q : bytes) : option Component :=
  if bool_decide (q = []) || bool_decide (q = DOT) then None
  else if bool_decide (q = DOTDOT) then Some ParentDir
  else Some (Normal q).

Definition parts_components (qs : list bytes) : list Component :=
  match qs with
  | [] :: _ :: _ => [RootDir]
  | [46] :: _ => [CurDir]
  | _ => []
  end ++ omap path_part qs.

Definition components (p : bytes) : list Component := parts_components (path_split p).

(** ** The [info] dictionary *)

Record TorrentMetaV1File := mkMetaFile {
  mf_length : Z;
  mf_path : list bytes;
  mf_attr : option bytes;
  mf_sha1 : option bytes;
  mf_symlink_path : option (list bytes)
}.

Record TorrentMetaV1Info := mkMetaInfo {
  mi_name : option bytes;
  mi_pieces : bytes;
  mi_piece_length : Z;
  mi_length : option Z;
  mi_attr : option bytes;
  mi_sha1 : option bytes;
  mi_symlink_path : option (list bytes);
  mi_md5sum : option bytes;
  mi_files : option (list TorrentMetaV1File);
  mi_private : bool
}.

Inductive FileIteratorNameData :=
| Single (name : option bytes)
| Tree (path : list bytes).

Record FileDetails := mkFileDetails {
  fd_filename : FileIteratorNameData;
  fd_len : Z;
  fd_attr : option bytes;
  fd_sha1 : option bytes;
  fd_symlink_path : option (list bytes)
}.

Inductive MetaError :=
| LengthsErr (e : LengthsError)
| BadTorrentPathTraversal
| BadTorrentSeparatorInName
| BadTorrentFileNoName
| BadTorrentNoFiles
| BadTorrentDuplicateFilenames
| BadTorrentMultiFileEmpty
| BadTorrentBothSingleAndMultiFile.

(** "torrent-content". *)
Definition TORRENT_CONTENT : bytes :=
  [116; 111; 114; 114; 101; 110; 116; 45; 99; 111; 110; 116; 101; 110; 116].

Definition iter_components_bytes (d : FileIteratorNameData) : list bytes :=
  match d with
  | Single None => [TORRENT_CONTENT]
  | Single (Some name) => [name]
  | Tree t => t
  end.

(** [FileDetails::attrs]. *)
Definition attrs_of (attr : option bytes) : FileDetailsAttrs :=
  match attr with
  | None => FileDetailsAttrs_default
  | Some l =>
    foldl (fun r b =>
      if b =? 108 then mkAttrs true (fa_hidden r) (fa_padding r) (fa_executable r)
      else if b =? 104 then mkAttrs (fa_symlink r) true (fa_padding r) (fa_executable r)
      else if b =? 112 then mkAttrs (fa_symlink r) (fa_hidden r) true (fa_executable r)
      else if b =? 120 then mkAttrs (fa_symlink r) (fa_hidden r) (fa_padding r) true
      else r) FileDetailsAttrs_default l
  end.

Definition iter_file_details_raw (i : TorrentMetaV1Info) : result MetaError (list FileDetails) :=
  match mi_length i, mi_files i with
  | Some length, None =>
    Ok [mkFileDetails (Single (mi_name i)) length (mi_attr i) (mi_sha1 i) (mi_symlink_path i)]
  | None, Some files =>
    match files with
    | [] => Err BadTorrentMultiFileEmpty
    | _ => Ok ((fun f => mkFileDetails (Tree (mf_path f)) (mf_length f) (mf_attr f) (mf_sha1 f)
                           (mf_symlink_path f)) <$> files)
    end
  | _, _ => Err BadTorrentBothSingleAndMultiFile
  end.

(** [Lengths::from_torrent]: [sum] wraps in the release profile. *)
Definition from_torrent (i : TorrentMetaV1Info) : exec MetaError Lengths :=
  match iter_file_details_raw i with
  | Err e => XErr e
  | Ok files =>
    match Lengths_new (u64 (zsum (fd_len <$> files))) (mi_piece_length i) with
    | Panic => XPanic
    | Ret (Err e) => XErr (LengthsErr e)
    | Ret (Ok l) => XOk l
    end
  end.

Definition get_hash (i : TorrentMetaV1Info) (piece : Z) : option bytes :=
  slice_get (mi_pieces i) (Z.to_nat piece * 20) (Z.to_nat piece * 20 + 20).

Definition compare_hash (i : TorrentMetaV1Info) (piece : Z) (hash : bytes) : option bool :=
  expected ← slice_get (mi_pieces i) (Z.to_nat piece * 20) (Z.to_nat piece * 20 + 20);
  Some (bool_decide (expected = hash)).

(** One file of the first loop of [validate]: [".."] and separators are refused
    on the raw bytes of each component, then an empty path. *)
Fixpoint check_bits (bits : list bytes) : result MetaError () :=
  match bits with
  | [] => Ok ()
  | bit :: bits =>
    if bool_decide (bit = DOTDOT) then Err BadTorrentPathTraversal
    else if bool_decide (SEP ∈ bit) || bool_decide (BACKSLASH ∈ bit)
    then Err BadTorrentSeparatorInName
    else check_bits bits
  end.

Definition check_file (f : FileDetails) : result MetaError () :=
  let bits := iter_components_bytes (fd_filename f) in
  _ ← check_bits bits;
  if bool_decide (bits = []) then Err BadTorrentFileNoName else Ok ().

Fixpoint check_files (files : list FileDetails) : result MetaError () :=
  match files with
  | [] => Ok ()
  | f :: files => _ ← check_file f; check_files files
  end.

Record FileDetailsExt := mkFileDetailsExt {
  fx_details : FileDetails;
  fx_offset : Z;
  fx_pieces : Z * Z
}.

(** The [scan] of [iter_file_details_ext]. *)
Fixpoint scan_details (l : Lengths) (acc_offset : Z) (files : list FileDetails)
    : list FileDetailsExt :=
  match files with
  | [] => []
  | d :: files =>
    mkFileDetailsExt d acc_offset (iter_pieces_within_offset l acc_offset (fd_len d))
    :: scan_details l (u64 (acc_offset + fd_len d)) files
  end.

Section Encoding.
Context {Encoding : Type} (decode : Encoding -> bytes -> bytes) (guess : list bytes -> Encoding).

Record ValidatedTorrentMetaV1Info := mkValidated {
  vi_encoding : Encoding;
  vi_lengths : Lengths;
  vi_info : TorrentMetaV1Info
}.

(** What [detect_encoding] feeds to the detector. *)
Definition detect_encoding (i : TorrentMetaV1Info) : Encoding :=
  guess (option_list (mi_name i) ++ concat (mf_path <$> default [] (mi_files i))).

Definition to_pathbuf (enc : Encoding) (d : FileIteratorNameData) : bytes :=
  foldl path_push [] (decode enc <$> iter_components_bytes d).

(** The second loop of [validate]: no empty path; the paths are compared as
    [PathBuf]s, by their components. *)
Fixpoint collect_paths (enc : Encoding) (files : list FileDetails)
    : result MetaError (list (list Component)) :=
  match files with
  | [] => Ok []
  | f :: files =>
    let pb := to_pathbuf enc (fd_filename f) in
    if bool_decide (pb = []) then Err BadTorrentFileNoName
    else ps ← collect_paths enc files; Ok (components pb :: ps)
  end.

Definition validate (i : TorrentMetaV1Info) : exec MetaError ValidatedTorrentMetaV1Info :=
  lengths ← from_torrent i;
  let encoding := detect_encoding i in
  files ← exec_of_result (iter_file_details_raw i);
  _ ← exec_of_result (check_files files);
  if bool_decide (files = []) then XErr BadTorrentNoFiles
  else
    paths ← exec_of_result (collect_paths encoding files);
    if negb (length (remove_dups paths) =? length files)%nat
    then XErr BadTorrentDuplicateFilenames
    else XOk (mkValidated encoding lengths i).

(** [iter_file_details] unwraps: validation has seen the same list. *)
Definition iter_file_details (v : ValidatedTorrentMetaV1Info) : outcome (list FileDetails) :=
  match iter_file_details_raw (vi_info v) with Ok l => Ret l | Err _ => Panic end.

Definition iter_file_details_ext (v : ValidatedTorrentMetaV1Info)
    : outcome (list FileDetailsExt) :=
  files ← iter_file_details v; Ret (scan_details (vi_lengths v) 0 files).

(** [ValidatedTorrentMetaV1Info::name]. *)
Definition validated_name (v : ValidatedTorrentMetaV1Info) : option bytes :=
  n ← mi_name (vi_info v);
  let n := decode (vi_encoding v) n in
  if bool_decide (n = []) then None else Some n.

(** [TorrentMetadata::new]: the table of files.  [fi_relative_filename] is the
    path cut at its separators. *)
Definition file_infos_of (v : ValidatedTorrentMetaV1Info) : outcome (list FileInfo) :=
  fds ← iter_file_details_ext v;
  Ret ((fun fd =>
    mkFileInfo (path_split (to_pathbuf (vi_encoding v) (fd_filename (fx_details fd))))
      (fx_offset fd) (fx_pieces fd) (attrs_of (fd_attr (fx_details fd)))
      (fd_len (fx_details fd))) <$> (fds : list FileDetailsExt)).
End Encoding.

(** ** Paths built from safe components stay below their root *)

Lemma path_split_app a b : path_split (a ++ SEP :: b) = path_split a ++ path_split b.
Proof.
  induction a as [|c a IH]; [done|]. simpl. destruct (c =? SEP); [by rewrite IH|].
  rewrite IH. destruct (path_split a) eqn:E; [|done].
  destruct a as [|c' a]; [done|]. simpl in E. destruct (c' =? SEP); [done|].
  by destruct (path_split a).
Qed.

Lemma path_split_single c : SEP ∉ c -> path_split c = [c].
Proof.
  induction c as [|x c IH]; [done|]. rewrite not_elem_of_cons. intros [Hx Hc]. simpl.
  destruct (Z.eqb_spec x SEP); [congruence|]. by rewrite IH.
Qed.

(** What may appear between the separators of a path pushed from [cs]. *)
Definition parts_from (cs : list bytes) (p : bytes) : Prop :=
  head p <> Some SEP /\ Forall (fun q => q = [] \/ q ∈ cs) (path_split p).

Lemma path_push_parts cs buf c :
  SEP ∉ c -> c ∈ cs -> parts_from cs buf -> parts_from cs (path_push buf c).
Proof.
  intros Hc Hin [Hh Hp]. unfold path_push.
  assert (head c <> Some SEP) as Hhc by (destruct c; [done|]; rewrite not_elem_of_cons in Hc; naive_solver).
  rewrite bool_decide_false by done.
  assert (Forall (fun q => q = [] \/ q ∈ cs) (path_split c)) as Hpc.
  { rewrite path_split_single by done. apply Forall_singleton. by right. }
  case_bool_decide as Hb; [by subst|]. case_bool_decide as Hl; simpl.
  - destruct buf as [|x buf _] using rev_ind; [done|].
    rewrite last_snoc in Hl. injection Hl as ->. rewrite <- app_assoc. simpl. split.
    + destruct buf; [by destruct Hh|done].
    + rewrite !path_split_app in *. apply Forall_app in Hp as [? _]. by apply Forall_app.
  - split; [by destruct buf|]. rewrite path_split_app. by apply Forall_app.
Qed.

Lemma path_pushes_parts cs l buf :
  Forall (fun c => SEP ∉ c /\ c ∈ cs) l -> parts_from cs buf ->
  parts_from cs (foldl path_push buf l).
Proof.
  intros Hl. revert buf. induction Hl as [|c l [? ?] _ IH]; intros buf Hb; [done|]. simpl.
  apply IH. by apply path_push_parts.
Qed.

Lemma path_split_root p q qs : path_split p = [] :: q :: qs -> head p = Some SEP.
Proof.
  destruct p as [|c p]; [done|]. simpl. destruct (Z.eqb_spec c SEP); [congruence|].
  by destruct (path_split p).
Qed.

(** A path that cannot leave the folder it is joined to. *)
Definition parts_safe (qs : list bytes) : Prop :=
  RootDir ∉ parts_components qs /\ ParentDir ∉ parts_components qs.

Lemma parts_from_safe cs p : parts_from cs p -> DOTDOT ∉ cs -> parts_safe (path_split p).
Proof.
  intros [Hh Hp] Hdd. unfold parts_safe, parts_components.
  assert (forall c, c = RootDir \/ c = ParentDir ->
    c ∉ omap path_part (path_split p)) as Hno.
  { intros c Hc. rewrite list_elem_of_omap. intros (q & Hq & Hpart).
    unfold path_part in Hpart. repeat case_bool_decide; simplify_eq/=; try naive_solver.
    rewrite Forall_forall in Hp. destruct (Hp _ Hq) as [?|?]; [done|naive_solver]. }
  split; intros [Hin|Hin]%elem_of_app; try (by eapply Hno; [|eassumption]; auto);
    repeat case_match; try (by apply elem_of_nil in Hin); apply list_elem_of_singleton in Hin; try done.
  by eapply Hh, path_split_root.
Qed.

(** ** What validation establishes *)

Definition starts_with_bom (b : bytes) : bool :=
  bool_decide (take 3 b = [239; 187; 191]) || bool_decide (take 2 b = [255; 254])
  || bool_decide (take 2 b = [254; 255]).

Section Validate.
Context {Encoding : Type} (decode : Encoding -> bytes -> bytes) (guess : list bytes -> Encoding).

(** Every character set the detector may return is an extension of ASCII:
    ["/"] and [".."] come only from themselves, unless a byte order mark makes
    [decode] switch to another character set and drop the mark. *)
Hypothesis decode_ascii : forall enc b, starts_with_bom b = false ->
  (SEP ∈ decode enc b -> SEP ∈ b) /\ (decode enc b = DOTDOT -> b = DOTDOT).

Lemma check_bits_Ok bits :
  check_bits bits = Ok () <-> Forall (fun b => b <> DOTDOT /\ SEP ∉ b /\ BACKSLASH ∉ b) bits.
Proof.
  induction bits as [|b bits IH]; [by split|]. rewrite Forall_cons, <- IH. simpl.
  repeat case_bool_decide; naive_solver.
Qed.

Lemma check_files_Ok files :
  check_files files = Ok ()
  <-> Forall (fun f => iter_components_bytes (fd_filename f) <> []
        /\ Forall (fun b => b <> DOTDOT /\ SEP ∉ b /\ BACKSLASH ∉ b)
             (iter_components_bytes (fd_filename f))) files.
Proof.
  induction files as [|f files IH]; [by split|]. rewrite Forall_cons, <- IH. simpl.
  rewrite !result_bind_Ok. unfold check_file. setoid_rewrite result_bind_Ok.
  rewrite <- check_bits_Ok. split.
  - intros ([] & ([] & ? & Hb) & ?). case_bool_decide; [done|]. done.
  - intros ((? & ?) & ?). exists (). split; [|done]. exists (). split; [done|].
    by rewrite bool_decide_false.
Qed.

Lemma collect_paths_Ok enc files ps :
  collect_paths decode enc files = Ok ps <->
  Forall (fun f => to_pathbuf decode enc (fd_filename f) <> []) files
  /\ ps = (fun f => components (to_pathbuf decode enc (fd_filename f))) <$> files.
Proof.
  revert ps. induction files as [|f files IH]; intros ps; simpl; [naive_solver|].
  case_bool_decide as Hf; [split; [done|]; intros [?%Forall_cons_1 _]; tauto|].
  rewrite result_bind_Ok, Forall_cons. setoid_rewrite IH. naive_solver.
Qed.

Lemma remove_dups_length_NoDup {A} `{EqDecision A} (l : list A) :
  length (remove_dups l) = length l -> NoDup l.
Proof.
  assert (forall k : list A, (length (remove_dups k) <= length k)%nat) as Hle.
  { induction k as [|y k IH]; [done|]. simpl. destruct (decide_rel _ y k); simpl; lia. }
  induction l as [|x l IH]; intros Hl; [constructor|]. simpl in Hl. pose proof (Hle l).
  destruct (decide_rel _ x l) as [Hin|Hin]; simpl in Hl; [lia|].
  constructor; [done|]. apply IH. lia.
Qed.

Lemma scan_details_layout l acc files :
  lengths_wf l -> 0 <= acc -> Forall (fun d => 0 <= fd_len d) files ->
  acc + zsum (fd_len <$> files) <= ln_total_length l ->
  let fxs := scan_details l acc files in
  fx_details <$> fxs = files
  /\ forall (mk : FileDetailsExt -> FileInfo),
       (forall x, fi_offset_in_torrent (mk x) = fx_offset x /\ fi_piece_range (mk x) = fx_pieces x
                  /\ fi_len (mk x) = fd_len (fx_details x)) ->
       files_layout acc (mk <$> fxs) /\ Forall (file_wf l) (mk <$> fxs).
Proof.
  intros Hwf. revert acc. induction files as [|d files IH]; intros acc Hacc Hd Hsum; [done|].
  apply Forall_cons in Hd as [Hd Hds]. rewrite fmap_cons, zsum_cons in Hsum.
  assert (0 <= zsum (fd_len <$> files)).
  { apply zsum_nonneg, Forall_fmap, (Forall_impl _ _ _ Hds). done. }
  pose proof (wf_total _ Hwf). cbn [scan_details]. cbv zeta.
  rewrite wrap_id by (unfold is_uint; lia).
  destruct (IH (acc + fd_len d) ltac:(lia) Hds ltac:(lia)) as [Hdet Hlay].
  split; [by rewrite fmap_cons, Hdet|]. intros mk Hmk. destruct (Hlay mk Hmk) as [H1 H2].
  destruct (Hmk (mkFileDetailsExt d acc (iter_pieces_within_offset l acc (fd_len d))))
    as (E1 & E2 & E3). simpl in E1, E2, E3. split.
  - simpl. rewrite E1, E3. done.
  - constructor; [|done]. constructor; rewrite ?E1, ?E2, ?E3; try done; lia.
Qed.

Lemma validate_inv i v :
  validate decode guess i = XOk v ->
  exists files,
    iter_file_details_raw i = Ok files /\ from_torrent i = XOk (vi_lengths v)
    /\ vi_info v = i /\ files <> [] /\ check_files files = Ok ()
    /\ Forall (fun f => to_pathbuf decode (vi_encoding v) (fd_filename f) <> []) files
    /\ NoDup ((fun f => components (to_pathbuf decode (vi_encoding v) (fd_filename f))) <$> files).
Proof.
  unfold validate. destruct (from_torrent i) as [l| |] eqn:El; [|done..]. cbn.
  destruct (iter_file_details_raw i) as [files|] eqn:Ef; [|done]. cbn.
  destruct (check_files files) as [[]|] eqn:Ec; [|done]. cbn.
  case_bool_decide; [done|].
  destruct (collect_paths decode _ files) as [ps|] eqn:Ep; [|done]. cbn.
  destruct (Nat.eqb_spec (length (remove_dups ps)) (length files)) as [Hd|]; [|done].
  intros [= <-]. exists files. cbn.
  apply collect_paths_Ok in Ep as [Hne ->].
  split_and!; [done..|]. apply remove_dups_length_NoDup. by rewrite Hd, length_fmap.
Qed.

(** What the types of the dictionary say. *)
Record meta_typed (i : TorrentMetaV1Info) (files : list FileDetails) : Prop := {
  mt_piece_length : is_u32 (mi_piece_length i);
  mt_lens : Forall (fun d => 0 <= fd_len d) files
}.

(** The sizes fit the integers the code has for them, which [validate] does not check. *)
Record sizes_fit (i : TorrentMetaV1Info) (files : list FileDetails) : Prop := {
  sf_total : zsum (fd_len <$> files) < 2 ^ 64;
  sf_pieces : div_ceil (zsum (fd_len <$> files)) (mi_piece_length i) < 2 ^ 32
}.

Lemma scan_details_details l acc files : fx_details <$> scan_details l acc files = files.
Proof. revert acc. induction files as [|d files IH]; intros acc; [done|]. cbn [scan_details]. cbv zeta. by rewrite fmap_cons, IH. Qed.

Lemma to_pathbuf_safe enc d :
  Forall (fun b => b <> DOTDOT /\ SEP ∉ b /\ BACKSLASH ∉ b) (iter_components_bytes d) ->
  Forall (fun b => starts_with_bom b = false) (iter_components_bytes d) ->
  parts_safe (path_split (to_pathbuf decode enc d)).
Proof.
  intros Hbits Hbom. rewrite Forall_forall in Hbits, Hbom.
  apply (parts_from_safe (decode enc <$> iter_components_bytes d)).
  - apply path_pushes_parts; [|by split; [|apply Forall_singleton; left]].
    apply Forall_forall. intros c Hc. split; [|done]. apply list_elem_of_fmap in Hc as (b & -> & Hb).
    intros Hs. apply (decode_ascii enc b (Hbom b Hb)) in Hs. by destruct (Hbits b Hb) as (? & ? & ?).
  - intros (b & Heq & Hb)%list_elem_of_fmap. symmetry in Heq.
    apply (decode_ascii enc b (Hbom b Hb)) in Heq. by destruct (Hbits b Hb).
Qed.

(** C23: A validated torrent gives a file table with one entry per file of the dictionary, in
    order and with its length; there is at least one, no two have the same path, and the path of a
    file whose name has no component that starts with a byte order mark does not leave the download
    folder.  If the sum of the lengths fits 64 bits and the number of pieces 32 bits, which the code
    does not check, the geometry is well formed too, the files lie one behind the other and cover the
    whole torrent, and each has the piece range of its bytes.  (With a byte order mark a path can
    leave the folder, see [bom_escapes_download_folder]; sizes that wrap around are accepted, see
    [wrapped_sizes_accepted].) *)
Theorem validate_correct (i : TorrentMetaV1Info) (v : ValidatedTorrentMetaV1Info)
    (files : list FileDetails) :
  iter_file_details_raw i = Ok files -> meta_typed i files ->
  validate decode guess i = XOk v ->
  exists fis,
    file_infos_of decode v = Ret fis
    /\ fis <> [] /\ fi_len <$> fis = fd_len <$> files
    /\ NoDup ((fun fi => parts_components (fi_relative_filename fi)) <$> fis)
    /\ Forall2 (fun f fi => Forall (fun b => starts_with_bom b = false) (iter_components_bytes (fd_filename f)) ->
                  parts_safe (fi_relative_filename fi)) files fis
    /\ (sizes_fit i files ->
         lengths_wf (vi_lengths v) /\ ln_piece_length (vi_lengths v) = mi_piece_length i
         /\ files_layout 0 fis /\ zsum (fi_len <$> fis) = ln_total_length (vi_lengths v)
         /\ Forall (file_wf (vi_lengths v)) fis).
Proof.
  intros Hraw [Hpl Hlens] Hval.
  destruct (validate_inv _ _ Hval) as (files' & Hraw' & Hlen & Hi & Hne & Hck & _ & Hnd).
  rewrite Hraw in Hraw'. injection Hraw' as <-.
  unfold file_infos_of, iter_file_details_ext, iter_file_details. rewrite Hi, Hraw. cbn.
  pose proof (scan_details_details (vi_lengths v) 0 files) as Hdet.
  match goal with |- exists _, Ret (?mk <$> _) = _ /\ _ => set (f := mk) end.
  set (fxs := scan_details (vi_lengths v) 0 files) in *.
  assert (fi_len <$> (f <$> fxs) = fd_len <$> files) as Hll.
  { rewrite <- Hdet, <- !list_fmap_compose. done. }
  exists (f <$> fxs). split_and!; try done.
  - intros E%fmap_nil_inv. apply Hne. by rewrite <- Hdet, E.
  - rewrite <- Hdet, <- list_fmap_compose in Hnd. by rewrite <- list_fmap_compose.
  - apply check_files_Ok in Hck. rewrite <- Hdet in Hck |- *. rewrite Forall_fmap in Hck.
    apply Forall2_fmap, Forall_Forall2_diag. eapply Forall_impl; [exact Hck|]. intros x [_ Hx] Hbom.
    by apply to_pathbuf_safe.
  - intros [Htot Hpc]. assert (0 <= zsum (fd_len <$> files)) as Hnn.
    { apply zsum_nonneg, Forall_fmap, (Forall_impl _ _ _ Hlens). done. }
    unfold from_torrent in Hlen. rewrite Hraw, wrap_id in Hlen by (unfold is_uint; lia).
    destruct (Lengths_new _ _) as [[l|]|] eqn:Hnew; [|done..]. injection Hlen as ->.
    apply Lengths_new_inv in Hnew as (Hwf & Hlt & Hlp); [|unfold is_uint; lia|done|done].
    destruct (scan_details_layout (vi_lengths v) 0 files Hwf ltac:(lia) Hlens ltac:(lia)) as [_ Hlay].
    destruct (Hlay f ltac:(done)) as [Hl Hfw]. rewrite Hll. by split_and!.
Qed.
End Validate.

(** A decoder that, like [Encoding::decode], drops a UTF-8 byte order mark. *)
Definition drop_bom (_ : ()) (b : bytes) : bytes :=
  if bool_decide (take 3 b = [239; 187; 191]) then drop 3 b else b.

Definition ex_files : list TorrentMetaV1File :=
  [mkMetaFile 20000 [[97]; [98]] None None None; mkMetaFile 300 [[97]; [99]] (Some [112]) None None].

Definition ex_meta : TorrentMetaV1Info :=
  mkMetaInfo (Some [116]) (replicate 40 7) 16384 None None None None None (Some ex_files) false.

Lemma validate_correct_witness :
  exists v fis,
    validate drop_bom (fun _ => ()) ex_meta = XOk v /\ file_infos_of drop_bom v = Ret fis
    /\ files_layout 0 fis /\ Forall (fun fi => parts_safe (fi_relative_filename fi)) fis.
Proof.
  destruct (validate drop_bom (fun _ => ()) ex_meta) as [v| |] eqn:E; [|by vm_compute in E..].
  assert (iter_file_details_raw ex_meta
          = Ok [mkFileDetails (Tree [[97]; [98]]) 20000 None None None;
                mkFileDetails (Tree [[97]; [99]]) 300 (Some [112]) None None]) as Hraw by done.
  destruct (validate_correct drop_bom (fun _ => ())
    ltac:(intros [] b; unfold starts_with_bom, drop_bom; case_bool_decide; [done|]; by intros _)
    ex_meta v _ Hraw ltac:(constructor; [by vm_compute|]; repeat constructor; by vm_compute) E)
    as (fis & Hf & _ & _ & _ & Hs & Hg).
  destruct Hg as (_ & _ & Hl & _); [by constructor; vm_compute|].
  exists v, fis. split_and!; [done|done|done|].
  apply Forall_lookup. intros k fi Hk. destruct (Forall2_lookup_r _ _ _ _ _ Hs Hk) as (f & Hf' & Hsafe). apply Hsafe.
  destruct k as [|[|k]]; [injection Hf' as <-; repeat constructor..|done].
Defined.

(** Two files of more than half of the largest length: the sum wraps around to five bytes, and
    the torrent is accepted as one of a single piece. *)
Definition wrapped_meta : TorrentMetaV1Info :=
  mkMetaInfo (Some [116]) (replicate 20 7) 16384 None None None None None
    (Some [mkMetaFile (2 ^ 63) [[97]] None None None; mkMetaFile (2 ^ 63 + 5) [[98]] None None None]) false.

Lemma wrapped_sizes_accepted :
  exists v, validate drop_bom (fun _ => ()) wrapped_meta = XOk v
    /\ ln_total_length (vi_lengths v) = 5 /\ total_pieces (vi_lengths v) = 1.
Proof. exists (mkValidated () (mkLengths 5 16384 0 5 1) wrapped_meta). split_and!; reflexivity. Qed.

(** A component that starts with a byte order mark passes the check on raw bytes
    although it decodes to [".."]. *)
Definition bom_dotdot : bytes := [239; 187; 191; 46; 46].

Definition bom_meta : TorrentMetaV1Info :=
  mkMetaInfo (Some [116]) (replicate 20 7) 16384 None None None None None
    (Some [mkMetaFile 5 [bom_dotdot; bom_dotdot; [120]] None None None]) false.

(** With any decoder that drops the byte order mark, validation accepts a torrent whose only
    file is placed two folders above the download folder. *)
Theorem bom_escapes_download_folder {Encoding : Type} (decode : Encoding -> bytes -> bytes)
    (guess : list bytes -> Encoding) :
  (forall enc, decode enc bom_dotdot = DOTDOT) -> (forall enc, decode enc [120] = [120]) ->
  exists v fi,
    validate decode guess bom_meta = XOk v /\ file_infos_of decode v = Ret [fi]
    /\ parts_components (fi_relative_filename fi) = [ParentDir; ParentDir; Normal [120]].
Proof.
  intros Hdd Hx. set (enc := detect_encoding guess bom_meta).
  assert (to_pathbuf decode enc (Tree [bom_dotdot; bom_dotdot; [120]])
          = DOTDOT ++ [SEP] ++ DOTDOT ++ [SEP] ++ [120]) as Hp.
  { unfold to_pathbuf. simpl. by rewrite Hdd, Hx. }
  exists (mkValidated enc (mkLengths 5 16384 0 5 1) bom_meta). eexists. split_and!.
  - unfold validate. fold enc. cbn -[to_pathbuf]. rewrite Hp. reflexivity.
  - reflexivity.
  - cbn -[to_pathbuf]. rewrite Hp. reflexivity.
Qed.

Lemma bom_escapes_download_folder_witness :
  exists v fi,
    validate drop_bom (fun _ => ()) bom_meta = XOk v /\ file_infos_of drop_bom v = Ret [fi]
    /\ ParentDir ∈ parts_components (fi_relative_filename fi).
Proof.
  destruct (bom_escapes_download_folder drop_bom (fun _ => ()) ltac:(done) ltac:(done))
    as (v & fi & ? & ? & Hc).
  exists v, fi. split_and!; [done..|]. rewrite Hc. left.
Defined.
