(* ===== verification/TorrentFile.v ===== *)
(** * Torrent files ([torrent_metainfo.rs], [create_torrent_file.rs])

    The .torrent file as bencode: what is read from one ([torrent_from_bytes]),
    what is written, and how a torrent is created from files on disk.  SHA-1 is a
    parameter, and so is how many bytes each [read] of a file returns. *)

From stdpp Require Import base tactics option list list_numbers numbers decidable sets.
From Stdlib Require Import ZArith Lia.
From S2P Require Import Prelude Lengths Bencode BencodeTypes Metainfo.
Open Scope Z_scope.

(** Names of fields. *)
Definition N_announce : bytes := [97; 110; 110; 111; 117; 110; 99; 101].
Definition N_announce_list : bytes := [97; 110; 110; 111; 117; 110; 99; 101; 45; 108; 105; 115; 116].
Definition N_info : bytes := [105; 110; 102; 111].
Definition N_comment : bytes := [99; 111; 109; 109; 101; 110; 116].
Definition N_created_by : bytes := [99; 114; 101; 97; 116; 101; 100; 32; 98; 121].
Definition N_encoding : bytes := [101; 110; 99; 111; 100; 105; 110; 103].
Definition N_publisher : bytes := [112; 117; 98; 108; 105; 115; 104; 101; 114].
Definition N_publisher_url : bytes := [112; 117; 98; 108; 105; 115; 104; 101; 114; 45; 117; 114; 108].
Definition N_creation_date : bytes := [99; 114; 101; 97; 116; 105; 111; 110; 32; 100; 97; 116; 101].
Definition N_name : bytes := [110; 97; 109; 101].
Definition N_pieces : bytes := [112; 105; 101; 99; 101; 115].
Definition N_piece_length : bytes := [112; 105; 101; 99; 101; 32; 108; 101; 110; 103; 116; 104].
Definition N_length : bytes := [108; 101; 110; 103; 116; 104].
Definition N_attr : bytes := [97; 116; 116; 114].
Definition N_sha1 : bytes := [115; 104; 97; 49].
Definition N_symlink_path : bytes := [115; 121; 109; 108; 105; 110; 107; 32; 112; 97; 116; 104].
Definition N_md5sum : bytes := [109; 100; 53; 115; 117; 109].
Definition N_files : bytes := [102; 105; 108; 101; 115].
Definition N_private : bytes := [112; 114; 105; 118; 97; 116; 101].
Definition N_path : bytes := [112; 97; 116; 104].

(** ** The types in bencode *)

Definition list_ser (l : list bytes) : Ser := SerSeq (SerBytes <$> l).

Definition list_shape : shape := ShSeq (ShBytes any_bytes).

Definition file_ser (f : TorrentMetaV1File) : Ser :=
  struct_ser
    [(N_length, Some (SerInt (mf_length f)));
     (N_path, Some (list_ser (mf_path f)));
     (N_attr, SerBytes <$> mf_attr f);
     (N_sha1, SerBytes <$> mf_sha1 f);
     (N_symlink_path, list_ser <$> mf_symlink_path f)].

Definition file_shape : shape :=
  ShStruct
    [(N_length, true, ShUnsigned 64);
     (N_path, true, list_shape);
     (N_attr, false, ShBytes any_bytes);
     (N_sha1, false, ShBytes any_bytes);
     (N_symlink_path, false, list_shape)].

Definition file_of (v : value) : TorrentMetaV1File :=
  mkMetaFile (default 0 (slot_int v 0)) (default [] (slot_seq value_bytes v 1))
    (slot_bytes v 2) (slot_bytes v 3) (slot_seq value_bytes v 4).

Definition is_false (b : bool) : bool := negb b.

Definition info_ser (i : TorrentMetaV1Info) : Ser :=
  struct_ser
    [(N_name, SerBytes <$> mi_name i);
     (N_pieces, Some (SerBytes (mi_pieces i)));
     (N_piece_length, Some (SerInt (mi_piece_length i)));
     (N_length, SerInt <$> mi_length i);
     (N_attr, SerBytes <$> mi_attr i);
     (N_sha1, SerBytes <$> mi_sha1 i);
     (N_symlink_path, list_ser <$> mi_symlink_path i);
     (N_md5sum, SerBytes <$> mi_md5sum i);
     (N_files, (fun l => SerSeq (file_ser <$> l)) <$> mi_files i);
     (N_private, if is_false (mi_private i) then None else Some (SerBool (mi_private i)))].

Definition info_shape : shape :=
  ShStruct
    [(N_name, false, ShBytes any_bytes);
     (N_pieces, true, ShBytes any_bytes);
     (N_piece_length, true, ShUnsigned 32);
     (N_length, false, ShUnsigned 64);
     (N_attr, false, ShBytes any_bytes);
     (N_sha1, false, ShBytes any_bytes);
     (N_symlink_path, false, list_shape);
     (N_md5sum, false, ShBytes any_bytes);
     (N_files, false, ShSeq file_shape);
     (N_private, false, ShBool)].

Definition info_of (v : value) : TorrentMetaV1Info :=
  mkMetaInfo (slot_bytes v 0) (default [] (slot_bytes v 1)) (default 0 (slot_int v 2)) (slot_int v 3)
    (slot_bytes v 4) (slot_bytes v 5) (slot_seq value_bytes v 6) (slot_bytes v 7) (slot_seq file_of v 8)
    (default false (slot_bool v 9)).

Record WithRawBytes (T : Type) := mkRaw {
  rb_data : T;
  rb_raw_bytes : bytes
}.
Arguments mkRaw {T}.
Arguments rb_data {T}.
Arguments rb_raw_bytes {T}.

Record TorrentMetaV1 := mkMeta {
  tm_announce : option bytes;
  tm_announce_list : list (list bytes);
  tm_info : WithRawBytes TorrentMetaV1Info;
  tm_comment : option bytes;
  tm_created_by : option bytes;
  tm_encoding : option bytes;
  tm_publisher : option bytes;
  tm_publisher_url : option bytes;
  tm_creation_date : option Z;
  tm_info_hash : bytes
}.

(** [WithRawBytes] is written as its data. *)
Definition meta_ser (t : TorrentMetaV1) : Ser :=
  struct_ser
    [(N_announce, SerBytes <$> tm_announce t);
     (N_announce_list,
        match tm_announce_list t with [] => None | l => Some (SerSeq (list_ser <$> l)) end);
     (N_info, Some (info_ser (rb_data (tm_info t))));
     (N_comment, SerBytes <$> tm_comment t);
     (N_created_by, SerBytes <$> tm_created_by t);
     (N_encoding, SerBytes <$> tm_encoding t);
     (N_publisher, SerBytes <$> tm_publisher t);
     (N_publisher_url, SerBytes <$> tm_publisher_url t);
     (N_creation_date, SerInt <$> tm_creation_date t)].

Definition meta_shape : shape :=
  ShStruct
    [(N_announce, false, ShBytes any_bytes);
     (N_announce_list, false, ShSeq list_shape);
     (N_info, true, ShRaw info_shape);
     (N_comment, false, ShBytes any_bytes);
     (N_created_by, false, ShBytes any_bytes);
     (N_encoding, false, ShBytes any_bytes);
     (N_publisher, false, ShBytes any_bytes);
     (N_publisher_url, false, ShBytes any_bytes);
     (N_creation_date, false, ShUnsigned 64)].

Definition value_list (v : value) : list bytes := match v with VSeq l => value_bytes <$> l | _ => [] end.

Definition slot_raw {A} (f : value -> A) (v : value) (i : nat) : option (WithRawBytes A) :=
  match v with
  | VStruct slots => match slots !! i with Some (Some (VRaw d raw)) => Some (mkRaw (f d) raw) | _ => None end
  | _ => None
  end.

(** [Id20::default()]: the field that is skipped. *)
Definition Id20_default : bytes := replicate 20 0.

Definition info_default : TorrentMetaV1Info := mkMetaInfo None [] 0 None None None None None None false.

Definition meta_of (v : value) : TorrentMetaV1 :=
  mkMeta (slot_bytes v 0) (default [] (slot_seq value_list v 1))
    (default (mkRaw info_default []) (slot_raw info_of v 2))
    (slot_bytes v 3) (slot_bytes v 4) (slot_bytes v 5) (slot_bytes v 6) (slot_bytes v 7) (slot_int v 8)
    Id20_default.

Definition set_info_hash (h : bytes) (t : TorrentMetaV1) : TorrentMetaV1 :=
  mkMeta (tm_announce t) (tm_announce_list t) (tm_info t) (tm_comment t) (tm_created_by t) (tm_encoding t)
    (tm_publisher t) (tm_publisher_url t) (tm_creation_date t) h.

Definition iter_announce (t : TorrentMetaV1) : list bytes :=
  match concat (tm_announce_list t) with
  | [] => option_list (tm_announce t)
  | l => l
  end.

Section Read.
Context `{Atoi} (sha1 : bytes -> bytes).

Definition torrent_from_bytes (buf : bytes) : exec DeError TorrentMetaV1 :=
  t ← exec_map_err fst (v ← from_bytes meta_shape buf; XOk (meta_of v));
  XOk (set_info_hash (sha1 (rb_raw_bytes (tm_info t))) t).
End Read.

(** ** Creating a torrent *)

(** An [OsStr] is its bytes when it is Unicode. *)
Definition OsStr : Type := option bytes.

Definition osstr_to_bytes (o : OsStr) : outcome bytes := match o with Some b => Ret b | None => Panic end.

Record CreateTorrentOptions := mkCreateOptions {
  co_name : option bytes;
  co_trackers : list bytes;
  co_piece_length : option Z
}.

(** A file that is found: its path below the root, and its contents if it can
    be opened. *)
Record InputFile := mkInputFile {
  if_path : list OsStr;
  if_contents : option bytes
}.

(** What the file system says of [path]; a single file has one entry whose
    path below the root is empty. *)
Record InputPath := mkInputPath {
  ip_exists : bool;
  ip_file_name : option OsStr;
  ip_is_dir : bool;
  ip_files : list InputFile
}.

Inductive CreateError :=
| PathDoesNotExist
| NoBasename
| ErrorOpening
| ErrorReading
| InfoHashError (e : SerError)
| SerializingTorrent (e : SerError).

Definition READ_SIZE : Z := 8192.

Definition choose_piece_length (input_files : list InputFile) : Z := 2 * 1024 * 1024.

(** The variables of the loop. *)
Record CreateState := mkCS {
  cs_length : Z;
  cs_remaining_piece_length : Z;
  cs_piece_checksum : bytes;
  cs_piece_hashes : bytes;
  cs_output_files : list TorrentMetaV1File
}.

Section Create.
Context (sha1 : bytes -> bytes).

(** [fd.read(buf)]: how many bytes of what is left of a file it returns for a
    buffer of a length. *)
Context (read : bytes -> nat -> option nat).

Fixpoint to_components (p : list OsStr) : outcome (list bytes) :=
  match p with
  | [] => Ret []
  | c :: p => b ← osstr_to_bytes c; bs ← to_components p; Ret (b :: bs)
  end.

(** One byte run is hashed; a full piece is finished. *)
Definition hash_bytes (piece_length : Z) (data : bytes) (st : CreateState) : CreateState :=
  let size := Z.of_nat (length data) in
  let length := u64 (cs_length st + size) in
  let piece_checksum := cs_piece_checksum st ++ data in
  let remaining_piece_length := u32 (cs_remaining_piece_length st - size) in
  if remaining_piece_length =? 0 then
    mkCS length piece_length [] (cs_piece_hashes st ++ sha1 piece_checksum) (cs_output_files st)
  else mkCS length remaining_piece_length piece_checksum (cs_piece_hashes st) (cs_output_files st).

(** The inner [loop]; it reads at least one byte per round. *)
Fixpoint hash_file (fuel : nat) (piece_length : Z) (path : list OsStr) (fd : bytes) (st : CreateState)
    : exec CreateError CreateState :=
  match fuel with
  | O => XPanic
  | S fuel =>
    let max_bytes_to_read := Z.to_nat (Z.min (cs_remaining_piece_length st) READ_SIZE) in
    match read fd max_bytes_to_read with
    | None => XErr ErrorReading
    | Some O =>
      path ← exec_of_outcome (to_components path);
      XOk (mkCS (cs_length st) (cs_remaining_piece_length st) (cs_piece_checksum st) (cs_piece_hashes st)
             (cs_output_files st ++ [mkMetaFile (cs_length st) path None None None]))
    | Some size => hash_file fuel piece_length path (drop size fd) (hash_bytes piece_length (take size fd) st)
    end
  end.

Definition create_file (piece_length : Z) (st : CreateState) (file : InputFile) : exec CreateError CreateState :=
  let st := mkCS 0 (cs_remaining_piece_length st) (cs_piece_checksum st) (cs_piece_hashes st) (cs_output_files st) in
  match if_contents file with
  | None => XErr ErrorOpening
  | Some fd => hash_file (S (length fd)) piece_length (if_path file) fd st
  end.

Definition create_torrent_raw (path : InputPath) (options : CreateTorrentOptions)
    : exec CreateError TorrentMetaV1Info :=
  if negb (ip_exists path) then XErr PathDoesNotExist
  else
    match ip_file_name path with
    | None => XErr NoBasename
    | Some basename =>
      let single_file_mode := negb (ip_is_dir path) in
      name ← match co_name options with
             | Some name => XOk name
             | None => exec_of_outcome (osstr_to_bytes basename)
             end;
      let piece_length := default (choose_piece_length (ip_files path)) (co_piece_length options) in
      st ← foldM (create_file piece_length) (mkCS 0 piece_length [] [] []) (ip_files path);
      let piece_hashes :=
        if (0 <? cs_remaining_piece_length st) && (0 <? cs_length st)
        then cs_piece_hashes st ++ sha1 (cs_piece_checksum st) else cs_piece_hashes st in
      XOk (mkMetaInfo (Some name) piece_hashes piece_length
             (if single_file_mode then Some (cs_length st) else None) None None None None
             (if single_file_mode then None else Some (cs_output_files st)) false)
    end.

Definition compute_info_hash (t : TorrentMetaV1Info) : exec SerError (bytes * bytes) :=
  bytes ← to_vec false (serialize (info_ser t)); XOk (sha1 bytes, bytes).

(** "utf-8". *)
Definition UTF_8 : bytes := [117; 116; 102; 45; 56].

Definition create_torrent (path : InputPath) (options : CreateTorrentOptions) : exec CreateError TorrentMetaV1 :=
  let trackers := co_trackers options in
  info ← create_torrent_raw path options;
  r ← exec_map_err InfoHashError (compute_info_hash info);
  let '(info_hash, bytes) := r in
  XOk (mkMeta None [trackers] (mkRaw info bytes) None None (Some UTF_8) None None None info_hash).

(** [CreateTorrentResult::as_bytes]. *)
Definition as_bytes (t : TorrentMetaV1) : exec CreateError bytes :=
  exec_map_err SerializingTorrent (to_vec false (serialize (meta_ser t))).
End Create.

(** ** Round trip *)

Record file_ok (f : TorrentMetaV1File) : Prop := {
  fo_length : is_u64 (mf_length f);
  fo_path : Forall short (mf_path f);
  fo_attr : opt_ok short (mf_attr f);
  fo_sha1 : opt_ok short (mf_sha1 f);
  fo_symlink : opt_ok (Forall short) (mf_symlink_path f)
}.

Record info_ok (i : TorrentMetaV1Info) : Prop := {
  io_name : opt_ok short (mi_name i);
  io_pieces : short (mi_pieces i);
  io_piece_length : is_u32 (mi_piece_length i);
  io_length : opt_ok is_u64 (mi_length i);
  io_attr : opt_ok short (mi_attr i);
  io_sha1 : opt_ok short (mi_sha1 i);
  io_symlink : opt_ok (Forall short) (mi_symlink_path i);
  io_md5sum : opt_ok short (mi_md5sum i);
  io_files : opt_ok (Forall file_ok) (mi_files i)
}.

Record meta_ok (t : TorrentMetaV1) : Prop := {
  mo_announce : opt_ok short (tm_announce t);
  mo_announce_list : Forall (Forall short) (tm_announce_list t);
  mo_info : info_ok (rb_data (tm_info t));
  mo_comment : opt_ok short (tm_comment t);
  mo_created_by : opt_ok short (tm_created_by t);
  mo_encoding : opt_ok short (tm_encoding t);
  mo_publisher : opt_ok short (tm_publisher t);
  mo_publisher_url : opt_ok short (tm_publisher_url t);
  mo_creation_date : opt_ok is_u64 (tm_creation_date t)
}.

Definition list_content (l : list bytes) : value * Ser * bytes := seq_content (bytes_content <$> l).

Definition file_fields (f : TorrentMetaV1File) : list tfield :=
  [mkTF N_length true (ShUnsigned 64) (Some (int_content (mf_length f)));
   mkTF N_path true list_shape (Some (list_content (mf_path f)));
   mkTF N_attr false (ShBytes any_bytes) (bytes_content <$> mf_attr f);
   mkTF N_sha1 false (ShBytes any_bytes) (bytes_content <$> mf_sha1 f);
   mkTF N_symlink_path false list_shape (list_content <$> mf_symlink_path f)].

Definition file_content (f : TorrentMetaV1File) : value * Ser * bytes := struct_content (file_fields f).

Definition private_of (i : TorrentMetaV1Info) : option bool := if mi_private i then Some true else None.

Definition info_fields (i : TorrentMetaV1Info) : list tfield :=
  [mkTF N_name false (ShBytes any_bytes) (bytes_content <$> mi_name i);
   mkTF N_pieces true (ShBytes any_bytes) (Some (bytes_content (mi_pieces i)));
   mkTF N_piece_length true (ShUnsigned 32) (Some (int_content (mi_piece_length i)));
   mkTF N_length false (ShUnsigned 64) (int_content <$> mi_length i);
   mkTF N_attr false (ShBytes any_bytes) (bytes_content <$> mi_attr i);
   mkTF N_sha1 false (ShBytes any_bytes) (bytes_content <$> mi_sha1 i);
   mkTF N_symlink_path false list_shape (list_content <$> mi_symlink_path i);
   mkTF N_md5sum false (ShBytes any_bytes) (bytes_content <$> mi_md5sum i);
   mkTF N_files false (ShSeq file_shape) ((fun l => seq_content (file_content <$> l)) <$> mi_files i);
   mkTF N_private false ShBool (bool_content <$> private_of i)].

Definition info_content (i : TorrentMetaV1Info) : value * Ser * bytes := struct_content (info_fields i).

(** The bytes of the [info] dictionary. *)
Definition info_bytes (i : TorrentMetaV1Info) : bytes := (info_content i).2.

Definition raw_content (c : value * Ser * bytes) : value * Ser * bytes := (VRaw c.1.1 c.2, c.1.2, c.2).

Definition announce_of (t : TorrentMetaV1) : option (list (list bytes)) :=
  match tm_announce_list t with [] => None | l => Some l end.

Definition meta_fields (t : TorrentMetaV1) : list tfield :=
  [mkTF N_announce false (ShBytes any_bytes) (bytes_content <$> tm_announce t);
   mkTF N_announce_list false (ShSeq list_shape) ((fun l => seq_content (list_content <$> l)) <$> announce_of t);
   mkTF N_info true (ShRaw info_shape) (Some (raw_content (info_content (rb_data (tm_info t)))));
   mkTF N_comment false (ShBytes any_bytes) (bytes_content <$> tm_comment t);
   mkTF N_created_by false (ShBytes any_bytes) (bytes_content <$> tm_created_by t);
   mkTF N_encoding false (ShBytes any_bytes) (bytes_content <$> tm_encoding t);
   mkTF N_publisher false (ShBytes any_bytes) (bytes_content <$> tm_publisher t);
   mkTF N_publisher_url false (ShBytes any_bytes) (bytes_content <$> tm_publisher_url t);
   mkTF N_creation_date false (ShUnsigned 64) (int_content <$> tm_creation_date t)].

Definition meta_content (t : TorrentMetaV1) : value * Ser * bytes := struct_content (meta_fields t).

(** *** What is written *)

Lemma list_ser_content l : list_ser l = (list_content l).1.2.
Proof. unfold list_ser, list_content, seq_content. cbn. f_equal. rewrite <- list_fmap_compose. done. Qed.

Lemma seq_ser {A} (ser : A -> Ser) (c : A -> value * Ser * bytes) l :
  (forall a, ser a = (c a).1.2) -> SerSeq (ser <$> l) = (seq_content (c <$> l)).1.2.
Proof.
  intros Hc. unfold seq_content. cbn. f_equal. rewrite <- list_fmap_compose. apply list_fmap_ext. intros. apply Hc.
Qed.

Lemma file_ser_content f : file_ser f = (file_content f).1.2.
Proof.
  apply struct_ser_fields. destruct f. cbn -[list_content]. same_fields_by ltac:(apply list_ser_content).
Qed.

Lemma info_ser_content i : info_ser i = (info_content i).1.2.
Proof.
  apply struct_ser_fields. destruct i as [? ? ? ? ? ? ? ? fs []]; cbn -[list_content];
    same_fields_by ltac:(first [apply list_ser_content|intros; apply seq_ser, file_ser_content]).
Qed.

Lemma meta_ser_content t : meta_ser t = (meta_content t).1.2.
Proof.
  apply struct_ser_fields. destruct t as [? [|ul al] [i raw] ? ? ? ? ? ? h]; cbn -[list_content info_content fmap];
    same_fields_by ltac:(first [apply info_ser_content|intros; apply (seq_ser list_ser list_content), list_ser_content]).
Qed.

(** *** Each type reads what it writes *)

Section Codecs.
Context `{AtoiSpec}.

Abbreviation codec_of h sh c := (codec h sh (fst (fst c)) (snd (fst c)) (snd c)).

Lemma plain_field_ok h name o :
  short name -> opt_ok short o -> content_ok h (mkTF name false (ShBytes any_bytes) (bytes_content <$> o)).
Proof. intros Hn Ho. apply (bytes_field_ok _ _ _ (fun b => b)); [done|]. intros b Hb. split; [by apply Ho|done]. Qed.

Lemma seq_field_ok {A} h name sh (P : A -> Prop) (c : A -> value * Ser * bytes) o :
  short name -> (forall a, P a -> codec_of h sh (c a) /\ element (c a).2) -> opt_ok (Forall P) o ->
  content_ok (S h) (mkTF name false (ShSeq sh) ((fun l => seq_content (c <$> l)) <$> o)).
Proof.
  intros Hn Hc Ho. split; [done|]. destruct o as [l|]; [|done]. cbn [tf_content fmap option_fmap option_map].
  apply codec_seq, Forall_fmap. eapply list.Forall_impl; [by apply Ho|]. exact Hc.
Qed.

Lemma list_codec h l : Forall short l -> codec_of (S h) list_shape (list_content l).
Proof. apply bytes_list_codec. Qed.

Ltac field_of ts := apply (codec_struct _ ts); [by apply (bool_decide_unpack _)|];
  repeat apply Forall_cons_2; try apply Forall_nil_2.

Lemma file_codec h f : file_ok f -> codec_of (S (S h)) file_shape (file_content f).
Proof.
  intros []. field_of (file_fields f); try by apply plain_field_ok.
  - split; [done|]. by apply codec_unsigned.
  - split; [done|]. by apply list_codec.
  - by apply list_field_ok.
Qed.

Lemma info_codec i : info_ok i -> codec_of 4 info_shape (info_content i).
Proof.
  intros []. field_of (info_fields i); try by apply plain_field_ok.
  - split; [done|]. by apply codec_bytes.
  - split; [done|]. by apply codec_unsigned.
  - by apply int_field_ok.
  - by apply list_field_ok.
  - apply (seq_field_ok _ _ _ file_ok); [done| |done]. intros f Hf. split; [by apply file_codec|done].
  - split; [done|]. cbn. unfold private_of. destruct (mi_private i); cbn; [apply (codec_bool _ true)|done].
Qed.

Lemma announce_ok t : meta_ok t -> opt_ok (Forall (Forall short)) (announce_of t).
Proof. intros [] l Hl. unfold announce_of in Hl. by destruct (tm_announce_list t); simplify_eq. Qed.

Lemma meta_codec t : meta_ok t -> codec_of 5 meta_shape (meta_content t).
Proof.
  intros Hm. pose proof (announce_ok t Hm). destruct Hm. field_of (meta_fields t); try by apply plain_field_ok.
  - apply (seq_field_ok _ _ _ (Forall short)); [done| |done]. intros l Hl. split; [by apply list_codec|done].
  - split; [done|]. by apply codec_raw, info_codec.
  - by apply int_field_ok.
Qed.

Lemma value_list_content l : value_list (list_content l).1.1 = l.
Proof.
  unfold list_content, seq_content. cbn. rewrite <- !list_fmap_compose. rewrite <- (list_fmap_id l) at 2.
  by apply list_fmap_ext.
Qed.

Lemma file_of_content f : file_of (file_content f).1.1 = f.
Proof.
  unfold file_of, file_content, struct_content. cbn [fst].
  rewrite (slot_int_fields _ 0 _ (Some (mf_length f))), (slot_seq_fields value_bytes bytes_content _ 1 _ (Some (mf_path f))),
    (slot_bytes_fields _ 2 _ (mf_attr f)), (slot_bytes_fields _ 3 _ (mf_sha1 f)),
    (slot_seq_fields value_bytes bytes_content _ 4 _ (mf_symlink_path f))
    by (try reflexivity; by left). by destruct f.
Qed.

Lemma info_of_content i : info_of (info_content i).1.1 = i.
Proof.
  unfold info_of, info_content, struct_content. cbn [fst].
  rewrite (slot_bytes_fields _ 0 _ (mi_name i)), (slot_bytes_fields _ 1 _ (Some (mi_pieces i))),
    (slot_int_fields _ 2 _ (Some (mi_piece_length i))), (slot_int_fields _ 3 _ (mi_length i)),
    (slot_bytes_fields _ 4 _ (mi_attr i)), (slot_bytes_fields _ 5 _ (mi_sha1 i)),
    (slot_seq_fields value_bytes bytes_content _ 6 _ (mi_symlink_path i)), (slot_bytes_fields _ 7 _ (mi_md5sum i)),
    (slot_seq_fields file_of file_content _ 8 _ (mi_files i)), (slot_bool_fields _ 9 _ (private_of i))
    by (try reflexivity; try (by left); intros; apply file_of_content).
  unfold private_of. by destruct i as [? ? ? ? ? ? ? ? ? []].
Qed.

Lemma meta_of_content t :
  meta_of (meta_content t).1.1
  = mkMeta (tm_announce t) (tm_announce_list t)
      (mkRaw (rb_data (tm_info t)) (info_bytes (rb_data (tm_info t)))) (tm_comment t) (tm_created_by t)
      (tm_encoding t) (tm_publisher t) (tm_publisher_url t) (tm_creation_date t) Id20_default.
Proof.
  unfold meta_of, meta_content, struct_content. cbn [fst].
  rewrite (slot_bytes_fields _ 0 _ (tm_announce t)), (slot_seq_fields value_list list_content _ 1 _ (announce_of t)),
    (slot_bytes_fields _ 3 _ (tm_comment t)), (slot_bytes_fields _ 4 _ (tm_created_by t)),
    (slot_bytes_fields _ 5 _ (tm_encoding t)), (slot_bytes_fields _ 6 _ (tm_publisher t)),
    (slot_bytes_fields _ 7 _ (tm_publisher_url t)), (slot_int_fields _ 8 _ (tm_creation_date t))
    by (try reflexivity; try (by left); intros; apply value_list_content).
  change (slot_raw info_of _ 2)
    with (Some (mkRaw (info_of (info_content (rb_data (tm_info t))).1.1) (info_bytes (rb_data (tm_info t))))).
  rewrite info_of_content. destruct t as [? al ? ? ? ? ? ? ? ?]. cbn. unfold announce_of. cbn. by destruct al.
Qed.

(** Both directions of a whole torrent. *)
Lemma meta_written t : meta_ok t -> to_vec false (serialize (meta_ser t)) = XOk (meta_content t).2.
Proof. intros Hm. rewrite meta_ser_content. apply to_vec_writes. by apply meta_codec. Qed.

Lemma info_written i : info_ok i -> to_vec false (serialize (info_ser i)) = XOk (info_bytes i).
Proof. intros Hi. rewrite info_ser_content. apply to_vec_writes. by apply info_codec. Qed.

Lemma meta_read sha1 t :
  meta_ok t ->
  torrent_from_bytes sha1 (meta_content t).2
  = XOk (set_info_hash (sha1 (info_bytes (rb_data (tm_info t))))
           (meta_of (meta_content t).1.1)).
Proof.
  intros Hm. unfold torrent_from_bytes.
  rewrite (codec_from_bytes 5 _ _ _ _ (meta_codec t Hm)) by (unfold DEFAULT_MAX_DEPTH; lia).
  cbn [mbind exec_bind exec_map_err]. by rewrite meta_of_content.
Qed.

Lemma info_read i : info_ok i -> (v ← from_bytes info_shape (info_bytes i); XOk (info_of v)) = XOk i.
Proof.
  intros Hi. unfold info_bytes. rewrite (codec_from_bytes 4 _ _ _ _ (info_codec i Hi)) by (unfold DEFAULT_MAX_DEPTH; lia).
  cbn [mbind exec_bind]. by rewrite info_of_content.
Qed.
End Codecs.

(** ** Created torrents *)

(** What is relied on of [Read]: no error, and nothing only at the end of the
    file or for an empty buffer. *)
Definition reader_ok (read : bytes -> nat -> option nat) : Prop := forall fd max,
  exists n, read fd max = Some n /\ (n <= max)%nat /\ (n <= length fd)%nat /\ (n = O -> max = O \/ fd = []).

(** The state after the bytes [data] of all files: [ps] are the full pieces. *)
Record hashed (sha1 : bytes -> bytes) (pl : Z) (data : bytes) (ps : list bytes) (st : CreateState) : Prop := {
  ha_data : data = concat ps ++ cs_piece_checksum st;
  ha_full : Forall (fun p => Z.of_nat (length p) = pl) ps;
  ha_hashes : cs_piece_hashes st = concat (sha1 <$> ps);
  ha_remaining : cs_remaining_piece_length st = pl - Z.of_nat (length (cs_piece_checksum st));
  ha_room : Z.of_nat (length (cs_piece_checksum st)) < pl
}.

Section Created.
Context (sha1 : bytes -> bytes) (pl : Z) (Hpl : 0 < pl < 2 ^ 32).

Lemma hash_bytes_hashed data ps st d :
  hashed sha1 pl data ps st -> Z.of_nat (length d) <= cs_remaining_piece_length st ->
  exists ps', hashed sha1 pl (data ++ d) ps' (hash_bytes sha1 pl d st).
Proof.
  intros [Hd Hf Hh Hr Hroom] Hlen. unfold hash_bytes.
  rewrite (wrap_id 32) by (unfold is_uint; lia).
  destruct (Z.eqb_spec (cs_remaining_piece_length st - Z.of_nat (length d)) 0).
  - exists (ps ++ [cs_piece_checksum st ++ d]). constructor; cbn.
    + by rewrite Hd, concat_app, app_nil_r, <- app_assoc; cbn; rewrite app_nil_r.
    + apply Forall_app_2; [done|]. apply Forall_singleton. rewrite length_app. lia.
    + by rewrite fmap_app, concat_app, Hh; cbn; rewrite app_nil_r.
    + lia.
    + lia.
  - exists ps. constructor; cbn; [by rewrite Hd, app_assoc|done|done| |]; rewrite length_app; lia.
Qed.

Lemma hash_bytes_frame d st :
  cs_length (hash_bytes sha1 pl d st) = u64 (cs_length st + Z.of_nat (length d))
  /\ cs_output_files (hash_bytes sha1 pl d st) = cs_output_files st.
Proof. unfold hash_bytes. by destruct (_ =? 0). Qed.

Lemma to_components_ok (p : list bytes) : to_components (Some <$> p) = Ret p.
Proof. induction p as [|b p IH]; [done|]. cbn. by rewrite IH. Qed.

Context (read : bytes -> nat -> option nat) (Hread : reader_ok read).

Lemma hash_file_spec (p : list bytes) fuel : forall fd data ps st,
  (length fd < fuel)%nat -> hashed sha1 pl data ps st -> is_u64 (cs_length st + Z.of_nat (length fd)) ->
  0 <= cs_length st ->
  exists ps' st', hash_file sha1 read fuel pl (Some <$> p) fd st = XOk st'
    /\ hashed sha1 pl (data ++ fd) ps' st'
    /\ cs_length st' = cs_length st + Z.of_nat (length fd)
    /\ cs_output_files st'
       = cs_output_files st ++ [mkMetaFile (cs_length st + Z.of_nat (length fd)) p None None None].
Proof.
  induction fuel as [|fuel IH]; intros fd data ps st Hf Hst Hlen Hn; [lia|]. cbn [hash_file].
  destruct (Hread fd (Z.to_nat (Z.min (cs_remaining_piece_length st) READ_SIZE))) as (n & -> & Hmax & Hle & Hz).
  destruct n as [|n].
  - assert (fd = []) as ->.
    { destruct Hz as [Hz|]; [done| |done]. pose proof (ha_remaining _ _ _ _ _ Hst).
      pose proof (ha_room _ _ _ _ _ Hst). unfold READ_SIZE in Hz. lia. }
    rewrite to_components_ok. cbn. rewrite Z.add_0_r, app_nil_r. eexists ps, _. split; [done|].
    destruct Hst. by repeat split.
  - set (d := take (S n) fd). assert (length d = S n) as Hd by (unfold d; rewrite length_take; lia).
    destruct (hash_bytes_hashed data ps st d Hst ltac:(lia)) as (ps1 & Hst1).
    destruct (hash_bytes_frame d st) as [Hl1 Ho1]. rewrite Hd, wrap_id in Hl1 by (unfold is_uint in *; lia).
    destruct (IH (drop (S n) fd) (data ++ d) ps1 (hash_bytes sha1 pl d st)) as (ps' & st' & -> & Hst' & Hl' & Ho');
      rewrite ?length_drop, ?Hl1; [lia|done|unfold is_uint in *; lia|lia|].
    exists ps', st'. split; [done|]. unfold d in Hst'. rewrite <- app_assoc, take_drop in Hst'. split; [done|].
    rewrite length_drop in Hl', Ho'. rewrite Hl', Ho', Ho1, Hl1.
    replace (cs_length st + Z.of_nat (S n) + Z.of_nat (length fd - S n))
      with (cs_length st + Z.of_nat (length fd)) by lia. done.
Qed.

Definition input_of (f : list bytes * bytes) : InputFile := mkInputFile (Some <$> f.1) (Some f.2).

Definition meta_file_of (f : list bytes * bytes) : TorrentMetaV1File :=
  mkMetaFile (Z.of_nat (length f.2)) f.1 None None None.

Lemma create_files_spec (fs : list (list bytes * bytes)) : forall data ps st,
  hashed sha1 pl data ps st -> Z.of_nat (length (concat fs.*2)) < 2 ^ 64 ->
  exists ps' st', foldM (create_file sha1 read pl) st (input_of <$> fs) = XOk st'
    /\ hashed sha1 pl (data ++ concat fs.*2) ps' st'
    /\ cs_length st' = from_option (fun f : list bytes * bytes => Z.of_nat (length f.2)) (cs_length st) (last fs)
    /\ cs_output_files st' = cs_output_files st ++ (meta_file_of <$> fs).
Proof.
  induction fs as [|[p fd] fs IH]; intros data ps st Hst Hlen; cbn [fmap list_fmap foldM].
  - exists ps, st. cbn. by rewrite !app_nil_r.
  - cbn in Hlen. rewrite length_app in Hlen. 
    set (st0 := mkCS 0 (cs_remaining_piece_length st) (cs_piece_checksum st) (cs_piece_hashes st) (cs_output_files st)).
    change (create_file sha1 read pl st (input_of (p, fd)))
      with (hash_file sha1 read (S (length fd)) pl (Some <$> p) fd st0).
    destruct (hash_file_spec p (S (length fd)) fd data ps st0) as (ps1 & st1 & -> & Hst1 & Hl1 & Ho1);
      [lia|by destruct Hst; constructor|unfold is_uint; cbn; lia|done|].
    cbn [mbind exec_bind]. destruct (IH (data ++ fd) ps1 st1 Hst1 ltac:(lia)) as (ps' & st' & -> & Hst' & Hl' & Ho').
    exists ps', st'. split; [done|]. cbn [concat fmap list_fmap snd] in *. rewrite app_assoc. split; [done|].
    split; [|by rewrite Ho', Ho1; cbn; rewrite <- app_assoc].
    rewrite Hl', Hl1, last_cons. cbn. by destruct (last fs).
Qed.
End Created.

(** *** The hashes *)

Definition piece_bytes (pl : Z) (data : bytes) (i : Z) : bytes := take (Z.to_nat pl) (drop (Z.to_nat i * Z.to_nat pl) data).

Lemma nth_block {A} n (l : list (list A)) rest i b :
  Forall (fun x => length x = n) l -> l !! i = Some b -> take n (drop (i * n) (concat l ++ rest)) = b.
Proof.
  revert i. induction l as [|x l IH]; intros i Hl Hi; [done|]. apply Forall_cons in Hl as [<- Hl].
  destruct i as [|i]; cbn in *.
  - injection Hi as ->. by rewrite drop_0, <- app_assoc, take_app_length.
  - rewrite <- app_assoc, drop_app_ge by lia. replace (length x + i * length x - length x)%nat with (i * length x)%nat by lia. by apply IH.
Qed.

Lemma length_blocks {A} n (l : list (list A)) : Forall (fun x => length x = n) l -> length (concat l) = (length l * n)%nat.
Proof. induction 1 as [|x l Hx _ IH]; [done|]. cbn. rewrite length_app. lia. Qed.

Lemma get_hash_blocks (sha1 : bytes -> bytes) info l i b :
  (forall b, length (sha1 b) = 20%nat) -> mi_pieces info = concat (sha1 <$> l) -> l !! Z.to_nat i = Some b ->
  get_hash info i = Some (sha1 b).
Proof.
  intros Hsha Hp Hb. assert (Forall (fun x => length x = 20%nat) (sha1 <$> l)) as Hl.
  { apply Forall_fmap, Forall_forall. intros. apply Hsha. }
  assert ((sha1 <$> l) !! Z.to_nat i = Some (sha1 b)) as Hi by by rewrite list_lookup_fmap, Hb.
  pose proof (lookup_lt_Some _ _ _ Hi) as Hlt. rewrite length_fmap in Hlt.
  unfold get_hash. rewrite Hp. apply slice_get_Some. rewrite (length_blocks 20 _ Hl), length_fmap. split; [lia|].
  replace (_ + 20 - _)%nat with 20%nat by lia. rewrite <- (app_nil_r (concat _)). symmetry. by apply nth_block.
Qed.

(** The full pieces of the data and what is behind them. *)
Lemma hashed_pieces sha1 pl data ps st :
  0 < pl -> hashed sha1 pl data ps st ->
  Z.of_nat (length ps) = Z.of_nat (length data) / pl
  /\ Z.of_nat (length (cs_piece_checksum st)) = Z.of_nat (length data) mod pl
  /\ (forall i, 0 <= i < Z.of_nat (length data) / pl -> ps !! Z.to_nat i = Some (piece_bytes pl data i))
  /\ cs_piece_checksum st = piece_bytes pl data (Z.of_nat (length data) / pl).
Proof.
  intros Hpl [Hd Hf _ _ Hroom].
  assert (Forall (fun p : bytes => length p = Z.to_nat pl) ps) as Hf'.
  { eapply Forall_impl; [exact Hf|]. cbn. intros. lia. }
  pose proof (length_blocks _ _ Hf') as Hlen.
  assert (Z.of_nat (length data) = pl * Z.of_nat (length ps) + Z.of_nat (length (cs_piece_checksum st))) as HL.
  { rewrite Hd, length_app, Hlen. lia. }
  assert (Z.of_nat (length data) / pl = Z.of_nat (length ps)) as Hdiv.
  { symmetry. eapply Z.div_unique; [|exact HL]. lia. }
  split; [done|]. split; [eapply Z.mod_unique; [|exact HL]; lia|]. rewrite Hdiv. split.
  - intros i Hi. destruct (lookup_lt_is_Some_2 ps (Z.to_nat i)) as [p Hp]; [lia|]. rewrite Hp. f_equal.
    unfold piece_bytes. rewrite Hd. symmetry. by apply nth_block.
  - unfold piece_bytes. rewrite Hd, Nat2Z.id, drop_app_ge by lia. rewrite Hlen, Nat.sub_diag, drop_0.
    rewrite take_ge by lia. done.
Qed.

(** *** The whole function *)

(** The files [fs], by path and contents, below a path that exists. *)
Record create_input (path : InputPath) (options : CreateTorrentOptions) (base : bytes)
    (fs : list (list bytes * bytes)) (pl : Z) : Prop := {
  ci_exists : ip_exists path = true;
  ci_base : ip_file_name path = Some (Some base);
  ci_files : ip_files path = input_of <$> fs;
  ci_single : ip_is_dir path = false -> exists c, fs = [([], c)];
  ci_piece_length : pl = default (choose_piece_length (ip_files path)) (co_piece_length options);
  ci_piece_length_u32 : 0 < pl < 2 ^ 32;
  ci_small : Z.of_nat (length (concat fs.*2)) < 2 ^ 58;
  ci_name : short (default base (co_name options));
  ci_trackers : Forall short (co_trackers options);
  ci_paths : Forall (Forall short) fs.*1
}.

Definition created_info (path : InputPath) (options : CreateTorrentOptions) (base : bytes)
    (fs : list (list bytes * bytes)) (pl : Z) (pieces : bytes) : TorrentMetaV1Info :=
  mkMetaInfo (Some (default base (co_name options))) pieces pl
    (if ip_is_dir path then None else Some (Z.of_nat (length (concat fs.*2)))) None None None None
    (if ip_is_dir path then Some (meta_file_of <$> fs) else None) false.

(** The last file has bytes. *)
Definition last_nonempty (fs : list (list bytes * bytes)) : bool :=
  match last fs with Some f => bool_decide (f.2 <> []) | None => false end.

Lemma last_length (fs : list (list bytes * bytes)) :
  (0 <? from_option (fun f : list bytes * bytes => Z.of_nat (length f.2)) 0 (last fs)) = last_nonempty fs.
Proof. unfold last_nonempty. destruct (last fs) as [[p [|c b]]|]; by cbn. Qed.

Lemma create_torrent_raw_spec sha1 read path options base fs pl :
  reader_ok read -> create_input path options base fs pl ->
  exists ps st, hashed sha1 pl (concat fs.*2) ps st
    /\ create_torrent_raw sha1 read path options
       = XOk (created_info path options base fs pl
                (concat (sha1 <$> (ps ++ if last_nonempty fs then [cs_piece_checksum st] else [])))).
Proof.
  intros Hread []. unfold create_torrent_raw. rewrite ci_exists0, ci_base0, <- ci_piece_length0, ci_files0. cbn [negb].
  destruct (create_files_spec sha1 pl ci_piece_length_u33 read Hread fs [] [] (mkCS 0 pl [] [] []))
    as (ps & st & Hfold & Hst & Hl & Ho); [constructor; cbn; done || lia|lia|].
  exists ps, st. split; [done|].
  transitivity (XOk (E := CreateError) (mkMetaInfo (Some (default base (co_name options)))
    (if last_nonempty fs then cs_piece_hashes st ++ sha1 (cs_piece_checksum st) else cs_piece_hashes st) pl
    (if ip_is_dir path then None else Some (cs_length st)) None None None None
    (if ip_is_dir path then Some (cs_output_files st) else None) false)).
  { cbn in Hl. pose proof (last_length fs) as Hlast. rewrite <- Hl in Hlast.
    destruct (co_name options); cbn [mbind exec_bind exec_of_outcome osstr_to_bytes default from_option id];
      rewrite Hfold; cbn [mbind exec_bind]; rewrite Hlast; pose proof (ha_remaining _ _ _ _ _ Hst);
      pose proof (ha_room _ _ _ _ _ Hst); (destruct (Z.ltb_spec 0 (cs_remaining_piece_length st)); [|lia]);
      by destruct (ip_is_dir path). }
  unfold created_info. rewrite Ho, Hl, (ha_hashes _ _ _ _ _ Hst), fmap_app, concat_app. cbn. repeat f_equal.
  - destruct (last_nonempty fs); cbn; by rewrite ?app_nil_r.
  - destruct (ip_is_dir path) eqn:Hdir; [done|]. destruct (ci_single0 eq_refl) as [c ->]. cbn. by rewrite app_nil_r.
Qed.

Lemma created_info_ok sha1 path options base fs pl ps st :
  (forall b, length (sha1 b) = 20%nat) -> create_input path options base fs pl -> hashed sha1 pl (concat fs.*2) ps st ->
  info_ok (created_info path options base fs pl
             (concat (sha1 <$> (ps ++ if last_nonempty fs then [cs_piece_checksum st] else [])))).
Proof.
  intros Hsha [] Hst.
  destruct (hashed_pieces _ _ _ _ _ (proj1 ci_piece_length_u33) Hst) as (Hn & _).
  assert (Z.of_nat (length ps) <= Z.of_nat (length (concat fs.*2))) as Hps.
  { rewrite Hn. apply Z.div_le_upper_bound; nia. }
  constructor; cbn; try done; try by intros ? [=].
  - by intros ? [= <-].
  - unfold short. rewrite (length_blocks 20).
    2:{ apply Forall_fmap, Forall_forall. intros. apply Hsha. }
    rewrite length_fmap, length_app. destruct (last_nonempty fs); cbn; lia.
  - unfold is_uint. lia.
  - destruct (ip_is_dir path); intros ? [= <-]. unfold is_uint. lia.
  - destruct (ip_is_dir path); intros ? [= <-]. apply Forall_fmap, Forall_forall. intros [p c] Hf.
    constructor; cbn; try by intros ? [=].
    + assert (length c <= length (concat fs.*2))%nat; [|unfold is_uint; lia].
      apply concat_in_le. by apply (list_elem_of_fmap_2 snd _ _ Hf).
    + rewrite Forall_forall in ci_paths0. apply ci_paths0. by apply (list_elem_of_fmap_2 fst _ _ Hf).
Qed.

(** Whatever sizes the reads of the files return, a torrent created from
    files can be written, and the file that is written parses back to the same torrent, with the same info hash.  Its file
    table lists every file with its length; every full piece of the
    concatenated files has its SHA-1 in [pieces]; and when the data does not end
    at a piece boundary and the last file is not empty, so does the last piece,
    and there are no other hashes. *)
Theorem create_torrent_correct `{AtoiSpec} (sha1 : bytes -> bytes) (read : bytes -> nat -> option nat)
    path options base fs pl :
  (forall b, length (sha1 b) = 20%nat) -> reader_ok read -> create_input path options base fs pl ->
  let data := concat fs.*2 in
  let size := Z.of_nat (length data) in
  exists t b,
    create_torrent sha1 read path options = XOk t
    /\ as_bytes t = XOk b
    /\ torrent_from_bytes sha1 b = XOk t
    /\ (let info := rb_data (tm_info t) in
        info = created_info path options base fs pl (mi_pieces info)
        /\ (forall i, 0 <= i < size / pl -> get_hash info i = Some (sha1 (piece_bytes pl data i)))
        /\ (size mod pl <> 0 -> last_nonempty fs = true ->
            get_hash info (size / pl) = Some (sha1 (piece_bytes pl data (size / pl)))
            /\ Z.of_nat (length (mi_pieces info)) = 20 * div_ceil size pl)).
Proof.
  intros Hsha Hread Hin data size.
  destruct (create_torrent_raw_spec sha1 read path options base fs pl Hread Hin) as (ps & st & Hst & Hraw).
  pose proof (created_info_ok sha1 _ _ _ _ _ _ _ Hsha Hin Hst) as Hok.
  set (info := created_info _ _ _ _ _ _) in *. pose proof (ci_piece_length_u32 _ _ _ _ _ Hin) as Hpl.
  destruct (hashed_pieces _ _ _ _ _ (proj1 Hpl) Hst) as (Hn & Hm & Hfull & Hlast). fold data size in Hn, Hm, Hfull, Hlast.
  set (t := mkMeta None [co_trackers options] (mkRaw info (info_bytes info)) None None (Some UTF_8) None None None
              (sha1 (info_bytes info))).
  assert (meta_ok t) as Ht.
  { constructor; try done; try by intros ? [=]; cbn.
    - apply Forall_singleton. by destruct Hin.
    - by intros ? [= <-]. }
  exists t, (meta_content t).2. split_and!.
  - unfold create_torrent. rewrite Hraw. cbn [mbind exec_bind]. unfold compute_info_hash. by rewrite info_written.
  - unfold as_bytes. by rewrite meta_written.
  - by rewrite meta_read, meta_of_content.
  - cbn [tm_info t rb_data]. split; [done|]. split; [intros i Hi|intros Hne Hle; split].
    + eapply get_hash_blocks; [done|done|]. rewrite lookup_app_l by lia. by apply Hfull.
    + eapply get_hash_blocks; [done|done|]. rewrite Hle, lookup_app_r by lia.
      replace (Z.to_nat (size / pl) - length ps)%nat with 0%nat by lia. cbn. by rewrite Hlast.
    + cbn. rewrite Hle, (length_blocks 20) by (apply Forall_fmap, Forall_forall; intros; apply Hsha).
      rewrite length_fmap, length_app. cbn. pose proof (div_ceil_spec size pl (proj1 Hpl)).
      pose proof (Z.mod_pos_bound size pl (proj1 Hpl)). pose proof (Z.div_mod size pl ltac:(lia)).
      assert (div_ceil size pl = size / pl + 1); [|lia]. symmetry. apply div_ceil_unique; nia.
Qed.

(** A stand-in for SHA-1, and reads that return all they can. *)
Definition toy_sha1 (b : bytes) : bytes := to_be_bytes 20 (from_be_bytes b).

Definition full_read (fd : bytes) (max : nat) : option nat := Some (Nat.min max (length fd)).

Lemma full_read_ok : reader_ok full_read.
Proof.
  intros fd max. exists (Nat.min max (length fd)). split_and!; [done|lia|lia|]. intros. destruct fd; cbn in *; [by right|].
  left. lia.
Qed.

Definition toy_input (fs : list (list bytes * bytes)) : InputPath := mkInputPath true (Some (Some [120])) true (input_of <$> fs).

Definition toy_options : CreateTorrentOptions := mkCreateOptions None [] (Some 4).

Lemma create_torrent_correct_witness :
  let fs := [([[97]], [1; 2; 3]); ([[98]], [4; 5; 6])] in
  exists t b,
    create_torrent toy_sha1 full_read (toy_input fs) toy_options = XOk t
    /\ as_bytes t = XOk b /\ torrent_from_bytes (H := atoi_ref) toy_sha1 b = XOk t
    /\ length (mi_pieces (rb_data (tm_info t))) = 40%nat.
Proof.
  intros fs.
  assert (create_input (toy_input fs) toy_options [120] fs 4) as Hin.
  { constructor; try done; try (repeat constructor; done). }
  destruct (create_torrent_correct (H := atoi_ref) toy_sha1 full_read (toy_input fs) toy_options [120] fs 4
    (fun b => length_to_be_bytes 20 _) full_read_ok Hin) as (t & b & Hc & Hb & Hr & _ & _ & Hlast).
  exists t, b. split_and!; [done..|]. destruct (Hlast ltac:(done) eq_refl) as [_ Hl]. change (div_ceil _ _) with 2 in Hl. lia.
Defined.

(** Data that ends at a piece boundary gets a hash of nothing behind its last
    piece. *)
Lemma create_torrent_extra_hash :
  exists t, create_torrent toy_sha1 full_read (toy_input [([[97]], [1; 2; 3; 4])]) toy_options = XOk t
    /\ mi_pieces (rb_data (tm_info t)) = toy_sha1 [1; 2; 3; 4] ++ toy_sha1 [].
Proof. eexists. split; vm_compute; reflexivity. Qed.

(** When the last file is empty the last piece has no hash. *)
Lemma create_torrent_missing_hash :
  exists t, create_torrent toy_sha1 full_read (toy_input [([[97]], [1; 2; 3]); ([[98]], [])]) toy_options = XOk t
    /\ mi_pieces (rb_data (tm_info t)) = [] /\ get_hash (rb_data (tm_info t)) 0 = None.
Proof. eexists. split; [|split]; vm_compute; reflexivity. Qed.
