(* ===== verification/MetadataExchange.v ===== *)
(** * Metadata exchange ([librqbit::peer_info_reader], [send_metadata_piece])

    How the [info] dictionary of a magnet link is fetched from a peer: the reader
    is a [PeerConnectionHandler] that asks for every 16 KiB piece, puts the
    pieces together and checks the info hash; the server side is
    [send_metadata_piece] of a live torrent. *)

From stdpp Require Import base tactics option list list_numbers numbers decidable sets.
From Stdlib Require Import ZArith Lia.
From S2P Require Import Prelude Lengths Net DoubleBuf Message CompactIp Bencode BencodeTypes Extended PeerConnection Metainfo TorrentFile.
Open Scope Z_scope.

Record HandlerLocked := mkLocked {
  hl_metadata_size : Z;
  hl_total_pieces : Z;
  hl_buffer : bytes;
  hl_received_pieces : list bool
}.

Inductive ReaderError :=
| MetadataTooBig (metadata_size : Z)
| TryFromInt
| WrongIndex
| WrongPieceLength (piece expected got : Z)
| AlreadyReceived (piece : Z)
| InfoChecksumInvalid
| NoExtendedSupport
| NoMetadataSize
| NoUtMetadata
| ChannelClosed
| OneshotConsumed
| ConsumerClosed
| UnexpectedReadChunk.

Definition MAX_METADATA_SIZE : Z := 32 * 1024 * 1024.

Definition HandlerLocked_new (metadata_size : Z) : result ReaderError HandlerLocked :=
  if MAX_METADATA_SIZE <? metadata_size then Err (MetadataTooBig metadata_size)
  else
    let buffer := replicate (Z.to_nat metadata_size) 0 in
    match try_into 64 (div_ceil metadata_size CHUNK_SIZE) with
    | None => Err TryFromInt
    | Some total_pieces =>
      Ok (mkLocked metadata_size total_pieces buffer (replicate (Z.to_nat total_pieces) false))
    end.

Definition piece_size (h : HandlerLocked) (index : Z) : Z :=
  if index =? u64 (hl_total_pieces h - 1) then last_element_size (hl_metadata_size h) CHUNK_SIZE
  else CHUNK_SIZE.

(** [d.copy_to_slice(&mut buffer[a..b])]. *)
Definition copy_to_slice (d : UtMetadataData) (buffer : bytes) (a b : nat) : outcome bytes :=
  match slice_get buffer a b with
  | None => Panic
  | Some out =>
    let d0 := ud_data_0 d in let d1 := ud_data_1 d in
    if (length d0 <=? length out)%nat && (length d1 <=? length out - length d0)%nat then
      Ret (take a buffer ++ (d0 ++ d1 ++ drop (length d0 + length d1) out) ++ drop b buffer)
    else Panic
  end.

Section Reader.
Context `{Atoi} `{!AtoiSpec} `{DictIter} (sha1 : bytes -> bytes).

Definition record_piece (d : UtMetadataData) (info_hash : bytes) : io HandlerLocked ReaderError bool := fun h =>
  let piece := ud_piece d in
  if hl_total_pieces h <=? piece then (h, XErr WrongIndex)
  else
    let offset := u32 (piece * CHUNK_SIZE) in
    let size := piece_size h piece in
    let len := Z.of_nat (ud_len d) in
    if negb (len =? size) then (h, XErr (WrongPieceLength piece size len))
    else
      match hl_received_pieces h !! Z.to_nat piece with
      | None => (h, XPanic)
      | Some true => (h, XErr (AlreadyReceived piece))
      | Some false =>
        match copy_to_slice d (hl_buffer h) (Z.to_nat offset) (Z.to_nat offset + ud_len d) with
        | Panic => (h, XPanic)
        | Ret buffer =>
          let h := mkLocked (hl_metadata_size h) (hl_total_pieces h) buffer
                     (<[Z.to_nat piece := true]> (hl_received_pieces h)) in
          if forallb id (hl_received_pieces h) then
            if negb (bool_decide (sha1 (hl_buffer h) = info_hash)) then (h, XErr InfoChecksumInvalid)
            else (h, XOk true)
          else (h, XOk false)
        end
      end.

(** What [read_metainfo_from_peer] waits for: the parsed info and its bytes, or
    why it does not parse. *)
Definition InfoResult : Type := exec DeError (TorrentMetaV1Info * bytes).

Record Handler := mkHandler {
  ha_info_hash : bytes;
  ha_client_name_and_version : bytes;
  ha_locked : option HandlerLocked;
  ha_result_tx : bool;
  ha_result : option InfoResult;
  ha_writer : list WriterRequest;
  ha_writer_open : bool;
  ha_consumer_open : bool
}.

Definition Handler_new (info_hash client_name_and_version : bytes) : Handler :=
  mkHandler info_hash client_name_and_version None true None [] true true.

Definition set_locked (l : option HandlerLocked) (h : Handler) : Handler :=
  mkHandler (ha_info_hash h) (ha_client_name_and_version h) l (ha_result_tx h) (ha_result h) (ha_writer h)
    (ha_writer_open h) (ha_consumer_open h).

(** [writer_tx.send(m)?]. *)
Definition send (m : WriterRequest) : io Handler ReaderError () := fun h =>
  if ha_writer_open h then
    (mkHandler (ha_info_hash h) (ha_client_name_and_version h) (ha_locked h) (ha_result_tx h) (ha_result h)
       (ha_writer h ++ [m]) (ha_writer_open h) (ha_consumer_open h), XOk ())
  else (h, XErr ChannelClosed).

(** [result_tx.lock().take().ok_or_else(..)?.send(info)]. *)
Definition send_result (r : InfoResult) : io Handler ReaderError () := fun h =>
  if negb (ha_result_tx h) then (h, XErr OneshotConsumed)
  else
    let sent := mkHandler (ha_info_hash h) (ha_client_name_and_version h) (ha_locked h) false in
    if ha_consumer_open h then (sent (Some r) (ha_writer h) (ha_writer_open h) (ha_consumer_open h), XOk ())
    else (sent (ha_result h) (ha_writer h) (ha_writer_open h) (ha_consumer_open h), XErr ConsumerClosed).

Definition reader_on_handshake (handshake : Handshake) (kind : ConnectionKind) : io Handler ReaderError () := fun h =>
  match supports_extended handshake with
  | Panic => (h, XPanic)
  | Ret false => (h, XErr NoExtendedSupport)
  | Ret true => (h, XOk ())
  end.

(** [for i in 0..total_pieces]: ask for each piece. *)
Fixpoint send_requests (indices : list Z) : io Handler ReaderError () :=
  match indices with
  | [] => mret ()
  | i :: indices =>
    i ← io_lift (match try_into 32 i with Some i => XOk i | None => XErr TryFromInt end);
    _ ← send (WMessage (@MExtended ext_codec (ExtUtMetadata (UtRequest i))));
    send_requests indices
  end.

Definition reader_on_extended_handshake (hs : ExtendedHandshake) : io Handler ReaderError () :=
  match hs_metadata_size hs with
  | None => io_lift (XErr NoMetadataSize)
  | Some metadata_size =>
    match ids_ut_metadata (hs_m hs) with
    | None => io_lift (XErr NoUtMetadata)
    | Some _ =>
      _ ← send (WMessage MUnchoke);
      _ ← send (WMessage MInterested);
      inner ← io_lift (exec_of_result (HandlerLocked_new metadata_size));
      let total_pieces := hl_total_pieces inner in
      _ ← io_modify (set_locked (Some inner));
      send_requests (seqZ 0 total_pieces)
    end
  end.

(** [locked.write().as_mut().unwrap()]. *)
Definition with_locked {A} (m : io HandlerLocked ReaderError A) : io Handler ReaderError A := fun h =>
  match ha_locked h with
  | None => (h, XPanic)
  | Some l => let '(l, r) := m l in (set_locked (Some l) h, r)
  end.

Definition take_locked : io Handler ReaderError HandlerLocked := fun h =>
  match ha_locked h with
  | None => (h, XPanic)
  | Some l => (set_locked None h, XOk l)
  end.

Definition parse_info (buf : bytes) : InfoResult :=
  exec_map_err fst (v ← from_bytes info_shape buf; XOk (info_of v, buf)).

Definition reader_on_received_message (msg : Message) : io Handler ReaderError () :=
  match msg with
  | MExtended (ExtUtMetadata (UtData utdata)) =>
    piece_ready ← (fun h => with_locked (record_piece utdata (ha_info_hash h)) h);
    if (piece_ready : bool) then
      l ← take_locked;
      send_result (parse_info (hl_buffer l))
    else mret ()
  | _ => mret ()
  end.

#[export] Instance reader_handler : PeerConnectionHandler Handler ReaderError := {|
  should_send_bitfield _ := false;
  serialize_bitfield_message_to_buf _ buf := XOk (buf, O);
  on_handshake := reader_on_handshake;
  on_extended_handshake := reader_on_extended_handshake;
  on_received_message := reader_on_received_message;
  should_transmit_have _ _ := false;
  on_uploaded_bytes _ h := h;
  read_chunk _ _ := XErr UnexpectedReadChunk;
  update_my_extended_handshake _ hs := XOk hs;
  client_name_and_version := ha_client_name_and_version
|}.
End Reader.

(** ** The server *)

Inductive ServeError :=
| NoMetadata
| PieceOutOfBounds
| LengthDoesNotFit.

(** [send_metadata_piece]: the message that is queued for the peer. *)
Definition send_metadata_piece (info_bytes : bytes) (piece_id : Z) : exec ServeError UtMetadata :=
  let metadata_size := Z.of_nat (length info_bytes) in
  if metadata_size =? 0 then XErr NoMetadata
  else
    match try_into 64 (div_ceil metadata_size CHUNK_SIZE) with
    | None => XErr LengthDoesNotFit
    | Some total_pieces =>
      if total_pieces <? piece_id then XErr PieceOutOfBounds
      else
        let offset := u32 (piece_id * CHUNK_SIZE) in
        match try_into 32 metadata_size with
        | None => XErr LengthDoesNotFit
        | Some total_size =>
          let end_ := Z.min (u32 (offset + CHUNK_SIZE)) total_size in
          match slice_get info_bytes (Z.to_nat offset) (Z.to_nat end_) with
          | None => XPanic
          | Some data => XOk (UtData (UtMetadataData_from_bytes piece_id total_size data))
          end
        end
    end.

(** ** The buffer *)

Record locked_ok (l : HandlerLocked) : Prop := {
  lo_size : 0 <= hl_metadata_size l <= MAX_METADATA_SIZE;
  lo_total : hl_total_pieces l = div_ceil (hl_metadata_size l) CHUNK_SIZE;
  lo_buffer : Z.of_nat (length (hl_buffer l)) = hl_metadata_size l;
  lo_received : Z.of_nat (length (hl_received_pieces l)) = hl_total_pieces l
}.

(** The bytes of the pieces that were received are those of [m]. *)
Definition filled (m : bytes) (l : HandlerLocked) : Prop :=
  forall k, (k < length (hl_buffer l))%nat -> hl_received_pieces l !! (k / Z.to_nat CHUNK_SIZE)%nat = Some true ->
    hl_buffer l !! k = m !! k.

(** How long piece [i] of a buffer of [size] bytes is. *)
Definition expected_size (size i : Z) : Z := Z.min (size - i * CHUNK_SIZE) CHUNK_SIZE.

Lemma total_bounds size : 0 <= size <= MAX_METADATA_SIZE -> 0 <= div_ceil size CHUNK_SIZE <= 2048.
Proof.
  unfold MAX_METADATA_SIZE, CHUNK_SIZE. intros Hs. pose proof (div_ceil_spec size 16384 ltac:(lia)). lia.
Qed.

Lemma piece_size_spec l i :
  locked_ok l -> 0 <= i < hl_total_pieces l ->
  piece_size l i = expected_size (hl_metadata_size l) i /\ 0 < expected_size (hl_metadata_size l) i
  /\ i * CHUNK_SIZE + expected_size (hl_metadata_size l) i <= hl_metadata_size l /\ i < 2048.
Proof.
  intros [Hs Ht _ _] Hi. pose proof (total_bounds _ Hs) as Hb. unfold piece_size, expected_size.
  rewrite Ht in *. rewrite wrap_id by (unfold is_uint; lia). unfold CHUNK_SIZE in *.
  pose proof (div_ceil_spec (hl_metadata_size l) 16384 ltac:(lia)).
  destruct (last_element_size_spec (hl_metadata_size l) 16384) as [Hl _]; [lia|lia|].
  destruct (Z.eqb_spec i (div_ceil (hl_metadata_size l) 16384 - 1)); lia.
Qed.

Lemma HandlerLocked_new_spec size :
  0 <= size ->
  match HandlerLocked_new size with
  | Ok l => locked_ok l /\ hl_metadata_size l = size /\ (forall i b, hl_received_pieces l !! i = Some b -> b = false)
  | Err _ => MAX_METADATA_SIZE < size
  end.
Proof.
  intros Hs. unfold HandlerLocked_new. destruct (Z.ltb_spec MAX_METADATA_SIZE size); [done|].
  pose proof (total_bounds size ltac:(lia)). rewrite try_into_small by (unfold is_uint; lia).
  split; [|split; [done|]].
  - constructor; cbn; rewrite ?length_replicate; lia.
  - cbn. intros i b Hb. by apply lookup_replicate in Hb as [-> _].
Qed.

Lemma copy_to_slice_spec d buffer a b :
  (a + ud_len d = b)%nat -> (b <= length buffer)%nat ->
  copy_to_slice d buffer a b = Ret (take a buffer ++ ud_bytes d ++ drop b buffer).
Proof.
  intros Hab Hb. unfold copy_to_slice.
  rewrite (proj2 (slice_get_Some buffer (take (b - a) (drop a buffer)) a b)) by (split; [lia|done]).
  unfold ud_len in Hab. rewrite length_take, length_drop.
  rewrite (proj2 (Nat.leb_le _ _)), (proj2 (Nat.leb_le _ _)) by lia. cbn [andb].
  rewrite (drop_ge (take _ _)) by (rewrite length_take, length_drop; lia). rewrite app_nil_r. done.
Qed.

Lemma lookup_spliced (buffer data : bytes) a b k :
  (a <= b)%nat -> (b <= length buffer)%nat -> length data = (b - a)%nat ->
  (take a buffer ++ data ++ drop b buffer) !! k
  = if decide (a <= k < b)%nat then data !! (k - a)%nat else buffer !! k.
Proof.
  intros Hab Hb Hd. destruct (decide _) as [Hk|Hk].
  - rewrite lookup_app_r by (rewrite length_take; lia). rewrite length_take, lookup_app_l by lia. f_equal. lia.
  - destruct (decide (k < a)%nat).
    + rewrite lookup_app_l by (rewrite length_take; lia). by rewrite lookup_take_lt by lia.
    + rewrite !lookup_app_r; rewrite ?length_take; try lia. rewrite Hd, lookup_drop. f_equal. lia.
Qed.

Lemma not_yet_all l i : l !! i = Some false -> forallb id l = false.
Proof. revert i. induction l as [|[] l IH]; intros [|i] Hi; try done. cbn. by apply (IH i). Qed.

Lemma forallb_lookup l i b : forallb id l = true -> l !! i = Some b -> b = true.
Proof. intros Hl Hi. destruct b; [done|]. by rewrite (not_yet_all l i Hi) in Hl. Qed.

(** A buffer all of whose pieces came from [m] is [m]. *)
Lemma filled_all m l :
  locked_ok l -> filled m l -> Z.of_nat (length m) = hl_metadata_size l ->
  forallb id (hl_received_pieces l) = true -> hl_buffer l = m.
Proof.
  intros Hl Hf Hm Hall. apply list_eq. intros k. destruct (decide (k < length m)%nat) as [Hk|Hk].
  - destruct Hl as [Hs Ht Hb Hr].
    destruct (lookup_lt_is_Some_2 (hl_received_pieces l) (k / Z.to_nat CHUNK_SIZE)) as [b Hkb].
    { apply Nat2Z.inj_lt. rewrite Hr, Ht, Nat2Z.inj_div. unfold CHUNK_SIZE.
      pose proof (div_ceil_spec (hl_metadata_size l) 16384 ltac:(lia)). apply Z.div_lt_upper_bound; lia. }
    apply Hf; [lia|]. rewrite Hkb. f_equal. by eapply forallb_lookup.
  - rewrite !lookup_ge_None_2; [done|lia|]. destruct Hl. lia.
Qed.

Section Record.
Context (sha1 : bytes -> bytes).

(** The state after a piece was taken. *)
Definition with_piece (d : UtMetadataData) (l : HandlerLocked) : HandlerLocked :=
  let a := Z.to_nat (ud_piece d * CHUNK_SIZE) in
  mkLocked (hl_metadata_size l) (hl_total_pieces l)
    (take a (hl_buffer l) ++ ud_bytes d ++ drop (a + ud_len d) (hl_buffer l))
    (<[Z.to_nat (ud_piece d) := true]> (hl_received_pieces l)).

(** A piece that is expected. *)
Definition wanted (d : UtMetadataData) (l : HandlerLocked) : Prop :=
  0 <= ud_piece d < hl_total_pieces l
  /\ Z.of_nat (ud_len d) = expected_size (hl_metadata_size l) (ud_piece d)
  /\ hl_received_pieces l !! Z.to_nat (ud_piece d) = Some false.

Lemma record_piece_spec d ih l :
  locked_ok l -> is_u32 (ud_piece d) ->
  (wanted d l
   /\ record_piece sha1 d ih l
      = (with_piece d l,
         if forallb id (hl_received_pieces (with_piece d l)) then
           if bool_decide (sha1 (hl_buffer (with_piece d l)) = ih) then XOk true else XErr InfoChecksumInvalid
         else XOk false))
  \/ (~ wanted d l /\ exists e, record_piece sha1 d ih l = (l, XErr e)).
Proof.
  intros Hl Hd. unfold record_piece. destruct (Z.leb_spec (hl_total_pieces l) (ud_piece d)) as [Hp|Hp].
  { right. split; [intros (? & _); lia|by eexists]. }
  unfold is_uint in Hd. destruct (piece_size_spec l (ud_piece d) Hl ltac:(lia)) as (Hps & Hpos & Hfit & Hsmall).
  rewrite Hps. destruct (Z.eqb_spec (Z.of_nat (ud_len d)) (expected_size (hl_metadata_size l) (ud_piece d))) as [Hlen|Hlen];
    cbn [negb]; [|right; split; [by intros (_ & ? & _)|by eexists]].
  destruct (lookup_lt_is_Some_2 (hl_received_pieces l) (Z.to_nat (ud_piece d))) as [b Hb].
  { destruct Hl. lia. }
  rewrite Hb. destruct b; [right; split; [intros (_ & _ & ?); congruence|by eexists]|]. left. split; [by split_and!; try lia|].
  assert (u32 (ud_piece d * CHUNK_SIZE) = ud_piece d * CHUNK_SIZE) as ->.
  { apply wrap_id. unfold is_uint, CHUNK_SIZE. lia. }
  rewrite copy_to_slice_spec; [|done|destruct Hl; unfold CHUNK_SIZE in *; lia].
  cbn zeta beta. fold (with_piece d l). unfold with_piece. cbn [hl_received_pieces hl_buffer].
  destruct (forallb _ _); [|done]. by destruct (bool_decide _).
Qed.

Lemma with_piece_ok d l : locked_ok l -> wanted d l -> locked_ok (with_piece d l).
Proof.
  intros Hl (Hi & Hlen & Hr). destruct (piece_size_spec l (ud_piece d) Hl Hi) as (_ & Hpos & Hfit & _).
  destruct Hl as [Hs Ht Hb Hrec]. constructor; cbn [with_piece hl_metadata_size hl_total_pieces hl_buffer hl_received_pieces].
  - done.
  - done.
  - unfold ud_len, ud_bytes in *. rewrite !length_app, length_take, length_drop. unfold CHUNK_SIZE in *. lia.
  - by rewrite length_insert.
Qed.

Lemma with_piece_filled m d l :
  locked_ok l -> wanted d l -> filled m l ->
  (forall j, (j < ud_len d)%nat -> ud_bytes d !! j = m !! (Z.to_nat (ud_piece d * CHUNK_SIZE) + j)%nat) ->
  filled m (with_piece d l).
Proof.
  intros Hl Hw Hf Hm k Hkb Hk. pose proof Hw as (Hi & Hlen & Hr).
  destruct (piece_size_spec l (ud_piece d) Hl Hi) as (_ & Hpos & Hfit & _).
  cbn [with_piece hl_buffer hl_received_pieces] in *.
  assert (length (ud_bytes d) = ud_len d) as Hub by (unfold ud_bytes, ud_len; by rewrite length_app).
  destruct Hl as [Hs Ht Hb Hrec].
  rewrite lookup_spliced by (unfold CHUNK_SIZE in *; lia).
  destruct (decide _) as [Hin|Hout].
  - rewrite Hm by lia. f_equal. lia.
  - assert (k < length (hl_buffer l))%nat as Hkl.
    { revert Hkb. rewrite !length_app, length_take, length_drop, Hub. unfold CHUNK_SIZE in *. lia. }
    apply Hf; [done|]. destruct (decide (k / Z.to_nat CHUNK_SIZE = Z.to_nat (ud_piece d))%nat) as [E|E].
    + exfalso. apply Hout. apply (f_equal Z.of_nat) in E. rewrite Nat2Z.inj_div, !Z2Nat.id in E by (unfold CHUNK_SIZE; lia).
      unfold expected_size, CHUNK_SIZE in *.
      pose proof (Z.div_mod (Z.of_nat k) 16384 ltac:(lia)). pose proof (Z.mod_pos_bound (Z.of_nat k) 16384 ltac:(lia)). lia.
    + by rewrite list_lookup_insert_ne in Hk.
Qed.
End Record.

(** ** The server's replies *)

Lemma send_metadata_piece_valid m i :
  Z.of_nat (length m) + CHUNK_SIZE < 2 ^ 32 -> 0 <= i < div_ceil (Z.of_nat (length m)) CHUNK_SIZE ->
  send_metadata_piece m i
  = XOk (UtData (UtMetadataData_from_bytes i (Z.of_nat (length m)) (piece_bytes CHUNK_SIZE m i)))
  /\ Z.of_nat (length (piece_bytes CHUNK_SIZE m i)) = expected_size (Z.of_nat (length m)) i
  /\ i * CHUNK_SIZE < Z.of_nat (length m).
Proof.
  unfold CHUNK_SIZE. intros Hm Hi. set (size := Z.of_nat (length m)) in *.
  pose proof (div_ceil_spec size 16384 ltac:(lia)) as Hd.
  assert (div_ceil size 16384 <= size) by (apply div_ceil_le; lia).
  unfold send_metadata_piece. fold size. unfold CHUNK_SIZE.
  destruct (Z.eqb_spec size 0); [lia|]. rewrite try_into_small by (unfold is_uint; lia).
  destruct (Z.ltb_spec (div_ceil size 16384) i); [lia|].
  rewrite (try_into_small 32), !wrap_id by (unfold is_uint; rewrite ?wrap_id; unfold is_uint; lia).
  assert (piece_bytes 16384 m i = take (Z.to_nat (Z.min (i * 16384 + 16384) size) - Z.to_nat (i * 16384)) (drop (Z.to_nat (i * 16384)) m)) as Hp.
  { unfold piece_bytes. rewrite Z2Nat.inj_mul by lia.
    set (off := (Z.to_nat i * Z.to_nat 16384)%nat). assert (Z.of_nat off = i * 16384) by lia.
    destruct (Z.min_spec (i * 16384 + 16384) size) as [[? ->]|[? ->]]; [f_equal; lia|].
    rewrite !take_ge; [done|rewrite length_drop; lia..]. }
  rewrite (proj2 (slice_get_Some m (piece_bytes 16384 m i) _ _)) by (split; [lia|done]).
  split; [done|]. rewrite Hp, length_take, length_drop. unfold expected_size, CHUNK_SIZE. lia.
Qed.

Lemma piece_bytes_lookup pl m i j :
  0 <= i -> 0 < pl -> (j < length (piece_bytes pl m i))%nat -> piece_bytes pl m i !! j = m !! (Z.to_nat (i * pl) + j)%nat.
Proof.
  unfold piece_bytes. intros Hi Hpl Hj. rewrite length_take in Hj. rewrite lookup_take_lt, lookup_drop by lia.
  f_equal. rewrite Z2Nat.inj_mul; lia.
Qed.

(** ** Runs of the reader *)

Section Runs.
Context `{Atoi} `{!AtoiSpec} `{DictIter} (sha1 : bytes -> bytes).

Definition data_message (d : UtMetadataData) : Message := @MExtended ext_codec (ExtUtMetadata (UtData d)).

Lemma on_data h l d l' r :
  ha_locked h = Some l -> record_piece sha1 d (ha_info_hash h) l = (l', r) ->
  reader_on_received_message sha1 (data_message d) h
  = match r with
    | XOk true => send_result (parse_info (hl_buffer l')) (set_locked None h)
    | XOk false => (set_locked (Some l') h, XOk ())
    | XErr e => (set_locked (Some l') h, XErr e)
    | XPanic => (set_locked (Some l') h, XPanic)
    end.
Proof.
  intros Hl Hr. unfold reader_on_received_message, data_message, with_locked, mbind, io_bind. rewrite Hl, Hr.
  by destruct r as [[]|e|].
Qed.

(** The replies of [m] to the requests [ps], with the data cut in two anywhere. *)
Definition replies (m : bytes) (ps : list Z) (ds : list UtMetadataData) : Prop :=
  Forall2 (fun i d => exists u, send_metadata_piece m i = XOk u /\ ut_equiv u (UtData d)) ps ds.

(** Waiting for the pieces [ps] of [m]. *)
Record waiting (m : bytes) (ps : list Z) (l : HandlerLocked) : Prop := {
  wa_ok : locked_ok l;
  wa_filled : filled m l;
  wa_size : hl_metadata_size l = Z.of_nat (length m);
  wa_pieces : forall k, 0 <= k < hl_total_pieces l -> hl_received_pieces l !! Z.to_nat k = Some (bool_decide (k ∉ ps))
}.

Lemma ud_bytes_from p t data : ud_bytes (UtMetadataData_from_bytes p t data) = data.
Proof. apply app_nil_r. Qed.

(** What a reply carries. *)
Lemma reply_data m i d u :
  Z.of_nat (length m) <= MAX_METADATA_SIZE -> 0 <= i < div_ceil (Z.of_nat (length m)) CHUNK_SIZE ->
  send_metadata_piece m i = XOk u -> ut_equiv u (UtData d) ->
  ud_piece d = i /\ ud_bytes d = piece_bytes CHUNK_SIZE m i
  /\ ud_len d = length (piece_bytes CHUNK_SIZE m i)
  /\ Z.of_nat (ud_len d) = expected_size (Z.of_nat (length m)) i.
Proof.
  intros Hm Hi Hu He.
  destruct (send_metadata_piece_valid m i) as (Hu' & Hlen & _); [|done|].
  { unfold MAX_METADATA_SIZE in Hm. unfold CHUNK_SIZE. lia. }
  rewrite Hu in Hu'. injection Hu' as ->. destruct He as (Hpc & _ & Hby).
  rewrite ud_bytes_from in Hby.
  assert (ud_len d = length (piece_bytes CHUNK_SIZE m i)) as Hud.
  { rewrite Hby. unfold ud_bytes, ud_len. by rewrite length_app. }
  split_and!; [done|done|done|by rewrite Hud].
Qed.

Lemma reply_wanted m i ps l d u :
  waiting m (i :: ps) l -> i ∉ ps -> 0 <= i < hl_total_pieces l ->
  send_metadata_piece m i = XOk u -> ut_equiv u (UtData d) ->
  ud_piece d = i /\ wanted d l /\ waiting m ps (with_piece d l).
Proof.
  intros [Hok Hf Hs Hp] Hni Hi Hu He.
  destruct (reply_data m i d u) as (Hpc & Hby & Hud & Hlen);
    [rewrite <- Hs; by apply Hok|rewrite <- Hs, <- (lo_total _ Hok); done|done|done|].
  assert (wanted d l) as Hw.
  { unfold wanted. rewrite Hpc, Hlen, Hs. split_and!; [lia|lia|done|]. rewrite Hp by lia. f_equal.
    apply bool_decide_eq_false_2. intros Hn. apply Hn. left. }
  split; [done|]. split; [done|]. constructor; [by apply with_piece_ok| |done|].
  - apply with_piece_filled; [done..|]. intros j Hj. rewrite Hby, Hpc. apply piece_bytes_lookup; [lia|done|lia].
  - intros k Hk. cbn [with_piece hl_received_pieces hl_total_pieces] in *. rewrite Hpc.
    destruct (decide (k = i)) as [->|Hki].
    + rewrite list_lookup_insert_eq by (destruct Hok; lia). by rewrite bool_decide_eq_true_2.
    + rewrite list_lookup_insert_ne by lia. rewrite Hp by done. f_equal. apply bool_decide_ext.
      rewrite not_elem_of_cons. tauto.
Qed.

Lemma all_received m ps l :
  waiting m ps l -> Forall (fun i => 0 <= i < hl_total_pieces l) ps ->
  forallb id (hl_received_pieces l) = bool_decide (ps = []).
Proof.
  intros [Hok _ _ Hp] Hps. destruct ps as [|i ps].
  - rewrite bool_decide_eq_true_2 by done. apply Is_true_true, forallb_True, Forall_forall. intros b Hb.
    apply list_elem_of_lookup in Hb as [k Hk]. pose proof (lookup_lt_Some _ _ _ Hk) as Hlt.
    specialize (Hp (Z.of_nat k)). rewrite Nat2Z.id, Hk in Hp. destruct Hok.
    specialize (Hp ltac:(lia)). injection Hp as Hp. by rewrite Hp.
  - rewrite bool_decide_eq_false_2 by done. apply Forall_cons in Hps as [Hi _]. apply (not_yet_all _ (Z.to_nat i)).
    rewrite Hp by done. f_equal. apply bool_decide_eq_false_2. intros Hn. apply Hn. left.
Qed.

(** The handler reads the messages one by one. *)
Fixpoint run_handler (ms : list Message) (h : Handler) : Handler * exec ReaderError () :=
  match ms with
  | [] => (h, XOk ())
  | m :: ms =>
    match reader_on_received_message sha1 m h with
    | (h, XOk _) => run_handler ms h
    | (h, r) => (h, r)
    end
  end.

Lemma replies_complete m ps : forall ds h l,
  replies m ps ds -> ps <> [] -> NoDup ps -> Forall (fun i => 0 <= i < hl_total_pieces l) ps ->
  ha_locked h = Some l -> waiting m ps l -> sha1 m = ha_info_hash h -> ha_result_tx h = true -> ha_consumer_open h = true ->
  exists h', run_handler (data_message <$> ds) h = (h', XOk ())
    /\ ha_result h' = Some (parse_info m) /\ ha_locked h' = None /\ ha_writer h' = ha_writer h.
Proof.
  induction ps as [|i ps IH]; intros ds h l Hr Hne Hnd Hps Hl Hw Hsha Htx Hop; [done|].
  apply Forall2_cons_inv_l in Hr as (d & ds' & (u & Hu & He) & Hr & ->).
  apply NoDup_cons in Hnd as [Hni Hnd]. apply Forall_cons in Hps as [Hi Hps].
  destruct (reply_wanted m i ps l d u Hw Hni Hi Hu He) as (Hd & Hwant & Hw').
  pose proof (total_bounds _ (lo_size _ (wa_ok _ _ _ Hw))) as Hb. rewrite <- (lo_total _ (wa_ok _ _ _ Hw)) in Hb.
  destruct (record_piece_spec sha1 d (ha_info_hash h) l) as [(_ & Hrec)|(Hn & _)];
    [by destruct Hw|unfold is_uint; lia| |done].
  rewrite fmap_cons. cbn [run_handler]. rewrite (on_data h l d _ _ Hl Hrec).
  rewrite (all_received m ps (with_piece d l) Hw') by done.
  destruct ps as [|j ps].
  - apply Forall2_nil_inv_l in Hr as ->. rewrite bool_decide_eq_true_2 by done.
    assert (hl_buffer (with_piece d l) = m) as Hm.
    { apply filled_all; [by destruct Hw'..|by symmetry; destruct Hw'|]. by rewrite (all_received m [] _ Hw'). }
    rewrite Hm, bool_decide_eq_true_2 by done. unfold send_result. cbn [set_locked ha_result_tx ha_consumer_open].
    rewrite Htx, Hop. cbn. by eexists.
  - rewrite bool_decide_eq_false_2 by done.
    destruct (IH ds' (set_locked (Some (with_piece d l)) h) (with_piece d l)) as (h' & ? & ? & ? & ?); try done.
    by exists h'.
Qed.

Definition request_for (i : Z) : WriterRequest := WMessage (@MExtended ext_codec (ExtUtMetadata (UtRequest i))).

Definition queue (rs : list WriterRequest) (h : Handler) : Handler :=
  mkHandler (ha_info_hash h) (ha_client_name_and_version h) (ha_locked h) (ha_result_tx h) (ha_result h)
    (ha_writer h ++ rs) (ha_writer_open h) (ha_consumer_open h).

Lemma send_requests_spec pieces : forall h,
  ha_writer_open h = true -> Forall is_u32 pieces -> send_requests pieces h = (queue (request_for <$> pieces) h, XOk ()).
Proof.
  induction pieces as [|i pieces IH]; intros h Ho Hi; cbn [send_requests fmap list_fmap].
  - destruct h. unfold queue. cbn. by rewrite app_nil_r.
  - apply Forall_cons in Hi as [Hi His]. unfold mbind, io_bind, io_lift. rewrite (try_into_small 32 i Hi).
    unfold send. rewrite Ho. fold (queue [request_for i] h). rewrite IH by done. f_equal. unfold queue. cbn.
    by rewrite <- app_assoc, Ho.
Qed.

Lemma on_extended_handshake_spec hs h size id :
  hs_metadata_size hs = Some size -> ids_ut_metadata (hs_m hs) = Some id -> 0 <= size <= MAX_METADATA_SIZE ->
  ha_writer_open h = true ->
  exists l, HandlerLocked_new size = Ok l
    /\ reader_on_extended_handshake hs h
       = (queue ([WMessage MUnchoke; WMessage MInterested] ++ (request_for <$> seqZ 0 (hl_total_pieces l)))
            (set_locked (Some l) h), XOk ()).
Proof.
  intros Hs Hid Hsz Ho. pose proof (HandlerLocked_new_spec size ltac:(lia)) as Hn.
  destruct (HandlerLocked_new size) as [l|] eqn:En; [|lia]. exists l. split; [done|].
  unfold reader_on_extended_handshake. rewrite Hs, Hid. unfold mbind, io_bind, send. rewrite Ho. cbn [ha_writer_open].
  unfold io_lift. rewrite En. cbn [exec_of_result io_modify].
  unfold io_modify. rewrite send_requests_spec.
  - unfold queue, set_locked. cbn. by rewrite <- !app_assoc, Ho.
  - done.
  - destruct Hn as [[Hsz' Ht _ _] _]. apply Forall_forall. intros i Hi%elem_of_seqZ.
    pose proof (total_bounds _ Hsz'). unfold is_uint. lia.
Qed.

(** The reader of the connection drives its handler. *)
Lemma reader_loop_data ds : forall c : PeerConnection (T := Handler),
  reader_loop (PeerConnectionHandler0 := reader_handler sha1) (data_message <$> ds) c
  = let '(h, r) := run_handler (data_message <$> ds) (pc_handler c) in (set_handler h c, exec_map_err Anyhow r).
Proof.
  induction ds as [|d ds IH]; intros c; [by destruct c|]. rewrite fmap_cons. cbn [reader_loop run_handler].
  unfold mbind, io_bind. cbn [reader_step data_message]. unfold on_handler. cbn [on_received_message reader_handler].
  fold (data_message d). destruct (reader_on_received_message sha1 (data_message d) (pc_handler c)) as [h [[]|e|]]; [|done..].
  rewrite IH. cbn [pc_handler set_handler]. by destruct (run_handler _ h).
Qed.

(** C17: fetching the metadata of a torrent from a peer that has it succeeds.
    When the peer's extended handshake announces the size of its info bytes
    [m], the reader asks for every piece once; the peer answers each request;
    and when the answers arrive, in any order and cut in two anywhere, the
    reader has delivered exactly [m] parsed as an info dictionary after the last
    of them, without an error or a panic on the way. *)
Theorem metadata_exchange_completes (m ih name : bytes) (hs : ExtendedHandshake) (id : Z) (ps : list Z)
    (ds : list UtMetadataData) (c : PeerConnection (T := Handler)) :
  0 < Z.of_nat (length m) <= MAX_METADATA_SIZE -> sha1 m = ih ->
  hs_metadata_size hs = Some (Z.of_nat (length m)) -> ids_ut_metadata (hs_m hs) = Some id ->
  pc_handler c = Handler_new ih name ->
  ps ≡ₚ seqZ 0 (div_ceil (Z.of_nat (length m)) CHUNK_SIZE) ->
  (forall i, i ∈ ps -> exists u, send_metadata_piece m i = XOk u)
  /\ (replies m ps ds ->
      exists c', reader_loop (PeerConnectionHandler0 := reader_handler sha1)
                   (@MExtended ext_codec (ExtHandshake hs) :: (data_message <$> ds)) c = (c', XOk ())
        /\ ha_result (pc_handler c') = Some (parse_info m)
        /\ ha_writer (pc_handler c')
           = [WMessage MUnchoke; WMessage MInterested]
             ++ (request_for <$> seqZ 0 (div_ceil (Z.of_nat (length m)) CHUNK_SIZE))).
Proof.
  intros Hm Hsha Hs Hid Hc Hps. pose proof (total_bounds (Z.of_nat (length m)) ltac:(lia)) as Htb.
  assert (forall i, i ∈ ps -> 0 <= i < div_ceil (Z.of_nat (length m)) CHUNK_SIZE) as Hin.
  { intros i Hi. rewrite Hps in Hi. apply elem_of_seqZ in Hi. lia. }
  split.
  { intros i Hi. eexists. apply send_metadata_piece_valid; [unfold MAX_METADATA_SIZE, CHUNK_SIZE in *; lia|by apply Hin]. }
  intros Hr. destruct (on_extended_handshake_spec hs (pc_handler c) (Z.of_nat (length m)) id) as (l & Hl & Hhs);
    [done|done|lia|by rewrite Hc|].
  pose proof (HandlerLocked_new_spec (Z.of_nat (length m)) ltac:(lia)) as Hn. rewrite Hl in Hn.
  destruct Hn as (Hok & Hsz & Hfresh). pose proof (lo_total _ Hok) as Ht. rewrite Hsz in Ht.
  match type of Hhs with _ = (?x, _) => set (h1 := x) in Hhs end.
  destruct (replies_complete m ps ds h1 l) as (h' & Hrun & Hres & _ & Hw).
  - done.
  - intros ->. apply (Permutation_length) in Hps. rewrite length_seqZ in Hps. cbn in Hps.
    pose proof (div_ceil_pos (Z.of_nat (length m)) CHUNK_SIZE ltac:(done) ltac:(lia)). lia.
  - rewrite Hps. apply NoDup_seqZ.
  - apply Forall_forall. intros i Hi. rewrite Ht. by apply Hin.
  - done.
  - constructor; [done| |done|].
    + intros k _ Hk. by apply Hfresh in Hk.
    + intros k Hk. destruct (lookup_lt_is_Some_2 (hl_received_pieces l) (Z.to_nat k)) as [b Hb]; [destruct Hok; lia|].
      rewrite Hb. apply Hfresh in Hb as ->. f_equal. symmetry. apply bool_decide_eq_false_2. intros Hn. apply Hn.
      rewrite Hps. apply elem_of_seqZ. lia.
  - subst h1. cbn. by rewrite Hc.
  - subst h1. cbn. by rewrite Hc.
  - subst h1. cbn. by rewrite Hc.
  - exists (set_handler h' (set_extended_handshake (hs_m hs) c)). split_and!.
    + cbn [reader_loop]. unfold mbind, io_bind. cbn [reader_step]. unfold mbind, io_bind, io_modify, on_handler.
      cbn [pc_handler set_extended_handshake on_extended_handshake reader_handler]. rewrite Hhs.
      rewrite reader_loop_data. cbn [pc_handler set_handler]. by rewrite Hrun.
    + done.
    + cbn [pc_handler set_handler]. rewrite Hw. subst h1. cbn [queue ha_writer set_locked]. by rewrite Hc, Ht.
Qed.
End Runs.

(** ** Any peer *)

Section Adversary.
Context `{Atoi} `{!AtoiSpec} `{DictIter} (sha1 : bytes -> bytes).

Abbreviation Conn := (PeerConnection (T := Handler)).
Abbreviation step := (reader_step (PeerConnectionHandler0 := reader_handler sha1)).

(** The messages the wire delivers: integers fit their width. *)
Definition wire_message (m : Message) : Prop :=
  match m with
  | MExtended (ExtUtMetadata (UtData d)) => is_u32 (ud_piece d)
  | MExtended (ExtHandshake hs) => opt_ok is_u32 (hs_metadata_size hs)
  | _ => True
  end.

(** The states of a connection for the info hash [ih], whatever the peer sends,
    as long as no message ends it. *)
Inductive reachable (ih : bytes) : Conn -> Prop :=
| reachable_start c name : pc_handler c = Handler_new ih name -> reachable ih c
| reachable_step c m c' : reachable ih c -> wire_message m -> step m c = (c', XOk ()) -> reachable ih c'.

Record reader_inv (ih : bytes) (h : Handler) : Prop := {
  ri_hash : ha_info_hash h = ih;
  ri_locked : forall l, ha_locked h = Some l -> locked_ok l;
  ri_result : forall r, ha_result h = Some r -> exists buf, r = parse_info buf /\ sha1 buf = ih
}.

Definition is_data (m : Message) : Prop := exists d, m = data_message d.

Lemma inv_set_locked ih h l : reader_inv ih h -> (forall l', l = Some l' -> locked_ok l') -> reader_inv ih (set_locked l h).
Proof. intros [Hh _ Hr] Hl. by constructor. Qed.

(** One message that the handler receives. *)
Lemma received_inv ih h m :
  reader_inv ih h -> wire_message m ->
  let '(h', r) := reader_on_received_message sha1 m h in
  reader_inv ih h' /\ (r = XPanic <-> is_data m /\ ha_locked h = None).
Proof.
  intros Hh Hm.
  assert ((exists d, m = data_message d) \/ (~ is_data m /\ reader_on_received_message sha1 m h = (h, XOk ()))) as [[d ->]|[Hn ->]].
  { destruct m as [| | | | | | | | | |[|[|d|]| |]]; try (right; split; [by intros [? [=]]|done]). left. by exists d. }
  2:{ split; [done|]. split; [done|]. by intros [? _]. }
  destruct (ha_locked h) as [l|] eqn:Hl.
  - pose proof (ri_locked _ _ Hh l Hl) as Hok.
    destruct (record_piece_spec sha1 d (ha_info_hash h) l Hok Hm) as [(Hw & Hr)|(_ & e & Hr)];
      rewrite (on_data sha1 h l d _ _ Hl Hr).
    + pose proof (with_piece_ok d l Hok Hw) as Hok'.
      destruct (forallb _ _); [case_bool_decide as Hsha|].
      * assert (exists c r w o op res, send_result (parse_info (hl_buffer (with_piece d l))) (set_locked None h)
            = (mkHandler (ha_info_hash h) c None r res w o op, if ha_result_tx h then if ha_consumer_open h then XOk () else XErr ConsumerClosed else XErr OneshotConsumed)
            /\ (res = ha_result h \/ res = Some (parse_info (hl_buffer (with_piece d l)))))
          as (c & r & w & o & op & res & -> & Hres).
        { unfold send_result. cbn. destruct (ha_result_tx h), (ha_consumer_open h); cbn; repeat eexists; by auto. }
        split; [|destruct (ha_result_tx h), (ha_consumer_open h); (split; [done|by intros [_ ?]])].
        destruct Hh as [Hhash _ Hold]. constructor; cbn; [done|done|].
        intros r' Hr'. destruct Hres as [->| ->]; [by apply Hold|]. injection Hr' as <-.
        exists (hl_buffer (with_piece d l)). split; [done|congruence].
      * split; [apply inv_set_locked; [done|by intros l' [= <-]]|split; [done|by intros [_ ?]]].
      * split; [apply inv_set_locked; [done|by intros l' [= <-]]|split; [done|by intros [_ ?]]].
    + split; [apply inv_set_locked; [done|by intros l' [= <-]]|split; [done|by intros [_ ?]]].
  - unfold reader_on_received_message, data_message, with_locked, mbind, io_bind. rewrite Hl.
    split; [done|]. split; [|done]. intros _. split; [by exists d|done].
Qed.

(** Steps that keep the invariant and do not panic. *)
Definition keeps {A} (ih : bytes) (m : io Handler ReaderError A) : Prop := forall h,
  reader_inv ih h -> reader_inv ih (m h).1 /\ (m h).2 <> XPanic.

Lemma keeps_bind {A B} ih (m : io Handler ReaderError A) (f : A -> io Handler ReaderError B) :
  keeps ih m -> (forall h a, (m h).2 = XOk a -> keeps ih (f a)) -> keeps ih (m ≫= f).
Proof.
  intros Hm Hf h Hh. destruct (Hm h Hh) as [Hi Hp]. unfold mbind, io_bind. specialize (Hf h).
  destruct (m h) as [h' [a|e|]]; cbn in *; [by apply (Hf a eq_refl)|done|done].
Qed.

Lemma keeps_lift {A} ih (r : exec ReaderError A) : r <> XPanic -> keeps ih (io_lift r).
Proof. intros Hr h Hh. done. Qed.

Lemma keeps_send ih m : keeps ih (send m).
Proof. intros h [Hh Hl Hr]. unfold send. by destruct (ha_writer_open h). Qed.

Lemma keeps_requests ih pieces : keeps ih (send_requests pieces).
Proof.
  induction pieces as [|i pieces IH]; cbn [send_requests]; [by intros h Hh|].
  apply keeps_bind; [apply keeps_lift; by destruct (try_into 32 i)|]. intros _ j _.
  by apply keeps_bind; [apply keeps_send|].
Qed.

Lemma extended_handshake_keeps ih hs : opt_ok is_u32 (hs_metadata_size hs) -> keeps ih (reader_on_extended_handshake hs).
Proof.
  intros Hs. unfold reader_on_extended_handshake. destruct (hs_metadata_size hs) as [size|]; [|by apply keeps_lift].
  destruct (ids_ut_metadata (hs_m hs)); [|by apply keeps_lift].
  pose proof (Hs size eq_refl) as Hu. pose proof (HandlerLocked_new_spec size (proj1 Hu)) as Hn.
  apply keeps_bind; [apply keeps_send|]. intros _ _ _. apply keeps_bind; [apply keeps_send|]. intros _ _ _.
  apply keeps_bind; [apply keeps_lift; by destruct (HandlerLocked_new size)|]. intros h l Hl. cbn in Hl.
  destruct (HandlerLocked_new size) as [l'|]; [|done]. injection Hl as ->. destruct Hn as [Hok _].
  apply keeps_bind; [|intros _ _ _; apply keeps_requests].
  intros h' Hh'. split; [|done]. apply inv_set_locked; [done|by intros l' [= <-]].
Qed.

Lemma step_inv ih c m :
  reader_inv ih (pc_handler c) -> wire_message m ->
  reader_inv ih (pc_handler (step m c).1)
  /\ ((step m c).2 = XPanic <-> is_data m /\ ha_locked (pc_handler c) = None).
Proof.
  intros Hi Hm.
  assert ((exists hs, m = @MExtended ext_codec (ExtHandshake hs))
    \/ (step m c = on_handler Anyhow (reader_on_received_message sha1 m) c)) as [[hs ->]| ->].
  { destruct m as [| | | | | | | | | |[hs| | |]]; by eauto. }
  - cbn [reader_step]. unfold mbind, io_bind, io_modify, on_handler.
    cbn [pc_handler set_extended_handshake on_extended_handshake reader_handler].
    destruct (extended_handshake_keeps ih hs Hm (pc_handler c) Hi) as [Hi' Hp].
    destruct (reader_on_extended_handshake hs (pc_handler c)) as [h' [[]|e|]]; cbn in *; try done;
      (split; [done|]; split; [done|]; by intros [[d [=]] _]).
  - unfold on_handler. pose proof (received_inv ih (pc_handler c) m Hi Hm) as Hr.
    destruct (reader_on_received_message sha1 m (pc_handler c)) as [h' [[]|e|]]; cbn; destruct Hr as [Hi' Hp];
      (split; [done|]); rewrite <- Hp; by split.
Qed.

Lemma reachable_inv ih c : reachable ih c -> reader_inv ih (pc_handler c).
Proof.
  induction 1 as [c name ->|c m c' _ IH Hm Hs]; [by constructor|].
  destruct (step_inv ih c m IH Hm) as [Hi _]. by rewrite Hs in Hi.
Qed.

(** Whatever messages a peer sends, in any order, the reader of metadata
    only ever delivers bytes whose SHA-1 is the info hash it was asked for; and a
    message makes it panic exactly when it is metadata data that arrives while
    no download is under way: before the peer's extended handshake, or after the
    metadata was complete. *)
Theorem metadata_reader_safe (ih : bytes) (c : Conn) (m : Message) :
  reachable ih c -> wire_message m ->
  (forall r, ha_result (pc_handler c) = Some r -> exists buf, r = parse_info buf /\ sha1 buf = ih)
  /\ ((step m c).2 = XPanic <-> is_data m /\ ha_locked (pc_handler c) = None).
Proof.
  intros Hr Hm. pose proof (reachable_inv ih c Hr) as Hi. split; [by destruct Hi|].
  exact (proj2 (step_inv ih c m Hi Hm)).
Qed.
End Adversary.

(** ** The server's bounds *)

(** The server of metadata answers every request for one of its pieces with
    the bytes of that piece, and refuses a piece beyond the one behind the last.
    The piece just behind the last is not refused: it is answered with an empty
    piece when the metadata fills its last piece, and otherwise the slice is out
    of bounds and the handler panics. *)
Theorem send_metadata_piece_bounds (m : bytes) (i : Z) :
  0 < Z.of_nat (length m) -> Z.of_nat (length m) + 2 * CHUNK_SIZE < 2 ^ 32 -> 0 <= i ->
  let size := Z.of_nat (length m) in
  let total := div_ceil size CHUNK_SIZE in
  send_metadata_piece m i
  = if i <? total then XOk (UtData (UtMetadataData_from_bytes i size (piece_bytes CHUNK_SIZE m i)))
    else if total <? i then XErr PieceOutOfBounds
    else if size mod CHUNK_SIZE =? 0 then XOk (UtData (UtMetadataData_from_bytes i size []))
    else XPanic.
Proof.
  intros Hpos Hsz Hi size total. destruct (Z.ltb_spec i total) as [Hlt|Hge].
  { apply send_metadata_piece_valid; [unfold CHUNK_SIZE in *; lia|done]. }
  unfold send_metadata_piece. fold size. destruct (Z.eqb_spec size 0); [lia|].
  pose proof (div_ceil_spec size CHUNK_SIZE ltac:(done)) as Hd. fold total in Hd.
  assert (total <= size) by (apply div_ceil_le; [done|lia]).
  rewrite try_into_small by (unfold is_uint, CHUNK_SIZE in *; lia). fold total.
  destruct (Z.ltb_spec total i); [done|]. assert (i = total) as -> by lia. unfold CHUNK_SIZE in *.
  rewrite (try_into_small 32) by (unfold is_uint; lia). rewrite !wrap_id by (unfold is_uint; rewrite ?wrap_id; unfold is_uint; lia).
  pose proof (Z.div_mod size 16384 ltac:(lia)). pose proof (Z.mod_pos_bound size 16384 ltac:(lia)).
  rewrite Z.min_r by lia. destruct (Z.eqb_spec (size mod 16384) 0) as [Hz|Hz].
  - assert (total * 16384 = size) as -> by lia.
    rewrite (proj2 (slice_get_Some m [] _ _)); [done|]. split; [lia|]. by rewrite Nat.sub_diag.
  - unfold slice_get. rewrite (proj2 (Nat.leb_gt _ _)) by lia. done.
Qed.

(** ** Witnesses *)

Section Witnesses.
Local Existing Instance atoi_ref.
Local Existing Instance dict_iter_rev.

Definition toy_reader : PeerConnection (T := Handler) :=
  mkConn (SockV4 1 2) [] [] (Handler_new (toy_sha1 [1; 2; 3]) []) None [] [].

Definition toy_hs : ExtendedHandshake :=
  mkHs (mkIds (Some 3) None) None None None None None None (Some 3) None None.

Lemma metadata_exchange_completes_witness :
  exists c', reader_loop (PeerConnectionHandler0 := reader_handler toy_sha1)
      [@MExtended ext_codec (ExtHandshake toy_hs); data_message (mkData 0 3 [1] [2; 3])] toy_reader = (c', XOk ())
    /\ ha_result (pc_handler c') = Some (parse_info [1; 2; 3]).
Proof.
  destruct (metadata_exchange_completes toy_sha1 [1; 2; 3] (toy_sha1 [1; 2; 3]) [] toy_hs 3 [0] [mkData 0 3 [1] [2; 3]] toy_reader)
    as [_ Hrun]; try reflexivity; [vm_compute; by split|].
  destruct Hrun as (c' & Hc & Hres & _).
  - constructor; [|constructor]. eexists. split; [vm_compute; reflexivity|]. by split_and!.
  - exists c'. split; [exact Hc|exact Hres].
Defined.

Lemma metadata_reader_safe_witness :
  (reader_step (PeerConnectionHandler0 := reader_handler toy_sha1) (data_message (mkData 0 3 [1] [2; 3])) toy_reader).2 = XPanic.
Proof.
  apply (metadata_reader_safe toy_sha1 (toy_sha1 [1; 2; 3]) toy_reader (data_message (mkData 0 3 [1] [2; 3]))).
  - by apply (reachable_start toy_sha1 _ toy_reader []).
  - by vm_compute.
  - split; [by eexists|reflexivity].
Defined.

Lemma send_metadata_piece_bounds_witness : send_metadata_piece [1; 2; 3] 1 = XPanic.
Proof.
  rewrite (send_metadata_piece_bounds [1; 2; 3] 1); [reflexivity|by vm_compute..].
Defined.
End Witnesses.
