(* ===== verification/Storage.v ===== *)
(** * The storage interface ([librqbit::storage])

    [TorrentStorage] is the trait through which file data is read and written;
    an implementation may fail with an error of its own type at any call.
    [StorageSpec] states what the callers rely on: a read that succeeds returns
    the bytes that are there, a write that succeeds puts its bytes there, and
    neither a successful nor a failed write touches other bytes. *)

From stdpp Require Import base tactics option list list_numbers numbers decidable.
From Stdlib Require Import ZArith Lia.
From S2P Require Import Prelude.
Open Scope Z_scope.

(** ** The trait *)

Class TorrentStorage (S E : Type) := {
  pread_exact : S -> nat -> Z -> nat -> exec E bytes;
  pwrite_all : nat -> Z -> bytes -> io S E ()
}.

(** The default [pwrite_all_vectored]: one write per slice. *)
Definition pwrite_all_vectored {S E} `{TorrentStorage S E} (file_id : nat) (offset : Z)
    (bufs : bytes * bytes) : io S E Z :=
  _ ← pwrite_all file_id offset bufs.1;
  let offset := u64 (offset + Z.of_nat (length bufs.1)) in
  let size := Z.of_nat (length bufs.1) in
  _ ← pwrite_all file_id offset bufs.2;
  mret (size + Z.of_nat (length bufs.2)).

(** ** What callers rely on *)

Definition is_ok {E A} (r : exec E A) : bool := match r with XOk _ => true | _ => false end.

(** Byte [o] of file [f'] lies in the [n] bytes of file [f] at [off]. *)
Definition in_range (f : nat) (off : Z) (n : nat) (f' : nat) (o : Z) : Prop :=
  f' = f /\ off <= o < off + Z.of_nat n.

(** The storage changed at most inside a range, and holds [data] there when the
    write succeeded. *)
Definition writes {S} (view : S -> nat -> Z -> option Z) (f : nat) (off : Z) (data : bytes)
    (ok : bool) (s s' : S) : Prop :=
  (forall f' o b, ~ in_range f off (length data) f' o -> view s f' o = Some b ->
     view s' f' o = Some b)
  /\ (ok = true -> forall k, (k < length data)%nat -> view s' f (off + Z.of_nat k) = data !! k).

Class StorageSpec (S E : Type) `{TorrentStorage S E} := {
  view : S -> nat -> Z -> option Z;
  pread_spec s f off n :
    0 <= off ->
    match pread_exact s f off n with
    | XOk bs => length bs = n /\ forall k, (k < n)%nat -> view s f (off + Z.of_nat k) = bs !! k
    | XErr _ => True
    | XPanic => False
    end;
  pwrite_spec s f off data :
    0 <= off ->
    let '(s', r) := pwrite_all f off data s in
    r <> XPanic /\ writes view f off data (is_ok r) s s'
}.

Section Vectored.
Context {S E : Type} `{StorageSpec S E}.

(** Two adjacent writes are one. *)
Lemma writes_app f off d1 d2 ok (s s1 s2 : S) :
  writes view f off d1 true s s1 -> writes view f (off + Z.of_nat (length d1)) d2 ok s1 s2 ->
  writes view f off (d1 ++ d2) ok s s2.
Proof.
  intros [F1 W1] [F2 W2]. split.
  - intros f' o b Hn Hv. unfold in_range in *. rewrite length_app in Hn.
    apply F2; [intros [-> ?]; apply Hn; split; [done|lia]|].
    apply F1; [intros [-> ?]; apply Hn; split; [done|lia]|done].
  - intros Hok k Hk. rewrite length_app in Hk. destruct (decide (k < length d1)%nat) as [Hlt|Hge].
    + destruct (lookup_lt_is_Some_2 d1 k Hlt) as [b Hb].
      rewrite lookup_app_l, Hb by done. apply F2; [unfold in_range; lia|].
      by rewrite W1, Hb by auto.
    + rewrite lookup_app_r by lia. rewrite <- W2 by (done || lia). f_equal. lia.
Qed.

(** A write that was given up still frames the rest. *)
Lemma writes_frame f off d1 d2 ok (s s1 : S) :
  writes view f off d1 ok s s1 -> writes view f off (d1 ++ d2) false s s1.
Proof.
  intros [F1 _]. split; [|done]. intros f' o b Hn Hv. apply F1; [|done].
  intros [-> ?]. apply Hn. unfold in_range. rewrite length_app. split; [done|lia].
Qed.

Lemma pwrite_all_vectored_spec (f : nat) off (b1 b2 : bytes) (s : S) :
  0 <= off -> off + Z.of_nat (length b1) < 2 ^ 64 ->
  let '(s', r) := pwrite_all_vectored f off (b1, b2) s in
  r <> XPanic /\ writes view f off (b1 ++ b2) (is_ok r) s s'.
Proof.
  intros Ho Hl. unfold pwrite_all_vectored, mbind, io_bind. cbn [fst snd].
  pose proof (pwrite_spec s f off b1 Ho) as H1.
  destruct (pwrite_all f off b1 s) as [s1 [[]|e|]]; destruct H1 as [Hnp H1]; [|split; [done|]|done].
  - rewrite wrap_id by (unfold is_uint; lia).
    pose proof (pwrite_spec s1 f (off + Z.of_nat (length b1)) b2 ltac:(lia)) as H2.
    destruct (pwrite_all f _ b2 s1) as [s2 [[]|e|]]; destruct H2 as [Hnp2 H2]; split; try done;
      by eapply writes_app.
  - by eapply writes_frame.
Qed.
End Vectored.

(** ** A storage in memory

    One byte vector per file; a read past the end fails and a write past the end
    grows the file with zeros, as with files on disk. *)
Definition mem_read (s : list bytes) (f : nat) (off : Z) (n : nat) : exec () bytes :=
  match s !! f with
  | None => XErr ()
  | Some b => if (Z.to_nat off + n <=? length b)%nat then XOk (take n (drop (Z.to_nat off) b))
              else XErr ()
  end.

Definition mem_write (f : nat) (off : Z) (data : bytes) : io (list bytes) () () := fun s =>
  match s !! f with
  | None => (s, XErr ())
  | Some b =>
    let off := Z.to_nat off in
    let b := b ++ replicate (off + length data - length b) 0 in
    (<[f := take off b ++ data ++ drop (off + length data) b]> s, XOk ())
  end.

#[export] Instance mem_storage : TorrentStorage (list bytes) () :=
  {| pread_exact := mem_read; pwrite_all := mem_write |}.

Definition mem_view (s : list bytes) (f : nat) (o : Z) : option Z :=
  b ← s !! f; if 0 <=? o then b !! Z.to_nat o else None.

Lemma mem_write_lookup (b data : bytes) (off i : nat) :
  let b' := b ++ replicate (off + length data - length b) 0 in
  (take off b' ++ data ++ drop (off + length data) b') !! i
  = if decide (off <= i < off + length data)%nat then data !! (i - off)%nat else b' !! i.
Proof.
  intros b'. assert (off + length data <= length b')%nat as Hb.
  { unfold b'. rewrite length_app, length_replicate. lia. }
  destruct (decide (i < off)%nat).
  - rewrite decide_False by lia. rewrite lookup_app_l by (rewrite length_take; lia).
    rewrite lookup_take. by case_decide; [|lia].
  - rewrite lookup_app_r by (rewrite length_take; lia). rewrite length_take, Nat.min_l by lia.
    case_decide.
    + by rewrite lookup_app_l by lia.
    + rewrite lookup_app_r by lia. rewrite lookup_drop. f_equal. lia.
Qed.

#[export, program] Instance mem_storage_spec : StorageSpec (list bytes) () :=
  {| view := mem_view |}.
Next Obligation.
  intros s f off n Ho. cbn. unfold mem_read, mem_view. destruct (s !! f) as [b|]; [|done]. cbn.
  destruct (Nat.leb_spec (Z.to_nat off + n) (length b)); [|done].
  split; [rewrite length_take, length_drop; lia|]. intros k Hk.
  destruct (Z.leb_spec 0 (off + Z.of_nat k)); [|lia].
  rewrite lookup_take, lookup_drop. case_decide; [|lia]. f_equal. lia.
Qed.
Next Obligation.
  intros s f off data Ho. cbn. unfold mem_write. destruct (s !! f) as [b|] eqn:Hf; [|by split; [|split]].
  assert (f < length s)%nat by (by eapply lookup_lt_Some).
  split; [done|]. unfold writes, mem_view. split.
  - intros f' o c Hn. destruct (decide (f' = f)) as [->|?].
    + rewrite list_lookup_insert_eq, Hf by done. cbn.
      destruct (Z.leb_spec 0 o); [|done]. intros Hc. rewrite mem_write_lookup.
      rewrite decide_False by (unfold in_range in Hn; lia). by apply lookup_app_l_Some.
    + by rewrite list_lookup_insert_ne.
  - intros _ k Hk. rewrite list_lookup_insert_eq by done. cbn.
    destruct (Z.leb_spec 0 (off + Z.of_nat k)); [|lia].
    rewrite mem_write_lookup, decide_True by lia. f_equal. lia.
Qed.
