(* ===== verification/FileOps.v ===== *)
(** * File operations ([librqbit::file_ops])

    Reading, writing and hashing pieces of a torrent whose bytes are spread over
    files.  The storage is any implementation of [TorrentStorage]; SHA-1 is a
    function [sha1] of the bytes fed to the hasher, so the state of a hasher is
    the bytes fed so far.  Counts of bytes are [Z].

    The loop of [update_hash_from_file] takes fuel; running out of it is
    [XPanic], which the theorems exclude. *)

From stdpp Require Import base tactics option list list_numbers numbers decidable.
From Stdlib Require Import ZArith Lia.
From S2P Require Import Prelude Lengths FileInfo ChunkTracker PieceCompletion DoubleBuf Message.
From S2P Require Import Metainfo Storage.
Open Scope Z_scope.

Record FileIoError := mkFileIoError {
  fe_file_id : nat;
  fe_write : bool;
  fe_len : Z;
  fe_path : list bytes
}.

Inductive FoMessage :=
| NotEnoughCapacity
| HashNotFound
| CheckPaused
| EmptyFileList
| BrokenMetadata
| PieceIndexBug.

(** An [anyhow::Error]: an error of the storage under its contexts, or a message. *)
Inductive FoError (E : Type) :=
| FoStorage (e : E)
| FoReadingChunk (chunk read : Z) (e : FoError E)
| FoReadingFile (file_idx : nat) (to_read : Z) (e : FoError E)
| FoFile (ctx : FileIoError) (e : FoError E)
| FoMsg (m : FoMessage).
Arguments FoStorage {E} e.
Arguments FoReadingChunk {E} chunk read e.
Arguments FoReadingFile {E} file_idx to_read e.
Arguments FoFile {E} ctx e.
Arguments FoMsg {E} m.

Section FileOps.
Context {S E : Type} `{TorrentStorage S E} (sha1 : bytes -> bytes).

Fixpoint update_hash_from_file (fuel : nat) (file_id : nat) (fi : FileInfo) (pos : Z) (files : S)
    (hash : bytes) (buf_len bytes_to_read read : Z) : exec (FoError E) bytes :=
  if bytes_to_read =? 0 then XOk hash
  else
    match fuel with
    | O => XPanic
    | Datatypes.S fuel =>
      let chunk := Z.min buf_len bytes_to_read in
      data ← (if fa_padding (fi_attrs fi) then XOk (replicate (Z.to_nat chunk) 0)
              else exec_map_err (fun e => FoReadingChunk chunk read (FoStorage e))
                     (pread_exact files file_id pos (Z.to_nat chunk)));
      update_hash_from_file fuel file_id fi (u64 (pos + chunk)) files (hash ++ data) buf_len
        (bytes_to_read - chunk) (read + chunk)
    end.

(** The fields of [FileOps] that are not the storage. *)
Record FileOps := mkFileOps {
  fo_lengths : Lengths;
  fo_info : TorrentMetaV1Info;
  fo_file_infos : list FileInfo
}.

(** The loop of [check_piece] over the files from number [file_idx] on. *)
Fixpoint check_piece_files (files : S) (fis : list FileInfo) (file_idx : nat)
    (absolute_offset piece_remaining_bytes buf_len : Z) (h : bytes) : exec (FoError E) bytes :=
  match fis with
  | [] => XOk h
  | fi :: fis =>
    let file_len := fi_len fi in
    if absolute_offset >? file_len then
      check_piece_files files fis (Datatypes.S file_idx) (absolute_offset - file_len)
        piece_remaining_bytes buf_len h
    else
      let file_remaining_len := file_len - absolute_offset in
      let to_read_in_file := Z.min file_remaining_len piece_remaining_bytes in
      h ← exec_map_err
            (FoFile (mkFileIoError file_idx false to_read_in_file (fi_relative_filename fi)))
            (update_hash_from_file (Z.to_nat to_read_in_file) file_idx fi absolute_offset files h
               buf_len to_read_in_file 0);
      let piece_remaining_bytes := piece_remaining_bytes - to_read_in_file in
      if piece_remaining_bytes =? 0 then XOk h
      else check_piece_files files fis (Datatypes.S file_idx) 0 piece_remaining_bytes buf_len h
  end.

Definition check_piece (fo : FileOps) (files : S) (piece_index : ValidPieceIndex)
    : exec (FoError E) bool :=
  let piece_length := piece_length (fo_lengths fo) piece_index in
  let absolute_offset := piece_offset (fo_lengths fo) piece_index in
  h ← check_piece_files files (fo_file_infos fo) 0 absolute_offset piece_length
        (Z.min 65536 piece_length) [];
  match compare_hash (fo_info fo) piece_index (sha1 h) with
  | Some b => XOk b
  | None => XErr (FoMsg HashNotFound)
  end.

(** The loop of [read_chunk]: [buf] is the part of the buffer still to fill; the
    result is what it is filled with. *)
Fixpoint read_chunk_files (files : S) (fis : list FileInfo) (file_idx : nat) (absolute_offset : Z)
    (buf : bytes) : exec (FoError E) bytes :=
  match fis with
  | [] => XOk buf
  | fi :: fis =>
    let file_len := fi_len fi in
    if absolute_offset >? file_len then
      read_chunk_files files fis (Datatypes.S file_idx) (absolute_offset - file_len) buf
    else
      let file_remaining_len := file_len - absolute_offset in
      let to_read_in_file := Z.min file_remaining_len (Z.of_nat (length buf)) in
      data ← (if fa_padding (fi_attrs fi) then XOk (replicate (Z.to_nat to_read_in_file) 0)
              else exec_map_err (fun e => FoReadingFile file_idx to_read_in_file (FoStorage e))
                     (pread_exact files file_idx absolute_offset (Z.to_nat to_read_in_file)));
      let buf := drop (Z.to_nat to_read_in_file) buf in
      if (length buf =? 0)%nat then XOk data
      else
        rest ← read_chunk_files files fis (Datatypes.S file_idx) 0 buf;
        XOk (data ++ rest)
  end.

Definition read_chunk (fo : FileOps) (files : S) (chunk_info : ChunkInfo) (result_buf : bytes)
    : exec (FoError E) bytes :=
  if Z.of_nat (length result_buf) <? ci_size chunk_info then XErr (FoMsg NotEnoughCapacity)
  else read_chunk_files files (fo_file_infos fo) 0
         (chunk_absolute_offset (fo_lengths fo) chunk_info) result_buf.

(** The loop of [write_chunk]. *)
Fixpoint write_chunk_files (fis : list FileInfo) (file_idx : nat) (absolute_offset : Z)
    (data : DoubleBuf) : io S (FoError E) () :=
  match fis with
  | [] => mret ()
  | fi :: fis =>
    let file_len := fi_len fi in
    if absolute_offset >? file_len then
      write_chunk_files fis (Datatypes.S file_idx) (absolute_offset - file_len) data
    else
      let remaining_len := file_len - absolute_offset in
      let to_write := Z.min (Z.of_nat (db_len data)) remaining_len in
      let slices := as_ioslices data (Z.to_nat to_write) in
      _ ← (if fa_padding (fi_attrs fi) then mret 0
           else io_map_err
                  (fun e => FoFile (mkFileIoError file_idx true to_write (fi_relative_filename fi))
                              (FoStorage e))
                  (pwrite_all_vectored file_idx absolute_offset slices));
      let data := db_advance data (Z.to_nat to_write) in
      if db_is_empty data then mret ()
      else write_chunk_files fis (Datatypes.S file_idx) 0 data
  end.

Definition write_chunk (fo : FileOps) (data : Piece) (chunk_info : ChunkInfo)
    : io S (FoError E) () :=
  write_chunk_files (fo_file_infos fo) 0 (chunk_absolute_offset (fo_lengths fo) chunk_info)
    (mkDB (p_block_0 data) (p_block_1 data)).

(** ** [initial_check] *)

Record CurrentFile := mkCurrentFile {
  cf_index : nat;
  cf_fi : FileInfo;
  cf_processed_bytes : Z;
  cf_is_broken : bool
}.

Definition cf_remaining (c : CurrentFile) : Z := fi_len (cf_fi c) - cf_processed_bytes c.

Definition mark_processed_bytes (c : CurrentFile) (bytes : Z) : CurrentFile :=
  mkCurrentFile (cf_index c) (cf_fi c) (u64 (cf_processed_bytes c + bytes)) (cf_is_broken c).

(** The inner [while to_read_in_file == 0]; [rest] is what the file iterator has left. *)
Fixpoint next_file (piece_remaining : Z) (current_file : CurrentFile) (rest : list (nat * FileInfo))
    : result (FoError E) (Z * CurrentFile * list (nat * FileInfo)) :=
  let to_read_in_file := Z.min (cf_remaining current_file) piece_remaining in
  if negb (to_read_in_file =? 0) then Ok (to_read_in_file, current_file, rest)
  else
    match rest with
    | [] => Err (FoMsg BrokenMetadata)
    | (idx, fi) :: rest => next_file piece_remaining (mkCurrentFile idx fi 0 false) rest
    end.

(** What the check of one piece threads through: the current file, the files
    behind it, the hasher, whether a read failed, and the errors reported. *)
Record CheckState := mkCheck {
  ck_file : CurrentFile;
  ck_rest : list (nat * FileInfo);
  ck_hash : bytes;
  ck_broken : bool;
  ck_reported : list (nat * ValidPieceIndex * FoError E)
}.

Variable is_missing_data : FoError E -> bool.

(** [while piece_remaining > 0]; a step reads at least a byte, so [piece_remaining]
    steps are enough. *)
Fixpoint check_loop (fuel : nat) (files : S) (piece : ValidPieceIndex) (piece_remaining : Z)
    (st : CheckState) : exec (FoError E) CheckState :=
  if piece_remaining =? 0 then XOk st
  else
    match fuel with
    | O => XPanic
    | Datatypes.S fuel =>
      '(to_read_in_file, current_file, rest) ←
        exec_of_result (next_file piece_remaining (ck_file st) (ck_rest st));
      let pos := cf_processed_bytes current_file in
      let piece_remaining := piece_remaining - to_read_in_file in
      let current_file := mark_processed_bytes current_file to_read_in_file in
      if cf_is_broken current_file then
        check_loop fuel files piece piece_remaining
          (mkCheck current_file rest (ck_hash st) (ck_broken st) (ck_reported st))
      else
        match update_hash_from_file (Z.to_nat to_read_in_file) (cf_index current_file)
                (cf_fi current_file) pos files (ck_hash st) 65536 to_read_in_file 0 with
        | XPanic => XPanic
        | XOk hash =>
          check_loop fuel files piece piece_remaining
            (mkCheck current_file rest hash (ck_broken st) (ck_reported st))
        | XErr err =>
          let reported := if negb (is_missing_data err)
                          then ck_reported st ++ [(cf_index current_file, piece, err)]
                          else ck_reported st in
          check_loop fuel files piece piece_remaining
            (mkCheck (mkCurrentFile (cf_index current_file) (cf_fi current_file)
                        (cf_processed_bytes current_file) true) rest (ck_hash st) true reported)
        end
    end.

(** The loop over the pieces: [paused] holds what each load of [pause_requested]
    returns.  Besides the bit field it returns the progress counter and the
    reported errors. *)
Fixpoint initial_check_pieces (fo : FileOps) (files : S) (paused : Z -> bool)
    (pieces : list PieceInfo) (st : CheckState) (have_pieces : BF) (progress : Z)
    : exec (FoError E) (BF * Z * list (nat * ValidPieceIndex * FoError E)) :=
  match pieces with
  | [] => XOk (have_pieces, progress, ck_reported st)
  | p :: pieces =>
    if paused (pi_piece_index p) then XErr (FoMsg CheckPaused)
    else
      let progress := u64 (progress + pi_len p) in
      st ← check_loop (Z.to_nat (pi_len p)) files (pi_piece_index p) (pi_len p)
             (mkCheck (ck_file st) (ck_rest st) [] false (ck_reported st));
      if ck_broken st then
        initial_check_pieces fo files paused pieces st have_pieces progress
      else
        match compare_hash (fo_info fo) (pi_piece_index p) (sha1 (ck_hash st)) with
        | None => XErr (FoMsg PieceIndexBug)
        | Some true =>
          have_pieces ← exec_of_outcome
            (slice_set have_pieces (Z.to_nat (pi_piece_index p)) true);
          initial_check_pieces fo files paused pieces st have_pieces progress
        | Some false => initial_check_pieces fo files paused pieces st have_pieces progress
        end
  end.

Definition initial_check (fo : FileOps) (files : S) (paused : Z -> bool) (progress : Z)
    : exec (FoError E) (BF * Z * list (nat * ValidPieceIndex * FoError E)) :=
  match imap pair (fo_file_infos fo) with
  | [] => XErr (FoMsg EmptyFileList)
  | (idx, fi) :: rest =>
    initial_check_pieces fo files paused (iter_piece_infos (fo_lengths fo))
      (mkCheck (mkCurrentFile idx fi 0 false) rest [] false [])
      (bf_zeroed (piece_bitfield_bytes (fo_lengths fo))) progress
  end.
End FileOps.

(** ** The torrent as one byte string

    [flat_at fis idx s p] is byte [p] of the files [fis], numbered from [idx]:
    what the storage holds, or zero in a padding file. *)

Section Flat.
Context {S E : Type} `{StorageSpec S E}.

Fixpoint flat_at (fis : list FileInfo) (idx : nat) (s : S) (p : Z) : option Z :=
  match fis with
  | [] => None
  | fi :: fis =>
    if p <? fi_len fi then if fa_padding (fi_attrs fi) then Some 0 else view s idx p
    else flat_at fis (Datatypes.S idx) s (p - fi_len fi)
  end.

Fixpoint padding_at (fis : list FileInfo) (p : Z) : bool :=
  match fis with
  | [] => false
  | fi :: fis => if p <? fi_len fi then fa_padding (fi_attrs fi) else padding_at fis (p - fi_len fi)
  end.

Definition total_len (fis : list FileInfo) : Z := zsum (fi_len <$> fis).

(** The bytes [bs] are at [off]. *)
Definition holds_at (fis : list FileInfo) (idx : nat) (s : S) (off : Z) (bs : bytes) : Prop :=
  forall k, (k < length bs)%nat -> flat_at fis idx s (off + Z.of_nat k) = bs !! k.

Lemma flat_at_mono fis idx s s' p b :
  (forall f o c, (idx <= f)%nat -> view s f o = Some c -> view s' f o = Some c) ->
  flat_at fis idx s p = Some b -> flat_at fis idx s' p = Some b.
Proof.
  revert idx p. induction fis as [|fi fis IH]; intros idx p Hv; [done|]. simpl.
  destruct (p <? fi_len fi); [destruct (fa_padding _); [done|by apply Hv]|].
  apply IH. intros f o c ?. apply Hv. lia.
Qed.

Lemma flat_at_next fi fis idx s p :
  0 <= fi_len fi -> fi_len fi <= p ->
  flat_at (fi :: fis) idx s p = flat_at fis (Datatypes.S idx) s (p - fi_len fi).
Proof. intros. simpl. by destruct (Z.ltb_spec p (fi_len fi)); [lia|]. Qed.

Lemma flat_at_here fi fis idx s p :
  p < fi_len fi ->
  flat_at (fi :: fis) idx s p = if fa_padding (fi_attrs fi) then Some 0 else view s idx p.
Proof. intros. simpl. by destruct (Z.ltb_spec p (fi_len fi)); [|lia]. Qed.

Lemma holds_at_next fi fis idx s off bs :
  0 <= fi_len fi -> fi_len fi <= off ->
  holds_at fis (Datatypes.S idx) s (off - fi_len fi) bs -> holds_at (fi :: fis) idx s off bs.
Proof.
  intros ? ? Hh k Hk. rewrite flat_at_next by lia. rewrite <- Hh by done. f_equal. lia.
Qed.

Lemma holds_at_app fis idx s off b1 b2 :
  holds_at fis idx s off b1 -> holds_at fis idx s (off + Z.of_nat (length b1)) b2 ->
  holds_at fis idx s off (b1 ++ b2).
Proof.
  intros H1 H2 k Hk. rewrite length_app in Hk. destruct (decide (k < length b1)%nat).
  - rewrite lookup_app_l by done. by apply H1.
  - rewrite lookup_app_r, <- H2 by lia. f_equal. lia.
Qed.

Lemma holds_at_unique fis idx s off b1 b2 :
  length b1 = length b2 -> holds_at fis idx s off b1 -> holds_at fis idx s off b2 -> b1 = b2.
Proof.
  intros Hl H1 H2. apply list_eq_same_length with (n := length b1); [done..|].
  intros k x y Hk Hx Hy. rewrite <- H1 in Hx by done. rewrite <- H2 in Hy by lia. congruence.
Qed.

(** What a read inside one file yields: zeros from a padding file. *)
Lemma holds_here fi fis idx s off n bs :
  0 <= off -> off + Z.of_nat n <= fi_len fi -> length bs = n ->
  (if fa_padding (fi_attrs fi) then bs = replicate n 0
   else forall k, (k < n)%nat -> view s idx (off + Z.of_nat k) = bs !! k) ->
  holds_at (fi :: fis) idx s off bs.
Proof.
  intros Ho Hn Hl Hb k Hk. rewrite flat_at_here by lia. destruct (fa_padding _).
  - subst bs. symmetry. apply lookup_replicate. split; [done|lia].
  - apply Hb. lia.
Qed.

(** Every read inside a file succeeds. *)
Definition readable (fis : list FileInfo) (s : S) : Prop :=
  forall idx fi off n, fis !! idx = Some fi -> fa_padding (fi_attrs fi) = false ->
    0 <= off -> off + Z.of_nat n <= fi_len fi -> exists bs, pread_exact (E:=E) s idx off n = XOk bs.

(** *** Hashing one file *)

Lemma update_hash_spec fuel fi fis idx s hash buf n read pos :
  0 < buf -> 0 <= n <= Z.of_nat fuel -> 0 <= pos -> pos + n <= fi_len fi -> fi_len fi < 2 ^ 64 ->
  match update_hash_from_file (E:=E) fuel idx fi pos s hash buf n read with
  | XOk h => exists bs, h = hash ++ bs /\ Z.of_nat (length bs) = n
                        /\ holds_at (fi :: fis) idx s pos bs
  | XErr _ => fa_padding (fi_attrs fi) = false
      /\ exists off m e, pos <= off /\ off + Z.of_nat m <= pos + n
           /\ pread_exact (E:=E) s idx off m = XErr e
  | XPanic => False
  end.
Proof.
  intros Hb. revert hash n read pos.
  induction fuel as [|fuel IH]; intros hash n read pos Hn Hpos Hend Hfi; cbn [update_hash_from_file].
  { destruct (Z.eqb_spec n 0); [|lia]. exists []. rewrite app_nil_r.
    split_and!; [done|simpl; lia|]. intros k Hk. simpl in Hk. lia. }
  destruct (Z.eqb_spec n 0).
  { exists []. rewrite app_nil_r. split_and!; [done|simpl; lia|]. intros k Hk. simpl in Hk. lia. }
  set (c := Z.min buf n). assert (0 < c <= n) as Hc by (unfold c; lia).
  rewrite wrap_id by (unfold is_uint; lia).
  assert (forall data, length data = Z.to_nat c ->
    (if fa_padding (fi_attrs fi) then data = replicate (Z.to_nat c) 0
     else forall k, (k < Z.to_nat c)%nat -> view s idx (pos + Z.of_nat k) = data !! k) ->
    match update_hash_from_file (E:=E) fuel idx fi (pos + c) s (hash ++ data) buf (n - c) (read + c) with
    | XOk h => exists bs, h = hash ++ bs /\ Z.of_nat (length bs) = n
                          /\ holds_at (fi :: fis) idx s pos bs
    | XErr _ => fa_padding (fi_attrs fi) = false
        /\ exists off m e, pos <= off /\ off + Z.of_nat m <= pos + n
             /\ pread_exact (E:=E) s idx off m = XErr e
    | XPanic => False
    end) as Hstep.
  { intros data Hl Hd.
    specialize (IH (hash ++ data) (n - c) (read + c) (pos + c)
      ltac:(lia) ltac:(lia) ltac:(lia) ltac:(lia)).
    destruct (update_hash_from_file _ _ _ _ _ _ _ _ _) as [h|e|]; [| |done].
    - destruct IH as (bs & -> & Hbs & Hh). exists (data ++ bs). rewrite app_assoc.
      split_and!; [done|rewrite length_app; lia|]. apply holds_at_app.
      + apply holds_here with (n := Z.to_nat c); [lia..|done].
      + by replace (pos + Z.of_nat (length data)) with (pos + c) by lia.
    - destruct IH as (? & off & m & e' & ? & ? & ?). split; [done|]. exists off, m, e'.
      split_and!; [lia..|done]. }
  destruct (fa_padding (fi_attrs fi)) eqn:Hp; cbn.
  - apply Hstep; [by rewrite length_replicate|done].
  - pose proof (pread_spec s idx pos (Z.to_nat c) Hpos) as Hr.
    destruct (pread_exact s idx pos (Z.to_nat c)) as [data|e|] eqn:Er; cbn; [| |done].
    + destruct Hr. by apply Hstep.
    + split; [done|]. exists pos, (Z.to_nat c), e. split_and!; [lia..|done].
Qed.

(** *** Walking the files *)

Definition files_ok (fis : list FileInfo) : Prop := Forall (fun fi => 0 <= fi_len fi < 2 ^ 64) fis.

Definition failing_read (fis : list FileInfo) (idx : nat) (s : S) : Prop :=
  exists j fi off m e, fis !! j = Some fi /\ fa_padding (fi_attrs fi) = false
    /\ 0 <= off /\ off + Z.of_nat m <= fi_len fi /\ pread_exact (E:=E) s (idx + j) off m = XErr e.

Lemma failing_read_next fi fis idx s :
  failing_read fis (Datatypes.S idx) s -> failing_read (fi :: fis) idx s.
Proof.
  intros (j & f & off & m & e & ? & ? & ? & ? & ?). exists (Datatypes.S j), f, off, m, e.
  split_and!; try done. by rewrite Nat.add_succ_r.
Qed.

Lemma readable_no_failing fis s : readable fis s -> ~ failing_read fis 0 s.
Proof.
  intros Hr (j & fi & off & m & e & Hj & Hp & Ho & Hm & He).
  destruct (Hr j fi off m Hj Hp Ho Hm) as [bs Hbs]. simpl in He. congruence.
Qed.

Lemma files_ok_elem fis fi : files_ok fis -> fi ∈ fis -> 0 <= fi_len fi < 2 ^ 64.
Proof. unfold files_ok. rewrite list.Forall_forall. auto. Qed.

Lemma total_len_nonneg fis : files_ok fis -> 0 <= total_len fis.
Proof. intros Hf. apply zsum_nonneg, Forall_fmap. eapply Forall_impl; [|exact Hf]. simpl. lia. Qed.

Lemma check_piece_files_spec fis idx s abs n buf h :
  files_ok fis -> 0 <= abs -> 0 < n -> abs + n <= total_len fis -> 0 < buf ->
  match check_piece_files (E:=E) s fis idx abs n buf h with
  | XOk h' => exists bs, h' = h ++ bs /\ Z.of_nat (length bs) = n /\ holds_at fis idx s abs bs
  | XErr _ => failing_read fis idx s
  | XPanic => False
  end.
Proof.
  intros Hf. revert idx abs n h. induction Hf as [|fi fis Hfi Hf IH]; intros idx abs n h Ha Hn Hend Hb.
  { unfold total_len in Hend. simpl in Hend. lia. }
  unfold total_len in Hend. rewrite fmap_cons, zsum_cons in Hend. fold (total_len fis) in Hend.
  cbn [check_piece_files]. rewrite Z.gtb_ltb. destruct (Z.ltb_spec (fi_len fi) abs).
  { specialize (IH (Datatypes.S idx) (abs - fi_len fi) n h ltac:(lia) ltac:(lia) ltac:(lia) ltac:(lia)).
    destruct (check_piece_files _ _ _ _ _ _ _); [|by apply failing_read_next|done].
    destruct IH as (bs & -> & ? & ?). exists bs. split_and!; [done..|]. apply holds_at_next; [lia..|done]. }
  set (t := Z.min (fi_len fi - abs) n).
  pose proof (update_hash_spec (Z.to_nat t) fi fis idx s h buf t 0 abs Hb
    ltac:(lia) ltac:(lia) ltac:(lia) ltac:(lia)) as Hu.
  destruct (update_hash_from_file _ _ _ _ _ _ _ _ _) as [h1|e|]; cbn; [| |done].
  2:{ destruct Hu as (? & off & m & e' & ? & ? & He). exists O, fi, off, m, e'.
      rewrite Nat.add_0_r. split_and!; try done; lia. }
  destruct Hu as (bs & -> & Hbs & Hh). destruct (Z.eqb_spec (n - t) 0).
  { exists bs. split_and!; [done|lia|done]. }
  assert (t = fi_len fi - abs) by lia.
  specialize (IH (Datatypes.S idx) 0 (n - t) (h ++ bs) ltac:(lia) ltac:(lia) ltac:(lia) ltac:(lia)).
  destruct (check_piece_files _ _ _ _ _ _ _); [|by apply failing_read_next|done].
  destruct IH as (bs' & -> & ? & ?). exists (bs ++ bs'). rewrite app_assoc.
  split_and!; [done|rewrite length_app; lia|]. apply holds_at_app; [done|].
  apply holds_at_next; [lia..|]. by replace (abs + Z.of_nat (length bs) - fi_len fi) with 0 by lia.
Qed.

Lemma read_chunk_files_spec fis idx s abs (buf : bytes) :
  files_ok fis -> 0 <= abs -> (0 < length buf)%nat -> abs + Z.of_nat (length buf) <= total_len fis ->
  match read_chunk_files (E:=E) s fis idx abs buf with
  | XOk bs => length bs = length buf /\ holds_at fis idx s abs bs
  | XErr _ => failing_read fis idx s
  | XPanic => False
  end.
Proof.
  intros Hf. revert idx abs buf. induction Hf as [|fi fis Hfi Hf IH]; intros idx abs buf Ha Hn Hend.
  { unfold total_len in Hend. simpl in Hend. lia. }
  unfold total_len in Hend. rewrite fmap_cons, zsum_cons in Hend. fold (total_len fis) in Hend.
  cbn [read_chunk_files]. rewrite Z.gtb_ltb. destruct (Z.ltb_spec (fi_len fi) abs).
  { specialize (IH (Datatypes.S idx) (abs - fi_len fi) buf ltac:(lia) ltac:(lia) ltac:(lia)).
    destruct (read_chunk_files _ _ _ _ _); [|by apply failing_read_next|done].
    destruct IH. split; [done|]. apply holds_at_next; [lia..|done]. }
  set (t := Z.min (fi_len fi - abs) (Z.of_nat (length buf))).
  assert (forall data, length data = Z.to_nat t ->
    (if fa_padding (fi_attrs fi) then data = replicate (Z.to_nat t) 0
     else forall k, (k < Z.to_nat t)%nat -> view s idx (abs + Z.of_nat k) = data !! k) ->
    match (if (length (drop (Z.to_nat t) buf) =? 0)%nat then XOk data
           else rest ← read_chunk_files (E:=E) s fis (Datatypes.S idx) 0 (drop (Z.to_nat t) buf);
                XOk (data ++ rest)) with
    | XOk bs => length bs = length buf /\ holds_at (fi :: fis) idx s abs bs
    | XErr _ => failing_read (fi :: fis) idx s
    | XPanic => False
    end) as Hstep.
  { intros data Hl Hd.
    pose proof (holds_here fi fis idx s abs (Z.to_nat t) data ltac:(lia) ltac:(lia) Hl Hd) as Hh.
    destruct (Nat.eqb_spec (length (drop (Z.to_nat t) buf)) 0) as [E0|E0]; rewrite length_drop in E0.
    { split; [lia|done]. }
    specialize (IH (Datatypes.S idx) 0 (drop (Z.to_nat t) buf)). rewrite length_drop in IH.
    specialize (IH ltac:(lia) ltac:(lia) ltac:(lia)).
    destruct (read_chunk_files _ _ _ _ _); cbn; [|by apply failing_read_next|done].
    destruct IH as [Hl2 Hh2]. split; [rewrite length_app; lia|]. apply holds_at_app; [done|].
    apply holds_at_next; [lia..|]. by replace (abs + Z.of_nat (length data) - fi_len fi) with 0 by lia. }
  destruct (fa_padding (fi_attrs fi)) eqn:Hp; cbn.
  - apply Hstep; [by rewrite length_replicate|done].
  - pose proof (pread_spec s idx abs (Z.to_nat t) Ha) as Hr.
    destruct (pread_exact s idx abs (Z.to_nat t)) as [data|e|] eqn:Er; cbn; [| |done].
    + destruct Hr. by apply Hstep.
    + exists O, fi, abs, (Z.to_nat t), e. rewrite Nat.add_0_r. split_and!; try done; lia.
Qed.

(** *** Writing across files *)

(** The files [fis] changed at most at [off], and hold [data] there (zeros in
    padding files) when the write succeeded; no earlier file changed. *)
Record flat_writes (fis : list FileInfo) (idx : nat) (off : Z) (data : bytes) (ok : bool)
    (s s' : S) : Prop := {
  fw_before f o b : (f < idx)%nat -> view s f o = Some b -> view s' f o = Some b;
  fw_other p b :
    0 <= p -> ~ (off <= p < off + Z.of_nat (length data)) ->
    flat_at fis idx s p = Some b -> flat_at fis idx s' p = Some b;
  fw_data k : ok = true -> (k < length data)%nat ->
    flat_at fis idx s' (off + Z.of_nat k)
    = if padding_at fis (off + Z.of_nat k) then Some 0 else data !! k
}.

Lemma flat_writes_next fi fis idx off data ok s s' :
  0 <= fi_len fi -> fi_len fi <= off ->
  flat_writes fis (Datatypes.S idx) (off - fi_len fi) data ok s s' ->
  flat_writes (fi :: fis) idx off data ok s s'.
Proof.
  intros Hl Ho [Hb Hoth Hd]. split.
  - intros. apply Hb; [lia|done].
  - intros p b Hp Hn. cbn [flat_at]. destruct (Z.ltb_spec p (fi_len fi)).
    + destruct (fa_padding _); [done|]. apply Hb. lia.
    + apply Hoth; lia.
  - intros k Hok Hk. rewrite flat_at_next by lia.
    replace (off + Z.of_nat k - fi_len fi) with (off - fi_len fi + Z.of_nat k) by lia.
    rewrite Hd by done. cbn [padding_at]. destruct (Z.ltb_spec (off + Z.of_nat k) (fi_len fi)); [lia|].
    by replace (off + Z.of_nat k - fi_len fi) with (off - fi_len fi + Z.of_nat k) by lia.
Qed.

(** One write inside a file. *)
Lemma flat_writes_here fi fis idx off data ok (s s' : S) :
  0 <= off -> off + Z.of_nat (length data) <= fi_len fi ->
  (if fa_padding (fi_attrs fi) then s' = s else writes view idx off data ok s s') ->
  flat_writes (fi :: fis) idx off data ok s s'.
Proof.
  intros Ho Hl Hw.
  assert (forall f o b, f <> idx -> view s f o = Some b -> view s' f o = Some b) as Hne.
  { destruct (fa_padding _); [by subst|]. intros f o b ?. apply Hw. by intros [? _]. }
  split.
  - intros. apply Hne; [lia|done].
  - intros p b Hp Hn. cbn [flat_at]. destruct (Z.ltb_spec p (fi_len fi)).
    + destruct (fa_padding _); [done|]. apply Hw. by intros [_ ?].
    + apply flat_at_mono. intros. apply Hne; [lia|done].
  - intros k Hok Hk. rewrite flat_at_here by lia. cbn [padding_at].
    destruct (Z.ltb_spec (off + Z.of_nat k) (fi_len fi)); [|lia].
    destruct (fa_padding _); [done|]. by apply Hw.
Qed.

(** A write up to the end of a file followed by one from the start of the next. *)
Lemma flat_writes_app fi fis idx off d1 d2 ok s s1 s2 :
  0 <= off -> 0 <= fi_len fi -> off + Z.of_nat (length d1) = fi_len fi ->
  flat_writes (fi :: fis) idx off d1 true s s1 ->
  flat_writes fis (Datatypes.S idx) 0 d2 ok s1 s2 ->
  flat_writes (fi :: fis) idx off (d1 ++ d2) ok s s2.
Proof.
  intros Ho Hfi Hl [B1 O1 D1] [B2 O2 D2]. split.
  - intros f o b Hf Hv. apply B2; [lia|]. by apply B1.
  - intros p b Hp Hn Hs. rewrite length_app in Hn.
    assert (flat_at (fi :: fis) idx s1 p = Some b) as Hs1 by (apply O1; [done|lia|done]).
    revert Hs1. cbn [flat_at]. destruct (Z.ltb_spec p (fi_len fi)).
    + destruct (fa_padding _); [done|]. apply B2. lia.
    + apply O2; lia.
  - intros k Hok Hk. rewrite length_app in Hk. destruct (decide (k < length d1)%nat) as [Hk1|Hk1].
    + rewrite lookup_app_l by done. specialize (D1 k eq_refl Hk1).
      rewrite flat_at_here in D1 |- * by lia. cbn [padding_at] in *.
      destruct (Z.ltb_spec (off + Z.of_nat k) (fi_len fi)); [|lia].
      destruct (fa_padding _); [done|]. destruct (lookup_lt_is_Some_2 d1 k Hk1) as [b Hb].
      rewrite Hb in D1 |- *. apply B2; [lia|done].
    + rewrite flat_at_next by lia. rewrite lookup_app_r by lia.
      replace (off + Z.of_nat k - fi_len fi) with (0 + Z.of_nat (k - length d1)) by lia.
      rewrite D2 by (done || lia). cbn [padding_at].
      destruct (Z.ltb_spec (off + Z.of_nat k) (fi_len fi)); [lia|].
      by replace (off + Z.of_nat k - fi_len fi) with (0 + Z.of_nat (k - length d1)) by lia.
Qed.

Lemma flat_writes_frame fis idx off d1 d2 ok s s' :
  flat_writes fis idx off d1 ok s s' -> flat_writes fis idx off (d1 ++ d2) false s s'.
Proof.
  intros [B O _]. split; [done| |done]. intros p b Hp Hn. apply O; [done|].
  rewrite length_app in Hn. lia.
Qed.

(** The write of [write_chunk] into one file. *)
Lemma write_file_spec fi fis idx abs (d : DoubleBuf) t (s s1 : S) r1 :
  0 <= abs -> 0 <= t <= Z.of_nat (db_len d) -> abs + t <= fi_len fi -> fi_len fi < 2 ^ 64 ->
  (if fa_padding (fi_attrs fi) then mret 0
   else io_map_err (fun e => FoFile (mkFileIoError idx true t (fi_relative_filename fi)) (FoStorage e))
          (pwrite_all_vectored (E:=E) idx abs (as_ioslices d (Z.to_nat t)))) s = (s1, r1) ->
  r1 <> XPanic /\ flat_writes (fi :: fis) idx abs (take (Z.to_nat t) (db_bytes d)) (is_ok r1) s s1.
Proof.
  intros Ha Ht Hend Hfi E1.
  pose proof (take_split (buf_0 d) (buf_1 d) (Z.to_nat t)) as Hsl. fold (db_bytes d) in Hsl.
  change ((as_ioslices d (Z.to_nat t)).1 ++ (as_ioslices d (Z.to_nat t)).2
          = take (Z.to_nat t) (db_bytes d)) in Hsl.
  assert (length (take (Z.to_nat t) (db_bytes d)) = Z.to_nat t) as Hlt.
  { rewrite length_take, length_db_bytes. lia. }
  assert (r1 <> XPanic /\ if fa_padding (fi_attrs fi) then s1 = s
          else writes view idx abs (take (Z.to_nat t) (db_bytes d)) (is_ok r1) s s1) as [? ?].
  { destruct (fa_padding _); [by injection E1 as <- <-|]. unfold io_map_err in E1.
    pose proof (pwrite_all_vectored_spec idx abs (as_ioslices d (Z.to_nat t)).1
      (as_ioslices d (Z.to_nat t)).2 s Ha) as Hv. rewrite <- surjective_pairing, Hsl in Hv.
    destruct (pwrite_all_vectored idx abs _ s) as [s2 r2].
    destruct Hv as [? ?]; [unfold as_ioslices; cbn [fst]; rewrite length_take; lia|].
    destruct r2; injection E1 as <- <-; done. }
  split; [done|]. apply flat_writes_here; [lia..|done].
Qed.

Lemma write_chunk_files_spec fis idx abs (d : DoubleBuf) (s : S) :
  files_ok fis -> 0 <= abs -> (0 < db_len d)%nat -> abs + Z.of_nat (db_len d) <= total_len fis ->
  let '(s', r) := write_chunk_files (E:=E) fis idx abs d s in
  r <> XPanic /\ flat_writes fis idx abs (db_bytes d) (is_ok r) s s'.
Proof.
  intros Hf. revert idx abs d s. induction Hf as [|fi fis Hfi Hf IH]; intros idx abs d s Ha Hn Hend.
  { unfold total_len in Hend. simpl in Hend. lia. }
  unfold total_len in Hend. rewrite fmap_cons, zsum_cons in Hend. fold (total_len fis) in Hend.
  cbn [write_chunk_files]. rewrite Z.gtb_ltb. destruct (Z.ltb_spec (fi_len fi) abs).
  { specialize (IH (Datatypes.S idx) (abs - fi_len fi) d s ltac:(lia) ltac:(lia) ltac:(lia)).
    destruct (write_chunk_files _ _ _ _ _) as [s' r]. destruct IH as [? ?]. split; [done|].
    apply flat_writes_next; [lia..|done]. }
  set (t := Z.min (Z.of_nat (db_len d)) (fi_len fi - abs)).
  pose proof (drop_split (buf_0 d) (buf_1 d) (Z.to_nat t)) as Hadv. fold (db_bytes d) in Hadv.
  change (db_bytes (db_advance d (Z.to_nat t)) = drop (Z.to_nat t) (db_bytes d)) in Hadv.
  set (d' := db_advance d (Z.to_nat t)) in *.
  assert (length (take (Z.to_nat t) (db_bytes d)) = Z.to_nat t) as Hlt.
  { rewrite length_take, length_db_bytes. lia. }
  assert (db_len d' = db_len d - Z.to_nat t)%nat as Hl'.
  { rewrite <- length_db_bytes, Hadv, length_drop, length_db_bytes. done. }
  unfold mbind, io_bind.
  match goal with |- context [match ?m s with _ => _ end] => destruct (m s) as [s1 r1] eqn:E1 end.
  destruct (write_file_spec fi fis idx abs d t s s1 r1) as [Hnp Hfw]; [lia..|exact E1|]. clear E1.
  rewrite <- (take_drop (Z.to_nat t) (db_bytes d)).
  destruct r1 as [z|e|]; [|split; [done|by eapply flat_writes_frame]|done].
  unfold db_is_empty. replace ((length (buf_0 d') =? 0)%nat && (length (buf_1 d') =? 0)%nat)
    with (db_len d' =? 0)%nat.
  2:{ unfold db_len. destruct (length (buf_0 d')), (length (buf_1 d')); done. }
  destruct (Nat.eqb_spec (db_len d') 0).
  - cbn. split; [done|]. rewrite (drop_ge (db_bytes d)), app_nil_r by (rewrite length_db_bytes; lia). done.
  - specialize (IH (Datatypes.S idx) 0 d' s1 ltac:(lia) ltac:(lia) ltac:(lia)).
    destruct (write_chunk_files _ _ _ _ _) as [s2 r2]. destruct IH as [? Hfw2]. split; [done|].
    rewrite Hadv in Hfw2. eapply flat_writes_app; [lia..| |exact Hfw2]. exact Hfw.
Qed.
End Flat.

(** ** The operations on a torrent *)

(** Validation of the torrent gives this ([validate_correct]). *)
Record fo_ok (fo : FileOps) : Prop := {
  fok_lengths : lengths_wf (fo_lengths fo);
  fok_fit : chunks_fit (fo_lengths fo);
  fok_layout : files_layout 0 (fo_file_infos fo);
  fok_files : Forall (file_wf (fo_lengths fo)) (fo_file_infos fo);
  fok_total : total_len (fo_file_infos fo) = ln_total_length (fo_lengths fo)
}.

Lemma fo_files_ok fo : fo_ok fo -> files_ok (fo_file_infos fo).
Proof.
  intros [Hl _ _ Hf _]. pose proof (wf_total _ Hl).
  eapply Forall_impl; [|exact Hf]. intros fi [_ ? ? ?]. lia.
Qed.

Lemma piece_in_torrent l i :
  lengths_wf l -> valid_piece l i ->
  piece_offset l i = i * ln_piece_length l /\ 0 <= i * ln_piece_length l
  /\ i * ln_piece_length l + piece_length l i <= ln_total_length l.
Proof.
  intros Hl Hv. pose proof (last_id_spec l Hl) as (? & ? & ?). pose proof (wf_piece _ Hl).
  pose proof (wf_total _ Hl). unfold valid_piece in Hv.
  assert (i * ln_piece_length l + piece_length l i <= ln_total_length l) as Hend.
  { unfold piece_length. destruct (Z.eqb_spec i (ln_last_piece_id l)); nia. }
  pose proof (piece_length_pos l i Hl). split_and!; [|nia|done].
  unfold piece_offset. apply wrap_id. unfold is_uint. nia.
Qed.

Lemma chunk_in_piece l i c :
  lengths_wf l -> chunks_fit l -> valid_piece l i -> c ∈ iter_chunk_infos l i ->
  ci_piece_index c = i /\ 0 <= ci_offset c /\ 0 < ci_size c
  /\ ci_offset c + ci_size c <= piece_length l i
  /\ chunk_absolute_offset l c = i * ln_piece_length l + ci_offset c.
Proof.
  intros Hl Hfit Hv. rewrite iter_chunk_infos_spec by done.
  intros (k & -> & Hk%elem_of_seqZ)%list_elem_of_fmap. cbn [ci_piece_index ci_offset ci_size nth_chunk].
  pose proof (piece_length_pos l i Hl). rewrite chunks_per_piece_spec in Hk by done.
  pose proof (div_ceil_spec (piece_length l i) CHUNK_SIZE eq_refl).
  destruct (piece_in_torrent l i Hl Hv) as (Ho & ? & ?). pose proof (wf_total _ Hl).
  unfold CHUNK_SIZE in *. split_and!; try done; try nia.
  unfold chunk_absolute_offset. cbn [ci_piece_index ci_offset nth_chunk]. rewrite Ho.
  apply wrap_id. unfold is_uint, CHUNK_SIZE. nia.
Qed.

Lemma compare_hash_Some (ti : TorrentMetaV1Info) i h b :
  compare_hash ti i h = Some b <-> exists e, get_hash ti i = Some e /\ b = bool_decide (e = h).
Proof.
  unfold compare_hash, get_hash. destruct (slice_get _ _ _) as [e|]; cbn; naive_solver.
Qed.

Section Correct.
Context {S E : Type} `{StorageSpec S E} (sha1 : bytes -> bytes).

Abbreviation flat fo := (flat_at (fo_file_infos fo) 0).
Abbreviation piece_holds fo := (holds_at (fo_file_infos fo) 0).

(** Where a chunk starts in the torrent. *)
Definition chunk_pos (fo : FileOps) (ci : ChunkInfo) : Z :=
  ci_piece_index ci * ln_piece_length (fo_lengths fo) + ci_offset ci.

Lemma write_chunk_spec (fo : FileOps) (i : Z) (ci : ChunkInfo) (data : Piece) (s : S) :
  fo_ok fo -> valid_piece (fo_lengths fo) i -> ci ∈ iter_chunk_infos (fo_lengths fo) i ->
  Z.of_nat (Piece_len data) = ci_size ci ->
  let '(s', r) := write_chunk (E:=E) fo data ci s in
  r <> XPanic
  /\ flat_writes (fo_file_infos fo) 0 (chunk_pos fo ci) (p_block_0 data ++ p_block_1 data) (is_ok r) s s'.
Proof.
  intros Hok Hv Hci Hl. pose proof (fo_files_ok _ Hok) as Hf. destruct Hok as [Hwf Hfit _ _ Ht].
  destruct (chunk_in_piece _ i ci Hwf Hfit Hv Hci) as (Hi & ? & ? & ? & Ha).
  destruct (piece_in_torrent _ i Hwf Hv) as (_ & ? & ?).
  unfold write_chunk, chunk_pos. rewrite Ha, Hi.
  unfold Piece_len in Hl. apply write_chunk_files_spec; [done|lia|unfold db_len; simpl; lia..].
Qed.

(** C15: Writing a chunk of a valid piece never panics, changes no byte of the torrent outside the
    chunk even when the storage fails half way, and on success leaves the chunk's bytes there, across
    any number of files, whichever way the network buffer was split; padding files read as zeros and
    are not written. *)
Theorem write_chunk_correct (fo : FileOps) (i : Z) (ci : ChunkInfo) (data : Piece) (s s' : S)
    (r : exec (FoError E) ()) :
  fo_ok fo -> valid_piece (fo_lengths fo) i -> ci ∈ iter_chunk_infos (fo_lengths fo) i ->
  Z.of_nat (Piece_len data) = ci_size ci -> write_chunk fo data ci s = (s', r) ->
  r <> XPanic
  /\ (forall p b, 0 <= p -> ~ (chunk_pos fo ci <= p < chunk_pos fo ci + ci_size ci) ->
        flat fo s p = Some b -> flat fo s' p = Some b)
  /\ (r = XOk () -> forall k, (k < Piece_len data)%nat ->
        flat fo s' (chunk_pos fo ci + Z.of_nat k)
        = if padding_at (fo_file_infos fo) (chunk_pos fo ci + Z.of_nat k) then Some 0
          else (p_block_0 data ++ p_block_1 data) !! k).
Proof.
  intros Hok Hv Hci Hl Hw. pose proof (write_chunk_spec fo i ci data s Hok Hv Hci Hl) as Hs.
  rewrite Hw in Hs. destruct Hs as [Hnp [_ Ho Hd]].
  unfold Piece_len in *. rewrite <- length_app in *. split_and!; [done| |].
  - intros p b Hp Hn. apply Ho; [done|lia].
  - intros -> k Hk. by apply Hd.
Qed.

Lemma read_chunk_spec (fo : FileOps) (i : Z) (ci : ChunkInfo) (buf : bytes) (s : S) :
  fo_ok fo -> valid_piece (fo_lengths fo) i -> ci ∈ iter_chunk_infos (fo_lengths fo) i ->
  Z.of_nat (length buf) = ci_size ci ->
  match read_chunk (E:=E) fo s ci buf with
  | XOk bs => Z.of_nat (length bs) = ci_size ci /\ piece_holds fo s (chunk_pos fo ci) bs
  | XErr _ => failing_read (E:=E) (fo_file_infos fo) 0 s
  | XPanic => False
  end.
Proof.
  intros Hok Hv Hci Hl. pose proof (fo_files_ok _ Hok) as Hf. destruct Hok as [Hwf Hfit _ _ Ht].
  destruct (chunk_in_piece _ i ci Hwf Hfit Hv Hci) as (Hi & ? & ? & ? & Ha).
  destruct (piece_in_torrent _ i Hwf Hv) as (_ & ? & ?).
  unfold read_chunk, chunk_pos. rewrite Ha, Hi. destruct (Z.ltb_spec (Z.of_nat (length buf)) (ci_size ci)); [lia|].
  pose proof (read_chunk_files_spec (fo_file_infos fo) 0 s
    (i * ln_piece_length (fo_lengths fo) + ci_offset ci) buf Hf ltac:(lia) ltac:(lia) ltac:(lia)) as Hr.
  destruct (read_chunk_files _ _ _ _ _); [|done..]. destruct Hr. split; [lia|done].
Qed.

Definition zero_padding (fis : list FileInfo) (off : Z) (bs : bytes) : bytes :=
  imap (fun k b => if padding_at fis (off + Z.of_nat k) then 0 else b) bs.

(** What a chunk was written with is what an upload of that chunk reads, up to padding files,
    which read as zeros; a read that fails is a failure of the storage. *)
Theorem read_after_write (fo : FileOps) (i : Z) (ci : ChunkInfo) (data : Piece) (buf : bytes)
    (s s' : S) :
  fo_ok fo -> valid_piece (fo_lengths fo) i -> ci ∈ iter_chunk_infos (fo_lengths fo) i ->
  Z.of_nat (Piece_len data) = ci_size ci -> Z.of_nat (length buf) = ci_size ci ->
  write_chunk (E:=E) fo data ci s = (s', XOk ()) ->
  match read_chunk (E:=E) fo s' ci buf with
  | XOk bs => bs = zero_padding (fo_file_infos fo) (chunk_pos fo ci) (p_block_0 data ++ p_block_1 data)
  | XErr _ => failing_read (E:=E) (fo_file_infos fo) 0 s'
  | XPanic => False
  end.
Proof.
  intros Hok Hv Hci Hl Hb Hw. pose proof (write_chunk_spec fo i ci data s Hok Hv Hci Hl) as Hs.
  rewrite Hw in Hs. destruct Hs as [_ [_ _ Hd]].
  pose proof (read_chunk_spec fo i ci buf s' Hok Hv Hci Hb) as Hr.
  destruct (read_chunk _ _ _ _) as [bs|e|]; [|done..]. destruct Hr as [Hlen Hr].
  unfold Piece_len in Hl. rewrite <- length_app in Hl.
  eapply holds_at_unique; [|exact Hr|].
  - unfold zero_padding. rewrite length_imap. lia.
  - intros k Hk. unfold zero_padding in *. rewrite length_imap in Hk. rewrite list_lookup_imap, Hd by done.
    destruct (lookup_lt_is_Some_2 _ _ Hk) as [b ->]. simpl. by destruct (padding_at _ _).
Qed.

Lemma check_piece_spec (fo : FileOps) (s : S) (i : Z) :
  fo_ok fo -> valid_piece (fo_lengths fo) i ->
  match check_piece sha1 (E:=E) fo s i with
  | XOk b => exists bs e, Z.of_nat (length bs) = piece_length (fo_lengths fo) i
      /\ piece_holds fo s (i * ln_piece_length (fo_lengths fo)) bs
      /\ get_hash (fo_info fo) i = Some e /\ b = bool_decide (e = sha1 bs)
  | XErr _ => get_hash (fo_info fo) i = None \/ failing_read (E:=E) (fo_file_infos fo) 0 s
  | XPanic => False
  end.
Proof.
  intros Hok Hv. pose proof (fo_files_ok _ Hok) as Hf. destruct Hok as [Hwf Hfit _ _ Ht].
  destruct (piece_in_torrent _ i Hwf Hv) as (Ho & ? & ?). pose proof (piece_length_pos _ i Hwf).
  unfold check_piece. rewrite Ho.
  pose proof (check_piece_files_spec (fo_file_infos fo) 0 s (i * ln_piece_length (fo_lengths fo))
    (piece_length (fo_lengths fo) i) (Z.min 65536 (piece_length (fo_lengths fo) i)) []
    Hf ltac:(lia) ltac:(lia) ltac:(lia) ltac:(lia)) as Hc.
  destruct (check_piece_files _ _ _ _ _ _ _); cbn; [|by right|done].
  destruct Hc as (bs & -> & ? & ?). rewrite app_nil_l.
  destruct (compare_hash _ _ _) as [b|] eqn:E1.
  - apply compare_hash_Some in E1 as (e & ? & ->). by exists bs, e.
  - left. unfold compare_hash in E1. unfold get_hash. by destruct (slice_get _ _ _).
Qed.

(** C16: The hash check of a piece never panics; when it answers, it has hashed exactly the bytes of
    the piece, gathered from all files it spans, and compared them with the piece's 20 bytes of the
    metainfo; it fails only when those are missing or the storage fails, so it answers on a readable
    storage. *)
Theorem check_piece_correct (fo : FileOps) (s : S) (i : Z) :
  fo_ok fo -> valid_piece (fo_lengths fo) i ->
  check_piece sha1 (E:=E) fo s i <> XPanic
  /\ (forall b, check_piece sha1 (E:=E) fo s i = XOk b ->
        exists bs e, Z.of_nat (length bs) = piece_length (fo_lengths fo) i
          /\ piece_holds fo s (i * ln_piece_length (fo_lengths fo)) bs
          /\ get_hash (fo_info fo) i = Some e /\ b = bool_decide (e = sha1 bs))
  /\ (readable (E:=E) (fo_file_infos fo) s -> is_Some (get_hash (fo_info fo) i) ->
        exists b, check_piece sha1 (E:=E) fo s i = XOk b).
Proof.
  intros Hok Hv. pose proof (check_piece_spec fo s i Hok Hv) as Hc.
  destruct (check_piece sha1 fo s i) as [b|e|]; [| |done].
  - split_and!; [done|by intros ? [= ->]|by exists b].
  - split_and!; [done..|]. intros Hr [h Hh]. destruct Hc as [Hn|Hn]; [congruence|].
    by apply readable_no_failing in Hr.
Qed.
End Correct.

(** ** The initial check *)

Section InitialCheck.
Context {S E : Type} `{StorageSpec S E} (sha1 : bytes -> bytes) (is_missing_data : FoError E -> bool).

(** The check stands at byte [P] of the torrent: in file [cf], with [rest] behind it. *)
Definition at_pos (fis : list FileInfo) (cf : CurrentFile) (rest : list (nat * FileInfo)) (P : Z)
    : Prop :=
  exists pre suf, fis = pre ++ cf_fi cf :: suf /\ cf_index cf = length pre
    /\ rest = imap (fun k fi => (Datatypes.S (length pre) + k, fi)%nat) suf
    /\ 0 <= cf_processed_bytes cf <= fi_len (cf_fi cf)
    /\ P = total_len pre + cf_processed_bytes cf.

Lemma total_len_app l1 l2 : total_len (l1 ++ l2) = total_len l1 + total_len l2.
Proof. unfold total_len. by rewrite fmap_app, zsum_app. Qed.

Lemma flat_at_app pre suf idx (s : S) p :
  files_ok pre -> 0 <= p ->
  flat_at (pre ++ suf) idx s (total_len pre + p) = flat_at suf (idx + length pre) s p.
Proof.
  intros Hf. revert idx. induction Hf as [|fi pre Hfi Hf IH]; intros idx Hp.
  { simpl. by rewrite Nat.add_0_r. }
  pose proof (total_len_nonneg pre Hf).
  change (total_len (fi :: pre)) with (fi_len fi + total_len pre).
  rewrite <- app_comm_cons, flat_at_next by lia. simpl length.
  replace (fi_len fi + total_len pre + p - fi_len fi) with (total_len pre + p) by lia.
  rewrite IH by done. f_equal. lia.
Qed.

Lemma next_file_spec fis cf rest P n :
  files_ok fis -> at_pos fis cf rest P -> 0 < n -> P + n <= total_len fis ->
  exists t cf' rest', next_file (E:=E) n cf rest = Ok (t, cf', rest')
    /\ at_pos fis cf' rest' P /\ 0 < t <= n /\ cf_processed_bytes cf' + t <= fi_len (cf_fi cf')
    /\ (cf_is_broken cf = false -> cf_is_broken cf' = false).
Proof.
  intros Hok. revert cf. induction rest as [|[idx fi] rest IH]; intros cf Hat Hn Hend;
    pose proof Hat as (pre & suf & Hfis & Hidx & Hrest & Hq & HP); cbn [next_file]; unfold cf_remaining;
    destruct (Z.eqb_spec (Z.min (fi_len (cf_fi cf) - cf_processed_bytes cf) n) 0) as [Hz|Hz]; cbn [negb].
  - destruct suf; [|done]. rewrite Hfis, total_len_app in Hend. unfold total_len at 2 in Hend.
    simpl in Hend. lia.
  - exists (Z.min (fi_len (cf_fi cf) - cf_processed_bytes cf) n), cf, []. split_and!; [done..|lia|lia|lia|done].
  - destruct suf as [|fi' suf]; [done|]. rewrite imap_cons in Hrest.
    injection Hrest as -> -> ->.
    assert (fi' ∈ fis) as Hin by (rewrite Hfis, elem_of_app, !elem_of_cons; tauto).
    pose proof (files_ok_elem _ _ Hok Hin) as Hfi.
    match goal with |- context [next_file n ?c ?r] =>
      destruct (IH c) as (t & cf' & rest' & -> & ? & ? & ? & Hb); [|done|done|] end.
    + exists (pre ++ [cf_fi cf]), suf. rewrite <- app_assoc, length_app, total_len_app.
      unfold total_len at 2. simpl. split_and!; try done; try lia.
      apply imap_ext. intros. simpl. f_equal. lia.
    + exists t, cf', rest'. split_and!; try done; try lia. intros _. by apply Hb.
  - eexists _, cf, _. split_and!; [done..|lia|lia|lia|done].
Qed.

(** After [t] more bytes of the current file. *)
Lemma at_pos_advance fis cf rest P t broken :
  files_ok fis -> at_pos fis cf rest P -> 0 < t -> cf_processed_bytes cf + t <= fi_len (cf_fi cf) ->
  at_pos fis (mkCurrentFile (cf_index cf) (cf_fi cf) (u64 (cf_processed_bytes cf + t)) broken) rest
    (P + t).
Proof.
  intros Hok (pre & suf & Hfis & Hidx & Hrest & Hq & HP) Ht Hend.
  pose proof (files_ok_elem fis (cf_fi cf) Hok ltac:(rewrite Hfis, elem_of_app, elem_of_cons; tauto)).
  exists pre, suf. cbn. rewrite wrap_id by (unfold is_uint; lia). split_and!; try done; lia.
Qed.

(** Bytes of the current file are bytes of the torrent. *)
Lemma at_pos_holds fis cf rest P (s : S) bs :
  files_ok fis -> at_pos fis cf rest P ->
  (forall suf, holds_at (cf_fi cf :: suf) (cf_index cf) s (cf_processed_bytes cf) bs) ->
  holds_at fis 0 s P bs.
Proof.
  intros Hok (pre & suf & -> & Hidx & Hrest & Hq & ->) Hh k Hk.
  rewrite <- Z.add_assoc, flat_at_app; [|by apply Forall_app in Hok as [? _]|lia].
  rewrite Nat.add_0_l, <- Hidx. by apply Hh.
Qed.

Lemma at_pos_lookup fis cf rest P : at_pos fis cf rest P -> fis !! cf_index cf = Some (cf_fi cf).
Proof. intros (pre & suf & -> & -> & _). by apply list_lookup_middle. Qed.

(** The bytes [bs] are those of the torrent at some of the [n] positions from [P] on, in
    their order. *)
Definition holds_part (fis : list FileInfo) (s : S) (P n : Z) (bs : bytes) : Prop :=
  exists ps, ps `sublist_of` seqZ P n /\ Forall2 (fun p b => flat_at fis 0 s p = Some b) ps bs.

Lemma holds_part_nil fis (s : S) P n : holds_part fis s P n [].
Proof. exists []. split; [apply sublist_nil_l|constructor]. Qed.

Lemma holds_at_Forall2 fis (s : S) P bs :
  holds_at fis 0 s P bs ->
  Forall2 (fun p b => flat_at fis 0 s p = Some b) (seqZ P (Z.of_nat (length bs))) bs.
Proof.
  intros Hh. apply Forall2_same_length_lookup. split; [rewrite length_seqZ; lia|].
  intros k p b (-> & Hk)%lookup_seqZ Hb. rewrite Hh by lia. done.
Qed.

Lemma holds_part_app fis (s : S) P t n b1 bs :
  0 <= t -> t <= n -> Z.of_nat (length b1) = t -> holds_at fis 0 s P b1 ->
  holds_part fis s (P + t) (n - t) bs -> holds_part fis s P n (b1 ++ bs).
Proof.
  intros ? ? Hl Hh (ps & Hps & Hf). exists (seqZ P t ++ ps). rewrite <- Hl in *. split.
  - replace n with (Z.of_nat (length b1) + (n - Z.of_nat (length b1))) by lia.
    rewrite seqZ_app by lia. by apply sublist_app.
  - apply Forall2_app; [by apply holds_at_Forall2|done].
Qed.

Lemma holds_part_skip fis (s : S) P t n bs :
  0 <= t -> t <= n -> holds_part fis s (P + t) (n - t) bs -> holds_part fis s P n bs.
Proof.
  intros ? ? (ps & Hps & Hf). exists ps. split; [|done].
  replace n with (t + (n - t)) by lia. rewrite seqZ_app by lia. by apply sublist_inserts_l.
Qed.

Lemma check_loop_spec fuel fis (s : S) piece P n (st : CheckState) :
  files_ok fis -> at_pos fis (ck_file st) (ck_rest st) P -> 0 <= n <= Z.of_nat fuel ->
  P + n <= total_len fis ->
  exists st' bs,
    check_loop is_missing_data fuel s piece n st = XOk st'
    /\ at_pos fis (ck_file st') (ck_rest st') (P + n)
    /\ ck_hash st' = ck_hash st ++ bs /\ Z.of_nat (length bs) <= n
    /\ (Z.of_nat (length bs) = n -> holds_at fis 0 s P bs) /\ holds_part fis s P n bs
    /\ (readable (E:=E) fis s -> cf_is_broken (ck_file st) = false ->
         Z.of_nat (length bs) = n /\ ck_broken st' = ck_broken st
         /\ ck_reported st' = ck_reported st /\ cf_is_broken (ck_file st') = false).
Proof.
  intros Hok. revert P n st. induction fuel as [|fuel IH]; intros P n st Hat Hn Hend;
    cbn [check_loop]; destruct (Z.eqb_spec n 0) as [->|Hn0]; [|lia| |].
  1,2: exists st, []; rewrite app_nil_r, Z.add_0_r; split_and!; try done; try (simpl; lia);
       try apply holds_part_nil; intros _ k Hk; simpl in Hk; lia.
  destruct (next_file_spec fis (ck_file st) (ck_rest st) P n Hok Hat ltac:(lia) Hend)
    as (t & cf & rest & -> & Hat' & Ht & Hq & Hbr). cbn.
  pose proof (at_pos_lookup _ _ _ _ Hat') as Hlk.
  pose proof (files_ok_elem fis _ Hok (list_elem_of_lookup_2 _ _ _ Hlk)) as Hfi.
  assert (0 <= cf_processed_bytes cf) as Hq0 by (by destruct Hat' as (? & ? & _ & _ & _ & ? & _); lia).
  assert (forall b, at_pos fis (mkCurrentFile (cf_index cf) (cf_fi cf)
    (u64 (cf_processed_bytes cf + t)) b) rest (P + t)) as Hadv by (intros; apply at_pos_advance; [done..|lia|lia]).
  destruct (cf_is_broken cf) eqn:Ebr.
  { destruct (IH (P + t) (n - t) (mkCheck (mark_processed_bytes cf t) rest (ck_hash st) (ck_broken st)
      (ck_reported st)) ltac:(apply Hadv) ltac:(lia) ltac:(lia)) as (st' & bs & -> & Hat2 & Hh & ? & _ & Hpt & _).
    exists st', bs. replace (P + t + (n - t)) with (P + n) in Hat2 by lia.
    split_and!; try done; try lia; [by apply holds_part_skip with t; [lia..|]|]. intros _ Hnb. specialize (Hbr Hnb). congruence. }
  pose proof (fun suf => update_hash_spec (Z.to_nat t) (cf_fi cf) suf (cf_index cf) s (ck_hash st) 65536 t 0
    (cf_processed_bytes cf) ltac:(lia) ltac:(lia) Hq0 ltac:(lia) ltac:(lia)) as Hu.
  destruct (update_hash_from_file _ _ _ _ _ _ _ _ _) as [h|e|]; [| |by destruct (Hu [])].
  - destruct (Hu []) as (b1 & -> & Hb1 & _).
    assert (holds_at fis 0 s P b1) as Hh1.
    { eapply at_pos_holds; [done|exact Hat'|]. intros suf. destruct (Hu suf) as (b2 & Hb2 & _ & ?).
      by apply app_inv_head in Hb2 as <-. }
    destruct (IH (P + t) (n - t) (mkCheck (mark_processed_bytes cf t) rest (ck_hash st ++ b1) (ck_broken st)
      (ck_reported st)) ltac:(apply Hadv) ltac:(lia) ltac:(lia)) as (st' & bs & -> & Hat2 & Hh & Hl & Hho & Hpt & Hre).
    exists st', (b1 ++ bs). replace (P + t + (n - t)) with (P + n) in Hat2 by lia.
    rewrite Hh, app_assoc, length_app. split_and!; try done; try lia.
    + intros Hlen. apply holds_at_app; [done|]. rewrite Hb1. apply Hho. lia.
    + by apply holds_part_app with t; [lia..| |].
    + intros Hr Hnb. destruct (Hre Hr Ebr) as (? & ? & ? & ?). split_and!; try done; lia.
  - match goal with |- context [check_loop _ fuel s piece (n - t) ?x] =>
      destruct (IH (P + t) (n - t) x ltac:(apply Hadv) ltac:(lia) ltac:(lia))
        as (st' & bs & -> & Hat2 & Hh & ? & _ & Hpt & _) end.
    exists st', bs. replace (P + t + (n - t)) with (P + n) in Hat2 by lia.
    split_and!; try done; try lia; [by apply holds_part_skip with t; [lia..|]|]. intros Hr _. destruct (Hu []) as (Hp & off & m & e' & ? & ? & He).
    destruct (Hr _ _ off m Hlk Hp) as [? ?]; [lia..|]. congruence.
Qed.

(** The bytes of piece [j] on the storage have the hash of the metainfo. *)
Definition verified (fo : FileOps) (s : S) (j : Z) : Prop :=
  exists bs, Z.of_nat (length bs) = piece_length (fo_lengths fo) j
    /\ holds_at (fo_file_infos fo) 0 s (j * ln_piece_length (fo_lengths fo)) bs
    /\ get_hash (fo_info fo) j = Some (sha1 bs).

(** Not all of the bytes of piece [j] on the storage, but some of them taken together
    have that hash: what the check compares when it skips a file that it could not
    read before. *)
Definition verified_in_part (fo : FileOps) (s : S) (j : Z) : Prop :=
  exists bs, Z.of_nat (length bs) < piece_length (fo_lengths fo) j
    /\ holds_part (fo_file_infos fo) s (j * ln_piece_length (fo_lengths fo)) (piece_length (fo_lengths fo) j) bs
    /\ get_hash (fo_info fo) j = Some (sha1 bs).

(** What a set bit says: the piece is verified, or it is in part on a storage that is
    not [clean]. *)
Definition bit_means (fo : FileOps) (s : S) (clean : Prop) (j : Z) : Prop :=
  verified fo s j \/ ~ clean /\ verified_in_part fo s j.

(** The bits from [i] on after the check of the pieces from [i] on. *)
Definition bits_checked (fo : FileOps) (s : S) (clean : Prop) (i : Z) (hv hv' : BF) : Prop :=
  length hv' = length hv
  /\ (forall j, 0 <= j < i -> bit hv' (Z.to_nat j) = bit hv (Z.to_nat j))
  /\ (forall j, i <= j <= ln_last_piece_id (fo_lengths fo) -> bit hv' (Z.to_nat j) = true ->
        bit_means fo s clean j)
  /\ (clean -> forall j, i <= j <= ln_last_piece_id (fo_lengths fo) -> verified fo s j ->
        bit hv' (Z.to_nat j) = true).

Lemma bit_means_mono fo s (c c' : Prop) j : (c -> c') -> bit_means fo s c' j -> bit_means fo s c j.
Proof. unfold bit_means. tauto. Qed.

Lemma bits_checked_step fo s clean i (hv hv1 hv' : BF) b :
  0 <= i -> (Z.to_nat i < length hv)%nat ->
  (b = true -> bit_means fo s clean i) -> (clean -> verified fo s i -> b = true) ->
  bit hv (Z.to_nat i) = false -> hv1 = (if b then <[Z.to_nat i := true]> hv else hv) ->
  bits_checked fo s clean (i + 1) hv1 hv' -> bits_checked fo s clean i hv hv'.
Proof.
  intros Hi Hlen Hb Hc Hz0 -> (Hl & Hlow & Hs & Hv).
  assert (bit hv' (Z.to_nat i) = b) as Hbi.
  { rewrite Hlow by lia. destruct b; [|done]. rewrite bit_insert by done. by rewrite decide_True. }
  split_and!.
  - rewrite Hl. destruct b; [apply length_insert|done].
  - intros j Hj. rewrite Hlow by lia. destruct b; [|done].
    rewrite bit_insert by done. by rewrite decide_False by lia.
  - intros j Hj Hbit. destruct (decide (j = i)) as [->|]; [apply Hb; congruence|]. apply Hs; [lia|done].
  - intros Hcl j Hj Hver. destruct (decide (j = i)) as [->|]; [rewrite Hbi; by apply Hc|].
    apply Hv; [done|lia|done].
Qed.

(** The check of one piece: where it leaves off, and what the comparison says. *)
Lemma check_one_piece fo (s : S) i (st : CheckState (E:=E)) rep :
  fo_ok fo -> valid_piece (fo_lengths fo) i -> is_Some (get_hash (fo_info fo) i) ->
  at_pos (fo_file_infos fo) (ck_file st) (ck_rest st) (i * ln_piece_length (fo_lengths fo)) ->
  exists st1 b,
    check_loop is_missing_data (Z.to_nat (piece_length (fo_lengths fo) i)) s i
      (piece_length (fo_lengths fo) i) (mkCheck (ck_file st) (ck_rest st) [] false rep) = XOk st1
    /\ (i < ln_last_piece_id (fo_lengths fo) ->
         at_pos (fo_file_infos fo) (ck_file st1) (ck_rest st1) ((i + 1) * ln_piece_length (fo_lengths fo)))
    /\ compare_hash (fo_info fo) i (sha1 (ck_hash st1)) = Some b
    /\ (b = true -> bit_means fo s (readable (E:=E) (fo_file_infos fo) s /\ cf_is_broken (ck_file st) = false) i)
    /\ (readable (E:=E) (fo_file_infos fo) s -> cf_is_broken (ck_file st) = false ->
         ck_broken st1 = false /\ cf_is_broken (ck_file st1) = false /\ ck_reported st1 = rep
         /\ (verified fo s i -> b = true)).
Proof.
  intros Hok Hv [e He] Hat. pose proof (fo_files_ok _ Hok) as Hf. destruct Hok as [Hwf _ _ _ Ht].
  destruct (piece_in_torrent _ i Hwf Hv) as (_ & ? & ?). pose proof (piece_length_pos _ i Hwf).
  destruct (check_loop_spec (Z.to_nat (piece_length (fo_lengths fo) i)) (fo_file_infos fo) s i
    (i * ln_piece_length (fo_lengths fo)) (piece_length (fo_lengths fo) i)
    (mkCheck (ck_file st) (ck_rest st) [] false rep) Hf Hat ltac:(lia) ltac:(lia))
    as (st1 & bs & -> & Hat1 & Hh & Hl & Hho & Hpt & Hre). cbn in Hh, Hre.
  exists st1, (bool_decide (e = sha1 bs)). rewrite Hh. split_and!; [done| |by apply compare_hash_Some; exists e| |].
  - intros Hi. replace ((i + 1) * ln_piece_length (fo_lengths fo))
      with (i * ln_piece_length (fo_lengths fo) + piece_length (fo_lengths fo) i); [done|].
    unfold piece_length. destruct (Z.eqb_spec i (ln_last_piece_id (fo_lengths fo))); lia.
  - rewrite bool_decide_eq_true. intros ->.
    destruct (Z.eq_dec (Z.of_nat (length bs)) (piece_length (fo_lengths fo) i)).
    + left. exists bs. split_and!; auto.
    + right. split; [intros [Hr Hbk]; by destruct (Hre Hr Hbk)|]. exists bs. split_and!; [lia|done..].
  - intros Hr Hbk. destruct (Hre Hr Hbk) as (Hl1 & ? & ? & ?). split_and!; [done..|].
    intros (bs2 & Hl2 & Hh2 & He2). rewrite He in He2. injection He2 as ->. apply bool_decide_eq_true.
    f_equal. eapply holds_at_unique; [|exact Hh2|by apply Hho]. lia.
Qed.

Lemma initial_check_pieces_spec fo (s : S) paused m i st hv progress :
  fo_ok fo -> (forall j, paused j = false) ->
  (forall j, valid_piece (fo_lengths fo) j -> is_Some (get_hash (fo_info fo) j)) ->
  0 <= i -> i + Z.of_nat m = total_pieces (fo_lengths fo) ->
  ((0 < m)%nat -> at_pos (fo_file_infos fo) (ck_file st) (ck_rest st) (i * ln_piece_length (fo_lengths fo))) ->
  length hv = Z.to_nat (8 * piece_bitfield_bytes (fo_lengths fo)) ->
  (forall j, i <= j -> bit hv (Z.to_nat j) = false) ->
  let clean := readable (E:=E) (fo_file_infos fo) s /\ cf_is_broken (ck_file st) = false in
  exists hv' prog rep,
    initial_check_pieces sha1 is_missing_data fo s paused
      ((fun j => mkPieceInfo j (piece_length (fo_lengths fo) j)) <$> seqZ i (Z.of_nat m)) st hv progress
    = XOk (hv', prog, rep)
    /\ bits_checked fo s clean i hv hv' /\ (clean -> rep = ck_reported st).
Proof.
  intros Hok Hnp Hhash. pose proof (fok_lengths _ Hok) as Hwf. rewrite total_pieces_wf by done.
  revert i st hv progress. induction m as [|m IH]; intros i st hv progress Hi Him Hat Hlen Hz clean.
  { exists hv, progress, (ck_reported st). split_and!; try done; unfold bits_checked; split_and!; try done;
      intros; lia. }
  rewrite Nat2Z.inj_succ, <- Z.add_1_r, seqZ_cons by lia.
  rewrite fmap_cons. cbn [initial_check_pieces pi_piece_index pi_len].
  rewrite Hnp. assert (valid_piece (fo_lengths fo) i) as Hv by (unfold valid_piece; lia).
  replace (Z.pred (Z.of_nat m + 1)) with (Z.of_nat m) by lia. rewrite <- Z.add_1_r.
  destruct (check_one_piece fo s i st (ck_reported st) Hok Hv (Hhash i Hv) ltac:(apply Hat; lia))
    as (st1 & b & -> & Hat1 & Hcmp & Hb & Hre). cbn. rewrite Hcmp.
  pose proof (bitfield_covers _ i Hwf Hv) as Hcov. rewrite <- Hlen in Hcov.
  set (b1 := negb (ck_broken st1) && b). set (hv1 := if b1 then <[Z.to_nat i := true]> hv else hv).
  assert (Hlen1 : length hv1 = length hv) by (unfold hv1; destruct b1; [apply length_insert|done]).
  assert (Hz1 : forall j, i + 1 <= j -> bit hv1 (Z.to_nat j) = false).
  { intros j Hj. unfold hv1. destruct b1; [|apply Hz; lia]. rewrite bit_insert by done.
    rewrite decide_False by lia. apply Hz. lia. }
  destruct (IH (i + 1) st1 hv1 (u64 (progress + piece_length (fo_lengths fo) i)) ltac:(lia) ltac:(lia)
    ltac:(intros; apply Hat1; lia) ltac:(congruence) Hz1) as (hv' & prog & rep & Hrun & Hbits & Hrep).
  exists hv', prog, rep. split_and!.
  - rewrite <- Hrun. unfold hv1, b1. destruct (ck_broken st1), b; cbn; try done. by rewrite slice_set_lt.
  - apply (bits_checked_step fo s clean i hv hv1 hv' b1); [lia|done| | |apply Hz; lia|done|].
    + intros [_ ?]%andb_prop. by apply Hb.
    + intros [Hr Hbk] Hver. destruct (Hre Hr Hbk) as (Hb0 & _ & _ & Hbt). unfold b1. by rewrite Hb0, Hbt.
    + destruct Hbits as (? & ? & Hs' & Hv'). assert (Hcl : clean -> readable (E:=E) (fo_file_infos fo) s
        /\ cf_is_broken (ck_file st1) = false) by (intros [Hr Hbk]; by destruct (Hre Hr Hbk) as (_ & ? & _)).
      split_and!; try done; [|by auto]. intros j Hj Hbj. eapply bit_means_mono; [exact Hcl|by apply Hs'].
  - intros [Hr Hbk]. destruct (Hre Hr Hbk) as (_ & ? & <- & _). by apply Hrep.
Qed.


(** A request to pause ends the check with an error; until then it does not change
    what is done. *)
Lemma initial_check_paused (fo : FileOps) (s : S) (paused : Z -> bool) (progress : Z) :
  initial_check sha1 is_missing_data fo s paused progress = XErr (FoMsg CheckPaused)
  \/ initial_check sha1 is_missing_data fo s paused progress
     = initial_check sha1 is_missing_data fo s (fun _ => false) progress.
Proof.
  unfold initial_check. destruct (imap pair (fo_file_infos fo)) as [|[idx fi] rest]; [by right|].
  generalize (mkCheck (E:=E) (mkCurrentFile idx fi 0 false) rest [] false []) (bf_zeroed (piece_bitfield_bytes (fo_lengths fo))).
  revert progress. induction (iter_piece_infos (fo_lengths fo)) as [|p ps IH]; intros progress st hv; [by right|].
  cbn [initial_check_pieces]. destruct (paused (pi_piece_index p)); [by left|].
  destruct (check_loop _ _ _ _ _ _) as [st1|e|]; cbn [mbind exec_bind]; [|by right..].
  destruct (ck_broken st1); [apply IH|].
  destruct (compare_hash _ _ _) as [[]|]; [|apply IH|by right].
  destruct (exec_of_outcome _) as [hv1|e|]; cbn [mbind exec_bind]; [apply IH|by right..].
Qed.

(** The initial check ends with a bit field whatever the storage answers (read errors are
    reported, not fatal).  A set bit means that the bytes of the piece on the storage have the hash
    of the metainfo, or, where some file cannot be read, that a part of those bytes has it; on a
    readable storage no error is reported and every verified piece has its bit set. *)
Theorem initial_check_correct (fo : FileOps) (s : S) (paused : Z -> bool) (progress : Z) :
  fo_ok fo -> (forall i, paused i = false) ->
  (forall i, valid_piece (fo_lengths fo) i -> is_Some (get_hash (fo_info fo) i)) ->
  exists hv prog rep,
    initial_check sha1 is_missing_data fo s paused progress = XOk (hv, prog, rep)
    /\ length hv = Z.to_nat (8 * piece_bitfield_bytes (fo_lengths fo))
    /\ (forall i, valid_piece (fo_lengths fo) i -> bit hv (Z.to_nat i) = true ->
          bit_means fo s (readable (E:=E) (fo_file_infos fo) s) i)
    /\ (readable (E:=E) (fo_file_infos fo) s ->
          rep = [] /\ forall i, valid_piece (fo_lengths fo) i -> verified fo s i ->
                       bit hv (Z.to_nat i) = true).
Proof.
  intros Hok Hnp Hhash. pose proof (fok_lengths _ Hok) as Hwf. pose proof (fok_total _ Hok) as Ht.
  pose proof (wf_total _ Hwf). pose proof (last_id_spec _ Hwf).
  unfold initial_check. destruct (fo_file_infos fo) as [|fi fis] eqn:Efis.
  { unfold total_len in Ht. simpl in Ht. lia. }
  rewrite imap_cons. unfold iter_piece_infos.
  change (fun idx : Z => {| pi_piece_index := idx; pi_len := _ |})
    with (fun j : Z => mkPieceInfo j (piece_length (fo_lengths fo) j)).
  rewrite <- (Z2Nat.id (total_pieces (fo_lengths fo))) by (rewrite total_pieces_wf; [lia|done]).
  match goal with |- context [initial_check_pieces _ _ _ _ _ _ ?st ?hv _] =>
    destruct (initial_check_pieces_spec fo s paused (Z.to_nat (total_pieces (fo_lengths fo))) 0 st hv
      progress Hok Hnp Hhash) as (hv' & prog & rep & -> & (Hl & _ & Hs & Hc) & Hrep) end.
  - lia.
  - rewrite total_pieces_wf by done. lia.
  - intros _. rewrite Efis. exists [], fis. cbn. split_and!; try done.
    pose proof (files_ok_elem (fi :: fis) fi ltac:(rewrite <- Efis; by apply fo_files_ok) ltac:(left)). lia.
  - apply length_bf_zeroed.
  - intros. apply bit_zeroed.
  - exists hv', prog, rep. rewrite Efis in *. split_and!; try done.
    + by rewrite Hl, length_bf_zeroed.
    + intros i Hi Hbi. eapply bit_means_mono; [|by apply Hs]. done.
    + intros Hr. split; [by apply Hrep|]. intros i Hi Hv. by apply Hc.
Qed.
End InitialCheck.

(** ** A torrent of ten bytes

    Pieces of four bytes over three files, the second one padding, on the storage
    in memory; the "hash" is the data filled up to 20 bytes. *)

Definition ex_sha1 (bs : bytes) : bytes := take 20 (bs ++ replicate 20 0).

Definition ex_data : list bytes := [[1; 2; 3; 4; 5; 6]; []; [8; 9; 10]].

Definition ex_fo : FileOps :=
  mkFileOps (mkLengths 10 4 2 2 1)
    (mkMetaInfo None (ex_sha1 [1; 2; 3; 4] ++ ex_sha1 [5; 6; 0; 8] ++ ex_sha1 [9; 10]) 4 None None None
       None None None false)
    [mkFileInfo [[97]] 0 (0, 2) FileDetailsAttrs_default 6;
     mkFileInfo [[98]] 6 (1, 2) (mkAttrs false false true false) 1;
     mkFileInfo [[99]] 7 (1, 3) FileDetailsAttrs_default 3].

Lemma ex_fo_ok : fo_ok ex_fo.
Proof. repeat constructor; done. Qed.

Definition ex_chunk : ChunkInfo := mkChunkInfo 1 0 1 4 0.

Lemma ex_chunk_in : ex_chunk ∈ iter_chunk_infos (fo_lengths ex_fo) 1.
Proof. vm_compute. left. Qed.

Lemma write_chunk_correct_witness :
  exists s', write_chunk (E:=()) ex_fo (mkPiece 1 0 [50; 60] [70; 80]) ex_chunk ex_data = (s', XOk ())
    /\ flat_at (fo_file_infos ex_fo) 0 s' 4 = Some 50 /\ flat_at (fo_file_infos ex_fo) 0 s' 6 = Some 0
    /\ flat_at (fo_file_infos ex_fo) 0 s' 8 = Some 9.
Proof.
  exists [[1; 2; 3; 4; 50; 60]; []; [80; 9; 10]]. split; [by vm_compute|].
  match goal with |- flat_at _ _ ?s' _ = _ /\ _ =>
    destruct (write_chunk_correct ex_fo 1 ex_chunk (mkPiece 1 0 [50; 60] [70; 80]) ex_data s' (XOk ())
      ex_fo_ok ltac:(done) ex_chunk_in ltac:(done) ltac:(reflexivity)) as (_ & Hf & Hd) end.
  split_and!.
  - by apply (Hd eq_refl 0%nat), Nat.ltb_lt.
  - by apply (Hd eq_refl 2%nat), Nat.ltb_lt.
  - apply Hf; [lia|unfold chunk_pos; cbn; lia|reflexivity].
Defined.

Lemma read_after_write_witness :
  exists s', write_chunk (E:=()) ex_fo (mkPiece 1 0 [50; 60] [70; 80]) ex_chunk ex_data = (s', XOk ())
    /\ read_chunk (E:=()) ex_fo s' ex_chunk [0; 0; 0; 0] = XOk [50; 60; 0; 80].
Proof.
  exists [[1; 2; 3; 4; 50; 60]; []; [80; 9; 10]]. split; [by vm_compute|].
  match goal with |- read_chunk _ ?s' _ _ = _ =>
    pose proof (read_after_write ex_fo 1 ex_chunk (mkPiece 1 0 [50; 60] [70; 80]) [0; 0; 0; 0] ex_data s'
      ex_fo_ok ltac:(done) ex_chunk_in ltac:(done) ltac:(done) ltac:(reflexivity)) as Hr;
    destruct (read_chunk (E:=()) ex_fo s' ex_chunk [0; 0; 0; 0]) as [bs|e|] eqn:Er end.
  - by rewrite Hr.
  - by vm_compute in Er.
  - by vm_compute in Er.
Defined.

Lemma check_piece_correct_witness :
  exists b bs, check_piece (E:=()) ex_sha1 ex_fo ex_data 1 = XOk b
    /\ holds_at (fo_file_infos ex_fo) 0 ex_data 4 bs /\ b = true.
Proof.
  destruct (check_piece_correct (E:=()) ex_sha1 ex_fo ex_data 1 ex_fo_ok ltac:(done)) as (_ & Hc & _).
  destruct (check_piece (E:=()) ex_sha1 ex_fo ex_data 1) as [b|e|] eqn:Ec; [|by vm_compute in Ec..].
  destruct (Hc b eq_refl) as (bs & e & _ & Hh & _). exists b, bs. split_and!; [done|exact Hh|].
  vm_compute in Ec. congruence.
Defined.

Lemma initial_check_correct_witness :
  exists hv prog,
    initial_check (E:=()) ex_sha1 (fun _ => false) ex_fo ex_data (fun _ => false) 0 = XOk (hv, prog, [])
    /\ take 3 hv = [true; true; true] /\ (readable (E:=()) (fo_file_infos ex_fo) ex_data -> verified (E:=()) ex_sha1 ex_fo ex_data 1).
Proof.
  destruct (initial_check_correct (E:=()) ex_sha1 (fun _ => false) ex_fo ex_data (fun _ => false) 0
    ex_fo_ok ltac:(done)) as (hv & prog & rep & Hrun & _ & Hs & _).
  { intros i Hi. unfold valid_piece in Hi. cbn in Hi.
    assert (i = 0 \/ i = 1 \/ i = 2) as [-> | [-> | -> ]] by lia; vm_compute; by eexists. }
  pose proof Hrun as Hv. vm_compute in Hv. injection Hv as <- <- <-.
  eexists _, _. split; [exact Hrun|]. split; [done|].
  intros Hr. destruct (Hs 1 ltac:(split; by vm_compute) eq_refl) as [?|[Hn _]]; [done|]. by destruct (Hn Hr).
Defined.
