(* ===== verification/Download.v ===== *)
(** * Receiving pieces ([TorrentStateLive], [PeerHandler::on_received_piece])

    The path of a received block: the check that the piece was not stolen, the
    write to the files, marking the chunk, and, when the piece is complete, the
    hash check and its verdict.  Each of these is one critical section; between
    them other peers run.  The state is the piece tracker, the storage, the
    blocks being processed (one per peer: a connection handles its messages one
    after the other) and the pieces held back after an I/O error.

    The read lock of [per_piece_locks] is held from the check to the mark, which
    is what a task in state [Writing] or [Written] stands for. *)

From stdpp Require Import base tactics option list list_numbers numbers decidable gmap.
From Stdlib Require Import ZArith Lia.
From S2P Require Import Prelude Lengths FileInfo ChunkTracker Net PieceTracker PieceCompletion.
From S2P Require Import DoubleBuf Message Metainfo Storage FileOps.
Open Scope Z_scope.

(** Where the processing of a received block stands. *)
Inductive Task :=
| Writing (ci : ChunkInfo) (data : Piece)
| Written (ci : ChunkInfo) (data : Piece)
| Checking (piece : ValidPieceIndex)
| Checked (piece : ValidPieceIndex) (ok : bool).

Record DState (S : Type) := mkD {
  d_pt : PieceTracker;
  d_files : S;
  d_tasks : gmap PeerHandle Task;
  d_held : gset Z
}.
Arguments mkD {S} _ _ _ _.
Arguments d_pt {S} _.
Arguments d_files {S} _.
Arguments d_tasks {S} _.
Arguments d_held {S} _.

Inductive d_ev :=
| EvAcquire (choked disk_full : bool) (req : AcquireRequest)
| EvReceive (a : PeerHandle) (data : Piece) (expected : bool)
| EvWrite (a : PeerHandle) (soft_recover : bool)
| EvMark (a : PeerHandle) (now : Z)
| EvCheck (a : PeerHandle) (soft_recover : bool)
| EvFinish (a : PeerHandle)
| EvFileHave (p : ValidPieceIndex) (file_id : nat) (fi : FileInfo)
| EvDied (a : PeerHandle)
| EvRequeue (p : ValidPieceIndex)
| EvOnlyFiles (only : gset nat).

Section Download.
Context `{MapIter} {S E : Type} `{TorrentStorage S E} (sha1 : bytes -> bytes) (fo : FileOps).

Definition set_task (a : PeerHandle) (t : Task) (d : DState S) : DState S :=
  mkD (d_pt d) (d_files d) (<[a := t]> (d_tasks d)) (d_held d).

Definition end_task (a : PeerHandle) (d : DState S) : DState S :=
  mkD (d_pt d) (d_files d) (delete a (d_tasks d)) (d_held d).

Definition set_pt (pt : PieceTracker) (d : DState S) : DState S :=
  mkD pt (d_files d) (d_tasks d) (d_held d).

(** [per_piece_locks[p].try_write()] fails while a block of the piece is written. *)
Definition task_locks (t : Task) (p : Z) : bool :=
  match t with
  | Writing ci _ | Written ci _ => ci_piece_index ci =? p
  | _ => false
  end.

Definition can_steal (d : DState S) (p : ValidPieceIndex) : bool :=
  negb (existsb (fun x : PeerHandle * Task => task_locks x.2 p) (map_to_list (d_tasks d))).

(** [acquire_next_piece]: the request with the closure over the piece locks. *)
Definition with_can_steal (d : DState S) (req : AcquireRequest) : AcquireRequest :=
  mkReq (ar_peer req) (ar_peer_avg_time req) (ar_priority_pieces req) (ar_file_priorities req)
    (ar_file_infos req) (ar_piece_order req) (ar_peer_has_piece req) (can_steal d) (ar_clock req)
    (ar_now req).

Definition acquire_next_piece (d : DState S) (choked disk_full : bool) (req : AcquireRequest)
    : outcome (DState S) :=
  if choked then Ret d
  else if disk_full then Ret d
  else r ← acquire_piece (d_pt d) (with_can_steal d req); Ret (set_pt r.1 d).

(** The head of [on_received_piece] and of [write_to_disk]: a block that is not a
    chunk of the torrent, was not asked for, or whose piece belongs to someone
    else is dropped. *)
Definition on_received_piece (d : DState S) (a : PeerHandle) (data : Piece) (expected : bool)
    : outcome (DState S) :=
  match validate_piece_index (fo_lengths fo) (p_index data) with
  | None => Ret d
  | Some piece_index =>
    match try_into 32 (Z.of_nat (Piece_len data)) with
    | None => Ret d
    | Some len =>
      match chunk_info_from_received_data (fo_lengths fo) piece_index (p_begin data) len with
      | None => Ret d
      | Some chunk_info =>
        if negb expected then Ret d
        else
          match get_inflight (d_pt d) (ci_piece_index chunk_info) with
          | Some inflight =>
            if bool_decide (if_peer inflight = a) then Ret (set_task a (Writing chunk_info data) d)
            else Ret d
          | None => Ret d
          end
      end
    end
  end.

(** [soft_recover_piece] and [hold_piece_disk_full]: the piece is held back. *)
Definition hold_back (p : ValidPieceIndex) (d : DState S) : outcome (DState S) :=
  pt ← defer_piece (d_pt d) p; Ret (mkD pt (d_files d) (d_tasks d) ({[p]} ∪ d_held d)).

(** The write; on an error the piece is held back, or the torrent stops. *)
Definition write_to_disk (d : DState S) (a : PeerHandle) (soft_recover : bool)
    : outcome (DState S) :=
  match d_tasks d !! a with
  | Some (Writing ci data) =>
    let '(files, r) := write_chunk (E:=E) fo data ci (d_files d) in
    let d := mkD (d_pt d) files (d_tasks d) (d_held d) in
    match r with
    | XOk _ => Ret (set_task a (Written ci data) d)
    | XErr _ =>
      if soft_recover then d ← hold_back (ci_piece_index ci) d; Ret (end_task a d)
      else Ret (end_task a d)
    | XPanic => Panic
    end
  | _ => Ret d
  end.

Definition mark_chunk (d : DState S) (a : PeerHandle) (now : Z) : outcome (DState S) :=
  match d_tasks d !! a with
  | Some (Written ci data) =>
    r ← pt_mark_chunk_downloaded (d_pt d) (p_index data) (p_begin data) (Z.of_nat (Piece_len data));
    let '(pt, res) := (r : PieceTracker * option ChunkMarkingResult) in
    match res with
    | Some Completed =>
      let '(pt, time) := take_inflight pt (ci_piece_index ci) now in
      match time with
      | Some _ => Ret (set_task a (Checking (ci_piece_index ci)) (set_pt pt d))
      | None => Ret (end_task a (set_pt pt d))
      end
    | _ => Ret (end_task a (set_pt pt d))
    end
  | _ => Ret d
  end.

Definition check_hash (d : DState S) (a : PeerHandle) (soft_recover : bool) : outcome (DState S) :=
  match d_tasks d !! a with
  | Some (Checking p) =>
    match check_piece sha1 (E:=E) fo (d_files d) p with
    | XOk b => Ret (set_task a (Checked p b) d)
    | XErr _ =>
      if soft_recover then d ← hold_back p d; Ret (end_task a d) else Ret (end_task a d)
    | XPanic => Panic
    end
  | _ => Ret d
  end.

Definition finish_piece (d : DState S) (a : PeerHandle) : outcome (DState S) :=
  match d_tasks d !! a with
  | Some (Checked p true) => pt ← mark_piece_hash_ok (d_pt d) p; Ret (end_task a (set_pt pt d))
  | Some (Checked p false) => pt ← mark_piece_hash_failed (d_pt d) p; Ret (end_task a (set_pt pt d))
  | _ => Ret d
  end.

(** One piece of [requeue_pieces]. *)
Definition requeue_held (d : DState S) (p : ValidPieceIndex) : outcome (DState S) :=
  let d' := mkD (d_pt d) (d_files d) (d_tasks d) (d_held d ∖ {[p]}) in
  if bool_decide (p ∈ d_held d) && negb (is_inflight (d_pt d) p) then
    pt ← mark_piece_hash_failed (d_pt d) p; Ret (set_pt pt d')
  else Ret d'.

Definition d_exec (d : DState S) (ev : d_ev) : outcome (DState S) :=
  match ev with
  | EvAcquire choked disk_full req => acquire_next_piece d choked disk_full req
  | EvReceive a data expected => on_received_piece d a data expected
  | EvWrite a soft => write_to_disk d a soft
  | EvMark a now => mark_chunk d a now
  | EvCheck a soft => check_hash d a soft
  | EvFinish a => finish_piece d a
  | EvFileHave p file_id fi =>
    r ← pt_update_file_have_on_piece_completed (d_pt d) p file_id fi; Ret (set_pt r.1 d)
  | EvDied a => r ← release_pieces_owned_by (d_pt d) a; Ret (set_pt r.1 d)
  | EvRequeue p => requeue_held d p
  | EvOnlyFiles only =>
    r ← pt_update_only_files (d_pt d) (fo_file_infos fo) only; Ret (set_pt r.1 d)
  end.
End Download.

(** ** What the tracker's operations do to each piece *)

Record piece_view := mkPV {
  pv_have : bool;
  pv_queued : bool;
  pv_owner : option PeerHandle
}.

Definition pview (pt : PieceTracker) (p : Z) : piece_view :=
  mkPV (bit (have (pt_chunks pt)) (Z.to_nat p)) (bit (queue_pieces (pt_chunks pt)) (Z.to_nat p))
    (if_peer <$> pt_inflight pt !! p).
Arguments pview pt p : simpl never.

(** The tracker stays well formed and every piece changes as [f] says. *)
Definition pt_change (f : Z -> piece_view -> piece_view) (pt pt' : PieceTracker) : Prop :=
  pt_ok pt' /\ ct_lengths (pt_chunks pt') = ct_lengths (pt_chunks pt)
  /\ forall p, valid_piece (ct_lengths (pt_chunks pt)) p -> pview pt' p = f p (pview pt p).

(** Only piece [q] changes. *)
Definition at_piece (q : Z) (f : piece_view -> piece_view) (p : Z) (v : piece_view) : piece_view :=
  if decide (p = q) then f v else v.

(** How [forget_piece] leaves a piece that is not had. *)
Definition forgotten (queued : bool) (owner : option PeerHandle) (v : piece_view) : piece_view :=
  if pv_have v then mkPV true (pv_queued v) owner else mkPV false queued owner.

Section Effects.
Context `{MapIter}.

Lemma bit_update (b : BF) l (q p : Z) v :
  valid_piece l q -> valid_piece l p -> (Z.to_nat q < length b)%nat ->
  bit (<[Z.to_nat q := v]> b) (Z.to_nat p) = if decide (p = q) then v else bit b (Z.to_nat p).
Proof.
  intros Hq Hp Hlen. rewrite bit_insert by done. unfold valid_piece in *.
  destruct (decide (p = q)) as [->|]; [by rewrite decide_True|by rewrite decide_False by lia].
Qed.

Lemma acquire_change pt req :
  pt_ok pt -> req_ok (ct_lengths (pt_chunks pt)) (length (per_file_bytes (pt_chunks pt))) req ->
  ar_priority_pieces req = [] ->
  exists pt' res, acquire_piece pt req = Ret (pt', res)
    /\ match res with
       | NoneAvailable => pt' = pt
       | Reserved q =>
         valid_piece (ct_lengths (pt_chunks pt)) q
         /\ pv_queued (pview pt q) = true
         /\ pt_change (at_piece q (fun v => mkPV (pv_have v) false (Some (ar_peer req)))) pt pt'
       | Stolen q _ =>
         valid_piece (ct_lengths (pt_chunks pt)) q
         /\ is_Some (pv_owner (pview pt q)) /\ ar_can_steal req q = true
         /\ pt_change (at_piece q (fun v => mkPV (pv_have v) (pv_queued v) (Some (ar_peer req)))) pt pt'
       end.
Proof.
  intros Hok Hreq Hprio. destruct (acquire_spec pt req (pt_ok_sound _ Hok) Hreq) as (pt' & res & Heq & Hacq).
  destruct (acquired_ok pt pt' req res Hok Hacq) as [Hok' _].
  exists pt', res. split; [done|]. unfold acquired in Hacq. pose proof (pk_chunks _ Hok) as Hc.
  destruct res as [q|q old|].
  - destruct Hacq as (_ & [Hin%first_of_elem|(_ & _ & Hq)] & Hv & _ & Hct & Hif); [by rewrite Hprio in Hin; apply not_elem_of_nil in Hin|].
    destruct (piece_in_bits _ q (proj1 Hc) Hv) as (? & _ & _). split_and!; [done..|].
    split_and!; [done|by rewrite Hct|]. intros p Hp. unfold pview. rewrite Hct, Hif. cbn.
    rewrite (bit_update _ _ _ _ _ Hv Hp) by done. unfold at_piece.
    destruct (decide (p = q)) as [->|]; [by rewrite lookup_insert_eq|by rewrite lookup_insert_ne].
  - destruct Hacq as (Hdue & Hcs & Hct & Hif).
    assert (exists i, pt_inflight pt !! q = Some i) as [i Hi]
      by (destruct Hdue as [(? & ? & i & _ & _ & ? & _)|(_ & _ & _ & (? & ? & i & _ & _ & ? & _))]; by exists i).
    split_and!; [by eapply pk_inflight|unfold pview; cbn; rewrite Hi; by eexists|done|].
    split_and!; [done|by rewrite Hct|]. intros p Hp. unfold pview. rewrite Hct, Hif.
    unfold at_piece. destruct (decide (p = q)) as [->|]; [by rewrite lookup_insert_eq|by rewrite lookup_insert_ne].
  - by destruct Hacq.
Qed.

Lemma hash_ok_change pt q :
  pt_ok pt -> valid_piece (ct_lengths (pt_chunks pt)) q -> pv_owner (pview pt q) = None ->
  exists pt', mark_piece_hash_ok pt q = Ret pt'
    /\ pt_change (at_piece q (fun v => mkPV true false (pv_owner v))) pt pt'.
Proof.
  intros Hok Hv Hn. apply fmap_None in Hn. pose proof (pk_chunks _ Hok) as Hc.
  destruct (piece_in_bits _ q (proj1 Hc) Hv) as (? & ? & _).
  destruct (pt_exec_ok pt (PHashOk q) Hok ltac:(split; [done|by apply is_inflight_false]))
    as (pt' & Hex & Hok'). cbn in Hex. exists pt'. split; [done|].
  destruct (downloaded_spec _ q Hc Hv) as (ct' & Heq & _ & Hh & Hq & _ & _ & Hl & _).
  unfold mark_piece_hash_ok in Hex. rewrite Heq in Hex. injection Hex as <-.
  split_and!; [done|done|]. intros p Hp. unfold pview. cbn. rewrite Hh, Hq, !(bit_update _ _ _ _ _ Hv Hp) by done.
  unfold at_piece. by destruct (decide (p = q)).
Qed.

Lemma forget_view pt q v inflight p :
  pt_ok pt -> valid_piece (ct_lengths (pt_chunks pt)) q -> valid_piece (ct_lengths (pt_chunks pt)) p ->
  pview (mkPT (if bit (have (pt_chunks pt)) (Z.to_nat q) then pt_chunks pt
               else forget_piece v q (pt_chunks pt)) inflight) p
  = if decide (p = q) then forgotten v (if_peer <$> inflight !! q) (pview pt q)
    else mkPV (pv_have (pview pt p)) (pv_queued (pview pt p)) (if_peer <$> inflight !! p).
Proof.
  intros Hok Hv Hp. destruct (piece_in_bits _ q (proj1 (pk_chunks _ Hok)) Hv) as (? & ? & _).
  unfold pview, forgotten. cbn. destruct (bit (have (pt_chunks pt)) (Z.to_nat q)) eqn:Eh; cbn.
  - destruct (decide (p = q)) as [->|]; [by rewrite Eh|done].
  - rewrite (bit_update _ _ _ _ _ Hv Hp) by done. destruct (decide (p = q)) as [->|]; [by rewrite Eh|done].
Qed.

Lemma hash_failed_change pt q :
  pt_ok pt -> valid_piece (ct_lengths (pt_chunks pt)) q -> pv_owner (pview pt q) = None ->
  exists pt', mark_piece_hash_failed pt q = Ret pt'
    /\ pt_change (at_piece q (forgotten true None)) pt pt'.
Proof.
  intros Hok Hv Hn. pose proof Hn as Hn'. apply fmap_None in Hn'.
  unfold mark_piece_hash_failed. rewrite broken_spec by (done || apply Hok). run.
  eexists. split; [done|]. split_and!; [by apply forget_ok|by destruct (bit _ _)|].
  intros p Hp. rewrite forget_view by done. unfold at_piece. rewrite Hn'. cbn.
  destruct (decide (p = q)) as [->|]; [done|]. by destruct (pview pt p) eqn:E; inversion E.
Qed.

Lemma defer_change pt q :
  pt_ok pt -> valid_piece (ct_lengths (pt_chunks pt)) q ->
  exists pt', defer_piece pt q = Ret pt' /\ pt_change (at_piece q (forgotten false None)) pt pt'.
Proof.
  intros Hok Hv. destruct (pt_exec_ok pt (PDefer q) Hok Hv) as (pt' & Hex & Hok'). cbn in Hex.
  exists pt'. split; [done|]. unfold defer_piece in Hex.
  rewrite deferred_spec in Hex by (done || apply Hok). injection Hex as <-.
  split_and!; [done|by cbn; destruct (bit _ _)|].
  intros p Hp. rewrite forget_view by done. unfold at_piece. rewrite lookup_delete_eq. cbn.
  destruct (decide (p = q)) as [->|]; [done|]. by rewrite lookup_delete_ne.
Qed.

Lemma take_change pt q now :
  pt_ok pt ->
  pt_change (at_piece q (fun v => mkPV (pv_have v) (pv_queued v) None)) pt (take_inflight pt q now).1
  /\ (take_inflight pt q now).2 = (fun i => elapsed now (if_started i)) <$> pt_inflight pt !! q.
Proof.
  intros Hok. destruct (pt_exec_ok pt (PTake q now) Hok I) as (pt' & [= <-] & Hok').
  split; [split_and!; [done|..]|]; unfold take_inflight, at_piece in *; destruct (pt_inflight pt !! q) eqn:Eq; try done.
  - intros p _. unfold pview. cbn. destruct (decide (p = q)) as [->|];
      [by rewrite lookup_delete_eq|by rewrite lookup_delete_ne].
  - intros p _. unfold pview. cbn. destruct (decide (p = q)) as [->|]; [by rewrite Eq|done].
Qed.

Lemma chunk_change pt index begin len :
  pt_ok pt -> is_u32 index -> is_u32 begin -> is_u32 len ->
  exists pt' r, pt_mark_chunk_downloaded pt index begin len = Ret (pt', r)
    /\ pt_change (fun _ v => v) pt pt' /\ pt_inflight pt' = pt_inflight pt.
Proof.
  intros Hok ? ? ?.
  destruct (pt_exec_ok pt (PChunk index begin len) Hok ltac:(done)) as (pt' & Hex & Hok'). cbn in Hex.
  unfold pt_mark_chunk_downloaded in *.
  destruct (mark_chunk_keeps (pt_chunks pt) index begin len) as (ct' & r & Heq & _ & Hl & Hq & Hh & _);
    [apply Hok|done..|]. rewrite Heq in *. cbn in *. injection Hex as <-.
  eexists _, _. split; [done|]. split; [|done]. split_and!; [done..|]. intros p _. unfold pview. cbn. by rewrite Hq, Hh.
Qed.

Lemma release_change pt a :
  pt_ok pt ->
  exists pt' n, release_pieces_owned_by pt a = Ret (pt', n)
    /\ pt_change (fun _ v => if decide (pv_owner v = Some a) then mkPV (pv_have v) true None else v) pt pt'.
Proof.
  intros Hok. destruct (release_spec pt a Hok) as (pt' & -> & [Hok' Hl Hh _ Hi Hq]).
  eexists _, _. split; [done|]. split_and!; [done..|]. intros p Hp. unfold pview.
  rewrite Hh, Hi, Hq by done. cbn.
  assert (p ∈ pieces_owned_by pt a <-> if_peer <$> pt_inflight pt !! p = Some a) as Hiff.
  { rewrite elem_of_pieces_owned_by, fmap_Some. naive_solver. }
  destruct (decide (p ∈ pieces_owned_by pt a)) as [Hin|Hin].
  - rewrite decide_True by tauto. rewrite bool_decide_eq_true_2, orb_true_r by done. done.
  - rewrite decide_False by tauto. by rewrite bool_decide_eq_false_2, orb_false_r by done.
Qed.
End Effects.

(** ** The invariant *)

Definition checks (t : Task) (p : Z) : Prop :=
  match t with Checking q | Checked q _ => q = p | _ => False end.

Section Invariant.
Context `{MapIter} {S E : Type} `{StorageSpec S E} (sha1 : bytes -> bytes) (fo : FileOps).

Abbreviation l := (fo_lengths fo).

Definition task_ok (d : DState S) (a : PeerHandle) (t : Task) : Prop :=
  match t with
  | Writing ci data | Written ci data =>
    valid_piece l (ci_piece_index ci) /\ ci ∈ iter_chunk_infos l (ci_piece_index ci)
    /\ Z.of_nat (Piece_len data) = ci_size ci /\ is_u32 (p_index data) /\ is_u32 (p_begin data)
    /\ is_u32 (Z.of_nat (Piece_len data))
    /\ pv_owner (pview (d_pt d) (ci_piece_index ci)) = Some a
  | Checking p => valid_piece l p /\ pview (d_pt d) p = mkPV false false None
  | Checked p b =>
    valid_piece l p /\ pview (d_pt d) p = mkPV false false None
    /\ (b = true -> verified sha1 fo (d_files d) p)
  end.

(** A piece being written belongs to the writer; a piece being checked belongs
    to nobody and only to one check; pieces held back are idle; and what is had
    is on the storage with the right hash. *)
Record d_ok (d : DState S) : Prop := {
  dk_pt : pt_ok (d_pt d);
  dk_lengths : ct_lengths (pt_chunks (d_pt d)) = l;
  dk_task a t : d_tasks d !! a = Some t -> task_ok d a t;
  dk_unique a b t u p : d_tasks d !! a = Some t -> d_tasks d !! b = Some u ->
    checks t p -> checks u p -> a = b;
  dk_held p : p ∈ d_held d -> valid_piece l p
    /\ pv_queued (pview (d_pt d) p) = false /\ pv_owner (pview (d_pt d) p) = None
    /\ forall a t, d_tasks d !! a = Some t -> ~ checks t p;
  dk_have p : valid_piece l p -> pv_have (pview (d_pt d) p) = true -> verified sha1 fo (d_files d) p
}.

(** What the calls rely on: requests are well formed and name no stream priority
    pieces, a peer has one block at a time and dies when it is done, and a change
    of the selection does not select a piece that is in flight, being checked or
    held back. *)
Definition d_guard (d : DState S) (ev : d_ev) : Prop :=
  let ct := pt_chunks (d_pt d) in
  match ev with
  | EvAcquire _ _ req => req_ok l (length (per_file_bytes ct)) req /\ ar_priority_pieces req = []
  | EvReceive a data _ => d_tasks d !! a = None /\ is_u32 (p_index data) /\ is_u32 (p_begin data)
  | EvFileHave _ file_id _ => (file_id < length (per_file_bytes ct))%nat
  | EvDied a => d_tasks d !! a = None
  | EvOnlyFiles _ => forall p, valid_piece l p ->
      is_inflight (d_pt d) p = true \/ p ∈ d_held d
      \/ (exists a t, d_tasks d !! a = Some t /\ checks t p) ->
      bit (selected ct) (Z.to_nat p) = true
  | _ => True
  end.

(** What the types of the arguments say, and nothing of the order. *)
Definition d_args (d : DState S) (ev : d_ev) : Prop :=
  let ct := pt_chunks (d_pt d) in
  match ev with
  | EvAcquire _ _ req => req_ok l (length (per_file_bytes ct)) req
  | EvReceive _ data _ => is_u32 (p_index data) /\ is_u32 (p_begin data)
  | EvFileHave _ file_id _ => (file_id < length (per_file_bytes ct))%nat
  | _ => True
  end.

Lemma d_guard_args d ev : d_guard d ev -> d_args d ev.
Proof. destruct ev; cbn; tauto. Qed.

(** Reachable by any events; the flag is [true] when all of them were in order. *)
Inductive d_reachable (d0 : DState S) : bool -> DState S -> Prop :=
| d_start : d_reachable d0 true d0
| d_step orderly d ev d' :
    d_reachable d0 orderly d -> d_guard d ev -> d_exec (E:=E) sha1 fo d ev = Ret d' -> d_reachable d0 orderly d'
| d_any orderly d ev d' :
    d_reachable d0 orderly d -> d_args d ev -> d_exec (E:=E) sha1 fo d ev = Ret d' -> d_reachable d0 false d'.

(** *** Writing one piece leaves the others as they are *)

Lemma pieces_disjoint i q x y :
  lengths_wf l -> valid_piece l i -> valid_piece l q -> i <> q ->
  i * ln_piece_length l <= x < i * ln_piece_length l + piece_length l i ->
  q * ln_piece_length l <= y < q * ln_piece_length l + piece_length l q -> x <> y.
Proof.
  intros Hl Hi Hq Hne Hx Hy. pose proof (piece_length_pos l i Hl). pose proof (piece_length_pos l q Hl).
  unfold valid_piece in *. nia.
Qed.

Lemma verified_write i ci data (s s' : S) r q :
  fo_ok fo -> valid_piece l i -> ci ∈ iter_chunk_infos l i -> Z.of_nat (Piece_len data) = ci_size ci ->
  write_chunk (E:=E) fo data ci s = (s', r) -> valid_piece l q -> q <> i ->
  verified sha1 fo s q -> verified sha1 fo s' q.
Proof.
  intros Hok Hi Hci Hl Hw Hq Hne (bs & Hlen & Hh & He).
  pose proof (write_chunk_spec fo i ci data s Hok Hi Hci Hl) as Hs. rewrite Hw in Hs.
  destruct Hs as [_ [_ Ho _]].
  destruct (chunk_in_piece _ i ci (fok_lengths _ Hok) (fok_fit _ Hok) Hi Hci) as (Hp & ? & ? & ? & _).
  destruct (piece_in_torrent _ q (fok_lengths _ Hok) Hq) as (_ & ? & _).
  exists bs. split_and!; [done| |done]. intros k Hk. specialize (Hh k Hk).
  destruct (lookup_lt_is_Some_2 bs k Hk) as [b Hb]. rewrite Hb in *.
  apply Ho; [lia| |done]. intros Hin. unfold chunk_pos in Hin. rewrite Hp, length_app in Hin.
  unfold Piece_len in Hl.
  eapply (pieces_disjoint i q (q * ln_piece_length l + Z.of_nat k)); [apply Hok|done|done|done| | |reflexivity]; lia.
Qed.

(** *** Steps that change the tracker at one piece *)

Lemma view_at q f pt pt' p :
  pt_change (at_piece q f) pt pt' -> valid_piece (ct_lengths (pt_chunks pt)) p ->
  pview pt' p = if decide (p = q) then f (pview pt p) else pview pt p.
Proof. intros (_ & _ & Hv) Hp. by rewrite Hv. Qed.

(** A task survives a change of the tracker at a piece it is not about. *)
Lemma task_ok_at q f d pt' a t :
  d_ok d -> pt_change (at_piece q f) (d_pt d) pt' -> d_tasks d !! a = Some t ->
  (match t with Writing ci _ | Written ci _ => ci_piece_index ci <> q | _ => ~ checks t q end) ->
  task_ok (set_pt pt' d) a t.
Proof.
  intros Hd Hch Ht Hne. pose proof (dk_task _ Hd _ _ Ht) as Hok. pose proof (dk_lengths _ Hd) as Hlen.
  destruct t as [ci data|ci data|p|p b]; unfold task_ok, set_pt in *; cbn [d_pt d_files checks] in *.
  1,2: destruct Hok as (Hv & ? & ? & ? & ? & ? & ?); split_and!; try done;
       rewrite (view_at q f (d_pt d)), decide_False by (done || by rewrite Hlen); done.
  all: destruct Hok as [Hv Hok]; rewrite (view_at q f (d_pt d)), decide_False by (done || by rewrite Hlen); done.
Qed.

(** Who may be working on a piece, read off its view. *)
Lemma not_writing d a ci data q :
  d_ok d -> d_tasks d !! a = Some (Writing ci data) \/ d_tasks d !! a = Some (Written ci data) ->
  pv_owner (pview (d_pt d) q) <> Some a -> ci_piece_index ci <> q.
Proof.
  intros Hd Ht Ho <-. apply Ho. destruct Ht as [Ht|Ht];
    apply (dk_task _ Hd) in Ht as (? & ? & ? & ? & ? & ? & ?); done.
Qed.

Lemma not_checking d a t q :
  d_ok d -> d_tasks d !! a = Some t -> pview (d_pt d) q <> mkPV false false None -> ~ checks t q.
Proof.
  intros Hd Ht Hv Hc. apply (dk_task _ Hd) in Ht.
  destruct t as [ci data|ci data|p|p b]; simpl in *; try done; subst; by destruct Ht as (_ & ? & _) || destruct Ht.
Qed.

(** A task that is not about piece [q]. *)
Definition apart (t : Task) (q : Z) : Prop :=
  match t with Writing ci _ | Written ci _ => ci_piece_index ci <> q | _ => ~ checks t q end.

Lemma apart_checks t q : apart t q -> ~ checks t q.
Proof. by destruct t; intros ? ?. Qed.

(** One step: the tracker changes at [q], peer [a]'s task becomes [nt], and every
    other task is about another piece. *)
Lemma d_ok_piece q f d pt' a (nt : option Task) held' :
  let d' := mkD pt' (d_files d) (partial_alter (fun _ => nt) a (d_tasks d)) held' in
  d_ok d -> pt_change (at_piece q f) (d_pt d) pt' ->
  (forall b t, b <> a -> d_tasks d !! b = Some t -> apart t q) ->
  (forall t, nt = Some t ->
     task_ok d' a t /\ forall p, checks t p -> p = q \/ d_tasks d !! a = Some t) ->
  (forall p, p ∈ held' -> p <> q -> p ∈ d_held d) ->
  (q ∈ held' -> valid_piece l q /\ pv_queued (f (pview (d_pt d) q)) = false
     /\ pv_owner (f (pview (d_pt d) q)) = None /\ forall t, nt = Some t -> ~ checks t q) ->
  (pv_have (f (pview (d_pt d) q)) = true -> pv_have (pview (d_pt d) q) = true
     \/ verified sha1 fo (d_files d) q) ->
  d_ok d'.
Proof.
  intros d' Hd Hch Hap Hnt Hh Hq Hv. pose proof (dk_lengths _ Hd) as Hlen.
  assert (forall p, valid_piece l p ->
    pview pt' p = if decide (p = q) then f (pview (d_pt d) p) else pview (d_pt d) p) as Hview.
  { intros p Hp. apply view_at; [done|by rewrite Hlen]. }
  assert (forall b t, d_tasks d' !! b = Some t ->
    (b <> a /\ d_tasks d !! b = Some t /\ apart t q) \/ (b = a /\ nt = Some t)) as Htask.
  { intros b t. cbn. destruct (decide (b = a)) as [->|Hne].
    - rewrite lookup_partial_alter_eq. by right.
    - rewrite lookup_partial_alter_ne by done. left. split_and!; [done..|]. by eapply Hap. }
  split; cbn [d' d_pt d_held].
  - apply Hch.
  - destruct Hch as (_ & -> & _). done.
  - intros b t [(Hne & Ht & Hapt)|[-> Ht]]%Htask; [|by apply Hnt].
    exact (task_ok_at q f d pt' b t Hd Hch Ht Hapt).
  - intros b c t u p Hb Hc Htp Hup.
    destruct (Htask _ _ Hb) as [(Hbn & Hb' & Hb2)|[-> Hb']], (Htask _ _ Hc) as [(Hcn & Hc' & Hc2)|[-> Hc']].
    + by eapply (dk_unique _ Hd b c t u p).
    + destruct (proj2 (Hnt _ Hc') p Hup) as [->|Ho]; [by apply apart_checks in Hb2|by eapply (dk_unique _ Hd b a t u p)].
    + destruct (proj2 (Hnt _ Hb') p Htp) as [->|Ho]; [by apply apart_checks in Hc2|by eapply (dk_unique _ Hd a c t u p)].
    + done.
  - intros p Hp. destruct (decide (p = q)) as [->|Hne].
    + destruct (Hq Hp) as (Hvq & ? & ? & Hnc). rewrite Hview, decide_True by done. split_and!; try done.
      intros b t [(_ & _ & Hapt)|[-> Ht]]%Htask; [by apply apart_checks|by apply Hnc].
    + destruct (dk_held _ Hd p (Hh p Hp Hne)) as (Hvp & ? & ? & Hnc).
      rewrite Hview, decide_False by done. split_and!; try done.
      intros b t [(_ & Ht & _)|[-> Ht]]%Htask Hc; [by eapply Hnc|].
      destruct (proj2 (Hnt _ Ht) p Hc) as [->|Ho]; [done|by eapply Hnc].
  - intros p Hp. rewrite Hview by done. destruct (decide (p = q)) as [->|].
    + intros [Hhv|]%Hv; [by apply (dk_have _ Hd)|done].
    + by apply (dk_have _ Hd).
Qed.

(** The tracker changes only where nobody works. *)
Lemma d_ok_idle d pt' :
  d_ok d -> pt_ok pt' -> ct_lengths (pt_chunks pt') = l ->
  (forall p, valid_piece l p -> pv_have (pview pt' p) = pv_have (pview (d_pt d) p)) ->
  (forall p, valid_piece l p ->
     p ∈ d_held d \/ (exists a t, d_tasks d !! a = Some t /\ ~ apart t p) ->
     pview pt' p = pview (d_pt d) p) ->
  d_ok (set_pt pt' d).
Proof.
  intros Hd Hok Hlen Hhave Hbusy.
  split; unfold set_pt; cbn [d_pt d_tasks d_held d_files]; [done|done| | | |].
  - intros a t Ht. pose proof (dk_task _ Hd _ _ Ht) as Hto.
    destruct t as [ci data|ci data|p|p b]; unfold task_ok in *; cbn [d_pt d_files] in *.
    1,2: destruct Hto as (Hv & ? & ? & ? & ? & ? & ?); split_and!; try done;
         rewrite Hbusy; [done|done|]; right; exists a; eexists; split; [exact Ht|]; by cbn; intros [].
    all: pose proof (proj1 Hto) as Hv; rewrite Hbusy; [done|done|]; right; exists a; eexists;
      (split; [exact Ht|]); cbn; tauto.
  - apply (dk_unique _ Hd).
  - intros p Hp. destruct (dk_held _ Hd p Hp) as (Hv & ?). rewrite Hbusy by auto. done.
  - intros p Hp. rewrite Hhave by done. by apply (dk_have _ Hd).
Qed.

(** The storage changes, but not where a verified piece is relied on. *)
Lemma d_ok_files d files' :
  d_ok d ->
  (forall q, valid_piece l q -> verified sha1 fo (d_files d) q ->
     pv_have (pview (d_pt d) q) = true \/ pview (d_pt d) q = mkPV false false None ->
     verified sha1 fo files' q) ->
  d_ok (mkD (d_pt d) files' (d_tasks d) (d_held d)).
Proof.
  intros Hd Hver. split; cbn [d_pt d_tasks d_held d_files]; try apply Hd.
  - intros a t Ht. pose proof (dk_task _ Hd _ _ Ht) as Hto.
    destruct t as [ci data|ci data|p|p b]; unfold task_ok in *; cbn [d_pt d_files] in *; try done.
    destruct Hto as (Hv & Hvw & Hb). split_and!; try done. intros Hbt. apply Hver; auto.
  - intros p Hp Hh. apply Hver; [done|by apply (dk_have _ Hd)|by left].
Qed.

(** *** Who works on a piece *)

Lemma owner_view d p b :
  d_ok d -> pv_owner (pview (d_pt d) p) = Some b -> pview (d_pt d) p = mkPV false false (Some b).
Proof.
  intros Hd Ho. unfold pview in *. cbn in Ho. apply fmap_Some in Ho as (i & Hi & ->).
  destruct (pk_inflight _ (dk_pt _ Hd) p i Hi) as (_ & -> & ->). by rewrite Hi.
Qed.

Lemma apart_by_view d a t q :
  d_ok d -> d_tasks d !! a = Some t -> pview (d_pt d) q <> mkPV false false None ->
  pv_owner (pview (d_pt d) q) <> Some a -> apart t q.
Proof.
  intros Hd Ht Hv Ho. pose proof (not_checking d a t q Hd Ht Hv).
  destruct t as [ci data|ci data|p|p b]; cbn; try done; eapply not_writing; eauto.
Qed.

Lemma apart_when_checked d a b t u q :
  d_ok d -> d_tasks d !! a = Some u -> checks u q -> b <> a -> d_tasks d !! b = Some t -> apart t q.
Proof.
  intros Hd Ha Hu Hne Ht. assert (pview (d_pt d) q = mkPV false false None) as Hv.
  { apply (dk_task _ Hd) in Ha. destruct u; simpl in *; try done; subst; apply Ha. }
  assert (~ checks t q) by (intros Hc; apply Hne; by eapply (dk_unique _ Hd)).
  destruct t as [ci data|ci data|p|p c]; cbn; try done; eapply not_writing; eauto; by rewrite Hv.
Qed.

Lemma apart_when_held d a t q : d_ok d -> q ∈ d_held d -> d_tasks d !! a = Some t -> apart t q.
Proof.
  intros Hd Hq Ht. destruct (dk_held _ Hd q Hq) as (_ & _ & Ho & Hc). specialize (Hc a t Ht).
  destruct t as [ci data|ci data|p|p c]; cbn; try done; eapply not_writing; eauto; by rewrite Ho.
Qed.

Lemma apart_when_stealable d a t q :
  d_ok d -> is_Some (pv_owner (pview (d_pt d) q)) -> can_steal d q = true ->
  d_tasks d !! a = Some t -> apart t q.
Proof.
  intros Hd [b Ho] Hc Ht. pose proof (owner_view d q b Hd Ho) as Hv.
  pose proof (not_checking d a t q Hd Ht ltac:(by rewrite Hv)) as Hnc.
  unfold can_steal in Hc. apply negb_true_iff in Hc.
  assert (task_locks t q = false) as Hl.
  { destruct (task_locks t q) eqn:E1; [|done]. rewrite <- Hc. symmetry. apply existsb_exists.
    exists (a, t). split; [|done]. by apply list_elem_of_In, elem_of_map_to_list. }
  destruct t as [ci data|ci data|p|p c]; cbn in *; try done; by apply Z.eqb_neq.
Qed.

Lemma pt_change_id q pt : pt_ok pt -> pt_change (at_piece q (fun v => v)) pt pt.
Proof. intros Hok. split_and!; try done. intros p _. unfold at_piece. by destruct (decide _). Qed.

(** The tracker changes at one piece nobody works on. *)
Lemma d_ok_set_pt q f d pt' :
  d_ok d -> pt_change (at_piece q f) (d_pt d) pt' ->
  (forall b t, d_tasks d !! b = Some t -> apart t q) -> q ∉ d_held d ->
  pv_have (f (pview (d_pt d) q)) = pv_have (pview (d_pt d) q) ->
  d_ok (set_pt pt' d).
Proof.
  intros Hd Hch Hap Hh Hhv. apply d_ok_idle; [done|apply Hch| | |].
  - destruct Hch as (_ & -> & _). apply Hd.
  - intros p Hp. rewrite (view_at q f (d_pt d)); [|done|by rewrite (dk_lengths _ Hd)].
    by destruct (decide (p = q)) as [->|].
  - intros p Hp Hb. rewrite (view_at q f (d_pt d)); [|done|by rewrite (dk_lengths _ Hd)].
    destruct (decide (p = q)) as [->|]; [|done]. destruct Hb as [?|(a & t & Ht & Hn)]; [done|].
    destruct Hn. by eapply Hap.
Qed.

(** *** The events *)

Lemma acquire_event d choked disk_full req :
  d_ok d -> d_guard d (EvAcquire choked disk_full req) ->
  exists d', acquire_next_piece d choked disk_full req = Ret d' /\ d_ok d'.
Proof.
  intros Hd [Hreq Hprio]. destruct choked; [by eexists|]. destruct disk_full; [by eexists|]. pose proof (dk_lengths _ Hd) as Hlen. unfold acquire_next_piece.
  destruct (acquire_change (d_pt d) (with_can_steal d req) (dk_pt _ Hd)) as (pt' & res & -> & Hres).
  { rewrite Hlen. destruct Hreq. by split. }
  { done. }
  run. eexists. split; [done|]. cbn [fst]. destruct res as [q|q old|].
  - destruct Hres as (Hv & Hq & Hch). eapply d_ok_set_pt; [done|exact Hch| | |done].
    + intros b t Ht. eapply apart_by_view; try done; [intros Hv0; by rewrite Hv0 in Hq|].
      intros Ho. apply (owner_view d q b Hd) in Ho. by rewrite Ho in Hq.
    + intros Hh. apply (dk_held _ Hd) in Hh as (_ & ? & _). congruence.
  - destruct Hres as (Hv & Ho & Hcs & Hch). eapply d_ok_set_pt; [done|exact Hch| | |done].
    + intros b t Ht. by eapply apart_when_stealable.
    + intros Hh. apply (dk_held _ Hd) in Hh as (_ & _ & Hn & _). rewrite Hn in Ho. by destruct Ho.
  - subst pt'. by destruct d.
Qed.

Lemma receive_event d a data expected :
  fo_ok fo -> d_ok d -> d_guard d (EvReceive a data expected) ->
  exists d', on_received_piece fo d a data expected = Ret d' /\ d_ok d'.
Proof.
  intros Hfo Hd (Hnone & Hi & Hb). unfold on_received_piece.
  destruct (validate_piece_index l (p_index data)) as [i|] eqn:Ei; [|by exists d].
  apply validate_piece_index_Some in Ei as [-> Hle].
  assert (valid_piece l (p_index data)) as Hv by (unfold is_uint in Hi; split; lia).
  destruct (try_into 32 _) as [len|] eqn:El; [|by exists d]. apply try_into_Some in El as [Hlen ->].
  destruct (chunk_info_from_received_data _ _ _ _) as [ci|] eqn:Eci; [|by exists d].
  apply received_data_spec in Eci as (k & Hk & -> & Hbk & Hsz); [|apply Hfo|apply Hfo|done|done].
  destruct expected; [|by exists d]. cbn. unfold get_inflight.
  destruct (pt_inflight (d_pt d) !! p_index data) as [i|] eqn:Ein; [|by exists d].
  case_bool_decide as Ho; [|by exists d]. eexists. split; [done|].
  assert (pv_owner (pview (d_pt d) (p_index data)) = Some a) as Howner.
  { unfold pview. cbn. by rewrite Ein, <- Ho. }
  pose proof (owner_view d _ a Hd Howner) as Hview.
  apply (d_ok_piece (p_index data) (fun v => v) d (d_pt d) a (Some (Writing _ data)) (d_held d));
    [done|by apply pt_change_id, Hd| | |done| |by left].
  - intros b t Hne Ht. eapply apart_by_view; [done..|by rewrite Hview|]. rewrite Howner. congruence.
  - intros t [= <-]. split; [|done]. cbn. split_and!; try done.
    rewrite iter_chunk_infos_spec by (done || apply Hfo). apply list_elem_of_fmap_2, elem_of_seqZ. lia.
  - intros Hh. apply (dk_held _ Hd) in Hh as (_ & _ & Hn & _). congruence.
Qed.

(** Nobody else works on the piece a task is about. *)
Lemma others_apart d a b t u q :
  d_ok d -> d_tasks d !! a = Some t -> ~ apart t q -> b <> a -> d_tasks d !! b = Some u -> apart u q.
Proof.
  intros Hd Ht Hq Hne Hu. destruct t as [ci data|ci data|p|p c]; cbn in Hq.
  1,2: assert (ci_piece_index ci = q) as <- by lia;
       apply (dk_task _ Hd) in Ht as (_ & _ & _ & _ & _ & _ & Ho);
       pose proof (owner_view d _ a Hd Ho) as Hview;
       (eapply apart_by_view; [done..|by rewrite Hview|]); rewrite Ho; congruence.
  all: by eapply (apart_when_checked d a b); [done|exact Ht|cbn; lia|..].
Qed.

Lemma worked_on_view d a t q :
  d_ok d -> d_tasks d !! a = Some t -> ~ apart t q ->
  valid_piece l q /\ pv_have (pview (d_pt d) q) = false.
Proof.
  intros Hd Ht Hq. destruct t as [ci data|ci data|p|p c]; cbn in Hq.
  1,2: assert (ci_piece_index ci = q) as <- by lia;
       apply (dk_task _ Hd) in Ht as (? & _ & _ & _ & _ & _ & Ho); by rewrite (owner_view d _ a Hd Ho).
  - assert (p = q) as <- by lia. apply (dk_task _ Hd) in Ht as [? Hw]. by rewrite Hw.
  - assert (p = q) as <- by lia. apply (dk_task _ Hd) in Ht as (? & Hw & _). by rewrite Hw.
Qed.

(** A task about [q] ends or is replaced while the tracker changes at [q]. *)
Lemma task_event q f d pt' a t nt :
  d_ok d -> d_tasks d !! a = Some t -> ~ apart t q -> pt_change (at_piece q f) (d_pt d) pt' ->
  (forall u, nt = Some u ->
     task_ok (mkD pt' (d_files d) (partial_alter (fun _ => nt) a (d_tasks d)) (d_held d)) a u
     /\ forall p, checks u p -> p = q) ->
  (pv_have (f (pview (d_pt d) q)) = true -> verified sha1 fo (d_files d) q) ->
  d_ok (mkD pt' (d_files d) (partial_alter (fun _ => nt) a (d_tasks d)) (d_held d)).
Proof.
  intros Hd Ht Hq Hch Hnt Hv. apply (d_ok_piece q f d pt' a nt (d_held d)); try done.
  - intros b u Hne Hu. exact (others_apart d a b t u q Hd Ht Hq Hne Hu).
  - intros u Hu. destruct (Hnt u Hu) as [Hok Hc]. split; [done|eauto].
  - intros Hh. exfalso. by apply Hq, (apart_when_held d a t q).
  - intros Hf. right. by apply Hv.
Qed.

Lemma end_event d a t q :
  d_ok d -> d_tasks d !! a = Some t -> ~ apart t q -> d_ok (end_task a d).
Proof.
  intros Hd Ht Hq. pose proof (worked_on_view d a t q Hd Ht Hq) as [_ Hh].
  apply (task_event q (fun v => v) d (d_pt d) a t None); try done; [by apply pt_change_id, Hd|congruence].
Qed.

(** A piece that someone works on is held back and the task ends. *)
Lemma hold_event d a t q :
  d_ok d -> d_tasks d !! a = Some t -> ~ apart t q ->
  exists d', hold_back q d = Ret d' /\ d_ok (end_task a d').
Proof.
  intros Hd Ht Hq. pose proof (worked_on_view d a t q Hd Ht Hq) as [Hv Hh]. unfold hold_back.
  destruct (defer_change (d_pt d) q (dk_pt _ Hd)) as (pt' & -> & Hch); [by rewrite (dk_lengths _ Hd)|].
  run. eexists. split; [done|].
  assert (forgotten false None (pview (d_pt d) q) = mkPV false false None) as Hf.
  { unfold forgotten. by rewrite Hh. }
  apply (d_ok_piece q (forgotten false None) d pt' a None ({[q]} ∪ d_held d)); rewrite ?Hf; try done.
  - intros b u Hne Hu. exact (others_apart d a b t u q Hd Ht Hq Hne Hu).
  - intros p [->%elem_of_singleton|?]%elem_of_union ?; done.
Qed.

Lemma write_event d a soft :
  fo_ok fo -> d_ok d -> exists d', write_to_disk (E:=E) fo d a soft = Ret d' /\ d_ok d'.
Proof.
  intros Hfo Hd. unfold write_to_disk.
  destruct (d_tasks d !! a) as [[ci data| | |]|] eqn:Ht; try by exists d.
  pose proof (dk_task _ Hd _ _ Ht) as (Hv & Hci & Hl & ? & ? & ? & Ho).
  pose proof (owner_view d _ a Hd Ho) as Hview.
  pose proof (write_chunk_spec fo (ci_piece_index ci) ci data (d_files d) Hfo Hv Hci Hl) as Hw.
  destruct (write_chunk fo data ci (d_files d)) as [files r] eqn:Ew. destruct Hw as [Hnp _].
  assert (d_ok (mkD (d_pt d) files (d_tasks d) (d_held d))) as Hd'.
  { apply d_ok_files; [done|]. intros q Hvq Hver Hq.
    eapply (verified_write (ci_piece_index ci)); try done. intros ->. rewrite Hview in Hq. by destruct Hq. }
  assert (~ apart (Writing ci data) (ci_piece_index ci)) as Hap by (by cbn; intros []).
  destruct r as [u|e|]; [| |done].
  - eexists. split; [done|].
    apply (task_event (ci_piece_index ci) (fun v => v) (mkD (d_pt d) files (d_tasks d) (d_held d)) (d_pt d) a _
      (Some (Written ci data)) Hd' Ht Hap); [by apply pt_change_id, Hd| |].
    + by intros u' [= <-].
    + cbn [d_pt]. by rewrite Hview.
  - destruct soft; [|eexists; split; [done|by eapply (end_event _ a _ _ Hd')]].
    destruct (hold_event _ a _ _ Hd' Ht Hap) as (d' & -> & Hd2). run. by eexists.
Qed.

Lemma mark_event d a now : d_ok d -> exists d', mark_chunk d a now = Ret d' /\ d_ok d'.
Proof.
  intros Hd. unfold mark_chunk.
  destruct (d_tasks d !! a) as [[|ci data| |]|] eqn:Ht; try by exists d.
  pose proof (dk_task _ Hd _ _ Ht) as (Hv & Hci & Hl & ? & ? & ? & Ho).
  pose proof (owner_view d _ a Hd Ho) as Hview. set (q := ci_piece_index ci) in *.
  assert (~ apart (Written ci data) q) as Hap by (by cbn; intros []).
  destruct (chunk_change (d_pt d) (p_index data) (p_begin data) (Z.of_nat (Piece_len data)))
    as (pt1 & r & -> & (Hok1 & Hlen1 & Hv1) & Hin1); [apply Hd|done..|]. cbn.
  assert (d_ok (end_task a (set_pt pt1 d))) as Hend.
  { apply (task_event q (fun v => v) d pt1 a _ None Hd Ht Hap); [|done|by rewrite Hview].
    split_and!; [done..|]. intros p Hp. rewrite Hv1 by done. unfold at_piece. by destruct (decide _). }
  destruct r as [[| |]|]; try (by eexists).
  destruct (take_change pt1 q now Hok1) as [(Hok2 & Hlen2 & Hv2) Htime].
  destruct (take_inflight pt1 q now) as [pt2 time]. cbn [fst snd] in *.
  assert (is_Some time) as [z ->].
  { rewrite Htime, Hin1. unfold pview in Ho. cbn in Ho. apply fmap_Some in Ho as (i & -> & _). by eexists. }
  eexists. split; [done|].
  apply (task_event q (fun v => mkPV (pv_have v) (pv_queued v) None) d pt2 a _ (Some (Checking q)) Hd Ht Hap).
  - split_and!; [done|congruence|]. intros p Hp. rewrite Hv2, Hv1 by (done || by rewrite Hlen1). done.
  - intros u [= <-]. split; [|done]. cbn. split; [done|].
    rewrite Hv2, Hv1, Hview by (rewrite ?Hlen1, ?(dk_lengths _ Hd); done). unfold at_piece. by rewrite decide_True.
  - by rewrite Hview.
Qed.

Lemma check_event d a soft :
  fo_ok fo -> d_ok d -> exists d', check_hash (E:=E) sha1 fo d a soft = Ret d' /\ d_ok d'.
Proof.
  intros Hfo Hd. unfold check_hash.
  destruct (d_tasks d !! a) as [[| |q|]|] eqn:Ht; try by exists d.
  pose proof (dk_task _ Hd _ _ Ht) as (Hv & Hview).
  assert (~ apart (Checking q) q) as Hap by (by cbn; intros []).
  pose proof (check_piece_spec (E:=E) sha1 fo (d_files d) q Hfo Hv) as Hc.
  destruct (check_piece sha1 fo (d_files d) q) as [b|e|]; [| |done].
  - eexists. split; [done|].
    apply (task_event q (fun v => v) d (d_pt d) a _ (Some (Checked q b)) Hd Ht Hap).
    + by apply pt_change_id, Hd.
    + intros u [= <-]. split; [|done]. cbn. split_and!; try done. intros ->.
      destruct Hc as (bs & e & ? & ? & ? & Hb). symmetry in Hb. apply bool_decide_eq_true in Hb as ->. by exists bs.
    + by rewrite Hview.
  - destruct soft; [|eexists; split; [done|by eapply (end_event d a _ _ Hd)]].
    destruct (hold_event d a _ _ Hd Ht Hap) as (d' & -> & Hd2). run. by eexists.
Qed.

Lemma finish_event d a : d_ok d -> exists d', finish_piece d a = Ret d' /\ d_ok d'.
Proof.
  intros Hd. unfold finish_piece.
  destruct (d_tasks d !! a) as [[| | |q b]|] eqn:Ht; try by exists d.
  pose proof (dk_task _ Hd _ _ Ht) as (Hv & Hview & Hb).
  assert (~ apart (Checked q b) q) as Hap by (by cbn; intros []).
  assert (valid_piece (ct_lengths (pt_chunks (d_pt d))) q) as Hv' by (by rewrite (dk_lengths _ Hd)).
  destruct b.
  - destruct (hash_ok_change (d_pt d) q (dk_pt _ Hd) Hv' ltac:(by rewrite Hview)) as (pt' & -> & Hch). run.
    eexists. split; [done|]. apply (task_event q _ d pt' a _ None Hd Ht Hap Hch); auto. done.
  - destruct (hash_failed_change (d_pt d) q (dk_pt _ Hd) Hv' ltac:(by rewrite Hview)) as (pt' & -> & Hch). run.
    eexists. split; [done|]. apply (task_event q _ d pt' a _ None Hd Ht Hap Hch); [done|]. by rewrite Hview.
Qed.

Lemma requeue_event d p : d_ok d -> exists d', requeue_held d p = Ret d' /\ d_ok d'.
Proof.
  intros Hd. unfold requeue_held.
  assert (d_ok (mkD (d_pt d) (d_files d) (d_tasks d) (d_held d ∖ {[p]}))) as Hd'.
  { split; cbn [d_pt d_tasks d_held d_files]; try apply Hd. intros q [Hq _]%elem_of_difference. by apply (dk_held _ Hd). }
  case_bool_decide as Hp; cbn; [|by eexists].
  destruct (dk_held _ Hd p Hp) as (Hv & Hq & Ho & Hc).
  assert (valid_piece (ct_lengths (pt_chunks (d_pt d))) p) as Hv' by (by rewrite (dk_lengths _ Hd)).
  destruct (is_inflight (d_pt d) p); [by eexists|]. cbn.
  destruct (hash_failed_change (d_pt d) p (dk_pt _ Hd) Hv' Ho) as (pt' & -> & Hch). run.
  eexists. split; [done|]. eapply (d_ok_set_pt p _ _ pt' Hd' Hch); cbn [d_tasks d_held d_pt].
  - intros b t Ht. by eapply (apart_when_held d).
  - set_solver.
  - by destruct (pview (d_pt d) p) as [[] ? ?].
Qed.

Lemma died_event d a :
  d_ok d -> d_tasks d !! a = None ->
  exists pt' n, release_pieces_owned_by (d_pt d) a = Ret (pt', n) /\ d_ok (set_pt pt' d).
Proof.
  intros Hd Hnone. destruct (release_change (d_pt d) a (dk_pt _ Hd)) as (pt' & n & -> & Hok & Hlen & Hv).
  exists pt', n. split; [done|]. rewrite (dk_lengths _ Hd) in Hlen, Hv. apply d_ok_idle; try done.
  - intros p Hp. rewrite Hv by done. by destruct (decide _).
  - intros p Hp Hbusy. rewrite Hv by done. apply decide_False. intros Ho.
    destruct Hbusy as [Hh|(b & t & Ht & Hn)]; [apply (dk_held _ Hd) in Hh as (_ & _ & ? & _); congruence|].
    apply Hn. eapply apart_by_view; try done; [by rewrite (owner_view d p a Hd Ho)|].
    rewrite Ho. intros [= ->]. congruence.
Qed.

Lemma file_have_event d p file_id fi :
  d_ok d -> d_guard d (EvFileHave p file_id fi) ->
  exists pt' n, pt_update_file_have_on_piece_completed (d_pt d) p file_id fi = Ret (pt', n)
    /\ d_ok (set_pt pt' d).
Proof.
  intros Hd Hg. destruct (pt_exec_ok (d_pt d) (PFileHave p file_id fi) (dk_pt _ Hd) Hg) as (pt' & Hex & Hok).
  cbn in Hex. apply outcome_bind_Ret in Hex as ([pt1 n] & Hex & [= <-]). exists pt1, n. split; [done|].
  cbn [fst] in Hok. unfold pt_update_file_have_on_piece_completed, update_file_have_on_piece_completed in Hex.
  apply outcome_bind_Ret in Hex as ([ct m] & Hex & [= <- <-]).
  apply outcome_bind_Ret in Hex as (x & _ & Hex). apply outcome_bind_Ret in Hex as (y & _ & Hex).
  injection Hex as <- <-. apply d_ok_idle; try done. apply Hd.
Qed.

Lemma only_files_event d only :
  fo_ok fo -> d_ok d -> d_guard d (EvOnlyFiles only) ->
  exists pt' h, pt_update_only_files (d_pt d) (fo_file_infos fo) only = Ret (pt', h)
    /\ d_ok (set_pt pt' d).
Proof.
  intros Hfo Hd Hg. pose proof (dk_lengths _ Hd) as Hlen.
  assert (forall p, is_inflight (d_pt d) p = true ->
    valid_piece l p /\ bit (selected (pt_chunks (d_pt d))) (Z.to_nat p) = true) as Hsel.
  { intros p Hp. assert (valid_piece l p) as Hv.
    { unfold is_inflight in Hp. apply bool_decide_eq_true in Hp as [i Hi].
      rewrite <- Hlen. by eapply pk_inflight; [apply Hd|]. }
    split; [done|]. apply Hg; auto. }
  assert (Forall (file_wf (ct_lengths (pt_chunks (d_pt d)))) (fo_file_infos fo)) as Hf by (rewrite Hlen; apply Hfo).
  destruct (pt_exec_ok (d_pt d) (POnlyFiles (fo_file_infos fo) only) (dk_pt _ Hd)) as (pt1 & Hex & Hok).
  { split; [done|]. intros p Hp. by apply Hsel. }
  unfold pt_exec in Hex. apply outcome_bind_Ret in Hex as ([pt2 h] & Hex & [= <-]). cbn [fst] in Hok.
  rewrite Hex. unfold pt_update_only_files in Hex.
  destruct (only_files_spec (pt_chunks (d_pt d)) (fo_file_infos fo) only (pk_chunks _ (dk_pt _ Hd)) Hf)
    as (ct' & Heq & _ & [Hl Hh _ _ Hq _]). rewrite Heq in Hex. injection Hex as <- <-.
  eexists _, _. split; [done|]. apply d_ok_idle; [done|done|cbn; congruence| |].
  - intros p _. unfold pview. cbn. by rewrite Hh.
  - intros p Hp Hbusy. unfold pview. cbn. rewrite Hh, Hq. f_equal.
    assert (bit (queue_pieces (pt_chunks (d_pt d))) (Z.to_nat p) = false
            /\ bit (selected (pt_chunks (d_pt d))) (Z.to_nat p) = true) as [-> ->].
    { destruct Hbusy as [Hh'|(a & t & Ht & Hn)].
      - destruct (dk_held _ Hd p Hh') as (_ & Hq' & _). split; [exact Hq'|]. apply Hg; auto.
      - pose proof (dk_task _ Hd _ _ Ht) as Hto. destruct t as [ci data|ci data|q|q b]; cbn in Hn, Hto.
        1,2: assert (ci_piece_index ci = p) as <- by lia; destruct Hto as (_ & _ & _ & _ & _ & _ & Ho);
             pose proof (owner_view d _ a Hd Ho) as Hview;
             (split; [by apply (f_equal pv_queued) in Hview|]); apply Hsel; unfold is_inflight;
             apply bool_decide_eq_true; unfold pview in Ho; cbn in Ho;
             apply fmap_Some in Ho as (i & -> & _); by eexists.
        + assert (q = p) as <- by lia. destruct Hto as (_ & Hview).
          split; [by apply (f_equal pv_queued) in Hview|]. apply Hg; [done|]. right. right. exists a. by eexists.
        + assert (q = p) as <- by lia. destruct Hto as (_ & Hview & _).
          split; [by apply (f_equal pv_queued) in Hview|]. apply Hg; [done|]. right. right. exists a. by eexists. }
    by rewrite !andb_false_r.
Qed.
(** *** Whatever the order *)

Definition task_wf (t : Task) : Prop :=
  match t with
  | Writing ci data | Written ci data =>
    valid_piece l (ci_piece_index ci) /\ ci ∈ iter_chunk_infos l (ci_piece_index ci)
    /\ Z.of_nat (Piece_len data) = ci_size ci /\ is_u32 (p_index data) /\ is_u32 (p_begin data)
    /\ is_u32 (Z.of_nat (Piece_len data))
  | Checking p | Checked p _ => valid_piece l p
  end.

Record d_sound (d : DState S) : Prop := {
  dn_pt : pt_sound (d_pt d);
  dn_lengths : ct_lengths (pt_chunks (d_pt d)) = l;
  dn_task a t : d_tasks d !! a = Some t -> task_wf t;
  dn_held p : p ∈ d_held d -> valid_piece l p
}.

Lemma sound_pt d pt' : d_sound d -> sound_next (d_pt d) pt' -> d_sound (set_pt pt' d).
Proof. intros [? Hl ? ?] [? ?]. split; cbn; try done. congruence. Qed.

Lemma sound_set_task d a t : d_sound d -> task_wf t -> d_sound (set_task a t d).
Proof. intros [? ? Ht ?] Hw. split; cbn; try done. intros b u [[<- <-]|[_ Hu]]%lookup_insert_Some; [done|by eapply Ht]. Qed.

Lemma sound_end_task d a : d_sound d -> d_sound (end_task a d).
Proof. intros [? ? Ht ?]. split; cbn; try done. intros b u [_ Hu]%lookup_delete_Some. by eapply Ht. Qed.

Lemma sound_files d files : d_sound d -> d_sound (mkD (d_pt d) files (d_tasks d) (d_held d)).
Proof. intros [? ? ? ?]. by split. Qed.

Lemma sound_op d op : d_sound d -> pt_args (d_pt d) op -> exists pt', pt_exec (d_pt d) op = Ret pt' /\ d_sound (set_pt pt' d).
Proof.
  intros Hd Hop. destruct (pt_exec_sound (d_pt d) op (dn_pt _ Hd) Hop) as (pt' & ? & ?). exists pt'.
  split; [done|by apply sound_pt].
Qed.

Lemma sound_hold d p : d_sound d -> valid_piece l p -> exists d', hold_back p d = Ret d' /\ d_sound d'.
Proof.
  intros Hd Hv. unfold hold_back. destruct (sound_op d (PDefer p) Hd) as (pt' & Eq & Hd'); [cbn; by rewrite (dn_lengths _ Hd)|].
  cbn in Eq. rewrite Eq. run. eexists. split; [done|]. destruct Hd' as [? ? ? Hh]. split; cbn; try done.
  intros q [->%elem_of_singleton|Hq]%elem_of_union; [done|by apply Hh].
Qed.

Lemma sound_hold_end d p a :
  d_sound d -> valid_piece l p -> exists d', (d ← hold_back p d; Ret (end_task a d)) = Ret d' /\ d_sound d'.
Proof.
  intros Hd Hv. destruct (sound_hold d p Hd Hv) as (d' & -> & Hd'). run. eexists. split; [done|by apply sound_end_task].
Qed.

Lemma sound_receive d a data expected :
  fo_ok fo -> d_sound d -> is_u32 (p_index data) -> is_u32 (p_begin data) ->
  exists d', on_received_piece fo d a data expected = Ret d' /\ d_sound d'.
Proof.
  intros Hfo Hd Hi Hb. unfold on_received_piece.
  destruct (validate_piece_index l (p_index data)) as [i|] eqn:Ei; [|by exists d].
  apply validate_piece_index_Some in Ei as [-> Hle].
  assert (valid_piece l (p_index data)) as Hv by (unfold is_uint in Hi; split; lia).
  destruct (try_into 32 _) as [len|] eqn:El; [|by exists d]. apply try_into_Some in El as [Hlen ->].
  destruct (chunk_info_from_received_data _ _ _ _) as [ci|] eqn:Eci; [|by exists d].
  apply received_data_spec in Eci as (k & Hk & -> & Hbk & Hsz); [|apply Hfo|apply Hfo|done|done].
  destruct expected; [|by exists d]. cbn. unfold get_inflight.
  destruct (pt_inflight (d_pt d) !! p_index data) as [i|]; [|by exists d].
  case_bool_decide; [|by exists d]. eexists. split; [done|]. apply sound_set_task; [done|]. cbn. split_and!; try done.
  rewrite iter_chunk_infos_spec by (done || apply Hfo). apply list_elem_of_fmap_2, elem_of_seqZ. lia.
Qed.

Lemma sound_write d a soft :
  fo_ok fo -> d_sound d -> exists d', write_to_disk (E:=E) fo d a soft = Ret d' /\ d_sound d'.
Proof.
  intros Hfo Hd. unfold write_to_disk. destruct (d_tasks d !! a) as [[ci data| | |]|] eqn:Ht; try by exists d.
  pose proof (dn_task _ Hd _ _ Ht) as (Hv & Hci & Hl & ?).
  pose proof (write_chunk_spec (E:=E) fo (ci_piece_index ci) ci data (d_files d) Hfo Hv Hci Hl) as Hs.
  destruct (write_chunk fo data ci (d_files d)) as [files [[]|e|]]; [| |by destruct Hs as [? _]].
  - eexists. split; [done|]. apply sound_set_task; [by apply sound_files|done].
  - destruct soft; [by apply sound_hold_end; [apply sound_files|]|].
    eexists. split; [done|]. by apply sound_end_task, sound_files.
Qed.

Lemma sound_mark d a now : d_sound d -> exists d', mark_chunk d a now = Ret d' /\ d_sound d'.
Proof.
  intros Hd. unfold mark_chunk. destruct (d_tasks d !! a) as [[|ci data| |]|] eqn:Ht; try by exists d.
  pose proof (dn_task _ Hd _ _ Ht) as (Hv & _ & _ & Hargs).
  destruct (sound_op d (PChunk (p_index data) (p_begin data) (Z.of_nat (Piece_len data))) Hd Hargs) as (pt1 & Eq & Hd1).
  cbn in Eq. apply outcome_bind_Ret in Eq as ([pt2 r] & -> & [= ->]). cbn.
  assert (d_sound (end_task a (set_pt pt1 d))) by by apply sound_end_task.
  destruct r as [[| |]|]; try by eexists.
  destruct (sound_op (set_pt pt1 d) (PTake (ci_piece_index ci) now) Hd1 I) as (pt3 & [= E3] & Hd3).
  destruct (take_inflight pt1 (ci_piece_index ci) now) as [pt4 time]. cbn in E3. subst pt4.
  destruct time; eexists; (split; [done|]); [by apply (sound_set_task (set_pt pt3 d))|by apply (sound_end_task (set_pt pt3 d))].
Qed.

Lemma sound_check d a soft :
  fo_ok fo -> d_sound d -> exists d', check_hash (E:=E) sha1 fo d a soft = Ret d' /\ d_sound d'.
Proof.
  intros Hfo Hd. unfold check_hash. destruct (d_tasks d !! a) as [[| |q|]|] eqn:Ht; try by exists d.
  pose proof (dn_task _ Hd _ _ Ht) as Hv. cbn in Hv.
  pose proof (check_piece_spec (E:=E) sha1 fo (d_files d) q Hfo Hv) as Hc.
  destruct (check_piece sha1 fo (d_files d) q) as [b|e|]; [| |done].
  - eexists. split; [done|by apply sound_set_task].
  - destruct soft; [by apply sound_hold_end|]. eexists. split; [done|by apply sound_end_task].
Qed.

Lemma sound_finish d a : d_sound d -> exists d', finish_piece d a = Ret d' /\ d_sound d'.
Proof.
  intros Hd. unfold finish_piece. destruct (d_tasks d !! a) as [[| | |q b]|] eqn:Ht; try by exists d.
  pose proof (dn_task _ Hd _ _ Ht) as Hv. cbn in Hv. rewrite <- (dn_lengths _ Hd) in Hv.
  destruct b; [destruct (sound_op d (PHashOk q) Hd Hv) as (pt' & Eq & ?)|destruct (sound_op d (PHashFailed q) Hd Hv) as (pt' & Eq & ?)];
    cbn in Eq; rewrite Eq; run; eexists; (split; [done|by apply sound_end_task]).
Qed.

Lemma sound_requeue d p : d_sound d -> exists d', requeue_held d p = Ret d' /\ d_sound d'.
Proof.
  intros Hd. unfold requeue_held. set (d' := mkD _ _ _ _).
  assert (d_sound d') as Hd'.
  { destruct Hd as [? ? ? Hh]. split; cbn; try done. intros q [Hq _]%elem_of_difference. by apply Hh. }
  case_bool_decide as Hp; [|by exists d']. cbn. destruct (is_inflight (d_pt d) p); [by exists d'|]. cbn.
  pose proof (dn_held _ Hd p Hp) as Hv. rewrite <- (dn_lengths _ Hd) in Hv.
  destruct (sound_op d' (PHashFailed p) Hd' Hv) as (pt' & Eq & ?). cbn in Eq. rewrite Eq. run. by eexists.
Qed.

Lemma d_exec_sound d ev :
  fo_ok fo -> d_sound d -> d_args d ev -> exists d', d_exec (E:=E) sha1 fo d ev = Ret d' /\ d_sound d'.
Proof.
  intros Hfo Hd Hg. pose proof (dn_lengths _ Hd) as Hlen.
  destruct ev as [c f req|a data ex|a soft|a now|a soft|a|p fid fi|a|p|only]; cbn [d_exec].
  - unfold acquire_next_piece. destruct c; [by exists d|]. destruct f; [by exists d|].
    destruct (sound_op d (PAcquire (with_can_steal d req)) Hd) as (pt' & Eq & ?).
    { cbn in *. rewrite Hlen. destruct Hg. by split. }
    cbn [pt_exec] in Eq. apply outcome_bind_Ret in Eq as (r & -> & [= <-]). run. by eexists.
  - destruct Hg. by apply sound_receive.
  - by apply sound_write.
  - by apply sound_mark.
  - by apply sound_check.
  - by apply sound_finish.
  - destruct (sound_op d (PFileHave p fid fi) Hd Hg) as (pt' & Eq & ?). cbn [pt_exec] in Eq.
    apply outcome_bind_Ret in Eq as (r & -> & [= <-]). run. by eexists.
  - destruct (sound_op d (PRelease a) Hd I) as (pt' & Eq & ?). cbn [pt_exec] in Eq.
    apply outcome_bind_Ret in Eq as (r & -> & [= <-]). run. by eexists.
  - by apply sound_requeue.
  - destruct (sound_op d (POnlyFiles (fo_file_infos fo) only) Hd) as (pt' & Eq & ?); [cbn; rewrite Hlen; apply Hfo|].
    cbn [pt_exec] in Eq. apply outcome_bind_Ret in Eq as (r & -> & [= <-]). run. by eexists.
Qed.
End Invariant.

Section Safety.
Context `{MapIter} {S E : Type} `{StorageSpec S E} (sha1 : bytes -> bytes) (fo : FileOps).

(** The state a torrent goes live with, after the initial check. *)
Record d_init (d : DState S) : Prop := {
  di_chunks : ct_wf (pt_chunks (d_pt d));
  di_lengths : ct_lengths (pt_chunks (d_pt d)) = fo_lengths fo;
  di_inflight : pt_inflight (d_pt d) = ∅;
  di_tasks : d_tasks d = ∅;
  di_held : d_held d = ∅;
  di_have p : valid_piece (fo_lengths fo) p -> bit (have (pt_chunks (d_pt d))) (Z.to_nat p) = true ->
    verified sha1 fo (d_files d) p
}.

Lemma d_init_ok d : d_init d -> d_ok sha1 fo d.
Proof.
  intros [Hc Hl Hi Ht Hh Hv]. split; try done.
  - split; [done|]. intros p i. by rewrite Hi, lookup_empty.
  - intros a t. by rewrite Ht, lookup_empty.
  - intros a b t u p. by rewrite Ht, lookup_empty.
  - intros p. rewrite Hh. set_solver.
Qed.

Lemma d_exec_ok d ev :
  fo_ok fo -> d_ok sha1 fo d -> d_guard fo d ev ->
  exists d', d_exec (E:=E) sha1 fo d ev = Ret d' /\ d_ok sha1 fo d'.
Proof.
  intros Hfo Hd Hg. destruct ev as [c f req|a data ex|a soft|a now|a soft|a|p fid fi|a|p|only]; cbn [d_exec].
  - by apply acquire_event.
  - by apply receive_event.
  - by apply write_event.
  - by apply mark_event.
  - by apply check_event.
  - by apply finish_event.
  - destruct (file_have_event sha1 fo d p fid fi Hd Hg) as (pt' & n & -> & ?). by eexists.
  - destruct (died_event sha1 fo d a Hd Hg) as (pt' & n & -> & ?). by eexists.
  - by apply requeue_event.
  - destruct (only_files_event sha1 fo d only Hfo Hd Hg) as (pt' & h & -> & ?). by eexists.
Qed.

Lemma d_ok_sound d : d_ok sha1 fo d -> d_sound fo d.
Proof.
  intros [Hp Hl Ht _ Hh _]. split; [by apply pt_ok_sound|done| |by intros p (? & _)%Hh].
  intros a t Hat. specialize (Ht a t Hat). by destruct t; cbn in *; naive_solver.
Qed.

End Safety.

(** ** The ten-byte torrent of [FileOps], downloaded by two peers *)

Definition ex_ct : ChunkTracker :=
  mkChunkTracker [true; true; true; false; false; false; false; false] (replicate 8 false)
    (replicate 8 false) [true; true; true; false; false; false; false; false] [0; 0; 0] (fo_lengths ex_fo)
    (mkHNS 0 10 10).

Lemma ex_ct_wf : ct_wf ex_ct.
Proof.
  split; [|reflexivity]. split; try done.
  intros i. do 8 (destruct i; [by vm_compute|]). done.
Qed.

Definition ex_d : DState (list bytes) := mkD (PieceTracker_new ex_ct) [[]; []; []] ∅ ∅.

Definition ex_req (n : Z) (prio : list Z) : AcquireRequest :=
  mkReq (ex_peer n) None prio [] (fo_file_infos ex_fo) (Some [1; 0; 2]) (fun _ => true) (fun _ => true)
    (fun _ => 0) 0.

(** Peer 1 downloads piece 1. *)
Definition ex_evs : list d_ev :=
  [EvAcquire false false (ex_req 1 []); EvReceive (ex_peer 1) (mkPiece 1 0 [5; 6; 0] [8]) true;
   EvWrite (ex_peer 1) true; EvMark (ex_peer 1) 0; EvCheck (ex_peer 1) true; EvFinish (ex_peer 1)].

Abbreviation ex_exec := (d_exec (H := MapIter_to_list) (E := ()) ex_sha1 ex_fo).

Fixpoint ex_run (d : DState (list bytes)) (evs : list d_ev) : outcome (DState (list bytes)) :=
  match evs with
  | [] => Ret d
  | ev :: evs => d' ← ex_exec d ev; ex_run d' evs
  end.

Lemma ex_run_reachable d0 d evs d' :
  @d_reachable MapIter_to_list _ () _ ex_sha1 ex_fo d0 true d ->
  (forall k d1 ev, evs !! k = Some ev -> ex_run d (take k evs) = Ret d1 -> d_guard ex_fo d1 ev) ->
  ex_run d evs = Ret d' -> @d_reachable MapIter_to_list _ () _ ex_sha1 ex_fo d0 true d'.
Proof.
  revert d. induction evs as [|ev evs IH]; intros d Hr Hg Hrun; [by injection Hrun as <-|].
  cbn in Hrun. apply outcome_bind_Ret in Hrun as (d1 & Hex & Hrun).
  apply (IH d1); [|intros k d2 ev' Hk Hd2; apply (Hg (Datatypes.S k)); [done|cbn; by rewrite Hex]|done].
  eapply d_step; [done|by apply (Hg 0%nat)|done].
Qed.

Lemma ex_run_field {B} (f : DState (list bytes) -> B) d evs d' v :
  ex_run d evs = Ret d' -> (d' ← ex_run d evs; Ret (f d')) = Ret v -> f d' = v.
Proof. intros ->. by intros [=]. Qed.

Lemma ex_d_init : d_init ex_sha1 ex_fo ex_d.
Proof.
  split; try done; [apply ex_ct_wf|]. intros p [? Hp] Hb. cbn in Hp.
  assert (p = 0 \/ p = 1 \/ p = 2) as [-> | [-> | -> ]] by lia; by vm_compute in Hb.
Qed.

Lemma ex_evs_guarded k d1 ev :
  ex_evs !! k = Some ev -> ex_run ex_d (take k ex_evs) = Ret d1 -> d_guard ex_fo d1 ev.
Proof.
  intros Hk Hd1. destruct k as [|[|[|[|[|[|k]]]]]]; [injection Hk as <-..|discriminate Hk]; try exact I.
  - injection Hd1 as <-. by split; [split; try done; repeat constructor|].
  - pose proof (ex_run_field d_tasks _ _ _ ∅ Hd1 ltac:(vm_compute; reflexivity)) as Ht. clear Hd1.
    cbn [d_guard]. rewrite Ht. split_and!; [reflexivity|split; vm_compute; congruence..].
Qed.


(** ** A stream's priority request breaks it

    Between the check of piece 1 and its verdict the piece is neither had nor in
    flight, so a peer that asks for the pieces of a stream reserves it again. *)
Definition ex_stream_evs : list d_ev :=
  [EvAcquire false false (ex_req 1 []); EvReceive (ex_peer 1) (mkPiece 1 0 [5; 6; 0] [8]) true;
   EvWrite (ex_peer 1) true; EvMark (ex_peer 1) 0; EvCheck (ex_peer 1) true;
   EvAcquire false false (ex_req 2 [1]); EvFinish (ex_peer 1);
   EvReceive (ex_peer 2) (mkPiece 1 0 [66; 66; 66] [66]) true; EvWrite (ex_peer 2) true].

(** With streams in play the guarantee fails: a second peer reserves the
    piece that is being checked, and its block, whatever it holds, is written
    over the piece after that was marked as downloaded. *)
Theorem stream_priority_overwrites_verified_piece :
  exists d, ex_run ex_d ex_stream_evs = Ret d
    /\ bit (have (pt_chunks (d_pt d))) 1 = true
    /\ check_piece (E:=()) ex_sha1 ex_fo (d_files d) 1 = XOk false.
Proof. by eexists; split_and!; vm_compute. Qed.
