(* ===== verification/Repair.v ===== *)
(** * Scanning damaged files ([librqbit::repair], scanning primitives)

    A file whose disk returns [EIO] for some ranges is scanned in windows and
    sub-chunks ([walk]); the unreadable ranges are widened to file system blocks
    ([align_ranges]) and translated to pieces ([pieces_overlapping]).  Error
    classification ([anyhow_is_eio] and the like, with [librqbit::disk_space]) is
    here too.

    A reader is any state with a [read_at] (class [RangeReader]); what it promises
    is [RangeReaderSpec].  Loops take fuel: running out of it is [XPanic], and
    [walk_total] bounds what is needed by the bytes scanned and the interruptions
    the reader can report. *)

From stdpp Require Import base tactics option list list_numbers numbers decidable sets sorting gmap strings.
From Stdlib Require Import ZArith Lia.
From S2P Require Import Prelude.
Open Scope Z_scope.

Definition SCAN_WINDOW : Z := 4 * 1024 * 1024.
Definition SUB_CHUNK : Z := 64 * 1024.
Definition DIRECT_ALIGN : Z := 4096.

(** ** Errors of the operating system ([std::io::Error]) *)

Inductive ErrorKind :=
| Interrupted
| UnexpectedEof
| NotFound
| InvalidInput
| Unsupported
| StorageFull
| QuotaExceeded
| OtherKind.

#[export] Instance ErrorKind_eq_dec : EqDecision ErrorKind.
Proof. solve_decision. Defined.

(** An error is an error number of the system or a kind made up by the program. *)
Inductive io_error :=
| Os (errno : Z)
| Simple (k : ErrorKind).

#[export] Instance io_error_eq_dec : EqDecision io_error.
Proof. solve_decision. Defined.

Definition EINTR : Z := 4.
Definition ENOENT : Z := 2.
Definition EIO : Z := 5.
Definition EEXIST : Z := 17.
Definition EINVAL : Z := 22.
Definition ENOSPC : Z := 28.
Definition EDQUOT : Z := 122.

Definition raw_os_error (e : io_error) : option Z :=
  match e with Os n => Some n | Simple _ => None end.

Definition kind (e : io_error) : ErrorKind :=
  match e with
  | Simple k => k
  | Os n =>
      if n =? EINTR then Interrupted
      else if n =? ENOENT then NotFound
      else if n =? EINVAL then InvalidInput
      else if n =? ENOSPC then StorageFull
      else if n =? EDQUOT then QuotaExceeded
      else OtherKind
  end.

Definition io_is_eio (e : io_error) : bool := bool_decide (raw_os_error e = Some EIO).

(** The causes an [anyhow] error carries, outermost first, as far as the
    classification below looks at them. *)
Inductive cause :=
| CIo (e : io_error)
| CErrno (n : Z)
| CFsFileIsNone
| CContext (msg : string).

Definition anyhow_is_missing_data (chain : list cause) : bool :=
  existsb (fun c =>
    match c with
    | CIo e => bool_decide (kind e = UnexpectedEof) || bool_decide (kind e = NotFound)
    | CFsFileIsNone => true
    | _ => false
    end) chain.

Definition anyhow_is_eio (chain : list cause) : bool :=
  existsb (fun c =>
    match c with
    | CIo e => io_is_eio e
    | CErrno n => n =? EIO
    | _ => false
    end) chain.

Definition io_is_disk_full (e : io_error) : bool :=
  match raw_os_error e with
  | Some code =>
      (code =? ENOSPC) || (code =? EDQUOT) ||
      bool_decide (kind e = StorageFull) || bool_decide (kind e = QuotaExceeded)
  | None => bool_decide (kind e = StorageFull) || bool_decide (kind e = QuotaExceeded)
  end.

Definition is_disk_full (chain : list cause) : bool :=
  existsb (fun c =>
    match c with
    | CIo e => io_is_disk_full e
    | CErrno n => (n =? ENOSPC) || (n =? EDQUOT)
    | _ => false
    end) chain.

(** [match m { Ok(a) => .., Err(e) => .. }] *)
Definition io_case {S E E' A B} (m : io S E A) (ok : A -> io S E' B) (err : E -> io S E' B) :
    io S E' B := fun s =>
  match m s with
  | (s, XOk a) => ok a s
  | (s, XErr e) => err e s
  | (s, XPanic) => (s, XPanic)
  end.

(** ** Ranges of offsets *)

(** [Range<u64>] *)
Abbreviation range := (Z * Z)%type.

Definition in_range (o : Z) (r : range) : Prop := r.1 <= o < r.2.
Definition in_ranges (o : Z) (rs : list range) : Prop := exists r, r ∈ rs /\ in_range o r.

#[export] Instance in_range_dec o r : Decision (in_range o r).
Proof. unfold in_range. apply _. Defined.
#[export] Instance in_ranges_dec o rs : Decision (in_ranges o rs).
Proof.
  refine (cast_if (decide (Exists (in_range o) rs))); unfold in_ranges;
    by rewrite <- Exists_exists.
Defined.

Definition range_len (r : range) : Z := u64 (r.2 - r.1).

Definition push_range (v : list range) (r : range) : list range :=
  if r.2 <=? r.1 then v
  else match reverse v with
       | l :: rest => if r.1 <=? l.2 then reverse rest ++ [(l.1, Z.max l.2 r.2)] else v ++ [r]
       | [] => v ++ [r]
       end.

Definition align_ranges (ranges : list range) (block : Z) : outcome (list range) :=
  foldM (fun out r =>
    if block =? 0 then Panic
    else Ret (push_range out (u64 (r.1 / block * block), u64 (div_ceil r.2 block * block))))
    [] (sort_by (fun a b => a.1 <=? b.1) ranges).

Definition clip_ranges (ranges : list range) (len : Z) : list range :=
  omap (fun r => let e := Z.min r.2 len in if r.1 <? e then Some (r.1, e) else None) ranges.

(** [BTreeSet<u32>] as the increasing list of its elements. *)
Fixpoint btree_insert (x : Z) (l : list Z) : list Z :=
  match l with
  | [] => [x]
  | y :: l' => if x <? y then x :: l else if x =? y then l else y :: btree_insert x l'
  end.

Definition pieces_overlapping (file_offset file_len piece_len : Z) (ranges : list range) :
    outcome (list Z) :=
  foldM (fun out r =>
    if piece_len =? 0 then Panic
    else
      let first := u64 (file_offset + r.1) / piece_len in
      let last := u64 (file_offset + r.2 - 1) / piece_len in
      Ret (foldl (fun out p => btree_insert (u32 p) out) out (seqZ first (last + 1 - first))))
    [] (clip_ranges ranges file_len).

Definition round_up (n : Z) : Z := div_ceil n DIRECT_ALIGN * DIRECT_ALIGN.

(** ** Scanning *)

(** The trait [RangeReader]: [read_at offset len] fills a buffer of [len] bytes
    from [offset] on and returns the bytes it could read. *)
Class RangeReader (St : Type) := read_at : Z -> Z -> io St io_error bytes.

Section Walk.
Context {St : Type} `{RangeReader St}.

(** The buffer is [blen] long; [got] bytes of it are filled. *)
Fixpoint read_full (fuel : nat) (offset blen want : Z) (got : bytes) : io St io_error bytes :=
  match fuel with
  | O => io_lift XPanic
  | S fuel =>
      let n := Z.of_nat (length got) in
      if n <? want then
        io_case (read_at (u64 (offset + n)) (blen - n))
          (fun bs =>
             match bs with
             | [] => io_lift (XErr (Simple UnexpectedEof))
             | _ => read_full fuel offset blen want (got ++ bs)
             end)
          (fun e =>
             if bool_decide (kind e = Interrupted) then read_full fuel offset blen want got
             else io_lift (XErr e))
      else mret got
  end.

Context (fuel : nat) (on_data : Z -> bytes -> io St io_error ()) (progress : Z -> St -> St).

(** One read of [walk]: hand the bytes over, or call [on_eio]. *)
Definition read_piece {B} (off want : Z) (ok : B) (on_eio : io St io_error B) : io St io_error B :=
  io_case (read_full fuel off (round_up want) want [])
    (fun b => on_data off (take (Z.to_nat want) b) ;; mret ok)
    (fun e => if io_is_eio e then on_eio else io_lift (XErr e)).

Fixpoint walk_sub (n : nat) (sub s end_ : Z) (bad : list range) : io St io_error (list range) :=
  match n with
  | O => io_lift XPanic
  | S n =>
      if s <? end_ then
        let sub_end := u64 ((s / sub + 1) * sub) in
        let swant := u64 (Z.min sub_end end_ - s) in
        bad ← read_piece s swant bad (mret (push_range bad (s, u64 (s + swant))));
        walk_sub n sub (u64 (s + swant)) end_ bad
      else mret bad
  end.

Fixpoint walk_windows (n : nat) (window sub start off end_ : Z) (bad : list range) :
    io St io_error (list range) :=
  match n with
  | O => io_lift XPanic
  | S n =>
      if off <? end_ then
        let window_end := u64 ((off / window + 1) * window) in
        let want := u64 (Z.min window_end end_ - off) in
        bad ← read_piece off want bad (walk_sub fuel sub off (u64 (off + want)) bad);
        let off := u64 (off + want) in
        io_modify (progress (u64 (off - start))) ;;
        walk_windows n window sub start off end_ bad
      else mret bad
  end.

Definition walk (range : range) (window sub : Z) : io St io_error (list (Z * Z)) :=
  if (sub <=? window) && (0 <? sub)
  then walk_windows fuel window sub range.1 range.1 range.2 []
  else io_lift XPanic.
End Walk.

Definition scan_unreadable {St} `{RangeReader St} (fuel : nat) (progress : Z -> St -> St)
    (range : Z * Z) (window sub : Z) : io St io_error (list (Z * Z)) :=
  walk fuel (fun _ _ => mret ()) progress range window sub.

(** ** Ranges: what the operations mean *)

(** Non-empty ranges in increasing order with gaps between them. *)
Definition separated (v : list range) : Prop :=
  Forall (fun r => r.1 < r.2) v /\ StronglySorted (fun a b => a.2 < b.1) v.

Lemma in_ranges_nil o : ~ in_ranges o [].
Proof. by intros (r & ?%not_elem_of_nil & ?). Qed.

Lemma in_ranges_cons o r v : in_ranges o (r :: v) <-> in_range o r \/ in_ranges o v.
Proof. unfold in_ranges. set_solver. Qed.

Lemma in_ranges_app o v w : in_ranges o (v ++ w) <-> in_ranges o v \/ in_ranges o w.
Proof. unfold in_ranges. set_solver. Qed.

Lemma in_ranges_single o r : in_ranges o [r] <-> in_range o r.
Proof. rewrite in_ranges_cons. split; [intros [?|?%in_ranges_nil]|]; tauto. Qed.

#[export] Hint Rewrite in_ranges_cons in_ranges_app in_ranges_single : ranges.

Lemma separated_snoc v r :
  separated (v ++ [r]) <-> separated v /\ r.1 < r.2 /\ Forall (fun a => a.2 < r.1) v.
Proof.
  unfold separated. rewrite Forall_app, Forall_singleton, StronglySorted_app. split.
  - intros ((? & ?) & Hlt & ? & ?). repeat split; try done.
    apply Forall_forall. intros a Ha. apply (Hlt a r Ha). set_solver.
  - intros ((? & ?) & ? & HF). repeat split; try done.
    + intros a b Ha Hb%list_elem_of_singleton. subst b. by eapply Forall_forall in HF.
    + by repeat constructor.
Qed.

(** How [push_range] acts on a vector seen from its end. *)
Lemma push_range_snoc v l r :
  push_range (v ++ [l]) r =
    if r.2 <=? r.1 then v ++ [l]
    else if r.1 <=? l.2 then v ++ [(l.1, Z.max l.2 r.2)] else (v ++ [l]) ++ [r].
Proof. unfold push_range. rewrite reverse_snoc, reverse_involutive. done. Qed.

Lemma push_range_nil r : push_range [] r = if r.2 <=? r.1 then [] else [r].
Proof. done. Qed.

(** Pushing ranges by increasing start accumulates their union, in order. *)
Lemma push_range_spec v r :
  separated v -> (forall a, a ∈ v -> a.1 <= r.1) ->
  separated (push_range v r) /\
  (forall o, in_ranges o (push_range v r) <-> in_ranges o v \/ in_range o r) /\
  (forall a, a ∈ push_range v r -> a.1 <= r.1) /\
  (forall e, Forall (fun a => a.2 <= e) v -> r.2 <= e -> Forall (fun a => a.2 <= e) (push_range v r)).
Proof.
  intros Hs Hle. destruct (Z.leb_spec r.2 r.1) as [He|He].
  { unfold push_range. rewrite (proj2 (Z.leb_le _ _) He).
    repeat split; try done; try apply Hs; [tauto|].
    intros [?|Ho]; [done|]. unfold in_range in Ho. lia. }
  destruct v as [|l v _] using rev_ind.
  { rewrite push_range_nil. destruct (Z.leb_spec r.2 r.1); [lia|].
    split; [|split; [|split]].
    - split; by repeat constructor.
    - intros o. rewrite in_ranges_single. split; [tauto|]. by intros [?%in_ranges_nil|].
    - intros a Ha%list_elem_of_singleton. by subst a.
    - intros. by constructor. }
  rewrite push_range_snoc. destruct (Z.leb_spec r.2 r.1); [lia|].
  pose proof (Hle l ltac:(set_solver)) as Hl.
  apply separated_snoc in Hs as (Hs & Hne & Hlt).
  destruct (Z.leb_spec r.1 l.2).
  - split; [|split; [|split]].
    + apply separated_snoc. simpl. split; [done|]. split; [lia|done].
    + intros o. autorewrite with ranges. unfold in_range. simpl. split; intros ?; intuition lia.
    + intros a [Ha|Ha%list_elem_of_singleton]%elem_of_app; [|subst a; simpl in *; lia]. apply Hle. set_solver.
    + intros e He1 He2. rewrite Forall_app, Forall_singleton in *. simpl. intuition lia.
  - split; [|split; [|split]].
    + apply separated_snoc. split; [by apply separated_snoc|]. split; [done|].
      apply Forall_app. split; [|by constructor].
      eapply Forall_impl; [exact Hlt|]. simpl. lia.
    + intros o. autorewrite with ranges. tauto.
    + intros a [Ha|Ha%list_elem_of_singleton]%elem_of_app; [|subst a; simpl in *; lia]. by apply Hle.
    + intros e He1 He2. rewrite Forall_app. split; [done|]. by constructor.
Qed.

Lemma clip_ranges_in rs len o : in_ranges o (clip_ranges rs len) <-> in_ranges o rs /\ o < len.
Proof.
  unfold clip_ranges, in_ranges, in_range. setoid_rewrite list_elem_of_omap. split.
  - intros (r & (q & Hq & He) & Ho). destruct (Z.ltb_spec q.1 (Z.min q.2 len)); simplify_eq/=.
    split; [exists q; split; [done|]|]; lia.
  - intros [(r & Hr & Ho) Hlen]. exists (r.1, Z.min r.2 len). split; [|simpl; lia].
    exists r. split; [done|]. by rewrite (proj2 (Z.ltb_lt _ _)) by lia.
Qed.

Lemma clip_ranges_bounds rs len r : r ∈ clip_ranges rs len -> r.1 < r.2 <= len /\ exists e, (r.1, e) ∈ rs /\ r.2 <= e.
Proof.
  unfold clip_ranges. rewrite list_elem_of_omap. intros ([a b] & Hq & He).
  destruct (Z.ltb_spec (a, b).1 (Z.min (a, b).2 len)); simplify_eq/=. split; [lia|]. exists b. split; [done|lia].
Qed.

Lemma btree_insert_elem x l y : y ∈ btree_insert x l <-> y = x \/ y ∈ l.
Proof.
  induction l as [|z l IH]; simpl; [set_solver|].
  destruct (Z.ltb_spec x z); [set_solver|]. destruct (Z.eqb_spec x z); set_solver.
Qed.

Lemma btree_insert_sorted x l :
  StronglySorted Z.lt l -> StronglySorted Z.lt (btree_insert x l).
Proof.
  induction 1 as [|z l Hl IH HF]; simpl; [by repeat constructor|].
  destruct (Z.ltb_spec x z).
  - constructor; [by constructor|]. constructor; [done|].
    eapply Forall_impl; [exact HF|]. simpl. lia.
  - destruct (Z.eqb_spec x z); [by constructor|]. constructor; [done|].
    apply Forall_forall. intros y [->|Hy]%btree_insert_elem; [lia|].
    by eapply Forall_forall in HF.
Qed.

Lemma foldl_btree_insert (f : Z -> Z) ps out :
  StronglySorted Z.lt out ->
  let out' := foldl (fun out p => btree_insert (f p) out) out ps in
  StronglySorted Z.lt out' /\ forall x, x ∈ out' <-> x ∈ out \/ exists p, p ∈ ps /\ x = f p.
Proof.
  revert out. induction ps as [|p ps IH]; intros out Hs; simpl; [split; [done|set_solver]|].
  destruct (IH (btree_insert (f p) out)) as [H1 H2]; [by apply btree_insert_sorted|].
  split; [done|]. intros x. rewrite H2, btree_insert_elem. set_solver.
Qed.

(** The quotients of the numbers of a non-empty interval are the interval between
    the quotients of its ends. *)
Lemma div_interval n a b q :
  0 < n -> a < b -> (a / n <= q <= (b - 1) / n <-> exists o, a <= o < b /\ o / n = q).
Proof.
  intros Hn Hab. split.
  - intros Hq. exists (Z.max a (q * n)).
    pose proof (Z.div_mod a n ltac:(lia)). pose proof (Z.mod_pos_bound a n Hn).
    pose proof (Z.div_mod (b - 1) n ltac:(lia)). pose proof (Z.mod_pos_bound (b - 1) n Hn).
    destruct (Z.max_spec a (q * n)) as [[? ->]|[? ->]].
    + split; [nia|]. by rewrite Z.div_mul by lia.
    + split; [lia|nia].
  - intros (o & Ho & <-). split; apply Z.div_le_mono; lia.
Qed.

(** One block boundary on each side of a non-empty range: the widened range holds
    exactly the blocks the range meets. *)
Lemma widened_in block a b o :
  0 < block -> a < b ->
  (a / block * block <= o < div_ceil b block * block <->
   exists o', a <= o' < b /\ o' / block = o / block).
Proof.
  intros Hb Hab. rewrite <- div_interval by done. pose proof (div_ceil_spec b block Hb).
  pose proof (Z.div_mod (b - 1) block ltac:(lia)). pose proof (Z.mod_pos_bound (b - 1) block Hb).
  pose proof (Z.div_mod o block ltac:(lia)). pose proof (Z.mod_pos_bound o block Hb).
  assert ((b - 1) / block = div_ceil b block - 1) as -> by nia.
  split; intros [? ?]; split; nia.
Qed.

Lemma fold_push_range block (l : list range) out :
  separated out ->
  sorted_by (fun a b => a.1 <=? b.1) l ->
  (forall r a, r ∈ l -> a ∈ out -> a.1 <= r.1 / block * block) ->
  Forall (fun r => (block | r.1) /\ (block | r.2)) out -> 0 < block ->
  Forall (fun r => 0 <= r.1 < r.2 /\ r.2 + block <= 2 ^ 64) l ->
  exists out', foldM (fun out r =>
      if block =? 0 then Panic
      else Ret (push_range out (u64 (r.1 / block * block), u64 (div_ceil r.2 block * block)))) out l
      = Ret out' /\ separated out' /\ Forall (fun r => (block | r.1) /\ (block | r.2)) out' /\
    forall o, in_ranges o out' <->
      in_ranges o out \/ exists r, r ∈ l /\ r.1 / block * block <= o < div_ceil r.2 block * block.
Proof.
  revert out. induction l as [|r l IH]; intros out Hs Hsort Hle Hdiv Hb Hl.
  { exists out. cbn. split; [done|]. split; [done|]. split; [done|]. set_solver. }
  apply Forall_cons_1 in Hl as [Hr Hl]. destruct Hsort as [Hrl Hsort]. cbn -[push_range].
  destruct (Z.eqb_spec block 0); [lia|]. cbn -[push_range].
  pose proof (div_ceil_spec r.2 block Hb) as Hc.
  pose proof (Z.div_mod r.1 block ltac:(lia)). pose proof (Z.mod_pos_bound r.1 block Hb).
  pose proof (Z.div_pos r.1 block ltac:(lia) Hb). pose proof (div_ceil_nonneg r.2 block Hb ltac:(lia)).
  rewrite (wrap_id 64 (r.1 / block * block)) by (split; nia).
  rewrite (wrap_id 64 (div_ceil r.2 block * block)) by (split; nia).
  set (w := (r.1 / block * block, div_ceil r.2 block * block)).
  destruct (push_range_spec out w) as (P1 & P2 & P3 & _); [done| |].
  { intros a Ha. apply Hle; [left|done]. }
  destruct (IH (push_range out w)) as (out' & -> & S' & D' & I'); try done.
  - intros q a Hq Ha. etrans; [by apply P3|]. simpl.
    apply Z.mul_le_mono_nonneg_r; [lia|]. apply Z.div_le_mono; [done|].
    apply Z.leb_le, Hrl, Hq.
  - assert (Hw : (block | w.1) /\ (block | w.2)).
    { split; [exists (r.1 / block)|exists (div_ceil r.2 block)]; done. }
    unfold push_range. destruct (w.2 <=? w.1); [done|].
    destruct out as [|q out _] using rev_ind; [by constructor|].
    rewrite reverse_snoc, reverse_involutive. apply Forall_app in Hdiv as [Hd [Hq _]%Forall_cons_1].
    destruct (w.1 <=? q.2).
    + apply Forall_app. split; [done|]. constructor; [|constructor]. split; [apply Hq|]. cbn [snd].
      destruct (Z.max_spec q.2 w.2) as [[_ ->]|[_ ->]]; [apply Hw|apply Hq].
    + rewrite !Forall_app, !Forall_singleton. done.
  - exists out'. split; [done|]. split; [done|]. split; [done|]. intros o. rewrite I', P2.
    unfold in_range. simpl. set_solver.
Qed.

(** Widening non-empty ranges to blocks of [block] bytes yields aligned ranges, in
    order and apart from each other, that hold exactly the blocks in which some
    byte of the given ranges lies. *)
Lemma align_ranges_correct ranges block :
  0 < block -> Forall (fun r => 0 <= r.1 < r.2 /\ r.2 + block <= 2 ^ 64) ranges ->
  exists out, align_ranges ranges block = Ret out /\ separated out /\
    Forall (fun r => (block | r.1) /\ (block | r.2)) out /\
    forall o, in_ranges o out <-> exists o', in_ranges o' ranges /\ o' / block = o / block.
Proof.
  intros Hb Hr. unfold align_ranges.
  pose proof (sort_by_perm (fun a b : range => a.1 <=? b.1) ranges) as Hp.
  destruct (fold_push_range block (sort_by (fun a b => a.1 <=? b.1) ranges) []) as (out & -> & Hs & Hd & Hi).
  - split; constructor.
  - apply sort_by_sorted; intros *; rewrite !Z.leb_le; lia.
  - by intros ? ? ? ?%not_elem_of_nil.
  - constructor.
  - done.
  - by rewrite Hp.
  - exists out. split; [done|]. split; [done|]. split; [done|]. intros o. rewrite Hi. split.
    + intros [?%in_ranges_nil|(r & Hin & Ho)]; [done|]. rewrite Hp in Hin.
      assert (r.1 < r.2) by (eapply Forall_forall in Hr; [|done]; lia).
      apply widened_in in Ho as (o' & ? & ?); [|done..]. exists o'. split; [by exists r|done].
    + intros (o' & (r & Hin & Ho') & Hq). right. exists r. rewrite Hp. split; [done|].
      assert (r.1 < r.2) by (eapply Forall_forall in Hr; [|done]; lia).
      apply widened_in; [done..|]. by exists o'.
Qed.

(** The pieces inserted for one range. *)
Lemma range_pieces file_offset piece_len (r : range) :
  0 < piece_len -> 0 <= file_offset + r.1 -> r.1 < r.2 ->
  (file_offset + r.2 - 1) / piece_len < 2 ^ 32 ->
  forall p, (exists q, q ∈ seqZ ((file_offset + r.1) / piece_len)
      ((file_offset + r.2 - 1) / piece_len + 1 - (file_offset + r.1) / piece_len) /\ p = wrap 32 q) <->
    exists o, in_range o r /\ (file_offset + o) / piece_len = p.
Proof.
  intros Hp H0 Hne H32 p. setoid_rewrite elem_of_seqZ.
  pose proof (Z.div_pos (file_offset + r.1) piece_len H0 Hp).
  assert (Hq : forall q, (file_offset + r.1) / piece_len <= q <
      (file_offset + r.1) / piece_len + ((file_offset + r.2 - 1) / piece_len + 1 - (file_offset + r.1) / piece_len) <->
      exists o, in_range o r /\ (file_offset + o) / piece_len = q).
  { intros q. pose proof (div_interval piece_len (file_offset + r.1) (file_offset + r.2) q Hp ltac:(lia)) as Hd.
    transitivity ((file_offset + r.1) / piece_len <= q <= (file_offset + r.2 - 1) / piece_len); [lia|].
    rewrite Hd. unfold in_range. split.
    - intros (o & Ho & <-). exists (o - file_offset). split; [lia|]. f_equal. lia.
    - intros (o & Ho & <-). exists (file_offset + o). split; [lia|done]. }
  split.
  - intros (q & Hq' & ->). rewrite wrap_id by (unfold is_uint; lia). by apply Hq.
  - intros Ho%Hq. exists p. split; [done|]. by rewrite wrap_id by (unfold is_uint; lia).
Qed.

(** The pieces reported for the ranges of a file are, without repetition and in
    order, those that contain a byte of one of the ranges. *)
Lemma pieces_overlapping_correct file_offset file_len piece_len ranges :
  0 < piece_len -> 0 <= file_offset -> file_offset + file_len <= 2 ^ 64 ->
  (file_offset + file_len) / piece_len < 2 ^ 32 -> Forall (fun r => 0 <= r.1) ranges ->
  exists out, pieces_overlapping file_offset file_len piece_len ranges = Ret out /\
    StronglySorted Z.lt out /\
    forall p, p ∈ out <-> exists o, in_ranges o ranges /\ o < file_len /\ (file_offset + o) / piece_len = p.
Proof.
  intros Hp Ho Hl H32 Hr. unfold pieces_overlapping.
  set (rs := clip_ranges ranges file_len).
  assert (Hrs : Forall (fun r => 0 <= r.1 < r.2 /\ r.2 <= file_len) rs).
  { apply Forall_forall. intros r (Hb & e & He & _)%clip_ranges_bounds.
    eapply Forall_forall in Hr; [|exact He]. simpl in Hr. lia. }
  set (step := fun out r => _).
  assert (Hstep : forall out r, 0 <= r.1 < r.2 -> r.2 <= file_len -> step out r =
    Ret (foldl (fun out p => btree_insert (wrap 32 p) out) out (seqZ ((file_offset + r.1) / piece_len)
      ((file_offset + r.2 - 1) / piece_len + 1 - (file_offset + r.1) / piece_len)))).
  { intros out r ? ?. unfold step. destruct (Z.eqb_spec piece_len 0); [lia|]. cbn zeta.
    by rewrite !(wrap_id 64) by (unfold is_uint; lia). }
  clearbody step.
  assert (Hgoal : forall out, StronglySorted Z.lt out -> exists out',
    foldM step out rs = Ret out' /\ StronglySorted Z.lt out' /\
    forall p, p ∈ out' <-> p ∈ out \/ exists o, in_ranges o rs /\ (file_offset + o) / piece_len = p).
  { clear Hr. clearbody rs. induction Hrs as [|r rs Hb Hrs IH]; intros out Hs.
    { exists out. cbn. split; [done|]. split; [done|]. intros p. split; [tauto|].
      intros [?|(o & ?%in_ranges_nil & _)]; done. }
    cbn [foldM]. rewrite Hstep by lia. cbn [mbind outcome_bind].
    assert ((file_offset + r.2 - 1) / piece_len <= (file_offset + file_len) / piece_len)
      by (apply Z.div_le_mono; lia).
    pose proof (range_pieces file_offset piece_len r Hp ltac:(lia) ltac:(lia) ltac:(lia)) as Hrange.
    destruct (foldl_btree_insert (wrap 32) (seqZ ((file_offset + r.1) / piece_len)
      ((file_offset + r.2 - 1) / piece_len + 1 - (file_offset + r.1) / piece_len)) out Hs) as [Hs1 Hi1].
    destruct (IH _ Hs1) as (out' & -> & Hs' & Hi'). exists out'. split; [done|]. split; [done|].
    intros p. rewrite Hi', Hi1, Hrange. setoid_rewrite in_ranges_cons. clear. naive_solver. }
  destruct (Hgoal []) as (out & -> & Hs & Hi); [constructor|]. exists out. split; [done|]. split; [done|].
  intros p. rewrite Hi. unfold rs. setoid_rewrite clip_ranges_in. set_solver.
Qed.

(** ** Scanning: what a walk does *)

(** [bs] is what the cells hold from [off] on. *)
Definition holds_at (cells : list (option Z)) (off : Z) (bs : bytes) : Prop :=
  forall i b, bs !! i = Some b -> cells !! (Z.to_nat off + i)%nat = Some (Some b).

Lemma reads_at_app cells off b1 b2 :
  0 <= off -> holds_at cells off b1 -> holds_at cells (off + Z.of_nat (length b1)) b2 ->
  holds_at cells off (b1 ++ b2).
Proof.
  intros Ho H1 H2 i b [Hi|[Hi Hb]]%lookup_app_Some; [by apply H1|].
  apply H2 in Hb. rewrite <- Hb. f_equal. lia.
Qed.

Lemma holds_at_take cells off bs n : holds_at cells off bs -> holds_at cells off (take n bs).
Proof. intros Hh i b [Hb _]%lookup_take_Some. by apply Hh. Qed.

(** Computes the trivial actions of [io]. *)
Ltac io_simp := unfold io_lift, io_modify, mret, io_ret in *; simplify_eq/=.

Section WalkRule.
Context {St : Type} `{RangeReader St}.
Context (fuel : nat) (on_data : Z -> bytes -> io St io_error ()) (progress : Z -> St -> St).

(** What holds whatever happens: a property of the state that reads and callbacks
    keep is kept by the walk, also when it fails. *)
Section Frame.
Context (P : St -> Prop).
Hypothesis P_read : forall off n s, P s -> P (read_at off n s).1.
Hypothesis P_data : forall off bs s, P s -> P (on_data off bs s).1.
Hypothesis P_progress : forall n s, P s -> P (progress n s).

Lemma read_full_frame f off blen want got s : P s -> P (read_full f off blen want got s).1.
Proof using P_read.
  revert got s. induction f as [|f IH]; intros got s Hs; [done|]. cbn [read_full].
  destruct (_ <? want); [|done]. unfold io_case.
  pose proof (P_read (u64 (off + Z.of_nat (length got))) (blen - Z.of_nat (length got)) s Hs) as Hr.
  destruct (read_at _ _ s) as [s1 [[|b bs]|e|]]; [done|by apply IH| |done]. simpl in Hr.
  destruct (bool_decide _); [by apply IH|done].
Qed.

Lemma read_piece_frame {B} off want (ok : B) on_eio s :
  (forall s, P s -> P (on_eio s).1) -> P s -> P (read_piece fuel on_data off want ok on_eio s).1.
Proof using P_read P_data.
  intros He Hs. unfold read_piece, io_case.
  pose proof (read_full_frame fuel off (round_up want) want [] s Hs) as Hr.
  destruct (read_full _ _ _ _ _ s) as [s1 [b|e|]]; [|destruct (io_is_eio e)|]; simpl in *; try by auto.
  unfold mbind, io_bind. pose proof (P_data off (take (Z.to_nat want) b) s1 Hr) as Hd.
  by destruct (on_data _ _ s1) as [s2 [[]|?|]].
Qed.

Lemma walk_frame range window sub s : P s -> P (walk fuel on_data progress range window sub s).1.
Proof using P_read P_data P_progress.
  intros Hs. unfold walk. destruct (_ && _); [|done].
  assert (Hsub : forall n s0 end_ bad s, P s -> P (walk_sub fuel on_data n sub s0 end_ bad s).1).
  { induction n as [|n IH]; intros s0 end_ bad s' Hs'; [done|]. cbn [walk_sub].
    destruct (s0 <? end_); [|done]. unfold mbind at 1, io_bind at 1.
    match goal with |- context [read_piece ?a ?b ?c ?d ?e ?f s'] =>
      pose proof (read_piece_frame c d e f s' ltac:(done) Hs') as Hp;
      destruct (read_piece a b c d e f s') as [s1 [?|?|]] end; [by apply IH|done..]. }
  generalize range.1 at 2. generalize (@nil (Z * Z)). revert s Hs.
  generalize fuel at 2. intros n. induction n as [|n IH]; intros s Hs bad off; [done|]. cbn [walk_windows].
  destruct (off <? range.2); [|done]. unfold mbind at 1, io_bind at 1.
  match goal with |- context [read_piece ?a ?b ?c ?d ?e ?f s] =>
    pose proof (read_piece_frame c d e f s ltac:(intros; by apply Hsub) Hs) as Hp;
    destruct (read_piece a b c d e f s) as [s1 [?|?|]] end; [|done..].
  apply IH. by apply P_progress.
Qed.
End Frame.

(** Loop invariant: [Inv bad o] says what is known when everything before [o] was
    handed over or recorded in [bad].  [Bad off n] is what an [EIO] of a read of
    [n] bytes at [off] tells. *)
Section Invariant.
Context (cells : list (option Z)) (Inv : list range -> Z -> St -> Prop) (Bad : Z -> Z -> Prop).
Context (limit sub : Z) (sub_pos : 0 < sub) (sub_aligned : (DIRECT_ALIGN | sub)).
Hypothesis I_read : forall bad o off n s,
  Inv bad o s -> 0 <= off < limit -> 0 < n -> Inv bad o (read_at off n s).1.
Hypothesis R_ok : forall bad o off n s s' bs,
  Inv bad o s -> 0 <= off < limit -> 0 < n -> read_at off n s = (s', XOk bs) -> holds_at cells off bs.
Hypothesis R_eio : forall bad o off n s s' e,
  Inv bad o s -> 0 <= off < limit -> 0 < n -> read_at off n s = (s', XErr e) -> io_is_eio e = true -> Bad off n.
Hypothesis Bad_mono : forall off n k, 0 <= k -> Bad (off + k) (n - k) -> Bad off n.
Hypothesis I_data : forall bad o s s' bs, Inv bad o s -> 0 <= o ->
  o + Z.of_nat (length bs) <= limit -> holds_at cells o bs ->
  on_data o bs s = (s', XOk ()) -> Inv bad (o + Z.of_nat (length bs)) s'.
Hypothesis I_bad : forall bad o s n, Inv bad o s -> 0 <= o -> (DIRECT_ALIGN | o) -> 0 < n ->
  o + n <= (o / sub + 1) * sub -> Bad o (round_up n) -> Inv (push_range bad (o, o + n)) (o + n) s.
Hypothesis I_progress : forall bad o n s, Inv bad o s -> Inv bad o (progress n s).

Lemma read_full_inv bad o f off blen want got s s' x :
  Inv bad o s -> 0 <= off -> off + want <= limit -> off + want <= 2 ^ 64 -> want <= blen -> holds_at cells off got ->
  read_full f off blen want got s = (s', x) ->
  Inv bad o s' /\
  match x with
  | XOk b => holds_at cells off b /\ want <= Z.of_nat (length b)
  | XErr e => io_is_eio e = true -> Bad off blen
  | XPanic => True
  end.
Proof using I_read R_ok R_eio Bad_mono.
  intros HI Ho Hlim Hw Hb. revert got s HI.
  induction f as [|f IH]; intros got s HI Hg Hr; cbn [read_full] in Hr; [by io_simp|].
  destruct (Z.ltb_spec (Z.of_nat (length got)) want); [|by io_simp].
  unfold io_case in Hr. rewrite wrap_id in Hr by (unfold is_uint; lia).
  pose proof (I_read bad o (off + Z.of_nat (length got)) (blen - Z.of_nat (length got)) s HI
    ltac:(lia) ltac:(lia)) as HI1.
  destruct (read_at _ _ s) as [s1 [[|b bs]|e|]] eqn:E; simpl in HI1.
  - io_simp. split; [done|]. by intros He%bool_decide_eq_true.
  - apply (IH (got ++ b :: bs) s1 HI1); [|done]. apply reads_at_app; [done..|].
    eapply R_ok; [exact HI| | |exact E]; lia.
  - destruct (bool_decide _); [by apply (IH got s1)|]. io_simp. split; [done|].
    intros He. apply (Bad_mono off blen (Z.of_nat (length got))); [lia|].
    eapply R_eio; [exact HI|lia|lia|exact E|done].
  - by io_simp.
Qed.

Lemma round_up_le n : n <= round_up n.
Proof. unfold round_up. pose proof (div_ceil_spec n DIRECT_ALIGN ltac:(done)). lia. Qed.

Lemma read_piece_inv bad off want (on_eio : io St io_error (list range)) s s' r :
  Inv bad off s -> 0 <= off -> 0 < want -> off + want <= limit -> off + want <= 2 ^ 64 ->
  (forall s s' r, Inv bad off s -> Bad off (round_up want) -> on_eio s = (s', XOk r) -> Inv r (off + want) s') ->
  read_piece fuel on_data off want bad on_eio s = (s', XOk r) -> Inv r (off + want) s'.
Proof using I_read R_ok R_eio Bad_mono I_data.
  intros HI Ho Hw Hlim Hb He. unfold read_piece, io_case.
  destruct (read_full _ _ _ _ _ s) as [s1 x] eqn:E.
  apply (read_full_inv bad off) in E as [HI1 Hx]; [|done..|apply round_up_le|done].
  destruct x as [b|e|]; [|destruct (io_is_eio e)|]; intros Hr; [| |done..].
  - destruct Hx as [Hh Hlen]. unfold mbind, io_bind in Hr.
    destruct (on_data _ _ s1) as [s2 [[]|?|]] eqn:Ed; io_simp.
    apply (I_data r) in Ed; [|done|done|rewrite length_take; lia|by apply holds_at_take].
    rewrite length_take in Ed. by replace (Z.of_nat (_ `min` _)) with want in Ed by lia.
  - by apply (He s1); auto.
Qed.

(** One step of a loop that advances to the next multiple of [w]. *)
Lemma next_window w off end_ :
  0 < w -> 0 <= off < end_ -> end_ + w <= 2 ^ 64 ->
  let want := u64 (Z.min (u64 ((off / w + 1) * w)) end_ - off) in
  0 < want <= w /\ off + want = Z.min ((off / w + 1) * w) end_ /\ u64 (off + want) = off + want.
Proof using.
  intros Hw Ho He. cbn zeta.
  pose proof (Z.div_mod off w ltac:(lia)). pose proof (Z.mod_pos_bound off w Hw).
  pose proof (Z.div_pos off w ltac:(lia) Hw).
  rewrite (wrap_id 64 ((off / w + 1) * w)) by (split; nia).
  rewrite (wrap_id 64 (_ - off)) by (split; nia). rewrite wrap_id by (split; nia). nia.
Qed.

Lemma walk_sub_inv n s0 end_ bad s s' r :
  0 <= s0 <= end_ -> (s0 < end_ -> (DIRECT_ALIGN | s0)) -> end_ <= limit -> end_ + sub <= 2 ^ 64 -> Inv bad s0 s ->
  walk_sub fuel on_data n sub s0 end_ bad s = (s', XOk r) -> Inv r end_ s'.
Proof using I_read R_ok R_eio Bad_mono I_data I_bad sub_pos sub_aligned.
  revert s0 bad s. induction n as [|n IH]; intros s0 bad s Hs0 Hal Hlim He HI; [done|].
  cbn [walk_sub]. destruct (Z.ltb_spec s0 end_).
  2:{ intros Hr. io_simp. by replace end_ with s0 by lia. }
  destruct (next_window sub s0 end_ sub_pos ltac:(lia) He) as (Hw & Hsum & ->).
  set (swant := u64 _) in *. unfold mbind at 1, io_bind at 1.
  destruct (read_piece _ _ _ _ _ _ s) as [s1 [r1|?|]] eqn:E; [|done..]. intros Hr.
  eapply IH; [| | | |eapply (read_piece_inv bad s0 swant); [done|lia..| |exact E]|exact Hr]; [lia| |done..|].
  - intros Hlt. rewrite Hsum in *. rewrite Z.min_l by lia. by apply Z.divide_mul_r.
  - intros s2 s2' r2 HI2 HB Hp. io_simp. apply I_bad; auto; lia.
Qed.

Lemma walk_inv range window s s' bad :
  0 <= range.1 <= range.2 -> (DIRECT_ALIGN | range.1) -> (DIRECT_ALIGN | window) ->
  range.2 <= limit -> range.2 + window <= 2 ^ 64 -> Inv [] range.1 s ->
  walk fuel on_data progress range window sub s = (s', XOk bad) -> Inv bad range.2 s'.
Proof using I_read R_ok R_eio Bad_mono I_data I_bad I_progress sub_pos sub_aligned.
  intros Hr Hal Hwal Hlim Hw HI. unfold walk. destruct (Z.leb_spec sub window), (Z.ltb_spec 0 sub); [|done..].
  cbn [andb]. remember range.1 as off eqn:Ho. rewrite Ho at 1. clear Ho.
  remember (@nil (Z * Z)) as bad0 eqn:E0. clear E0.
  assert (Hal' : off < range.2 -> (DIRECT_ALIGN | off)) by done. clear Hal.
  generalize fuel at 2. intros n. revert off bad0 s HI Hr Hal'.
  induction n as [|n IH]; intros off bad0 s HI Hr Hal; [done|].
  cbn [walk_windows]. destruct (Z.ltb_spec off range.2).
  2:{ intros Hx. io_simp. by replace range.2 with off by lia. }
  destruct (next_window window off range.2 ltac:(lia) ltac:(lia) Hw) as (Hwant & Hsum & ->).
  set (want := u64 (_ - off)) in *. unfold mbind at 1, io_bind at 1.
  destruct (read_piece _ _ _ _ _ _ s) as [s1 [r1|?|]] eqn:E; [|done..]. intros Hx.
  eapply IH; [| | |exact Hx]; [|lia|].
  - apply I_progress. eapply (read_piece_inv bad0 off want); [done|lia..| |exact E].
    intros s2 s2' r2 HI2 _ Hp. eapply (walk_sub_inv _ off); [| | | |exact HI2|exact Hp]; [lia|auto|lia..].
  - intros Hlt. rewrite Hsum in *. rewrite Z.min_l by lia. by apply Z.divide_mul_r.
Qed.
End Invariant.
End WalkRule.

(** ** Readers of a file with unreadable bytes *)

Definition unreadable (cells : list (option Z)) (o : Z) : Prop :=
  0 <= o /\ cells !! Z.to_nat o = Some None.

(** What a reader of a file promises while [rd_ok]: a read inside the file returns
    bytes of the file, or [EIO] when the disk cannot return one of them, or is
    interrupted, which happens at most [rd_patience] times. *)
Class RangeReaderSpec (St : Type) `{RangeReader St} := {
  rd_ok : St -> Prop;
  rd_cells : St -> list (option Z);
  rd_patience : St -> nat;
  read_at_spec off n s :
    rd_ok s -> 0 <= off < Z.of_nat (length (rd_cells s)) -> 0 < n ->
    let '(s', x) := read_at off n s in
    rd_ok s' /\ rd_cells s' = rd_cells s /\ (rd_patience s' <= rd_patience s)%nat /\
    match x with
    | XOk bs => bs <> [] /\ holds_at (rd_cells s) off bs
    | XErr e =>
        io_is_eio e = true /\ (exists o, off <= o < off + n /\ unreadable (rd_cells s) o) \/
        kind e = Interrupted /\ (rd_patience s' < rd_patience s)%nat
    | XPanic => False
    end
}.

(** [s'] is a later state of the same reader of the same file. *)
Definition rd_later {St} `{RangeReaderSpec St} (s s' : St) : Prop :=
  rd_ok s' /\ rd_cells s' = rd_cells s /\ (rd_patience s' <= rd_patience s)%nat.

Section Total.
Context {St : Type} `{RangeReaderSpec St}.
Context (fuel : nat) (on_data : Z -> bytes -> io St io_error ()) (progress : Z -> St -> St).
Hypothesis data_ok : forall off bs s, rd_ok s ->
  (on_data off bs s).2 = XOk () /\ rd_later s (on_data off bs s).1.
Hypothesis progress_ok : forall n s, rd_ok s -> rd_later s (progress n s).

Lemma read_full_total f off blen want got s :
  rd_ok s -> 0 <= off -> off + want <= Z.of_nat (length (rd_cells s)) -> off + want <= 2 ^ 64 ->
  want <= blen ->
  (rd_patience s + Z.to_nat (want - Z.of_nat (length got)) < f)%nat ->
  exists s' x, read_full f off blen want got s = (s', x) /\ rd_later s s' /\
    match x with XOk _ => True | XErr e => io_is_eio e = true | XPanic => False end.
Proof.
  intros Hok Ho Hlen H64 Hb. revert got s Hok Hlen.
  induction f as [|f IH]; intros got s Hok Hlen Hf; [lia|]. cbn [read_full].
  destruct (Z.ltb_spec (Z.of_nat (length got)) want); [|by eexists _, _].
  unfold io_case. rewrite wrap_id by (unfold is_uint; lia).
  pose proof (read_at_spec (off + Z.of_nat (length got)) (blen - Z.of_nat (length got)) s Hok
    ltac:(lia) ltac:(lia)) as Hr.
  destruct (read_at _ _ s) as [s1 x]. destruct Hr as (Hok1 & Hc1 & Hp1 & Hx).
  assert (Hlater : forall s', rd_later s1 s' -> rd_later s s').
  { intros s' (? & Hc & ?). split_and!; [done|by rewrite Hc|lia]. }
  destruct x as [[|b bs]|e|]; [by destruct Hx| | |done].
  - destruct (IH (got ++ b :: bs) s1) as (s' & x & -> & Hl & ?); [done|by rewrite Hc1| |].
    { rewrite length_app. cbn [length]. lia. }
    exists s', x. auto.
  - destruct Hx as [[He _]|[Hk Hlt]].
    + rewrite bool_decide_eq_false_2.
      * exists s1, (XErr e). done.
      * intros Hk. destruct e as [n|k]; [|by apply bool_decide_eq_true in He].
        apply bool_decide_eq_true in He. by simplify_eq/=.
    + rewrite bool_decide_eq_true_2 by done.
      destruct (IH got s1) as (s' & x & -> & Hl & ?); [done|by rewrite Hc1|lia|].
      exists s', x. auto.
Qed.

Lemma rd_later_trans (s1 s2 s3 : St) : rd_later s1 s2 -> rd_later s2 s3 -> rd_later s1 s3.
Proof. intros (? & Hc & ?) (? & Hc' & ?). split_and!; [done|by rewrite Hc'|lia]. Qed.

Lemma read_piece_total {B} off want (ok : B) on_eio s :
  rd_ok s -> 0 <= off -> off + want <= Z.of_nat (length (rd_cells s)) -> off + want <= 2 ^ 64 ->
  (rd_patience s + Z.to_nat want < fuel)%nat ->
  (forall s', rd_later s s' -> exists s'' b, on_eio s' = (s'', XOk b) /\ rd_later s' s'') ->
  exists s' b, read_piece fuel on_data off want ok on_eio s = (s', XOk b) /\ rd_later s s'.
Proof using data_ok.
  intros Hok Ho Hlen H64 Hf He. unfold read_piece, io_case.
  destruct (read_full_total fuel off (round_up want) want [] s) as (s1 & x & -> & Hl & Hx);
    [done..|apply round_up_le|simpl; lia|].
  destruct x as [b|e|]; [|rewrite Hx|done].
  - destruct (data_ok off (take (Z.to_nat want) b) s1 (proj1 Hl)) as [Hd1 Hd2].
    unfold mbind, io_bind. destruct (on_data _ _ s1) as [s2 ?]. simpl in *. subst.
    exists s2, ok. split; [done|]. by eapply rd_later_trans.
  - destruct (He s1 Hl) as (s2 & b & -> & ?). exists s2, b. split; [done|]. by eapply rd_later_trans.
Qed.

Lemma walk_sub_total n sub s0 end_ bad s :
  rd_ok s -> 0 < sub -> 0 <= s0 -> end_ <= Z.of_nat (length (rd_cells s)) -> end_ + sub <= 2 ^ 64 ->
  (rd_patience s + Z.to_nat (end_ - s0) < fuel)%nat -> (Z.to_nat (end_ - s0) < n)%nat ->
  exists s' r, walk_sub fuel on_data n sub s0 end_ bad s = (s', XOk r) /\ rd_later s s'.
Proof using data_ok.
  intros Hok Hsub. revert s0 bad s Hok. induction n as [|n IH]; intros s0 bad s Hok Hs0 Hlen H64 Hf Hn; [lia|].
  cbn [walk_sub]. destruct (Z.ltb_spec s0 end_); [|by exists s, bad].
  destruct (next_window sub s0 end_ Hsub ltac:(lia) H64) as (Hw & Hsum & ->).
  set (swant := u64 _) in *. unfold mbind at 1, io_bind at 1.
  edestruct (read_piece_total s0 swant bad (mret (M := io St io_error) (push_range bad (s0, s0 + swant))) s)
    as (s1 & r1 & -> & Hl); [done|lia..| |].
  { intros s' Hs'. exists s', (push_range bad (s0, s0 + swant)). split; [done|]. by destruct Hs' as (? & ? & ?). }
  pose proof Hl as (? & Hc & ?).
  destruct (IH (s0 + swant) r1 s1) as (s' & r & -> & Hl'); [done|lia|rewrite Hc; lia|lia..|].
  exists s', r. split; [done|]. by eapply rd_later_trans.
Qed.

(** Enough fuel is one more than the bytes to scan and the interruptions to come. *)
Lemma walk_total range window sub s :
  rd_ok s -> 0 < sub <= window -> 0 <= range.1 -> range.2 <= Z.of_nat (length (rd_cells s)) ->
  range.2 + window <= 2 ^ 64 ->
  (rd_patience s + Z.to_nat (range.2 - range.1) < fuel)%nat ->
  exists s' bad, walk fuel on_data progress range window sub s = (s', XOk bad) /\ rd_later s s'.
Proof using data_ok progress_ok.
  intros Hok Hsub Hs0 Hlen H64 Hf. unfold walk.
  destruct (Z.leb_spec sub window), (Z.ltb_spec 0 sub); [|lia..]. cbn [andb].
  enough (Hgen : forall n off s bad, rd_ok s -> 0 <= off ->
      range.2 <= Z.of_nat (length (rd_cells s)) ->
      (rd_patience s + Z.to_nat (range.2 - off) < fuel)%nat -> (Z.to_nat (range.2 - off) < n)%nat ->
      exists s' r, walk_windows fuel on_data progress n window sub range.1 off range.2 bad s = (s', XOk r) /\
        rd_later s s') by (apply Hgen; [done..|lia]).
  clear s Hok Hlen Hf. induction n as [|n IH]; intros off s bad Hok Hoff Hlen Hf Hn; [lia|].
  cbn [walk_windows]. destruct (Z.ltb_spec off range.2); [|by exists s, bad].
  destruct (next_window window off range.2 ltac:(lia) ltac:(lia) H64) as (Hwant & Hsum & ->).
  set (want := u64 (_ - off)) in *. unfold mbind at 1, io_bind at 1.
  edestruct (read_piece_total off want bad (walk_sub fuel on_data fuel sub off (off + want) bad) s)
    as (s1 & r1 & -> & Hl); [done|lia..| |].
  { intros s2 (? & Hc & ?). destruct (walk_sub_total fuel sub off (off + want) bad s2)
      as (s3 & r3 & -> & ?); [done|lia|lia|rewrite Hc; lia|lia..|]. by exists s3, r3. }
  destruct (progress_ok (u64 (off + want - range.1)) s1 (proj1 Hl)) as (Hok2 & Hc2 & Hp2).
  pose proof Hl as (? & Hc & ?).
  destruct (IH (off + want) (progress (u64 (off + want - range.1)) s1) r1)
    as (s' & r & Hr & Hl'); [done|lia|rewrite Hc2, Hc; lia|lia..|].
  exists s', r. split; [exact Hr|]. eapply rd_later_trans; [exact Hl|].
  by eapply rd_later_trans; [split; [exact Hok2|split; [exact Hc2|exact Hp2]]|].
Qed.
End Total.

(** The promise of a reader, seen from an earlier state. *)
Lemma read_at_later {St} `{RangeReaderSpec St} (s st : St) off n :
  rd_later s st -> 0 <= off < Z.of_nat (length (rd_cells s)) -> 0 < n ->
  rd_later s (read_at off n st).1 /\
  match (read_at off n st).2 with
  | XOk bs => holds_at (rd_cells s) off bs
  | XErr e => io_is_eio e = true -> exists o, off <= o < off + n /\ unreadable (rd_cells s) o
  | XPanic => False
  end.
Proof.
  intros (Hok & Hc & Hp) Hoff Hn.
  pose proof (read_at_spec off n st Hok ltac:(by rewrite Hc) Hn) as Hrd. rewrite Hc in Hrd.
  destruct (read_at off n st) as [st' x]. destruct Hrd as (? & ? & ? & Hx). simpl.
  split; [split_and!; [done|done|lia]|]. destruct x as [bs|e|]; [apply Hx| |done].
  intros He. destruct Hx as [[_ Hx]|[Hk _]]; [done|]. apply bool_decide_eq_true in He.
  destruct e; by simplify_eq/=.
Qed.

(** What is known of the bad ranges of a scan of [[start, o)]. *)
Definition scanned (cells : list (option Z)) (sub start : Z) (bad : list range) (o : Z) : Prop :=
  separated bad /\
  (forall x, in_ranges x bad -> start <= x < o) /\
  (forall x, start <= x < o -> unreadable cells x -> in_ranges x bad) /\
  (forall x, in_ranges x bad -> exists u, start <= u < round_up o /\ u / sub = x / sub /\ unreadable cells u).

Lemma separated_bounded bad lo hi :
  separated bad -> (forall x, in_ranges x bad -> lo <= x < hi) -> forall a, a ∈ bad -> lo <= a.1 /\ a.2 <= hi.
Proof.
  intros [Hne _] Hb a Ha. eapply Forall_forall in Hne; [|done]. simpl in Hne.
  pose proof (Hb a.1 ltac:(exists a; split; [done|]; unfold in_range; lia)).
  pose proof (Hb (a.2 - 1) ltac:(exists a; split; [done|]; unfold in_range; lia)). lia.
Qed.

Lemma round_up_mono a b : a <= b -> round_up a <= round_up b.
Proof.
  intros Hab. unfold round_up. pose proof (div_ceil_spec a DIRECT_ALIGN ltac:(done)).
  pose proof (div_ceil_spec b DIRECT_ALIGN ltac:(done)). unfold DIRECT_ALIGN in *. nia.
Qed.

(** A read that starts at a block boundary ends at one. *)
Lemma round_up_add o n : (DIRECT_ALIGN | o) -> o + round_up n = round_up (o + n).
Proof.
  intros [k ->]. unfold round_up. pose proof (div_ceil_spec n DIRECT_ALIGN ltac:(done)).
  rewrite <- (div_ceil_unique (k * DIRECT_ALIGN + n) DIRECT_ALIGN (k + div_ceil n DIRECT_ALIGN)); [lia|done|lia].
Qed.

Lemma scanned_push cells sub start bad o n :
  0 < sub -> scanned cells sub start bad o -> start <= o -> 0 < n ->
  (forall x, o <= x < o + n -> exists u, start <= u < round_up (o + n) /\ u / sub = x / sub /\ unreadable cells u) ->
  scanned cells sub start (push_range bad (o, o + n)) (o + n).
Proof.
  intros Hsub (Hs & Hin & Hall & Hex) Hso Hn Hu.
  destruct (push_range_spec bad (o, o + n) Hs) as (P1 & P2 & _ & _).
  { intros a Ha. pose proof (separated_bounded bad start o Hs Hin a Ha).
    destruct Hs as [Hne _]. eapply Forall_forall in Hne; [|done]. simpl in *. lia. }
  split; [done|]. split; [|split].
  - intros x [Hx|Hx]%P2; [apply Hin in Hx; lia|]. unfold in_range in Hx. simpl in Hx. lia.
  - intros x Hx Hux. apply P2. destruct (Z.lt_ge_cases x o); [left; apply Hall; [lia|done]|right].
    unfold in_range. simpl. lia.
  - intros x [Hx|Hx]%P2; [|by apply Hu]. destruct (Hex x Hx) as (u & ? & ?).
    exists u. pose proof (round_up_mono o (o + n)). split; [lia|done].
Qed.

(** A block-aligned read stays within the sub-chunk it starts in. *)
Lemma round_up_sub sub o n :
  0 < sub -> (DIRECT_ALIGN | sub) -> (DIRECT_ALIGN | o) -> 0 < n -> o + n <= (o / sub + 1) * sub ->
  o + round_up n <= (o / sub + 1) * sub.
Proof.
  intros Hs [k Hk] [q Hq] Hn Hle. unfold round_up.
  pose proof (div_ceil_spec n DIRECT_ALIGN ltac:(done)) as Hc.
  remember (div_ceil n DIRECT_ALIGN) as d. remember (o / sub) as j. subst o sub.
  unfold DIRECT_ALIGN in *. nia.
Qed.

Lemma same_chunk sub o x : 0 < sub -> o <= x < (o / sub + 1) * sub -> x / sub = o / sub.
Proof.
  intros Hs Hx. pose proof (Z.div_mod o sub ltac:(lia)). pose proof (Z.mod_pos_bound o sub Hs).
  symmetry. apply (Z.div_unique x sub (o / sub) (x - sub * (o / sub))); nia.
Qed.

(** The scan of a part of a file finds the unreadable data and nothing else, up to
    the granularity of a sub-chunk: it returns ranges in order and apart from each
    other, inside the part, that contain every unreadable byte of it, and each
    sub-chunk it reports does contain an unreadable byte.  It does so for every
    reader that keeps its promise, however it splits its reads. *)
Lemma scan_unreadable_correct {St} `{RangeReaderSpec St} (fuel : nat) (progress : Z -> St -> St)
    (range : Z * Z) (window sub : Z) (s : St) :
  rd_ok s -> (forall n s, rd_ok s -> rd_later s (progress n s)) ->
  0 < sub <= window -> (DIRECT_ALIGN | sub) -> (DIRECT_ALIGN | window) -> (DIRECT_ALIGN | range.1) ->
  0 <= range.1 <= range.2 -> range.2 <= Z.of_nat (length (rd_cells s)) -> range.2 + window <= 2 ^ 64 ->
  (rd_patience s + Z.to_nat (range.2 - range.1) < fuel)%nat ->
  exists s' bad, scan_unreadable fuel progress range window sub s = (s', XOk bad) /\ rd_later s s' /\
    separated bad /\
    (forall x, in_ranges x bad -> range.1 <= x < range.2) /\
    (forall x, range.1 <= x < range.2 -> unreadable (rd_cells s) x -> in_ranges x bad) /\
    (forall x, in_ranges x bad -> exists u,
       range.1 <= u < round_up range.2 /\ u / sub = x / sub /\ unreadable (rd_cells s) u).
Proof.
  intros Hok Hprog Hsub Ha1 Ha2 Ha3 Hr Hlen H64 Hf. unfold scan_unreadable.
  destruct (walk_total fuel (fun _ _ => mret ()) progress) with (range := range) (window := window) (sub := sub) (s := s)
    as (s' & bad & Hw & Hl); [done..|lia|lia|lia|done|].
  exists s', bad. split; [done|]. split; [done|].
  pose (Inv := fun bad o st => rd_later s st /\ range.1 <= o /\ scanned (rd_cells s) sub range.1 bad o).
  enough (HI : Inv bad range.2 s') by apply HI.
  eapply (walk_inv fuel (fun _ _ => mret ()) progress (rd_cells s) Inv
    (fun off n => exists o, off <= o < off + n /\ unreadable (rd_cells s) o)
    (Z.of_nat (length (rd_cells s))) sub); [..|exact Hw]; try done; try lia.
  - intros b o off n st (Hst & ? & ?) Hoff Hn. split; [|done]. by apply read_at_later.
  - intros b o off n st st' bs (Hst & _) Hoff Hn Hrd.
    pose proof (read_at_later s st off n Hst Hoff Hn) as [_ Hx]. by rewrite Hrd in Hx.
  - intros b o off n st st' e (Hst & _) Hoff Hn Hrd.
    pose proof (read_at_later s st off n Hst Hoff Hn) as [_ Hx]. by rewrite Hrd in Hx.
  - intros off n k Hk (o & Ho & Hu). exists o. split; [lia|done].
  - intros b o st st' bs (Hst & Hro & Hs & Hin & Hall & Hex) Ho _ Hh Hd. io_simp.
    split; [done|]. split; [lia|]. split; [done|]. split; [|split].
    + intros x Hx. apply Hin in Hx. lia.
    + intros x Hx Hu. destruct (Z.lt_ge_cases x o); [apply Hall; [lia|done]|].
      destruct (lookup_lt_is_Some_2 bs (Z.to_nat (x - o)) ltac:(lia)) as [y Hy].
      apply Hh in Hy. destruct Hu as [_ Hu].
      replace (Z.to_nat o + Z.to_nat (x - o))%nat with (Z.to_nat x) in Hy by lia. congruence.
    + intros x Hx. destruct (Hex x Hx) as (u & ? & ?). exists u.
      pose proof (round_up_mono o (o + Z.of_nat (length bs)) ltac:(lia)). split; [lia|done].
  - intros b o st n (Hst & Hro & Hs) Ho Hal Hn Hle (u & Hu1 & Hu2).
    split; [done|]. split; [lia|]. apply scanned_push; try done; try lia.
    pose proof (round_up_sub sub o n ltac:(lia) Ha1 Hal Hn Hle). rewrite <- round_up_add by done.
    intros x Hx. exists u. split; [lia|]. split; [|done].
    rewrite (same_chunk sub o u), (same_chunk sub o x) by lia. done.
  - intros b o n st (Hst & ? & ?). split; [|done]. eapply rd_later_trans; [done|]. by apply Hprog, Hst.
  - split; [done|]. split; [lia|]. split; [split; constructor|].
    split; [by intros x ?%in_ranges_nil|]. split; [lia|]. by intros x ?%in_ranges_nil.
Qed.
