(* ===== verification/RepairFile.v ===== *)
(** * Repair of a damaged file ([librqbit::repair], salvage and per-file repair)

    The unreadable ranges of a file are replaced by holes, and, when that fails,
    everything readable is copied into a new file that atomically replaces the
    old one.  The file system is a map of paths to cells ([None] is a byte the
    disk cannot return) together with the sequence of faults its next calls meet,
    so that a theorem for every state is a theorem for every place where an
    operation can fail. *)

From stdpp Require Import base tactics option list list_numbers numbers decidable sets sorting gmap strings.
From Stdlib Require Import ZArith Lia.
From S2P Require Import Prelude Repair.
Open Scope Z_scope.

(** ** The file system

    What the repair uses of [std::fs].  A handle is the path it was opened at: no
    file is renamed or removed while one of its handles is in use.  Every call
    consumes one entry of [fs_faults]: [None] lets it succeed when it can,
    [Some (e, k)] makes it fail with [e], after [k] bytes in the case of a
    write. *)

Abbreviation path := (list string).

Record fs := mkFs {
  fs_files : gmap path (list (option Z));
  fs_free : Z;
  fs_blksize : Z;
  fs_faults : list (option (io_error * nat))
}.

Definition fs_with_files (files : gmap path (list (option Z))) (w : fs) : fs :=
  mkFs files (fs_free w) (fs_blksize w) (fs_faults w).

Definition fs_cells (w : fs) (p : path) : list (option Z) := default [] (fs_files w !! p).

(** The fault of the next call. *)
Definition next_fault (w : fs) : fs * option (io_error * nat) :=
  match fs_faults w with
  | [] => (w, None)
  | f :: fs => (mkFs (fs_files w) (fs_free w) (fs_blksize w) fs, f)
  end.

Definition syscall {A} (op : io fs io_error A) : io fs io_error A := fun w =>
  match next_fault w with
  | (w, Some (e, _)) => (w, XErr e)
  | (w, None) => op w
  end.

Definition with_file {A} (p : path) (k : list (option Z) -> io fs io_error A) : io fs io_error A :=
  syscall (fun w =>
    match fs_files w !! p with
    | Some c => k c w
    | None => (w, XErr (Os ENOENT))
    end).

Definition metadata_len (p : path) : io fs io_error Z :=
  with_file p (fun c => mret (Z.of_nat (length c))).

Definition metadata_blksize (p : path) : io fs io_error Z :=
  with_file p (fun _ w => (w, XOk (fs_blksize w))).

Definition path_exists (p : path) : io fs io_error bool :=
  io_case (metadata_len p) (fun _ => mret true) (fun _ => mret false).

Definition remove_file (p : path) : io fs io_error () :=
  with_file p (fun _ w => (fs_with_files (delete p (fs_files w)) w, XOk ())).

Definition open_existing (p : path) : io fs io_error () := with_file p (fun _ => mret ()).

Definition create_new (p : path) : io fs io_error () :=
  syscall (fun w =>
    match fs_files w !! p with
    | Some _ => (w, XErr (Os EEXIST))
    | None => (fs_with_files (<[p := []]> (fs_files w)) w, XOk ())
    end).

(** [File::set_len], [write_all_at] and [fallocate(PUNCH_HOLE | KEEP_SIZE)] on cells. *)
Definition cells_set_len (len : Z) (c : list (option Z)) : list (option Z) :=
  resize (Z.to_nat len) (Some 0) c.

Definition cells_write (off : Z) (data : bytes) (c : list (option Z)) : list (option Z) :=
  let o := Z.to_nat off in
  resize o (Some 0) c ++ (Some <$> data) ++ drop (o + length data) c.

Definition cells_punch (r : range) (c : list (option Z)) : list (option Z) :=
  imap (fun i x => if bool_decide (in_range (Z.of_nat i) r) then Some 0 else x) c.

Definition file_update (p : path) (f : list (option Z) -> list (option Z)) (w : fs) : fs :=
  fs_with_files (alter f p (fs_files w)) w.

Definition set_len (p : path) (len : Z) : io fs io_error () :=
  syscall (io_modify (file_update p (cells_set_len len))).

Definition write_all_at (p : path) (data : bytes) (off : Z) : io fs io_error () := fun w =>
  match next_fault w with
  | (w, Some (e, k)) => (file_update p (cells_write off (take k data)) w, XErr e)
  | (w, None) => (file_update p (cells_write off data) w, XOk ())
  end.

Definition punch_hole (p : path) (r : range) : io fs io_error () :=
  syscall (io_modify (file_update p (cells_punch r))).

Definition sync_all (p : path) : io fs io_error () := syscall (mret ()).
Definition set_permissions (p : path) : io fs io_error () := syscall (mret ()).

Definition rename (from to : path) : io fs io_error () :=
  with_file from (fun c w => (fs_with_files (<[to := c]> (delete from (fs_files w))) w, XOk ())).

Definition free_bytes (dir : path) : io fs io_error Z := syscall (fun w => (w, XOk (fs_free w))).

(** Opening a directory and flushing it. *)
Definition sync_dir (dir : path) : io fs io_error () := syscall (mret ()) ;; syscall (mret ()).

(** [pread]: the bytes before the first unreadable one; direct reads fail as a
    whole. *)
Fixpoint readable_prefix (c : list (option Z)) : bytes :=
  match c with
  | Some b :: c => b :: readable_prefix c
  | _ => []
  end.

Definition pread (direct : bool) (p : path) (off n : Z) : io fs io_error bytes :=
  syscall (fun w =>
    let avail := take (Z.to_nat n) (drop (Z.to_nat off) (fs_cells w p)) in
    let good := readable_prefix avail in
    if bool_decide (length good = length avail) then (w, XOk good)
    else if direct || bool_decide (good = []) then (w, XErr (Os EIO))
    else (w, XOk good)).

Definition io_on_snd {R W E A} (m : io W E A) : io (R * W) E A := fun '(r, w) =>
  let '(w, x) := m w in ((r, w), x).

(** ** Reading a real file *)

Record FileRangeReader := mkReader { frr_path : path; frr_direct : bool }.

Definition frr_open (p : path) : io fs io_error FileRangeReader :=
  io_case (open_existing p)
    (fun _ => mret (mkReader p true))
    (fun _ => open_existing p ;; mret (mkReader p false)).

Definition frr_read_at (off n : Z) : io (FileRangeReader * fs) io_error bytes := fun '(r, w) =>
  match pread (frr_direct r) (frr_path r) off n w with
  | (w, XErr e) =>
      if frr_direct r && bool_decide (raw_os_error e = Some EINVAL) then
        match open_existing (frr_path r) w with
        | (w, XOk _) =>
            let r := mkReader (frr_path r) false in
            io_on_snd (pread false (frr_path r) off n) (r, w)
        | (w, XErr e) => ((r, w), XErr e)
        | (w, XPanic) => ((r, w), XPanic)
        end
      else ((r, w), XErr e)
  | (w, x) => ((r, w), x)
  end.

#[export] Instance frr_reader : RangeReader (FileRangeReader * fs) := frr_read_at.

(** ** Copy and replace *)

Abbreviation anyhow := (list cause).

Definition with_context {S A} (msg : string) (m : io S io_error A) : io S anyhow A :=
  io_map_err (fun e => [CContext msg; CIo e]) m.

Definition from_io {S A} (m : io S io_error A) : io S anyhow A := io_map_err (fun e => [CIo e]) m.

(** [let _ = m;] *)
Definition ignore {S E E' A} (m : io S E A) : io S E' () :=
  io_case m (fun _ => mret ()) (fun _ => mret ()).

Definition temp_path_for (target : path) : exec anyhow path :=
  match last target with
  | None => XErr [CContext "target has no file name"]
  | Some name => XOk (removelast target ++ [("." ++ name ++ ".rqbit-repair")%string])
  end.

Record SalvageOptions := mkSalvage {
  window : Z;
  sub_chunk : Z;
  free_space_margin : Z
}.

Definition SalvageOptions_default : SalvageOptions :=
  mkSalvage SCAN_WINDOW SUB_CHUNK (512 * 1024 * 1024).

(** The callback of the copy: zeros are not written. *)
Definition salvage_data (tmp : path) (off : Z) (data : bytes) : io (FileRangeReader * fs) io_error () :=
  if forallb (Z.eqb 0) data then mret () else io_on_snd (write_all_at tmp data off).

Definition salvage_copy_replace (fuel : nat) (len : Z) (target : path) (opts : SalvageOptions)
    (progress : Z -> FileRangeReader * fs -> FileRangeReader * fs) :
    io (FileRangeReader * fs) anyhow (list range) :=
  tmp ← io_lift (temp_path_for target);
  let dir := removelast target in
  free ← with_context "statvfs" (io_on_snd (free_bytes dir));
  if free <? saturating_add 64 len (free_space_margin opts)
  then io_lift (XErr [CContext "not enough free space for copy-and-replace"])
  else
    stale ← from_io (io_on_snd (path_exists tmp));
    (if (stale : bool) then with_context "error removing stale" (io_on_snd (remove_file tmp)) else mret ()) ;;
    with_context "error creating" (io_on_snd (create_new tmp)) ;;
    io_case
      (from_io (io_on_snd (set_len tmp len)) ;;
       bad ← from_io (walk fuel (salvage_data tmp) progress (0, len) (window opts) (sub_chunk opts));
       with_context "fsync temp file" (io_on_snd (sync_all tmp)) ;;
       mret bad)
      (fun bad =>
         io_case (io_on_snd (metadata_len target))
           (fun _ => ignore (io_on_snd (set_permissions tmp))) (fun _ => mret ()) ;;
         io_case (io_on_snd (rename tmp target))
           (fun _ => with_context "fsync directory" (io_on_snd (sync_dir dir)) ;; mret bad)
           (fun e => ignore (io_on_snd (remove_file tmp)) ;;
                     io_lift (XErr [CContext "error renaming"; CIo e])))
      (fun e => ignore (io_on_snd (remove_file tmp)) ;;
                io_lift (XErr (CContext "salvage copy failed; original left untouched" :: e))).

(** ** Per-file repair

    The progress callback, which only updates the status shown to the user, is
    left out. *)

Inductive RepairMethod := MNone | PunchHole | CopyReplace | Failed.

#[export] Instance RepairMethod_eq_dec : EqDecision RepairMethod.
Proof. solve_decision. Defined.

Record FileRepairOutcome := mkOutcome {
  fo_file_id : nat;
  fo_path : path;
  bytes_total : Z;
  bytes_unreadable : Z;
  bytes_zeroed : Z;
  ranges_zeroed : list range;
  pieces : list Z;
  method : RepairMethod;
  note : option string;
  error : option string
}.

Record FileToRepair := mkToRepair {
  ftr_file_id : nat;
  full_path : path;
  relative_path : path;
  offset_in_torrent : Z;
  ftr_len : Z
}.

Definition is_power_of_two (b : Z) : bool := (0 <? b) && (Z.land b (b - 1) =? 0).

Definition fs_block_size {E} (p : path) : io fs E Z :=
  b ← io_case (metadata_blksize p) mret (fun _ => mret 4096);
  mret (if is_power_of_two b && (4096 <=? b) && (b <=? SUB_CHUNK) then b else 4096).

Definition ranges_len (rs : list range) : Z := u64 (zsum (range_len <$> rs)).

(** Runs an action that uses a reader. *)
Definition with_reader {E A} (r : FileRangeReader) (m : io (FileRangeReader * fs) E A) : io fs E A :=
  fun w => let '((_, w), x) := m (r, w) in (w, x).

Definition scan_quietly (fuel : nat) (r : range) : io (FileRangeReader * fs) io_error (list range) :=
  scan_unreadable fuel (fun _ st => st) r SCAN_WINDOW SUB_CHUNK.

(** Steps 2 and 3: punch holes, then read them back. *)
Definition punch_and_verify (fuel : nat) (p : path) (aligned : list range) (scan_len : Z) : io fs anyhow () :=
  with_context "open for punching" (open_existing p) ;;
  foldM (fun _ r => with_context "fallocate(PUNCH_HOLE)" (punch_hole p r)) () aligned ;;
  with_context "fsync after punching" (sync_all p) ;;
  rdr ← from_io (frr_open p);
  still_bad ← with_reader rdr (from_io
    (foldM (fun acc r => b ← scan_quietly fuel r; mret (acc ++ b)) [] (clip_ranges aligned scan_len)));
  match still_bad with
  | [] => mret ()
  | _ => io_lift (XErr [CContext "bytes still unreadable after punching holes"])
  end.

(** The closure run while the torrent's own handle is closed: it leaves the zeroed
    ranges in [copied]. *)
Definition copy_closed (fuel : nat) (p : path) (scan_len : Z) : io (option (list range) * fs) anyhow () :=
  rdr ← from_io (io_on_snd (frr_open p));
  bad ← io_on_snd (with_reader rdr
    (salvage_copy_replace fuel scan_len p SalvageOptions_default (fun _ st => st)));
  io_modify (fun '(_, w) => (Some bad, w)).

Definition repair_file (fuel : nat) (f : FileToRepair) (piece_len : Z)
    (with_file_closed : io (option (list range) * fs) anyhow () -> io (option (list range) * fs) anyhow ()) :
    io fs Empty_set FileRepairOutcome :=
  let out unread zeroed pcs m n e :=
    mkOutcome (ftr_file_id f) (relative_path f) (ftr_len f) unread (ranges_len zeroed) zeroed pcs m n e in
  io_case (metadata_len (full_path f))
    (fun disk_len =>
      let scan_len := Z.min disk_len (ftr_len f) in
      io_case (r ← frr_open (full_path f); with_reader r (scan_quietly fuel (0, scan_len)))
        (fun bad =>
          let unread := ranges_len bad in
          match bad with
          | [] => mret (out unread [] [] MNone None None)
          | _ =>
              block ← fs_block_size (full_path f);
              aligned ← io_lift (exec_of_outcome (align_ranges bad block));
              let finish zeroed m n :=
                pcs ← io_lift (exec_of_outcome
                  (pieces_overlapping (offset_in_torrent f) (ftr_len f) piece_len zeroed));
                mret (out unread zeroed pcs m n None) in
              io_case (punch_and_verify fuel (full_path f) aligned scan_len)
                (fun _ => finish (clip_ranges aligned (ftr_len f)) PunchHole None)
                (fun _ w =>
                  match with_file_closed (copy_closed fuel (full_path f) scan_len) (None, w) with
                  | ((Some bad, w), XOk _) => finish bad CopyReplace (Some "punch-hole failed"%string) w
                  | ((_, w), XPanic) => (w, XPanic)
                  | ((_, w), _) =>
                      (w, XOk (out unread [] [] Failed None
                        (Some "punch-hole failed; copy-and-replace failed"%string)))
                  end)
          end)
        (fun _ => mret (out 0 [] [] Failed None (Some "scan failed"%string))))
    (fun e =>
      if bool_decide (kind e = NotFound)
      then mret (out 0 [] [] MNone (Some "file does not exist yet"%string) None)
      else mret (out 0 [] [] Failed None (Some "stat failed"%string))).

(** ** Reading *)

Lemma next_fault_files w : fs_files (next_fault w).1 = fs_files w.
Proof. unfold next_fault. by destruct (fs_faults w). Qed.

Lemma next_fault_none w : fs_faults w = [] -> next_fault w = (w, None).
Proof. unfold next_fault. by intros ->. Qed.

Lemma fs_cells_files w w' p : fs_files w = fs_files w' -> fs_cells w p = fs_cells w' p.
Proof. unfold fs_cells. by intros ->. Qed.

Lemma readable_prefix_lookup c i b : readable_prefix c !! i = Some b -> c !! i = Some (Some b).
Proof.
  revert i. induction c as [|[x|] c IH]; intros [|i] Hi; simpl in *; try done; [congruence|by apply IH].
Qed.

Lemma readable_prefix_stops c :
  (length (readable_prefix c) < length c)%nat -> c !! length (readable_prefix c) = Some None.
Proof. induction c as [|[x|] c IH]; simpl; intros Hl; [lia|apply IH; lia|done]. Qed.

Lemma readable_prefix_length c : (length (readable_prefix c) <= length c)%nat.
Proof. induction c as [|[x|] c IH]; simpl; lia. Qed.

(** A read leaves the files alone and returns only what they hold. *)
Lemma pread_spec direct p off n w :
  let '(w', x) := pread direct p off n w in
  fs_files w' = fs_files w /\
  match x with XOk bs => holds_at (fs_cells w p) off bs | XErr _ => True | XPanic => False end.
Proof.
  unfold pread, syscall. pose proof (next_fault_files w) as Hf.
  destruct (next_fault w) as [w1 [[e k]|]]; [done|]. simpl in Hf.
  rewrite (fs_cells_files w1 w p Hf).
  assert (Hg : holds_at (fs_cells w p) off
    (readable_prefix (take (Z.to_nat n) (drop (Z.to_nat off) (fs_cells w p))))).
  { intros i b Hi%readable_prefix_lookup. apply lookup_take_Some in Hi as [Hi _].
    by rewrite lookup_drop in Hi. }
  case_bool_decide; [done|]. by destruct (direct || _).
Qed.

Lemma frr_read_at_spec off n r w :
  let '((r', w'), x) := read_at off n (r, w) in
  frr_path r' = frr_path r /\ fs_files w' = fs_files w /\
  match x with XOk bs => holds_at (fs_cells w (frr_path r)) off bs | XErr _ => True | XPanic => False end.
Proof.
  unfold read_at, frr_reader, frr_read_at.
  pose proof (pread_spec (frr_direct r) (frr_path r) off n w) as Hp.
  destruct (pread _ _ _ _ w) as [w1 [bs|e|]]; [done| |by destruct Hp]. destruct Hp as [Hf _].
  destruct (frr_direct r && _); [|done]. unfold open_existing, with_file, syscall.
  pose proof (next_fault_files w1) as Hf2. destruct (next_fault w1) as [w2 [[e2 k]|]]; simpl in Hf2.
  { split; [done|]. split; [congruence|done]. }
  destruct (fs_files w2 !! frr_path r); [|split; [done|]; split; [congruence|done]].
  unfold mret, io_ret. cbn [frr_path].
  unfold io_on_snd. pose proof (pread_spec false (frr_path r) off n w2) as Hp2.
  destruct (pread _ _ _ _ w2) as [w3 x]. destruct Hp2 as [Hf3 Hx]. split; [done|].
  rewrite (fs_cells_files w2 w) in Hx by congruence. split; [congruence|done].
Qed.

(** Without faults, and for a file that exists, the reader keeps the promise of
    [RangeReaderSpec]. *)
Definition frr_ok (st : FileRangeReader * fs) : Prop :=
  fs_faults st.2 = [] /\ is_Some (fs_files st.2 !! frr_path st.1).

Lemma pread_no_fault direct p off n w :
  fs_faults w = [] -> 0 <= off < Z.of_nat (length (fs_cells w p)) -> 0 < n ->
  exists x, pread direct p off n w = (w, x) /\
  match x with
  | XOk bs => bs <> [] /\ holds_at (fs_cells w p) off bs
  | XErr e => e = Os EIO /\ exists o, off <= o < off + n /\ unreadable (fs_cells w p) o
  | XPanic => False
  end.
Proof.
  intros Hf Ho Hn. pose proof (pread_spec direct p off n w) as Hp. revert Hp.
  unfold pread, syscall. rewrite next_fault_none by done.
  set (avail := take (Z.to_nat n) (drop (Z.to_nat off) (fs_cells w p))).
  assert (Hav : (0 < length avail)%nat) by (unfold avail; rewrite length_take, length_drop; lia).
  assert (Hbad : length (readable_prefix avail) <> length avail ->
    exists o, off <= o < off + n /\ unreadable (fs_cells w p) o).
  { intros Hne. pose proof (readable_prefix_length avail).
    pose proof (readable_prefix_stops avail ltac:(lia)) as Hs.
    unfold avail in Hs at 1. apply lookup_take_Some in Hs as [Hs Hlt]. rewrite lookup_drop in Hs. fold avail in Hs, Hlt.
    exists (off + Z.of_nat (length (readable_prefix avail))).
    split; [lia|]. split; [lia|]. rewrite <- Hs. f_equal. lia. }
  case_bool_decide as Hlen.
  - intros [_ Hh]. eexists. split; [done|]. split; [|done]. intros E. rewrite E in Hlen. simpl in Hlen. lia.
  - case_bool_decide as Hg; [rewrite orb_true_r|rewrite orb_false_r; destruct direct]; intros Hp;
      (eexists; split; [done|]); [by split; auto..|]. by split; [|apply Hp].
Qed.

#[export, program] Instance frr_spec : RangeReaderSpec (FileRangeReader * fs) := {|
  rd_ok := frr_ok;
  rd_cells := fun st => fs_cells st.2 (frr_path st.1);
  rd_patience := fun _ => 0%nat
|}.
Next Obligation.
  intros off n [r w] [Hf Hex] Hoff Hn. simpl in *. unfold read_at, frr_reader, frr_read_at.
  destruct (pread_no_fault (frr_direct r) (frr_path r) off n w Hf Hoff Hn) as (x & -> & Hx).
  destruct x as [bs|e|]; [split; [by split|]; split; [done|]; split; [lia|done]| |done]. destruct Hx as [-> Hx].
  rewrite bool_decide_eq_false_2, andb_false_r by done. split; [by split|]; split; [done|]; split; [lia|]. left. by split.
Qed.

(** ** A small program logic for [io]

    [triple I m Q E]: started where [I] holds, [m] ends with a value [a] in a state
    where [Q a] holds, or fails (with an error or a panic) where [E] holds. *)
Definition triple {S Er A} (I : S -> Prop) (m : io S Er A) (Q : A -> S -> Prop) (E : S -> Prop) : Prop :=
  forall s, I s -> match m s with (s', XOk a) => Q a s' | (s', _) => E s' end.

Section Triples.
Context {S Er : Type}.

Lemma triple_bind {A B} I (m : io S Er A) (f : A -> io S Er B) Q R E :
  triple I m Q E -> (forall a, triple (Q a) (f a) R E) -> triple I (m ≫= f) R E.
Proof.
  intros Hm Hf s Hs. specialize (Hm s Hs). unfold mbind, io_bind.
  destruct (m s) as [s1 [a|e|]]; [by apply Hf|done..].
Qed.

Lemma triple_case {Er' A B} I (m : io S Er' A) (ok : A -> io S Er B) (err : Er' -> io S Er B) Q E1 R E :
  triple I m Q E1 -> (forall a, triple (Q a) (ok a) R E) -> (forall e, triple E1 (err e) R E) ->
  (forall s, E1 s -> E s) -> triple I (io_case m ok err) R E.
Proof.
  intros Hm Hok Herr HE s Hs. specialize (Hm s Hs). unfold io_case.
  destruct (m s) as [s1 [a|e|]]; [by apply Hok|by apply Herr|by apply HE].
Qed.

Lemma triple_map_err {Er' A} I (m : io S Er' A) (g : Er' -> Er) Q E :
  triple I m Q E -> triple I (io_map_err g m) Q E.
Proof. intros Hm s Hs. specialize (Hm s Hs). unfold io_map_err. by destruct (m s) as [s1 [a|e|]]. Qed.

Lemma triple_ret {A} (I E : S -> Prop) (a : A) : triple I (mret (M := io S Er) a) (fun _ => I) E.
Proof. by intros s Hs. Qed.

Lemma triple_ret_eq {A} (Q : A -> S -> Prop) E (a : A) : triple (Q a) (mret (M := io S Er) a) Q E.
Proof. by intros s Hs. Qed.

Lemma triple_err {A} (I E : S -> Prop) e (Q : A -> S -> Prop) :
  (forall s, I s -> E s) -> triple I (io_lift (S := S) (XErr (E := Er) e)) Q E.
Proof. intros HE s Hs. by apply HE. Qed.

Lemma triple_lift_ok {A B} I (a : A) (f : A -> io S Er B) R E :
  triple I (f a) R E -> triple I (io_lift (XOk a) ≫= f) R E.
Proof. intros Hf s Hs. exact (Hf s Hs). Qed.

Lemma triple_weaken {A} (I I' : S -> Prop) (m : io S Er A) (Q Q' : A -> S -> Prop) (E E' : S -> Prop) :
  triple I' m Q' E' -> (forall s, I s -> I' s) -> (forall a s, Q' a s -> Q a s) ->
  (forall s, E' s -> E s) -> triple I m Q E.
Proof.
  intros Hm HI HQ HE s Hs. specialize (Hm s (HI s Hs)). destruct (m s) as [s1 [a|e|]]; auto.
Qed.

Lemma triple_ignore {Er' A} (I E : S -> Prop) (m : io S Er' A) :
  triple I m (fun _ => I) I -> (forall s, I s -> E s) -> triple I (ignore (E' := Er) m) (fun _ => I) E.
Proof. intros Hm HE. eapply triple_case; [exact Hm|intros ?; apply triple_ret..|done]. Qed.
End Triples.

#[export] Hint Resolve triple_ret triple_map_err triple_ignore : triples.

(** Calls that do not touch the files. *)
Lemma syscall_keeps {A : Type} (P : gmap path (list (option Z)) -> Prop) (op : io fs io_error A) :
  (forall w, P (fs_files w) -> P (fs_files (op w).1)) ->
  triple (fun w => P (fs_files w)) (syscall op) (fun _ w => P (fs_files w)) (fun w => P (fs_files w)).
Proof.
  intros Hop w Hw. unfold syscall. pose proof (next_fault_files w) as Hf.
  destruct (next_fault w) as [w1 [[e k]|]]; simpl in Hf; [by rewrite Hf|].
  rewrite <- Hf in Hw. specialize (Hop w1 Hw). by destruct (op w1) as [w2 [?|?|]].
Qed.

Lemma triple_on_snd {R W Er A} (I : R * W -> Prop) (m : io W Er A) Q E :
  (forall r, triple (fun w => I (r, w)) m (fun a w => Q a (r, w)) (fun w => E (r, w))) ->
  triple I (io_on_snd m) Q E.
Proof.
  intros Hm [r w] Hs. specialize (Hm r w Hs). unfold io_on_snd. by destruct (m w) as [w1 [a|e|]].
Qed.

(** ** Copy and replace is atomic *)

(** [new] is [old] cut to [len] bytes with the ranges [bad] zeroed. *)
Definition salvaged (old new : list (option Z)) (len : Z) (bad : list range) : Prop :=
  Z.of_nat (length new) = len /\
  forall x, 0 <= x < len ->
    if decide (in_ranges x bad) then new !! Z.to_nat x = Some (Some 0)
    else exists b, old !! Z.to_nat x = Some (Some b) /\ new !! Z.to_nat x = Some (Some b).

Lemma string_length_app s t : String.length (s ++ t)%string = (String.length s + String.length t)%nat.
Proof. induction s as [|a s IH]; simpl; [done|]. by rewrite IH. Qed.

Lemma temp_path_ne target tmp : temp_path_for target = XOk tmp -> tmp <> target.
Proof.
  unfold temp_path_for. destruct (last target) as [name|] eqn:E; [|done]. intros [= <-] Heq.
  apply (f_equal last) in Heq. rewrite last_snoc, E in Heq. injection Heq as Heq.
  apply (f_equal String.length) in Heq. simpl in Heq. rewrite !string_length_app in Heq. simpl in Heq. lia.
Qed.

Lemma lookup_cells_write off data c x :
  0 <= off -> off + Z.of_nat (length data) <= Z.of_nat (length c) -> 0 <= x ->
  cells_write off data c !! Z.to_nat x =
    if decide (off <= x < off + Z.of_nat (length data)) then Some <$> data !! Z.to_nat (x - off)
    else c !! Z.to_nat x.
Proof.
  intros Ho Hlen Hx. unfold cells_write. rewrite resize_le by lia.
  assert (Hlt : length (take (Z.to_nat off) c) = Z.to_nat off) by (rewrite length_take; lia).
  destruct (decide (x < off)) as [Hxo|Hxo].
  { rewrite decide_False by lia. rewrite lookup_app_l by lia. apply lookup_take_lt. lia. }
  rewrite lookup_app_r by lia. rewrite Hlt.
  replace (Z.to_nat x - Z.to_nat off)%nat with (Z.to_nat (x - off)) by lia.
  case_decide as Hd.
  - rewrite lookup_app_l by (rewrite length_fmap; lia). apply list_lookup_fmap.
  - rewrite lookup_app_r by (rewrite length_fmap; lia). rewrite length_fmap, lookup_drop. f_equal. lia.
Qed.

Lemma length_cells_write off data c :
  0 <= off -> off + Z.of_nat (length data) <= Z.of_nat (length c) -> length (cells_write off data c) = length c.
Proof.
  intros Ho Hlen. unfold cells_write. rewrite !length_app, length_resize, length_fmap, length_drop. lia.
Qed.

Section Salvage.
Context (target tmp : path) (old : list (option Z)) (files0 : gmap path (list (option Z))).
Hypothesis tmp_ne : tmp <> target.
Hypothesis target0 : files0 !! target = Some old.

(** Nothing but the temporary file changed so far. *)
Definition untouched (files : gmap path (list (option Z))) : Prop :=
  forall p, p <> tmp -> files !! p = files0 !! p.

Lemma untouched_alter f files : untouched files -> untouched (alter f tmp files).
Proof using. intros Hu p Hp. rewrite lookup_alter_ne by done. by apply Hu. Qed.

Lemma untouched_delete files : untouched files -> untouched (delete tmp files).
Proof using. intros Hu p Hp. rewrite lookup_delete_ne by done. by apply Hu. Qed.

Lemma untouched_insert c files : untouched files -> untouched (<[tmp := c]> files).
Proof using. intros Hu p Hp. rewrite lookup_insert_ne by done. by apply Hu. Qed.

(** The temporary file while the copy is at [o]. *)
Definition copying (len : Z) (bad : list range) (o : Z) (st : FileRangeReader * fs) : Prop :=
  frr_path st.1 = target /\ untouched (fs_files st.2) /\
  separated bad /\ (forall x, in_ranges x bad -> 0 <= x < o) /\
  exists c, fs_files st.2 !! tmp = Some c /\ Z.of_nat (length c) = len /\
    forall x, 0 <= x < len ->
      if decide (x < o /\ ~ in_ranges x bad)
      then exists b, old !! Z.to_nat x = Some (Some b) /\ c !! Z.to_nat x = Some (Some b)
      else c !! Z.to_nat x = Some (Some 0).

Lemma copying_data len bad o s s' bs :
  copying len bad o s -> 0 <= o -> o + Z.of_nat (length bs) <= len -> holds_at old o bs ->
  salvage_data tmp o bs s = (s', XOk ()) -> copying len bad (o + Z.of_nat (length bs)) s'.
Proof using tmp_ne.
  intros (Hp & Hu & Hs & Hin & c & Hc & Hlen & Hx) Ho Hle Hh Hd.
  assert (Hold : forall x, o <= x < o + Z.of_nat (length bs) -> exists b,
    bs !! Z.to_nat (x - o) = Some b /\ old !! Z.to_nat x = Some (Some b)).
  { intros x Hxo. destruct (lookup_lt_is_Some_2 bs (Z.to_nat (x - o)) ltac:(lia)) as [b Hb].
    exists b. split; [done|]. apply Hh in Hb. rewrite <- Hb. f_equal. lia. }
  assert (Hin' : forall x, in_ranges x bad -> 0 <= x < o + Z.of_nat (length bs))
    by (intros x ?%Hin; lia).
  assert (Hout : forall x, o <= x -> ~ in_ranges x bad) by (intros x ? ?%Hin; lia).
  unfold salvage_data in Hd. destruct (forallb (Z.eqb 0) bs) eqn:Hz.
  - io_simp. split; [done|]. split; [done|]. split; [done|]. split; [done|].
    exists c. split; [done|]. split; [done|]. intros x Hxl.
    specialize (Hx x Hxl). destruct (decide (x < o)).
    + rewrite (decide_ext _ (x < o /\ ~ in_ranges x bad)); [done|]. split; intros [? ?]; (split; [lia|done]).
    + rewrite decide_False in Hx by lia. case_decide as D; [|done].
      destruct (Hold x ltac:(lia)) as (b & Hb & Ho'). exists b. split; [done|].
      apply list_elem_of_lookup_2, list_elem_of_In in Hb.
      assert (b = 0) as -> by (symmetry; apply Z.eqb_eq; by eapply forallb_forall in Hz). done.
  - destruct s as [r w]. unfold io_on_snd, write_all_at in Hd. simpl in *.
    pose proof (next_fault_files w) as Hf. destruct (next_fault w) as [w1 [[e k]|]]; simplify_eq/=.
    split; [done|]. split; [simpl; rewrite Hf; by apply untouched_alter|].
    split; [done|]. split; [done|].
    exists (cells_write o bs c). split; [simpl; by rewrite Hf, lookup_alter_eq, Hc|].
    split; [rewrite length_cells_write by lia; done|].
    intros x Hxl. rewrite lookup_cells_write by lia. specialize (Hx x Hxl).
    destruct (decide (o <= x < o + _)) as [D1|D1].
    + rewrite decide_True by (split; [lia|apply Hout; lia]).
      destruct (Hold x D1) as (b & -> & ?). by exists b.
    + destruct (decide (x < o)).
      * rewrite (decide_ext _ (x < o /\ ~ in_ranges x bad)); [done|]. split; intros [? ?]; (split; [lia|done]).
      * rewrite decide_False in Hx by lia. by rewrite decide_False by lia.
Qed.

Lemma copying_bad len bad o s n :
  copying len bad o s -> 0 <= o -> 0 < n -> copying len (push_range bad (o, o + n)) (o + n) s.
Proof using.
  intros (Hp & Hu & Hs & Hin & c & Hc & Hlen & Hx) Ho Hn.
  destruct (push_range_spec bad (o, o + n) Hs) as (P1 & P2 & _ & _).
  { intros a Ha. pose proof (separated_bounded bad 0 o Hs Hin a Ha).
    destruct Hs as [Hne _]. eapply Forall_forall in Hne; [|done]. simpl in *. lia. }
  split; [done|]. split; [done|]. split; [done|]. split.
  { intros x [Hx'|Hx']%P2; [apply Hin in Hx'; lia|]. unfold in_range in Hx'. simpl in Hx'. lia. }
  exists c. split; [done|]. split; [done|]. intros x Hxl. specialize (Hx x Hxl).
  rewrite (decide_ext _ (x < o /\ ~ in_ranges x bad)); [done|]. rewrite P2. unfold in_range. simpl.
  split; [intros [? Hnot]; apply Decidable.not_or in Hnot; split; [lia|tauto]|].
  intros [? ?]. split; [lia|]. intros [?|?]; [done|lia].
Qed.

Definition reading (st : FileRangeReader * fs) : Prop :=
  frr_path st.1 = target /\ untouched (fs_files st.2).

Lemma reading_read off n st : reading st -> reading (read_at off n st).1.
Proof using.
  destruct st as [r w]. intros [Hp Hu]. pose proof (frr_read_at_spec off n r w) as Hr.
  destruct (read_at off n (r, w)) as [[r' w'] x]. destruct Hr as (Hr & Hf & _).
  simpl in *. split; [by simpl; congruence|]. simpl. by rewrite Hf.
Qed.

Lemma salvage_data_reading off bs st : reading st -> reading (salvage_data tmp off bs st).1.
Proof using.
  destruct st as [r w]. intros [Hp Hu]. unfold salvage_data. destruct (forallb _ bs); [done|].
  unfold io_on_snd, write_all_at. pose proof (next_fault_files w) as Hf.
  destruct (next_fault w) as [w1 [[e k]|]]; simpl in *; (split; [done|]); simpl;
    rewrite Hf; by apply untouched_alter.
Qed.

Context (progress : Z -> FileRangeReader * fs -> FileRangeReader * fs).
Hypothesis progress_pure : forall n st,
  frr_path (progress n st).1 = frr_path st.1 /\ fs_files (progress n st).2 = fs_files st.2.

Lemma salvage_walk fuel len window sub :
  0 <= len -> 0 < sub -> (DIRECT_ALIGN | sub) -> (DIRECT_ALIGN | window) -> len + window <= 2 ^ 64 ->
  triple (fun st => reading st /\ fs_files st.2 !! tmp = Some (cells_set_len len []))
    (walk fuel (salvage_data tmp) progress (0, len) window sub)
    (fun bad st => reading st /\ exists c, fs_files st.2 !! tmp = Some c /\ salvaged old c len bad)
    reading.
Proof using tmp_ne target0 progress_pure.
  intros Hlen Hsub Ha1 Ha2 H64 st [Hr Ht].
  pose proof (walk_frame fuel (salvage_data tmp) progress reading) as Hframe.
  specialize (Hframe (fun off n s => reading_read off n s) (fun off bs s => salvage_data_reading off bs s)).
  specialize (fun Hp => Hframe Hp (0, len) window sub st Hr).
  destruct (walk _ _ _ _ _ _ st) as [st' x] eqn:E. simpl in Hframe.
  assert (Hr' : reading st').
  { apply Hframe. intros n s [H1 H2]. destruct (progress_pure n s) as [E1 E2]. by split; rewrite ?E1, ?E2. }
  destruct x as [bad|e|]; [|done..]. split; [done|].
  enough (HI : copying len bad len st').
  { destruct HI as (_ & _ & _ & _ & c & Hc & Hl & Hx). exists c. split; [done|]. split; [done|].
    intros x Hxl. specialize (Hx x Hxl). destruct (decide (in_ranges x bad)).
    - by rewrite decide_False in Hx by tauto.
    - by rewrite decide_True in Hx by (split; [lia|done]). }
  apply (walk_inv fuel (salvage_data tmp) progress old (copying len) (fun _ _ => True) len sub
    Hsub Ha1) with (range := (0, len)) (window := window) (s := st); try done; try apply Z.divide_0_r.
  - intros b o off n s (Hp & Hu & Hrest) _ _. destruct s as [r w].
    pose proof (frr_read_at_spec off n r w) as Hrd. destruct (read_at off n (r, w)) as [[r' w'] x].
    destruct Hrd as (E1 & E2 & _). simpl in *. split; [by simpl; congruence|]. simpl. rewrite E2. by split.
  - intros b o off n [r w] s' bs (Hp & Hu & _) _ _ Hrd. pose proof (frr_read_at_spec off n r w) as Hx.
    rewrite Hrd in Hx. destruct s' as [r' w']. destruct Hx as (_ & _ & Hx). simpl in *.
    unfold fs_cells in Hx. by rewrite Hp, (Hu target) in Hx by done; rewrite target0 in Hx.
  - intros b o s s' bs Hc Ho Hle Hh Hd. by eapply copying_data.
  - intros b o s n Hc Ho _ Hn _ _. by apply copying_bad.
  - intros b o n s (Hp & Hu & Hs & Hin & c & Hc & Hrest). destruct (progress_pure n s) as [E1 E2].
    split; [congruence|]. rewrite E2. split; [done|]. split; [done|]. split; [done|]. by exists c.
  - destruct Hr as [Hp Hu]. split; [done|]. split; [done|]. split; [split; constructor|].
    split; [by intros x ?%in_ranges_nil|]. eexists. split; [exact Ht|].
    unfold cells_set_len. rewrite length_resize. split; [lia|]. intros x Hxl.
    rewrite decide_False by (simpl; lia). rewrite resize_nil. apply lookup_replicate_2. lia.
Qed.

(** A call that keeps a property of the files keeps it for the reader's state. *)
Lemma reading_syscall {A : Type} (P : gmap path (list (option Z)) -> Prop) (op : io fs io_error A) :
  (forall w, P (fs_files w) -> P (fs_files (op w).1)) ->
  triple (fun st => frr_path st.1 = target /\ P (fs_files st.2)) (io_on_snd (syscall op))
    (fun _ st => frr_path st.1 = target /\ P (fs_files st.2))
    (fun st => frr_path st.1 = target /\ P (fs_files st.2)).
Proof using.
  intros Hop. apply triple_on_snd. intros r w [Hp Hw].
  pose proof (syscall_keeps P op Hop w Hw) as Ht. by destruct (syscall op w) as [w1 [?|?|]].
Qed.

Lemma reading_quiet {A : Type} (P : gmap path (list (option Z)) -> Prop) p (k : list (option Z) -> A) :
  triple (fun st => frr_path st.1 = target /\ P (fs_files st.2))
    (io_on_snd (with_file p (fun c => mret (k c))))
    (fun _ st => frr_path st.1 = target /\ P (fs_files st.2))
    (fun st => frr_path st.1 = target /\ P (fs_files st.2)).
Proof using. apply reading_syscall. intros w Hw. by destruct (fs_files w !! p). Qed.

Lemma reading_remove : triple reading (io_on_snd (remove_file tmp)) (fun _ => reading) reading.
Proof using.
  apply reading_syscall. intros w Hw. destruct (fs_files w !! tmp); [|done]. by apply untouched_delete.
Qed.

Lemma reading_exists : triple reading (io_on_snd (path_exists tmp)) (fun _ => reading) reading.
Proof using.
  apply triple_on_snd. intros r w [Hp Hw]. unfold path_exists, io_case.
  pose proof (reading_quiet untouched tmp (fun c => Z.of_nat (length c)) (r, w) (conj Hp Hw)) as Ht.
  unfold io_on_snd in Ht. fold (metadata_len tmp) in Ht. by destruct (metadata_len tmp w) as [w1 [?|?|]].
Qed.

Lemma reading_create :
  triple reading (io_on_snd (create_new tmp)) (fun _ st => reading st /\ fs_files st.2 !! tmp = Some []) reading.
Proof using.
  apply triple_on_snd. intros r w [Hp Hw]. unfold create_new, syscall.
  pose proof (next_fault_files w) as Hf. destruct (next_fault w) as [w1 [[e k]|]]; simpl in *.
  - split; [done|]. simpl. by rewrite Hf.
  - destruct (fs_files w1 !! tmp); simpl; [split; [done|]; simpl; by rewrite Hf|].
    split; [split; [done|]; simpl; rewrite Hf; by apply untouched_insert|]. apply lookup_insert_eq.
Qed.

Lemma reading_set_len len :
  triple (fun st => reading st /\ fs_files st.2 !! tmp = Some []) (io_on_snd (set_len tmp len))
    (fun _ st => reading st /\ fs_files st.2 !! tmp = Some (cells_set_len len [])) reading.
Proof using.
  apply triple_on_snd. intros r w [[Hp Hw] Ht]. unfold set_len, syscall.
  pose proof (next_fault_files w) as Hf. destruct (next_fault w) as [w1 [[e k]|]]; simpl in *.
  - split; [done|]. simpl. by rewrite Hf.
  - split; [split; [done|simpl; rewrite Hf; by apply untouched_alter]|]. simpl. by rewrite Hf, lookup_alter_eq, Ht.
Qed.

(** The state once the copy took the place of the file. *)
Definition replaced (len : Z) (bad : list range) (st : FileRangeReader * fs) : Prop :=
  frr_path st.1 = target /\
  (forall p, p <> tmp -> p <> target -> fs_files st.2 !! p = files0 !! p) /\
  fs_files st.2 !! tmp = None /\
  exists new, fs_files st.2 !! target = Some new /\ salvaged old new len bad.

(** The state between the copy and the rename. *)
Definition copied (len : Z) (bad : list range) (st : FileRangeReader * fs) : Prop :=
  frr_path st.1 = target /\ untouched (fs_files st.2) /\
  exists c, fs_files st.2 !! tmp = Some c /\ salvaged old c len bad.

Lemma copied_reading len bad st : copied len bad st -> reading st.
Proof using. by intros (? & ? & _). Qed.

Lemma copied_syscall {A : Type} len bad p (k : list (option Z) -> A) (a : A) :
  triple (copied len bad) (io_on_snd (with_file p (fun c => mret (k c)))) (fun _ => copied len bad) (copied len bad) /\
  triple (copied len bad) (io_on_snd (syscall (mret a))) (fun _ => copied len bad) (copied len bad).
Proof using.
  split; [apply (reading_quiet (fun files => untouched files /\ exists c, files !! tmp = Some c /\ salvaged old c len bad))
    |apply (reading_syscall (fun files => untouched files /\ exists c, files !! tmp = Some c /\ salvaged old c len bad)); done].
Qed.

Lemma copy_phase fuel len window sub :
  0 <= len -> 0 < sub -> (DIRECT_ALIGN | sub) -> (DIRECT_ALIGN | window) -> len + window <= 2 ^ 64 ->
  triple (fun st => reading st /\ fs_files st.2 !! tmp = Some [])
    (from_io (io_on_snd (set_len tmp len)) ;;
     bad ← from_io (walk fuel (salvage_data tmp) progress (0, len) window sub);
     with_context "fsync temp file" (io_on_snd (sync_all tmp)) ;; mret bad)
    (copied len) reading.
Proof using tmp_ne target0 progress_pure.
  intros Hlen Hsub Ha1 Ha2 H64. eapply triple_bind; [apply triple_map_err, reading_set_len|]. intros [].
  eapply triple_bind; [apply triple_map_err, salvage_walk; done|]. intros bad.
  eapply triple_bind with (Q := fun _ => copied len bad).
  - eapply triple_weaken; [apply triple_map_err, (copied_syscall len bad [] (fun _ => ()) ())|..]; simpl.
    + by intros s [[? ?] ?].
    + done.
    + by apply copied_reading.
  - intros []. apply (triple_ret_eq (copied len)).
Qed.

Lemma rename_replaces len bad :
  triple (copied len bad) (io_on_snd (rename tmp target)) (fun _ => replaced len bad) reading.
Proof using tmp_ne.
  apply triple_on_snd. intros r w (Hp & Hw & c & Hc & Hs). unfold rename, with_file, syscall.
  pose proof (next_fault_files w) as Hf. destruct (next_fault w) as [w1 [[e k]|]]; simpl in *.
  - split; [done|]. simpl. by rewrite Hf.
  - rewrite Hf, Hc. split; [done|]. simpl. split; [|split].
    + intros p H1 H2. rewrite lookup_insert_ne, lookup_delete_ne by done. rewrite ?Hf. by apply Hw.
    + rewrite lookup_insert_ne, lookup_delete_eq by done. done.
    + exists c. by rewrite lookup_insert_eq.
Qed.

Lemma replaced_sync_dir len bad :
  triple (replaced len bad) (io_on_snd (sync_dir (removelast target))) (fun _ => replaced len bad) (replaced len bad).
Proof using.
  assert (Hs : forall st, replaced len bad st -> replaced len bad (io_on_snd (syscall (mret ())) st).1).
  { intros [r w] Hst. unfold io_on_snd, syscall. pose proof (next_fault_files w) as Hf.
    destruct (next_fault w) as [w1 [[e k]|]]; unfold replaced in *; simpl in *; by rewrite Hf. }
  intros [r w] Hst. unfold sync_dir, io_on_snd, mbind, io_bind.
  pose proof (Hs (r, w) Hst) as H1. unfold io_on_snd in H1.
  destruct (syscall (mret ()) w) as [w1 [[]|?|]]; [|done..].
  pose proof (Hs (r, w1) H1) as H2. unfold io_on_snd in H2.
  by destruct (syscall (mret ()) w1) as [w2 [[]|?|]].
Qed.

(** How a failed call leaves the state: nothing replaced, or everything. *)
Definition all_or_nothing (len : Z) (st : FileRangeReader * fs) : Prop :=
  reading st \/ exists bad, replaced len bad st.

Lemma replace_phase len bad :
  triple (copied len bad)
    (io_case (io_on_snd (metadata_len target))
       (fun _ => ignore (io_on_snd (set_permissions tmp))) (fun _ => mret ()) ;;
     io_case (io_on_snd (rename tmp target))
       (fun _ => with_context "fsync directory" (io_on_snd (sync_dir (removelast target))) ;; mret bad)
       (fun e => ignore (io_on_snd (remove_file tmp)) ;;
                 io_lift (XErr [CContext "error renaming"; CIo e])))
    (replaced len) (all_or_nothing len).
Proof using tmp_ne.
  assert (HR : forall s, reading s -> all_or_nothing len s) by (intros s Hs; by left).
  assert (HC : forall s, copied len bad s -> all_or_nothing len s) by (intros s Hs%copied_reading; by left).
  destruct (copied_syscall len bad target (fun c => Z.of_nat (length c)) 0) as [Hq _].
  destruct (copied_syscall len bad target (fun _ => ()) ()) as [_ Hp].
  eapply triple_bind with (Q := fun _ => copied len bad).
  { eapply triple_case; [exact Hq|intros ?; by apply triple_ignore|intros ?; apply triple_ret|done]. }
  intros []. eapply triple_case; [apply rename_replaces| | |done].
  - intros []. eapply triple_bind.
    + eapply triple_weaken; [apply triple_map_err, replaced_sync_dir|done|done|]. intros s Hs. right. by exists bad.
    + intros []. apply (triple_ret_eq (replaced len)).
  - intros e. eapply triple_bind; [apply triple_ignore; [apply reading_remove|done]|].
    intros []. by apply triple_err.
Qed.

Lemma salvage_triple fuel len opts :
  temp_path_for target = XOk tmp ->
  0 <= len -> 0 < sub_chunk opts -> (DIRECT_ALIGN | sub_chunk opts) -> (DIRECT_ALIGN | window opts) ->
  len + window opts <= 2 ^ 64 ->
  triple reading (salvage_copy_replace fuel len target opts progress) (replaced len) (all_or_nothing len).
Proof using tmp_ne target0 progress_pure.
  intros Htmp Hlen Hsub Ha1 Ha2 H64.
  assert (HR : forall s, reading s -> all_or_nothing len s) by (intros s Hs; by left).
  unfold salvage_copy_replace. rewrite Htmp. apply triple_lift_ok.
  eapply triple_bind; [eapply triple_weaken; [apply triple_map_err, (reading_syscall untouched)|..]; done|].
  intros free. destruct (free <? _); [by apply triple_err|].
  eapply triple_bind; [eapply triple_weaken; [apply triple_map_err, reading_exists|done..]|].
  intros stale. eapply triple_bind with (Q := fun _ => reading).
  { destruct stale; [|apply triple_ret].
    eapply triple_weaken; [apply triple_map_err, reading_remove|done..]. }
  intros []. eapply triple_bind; [eapply triple_weaken; [apply triple_map_err, reading_create|done..]|].
  intros []. eapply triple_case; [by apply copy_phase|apply replace_phase| |done].
  intros e. eapply triple_bind; [apply triple_ignore; [apply reading_remove|done]|].
  intros []. by apply triple_err.
Qed.
End Salvage.

(** C26: Copy and replace is atomic at every point where a system call may fail.  No
    other file changes.  When it returns the zeroed ranges, the file is the
    readable part of the old one with exactly those ranges zeroed, and the
    temporary file is gone.  When it fails, the file is what it was, or, when only
    the flush of the directory failed, the complete replacement. *)
Theorem salvage_copy_replace_atomic fuel len target tmp opts progress r w old :
  temp_path_for target = XOk tmp -> frr_path r = target -> fs_files w !! target = Some old ->
  0 <= len -> 0 < sub_chunk opts -> (DIRECT_ALIGN | sub_chunk opts) -> (DIRECT_ALIGN | window opts) ->
  len + window opts <= 2 ^ 64 ->
  (forall n st, frr_path (progress n st).1 = frr_path st.1 /\ fs_files (progress n st).2 = fs_files st.2) ->
  let '((_, w'), x) := salvage_copy_replace fuel len target opts progress (r, w) in
  (forall p, p <> tmp -> p <> target -> fs_files w' !! p = fs_files w !! p) /\
  match x with
  | XOk bad => fs_files w' !! tmp = None /\ exists new, fs_files w' !! target = Some new /\ salvaged old new len bad
  | _ => fs_files w' !! target = Some old \/
         exists new bad, fs_files w' !! target = Some new /\ salvaged old new len bad
  end.
Proof.
  intros Htmp Hr Hw Hlen Hsub Ha1 Ha2 H64 Hprog. pose proof (temp_path_ne _ _ Htmp) as Hne.
  pose proof (salvage_triple target tmp old (fs_files w) Hne Hw progress Hprog fuel len opts
    Htmp Hlen Hsub Ha1 Ha2 H64 (r, w) (conj Hr (fun p _ => eq_refl))) as Ht.
  destruct (salvage_copy_replace _ _ _ _ _ (r, w)) as [[r' w'] x].
  assert (Hall : all_or_nothing target tmp old (fs_files w) len (r', w') ->
    (forall p, p <> tmp -> p <> target -> fs_files w' !! p = fs_files w !! p) /\
    (fs_files w' !! target = Some old \/
     exists new bad, fs_files w' !! target = Some new /\ salvaged old new len bad)).
  { intros [[_ Hu]|(bad & _ & Hu & _ & new & ? & ?)]; simpl in *.
    - split; [intros p ? ?; by apply Hu|]. left. by rewrite Hu.
    - split; [done|]. right. by exists new, bad. }
  destruct x as [bad|e|]; [|by apply Hall..].
  destruct Ht as (_ & Hu & Htm & Hnew). by split.
Qed.

(** ** Repair of one file on a disk where holes can be punched *)

Lemma power_of_two_log2 b : is_power_of_two b = true -> b = 2 ^ Z.log2 b.
Proof.
  unfold is_power_of_two. rewrite andb_true_iff, Z.ltb_lt, Z.eqb_eq. intros [Hb Hl].
  pose proof (Z.log2_spec b Hb) as [H1 H2]. destruct (Z.eq_dec b (2 ^ Z.log2 b)) as [|Hne]; [done|].
  pose proof (Z.log2_nonneg b).
  assert (Hlog : Z.log2 (b - 1) = Z.log2 b) by (apply Z.log2_unique; lia).
  assert (Hbit : Z.testbit (Z.land b (b - 1)) (Z.log2 b) = true).
  { rewrite Z.land_spec, Z.bit_log2 by done. rewrite <- Hlog. apply Z.bit_log2.
    assert (0 < 2 ^ Z.log2 b) by lia. lia. }
  by rewrite Hl, Z.bits_0 in Hbit.
Qed.

Lemma syscall_no_fault {A : Type} (op : io fs io_error A) w : fs_faults w = [] -> syscall op w = op w.
Proof. intros Hf. unfold syscall. by rewrite next_fault_none. Qed.

Lemma fs_block_size_spec {E} p w c :
  fs_faults w = [] -> fs_files w !! p = Some c ->
  exists b, fs_block_size (E := E) p w = (w, XOk b) /\ (DIRECT_ALIGN | b) /\ (b | SUB_CHUNK) /\ 4096 <= b <= SUB_CHUNK.
Proof.
  intros Hf Hc. unfold fs_block_size, mbind, io_bind, io_case, metadata_blksize, with_file.
  rewrite syscall_no_fault, Hc by done. unfold mret, io_ret. eexists. split; [done|].
  destruct (is_power_of_two _ && _ && _) eqn:E1; [|split; [by exists 1|]; split; [by exists 16|done]].
  rewrite !andb_true_iff, !Z.leb_le in E1. destruct E1 as [[Hp Hlo] Hhi].
  set (b := fs_blksize w) in *. rewrite (power_of_two_log2 b Hp) in *.
  pose proof (Z.log2_nonneg b). set (k := Z.log2 b) in *. clearbody k.
  assert (12 <= k <= 16).
  { change 4096 with (2 ^ 12) in Hlo. change SUB_CHUNK with (2 ^ 16) in Hhi.
    split; [apply (Z.pow_le_mono_r_iff 2 12 k) in Hlo|apply (Z.pow_le_mono_r_iff 2 k 16) in Hhi]; lia. }
  split; [|split; [|done]].
  - exists (2 ^ (k - 12)). change DIRECT_ALIGN with (2 ^ 12). rewrite <- Z.pow_add_r by lia. f_equal. lia.
  - exists (2 ^ (16 - k)). change SUB_CHUNK with (2 ^ 16). rewrite <- Z.pow_add_r by lia. f_equal. lia.
Qed.

Lemma frr_open_no_fault p w c :
  fs_faults w = [] -> fs_files w !! p = Some c -> frr_open p w = (w, XOk (mkReader p true)).
Proof.
  intros Hf Hc. unfold frr_open, io_case, open_existing, with_file.
  by rewrite syscall_no_fault, Hc by done.
Qed.

(** A read-only scan leaves the whole file system as it was. *)
Lemma scan_quietly_spec fuel r w c a e :
  fs_faults w = [] -> fs_files w !! frr_path r = Some c ->
  (DIRECT_ALIGN | a) -> 0 <= a <= e -> e <= Z.of_nat (length c) -> e + SCAN_WINDOW <= 2 ^ 64 ->
  (Z.to_nat (e - a) < fuel)%nat ->
  exists r' w' bad, scan_quietly fuel (a, e) (r, w) = ((r', w'), XOk bad) /\
    fs_faults w' = [] /\ fs_files w' = fs_files w /\ frr_path r' = frr_path r /\
    scanned c SUB_CHUNK a bad e.
Proof.
  intros Hf Hc Ha Hae He H64 Hfu.
  assert (Hcells : fs_cells w (frr_path r) = c) by (unfold fs_cells; by rewrite Hc).
  destruct (scan_unreadable_correct fuel (fun _ st => st) (a, e) SCAN_WINDOW SUB_CHUNK (r, w))
    as ([r' w'] & bad & Hs & (Hok & _) & Hsep & Hin & Hall & Hex); simpl; rewrite ?Hcells in *; try done.
  - by exists 16.
  - by exists 1024.
  - exists r', w', bad. split; [exact Hs|]. split; [apply Hok|].
    pose proof (walk_frame fuel (fun _ _ => mret ()) (fun _ st => st)
      (fun st : FileRangeReader * fs => frr_path st.1 = frr_path r /\ fs_files st.2 = fs_files w)) as Hfr.
    assert (Hkeep : frr_path r' = frr_path r /\ fs_files w' = fs_files w).
    { unfold scan_unreadable in Hs. specialize (Hfr) with (range := (a, e)) (window := SCAN_WINDOW) (sub := SUB_CHUNK) (s := (r, w)).
      rewrite Hs in Hfr. apply Hfr; try done. intros off n [r1 w1] [E1 E2].
      pose proof (frr_read_at_spec off n r1 w1) as Hrd. destruct (read_at off n (r1, w1)) as [[r2 w2] x].
      destruct Hrd as (E3 & E4 & _). simpl in *. by rewrite E3, E4. }
    destruct Hkeep. repeat (split; [done|]). simpl in *. rewrite Hcells in *. by repeat split.
Qed.

Definition punched (rs : list range) (c : list (option Z)) : list (option Z) :=
  foldl (fun c r => cells_punch r c) c rs.

Lemma lookup_punched rs c i :
  punched rs c !! i = (fun x => if decide (in_ranges (Z.of_nat i) rs) then Some 0 else x) <$> c !! i.
Proof.
  unfold punched. revert c. induction rs as [|r rs IH]; intros c; cbn [foldl].
  { destruct (c !! i); [|done]. cbn [fmap option_fmap option_map].
    by rewrite decide_False by apply in_ranges_nil. }
  rewrite IH. unfold cells_punch. rewrite list_lookup_imap.
  destruct (c !! i) as [x|]; [|done]. cbn [fmap option_fmap option_map]. f_equal.
  pose proof (in_ranges_cons (Z.of_nat i) r rs) as Hc.
  destruct (decide (in_ranges (Z.of_nat i) rs)) as [D1|D1];
    destruct (decide (in_ranges (Z.of_nat i) (r :: rs))) as [D2|D2]; try tauto;
    case_bool_decide; tauto.
Qed.

Lemma length_punched rs c : length (punched rs c) = length c.
Proof.
  unfold punched. revert c. induction rs as [|r rs IH]; intros c; simpl; [done|].
  rewrite IH. apply length_imap.
Qed.

Lemma punch_loop p rs w c :
  fs_faults w = [] -> fs_files w !! p = Some c ->
  exists w', foldM (M := io fs anyhow)
      (fun _ r => with_context "fallocate(PUNCH_HOLE)" (punch_hole p r)) () rs w = (w', XOk ()) /\
    fs_faults w' = [] /\ fs_files w' = <[p := punched rs c]> (fs_files w) /\ fs_blksize w' = fs_blksize w.
Proof.
  revert w c. induction rs as [|r rs IH]; intros w c Hf Hc.
  { exists w. split; [done|]. split; [done|]. split; [|done]. by rewrite insert_id. }
  cbn [foldM]. unfold mbind, io_bind, with_context, io_map_err, punch_hole.
  rewrite syscall_no_fault by done. unfold io_modify.
  destruct (IH (file_update p (cells_punch r) w) (cells_punch r c)) as (w' & E & ? & E2 & ?); [done| |].
  { simpl. by rewrite lookup_alter_eq, Hc. }
  exists w'. split; [exact E|]. split; [done|]. split; [|done]. rewrite E2. simpl.
  apply map_eq. intros q. destruct (decide (q = p)) as [->|]; [by rewrite !lookup_insert_eq|].
  by rewrite !lookup_insert_ne, lookup_alter_ne by done.
Qed.

(** A range whose widened blocks were punched reads back without an error. *)
Lemma verify_loop fuel rs w c r :
  fs_faults w = [] -> fs_files w !! frr_path r = Some c ->
  Forall (fun q => (DIRECT_ALIGN | q.1) /\ 0 <= q.1 < q.2 /\ q.2 <= Z.of_nat (length c) /\
    (forall u, q.1 <= u < round_up q.2 -> ~ unreadable c u) /\
    q.2 + SCAN_WINDOW <= 2 ^ 64 /\ (Z.to_nat q.2 < fuel)%nat) rs ->
  exists r' w', foldM (M := io (FileRangeReader * fs) io_error)
      (fun acc q => b ← scan_quietly fuel q; mret (acc ++ b)) [] rs (r, w) = ((r', w'), XOk []) /\
    fs_faults w' = [] /\ fs_files w' = fs_files w.
Proof.
  revert r w. induction rs as [|[a e] rs IH]; intros r w Hf Hc Hrs; [by exists r, w|].
  apply Forall_cons_1 in Hrs as [(Ha & Hae & He & Hu & H64 & Hfu) Hrs]. simpl in *.
  destruct (scan_quietly_spec fuel r w c a e) as (r1 & w1 & bad & Hs & Hf1 & Hw1 & Hr1 & Hsep & Hin & _ & Hex);
    [done..|lia|lia|lia|lia|].
  assert (bad = []) as ->.
  { destruct bad as [|q bad]; [done|]. exfalso. destruct Hsep as [Hne _].
    apply Forall_cons_1 in Hne as [Hq _].
    destruct (Hex q.1) as (u & Hu1 & _ & Hu2); [|by apply (Hu u)].
    apply in_ranges_cons. left. unfold in_range. lia. }
  cbn [foldM]. unfold mbind at 1, io_bind at 1. unfold mbind at 1, io_bind at 1. rewrite Hs.
  unfold mret at 1, io_ret at 1. simpl.
  destruct (IH r1 w1) as (r2 & w2 & E & ? & Hw2); [done|by rewrite Hr1, Hw1|done|].
  exists r2, w2. split; [exact E|]. split; [done|]. congruence.
Qed.

Lemma punch_and_verify_ok fuel p aligned scan_len w c :
  fs_faults w = [] -> fs_files w !! p = Some c ->
  Forall (fun r => (DIRECT_ALIGN | r.1) /\ (DIRECT_ALIGN | r.2) /\ 0 <= r.1) aligned ->
  0 <= scan_len <= Z.of_nat (length c) -> scan_len + SCAN_WINDOW <= 2 ^ 64 -> (Z.to_nat scan_len < fuel)%nat ->
  exists w', punch_and_verify fuel p aligned scan_len w = (w', XOk ()) /\
    fs_faults w' = [] /\ fs_files w' = <[p := punched aligned c]> (fs_files w).
Proof.
  intros Hf Hc Hal Hsl H64 Hfu. unfold punch_and_verify.
  unfold mbind at 1, io_bind at 1, with_context at 1, io_map_err at 1, open_existing, with_file.
  rewrite syscall_no_fault, Hc by done. unfold mret at 1, io_ret at 1.
  destruct (punch_loop p aligned w c Hf Hc) as (w1 & E1 & Hf1 & Hw1 & _).
  unfold mbind at 1, io_bind at 1. rewrite E1.
  unfold mbind at 1, io_bind at 1, with_context at 1, io_map_err at 1, sync_all.
  rewrite syscall_no_fault by done. unfold mret at 1, io_ret at 1.
  assert (Hc1 : fs_files w1 !! p = Some (punched aligned c)) by (by rewrite Hw1, lookup_insert_eq).
  unfold mbind at 1, io_bind at 1, from_io at 1, io_map_err at 1.
  rewrite (frr_open_no_fault p w1 _ Hf1 Hc1).
  destruct (verify_loop fuel (clip_ranges aligned scan_len) w1 (punched aligned c) (mkReader p true))
    as (r2 & w2 & E2 & Hf2 & Hw2); [done|done| |].
  - apply Forall_forall. intros q (Hq1 & e & Hin & Hqe)%clip_ranges_bounds.
    eapply Forall_forall in Hal; [|exact Hin]. simpl in Hal. destruct Hal as (Ha1 & Ha2 & Ha3).
    rewrite length_punched. split; [done|]. split; [lia|]. split; [lia|]. split; [|split; lia].
    intros u Hu [Hu0 Hbad]. rewrite lookup_punched in Hbad.
    destruct (c !! Z.to_nat u); [|done]. simpl in Hbad. rewrite decide_True in Hbad; [done|].
    exists (q.1, e). split; [done|]. unfold in_range. simpl.
    assert (round_up q.2 <= e).
    { destruct Ha2 as [k ->]. unfold round_up.
      pose proof (div_ceil_spec q.2 DIRECT_ALIGN ltac:(done)). unfold DIRECT_ALIGN in *. nia. }
    lia.
  - unfold mbind at 1, io_bind at 1, with_reader, from_io, io_map_err. rewrite E2.
    exists w2. split; [done|]. split; [done|]. congruence.
Qed.

(** Ranges that meet only the sub-chunks of [P] still do after widening to blocks
    that divide a sub-chunk. *)
Lemma same_sub_chunk block a b :
  0 < block -> (block | SUB_CHUNK) -> a / block = b / block -> a / SUB_CHUNK = b / SUB_CHUNK.
Proof.
  intros Hb [k Hk] Heq. assert (0 < k) by (unfold SUB_CHUNK in *; nia).
  rewrite Hk, (Z.mul_comm k), <- !Z.div_div by lia. by rewrite Heq.
Qed.

(** The ranges of a scan of [[0, sl)] can be widened to blocks. *)
Lemma scanned_ranges old bad sl block :
  scanned old SUB_CHUNK 0 bad sl -> sl + block <= 2 ^ 64 ->
  Forall (fun r => 0 <= r.1 < r.2 /\ r.2 + block <= 2 ^ 64) bad.
Proof.
  intros (Hsep & Hin & _) Hb. apply Forall_forall. intros r Hr.
  pose proof (separated_bounded bad 0 sl Hsep Hin r Hr).
  destruct Hsep as [Hne _]. eapply Forall_forall in Hne; [|exact Hr]. simpl in *. lia.
Qed.

Section Widened.
Context (old : list (option Z)) (bad al : list range) (sl block : Z).
Hypothesis scan : scanned old SUB_CHUNK 0 bad sl.
Hypothesis al_in : forall o, in_ranges o al <-> exists o', in_ranges o' bad /\ o' / block = o / block.

Lemma aligned_blocks :
  separated al -> Forall (fun r => (block | r.1) /\ (block | r.2)) al ->
  (DIRECT_ALIGN | block) -> 0 < block ->
  Forall (fun r => (DIRECT_ALIGN | r.1) /\ (DIRECT_ALIGN | r.2) /\ 0 <= r.1) al.
Proof using scan al_in.
  destruct scan as (_ & Hin & _). intros Hals Hald Hb1 Hb.
  apply Forall_forall. intros r Hr. pose proof Hr as Hd. eapply Forall_forall in Hd; [|exact Hald].
  destruct Hd as [Hd1 Hd2]. split; [by etrans|]. split; [by etrans|].
  destruct Hals as [Hne _]. eapply Forall_forall in Hne; [|exact Hr]. simpl in Hne.
  destruct (proj1 (al_in r.1)) as (o' & Ho' & Hq); [exists r; unfold in_range; split; [done|lia]|].
  apply Hin in Ho'. pose proof (Z.div_pos o' block ltac:(lia) ltac:(lia)).
  pose proof (Z.div_mod r.1 block ltac:(lia)). pose proof (Z.mod_pos_bound r.1 block ltac:(lia)). nia.
Qed.

(** Punching the widened ranges zeroes them, keeps the rest, and every zeroed byte
    is next to one that was lost. *)
Lemma punched_outcome len :
  Forall (fun r => (DIRECT_ALIGN | r.1) /\ (DIRECT_ALIGN | r.2) /\ 0 <= r.1) al ->
  (block | SUB_CHUNK) -> 0 < block -> sl <= Z.of_nat (length old) -> sl <= len ->
  (forall x, 0 <= x < sl ->
    if decide (in_ranges x (clip_ranges al len)) then punched al old !! Z.to_nat x = Some (Some 0)
    else exists b, old !! Z.to_nat x = Some (Some b) /\ punched al old !! Z.to_nat x = Some (Some b)) /\
  (forall x, in_ranges x (clip_ranges al len) -> 0 <= x < len /\
    exists u, u / SUB_CHUNK = x / SUB_CHUNK /\ unreadable old u).
Proof using scan al_in.
  destruct scan as (_ & _ & Hall & Hex). intros Hal0 Hb2 Hb Hsl Hlen. split.
  - intros x Hx. rewrite lookup_punched, Z2Nat.id by lia.
    destruct (lookup_lt_is_Some_2 old (Z.to_nat x) ltac:(lia)) as [v Hv]. rewrite Hv.
    cbn [fmap option_fmap option_map]. pose proof (clip_ranges_in al len x) as Hc.
    destruct (decide (in_ranges x al)) as [D1|D1].
    + by rewrite decide_True by (apply Hc; split; [done|lia]).
    + rewrite decide_False by tauto. destruct v as [b|]; [by exists b|]. exfalso. apply D1, al_in.
      exists x. split; [|done]. apply Hall; [lia|]. by split; [lia|].
  - intros x [Hx Hlt]%clip_ranges_in. split.
    + split; [|done]. destruct Hx as (r & Hr & Hxr). eapply Forall_forall in Hal0; [|exact Hr].
      unfold in_range in Hxr. lia.
    + apply al_in in Hx as (o' & Ho' & Hq). destruct (Hex o' Ho') as (u & _ & Hu & Hun).
      exists u. split; [|done]. rewrite Hu. apply (same_sub_chunk block); [lia|done|done].
Qed.
End Widened.

(** C24: On a disk where holes can be punched, repairing a file that exists makes every
    byte of the torrent's file readable.  Bytes outside the reported ranges keep
    their value, bytes inside are zero, and a reported byte shares its 64 KiB
    sub-chunk with a byte that was unreadable.  The reported pieces are exactly
    those with a zeroed byte; no other file changes. *)
Theorem repair_file_correct fuel f piece_len with_file_closed w old :
  fs_faults w = [] -> fs_files w !! full_path f = Some old ->
  0 <= ftr_len f -> 0 < piece_len -> 0 <= offset_in_torrent f ->
  offset_in_torrent f + ftr_len f <= 2 ^ 64 -> (offset_in_torrent f + ftr_len f) / piece_len < 2 ^ 32 ->
  Z.min (Z.of_nat (length old)) (ftr_len f) + SCAN_WINDOW <= 2 ^ 64 ->
  (Z.to_nat (Z.min (Z.of_nat (length old)) (ftr_len f)) < fuel)%nat ->
  exists w' out new, repair_file fuel f piece_len with_file_closed w = (w', XOk out) /\
    (method out = MNone \/ method out = PunchHole) /\
    fs_files w' = <[full_path f := new]> (fs_files w) /\ length new = length old /\
    (forall x, 0 <= x < Z.min (Z.of_nat (length old)) (ftr_len f) ->
      if decide (in_ranges x (ranges_zeroed out)) then new !! Z.to_nat x = Some (Some 0)
      else exists b, old !! Z.to_nat x = Some (Some b) /\ new !! Z.to_nat x = Some (Some b)) /\
    (forall x, in_ranges x (ranges_zeroed out) -> 0 <= x < ftr_len f /\
      exists u, u / SUB_CHUNK = x / SUB_CHUNK /\ unreadable old u) /\
    StronglySorted Z.lt (pieces out) /\
    (forall p, p ∈ pieces out <->
      exists x, in_ranges x (ranges_zeroed out) /\ (offset_in_torrent f + x) / piece_len = p).
Proof.
  intros Hf Hold Hlen Hpl Hoff Hsum H32 H64 Hfu.
  set (sl := Z.min (Z.of_nat (length old)) (ftr_len f)) in *.
  unfold repair_file, io_case at 1, metadata_len, with_file. rewrite syscall_no_fault, Hold by done.
  unfold mret at 1, io_ret at 1. fold sl. unfold io_case at 1, mbind at 1, io_bind at 1.
  rewrite (frr_open_no_fault _ w old Hf Hold). unfold with_reader at 1.
  destruct (scan_quietly_spec fuel (mkReader (full_path f) true) w old 0 sl)
    as (r1 & w1 & bad & -> & Hf1 & Hw1 & _ & Hsc); simpl; try done; try lia.
  { apply Z.divide_0_r. }
  assert (Hold1 : fs_files w1 !! full_path f = Some old) by (by rewrite Hw1).
  destruct bad as [|q bad'] eqn:Ebad.
  { destruct Hsc as (_ & _ & Hall & _).
    eexists w1, _, old. split; [done|]. split; [by left|]. rewrite Hw1, insert_id by done.
    split; [done|]. split; [done|]. cbn [ranges_zeroed pieces]. split; [|split; [|split]].
    - intros x Hx. rewrite decide_False by apply in_ranges_nil.
      destruct (lookup_lt_is_Some_2 old (Z.to_nat x) ltac:(lia)) as [[b|] Hb]; [by exists b|].
      exfalso. apply (in_ranges_nil x), Hall; [lia|]. by split; [lia|].
    - by intros x ?%in_ranges_nil.
    - constructor.
    - intros p. split; [by intros ?%not_elem_of_nil|]. by intros (x & ?%in_ranges_nil & _). }
  rewrite <- Ebad in *. clear q bad' Ebad.
  destruct (fs_block_size_spec (E := Empty_set) (full_path f) w1 old Hf1 Hold1) as (block & Hblk & Hb1 & Hb2 & Hb3).
  unfold mbind at 1, io_bind at 1. rewrite Hblk.
  pose proof (scanned_ranges old bad sl block Hsc ltac:(unfold SCAN_WINDOW, SUB_CHUNK in *; lia)) as Hpos.
  destruct (align_ranges_correct bad block) as (al & -> & Hals & Hald & Hali); [lia|done|].
  cbn [exec_of_outcome]. unfold mbind at 1, io_bind at 1, io_lift at 1.
  pose proof (aligned_blocks old bad al sl block Hsc Hali Hals Hald Hb1 ltac:(lia)) as Hal0.
  destruct (punch_and_verify_ok fuel (full_path f) al sl w1 old Hf1 Hold1 Hal0) as (w2 & Hpv & Hf2 & Hw2);
    [lia|done|done|].
  unfold io_case at 1. rewrite Hpv.
  destruct (pieces_overlapping_correct (offset_in_torrent f) (ftr_len f) piece_len (clip_ranges al (ftr_len f)))
    as (pcs & -> & Hps & Hpi); [done..| |].
  { apply Forall_forall. intros r (_ & e & Hr & _)%clip_ranges_bounds.
    eapply Forall_forall in Hal0; [|exact Hr]. simpl in Hal0. lia. }
  cbn [exec_of_outcome]. unfold mbind at 1, io_bind at 1, io_lift at 1, mret at 1, io_ret at 1.
  eexists w2, _, (punched al old). split; [done|]. cbn [method ranges_zeroed pieces].
  split; [by right|]. split; [by rewrite Hw2, Hw1|]. split; [apply length_punched|].
  destruct (punched_outcome old bad al sl block Hsc Hali (ftr_len f) Hal0 Hb2 ltac:(lia) ltac:(lia) ltac:(lia)) as [H1 H2].
  split; [done|]. split; [done|]. split; [done|].
  intros p. rewrite Hpi. split.
  - intros (x & Hx & _ & Hp). by exists x.
  - intros (x & Hx & Hp). exists x. split; [done|]. split; [|done]. by apply clip_ranges_in in Hx as [_ ?].
Qed.

(** ** Concrete repairs *)

Definition toy_path : path := ["f"%string].
Definition toy_fs (faults : list (option (io_error * nat))) : fs :=
  mkFs {[ toy_path := [Some 7; None; Some 9] ]} 0 4096 faults.
Definition toy_file : FileToRepair := mkToRepair 0 toy_path toy_path 100 3.

Lemma salvage_copy_replace_atomic_witness :
  let '((_, w'), x) := salvage_copy_replace 10 3 toy_path SalvageOptions_default (fun _ st => st)
    (mkReader toy_path false, mkFs (fs_files (toy_fs [])) (2 ^ 40) 4096 []) in
  match x with
  | XOk bad => exists new, fs_files w' !! toy_path = Some new /\ salvaged [Some 7; None; Some 9] new 3 bad
  | _ => True
  end.
Proof.
  pose proof (salvage_copy_replace_atomic 10 3 toy_path [".f.rqbit-repair"%string] SalvageOptions_default
    (fun _ st => st) (mkReader toy_path false) (mkFs (fs_files (toy_fs [])) (2 ^ 40) 4096 [])
    [Some 7; None; Some 9] eq_refl eq_refl eq_refl ltac:(lia) eq_refl ltac:(by exists 16) ltac:(by exists 1024)
    ltac:(vm_compute; discriminate) ltac:(done)) as Ht.
  destruct (salvage_copy_replace _ _ _ _ _ _) as [[r' w'] [bad|e|]]; [|done..].
  apply Ht.
Defined.

Lemma repair_file_correct_witness : exists w' out,
  repair_file 10 toy_file 16384 (fun m => m) (toy_fs []) = (w', XOk out) /\
  (method out = MNone \/ method out = PunchHole).
Proof.
  destruct (repair_file_correct 10 toy_file 16384 (fun m => m) (toy_fs []) [Some 7; None; Some 9])
    as (w' & out & new & H1 & H2 & _);
    [done|done|done|done|done|done|done|vm_compute; discriminate|vm_compute; lia|].
  exists w', out. by split.
Defined.

(** A repair that fails after its holes were punched: the flush fails, and there is
    no room for a copy.  Two readable bytes of the file are now zero, yet no range
    and no piece is reported, so the piece still counts as downloaded. *)
Lemma failed_repair_hides_zeroed_data :
  let '(w', x) := repair_file 10 toy_file 16384 (fun m => m)
    (toy_fs (replicate 7 None ++ [Some (Os EIO, 0%nat)])) in
  fs_files w' !! toy_path = Some [Some 0; Some 0; Some 0] /\
  exists out, x = XOk out /\ method out = Failed /\ ranges_zeroed out = [] /\ pieces out = [].
Proof. vm_compute. split; [done|]. eexists. split; [done|]. done. Qed.
