(* ===== verification/Damage.v ===== *)
(** * Recovery from I/O errors ([librqbit::repair]: [Backoff], [DamageTracker])

    [Backoff] spaces automatic attempts by growing delays and gives up after a
    number of consecutive failures; [DamageTracker] keeps, per torrent, the
    damaged files, the pieces held back from the download queue, the state of the
    repair and the disk-full episode.  Each method is one critical section on the
    tracker's mutex, so a method is one step of the state.

    [BTreeMap]s are [gmap]s walked in key order, [BTreeSet]s of pieces are [gset]s,
    instants are nanoseconds and the readings of the clock are arguments.  The
    floating-point part of the delay ([backoff_delay] and the scaling of the
    jitter) is a parameter: nothing below depends on its value. *)

From stdpp Require Import base tactics option list list_numbers numbers decidable sets gmap fin_maps strings.
From Stdlib Require Import ZArith Lia.
From S2P Require Import Prelude Repair RepairFile.
Open Scope Z_scope.

Definition REPEAT_FAILURES_THRESHOLD : Z := 3.

Record BackoffConfig := mkBackoffConfig {
  base : Z;
  cap : Z;
  max_attempts : Z
}.

Definition secs (n : Z) : Z := n * 1000000000.

Definition BackoffConfig_default : BackoffConfig := mkBackoffConfig (secs 60) (secs (6 * 3600)) 8.

(** [u64::rotate_left] and the integer part of [jitter_from] (splitmix64). *)
Definition rotate_left (z k : Z) : Z := Z.lor (u64 (Z.shiftl z k)) (Z.shiftr z (64 - k)).

Definition splitmix (seed : Z) : Z :=
  let z := u64 (seed + 0x9E3779B97F4A7C15) in
  let z := u64 (Z.lxor z (Z.shiftr z 30) * 0xBF58476D1CE4E5B9) in
  let z := u64 (Z.lxor z (Z.shiftr z 27) * 0x94D049BB133111EB) in
  Z.lxor z (Z.shiftr z 31).

Inductive BackoffDecision :=
| RetryAfter (d : Z)
| GiveUp.

Record BackoffEntry := mkEntry {
  attempts : Z;
  last_failure : Z;
  next_allowed : Z;
  gave_up : bool;
  pending_requeue : bool;
  last_error : list Z
}.

Abbreviation Backoff := (gmap Z BackoffEntry).

(** Walking a [BTreeMap] in the order of its keys. *)
Definition btree_keys {A} (m : gmap Z A) : list Z :=
  sort_by Z.leb (elements (dom m)).

Section Delays.
Context {f64 : Type} (backoff_delay : BackoffConfig -> Z -> f64 -> Z) (to_jitter : Z -> f64).

Definition jitter_from (seed : Z) : f64 := to_jitter (splitmix seed).

Definition random_jitter (nanos key : Z) : f64 := jitter_from (Z.lxor (u64 nanos) (rotate_left key 32)).

Definition backoff_record_failure (key now : Z) (cfg : BackoffConfig) (jitter : f64) (error : list Z)
    (b : Backoff) : Backoff * BackoffDecision :=
  let e := default (mkEntry 0 now now false false []) (b !! key) in
  let n := saturating_add 32 (attempts e) 1 in
  let err := take 300 error in
  if Z.max (max_attempts cfg) 1 <=? n then
    (<[key := mkEntry n now now true true err]> b, GiveUp)
  else
    let d := backoff_delay cfg n jitter in
    (<[key := mkEntry n now (now + d) (gave_up e) true err]> b, RetryAfter d).

Definition record_success (key : Z) (b : Backoff) : Backoff * bool :=
  (delete key b, bool_decide (is_Some (b !! key))).

Definition allowed (key now : Z) (b : Backoff) : bool :=
  match b !! key with
  | None => true
  | Some e => negb (gave_up e) && (next_allowed e <=? now)
  end.

Definition is_due (now : Z) (e : BackoffEntry) : bool :=
  pending_requeue e && negb (gave_up e) && (next_allowed e <=? now).

Definition clear_pending (e : BackoffEntry) : BackoffEntry :=
  mkEntry (attempts e) (last_failure e) (next_allowed e) (gave_up e) false (last_error e).

(** The loop of [take_due] over the keys. *)
Fixpoint take_due_keys (now : Z) (limit : nat) (keys : list Z) (out : list Z) (b : Backoff) : list Z * Backoff :=
  match keys with
  | [] => (out, b)
  | k :: keys =>
      if (limit <=? length out)%nat then (out, b)
      else match b !! k with
           | Some e =>
               if is_due now e then take_due_keys now limit keys (out ++ [k]) (<[k := clear_pending e]> b)
               else take_due_keys now limit keys out b
           | None => take_due_keys now limit keys out b
           end
  end.

Definition take_due (now : Z) (limit : nat) (b : Backoff) : list Z * Backoff :=
  take_due_keys now limit (btree_keys b) [] b.

(** Entries that wait: deferred or given up. *)
Definition is_held (e : BackoffEntry) : bool := pending_requeue e || gave_up e.

Definition held_keys (b : Backoff) : list Z :=
  filter (fun k => match b !! k with Some e => is_held e | None => false end = true) (btree_keys b).

Definition reset_all (b : Backoff) : Backoff * list Z := (∅, held_keys b).

(** ** The tracker *)

Inductive RepairState := Running | Done | RFailed.

#[export] Instance RepairState_eq_dec : EqDecision RepairState.
Proof. solve_decision. Defined.

Record RepairSummary := mkSummary {
  files_scanned : nat;
  files_repaired : nat;
  files_failed : nat;
  sum_unreadable : Z;
  sum_zeroed : Z;
  pieces_to_redownload : nat;
  pieces_invalidated : nat;
  sum_files : list FileRepairOutcome
}.

Record RepairStatus := mkStatus {
  rs_state : RepairState;
  auto : bool;
  waiting_for_slot : bool;
  started_at : Z;
  finished_at : option Z;
  scanned_bytes : Z;
  total_bytes : Z;
  files_total : Z;
  files_done : Z;
  current_file : option path;
  summary : option RepairSummary;
  rs_error : option anyhow
}.

Record DiskSpace := mkSpace { sp_free_bytes : Z; sp_total_bytes : Z; sp_mount : path }.

Record DiskFullState := mkDiskFull {
  since : Z;
  df_pieces : gset Z;
  df_space : option DiskSpace;
  resume_at_free_bytes : Z;
  df_last_error : list Z
}.

Record DamagedFileState := mkDamaged {
  df_errors : Z;
  df_eio : bool;
  dmg_last_error : list Z;
  first_seen : Z;
  last_seen : Z;
  dmg_pieces : gset Z
}.

(** [DamageInner] and the two flags read without the lock. *)
Record DamageTracker := mkTracker {
  t_files : gmap Z DamagedFileState;
  piece_failures : gmap (Z * Z) Z;
  repair : option RepairStatus;
  piece_backoff : Backoff;
  file_backoff : Backoff;
  t_max_attempts : Z;
  disk_full : option DiskFullState;
  any_piece_backoff : bool;
  disk_full_flag : bool
}.

Definition DamageTracker_default : DamageTracker := mkTracker ∅ ∅ None ∅ ∅ 0 None false false.

Definition secs_until (t now : Z) : Z := if now <=? t then (t - now) / 1000000000 else 0.

Definition is_repair_running (t : DamageTracker) : bool :=
  bool_decide (rs_state <$> repair t = Some Running).

Definition record_failure (file_id : option Z) (piece : Z) (eio : bool) (error : list Z) (now : Z)
    (t : DamageTracker) : DamageTracker * (bool * Z) :=
  match file_id with
  | None => (t, (false, 0))
  | Some f =>
      let n := saturating_add 32 (default 0 (piece_failures t !! (f, piece))) 1 in
      let failures := <[(f, piece) := n]> (piece_failures t) in
      if negb eio then
        (mkTracker (t_files t) failures (repair t) (piece_backoff t) (file_backoff t) (t_max_attempts t)
           (disk_full t) (any_piece_backoff t) (disk_full_flag t), (false, n))
      else
        let newly := bool_decide (t_files t !! f = None) in
        let e := default (mkDamaged 0 false [] now now ∅) (t_files t !! f) in
        let e := mkDamaged (u64 (df_errors e + 1)) (df_eio e || eio) (take 400 error) (first_seen e) now
          (if (size (dmg_pieces e) <? 10000)%nat then {[ piece ]} ∪ dmg_pieces e else dmg_pieces e) in
        (mkTracker (<[f := e]> (t_files t)) failures (repair t) (piece_backoff t) (file_backoff t)
           (t_max_attempts t) (disk_full t) (any_piece_backoff t) (disk_full_flag t), (newly, n))
  end.

Definition piece_failed (piece : Z) (cfg : BackoffConfig) (error : list Z) (now : Z) (t : DamageTracker) :
    DamageTracker * (BackoffDecision * Z) :=
  let '(b, d) := backoff_record_failure piece now cfg (random_jitter now piece) error (piece_backoff t) in
  let n := default 0 (attempts <$> b !! piece) in
  (mkTracker (t_files t) (piece_failures t) (repair t) b (file_backoff t) (max_attempts cfg) (disk_full t)
     true (disk_full_flag t), (d, n)).

Definition piece_verified (piece : Z) (t : DamageTracker) : DamageTracker :=
  if negb (any_piece_backoff t) then t
  else
    let b := (record_success piece (piece_backoff t)).1 in
    mkTracker (t_files t) (filter (fun x => x.1.2 <> piece) (piece_failures t)) (repair t) b (file_backoff t)
      (t_max_attempts t) (disk_full t)
      (if bool_decide (b = ∅) then false else any_piece_backoff t) (disk_full_flag t).

Definition take_due_pieces (limit : nat) (now : Z) (t : DamageTracker) : DamageTracker * list Z :=
  if negb (any_piece_backoff t) then (t, [])
  else
    let '(out, b) := take_due now limit (piece_backoff t) in
    (mkTracker (t_files t) (piece_failures t) (repair t) b (file_backoff t) (t_max_attempts t) (disk_full t)
       (any_piece_backoff t) (disk_full_flag t), out).

(** The pieces of a [BTreeSet] in order. *)
Definition btree_elements (s : gset Z) : list Z := sort_by Z.leb (elements s).

Definition disk_full_pieces (t : DamageTracker) : gset Z :=
  match disk_full t with Some d => df_pieces d | None => ∅ end.

Definition held_back_pieces (t : DamageTracker) : list Z :=
  btree_elements (list_to_set (held_keys (piece_backoff t)) ∪ disk_full_pieces t).

Definition manual_reset (t : DamageTracker) : DamageTracker * list Z :=
  let '(fb, _) := reset_all (file_backoff t) in
  let '(pb, keys) := reset_all (piece_backoff t) in
  (mkTracker (t_files t) ∅ (repair t) pb fb (t_max_attempts t) None false false,
   btree_elements (list_to_set keys ∪ disk_full_pieces t)).

Definition piece_disk_full (piece : Z) (error : list Z) (now : Z) (t : DamageTracker) : DamageTracker * bool :=
  let newly := bool_decide (disk_full t = None) in
  let d := default (mkDiskFull now ∅ None 0 []) (disk_full t) in
  let d := mkDiskFull (since d) ({[ piece ]} ∪ df_pieces d) (df_space d) (resume_at_free_bytes d) (take 400 error) in
  (mkTracker (t_files t) (piece_failures t) (repair t) (piece_backoff t) (file_backoff t) (t_max_attempts t)
     (Some d) (any_piece_backoff t) true, newly).

Definition is_disk_full_waiting (t : DamageTracker) : bool := disk_full_flag t.

Definition set_disk_space (space : option DiskSpace) (resume_at : Z) (t : DamageTracker) : DamageTracker :=
  match disk_full t with
  | None => t
  | Some d =>
      mkTracker (t_files t) (piece_failures t) (repair t) (piece_backoff t) (file_backoff t) (t_max_attempts t)
        (Some (mkDiskFull (since d) (df_pieces d) space resume_at (df_last_error d)))
        (any_piece_backoff t) (disk_full_flag t)
  end.

Definition disk_full_resume_at (t : DamageTracker) : option Z := resume_at_free_bytes <$> disk_full t.
Definition disk_full_space (t : DamageTracker) : option DiskSpace := disk_full t ≫= df_space.

Definition clear_disk_full (t : DamageTracker) : DamageTracker * list Z :=
  (mkTracker (t_files t) (piece_failures t) (repair t) (piece_backoff t) (file_backoff t) (t_max_attempts t)
     None (any_piece_backoff t) false, btree_elements (disk_full_pieces t)).

(** ** Automatic and manual repairs *)

Definition with_file_backoff (b : Backoff) (t : DamageTracker) : DamageTracker :=
  mkTracker (t_files t) (piece_failures t) (repair t) (piece_backoff t) b (t_max_attempts t) (disk_full t)
    (any_piece_backoff t) (disk_full_flag t).

Definition with_repair (r : option RepairStatus) (t : DamageTracker) : DamageTracker :=
  mkTracker (t_files t) (piece_failures t) r (piece_backoff t) (file_backoff t) (t_max_attempts t) (disk_full t)
    (any_piece_backoff t) (disk_full_flag t).

Definition automatic_repair_attempted : list Z :=
  [97; 117; 116; 111; 109; 97; 116; 105; 99; 32; 114; 101; 112; 97; 105; 114; 32;
   97; 116; 116; 101; 109; 112; 116; 101; 100].

(** Record an attempt for each claimed file. *)
Definition record_attempts (now : Z) (cfg : BackoffConfig) (files : list Z) (b : Backoff) : Backoff :=
  foldl (fun b f =>
    (backoff_record_failure f now cfg (random_jitter now (Z.lxor f 0xF11E)) automatic_repair_attempted b).1)
    b files.

Definition claim_auto_repair_files (cfg : BackoffConfig) (now : Z) (t : DamageTracker) : DamageTracker * list Z :=
  let t := mkTracker (t_files t) (piece_failures t) (repair t) (piece_backoff t) (file_backoff t)
             (max_attempts cfg) (disk_full t) (any_piece_backoff t) (disk_full_flag t) in
  if is_repair_running t then (t, [])
  else
    let files := filter (fun f => allowed f now (file_backoff t) = true) (btree_keys (t_files t)) in
    (with_file_backoff (record_attempts now cfg files (file_backoff t)) t, files).

Definition auto_repair_given_up (files : list Z) (t : DamageTracker) : list Z :=
  filter (fun f => is_Some (t_files t !! f) /\ default false (gave_up <$> file_backoff t !! f) = true) files.

Definition auto_repair_due (now : Z) (t : DamageTracker) : bool :=
  if bool_decide (t_files t = ∅) || is_repair_running t then false
  else existsb (fun f => allowed f now (file_backoff t)) (btree_keys (t_files t)).

Definition mark_requeued (pieces : gset Z) (t : DamageTracker) : DamageTracker :=
  mkTracker (t_files t) (piece_failures t) (repair t)
    (map_imap (fun k e => Some (if decide (k ∈ pieces) then clear_pending e else e)) (piece_backoff t))
    (file_backoff t) (t_max_attempts t) (disk_full t) (any_piece_backoff t) (disk_full_flag t).

Definition file_found_clean (file_id : Z) (t : DamageTracker) : DamageTracker :=
  with_file_backoff (record_success file_id (file_backoff t)).1 t.

Definition damaged_file_ids (t : DamageTracker) : list Z := btree_keys (t_files t).

Definition has_damage (t : DamageTracker) : bool := negb (bool_decide (t_files t = ∅)).

Definition clear_after_repair (repaired : list Z) (t : DamageTracker) : DamageTracker :=
  mkTracker (foldl (fun m id => delete id m) (t_files t) repaired) ∅ (repair t) (piece_backoff t) (file_backoff t)
    (t_max_attempts t) (disk_full t) (any_piece_backoff t) (disk_full_flag t).

Definition try_begin (total_bytes files_total : Z) (auto : bool) (now : Z) (t : DamageTracker) :
    result anyhow DamageTracker :=
  if is_repair_running t then Err [CContext "a repair is already running for this torrent"]
  else Ok (with_repair
    (Some (mkStatus Running auto auto now None 0 total_bytes files_total 0 None None None)) t).

Definition set_waiting_for_slot (v : bool) (t : DamageTracker) : DamageTracker :=
  with_repair ((fun r => mkStatus (rs_state r) (auto r) v (started_at r) (finished_at r) (scanned_bytes r)
    (total_bytes r) (files_total r) (files_done r) (current_file r) (summary r) (rs_error r)) <$> repair t) t.

Definition set_progress (scanned files_done : Z) (cur : option path) (t : DamageTracker) : DamageTracker :=
  with_repair ((fun r => mkStatus (rs_state r) (auto r) (waiting_for_slot r) (started_at r) (finished_at r) scanned
    (total_bytes r) (files_total r) files_done (match cur with Some _ => cur | None => current_file r end)
    (summary r) (rs_error r)) <$> repair t) t.

Definition finish (res : result anyhow RepairSummary) (now : Z) (t : DamageTracker) : DamageTracker :=
  with_repair ((fun r =>
    match res with
    | Ok s =>
        let failed := (0 <? files_failed s)%nat in
        mkStatus (if failed then RFailed else Done) (auto r) (waiting_for_slot r) (started_at r) (Some now)
          (total_bytes r) (total_bytes r) (files_total r) (files_total r) None (Some s)
          (if failed then Some [CContext "file(s) could not be repaired"] else rs_error r)
    | Err e =>
        mkStatus RFailed (auto r) (waiting_for_slot r) (started_at r) (Some now) (scanned_bytes r)
          (total_bytes r) (files_total r) (files_done r) None (summary r) (Some e)
    end) <$> repair t) t.

(** ** The snapshot shown to the user

    The text of the disk-full message is left out. *)

Record DamagedFileStats := mkDamagedStats {
  ds_file_id : Z;
  ds_path : path;
  ds_errors : Z;
  ds_eio : bool;
  ds_last_error : list Z;
  ds_first_seen : Z;
  ds_last_seen : Z;
  pieces_failed : nat;
  auto_repair_attempts : Z;
  next_auto_repair_in_secs : option Z;
  ds_needs_attention : bool
}.

Record PieceBackoffStats := mkPieceStats {
  ps_piece : Z;
  ps_attempts : Z;
  ps_next_retry_in_secs : option Z;
  ps_needs_attention : bool;
  ps_last_error : list Z
}.

Record RecoveryStats := mkRecovery {
  rc_max_attempts : Z;
  pieces_waiting : nat;
  pieces_needing_attention : nat;
  max_piece_attempts : Z;
  next_retry_in_secs : option Z;
  rc_pieces : list PieceBackoffStats
}.

Record DiskFullStats := mkDiskFullStats {
  fs_since : Z;
  fs_pieces_waiting : nat;
  fs_space : option DiskSpace;
  fs_resume_at : Z;
  fs_last_error : list Z
}.

Record DamageStats := mkStats {
  damaged_files : list DamagedFileStats;
  st_repair : option RepairStatus;
  recovery : option RecoveryStats;
  needs_attention : bool;
  st_disk_full : option DiskFullStats
}.

(** The entries of a [BTreeMap] in the order of the keys. *)
Definition btree_iter {A} (m : gmap Z A) : list (Z * A) :=
  omap (fun k => pair k <$> m !! k) (btree_keys m).

Definition list_min (l : list Z) : option Z :=
  match l with [] => None | x :: l => Some (foldl Z.min x l) end.

Definition list_max (l : list Z) : option Z :=
  match l with [] => None | x :: l => Some (foldl Z.max x l) end.

Definition retry_in (now : Z) (e : BackoffEntry) : option Z :=
  if negb (gave_up e) && pending_requeue e then Some (secs_until (next_allowed e) now) else None.

Definition snapshot (file_name : Z -> path) (now : Z) (t : DamageTracker) : option DamageStats :=
  let affected := filter (fun x => 0 < attempts x.2) (btree_iter (piece_backoff t)) in
  if bool_decide (t_files t = ∅ /\ ~ is_Some (repair t) /\ affected = [] /\ ~ is_Some (disk_full t)) then None
  else
    let recovery :=
      match affected with
      | [] => None
      | _ => Some (mkRecovery (t_max_attempts t)
          (length (filter (fun x => gave_up x.2 = false) affected))
          (length (filter (fun x => gave_up x.2 = true) affected))
          (default 0 (list_max ((fun x => attempts x.2) <$> affected)))
          (list_min (omap (fun x => retry_in now x.2) affected))
          ((fun x => mkPieceStats x.1 (attempts x.2) (retry_in now x.2) (gave_up x.2) (last_error x.2)) <$>
             take 20 affected))
      end in
    let damaged_files :=
      (fun x =>
        let fb := file_backoff t !! x.1 in
        mkDamagedStats x.1 (file_name x.1) (df_errors x.2) (df_eio x.2) (dmg_last_error x.2) (first_seen x.2)
          (last_seen x.2) (size (dmg_pieces x.2)) (default 0 (attempts <$> fb))
          (fb ≫= fun e => if gave_up e then None else Some (secs_until (next_allowed e) now))
          (default false (gave_up <$> fb))) <$> btree_iter (t_files t) in
    let needs_attention :=
      existsb ds_needs_attention damaged_files ||
      default false ((fun r => (0 <? pieces_needing_attention r)%nat) <$> recovery) in
    let disk_full :=
      (fun d => mkDiskFullStats (since d) (size (df_pieces d)) (df_space d) (resume_at_free_bytes d)
        (df_last_error d)) <$> disk_full t in
    Some (mkStats damaged_files (repair t) recovery needs_attention disk_full).

(** Free space needed before a waiting torrent resumes ([disk_space::resume_threshold]). *)
Definition resume_threshold (remaining_bytes piece_len : Z) : Z :=
  Z.max (Z.min (saturating_add 64 remaining_bytes piece_len) (Z.shiftl 1 30)) (saturating_mul 64 piece_len 2).
End Delays.

(** ** Walking the entries *)

Lemma btree_elements_elem s x : x ∈ btree_elements s <-> x ∈ s.
Proof. unfold btree_elements. rewrite sort_by_perm. apply elem_of_elements. Qed.

Lemma btree_keys_elem {A} (m : gmap Z A) k : k ∈ btree_keys m <-> is_Some (m !! k).
Proof. unfold btree_keys. rewrite sort_by_perm, elem_of_elements. apply elem_of_dom. Qed.

Lemma btree_keys_NoDup {A} (m : gmap Z A) : NoDup (btree_keys m).
Proof. unfold btree_keys. rewrite sort_by_perm. apply NoDup_elements. Qed.

Lemma btree_keys_empty {A} (m : gmap Z A) : m = ∅ -> btree_keys m = [].
Proof. by intros ->. Qed.

(** A pass over duplicate-free keys releases at most [limit] due entries, clears
    exactly their flag, and leaves no due entry behind when the limit is not
    reached. *)
Lemma take_due_keys_spec now limit keys out b :
  NoDup (out ++ keys) -> (length out <= limit)%nat ->
  let '(out', b') := take_due_keys now limit keys out b in
  (length out' <= limit)%nat /\ NoDup out' /\
  (forall k, k ∈ out' <-> k ∈ out \/ (k ∈ keys /\ k ∈ out')) /\
  (forall k, k ∈ out' -> k ∈ out \/ exists e, b !! k = Some e /\ is_due now e = true) /\
  (forall k, k ∈ out -> b' !! k = b !! k) /\
  (forall k, k ∉ out -> b' !! k = if decide (k ∈ out') then clear_pending <$> b !! k else b !! k) /\
  ((length out' < limit)%nat -> forall k e, k ∈ keys -> b !! k = Some e -> is_due now e = true -> k ∈ out').
Proof.
  revert out b. induction keys as [|k keys IH]; intros out b Hnd Hlen; cbn [take_due_keys].
  { rewrite app_nil_r in Hnd. split_and!; try done; try set_solver.
    intros k Hk. by rewrite decide_False. }
  assert (Hk : k ∉ out).
  { intros Hk. apply NoDup_app in Hnd as (_ & Hd & _). apply (Hd k Hk). left. }
  assert (Hnd' : NoDup (out ++ keys)).
  { apply NoDup_app in Hnd as (? & Hd & [? ?]%NoDup_cons). apply NoDup_app. split_and!; [done| |done]. set_solver. }
  destruct (Nat.leb_spec limit (length out)) as [Hl|Hl].
  { split_and!; try done; try lia; [by apply NoDup_app in Hnd' as (? & _)|set_solver..|].
    intros q Hq. by rewrite decide_False. }
  destruct (b !! k) as [e|] eqn:Eb; [destruct (is_due now e) eqn:Ed|].
  - assert (Hnd2 : NoDup ((out ++ [k]) ++ keys)) by (by rewrite <- app_assoc).
    specialize (IH (out ++ [k]) (<[k := clear_pending e]> b) Hnd2 ltac:(rewrite length_app; simpl; lia)).
    destruct (take_due_keys _ _ _ _ _) as [out' b']. destruct IH as (I1 & I2 & I3 & I4 & I5 & I6 & I7).
    assert (Hkk : k ∉ keys) by (apply NoDup_app in Hnd as (_ & _ & [? ?]%NoDup_cons); done).
    assert (Hk' : k ∈ out') by (apply I3; set_solver).
    split; [done|]. split; [done|]. split; [|split; [|split; [|split]]].
    + intros q. specialize (I3 q). set_solver.
    + intros q Hq. destruct (decide (q = k)) as [->|Hne]; [right; by exists e|].
      destruct (I4 q Hq) as [?|(e' & He' & ?)]; [set_solver|]. rewrite lookup_insert_ne in He' by done.
      right. by exists e'.
    + intros q Hq. rewrite I5 by set_solver. apply lookup_insert_ne. set_solver.
    + intros q Hq. destruct (decide (q = k)) as [->|Hne].
      * rewrite I5 by set_solver. by rewrite decide_True, lookup_insert_eq, Eb by done.
      * rewrite I6 by set_solver. by rewrite !lookup_insert_ne by done.
    + intros Hlt q e' Hq Hqe Hdue. destruct (decide (q = k)) as [->|Hne]; [done|].
      apply (I7 Hlt q e'); [set_solver| |done]. by rewrite lookup_insert_ne.
  - specialize (IH out b Hnd' Hlen). destruct (take_due_keys _ _ _ _ _) as [out' b'].
    destruct IH as (I1 & I2 & I3 & I4 & I5 & I6 & I7). split_and!; try done.
    + intros q. specialize (I3 q). set_solver.
    + intros Hlt q e' Hq Hqe Hdue. apply elem_of_cons in Hq as [->|Hq]; [congruence|]. by eapply I7.
  - specialize (IH out b Hnd' Hlen). destruct (take_due_keys _ _ _ _ _) as [out' b'].
    destruct IH as (I1 & I2 & I3 & I4 & I5 & I6 & I7). split_and!; try done.
    + intros q. specialize (I3 q). set_solver.
    + intros Hlt q e' Hq Hqe Hdue. apply elem_of_cons in Hq as [->|Hq]; [congruence|]. by eapply I7.
Qed.

Lemma take_due_spec now limit b :
  let '(out, b') := take_due now limit b in
  (length out <= limit)%nat /\ NoDup out /\
  (forall k, k ∈ out -> exists e, b !! k = Some e /\ is_due now e = true) /\
  (forall k, b' !! k = if decide (k ∈ out) then clear_pending <$> b !! k else b !! k) /\
  ((length out < limit)%nat -> forall k e, b !! k = Some e -> is_due now e = true -> k ∈ out).
Proof.
  unfold take_due.
  pose proof (take_due_keys_spec now limit (btree_keys b) [] b (btree_keys_NoDup b) ltac:(simpl; lia)) as Hs.
  destruct (take_due_keys _ _ _ _ _) as [out b']. destruct Hs as (H1 & H2 & _ & H4 & _ & H6 & H7).
  split_and!; try done.
  - intros k Hk. destruct (H4 k Hk) as [?%not_elem_of_nil|?]; done.
  - intros k. apply H6. apply not_elem_of_nil.
  - intros Hlt k e He Hd. apply (H7 Hlt k e); [|done..]. apply btree_keys_elem. by rewrite He.
Qed.

Lemma held_keys_elem b k : k ∈ held_keys b <-> exists e, b !! k = Some e /\ is_held e = true.
Proof.
  unfold held_keys. rewrite list_elem_of_filter, btree_keys_elem. split.
  - intros [Hh [e He]]. rewrite He in Hh. by exists e.
  - intros (e & He & Hh). by rewrite He.
Qed.

(** ** Runs of the tracker *)

Inductive tracker_op :=
| ORecordFailure (file_id : option Z) (piece : Z) (eio : bool) (error : list Z) (now : Z)
| OPieceFailed (piece : Z) (cfg : BackoffConfig) (error : list Z) (now : Z)
| OPieceVerified (piece : Z)
| OTakeDue (limit : nat) (now : Z)
| OManualReset
| OPieceDiskFull (piece : Z) (error : list Z) (now : Z)
| OSetDiskSpace (space : option DiskSpace) (resume_at : Z)
| OClearDiskFull
| OClaim (cfg : BackoffConfig) (now : Z)
| OMarkRequeued (pieces : gset Z)
| OFileFoundClean (file_id : Z)
| OClearAfterRepair (repaired : list Z)
| OTryBegin (total files : Z) (auto : bool) (now : Z)
| OSetWaiting (v : bool)
| OSetProgress (scanned files_done : Z) (cur : option path)
| OFinish (res : result anyhow RepairSummary) (now : Z).

Section Runs.
Context {f64 : Type} (delay : BackoffConfig -> Z -> f64 -> Z) (to_jitter : Z -> f64).

(** One call: the new state, the pieces it hands back for the queue, and the files
    it claims for an automatic repair. *)
Definition tracker_step (o : tracker_op) (t : DamageTracker) : DamageTracker * list Z * list Z :=
  match o with
  | ORecordFailure f p eio err now => ((record_failure f p eio err now t).1, [], [])
  | OPieceFailed p cfg err now => ((piece_failed delay to_jitter p cfg err now t).1, [], [])
  | OPieceVerified p => (piece_verified p t, [], [])
  | OTakeDue limit now => (take_due_pieces limit now t, [])
  | OManualReset => (manual_reset t, [])
  | OPieceDiskFull p err now => ((piece_disk_full p err now t).1, [], [])
  | OSetDiskSpace sp at_ => (set_disk_space sp at_ t, [], [])
  | OClearDiskFull => (clear_disk_full t, [])
  | OClaim cfg now => let '(t, fs) := claim_auto_repair_files delay to_jitter cfg now t in (t, [], fs)
  | OMarkRequeued ps => (mark_requeued ps t, [], [])
  | OFileFoundClean f => (file_found_clean f t, [], [])
  | OClearAfterRepair fs => (clear_after_repair fs t, [], [])
  | OTryBegin total n a now => (match try_begin total n a now t with Ok t => t | Err _ => t end, [], [])
  | OSetWaiting v => (set_waiting_for_slot v t, [], [])
  | OSetProgress a b c => (set_progress a b c t, [], [])
  | OFinish r now => (finish r now t, [], [])
  end.

(** A run: the calls in order, with what each of them handed out. *)
Fixpoint tracker_run (ops : list tracker_op) (t : DamageTracker) :
    DamageTracker * list (tracker_op * list Z * list Z) :=
  match ops with
  | [] => (t, [])
  | o :: ops =>
      let '(t, out, fs) := tracker_step o t in
      let '(t, log) := tracker_run ops t in
      (t, (o, out, fs) :: log)
  end.

(** The flags that are read without the lock say what the locked state says. *)
Definition tracker_inv (t : DamageTracker) : Prop :=
  (any_piece_backoff t = true <-> piece_backoff t <> ∅) /\
  (disk_full_flag t = true <-> is_Some (disk_full t)).

Lemma backoff_record_failure_lookup key now cfg j err b :
  exists e, (backoff_record_failure delay key now cfg j err b).1 = <[key := e]> b /\
    pending_requeue e = true /\
    attempts e = saturating_add 32 (default 0 (attempts <$> b !! key)) 1 /\
    gave_up e = (Z.max (max_attempts cfg) 1 <=? attempts e) || default false (gave_up <$> b !! key).
Proof.
  unfold backoff_record_failure. destruct (b !! key) as [e|] eqn:Eb; cbn [default attempts gave_up fmap option_fmap option_map];
  match goal with |- context [Z.max ?m 1 <=? ?n] => destruct (Z.max m 1 <=? n) eqn:E end;
  (eexists; split; [done|]; split; [done|]; split; [done|]; cbn [gave_up attempts]; by rewrite E).
Qed.

(** Every call keeps the flags in agreement with the state. *)
Lemma tracker_step_inv o t : tracker_inv t -> tracker_inv (tracker_step o t).1.1.
Proof.
  intros [Hp Hd]. destruct o; simpl; try done.
  - (* record_failure *)
    unfold record_failure. destruct file_id; [|done]. by destruct (negb eio).
  - (* piece_failed *)
    unfold piece_failed.
    destruct (backoff_record_failure_lookup piece now cfg (random_jitter to_jitter now piece) error (piece_backoff t)) as (e & He & _).
    destruct (backoff_record_failure _ _ _ _ _ _ _) as [b d]. simpl in *. subst b.
    split; [|done]. simpl. split; [|done]. intros _. apply insert_non_empty.
  - unfold piece_verified. destruct (any_piece_backoff t) eqn:Ea; simpl; [|by split; rewrite ?Ea].
    split; [|done]. simpl. case_bool_decide as Hb; simpl; rewrite ?Ea; naive_solver.
  - unfold take_due_pieces. destruct (any_piece_backoff t) eqn:Ea; simpl; [|by split; rewrite ?Ea].
    pose proof (take_due_spec now limit (piece_backoff t)) as Ht.
    destruct (take_due _ _ _) as [out b]. destruct Ht as (_ & _ & _ & Hl & _).
    split; [|done]. simpl. split; [|done]. intros _ ->.
    assert (Hne : piece_backoff t <> ∅) by (by apply Hp). apply Hne. apply map_eq. intros k.
    specialize (Hl k). rewrite lookup_empty in *. destruct (decide (k ∈ out)); [|done].
    by destruct (piece_backoff t !! k).
  - (* manual_reset *) split; simpl; split; try done; by intros [? ?].
  - unfold set_disk_space. destruct (disk_full t) eqn:Ed; [|by split; rewrite ?Ed].
    split; [exact Hp|]. simpl. split; [done|]. intros _. by apply Hd.
  - split; [exact Hp|]. simpl. split; [done|by intros [? ?]].
  - unfold claim_auto_repair_files. by destruct (is_repair_running _).
  - (* mark_requeued *)
    split; [|done]. simpl. rewrite Hp. split; intros Hne Hz; apply Hne.
    + apply map_eq. intros k. apply (f_equal (.!! k)) in Hz. rewrite map_lookup_imap, lookup_empty in *.
      by destruct (piece_backoff t !! k).
    + rewrite Hz. apply map_eq. intros k. by rewrite map_lookup_imap, lookup_empty.
  - unfold try_begin. by destruct (is_repair_running t).
Qed.

(** ** Held-back pieces *)

Definition piece_held (t : DamageTracker) (p : Z) : Prop :=
  (exists e, piece_backoff t !! p = Some e /\ is_held e = true) \/ p ∈ disk_full_pieces t.

Lemma held_back_elem t p : p ∈ held_back_pieces t <-> piece_held t p.
Proof.
  unfold held_back_pieces. rewrite btree_elements_elem, elem_of_union, elem_of_list_to_set.
  by rewrite held_keys_elem.
Qed.

(** The call [o], which handed out [out], settles piece [p]: it gives it back to the
    queue, found it verified, or was told that it is queued. *)
Definition settles (o : tracker_op) (out : list Z) (p : Z) : Prop :=
  p ∈ out \/ o = OPieceVerified p \/ exists ps, o = OMarkRequeued ps /\ p ∈ ps.

(** The call [o] reports that piece [p] could not be written. *)
Definition fails_piece (o : tracker_op) (p : Z) : Prop :=
  (exists cfg err now, o = OPieceFailed p cfg err now) \/ exists err now, o = OPieceDiskFull p err now.

Lemma piece_failed_backoff p cfg err now t :
  exists e, piece_backoff (piece_failed delay to_jitter p cfg err now t).1 = <[p := e]> (piece_backoff t) /\
    pending_requeue e = true /\
    attempts e = saturating_add 32 (default 0 (attempts <$> piece_backoff t !! p)) 1 /\
    gave_up e = (Z.max (max_attempts cfg) 1 <=? attempts e) || default false (gave_up <$> piece_backoff t !! p).
Proof.
  destruct (backoff_record_failure_lookup p now cfg (random_jitter to_jitter now p) err (piece_backoff t))
    as (e & He & Hrest).
  exists e. split; [|done]. unfold piece_failed.
  by destruct (backoff_record_failure _ _ _ _ _ _ _) as [b d]; simpl in *.
Qed.

Lemma take_due_pieces_backoff limit now t :
  let '(t', out) := take_due_pieces limit now t in
  (forall k, k ∈ out -> exists e, piece_backoff t !! k = Some e /\ is_due now e = true) /\
  (forall k, piece_backoff t' !! k =
     if decide (k ∈ out) then clear_pending <$> piece_backoff t !! k else piece_backoff t !! k) /\
  disk_full t' = disk_full t /\ file_backoff t' = file_backoff t.
Proof.
  unfold take_due_pieces. destruct (any_piece_backoff t); cbn [negb].
  - pose proof (take_due_spec now limit (piece_backoff t)) as Ht.
    destruct (take_due _ _ _) as [out b]. by destruct Ht as (_ & _ & H1 & H2 & _).
  - split; [by intros k ?%not_elem_of_nil|]. split; [|done]. intros k.
    by rewrite decide_False by apply not_elem_of_nil.
Qed.

(** A piece that fails is held. *)
Lemma fails_piece_held o t p : fails_piece o p -> piece_held (tracker_step o t).1.1 p.
Proof.
  unfold piece_held. intros [(cfg & err & now & ->)|(err & now & ->)]; cbn [tracker_step fst].
  - left. destruct (piece_failed_backoff p cfg err now t) as (e & -> & He & _).
    exists e. rewrite lookup_insert_eq. unfold is_held. by rewrite He.
  - right. unfold disk_full_pieces. simpl. set_solver.
Qed.

(** A held piece stays held until a call settles it. *)
Lemma tracker_step_held o t p :
  piece_held t p ->
  let '(t', out, _) := tracker_step o t in piece_held t' p \/ settles o out p.
Proof.
  unfold settles, piece_held. intros Hh. destruct o; cbn [tracker_step]; try (by left).
  - left. unfold record_failure. destruct file_id; [|exact Hh]. destruct (negb eio); exact Hh.
  - left. destruct (piece_failed_backoff piece cfg error now t) as (e & Hb & He & _).
    destruct Hh as [(e' & He' & Hh)|Hh]; [left|right; unfold piece_failed; by destruct (backoff_record_failure _ _ _ _ _ _ _)].
    rewrite Hb. destruct (decide (piece = p)) as [->|Hne].
    + exists e. rewrite lookup_insert_eq. unfold is_held. by rewrite He.
    + exists e'. by rewrite lookup_insert_ne.
  - destruct (decide (piece = p)) as [->|Hne]; [by right; right; left|left].
    unfold piece_verified. destruct (negb _); [done|]. destruct Hh as [(e' & He' & Hh)|Hh]; [left|by right].
    exists e'. cbn. by rewrite lookup_delete_ne.
  - pose proof (take_due_pieces_backoff limit now t) as Ht. destruct (take_due_pieces _ _ _) as [t' out].
    destruct Ht as (_ & Hb & Hd & _). destruct (decide (p ∈ out)) as [Hin|Hin]; [by right; left|left].
    unfold disk_full_pieces in *. rewrite Hd. destruct Hh as [(e' & He' & Hh)|Hh]; [left|by right].
    exists e'. by rewrite Hb, decide_False.
  - right. left. unfold manual_reset. simpl. apply btree_elements_elem, elem_of_union.
    rewrite elem_of_list_to_set, held_keys_elem. done.
  - left. destruct Hh as [Hh|Hh]; [by left|right]. unfold disk_full_pieces in *. simpl. destruct (disk_full t); set_solver.
  - left. unfold set_disk_space, disk_full_pieces in *. by destruct (disk_full t) eqn:Ed; rewrite ?Ed.
  - destruct Hh as [Hh|Hh]; [by left; left|right; left]. unfold clear_disk_full. cbn. by apply btree_elements_elem.
  - unfold claim_auto_repair_files. destruct (is_repair_running _); by left.
  - destruct Hh as [(e' & He' & Hh)|Hh]; [|by left; right].
    destruct (decide (p ∈ pieces)) as [Hin|Hin]; [right; right; right; by exists pieces|].
    left. left. exists e'. split; [|done]. cbn [mark_requeued piece_backoff]. rewrite map_lookup_imap, He'. cbn [mbind option_bind]. by rewrite decide_False.
  - left. unfold try_begin. by destruct (is_repair_running t).
Qed.

Lemma tracker_run_held ops t p :
  piece_held t p ->
  let '(t', log) := tracker_run ops t in
  piece_held t' p \/ exists x, x ∈ log /\ settles x.1.1 x.1.2 p.
Proof.
  revert t. induction ops as [|o ops IH]; intros t Hh; cbn [tracker_run]; [by left|].
  pose proof (tracker_step_held o t p Hh) as Hs. destruct (tracker_step o t) as [[t1 out] fs].
  destruct Hs as [Hs|Hs].
  - specialize (IH t1 Hs). destruct (tracker_run ops t1) as [t' log].
    destruct IH as [?|(x & Hx & Hxs)]; [by left|]. right. exists x. by split; [right|].
  - destruct (tracker_run ops t1) as [t' log]. right. exists (o, out, fs). by split; [left|].
Qed.

(** ** Bounded retries *)

(** How often a run puts piece [p] back into the queue by itself, and how often it
    claims file [f] for an automatic repair. *)
Definition is_take_due (o : tracker_op) : bool := match o with OTakeDue _ _ => true | _ => false end.

Fixpoint releases (p : Z) (log : list (tracker_op * list Z * list Z)) : Z :=
  match log with
  | [] => 0
  | (o, out, _) :: log => (if is_take_due o && bool_decide (p ∈ out) then 1 else 0) + releases p log
  end.

Fixpoint claims (f : Z) (log : list (tracker_op * list Z * list Z)) : Z :=
  match log with
  | [] => 0
  | (_, _, fs) :: log => (if bool_decide (f ∈ fs) then 1 else 0) + claims f log
  end.

(** The call uses the settings [cfg]. *)
Definition uses_cfg (cfg : BackoffConfig) (o : tracker_op) : Prop :=
  match o with OPieceFailed _ c _ _ | OClaim c _ => c = cfg | _ => True end.

Definition limit_of (cfg : BackoffConfig) : Z := Z.max (max_attempts cfg) 1.

(** After [n] releases of [p]: each one was preceded by a failure that is counted,
    and none follows giving up. *)
Definition piece_bounded (cfg : BackoffConfig) (p n : Z) (b : Backoff) : Prop :=
  match b !! p with
  | None => n = 0
  | Some e =>
      if gave_up e then n <= limit_of cfg - 1
      else attempts e < limit_of cfg /\ n + (if pending_requeue e then 1 else 0) <= attempts e
  end.

Lemma saturating_add_small n m : 0 <= n < m -> m < 2 ^ 32 -> saturating_add 32 n 1 = n + 1.
Proof. intros ? ?. unfold saturating_add. lia. Qed.

Lemma piece_bounded_fail cfg p n b e :
  is_u32 (max_attempts cfg) -> 0 <= n ->
  piece_bounded cfg p n b ->
  pending_requeue e = true ->
  attempts e = saturating_add 32 (default 0 (attempts <$> b !! p)) 1 ->
  gave_up e = (limit_of cfg <=? attempts e) || default false (gave_up <$> b !! p) ->
  piece_bounded cfg p n (<[p := e]> b).
Proof.
  intros [? Hmax] Hn Hb Hp Ha Hg. unfold piece_bounded in *. rewrite lookup_insert_eq, Hg, Hp.
  unfold limit_of in *. destruct (b !! p) as [e0|]; simpl in *.
  - destruct (gave_up e0); [by rewrite orb_true_r|]. rewrite orb_false_r.
    assert (0 <= attempts e0) by (destruct (pending_requeue e0); lia).
    rewrite (saturating_add_small _ (Z.max (max_attempts cfg) 1)) in Ha by lia.
    rewrite Ha. destruct (Z.leb_spec (Z.max (max_attempts cfg) 1) (attempts e0 + 1)); destruct (pending_requeue e0); lia.
  - rewrite (saturating_add_small _ 1) in Ha by lia. rewrite Ha.
    rewrite orb_false_r. destruct (Z.leb_spec (Z.max (max_attempts cfg) 1) (0 + 1)); lia.
Qed.

Lemma piece_bounded_ext cfg p n b b' : b !! p = b' !! p -> piece_bounded cfg p n b -> piece_bounded cfg p n b'.
Proof. unfold piece_bounded. by intros ->. Qed.

Lemma piece_bounded_step cfg p n o t :
  is_u32 (max_attempts cfg) -> 0 <= n -> uses_cfg cfg o -> o <> OManualReset -> o <> OPieceVerified p ->
  piece_bounded cfg p n (piece_backoff t) ->
  let '(t', out, _) := tracker_step o t in
  piece_bounded cfg p (n + (if is_take_due o && bool_decide (p ∈ out) then 1 else 0)) (piece_backoff t').
Proof.
  intros Hcfg Hn Huse Ho1 Ho2 Hb.
  destruct o; cbn [tracker_step is_take_due andb uses_cfg] in *; rewrite ?Z.add_0_r; try exact Hb; try done.
  - unfold record_failure. destruct file_id; [|exact Hb]. destruct (negb eio); exact Hb.
  - subst cfg0. destruct (piece_failed_backoff piece cfg error now t) as (e & -> & H1 & H2 & H3).
    destruct (decide (piece = p)) as [->|Hne]; [by eapply piece_bounded_fail|].
    eapply piece_bounded_ext; [|exact Hb]. by rewrite lookup_insert_ne.
  - unfold piece_verified. destruct (negb _); [exact Hb|]. eapply piece_bounded_ext; [|exact Hb].
    cbn. by rewrite lookup_delete_ne by congruence.
  - pose proof (take_due_pieces_backoff limit now t) as Ht. destruct (take_due_pieces _ _ _) as [t' out].
    destruct Ht as (Hdue & Hl & _). unfold piece_bounded. rewrite Hl. case_bool_decide as Hin.
    + rewrite decide_True by done. destruct (Hdue p Hin) as (e & He & Hd). unfold piece_bounded in Hb.
      rewrite He in *. cbn. apply andb_true_iff in Hd as [[Hd1 Hd2]%andb_true_iff _].
      destruct (gave_up e); [done|]. rewrite Hd1 in Hb. lia.
    + rewrite decide_False, Z.add_0_r by done. exact Hb.
  - unfold set_disk_space. destruct (disk_full t); exact Hb.
  - unfold claim_auto_repair_files. destruct (is_repair_running _); rewrite ?Z.add_0_r; exact Hb.
  - unfold piece_bounded in *. cbn [mark_requeued piece_backoff]. rewrite map_lookup_imap.
    destruct (piece_backoff t !! p) as [e|]; cbn [mbind option_bind]; [|done].
    destruct (decide (p ∈ pieces)); [|done]. cbn. destruct (gave_up e), (pending_requeue e); lia.
  - unfold try_begin. destruct (is_repair_running t); exact Hb.
Qed.

Lemma releases_bounded cfg p n ops t :
  is_u32 (max_attempts cfg) -> 0 <= n ->
  Forall (uses_cfg cfg) ops -> OManualReset ∉ ops -> OPieceVerified p ∉ ops ->
  piece_bounded cfg p n (piece_backoff t) ->
  n + releases p (tracker_run ops t).2 < limit_of cfg.
Proof.
  intros Hcfg. revert n t. induction ops as [|o ops IH]; intros n t Hn Hu H1 H2 Hb; cbn [tracker_run].
  - simpl. unfold piece_bounded, limit_of in *. destruct (piece_backoff t !! p) as [e|]; [|lia].
    destruct (gave_up e); [lia|]. destruct (pending_requeue e); lia.
  - apply Forall_cons_1 in Hu as [Hu1 Hu2]. apply not_elem_of_cons in H1 as [H1 H1'], H2 as [H2 H2'].
    pose proof (piece_bounded_step cfg p n o t Hcfg Hn Hu1 ltac:(congruence) ltac:(congruence) Hb) as Hs.
    destruct (tracker_step o t) as [[t1 out] fs].
    set (d := if is_take_due o && bool_decide (p ∈ out) then 1 else 0) in *.
    assert (0 <= d) by (unfold d; by destruct (is_take_due o && bool_decide (p ∈ out))).
    specialize (IH (n + d) t1 ltac:(lia) Hu2 H1' H2' Hs).
    destruct (tracker_run ops t1) as [t' log]. cbn [snd releases] in *. fold d. lia.
Qed.

(** The same for files: every claim is a counted attempt. *)
Definition file_bounded (cfg : BackoffConfig) (f n : Z) (b : Backoff) : Prop :=
  match b !! f with
  | None => n = 0
  | Some e => if gave_up e then n <= limit_of cfg else attempts e < limit_of cfg /\ n <= attempts e
  end.

Lemma record_attempts_other now cfg files b f :
  f ∉ files -> record_attempts delay to_jitter now cfg files b !! f = b !! f.
Proof.
  unfold record_attempts. revert b. induction files as [|g files IH]; intros b Hf; [done|].
  apply not_elem_of_cons in Hf as [Hne Hf]. cbn [foldl]. rewrite IH by done.
  destruct (backoff_record_failure_lookup g now cfg (random_jitter to_jitter now (Z.lxor g 0xF11E))
    automatic_repair_attempted b) as (e & -> & _). by rewrite lookup_insert_ne.
Qed.

Lemma record_attempts_lookup now cfg files b f :
  NoDup files -> f ∈ files ->
  exists e, record_attempts delay to_jitter now cfg files b !! f = Some e /\
    attempts e = saturating_add 32 (default 0 (attempts <$> b !! f)) 1 /\
    gave_up e = (limit_of cfg <=? attempts e) || default false (gave_up <$> b !! f).
Proof.
  unfold record_attempts. revert b. induction files as [|g files IH]; intros b Hnd Hf; [by apply not_elem_of_nil in Hf|].
  apply NoDup_cons in Hnd as [Hg Hnd]. cbn [foldl].
  destruct (backoff_record_failure_lookup g now cfg (random_jitter to_jitter now (Z.lxor g 0xF11E))
    automatic_repair_attempted b) as (e & -> & _ & H1 & H2).
  apply elem_of_cons in Hf as [->|Hf].
  - exists e. split; [|done]. fold (record_attempts delay to_jitter now cfg files (<[g := e]> b)).
    by rewrite record_attempts_other, lookup_insert_eq by done.
  - destruct (IH (<[g := e]> b) Hnd Hf) as (e' & He' & Hr). exists e'. split; [done|].
    rewrite lookup_insert_ne in Hr by (intros ->; done). done.
Qed.

Lemma file_bounded_step cfg f n o t :
  is_u32 (max_attempts cfg) -> 0 <= n -> uses_cfg cfg o -> o <> OManualReset -> o <> OFileFoundClean f ->
  file_bounded cfg f n (file_backoff t) ->
  let '(t', _, fs) := tracker_step o t in
  file_bounded cfg f (n + (if bool_decide (f ∈ fs) then 1 else 0)) (file_backoff t').
Proof.
  intros Hcfg Hn Huse Ho1 Ho2 Hb.
  assert (Hnil : (if bool_decide (f ∈ @nil Z) then 1 else 0) = 0) by (by rewrite bool_decide_eq_false_2 by apply not_elem_of_nil).
  destruct o; cbn [tracker_step uses_cfg] in *; rewrite ?Hnil, ?Z.add_0_r; try exact Hb; try done.
  - unfold record_failure. destruct file_id; [|exact Hb]. destruct (negb eio); exact Hb.
  - unfold piece_failed. destruct (backoff_record_failure _ _ _ _ _ _ _) as [b d]. exact Hb.
  - unfold piece_verified. destruct (negb _); exact Hb.
  - pose proof (take_due_pieces_backoff limit now t) as Ht. destruct (take_due_pieces _ _ _) as [t' out].
    destruct Ht as (_ & _ & _ & ->). exact Hb.
  - unfold set_disk_space. destruct (disk_full t); exact Hb.
  - subst cfg0. unfold claim_auto_repair_files. destruct (is_repair_running _); cbn [t_files file_backoff with_file_backoff].
    { rewrite ?Hnil, ?Z.add_0_r. exact Hb. }
    set (files := filter _ _). assert (Hnd : NoDup files) by apply NoDup_filter, btree_keys_NoDup.
    clear Hnil. unfold file_bounded. case_bool_decide as Hin.
    + destruct (record_attempts_lookup now cfg files (file_backoff t) f Hnd Hin) as (e & -> & H1 & H2).
      apply list_elem_of_filter in Hin as [Hal _]. unfold allowed in Hal. unfold file_bounded in Hb.
      unfold limit_of in *. destruct Hcfg as [? Hmax].
      destruct (file_backoff t !! f) as [e0|]; simpl in *.
      * destruct (gave_up e0); [done|]. rewrite (saturating_add_small _ (Z.max (max_attempts cfg) 1)) in H1 by lia.
        rewrite orb_false_r in H2. rewrite H2, H1.
        destruct (Z.leb_spec (Z.max (max_attempts cfg) 1) (attempts e0 + 1)); lia.
      * rewrite (saturating_add_small _ 1) in H1 by lia. rewrite orb_false_r in H2. rewrite H2, H1.
        destruct (Z.leb_spec (Z.max (max_attempts cfg) 1) (0 + 1)); lia.
    + rewrite record_attempts_other, Z.add_0_r by done. exact Hb.
  - cbn. unfold file_bounded in *. by rewrite lookup_delete_ne by congruence.
  - unfold try_begin. destruct (is_repair_running t); exact Hb.
Qed.

Lemma claims_bounded cfg f n ops t :
  is_u32 (max_attempts cfg) -> 0 <= n ->
  Forall (uses_cfg cfg) ops -> OManualReset ∉ ops -> OFileFoundClean f ∉ ops ->
  file_bounded cfg f n (file_backoff t) ->
  n + claims f (tracker_run ops t).2 <= limit_of cfg.
Proof.
  intros Hcfg. revert n t. induction ops as [|o ops IH]; intros n t Hn Hu H1 H2 Hb; cbn [tracker_run].
  - simpl. unfold file_bounded, limit_of in *. destruct (file_backoff t !! f) as [e|]; [|lia].
    destruct (gave_up e); lia.
  - apply Forall_cons_1 in Hu as [Hu1 Hu2]. apply not_elem_of_cons in H1 as [H1 H1'], H2 as [H2 H2'].
    pose proof (file_bounded_step cfg f n o t Hcfg Hn Hu1 ltac:(congruence) ltac:(congruence) Hb) as Hs.
    destruct (tracker_step o t) as [[t1 out] fs].
    set (d := if bool_decide (f ∈ fs) then 1 else 0) in *.
    assert (0 <= d) by (unfold d; by destruct (bool_decide (f ∈ fs))).
    specialize (IH (n + d) t1 ltac:(lia) Hu2 H1' H2' Hs).
    destruct (tracker_run ops t1) as [t' log]. cbn [snd claims] in *. fold d. lia.
Qed.
End Runs.

(** In every run the flags read without the lock agree with the locked state, so
    the fast paths of [piece_verified], [take_due_pieces] and [is_disk_full] never
    skip work that the lock would have shown. *)
Lemma tracker_run_inv {f64} (delay : BackoffConfig -> Z -> f64 -> Z) to_jitter ops t :
  tracker_inv t -> tracker_inv (tracker_run delay to_jitter ops t).1.
Proof.
  revert t. induction ops as [|o ops IH]; intros t Ht; cbn [tracker_run]; [done|].
  pose proof (tracker_step_inv delay to_jitter o t Ht) as Hs.
  destruct (tracker_step delay to_jitter o t) as [[t1 out] fs]. specialize (IH t1 Hs).
  by destruct (tracker_run delay to_jitter ops t1) as [t' log].
Qed.

Lemma piece_verified_fast_path t p :
  tracker_inv t -> any_piece_backoff t = false -> delete p (piece_backoff t) = piece_backoff t.
Proof.
  intros [Hp _] Ha. destruct (decide (piece_backoff t = ∅)) as [->|Hne]; [apply delete_empty|].
  apply Hp in Hne. congruence.
Qed.

(** C40: A piece whose write failed is never forgotten: after any further calls it is
    still held back, or one of them handed it back to the download queue, found it
    verified, or was told that it is queued again. *)
Theorem held_pieces_not_lost {f64} (delay : BackoffConfig -> Z -> f64 -> Z) to_jitter o ops t p :
  fails_piece o p ->
  let '(t', log) := tracker_run delay to_jitter ops (tracker_step delay to_jitter o t).1.1 in
  p ∈ held_back_pieces t' \/ exists x, x ∈ log /\ settles x.1.1 x.1.2 p.
Proof.
  intros Hf. pose proof (fails_piece_held delay to_jitter o t p Hf) as Hh.
  pose proof (tracker_run_held delay to_jitter ops _ p Hh) as Hr.
  destruct (tracker_run _ _ _ _) as [t' log]. by rewrite held_back_elem.
Qed.

Lemma held_pieces_not_lost_witness :
  let '(t', log) := tracker_run (fun _ _ _ => 5) (fun _ => ()) [OTakeDue 10 100]
    (tracker_step (fun _ _ _ => 5) (fun _ => ()) (OPieceFailed 3 BackoffConfig_default [] 0) DamageTracker_default).1.1 in
  3 ∈ held_back_pieces t' \/ exists x, x ∈ log /\ settles x.1.1 x.1.2 3.
Proof.
  exact (held_pieces_not_lost (fun _ _ _ => 5) (fun _ => ()) (OPieceFailed 3 BackoffConfig_default [] 0)
    [OTakeDue 10 100] DamageTracker_default 3 (or_introl (ex_intro _ _ (ex_intro _ _ (ex_intro _ _ eq_refl))))).
Defined.

(** Automatic recovery ends.  With settings [cfg], a fresh tracker puts a piece back
    into the queue by itself fewer than [max_attempts] times while it is neither
    verified nor reset by the user, and claims a damaged file for an automatic
    repair at most [max_attempts] times while it is neither found clean nor reset
    (a limit of zero counts as one), whatever the delays. *)
Theorem automatic_recovery_bounded {f64} (delay : BackoffConfig -> Z -> f64 -> Z) to_jitter cfg ops p f :
  is_u32 (max_attempts cfg) -> Forall (uses_cfg cfg) ops -> OManualReset ∉ ops ->
  let log := (tracker_run delay to_jitter ops DamageTracker_default).2 in
  (OPieceVerified p ∉ ops -> releases p log < Z.max (max_attempts cfg) 1) /\
  (OFileFoundClean f ∉ ops -> claims f log <= Z.max (max_attempts cfg) 1).
Proof.
  intros Hcfg Hu Hr log. split; intros Ho.
  - pose proof (releases_bounded delay to_jitter cfg p 0 ops DamageTracker_default Hcfg ltac:(lia) Hu Hr Ho eq_refl). done.
  - pose proof (claims_bounded delay to_jitter cfg f 0 ops DamageTracker_default Hcfg ltac:(lia) Hu Hr Ho eq_refl). done.
Qed.

Lemma automatic_recovery_bounded_witness :
  releases 3 (tracker_run (fun _ _ _ => 5) (fun _ => ())
    [OPieceFailed 3 BackoffConfig_default [] 0; OTakeDue 10 100] DamageTracker_default).2 < 8.
Proof.
  apply (automatic_recovery_bounded (fun _ _ _ => 5) (fun _ => ()) BackoffConfig_default
    [OPieceFailed 3 BackoffConfig_default [] 0; OTakeDue 10 100] 3 0).
  - done.
  - by repeat constructor.
  - set_solver.
  - set_solver.
Defined.

(** [auto_repair_due] predicts whether [claim_auto_repair_files] claims a file. *)
Lemma auto_repair_due_claims {f64} (delay : BackoffConfig -> Z -> f64 -> Z) to_jitter cfg now t :
  auto_repair_due now t = true <-> (claim_auto_repair_files delay to_jitter cfg now t).2 <> [].
Proof.
  unfold auto_repair_due, claim_auto_repair_files. change (is_repair_running (mkTracker _ _ _ _ _ _ _ _ _)) with (is_repair_running t).
  destruct (is_repair_running t); [by rewrite orb_true_r|]. rewrite orb_false_r. cbn [t_files file_backoff snd].
  case_bool_decide as He.
  - rewrite He. split; [done|]. intros Hne. by destruct Hne.
  - rewrite existsb_exists. split.
    + intros (f & Hf%list_elem_of_In & Ha) Hnil. apply (not_elem_of_nil f). rewrite <- Hnil.
      by apply list_elem_of_filter.
    + intros Hne. destruct (filter _ _) as [|f l] eqn:E; [done|]. exists f.
      assert (Hf : f ∈ f :: l) by left. rewrite <- E in Hf. apply list_elem_of_filter in Hf as [? ?].
      split; [by apply list_elem_of_In|done].
Qed.

(** An entry that was given up stays so when the limit is raised afterwards: the
    next failure is answered with a delay, yet the piece is never released. *)
Lemma raised_limit_never_retries :
  let cfg1 := mkBackoffConfig 60 3600 1 in
  let cfg8 := mkBackoffConfig 60 3600 8 in
  let '(b, d1) := backoff_record_failure (fun _ _ _ => 5) 3 0 cfg1 () [] ∅ in
  let '(b, d2) := backoff_record_failure (fun _ _ _ => 5) 3 10 cfg8 () [] b in
  d1 = GiveUp /\ d2 = RetryAfter 5 /\ forall now limit, (take_due now limit b).1 = [].
Proof.
  assert (Hb : forall b : Backoff, (forall k e, b !! k = Some e -> gave_up e = true) ->
    forall now limit, (take_due now limit b).1 = []).
  { intros b Hg now limit. pose proof (take_due_spec now limit b) as Ht.
    destruct (take_due now limit b) as [[|k out] b']; [done|]. destruct Ht as (_ & _ & Hd & _).
    destruct (Hd k ltac:(left)) as (e & He & Hdue). unfold is_due in Hdue.
    by rewrite (Hg k e He), andb_false_r in Hdue. }
  cbn zeta. split; [done|]. split; [done|]. apply Hb. intros k e.
  destruct (decide (k = 3)) as [->|Hne]; [by intros [= <-]|].
  cbn. rewrite !lookup_insert_ne by done. done.
Qed.
