(* ===== verification/RepairRun.v ===== *)
(** * A repair of a torrent ([librqbit::repair]: orchestration)

    [start_repair_files] chooses the files and claims the torrent's repair slot;
    [run_repair_stopped] repairs them one by one on the paused torrent, re-checks
    the pieces of the repaired files, marks the lost ones missing and updates the
    damage tracker.  The storage of the torrent is a view [files_of] of the file
    system, so that the re-check ([FileOps.check_piece]) reads what the repair
    left.  Events, logging, and pausing and resuming are left out. *)

From stdpp Require Import base tactics option list list_numbers numbers decidable sets gmap fin_maps strings.
From Stdlib Require Import ZArith Lia.
From S2P Require Import Prelude Lengths FileInfo ChunkTracker Metainfo Storage FileOps.
From S2P Require Import Repair RepairFile Damage.
Open Scope Z_scope.

Inductive RepairScope := SDamaged | SAll.

Record RepairRequest := mkRequest {
  req_files : option (list nat);
  scope : RepairScope;
  req_auto : bool
}.

Inductive HeldPieces :=
| HeldAll (ps : list Z)
| HeldInRepairedFiles (ps : list Z).

Record RepairStartResponse := mkResponse {
  started : bool;
  resp_files : nat;
  resp_total_bytes : Z
}.

(** [Vec::dedup] *)
Fixpoint dedup (l : list nat) : list nat :=
  match l with
  | [] => []
  | x :: l' =>
      match l' with
      | y :: _ => if bool_decide (x = y) then dedup l' else x :: dedup l'
      | [] => [x]
      end
  end.

Definition is_repairable (fis : list FileInfo) (id : nat) : bool :=
  match fis !! id with Some fi => negb (fa_padding (fi_attrs fi)) | None => false end.

(** The files a request is about: known-damaged ones first. *)
Definition files_to_repair (fis : list FileInfo) (damaged : list nat) (req : RepairRequest) : list nat :=
  let files :=
    match req_files req, scope req with
    | Some f, _ => f
    | None, SDamaged => damaged
    | None, SAll => seq 0 (length fis)
    end in
  let files := dedup (sort_by Nat.leb (filter (fun id => is_repairable fis id = true) files)) in
  sort_by (fun a b => implb (negb (bool_decide (a ∈ damaged))) (negb (bool_decide (b ∈ damaged)))) files.

(** The states of [ManagedTorrentState] that the repair tells apart. *)
Inductive TState :=
| Initializing
| Paused (ct : ChunkTracker)
| Live
| TError
| TNone.

Definition start_repair_files (metadata : option (list FileInfo)) (state : TState) (req : RepairRequest)
    (now : Z) (t : DamageTracker) :
    DamageTracker * result anyhow (list nat * HeldPieces * RepairStartResponse) :=
  match metadata with
  | None => (t, Err [CContext "torrent metadata is not resolved yet"])
  | Some fis =>
      match state with
      | Initializing => (t, Err [CContext "torrent is checking its files; retry when the check finishes"])
      | TNone => (t, Err [CContext "bug: torrent is in empty state"])
      | _ =>
          let files := files_to_repair fis (Z.to_nat <$> damaged_file_ids t) req in
          match files with
          | [] => (t, Err [CContext "no files to repair"])
          | _ =>
              let total := u64 (zsum ((fun id => default 0 (fi_len <$> fis !! id)) <$> files)) in
              match try_begin total (Z.of_nat (length files)) (req_auto req) now t with
              | Err e => (t, Err e)
              | Ok t =>
                  let resp := mkResponse true (length files) total in
                  if req_auto req
                  then (t, Ok (files, HeldInRepairedFiles (held_back_pieces t), resp))
                  else let '(t, ps) := manual_reset t in (t, Ok (files, HeldAll ps, resp))
              end
          end
      end
  end.

(** The automatic repair of a torrent's damaged files. *)
Definition maybe_auto_repair {f64} (delay : BackoffConfig -> Z -> f64 -> Z) (to_jitter : Z -> f64)
    (soft_recover auto_repair : bool) (cfg : BackoffConfig) (metadata : option (list FileInfo)) (state : TState)
    (now : Z) (t : DamageTracker) : DamageTracker * option (list nat * HeldPieces * RepairStartResponse) :=
  if negb (soft_recover && auto_repair) then (t, None)
  else
    let '(t, files) := claim_auto_repair_files delay to_jitter cfg now t in
    match files with
    | [] => (t, None)
    | _ =>
        match start_repair_files metadata state (mkRequest (Some (Z.to_nat <$> files)) SDamaged true) now t with
        | (t, Ok r) => (t, Some r)
        | (t, Err _) => (t, None)
        end
    end.

(** [manual_recovery_reset] of a torrent that is not live. *)
Definition manual_recovery_reset (metadata : option Lengths) (state : TState) (t : DamageTracker) :
    outcome (DamageTracker * TState * nat) :=
  let '(t, ps) := manual_reset t in
  match metadata with
  | None => Ret (t, state, 0%nat)
  | Some l =>
      match state with
      | Paused ct =>
          ct ← foldM mark_piece_broken_if_not_have ct (omap (validate_piece_index l) ps);
          Ret (t, Paused ct, length ps)
      | _ => Ret (t, state, length ps)
      end
  end.

Section Run.
Context {S E : Type} `{TorrentStorage S E} (sha1 : bytes -> bytes).
Context (fo : FileOps) (files_of : fs -> S).
Context (rel_path : nat -> path) (output_folder : path).
Context (with_file_closed : nat -> io (option (list range) * fs) anyhow () -> io (option (list range) * fs) anyhow ()).

(** The loop over the files, on a blocking thread. *)
Fixpoint repair_files (fuel : nat) (piece_len : Z) (files : list nat) (i : Z) (scanned_before : Z)
    (w : fs) (t : DamageTracker) : fs * DamageTracker * outcome (list FileRepairOutcome) :=
  match files with
  | [] => (w, t, Ret [])
  | id :: files =>
      match fo_file_infos fo !! id with
      | None => (w, t, Panic)
      | Some fi =>
          let rel := rel_path id in
          let t := set_progress scanned_before i (Some rel) t in
          let target := mkToRepair id (output_folder ++ rel) rel (fi_offset_in_torrent fi) (fi_len fi) in
          match repair_file fuel target piece_len (with_file_closed id) w with
          | (w, XOk o) =>
              let '(w, t, r) := repair_files fuel piece_len files (i + 1) (u64 (scanned_before + fi_len fi)) w t in
              (w, t, r ≫= fun os => Ret (o :: os))
          | (w, _) => (w, t, Panic)
          end
      end
  end.

Definition is_repaired (o : FileRepairOutcome) : bool :=
  match method o with PunchHole | CopyReplace => true | _ => false end.

(** The pieces of one repaired file that count as downloaded but do not check. *)
Definition recheck_file (ct : ChunkTracker) (w : fs) (pieces : gset Z) (fid : nat) : outcome (gset Z) :=
  match fo_file_infos fo !! fid with
  | None => Panic
  | Some fi =>
      foldM (fun pieces pid =>
        if bool_decide (pid ∈ pieces) then Ret pieces
        else match validate_piece_index (fo_lengths fo) pid with
             | None => Ret pieces
             | Some vp =>
                 h ← is_piece_have ct vp;
                 if negb h then Ret pieces
                 else match check_piece sha1 fo (files_of w) vp with
                      | XOk true => Ret pieces
                      | XPanic => Panic
                      | _ => Ret ({[ pid ]} ∪ pieces)
                      end
             end)
        pieces (seqZ (fi_piece_range fi).1 ((fi_piece_range fi).2 - (fi_piece_range fi).1))
  end.

Definition mark_pieces_missing_after_repair (flush : result anyhow ()) (state : TState) (w : fs)
    (repaired : list nat) (pieces : gset Z) : outcome (TState * result anyhow (nat * Z)) :=
  match state with
  | Paused ct =>
      pieces ← foldM (recheck_file ct w) pieces repaired;
      let valid := omap (validate_piece_index (fo_lengths fo)) (btree_elements pieces) in
      r ← mark_pieces_missing ct valid (fo_file_infos fo);
      match flush with
      | Ok _ => Ret (Paused r.1, Ok (length valid, r.2))
      | Err e => Ret (Paused r.1, Err (CContext "error flushing bitfield after repair" :: e))
      end
  | TError => Ret (TError, Ok (size pieces, 0))
  | _ => Ret (state, Err [CContext "torrent must be paused to update pieces after repair"])
  end.

(** The held-back pieces to requeue, and all pieces to fetch again. *)
Definition requeued_held (held : HeldPieces) (repaired : list nat) : gset Z :=
  match held with
  | HeldAll ps => list_to_set ps
  | HeldInRepairedFiles ps =>
      list_to_set (filter (fun pid => existsb (fun f =>
        match fo_file_infos fo !! f with
        | Some fi => bool_decide (in_range pid (fi_piece_range fi))
        | None => false
        end) repaired = true) ps)
  end.

Definition run_repair_stopped (fuel : nat) (flush : result anyhow ()) (files : list nat) (held : HeldPieces)
    (w : fs) (t : DamageTracker) (state : TState) :
    fs * outcome (DamageTracker * TState * result anyhow RepairSummary) :=
  let piece_len := ln_piece_length (fo_lengths fo) in
  let '(w, t, r) := repair_files fuel piece_len files 0 0 w t in
  (w,
   outcomes ← r;
   let repaired := fo_file_id <$> filter (fun o => is_repaired o = true) outcomes in
   let pieces : gset Z := list_to_set (outcomes ≫= pieces) in
   let requeued := requeued_held held repaired in
   m ← mark_pieces_missing_after_repair flush state w repaired (pieces ∪ requeued);
   match m with
   | (state, Err e) => Ret (t, state, Err e)
   | (state, Ok (to_redownload, invalidated)) =>
       let ok_files := Z.of_nat ∘ fo_file_id <$> filter (fun o => method o <> Failed) outcomes in
       let t := mark_requeued requeued (clear_after_repair ok_files t) in
       let t := foldl (fun t f => file_found_clean f t) t ok_files in
       Ret (t, state, Ok (mkSummary (length outcomes)
         (length (filter (fun o => is_repaired o = true) outcomes))
         (length (filter (fun o => method o = Failed) outcomes))
         (u64 (zsum (bytes_unreadable <$> outcomes))) (u64 (zsum (bytes_zeroed <$> outcomes)))
         to_redownload (Z.to_nat invalidated)
         (filter (fun o => method o <> MNone \/ is_Some (error o)) outcomes)))
   end).
End Run.

(** ** What a finished repair leaves *)

Lemma pieces_overlapping_nonneg off len pl rs out :
  pieces_overlapping off len pl rs = Ret out -> Forall (Z.le 0) out.
Proof.
  unfold pieces_overlapping. generalize (clip_ranges rs len). intros l.
  assert (Hacc : Forall (Z.le 0) []) by constructor. revert Hacc. generalize (@nil Z).
  induction l as [|r l IH]; intros acc Hacc; cbn [foldM]; [by intros [= <-]|].
  destruct (pl =? 0); [done|]. cbn [mbind outcome_bind]. apply IH.
  generalize (seqZ (u64 (off + r.1) / pl) (u64 (off + r.2 - 1) / pl + 1 - u64 (off + r.1) / pl)).
  intros ps. revert acc Hacc. induction ps as [|q ps IHp]; intros acc Hacc; cbn [foldl]; [done|].
  apply IHp. apply Forall_forall. intros x [->|Hx]%btree_insert_elem.
  - apply Z.mod_pos_bound. done.
  - by eapply Forall_forall in Hacc.
Qed.

(** Whatever happens, the outcome of a repair is about the file it was given, and
    its pieces are piece numbers. *)
Lemma repair_file_outcome fuel f piece_len wfc w w' o :
  repair_file fuel f piece_len wfc w = (w', XOk o) -> fo_file_id o = ftr_file_id f /\ Forall (Z.le 0) (pieces o).
Proof.
  pose (Q := fun (o : FileRepairOutcome) (_ : fs) => fo_file_id o = ftr_file_id f /\ Forall (Z.le 0) (pieces o)).
  pose (T := fun _ : fs => True).
  assert (Ht : triple T (repair_file fuel f piece_len wfc) Q T).
  { assert (Htrue : forall {Er A} (m : io fs Er A), triple T m (fun _ => T) T)
      by (intros Er A m s _; by destruct (m s) as [? [?|?|]]).
    assert (Hret : forall o, Q o w -> triple T (mret (M := io fs Empty_set) o) Q T) by (intros o' Ho s _; exact Ho).
    unfold repair_file. eapply triple_case; [apply Htrue| | |done].
    2:{ intros e. case_bool_decide; apply Hret; by repeat constructor. }
    intros disk_len. eapply triple_case; [apply Htrue| | |done].
    2:{ intros e. apply Hret; by repeat constructor. }
    intros bad. destruct bad as [|b bad]; [apply Hret; by repeat constructor|].
    eapply triple_bind; [apply Htrue|]. intros block.
    eapply triple_bind; [apply Htrue|]. intros al.
    assert (Hfin : forall zeroed m n unread,
      triple (Er := Empty_set) T (pcs ← io_lift (exec_of_outcome (pieces_overlapping (offset_in_torrent f) (ftr_len f) piece_len zeroed));
        mret (mkOutcome (ftr_file_id f) (relative_path f) (ftr_len f) unread (ranges_len zeroed) zeroed pcs m n None)) Q T).
    { intros zeroed m n unread s _. unfold io_lift, mbind, io_bind.
      destruct (pieces_overlapping _ _ _ _) as [pcs|] eqn:Ep; [|done].
      split; [done|]. by eapply pieces_overlapping_nonneg. }
    eapply triple_case; [apply Htrue|intros ?; apply Hfin| |done].
    intros e s _. destruct (wfc _ (None, s)) as [[[bad'|] w1] [[]|?|]]; try by repeat constructor.
    by apply Hfin. }
  intros Hr. specialize (Ht w I). by rewrite Hr in Ht.
Qed.

Section RunCorrect.
Context {S E : Type} `{TorrentStorage S E} (sha1 : bytes -> bytes).
Context (fo : FileOps) (files_of : fs -> S).

(** The pieces of a file that are neither in [pieces] nor bad. *)
Definition rechecked (ct : ChunkTracker) (w : fs) (pieces : gset Z) (fid : nat) : Prop :=
  forall fi pid, fo_file_infos fo !! fid = Some fi -> in_range pid (fi_piece_range fi) ->
    valid_piece (fo_lengths fo) pid -> bit (have ct) (Z.to_nat pid) = true -> pid ∉ pieces ->
    check_piece sha1 fo (files_of w) pid = XOk true.

Lemma recheck_file_spec ct w pieces fid pieces' :
  Forall (fun fi => 0 <= (fi_piece_range fi).1) (fo_file_infos fo) -> set_Forall (Z.le 0) pieces ->
  recheck_file sha1 fo files_of ct w pieces fid = Ret pieces' ->
  pieces ⊆ pieces' /\ set_Forall (Z.le 0) pieces' /\ rechecked ct w pieces' fid.
Proof.
  intros Hfis Hnn. unfold recheck_file. destruct (fo_file_infos fo !! fid) as [fi|] eqn:Ef; [|done].
  assert (Hrange : forall pid, pid ∈ seqZ (fi_piece_range fi).1 ((fi_piece_range fi).2 - (fi_piece_range fi).1) <->
    in_range pid (fi_piece_range fi)) by (intros pid; rewrite elem_of_seqZ; unfold in_range; lia).
  eapply Forall_lookup_1 in Hfis; [|exact Ef]. simpl in Hfis.
  assert (Hlow : Forall (Z.le 0) (seqZ (fi_piece_range fi).1 ((fi_piece_range fi).2 - (fi_piece_range fi).1))).
  { apply Forall_forall. intros q Hq%Hrange. unfold in_range in Hq. lia. }
  enough (Hgen : forall pids pieces, Forall (Z.le 0) pids -> set_Forall (Z.le 0) pieces ->
    foldM (fun pieces pid =>
        if bool_decide (pid ∈ pieces) then Ret pieces
        else match validate_piece_index (fo_lengths fo) pid with
             | None => Ret pieces
             | Some vp =>
                 h ← is_piece_have ct vp;
                 if negb h then Ret pieces
                 else match check_piece sha1 fo (files_of w) vp with
                      | XOk true => Ret pieces
                      | XPanic => Panic
                      | _ => Ret ({[ pid ]} ∪ pieces)
                      end
             end) pieces pids = Ret pieces' ->
    pieces ⊆ pieces' /\ set_Forall (Z.le 0) pieces' /\
    forall pid, pid ∈ pids -> valid_piece (fo_lengths fo) pid -> bit (have ct) (Z.to_nat pid) = true ->
      pid ∉ pieces' -> check_piece sha1 fo (files_of w) pid = XOk true).
  { intros Hr. destruct (Hgen _ pieces Hlow Hnn Hr) as (H1 & H2 & H3). split; [done|]. split; [done|].
    intros fi' pid Hfi Hpid. simplify_eq. apply H3. by apply Hrange. }
  clear. induction pids as [|pid pids IH]; intros pieces Hpos Hnn Hr; cbn [foldM] in Hr.
  { injection Hr as <-. split; [done|]. split; [done|]. by intros ? ?%not_elem_of_nil. }
  apply Forall_cons_1 in Hpos as [Hp0 Hpos].
  apply outcome_bind_Ret in Hr as (p1 & H1 & Hr).
  assert (Hstep : pieces ⊆ p1 /\ set_Forall (Z.le 0) p1 /\
    (valid_piece (fo_lengths fo) pid -> bit (have ct) (Z.to_nat pid) = true -> pid ∉ p1 ->
     check_piece sha1 fo (files_of w) pid = XOk true)).
  { case_bool_decide as Hin; [simplify_eq; split_and!; done|].
    destruct (validate_piece_index (fo_lengths fo) pid) as [vp|] eqn:Ev.
    - apply validate_piece_index_Some in Ev as [-> _].
      apply outcome_bind_Ret in H1 as (h & Hh & H1). apply index_Ret in Hh.
      destruct h; simpl in H1; [|simplify_eq; split_and!; [done|done|]; intros _ Hb; unfold bit in Hb; by rewrite Hh in Hb].
      assert (Hadd : pieces ⊆ {[ pid ]} ∪ pieces /\ set_Forall (Z.le 0) ({[ pid ]} ∪ pieces)).
      { split; [set_solver|]. apply set_Forall_union; [by apply set_Forall_singleton|done]. }
      destruct (check_piece _ _ _ _) as [[|]|?|]; simplify_eq; [by split_and!| |];
        (split; [apply Hadd|]; split; [apply Hadd|set_solver]).
    - simplify_eq. split_and!; [done|done|]. intros Hv%validate_valid. congruence. }
  destruct Hstep as (S1 & S2 & S3). destruct (IH p1 Hpos S2 Hr) as (I1 & I2 & I3).
  split; [set_solver|]. split; [done|]. intros q [->|Hq]%elem_of_cons Hv Hb Hn; [apply S3; [done..|set_solver]|by apply I3].
Qed.

Lemma recheck_all ct w repaired pieces pieces' :
  Forall (fun fi => 0 <= (fi_piece_range fi).1) (fo_file_infos fo) -> set_Forall (Z.le 0) pieces ->
  foldM (recheck_file sha1 fo files_of ct w) pieces repaired = Ret pieces' ->
  pieces ⊆ pieces' /\ set_Forall (Z.le 0) pieces' /\ Forall (rechecked ct w pieces') repaired.
Proof.
  intros Hfis. revert pieces. induction repaired as [|fid repaired IH]; intros pieces Hnn Hr; cbn [foldM] in Hr.
  { injection Hr as <-. by repeat constructor. }
  apply outcome_bind_Ret in Hr as (p1 & H1 & Hr).
  apply recheck_file_spec in H1 as (S1 & S2 & S3); [|done..].
  destruct (IH p1 S2 Hr) as (I1 & I2 & I3). split; [set_solver|]. split; [done|].
  constructor; [|done]. intros fi pid Hfi Hpid Hv Hb Hn. apply (S3 fi pid); [done..|set_solver].
Qed.

Lemma mark_missing_paused ct w repaired pieces m :
  ct_wf ct -> ct_lengths ct = fo_lengths fo -> lengths_small (fo_lengths fo) ->
  Forall (file_wf (fo_lengths fo)) (fo_file_infos fo) -> length (per_file_bytes ct) = length (fo_file_infos fo) ->
  Forall (fun fi => 0 <= (fi_piece_range fi).1) (fo_file_infos fo) -> set_Forall (Z.le 0) pieces ->
  mark_pieces_missing_after_repair sha1 fo files_of (Ok ()) (Paused ct) w repaired pieces = Ret m ->
  exists ct' pieces', m.1 = Paused ct' /\ ct_wf ct' /\
    (forall j, bit (have ct') j = true -> bit (have ct) j = true) /\
    pieces ⊆ pieces' /\ Forall (rechecked ct w pieces') repaired /\
    forall pid, pid ∈ pieces' -> valid_piece (fo_lengths fo) pid ->
      bit (have ct') (Z.to_nat pid) = false /\
      (bit (selected ct) (Z.to_nat pid) = true -> bit (queue_pieces ct') (Z.to_nat pid) = true).
Proof.
  intros Hwf Hl Hsm Hfis Hlen Hfp Hnn. cbn [mark_pieces_missing_after_repair].
  intros (pieces' & Hr & Hm)%outcome_bind_Ret.
  apply recheck_all in Hr as (H1 & H2 & H3); [|done..].
  set (valid := omap _ _) in Hm.
  assert (Hvalid : forall pid, pid ∈ valid <-> pid ∈ pieces' /\ valid_piece (fo_lengths fo) pid).
  { intros pid. unfold valid. rewrite list_elem_of_omap. setoid_rewrite btree_elements_elem.
    setoid_rewrite validate_piece_index_Some. unfold valid_piece. split.
    - intros (q & Hq & -> & ?). pose proof (H2 q Hq). simpl in *. by repeat split.
    - intros (Hq & ? & ?). by exists pid. }
  destruct (missing_spec ct valid (fo_file_infos fo)) as (ct' & Heq & Hforgot & Hwf' & _);
    [done|by rewrite Hl|rewrite Hl; apply Forall_forall; by intros q [_ ?]%Hvalid|by rewrite Hl|done|].
  rewrite Heq in Hm. cbn in Hm. injection Hm as <-. destruct Hforgot as [_ _ _ _ Hh Hq].
  exists ct', pieces'. split; [done|]. split; [done|]. split; [|split; [done|split; [done|]]].
  - intros j. rewrite Hh. by intros [? _]%andb_true_iff.
  - intros pid Hp Hv. assert (Hin : Z.to_nat pid ∈ Z.to_nat <$> valid).
    { apply list_elem_of_fmap. exists pid. split; [done|]. by apply Hvalid. }
    rewrite Hh, Hq, bool_decide_eq_true_2 by done. rewrite andb_false_r. split; [done|].
    intros ->. by rewrite orb_true_r.
Qed.

Context (rel_path : nat -> path) (output_folder : path).
Context (with_file_closed : nat -> io (option (list range) * fs) anyhow () -> io (option (list range) * fs) anyhow ()).

Lemma repair_files_outcomes fuel pl files i sb w t w' t' os :
  repair_files fo rel_path output_folder with_file_closed fuel pl files i sb w t = (w', t', Ret os) ->
  Forall (fun o => Forall (Z.le 0) (pieces o)) os.
Proof.
  revert i sb w t os. induction files as [|id files IH]; intros i sb w t os; cbn [repair_files].
  { intros [= _ _ <-]. constructor. }
  destruct (fo_file_infos fo !! id) as [fi|]; [|done].
  destruct (repair_file _ _ _ _ w) as [w1 [o|?|]] eqn:Er; [|done..].
  apply repair_file_outcome in Er as [_ Ho].
  destruct (repair_files _ _ _ _ _ _ _ _ _ _ _) as [[w2 t2] [os2|]] eqn:Erec; [|done].
  intros [= -> -> <-]. constructor; [done|]. by eapply IH.
Qed.
End RunCorrect.

(** C28: After a repair of a paused torrent that ends without an error, every piece of a
    repaired file that still counts as downloaded hashes to the right value on the
    disk as the repair left it; the pieces reported as zeroed no longer count as
    downloaded and are queued when they are wanted; no piece becomes downloaded by
    a repair. *)
Theorem repaired_pieces_verified {S E : Type} `{TorrentStorage S E} (sha1 : bytes -> bytes) (fo : FileOps)
    (files_of : fs -> S) rel_path output_folder with_file_closed fuel files held w t ct w' t' st s :
  ct_wf ct -> ct_lengths ct = fo_lengths fo -> lengths_small (fo_lengths fo) ->
  Forall (file_wf (fo_lengths fo)) (fo_file_infos fo) -> length (per_file_bytes ct) = length (fo_file_infos fo) ->
  Forall (fun fi => 0 <= (fi_piece_range fi).1) (fo_file_infos fo) ->
  Forall (Z.le 0) (match held with HeldAll ps | HeldInRepairedFiles ps => ps end) ->
  run_repair_stopped sha1 fo files_of rel_path output_folder with_file_closed fuel (Ok ()) files held w t (Paused ct)
    = (w', Ret (t', st, Ok s)) ->
  exists ct', st = Paused ct' /\ ct_wf ct' /\
    (forall j, bit (have ct') j = true -> bit (have ct) j = true) /\
    forall o, o ∈ sum_files s -> 
      (is_repaired o = true -> forall fi pid, fo_file_infos fo !! fo_file_id o = Some fi ->
        in_range pid (fi_piece_range fi) -> valid_piece (fo_lengths fo) pid ->
        bit (have ct') (Z.to_nat pid) = true -> check_piece sha1 fo (files_of w') pid = XOk true) /\
      (forall pid, pid ∈ pieces o -> valid_piece (fo_lengths fo) pid ->
        bit (have ct') (Z.to_nat pid) = false /\
        (bit (selected ct) (Z.to_nat pid) = true -> bit (queue_pieces ct') (Z.to_nat pid) = true)).
Proof.
  intros Hwf Hl Hsm Hfis Hlen Hfp Hheld. unfold run_repair_stopped.
  destruct (repair_files _ _ _ _ _ _ _ _ _ _ _) as [[w1 t1] r] eqn:Er. intros [= -> Hr].
  apply outcome_bind_Ret in Hr as (os & -> & Hr). apply repair_files_outcomes in Er.
  apply outcome_bind_Ret in Hr as ([st1 m] & Hm & Hr).
  set (repaired := fo_file_id <$> filter _ os) in *.
  pose proof (mark_missing_paused sha1 fo files_of ct w' repaired
    (list_to_set (os ≫= pieces) ∪ requeued_held fo held repaired) (st1, m) Hwf Hl Hsm Hfis Hlen Hfp) as Hspec.
  destruct Hspec as (ct' & ps & Hst & Hwf' & Hsub & Hps & Hre & Hout); [|exact Hm|].
  { apply set_Forall_union.
    - intros x Hx%elem_of_list_to_set. apply list_elem_of_bind in Hx as (o & Hx & Ho).
      eapply Forall_forall in Er; [|exact Ho]. by eapply Forall_forall in Er.
    - destruct held as [ps|ps]; intros x Hx%elem_of_list_to_set.
      + by eapply Forall_forall in Hheld.
      + apply list_elem_of_filter in Hx as [_ Hx]. by eapply Forall_forall in Hheld. }
  simpl in Hst. subst st1. destruct m as [[n1 n2]|e]; [|done]. injection Hr as <- <- <-.
  exists ct'. split; [done|]. split; [done|]. split; [done|]. cbn [sum_files].
  intros o [_ Ho]%list_elem_of_filter. split.
  - intros Hrep fi pid Hfi Hin Hv Hb. 
    assert (Hfid : fo_file_id o ∈ repaired).
    { apply list_elem_of_fmap. exists o. split; [done|]. by apply list_elem_of_filter. }
    eapply Forall_forall in Hre; [|exact Hfid]. apply (Hre fi pid); [done..|by apply Hsub|].
    intros Hp. destruct (Hout pid Hp Hv) as [Hf _]. congruence.
  - intros pid Hp Hv. apply Hout; [|done]. apply Hps, elem_of_union_l, elem_of_list_to_set.
    apply list_elem_of_bind. by exists o.
Qed.

(** ** The ten-byte torrent of [FileOps] with an unreadable byte in its first file *)

Definition ex_path (id : nat) : path := [String (Ascii.ascii_of_nat (97 + id)) EmptyString].

Definition ex_disk : fs :=
  mkFs (<[ex_path 0 := [Some 1; Some 2; Some 3; Some 4; None; Some 6]]>
    (<[ex_path 2 := [Some 8; Some 9; Some 10]]> ∅)) 0 4096 [].

Definition ex_files_of (w : fs) : list bytes :=
  (fun id => default 0 <$> fs_cells w (ex_path id)) <$> [0%nat; 1%nat; 2%nat].

Definition ex_full_ct : ChunkTracker :=
  mkChunkTracker (replicate 8 false) [true; true; true; false; false; false; false; false]
    [true; true; true; false; false; false; false; false] [true; true; true; false; false; false; false; false]
    [6; 1; 3] (fo_lengths ex_fo) (mkHNS 10 0 10).

Lemma ex_full_ct_wf : ct_wf ex_full_ct.
Proof.
  split; [|reflexivity]. split; try done. intros i. by do 8 (destruct i; [by vm_compute|]).
Qed.

Definition ex_repair :=
  run_repair_stopped (E := ()) ex_sha1 ex_fo ex_files_of ex_path [] (fun _ m => m) 20 (Ok ()) [0%nat]
    (HeldAll []) ex_disk DamageTracker_default (Paused ex_full_ct).

Lemma repaired_pieces_verified_witness :
  exists w' t' ct' s, ex_repair = (w', Ret (t', Paused ct', Ok s)) /\ ct_wf ct' /\
    forall j, bit (have ct') j = true -> bit (have ex_full_ct) j = true.
Proof.
  assert (Hr : exists w' t' ct' s, ex_repair = (w', Ret (t', Paused ct', Ok s)))
    by (eexists _, _, _, _; vm_compute; reflexivity).
  destruct Hr as (w' & t' & ct' & s & Hr).
  destruct (repaired_pieces_verified (E := ()) ex_sha1 ex_fo ex_files_of ex_path [] (fun _ m => m) 20 [0%nat]
    (HeldAll []) ex_disk DamageTracker_default ex_full_ct w' t' (Paused ct') s ex_full_ct_wf) as (ct2 & Hct & H1 & H2 & _);
    [done|done|repeat constructor; done|done|repeat constructor; done|constructor|exact Hr|].
  injection Hct as <-. exists w', t', ct', s. split; [exact Hr|]. split; [exact H1|exact H2].
Defined.

(** In that repair the first two pieces are lost and queued again; the third one is
    kept. *)
Lemma ex_repair_result :
  exists w' t' ct' s, ex_repair = (w', Ret (t', Paused ct', Ok s)) /\
    take 3 (have ct') = [false; false; true] /\ take 3 (queue_pieces ct') = [true; true; false] /\
    pieces_to_redownload s = 2%nat /\ pieces_invalidated s = 2%nat /\ files_repaired s = 1%nat.
Proof. eexists _, _, _, _. split; [vm_compute; reflexivity|]. vm_compute. done. Qed.
