(* ===== verification/RemovePolicy.v ===== *)
(** * Removing torrents ([librqbit::remove_policy])

    What happens to the files of a torrent that is removed, the preview of a
    removal, and the paths that may be deleted.  A path is its bytes; components
    are those of [std::path] on Unix.  The description of who asked for a removal
    ([RemoveOrigin]) is left out. *)

From stdpp Require Import base tactics option list list_numbers numbers decidable sets.
From Stdlib Require Import ZArith Lia.
From S2P Require Import Prelude.
Open Scope Z_scope.

Inductive CompleteRemoveAction := CKeep | CDelete.
Inductive IncompleteRemoveAction := IKeep | IDelete | IFinish.

#[export] Instance CompleteRemoveAction_eq_dec : EqDecision CompleteRemoveAction.
Proof. solve_decision. Defined.
#[export] Instance IncompleteRemoveAction_eq_dec : EqDecision IncompleteRemoveAction.
Proof. solve_decision. Defined.

Record RemovePolicy := mkPolicy {
  complete : CompleteRemoveAction;
  incomplete : IncompleteRemoveAction
}.

Definition KEEP : RemovePolicy := mkPolicy CKeep IKeep.
Definition DELETE : RemovePolicy := mkPolicy CDelete IDelete.

Inductive RemoveDecision := Forget | DeleteAll | FinishWhatsDone.

#[export] Instance RemoveDecision_eq_dec : EqDecision RemoveDecision.
Proof. solve_decision. Defined.

Definition may_delete_files (p : RemovePolicy) : bool :=
  bool_decide (complete p = CDelete) || negb (bool_decide (incomplete p = IKeep)).

Definition decide_remove (p : RemovePolicy) (is_complete : bool) : RemoveDecision :=
  if is_complete then
    match complete p with CKeep => Forget | CDelete => DeleteAll end
  else
    match incomplete p with IKeep => Forget | IDelete => DeleteAll | IFinish => FinishWhatsDone end.

Inductive RemoveAction := KeepFiles | DeleteFiles.

Definition policy_of_action (a : RemoveAction) : RemovePolicy :=
  match a with KeepFiles => KEEP | DeleteFiles => DELETE end.

(** ** Planning *)

Record FileView := mkView {
  fv_id : nat;
  fv_length : Z;
  fv_have : Z;
  fv_padding : bool
}.

(** The three lists [split_files] fills: complete, partial, empty. *)
Definition classify (files : list FileView) : list nat * list nat * list nat :=
  foldl (fun '(c, p, e) f =>
    if fv_length f =? 0 then (c, p, e ++ [fv_id f])
    else if fv_length f <=? fv_have f then (c ++ [fv_id f], p, e)
    else (c, p ++ [fv_id f], e))
    ([], [], []) (filter (fun f => fv_padding f = false) files).

Definition split_files (files : list FileView) : list nat * list nat :=
  let '(c, p, e) := classify files in
  let '(c, p) := match c with [] => (c, p ++ e) | _ => (c ++ e, p) end in
  (sort_by Nat.leb c, sort_by Nat.leb p).

Record RemovePreviewItem := mkPreviewItem {
  pi_complete : bool;
  files_complete : nat;
  files_partial : nat;
  bytes_complete : Z;
  bytes_partial : Z
}.

Definition find_view (files : list FileView) (i : nat) : option FileView :=
  List.find (fun f => bool_decide (fv_id f = i)) files.

Definition preview_item (is_complete : bool) (files : list FileView) : RemovePreviewItem :=
  let '(c, p) := split_files files in
  mkPreviewItem is_complete (length c) (length p)
    (u64 (zsum (omap (fun i => fv_length <$> find_view files i) c)))
    (u64 (zsum (omap (fun i => (fun f => Z.min (fv_have f) (fv_length f)) <$> find_view files i) p))).

Record RemovePreview := mkPreview {
  pv_policy : RemovePolicy;
  confirm_remove : bool;
  pv_items : list RemovePreviewItem;
  pv_complete : nat;
  pv_incomplete : nat;
  incomplete_nothing_done : nat
}.

Definition summarize_preview (policy : RemovePolicy) (confirm : bool) (items : list RemovePreviewItem) : RemovePreview :=
  let c := length (filter (fun i => pi_complete i = true) items) in
  mkPreview policy confirm items c (length items - c)
    (length (filter (fun i => pi_complete i = false /\ files_complete i = 0%nat) items)).

Definition may_skip_dialog (confirm : bool) (policy : RemovePolicy) (any_complete any_incomplete : bool) : bool :=
  if confirm then false
  else
    negb ((any_complete && bool_decide (complete policy = CDelete)) ||
          (any_incomplete && negb (bool_decide (incomplete policy = IKeep)))).

(** ** Paths *)

Abbreviation SLASH := 47.
Abbreviation DOT := 46.

Fixpoint split_slash (cur : bytes) (p : bytes) : list bytes :=
  match p with
  | [] => [cur]
  | b :: p => if b =? SLASH then cur :: split_slash [] p else split_slash (cur ++ [b]) p
  end.

Inductive Component : Set := RootDir | CurDir | ParentDir | Normal (name : bytes).

#[export] Instance Component_eq_dec : EqDecision Component.
Proof. solve_decision. Defined.

(** [Path::components]: repeated separators and inner [.] are dropped. *)
Definition component_of (first : bool) (s : bytes) : option Component :=
  if bool_decide (s = []) then None
  else if bool_decide (s = [DOT]) then (if first then Some CurDir else None)
  else if bool_decide (s = [DOT; DOT]) then Some ParentDir
  else Some (Normal s).

Definition components (p : bytes) : list Component :=
  match p with
  | [] => []
  | b :: _ =>
      if b =? SLASH then RootDir :: omap (component_of false) (split_slash [] p)
      else
        match split_slash [] p with
        | [] => []
        | s :: rest => option_list (component_of true s) ++ omap (component_of false) rest
        end
  end.

Definition is_safe_relative (p : bytes) : bool :=
  negb (bool_decide (p = [])) &&
  forallb (fun c => match c with Normal _ | CurDir => true | _ => false end) (components p).

(** [trim] is [str::trim]. *)
Definition file_candidates (trim : bytes -> bytes) (original : bytes) (renamed : option bytes) (ext : option bytes) : list bytes :=
  let current := default original renamed in
  let out :=
    match ext with
    | Some e =>
        let e := trim e in
        if bool_decide (e = []) then [current]
        else
          let with_ext := original ++ e in
          if bool_decide (components with_ext = components current) then [current] else [current; with_ext]
    | None => [current]
    end in
  filter (fun p => is_safe_relative p = true) out.

(** ** Deletion follows the policy *)

(** Skipping the confirmation dialog is only allowed when every torrent of the
    selection is merely forgotten. *)
Lemma skipped_dialog_deletes_nothing confirm policy (selection : list bool) :
  may_skip_dialog confirm policy (existsb id selection) (existsb negb selection) = true ->
  Forall (fun is_complete => decide_remove policy is_complete = Forget) selection.
Proof.
  unfold may_skip_dialog. destruct confirm; [done|]. intros Hs. apply Forall_forall. intros b Hb%list_elem_of_In.
  destruct b; [assert (Hc : existsb id selection = true) by (apply existsb_exists; by exists true)
              |assert (Hc : existsb negb selection = true) by (apply existsb_exists; by exists false)];
    rewrite Hc in Hs; destruct policy as [[] []]; cbn in *;
    try done; by rewrite ?orb_true_r in Hs.
Qed.

Lemma may_delete_files_iff policy :
  may_delete_files policy = true <-> exists is_complete, decide_remove policy is_complete <> Forget.
Proof.
  destruct policy as [[] []]; cbn; split; try done;
    try (intros _; by exists true); try (intros _; by exists false); intros ([] & Hc); by destruct Hc.
Qed.

Lemma classify_fold files c p e :
  foldl (fun '(c, p, e) f =>
    if fv_length f =? 0 then (c, p, e ++ [fv_id f])
    else if fv_length f <=? fv_have f then (c ++ [fv_id f], p, e)
    else (c, p ++ [fv_id f], e)) (c, p, e) files =
  (c ++ (fv_id <$> filter (fun f => fv_length f <> 0 /\ fv_length f <= fv_have f) files),
   p ++ (fv_id <$> filter (fun f => fv_length f <> 0 /\ fv_have f < fv_length f) files),
   e ++ (fv_id <$> filter (fun f => fv_length f = 0) files)).
Proof.
  revert c p e. induction files as [|f files IH]; intros c p e; cbn [foldl]; [by rewrite !app_nil_r|].
  rewrite !filter_cons. destruct (Z.eqb_spec (fv_length f) 0).
  { rewrite IH. rewrite (decide_False (P := _ /\ _)), (decide_False (P := _ /\ _)), decide_True by lia.
    by rewrite fmap_cons, <- app_assoc. }
  destruct (Z.leb_spec (fv_length f) (fv_have f)); rewrite IH.
  - rewrite (decide_True (P := _ /\ _)), (decide_False (P := _ /\ _)), decide_False by lia.
    by rewrite fmap_cons, <- app_assoc.
  - rewrite (decide_False (P := _ /\ _)), (decide_True (P := _ /\ _)), decide_False by lia.
    by rewrite fmap_cons, <- app_assoc.
Qed.

(** Every file that is not padding is in exactly one of the two lists; a file in
    the first one has all its bytes, a file in the second one misses some or is
    empty. *)
Lemma split_files_partition files c p :
  split_files files = (c, p) ->
  c ++ p ≡ₚ fv_id <$> filter (fun f => fv_padding f = false) files /\
  (forall i, i ∈ c -> exists f, f ∈ files /\ fv_id f = i /\ fv_padding f = false /\ fv_length f <= Z.max 0 (fv_have f)) /\
  (forall i, i ∈ p -> exists f, f ∈ files /\ fv_id f = i /\ fv_padding f = false /\ (fv_have f < fv_length f \/ fv_length f = 0)).
Proof.
  unfold split_files, classify. set (fs := filter _ files). rewrite classify_fold. cbn [app].
  set (C := filter (fun f => _ /\ fv_length f <= _) fs). set (P := filter (fun f => _ /\ fv_have f < _) fs).
  set (Em := filter (fun f => fv_length f = 0) fs).
  assert (Hperm : C ++ P ++ Em ≡ₚ fs).
  { unfold C, P, Em. clear. induction fs as [|f fs IH]; [done|]. rewrite !filter_cons.
    destruct (decide (fv_length f = 0)) as [Hz|Hz].
    - rewrite (decide_False (P := _ /\ _)), (decide_False (P := _ /\ _)) by lia.
      rewrite app_assoc, <- Permutation_middle, <- app_assoc. by rewrite IH.
    - destruct (Z.le_gt_cases (fv_length f) (fv_have f)).
      + rewrite (decide_True (P := _ /\ _)), (decide_False (P := _ /\ _)) by lia. cbn. by rewrite IH.
      + rewrite (decide_False (P := _ /\ _)), (decide_True (P := _ /\ _)) by lia. cbn.
        rewrite <- Permutation_middle. by rewrite IH. }
  assert (Hfs : forall f, f ∈ fs -> f ∈ files /\ fv_padding f = false)
    by (intros f Hf; apply list_elem_of_filter in Hf; tauto).
  destruct (fv_id <$> C) as [|c0 cs] eqn:EC; intros [= <- <-].
  - apply fmap_nil_inv in EC. rewrite EC in Hperm.
    split; [rewrite !sort_by_perm; by rewrite <- fmap_app, <- Hperm|]. split.
    + intros i Hi. by apply not_elem_of_nil in Hi.
    + intros i Hi. rewrite sort_by_perm, <- fmap_app in Hi. apply list_elem_of_fmap in Hi as (f & -> & Hf).
      exists f. assert (Hin : f ∈ fs) by (apply elem_of_app in Hf as [Hf|Hf]; by apply list_elem_of_filter in Hf as [_ ?]).
      destruct (Hfs f Hin). split_and!; try done.
      apply elem_of_app in Hf as [Hf|Hf]; apply list_elem_of_filter in Hf as [? _]; lia.
  - change (insert_by Nat.leb c0 (sort_by Nat.leb (cs ++ (fv_id <$> Em))))
      with (sort_by Nat.leb ((c0 :: cs) ++ (fv_id <$> Em))). rewrite <- EC. split.
    { rewrite !sort_by_perm, <- !fmap_app, <- app_assoc, (Permutation_app_comm Em). by rewrite Hperm. }
    rewrite <- fmap_app.
    split; intros i Hi; rewrite sort_by_perm in Hi; apply list_elem_of_fmap in Hi as (f & -> & Hf); exists f.
    + assert (Hin : f ∈ fs) by (apply elem_of_app in Hf as [Hf|Hf]; by apply list_elem_of_filter in Hf as [_ ?]).
      destruct (Hfs f Hin). split_and!; try done.
      apply elem_of_app in Hf as [Hf|Hf]; apply list_elem_of_filter in Hf as [? _]; lia.
    + apply list_elem_of_filter in Hf as [? Hin]. destruct (Hfs f Hin). split_and!; try done. lia.
Qed.

(** ** No candidate leaves the download folder *)

(** Following a path from the folder [base], as the file system does without
    symbolic links. *)
Definition resolve (base : list bytes) (cs : list Component) : list bytes :=
  foldl (fun dir c =>
    match c with
    | RootDir => []
    | CurDir => dir
    | ParentDir => removelast dir
    | Normal n => dir ++ [n]
    end) base cs.

Lemma resolve_safe base cs :
  forallb (fun c => match c with Normal _ | CurDir => true | _ => false end) cs = true ->
  exists sub, resolve base cs = base ++ sub.
Proof.
  unfold resolve. revert base. induction cs as [|c cs IH]; intros base Hs; [exists []; by rewrite app_nil_r|].
  cbn [forallb foldl] in *. apply andb_true_iff in Hs as [Hc Hs]. destruct c as [| | |n]; try done.
  - by apply IH.
  - destruct (IH (base ++ [n]) Hs) as [sub ->]. exists ([n] ++ sub). by rewrite app_assoc.
Qed.

(** Whatever the names in the torrent and the renames are, the paths considered for
    deletion lie inside the output folder. *)
Lemma file_candidates_stay_inside trim original renamed ext base p :
  p ∈ file_candidates trim original renamed ext -> exists sub, resolve base (components p) = base ++ sub.
Proof.
  intros [Hs _]%list_elem_of_filter. apply andb_true_iff in Hs as [_ Hs]. by apply resolve_safe.
Qed.

(** The path the torrent writes to is a candidate whenever it is safe. *)
Lemma file_candidates_current trim original renamed ext :
  is_safe_relative (default original renamed) = true ->
  default original renamed ∈ file_candidates trim original renamed ext.
Proof.
  intros Hs. apply list_elem_of_filter. split; [done|]. destruct ext as [e|]; [|left]. cbn zeta.
  destruct (bool_decide (trim e = [])); [left|].
  destruct (bool_decide (components _ = components _)); left.
Qed.
