(* ===== verification/TorrentRules.v ===== *)
(** * Automatic rules ([librqbit::torrent_rules])

    Per-torrent rules: stalled torrents, seeding limits and the full-speed window.
    [evaluate] advances the persisted counters of a torrent by one tick and decides
    which rules fire.  The theorems read the decision off the history of the ticks,
    without the counters.  Ratios are floating-point numbers: their type, the test
    for a usable limit and the comparison with the ratio reached are parameters.
    The texts of reasons and status lines are left out, as is the JSON file. *)

From stdpp Require Import base tactics option list list_numbers numbers decidable sets gmap fin_maps.
From Stdlib Require Import ZArith Lia.
From S2P Require Import Prelude RemovePolicy.
Open Scope Z_scope.

Inductive RuleAction := APause | AFlag | ARemoveKeep | ARemovePolicy | ARemoveDelete | ARemoveFinish.

Definition action_remove_policy (a : RuleAction) (dflt : RemovePolicy) : option RemovePolicy :=
  match a with
  | APause | AFlag => None
  | ARemoveKeep => Some KEEP
  | ARemovePolicy => Some dflt
  | ARemoveDelete => Some DELETE
  | ARemoveFinish => Some (mkPolicy CKeep IFinish)
  end.

Definition may_delete (a : RuleAction) (is_complete : bool) (dflt : RemovePolicy) : bool :=
  match action_remove_policy a dflt with
  | None => false
  | Some p =>
      if is_complete then bool_decide (complete p = CDelete)
      else negb (bool_decide (incomplete p = IKeep))
  end.

Record StalledRule := mkStalled {
  st_enabled : bool;
  after_secs : Z;
  st_action : RuleAction
}.

Definition default_stalled_secs : Z := 86400.
Definition StalledRule_default : StalledRule := mkStalled false default_stalled_secs APause.

Inductive WindowThen := TCap | TStop.

#[export] Instance WindowThen_eq_dec : EqDecision WindowThen.
Proof. solve_decision. Defined.

Record SpeedWindow := mkWindow {
  sw_enabled : bool;
  full_speed_secs : option Z;
  full_speed_bytes : option Z;
  sw_then : WindowThen;
  cap_kib_per_sec : Z
}.

Definition default_cap_kib : Z := 100.
Definition SpeedWindow_default : SpeedWindow := mkWindow false None None TCap default_cap_kib.

(** Persisted per-torrent counters. *)
Record TorrentCounters := mkCounters {
  seeding_secs : Z;
  uploaded_total : Z;
  idle_secs : Z;
  last_progress_bytes : Z;
  last_progress_unix : option Z;
  completed_unix : option Z;
  uploaded_at_complete : Z;
  stalled_fired_unix : option Z;
  seeding_fired_unix : option Z;
  window_done_unix : option Z;
  window_stop_fired : bool;
  stalled_latched : bool
}.

Definition TorrentCounters_default : TorrentCounters :=
  mkCounters 0 0 0 0 None None 0 None None None false false.

Record Observation := mkObs {
  o_live : bool;
  o_finished : bool;
  progress_bytes : Z;
  o_total_bytes : Z;
  uploaded_delta : Z;
  now_unix : Z
}.

Inductive RuleKind := KStalled | KSeeding | KSpeedWindow.

#[export] Instance RuleKind_eq_dec : EqDecision RuleKind.
Proof. solve_decision. Defined.

(** The reason is given by what the text is made of. *)
Inductive Reason :=
| NoProgressFor (secs : Z)
| LimitReached (secs bytes_ : option Z) (ratio_hit : bool)
| WindowOver (secs bytes_ : Z) (w_then : WindowThen) (cap : Z).

Record Firing := mkFiring {
  f_rule : RuleKind;
  f_action : option RuleAction;
  f_reason : Reason
}.

Record EvalResult := mkResult {
  firings : list Firing;
  upload_cap_bps : option Z;
  progressed : bool
}.

Section Rules.
Context {f64 : Type} (f64_usable : f64 -> bool) (ratio_ge : Z -> Z -> f64 -> bool).

Record SeedingLimits := mkSeeding {
  se_enabled : bool;
  max_seed_secs : option Z;
  max_uploaded_bytes : option Z;
  max_ratio : option f64;
  se_action : RuleAction
}.

Definition SeedingLimits_default : SeedingLimits := mkSeeding false None None None APause.

Record TorrentRules := mkRules {
  stalled : StalledRule;
  seeding : SeedingLimits;
  speed_window : SpeedWindow
}.

Record RulesOverride := mkOverride {
  ov_stalled : option StalledRule;
  ov_seeding : option SeedingLimits;
  ov_speed_window : option SpeedWindow
}.

Definition pos (v : option Z) : option Z := v ≫= fun v => if 0 <? v then Some v else None.

Definition sanitize (r : TorrentRules) : TorrentRules :=
  let st := stalled r in let se := seeding r in let w := speed_window r in
  mkRules
    (mkStalled (st_enabled st) (Z.max (after_secs st) 10) (st_action st))
    (mkSeeding (se_enabled se) (pos (max_seed_secs se)) (pos (max_uploaded_bytes se))
       (max_ratio se ≫= fun x => if f64_usable x then Some x else None)
       (match se_action se with AFlag => APause | ARemoveFinish => ARemoveKeep | a => a end))
    (mkWindow (sw_enabled w) (pos (full_speed_secs w)) (pos (full_speed_bytes w)) (sw_then w)
       (Z.max (cap_kib_per_sec w) 1)).

Definition with_override (r : TorrentRules) (o : RulesOverride) : TorrentRules :=
  sanitize (mkRules (default (stalled r) (ov_stalled o)) (default (seeding r) (ov_seeding o))
    (default (speed_window r) (ov_speed_window o))).

Definition override_is_empty (o : RulesOverride) : bool :=
  match o with mkOverride None None None => true | _ => false end.

(** Which of the two warnings about deleted files are shown. *)
Definition delete_warnings (r : TorrentRules) (policy : RemovePolicy) : bool * bool :=
  (st_enabled (stalled r) && may_delete (st_action (stalled r)) false policy,
   se_enabled (seeding r) && may_delete (se_action (seeding r)) true policy).

(** ** One tick

    The steps of [evaluate] in order; each one updates the counters. *)

Definition step_upload (o : Observation) (c : TorrentCounters) : TorrentCounters :=
  mkCounters (seeding_secs c) (u64 (uploaded_total c + uploaded_delta o)) (idle_secs c) (last_progress_bytes c)
    (last_progress_unix c) (completed_unix c) (uploaded_at_complete c) (stalled_fired_unix c)
    (seeding_fired_unix c) (window_done_unix c) (window_stop_fired c) (stalled_latched c).

Definition set_idle (idle : Z) (latched : bool) (c : TorrentCounters) : TorrentCounters :=
  mkCounters (seeding_secs c) (uploaded_total c) idle (last_progress_bytes c)
    (last_progress_unix c) (completed_unix c) (uploaded_at_complete c) (stalled_fired_unix c)
    (seeding_fired_unix c) (window_done_unix c) (window_stop_fired c) latched.

Definition step_progress (o : Observation) (dt : Z) (c : TorrentCounters) : TorrentCounters * bool :=
  let '(c, progressed) :=
    if last_progress_bytes c <? progress_bytes o then
      (mkCounters (seeding_secs c) (uploaded_total c) 0 (progress_bytes o) (Some (now_unix o)) (completed_unix c)
         (uploaded_at_complete c) (stalled_fired_unix c) (seeding_fired_unix c) (window_done_unix c)
         (window_stop_fired c) false,
       bool_decide (is_Some (last_progress_unix c)) || (0 <? last_progress_bytes c))
    else if progress_bytes o <? last_progress_bytes c then
      (mkCounters (seeding_secs c) (uploaded_total c) 0 (progress_bytes o) (last_progress_unix c) (completed_unix c)
         (uploaded_at_complete c) (stalled_fired_unix c) (seeding_fired_unix c) (window_done_unix c)
         (window_stop_fired c) (stalled_latched c), false)
    else if o_live o && negb (o_finished o) then
      (set_idle (u64 (idle_secs c + dt)) (stalled_latched c) c, false)
    else (c, false) in
  let c := if o_finished o || negb (o_live o) then set_idle (idle_secs c) false c else c in
  let c := if o_finished o then set_idle 0 (stalled_latched c) c else c in
  (c, progressed).

Definition step_stalled (r : StalledRule) (o : Observation) (c : TorrentCounters) : TorrentCounters * list Firing :=
  if st_enabled r && negb (o_finished o) && o_live o && negb (stalled_latched c) && (after_secs r <=? idle_secs c)
  then
    (mkCounters (seeding_secs c) (uploaded_total c) 0 (last_progress_bytes c) (last_progress_unix c)
       (completed_unix c) (uploaded_at_complete c) (Some (now_unix o)) (seeding_fired_unix c) (window_done_unix c)
       (window_stop_fired c) true,
     [mkFiring KStalled (Some (st_action r)) (NoProgressFor (idle_secs c))])
  else (c, []).

Definition step_completion (o : Observation) (dt : Z) (c : TorrentCounters) : TorrentCounters :=
  if o_finished o then
    let c :=
      match completed_unix c with
      | None =>
          mkCounters 0 (uploaded_total c) (idle_secs c) (last_progress_bytes c) (last_progress_unix c)
            (Some (now_unix o)) (uploaded_total c) (stalled_fired_unix c) None None false (stalled_latched c)
      | Some _ => c
      end in
    if o_live o then
      mkCounters (u64 (seeding_secs c + dt)) (uploaded_total c) (idle_secs c) (last_progress_bytes c)
        (last_progress_unix c) (completed_unix c) (uploaded_at_complete c) (stalled_fired_unix c)
        (seeding_fired_unix c) (window_done_unix c) (window_stop_fired c) (stalled_latched c)
    else c
  else
    match completed_unix c with
    | Some _ =>
        mkCounters (seeding_secs c) (uploaded_total c) (idle_secs c) (last_progress_bytes c) (last_progress_unix c)
          None (uploaded_at_complete c) (stalled_fired_unix c) (seeding_fired_unix c) (window_done_unix c)
          (window_stop_fired c) (stalled_latched c)
    | None => c
    end.

Definition at_least (limit : option Z) (v : Z) : option Z :=
  limit ≫= fun m => if m <=? v then Some m else None.

Definition step_seeding (s : SeedingLimits) (o : Observation) (c : TorrentCounters) : TorrentCounters * list Firing :=
  if o_finished o && se_enabled s && bool_decide (seeding_fired_unix c = None) then
    let by_secs := at_least (max_seed_secs s) (seeding_secs c) in
    let by_bytes := at_least (max_uploaded_bytes s) (uploaded_total c) in
    let by_ratio := match max_ratio s with Some m => ratio_ge (uploaded_total c) (o_total_bytes o) m | None => false end in
    if bool_decide (is_Some by_secs) || bool_decide (is_Some by_bytes) || by_ratio then
      (mkCounters (seeding_secs c) (uploaded_total c) (idle_secs c) (last_progress_bytes c) (last_progress_unix c)
         (completed_unix c) (uploaded_at_complete c) (stalled_fired_unix c) (Some (now_unix o)) (window_done_unix c)
         (window_stop_fired c) (stalled_latched c),
       [mkFiring KSeeding (Some (se_action s)) (LimitReached by_secs by_bytes by_ratio)])
    else (c, [])
  else (c, []).

Definition window_reached (w : SpeedWindow) (c : TorrentCounters) : bool :=
  bool_decide (is_Some (at_least (full_speed_secs w) (seeding_secs c))) ||
  bool_decide (is_Some (at_least (full_speed_bytes w) (saturating_sub (uploaded_total c) (uploaded_at_complete c)))).

Definition step_window (w : SpeedWindow) (o : Observation) (c : TorrentCounters) :
    TorrentCounters * list Firing * option Z :=
  if o_finished o && sw_enabled w && (bool_decide (is_Some (full_speed_secs w)) || bool_decide (is_Some (full_speed_bytes w)))
  then
    let since := saturating_sub (uploaded_total c) (uploaded_at_complete c) in
    let '(c, fs) :=
      if bool_decide (window_done_unix c = None) && window_reached w c then
        (mkCounters (seeding_secs c) (uploaded_total c) (idle_secs c) (last_progress_bytes c) (last_progress_unix c)
           (completed_unix c) (uploaded_at_complete c) (stalled_fired_unix c) (seeding_fired_unix c)
           (Some (now_unix o)) (window_stop_fired c || bool_decide (sw_then w = TStop)) (stalled_latched c),
         [mkFiring KSpeedWindow (match sw_then w with TCap => None | TStop => Some APause end)
            (WindowOver (seeding_secs c) since (sw_then w) (cap_kib_per_sec w))])
      else (c, []) in
    (c, fs,
     if bool_decide (is_Some (window_done_unix c)) && bool_decide (sw_then w = TCap)
     then Some (saturating_mul 32 (cap_kib_per_sec w) 1024) else None)
  else (c, [], None).

Definition evaluate (r : TorrentRules) (o : Observation) (dt : Z) (c : TorrentCounters) : TorrentCounters * EvalResult :=
  let c := step_upload o c in
  let '(c, progressed) := step_progress o dt c in
  let '(c, f1) := step_stalled (stalled r) o c in
  let c := step_completion o dt c in
  let '(c, f2) := step_seeding (seeding r) o c in
  let '(c, f3, cap) := step_window (speed_window r) o c in
  (c, mkResult (f1 ++ f2 ++ f3) cap progressed).
End Rules.

(** What the interface calls safe keeps every file, whether the torrent is complete or
    not. *)
Lemma may_delete_decide a dflt is_complete p :
  action_remove_policy a dflt = Some p ->
  (may_delete a is_complete dflt = false <-> decide_remove p is_complete = Forget).
Proof.
  intros Hp. unfold may_delete, decide_remove. rewrite Hp. destruct p as [[] []], is_complete; cbn; done.
Qed.

(** ** What a tick does to each counter *)

Definition fired (k : RuleKind) (res : EvalResult) : bool :=
  existsb (fun f => bool_decide (f_rule f = k)) (firings res).

Section Ticks.
Context {f64 : Type} (ratio_ge : Z -> Z -> f64 -> bool) (r : TorrentRules (f64 := f64)).

(** The stalled rule, on the counters before the tick. *)
Definition stalled_cond (o : Observation) (dt : Z) (c : TorrentCounters) : bool :=
  st_enabled (stalled r) && negb (o_finished o) && o_live o &&
  (negb (stalled_latched c) || (last_progress_bytes c <? progress_bytes o)) &&
  (after_secs (stalled r) <=?
     (if progress_bytes o =? last_progress_bytes c then u64 (idle_secs c + dt) else 0)).

Lemma step_progress_fields o dt c c1 b :
  step_progress o dt c = (c1, b) ->
  last_progress_bytes c1 = progress_bytes o /\
  idle_secs c1 =
    (if o_finished o then 0
     else if progress_bytes o =? last_progress_bytes c then (if o_live o then u64 (idle_secs c + dt) else idle_secs c)
     else 0) /\
  stalled_latched c1 =
    (if o_finished o || negb (o_live o) || (last_progress_bytes c <? progress_bytes o) then false else stalled_latched c) /\
  uploaded_total c1 = uploaded_total c /\ seeding_secs c1 = seeding_secs c /\
  completed_unix c1 = completed_unix c /\ uploaded_at_complete c1 = uploaded_at_complete c /\
  seeding_fired_unix c1 = seeding_fired_unix c /\ window_done_unix c1 = window_done_unix c.
Proof.
  unfold step_progress.
  destruct (Z.ltb_spec (last_progress_bytes c) (progress_bytes o)) as [H1|H1];
    [|destruct (Z.ltb_spec (progress_bytes o) (last_progress_bytes c)) as [H2|H2]].
  - rewrite (proj2 (Z.eqb_neq _ _)) by lia. destruct (o_finished o), (o_live o); intros [= <- <-]; by repeat split.
  - rewrite (proj2 (Z.eqb_neq _ _)) by lia. destruct (o_finished o), (o_live o); intros [= <- <-]; by repeat split.
  - rewrite (proj2 (Z.eqb_eq _ _)) by lia.
    destruct (o_finished o), (o_live o); intros [= <- <-]; repeat split; cbn; lia.
Qed.

(** The counters of progress, which the later steps leave alone. *)
Definition same_progress (c c' : TorrentCounters) : Prop :=
  idle_secs c' = idle_secs c /\ stalled_latched c' = stalled_latched c /\
  last_progress_bytes c' = last_progress_bytes c /\ uploaded_total c' = uploaded_total c.

(** The counters of seeding, which the earlier steps leave alone. *)
Definition same_seeding (c c' : TorrentCounters) : Prop :=
  seeding_secs c' = seeding_secs c /\ completed_unix c' = completed_unix c /\
  uploaded_at_complete c' = uploaded_at_complete c /\ seeding_fired_unix c' = seeding_fired_unix c /\
  window_done_unix c' = window_done_unix c.

Lemma step_stalled_fields o c c1 fs :
  step_stalled (stalled r) o c = (c1, fs) ->
  let b := st_enabled (stalled r) && negb (o_finished o) && o_live o && negb (stalled_latched c) &&
           (after_secs (stalled r) <=? idle_secs c) in
  fs = (if b then [mkFiring KStalled (Some (st_action (stalled r))) (NoProgressFor (idle_secs c))] else []) /\
  idle_secs c1 = (if b then 0 else idle_secs c) /\ stalled_latched c1 = (b || stalled_latched c) /\
  last_progress_bytes c1 = last_progress_bytes c /\ uploaded_total c1 = uploaded_total c /\ same_seeding c c1.
Proof.
  unfold step_stalled, same_seeding.
  destruct (st_enabled (stalled r) && negb (o_finished o) && o_live o && negb (stalled_latched c) &&
    (after_secs (stalled r) <=? idle_secs c)); intros [= <- <-]; cbn; by repeat split.
Qed.

Lemma step_completion_fields o dt c :
  let c1 := step_completion o dt c in
  same_progress c c1 /\
  (o_finished o = false -> completed_unix c1 = None) /\
  (o_finished o = true ->
     let fresh := bool_decide (completed_unix c = None) in
     is_Some (completed_unix c1) /\
     seeding_secs c1 = (if o_live o then u64 ((if fresh then 0 else seeding_secs c) + dt)
                        else if fresh then 0 else seeding_secs c) /\
     uploaded_at_complete c1 = (if fresh then uploaded_total c else uploaded_at_complete c) /\
     seeding_fired_unix c1 = (if fresh then None else seeding_fired_unix c) /\
     window_done_unix c1 = (if fresh then None else window_done_unix c)).
Proof.
  unfold step_completion, same_progress. destruct (o_finished o); destruct (completed_unix c) as [x|] eqn:E;
    [rewrite (bool_decide_eq_false_2 (Some x = None)) by done|rewrite (bool_decide_eq_true_2 (@None Z = None)) by done|..];
    destruct (o_live o); cbn; rewrite ?E; by repeat split.
Qed.

Lemma step_seeding_fields o c c1 fs :
  step_seeding ratio_ge (seeding r) o c = (c1, fs) ->
  let b := o_finished o && se_enabled (seeding r) && bool_decide (seeding_fired_unix c = None) &&
       (bool_decide (is_Some (at_least (max_seed_secs (seeding r)) (seeding_secs c))) ||
        bool_decide (is_Some (at_least (max_uploaded_bytes (seeding r)) (uploaded_total c))) ||
        match max_ratio (seeding r) with Some m => ratio_ge (uploaded_total c) (o_total_bytes o) m | None => false end) in
  (if b then exists f, fs = [f] /\ f_rule f = KSeeding else fs = []) /\
  (is_Some (seeding_fired_unix c1) <-> b = true \/ is_Some (seeding_fired_unix c)) /\
  same_progress c c1 /\ seeding_secs c1 = seeding_secs c /\ completed_unix c1 = completed_unix c /\
  uploaded_at_complete c1 = uploaded_at_complete c /\ window_done_unix c1 = window_done_unix c.
Proof.
  unfold step_seeding, same_progress.
  destruct (o_finished o && se_enabled (seeding r) && bool_decide (seeding_fired_unix c = None)); cbn [andb].
  - destruct (bool_decide (is_Some (at_least (max_seed_secs (seeding r)) (seeding_secs c))) ||
        bool_decide (is_Some (at_least (max_uploaded_bytes (seeding r)) (uploaded_total c))) ||
        match max_ratio (seeding r) with Some m => ratio_ge (uploaded_total c) (o_total_bytes o) m | None => false end);
      intros [= <- <-]; cbn; repeat split; try done; try (by eexists); try tauto; by intros [?|?].
  - intros [= <- <-]. repeat split; try done; [tauto|by intros [?|?]].
Qed.

Lemma step_window_fields o c c1 fs cap :
  step_window (speed_window r) o c = (c1, fs, cap) ->
  let b := o_finished o && sw_enabled (speed_window r) && bool_decide (window_done_unix c = None) &&
       window_reached (speed_window r) c in
  (if b then exists f, fs = [f] /\ f_rule f = KSpeedWindow else fs = []) /\
  (is_Some (window_done_unix c1) <-> b = true \/ is_Some (window_done_unix c)) /\
  (cap = if o_finished o && sw_enabled (speed_window r) &&
            (bool_decide (is_Some (full_speed_secs (speed_window r))) || bool_decide (is_Some (full_speed_bytes (speed_window r)))) &&
            bool_decide (is_Some (window_done_unix c1)) && bool_decide (sw_then (speed_window r) = TCap)
         then Some (saturating_mul 32 (cap_kib_per_sec (speed_window r)) 1024) else None) /\
  same_progress c c1 /\ seeding_secs c1 = seeding_secs c /\ completed_unix c1 = completed_unix c /\
  uploaded_at_complete c1 = uploaded_at_complete c /\ seeding_fired_unix c1 = seeding_fired_unix c.
Proof.
  unfold step_window, same_progress. set (w := speed_window r).
  destruct (o_finished o && sw_enabled w); cbn [andb].
  2:{ intros [= <- <- <-]. repeat split; try done; [tauto|by intros [?|?]]. }
  assert (Hnone : bool_decide (is_Some (full_speed_secs w)) || bool_decide (is_Some (full_speed_bytes w)) = false ->
    window_reached w c = false).
  { intros [H1%bool_decide_eq_false H2%bool_decide_eq_false]%orb_false_iff. unfold window_reached, at_least.
    destruct (full_speed_secs w); [by destruct H1|]. destruct (full_speed_bytes w); [by destruct H2|]. done. }
  destruct (bool_decide (is_Some (full_speed_secs w)) || bool_decide (is_Some (full_speed_bytes w))); cbn [andb].
  2:{ rewrite Hnone, andb_false_r by done. intros [= <- <- <-]. repeat split; try done; [tauto|by intros [?|?]]. }
  destruct (bool_decide (window_done_unix c = None) && window_reached w c); intros [= <- <- <-]; cbn;
    repeat split; try done; try (by eexists); try tauto; by intros [?|?].
Qed.

(** The test of the stalled rule, after the progress was recorded. *)
Lemma stalled_cond_after o dt c c1 :
  idle_secs c1 =
    (if o_finished o then 0
     else if progress_bytes o =? last_progress_bytes c then (if o_live o then u64 (idle_secs c + dt) else idle_secs c)
     else 0) ->
  stalled_latched c1 =
    (if o_finished o || negb (o_live o) || (last_progress_bytes c <? progress_bytes o) then false else stalled_latched c) ->
  st_enabled (stalled r) && negb (o_finished o) && o_live o && negb (stalled_latched c1) &&
    (after_secs (stalled r) <=? idle_secs c1) = stalled_cond o dt c.
Proof.
  intros -> ->. unfold stalled_cond. destruct (o_finished o), (o_live o); rewrite ?andb_false_r; try done.
  cbn [orb negb]. by destruct (last_progress_bytes c <? progress_bytes o); rewrite ?orb_true_r, ?orb_false_r.
Qed.

(** Which rules fired, from the three lists of firings. *)
Lemma fired_app (b1 b2 b3 : bool) a x f2 f3 cap p :
  (if b2 then exists f, f2 = [f] /\ f_rule f = KSeeding else f2 = []) ->
  (if b3 then exists f, f3 = [f] /\ f_rule f = KSpeedWindow else f3 = []) ->
  let res := mkResult ((if b1 then [mkFiring KStalled a x] else []) ++ f2 ++ f3) cap p in
  fired KStalled res = b1 /\ fired KSeeding res = b2 /\ fired KSpeedWindow res = b3.
Proof.
  intros H2 H3. unfold fired. cbn [firings].
  destruct b2; [destruct H2 as (g2 & -> & H2)|subst f2]; (destruct b3; [destruct H3 as (g3 & -> & H3)|subst f3]);
    destruct b1; cbn; rewrite ?H2, ?H3; done.
Qed.

(** All that [evaluate] does, field by field. *)
Lemma evaluate_fields o dt c c' res :
  evaluate ratio_ge r o dt c = (c', res) ->
  let up := u64 (uploaded_total c + uploaded_delta o) in
  let fresh := bool_decide (completed_unix c = None) in
  let secs := if o_live o then u64 ((if fresh then 0 else seeding_secs c) + dt) else if fresh then 0 else seeding_secs c in
  let at_complete := if fresh then up else uploaded_at_complete c in
  uploaded_total c' = up /\
  last_progress_bytes c' = progress_bytes o /\
  fired KStalled res = stalled_cond o dt c /\
  idle_secs c' =
    (if o_finished o || fired KStalled res then 0
     else if progress_bytes o =? last_progress_bytes c then (if o_live o then u64 (idle_secs c + dt) else idle_secs c)
     else 0) /\
  stalled_latched c' =
    (if fired KStalled res then true
     else if o_finished o || negb (o_live o) || (last_progress_bytes c <? progress_bytes o) then false
     else stalled_latched c) /\
  (o_finished o = false -> completed_unix c' = None /\ fired KSeeding res = false /\ fired KSpeedWindow res = false /\
     upload_cap_bps res = None) /\
  (o_finished o = true ->
     is_Some (completed_unix c') /\ seeding_secs c' = secs /\ uploaded_at_complete c' = at_complete /\
     fired KSeeding res =
       (se_enabled (seeding r) && (fresh || bool_decide (seeding_fired_unix c = None)) &&
        (bool_decide (is_Some (at_least (max_seed_secs (seeding r)) secs)) ||
         bool_decide (is_Some (at_least (max_uploaded_bytes (seeding r)) up)) ||
         match max_ratio (seeding r) with Some m => ratio_ge up (o_total_bytes o) m | None => false end)) /\
     (is_Some (seeding_fired_unix c') <-> fired KSeeding res = true \/ (fresh = false /\ is_Some (seeding_fired_unix c))) /\
     fired KSpeedWindow res =
       (sw_enabled (speed_window r) && (fresh || bool_decide (window_done_unix c = None)) &&
        (bool_decide (is_Some (at_least (full_speed_secs (speed_window r)) secs)) ||
         bool_decide (is_Some (at_least (full_speed_bytes (speed_window r)) (saturating_sub up at_complete))))) /\
     (is_Some (window_done_unix c') <-> fired KSpeedWindow res = true \/ (fresh = false /\ is_Some (window_done_unix c))) /\
     upload_cap_bps res =
       (if sw_enabled (speed_window r) &&
           (bool_decide (is_Some (full_speed_secs (speed_window r))) ||
            bool_decide (is_Some (full_speed_bytes (speed_window r)))) &&
           bool_decide (is_Some (window_done_unix c')) && bool_decide (sw_then (speed_window r) = TCap)
        then Some (saturating_mul 32 (cap_kib_per_sec (speed_window r)) 1024) else None)).
Proof.
  unfold evaluate. destruct (step_progress o dt (step_upload o c)) as [c1 b] eqn:E1.
  apply step_progress_fields in E1 as (L1 & I1 & T1 & U1 & S1 & C1 & A1 & F1 & W1).
  cbn [step_upload uploaded_total last_progress_bytes idle_secs seeding_secs completed_unix
    uploaded_at_complete seeding_fired_unix window_done_unix stalled_latched] in *.
  destruct (step_stalled (stalled r) o c1) as [c2 f1] eqn:E2.
  apply step_stalled_fields in E2 as (Hf1 & I2 & T2 & L2 & U2 & S2 & C2 & A2 & F2 & W2).
  rewrite (stalled_cond_after o dt c c1 I1 T1) in Hf1, I2, T2. subst f1.
  destruct (step_completion_fields o dt c2) as ((I3 & T3 & L3 & U3) & Hn3 & Hy3).
  set (c3 := step_completion o dt c2) in *.
  destruct (step_seeding ratio_ge (seeding r) o c3) as [c4 f2] eqn:E4.
  apply step_seeding_fields in E4 as (B4 & F4 & (I4 & T4 & L4 & U4) & S4 & C4 & A4 & W4).
  destruct (step_window (speed_window r) o c4) as [[c5 f3] cap] eqn:E5.
  apply step_window_fields in E5 as (B5 & W5 & K5 & (I5 & T5 & L5 & U5) & S5 & C5 & A5 & F5).
  intros [= <- <-]. cbn zeta.
  epose proof (fired_app (stalled_cond o dt c) _ _ _ _ f2 f3 cap b B4 B5) as (R1 & R2 & R3).
  rewrite R1, R2, R3. cbn [upload_cap_bps]. clear R1 R2 R3 B4 B5.
  rewrite U5, U4, U3, U2, U1, L5, L4, L3, L2, L1, I5, I4, I3, I2, I1, T5, T4, T3, T2, T1, C5, C4, F5.
  split_and!; [done..| | | |].
  - destruct (o_finished o), (stalled_cond o dt c); done.
  - by destruct (stalled_cond o dt c).
  - intros Hf. rewrite K5, Hf. by split_and!; [apply Hn3|..].
  - intros Hf. destruct (Hy3 Hf) as (Hc & HS & HA & HF & HW).
    rewrite Hf in *. cbn [andb] in *. cbv zeta in HS, HA, HF, HW.
    rewrite C2, C1 in HS, HA, HF, HW. rewrite S2, S1 in HS. rewrite U2, U1, A2, A1 in HA.
    rewrite F2, F1 in HF. rewrite W2, W1 in HW.
    assert (Hnone : forall x : option Z,
      bool_decide ((if bool_decide (completed_unix c = None) then None else x) = None) =
      bool_decide (completed_unix c = None) || bool_decide (x = None)).
    { intros x. by destruct (bool_decide (completed_unix c = None)); [rewrite bool_decide_eq_true_2|]. }
    assert (Hsome : forall x : option Z,
      is_Some (if bool_decide (completed_unix c = None) then None else x) <->
      bool_decide (completed_unix c = None) = false /\ is_Some x).
    { intros x. destruct (bool_decide (completed_unix c = None)); [|tauto]. split; [by intros [??]|by intros [? _]]. }
    rewrite W4, HW in W5. rewrite HF in F4. unfold window_reached in *.
    rewrite Hnone, Hsome in F4, W5. rewrite W4, HW, HF, !Hnone.
    rewrite ?U4, ?U3, ?U2, ?U1, ?S4, ?HS, ?A4, ?HA in *. rewrite S5, A5.
    split_and!; try done; tauto.
Qed.
End Ticks.

(** ** The decision, from the history

    A log of ticks, the latest first: what was observed, how many seconds had
    passed, which rules were in force and what [evaluate] answered. *)

Section History.
Context {f64 : Type} (f64_usable : f64 -> bool) (ratio_ge : Z -> Z -> f64 -> bool).

Record Tick := mkTick {
  t_rules : TorrentRules (f64 := f64);
  t_obs : Observation;
  t_dt : Z;
  t_res : EvalResult
}.

(** The log and the counters after a sequence of ticks, the latest first. *)
Fixpoint rules_run (ts : list (TorrentRules (f64 := f64) * Observation * Z)) : list Tick * TorrentCounters :=
  match ts with
  | [] => ([], TorrentCounters_default)
  | (r, o, dt) :: ts =>
      let '(h, c) := rules_run ts in
      let '(c', res) := evaluate ratio_ge r o dt c in
      (mkTick r o dt res :: h, c')
  end.

Fixpoint sum (f : Tick -> Z) (h : list Tick) : Z :=
  match h with [] => 0 | t :: h => f t + sum f h end.
Definition t_finished (t : Tick) : bool := o_finished (t_obs t).
Definition live_secs (t : Tick) : Z := if o_live (t_obs t) then t_dt t else 0.
Definition t_uploaded (t : Tick) : Z := uploaded_delta (t_obs t).
Definition t_fired (k : RuleKind) (t : Tick) : bool := fired k (t_res t).

(** The bytes at the latest tick. *)
Definition progress_now (h : list Tick) : Z := match h with t :: _ => progress_bytes (t_obs t) | [] => 0 end.

(** The running time since the download moved, the rule fired or the torrent was
    finished. *)
Fixpoint quiet_secs (h : list Tick) : Z :=
  match h with
  | [] => 0
  | t :: h =>
      if t_finished t || t_fired KStalled t || negb (progress_bytes (t_obs t) =? progress_now h) then 0
      else live_secs t + quiet_secs h
  end.

(** Since the rule last fired, the torrent made progress, stopped or finished. *)
Fixpoint armed (h : list Tick) : bool :=
  match h with
  | [] => true
  | t :: h =>
      negb (t_fired KStalled t) &&
      (t_finished t || negb (o_live (t_obs t)) || (progress_now h <? progress_bytes (t_obs t)) || armed h)
  end.

(** The ticks since the torrent was completed; the last of them is the first at which
    it was seen complete. *)
Fixpoint completed_run (h : list Tick) : list Tick :=
  match h with
  | t :: h => if t_finished t then t :: completed_run h else []
  | [] => []
  end.

Definition seeded_secs (h : list Tick) : Z := sum live_secs (completed_run h).
Definition uploaded (h : list Tick) : Z := sum t_uploaded h.
Definition uploaded_since (h : list Tick) : Z := sum t_uploaded (removelast (completed_run h)).
Definition fired_since (k : RuleKind) (h : list Tick) : bool := existsb (t_fired k) (completed_run h).

(** What the counters stand for. *)
Record counts (h : list Tick) (c : TorrentCounters) : Prop := {
  cn_progress : last_progress_bytes c = progress_now h;
  cn_uploaded : uploaded_total c = uploaded h;
  cn_idle : idle_secs c = quiet_secs h;
  cn_latched : stalled_latched c = negb (armed h);
  cn_completed : bool_decide (completed_unix c = None) = bool_decide (completed_run h = []);
  cn_seeding : completed_run h <> [] ->
    seeding_secs c = seeded_secs h /\ uploaded_at_complete c = uploaded h - uploaded_since h /\
    bool_decide (seeding_fired_unix c = None) = negb (fired_since KSeeding h) /\
    bool_decide (window_done_unix c = None) = negb (fired_since KSpeedWindow h)
}.

(** No counter overflows. *)
Definition log_ok (h : list Tick) : Prop :=
  Forall (fun t => 0 <= t_dt t /\ 0 <= t_uploaded t /\ 0 <= progress_bytes (t_obs t)) h /\
  sum t_dt h < 2 ^ 64 /\ uploaded h < 2 ^ 64.

Lemma log_ok_tail t h : log_ok (t :: h) -> log_ok h.
Proof.
  intros (Hf & H1 & H2). apply Forall_cons in Hf as [(? & ? & ?) Hf]. unfold uploaded in *. cbn in H1, H2.
  split_and!; [done|unfold uploaded; lia..].
Qed.

Lemma quiet_bounds h : log_ok h -> 0 <= quiet_secs h <= sum t_dt h.
Proof.
  induction h as [|t h IH]; intros Hok; [done|]. specialize (IH (log_ok_tail _ _ Hok)).
  destruct Hok as (Hf & _ & _). apply Forall_cons in Hf as [(Hdt & _ & _) Hf]. cbn.
  assert (0 <= live_secs t <= t_dt t) by (unfold live_secs; destruct (o_live (t_obs t)); lia).
  destruct (_ || _); lia.
Qed.

Lemma seeded_bounds h : log_ok h -> 0 <= seeded_secs h <= sum t_dt h.
Proof.
  induction h as [|t h IH]; intros Hok; [done|]. specialize (IH (log_ok_tail _ _ Hok)). unfold seeded_secs in *.
  destruct Hok as (Hf & _ & _). apply Forall_cons in Hf as [(Hdt & _ & _) Hf]. cbn.
  assert (0 <= live_secs t <= t_dt t) by (unfold live_secs; destruct (o_live (t_obs t)); lia).
  destruct (t_finished t); cbn; lia.
Qed.

Lemma uploaded_since_cons t h :
  t_finished t = true ->
  uploaded_since (t :: h) = if bool_decide (completed_run h = []) then 0 else t_uploaded t + uploaded_since h.
Proof. intros Ht. unfold uploaded_since. cbn [completed_run]. rewrite Ht. by destruct (completed_run h). Qed.

Lemma since_bounds h : log_ok h -> 0 <= uploaded_since h <= uploaded h.
Proof.
  induction h as [|t h IH]; intros Hok; [done|]. specialize (IH (log_ok_tail _ _ Hok)).
  destruct Hok as (Hf & _ & _). apply Forall_cons in Hf as [(_ & Hdt & _) Hf].
  change (uploaded (t :: h)) with (t_uploaded t + uploaded h).
  destruct (t_finished t) eqn:Et; [rewrite uploaded_since_cons by done; case_bool_decide; lia|].
  unfold uploaded_since. cbn [completed_run]. rewrite Et. cbn. lia.
Qed.

(** The running counters do not overflow while the log is within bounds. *)
Lemma log_ok_sums r o dt res h :
  log_ok (mkTick r o dt res :: h) ->
  0 <= uploaded h + uploaded_delta o < 2 ^ 64 /\ 0 <= quiet_secs h + dt < 2 ^ 64 /\
  0 <= seeded_secs h + dt < 2 ^ 64 /\ 0 <= uploaded_delta o.
Proof.
  intros Hok. pose proof (log_ok_tail _ _ Hok) as Hh.
  pose proof (quiet_bounds h Hh). pose proof (seeded_bounds h Hh). pose proof (since_bounds h Hh).
  destruct Hok as (Hf & Hs & Hu). apply Forall_cons in Hf as [(Hdt & Hup & _) _].
  unfold uploaded, t_uploaded in *. cbn in Hs, Hu, Hdt, Hup. lia.
Qed.

Lemma fired_since_cons k t h :
  t_finished t = true -> fired_since k (t :: h) = t_fired k t || fired_since k h.
Proof. intros Ht. unfold fired_since. cbn [completed_run]. by rewrite Ht. Qed.

Lemma seeded_secs_cons t h : t_finished t = true -> seeded_secs (t :: h) = live_secs t + seeded_secs h.
Proof. intros Ht. unfold seeded_secs. cbn [completed_run]. by rewrite Ht. Qed.

(** The counters of seeding, as a finished tick finds them after the reset. *)
Lemma counts_seeding h c :
  counts h c ->
  let fresh := bool_decide (completed_unix c = None) in
  (if fresh then 0 else seeding_secs c) = seeded_secs h /\
  (forall up, uploaded h <= up -> log_ok h ->
     saturating_sub up (if fresh then up else uploaded_at_complete c) =
     if bool_decide (completed_run h = []) then 0 else up - uploaded h + uploaded_since h) /\
  fresh || bool_decide (seeding_fired_unix c = None) = negb (fired_since KSeeding h) /\
  fresh || bool_decide (window_done_unix c = None) = negb (fired_since KSpeedWindow h).
Proof.
  intros [_ _ _ _ Cc Cs]. cbn zeta. rewrite Cc.
  destruct (bool_decide_reflect (completed_run h = [])) as [E|E]; cbn [orb].
  - unfold seeded_secs, fired_since, saturating_sub. rewrite E. split_and!; [done|lia|done..].
  - destruct (Cs E) as (-> & -> & -> & ->). split_and!; [done| |done..].
    intros up Hup Hok. pose proof (since_bounds h Hok). unfold saturating_sub. lia.
Qed.

(** A latch that is set when a rule fires and dropped by the reset. *)
Lemma latch_step (x x' : option Z) (fresh f l : bool) :
  (is_Some x' <-> f = true \/ (fresh = false /\ is_Some x)) ->
  fresh || bool_decide (x = None) = negb l -> bool_decide (x' = None) = negb (f || l).
Proof.
  intros Hx Hl. rewrite negb_orb, <-Hl. rewrite <-!not_eq_None_Some in Hx.
  destruct f, fresh, x, x'; cbn; try done; exfalso; naive_solver.
Qed.

(** A tick with the counters of its history. *)
Lemma evaluate_counts r o dt c c' res h :
  counts h c -> log_ok (mkTick r o dt res :: h) -> evaluate ratio_ge r o dt c = (c', res) ->
  counts (mkTick r o dt res :: h) c'.
Proof.
  intros Hc Hok He. destruct (log_ok_sums _ _ _ _ _ Hok) as (Bu & Bq & Bs & Bd).
  destruct (counts_seeding h c Hc) as (Ks & _ & Kf & Kw).
  apply evaluate_fields in He as (HU & HL & Hst & HI & HT & Hn & Hy).
  set (t := mkTick r o dt res) in *. destruct Hc as [Cp Cu Ci Cl Cc Cs].
  cbn zeta in Ks, Kf, Kw, Hy.
  rewrite Cu, wrap_id in HU by done. rewrite Cu, (wrap_id 64 (uploaded h + uploaded_delta o)), Ks in Hy by done.
  rewrite Ci, Cp in HI. rewrite Cp, Cl in HT. rewrite wrap_id in HI by done.
  split.
  - done.
  - rewrite HU. unfold uploaded, t_uploaded. cbn. lia.
  - rewrite HI. cbn. unfold t_finished, t_fired, live_secs. cbn.
    destruct (o_finished o), (fired KStalled res), (progress_bytes o =? progress_now h), (o_live o); cbn; lia.
  - rewrite HT. cbn. unfold t_finished, t_fired. cbn.
    by destruct (o_finished o), (fired KStalled res), (progress_now h <? progress_bytes o), (o_live o), (armed h).
  - cbn. unfold t_finished. cbn. destruct (o_finished o).
    + destruct (Hy eq_refl) as ([x ->] & _). by rewrite !bool_decide_eq_false_2.
    + by destruct (Hn eq_refl) as (-> & _).
  - destruct (o_finished o) eqn:Ef; [|cbn; unfold t_finished; cbn; by rewrite Ef]. intros _.
    destruct (Hy eq_refl) as (_ & HS & HA & _ & HF & _ & HW & _).
    rewrite seeded_secs_cons, uploaded_since_cons, !fired_since_cons by done.
    split_and!; [| |by eapply latch_step..].
    + rewrite HS. unfold live_secs. cbn. destruct (o_live o); rewrite ?wrap_id by done; lia.
    + rewrite HA, Cc. change (uploaded (t :: h)) with (uploaded_delta o + uploaded h).
      change (t_uploaded t) with (uploaded_delta o).
      destruct (bool_decide_reflect (completed_run h = [])) as [Hne|Hne]; [lia|]. destruct (Cs Hne) as (_ & -> & _). lia.
Qed.

Lemma rules_run_counts ts h c : rules_run ts = (h, c) -> log_ok h -> counts h c.
Proof.
  revert h c. induction ts as [|[[r o] dt] ts IH]; intros h c; cbn [rules_run]; [intros [= <- <-] _; by split|].
  destruct (rules_run ts) as [h0 c0]. destruct (evaluate ratio_ge r o dt c0) as [c1 res] eqn:E.
  intros [= <- <-] Hok. eapply evaluate_counts; [by eapply IH; [|eapply log_ok_tail]|done|done].
Qed.

Definition some_limit (limit : option Z) (v : Z) : bool := match limit with Some m => m <=? v | None => false end.

Lemma at_least_some_limit limit v : bool_decide (is_Some (at_least limit v)) = some_limit limit v.
Proof. by destruct limit as [m|]; cbn; [destruct (m <=? v)|]. Qed.

(** The decision of every tick can be read off the history of the ticks. The stalled
    rule fires exactly when a running, incomplete torrent has been without progress for
    the configured running time and the rule is armed. The seeding rule fires at most
    once after each completion, when the time seeded since then, the bytes uploaded ever
    or the ratio reaches a limit. The full-speed window closes once after each
    completion, by the time seeded or the bytes uploaded since then, and the cap is in
    force exactly from then on. *)
Theorem rules_follow_history ts h c r o dt res :
  rules_run ts = (mkTick r o dt res :: h, c) -> log_ok (mkTick r o dt res :: h) ->
  let t := mkTick r o dt res in let se := seeding r in let w := speed_window r in
  fired KStalled res =
    (st_enabled (stalled r) && negb (o_finished o) && o_live o &&
     (armed h || (progress_now h <? progress_bytes o)) &&
     (after_secs (stalled r) <=? (if progress_bytes o =? progress_now h then quiet_secs h + dt else 0))) /\
  fired KSeeding res =
    (o_finished o && se_enabled se && negb (fired_since KSeeding h) &&
     (some_limit (max_seed_secs se) (seeded_secs (t :: h)) || some_limit (max_uploaded_bytes se) (uploaded (t :: h)) ||
      match max_ratio se with Some m => ratio_ge (uploaded (t :: h)) (o_total_bytes o) m | None => false end)) /\
  fired KSpeedWindow res =
    (o_finished o && sw_enabled w && negb (fired_since KSpeedWindow h) &&
     (some_limit (full_speed_secs w) (seeded_secs (t :: h)) || some_limit (full_speed_bytes w) (uploaded_since (t :: h)))) /\
  upload_cap_bps res =
    (if o_finished o && sw_enabled w &&
        (bool_decide (is_Some (full_speed_secs w)) || bool_decide (is_Some (full_speed_bytes w))) &&
        fired_since KSpeedWindow (t :: h) && bool_decide (sw_then w = TCap)
     then Some (saturating_mul 32 (cap_kib_per_sec w) 1024) else None).
Proof.
  intros Hrun Hok. cbn zeta. destruct ts as [|[[r' o'] dt'] ts]; [done|]. cbn [rules_run] in Hrun.
  destruct (rules_run ts) as [h0 c0] eqn:E0. destruct (evaluate ratio_ge r' o' dt' c0) as [c1 res1] eqn:E.
  injection Hrun as -> -> -> -> -> ->. pose proof (log_ok_tail _ _ Hok) as Hh.
  pose proof (rules_run_counts _ _ _ E0 Hh) as Hc. pose proof (evaluate_counts _ _ _ _ _ _ _ Hc Hok E) as Hc'.
  destruct (log_ok_sums _ _ _ _ _ Hok) as (Bu & Bq & Bs & Bd).
  destruct (counts_seeding h c0 Hc) as (Ks & Ku & Kf & Kw).
  destruct (counts_seeding _ c Hc') as (_ & _ & _ & Kw').
  apply evaluate_fields in E as (_ & _ & Hst & _ & _ & Hn & Hy).
  unfold stalled_cond in Hst. destruct Hc as [Cp Cu Ci Cl Cc Cs].
  rewrite Cp, Cl, Ci, negb_involutive, wrap_id in Hst by done. split; [done|].
  destruct (o_finished o) eqn:Ef; [|by destruct (Hn eq_refl) as (_ & -> & -> & ->)].
  destruct (Hy eq_refl) as (Hco & _ & _ & Hs & _ & Hw & _ & Hcap). clear Hy Hn.
  assert (Eu : uploaded (mkTick r o dt res :: h) = uploaded h + uploaded_delta o) by
    (change (uploaded (mkTick r o dt res :: h)) with (uploaded_delta o + uploaded h); lia).
  rewrite seeded_secs_cons, uploaded_since_cons, Eu by done. unfold live_secs. cbn [t_obs t_dt]. cbn [andb].
  rewrite Cu, Ks, !wrap_id in Hs, Hw by done. rewrite Kf in Hs. rewrite Kw, (Ku (uploaded h + uploaded_delta o) ltac:(lia) Hh) in Hw.
  replace (bool_decide (is_Some (window_done_unix c))) with
    (fired_since KSpeedWindow (mkTick r o dt res :: h)) in Hcap.
  2:{ rewrite <-(negb_involutive (fired_since _ _)), <-Kw'. destruct Hco as [x ->]. by destruct (window_done_unix c). }
  rewrite !at_least_some_limit in Hs, Hw. rewrite Hcap, Hw, Hs.
  replace ((if o_live o then dt else 0) + seeded_secs h) with (if o_live o then seeded_secs h + dt else seeded_secs h)
    by (destruct (o_live o); lia).
  change (t_uploaded (mkTick r o dt res)) with (uploaded_delta o).
  by replace (uploaded h + uploaded_delta o - uploaded h) with (uploaded_delta o) by lia.
Qed.
End History.

(** A torrent that stays at 5 bytes for twelve seconds, with the rule at ten. *)
Definition ex_rules : TorrentRules (f64 := Z) :=
  mkRules (mkStalled true 10 APause) (SeedingLimits_default (f64 := Z)) SpeedWindow_default.
Definition ex_obs (bytes_ : Z) : Observation := mkObs true false bytes_ 100 0 0.
Definition ex_ticks : list (TorrentRules (f64 := Z) * Observation * Z) :=
  [(ex_rules, ex_obs 5, 6); (ex_rules, ex_obs 5, 6); (ex_rules, ex_obs 5, 6)].

Definition no_ratio (_ _ _ : Z) : bool := false.

Lemma rules_follow_history_witness :
  exists t h, fst (rules_run no_ratio ex_ticks) = t :: h /\ t_fired KStalled t = true.
Proof.
  destruct (rules_run no_ratio ex_ticks) as [l c] eqn:E. vm_compute in E.
  destruct l as [|[r o dt res] h]; [done|]. eexists _, h. split; [done|].
  assert (Hok : log_ok (mkTick r o dt res :: h)).
  { injection E as <- <- <- <- <- <-. split; [repeat constructor; vm_compute; done|vm_compute; done]. }
  destruct (rules_follow_history no_ratio ex_ticks h c r o dt res) as [H _]; [exact E|exact Hok|].
  unfold t_fired. cbn [t_res]. rewrite H. injection E as <- <- <- <- <- <-. vm_compute. done.
Defined.
