(* ===== verification/Initializing.v ===== *)
(** * The initial check ([librqbit::torrent_state::initializing])

    How a torrent that is added or restarted gets its chunk tracker: the bit field
    saved by an earlier run (fast resume) is loaded and spot-checked, and without
    one all the data on the disk is hashed.  The store of bit fields is an
    interface, the random choice of the pieces to check and the floating-point
    progress are parameters. *)

From stdpp Require Import base tactics option list list_numbers numbers decidable sets gmap fin_maps strings.
From Stdlib Require Import ZArith Lia.
From S2P Require Import Prelude Lengths FileInfo ChunkTracker PieceCompletion DoubleBuf Message Metainfo.
From S2P Require Import Net PieceTracker Storage FileOps Download Repair Damage.
Open Scope Z_scope.

Definition MAX_FASTRESUME_CHECKS : nat := 64.

(** ** Saved bit fields *)

(** The trait: calls change the store and may fail. *)
Class BitVFactory (B E : Type) := {
  bv_load : io B E (option BF);
  bv_clear : io B E ();
  bv_store_initial_check : BF -> io B E BF
}.

(** The factory used without persistence. *)
Definition NonPersistentBitVFactory : BitVFactory () () := {|
  bv_load := mret None;
  bv_clear := mret ();
  bv_store_initial_check b := mret b
|}.
#[export] Existing Instance NonPersistentBitVFactory.

(** What the check relies on: no panic, and the bits that are stored come back. *)
Class BitVSpec (B E : Type) `{BitVFactory B E} := {
  load_np s : (bv_load s).2 <> XPanic;
  clear_np s : (bv_clear s).2 <> XPanic;
  store_spec b s :
    match (bv_store_initial_check b s).2 with XOk b' => b' = b | XErr _ => True | XPanic => False end
}.

#[export] Instance NonPersistent_spec : BitVSpec () ().
Proof. by split. Qed.

Inductive InitError (E : Type) :=
| SessionIsDead
| LoadingHavePieces (e : E)
| ClearingBitfield (e : E)
| CheckFailed (e : FoError E)
| StoringInitialCheck (e : E)
| CreatingChunkTracker (e : CtError)
| SettingLength (e : E)
| TakingFiles (e : E).
Arguments SessionIsDead {E}.
Arguments LoadingHavePieces {E} e.
Arguments ClearingBitfield {E} e.
Arguments CheckFailed {E} e.
Arguments StoringInitialCheck {E} e.
Arguments CreatingChunkTracker {E} e.
Arguments SettingLength {E} e.
Arguments TakingFiles {E} e.

Section Initializing.
Context {St E B : Type} `{TorrentStorage St E, BitVFactory B E} (sha1 : bytes -> bytes).

(** The rest of the storage trait that the check uses. *)
Context (ensure_file_length : nat -> Z -> io St E ()) (take_files : St -> exec E St).

(** [format!("{e:#}")] and the causes of an error. *)
Context (e_chain : E -> list cause) (e_text : FoError E -> list Z).

(** [sample] of a random generator, [random_ratio(1, denom)] for the n-th piece of the
    sample, and the progress in floating point. *)
Context (sample : nat -> list nat -> list nat) (coin : nat -> Z -> bool) (scale : Z -> Z -> Z -> Z).

Fixpoint fo_chain (e : FoError E) : list cause :=
  match e with
  | FoStorage e => e_chain e
  | FoReadingChunk _ _ e | FoReadingFile _ _ e | FoFile _ e => CContext ""%string :: fo_chain e
  | FoMsg _ => [CContext ""%string]
  end.

(** [e.downcast_ref::<FileIoError>()]. *)
Fixpoint file_io_error (e : FoError E) : option FileIoError :=
  match e with
  | FoFile ctx _ => Some ctx
  | FoReadingChunk _ _ e | FoReadingFile _ _ e => file_io_error e
  | FoStorage _ | FoMsg _ => None
  end.

(** What the check works on. *)
Record InitWorld := mkW {
  w_files : St;
  w_bitv : B;
  w_damage : DamageTracker;
  checked_bytes : Z
}.

(** Without the event for the log. *)
Definition note_check_read_error (file_id : nat) (piece : Z) (e : FoError E) (now : Z) (t : DamageTracker)
    : DamageTracker :=
  if anyhow_is_missing_data (fo_chain e) then t
  else (record_failure (Some (Z.of_nat file_id)) piece (anyhow_is_eio (fo_chain e)) (e_text e) now t).1.

Definition set_damage (f : DamageTracker -> DamageTracker) (w : InitWorld) : InitWorld :=
  mkW (w_files w) (w_bitv w) (f (w_damage w)) (checked_bytes w).

Definition set_checked (n : Z) (w : InitWorld) : InitWorld :=
  mkW (w_files w) (w_bitv w) (w_damage w) n.

(** At least one piece of every file, if there is one: the piece is moved from the
    queue to the pieces to validate. *)
Definition pick_file (hp : BF) (st : BF * BF) (fi : FileInfo) : outcome (BF * BF) :=
  let '(to_validate, queue) := st in
  let prange := (Z.to_nat (piece_range_usize fi).1, Z.to_nat (piece_range_usize fi).2) in
  match slice_get hp prange.1 prange.2 ≫= fun s => head (iter_ones s) with
  | None => Ret st
  | Some pid =>
      let piece_id := (pid + prange.1)%nat in
      to_validate ← slice_set to_validate piece_id true;
      queue ← slice_set queue piece_id false;
      Ret (to_validate, queue)
  end.

(** A few of the others, with decreasing probability. *)
Definition pick_random (to_validate : BF) (p : nat * nat) : outcome BF :=
  let '(tmp_id, piece_id) := p in
  if coin tmp_id (Z.min (Z.of_nat tmp_id + 1) 50) then slice_set to_validate piece_id true else Ret to_validate.

Definition pieces_to_validate (fis : list FileInfo) (l : Lengths) (hp : BF) : outcome BF :=
  r ← foldM (pick_file hp) (bf_zeroed (piece_bitfield_bytes l), hp) fis;
  foldM pick_random r.1 (imap pair (sample MAX_FASTRESUME_CHECKS (iter_ones r.2))).

(** Reads and hashes the chosen pieces; a piece that can not be read ends the loop. *)
Fixpoint validate_pieces (fo : FileOps) (now count : Z) (id : Z) (ps : list ValidPieceIndex) (w : InitWorld)
    : InitWorld * outcome bool :=
  match ps with
  | [] => (w, Ret false)
  | p :: ps =>
      match check_piece sha1 fo (w_files w) p with
      | XPanic => (w, Panic)
      | XErr e =>
          (match file_io_error e with
           | Some f => set_damage (note_check_read_error (fe_file_id f) p e now) w
           | None => w
           end, Ret true)
      | XOk _ =>
          let total := ln_total_length (fo_lengths fo) in
          validate_pieces fo now count (id + 1) ps (set_checked (Z.min (scale total count (id + 1)) total) w)
      end
  end.

Definition lift_bitv {A} (ctx : E -> InitError E) (m : io B E A) : io InitWorld (InitError E) A := fun w =>
  let '(b, r) := m (w_bitv w) in (mkW (w_files w) b (w_damage w) (checked_bytes w), exec_map_err ctx r).

Definition lift_files {A} (ctx : E -> InitError E) (m : io St E A) : io InitWorld (InitError E) A := fun w =>
  let '(s, r) := m (w_files w) in (mkW s (w_bitv w) (w_damage w) (checked_bytes w), exec_map_err ctx r).

(** An error of [m] is logged and dropped. *)
Definition ignore_err (m : io InitWorld (InitError E) ()) : io InitWorld (InitError E) () := fun w =>
  match m w with (w, XErr _) => (w, XOk ()) | r => r end.

Definition validate_fastresume (fo : FileOps) (now : Z) (have_pieces : option BF)
    : io InitWorld (InitError E) (option BF) := fun w =>
  match have_pieces with
  | None => (w, XOk None)
  | Some hp =>
      let expected := piece_bitfield_bytes (fo_lengths fo) in
      if negb (Z.of_nat (length hp) =? 8 * expected) then (w, XOk None)
      else
        match pieces_to_validate (fo_file_infos fo) (fo_lengths fo) hp with
        | Panic => (w, XPanic)
        | Ret to_validate =>
            let ids := iter_ones to_validate in
            match validate_pieces fo now (Z.of_nat (length ids)) 0
                    (omap (fun id => try_into 32 (Z.of_nat id) ≫= validate_piece_index (fo_lengths fo)) ids) w with
            | (w, Panic) => (w, XPanic)
            | (w, Ret true) =>
                (_ ← ignore_err (lift_bitv ClearingBitfield bv_clear); _ ← io_modify (set_checked 0); mret None) w
            | (w, Ret false) => (w, XOk (Some hp))
            end
        end
  end.

(** The full check; [paused] is what each load of [pause_requested] returns.  The
    errors it reports are noted when it ends. *)
Definition full_check (fo : FileOps) (paused : Z -> bool) (now : Z) : io InitWorld (InitError E) BF := fun w =>
  match initial_check sha1 (fun e => anyhow_is_missing_data (fo_chain e)) fo (w_files w) paused (checked_bytes w) with
  | XPanic => (w, XPanic)
  | XErr e => (w, XErr (CheckFailed e))
  | XOk (hv, progress, reported) =>
      let t := foldl (fun t (r : nat * ValidPieceIndex * FoError E) =>
                 note_check_read_error r.1.1 r.1.2 r.2 now t) (w_damage w) reported in
      (mkW (w_files w) (w_bitv w) t progress, XOk hv)
  end.

Definition is_selected (only_files : option (list nat)) (idx : nat) : bool :=
  match only_files with Some o => bool_decide (idx ∈ o) | None => true end.

(** The lengths of the selected files; errors are logged. *)
Definition ensure_file_lengths (fo : FileOps) (only_files : option (list nat)) : io InitWorld (InitError E) () :=
  foldM (fun _ (p : nat * FileInfo) =>
      let '(idx, fi) := p in
      if is_selected only_files idx then
        if fa_padding (fi_attrs fi) then mret ()
        else ignore_err (lift_files SettingLength (ensure_file_length idx (fi_len fi)))
      else mret ())
    () (imap pair (fo_file_infos fo)).

(** The saved bit field; none is used after an error. *)
Definition load_have_pieces (previously_errored : bool) : io InitWorld (InitError E) (option BF) :=
  if previously_errored then _ ← ignore_err (lift_bitv ClearingBitfield bv_clear); mret None
  else lift_bitv LoadingHavePieces bv_load.

(** The first half of [check]: the pieces the torrent has. *)
Definition get_have_pieces (fo : FileOps) (previously_errored : bool) (paused : Z -> bool) (now : Z)
    : io InitWorld (InitError E) BF :=
  have_pieces ← load_have_pieces previously_errored;
  have_pieces ← validate_fastresume fo now have_pieces;
  match have_pieces with
  | Some h => mret h
  | None => hv ← full_check fo paused now; lift_bitv StoringInitialCheck (bv_store_initial_check hv)
  end.

(** [TorrentStateInitializing::check]; the paused state is given by its chunk tracker
    and its files. *)
Definition check (fo : FileOps) (session_alive previously_errored : bool) (only_files : option (list nat))
    (paused : Z -> bool) (now : Z) : io InitWorld (InitError E) (ChunkTracker * St) :=
  _ ← io_lift (if session_alive then XOk () else XErr SessionIsDead);
  have_pieces ← get_have_pieces fo previously_errored paused now;
  let selected_pieces := compute_selected_pieces (fo_lengths fo) (is_selected only_files) (fo_file_infos fo) in
  chunk_tracker ← io_lift (exec_map_err CreatingChunkTracker
    (ChunkTracker_new have_pieces selected_pieces (fo_lengths fo) (fo_file_infos fo)));
  _ ← ensure_file_lengths fo only_files;
  w ← (fun w => (w, XOk w));
  files ← io_lift (exec_map_err TakingFiles (take_files (w_files w)));
  mret (chunk_tracker, files).
End Initializing.

(** ** The pieces chosen for validation *)

Section Choice.
Context (sample : nat -> list nat -> list nat) (coin : nat -> Z -> bool).
Hypothesis sample_subset : forall n l, sample n l ⊆ l.

Definition file_bits (fi : FileInfo) (j : nat) : Prop :=
  (Z.to_nat (fi_piece_range fi).1 <= j < Z.to_nat (fi_piece_range fi).2)%nat.

(** The first set bit of the file, if any. *)
Lemma first_of_file (hp : BF) fi (n := length hp) :
  (Z.to_nat (fi_piece_range fi).1 <= Z.to_nat (fi_piece_range fi).2 <= n)%nat ->
  match slice_get hp (Z.to_nat (fi_piece_range fi).1) (Z.to_nat (fi_piece_range fi).2) ≫= fun s => head (iter_ones s) with
  | None => forall j, file_bits fi j -> bit hp j = false
  | Some pid =>
      file_bits fi (pid + Z.to_nat (fi_piece_range fi).1) /\ bit hp (pid + Z.to_nat (fi_piece_range fi).1) = true
  end.
Proof.
  unfold file_bits. set (a := Z.to_nat (fi_piece_range fi).1). set (b := Z.to_nat (fi_piece_range fi).2). intros Hr.
  rewrite (proj2 (slice_get_Some hp (take (b - a) (drop a hp)) a b)) by (split; [lia|done]). cbn.
  destruct (iter_ones (take (b - a) (drop a hp))) as [|pid l] eqn:E; cbn.
  - intros j Hj. apply not_true_iff_false. rewrite bit_true. intros Hb.
    assert (Hin : (j - a)%nat ∈ iter_ones (take (b - a) (drop a hp))).
    { apply elem_of_iter_ones. rewrite lookup_slice by lia. by replace (a + (j - a))%nat with j by lia. }
    rewrite E in Hin. by apply not_elem_of_nil in Hin.
  - assert (Hin : pid ∈ iter_ones (take (b - a) (drop a hp))) by (rewrite E; left).
    apply elem_of_iter_ones in Hin. pose proof (lookup_lt_Some _ _ _ Hin) as Hl.
    rewrite length_take, length_drop in Hl. rewrite lookup_slice in Hin by lia.
    split; [lia|]. apply bit_true. by rewrite Nat.add_comm.
Qed.

(** [tv'] and [q'] come from [tv] and [q] by moving set bits of [hp]. *)
Definition moved (hp tv q tv' q' : BF) : Prop :=
  length tv' = length hp /\ length q' = length hp /\
  (forall j, bit tv j = true -> bit tv' j = true) /\
  (forall j, bit tv' j = true -> bit tv j = true \/ bit hp j = true) /\
  (forall j, bit q' j = true -> bit q j = true).

Lemma pick_file_ok (hp : BF) fi tv q :
  (Z.to_nat (fi_piece_range fi).1 <= Z.to_nat (fi_piece_range fi).2 <= length hp)%nat ->
  length tv = length hp -> length q = length hp ->
  exists tv' q', pick_file hp (tv, q) fi = Ret (tv', q') /\ moved hp tv q tv' q' /\
    (forall j, file_bits fi j -> bit hp j = true -> exists k, file_bits fi k /\ bit tv' k = true).
Proof.
  intros Hr Ht Hq. pose proof (first_of_file hp fi Hr) as Hf. unfold pick_file, piece_range_usize. cbn [fst snd].
  destruct (slice_get hp _ _ ≫= _) as [pid|].
  - destruct Hf as [Hfb Hbit]. set (p := (pid + Z.to_nat (fi_piece_range fi).1)%nat) in *.
    assert (p < length hp)%nat as Hlt by (apply bit_true in Hbit; by apply lookup_lt_Some in Hbit).
    rewrite slice_set_lt by lia. cbn [mbind outcome_bind]. rewrite slice_set_lt by lia.
    eexists _, _. split; [done|]. unfold moved. rewrite !length_insert. split_and!; try done.
    + intros j Hj. rewrite bit_insert by lia. by case_decide.
    + intros j. rewrite bit_insert by lia. case_decide; [subst j; by right|by left].
    + intros j. rewrite bit_insert by lia. by case_decide.
    + intros j _ _. exists p. split; [done|]. rewrite bit_insert by lia. by rewrite decide_True.
  - exists tv, q. split; [done|]. split; [by split_and!; try done; left|]. intros j Hb Hh. by rewrite Hf in Hh.
Qed.

Lemma pick_files_ok (hp : BF) fis tv q :
  (forall fi, fi ∈ fis -> (Z.to_nat (fi_piece_range fi).1 <= Z.to_nat (fi_piece_range fi).2 <= length hp)%nat) ->
  length tv = length hp -> length q = length hp ->
  exists tv' q', foldM (pick_file hp) (tv, q) fis = Ret (tv', q') /\ moved hp tv q tv' q' /\
    (forall fi j, fi ∈ fis -> file_bits fi j -> bit hp j = true -> exists k, file_bits fi k /\ bit tv' k = true).
Proof.
  revert tv q. induction fis as [|fi fis IH]; intros tv q Hr Ht Hq.
  { exists tv, q. split; [done|]. split; [by split_and!; try done; left|]. by intros fi j ?%not_elem_of_nil. }
  destruct (pick_file_ok hp fi tv q (Hr fi ltac:(left)) Ht Hq) as (tv1 & q1 & E & (L1 & L2 & M1 & S1 & Q1) & Hf).
  destruct (IH tv1 q1) as (tv' & q' & E' & (L3 & L4 & M2 & S2 & Q2) & Hfs); [intros ? ?; apply Hr; by right|done..|].
  exists tv', q'. cbn [foldM]. rewrite E. cbn [mbind outcome_bind]. split; [done|]. split.
  - split_and!; try done; [naive_solver| |naive_solver]. intros j [Hj|?]%S2; [by apply S1|by right].
  - intros fi' j [->|Hin]%elem_of_cons Hb Hh; [|by eapply Hfs].
    destruct (Hf j Hb Hh) as (k & ? & ?). exists k. auto.
Qed.

Lemma pieces_to_validate_ok fis l (hp : BF) :
  lengths_wf l -> Forall (file_wf l) fis -> length hp = Z.to_nat (8 * piece_bitfield_bytes l) ->
  exists tv, pieces_to_validate sample coin fis l hp = Ret tv /\
    (forall j, bit tv j = true -> bit hp j = true) /\
    (forall fi j, fi ∈ fis -> file_bits fi j -> bit hp j = true -> exists k, file_bits fi k /\ bit tv k = true).
Proof.
  intros Hl Hf Hlen. unfold pieces_to_validate.
  destruct (pick_files_ok hp fis (bf_zeroed (piece_bitfield_bytes l)) hp) as (tv & q & -> & (L1 & L2 & _ & Hs & Hq) & Hfile);
    [|by rewrite length_bf_zeroed|done|].
  { intros fi Hin. rewrite Hlen. apply file_range_in_bits; [done|]. by eapply Forall_forall in Hf. }
  cbn [mbind outcome_bind fst snd].
  destruct (foldM_inv (pick_random coin) (fun b => length b = length hp /\
      (forall j, bit tv j = true -> bit b j = true) /\ (forall j, bit b j = true -> bit hp j = true))
    (imap pair (sample MAX_FASTRESUME_CHECKS (iter_ones q))) tv) as (tv' & -> & _ & M & S').
  - split_and!; [done|done|]. intros j [Hz|?]%Hs; [by rewrite bit_zeroed in Hz|done].
  - intros b [k pid] (Lb & Mb & Sb) Hin. unfold pick_random.
    destruct (coin k _); [|by exists b].
    assert (bit q pid = true) as Hb.
    { apply bit_true, elem_of_iter_ones, (sample_subset MAX_FASTRESUME_CHECKS).
      apply elem_of_lookup_imap in Hin as (i & y & [= _ <-] & Hy). by eapply list_elem_of_lookup_2. }
    apply Hq in Hb. assert (pid < length hp)%nat by (apply bit_true in Hb; by apply lookup_lt_Some in Hb).
    rewrite slice_set_lt by lia. eexists. split; [done|]. rewrite length_insert. split_and!; [done|..].
    + intros j Hj. rewrite bit_insert by lia. case_decide; [done|by apply Mb].
    + intros j Hj. rewrite bit_insert in Hj by lia. case_decide; [by subst|by apply Sb].
  - exists tv'. split_and!; [done|done|]. intros fi j Hin Hb Hh.
    destruct (Hfile fi j Hin Hb Hh) as (k & ? & ?). exists k. split; [done|by apply M].
Qed.
End Choice.

Section Correct.
Context {St E B : Type} `{StorageSpec St E, BitVSpec B E} (sha1 : bytes -> bytes).
Context (ensure_file_length : nat -> Z -> io St E ()) (take_files : St -> exec E St).
Context (e_chain : E -> list cause) (e_text : FoError E -> list Z).
Context (sample : nat -> list nat -> list nat) (coin : nat -> Z -> bool) (scale : Z -> Z -> Z -> Z).
Hypothesis sample_subset : forall n l, sample n l ⊆ l.

(** [set_len] keeps what is before the new end, and taking the files keeps all. *)
Hypothesis ensure_spec : forall f n s,
  (ensure_file_length f n s).2 <> XPanic /\
  forall f' o b, (f' <> f \/ o < n) -> view s f' o = Some b -> view (ensure_file_length f n s).1 f' o = Some b.
Hypothesis take_spec : forall s,
  match take_files s with
  | XOk s' => forall f o b, view s f o = Some b -> view s' f o = Some b
  | XErr _ => True
  | XPanic => False
  end.

(** [s'] has what [s] has of the torrent. *)
Definition keeps (fis : list FileInfo) (s s' : St) : Prop :=
  forall k fi o b, fis !! k = Some fi -> o < fi_len fi -> view s k o = Some b -> view s' k o = Some b.

Lemma flat_at_keeps fis idx s s' p b :
  (forall k fi o c, fis !! k = Some fi -> o < fi_len fi -> view s (idx + k)%nat o = Some c -> view s' (idx + k)%nat o = Some c) ->
  flat_at fis idx s p = Some b -> flat_at fis idx s' p = Some b.
Proof.
  revert idx p. induction fis as [|fi fis IH]; intros idx p Hv; [done|]. cbn [flat_at].
  destruct (Z.ltb_spec p (fi_len fi)).
  - destruct (fa_padding _); [done|]. intros Hp. pose proof (Hv 0%nat fi p b eq_refl) as Hv0. rewrite Nat.add_0_r in Hv0. by apply Hv0.
  - apply IH. intros k fi' o c Hk Ho. replace (S idx + k)%nat with (idx + S k)%nat by lia. exact (Hv (S k) fi' o c Hk Ho).
Qed.

Lemma verified_keeps fo s s' i :
  keeps (fo_file_infos fo) s s' -> verified sha1 fo s i -> verified sha1 fo s' i.
Proof.
  intros Hk (bs & Hl & Hh & Hg). exists bs. split_and!; [done| |done]. intros j Hj.
  destruct (bs !! j) as [b|] eqn:Eb; [|by apply lookup_ge_None in Eb; lia].
  eapply flat_at_keeps; [exact Hk|]. by rewrite Hh.
Qed.

Lemma keeps_refl fis s : keeps fis s s.
Proof. by intros k fi o b. Qed.

Lemma keeps_trans fis s1 s2 s3 : keeps fis s1 s2 -> keeps fis s2 s3 -> keeps fis s1 s3.
Proof. intros H1' H2' k fi o b Hk Ho Hv. eauto. Qed.

Lemma validate_pieces_spec fo now count id ps w :
  fo_ok fo -> Forall (valid_piece (fo_lengths fo)) ps ->
  exists w' b, validate_pieces (B:=B) sha1 e_chain e_text scale fo now count id ps w = (w', Ret b) /\
    w_files w' = w_files w /\ w_bitv w' = w_bitv w /\
    (b = false -> forall p, p ∈ ps -> exists c, check_piece sha1 (E:=E) fo (w_files w) p = XOk c).
Proof.
  intros Hok. revert id w. induction ps as [|p ps IH]; intros id w Hv; cbn [validate_pieces].
  { exists w, false. split_and!; try done. by intros _ p ?%not_elem_of_nil. }
  apply Forall_cons in Hv as [Hp Hv]. pose proof (check_piece_spec sha1 (E:=E) fo (w_files w) p Hok Hp) as Hnp.
  destruct (check_piece sha1 fo (w_files w) p) as [c|e|] eqn:Ec; [|destruct (file_io_error e); eexists _, true; by split_and!|done].
  match goal with |- context [set_checked ?n w] =>
    destruct (IH (id + 1) (set_checked n w) Hv) as (w' & b & -> & Hf & Hb & Hall) end. exists w', b.
  split_and!; [done|done|done|]. intros -> q [->|Hq]%elem_of_cons; [by exists c|by apply Hall].
Qed.

(** The resume data is kept only when a piece of every file it has pieces of could be
    read. *)
Definition spot_checked (fo : FileOps) (s : St) (hp : BF) : Prop :=
  forall fi j, fi ∈ fo_file_infos fo -> file_bits fi j -> bit hp j = true ->
    exists k c, file_bits fi k /\ bit hp k = true /\ check_piece sha1 (E:=E) fo s (Z.of_nat k) = XOk c.

Lemma file_bits_valid l fi k :
  lengths_wf l -> file_wf l fi -> file_bits fi k -> valid_piece l (Z.of_nat k).
Proof.
  intros Hl [Hr ? ? ?] Hk. unfold file_bits, valid_piece in *. destruct (Z.eq_dec (fi_len fi) 0) as [E0|].
  - rewrite Hr, E0, file_range_spec in Hk by (done || lia). simpl in Hk. lia.
  - pose proof (file_range_bounds l (fi_offset_in_torrent fi) (fi_len fi) Hl) as Hb.
    rewrite <- Hr in Hb. cbn zeta in Hb. lia.
Qed.

Lemma validate_fastresume_spec fo now hp w :
  fo_ok fo ->
  exists w' r, validate_fastresume sha1 e_chain e_text sample coin scale fo now hp w = (w', XOk r) /\
    w_files w' = w_files w /\
    (forall h, r = Some h -> hp = Some h /\ length h = Z.to_nat (8 * piece_bitfield_bytes (fo_lengths fo)) /\
       spot_checked fo (w_files w) h).
Proof.
  intros Hok. destruct (Hok) as [Hl _ _ Hf _]. pose proof (last_id_spec _ Hl) as Hlast.
  unfold validate_fastresume. destruct hp as [hp|]; [|by exists w, None].
  destruct (Z.eqb_spec (Z.of_nat (length hp)) (8 * piece_bitfield_bytes (fo_lengths fo))) as [Elen|]; cbn [negb];
    [|by exists w, None].
  destruct (pieces_to_validate_ok sample coin sample_subset (fo_file_infos fo) (fo_lengths fo) hp Hl Hf
    ltac:(lia)) as (tv & -> & Hs & Hfile).
  match goal with |- context [validate_pieces _ _ _ _ _ _ ?n _ ?ps _] =>
    destruct (validate_pieces_spec fo now n 0 ps w Hok) as (w' & b & -> & Wf & Wb & Hall) end.
  { apply Forall_forall. intros p (k & _ & Hk)%list_elem_of_omap. unfold validate_piece_index in Hk.
    destruct (try_into 32 (Z.of_nat k)) as [z|] eqn:Ez; [|done]. apply try_into_Some in Ez as [? ->]. cbn in Hk.
    destruct (Z.gtb_spec (Z.of_nat k) (ln_last_piece_id (fo_lengths fo))); simplify_eq. unfold valid_piece. lia. }
  destruct b.
  - unfold ignore_err, lift_bitv, mbind, io_bind, io_modify, mret, io_ret.
    destruct (bv_clear (w_bitv w')) as [b' [[]|e|]] eqn:Ec; cbn.
    + by eexists _, None.
    + by eexists _, None.
    + pose proof (clear_np (w_bitv w')) as Hc. by rewrite Ec in Hc.
  - eexists w', (Some hp). split_and!; [done|done|]. intros h [= <-]. split_and!; [done|lia|].
    intros fi j Hin Hb Hh. destruct (Hfile fi j Hin Hb Hh) as (k & Hkb & Hk).
    assert (valid_piece (fo_lengths fo) (Z.of_nat k)) as Hkv.
    { eapply file_bits_valid; [done| |done]. by eapply Forall_forall in Hf. }
    destruct (Hall eq_refl (Z.of_nat k)) as (c & Hc); [|exists k, c; auto].
    apply list_elem_of_omap. exists k. split; [by apply elem_of_iter_ones, bit_true|].
    unfold valid_piece in Hkv. rewrite try_into_small by (unfold is_uint; lia). cbn. unfold validate_piece_index.
    destruct (Z.gtb_spec (Z.of_nat k) (ln_last_piece_id (fo_lengths fo))); [lia|done].
Qed.

(** The bits after the check of all the data: a set bit means that the stored bytes of
    the piece have its hash, or, only where the storage cannot be read, that those of
    its stored bytes that are outside of an unreadable file have. *)
Definition bits_sound (fo : FileOps) (s : St) (hv : BF) : Prop :=
  forall i, valid_piece (fo_lengths fo) i -> bit hv (Z.to_nat i) = true ->
    bit_means (E:=E) sha1 fo s (readable (E:=E) (fo_file_infos fo) s) i.

Definition bits_complete (fo : FileOps) (s : St) (hv : BF) : Prop :=
  readable (E:=E) (fo_file_infos fo) s ->
  forall i, valid_piece (fo_lengths fo) i -> verified sha1 fo s i -> bit hv (Z.to_nat i) = true.

Definition hashes_known (fo : FileOps) : Prop :=
  forall i, valid_piece (fo_lengths fo) i -> is_Some (get_hash (fo_info fo) i).

Lemma full_check_spec fo paused now w :
  fo_ok fo -> hashes_known fo ->
  exists w' r, full_check (B:=B) sha1 e_chain e_text fo paused now w = (w', r) /\
    w_files w' = w_files w /\ w_bitv w' = w_bitv w /\
    match r with
    | XOk hv => length hv = Z.to_nat (8 * piece_bitfield_bytes (fo_lengths fo)) /\
        bits_sound fo (w_files w) hv /\ bits_complete fo (w_files w) hv
    | XErr e => e = CheckFailed (FoMsg CheckPaused) /\ ~ (forall i, paused i = false)
    | XPanic => False
    end.
Proof.
  intros Hok Hh. unfold full_check. set (missing := fun e => anyhow_is_missing_data _).
  destruct (initial_check_correct sha1 missing fo (w_files w) (fun _ => false) (checked_bytes w) Hok
    ltac:(done) Hh) as (hv & prog & rep & Hrun & Hlen & Hs & Hc).
  destruct (initial_check_paused sha1 missing fo (w_files w) paused (checked_bytes w)) as [E1|E1]; rewrite E1.
  - exists w, (XErr (CheckFailed (FoMsg CheckPaused))). split_and!; try done. intros Hp.
    destruct (initial_check_correct sha1 missing fo (w_files w) paused (checked_bytes w) Hok Hp Hh)
      as (? & ? & ? & E2 & _). congruence.
  - rewrite Hrun. eexists _, (XOk hv). split_and!; try done. intros Hr i Hi Hv. by apply Hc.
Qed.

Lemma ensure_file_lengths_spec fo only w :
  exists w', ensure_file_lengths (B:=B) ensure_file_length fo only w = (w', XOk ()) /\
    keeps (fo_file_infos fo) (w_files w) (w_files w') /\ w_bitv w' = w_bitv w.
Proof.
  unfold ensure_file_lengths.
  assert (Hin : Forall (fun p => fo_file_infos fo !! p.1 = Some p.2) (imap pair (fo_file_infos fo))).
  { apply Forall_forall. intros p (i & fi & -> & Hi)%elem_of_lookup_imap. done. }
  revert w. induction Hin as [|[idx fi] ps Hp Hps IH]; intros w; [exists w; auto using keeps_refl|]. cbn [foldM].
  unfold mbind at 1, io_bind at 1. cbn [fst snd] in Hp.
  destruct (is_selected only idx); [|apply IH]. destruct (fa_padding (fi_attrs fi)); [apply IH|].
  unfold ignore_err, lift_files. destruct (ensure_spec idx (fi_len fi) (w_files w)) as [Hnp Hk].
  destruct (ensure_file_length idx (fi_len fi) (w_files w)) as [s1 r]. cbn [fst snd] in *.
  assert (keeps (fo_file_infos fo) (w_files w) s1) as Hk1.
  { intros k fi' o b Hfi Ho. apply Hk. destruct (decide (k = idx)) as [->|]; [right; congruence|by left]. }
  destruct r as [[]|e|]; [| |done]; cbn [exec_map_err];
    (destruct (IH (mkW s1 (w_bitv w) (w_damage w) (checked_bytes w))) as (w' & E1 & Hk2 & Hb); exists w';
     split_and!; [exact E1|by eapply keeps_trans|done]).
Qed.

(** The bit field the check starts from. *)
Lemma load_spec (errored : bool) w :
  exists w' r,
    load_have_pieces (St:=St) errored w = (w', r) /\
    w_files w' = w_files w /\ r <> XPanic /\
    (forall hp, r = XOk (Some hp) -> errored = false /\ (bv_load (w_bitv w)).2 = XOk (Some hp)) /\
    (errored = true \/ is_ok (bv_load (w_bitv w)).2 = true -> exists hp, r = XOk hp).
Proof.
  unfold load_have_pieces. destruct errored; unfold ignore_err, lift_bitv, mbind, io_bind, mret, io_ret.
  - pose proof (clear_np (w_bitv w)) as Hc. destruct (bv_clear (w_bitv w)) as [b [[]|e|]]; cbn; [| |done];
      eexists _, _; split_and!; try done; by eexists.
  - pose proof (load_np (w_bitv w)) as Hc. destruct (bv_load (w_bitv w)) as [b [hp|e|]]; cbn; [| |done];
      eexists _, _; split_and!; try done; [|by eexists|by intros [?|?]]. by intros hp' [= ->].
Qed.

Abbreviation run_check := (check sha1 ensure_file_length take_files e_chain e_text sample coin scale).

(** The bit field of a successful check and where it came from. *)
Definition have_ok (fo : FileOps) (errored : bool) (w : InitWorld) (hv : BF) : Prop :=
  length hv = Z.to_nat (8 * piece_bitfield_bytes (fo_lengths fo)) /\
  (bits_sound fo (w_files w) hv /\ bits_complete fo (w_files w) hv
   \/ errored = false /\ (bv_load (w_bitv w)).2 = XOk (Some hv) /\ spot_checked fo (w_files w) hv).

(** The check up to the bit field. *)
Lemma have_pieces_spec fo errored paused now w :
  fo_ok fo -> hashes_known fo ->
  exists w' r,
    get_have_pieces sha1 e_chain e_text sample coin scale fo errored paused now w = (w', r) /\
    w_files w' = w_files w /\ r <> XPanic /\ (forall hv, r = XOk hv -> have_ok fo errored w hv) /\
    (errored = true \/ is_ok (bv_load (w_bitv w)).2 = true -> (forall i, paused i = false) ->
     (forall b st, is_ok (bv_store_initial_check b st).2 = true) -> exists hv, r = XOk hv).
Proof.
  intros Hok Hh. unfold get_have_pieces, mbind at 1, io_bind at 1.
  destruct (load_spec errored w) as (w1 & r1 & -> & F1 & Hnp & Hl & Hlo).
  destruct r1 as [hp|e|]; [| |done].
  2:{ eexists _, _. split_and!; try done. intros Hx _ _. by destruct (Hlo Hx). }
  unfold mbind at 1, io_bind at 1.
  destruct (validate_fastresume_spec fo now hp w1 Hok) as (w2 & r2 & -> & F2 & Hres).
  destruct r2 as [h|].
  { exists w2, (XOk h). split_and!; try done; [congruence| |by exists h].
    intros hv [= <-]. destruct (Hres h eq_refl) as (-> & Hlen & Hsp). destruct (Hl h eq_refl) as [-> Hload].
    split; [done|]. right. by rewrite F1 in Hsp. }
  unfold mbind, io_bind. destruct (full_check_spec fo paused now w2 Hok Hh) as (w3 & r3 & -> & F3 & B3 & Hr3).
  destruct r3 as [hv|e|]; [| |done].
  2:{ destruct Hr3 as [_ Hp]. eexists _, _. split_and!; try done. congruence. }
  unfold lift_bitv. pose proof (store_spec hv (w_bitv w3)) as Hst.
  destruct (bv_store_initial_check hv (w_bitv w3)) as [b4 r4] eqn:E4. cbn [snd] in Hst.
  eexists _, _. split; [done|]. cbn [w_files]. split; [congruence|]. destruct r4 as [hv'|e|]; [|split_and!; try done|done].
  - subst hv'. split_and!; [done| |by exists hv]. intros ? [= <-]. destruct Hr3 as (? & ? & ?). split; [done|]. left.
    by rewrite F2, F1 in *.
  - intros _ _ Hs. specialize (Hs hv (w_bitv w3)). by rewrite E4 in Hs.
Qed.

(** C25: the check that a torrent starts with never panics, and without errors of the
    storage or a request to pause it gives a state. The chunk tracker of that state is
    well formed for the selected files.  Where all data was hashed and the storage can be
    read, its pieces are exactly those whose stored bytes have the hash of the metainfo;
    where some read fails, a piece it has is verified or is one of which a part of the
    stored bytes has that hash (the code leaves out a file that failed for an earlier
    piece and compares the rest).  Otherwise its pieces are the saved bit field, which is
    used only when nothing went wrong before and, of every file it has pieces of, at
    least one such piece could be read; the hashes of those pieces are not compared.  The
    data of the torrent is left as it was. *)
Theorem check_correct (fo : FileOps) (alive errored : bool) (only : option (list nat)) (paused : Z -> bool)
    (now : Z) (w : InitWorld) :
  fo_ok fo -> lengths_small (fo_lengths fo) -> hashes_known fo ->
  exists w' r, run_check fo alive errored only paused now w = (w', r) /\ r <> XPanic /\
    (forall ct files, r = XOk (ct, files) ->
       ct_wf ct /\ ct_lengths ct = fo_lengths fo /\
       selected ct = compute_selected_pieces (fo_lengths fo) (is_selected only) (fo_file_infos fo) /\
       keeps (fo_file_infos fo) (w_files w) files /\
       have_ok fo errored w (have ct)) /\
    (alive = true -> errored = true \/ is_ok (bv_load (w_bitv w)).2 = true -> (forall i, paused i = false) ->
     (forall b st, is_ok (bv_store_initial_check b st).2 = true) -> (forall s, is_ok (take_files s) = true) ->
     exists x, r = XOk x).
Proof.
  intros Hok Hsm Hh. unfold check, mbind at 1, io_bind at 1, io_lift at 1.
  destruct alive; [|by eexists _, _]. unfold mbind at 1, io_bind at 1.
  destruct (have_pieces_spec fo errored paused now w Hok Hh) as (w1 & r1 & -> & F1 & Hnp & Hhv & Hgo).
  destruct r1 as [hv|e|]; [| |done].
  2:{ eexists _, _. split_and!; try done. intros _ Ha Hb Hc _. by destruct (Hgo Ha Hb Hc). }
  destruct (Hhv hv eq_refl) as [Hlen Hsrc]. destruct (Hok) as [Hl Hfit _ Hf _].
  destruct (compute_selected_spec (fo_lengths fo) (is_selected only) (fo_file_infos fo) Hl Hf) as [Hsl _].
  destruct (chunk_tracker_new_correct hv _ _ (fo_file_infos fo) Hl Hfit Hsm Hf Hlen
    (eq_trans Hsl (eq_sym Hlen))) as (ct & Ect & Hwf & Hctl & Hct & Hsel & _).
  unfold mbind at 1, io_bind at 1, io_lift at 1. rewrite Ect. cbn [exec_map_err].
  unfold mbind at 1, io_bind at 1. destruct (ensure_file_lengths_spec fo only w1) as (w2 & -> & Hk & _).
  unfold mbind, io_bind, io_lift. pose proof (take_spec (w_files w2)) as Htake.
  destruct (take_files (w_files w2)) as [s'|e|] eqn:Et; cbn [exec_map_err]; [| |done].
  - eexists _, _. split_and!; [done|done| |by eexists]. intros ? ? [= <- <-]. rewrite Hct. split_and!; try done.
    rewrite <-F1. eapply keeps_trans; [exact Hk|]. intros k fi o b _ _. apply Htake.
  - eexists _, _. split_and!; try done. intros _ _ _ _ Ht. specialize (Ht (w_files w2)). by rewrite Et in Ht.
Qed.
End Correct.

(** ** From the check to the download *)

Section Start.
Context `{MapIter} {St E : Type} `{StorageSpec St E} (sha1 : bytes -> bytes).

(** A torrent whose pieces were all hashed, or whose saved bit field is right, starts
    its download from a state in which the invariant of the download holds, if the
    storage can be read or no part of the data of a piece has the hash of the piece. *)
Lemma checked_torrent_can_start (fo : FileOps) (ct : ChunkTracker) (s files : St) :
  ct_wf ct -> ct_lengths ct = fo_lengths fo -> keeps (fo_file_infos fo) s files ->
  bits_sound (E:=E) sha1 fo s (have ct) \/
    (forall i, valid_piece (fo_lengths fo) i -> bit (have ct) (Z.to_nat i) = true -> verified sha1 fo s i) ->
  readable (E:=E) (fo_file_infos fo) s \/ (forall i, ~ verified_in_part (E:=E) sha1 fo s i) ->
  d_init sha1 fo (mkD (PieceTracker_new ct) files ∅ ∅).
Proof.
  intros Hwf Hl Hk Hb Hns. split; try done. cbn. intros p Hp Hbit. eapply verified_keeps; [exact Hk|].
  destruct Hb as [Hb|Hb]; [|by apply Hb]. destruct (Hb p Hp Hbit) as [?|[Hr Hpt]]; [done|].
  destruct Hns as [?|Hns]; [by destruct Hr|by destruct (Hns p)].
Qed.
End Start.

(** ** Bit fields kept in memory *)

#[export] Instance mem_bitv : BitVFactory (option BF) () := {|
  bv_load s := (s, XOk s);
  bv_clear _ := (None, XOk ());
  bv_store_initial_check b _ := (Some b, XOk b)
|}.

#[export] Instance mem_bitv_spec : BitVSpec (option BF) ().
Proof. by split. Qed.

(** [set_len] of the storage in memory. *)
Definition mem_set_len (f : nat) (n : Z) : io (list bytes) () () := fun s =>
  (alter (fun b => take (Z.to_nat n) b ++ replicate (Z.to_nat n - length b) 0) f s, XOk ()).

Lemma mem_set_len_keeps f n (s : list bytes) f' o b :
  (f' <> f \/ o < n) -> mem_view s f' o = Some b -> mem_view (mem_set_len f n s).1 f' o = Some b.
Proof.
  unfold mem_view, mem_set_len. cbn [fst]. intros Hf. destruct (decide (f' = f)) as [->|Hne].
  - rewrite list_lookup_alter_eq. destruct (s !! f) as [x|]; cbn; [|done]. destruct (Z.leb_spec 0 o); [|done].
    intros Hx. apply lookup_app_l_Some. rewrite lookup_take. case_decide; [done|]. lia.
  - by rewrite list_lookup_alter_ne by done.
Qed.

Definition ex_check (data : list bytes) (saved : option BF) :=
  check ex_sha1 mem_set_len XOk (fun _ => []) (fun _ => []) (fun _ l => l) (fun _ _ => false) (fun t _ _ => t)
    ex_fo true false None (fun _ => false) 0 (mkW data saved DamageTracker_default 0).

Lemma check_correct_witness :
  exists w' ct files, ex_check ex_data None = (w', XOk (ct, files)) /\ take 3 (have ct) = [true; true; true]
    /\ ct_wf ct.
Proof.
  destruct (check_correct ex_sha1 mem_set_len XOk (fun _ => []) (fun _ => []) (fun _ l => l) (fun _ _ => false)
    (fun t _ _ => t) ltac:(by intros n l x) ltac:(intros f n s; split; [done|apply mem_set_len_keeps])
    ltac:(by intros s f o b) ex_fo true false None (fun _ => false) 0 (mkW ex_data None DamageTracker_default 0)
    ex_fo_ok ltac:(by vm_compute)) as (w' & r & Hrun & _ & Hok & _).
  { intros i Hi. unfold valid_piece in Hi. cbn in Hi.
    assert (i = 0 \/ i = 1 \/ i = 2) as [-> | [-> | -> ]] by lia; vm_compute; by eexists. }
  destruct r as [[ct files]|e|]; [|by vm_compute in Hrun..].
  exists w', ct, files. split; [exact Hrun|]. destruct (Hok ct files eq_refl) as (Hwf & _).
  split; [|exact Hwf]. vm_compute in Hrun. injection Hrun as <- <- <-. done.
Defined.

(** The spot check of a saved bit field looks for errors of the storage only: here the
    first piece on the disk has another hash, and it still counts as downloaded. *)
Lemma fastresume_accepts_wrong_hash :
  let bad := [[9; 2; 3; 4; 5; 6]; []; [8; 9; 10]] in
  check_piece (E:=()) ex_sha1 ex_fo bad 0 = XOk false /\
  exists w' ct files,
    ex_check bad (Some [true; true; true; false; false; false; false; false]) = (w', XOk (ct, files)) /\
    bit (have ct) 0 = true /\ files = bad.
Proof. split; [by vm_compute|]. eexists _, _, _. by vm_compute. Qed.
