(* ===== verification/Lifecycle.v ===== *)
(** * The life of a torrent ([librqbit::torrent_state])

    [ManagedTorrent] and its states: checking, paused, live, error.  Calls of the
    interface ([start], [pause], [prepare_recheck], [update_only_files]) run under the
    lock of the torrent; the task that checks the files and the task that waits for a
    fatal error of a live torrent run besides them.  Objects behind an [Arc]
    ([TorrentStateInitializing], [TorrentStateLive]) are entries of a store, since
    tasks keep a reference to the object they were started with.

    A step is a critical section or a single atomic access.  Left out: the storage
    and peers of a live torrent, the notification of waiters, events for the log.
    The metadata is known, as everywhere in the source. *)

From stdpp Require Import base tactics option list list_numbers numbers decidable sets gmap fin_maps.
From Stdlib Require Import ZArith Lia.
From S2P Require Import Prelude Lengths FileInfo ChunkTracker Net PieceTracker.
Open Scope Z_scope.

(** ** A torrent that checks its files ([initializing.rs]) *)

Record TorrentStateInitializing := mkInit {
  in_only_files : option (list nat);
  pause_requested : bool;
  check_running : bool;
  checking : bool;
  previously_errored : bool
}.

Definition TorrentStateInitializing_new (only_files : option (list nat)) (errored : bool) : TorrentStateInitializing :=
  mkInit only_files false false false errored.

Definition request_pause (i : TorrentStateInitializing) : TorrentStateInitializing :=
  mkInit (in_only_files i) true (check_running i) (checking i) (previously_errored i).
Definition clear_pause_request (i : TorrentStateInitializing) : TorrentStateInitializing :=
  mkInit (in_only_files i) false (check_running i) (checking i) (previously_errored i).
Definition mark_checking (i : TorrentStateInitializing) : TorrentStateInitializing :=
  mkInit (in_only_files i) (pause_requested i) (check_running i) true (previously_errored i).
Definition finish_check (i : TorrentStateInitializing) : TorrentStateInitializing :=
  mkInit (in_only_files i) (pause_requested i) false false (previously_errored i).

(** [compare_exchange(false, true)]. *)
Definition try_start_check (i : TorrentStateInitializing) : TorrentStateInitializing * bool :=
  if check_running i then (i, false)
  else (mkInit (in_only_files i) (pause_requested i) true (checking i) (previously_errored i), true).

(** ** A live torrent, as far as its life goes *)

(** The task that receives the fatal error: waiting, with an error sent to it, woken
    up with the error and about to take the lock, and gone. *)
Inductive Receiver := RWaiting | RSent | RGot | RGone.

#[export] Instance Receiver_eq_dec : EqDecision Receiver.
Proof. solve_decision. Defined.

Record TorrentStateLive := mkLive {
  lv_pieces : option PieceTracker;
  fatal_errors_tx : bool;
  lv_cancelled : bool;
  lv_receiver : Receiver
}.

Inductive ManagedTorrentState :=
| Initializing (init : nat)
| Paused (chunk_tracker : ChunkTracker)
| Live (live : nat)
| Error
| SNone.

(** The task of [initialize_and_start]: waiting for a slot, checking, with a result,
    after [finish_check], with an error to be recorded, and gone. *)
Inductive Stage :=
| TWaiting
| TChecking
| TChecked (res : option ChunkTracker)
| TFinished (res : option ChunkTracker)
| TFailed
| TGone.

Record CheckTask := mkTask {
  tk_init : nat;
  tk_start_paused : bool;
  tk_stage : Stage
}.

Record ManagedTorrent := mkMT {
  mt_paused : bool;
  mt_state : ManagedTorrentState;
  mt_only_files : option (list nat);
  queue_held : bool;
  mt_inits : list TorrentStateInitializing;
  mt_lives : list TorrentStateLive;
  mt_tasks : list CheckTask
}.

Inductive LError :=
| SessionDead
| AlreadyLive
| AlreadyPaused
| CantPauseInError
| EmptyState
| RepairIsRunning
| AlreadyChecking
| PausingPausedLive
| FilesNotTaken
| StorageNotCreated
| CantUpdateInitializing
| InvalidOnlyFiles
| NoPieces
| FatalErrorAlreadySent.

Definition set_paused (b : bool) (m : ManagedTorrent) : ManagedTorrent :=
  mkMT b (mt_state m) (mt_only_files m) (queue_held m) (mt_inits m) (mt_lives m) (mt_tasks m).
Definition put_state (s : ManagedTorrentState) (m : ManagedTorrent) : ManagedTorrent :=
  mkMT (mt_paused m) s (mt_only_files m) (queue_held m) (mt_inits m) (mt_lives m) (mt_tasks m).
Definition set_only_files (o : option (list nat)) (m : ManagedTorrent) : ManagedTorrent :=
  mkMT (mt_paused m) (mt_state m) o (queue_held m) (mt_inits m) (mt_lives m) (mt_tasks m).
Definition set_queue_held (b : bool) (m : ManagedTorrent) : ManagedTorrent :=
  mkMT (mt_paused m) (mt_state m) (mt_only_files m) b (mt_inits m) (mt_lives m) (mt_tasks m).
Definition set_inits (l : list TorrentStateInitializing) (m : ManagedTorrent) : ManagedTorrent :=
  mkMT (mt_paused m) (mt_state m) (mt_only_files m) (queue_held m) l (mt_lives m) (mt_tasks m).
Definition set_lives (l : list TorrentStateLive) (m : ManagedTorrent) : ManagedTorrent :=
  mkMT (mt_paused m) (mt_state m) (mt_only_files m) (queue_held m) (mt_inits m) l (mt_tasks m).
Definition set_tasks (l : list CheckTask) (m : ManagedTorrent) : ManagedTorrent :=
  mkMT (mt_paused m) (mt_state m) (mt_only_files m) (queue_held m) (mt_inits m) (mt_lives m) l.

Definition set_stage (t : nat) (s : Stage) (m : ManagedTorrent) : ManagedTorrent :=
  set_tasks (alter (fun tk => mkTask (tk_init tk) (tk_start_paused tk) s) t (mt_tasks m)) m.
Definition on_init (i : nat) (f : TorrentStateInitializing -> TorrentStateInitializing) (m : ManagedTorrent)
    : ManagedTorrent := set_inits (alter f i (mt_inits m)) m.
Definition on_live (k : nat) (f : TorrentStateLive -> TorrentStateLive) (m : ManagedTorrent) : ManagedTorrent :=
  set_lives (alter f k (mt_lives m)) m.

Section Lifecycle.
Context `{MapIter} (file_infos : list FileInfo).

Abbreviation mt := (io ManagedTorrent LError).

(** [TorrentStateLive::pause]; whether the storage can be taken over is up to the
    storage. *)
Definition live_pause (k : nat) (take_ok : bool) : mt ChunkTracker := fun m =>
  match mt_lives m !! k with
  | None => (m, XPanic)
  | Some l =>
      let m := on_live k (fun l => mkLive None false true (lv_receiver l)) m in
      match lv_pieces l with
      | None => (m, XErr PausingPausedLive)
      | Some pt =>
          match into_chunks pt with
          | Panic => (m, XPanic)
          | Ret ct => if take_ok then (m, XOk ct) else (m, XErr FilesNotTaken)
          end
      end
  end.

(** [on_fatal_error]. *)
Definition on_fatal_error (k : nat) : mt () := fun m =>
  match mt_lives m !! k with
  | None => (m, XPanic)
  | Some l =>
      if fatal_errors_tx l then
        (on_live k (fun l => mkLive (lv_pieces l) false (lv_cancelled l)
           (if bool_decide (lv_receiver l = RWaiting) then RSent else lv_receiver l)) m, XOk ())
      else (m, XErr FatalErrorAlreadySent)
  end.

Definition stop_with_error (take_ok : bool) : mt () := fun m =>
  match mt_state m with
  | Live k =>
      match live_pause k take_ok (put_state SNone m) with
      | (m, XPanic) => (m, XPanic)
      | (m, _) => (put_state Error m, XOk ())
      end
  | _ => (put_state Error m, XOk ())
  end.

(** ** [start]: the branches of [_start] *)

(** A check is started unless one is running. *)
Definition start_check (i : nat) (start_paused : bool) : mt () := fun m =>
  match mt_inits m !! i with
  | None => (m, XPanic)
  | Some init =>
      let '(init, started) := try_start_check (clear_pause_request init) in
      let m := on_init i (fun _ => init) m in
      if started then (set_tasks (mt_tasks m ++ [mkTask i start_paused TWaiting]) m, XOk ())
      else (m, XOk ())
  end.

(** The session is alive here, so [TorrentStateLive::new] does not fail. *)
Definition go_live (ct : ChunkTracker) (m : ManagedTorrent) : ManagedTorrent :=
  put_state (Live (length (mt_lives m)))
    (set_lives (mt_lives m ++ [mkLive (Some (PieceTracker_new ct)) true false RWaiting]) m).

Definition start_paused_torrent (ct : ChunkTracker) (start_paused should_hold : bool) : mt () := fun m =>
  if start_paused then (m, XOk ())
  else if should_hold then (set_queue_held true (set_paused true m), XOk ())
  else (go_live ct (set_queue_held false m), XOk ()).

Definition start_errored (create_ok start_paused : bool) : mt () := fun m =>
  if create_ok then
    let i := length (mt_inits m) in
    start_check i start_paused
      (put_state (Initializing i) (set_inits (mt_inits m ++ [TorrentStateInitializing_new (mt_only_files m) true]) m))
  else (m, XErr StorageNotCreated).

Definition start (session_alive start_paused should_hold create_ok : bool) : mt () := fun m =>
  if negb session_alive then (m, XErr SessionDead)
  else
    let m := set_paused start_paused m in
    match mt_state m with
    | Live _ => (m, XErr AlreadyLive)
    | Initializing i => start_check i start_paused m
    | Paused ct => start_paused_torrent ct start_paused should_hold m
    | Error => start_errored create_ok start_paused m
    | SNone => (m, XErr EmptyState)
    end.

(** ** The other calls *)

Definition prepare_recheck (repair_running take_ok : bool) : mt () := fun m =>
  if repair_running then (m, XErr RepairIsRunning)
  else
    match mt_state m with
    | Initializing _ => (m, XErr AlreadyChecking)
    | SNone => (m, XErr EmptyState)
    | Live k => (_ ← live_pause k take_ok; io_modify (put_state Error)) m
    | Paused _ | Error => (put_state Error m, XOk ())
    end.

Definition is_paused (m : ManagedTorrent) : bool := mt_paused m && negb (queue_held m).

Definition pause (take_ok : bool) : mt () := fun m =>
  match mt_state m with
  | Live k => (ct ← live_pause k take_ok; io_modify (fun m => set_paused true (put_state (Paused ct) m))) m
  | Initializing i => (on_init i request_pause (set_paused true m), XOk ())
  | Paused _ => (m, XErr AlreadyPaused)
  | Error => (m, XErr CantPauseInError)
  | SNone => (m, XErr EmptyState)
  end.

(** [Session::pause]: a held torrent is stopped already. *)
Definition session_pause (take_ok : bool) : mt () := fun m =>
  if queue_held m then (set_queue_held false m, XOk ()) else pause take_ok m.

(** [queue_tick] on a torrent over the limits. *)
Definition queue_hold (take_ok : bool) : mt () := fun m =>
  match pause take_ok (set_queue_held true m) with
  | (m, XErr _) => (set_queue_held false m, XOk ())
  | r => r
  end.

Definition mt_update_only_files (only_files : gset nat) : mt () := fun m =>
  if bool_decide (set_Forall (fun f => (f < length file_infos)%nat) only_files) then
    (_ ← (fun m : ManagedTorrent =>
        match mt_state m with
        | Initializing _ => (m, XErr CantUpdateInitializing)
        | Error | SNone => (m, XOk ())
        | Paused ct =>
            match update_only_files ct file_infos only_files with
            | Panic => (m, XPanic)
            | Ret r => (put_state (Paused r.1) m, XOk ())
            end
        | Live k =>
            match mt_lives m !! k ≫= lv_pieces with
            | None => (m, XErr NoPieces)
            | Some pt =>
                match pt_update_only_files pt file_infos only_files with
                | Panic => (m, XPanic)
                | Ret r => (on_live k (fun l => mkLive (Some r.1) (fatal_errors_tx l) (lv_cancelled l) (lv_receiver l)) m,
                            XOk ())
                end
            end
        end);
     io_modify (set_only_files (Some (elements only_files)))) m
  else (m, XErr InvalidOnlyFiles).

(** ** The tasks *)

Definition with_task (t : nat) (f : CheckTask -> mt ()) : mt () := fun m =>
  match mt_tasks m !! t with Some tk => f tk m | None => (m, XOk ()) end.

(** A slot is free. *)
Definition task_acquire (t : nat) : mt () := with_task t (fun tk m =>
  match tk_stage tk with
  | TWaiting => (set_stage t TChecking (on_init (tk_init tk) mark_checking m), XOk ())
  | _ => (m, XOk ())
  end).

(** [check] returns; it is modelled in [Initializing]. *)
Definition task_checked (t : nat) (res : option ChunkTracker) : mt () := with_task t (fun tk m =>
  match tk_stage tk with TChecking => (set_stage t (TChecked res) m, XOk ()) | _ => (m, XOk ()) end).

Definition task_finish_check (t : nat) : mt () := with_task t (fun tk m =>
  match tk_stage tk with
  | TChecked res => (set_stage t (TFinished res) (on_init (tk_init tk) finish_check m), XOk ())
  | _ => (m, XOk ())
  end).

Definition is_initializing (s : ManagedTorrentState) : bool :=
  match s with Initializing _ => true | _ => false end.

Definition init_pause_requested (i : nat) (m : ManagedTorrent) : bool :=
  match mt_inits m !! i with Some init => pause_requested init | None => false end.

(** The [match check_result] with the lock taken, or the look at the pause flag. *)
Definition task_result (t : nat) (should_hold : bool) : mt () := with_task t (fun tk m =>
  match tk_stage tk with
  | TFinished (Some ct) =>
      let m := set_stage t TGone m in
      if is_initializing (mt_state m)
      then start_paused_torrent ct (tk_start_paused tk) should_hold (put_state (Paused ct) m)
      else (m, XOk ())
  | TFinished None =>
      (set_stage t (if init_pause_requested (tk_init tk) m then TGone else TFailed) m, XOk ())
  | _ => (m, XOk ())
  end).

(** [t.locked.write().state = ManagedTorrentState::Error(err)]. *)
Definition task_set_error (t : nat) : mt () := with_task t (fun tk m =>
  match tk_stage tk with
  | TFailed => (put_state Error (set_stage t TGone m), XOk ())
  | _ => (m, XOk ())
  end).

(** The receiver is woken up by the error, unless it was cancelled before. *)
Definition receiver_wake (k : nat) : mt () := fun m =>
  match mt_lives m !! k with
  | Some l =>
      if bool_decide (lv_receiver l = RSent) && negb (lv_cancelled l)
      then (on_live k (fun l => mkLive (lv_pieces l) (fatal_errors_tx l) (lv_cancelled l) RGot) m, XOk ())
      else (m, XOk ())
  | None => (m, XOk ())
  end.

Definition receiver_stop (k : nat) (take_ok : bool) : mt () := fun m =>
  match mt_lives m !! k with
  | Some l =>
      if bool_decide (lv_receiver l = RGot)
      then stop_with_error take_ok
             (on_live k (fun l => mkLive (lv_pieces l) (fatal_errors_tx l) (lv_cancelled l) RGone) m)
      else (m, XOk ())
  | None => (m, XOk ())
  end.

(** The download changes the pieces of a live torrent that still has them. *)
Definition engine_work (k : nat) (pt : PieceTracker) : mt () := fun m =>
  match mt_lives m !! k ≫= lv_pieces with
  | Some _ => (on_live k (fun l => mkLive (Some pt) (fatal_errors_tx l) (lv_cancelled l) (lv_receiver l)) m, XOk ())
  | None => (m, XErr NoPieces)
  end.

Inductive l_ev :=
| EvStart (session_alive start_paused should_hold create_ok : bool)
| EvPause (take_ok : bool)
| EvSessionPause (take_ok : bool)
| EvHold (take_ok : bool)
| EvRecheck (repair_running take_ok : bool)
| EvOnlyFiles (only_files : gset nat)
| EvAcquire (t : nat)
| EvChecked (t : nat) (res : option ChunkTracker)
| EvFinishCheck (t : nat)
| EvResult (t : nat) (should_hold : bool)
| EvSetError (t : nat)
| EvFatal (k : nat)
| EvWake (k : nat)
| EvStop (k : nat) (take_ok : bool)
| EvWork (k : nat) (pt : PieceTracker).

Definition l_exec (ev : l_ev) : mt () :=
  match ev with
  | EvStart a p h c => start a p h c
  | EvPause t => pause t
  | EvSessionPause t => session_pause t
  | EvHold t => queue_hold t
  | EvRecheck r t => prepare_recheck r t
  | EvOnlyFiles o => mt_update_only_files o
  | EvAcquire t => task_acquire t
  | EvChecked t r => task_checked t r
  | EvFinishCheck t => task_finish_check t
  | EvResult t h => task_result t h
  | EvSetError t => task_set_error t
  | EvFatal k => on_fatal_error k
  | EvWake k => receiver_wake k
  | EvStop k t => receiver_stop k t
  | EvWork k pt => engine_work k pt
  end.
End Lifecycle.

(** ** Invariant *)

(** A check is under way; a check is over and its result is being handled. *)
Definition running (s : Stage) : bool := match s with TWaiting | TChecking | TChecked _ => true | _ => false end.
Definition wrapping_up (s : Stage) : bool := match s with TFinished _ | TFailed => true | _ => false end.

Definition pending (tk : CheckTask) : Prop := tk_stage tk <> TGone.

Lemma pending_cases tk : pending tk -> running (tk_stage tk) = true \/ wrapping_up (tk_stage tk) = true.
Proof. unfold pending. destruct (tk_stage tk); auto. Qed.

(** A live torrent that still downloads, or whose error is about to stop the torrent. *)
Definition active (l : TorrentStateLive) : Prop :=
  lv_pieces l <> None \/ lv_cancelled l = false \/ lv_receiver l = RGot.

Section Invariant.
Context `{MapIter} (file_infos : list FileInfo) (lens : Lengths).

Definition ct_good (ct : ChunkTracker) : Prop := ct_wf ct /\ ct_lengths ct = lens.
Definition pt_good (pt : PieceTracker) : Prop := pt_ok pt /\ ct_lengths (pt_chunks pt) = lens.

Definition stage_good (s : Stage) : Prop :=
  match s with TChecked (Some ct) | TFinished (Some ct) => ct_good ct | _ => True end.

Definition state_good (s : ManagedTorrentState) : Prop :=
  match s with SNone => False | Paused ct => ct_good ct | _ => True end.

Record engines_ok (s : ManagedTorrentState) (lives : list TorrentStateLive) : Prop := {
  eo_live k : s = Live k -> (k < length lives)%nat;
  eo_active k l : lives !! k = Some l -> active l -> s = Live k;
  eo_pieces k l pt : lives !! k = Some l -> lv_pieces l = Some pt -> pt_good pt
}.

Record checks_ok (s : ManagedTorrentState) (inits : list TorrentStateInitializing) (tasks : list CheckTask)
    : Prop := {
  co_init i : s = Initializing i -> (i < length inits)%nat;
  co_task t tk : tasks !! t = Some tk -> pending tk -> s = Initializing (tk_init tk) /\ stage_good (tk_stage tk);
  co_one t t' tk tk' : tasks !! t = Some tk -> pending tk -> tasks !! t' = Some tk' -> pending tk' -> t = t';
  co_running i x : inits !! i = Some x ->
    (check_running x = true <-> exists t tk, tasks !! t = Some tk /\ tk_init tk = i /\ running (tk_stage tk) = true)
}.

Record l_ok (m : ManagedTorrent) : Prop := {
  lo_state : state_good (mt_state m);
  lo_engines : engines_ok (mt_state m) (mt_lives m);
  lo_checks : checks_ok (mt_state m) (mt_inits m) (mt_tasks m)
}.

(** *** Live torrents *)

Lemma engines_quiet s lives : engines_ok s lives -> (forall k, s <> Live k) -> Forall (fun l => ~ active l) lives.
Proof.
  intros He Hs. apply Forall_forall. intros l (k & Hk)%list_elem_of_lookup Ha. by apply (Hs k), (eo_active _ _ He k l).
Qed.

Lemma engines_all_quiet s s' lives :
  engines_ok s lives -> Forall (fun l => ~ active l) lives -> (forall k, s' <> Live k) -> engines_ok s' lives.
Proof.
  intros [_ _ Hp] Hq Hs. split; [by intros k ?%Hs| |done]. intros k l Hk Ha.
  by destruct (proj1 (Forall_lookup _ _) Hq k l Hk Ha).
Qed.

Lemma engines_alter s lives k f :
  engines_ok s lives ->
  (forall l, lives !! k = Some l -> (active (f l) -> s = Live k) /\ (forall pt, lv_pieces (f l) = Some pt -> pt_good pt)) ->
  engines_ok s (alter f k lives).
Proof.
  intros [Hl Ha Hp] Hf. split.
  - intros j ->. rewrite length_alter. by apply Hl.
  - intros j l. destruct (decide (j = k)) as [->|].
    + rewrite list_lookup_alter_eq. intros (x & Hx & ->)%fmap_Some. by apply Hf.
    + rewrite list_lookup_alter_ne by done. apply Ha.
  - intros j l pt. destruct (decide (j = k)) as [->|].
    + rewrite list_lookup_alter_eq. intros (x & Hx & ->)%fmap_Some. by apply Hf.
    + rewrite list_lookup_alter_ne by done. apply Hp.
Qed.

Lemma engines_push s lives l pt :
  engines_ok s lives -> Forall (fun l => ~ active l) lives -> lv_pieces l = Some pt -> pt_good pt ->
  engines_ok (Live (length lives)) (lives ++ [l]).
Proof.
  intros [_ _ Hp] Hq Hl Hpt. split.
  - intros k [= <-]. rewrite length_app. cbn. lia.
  - intros k x [Hk|[Hk Hx]]%lookup_app_Some Ha.
    + by destruct (proj1 (Forall_lookup _ _) Hq k x Hk Ha).
    + apply list_lookup_singleton_Some in Hx as [Hx _]. f_equal. lia.
  - intros k x pt' [Hk|[Hk Hx]]%lookup_app_Some Hpx; [by eapply Hp|].
    apply list_lookup_singleton_Some in Hx as [_ <-]. congruence.
Qed.

(** *** Checks *)

Lemma checks_idle s inits tasks t tk :
  checks_ok s inits tasks -> (forall i, s <> Initializing i) -> tasks !! t = Some tk -> ~ pending tk.
Proof. intros Hc Hs Ht Hp. destruct (co_task _ _ _ Hc t tk Ht Hp) as [? _]. by eapply Hs. Qed.

(** No check: any state that is not a check will do. *)
Lemma checks_other s s' inits tasks :
  checks_ok s inits tasks -> (forall t tk, tasks !! t = Some tk -> ~ pending tk) -> (forall i, s' <> Initializing i) ->
  checks_ok s' inits tasks.
Proof.
  intros [_ _ _ Hr] Hn Hs. split; [by intros i ?%Hs|by intros t tk Ht Hp; destruct (Hn t tk Ht Hp)| |done].
  intros t t' tk tk' Ht Hp. by destruct (Hn t tk Ht Hp).
Qed.

Lemma checks_alter s inits tasks i f :
  checks_ok s inits tasks -> (forall x, check_running (f x) = check_running x) -> checks_ok s (alter f i inits) tasks.
Proof.
  intros [Hi Ht Ho Hr] Hf. split; [intros j Hj; rewrite length_alter; by apply Hi|done|done|].
  intros j x. destruct (decide (j = i)) as [->|]; [|rewrite list_lookup_alter_ne by done; apply Hr].
  rewrite list_lookup_alter_eq. intros (y & Hy & ->)%fmap_Some. rewrite Hf. by apply Hr.
Qed.

(** A task goes on; the flag of its object follows. *)
Lemma checks_step s inits tasks t tk stage f :
  checks_ok s inits tasks -> tasks !! t = Some tk -> pending tk -> stage_good stage ->
  (forall x, inits !! tk_init tk = Some x -> check_running (f x) = running stage) ->
  checks_ok s (alter f (tk_init tk) inits) (alter (fun tk => mkTask (tk_init tk) (tk_start_paused tk) stage) t tasks).
Proof.
  intros [Hi Ht Ho Hr] Htk Hp Hg Hf.
  assert (Hlk : forall t' tk', alter (fun tk => mkTask (tk_init tk) (tk_start_paused tk) stage) t tasks !! t' = Some tk' ->
    (t' = t /\ tk_init tk' = tk_init tk /\ tk_stage tk' = stage) \/ (t' <> t /\ tasks !! t' = Some tk')).
  { intros t' tk'. destruct (decide (t' = t)) as [->|]; [|rewrite list_lookup_alter_ne by done; by right].
    rewrite list_lookup_alter_eq, Htk. intros [= <-]. by left. }
  split.
  - intros i Hs. rewrite length_alter. by apply Hi.
  - intros t' tk' [(-> & -> & ->)|[_ Ht']]%Hlk Hp'; [|by eapply Ht].
    split; [by eapply Ht|done].
  - intros t1 t2 tk1 tk2 [(-> & _ & _)|[Hn1 H1]]%Hlk Hp1 [(-> & _ & _)|[Hn2 H2]]%Hlk Hp2; [done| | |by eapply Ho].
    + destruct Hn2. by eapply (Ho t2 t tk2 tk).
    + by eapply (Ho t1 t tk1 tk).
  - intros i x Hx. destruct (decide (i = tk_init tk)) as [->|Hne].
    + rewrite list_lookup_alter_eq in Hx. apply fmap_Some in Hx as (y & Hy & ->). rewrite (Hf y Hy). split.
      * intros Hrun. exists t, (mkTask (tk_init tk) (tk_start_paused tk) stage).
        rewrite list_lookup_alter_eq, Htk. done.
      * intros (t' & tk' & [(-> & _ & ->)|[Hn Ht']]%Hlk & _ & Hrun); [done|].
        destruct Hn. eapply (Ho t' t tk' tk); try done. intros E. by rewrite E in Hrun.
    + rewrite list_lookup_alter_ne in Hx by done. rewrite (Hr i x Hx). split.
      * intros (t' & tk' & Ht' & Hi' & Hrun). exists t', tk'. rewrite list_lookup_alter_ne; [done|].
        intros ->. congruence.
      * intros (t' & tk' & [(-> & E & _)|[_ Ht']]%Hlk & Hi' & Hrun); [congruence|by exists t', tk'].
Qed.

(** A check is started on the current object. *)
Lemma checks_push i inits tasks x p :
  checks_ok (Initializing i) inits tasks -> (forall t tk, tasks !! t = Some tk -> ~ pending tk) ->
  check_running x = true ->
  checks_ok (Initializing i) (alter (fun _ => x) i inits) (tasks ++ [mkTask i p TWaiting]).
Proof.
  intros [Hi _ _ Hr] Hn Hx.
  assert (Hlk : forall t tk, (tasks ++ [mkTask i p TWaiting]) !! t = Some tk -> pending tk ->
    t = length tasks /\ tk = mkTask i p TWaiting).
  { intros t tk [Ht|[Hge Ht]]%lookup_app_Some Hp; [by destruct (Hn t tk Ht Hp)|].
    apply list_lookup_singleton_Some in Ht as [? <-]. split; [lia|done]. }
  split.
  - intros j [= <-]. rewrite length_alter. by apply Hi.
  - intros t tk Ht Hp. by destruct (Hlk t tk Ht Hp) as [_ ->].
  - intros t t' tk tk' Ht Hp Ht' Hp'. destruct (Hlk _ _ Ht Hp) as [-> _], (Hlk _ _ Ht' Hp') as [-> _]. done.
  - intros j y Hy. destruct (decide (j = i)) as [->|Hne].
    + rewrite list_lookup_alter_eq in Hy. apply fmap_Some in Hy as (_ & _ & ->). split; [|done]. intros _.
      exists (length tasks), (mkTask i p TWaiting). split; [|done].
      rewrite lookup_app_r, Nat.sub_diag by lia. done.
    + rewrite list_lookup_alter_ne in Hy by done. rewrite (Hr j y Hy). split.
      * intros (t & tk & Ht & _ & Hrun). destruct (Hn t tk Ht). intros E. by rewrite E in Hrun.
      * intros (t & tk & Ht & Hj & Hrun).
        destruct (Hlk t tk Ht) as [_ ->]; [intros E; by rewrite E in Hrun|]. by cbn in Hj.
Qed.

(** A fresh object, with no check on it. *)
Lemma checks_new_init s inits tasks only errored :
  checks_ok s inits tasks -> (forall t tk, tasks !! t = Some tk -> ~ pending tk) ->
  checks_ok (Initializing (length inits)) (inits ++ [TorrentStateInitializing_new only errored]) tasks.
Proof.
  intros [_ _ _ Hr] Hn. split.
  - intros i [= <-]. rewrite length_app. cbn. lia.
  - intros t tk Ht Hp. by destruct (Hn t tk Ht Hp).
  - intros t t' tk tk' Ht Hp. by destruct (Hn t tk Ht Hp).
  - intros i x [Hx|[Hge Hx]]%lookup_app_Some; [by apply Hr|].
    apply list_lookup_singleton_Some in Hx as [_ <-]. split; [done|].
    intros (t & tk & Ht & _ & Hrun). destruct (Hn t tk Ht). intros E. by rewrite E in Hrun.
Qed.

(** *** The steps *)

(** What the schedule grants: the few instructions between the end of a check and the
    lock are not interrupted by a call of [start], nor those of a woken receiver by
    anything; a check gives a tracker of the torrent and the download keeps the pieces
    well formed; files are not deselected while a piece of them is in flight. *)
Definition l_guard (m : ManagedTorrent) (ev : l_ev) : Prop :=
  (forall k l, mt_lives m !! k = Some l -> lv_receiver l = RGot -> exists take_ok, ev = EvStop k take_ok) /\
  match ev with
  | EvStart _ _ _ _ => forall t tk, mt_tasks m !! t = Some tk -> wrapping_up (tk_stage tk) = false
  | EvChecked _ (Some ct) => ct_good ct
  | EvWork _ pt => pt_good pt
  | EvOnlyFiles _ => forall k l pt p, mt_lives m !! k = Some l -> lv_pieces l = Some pt -> is_inflight pt p = true ->
      bit (selected (pt_chunks pt)) (Z.to_nat p) = true
  | EvFatal k => (k < length (mt_lives m))%nat
  | _ => True
  end.

(** The state of a torrent that was just added. *)
Definition l_init (m : ManagedTorrent) : Prop :=
  mt_state m = Initializing 0 /\ mt_lives m = [] /\ mt_tasks m = [] /\
  exists only errored, mt_inits m = [TorrentStateInitializing_new only errored].

(** What the calls are given, and nothing of the schedule. *)
Definition l_args (m : ManagedTorrent) (ev : l_ev) : Prop :=
  match ev with
  | EvChecked _ (Some ct) => ct_good ct
  | EvWork _ pt => pt_sound pt /\ ct_lengths (pt_chunks pt) = lens
  | EvFatal k => (k < length (mt_lives m))%nat
  | _ => True
  end.

Lemma l_guard_args m ev : l_guard m ev -> l_args m ev.
Proof. intros [_ Hg]. destruct ev; try done. destruct Hg. split; [by apply pt_ok_sound|done]. Qed.

(** Reachable by any steps; the flag is [true] when the schedule granted all of them. *)
Inductive l_reachable (m0 : ManagedTorrent) : bool -> ManagedTorrent -> Prop :=
| lr_start : l_reachable m0 true m0
| lr_step granted m ev : l_reachable m0 granted m -> l_guard m ev -> l_reachable m0 granted (l_exec file_infos ev m).1
| lr_any granted m ev : l_reachable m0 granted m -> l_args m ev -> l_reachable m0 false (l_exec file_infos ev m).1.

(** The transitions between states. *)
Inductive transition : ManagedTorrentState -> ManagedTorrentState -> Prop :=
| tr_error_init i : transition Error (Initializing i)
| tr_init_paused i ct : transition (Initializing i) (Paused ct)
| tr_init_live i k : transition (Initializing i) (Live k)
| tr_init_error i : transition (Initializing i) Error
| tr_paused_live ct k : transition (Paused ct) (Live k)
| tr_live_paused k ct : transition (Live k) (Paused ct)
| tr_live_error k : transition (Live k) Error
| tr_paused_error ct : transition (Paused ct) Error
| tr_reselect ct ct' : transition (Paused ct) (Paused ct')
| tr_same s : transition s s.
Local Hint Constructors transition : core.

(** A step keeps the invariant, does not panic and is one of the transitions. *)
Definition step_ok (m : ManagedTorrent) (r : ManagedTorrent * exec LError ()) : Prop :=
  l_ok r.1 /\ r.2 <> XPanic /\ transition (mt_state m) (mt_state r.1).

Lemma l_ok_same m m' :
  mt_state m' = mt_state m -> mt_inits m' = mt_inits m -> mt_lives m' = mt_lives m -> mt_tasks m' = mt_tasks m ->
  l_ok m -> l_ok m'.
Proof. intros E1 E2 E3 E4 [? ? ?]. split; by rewrite ?E1, ?E2, ?E3, ?E4. Qed.

Lemma live_pause_run k take m l :
  mt_lives m !! k = Some l -> (forall pt, lv_pieces l = Some pt -> pt_good pt) ->
  exists r, live_pause k take m = (on_live k (fun l => mkLive None false true (lv_receiver l)) m, r) /\
    r <> XPanic /\ forall ct, r = XOk ct -> ct_good ct.
Proof.
  intros Hl Hg. unfold live_pause. rewrite Hl. destruct (lv_pieces l) as [pt|]; [|by eexists].
  destruct (Hg pt eq_refl) as [Hpt Hlen]. destruct (into_chunks_requeues pt Hpt) as (ct & -> & Hwf & Hl' & _).
  destruct take; eexists; split_and!; try done. intros ? [= <-]. split; [done|congruence].
Qed.

(** After the pause of the current live torrent nothing is active. *)
Lemma paused_quiet m k :
  engines_ok (mt_state m) (mt_lives m) -> mt_state m = Live k ->
  (forall j l, mt_lives m !! j = Some l -> lv_receiver l <> RGot) ->
  Forall (fun l => ~ active l) (mt_lives (on_live k (fun l => mkLive None false true (lv_receiver l)) m)).
Proof.
  intros He Hs Hr. apply Forall_lookup. intros j l. cbn. destruct (decide (j = k)) as [->|].
  - rewrite list_lookup_alter_eq. intros (x & Hx & ->)%fmap_Some [?|[?|?]]; cbn in *; [done..|by eapply Hr].
  - rewrite list_lookup_alter_ne by done. intros Hj Ha. pose proof (eo_active _ _ He j l Hj Ha). congruence.
Qed.

(** Leaving the live state. *)
Lemma leave_live m k s :
  l_ok m -> mt_state m = Live k -> (forall j l, mt_lives m !! j = Some l -> lv_receiver l <> RGot) ->
  state_good s -> (forall j, s <> Live j) -> (forall i, s <> Initializing i) ->
  l_ok (put_state s (on_live k (fun l => mkLive None false true (lv_receiver l)) m)).
Proof.
  intros [Hg He Hc] Hs Hr Hgs Hl Hi. split; cbn; [done| |].
  - eapply engines_all_quiet; [|by apply (paused_quiet m k)|done].
    eapply (engines_alter _ _ k); [exact He|]. intros l Hk. split; [by rewrite Hs|]. by cbn.
  - eapply checks_other; [exact Hc| |done]. intros t tk Ht. eapply checks_idle; [done| |done]. congruence.
Qed.

(** A check does not leave anything active behind. *)
Lemma not_live_quiet m : l_ok m -> (forall k, mt_state m <> Live k) -> Forall (fun l => ~ active l) (mt_lives m).
Proof. intros Hm Hs. eapply engines_quiet; [apply Hm|done]. Qed.

Lemma go_live_ok m ct :
  l_ok m -> (forall k, mt_state m <> Live k) -> (forall t tk, mt_tasks m !! t = Some tk -> ~ pending tk) -> ct_good ct ->
  l_ok (go_live ct m).
Proof.
  intros Hm Hs Hn [Hwf Hlen]. pose proof (not_live_quiet m Hm Hs) as Hq. destruct Hm as [_ He Hc]. split; [done| |].
  - cbn. eapply (engines_push (mt_state m)); [done|done|done|]. split; [|done]. split; [done|].
    intros p i. cbn. by rewrite lookup_empty.
  - cbn. by eapply checks_other.
Qed.

Lemma start_paused_ok m ct p h :
  l_ok m -> mt_state m = Paused ct -> step_ok m (start_paused_torrent ct p h m).
Proof.
  intros Hm Hs. unfold start_paused_torrent, step_ok. destruct p; [|destruct h]; cbn [fst snd].
  - split_and!; [done|done|auto].
  - split_and!; [by eapply l_ok_same; [..|exact Hm]|done|cbn; auto].
  - split_and!; [|done|cbn; rewrite Hs; auto]. pose proof (lo_state _ Hm) as Hg. rewrite Hs in Hg.
    apply go_live_ok; [by eapply l_ok_same; [..|exact Hm]|cbn; congruence| |done].
    cbn. intros t tk Ht. eapply checks_idle; [apply Hm|congruence|done].
Qed.

Lemma start_check_ok m i p :
  l_ok m -> mt_state m = Initializing i -> (forall t tk, mt_tasks m !! t = Some tk -> wrapping_up (tk_stage tk) = false) ->
  l_ok (start_check i p m).1 /\ (start_check i p m).2 <> XPanic /\ mt_state (start_check i p m).1 = Initializing i.
Proof.
  intros Hm Hs Hw. unfold start_check. destruct Hm as [Hg He Hc]. rewrite Hs in Hc.
  destruct (lookup_lt_is_Some_2 (mt_inits m) i (co_init _ _ _ Hc i eq_refl)) as [x Hx]. rewrite Hx.
  unfold try_start_check. cbn [clear_pause_request check_running]. destruct (check_running x) eqn:Er; cbn [fst snd].
  - split_and!; [|done|done]. split; cbn; rewrite ?Hs in *; [done|done|].
    assert (alter (fun _ => clear_pause_request x) i (mt_inits m) = alter clear_pause_request i (mt_inits m)) as ->.
    { apply list_eq. intros j. destruct (decide (j = i)) as [->|].
      - by rewrite !list_lookup_alter_eq, Hx.
      - by rewrite !list_lookup_alter_ne. }
    by apply checks_alter.
  - split_and!; [|done|done]. split; cbn; rewrite ?Hs in *; [done|done|]. apply checks_push; [done| |done].
    intros t tk Ht Hp. destruct (pending_cases tk Hp) as [Hr|Hr]; [|by rewrite (Hw t tk Ht) in Hr].
    assert (check_running x = true); [|congruence]. apply (co_running _ _ _ Hc i x Hx). exists t, tk.
    destruct (co_task _ _ _ Hc t tk Ht Hp) as [[= ->] _]. done.
Qed.

Lemma start_event m a p h c : l_ok m -> l_guard m (EvStart a p h c) -> step_ok m (start a p h c m).
Proof.
  intros Hm [_ Hw]. unfold start. destruct a; cbn [negb]; [|by split_and!; auto]. cbn [set_paused mt_state].
  assert (l_ok (set_paused p m)) as Hm' by by eapply l_ok_same; [..|exact Hm].
  destruct (mt_state m) as [i|ct|k| |] eqn:Hs.
  - destruct (start_check_ok (set_paused p m) i p Hm' Hs Hw) as (H1 & H2 & H3).
    unfold step_ok. rewrite H3, Hs. auto.
  - exact (start_paused_ok (set_paused p m) ct p h Hm' Hs).
  - split_and!; [done|done|]. cbn. auto.
  - unfold start_errored. destruct c; [|split_and!; [done|done|cbn; auto]].
    match goal with |- step_ok _ (start_check ?i ?p ?m1) => destruct (start_check_ok m1 i p) as (H1 & H2 & H3) end.
    + destruct Hm' as [_ He Hc]. cbn in He, Hc. rewrite Hs in He, Hc. split; cbn; [done| |].
      * eapply engines_all_quiet; [exact He|by eapply engines_quiet|done].
      * eapply (checks_new_init Error); [exact Hc|]. intros t tk Ht. by eapply checks_idle.
    + done.
    + cbn. intros t tk Ht. exact (Hw t tk Ht).
    + split_and!; [done|done|]. rewrite H3, Hs. auto.
  - pose proof (lo_state _ Hm) as Hg. by rewrite Hs in Hg.
Qed.

Lemma no_got m ev : l_guard m ev -> (forall k t, ev <> EvStop k t) ->
  forall j l, mt_lives m !! j = Some l -> lv_receiver l <> RGot.
Proof. intros [Hg _] Hne j l Hj Hr. destruct (Hg j l Hj Hr) as [t ->]. by eapply Hne. Qed.

(** The current live torrent is paused, then the state changes to [s ct]. *)
Lemma pause_live_ok m k take (s : ChunkTracker -> ManagedTorrentState) (f : ChunkTracker -> ManagedTorrent -> ManagedTorrent) :
  l_ok m -> mt_state m = Live k -> (forall j l, mt_lives m !! j = Some l -> lv_receiver l <> RGot) ->
  (forall ct m', l_ok (put_state (s ct) m') -> l_ok (f ct m') /\ mt_state (f ct m') = s ct) ->
  (forall ct, ct_good ct -> state_good (s ct) /\ (forall j, s ct <> Live j) /\ (forall i, s ct <> Initializing i) /\
     transition (Live k) (s ct)) ->
  step_ok m ((ct ← live_pause k take; io_modify (f ct)) m).
Proof.
  intros Hm Hs Hr Hf Hgs. pose proof (lo_engines _ Hm) as He.
  destruct (lookup_lt_is_Some_2 (mt_lives m) k (eo_live _ _ He k Hs)) as [l Hl].
  destruct (live_pause_run k take m l Hl) as (r & E & Hnp & Hct); [intros pt; by eapply eo_pieces|].
  unfold mbind, io_bind. rewrite E. destruct r as [ct|e|]; [| |done]; unfold step_ok, io_modify; cbn [fst snd].
  - destruct (Hgs ct (Hct ct eq_refl)) as (G1 & G2 & G3 & G4).
    destruct (Hf ct _ (leave_live m k (s ct) Hm Hs Hr G1 G2 G3)) as [H1' H2']. split_and!; [done|done|].
    rewrite H2', Hs. done.
  - split_and!; [|done|cbn; auto]. destruct Hm as [Hg _ Hc]. split; cbn; [done| |done].
    apply engines_alter; [done|]. intros x Hx. split; [intros [?|[?|?]]; cbn in *; [done..|]|done].
    by destruct (Hr k x Hx).
Qed.

Lemma pause_ok m take :
  l_ok m -> (forall j l, mt_lives m !! j = Some l -> lv_receiver l <> RGot) -> step_ok m (pause take m).
Proof.
  intros Hm Hr. unfold pause. destruct (mt_state m) as [i|ct|k| |] eqn:Hs.
  - split_and!; [|done|cbn; auto]. destruct Hm as [Hg He Hc]. split; [done|done|]. cbn. by apply checks_alter.
  - split_and!; [done|done|auto].
  - apply (pause_live_ok m k take Paused); [done|done|done| |].
    + intros ct m' Hm'. split; [|done]. by eapply l_ok_same; [..|exact Hm'].
    + intros ct Hct. by split_and!; auto.
  - split_and!; [done|done|auto].
  - pose proof (lo_state _ Hm) as Hg. by rewrite Hs in Hg.
Qed.

Lemma recheck_event m b take : l_ok m -> l_guard m (EvRecheck b take) -> step_ok m (prepare_recheck b take m).
Proof.
  intros Hm Hg. pose proof (no_got m _ Hg ltac:(done)) as Hr. unfold prepare_recheck.
  destruct b; [split_and!; [done|done|auto]|]. destruct (mt_state m) as [i|ct|k| |] eqn:Hs.
  - split_and!; [done|done|auto].
  - split_and!; [|done|cbn; rewrite Hs; auto]. destruct Hm as [_ He Hc]. rewrite Hs in He, Hc. split; cbn; [done| |].
    + eapply engines_all_quiet; [done|by eapply engines_quiet|done].
    + eapply checks_other; [done| |done]. intros t tk Ht. by eapply checks_idle.
  - apply (pause_live_ok m k take (fun _ => Error) (fun _ => put_state Error)); [done|done|done|by intros|].
    intros ct Hct. by split_and!; auto.
  - split_and!; [|done|cbn; rewrite Hs; auto]. destruct Hm as [_ He Hc]. split; cbn; [done|by rewrite Hs in He|by rewrite Hs in Hc].
  - pose proof (lo_state _ Hm) as Hg'. by rewrite Hs in Hg'.
Qed.

Lemma session_pause_event m take : l_ok m -> l_guard m (EvSessionPause take) -> step_ok m (session_pause take m).
Proof.
  intros Hm Hg. unfold session_pause. destruct (queue_held m).
  - split_and!; [by eapply l_ok_same; [..|exact Hm]|done|cbn; auto].
  - apply pause_ok; [done|]. by eapply no_got.
Qed.

Lemma l_hold_event m take : l_ok m -> l_guard m (EvHold take) -> step_ok m (queue_hold take m).
Proof.
  intros Hm Hg. unfold queue_hold.
  assert (l_ok (set_queue_held true m)) as Hm' by by eapply l_ok_same; [..|exact Hm].
  pose proof (pause_ok (set_queue_held true m) take Hm' (no_got m _ Hg ltac:(done))) as (H1' & H2' & H3').
  destruct (pause take (set_queue_held true m)) as [m1 r]. cbn [fst snd] in *.
  destruct r as [[]|e|]; [by split_and!| |done].
  split_and!; [by eapply l_ok_same; [..|exact H1']|done|done].
Qed.

Lemma l_only_files_event m only :
  Forall (file_wf lens) file_infos -> l_ok m -> l_guard m (EvOnlyFiles only) ->
  step_ok m (mt_update_only_files file_infos only m).
Proof.
  intros Hf Hm [_ Hg]. unfold mt_update_only_files. case_bool_decide; [|split_and!; [done|done|auto]].
  unfold mbind, io_bind, io_modify. destruct (mt_state m) as [i|ct|k| |] eqn:Hs.
  - split_and!; [done|done|auto].
  - pose proof (lo_state _ Hm) as Hct. rewrite Hs in Hct. destruct Hct as [Hwf Hlen].
    destruct (only_files_spec ct file_infos only Hwf ltac:(by rewrite Hlen)) as (ct' & -> & Hwf' & Hre).
    split_and!; [|done|cbn; rewrite Hs; auto]. destruct Hm as [_ He Hc]. rewrite Hs in He, Hc. split; cbn.
    + split; [done|]. by rewrite (rs_lengths _ _ _ Hre).
    + eapply engines_all_quiet; [done|by eapply engines_quiet|done].
    + eapply checks_other; [done| |done]. intros t tk Ht. by eapply checks_idle.
  - destruct (mt_lives m !! k) as [l|] eqn:Hl; cbn [option_bind]; [|split_and!; [done|done|auto]].
    destruct (lv_pieces l) as [pt|] eqn:Hpt; [|split_and!; [done|done|auto]].
    destruct (eo_pieces _ _ (lo_engines _ Hm) k l pt Hl Hpt) as [Hpk Hlen].
    destruct (pt_exec_ok pt (POnlyFiles file_infos only) Hpk) as (pt1 & Hex & Hok).
    { split; [by rewrite Hlen|]. intros p Hp. by eapply Hg. }
    unfold pt_exec in Hex. apply outcome_bind_Ret in Hex as ([pt2 h] & Hex & [= <-]). cbn [fst] in Hok. rewrite Hex.
    split_and!; [|done|cbn; auto]. destruct Hm as [Hg' He Hc]. split; cbn; [done| |done].
    apply engines_alter; [done|]. intros x Hx. cbn. split; [by rewrite Hs|]. intros ? [= <-]. split; [done|].
    unfold pt_update_only_files in Hex. cbn.
    destruct (only_files_spec (pt_chunks pt) file_infos only (pk_chunks _ Hpk) ltac:(by rewrite Hlen))
      as (ct' & Heq & _ & Hre). rewrite Heq in Hex. injection Hex as <- <-. cbn. by rewrite (rs_lengths _ _ _ Hre).
  - split_and!; [by eapply l_ok_same; [..|exact Hm]|done|cbn; auto].
  - pose proof (lo_state _ Hm) as Hg'. by rewrite Hs in Hg'.
Qed.

(** A step of a pending task that leaves the state alone. *)
Lemma task_step_ok m t tk stage f :
  l_ok m -> mt_tasks m !! t = Some tk -> pending tk -> stage_good stage ->
  (forall x, mt_inits m !! tk_init tk = Some x -> check_running (f x) = running stage) ->
  l_ok (set_stage t stage (on_init (tk_init tk) f m)).
Proof. intros [Hg He Hc] Ht Hp Hs Hf. split; cbn; [done|done|]. by apply checks_step. Qed.

Lemma task_flag m t tk x :
  l_ok m -> mt_tasks m !! t = Some tk -> pending tk -> mt_inits m !! tk_init tk = Some x ->
  check_running x = running (tk_stage tk).
Proof.
  intros Hm Ht Hp Hx. pose proof (lo_checks _ Hm) as Hc. pose proof (co_running _ _ _ Hc _ x Hx) as Hr.
  destruct (running (tk_stage tk)) eqn:E; [apply Hr; by exists t, tk|]. apply not_true_iff_false. rewrite Hr.
  intros (t' & tk' & Ht' & _ & Hrun). assert (t' = t) as ->; [|congruence].
  eapply (co_one _ _ _ Hc t' t tk' tk); try done. intros E'. by rewrite E' in Hrun.
Qed.

Lemma set_stage_alone t stage m tk : set_stage t stage m = set_stage t stage (on_init (tk_init tk) (fun x => x) m).
Proof. unfold set_stage, on_init, set_inits, set_tasks. cbn. by rewrite (list_alter_id (fun x : TorrentStateInitializing => x)). Qed.

Lemma l_task_event m ev t tk stage f :
  l_ok m -> mt_tasks m !! t = Some tk -> pending tk -> stage_good stage ->
  (forall x, check_running x = running (tk_stage tk) -> check_running (f x) = running stage) ->
  ev = set_stage t stage (on_init (tk_init tk) f m) -> step_ok m (ev, XOk ()).
Proof.
  intros Hm Ht Hp Hs Hf ->. split_and!; [|done|cbn; auto]. apply task_step_ok; try done.
  intros x Hx. apply Hf. by eapply task_flag.
Qed.

Lemma l_acquire_event m t : l_ok m -> step_ok m (task_acquire t m).
Proof.
  intros Hm. unfold task_acquire, with_task. destruct (mt_tasks m !! t) as [tk|] eqn:Ht; [|by split_and!; auto].
  destruct (tk_stage tk) eqn:E; try by split_and!; auto.
  eapply (l_task_event _ _ t tk TChecking); [done|done|by unfold pending; rewrite E|done| |done].
  intros x. by rewrite E.
Qed.

Lemma checked_event m t res : l_ok m -> l_guard m (EvChecked t res) -> step_ok m (task_checked t res m).
Proof.
  intros Hm [_ Hg]. unfold task_checked, with_task. destruct (mt_tasks m !! t) as [tk|] eqn:Ht; [|by split_and!; auto].
  destruct (tk_stage tk) eqn:E; try by split_and!; auto. rewrite (set_stage_alone t _ m tk).
  eapply (l_task_event _ _ t tk (TChecked res)); [done|done|by unfold pending; rewrite E|by destruct res| |done].
  intros x. by rewrite E.
Qed.

Lemma l_finish_event m t : l_ok m -> step_ok m (task_finish_check t m).
Proof.
  intros Hm. unfold task_finish_check, with_task. destruct (mt_tasks m !! t) as [tk|] eqn:Ht; [|by split_and!; auto].
  destruct (tk_stage tk) eqn:E; try by split_and!; auto.
  eapply (l_task_event _ _ t tk (TFinished res) finish_check); [done|done|by unfold pending; rewrite E| |by intros x; rewrite E|done].
  destruct (co_task _ _ _ (lo_checks _ Hm) t tk Ht) as [_ Hg]; [by unfold pending; rewrite E|]. by rewrite E in Hg.
Qed.

(** The last pending task is gone. *)
Lemma gone_idle m t tk :
  l_ok m -> mt_tasks m !! t = Some tk -> pending tk ->
  forall t' tk', mt_tasks (set_stage t TGone m) !! t' = Some tk' -> ~ pending tk'.
Proof.
  intros Hm Ht Hp t' tk'. cbn. destruct (decide (t' = t)) as [->|Hne].
  - rewrite list_lookup_alter_eq, Ht. intros [= <-]. unfold pending. cbn. tauto.
  - rewrite list_lookup_alter_ne by done. intros Ht' Hp'.
    by apply Hne, (co_one _ _ _ (lo_checks _ Hm) t' t tk' tk).
Qed.

(** The check is over: the state it leaves for. *)
Lemma leave_check m t tk s :
  l_ok m -> mt_tasks m !! t = Some tk -> pending tk -> wrapping_up (tk_stage tk) = true ->
  state_good s -> (forall k, s <> Live k) -> (forall i, s <> Initializing i) ->
  l_ok (put_state s (set_stage t TGone m)).
Proof.
  intros Hm Ht Hp Hw Hg Hl Hi. pose proof (lo_checks _ Hm) as Hc. destruct (co_task _ _ _ Hc t tk Ht Hp) as [Hs _].
  split; cbn; [done| |].
  - eapply engines_all_quiet; [apply Hm|apply not_live_quiet; [done|congruence]|done].
  - eapply (checks_other (mt_state m)); [|by apply (gone_idle m t tk)|done]. apply (lo_checks (set_stage t TGone m)).
    rewrite (set_stage_alone t _ m tk). apply task_step_ok; try done. intros x Hx.
    rewrite (task_flag m t tk x) by done. by destruct (tk_stage tk).
Qed.

Lemma result_event m t h : l_ok m -> step_ok m (task_result t h m).
Proof.
  intros Hm. unfold task_result, with_task. destruct (mt_tasks m !! t) as [tk|] eqn:Ht; [|by split_and!; auto].
  destruct (tk_stage tk) as [| | |[ct|]| |] eqn:E; try by split_and!; auto.
  - assert (pending tk) as Hp by (by unfold pending; rewrite E).
    destruct (co_task _ _ _ (lo_checks _ Hm) t tk Ht Hp) as [Hs Hct]. rewrite E in Hct. cbn in Hct.
    assert (l_ok (put_state (Paused ct) (set_stage t TGone m))) as Hm1.
    { apply (leave_check m t tk); try done. by rewrite E. }
    cbn [set_stage set_tasks mt_state]. rewrite Hs. cbn [is_initializing].
    destruct (start_paused_ok _ ct (tk_start_paused tk) h Hm1 eq_refl) as (H1' & H2' & H3').
    split_and!; [done|done|]. rewrite Hs. revert H3'. unfold start_paused_torrent.
    destruct (tk_start_paused tk); [|destruct h]; cbn; auto.
  - assert (pending tk) as Hp by (by unfold pending; rewrite E). rewrite (set_stage_alone t _ m tk).
    eapply (l_task_event _ _ t tk); [done|done|done| | |done]; [by destruct (init_pause_requested _ _)|].
    intros x. rewrite E. by destruct (init_pause_requested _ _).
Qed.

Lemma set_error_event m t : l_ok m -> step_ok m (task_set_error t m).
Proof.
  intros Hm. unfold task_set_error, with_task. destruct (mt_tasks m !! t) as [tk|] eqn:Ht; [|by split_and!; auto].
  destruct (tk_stage tk) eqn:E; try by split_and!; auto.
  assert (pending tk) as Hp by (by unfold pending; rewrite E).
  destruct (co_task _ _ _ (lo_checks _ Hm) t tk Ht Hp) as [Hs _]. split_and!; [|done|cbn; rewrite Hs; auto].
  apply (leave_check m t tk); try done. by rewrite E.
Qed.

(** A change of a live object that keeps it as active as it was. *)
Lemma live_step_ok m k f :
  l_ok m ->
  (forall l, mt_lives m !! k = Some l ->
     (active (f l) -> active l \/ mt_state m = Live k) /\ (forall pt, lv_pieces (f l) = Some pt -> pt_good pt)) ->
  step_ok m (on_live k f m, XOk ()).
Proof.
  intros Hm Hf. split_and!; [|done|cbn; auto]. destruct Hm as [Hg He Hc]. split; cbn; [done| |done].
  apply engines_alter; [done|]. intros l Hl. destruct (Hf l Hl) as [Ha Hp]. split; [|done].
  intros [?|?]%Ha; [by eapply eo_active|done].
Qed.

Lemma fatal_event m k : l_ok m -> l_guard m (EvFatal k) -> step_ok m (on_fatal_error k m).
Proof.
  intros Hm [_ Hk]. unfold on_fatal_error. destruct (lookup_lt_is_Some_2 _ _ Hk) as [l Hl]. rewrite Hl.
  destruct (fatal_errors_tx l); [|by split_and!; auto]. apply live_step_ok; [done|]. intros x Hx. cbn. split.
  - intros [?|[?|Hr]]; [by left; left|by left; right; left|]. left. right. right. cbn in Hr. by case_bool_decide.
  - exact (fun pt => eo_pieces _ _ (lo_engines _ Hm) k x pt Hx).
Qed.

Lemma wake_event m k : l_ok m -> step_ok m (receiver_wake k m).
Proof.
  intros Hm. unfold receiver_wake. destruct (mt_lives m !! k) as [l|] eqn:Hl; [|by split_and!; auto].
  destruct (bool_decide (lv_receiver l = RSent) && negb (lv_cancelled l)) eqn:E; [|by split_and!; auto].
  apply andb_true_iff in E as [_ E%negb_true_iff]. apply live_step_ok; [done|]. intros x Hx. split.
  - intros _. left. right. left. congruence.
  - exact (fun pt => eo_pieces _ _ (lo_engines _ Hm) k x pt Hx).
Qed.

Lemma stop_event m k take : l_ok m -> l_guard m (EvStop k take) -> step_ok m (receiver_stop k take m).
Proof.
  intros Hm [Hg _]. unfold receiver_stop. destruct (mt_lives m !! k) as [l|] eqn:Hl; [|by split_and!; auto].
  case_bool_decide as Hr; [|by split_and!; auto].
  assert (mt_state m = Live k) as Hs by (eapply eo_active; [apply Hm|done|by right; right]).
  set (m1 := on_live k _ m).
  assert (l_ok m1) as Hm1.
  { apply live_step_ok; [done|]. intros x Hx. split; [by right|]. exact (fun pt => eo_pieces _ _ (lo_engines _ Hm) k x pt Hx). }
  assert (forall j x, mt_lives m1 !! j = Some x -> lv_receiver x <> RGot) as Hr1.
  { intros j x. cbn. destruct (decide (j = k)) as [->|].
    - rewrite list_lookup_alter_eq. by intros (y & _ & ->)%fmap_Some.
    - rewrite list_lookup_alter_ne by done. intros Hj Hx. destruct (Hg j x Hj Hx) as [t [= ->]]. done. }
  unfold stop_with_error. change (mt_state m1) with (mt_state m). rewrite Hs.
  destruct (mt_lives m1 !! k) as [l1|] eqn:Hl1; [|cbn in Hl1; by rewrite list_lookup_alter_eq, Hl in Hl1].
  destruct (live_pause_run k take (put_state SNone m1) l1 Hl1) as (r & E & Hnp & _).
  { exact (fun pt => eo_pieces _ _ (lo_engines _ Hm1) k l1 pt Hl1). }
  rewrite E. pose proof (leave_live m1 k Error Hm1 Hs Hr1 I ltac:(done) ltac:(done)) as Hok.
  destruct r as [ct|e|]; [| |done]; (split_and!; [exact Hok|done|cbn; rewrite Hs; auto]).
Qed.

Lemma work_event m k pt : l_ok m -> l_guard m (EvWork k pt) -> step_ok m (engine_work k pt m).
Proof.
  intros Hm [_ Hg]. unfold engine_work. destruct (mt_lives m !! k) as [l|] eqn:Hl; cbn [mbind option_bind]; [|by split_and!; auto].
  destruct (lv_pieces l) eqn:Ep; [|by split_and!; auto]. apply live_step_ok; [done|]. intros x Hx. split.
  - intros _. left. left. congruence.
  - by intros ? [= <-].
Qed.

Lemma l_exec_ok m ev :
  Forall (file_wf lens) file_infos -> l_ok m -> l_guard m ev -> step_ok m (l_exec file_infos ev m).
Proof.
  intros Hf Hm Hg. destruct ev; cbn [l_exec];
    eauto using start_event, session_pause_event, l_hold_event, recheck_event, l_only_files_event, l_acquire_event,
      checked_event, l_finish_event, result_event, set_error_event, fatal_event, wake_event, stop_event, work_event.
  apply pause_ok; [done|]. by eapply no_got.
Qed.

Lemma l_init_ok m : l_init m -> l_ok m.
Proof.
  intros (Hs & Hl & Ht & only & errored & Hi). split; rewrite ?Hs, ?Hl, ?Ht, ?Hi; [done| |].
  - split; [done|by intros k l ?|by intros k l pt ?].
  - split; [intros i [= <-]; cbn; lia|by intros t tk ?|by intros t t' tk tk' ?|].
    intros [|i] x; cbn; [|done]. intros [= <-]. split; [done|]. by intros (t & tk & ? & _).
Qed.

(** *** Whatever the schedule *)

Definition pieces_sound (l : TorrentStateLive) : Prop :=
  forall pt, lv_pieces l = Some pt -> pt_sound pt /\ ct_lengths (pt_chunks pt) = lens.

Record l_sound (m : ManagedTorrent) : Prop := {
  ls_state : state_good (mt_state m);
  ls_live k : mt_state m = Live k -> (k < length (mt_lives m))%nat;
  ls_init i : mt_state m = Initializing i -> (i < length (mt_inits m))%nat;
  ls_pieces : Forall pieces_sound (mt_lives m);
  ls_tasks : Forall (fun tk => stage_good (tk_stage tk)) (mt_tasks m)
}.

Definition step_sound (m : ManagedTorrent) (r : ManagedTorrent * exec LError ()) : Prop :=
  l_sound r.1 /\ r.2 <> XPanic /\ transition (mt_state m) (mt_state r.1).

Lemma l_ok_sound m : l_ok m -> l_sound m.
Proof.
  intros [Hg He Hc]. split; [done|by apply He|by apply Hc| |].
  - apply Forall_lookup. intros k l Hl pt Hpt. destruct (eo_pieces _ _ He k l pt Hl Hpt). split; [by apply pt_ok_sound|done].
  - apply Forall_lookup. intros t tk Ht. destruct (tk_stage tk) eqn:Est; try done;
      (rewrite <- Est; apply (co_task _ _ _ Hc t tk Ht); unfold pending; by rewrite Est).
Qed.

Lemma sound_same m m' :
  mt_state m' = mt_state m -> mt_inits m' = mt_inits m -> mt_lives m' = mt_lives m -> mt_tasks m' = mt_tasks m ->
  l_sound m -> l_sound m'.
Proof. intros E1 E2 E3 E4 [? ? ? ? ?]. split; by rewrite ?E1, ?E2, ?E3, ?E4. Qed.

Lemma sound_state s m :
  l_sound m -> state_good s -> (forall k, s = Live k -> (k < length (mt_lives m))%nat) ->
  (forall i, s = Initializing i -> (i < length (mt_inits m))%nat) -> l_sound (put_state s m).
Proof. intros [? ? ? ? ?] ? ? ?. by split. Qed.

Lemma sound_live k f m :
  l_sound m -> (forall l, pieces_sound l -> pieces_sound (f l)) -> l_sound (on_live k f m).
Proof.
  intros [? ? ? Hp ?] Hf. split; cbn; try done; [by rewrite length_alter|].
  by apply Forall_alter; [|intros; apply Hf].
Qed.

Lemma sound_init i f m : l_sound m -> l_sound (on_init i f m).
Proof. intros [? ? ? ? ?]. split; cbn; try done. by rewrite length_alter. Qed.

Lemma sound_stage t s m : l_sound m -> stage_good s -> l_sound (set_stage t s m).
Proof. intros [? ? ? ? ?] Hs. split; cbn; try done. by apply Forall_alter. Qed.

Lemma sound_nothing m (r : exec LError ()) : l_sound m -> r <> XPanic -> step_sound m (m, r).
Proof. intros. by split_and!; auto. Qed.

Lemma live_pause_sound k take m :
  l_sound m -> (k < length (mt_lives m))%nat ->
  exists r, live_pause k take m = (on_live k (fun l => mkLive None false true (lv_receiver l)) m, r) /\
    r <> XPanic /\ (forall ct, r = XOk ct -> ct_good ct) /\
    l_sound (on_live k (fun l => mkLive None false true (lv_receiver l)) m).
Proof.
  intros Hm Hk. destruct (lookup_lt_is_Some_2 _ _ Hk) as [l Hl]. unfold live_pause. rewrite Hl.
  assert (l_sound (on_live k (fun l => mkLive None false true (lv_receiver l)) m)) by by apply sound_live.
  destruct (lv_pieces l) as [pt|] eqn:Ep; [|by eexists].
  destruct (proj1 (Forall_lookup _ _) (ls_pieces _ Hm) k l Hl pt Ep) as [Hpt Hlen].
  destruct (into_chunks_sound pt Hpt) as (ct & -> & Hwf & Hl').
  destruct take; eexists; split_and!; try done. intros ? [= <-]. split; [done|congruence].
Qed.

(** The pause of the live torrent, then a state [s] from [f]. *)
Lemma sound_pause_live m k take (s : ChunkTracker -> ManagedTorrentState) (f : ChunkTracker -> ManagedTorrent -> ManagedTorrent) :
  l_sound m -> mt_state m = Live k ->
  (forall ct m', ct_good ct -> l_sound m' -> l_sound (f ct m') /\ mt_state (f ct m') = s ct) ->
  (forall ct, transition (Live k) (s ct)) -> step_sound m ((ct ← live_pause k take; io_modify (f ct)) m).
Proof.
  intros Hm Hs Hf Ht. destruct (live_pause_sound k take m Hm (ls_live _ Hm k Hs)) as (r & E & Hnp & Hct & Hm').
  unfold mbind, io_bind. rewrite E. destruct r as [ct|e|]; [| |done]; unfold step_sound, io_modify; cbn [fst snd].
  - destruct (Hf ct _ (Hct ct eq_refl) Hm') as [? ->]. split_and!; [done|done|]. rewrite Hs. done.
  - split_and!; [done|done|cbn; auto].
Qed.

Lemma pause_sound take m : l_sound m -> step_sound m (pause take m).
Proof.
  intros Hm. unfold pause. destruct (mt_state m) as [i|ct|k| |] eqn:Hs; try (by apply sound_nothing).
  - split_and!; [|done|cbn; rewrite Hs; auto]. by apply sound_init, (sound_same m).
  - apply (sound_pause_live m k take Paused); [done|done| |auto]. intros ct m' Hct Hm'. split; [|done].
    by apply (sound_same (put_state (Paused ct) m')); [..|apply sound_state].
Qed.

Lemma start_check_sound m i p :
  l_sound m -> mt_state m = Initializing i ->
  l_sound (start_check i p m).1 /\ (start_check i p m).2 <> XPanic /\ mt_state (start_check i p m).1 = Initializing i.
Proof.
  intros Hm Hs. unfold start_check. destruct (lookup_lt_is_Some_2 _ _ (ls_init _ Hm i Hs)) as [x Hx]. rewrite Hx.
  destruct (try_start_check _) as [x' b]. pose proof (sound_init i (fun _ => x') m Hm) as Hm'.
  destruct b; (split_and!; [|done|done]); [|done]. destruct Hm' as [? ? ? ? ?]. split; cbn; try done.
  apply Forall_app. split; [done|]. by apply Forall_singleton.
Qed.

Lemma go_live_sound ct m : l_sound m -> ct_good ct -> l_sound (go_live ct m).
Proof.
  intros [? ? ? ? ?] [Hwf Hlen]. split; cbn; try done.
  - intros k [= <-]. rewrite length_app. cbn. lia.
  - apply Forall_app. split; [done|]. apply Forall_singleton. intros pt [= <-]. split; [|done]. split; [done|].
    intros p i. cbn. by rewrite lookup_empty.
Qed.

(** From a paused torrent, or one whose check gave [ct]. *)
Lemma start_paused_sound m0 m ct p h :
  l_sound m -> mt_state m = Paused ct ->
  (forall k, transition (mt_state m0) (Live k)) -> transition (mt_state m0) (Paused ct) ->
  step_sound m0 (start_paused_torrent ct p h m).
Proof.
  intros Hm Hs H1 H2. pose proof (ls_state _ Hm) as Hg. rewrite Hs in Hg. unfold start_paused_torrent.
  destruct p; [|destruct h]; (split_and!; [|done|cbn; rewrite ?Hs; auto]).
  - done.
  - by apply (sound_same m).
  - apply go_live_sound; [by apply (sound_same m)|done].
Qed.

Lemma start_sound m a p h c : l_sound m -> step_sound m (start a p h c m).
Proof.
  intros Hm. unfold start. destruct a; cbn [negb]; [|by apply sound_nothing].
  assert (l_sound (set_paused p m)) as Hm' by by apply (sound_same m). cbn [set_paused mt_state].
  destruct (mt_state m) as [i|ct|k| |] eqn:Hs.
  - destruct (start_check_sound (set_paused p m) i p Hm' Hs) as (? & ? & E). unfold step_sound. rewrite E, Hs. auto.
  - apply start_paused_sound; [done|done|rewrite Hs; auto|rewrite Hs; auto].
  - split_and!; [done|done|cbn; auto].
  - unfold start_errored. destruct c; [|split_and!; [done|done|cbn; auto]].
    match goal with |- step_sound _ (start_check ?i ?p ?m1) => destruct (start_check_sound m1 i p) as (? & ? & E) end.
    + destruct Hm' as [? ? ? ? ?]. split; cbn; try done. intros i [= <-]. rewrite length_app. cbn. lia.
    + done.
    + unfold step_sound. rewrite E, Hs. auto.
  - pose proof (ls_state _ Hm) as Hg. by rewrite Hs in Hg.
Qed.

Lemma only_files_sound o m : Forall (file_wf lens) file_infos -> l_sound m -> step_sound m (mt_update_only_files file_infos o m).
Proof.
  intros Hf Hm. unfold mt_update_only_files. case_bool_decide; [|by apply sound_nothing].
  unfold mbind, io_bind, io_modify. destruct (mt_state m) as [i|ct|k| |] eqn:Hs.
  - by apply sound_nothing.
  - pose proof (ls_state _ Hm) as Hg. rewrite Hs in Hg. destruct Hg as [Hwf Hlen]. rewrite <- Hlen in Hf.
    destruct (only_files_spec ct file_infos o Hwf Hf) as (ct' & -> & Hwf' & [Hl _ _ _ _ _]). cbn.
    split_and!; [|done|cbn; rewrite Hs; auto].
    apply (sound_same (put_state (Paused ct') m)); try done. apply sound_state; try done. split; [done|congruence].
  - destruct (mt_lives m !! k) as [l|] eqn:Hl; cbn [mbind option_bind]; [|by apply sound_nothing].
    destruct (lv_pieces l) as [pt|] eqn:Ep; [|by apply sound_nothing].
    destruct (proj1 (Forall_lookup _ _) (ls_pieces _ Hm) k l Hl pt Ep) as [Hpt Hlen].
    destruct (pt_exec_sound pt (POnlyFiles file_infos o) Hpt) as (pt' & Eq & Hpt' & Hlen'); [cbn; by rewrite Hlen|].
    cbn [pt_exec] in Eq. apply outcome_bind_Ret in Eq as (r & -> & [= <-]). cbn.
    split_and!; [|done|cbn; auto]. apply (sound_same (on_live k (fun l => mkLive (Some r.1) (fatal_errors_tx l)
      (lv_cancelled l) (lv_receiver l)) m)); try done. apply sound_live; [done|]. intros x _ ? [= <-]. split; [done|congruence].
  - split_and!; [by apply (sound_same m)|done|cbn; auto].
  - split_and!; [by apply (sound_same m)|done|cbn; auto].
Qed.

Lemma stop_sound m0 take m :
  l_sound m -> mt_state m0 = mt_state m -> step_sound m0 (stop_with_error take m).
Proof.
  intros Hm Hs0. unfold stop_with_error.
  assert (transition (mt_state m0) Error) as Ht.
  { rewrite Hs0. pose proof (ls_state _ Hm) as Hg. by destruct (mt_state m); auto. }
  assert (forall m', l_sound m' -> step_sound m0 (put_state Error m', XOk ())) as Hstop.
  { intros m' Hm'. split_and!; [by apply sound_state|done|done]. }
  destruct (mt_state m) as [i|ct|k| |] eqn:Hs; try by apply Hstop.
  pose proof (ls_live _ Hm k Hs) as Hk. unfold live_pause. cbn [put_state mt_lives].
  destruct (live_pause_sound k take m Hm Hk) as (r & E & Hnp & _ & Hm'). unfold live_pause in E.
  destruct (mt_lives m !! k) as [l|] eqn:Hl; [|by injection E as _ <-].
  assert (forall r', step_sound m0 (put_state Error (on_live k (fun l => mkLive None false true (lv_receiver l)) (put_state SNone m)), XOk r')) as Hend.
  { intros []. split_and!; [|done|done]. by apply (sound_same (put_state Error (on_live k (fun l => mkLive None false true (lv_receiver l)) m)));
      [..|apply sound_state]. }
  destruct (lv_pieces l) as [pt|]; [|apply Hend]. destruct (into_chunks pt) as [ct|]; [|by injection E as <-].
  destruct take; apply Hend.
Qed.

Lemma recheck_sound b take m : l_sound m -> step_sound m (prepare_recheck b take m).
Proof.
  intros Hm. unfold prepare_recheck. destruct b; [by apply sound_nothing|].
  destruct (mt_state m) as [i|ct|k| |] eqn:Hs; try (by apply sound_nothing).
  - split_and!; [by apply sound_state|done|cbn; rewrite Hs; auto].
  - apply (sound_pause_live m k take (fun _ => Error)); [done|done| |auto]. intros ct m' _ Hm'. split; [|done]. by apply sound_state.
  - split_and!; [by apply sound_state|done|cbn; rewrite Hs; auto].
Qed.

Lemma hold_sound take m : l_sound m -> step_sound m (queue_hold take m).
Proof.
  intros Hm. unfold queue_hold.
  destruct (pause_sound take (set_queue_held true m) ltac:(by apply (sound_same m))) as (H1 & H2 & H3).
  destruct (pause take (set_queue_held true m)) as [m' [[]|e|]]; cbn in *; [by split_and!| |done].
  split_and!; [by apply (sound_same m')|done|done].
Qed.

(** The steps of a check and of a live torrent leave the state, or end the check. *)
Lemma task_sound m ev :
  l_sound m -> l_args m ev ->
  match ev with EvAcquire _ | EvChecked _ _ | EvFinishCheck _ | EvResult _ _ | EvSetError _ => True | _ => False end ->
  step_sound m (l_exec file_infos ev m).
Proof.
  intros Hm Hg Hev. destruct ev as [| | | | | |t|t res|t|t h|t| | | | ]; try done; clear Hev; cbn [l_exec];
    unfold task_acquire, task_checked, task_finish_check, task_result, task_set_error, with_task;
    (destruct (mt_tasks m !! t) as [tk|] eqn:Ht; [|by apply sound_nothing]);
    pose proof (proj1 (Forall_lookup _ _) (ls_tasks _ Hm) t tk Ht) as Hst; cbn in Hst;
    destruct (tk_stage tk) as [| |r|r| |]; try (by apply sound_nothing).
  - split_and!; [|done|cbn; auto]. by apply sound_stage; [apply sound_init|].
  - split_and!; [|done|cbn; auto]. apply sound_stage; [done|]. by destruct res.
  - split_and!; [|done|cbn; auto]. by apply sound_stage; [apply sound_init|].
  - destruct r as [ct|].
    + assert (l_sound (set_stage t TGone m)) as Hm' by by apply sound_stage. cbn [mt_state set_stage set_tasks].
      destruct (mt_state m) as [i|ct'|k| |] eqn:Hs; cbn [is_initializing]; try (by split_and!; [|done|cbn; rewrite ?Hs; auto]).
      apply start_paused_sound; [by apply sound_state|done|rewrite Hs; auto|rewrite Hs; auto].
    + split_and!; [|done|cbn; auto]. apply sound_stage; [done|]. by case_match.
  - split_and!; [by apply sound_state; [apply sound_stage|..]|done|]. cbn. pose proof (ls_state _ Hm) as Hgs.
    by destruct (mt_state m); auto.
Qed.

Lemma l_exec_sound m ev :
  Forall (file_wf lens) file_infos -> l_sound m -> l_args m ev -> step_sound m (l_exec file_infos ev m).
Proof.
  intros Hf Hm Hg. destruct ev as [a p h c|take|take|take|b take|o|t|t res|t|t h|t|k|k|k take|k pt];
    try (by apply task_sound); cbn [l_exec].
  - by apply start_sound.
  - by apply pause_sound.
  - unfold session_pause. destruct (queue_held m); [|by apply pause_sound]. split_and!; [by apply (sound_same m)|done|cbn; auto].
  - by apply hold_sound.
  - by apply recheck_sound.
  - by apply only_files_sound.
  - unfold on_fatal_error. destruct (lookup_lt_is_Some_2 _ _ Hg) as [l ->].
    destruct (fatal_errors_tx l); [|by apply sound_nothing]. split_and!; [by apply sound_live|done|cbn; auto].
  - unfold receiver_wake. destruct (mt_lives m !! k); [|by apply sound_nothing].
    destruct (_ && _); [|by apply sound_nothing]. split_and!; [by apply sound_live|done|cbn; auto].
  - unfold receiver_stop. destruct (mt_lives m !! k); [|by apply sound_nothing].
    case_bool_decide; [|by apply sound_nothing]. apply stop_sound; [by apply sound_live|done].
  - unfold engine_work. destruct (mt_lives m !! k ≫= lv_pieces); [|by apply sound_nothing].
    split_and!; [|done|cbn; auto]. apply sound_live; [done|]. by intros l _ ? [= <-].
Qed.

Lemma reachable_ok m0 granted m :
  Forall (file_wf lens) file_infos -> l_init m0 -> l_reachable m0 granted m -> l_sound m /\ (granted = true -> l_ok m).
Proof.
  intros Hf Hi. induction 1 as [|g m ev Hr [IHs IH] Hg|g m ev Hr [IHs IH] Hg].
  - pose proof (l_init_ok m0 Hi). split; [by apply l_ok_sound|done].
  - split; [by apply l_exec_sound; [..|apply l_guard_args]|]. intros ->. by apply l_exec_ok; auto.
  - split; [by apply l_exec_sound|done].
Qed.

(** C5: whatever the interleaving of the calls of the interface, the check of the files and
    the handling of fatal errors, the torrent is in one of its states, the tracker of a
    paused torrent is well formed, no call panics, and each one makes a documented
    transition or moves a paused torrent to the error state.  If the schedule also never
    puts a call of [start] between the end of a check and its taking the lock for the
    result, nor anything between the wake-up of the receiver of a fatal error and its
    taking the lock, the download keeps its tracker in order (no piece in two states) and
    files are selected only while the pieces in flight are of selected files, then at most one check of the files runs, and only while the torrent is checking,
    and only the live object the torrent points to has pieces to download, so that no two
    downloads write to the same files.  (The code has these races: without the first of
    the conditions two downloads can run, see [late_error_leaves_two_downloads].) *)
Theorem lifecycle_safe (m0 m : ManagedTorrent) (granted : bool) :
  Forall (file_wf lens) file_infos -> l_init m0 -> l_reachable m0 granted m ->
  mt_state m <> SNone /\
  (forall ct, mt_state m = Paused ct -> ct_wf ct) /\
  (forall ev, l_args m ev ->
    (l_exec file_infos ev m).2 <> XPanic /\ transition (mt_state m) (mt_state (l_exec file_infos ev m).1)) /\
  (granted = true ->
    (forall k l, mt_lives m !! k = Some l -> lv_pieces l <> None -> mt_state m = Live k) /\
    (forall t tk, mt_tasks m !! t = Some tk -> running (tk_stage tk) = true -> mt_state m = Initializing (tk_init tk)) /\
    (forall t t' tk tk', mt_tasks m !! t = Some tk -> mt_tasks m !! t' = Some tk' ->
       running (tk_stage tk) = true -> running (tk_stage tk') = true -> t = t')).
Proof.
  intros Hf Hi Hr. destruct (reachable_ok m0 granted m Hf Hi Hr) as [Hs Hok]. pose proof (ls_state _ Hs) as Hg.
  assert (Hp : forall tk, running (tk_stage tk) = true -> pending tk) by (intros tk Hrun E; by rewrite E in Hrun).
  split; [|split; [|split]].
  - intros E. by rewrite E in Hg.
  - intros ct E. rewrite E in Hg. by destruct Hg.
  - intros ev Hge. by destruct (l_exec_sound m ev Hf Hs Hge) as (_ & ? & ?).
  - intros Hgr. destruct (Hok Hgr) as [_ He Hc]. split_and!.
    + intros k l Hl Hpc. eapply eo_active; [done|done|by left].
    + intros t tk Ht Hrun. eapply co_task; eauto.
    + intros t t' tk tk' Ht Ht' Hrun Hrun'. eapply (co_one _ _ _ Hc t t' tk tk'); eauto.
Qed.

(** Pausing a live torrent and starting it again keeps the pieces it has and queues the
    ones that were in flight. *)
Lemma pause_start_keeps_pieces m k l pt :
  l_ok m -> mt_state m = Live k -> mt_lives m !! k = Some l -> lv_pieces l = Some pt ->
  let m1 := (pause true m).1 in
  let m2 := (start true false false true m1).1 in
  exists ct, mt_state m1 = Paused ct /\ mt_paused m1 = true /\
    mt_state m2 = Live (length (mt_lives m)) /\ mt_paused m2 = false /\
    (exists l', mt_lives m2 !! length (mt_lives m) = Some l' /\ lv_pieces l' = Some (PieceTracker_new ct)) /\
    have ct = have (pt_chunks pt) /\ selected ct = selected (pt_chunks pt) /\
    forall p, valid_piece lens p ->
      bit (queue_pieces ct) (Z.to_nat p) = bit (queue_pieces (pt_chunks pt)) (Z.to_nat p) || is_inflight pt p.
Proof.
  intros Hm Hs Hl Hpt. destruct (eo_pieces _ _ (lo_engines _ Hm) k l pt Hl Hpt) as [Hok Hlen].
  destruct (into_chunks_requeues pt Hok) as (ct & Hct & _ & _ & Hh & Hsel & Hq). exists ct.
  unfold pause, live_pause, mbind, io_bind. rewrite Hs, Hl, Hpt, Hct. cbn.
  split_and!; try done; [by rewrite length_alter| |by rewrite <-Hlen].
  rewrite lookup_app_r, length_alter, Nat.sub_diag by (rewrite length_alter; lia). by eexists.
Qed.
End Invariant.

(** ** Schedules *)

Section Schedules.
Context `{MapIter} (file_infos : list FileInfo).

Fixpoint l_run (evs : list l_ev) (m : ManagedTorrent) : ManagedTorrent :=
  match evs with
  | [] => m
  | ev :: evs => l_run evs (l_exec file_infos ev m).1
  end.

(** Every step of the schedule is granted. *)
Fixpoint run_guarded (lens : Lengths) (evs : list l_ev) (m : ManagedTorrent) : Prop :=
  match evs with
  | [] => True
  | ev :: evs => l_guard lens m ev /\ run_guarded lens evs (l_exec file_infos ev m).1
  end.

Lemma run_reachable lens m0 m evs :
  l_reachable file_infos lens m0 true m -> run_guarded lens evs m -> l_reachable file_infos lens m0 true (l_run evs m).
Proof.
  revert m. induction evs as [|ev evs IH]; intros m Hr; [done|]. intros [Hg Hgs]. apply IH; [|done]. by apply lr_step.
Qed.
End Schedules.

Definition ex_new (start_paused : bool) : ManagedTorrent :=
  mkMT start_paused (Initializing 0) None false [TorrentStateInitializing_new None false] [] [].

(** The check of task [t] runs to its end. *)
Definition ex_check_ends (t : nat) : list l_ev :=
  [EvChecked t (Some ex_tracker); EvFinishCheck t; EvResult t false].

Definition ex_start (start_paused : bool) : l_ev := EvStart true start_paused false true.

Local Instance ex_iter : MapIter := MapIter_to_list.

Definition ex_life (evs : list l_ev) (m : ManagedTorrent) : ManagedTorrent := l_run [ex_file] evs m.

(** Started, live, stopped by a fatal error and started again. *)
Definition ex_evs_life : list l_ev :=
  [ex_start false; EvAcquire 0] ++ ex_check_ends 0 ++ [EvFatal 0; EvWake 0; EvStop 0 true; ex_start false].

(** The guard, as far as it can be evaluated. *)
Definition guard_check (m : ManagedTorrent) (ev : l_ev) : bool :=
  forallb (fun l => negb (bool_decide (lv_receiver l = RGot)) || match ev with EvStop 0 _ => true | _ => false end)
    (take 1 (mt_lives m)) &&
  (length (mt_lives m) <=? 1)%nat &&
  match ev with
  | EvStart _ _ _ _ => forallb (fun tk => negb (wrapping_up (tk_stage tk))) (mt_tasks m)
  | EvFatal k => (k <? length (mt_lives m))%nat
  | EvWork _ _ | EvOnlyFiles _ => false
  | _ => true
  end.

Fixpoint guards_check (evs : list l_ev) (m : ManagedTorrent) : bool :=
  match evs with
  | [] => true
  | ev :: evs => guard_check m ev && guards_check evs (l_exec [ex_file] ev m).1
  end.

Definition checks_ex_tracker (ev : l_ev) : Prop :=
  match ev with EvChecked _ (Some ct) => ct = ex_tracker | _ => True end.

Lemma guard_check_sound m ev : guard_check m ev = true -> checks_ex_tracker ev -> l_guard ex_lengths m ev.
Proof.
  intros [[H1 H2%Nat.leb_le]%andb_true_iff H3]%andb_true_iff Ht. split.
  - intros k l Hk Hr. pose proof (lookup_lt_Some _ _ _ Hk). assert (k = 0%nat) as -> by lia.
    destruct (mt_lives m) as [|l0 ls]; [done|]. injection Hk as ->. cbn [take forallb] in H1.
    rewrite (bool_decide_eq_true_2 _ Hr) in H1. destruct ev as [| | | | | | | | | | | | |[|k] take| ]; try done. by eexists.
  - destruct ev as [| | | | | | |t [ct|]| | | | | | | ]; try done.
    + intros t tk Htk. rewrite forallb_forall in H3. apply negb_true_iff, H3.
      by eapply list_elem_of_In, list_elem_of_lookup_2.
    + cbn in Ht. subst ct. split; [apply ex_tracker_wf|done].
    + by apply Nat.ltb_lt.
Qed.

Lemma guards_check_sound evs m :
  guards_check evs m = true -> Forall checks_ex_tracker evs -> run_guarded [ex_file] ex_lengths evs m.
Proof.
  revert m. induction evs as [|ev evs IH]; intros m; [done|]. cbn [guards_check run_guarded].
  intros [Hg Hgs]%andb_true_iff [Ht Hts]%Forall_cons. split; [by apply guard_check_sound|by apply IH].
Qed.

Lemma ex_life_reachable :
  l_reachable [ex_file] ex_lengths (ex_new false) true (ex_life ex_evs_life (ex_new false)).
Proof. apply run_reachable; [constructor|]. apply guards_check_sound; [by vm_compute|by repeat constructor]. Qed.

Lemma ex_files_wf : Forall (file_wf ex_lengths) [ex_file].
Proof. by repeat constructor. Qed.

Lemma ex_new_init : l_init (ex_new false).
Proof. split_and!; [done..|by eexists _, _]. Qed.

Lemma lifecycle_safe_witness :
  exists m, l_reachable [ex_file] ex_lengths (ex_new false) true m /\
    (forall k l, mt_lives m !! k = Some l -> lv_pieces l <> None -> mt_state m = Live k).
Proof.
  destruct (lifecycle_safe [ex_file] ex_lengths _ _ _ ex_files_wf ex_new_init ex_life_reachable) as (_ & _ & _ & He).
  destruct (He eq_refl) as [He' _]. eexists. split; [exact ex_life_reachable|exact He'].
Defined.

(** A pause during the check is lost when the saved bit field is accepted: the torrent
    goes live, although it is marked as paused. *)
Lemma pause_during_check_lost :
  let m := ex_life ([ex_start false; EvAcquire 0; EvPause true] ++ ex_check_ends 0) (ex_new false) in
  mt_state m = Live 0 /\ is_paused m = true.
Proof. by vm_compute. Qed.

(** Starting a torrent during a check that was begun paused is lost: the torrent stays
    paused, although it is not marked as paused and the queue does not hold it. *)
Lemma unpause_during_check_lost :
  let m := ex_life ([ex_start true; EvAcquire 0; ex_start false] ++ ex_check_ends 0) (ex_new true) in
  mt_state m = Paused ex_tracker /\ is_paused m = false /\ queue_held m = false.
Proof. by vm_compute. Qed.

(** A start between the end of a check that was paused and the look at the flag turns
    the pause into an error. *)
Lemma unpause_races_with_pause :
  let m := ex_life [ex_start false; EvAcquire 0; EvPause true; EvChecked 0 None; EvFinishCheck 0; ex_start false;
                    EvResult 0 false; EvSetError 0] (ex_new false) in
  mt_state m = Error /\ is_paused m = false.
Proof. by vm_compute. Qed.

(** The error of a check is recorded without a look at the state: a start in between
    leaves a live torrent running behind the error, and a second one beside it later. *)
Lemma late_error_leaves_two_downloads :
  let m := ex_life ([ex_start false; EvAcquire 0; EvChecked 0 None; EvFinishCheck 0; EvResult 0 false;
                     ex_start false; EvAcquire 1] ++ ex_check_ends 1 ++
                    [EvSetError 0; ex_start false; EvAcquire 2] ++ ex_check_ends 2) (ex_new false) in
  exists l0 l1, mt_lives m = [l0; l1] /\ is_Some (lv_pieces l0) /\ is_Some (lv_pieces l1).
Proof. eexists _, _. vm_compute. split_and!; [done|by eexists..]. Qed.
