(* ===== verification/Streaming.v ===== *)
(** * Streaming files ([librqbit::torrent_state::streaming])

    Readers of a file that is being downloaded: the pieces ahead of each reader are
    downloaded first, a read of a piece that is not there yet parks the reader, and
    the completion of the piece wakes it up.  Wakers are the number of the reader they
    wake.  The state of the torrent is seen through the tracker and the storage it
    gives access to, if it is live or paused. *)

From stdpp Require Import base tactics option list list_numbers numbers decidable sets gmap fin_maps.
From Stdlib Require Import ZArith Lia.
From S2P Require Import Prelude Lengths FileInfo ChunkTracker Storage.
Open Scope Z_scope.

Definition PER_STREAM_BUF_DEFAULT : Z := 32 * 1024 * 1024.

Record StreamState := mkStream {
  ss_file_id : nat;
  ss_file_len : Z;
  ss_file_abs_offset : Z;
  ss_position : Z;
  ss_waker : option nat
}.

Definition current_piece (l : Lengths) (s : StreamState) : option CurrentPiece :=
  compute_current_piece l (ss_position s) (ss_file_abs_offset s).

(** The pieces a reader needs next. *)
Definition stream_queue (l : Lengths) (s : StreamState) : outcome (list ValidPieceIndex) :=
  let start := u64 (ss_file_abs_offset s + ss_position s) in
  let end_ := Z.min (u64 (start + PER_STREAM_BUF_DEFAULT)) (u64 (ss_file_abs_offset s + ss_file_len s)) in
  let dpl := ln_piece_length l in
  match try_into 32 (start / dpl), try_into 32 (div_ceil end_ dpl) with
  | Some start_id, Some end_id => Ret (omap (validate_piece_index l) (seqZ start_id (end_id - start_id)))
  | _, _ => Panic
  end.

Record TorrentStreams := mkStreams {
  next_stream_id : nat;
  streams : gmap nat StreamState
}.

Definition TorrentStreams_default : TorrentStreams := mkStreams 0 ∅.

Definition register_waker (stream_id : nat) (waker : nat) (t : TorrentStreams) : TorrentStreams :=
  mkStreams (next_stream_id t)
    (alter (fun s => mkStream (ss_file_id s) (ss_file_len s) (ss_file_abs_offset s) (ss_position s) (Some waker))
       stream_id (streams t)).

(** [Interleave]: the iterators take turns until they are exhausted.  Each step uses
    up a piece or an iterator, so the fuel below is enough. *)
Fixpoint interleave_steps (fuel : nat) (all : list (list ValidPieceIndex)) : list ValidPieceIndex :=
  match fuel with
  | O => []
  | S fuel =>
      match all with
      | [] => []
      | [] :: all => interleave_steps fuel all
      | (piece :: it) :: all => piece :: interleave_steps fuel (all ++ [it])
      end
  end.

Fixpoint turns (all : list (list ValidPieceIndex)) : nat :=
  match all with [] => 0 | it :: all => S (length it) + turns all end.

Definition interleave (all : list (list ValidPieceIndex)) : list ValidPieceIndex := interleave_steps (turns all) all.

(** [shuffle] gives the iterators in some order. *)
Definition iter_next_pieces (shuffle : list (list ValidPieceIndex) -> list (list ValidPieceIndex)) (l : Lengths)
    (t : TorrentStreams) : outcome (list ValidPieceIndex) :=
  all ← foldM (fun acc (p : nat * StreamState) => q ← stream_queue l p.2; Ret (acc ++ [q])) []
          (map_to_list (streams t));
  Ret (interleave (shuffle all)).

(** The streams that wait for the piece; their wakers are taken. *)
Definition waits_for (l : Lengths) (piece_id : ValidPieceIndex) (s : StreamState) : bool :=
  match current_piece l s with Some cp => cp_id cp =? piece_id | None => false end.

Definition wake_streams_on_piece_completed (l : Lengths) (piece_id : ValidPieceIndex) (t : TorrentStreams)
    : TorrentStreams * gset nat :=
  (mkStreams (next_stream_id t)
     ((fun s => if waits_for l piece_id s
                then mkStream (ss_file_id s) (ss_file_len s) (ss_file_abs_offset s) (ss_position s) None
                else s) <$> streams t),
   list_to_set (omap (fun p : nat * StreamState => if waits_for l piece_id p.2 then ss_waker p.2 else None)
     (map_to_list (streams t)))).

Definition drop_stream (stream_id : nat) (t : TorrentStreams) : TorrentStreams :=
  mkStreams (next_stream_id t) (delete stream_id (streams t)).

Definition streamed_file_ids (t : TorrentStreams) : list nat := (fun p => ss_file_id p.2) <$> map_to_list (streams t).

(** ** A reader *)

Record FileStream := mkFileStream {
  fs_stream_id : nat;
  fs_file_id : nat;
  fs_position : Z;
  fs_file_len : Z;
  fs_abs_offset : Z
}.

(** [ManagedTorrent::stream], once the torrent is checked. *)
Definition open_stream (file_infos : list FileInfo) (file_id : nat) (t : TorrentStreams)
    : option (TorrentStreams * FileStream) :=
  fi ← file_infos !! file_id;
  let id := next_stream_id t in
  Some (mkStreams (S id)
          (<[id := mkStream file_id (fi_len fi) (fi_offset_in_torrent fi) 0 None]> (streams t)),
        mkFileStream id file_id 0 (fi_len fi) (fi_offset_in_torrent fi)).

Definition set_position (new_pos : Z) (fs : FileStream) (t : TorrentStreams)
    : outcome (TorrentStreams * FileStream) :=
  match streams t !! fs_stream_id fs with
  | None => Panic
  | Some s =>
      Ret (mkStreams (next_stream_id t)
             (<[fs_stream_id fs := mkStream (ss_file_id s) (ss_file_len s) (ss_file_abs_offset s) new_pos (ss_waker s)]>
                (streams t)),
           mkFileStream (fs_stream_id fs) (fs_file_id fs) new_pos (fs_file_len fs) (fs_abs_offset fs))
  end.

Definition advance (diff : Z) (fs : FileStream) : TorrentStreams -> outcome (TorrentStreams * FileStream) :=
  set_position (u64 (fs_position fs + diff)) fs.

Inductive Poll :=
| Ready (data : bytes)
| ReadyErr
| Pending.

Inductive SeekFrom :=
| SeekStart (s : Z)
| SeekEnd (e : Z)
| SeekCurrent (o : Z).

(** Wrap-around of an [i64], and the conversion of a [u64] to one. *)
Definition i64 (z : Z) : Z := (z + 2 ^ 63) mod 2 ^ 64 - 2 ^ 63.
Definition to_i64 (z : Z) : option Z := if z <? 2 ^ 63 then Some z else None.

(** [None] is an error. *)
Definition start_seek (position : SeekFrom) (fs : FileStream) (t : TorrentStreams)
    : outcome (option (TorrentStreams * FileStream)) :=
  match to_i64 (fs_file_len fs) with
  | None => Ret None
  | Some end_ =>
      match
        match position with
        | SeekStart s => to_i64 s
        | SeekEnd e => n ← to_i64 (fs_file_len fs); Some (i64 (n + e))
        | SeekCurrent o => n ← to_i64 (fs_position fs); Some (i64 (n + o))
        end
      with
      | None => Ret None
      | Some new_pos =>
          if (new_pos <? 0) || (end_ <? new_pos) then Ret None
          else r ← set_position new_pos fs t; Ret (Some r)
      end
  end.

Section Read.
Context {St E : Type} `{TorrentStorage St E} (l : Lengths).

(** [poll_read] into a buffer with [cap] bytes left, by the reader [waker].  [have] and
    [files] are what the two calls into the torrent give: nothing while it is neither
    live nor paused. *)
Definition poll_read (waker : nat) (cap : Z) (have : option BF) (files : option St) (fs : FileStream)
    (t : TorrentStreams) : outcome (TorrentStreams * FileStream * Poll) :=
  if fs_position fs =? fs_file_len fs then Ret (t, fs, Ready [])
  else
    match compute_current_piece l (fs_position fs) (fs_abs_offset fs), have with
    | None, _ | _, None => Ret (t, fs, ReadyErr)
    | Some current, Some have =>
        h ← index have (Z.to_nat (cp_id current));
        if negb h then Ret (register_waker (fs_stream_id fs) waker t, fs, Pending)
        else
          let file_remaining := fs_file_len fs - fs_position fs in
          let bytes_to_read := Z.min (Z.min cap (cp_piece_remaining current)) file_remaining in
          match files with
          | None => Ret (t, fs, ReadyErr)
          | Some files =>
              match pread_exact files (fs_file_id fs) (fs_position fs) (Z.to_nat bytes_to_read) with
              | XPanic => Panic
              | XErr _ => Ret (t, fs, ReadyErr)
              | XOk bs => r ← advance bytes_to_read fs t; Ret (r.1, r.2, Ready bs)
              end
          end
    end.
End Read.

(** ** The order of the pieces *)

Fixpoint longest (all : list (list ValidPieceIndex)) : nat :=
  match all with [] => 0 | it :: all => max (length it) (longest all) end.

(** Round [i]: the [i]-th piece of every iterator that has one. *)
Fixpoint round (all : list (list ValidPieceIndex)) (i : nat) : list ValidPieceIndex :=
  match all with
  | [] => []
  | it :: all => match it !! i with Some p => p :: round all i | None => round all i end
  end.

Fixpoint nonempty (all : list (list ValidPieceIndex)) : list (list ValidPieceIndex) :=
  match all with
  | [] => []
  | [] :: all => nonempty all
  | it :: all => it :: nonempty all
  end.

Lemma turns_app a b : turns (a ++ b) = (turns a + turns b)%nat.
Proof. induction a as [|x a IH]; [done|]. cbn. lia. Qed.

(** One round of turns. *)
Lemma interleave_round fuel l1 l2 :
  (turns (l1 ++ l2) <= fuel)%nat ->
  exists fuel', (turns (l2 ++ (tail <$> nonempty l1)) <= fuel')%nat /\
    interleave_steps fuel (l1 ++ l2) = round l1 0 ++ interleave_steps fuel' (l2 ++ (tail <$> nonempty l1)).
Proof.
  revert fuel l2. induction l1 as [|[|p it] l1 IH]; intros fuel l2 Hf.
  - exists fuel. cbn. rewrite app_nil_r. done.
  - destruct fuel as [|fuel]; cbn in Hf; [lia|]. cbn. apply IH. lia.
  - destruct fuel as [|fuel]; cbn in Hf; [lia|].
    destruct (IH fuel (l2 ++ [it])) as (fuel' & Hf' & E).
    { rewrite !turns_app in *. cbn in *. lia. }
    exists fuel'. cbn. rewrite <-!app_assoc in *. cbn in *.
    split; [done|]. by rewrite E.
Qed.

Lemma round_tail all i : round (tail <$> nonempty all) i = round all (S i).
Proof.
  induction all as [|[|p it] all IH]; [done|done|]. cbn. by rewrite IH.
Qed.

Lemma longest_tail all : longest (tail <$> nonempty all) = pred (longest all).
Proof.
  induction all as [|[|p it] all IH]; [done|done|]. cbn in *. rewrite IH. lia.
Qed.

Lemma interleave_steps_rounds n all fuel :
  longest all = n -> (turns all <= fuel)%nat -> interleave_steps fuel all = concat (round all <$> seq 0 n).
Proof.
  revert all fuel. induction n as [|n IH]; intros all fuel Hn Hf.
  - revert fuel Hf. induction all as [|[|p it] all IHa]; intros fuel Hf; [by destruct fuel| |cbn in Hn; lia].
    destruct fuel as [|fuel]; [done|]. cbn in *. apply IHa; [done|lia].
  - destruct (interleave_round fuel all []) as (fuel' & Hf' & E); [by rewrite app_nil_r|].
    rewrite !app_nil_r in E. rewrite app_nil_l in *. rewrite E.
    rewrite (IH _ fuel'); [|rewrite longest_tail, Hn; done|done].
    cbn [seq]. rewrite fmap_cons. cbn [concat]. f_equal. rewrite <-seq_shift, <-list_fmap_compose. f_equal.
    apply list_fmap_ext. intros _ i _. apply round_tail.
Qed.

(** The iterators take turns: first the first pieces of all, then the second ones,
    and so on, in the same order of iterators in each round. *)
Lemma interleave_rounds all : interleave all = concat (round all <$> seq 0 (longest all)).
Proof. by apply interleave_steps_rounds. Qed.

(** ** A stream inside its torrent *)

Record fs_wf (l : Lengths) (fs : FileStream) (t : TorrentStreams) : Prop := {
  fw_offset_pos : 0 <= fs_abs_offset fs;
  fw_position : 0 <= fs_position fs <= fs_file_len fs;
  fw_inside : fs_abs_offset fs + fs_file_len fs <= ln_total_length l;
  fw_entry : exists w, streams t !! fs_stream_id fs =
    Some (mkStream (fs_file_id fs) (fs_file_len fs) (fs_abs_offset fs) (fs_position fs) w)
}.

Lemma current_piece_valid l pos off cp :
  lengths_wf l -> 0 <= off + pos < 2 ^ 64 -> compute_current_piece l pos off = Some cp ->
  valid_piece l (cp_id cp) /\ piece_offset l (cp_id cp) = cp_id cp * ln_piece_length l /\
  piece_length l (cp_id cp) <= ln_piece_length l.
Proof.
  intros Hl Hp. unfold compute_current_piece. rewrite wrap_id by (unfold is_uint; lia).
  pose proof (wf_piece _ Hl). assert (0 <= (off + pos) / ln_piece_length l) by (apply Z.div_pos; lia).
  destruct (try_into 32 ((off + pos) / ln_piece_length l)) as [i|] eqn:Ei; cbn; [|done].
  apply try_into_Some in Ei as [Hi ->]. destruct (validate_piece_index l _) as [j|] eqn:Ej; cbn; [|done].
  apply validate_piece_index_Some in Ej as [-> Hle]. set (j := (off + pos) / ln_piece_length l) in *.
  destruct (try_into 32 (u64 _)); cbn; [|done]. intros [= <-]. cbn.
  assert (valid_piece l j) as Hv by (split; lia). split; [done|].
  pose proof (last_id_spec l Hl) as (Hs & ? & ?). split.
  - apply wrap_id. unfold is_uint. pose proof (wf_total _ Hl).
    pose proof (Z.mul_le_mono_nonneg_r j (ln_last_piece_id l) (ln_piece_length l)). lia.
  - unfold piece_length. destruct (j =? ln_last_piece_id l); lia.
Qed.

(** The pieces ahead of a reader are those of the next bytes of its file, from the one
    it reads on. *)
Lemma stream_queue_correct l s :
  lengths_wf l -> 0 <= ss_file_abs_offset s -> 0 <= ss_position s <= ss_file_len s ->
  ss_file_abs_offset s + ss_file_len s <= ln_total_length l -> ln_total_length l + PER_STREAM_BUF_DEFAULT < 2 ^ 64 ->
  exists q, stream_queue l s = Ret q /\
    forall p, p ∈ q <->
      p * ln_piece_length l < Z.min (ss_file_abs_offset s + ss_position s + PER_STREAM_BUF_DEFAULT)
                                (ss_file_abs_offset s + ss_file_len s) /\
      ss_file_abs_offset s + ss_position s < (p + 1) * ln_piece_length l.
Proof.
  intros Hl Ho Hp Hin Hsm. pose proof (wf_piece _ Hl). pose proof (wf_total _ Hl). pose proof (wf_pieces _ Hl) as Hps.
  pose proof (wf_last_id _ Hl) as Hlast. unfold stream_queue, PER_STREAM_BUF_DEFAULT in *.
  set (start := ss_file_abs_offset s + ss_position s) in *. set (fend := ss_file_abs_offset s + ss_file_len s) in *.
  rewrite (wrap_id 64 start) by (unfold is_uint; lia). rewrite (wrap_id 64 fend) by (unfold is_uint; lia).
  rewrite wrap_id by (unfold is_uint; lia). set (end_ := Z.min _ _). set (d := ln_piece_length l) in *.
  pose proof (div_ceil_spec (ln_total_length l) d ltac:(lia)) as Hc.
  pose proof (Z.div_mod start d ltac:(lia)). pose proof (Z.mod_pos_bound start d ltac:(lia)).
  pose proof (div_ceil_spec end_ d ltac:(lia)) as He.
  assert (0 <= start / d) by (apply Z.div_pos; lia).
  assert (start / d <= div_ceil (ln_total_length l) d).
  { apply (Z.mul_le_mono_pos_r _ _ d); lia. }
  assert (div_ceil end_ d <= div_ceil (ln_total_length l) d) by (apply div_ceil_mono; lia).
  assert (0 <= div_ceil end_ d) by (apply div_ceil_nonneg; lia).
  rewrite !try_into_small by (unfold is_uint; lia). eexists. split; [done|]. intros p.
  rewrite list_elem_of_omap. split.
  - intros (i & Hi%elem_of_seqZ & Hv). apply validate_piece_index_Some in Hv as [-> ?].
    pose proof (Z.mul_le_mono_nonneg_r i (div_ceil end_ d - 1) d). pose proof (Z.mul_le_mono_nonneg_r (start / d) i d). lia.
  - intros [Hp1 Hp2]. assert (start / d < p + 1) by (apply (Z.mul_lt_mono_pos_r d); lia).
    assert (p < div_ceil end_ d) by (apply (Z.mul_lt_mono_pos_r d); lia).
    assert (p < div_ceil (ln_total_length l) d) by (apply (Z.mul_lt_mono_pos_r d); lia).
    exists p. split; [apply elem_of_seqZ; lia|]. apply validate_valid. unfold valid_piece. lia.
Qed.

(** The position a seek asks for. *)
Definition seek_target (position : SeekFrom) (fs : FileStream) : Z :=
  match position with
  | SeekStart s => s
  | SeekEnd e => fs_file_len fs + e
  | SeekCurrent o => fs_position fs + o
  end.

Definition seek_wf (position : SeekFrom) : Prop :=
  match position with
  | SeekStart s => is_u64 s
  | SeekEnd z | SeekCurrent z => - 2 ^ 63 <= z < 2 ^ 63
  end.

Lemma i64_cases z :
  - 2 ^ 63 <= z < 2 ^ 64 -> (z < 2 ^ 63 /\ i64 z = z) \/ (2 ^ 63 <= z /\ i64 z < 0).
Proof.
  intros Hz. unfold i64. destruct (decide (z < 2 ^ 63)); [left|right].
  - rewrite Z.mod_small by lia. lia.
  - replace (z + 2 ^ 63) with ((z - 2 ^ 63) + 1 * 2 ^ 64) by lia. rewrite Z.mod_add, Z.mod_small by lia. lia.
Qed.

(** Only the stream of the reader changes. *)
Definition touches (fs : FileStream) (t t' : TorrentStreams) : Prop :=
  next_stream_id t' = next_stream_id t /\
  forall id, id <> fs_stream_id fs -> streams t' !! id = streams t !! id.

Lemma set_position_ok l new_pos fs t :
  fs_wf l fs t -> 0 <= new_pos <= fs_file_len fs ->
  exists t' fs', set_position new_pos fs t = Ret (t', fs') /\ fs_wf l fs' t' /\ fs_position fs' = new_pos /\
    fs_stream_id fs' = fs_stream_id fs /\ fs_file_len fs' = fs_file_len fs /\ touches fs t t'.
Proof.
  intros [Ho Hp Hi (w & He)] Hn. unfold set_position. rewrite He. eexists _, _. split; [done|].
  split_and!; try done; [split; cbn; [done|done|done|]|split; [done|]].
  - exists w. by rewrite lookup_insert_eq.
  - intros id Hid. cbn. by rewrite lookup_insert_ne.
Qed.

Lemma start_seek_spec (l : Lengths) (position : SeekFrom) (fs : FileStream) (t : TorrentStreams) :
  lengths_wf l -> fs_wf l fs t -> seek_wf position ->
  let target := seek_target position fs in
  if bool_decide (0 <= target <= fs_file_len fs /\ fs_file_len fs < 2 ^ 63) then
    exists t' fs', start_seek position fs t = Ret (Some (t', fs')) /\ fs_wf l fs' t' /\ fs_position fs' = target /\
      fs_stream_id fs' = fs_stream_id fs /\ fs_file_len fs' = fs_file_len fs /\ touches fs t t'
  else start_seek position fs t = Ret None.
Proof.
  intros Hl Hfs Hw target. destruct (Hfs) as [Ho Hp Hi (w & He)]. unfold start_seek, to_i64.
  destruct (Z.ltb_spec (fs_file_len fs) (2 ^ 63)) as [Hlt|Hge]; [|rewrite bool_decide_eq_false_2 by lia; done].
  assert (Hnew : exists new_pos,
    match position with
    | SeekStart s => if s <? 2 ^ 63 then Some s else None
    | SeekEnd e => Some (i64 (fs_file_len fs + e))
    | SeekCurrent o => n ← if fs_position fs <? 2 ^ 63 then Some (fs_position fs) else None; Some (i64 (n + o))
    end = new_pos /\
    (forall p, new_pos = Some p -> 0 <= p <= fs_file_len fs -> p = target) /\
    (0 <= target <= fs_file_len fs -> new_pos = Some target)).
  { eexists. split; [done|]. unfold target, seek_target. destruct position as [s|e|o]; cbn in Hw.
    - unfold is_uint in Hw. destruct (Z.ltb_spec s (2 ^ 63)); split; intros; simplify_eq; try done; lia.
    - destruct (i64_cases (fs_file_len fs + e)) as [[? ->]|[? Hneg]]; [lia|split; intros; simplify_eq; done|].
      split; [intros ? [= <-]; lia|lia].
    - destruct (Z.ltb_spec (fs_position fs) (2 ^ 63)); [|lia]. cbn.
      destruct (i64_cases (fs_position fs + o)) as [[? ->]|[? Hneg]]; [lia|split; intros; simplify_eq; done|].
      split; [intros ? [= <-]; lia|lia]. }
  destruct Hnew as (np & Enp & Hs & Hc). cbn [mbind option_bind]. rewrite Enp.
  destruct (decide (0 <= target <= fs_file_len fs)) as [Ht|Ht].
  - rewrite bool_decide_eq_true_2 by done. rewrite (Hc Ht).
    destruct (Z.ltb_spec target 0), (Z.ltb_spec (fs_file_len fs) target); try lia. cbn [orb].
    destruct (set_position_ok l target fs t Hfs Ht) as (t' & fs' & -> & Hr). by exists t', fs'.
  - rewrite bool_decide_eq_false_2 by tauto. destruct np as [np|]; [|done].
    destruct (Z.ltb_spec np 0), (Z.ltb_spec (fs_file_len fs) np); try done. destruct Ht. rewrite <-(Hs np) by (done || lia). lia.
Qed.

(** C39: a seek succeeds exactly when it asks for a position of the file, its end
    included; then the reader and the entry of its stream are at that position, and no
    sum that overflows is taken for a valid position. Otherwise nothing changes. Files
    of 2^63 bytes or more can not be sought. *)
Theorem start_seek_correct (l : Lengths) (position : SeekFrom) (fs : FileStream) (t : TorrentStreams) :
  lengths_wf l -> fs_wf l fs t -> seek_wf position ->
  let target := seek_target position fs in
  if bool_decide (0 <= target <= fs_file_len fs /\ fs_file_len fs < 2 ^ 63) then
    exists t' fs', start_seek position fs t = Ret (Some (t', fs')) /\ fs_wf l fs' t' /\ fs_position fs' = target /\
      fs_stream_id fs' = fs_stream_id fs /\ fs_file_len fs' = fs_file_len fs /\ touches fs t t'
  else start_seek position fs t = Ret None.
Proof. exact (start_seek_spec l position fs t). Qed.

Section ReadCorrect.
Context {St E : Type} `{StorageSpec St E} (l : Lengths).

Lemma poll_read_spec (waker : nat) (cap : Z) (have : BF) (files : option St) (fs : FileStream) (t : TorrentStreams) :
  lengths_wf l -> fs_wf l fs t -> length have = Z.to_nat (8 * piece_bitfield_bytes l) -> 0 <= cap ->
  exists t' fs' r, poll_read l waker cap (Some have) files fs t = Ret (t', fs', r) /\ fs_wf l fs' t' /\
    fs_stream_id fs' = fs_stream_id fs /\ touches fs t t' /\
    match r with
    | Pending => fs' = fs /\ fs_position fs < fs_file_len fs /\
        (exists s cp, streams t' !! fs_stream_id fs = Some s /\ ss_waker s = Some waker /\
           current_piece l s = Some cp /\ valid_piece l (cp_id cp) /\ bit have (Z.to_nat (cp_id cp)) = false)
    | ReadyErr => fs' = fs /\ t' = t /\
        forall s, files = Some s -> exists n e, pread_exact s (fs_file_id fs) (fs_position fs) n = XErr e
    | Ready bs =>
        fs_position fs' = fs_position fs + Z.of_nat (length bs) /\
        (bs = [] -> fs_position fs = fs_file_len fs \/ cap = 0) /\
        Z.of_nat (length bs) <= cap /\
        (forall s, files = Some s -> forall k, (k < length bs)%nat -> view s (fs_file_id fs) (fs_position fs + Z.of_nat k) = bs !! k) /\
        (forall k, (k < length bs)%nat ->
           bit have (Z.to_nat ((fs_abs_offset fs + fs_position fs + Z.of_nat k) / ln_piece_length l)) = true)
    end.
Proof.
  intros Hl Hfs Hh Hcap. destruct (Hfs) as [Ho Hp Hi (w & He)]. pose proof (wf_total _ Hl) as Htot. unfold poll_read.
  destruct (Z.eqb_spec (fs_position fs) (fs_file_len fs)) as [Hend|Hend].
  { eexists _, _, _. split; [done|]. do 3 (split; [done|]). cbn. split_and!; [lia|auto|lia|intros; lia|intros; lia]. }
  destruct (current_piece_offset_is_piece_index l (fs_position fs) (fs_abs_offset fs) Hl Ho ltac:(lia) ltac:(lia))
    as (cp & Hcp & Hin & Hrem & _). rewrite Hcp.
  destruct (current_piece_valid l (fs_position fs) (fs_abs_offset fs) cp Hl ltac:(lia) Hcp) as (Hcv & Hcid & Hcl).
  rewrite index_bit by (rewrite Hh; by apply bitfield_covers). cbn [mbind outcome_bind].
  destruct (bit have (Z.to_nat (cp_id cp))) eqn:Hb; cbn [negb].
  2:{ eexists _, _, _. split; [done|].
      assert (Hw' : streams (register_waker (fs_stream_id fs) waker t) !! fs_stream_id fs =
        Some (mkStream (fs_file_id fs) (fs_file_len fs) (fs_abs_offset fs) (fs_position fs) (Some waker))).
      { cbn. by rewrite lookup_alter_eq, He. }
      split; [split; try done; by exists (Some waker)|]. split; [done|]. split.
      { split; [done|]. intros id Hid. cbn. by rewrite lookup_alter_ne. }
      split; [done|]. split; [lia|].
      eexists _, cp. split_and!; [exact Hw'|done|done|done|done]. }
  set (n := Z.min (Z.min cap (cp_piece_remaining cp)) (fs_file_len fs - fs_position fs)).
  assert (0 <= n) as Hn by lia.
  destruct files as [files|]; [|by eexists _, _, _; split_and!].
  pose proof (pread_spec files (fs_file_id fs) (fs_position fs) (Z.to_nat n) ltac:(lia)) as Hrd.
  destruct (pread_exact files (fs_file_id fs) (fs_position fs) (Z.to_nat n)) as [bs|e|] eqn:Er; [| |done].
  2:{ eexists _, _, _. split; [done|]. do 5 (split; [done|]). intros ? [= <-]. by eexists _, _. }
  destruct Hrd as [Hlen Hv]. unfold advance. rewrite wrap_id by (unfold is_uint; lia).
  destruct (set_position_ok l (fs_position fs + n) fs t Hfs ltac:(lia)) as (t' & fs' & -> & Hwf & Hpos & Hid & _ & Hto).
  cbn [mbind outcome_bind fst snd]. eexists _, _, _. split; [done|]. do 3 (split; [done|]). split_and!.
  - lia.
  - intros ->. cbn in Hlen. lia.
  - lia.
  - intros ? [= <-] k Hk. apply Hv. lia.
  - intros k Hk. rewrite <-Hb. f_equal. f_equal. symmetry. apply Z.div_unique_pos with
      (r := fs_abs_offset fs + fs_position fs + Z.of_nat k - ln_piece_length l * cp_id cp).
    + lia.
    + lia.
Qed.

(** A read never panics. It answers an end of file only at the end; otherwise, on a
    torrent that is live or paused, it either parks the reader because the piece at its
    position is not downloaded, and leaves its waker, or fails with the storage, or
    returns the next bytes of the file from pieces that are downloaded, at least one
    when there is room, and moves on by as many. *)
Theorem poll_read_correct (waker : nat) (cap : Z) (have : BF) (files : St) (fs : FileStream) (t : TorrentStreams) :
  lengths_wf l -> fs_wf l fs t -> length have = Z.to_nat (8 * piece_bitfield_bytes l) -> 0 <= cap ->
  exists t' fs' r, poll_read l waker cap (Some have) (Some files) fs t = Ret (t', fs', r) /\ fs_wf l fs' t' /\
    match r with
    | Pending => fs' = fs /\ fs_position fs < fs_file_len fs /\
        (exists s cp, streams t' !! fs_stream_id fs = Some s /\ ss_waker s = Some waker /\
           current_piece l s = Some cp /\ bit have (Z.to_nat (cp_id cp)) = false)
    | ReadyErr => fs' = fs /\ t' = t /\ exists n e, pread_exact files (fs_file_id fs) (fs_position fs) n = XErr e
    | Ready bs =>
        fs_position fs' = fs_position fs + Z.of_nat (length bs) /\
        (bs = [] -> fs_position fs = fs_file_len fs \/ cap = 0) /\
        Z.of_nat (length bs) <= cap /\
        (forall k, (k < length bs)%nat -> view files (fs_file_id fs) (fs_position fs + Z.of_nat k) = bs !! k) /\
        (forall k, (k < length bs)%nat ->
           bit have (Z.to_nat ((fs_abs_offset fs + fs_position fs + Z.of_nat k) / ln_piece_length l)) = true)
    end.
Proof.
  intros Hl Hfs Hh Hcap.
  destruct (poll_read_spec waker cap have (Some files) fs t Hl Hfs Hh Hcap) as (t' & fs' & r & E1 & Hwf & _ & _ & Hr).
  exists t', fs', r. split_and!; [done|done|]. destruct r as [bs| |].
  - destruct Hr as (? & ? & ? & Hv & ?). split_and!; auto.
  - destruct Hr as (? & ? & He). auto.
  - destruct Hr as (? & ? & s & cp & ? & ? & ? & _ & ?). split_and!; [done|done|]. by exists s, cp.
Qed.
End ReadCorrect.

(** ** Readers, downloads and wake-ups *)

(** A reader: parked by its last read, and woken since. *)
Record Client := mkClient {
  cl_fs : FileStream;
  cl_parked : bool;
  cl_woken : bool
}.

(** Whether the torrent downloads, is paused, or was checked anew after an error, so that
    it has other streams than these. *)
Inductive SState := Running | Stopped | Replaced.

#[export] Instance SState_eq_dec : EqDecision SState.
Proof. solve_decision. Defined.

(** The pieces downloaded, the streams, the readers, and the pieces whose completion is
    still to be announced: a piece is marked as downloaded in one critical section
    ([mark_piece_hash_ok]) and announced in a later one ([on_piece_completed]), which
    returns early ([get_pieces_mut()?]) and wakes nobody when the torrent was paused in
    between; [sw_dropped] has the pieces whose announcement these streams did not get. *)
Record SWorld := mkSW {
  sw_have : BF;
  sw_streams : TorrentStreams;
  sw_clients : gmap nat Client;
  sw_completing : gset Z;
  sw_dropped : gset Z;
  sw_state : SState
}.

Section World.
Context {St E : Type} `{StorageSpec St E} (l : Lengths) (file_infos : list FileInfo).

Inductive s_ev :=
| SvOpen (c : nat) (file_id : nat)
| SvRead (c : nat) (cap : Z) (available : bool) (files : option St)
| SvSeek (c : nat) (position : SeekFrom)
| SvClose (c : nat)
| SvDownloaded (p : Z)
| SvCompleted (p : Z)
| SvMissing (p : Z)
| SvPause
| SvStart
| SvRecheck (have : BF).

Definition set_client (c : nat) (cl : Client) (t : TorrentStreams) (w : SWorld) : SWorld :=
  mkSW (sw_have w) t (<[c := cl]> (sw_clients w)) (sw_completing w) (sw_dropped w) (sw_state w).

(** Every piece of the torrent. *)
Definition every_piece : gset Z := list_to_set (seqZ 0 (ln_last_piece_id l + 1)).

(** The part of [on_piece_completed] after its early return. *)
Definition announce (p : Z) (w : SWorld) : SWorld :=
  let '(t, woken) := wake_streams_on_piece_completed l p (sw_streams w) in
  mkSW (sw_have w) t
    (map_imap (fun c cl => Some (mkClient (cl_fs cl) (cl_parked cl) (cl_woken cl || bool_decide (c ∈ woken))))
       (sw_clients w))
    (sw_completing w ∖ {[ p ]}) (sw_dropped w ∖ {[ p ]}) (sw_state w).

Definition s_exec (ev : s_ev) (w : SWorld) : outcome SWorld :=
  match ev with
  | SvOpen c file_id =>
      if bool_decide (sw_state w = Replaced) then Ret w
      else
        match open_stream file_infos file_id (sw_streams w) with
        | Some (t, fs) => Ret (set_client c (mkClient fs false false) t w)
        | None => Ret w
        end
  | SvRead c cap available files =>
      match sw_clients w !! c with
      | None => Ret w
      | Some cl =>
          r ← poll_read l c cap (if available then Some (sw_have w) else None) files (cl_fs cl) (sw_streams w);
          let '(t, fs, res) := r in
          Ret (set_client c (mkClient fs match res with Pending => true | _ => false end false) t w)
      end
  | SvSeek c position =>
      match sw_clients w !! c with
      | None => Ret w
      | Some cl =>
          r ← start_seek position (cl_fs cl) (sw_streams w);
          match r with
          | Some (t, fs) => Ret (set_client c (mkClient fs false false) t w)
          | None => Ret w
          end
      end
  | SvClose c =>
      match sw_clients w !! c with
      | None => Ret w
      | Some cl =>
          Ret (mkSW (sw_have w) (drop_stream (fs_stream_id (cl_fs cl)) (sw_streams w)) (delete c (sw_clients w))
                 (sw_completing w) (sw_dropped w) (sw_state w))
      end
  | SvDownloaded p =>
      match sw_state w with
      | Running =>
          Ret (mkSW (<[Z.to_nat p := true]> (sw_have w)) (sw_streams w) (sw_clients w) ({[ p ]} ∪ sw_completing w)
                 (sw_dropped w) Running)
      | Stopped => Ret w
      | Replaced =>
          Ret (mkSW (<[Z.to_nat p := true]> (sw_have w)) (sw_streams w) (sw_clients w) (sw_completing w)
                 ({[ p ]} ∪ sw_dropped w) Replaced)
      end
  | SvCompleted p => if bool_decide (p ∈ sw_completing w) then Ret (announce p w) else Ret w
  | SvMissing p =>
      Ret (mkSW (<[Z.to_nat p := false]> (sw_have w)) (sw_streams w) (sw_clients w) (sw_completing w)
             (sw_dropped w ∖ {[ p ]}) (sw_state w))
  | SvPause =>
      Ret (mkSW (sw_have w) (sw_streams w) (sw_clients w) ∅ (sw_completing w ∪ sw_dropped w)
             match sw_state w with Running => Stopped | st => st end)
  | SvStart =>
      Ret (mkSW (sw_have w) (sw_streams w) (sw_clients w) (sw_completing w) (sw_dropped w)
             match sw_state w with Stopped => Running | st => st end)
  | SvRecheck have => Ret (mkSW have (sw_streams w) (sw_clients w) ∅ every_piece Replaced)
  end.

(** What the calls rely on. *)
Definition s_guard (w : SWorld) (ev : s_ev) : Prop :=
  match ev with
  | SvOpen c _ => sw_clients w !! c = None
  | SvRead _ cap _ _ => 0 <= cap
  | SvSeek _ position => seek_wf position
  | SvDownloaded p | SvCompleted p | SvMissing p => valid_piece l p
  | SvRecheck have => length have = Z.to_nat (8 * piece_bitfield_bytes l)
  | SvClose _ | SvPause | SvStart => True
  end.

(** Steps that drop no announcement: the torrent is not paused between the mark of a
    piece and its announcement, and is not checked anew. *)
Definition s_keeps (w : SWorld) (ev : s_ev) : bool :=
  match ev with
  | SvPause => bool_decide (sw_completing w = ∅)
  | SvRecheck _ => false
  | _ => true
  end.

(** Reachable by any steps; the flag is [true] when all of them keep the announcements. *)
Inductive s_reachable (w0 : SWorld) : bool -> SWorld -> Prop :=
| sr_start : s_reachable w0 true w0
| sr_step b w ev w' : s_reachable w0 b w -> s_guard w ev -> s_exec ev w = Ret w' ->
    s_reachable w0 (b && s_keeps w ev) w'.

(** A parked reader that was not woken has its waker at the piece it waits for. *)
Definition waiting (w : SWorld) (c : nat) (cl : Client) : Prop :=
  exists s cp, streams (sw_streams w) !! fs_stream_id (cl_fs cl) = Some s /\ ss_waker s = Some c /\
    current_piece l s = Some cp /\ valid_piece l (cp_id cp) /\
    (bit (sw_have w) (Z.to_nat (cp_id cp)) = true -> cp_id cp ∈ sw_completing w ∪ sw_dropped w).

Record sw_ok (w : SWorld) : Prop := {
  so_have : length (sw_have w) = Z.to_nat (8 * piece_bitfield_bytes l);
  so_fresh id s : streams (sw_streams w) !! id = Some s -> (id < next_stream_id (sw_streams w))%nat;
  so_client c cl : sw_clients w !! c = Some cl -> fs_wf l (cl_fs cl) (sw_streams w);
  so_distinct c c' cl cl' : sw_clients w !! c = Some cl -> sw_clients w !! c' = Some cl' ->
    fs_stream_id (cl_fs cl) = fs_stream_id (cl_fs cl') -> c = c';
  so_waiting c cl : sw_clients w !! c = Some cl -> cl_parked cl = true -> cl_woken cl = false -> waiting w c cl
}.

Lemma fs_wf_entry fs t t' :
  fs_wf l fs t -> streams t' !! fs_stream_id fs = streams t !! fs_stream_id fs -> fs_wf l fs t'.
Proof. intros [? ? ? (w & Hw)] E1. split; try done. exists w. congruence. Qed.

(** Only reader [c] and its stream change. *)
Lemma sw_ok_client w c cl cl' t' :
  sw_ok w -> sw_clients w !! c = Some cl -> fs_stream_id (cl_fs cl') = fs_stream_id (cl_fs cl) ->
  next_stream_id t' = next_stream_id (sw_streams w) ->
  (forall id, id <> fs_stream_id (cl_fs cl) -> streams t' !! id = streams (sw_streams w) !! id) ->
  fs_wf l (cl_fs cl') t' ->
  (cl_parked cl' = true -> cl_woken cl' = false -> waiting (set_client c cl' t' w) c cl') ->
  sw_ok (set_client c cl' t' w).
Proof.
  intros Hok Hc Hid Hn Hoth Hwf Hwait.
  assert (Hlk : forall d x, (<[c := cl']> (sw_clients w)) !! d = Some x ->
    (d = c /\ x = cl') \/ (d <> c /\ sw_clients w !! d = Some x /\ fs_stream_id (cl_fs x) <> fs_stream_id (cl_fs cl))).
  { intros d x [[<- <-]|[Hne Hx]]%lookup_insert_Some; [by left|]. right. split_and!; [done|done|].
    intros Ei. destruct Hne. by eapply (so_distinct w Hok). }
  split; cbn.
  - apply Hok.
  - intros id s Hs. destruct (decide (id = fs_stream_id (cl_fs cl))) as [->|Hne].
    + rewrite Hn. destruct (so_client w Hok c cl Hc) as [_ _ _ (x & Hx)]. by eapply (so_fresh w Hok).
    + rewrite Hn. rewrite Hoth in Hs by done. by eapply (so_fresh w Hok).
  - intros d x [[-> ->]|(Hne & Hx & Hi)]%Hlk; [done|]. eapply fs_wf_entry; [by eapply (so_client w Hok)|by apply Hoth].
  - intros d d' x x' [[-> ->]|(Hne & Hx & Hi)]%Hlk [[-> ->]|(Hne' & Hx' & Hi')]%Hlk Ei; [done|congruence|congruence|].
    by eapply (so_distinct w Hok).
  - intros d x [[-> ->]|(Hne & Hx & Hi)]%Hlk Hp Hw; [by apply Hwait|].
    destruct (so_waiting w Hok d x Hx Hp Hw) as (s & cp & Hs & ? & ? & ? & ?). exists s, cp. cbn.
    rewrite Hoth by done. done.
Qed.
Context (Hl : lengths_wf l).
Context (Hfiles : forall i fi, file_infos !! i = Some fi ->
  0 <= fi_offset_in_torrent fi /\ 0 <= fi_len fi /\ fi_offset_in_torrent fi + fi_len fi <= ln_total_length l).

Lemma sw_ok_open w c file_id t fs :
  sw_ok w -> sw_clients w !! c = None -> open_stream file_infos file_id (sw_streams w) = Some (t, fs) ->
  sw_ok (set_client c (mkClient fs false false) t w).
Proof.
  intros Hok Hc. unfold open_stream. destruct (file_infos !! file_id) as [fi|] eqn:Ef; cbn; [|done]. intros [= <- <-].
  destruct (Hfiles _ _ Ef) as (? & ? & ?). set (n := next_stream_id (sw_streams w)) in *.
  assert (Hnew : forall d x, sw_clients w !! d = Some x -> fs_stream_id (cl_fs x) <> n).
  { intros d x Hx. destruct (so_client w Hok d x Hx) as [_ _ _ (y & Hy)]. apply (so_fresh w Hok) in Hy. lia. }
  split; cbn.
  - apply Hok.
  - intros id s [[<- _]|[_ Hs]]%lookup_insert_Some; [lia|]. apply (so_fresh w Hok) in Hs. lia.
  - intros d x [[<- <-]|[Hne Hx]]%lookup_insert_Some.
    + split; cbn; [done|lia|done|]. exists None. by rewrite lookup_insert_eq.
    + eapply fs_wf_entry; [by eapply (so_client w Hok)|]. cbn. rewrite lookup_insert_ne; [done|]. by apply not_eq_sym, (Hnew d).
  - intros d d' x x' [[<- <-]|[Hne Hx]]%lookup_insert_Some [[<- <-]|[Hne' Hx']]%lookup_insert_Some; cbn; intros Ei; [done| | |].
    + by destruct (Hnew d' x' Hx').
    + by destruct (Hnew d x Hx).
    + by eapply (so_distinct w Hok).
  - intros d x [[<- <-]|[Hne Hx]]%lookup_insert_Some Hp Hw; [done|].
    destruct (so_waiting w Hok d x Hx Hp Hw) as (s & cp & Hs & Hr). exists s, cp. cbn. split; [|done].
    rewrite lookup_insert_ne; [done|]. by apply not_eq_sym, (Hnew d).
Qed.

Lemma sw_ok_read w c cl cap available files :
  sw_ok w -> sw_clients w !! c = Some cl -> 0 <= cap ->
  exists w', s_exec (SvRead c cap available files) w = Ret w' /\ sw_ok w'.
Proof.
  intros Hok Hc Hcap. cbn. rewrite Hc. pose proof (so_client w Hok c cl Hc) as Hwf. destruct available.
  - destruct (poll_read_spec l c cap (sw_have w) files (cl_fs cl) (sw_streams w) Hl Hwf (so_have w Hok) Hcap)
      as (t' & fs' & r & -> & Hwf' & Hid & [Hn Hoth] & Hr).
    cbn [mbind outcome_bind]. eexists. split; [done|]. eapply sw_ok_client; cbn [cl_fs cl_parked cl_woken]; try done.
    destruct r as [bs| |]; [done|done|]. intros _ _.
    destruct Hr as (-> & _ & s & cp & Hs & Hw & Hcp & Hv & Hb). exists s, cp. cbn. by rewrite Hb.
  - unfold poll_read.
    assert (Hsame : sw_ok (set_client c (mkClient (cl_fs cl) false false) (sw_streams w) w)).
    { eapply sw_ok_client; cbn; try done. }
    destruct (fs_position (cl_fs cl) =? fs_file_len (cl_fs cl)); [by eexists|].
    destruct (compute_current_piece l _ _); by eexists.
Qed.

Lemma sw_ok_seek w c cl position :
  sw_ok w -> sw_clients w !! c = Some cl -> seek_wf position ->
  exists w', s_exec (SvSeek c position) w = Ret w' /\ sw_ok w'.
Proof.
  intros Hok Hc Hp. cbn. rewrite Hc. pose proof (so_client w Hok c cl Hc) as Hwf.
  pose proof (start_seek_spec l position (cl_fs cl) (sw_streams w) Hl Hwf Hp) as Hs. cbn zeta in Hs.
  destruct (bool_decide _).
  - destruct Hs as (t' & fs' & -> & Hwf' & _ & Hid & _ & [Hn Hoth]). cbn [mbind outcome_bind]. eexists. split; [done|].
    by eapply sw_ok_client.
  - rewrite Hs. by exists w.
Qed.

Lemma sw_ok_close w c cl :
  sw_ok w -> sw_clients w !! c = Some cl ->
  sw_ok (mkSW (sw_have w) (drop_stream (fs_stream_id (cl_fs cl)) (sw_streams w)) (delete c (sw_clients w))
    (sw_completing w) (sw_dropped w) (sw_state w)).
Proof.
  intros Hok Hc.
  assert (Hoth : forall d x, delete c (sw_clients w) !! d = Some x ->
    sw_clients w !! d = Some x /\
    delete (fs_stream_id (cl_fs cl)) (streams (sw_streams w)) !! fs_stream_id (cl_fs x) =
      streams (sw_streams w) !! fs_stream_id (cl_fs x)).
  { intros d x [Hne Hx]%lookup_delete_Some. split; [done|]. rewrite lookup_delete_ne; [done|]. intros Ei.
    destruct Hne. by eapply (so_distinct w Hok). }
  split; cbn.
  - apply Hok.
  - intros id s [_ Hs]%lookup_delete_Some. by eapply (so_fresh w Hok).
  - intros d x [Hx Hi]%Hoth. eapply fs_wf_entry; [by eapply (so_client w Hok)|done].
  - intros d d' x x' [Hx _]%Hoth [Hx' _]%Hoth. by eapply (so_distinct w Hok).
  - intros d x [Hx Hi]%Hoth Hp Hw. destruct (so_waiting w Hok d x Hx Hp Hw) as (s & cp & Hs & Hr).
    exists s, cp. cbn. by rewrite Hi.
Qed.

(** A piece is marked as downloaded, or as missing again. *)
Lemma sw_ok_have w p b completing dropped st :
  sw_ok w -> valid_piece l p -> sw_completing w ∪ sw_dropped w ⊆ completing ∪ dropped ∪ {[ p ]} ->
  (b = true -> p ∈ completing ∪ dropped) ->
  sw_ok (mkSW (<[Z.to_nat p := b]> (sw_have w)) (sw_streams w) (sw_clients w) completing dropped st).
Proof.
  intros Hok Hp Hsub Hb. split; cbn; [|apply Hok|apply Hok|apply Hok|].
  - rewrite length_insert. apply Hok.
  - intros c cl Hc Hpk Hw. destruct (so_waiting w Hok c cl Hc Hpk Hw) as (s & cp & Hs & Hk & Hcp & Hv & Hbit).
    exists s, cp. cbn. split_and!; [done|done|done|done|]. intros Hset.
    rewrite bit_insert in Hset by (rewrite (so_have w Hok); by apply bitfield_covers).
    destruct (decide (cp_id cp = p)) as [Ep|Hne].
    + rewrite Ep. apply Hb. by rewrite decide_True in Hset by congruence.
    + assert (cp_id cp ∈ completing ∪ dropped ∪ {[ p ]}) as Hin.
      { apply Hsub, Hbit. rewrite decide_False in Hset; [done|]. unfold valid_piece in *. lia. }
      set_solver.
Qed.

(** A pause, a start and a new check. *)
Lemma sw_ok_state w have completing dropped st :
  sw_ok w -> length have = Z.to_nat (8 * piece_bitfield_bytes l) ->
  (forall p, valid_piece l p -> p ∈ completing ∪ dropped \/
     (bit have (Z.to_nat p) = true -> bit (sw_have w) (Z.to_nat p) = true) /\ p ∉ sw_completing w ∪ sw_dropped w) ->
  sw_ok (mkSW have (sw_streams w) (sw_clients w) completing dropped st).
Proof.
  intros Hok Hh Hp. split; cbn; [done|apply Hok|apply Hok|apply Hok|].
  intros c cl Hc Hpk Hw. destruct (so_waiting w Hok c cl Hc Hpk Hw) as (s & cp & Hs & Hk & Hcp & Hv & Hbit).
  exists s, cp. cbn. split_and!; [done|done|done|done|]. intros Hb.
  destruct (Hp (cp_id cp) Hv) as [?|[Himp Hn]]; [done|]. by destruct Hn; apply Hbit, Himp.
Qed.

Lemma every_piece_spec p : valid_piece l p -> p ∈ every_piece.
Proof. unfold valid_piece, every_piece. intros. apply elem_of_list_to_set, elem_of_seqZ. lia. Qed.

Lemma wakes p t id s c :
  streams t !! id = Some s -> ss_waker s = Some c -> waits_for l p s = true ->
  c ∈ (wake_streams_on_piece_completed l p t).2.
Proof.
  intros Hs Hc Hw. cbn. apply elem_of_list_to_set, list_elem_of_omap. exists (id, s).
  split; [by apply elem_of_map_to_list|]. cbn. by rewrite Hw.
Qed.

Lemma waits_for_true p s cp : current_piece l s = Some cp -> waits_for l p s = true <-> cp_id cp = p.
Proof. intros Hc. unfold waits_for. rewrite Hc. apply Z.eqb_eq. Qed.

(** A piece is announced. *)
Lemma sw_ok_announce w p : sw_ok w -> sw_ok (announce p w).
Proof.
  intros Hok. unfold announce. set (t := wake_streams_on_piece_completed l p (sw_streams w)).
  assert (Hlk : forall c x, map_imap (fun c cl => Some (mkClient (cl_fs cl) (cl_parked cl)
      (cl_woken cl || bool_decide (c ∈ t.2)))) (sw_clients w) !! c = Some x ->
    exists cl, sw_clients w !! c = Some cl /\ cl_fs x = cl_fs cl /\ cl_parked x = cl_parked cl /\
      cl_woken x = cl_woken cl || bool_decide (c ∈ t.2)).
  { intros c x. rewrite map_lookup_imap. destruct (sw_clients w !! c) as [cl|]; cbn; [|done]. intros [= <-]. by exists cl. }
  split; cbn.
  - apply Hok.
  - intros id s. rewrite lookup_fmap. destruct (streams (sw_streams w) !! id) eqn:Ei; [|done]. intros _.
    by eapply (so_fresh w Hok).
  - intros c x (cl & Hc & -> & _)%Hlk. destruct (so_client w Hok c cl Hc) as [? ? ? (y & Hy)]. split; try done.
    cbn. rewrite lookup_fmap, Hy. cbn. destruct (waits_for l p _); by eexists.
  - intros c c' x x' (cl & Hc & -> & _)%Hlk (cl' & Hc' & -> & _)%Hlk. by eapply (so_distinct w Hok).
  - intros c x (cl & Hc & Efs & Epk & Ewk)%Hlk Hp Hw. rewrite Epk in Hp. rewrite Ewk in Hw.
    apply orb_false_iff in Hw as [Hw Hnw%bool_decide_eq_false].
    destruct (so_waiting w Hok c cl Hc Hp Hw) as (s & cp & Hs & Hk & Hcp & Hv & Hbit).
    destruct (waits_for l p s) eqn:Ewf; [by destruct Hnw; eapply wakes|].
    exists s, cp. rewrite Efs. cbn. split_and!; [|done|done|done|].
    + by rewrite lookup_fmap, Hs; cbn; rewrite Ewf.
    + intros Hset%Hbit. assert (cp_id cp <> p) by (intros Ep%(waits_for_true p s cp Hcp); congruence).
      set_solver.
Qed.

Lemma sw_ok_exec w ev :
  sw_ok w -> s_guard w ev -> exists w', s_exec ev w = Ret w' /\ sw_ok w'.
Proof.
  intros Hok Hg. destruct ev as [c fid|c cap av files|c position|c|p|p|p| | |have].
  - cbn in *. case_bool_decide; [by exists w|]. destruct (open_stream _ _ _) as [[t fs]|] eqn:Eo; [|by exists w]. eexists. split; [done|]. by eapply sw_ok_open.
  - destruct (sw_clients w !! c) as [cl|] eqn:Ec; [by eapply sw_ok_read|]. exists w. cbn. by rewrite Ec.
  - destruct (sw_clients w !! c) as [cl|] eqn:Ec; [by eapply sw_ok_seek|]. exists w. cbn. by rewrite Ec.
  - cbn. destruct (sw_clients w !! c) as [cl|] eqn:Ec; [|by exists w]. eexists. split; [done|]. by apply sw_ok_close.
  - cbn in *. destruct (sw_state w); eexists; (split; [done|]); [|done|]; apply sw_ok_have; try done; set_solver.
  - cbn. case_bool_decide; [|by exists w]. eexists. split; [done|]. by apply sw_ok_announce.
  - cbn in *. eexists. split; [done|]. apply sw_ok_have; [done|done| |done].
    intros q. destruct (decide (q = p)); set_solver.
  - cbn. eexists. split; [done|]. apply sw_ok_state; [done|apply Hok|].
    intros p Hp. destruct (decide (p ∈ sw_completing w ∪ sw_dropped w)); [left; set_solver|by right].
  - cbn. eexists. split; [done|]. apply sw_ok_state; [done|apply Hok|].
    intros p Hp. destruct (decide (p ∈ sw_completing w ∪ sw_dropped w)); [by left|by right].
  - cbn in *. eexists. split; [done|]. apply sw_ok_state; [done|done|].
    intros p Hp. left. apply elem_of_union_r. by apply every_piece_spec.
Qed.

Lemma sw_ok_reachable w0 b w : sw_ok w0 -> s_reachable w0 b w -> sw_ok w.
Proof.
  intros Hs0. induction 1 as [|b w ev w' _ IH Hg E1]; [done|]. destruct (sw_ok_exec w ev IH Hg) as (x & Ex & Hx). congruence.
Qed.

(** Without such a pause or check nothing is dropped. *)
Lemma nothing_dropped w ev w' :
  sw_dropped w = ∅ /\ sw_state w <> Replaced -> s_keeps w ev = true -> s_exec ev w = Ret w' ->
  sw_dropped w' = ∅ /\ sw_state w' <> Replaced.
Proof.
  intros [Hd Hst] Hk. destruct ev as [c fid|c cap av files|c position|c|p|p|p| | |have]; cbn in *.
  - case_bool_decide; [done|]. destruct (open_stream _ _ _) as [[t fs]|]; by intros [= <-].
  - destruct (sw_clients w !! c); [|by intros [= <-]]. destruct (poll_read _ _ _ _ _ _ _) as [[[t fs] r]|]; by intros [= <-].
  - destruct (sw_clients w !! c); [|by intros [= <-]]. destruct (start_seek _ _ _) as [[[t fs]|]|]; by intros [= <-].
  - destruct (sw_clients w !! c); by intros [= <-].
  - destruct (sw_state w) eqn:Es; intros [= <-]; by rewrite ?Es.
  - case_bool_decide; intros [= <-]; [|done]. cbn. rewrite Hd. split; [set_solver|done].
  - intros [= <-]. cbn. rewrite Hd. split; [set_solver|done].
  - apply bool_decide_eq_true in Hk. intros [= <-]. cbn. rewrite Hd, Hk. split; [set_solver|by destruct (sw_state w)].
  - intros [= <-]. cbn. split; [done|by destruct (sw_state w)].
  - done.
Qed.

Lemma reachable_keeps w0 w :
  sw_dropped w0 = ∅ /\ sw_state w0 <> Replaced -> s_reachable w0 true w -> sw_dropped w = ∅ /\ sw_state w <> Replaced.
Proof.
  intros H0' Hr. remember true as b eqn:Eb. induction Hr as [|b w ev w' _ IH _ E1]; [done|].
  apply andb_true_iff in Eb as [-> Hk]. by eapply nothing_dropped; [apply IH| |].
Qed.

(** A torrent that was just checked: nobody reads. *)
Lemma sw_ok_start have :
  length have = Z.to_nat (8 * piece_bitfield_bytes l) -> sw_ok (mkSW have TorrentStreams_default ∅ ∅ ∅ Stopped).
Proof. intros Hh. split; cbn; [done|..]; intros *; rewrite ?lookup_empty; done. Qed.

(** The announcement of the piece that a parked reader waits at wakes the reader. *)
Lemma announce_wakes w c cl cp :
  sw_ok w -> sw_clients w !! c = Some cl -> cl_parked cl = true -> cl_woken cl = false ->
  compute_current_piece l (fs_position (cl_fs cl)) (fs_abs_offset (cl_fs cl)) = Some cp ->
  exists cl', sw_clients (announce (cp_id cp) w) !! c = Some cl' /\ cl_fs cl' = cl_fs cl /\ cl_woken cl' = true.
Proof.
  intros Hok Hc Hp Hw Hcp. destruct (so_waiting w Hok c cl Hc Hp Hw) as (s & cp' & Hs & Hk & Hcp' & _).
  destruct (so_client w Hok c cl Hc) as [_ _ _ (y & Hy)]. rewrite Hs in Hy. injection Hy as ->.
  assert (cp' = cp) as -> by (unfold current_piece in Hcp'; cbn in Hcp'; congruence).
  eexists. cbn. rewrite map_lookup_imap, Hc. cbn. split; [done|]. split; [done|]. rewrite Hw. cbn.
  apply bool_decide_eq_true_2. eapply (wakes (cp_id cp)); [exact Hs|done|]. by apply (waits_for_true _ _ cp).
Qed.

(** C27: in whatever order readers open, read, seek and close, pieces are downloaded,
    announced and lost, and the torrent is started, paused and checked anew, no call
    panics, and a reader that was parked and not woken waits at a piece that is not
    downloaded, or is still to be announced, or whose announcement was dropped.  The
    announcement of a piece to come wakes it, and a piece that is downloaded while the
    torrent runs is announced.  Announcements are dropped only when the torrent is paused
    between the mark of a piece and its announcement ([on_piece_completed] then returns
    early), or is checked anew after an error (it then has other streams): in a run
    without these no wake-up is lost. *)
Theorem parked_readers_woken (have : BF) (keeps : bool) (w : SWorld) :
  length have = Z.to_nat (8 * piece_bitfield_bytes l) ->
  s_reachable (mkSW have TorrentStreams_default ∅ ∅ ∅ Stopped) keeps w ->
  (forall ev, s_guard w ev -> exists w', s_exec ev w = Ret w') /\
  (keeps = true -> sw_dropped w = ∅) /\
  (forall c cl, sw_clients w !! c = Some cl -> cl_parked cl = true -> cl_woken cl = false ->
     exists cp, compute_current_piece l (fs_position (cl_fs cl)) (fs_abs_offset (cl_fs cl)) = Some cp /\
       valid_piece l (cp_id cp) /\
       (bit (sw_have w) (Z.to_nat (cp_id cp)) = false \/ cp_id cp ∈ sw_completing w \/ cp_id cp ∈ sw_dropped w) /\
       (cp_id cp ∈ sw_completing w ->
        exists w' cl', s_exec (SvCompleted (cp_id cp)) w = Ret w' /\ sw_clients w' !! c = Some cl' /\
          cl_fs cl' = cl_fs cl /\ cl_woken cl' = true) /\
       (sw_state w = Running ->
        exists w1 w' cl', s_exec (SvDownloaded (cp_id cp)) w = Ret w1 /\
          s_exec (SvCompleted (cp_id cp)) w1 = Ret w' /\ sw_clients w' !! c = Some cl' /\
          cl_fs cl' = cl_fs cl /\ cl_woken cl' = true)).
Proof.
  intros Hh Hr. pose proof (sw_ok_reachable _ _ _ (sw_ok_start have Hh) Hr) as Hok. split_and!.
  - intros ev Hg. destruct (sw_ok_exec w ev Hok Hg) as (w' & E1 & _). by exists w'.
  - intros ->. destruct (fun H' => reachable_keeps _ w H' Hr) as [? _]; [by split|done].
  - intros c cl Hc Hp Hw. destruct (so_waiting w Hok c cl Hc Hp Hw) as (s & cp & Hs & Hk & Hcp & Hv & Hbit).
    destruct (so_client w Hok c cl Hc) as [_ _ _ (y & Hy)]. rewrite Hs in Hy. injection Hy as ->.
    exists cp. split_and!; [done|done| | |].
    + destruct (bit (sw_have w) _); [right; by apply elem_of_union, Hbit|by left].
    + intros Hin. destruct (announce_wakes w c cl cp Hok Hc Hp Hw Hcp) as (cl' & ? & ? & ?).
      eexists _, cl'. cbn. by rewrite bool_decide_true.
    + intros Hst. destruct (sw_ok_exec w (SvDownloaded (cp_id cp)) Hok Hv) as (w1 & E1 & Hok1).
      pose proof E1 as E2. cbn in E2. rewrite Hst in E2. injection E2 as <-.
      destruct (announce_wakes _ c cl cp Hok1 Hc Hp Hw Hcp) as (cl' & ? & ? & ?).
      eexists _, _, cl'. split; [exact E1|]. cbn [s_exec sw_completing]. by rewrite bool_decide_true by set_solver.
Qed.
End World.

(** A torrent that is checked anew, after an error, starts with streams of its own:
    the readers that were opened before keep the old ones, on which they are parked,
    and no completion on the new ones wakes them. *)
Lemma new_streams_wake_nobody l p :
  (wake_streams_on_piece_completed l p TorrentStreams_default).2 = ∅.
Proof. cbn. by rewrite map_to_list_empty. Qed.

(** ** Examples *)

Definition ex_stream_lengths : Lengths := mkLengths 10 4 2 2 1.
Definition ex_stream_have : BF := [true; false; false; false; false; false; false; false].
Definition ex_stream_file : FileInfo := mkFileInfo [] 0 (0, 3) FileDetailsAttrs_default 10.
Definition ex_stream_data : list bytes := [[1; 2; 3; 4; 5; 6; 7; 8; 9; 10]].
Definition ex_streams (pos : Z) (w : option nat) : TorrentStreams := mkStreams 1 {[ 0%nat := mkStream 0 10 0 pos w ]}.
Definition ex_reader (pos : Z) : FileStream := mkFileStream 0 0 pos 10 0.

Lemma ex_stream_lengths_wf : lengths_wf ex_stream_lengths.
Proof. split; vm_compute; done. Qed.

Lemma ex_reader_wf pos w : 0 <= pos <= 10 -> fs_wf ex_stream_lengths (ex_reader pos) (ex_streams pos w).
Proof. intros. split; cbn; [done|done|done|]. exists w. apply lookup_singleton_eq. Qed.

Lemma start_seek_correct_witness :
  start_seek (SeekEnd (2 ^ 63 - 1)) (ex_reader 4) (ex_streams 4 None) = Ret None /\
  exists t' fs', start_seek (SeekEnd (-3)) (ex_reader 4) (ex_streams 4 None) = Ret (Some (t', fs')) /\ fs_position fs' = 7.
Proof.
  split.
  - apply (start_seek_correct ex_stream_lengths (SeekEnd (2 ^ 63 - 1)) (ex_reader 4) (ex_streams 4 None)
      ex_stream_lengths_wf (ex_reader_wf 4 None ltac:(lia))). cbn. lia.
  - destruct (start_seek_correct ex_stream_lengths (SeekEnd (-3)) (ex_reader 4) (ex_streams 4 None)
      ex_stream_lengths_wf (ex_reader_wf 4 None ltac:(lia))) as (t' & fs' & E1 & _ & Hp & _); [cbn; lia|].
    by exists t', fs'.
Defined.

Lemma poll_read_correct_witness :
  (exists t' fs' bs, poll_read ex_stream_lengths 7 100 (Some ex_stream_have) (Some ex_stream_data) (ex_reader 1) (ex_streams 1 None)
     = Ret (t', fs', Ready bs) /\ fs_position fs' = 4) /\
  (exists t' fs', poll_read ex_stream_lengths 7 100 (Some ex_stream_have) (Some ex_stream_data) (ex_reader 4) (ex_streams 4 None)
     = Ret (t', fs', Pending) /\ exists s, streams t' !! 0%nat = Some s /\ ss_waker s = Some 7%nat).
Proof.
  split.
  - destruct (poll_read_correct ex_stream_lengths 7 100 ex_stream_have ex_stream_data (ex_reader 1) (ex_streams 1 None)
      ex_stream_lengths_wf (ex_reader_wf 1 None ltac:(lia)) eq_refl ltac:(lia)) as (t' & fs' & r & E1 & _ & Hr).
    assert (E2 := E1). vm_compute in E2. injection E2 as _ Ef <-. destruct Hr as [Hp _].
    eexists t', fs', _. split; [exact E1|]. exact Hp.
  - destruct (poll_read_correct ex_stream_lengths 7 100 ex_stream_have ex_stream_data (ex_reader 4) (ex_streams 4 None)
      ex_stream_lengths_wf (ex_reader_wf 4 None ltac:(lia)) eq_refl ltac:(lia)) as (t' & fs' & r & E1 & _ & Hr).
    assert (E2 := E1). vm_compute in E2. injection E2 as _ _ <-. destruct Hr as (_ & _ & s & cp & Hs & Hw & _).
    exists t', fs'. split; [exact E1|]. by exists s.
Defined.

Notation ex_sexec := (s_exec ex_stream_lengths [ex_stream_file]).

(** Reader 0 reads the first piece and is parked at the second. *)
Definition ex_sworld (st : SState) (t : TorrentStreams) (cl : gmap nat Client) : SWorld :=
  mkSW ex_stream_have t cl ∅ ∅ st.
Definition ex_parked : Client := mkClient (ex_reader 4) true false.

Notation ex_sreachable :=
  (s_reachable (St:=list bytes) ex_stream_lengths [ex_stream_file] (ex_sworld Stopped TorrentStreams_default ∅)).

Lemma ex_sworld_reachable :
  ex_sreachable true (ex_sworld Running (ex_streams 4 (Some 0%nat)) {[ 0%nat := ex_parked ]}).
Proof.
  eapply (sr_step _ _ _ true (ex_sworld Running (ex_streams 4 None) {[ 0%nat := mkClient (ex_reader 4) false false ]})
    (SvRead 0 100 true (Some ex_stream_data))); [|done|vm_compute; reflexivity].
  eapply (sr_step _ _ _ true (ex_sworld Running (ex_streams 0 None) {[ 0%nat := mkClient (ex_reader 0) false false ]})
    (SvRead 0 100 true (Some ex_stream_data))); [|done|vm_compute; reflexivity].
  eapply (sr_step _ _ _ true (ex_sworld Running TorrentStreams_default ∅) (SvOpen 0 0)); [|done|vm_compute; reflexivity].
  eapply (sr_step _ _ _ true _ SvStart); [apply sr_start|done|vm_compute; reflexivity].
Qed.

Lemma ex_stream_files_inside i fi :
  [ex_stream_file] !! i = Some fi ->
  0 <= fi_offset_in_torrent fi /\ 0 <= fi_len fi /\ fi_offset_in_torrent fi + fi_len fi <= ln_total_length ex_stream_lengths.
Proof. destruct i; [|done]. intros [= <-]. cbn. lia. Qed.

Lemma parked_readers_woken_witness :
  exists w1 w' cl', ex_sexec (SvDownloaded (St:=list bytes) 1)
      (ex_sworld Running (ex_streams 4 (Some 0%nat)) {[ 0%nat := ex_parked ]}) = Ret w1 /\
    ex_sexec (SvCompleted (St:=list bytes) 1) w1 = Ret w' /\ sw_clients w' !! 0%nat = Some cl' /\ cl_woken cl' = true.
Proof.
  destruct (parked_readers_woken ex_stream_lengths [ex_stream_file] ex_stream_lengths_wf ex_stream_files_inside
    ex_stream_have true _ eq_refl ex_sworld_reachable) as (_ & _ & Hw).
  destruct (Hw 0%nat ex_parked eq_refl eq_refl eq_refl) as (cp & Hcp & _ & _ & _ & Hd).
  destruct (Hd eq_refl) as (w1 & w' & cl' & E1 & E2 & Hc & _ & Hk).
  vm_compute in Hcp. injection Hcp as <-. by exists w1, w', cl'.
Defined.

(** A pause between the mark of a piece and its announcement: the reader stays parked at a
    piece that is there, and nothing is left that would wake it. *)
Lemma paused_announcement_dropped :
  exists w, ex_sreachable false w /\ sw_clients w !! 0%nat = Some ex_parked /\
    bit (sw_have w) 1 = true /\ sw_completing w = ∅ /\
    ex_sexec (SvCompleted (St:=list bytes) 1) w = Ret w.
Proof.
  set (w := mkSW [true; true; false; false; false; false; false; false] (ex_streams 4 (Some 0%nat))
    {[ 0%nat := ex_parked ]} ∅ {[ 1 ]} Stopped).
  set (w1 := mkSW (sw_have w) (sw_streams w) (sw_clients w) {[ 1 ]} ∅ Running).
  exists w. split; [|split_and!; reflexivity].
  assert (ex_sreachable true w1) as Hr.
  { eapply (sr_step _ _ _ true _ (SvDownloaded 1)); [exact ex_sworld_reachable|by vm_compute|vm_compute; reflexivity]. }
  pose proof (sr_step _ _ _ _ _ SvPause w Hr I ltac:(vm_compute; reflexivity)) as Hp.
  replace (true && s_keeps (St:=list bytes) w1 SvPause) with false in Hp by (by vm_compute). exact Hp.
Qed.
