(* ===== verification/DhtMessage.v ===== *)
(** * Messages of the DHT ([dht::bprotocol])

    The queries, responses and errors that nodes exchange, as bencoded dictionaries.
    A message is read twice: once to see its kind, with the arguments and the
    response skipped, and once as that kind. *)

From stdpp Require Import base tactics option list list_numbers numbers decidable sorting.
From Stdlib Require Import ZArith Lia.
From S2P Require Import Prelude Net HashId CompactIp Bencode BencodeTypes Extended.
Open Scope Z_scope.

(** ** Names *)

Definition N_y : bytes := [121].
Definition N_t : bytes := [116].
Definition N_e : bytes := [101].
Definition N_r : bytes := [114].
Definition N_q : bytes := [113].
Definition N_a : bytes := [97].
Definition N_ip : bytes := [105; 112].
Definition N_id : bytes := [105; 100].
Definition N_target : bytes := [116; 97; 114; 103; 101; 116].
Definition N_want : bytes := [119; 97; 110; 116].
Definition N_values : bytes := [118; 97; 108; 117; 101; 115].
Definition N_nodes : bytes := [110; 111; 100; 101; 115].
Definition N_nodes6 : bytes := [110; 111; 100; 101; 115; 54].
Definition N_token : bytes := [116; 111; 107; 101; 110].
Definition N_info_hash : bytes := [105; 110; 102; 111; 95; 104; 97; 115; 104].
Definition N_implied_port : bytes := [105; 109; 112; 108; 105; 101; 100; 95; 112; 111; 114; 116].
Definition N_port : bytes := [112; 111; 114; 116].
Definition N_n4 : bytes := [110; 52].
Definition N_n6 : bytes := [110; 54].
Definition N_find_node : bytes := [102; 105; 110; 100; 95; 110; 111; 100; 101].
Definition N_get_peers : bytes := [103; 101; 116; 95; 112; 101; 101; 114; 115].
Definition N_ping : bytes := [112; 105; 110; 103].
Definition N_announce_peer : bytes := [97; 110; 110; 111; 117; 110; 99; 101; 95; 112; 101; 101; 114].

(** ** The parts of a message *)

Inductive MessageType := MtRequest | MtResponse | MtError.

Definition message_type_bytes (t : MessageType) : bytes :=
  match t with MtRequest => N_q | MtResponse => N_r | MtError => N_e end.

Definition message_type_of (b : bytes) : option MessageType :=
  if bool_decide (b = N_q) then Some MtRequest
  else if bool_decide (b = N_r) then Some MtResponse
  else if bool_decide (b = N_e) then Some MtError
  else None.

Definition message_type_accept (b : bytes) : bool :=
  match message_type_of b with Some _ => true | None => false end.

(** A list of a number and a text. *)
Record ErrorDescription := mkErrorDescription {
  ed_code : Z;
  ed_description : bytes
}.

Definition error_ser (e : ErrorDescription) : Ser := SerSeq [SerInt (ed_code e); SerBytes (ed_description e)].

Definition error_shape : shape := ShPair (ShSigned 32) (ShBytes any_bytes).

Definition error_of (v : value) : option ErrorDescription :=
  match v with VSeq [VInt code; VBytes description] => Some (mkErrorDescription code description) | _ => None end.

(** A node with its address. *)
Record Node (A : Type) := mkDhtNode { nd_id : Id; nd_addr : A }.
Arguments mkDhtNode {A} _ _.
Arguments nd_id {A} _.
Arguments nd_addr {A} _.

Definition node_as_slice {A} `{CompactSerialize A} (n : Node A) : outcome bytes :=
  b ← as_slice (nd_addr n); Ret (nd_id n ++ b).

Definition node_from_slice_unchecked_len {A} `{CompactSerialize A} (addr_len : nat) (buf : bytes) : outcome (Node A) :=
  i ← (match slice_get buf 0 20 with Some s => Ret s | None => Panic end);
  s ← (match slice_get buf 20 (20 + addr_len) with Some s => Ret s | None => Panic end);
  a ← from_slice_unchecked_len s;
  Ret (mkDhtNode i a).

Definition node_from_slice {A} `{CompactSerialize A} (addr_len : nat) (buf : bytes) : outcome (option (Node A)) :=
  if negb (length buf =? 20 + addr_len)%nat then Ret None
  else Some <$> node_from_slice_unchecked_len addr_len buf.

#[export] Instance CompactSerialize_Node4 : CompactSerialize (Node SocketAddrV4) := {
  as_slice := node_as_slice;
  from_slice := node_from_slice 6;
  from_slice_unchecked_len := node_from_slice_unchecked_len 6
}.

#[export] Instance CompactSerialize_Node6 : CompactSerialize (Node SocketAddrV6) := {
  as_slice := node_as_slice;
  from_slice := node_from_slice 18;
  from_slice_unchecked_len := node_from_slice_unchecked_len 18
}.

#[export] Instance FixedLen_Node A `{CompactSerializeFixedLen A} : CompactSerializeFixedLen (Node A) := (20 + fixed_len A)%nat.

Inductive Want := WantV4 | WantV6 | WantBoth | WantNone.

Definition want_ser (w : Want) : Ser :=
  SerSeq (match w with
          | WantV4 => [SerBytes N_n4]
          | WantV6 => [SerBytes N_n6]
          | WantBoth => [SerBytes N_n4; SerBytes N_n6]
          | WantNone => []
          end).

Definition want_shape : shape := ShSeq (ShBytes any_bytes).

(** Anything else in the list is passed over. *)
Definition want_of (items : list bytes) : Want :=
  let '(want_v4, want_v6) :=
    foldl (fun acc item => if bool_decide (item = N_n4) then (true, acc.2)
                           else if bool_decide (item = N_n6) then (acc.1, true)
                           else acc) (false, false) items in
  match want_v4, want_v6 with
  | true, true => WantBoth
  | true, false => WantV4
  | false, true => WantV6
  | false, false => WantNone
  end.

(** The field [i] of a struct: a [Want]. *)
Definition slot_want (v : value) (i : nat) : option Want := want_of <$> slot_seq value_bytes v i.

(** [Id20] from bytes; any other kind of value is an error too. *)
Definition id_accept (b : bytes) : bool := (length b =? 20)%nat.
Definition id_shape : shape := ShBytes id_accept.

Definition slot_id (v : value) (i : nat) : Id := default [] (slot_bytes v i).

Record FindNodeRequest := mkFindNode { fn_id : Id; fn_target : Id; fn_want : option Want }.

Definition find_node_ser (r : FindNodeRequest) : Ser :=
  struct_ser [(N_id, Some (SerBytes (fn_id r))); (N_target, Some (SerBytes (fn_target r))); (N_want, want_ser <$> fn_want r)].
Definition find_node_shape : shape := ShStruct [(N_id, true, id_shape); (N_target, true, id_shape); (N_want, false, want_shape)].
Definition find_node_of (v : value) : FindNodeRequest := mkFindNode (slot_id v 0) (slot_id v 1) (slot_want v 2).

Record Response := mkResponse {
  rs_values : option (list SocketAddr);
  rs_id : Id;
  rs_nodes : option bytes;
  rs_nodes6 : option bytes;
  rs_token : option bytes
}.

Definition Response_default (id : Id) : Response := mkResponse None id None None None.

Definition response_ser (r : Response) : Ser :=
  struct_ser
    [(N_values, (fun l => SerSeq (SerBytes ∘ compact_bytes <$> l)) <$> rs_values r);
     (N_id, Some (SerBytes (rs_id r)));
     (N_nodes, SerBytes <$> rs_nodes r);
     (N_nodes6, SerBytes <$> rs_nodes6 r);
     (N_token, SerBytes <$> rs_token r)].
Definition response_shape : shape :=
  ShStruct
    [(N_values, false, ShSeq (ShBytes (compact_accept SocketAddr)));
     (N_id, true, id_shape);
     (N_nodes, false, ShBytes (list_accept (Node SocketAddrV4)));
     (N_nodes6, false, ShBytes (list_accept (Node SocketAddrV6)));
     (N_token, false, ShBytes any_bytes)].

(** The address in bytes that were accepted as one. *)
Definition addr_of (v : value) : SocketAddr := default (SockV4 0 0) (compact_value (value_bytes v)).

Definition response_of (v : value) : Response :=
  mkResponse (slot_seq addr_of v 0) (slot_id v 1) (slot_bytes v 2) (slot_bytes v 3) (slot_bytes v 4).

Record GetPeersRequest := mkGetPeers { gp_id : Id; gp_info_hash : Id; gp_want : option Want }.

Definition get_peers_ser (r : GetPeersRequest) : Ser :=
  struct_ser [(N_id, Some (SerBytes (gp_id r))); (N_info_hash, Some (SerBytes (gp_info_hash r))); (N_want, want_ser <$> gp_want r)].
Definition get_peers_shape : shape := ShStruct [(N_id, true, id_shape); (N_info_hash, true, id_shape); (N_want, false, want_shape)].
Definition get_peers_of (v : value) : GetPeersRequest := mkGetPeers (slot_id v 0) (slot_id v 1) (slot_want v 2).

Record PingRequest := mkPing { pg_id : Id }.

Definition ping_ser (r : PingRequest) : Ser := struct_ser [(N_id, Some (SerBytes (pg_id r)))].
Definition ping_shape : shape := ShStruct [(N_id, true, id_shape)].
Definition ping_of (v : value) : PingRequest := mkPing (slot_id v 0).

Record AnnouncePeer := mkAnnounce {
  an_id : Id;
  an_implied_port : Z;
  an_info_hash : Id;
  an_port : Z;
  an_token : bytes
}.

Definition announce_ser (r : AnnouncePeer) : Ser :=
  struct_ser
    [(N_id, Some (SerBytes (an_id r))); (N_implied_port, Some (SerInt (an_implied_port r)));
     (N_info_hash, Some (SerBytes (an_info_hash r))); (N_port, Some (SerInt (an_port r)));
     (N_token, Some (SerBytes (an_token r)))].
Definition announce_shape : shape :=
  ShStruct
    [(N_id, true, id_shape); (N_implied_port, true, ShUnsigned 8); (N_info_hash, true, id_shape);
     (N_port, true, ShUnsigned 16); (N_token, true, ShBytes any_bytes)].
Definition announce_of (v : value) : AnnouncePeer :=
  mkAnnounce (slot_id v 0) (default 0 (slot_int v 1)) (slot_id v 2) (default 0 (slot_int v 3)) (default [] (slot_bytes v 4)).

(** ** Messages *)

Inductive MessageKind :=
| MkError (e : ErrorDescription)
| MkGetPeersRequest (r : GetPeersRequest)
| MkFindNodeRequest (r : FindNodeRequest)
| MkResponse (r : Response)
| MkPingRequest (r : PingRequest)
| MkAnnouncePeer (r : AnnouncePeer).

Record Message := mkDhtMessage {
  dm_kind : MessageKind;
  dm_transaction_id : bytes;
  dm_version : option bytes;
  dm_ip : option SocketAddr
}.

(** The transaction id of a request of ours. *)
Definition get_our_transaction_id (m : Message) : option Z :=
  match dm_transaction_id m with
  | [a; b] => Some (u16 (Z.shiftl a 8 + b))
  | _ => None
  end.

(** The dictionary of a message, with the arguments and the response as they are read. *)
Record RawMessage := mkRaw {
  rm_message_type : MessageType;
  rm_transaction_id : bytes;
  rm_error : option ErrorDescription;
  rm_response : option value;
  rm_method_name : option bytes;
  rm_arguments : option value;
  rm_version : option bytes;
  rm_ip : option SocketAddr
}.

Definition raw_ser (ty : MessageType) (tid : bytes) (error : option ErrorDescription) (response : option Ser)
    (method_name : option bytes) (arguments : option Ser) (version : option bytes) (ip : option SocketAddr) : Ser :=
  struct_ser
    [(N_y, Some (SerBytes (message_type_bytes ty)));
     (N_t, Some (SerBytes tid));
     (N_e, error_ser <$> error);
     (N_r, response);
     (N_q, SerBytes <$> method_name);
     (N_a, arguments);
     (N_v, SerBytes <$> version);
     (N_ip, SerBytes ∘ compact_bytes <$> ip)].

Definition raw_shape (args resp : shape) : shape :=
  ShStruct
    [(N_y, true, ShBytes message_type_accept);
     (N_t, true, ShBytes any_bytes);
     (N_e, false, error_shape);
     (N_r, false, resp);
     (N_q, false, ShBytes any_bytes);
     (N_a, false, args);
     (N_v, false, ShBytes any_bytes);
     (N_ip, false, ShBytes (compact_accept SocketAddr))].

Definition slot_value (v : value) (i : nat) : option value :=
  match v with VStruct slots => mjoin (slots !! i) | _ => None end.

Definition raw_of (v : value) : RawMessage :=
  mkRaw (default MtRequest (slot_bytes v 0 ≫= message_type_of)) (default [] (slot_bytes v 1))
    (slot_value v 2 ≫= error_of) (slot_value v 3) (slot_bytes v 4) (slot_value v 5) (slot_bytes v 6)
    (slot_bytes v 7 ≫= compact_value).

Definition serialize_message (m : Message) : Ser :=
  let tid := dm_transaction_id m in
  let version := dm_version m in
  let ip := dm_ip m in
  match dm_kind m with
  | MkError e => raw_ser MtError tid (Some e) None None None version ip
  | MkGetPeersRequest req => raw_ser MtRequest tid None None (Some N_get_peers) (Some (get_peers_ser req)) version ip
  | MkFindNodeRequest req => raw_ser MtRequest tid None None (Some N_find_node) (Some (find_node_ser req)) version ip
  | MkResponse resp => raw_ser MtResponse tid None (Some (response_ser resp)) None None version ip
  | MkPingRequest ping => raw_ser MtRequest tid None None (Some N_ping) (Some (ping_ser ping)) version ip
  | MkAnnouncePeer ann => raw_ser MtRequest tid None None (Some N_announce_peer) (Some (announce_ser ann)) version ip
  end.

Definition message_to_bytes (m : Message) : exec SerError bytes :=
  match bencode_serialize_to_writer (serialize_message m) None with
  | (s, XOk _) => XOk (bs_out s)
  | (_, XErr e) => XErr e
  | (_, XPanic) => XPanic
  end.

Inductive DhtDeError :=
| BadBencode (e : DeError * list bytes)
| UnsupportedMethod (name : bytes)
| BadShape (t : MessageType).

Definition unwrap {A} (o : option A) : exec DhtDeError A := match o with Some a => XOk a | None => XPanic end.

Section Deserialize.
Context `{Atoi}.

Definition read_raw (args resp : shape) (buf : bytes) : exec DhtDeError RawMessage :=
  match from_bytes (raw_shape args resp) buf with
  | XOk v => XOk (raw_of v)
  | XErr e => XErr (BadBencode e)
  | XPanic => XPanic
  end.

Definition finish_message (de : RawMessage) (kind : MessageKind) : Message :=
  mkDhtMessage kind (rm_transaction_id de) (rm_version de) (rm_ip de).

Definition read_request (args : shape) (conv : value -> MessageKind) (buf : bytes) : exec DhtDeError Message :=
  de ← read_raw args ShIgnored buf;
  v ← unwrap (rm_arguments de);
  XOk (finish_message de (conv v)).

Definition deserialize_message (buf : bytes) : exec DhtDeError Message :=
  de ← read_raw ShIgnored ShIgnored buf;
  match rm_message_type de with
  | MtRequest =>
      match rm_arguments de, rm_method_name de, rm_response de, rm_error de with
      | Some _, Some method_name, None, None =>
          if bool_decide (method_name = N_find_node) then
            read_request find_node_shape (MkFindNodeRequest ∘ find_node_of) buf
          else if bool_decide (method_name = N_get_peers) then
            read_request get_peers_shape (MkGetPeersRequest ∘ get_peers_of) buf
          else if bool_decide (method_name = N_ping) then
            read_request ping_shape (MkPingRequest ∘ ping_of) buf
          else if bool_decide (method_name = N_announce_peer) then
            read_request announce_shape (MkAnnouncePeer ∘ announce_of) buf
          else XErr (UnsupportedMethod method_name)
      | _, _, _, _ => XErr (BadShape MtRequest)
      end
  | MtResponse =>
      match rm_arguments de, rm_response de, rm_error de with
      | None, Some _, None =>
          de ← read_raw ShIgnored response_shape buf;
          v ← unwrap (rm_response de);
          XOk (finish_message de (MkResponse (response_of v)))
      | _, _, _ => XErr (BadShape MtResponse)
      end
  | MtError =>
      match rm_arguments de, rm_response de, rm_error de with
      | None, None, Some _ =>
          de ← read_raw ShIgnored response_shape buf;
          e ← unwrap (rm_error de);
          XOk (finish_message de (MkError e))
      | _, _, _ => XErr (BadShape MtError)
      end
  end.
End Deserialize.

(** ** Lists of nodes *)

Section NodeLaws.
Context {A : Type} `{CompactLaws A}.

Lemma node_slices (id b : bytes) :
  length id = 20%nat -> length b = fixed_len A ->
  slice_get (id ++ b) 0 20 = Some id /\ slice_get (id ++ b) 20 (20 + fixed_len A) = Some b.
Proof.
  intros Hi Hb. split; apply slice_get_Some; rewrite length_app.
  - split; [lia|]. by rewrite drop_0, Nat.sub_0_r, take_app_length'.
  - split; [lia|]. rewrite drop_app_length' by done. by rewrite Nat.add_comm, Nat.add_sub, <-Hb, firstn_all.
Qed.

Lemma node_encode (x : Node A) :
  length (nd_id x) = 20%nat -> is_bytes (nd_id x) -> compact_valid (nd_addr x) ->
  exists b, node_as_slice x = Ret b /\ length b = (20 + fixed_len A)%nat /\ is_bytes b /\
    node_from_slice_unchecked_len (fixed_len A) b = Ret (mkDhtNode (nd_id x) (compact_norm (nd_addr x))).
Proof.
  intros Hl Hb Hv. destruct (as_slice_len (nd_addr x) Hv) as (b & Eb & Hlb & Hbb). unfold node_as_slice. rewrite Eb.
  exists (nd_id x ++ b). split; [done|]. split; [rewrite length_app; lia|]. split; [by apply Forall_app|].
  unfold node_from_slice_unchecked_len. destruct (node_slices (nd_id x) b Hl Hlb) as [-> ->]. cbn.
  by rewrite (unchecked_as_slice (nd_addr x) b Hv Eb).
Qed.

Lemma node_decode b :
  length b = (20 + fixed_len A)%nat -> is_bytes b ->
  exists x : Node A, node_from_slice_unchecked_len (fixed_len A) b = Ret x /\
    (length (nd_id x) = 20%nat /\ is_bytes (nd_id x) /\ compact_valid (nd_addr x)) /\
    compact_norm (nd_addr x) = nd_addr x /\ node_as_slice x = Ret b.
Proof.
  intros Hl Hb. rewrite <-(take_drop 20 b) in Hb |- *. apply Forall_app in Hb as [Hb1 Hb2].
  assert (length (take 20 b) = 20%nat) as Hl1 by (rewrite length_take; lia).
  assert (length (drop 20 b) = fixed_len A) as Hl2 by (rewrite length_drop; lia).
  destruct (unchecked_total (drop 20 b) Hl2 Hb2) as (a & Ea & Hv & Hn & Es).
  exists (mkDhtNode (take 20 b) a). unfold node_from_slice_unchecked_len, node_as_slice.
  destruct (node_slices _ _ Hl1 Hl2) as [-> ->]. cbn. rewrite Ea. cbn. by rewrite Es.
Qed.
End NodeLaws.

#[export] Program Instance CompactLaws_Node4 : CompactLaws (Node SocketAddrV4) := {
  compact_valid x := length (nd_id x) = 20%nat /\ is_bytes (nd_id x) /\ compact_valid (nd_addr x);
  compact_norm x := mkDhtNode (nd_id x) (compact_norm (nd_addr x))
}.
Next Obligation. unfold fixed_len, FixedLen_Node. lia. Qed.
Next Obligation. intros x (? & ? & ?). destruct (node_encode x) as (b & ? & ? & ? & _); try done. by exists b. Qed.
Next Obligation.
  intros x b (? & ? & ?) Eb. destruct (node_encode x) as (b' & Eb' & _ & _ & E); try done.
  change (node_as_slice x = Ret b) in Eb. rewrite Eb' in Eb. injection Eb as <-. exact E.
Qed.
Next Obligation.
  intros b Hl Hb. destruct (node_decode (A := SocketAddrV4) b Hl Hb) as (x & E & Hv & Hn & Es). exists x.
  split_and!; try apply Hv; try done. destruct x as [i a]. exact (f_equal (mkDhtNode i) Hn).
Qed.

#[export] Program Instance CompactLaws_Node6 : CompactLaws (Node SocketAddrV6) := {
  compact_valid x := length (nd_id x) = 20%nat /\ is_bytes (nd_id x) /\ compact_valid (nd_addr x);
  compact_norm x := mkDhtNode (nd_id x) (compact_norm (nd_addr x))
}.
Next Obligation. unfold fixed_len, FixedLen_Node. lia. Qed.
Next Obligation. intros x (? & ? & ?). destruct (node_encode x) as (b & ? & ? & ? & _); try done. by exists b. Qed.
Next Obligation.
  intros x b (? & ? & ?) Eb. destruct (node_encode x) as (b' & Eb' & _ & _ & E); try done.
  change (node_as_slice x = Ret b) in Eb. rewrite Eb' in Eb. injection Eb as <-. exact E.
Qed.
Next Obligation.
  intros b Hl Hb. destruct (node_decode (A := SocketAddrV6) b Hl Hb) as (x & E & Hv & Hn & Es). exists x.
  split_and!; try apply Hv; try done. destruct x as [i a]. exact (f_equal (mkDhtNode i) Hn).
Qed.

(** ** The messages as structs of fields *)

Definition content : Type := value * Ser * bytes.

Definition want_items (w : Want) : list bytes :=
  match w with WantV4 => [N_n4] | WantV6 => [N_n6] | WantBoth => [N_n4; N_n6] | WantNone => [] end.

Definition want_content (w : Want) : content := seq_content (bytes_content <$> want_items w).

Definition id_field (name : bytes) (id : Id) : tfield := mkTF name true id_shape (Some (bytes_content id)).

Definition want_field (w : option Want) : tfield := mkTF N_want false want_shape (want_content <$> w).

Definition find_node_fields (r : FindNodeRequest) : list tfield :=
  [id_field N_id (fn_id r); id_field N_target (fn_target r); want_field (fn_want r)].

Definition get_peers_fields (r : GetPeersRequest) : list tfield :=
  [id_field N_id (gp_id r); id_field N_info_hash (gp_info_hash r); want_field (gp_want r)].

Definition ping_fields (r : PingRequest) : list tfield := [id_field N_id (pg_id r)].

Definition announce_fields (r : AnnouncePeer) : list tfield :=
  [id_field N_id (an_id r); mkTF N_implied_port true (ShUnsigned 8) (Some (int_content (an_implied_port r)));
   id_field N_info_hash (an_info_hash r); mkTF N_port true (ShUnsigned 16) (Some (int_content (an_port r)));
   mkTF N_token true (ShBytes any_bytes) (Some (bytes_content (an_token r)))].

Definition values_content (l : list SocketAddr) : content := seq_content (bytes_content ∘ compact_bytes <$> l).

Definition response_fields (r : Response) : list tfield :=
  [mkTF N_values false (ShSeq (ShBytes (compact_accept SocketAddr))) (values_content <$> rs_values r);
   id_field N_id (rs_id r);
   mkTF N_nodes false (ShBytes (list_accept (Node SocketAddrV4))) (bytes_content <$> rs_nodes r);
   mkTF N_nodes6 false (ShBytes (list_accept (Node SocketAddrV6))) (bytes_content <$> rs_nodes6 r);
   mkTF N_token false (ShBytes any_bytes) (bytes_content <$> rs_token r)].

Definition error_content (e : ErrorDescription) : content :=
  seq_content [int_content (ed_code e); bytes_content (ed_description e)].

Definition raw_fields (ty : MessageType) (tid : bytes) (error : option ErrorDescription) (resp : shape)
    (response : option content) (method_name : option bytes) (args : shape) (arguments : option content)
    (version : option bytes) (ip : option SocketAddr) : list tfield :=
  [mkTF N_y true (ShBytes message_type_accept) (Some (bytes_content (message_type_bytes ty)));
   mkTF N_t true (ShBytes any_bytes) (Some (bytes_content tid));
   mkTF N_e false error_shape (error_content <$> error);
   mkTF N_r false resp response;
   mkTF N_q false (ShBytes any_bytes) (bytes_content <$> method_name);
   mkTF N_a false args arguments;
   mkTF N_v false (ShBytes any_bytes) (bytes_content <$> version);
   mkTF N_ip false (ShBytes (compact_accept SocketAddr)) (bytes_content ∘ compact_bytes <$> ip)].

(** The same without its value. *)
Definition ignored (c : content) : content := (VIgnored, c.1.2, c.2).

Lemma find_node_ser_fields r : find_node_ser r = SerStruct (fields_ser (find_node_fields r)).
Proof. apply struct_ser_fields. cbn. same_fields_by ltac:(by intros []). Qed.

Lemma get_peers_ser_fields r : get_peers_ser r = SerStruct (fields_ser (get_peers_fields r)).
Proof. apply struct_ser_fields. cbn. same_fields_by ltac:(by intros []). Qed.

Lemma ping_ser_fields r : ping_ser r = SerStruct (fields_ser (ping_fields r)).
Proof. done. Qed.

Lemma announce_ser_fields r : announce_ser r = SerStruct (fields_ser (announce_fields r)).
Proof. done. Qed.

Lemma response_ser_fields r : response_ser r = SerStruct (fields_ser (response_fields r)).
Proof.
  apply struct_ser_fields. cbn. same_fields_by ltac:(intros l; cbn; f_equal; by rewrite <-list_fmap_compose).
Qed.

Lemma raw_ser_fields ty tid error sr response method_name sa arguments version ip :
  raw_ser ty tid error ((fun c : content => c.1.2) <$> response) method_name ((fun c : content => c.1.2) <$> arguments) version ip
  = SerStruct (fields_ser (raw_fields ty tid error sr response method_name sa arguments version ip)).
Proof. apply struct_ser_fields. cbn. same_fields_by ltac:(done). Qed.

(** ** What can be sent *)

Definition is_id20 (b : bytes) : Prop := length b = 20%nat.

Record response_ok (r : Response) : Prop := {
  ro_values : opt_ok (Forall sock_valid) (rs_values r);
  ro_id : is_id20 (rs_id r);
  ro_nodes : opt_ok (list_ok (Node SocketAddrV4)) (rs_nodes r);
  ro_nodes6 : opt_ok (list_ok (Node SocketAddrV6)) (rs_nodes6 r);
  ro_token : opt_ok short (rs_token r)
}.

Definition kind_ok (k : MessageKind) : Prop :=
  match k with
  | MkError e => is_i32 (ed_code e) /\ short (ed_description e)
  | MkGetPeersRequest r => is_id20 (gp_id r) /\ is_id20 (gp_info_hash r)
  | MkFindNodeRequest r => is_id20 (fn_id r) /\ is_id20 (fn_target r)
  | MkResponse r => response_ok r
  | MkPingRequest r => is_id20 (pg_id r)
  | MkAnnouncePeer r =>
      is_id20 (an_id r) /\ is_u8 (an_implied_port r) /\ is_id20 (an_info_hash r) /\ is_u16 (an_port r) /\ short (an_token r)
  end.

Record message_ok (m : Message) : Prop := {
  mo_kind : kind_ok (dm_kind m);
  mo_tid : short (dm_transaction_id m);
  mo_version : opt_ok short (dm_version m);
  mo_ip : opt_ok sock_valid (dm_ip m)
}.

(** The flow and the scope of an IPv6 address are not sent. *)
Definition kind_norm (k : MessageKind) : MessageKind :=
  match k with
  | MkResponse r =>
      MkResponse (mkResponse ((fun l : list SocketAddr => sock_norm <$> l) <$> rs_values r) (rs_id r) (rs_nodes r) (rs_nodes6 r) (rs_token r))
  | _ => k
  end.

Definition message_norm (m : Message) : Message :=
  mkDhtMessage (kind_norm (dm_kind m)) (dm_transaction_id m) (dm_version m) (sock_norm <$> dm_ip m).

Lemma sock_compact a :
  sock_valid a -> compact_value (compact_bytes a) = Some (sock_norm a) /\ short (compact_bytes a).
Proof.
  intros Ha. destruct (sock_roundtrip a [] Ha) as [(s & Es & Er) _]. unfold compact_value, compact_bytes.
  cbn [as_slice from_slice CompactSerialize_SocketAddr]. rewrite Es, Er. split; [done|].
  rewrite sock_as_slice_spec in Es. injection Es as <-. unfold short.
  by destruct a.
Qed.

Lemma want_of_items w : want_of (want_items w) = w.
Proof. by destruct w. Qed.

Section Codecs.
Context `{AtoiSpec}.

Lemma id_accept_true b : is_id20 b -> id_accept b = true.
Proof. intros Hb. by apply Nat.eqb_eq. Qed.

Lemma id_short b : is_id20 b -> short b.
Proof. unfold is_id20, short. lia. Qed.

Lemma id_field_ok h name id : short name -> is_id20 id -> content_ok h (id_field name id).
Proof. intros Hn Hi. split; [done|]. apply codec_bytes; [by apply id_short|by apply id_accept_true]. Qed.

Lemma want_short w : Forall short (want_items w).
Proof. destruct w; repeat constructor. Qed.

Lemma want_field_ok h w : content_ok (S h) (want_field w).
Proof. split; [done|]. destruct w as [w|]; [|done]. apply bytes_list_codec, want_short. Qed.

(** The parts that are skipped when the kind of a message is looked for. *)
Definition field_skips (h : nat) (t : tfield) : Prop :=
  short (tf_name t) /\ forall c, tf_content t = Some c -> skips h c.2.

Lemma bytes_skips h name r sh o :
  short name -> opt_ok short o -> field_skips h (mkTF name r sh (bytes_content <$> o)).
Proof. intros Hn Ho. split; [done|]. intros c Hc. destruct o as [b|]; [|done]. injection Hc as <-. by apply skips_bytes, Ho. Qed.

Lemma one_bytes_skips h name r sh b : short name -> short b -> field_skips h (mkTF name r sh (Some (bytes_content b))).
Proof. intros Hn Hb. split; [done|]. intros c [= <-]. by apply skips_bytes. Qed.

Lemma int_skips h name r sh z : short name -> - 2 ^ 63 <= z < 2 ^ 63 -> field_skips h (mkTF name r sh (Some (int_content z))).
Proof. intros Hn Hb. split; [done|]. intros c [= <-]. by apply skips_int. Qed.

Lemma list_skips h (l : list bytes) : Forall short l -> skips (S h) (seq_content (bytes_content <$> l)).2.
Proof.
  intros Hl. cbn. apply skips_list. rewrite <-list_fmap_compose. apply Forall_fmap.
  eapply list.Forall_impl; [exact Hl|]. intros b Hb. by apply skips_bytes.
Qed.

Lemma want_skips h w : field_skips (S h) (want_field w).
Proof. split; [done|]. intros c Hc. destruct w as [w|]; [|done]. injection Hc as <-. apply list_skips, want_short. Qed.

Lemma id_skips h name id : short name -> is_id20 id -> field_skips h (id_field name id).
Proof. intros Hn Hi. by apply one_bytes_skips; [|apply id_short]. Qed.

(** A struct of fields, read as it is or skipped. *)
Lemma fields_codec h ts :
  NoDup (tf_name <$> ts) -> Forall (fun t => content_ok h t /\ field_skips h t) ts ->
  let c := struct_content ts in
  codec (S h) (ShStruct (fields_of ts)) c.1.1 c.1.2 c.2 /\ codec (S h) ShIgnored VIgnored c.1.2 c.2.
Proof.
  intros Hnd Hts c. assert (Forall (content_ok h) ts) as Hok by (eapply list.Forall_impl; [exact Hts|]; by intros t []).
  pose proof (codec_struct h ts Hnd Hok) as Hc. split; [exact Hc|]. apply codec_ignored; [apply Hc|].
  apply struct_skips. eapply list.Forall_impl; [exact Hts|]. by intros t [].
Qed.

Lemma find_node_codec r :
  is_id20 (fn_id r) -> is_id20 (fn_target r) ->
  let c := struct_content (find_node_fields r) in
  codec 2 find_node_shape c.1.1 c.1.2 c.2 /\ codec 2 ShIgnored VIgnored c.1.2 c.2.
Proof.
  intros Hi Ht. apply (fields_codec 1 (find_node_fields r)); [by apply (bool_decide_unpack _)|].
  repeat apply Forall_cons_2; try apply Forall_nil_2; split;
    first [by apply id_field_ok|by apply want_field_ok|by apply id_skips|by apply want_skips].
Qed.

Lemma get_peers_codec r :
  is_id20 (gp_id r) -> is_id20 (gp_info_hash r) ->
  let c := struct_content (get_peers_fields r) in
  codec 2 get_peers_shape c.1.1 c.1.2 c.2 /\ codec 2 ShIgnored VIgnored c.1.2 c.2.
Proof.
  intros Hi Ht. apply (fields_codec 1 (get_peers_fields r)); [by apply (bool_decide_unpack _)|].
  repeat apply Forall_cons_2; try apply Forall_nil_2; split;
    first [by apply id_field_ok|by apply want_field_ok|by apply id_skips|by apply want_skips].
Qed.

Lemma ping_codec r :
  is_id20 (pg_id r) ->
  let c := struct_content (ping_fields r) in
  codec 2 ping_shape c.1.1 c.1.2 c.2 /\ codec 2 ShIgnored VIgnored c.1.2 c.2.
Proof.
  intros Hi. apply (fields_codec 1 (ping_fields r)); [by apply (bool_decide_unpack _)|].
  apply Forall_cons_2; [|apply Forall_nil_2]. split; [by apply id_field_ok|by apply id_skips].
Qed.

Lemma announce_codec r :
  kind_ok (MkAnnouncePeer r) ->
  let c := struct_content (announce_fields r) in
  codec 2 announce_shape c.1.1 c.1.2 c.2 /\ codec 2 ShIgnored VIgnored c.1.2 c.2.
Proof.
  intros (Hi & Hp & Hh & Hq & Ht). apply (fields_codec 1 (announce_fields r)); [by apply (bool_decide_unpack _)|].
  unfold is_uint in *.
  repeat apply Forall_cons_2; try apply Forall_nil_2; split;
    first [by apply id_field_ok|by apply id_skips|by apply int_skips; [|lia]|by apply one_bytes_skips
          |split; [done|]; by apply codec_unsigned|split; [done|]; by apply codec_bytes].
Qed.

Lemma response_codec r :
  response_ok r ->
  let c := struct_content (response_fields r) in
  codec 2 response_shape c.1.1 c.1.2 c.2 /\ codec 2 ShIgnored VIgnored c.1.2 c.2.
Proof.
  intros [Hv Hi Hn Hn6 Ht]. apply (fields_codec 1 (response_fields r)); [by apply (bool_decide_unpack _)|].
  assert (forall l, rs_values r = Some l -> Forall (fun a => sock_valid a) l) as Hvals by exact Hv.
  repeat apply Forall_cons_2; try apply Forall_nil_2; split.
  - split; [done|]. cbn. destruct (rs_values r) as [l|] eqn:El; [|done]. cbn. specialize (Hvals l eq_refl).
    apply (codec_seq 0 (ShBytes (compact_accept SocketAddr)) (bytes_content ∘ compact_bytes <$> l)). apply Forall_fmap.
    eapply list.Forall_impl; [exact Hvals|]. intros a Ha. destruct (sock_compact a Ha) as [E1 E2].
    split; [|intros rest; apply strip_e_digit]. apply codec_bytes; [done|]. unfold compact_accept. by rewrite E1.
  - split; [done|]. intros c Hc. cbn in Hc. destruct (rs_values r) as [l|] eqn:El; [|done]. injection Hc as <-.
    specialize (Hvals l eq_refl). unfold values_content. rewrite list_fmap_compose. apply list_skips, Forall_fmap.
    eapply list.Forall_impl; [exact Hvals|]. intros a Ha. by apply sock_compact.
  - by apply id_field_ok.
  - by apply id_skips.
  - by apply (bytes_field_ok _ _ _ (fun b => b)).
  - apply bytes_skips; [done|]. intros b Hb. by apply Hn.
  - by apply (bytes_field_ok _ _ _ (fun b => b)).
  - apply bytes_skips; [done|]. intros b Hb. by apply Hn6.
  - apply (bytes_field_ok _ _ _ (fun b => b)); [done|]. intros b Hb. split; [by apply Ht|done].
  - by apply bytes_skips.
Qed.

Lemma error_codec e :
  is_i32 (ed_code e) -> short (ed_description e) ->
  let c := error_content e in codec 2 error_shape c.1.1 c.1.2 c.2.
Proof.
  intros Hc Hd. apply (codec_pair 1 (ShSigned 32) (ShBytes any_bytes) (int_content _) (bytes_content _)).
  - by apply (codec_signed _ 32).
  - done.
  - by apply codec_bytes.
  - intros rest. apply strip_e_digit.
Qed.

Section Raw.
Context (ty : MessageType) (tid : bytes) (error : option ErrorDescription) (method_name version : option bytes)
  (ip : option SocketAddr).
Context (Htid : short tid)
  (Herr : opt_ok (fun e => is_i32 (ed_code e) /\ short (ed_description e)) error)
  (Hmethod : opt_ok short method_name) (Hversion : opt_ok short version) (Hip : opt_ok sock_valid ip).

Lemma type_accept : message_type_accept (message_type_bytes ty) = true.
Proof. by destruct ty. Qed.

(** The message is read with either of its parts typed or skipped. *)
Lemma raw_read sr response sa arguments :
  opt_ok (fun c : content => codec 2 sr c.1.1 c.1.2 c.2) response ->
  opt_ok (fun c : content => codec 2 sa c.1.1 c.1.2 c.2) arguments ->
  let ts := raw_fields ty tid error sr response method_name sa arguments version ip in
  codec 3 (raw_shape sa sr) (VStruct (slots_of ts)) (SerStruct (fields_ser ts)) (enc_map (sort_by key_leb (fields_enc ts)))
  /\ raw_of (VStruct (slots_of ts))
     = mkRaw ty tid error ((fun c : content => c.1.1) <$> response) method_name ((fun c : content => c.1.1) <$> arguments)
         version (sock_norm <$> ip).
Proof.
  intros Hr Ha ts. split.
  - apply (codec_struct 2 ts); [by apply (bool_decide_unpack _)|].
    repeat apply Forall_cons_2; try apply Forall_nil_2.
    + split; [done|]. apply codec_bytes; [by destruct ty|apply type_accept].
    + split; [done|]. by apply codec_bytes.
    + split; [done|]. cbn. destruct error as [e|]; [|done]. destruct (Herr e eq_refl). by apply error_codec.
    + split; [done|]. cbn. destruct response as [[[v s] e]|]; [|done]. exact (Hr _ eq_refl).
    + apply (bytes_field_ok _ _ _ (fun b => b)); [done|]. intros b Hb. split; [by apply Hmethod|done].
    + split; [done|]. cbn. destruct arguments as [[[v s] e]|]; [|done]. exact (Ha _ eq_refl).
    + apply (bytes_field_ok _ _ _ (fun b => b)); [done|]. intros b Hb. split; [by apply Hversion|done].
    + apply bytes_field_ok; [done|]. intros a Hb. destruct (sock_compact a (Hip a Hb)) as [E1 E2].
      split; [done|]. unfold compact_accept. by rewrite E1.
  - unfold raw_of.
    rewrite (slot_bytes_fields ts 0 _ (Some (message_type_bytes ty))), (slot_bytes_fields ts 1 _ (Some tid)),
      (slot_bytes_fields ts 4 _ method_name), (slot_bytes_fields ts 6 _ version),
      (slot_bytes_fields ts 7 _ (compact_bytes <$> ip)) by (try reflexivity; by destruct ip).
    f_equal.
    + by destruct ty.
    + by destruct error as [[]|].
    + destruct ip as [a|]; [|done]. cbn. by apply sock_compact, Hip.
Qed.

Lemma read_raw_fields sr response sa arguments :
  opt_ok (fun c : content => codec 2 sr c.1.1 c.1.2 c.2) response ->
  opt_ok (fun c : content => codec 2 sa c.1.1 c.1.2 c.2) arguments ->
  read_raw sa sr (struct_content (raw_fields ty tid error sr response method_name sa arguments version ip)).2
  = XOk (mkRaw ty tid error ((fun c : content => c.1.1) <$> response) method_name ((fun c : content => c.1.1) <$> arguments)
           version (sock_norm <$> ip)).
Proof.
  intros Hr Ha. destruct (raw_read sr response sa arguments Hr Ha) as [Hc Ho]. unfold read_raw, struct_content. cbn [snd].
  rewrite (codec_from_bytes _ _ _ _ _ Hc) by (unfold DEFAULT_MAX_DEPTH; lia). by rewrite Ho.
Qed.

(** The bytes do not depend on how the parts are read. *)
Lemma raw_bytes sr sr' response response' sa sa' arguments arguments' :
  snd <$> response = snd <$> response' -> snd <$> arguments = snd <$> arguments' ->
  (struct_content (raw_fields ty tid error sr response method_name sa arguments version ip)).2
  = (struct_content (raw_fields ty tid error sr' response' method_name sa' arguments' version ip)).2.
Proof.
  intros Er Ea. cbn [struct_content snd]. f_equal. f_equal.
  destruct response as [c|], response' as [c'|]; try done; destruct arguments as [d|], arguments' as [d'|]; try done;
    cbn in *; simplify_eq; unfold raw_fields, fields_enc; cbn; by rewrite ?Er, ?Ea.
Qed.
End Raw.

(** ** Round trip *)

Lemma slot_id_fields ts i t id :
  ts !! i = Some t -> tf_content t = Some (bytes_content id) -> slot_id (VStruct (slots_of ts)) i = id.
Proof. intros Hi Hc. unfold slot_id. by rewrite (slot_bytes_fields ts i t (Some id)). Qed.

Lemma slot_want_fields ts i w :
  ts !! i = Some (want_field w) -> slot_want (VStruct (slots_of ts)) i = w.
Proof.
  intros Hi. unfold slot_want. rewrite (slot_seq_fields value_bytes bytes_content ts i _ (want_items <$> w) ltac:(done) Hi).
  - destruct w as [w|]; [|done]. cbn. by rewrite want_of_items.
  - by destruct w.
Qed.

Lemma find_node_of_fields r : find_node_of (VStruct (slots_of (find_node_fields r))) = r.
Proof.
  unfold find_node_of. erewrite !slot_id_fields, slot_want_fields by reflexivity. by destruct r.
Qed.

Lemma get_peers_of_fields r : get_peers_of (VStruct (slots_of (get_peers_fields r))) = r.
Proof.
  unfold get_peers_of. erewrite !slot_id_fields, slot_want_fields by reflexivity. by destruct r.
Qed.

Lemma ping_of_fields r : ping_of (VStruct (slots_of (ping_fields r))) = r.
Proof. by destruct r. Qed.

Lemma announce_of_fields r : announce_of (VStruct (slots_of (announce_fields r))) = r.
Proof. by destruct r. Qed.

Lemma response_of_fields r :
  response_ok r ->
  MkResponse (response_of (VStruct (slots_of (response_fields r)))) = kind_norm (MkResponse r).
Proof.
  intros [Hv _ _ _ _]. unfold response_of, kind_norm. f_equal.
  erewrite slot_id_fields, (slot_bytes_fields _ 2 _ (rs_nodes r)), (slot_bytes_fields _ 3 _ (rs_nodes6 r)),
    (slot_bytes_fields _ 4 _ (rs_token r)) by reflexivity. f_equal. cbn.
  destruct (rs_values r) as [l|]; [|done]. cbn. f_equal. specialize (Hv l eq_refl).
  rewrite <-!list_fmap_compose. apply list_fmap_ext. intros i a Ha. unfold addr_of. cbn.
  destruct (sock_compact a) as [-> _]; [|done]. eapply (proj1 (list.Forall_forall _ _) Hv). by eapply list_elem_of_lookup_2.
Qed.

(** The parts of a message by its kind: what is written, and how the arguments and the
    response of that kind are read. *)
Definition kind_type (k : MessageKind) : MessageType :=
  match k with MkError _ => MtError | MkResponse _ => MtResponse | _ => MtRequest end.

Definition kind_error (k : MessageKind) : option ErrorDescription := match k with MkError e => Some e | _ => None end.

Definition kind_method (k : MessageKind) : option bytes :=
  match k with
  | MkGetPeersRequest _ => Some N_get_peers
  | MkFindNodeRequest _ => Some N_find_node
  | MkPingRequest _ => Some N_ping
  | MkAnnouncePeer _ => Some N_announce_peer
  | _ => None
  end.

Definition kind_response (k : MessageKind) : option content :=
  match k with MkResponse r => Some (struct_content (response_fields r)) | _ => None end.

Definition kind_arguments (k : MessageKind) : option content :=
  match k with
  | MkGetPeersRequest r => Some (struct_content (get_peers_fields r))
  | MkFindNodeRequest r => Some (struct_content (find_node_fields r))
  | MkPingRequest r => Some (struct_content (ping_fields r))
  | MkAnnouncePeer r => Some (struct_content (announce_fields r))
  | _ => None
  end.

Definition message_fields (m : Message) (sr : shape) (response : option content) (sa : shape) (arguments : option content)
    : list tfield :=
  raw_fields (kind_type (dm_kind m)) (dm_transaction_id m) (kind_error (dm_kind m)) sr response (kind_method (dm_kind m))
    sa arguments (dm_version m) (dm_ip m).

Definition message_bytes (m : Message) : bytes :=
  (struct_content (message_fields m ShIgnored (ignored <$> kind_response (dm_kind m)) ShIgnored (ignored <$> kind_arguments (dm_kind m)))).2.

Lemma serialize_message_fields m :
  serialize_message m
  = SerStruct (fields_ser (message_fields m ShIgnored (ignored <$> kind_response (dm_kind m)) ShIgnored (ignored <$> kind_arguments (dm_kind m)))).
Proof.
  unfold message_fields. rewrite <-raw_ser_fields. unfold serialize_message.
  destruct m as [k tid v ip]. cbn [dm_kind dm_transaction_id dm_version dm_ip]. destruct k; cbn [kind_type kind_error kind_response kind_method kind_arguments];
    rewrite ?get_peers_ser_fields, ?find_node_ser_fields, ?response_ser_fields; done.
Qed.

Lemma opt_ok_ignored (o : option content) :
  opt_ok (fun c : content => codec 2 ShIgnored VIgnored c.1.2 c.2) o ->
  opt_ok (fun c : content => codec 2 ShIgnored c.1.1 c.1.2 c.2) (ignored <$> o).
Proof. intros Ho. destruct o as [c|]; intros ? [= <-]. exact (Ho c eq_refl). Qed.

Lemma ignored_snd (o : option content) : snd <$> (ignored <$> o) = snd <$> o.
Proof. by destruct o. Qed.
Section Sent.
Context (m : Message) (Hm : message_ok m).

Lemma kind_error_ok : opt_ok (fun e => is_i32 (ed_code e) /\ short (ed_description e)) (kind_error (dm_kind m)).
Proof. destruct Hm as [Hk _ _ _]. destruct (dm_kind m); intros ? [= <-]. exact Hk. Qed.

Lemma kind_method_ok : opt_ok short (kind_method (dm_kind m)).
Proof. by destruct (dm_kind m); intros ? [= <-]. Qed.

Lemma sent_read sr response sa arguments :
  opt_ok (fun c : content => codec 2 sr c.1.1 c.1.2 c.2) response ->
  opt_ok (fun c : content => codec 2 sa c.1.1 c.1.2 c.2) arguments ->
  snd <$> response = snd <$> kind_response (dm_kind m) -> snd <$> arguments = snd <$> kind_arguments (dm_kind m) ->
  read_raw sa sr (message_bytes m)
  = XOk (mkRaw (kind_type (dm_kind m)) (dm_transaction_id m) (kind_error (dm_kind m)) ((fun c : content => c.1.1) <$> response)
           (kind_method (dm_kind m)) ((fun c : content => c.1.1) <$> arguments) (dm_version m) (sock_norm <$> dm_ip m)).
Proof.
  intros Hr Ha Er Ea. destruct Hm as [_ Ht Hv Hi]. pose proof kind_error_ok. pose proof kind_method_ok.
  rewrite <-(read_raw_fields _ _ _ _ _ _ Ht) with (sr := sr) (sa := sa) (response := response) (arguments := arguments)
    by done.
  f_equal. apply raw_bytes; by rewrite ignored_snd.
Qed.

Lemma arguments_codec : opt_ok (fun c : content => codec 2 ShIgnored VIgnored c.1.2 c.2) (kind_arguments (dm_kind m)).
Proof.
  destruct Hm as [Hk _ _ _]. destruct (dm_kind m); intros ? [= <-]; cbn in Hk; destruct_and? Hk.
  - by apply get_peers_codec.
  - by apply find_node_codec.
  - by apply ping_codec.
  - by apply announce_codec.
Qed.

Lemma response_codec_ignored : opt_ok (fun c : content => codec 2 ShIgnored VIgnored c.1.2 c.2) (kind_response (dm_kind m)).
Proof. destruct Hm as [Hk _ _ _]. destruct (dm_kind m); intros ? [= <-]. by apply response_codec. Qed.


Lemma message_written : message_to_bytes m = XOk (message_bytes m).
Proof.
  destruct Hm as [_ Ht Hv Hi].
  destruct (raw_read (kind_type (dm_kind m)) _ _ _ _ _ Ht kind_error_ok kind_method_ok Hv Hi ShIgnored
    (ignored <$> kind_response (dm_kind m)) ShIgnored (ignored <$> kind_arguments (dm_kind m))
    (opt_ok_ignored _ response_codec_ignored) (opt_ok_ignored _ arguments_codec)) as [[Hw _] _].
  unfold message_to_bytes, bencode_serialize_to_writer. rewrite serialize_message_fields.
  specialize (Hw (BencodeSerializer_new None) eq_refl). cbn [fits bs_room BencodeSerializer_new] in Hw.
  unfold message_fields. rewrite Hw. done.
Qed.

Lemma first_pass :
  read_raw ShIgnored ShIgnored (message_bytes m)
  = XOk (mkRaw (kind_type (dm_kind m)) (dm_transaction_id m) (kind_error (dm_kind m))
           ((fun _ => VIgnored) <$> kind_response (dm_kind m)) (kind_method (dm_kind m))
           ((fun _ => VIgnored) <$> kind_arguments (dm_kind m)) (dm_version m) (sock_norm <$> dm_ip m)).
Proof.
  rewrite (sent_read ShIgnored (ignored <$> kind_response (dm_kind m)) ShIgnored (ignored <$> kind_arguments (dm_kind m))
    (opt_ok_ignored _ response_codec_ignored) (opt_ok_ignored _ arguments_codec)) by apply ignored_snd.
  f_equal. by destruct (dm_kind m).
Qed.

(** A request of a kind: its arguments are read as that kind. *)
Lemma read_request_sent sa conv (c : content) :
  kind_response (dm_kind m) = None -> kind_arguments (dm_kind m) = Some c -> codec 2 sa c.1.1 c.1.2 c.2 ->
  conv c.1.1 = dm_kind m -> kind_norm (dm_kind m) = dm_kind m ->
  read_request sa conv (message_bytes m) = XOk (message_norm m).
Proof.
  intros Er Ea Hc Econv En. unfold read_request.
  rewrite (sent_read ShIgnored None sa (Some c)) by (rewrite ?Er, ?Ea; try done; by intros ? [= <-]).
  cbn. unfold finish_message, message_norm. cbn. by rewrite Econv, En.
Qed.
End Sent.


Lemma deserialize_sent m : message_ok m -> deserialize_message (message_bytes m) = XOk (message_norm m).
Proof.
  intros Hm. unfold deserialize_message. rewrite (first_pass m Hm). pose proof (mo_kind m Hm) as Hk.
  destruct (dm_kind m) as [e|r|r|r|r|r] eqn:Ek; cbn -[read_request read_raw message_bytes].
  - pose proof (response_codec_ignored m Hm) as Hr. rewrite Ek in Hr.
    rewrite (sent_read m Hm response_shape None ShIgnored None) by (rewrite ?Ek; try done; by intros ? [=]).
    rewrite Ek. cbn. unfold finish_message, message_norm. by rewrite Ek.
  - destruct Hk as [? ?]. apply (read_request_sent m Hm _ _ (struct_content (get_peers_fields r))); rewrite ?Ek; try done.
    + by apply get_peers_codec.
    + by rewrite <-(get_peers_of_fields r) at 2.
  - destruct Hk as [? ?]. apply (read_request_sent m Hm _ _ (struct_content (find_node_fields r))); rewrite ?Ek; try done.
    + by apply find_node_codec.
    + by rewrite <-(find_node_of_fields r) at 2.
  - rewrite (sent_read m Hm response_shape (Some (struct_content (response_fields r))) ShIgnored None)
      by (rewrite ?Ek; try done; intros ? [= <-]; by apply response_codec).
    rewrite Ek. cbn -[response_of]. unfold finish_message, message_norm. rewrite Ek. cbn -[response_of kind_norm].
    f_equal. f_equal. by apply response_of_fields.
  - apply (read_request_sent m Hm _ _ (struct_content (ping_fields r))); rewrite ?Ek; try done.
    + by apply ping_codec.
    + by rewrite <-(ping_of_fields r) at 2.
  - apply (read_request_sent m Hm _ _ (struct_content (announce_fields r))); rewrite ?Ek; try done.
    + by apply announce_codec.
    + by rewrite <-(announce_of_fields r) at 2.
Qed.
End Codecs.

(** C30: every message a node can send is written, and read back as the same message,
    but for the flow and scope of IPv6 addresses: queries with their arguments,
    responses with their addresses and nodes, and errors. *)
Theorem dht_message_roundtrip `{AtoiSpec} (m : Message) :
  message_ok m ->
  exists b, message_to_bytes m = XOk b /\ deserialize_message b = XOk (message_norm m).
Proof. intros Hm. exists (message_bytes m). split; [by apply message_written|by apply deserialize_sent]. Qed.

(** ** Every datagram is answered *)

Section Safe.
Context `{Atoi}.

Definition raw_struct (args resp : shape) : list field :=
  [(N_y, true, ShBytes message_type_accept); (N_t, true, ShBytes any_bytes); (N_e, false, error_shape); (N_r, false, resp);
   (N_q, false, ShBytes any_bytes); (N_a, false, args); (N_v, false, ShBytes any_bytes);
   (N_ip, false, ShBytes (compact_accept SocketAddr))].

Lemma raw_find_field args resp key :
  find_field key (raw_struct args resp) =
  if bool_decide (key = N_y) then Some (0%nat, ShBytes message_type_accept)
  else if bool_decide (key = N_t) then Some (1%nat, ShBytes any_bytes)
  else if bool_decide (key = N_e) then Some (2%nat, error_shape)
  else if bool_decide (key = N_r) then Some (3%nat, resp)
  else if bool_decide (key = N_q) then Some (4%nat, ShBytes any_bytes)
  else if bool_decide (key = N_a) then Some (5%nat, args)
  else if bool_decide (key = N_v) then Some (6%nat, ShBytes any_bytes)
  else if bool_decide (key = N_ip) then Some (7%nat, ShBytes (compact_accept SocketAddr)) else None.
Proof. unfold raw_struct. cbn [find_field]. repeat (case_bool_decide; [done|]). done. Qed.

Lemma args_differ args args' resp : differ_at (raw_struct args resp) (raw_struct args' resp) 5.
Proof. intros key. rewrite !raw_find_field. repeat (case_bool_decide; [by auto|]). done. Qed.

Lemma resp_differ args resp resp' : differ_at (raw_struct args resp) (raw_struct args resp') 3.
Proof. intros key. rewrite !raw_find_field. repeat (case_bool_decide; [by auto|]). done. Qed.

Lemma read_raw_answers args resp buf : read_raw args resp buf <> XPanic.
Proof.
  unfold read_raw, from_bytes. pose proof (from_bytes_answers (raw_shape args resp) buf) as Ha.
  destruct (from_bytes_with_rest (raw_shape args resp) buf) as [[v rest]|e|]; [|done|done]. cbn. by destruct rest.
Qed.

Lemma read_raw_value args resp buf de :
  read_raw args resp buf = XOk de -> exists v, from_bytes (raw_shape args resp) buf = XOk v /\ de = raw_of v.
Proof.
  unfold read_raw. destruct (from_bytes (raw_shape args resp) buf) as [v|e|]; [|done|done]. intros [= <-]. by exists v.
Qed.

(** The arguments of a request are there when it is read a second time. *)
Lemma second_arguments args buf de de' :
  read_raw ShIgnored ShIgnored buf = XOk de -> read_raw args ShIgnored buf = XOk de' ->
  is_Some (rm_arguments de) -> is_Some (rm_arguments de').
Proof.
  intros (v & E1 & ->)%read_raw_value (v' & E2 & ->)%read_raw_value.
  destruct (read_two_ways (raw_struct ShIgnored ShIgnored) (raw_struct args ShIgnored) 5 buf v v'
    (args_differ _ _ _) eq_refl ltac:(cbn; lia) E1 E2) as (s1 & s2 & -> & -> & [[_ [x Hx]]|[-> Hn]]).
  - intros _. cbn. rewrite Hx. by exists x.
  - cbn. rewrite Hn. by intros [? ?].
Qed.

Lemma second_response buf de de' :
  read_raw ShIgnored ShIgnored buf = XOk de -> read_raw ShIgnored response_shape buf = XOk de' ->
  (is_Some (rm_response de) -> is_Some (rm_response de')) /\ (rm_response de = None -> de' = de).
Proof.
  intros (v & E1 & ->)%read_raw_value (v' & E2 & ->)%read_raw_value.
  destruct (read_two_ways (raw_struct ShIgnored ShIgnored) (raw_struct ShIgnored response_shape) 3 buf v v'
    (resp_differ _ _ _) eq_refl ltac:(cbn; lia) E1 E2) as (s1 & s2 & -> & -> & [[[y Hy] [x Hx]]|[-> Hn]]).
  - split; [intros _; cbn; rewrite Hx; by exists x|]. cbn. by rewrite Hy.
  - split; [|done]. cbn. rewrite Hn. by intros [? ?].
Qed.

Lemma read_request_answers args conv buf de :
  read_raw ShIgnored ShIgnored buf = XOk de -> is_Some (rm_arguments de) -> read_request args conv buf <> XPanic.
Proof.
  intros E1 Ha. unfold read_request. pose proof (read_raw_answers args ShIgnored buf) as Hp.
  destruct (read_raw args ShIgnored buf) as [de'|e|] eqn:E2; [|done|done]. cbn.
  destruct (second_arguments args buf de de' E1 E2 Ha) as [v ->]. done.
Qed.

Lemma deserialize_message_answers buf : deserialize_message buf <> XPanic.
Proof.
  unfold deserialize_message. pose proof (read_raw_answers ShIgnored ShIgnored buf) as Hp.
  destruct (read_raw ShIgnored ShIgnored buf) as [de|e|] eqn:E1; [|done|done]. cbn [mbind exec_bind].
  pose proof (read_raw_answers ShIgnored response_shape buf) as Hp2.
  destruct (rm_message_type de).
  - destruct (rm_arguments de) as [v|] eqn:Ea, (rm_method_name de) as [name|], (rm_response de), (rm_error de); try done.
    repeat (case_bool_decide; [eapply read_request_answers; [exact E1|by rewrite Ea]|]). done.
  - destruct (rm_arguments de), (rm_response de) as [rv|] eqn:Er, (rm_error de); try done.
    destruct (read_raw ShIgnored response_shape buf) as [de'|e|] eqn:E2; [|done|done]. cbn [mbind exec_bind].
    destruct (second_response buf de de' E1 E2) as [Hs _]. rewrite Er in Hs. destruct Hs as [v' ->]; done.
  - destruct (rm_arguments de), (rm_response de) as [rv|] eqn:Er, (rm_error de) as [er|] eqn:Ee; try done.
    destruct (read_raw ShIgnored response_shape buf) as [de'|e|] eqn:E2; [|done|done]. cbn [mbind exec_bind].
    destruct (second_response buf de de' E1 E2) as [_ Hs]. rewrite (Hs Er), Ee. done.
Qed.

End Safe.

(** What is read of a type. *)
Section Typed.
Context `{AtoiTyped}.

Lemma read_raw_typed args resp buf de :
  read_raw args resp buf = XOk de ->
  (forall v, rm_arguments de = Some v -> has_shape args v) /\ (forall v, rm_response de = Some v -> has_shape resp v) /\
  (forall e, rm_error de = Some e -> is_i32 (ed_code e)).
Proof.
  intros (v & E1 & ->)%read_raw_value. unfold from_bytes in E1.
  destruct (from_bytes_with_rest (raw_shape args resp) buf) as [[v' rest]|e|] eqn:E2; [|done|done].
  assert (v' = v) as -> by (cbn in E1; destruct rest; [by injection E1|done]).
  unfold from_bytes_with_rest in E2. destruct (deserialize _ _ _) as [s [x|e|]] eqn:E3; [|done|done].
  injection E2 as -> _. apply deserialize_typed in E3. unfold raw_shape in E3. cbn in E3.
  destruct v as [| | | | | |slots|]; try done.
  destruct slots as [|s0 [|s1 [|s2 [|s3 [|s4 [|s5 [|s6 [|s7 [|]]]]]]]]]; try tauto.
  destruct E3 as (_ & _ & He & Hr & _ & Ha & _). cbn. split_and!.
  - intros v ->. exact Ha.
  - intros v ->. exact Hr.
  - intros e Hs. destruct s2 as [v2|]; [|done]. cbn in Hs, He. destruct v2 as [| | | | |l| |]; try done.
    destruct l as [|[| | |z| | | |] [|[| | | |b| | |] [|]]]; try done. injection Hs as <-. cbn. destruct He as [He _].
    unfold is_i32. by apply He.
Qed.

(** A message that is read: its ids have 20 bytes, and its numbers their width. *)
Definition kind_typed (k : MessageKind) : Prop :=
  match k with
  | MkError e => is_i32 (ed_code e)
  | MkGetPeersRequest r => is_id20 (gp_id r) /\ is_id20 (gp_info_hash r)
  | MkFindNodeRequest r => is_id20 (fn_id r) /\ is_id20 (fn_target r)
  | MkResponse r =>
      is_id20 (rs_id r) /\ opt_ok (fun b => list_accept (Node SocketAddrV4) b = true) (rs_nodes r) /\
      opt_ok (fun b => list_accept (Node SocketAddrV6) b = true) (rs_nodes6 r)
  | MkPingRequest r => is_id20 (pg_id r)
  | MkAnnouncePeer r => is_id20 (an_id r) /\ is_u8 (an_implied_port r) /\ is_id20 (an_info_hash r) /\ is_u16 (an_port r)
  end.

Lemma id_slot (slot : option value) slots i :
  slots !! i = Some slot -> match slot with Some v => has_shape id_shape v | None => true = false end ->
  is_id20 (slot_id (VStruct slots) i).
Proof.
  intros Hi Hs. unfold slot_id, slot_bytes. rewrite Hi. destruct slot as [[]|]; try done. by apply Nat.eqb_eq.
Qed.

Lemma int_slot (slot : option value) slots i bits :
  slots !! i = Some slot -> match slot with Some v => has_shape (ShUnsigned bits) v | None => true = false end -> 0 < bits ->
  is_uint bits (default 0 (slot_int (VStruct slots) i)).
Proof. intros Hi Hs Hb. unfold slot_int. rewrite Hi. destruct slot as [[]|]; try done. by apply Hs. Qed.

Lemma bytes_slot (slot : option value) slots i accept :
  slots !! i = Some slot -> match slot with Some v => has_shape (ShBytes accept) v | None => false = false end ->
  opt_ok (fun b => accept b = true) (slot_bytes (VStruct slots) i).
Proof. intros Hi Hs b. unfold slot_bytes. rewrite Hi. destruct slot as [[]|]; try done. by intros [= <-]. Qed.

(** The slots of a value of a struct. *)
Ltac slots_of_struct v Hv :=
  destruct v as [| | | | | |slots|]; try done; cbn -[id_shape] in Hv;
  repeat (match type of Hv with context [match ?l with [] => _ | _ :: _ => _ end] => is_var l; destruct l as [|? l] end; try done);
  destruct_and? Hv; try done.

Lemma find_node_typed v : has_shape find_node_shape v -> kind_typed (MkFindNodeRequest (find_node_of v)).
Proof. intros Hv. slots_of_struct v Hv. split; by eapply id_slot. Qed.

Lemma get_peers_typed v : has_shape get_peers_shape v -> kind_typed (MkGetPeersRequest (get_peers_of v)).
Proof. intros Hv. slots_of_struct v Hv. split; by eapply id_slot. Qed.

Lemma ping_typed v : has_shape ping_shape v -> kind_typed (MkPingRequest (ping_of v)).
Proof. intros Hv. slots_of_struct v Hv. by eapply id_slot. Qed.

Lemma announce_typed v : has_shape announce_shape v -> kind_typed (MkAnnouncePeer (announce_of v)).
Proof.
  intros Hv. slots_of_struct v Hv. split_and!; [by eapply id_slot|by eapply int_slot|by eapply id_slot|by eapply int_slot].
Qed.

Lemma response_typed v : has_shape response_shape v -> kind_typed (MkResponse (response_of v)).
Proof.
  intros Hv. slots_of_struct v Hv. split_and!; [by eapply id_slot|by eapply bytes_slot|by eapply bytes_slot].
Qed.

Lemma read_request_typed args conv buf m :
  (forall v, has_shape args v -> kind_typed (conv v)) -> read_request args conv buf = XOk m -> kind_typed (dm_kind m).
Proof.
  intros Hc. unfold read_request. destruct (read_raw args ShIgnored buf) as [de|e|] eqn:E1; [|done|done]. cbn.
  destruct (rm_arguments de) as [v|] eqn:Ev; [|done]. intros [= <-]. cbn. apply Hc.
  by apply (proj1 (read_raw_typed _ _ _ _ E1)).
Qed.

Lemma deserialize_message_typed buf m : deserialize_message buf = XOk m -> kind_typed (dm_kind m).
Proof.
  unfold deserialize_message. destruct (read_raw ShIgnored ShIgnored buf) as [de|e|] eqn:E1; [|done|done]. cbn [mbind exec_bind].
  destruct (rm_message_type de).
  - destruct (rm_arguments de), (rm_method_name de), (rm_response de), (rm_error de); try done.
    repeat (case_bool_decide; [apply read_request_typed; eauto using find_node_typed, get_peers_typed, ping_typed, announce_typed|]).
    done.
  - destruct (rm_arguments de), (rm_response de), (rm_error de); try done.
    destruct (read_raw ShIgnored response_shape buf) as [de'|e|] eqn:E2; [|done|done]. cbn [mbind exec_bind].
    destruct (rm_response de') as [v'|] eqn:Ev; [|done]. intros [= <-]. apply response_typed.
    by apply (proj1 (proj2 (read_raw_typed _ _ _ _ E2))).
  - destruct (rm_arguments de), (rm_response de), (rm_error de); try done.
    destruct (read_raw ShIgnored response_shape buf) as [de'|e'|] eqn:E2; [|done|done]. cbn [mbind exec_bind].
    destruct (rm_error de') as [er|] eqn:Ev; [|done]. intros [= <-].
    by apply (proj2 (proj2 (read_raw_typed _ _ _ _ E2))).
Qed.

(** C31: whatever bytes arrive, reading them does not panic: the arguments, the response
    or the error that the first pass saw are there in the second one. It ends in an
    error or in a message whose ids have 20 bytes, whose numbers fit their widths and
    whose lists of nodes have whole entries. *)
Theorem deserialize_message_total (buf : bytes) :
  match deserialize_message buf with
  | XOk m => kind_typed (dm_kind m)
  | XErr _ => True
  | XPanic => False
  end.
Proof.
  pose proof (deserialize_message_answers buf). destruct (deserialize_message buf) eqn:E; [|done|done].
  by eapply deserialize_message_typed.
Qed.
End Typed.

Definition ex_announce : Message :=
  mkDhtMessage (MkAnnouncePeer (mkAnnounce (replicate 20 1) 0 (replicate 20 2) 6881 [1; 2; 3; 4])) [7; 8] None
    (Some (SockV6 5 6 7 8)).

Lemma dht_message_roundtrip_witness :
  exists b, message_to_bytes ex_announce = XOk b /\ @deserialize_message atoi_ref b = XOk (message_norm ex_announce).
Proof.
  apply (dht_message_roundtrip ex_announce). split; cbn.
  - split_and!; try done; unfold is_uint; cbn; lia.
  - done.
  - by intros ? [=].
  - intros ? [= <-]. cbn. unfold is_uint. lia.
Defined.

(** A query without its arguments is an error. *)
Definition ex_no_arguments : bytes := [100; 49; 58; 116; 49; 58; 97; 49; 58; 121; 49; 58; 113; 101].

Lemma deserialize_message_total_witness :
  match @deserialize_message atoi_ref ex_no_arguments with
  | XOk m => kind_typed (dm_kind m)
  | XErr _ => True
  | XPanic => False
  end /\ @deserialize_message atoi_ref ex_no_arguments = XErr (BadShape MtRequest).
Proof.
  split; [exact (@deserialize_message_total atoi_ref atoi_ref_typed ex_no_arguments)|]. vm_compute. reflexivity.
Defined.
