(* ===== verification/PeerStore.v ===== *)
(** * Peers announced to the DHT ([dht::peer_store])

    A node answers [get_peers] with a token, and stores a peer only for a node that
    announces it with a token it was given at the same address.  Tokens and peers are
    kept up to a number; only peers of torrents close to the node's own id are kept.
    Random tokens and the clock are arguments. *)

From stdpp Require Import base tactics option list list_numbers numbers decidable countable gmap fin_maps.
From Stdlib Require Import ZArith Lia.
From S2P Require Import Prelude Net HashId DhtMessage.
Open Scope Z_scope.

Record StoredToken := mkToken {
  st_token : bytes;
  st_node_id : Id;
  st_addr : SocketAddr
}.

Record StoredPeer := mkStoredPeer {
  sp_addr : SocketAddr;
  sp_time : Z
}.

Record PeerStore := mkPeerStore {
  ps_self_id : Id;
  ps_max_remembered_tokens : Z;
  ps_max_remembered_peers : Z;
  ps_max_distance : Id;
  ps_tokens : list StoredToken;
  ps_peers : gmap Id (list StoredPeer);
  ps_peers_len : Z
}.

(** [00000fff...]. *)
Definition MAX_DISTANCE : Id := [0; 0; 15] ++ replicate 17 255.

Definition PeerStore_new (self_id : Id) : PeerStore := mkPeerStore self_id 1000 1000 MAX_DISTANCE [] ∅ 0.

(** A store that was saved: the number of peers is counted again. *)
Definition PeerStore_load (self_id : Id) (max_tokens max_peers : Z) (max_distance : Id) (tokens : list StoredToken)
    (peers : gmap Id (list StoredPeer)) : PeerStore :=
  mkPeerStore self_id max_tokens max_peers max_distance tokens peers
    (foldr (fun e acc => u32 (u32 (Z.of_nat (length e.2)) + acc)) 0 (map_to_list peers)).

Definition set_tokens (tokens : list StoredToken) (s : PeerStore) : PeerStore :=
  mkPeerStore (ps_self_id s) (ps_max_remembered_tokens s) (ps_max_remembered_peers s) (ps_max_distance s) tokens
    (ps_peers s) (ps_peers_len s).

Definition set_peers (peers : gmap Id (list StoredPeer)) (peers_len : Z) (s : PeerStore) : PeerStore :=
  mkPeerStore (ps_self_id s) (ps_max_remembered_tokens s) (ps_max_remembered_peers s) (ps_max_distance s) (ps_tokens s)
    peers peers_len.

Definition gen_token_for (token : bytes) (node_id : Id) (addr : SocketAddr) (s : PeerStore) : PeerStore :=
  let tokens := ps_tokens s ++ [mkToken token node_id addr] in
  set_tokens (if ps_max_remembered_tokens s <? Z.of_nat (length tokens) then tail tokens else tokens) s.

(** [SocketAddr::set_port]. *)
Definition set_port (port : Z) (a : SocketAddr) : SocketAddr :=
  match a with
  | SockV4 ip _ => SockV4 ip port
  | SockV6 ip _ flowinfo scope_id => SockV6 ip port flowinfo scope_id
  end.

Definition token_matches (announce : AnnouncePeer) (addr : SocketAddr) (t : StoredToken) : bool :=
  bool_decide (st_token t = an_token announce) && bool_decide (st_addr t = addr)
  && bool_decide (st_node_id t = an_id announce).

(** The peer with this address gets a new time. *)
Fixpoint touch_peer (addr : SocketAddr) (now : Z) (peers : list StoredPeer) : option (list StoredPeer) :=
  match peers with
  | [] => None
  | p :: peers =>
      if bool_decide (sp_addr p = addr) then Some (mkStoredPeer (sp_addr p) now :: peers)
      else (fun l => p :: l) <$> touch_peer addr now peers
  end.

Definition store_peer (now : Z) (announce : AnnouncePeer) (addr : SocketAddr) (s : PeerStore) : PeerStore * bool :=
  if id_ltb (ps_max_distance s) (distance (an_info_hash announce) (ps_self_id s)) then (s, false)
  else if negb (existsb (token_matches announce addr) (ps_tokens s)) then (s, false)
  else
    let addr := if an_implied_port announce =? 0 then set_port (an_port announce) addr else addr in
    let peers_len := ps_peers_len s in
    match ps_peers s !! an_info_hash announce with
    | Some occ =>
        match touch_peer addr now occ with
        | Some occ => (set_peers (<[an_info_hash announce := occ]> (ps_peers s)) peers_len s, true)
        | None =>
            if ps_max_remembered_peers s <=? peers_len then (s, false)
            else (set_peers (<[an_info_hash announce := occ ++ [mkStoredPeer addr now]]> (ps_peers s)) (u32 (peers_len + 1)) s, true)
        end
    | None =>
        if ps_max_remembered_peers s <=? peers_len then (s, false)
        else (set_peers (<[an_info_hash announce := [mkStoredPeer addr now]]> (ps_peers s)) (u32 (peers_len + 1)) s, true)
    end.

Definition wanted (want : Want) (a : SocketAddr) : bool :=
  match a, want with
  | SockV6 _ _ _ _, (WantV6 | WantBoth) => true
  | SockV4 _ _, (WantV4 | WantBoth) => true
  | _, _ => false
  end.

Definition get_for_info_hash (info_hash : Id) (want : Want) (s : PeerStore) : list SocketAddr :=
  match ps_peers s !! info_hash with
  | Some stored_peers => filter (fun a => wanted want a = true) (sp_addr <$> stored_peers)
  | None => []
  end.

(** ** What the store holds *)

Definition total_peers (peers : gmap Id (list StoredPeer)) : nat :=
  map_fold (fun _ l acc => length l + acc)%nat 0%nat peers.

Lemma total_peers_insert peers h l :
  (total_peers (<[h := l]> peers) + length (default [] (peers !! h)) = total_peers peers + length l)%nat.
Proof.
  assert (forall m : gmap Id (list StoredPeer), m !! h = None -> total_peers (<[h := l]> m) = (length l + total_peers m)%nat) as Hfresh.
  { intros m Hm. unfold total_peers. rewrite map_fold_insert_L; [done| |done]. intros; lia. }
  destruct (peers !! h) as [l0|] eqn:E; cbn.
  - rewrite <-(insert_id peers h l0) at 2 by done. rewrite <-(insert_delete_eq peers h l0), <-(insert_delete_eq peers h l).
    rewrite Hfresh by apply lookup_delete_eq. unfold total_peers at 2. rewrite map_fold_insert_L; [|intros; lia|apply lookup_delete_eq].
    fold (total_peers (delete h peers)). lia.
  - rewrite Hfresh by done. lia.
Qed.

Lemma touch_peer_spec addr now l :
  match touch_peer addr now l with
  | Some l' => addr ∈ sp_addr <$> l /\ sp_addr <$> l' = sp_addr <$> l
  | None => addr ∉ sp_addr <$> l
  end.
Proof.
  induction l as [|p l IH]; cbn; [apply not_elem_of_nil|]. case_bool_decide as Hp; cbn.
  - split; [rewrite Hp; left|by rewrite Hp].
  - destruct (touch_peer addr now l) as [l'|]; cbn.
    + destruct IH as [Hin He]. split; [by right|by rewrite He].
    + rewrite not_elem_of_cons. split; [by intros ->|done].
Qed.

(** What happened at the store: a token was given out, or a peer was announced. *)
Inductive ps_op :=
| PsToken (token : bytes) (node_id : Id) (addr : SocketAddr)
| PsAnnounce (now : Z) (announce : AnnouncePeer) (addr : SocketAddr).

Definition ps_run (s : PeerStore) (op : ps_op) : PeerStore :=
  match op with
  | PsToken token node_id addr => gen_token_for token node_id addr s
  | PsAnnounce now announce addr => (store_peer now announce addr s).1
  end.

(** The address a peer is stored with. *)
Definition announced_addr (announce : AnnouncePeer) (addr : SocketAddr) : SocketAddr :=
  if an_implied_port announce =? 0 then set_port (an_port announce) addr else addr.

(** [allowed done info_hash a]: in the past [done] a node was given a token and announced
    with it, from the same address, the peer [a] for [info_hash]. *)
Definition announced_with_token (done : list ps_op) (info_hash : Id) (a : SocketAddr) : Prop :=
  exists now announce addr before after,
    done = before ++ PsAnnounce now announce addr :: after /\
    an_info_hash announce = info_hash /\ a = announced_addr announce addr /\
    PsToken (an_token announce) (an_id announce) addr ∈ before.

Record ps_ok (done : list ps_op) (s : PeerStore) : Prop := {
  po_tokens_len : Z.of_nat (length (ps_tokens s)) <= ps_max_remembered_tokens s;
  po_tokens t : t ∈ ps_tokens s -> PsToken (st_token t) (st_node_id t) (st_addr t) ∈ done;
  po_len : ps_peers_len s = Z.of_nat (total_peers (ps_peers s));
  po_max : ps_peers_len s <= ps_max_remembered_peers s;
  po_nodup h l : ps_peers s !! h = Some l -> NoDup (sp_addr <$> l);
  po_near h l : ps_peers s !! h = Some l -> id_ltb (ps_max_distance s) (distance h (ps_self_id s)) = false;
  po_announced h l a : ps_peers s !! h = Some l -> a ∈ sp_addr <$> l -> announced_with_token done h a
}.

Lemma announced_grows done op h a : announced_with_token done h a -> announced_with_token (done ++ [op]) h a.
Proof.
  intros (now & ann & addr & b & af & -> & Hh & Ha & Ht). exists now, ann, addr, b, (af ++ [op]).
  split_and!; [|done|done|done]. by rewrite <-app_assoc.
Qed.

Lemma ps_ok_token done s token node_id addr :
  ps_ok done s -> ps_ok (done ++ [PsToken token node_id addr]) (gen_token_for token node_id addr s).
Proof.
  intros [Hl Ht Hn Hm Hd Hf Ha].
  set (tokens := ps_tokens s ++ [mkToken token node_id addr]).
  assert (forall t, t ∈ tokens -> PsToken (st_token t) (st_node_id t) (st_addr t) ∈ done ++ [PsToken token node_id addr]) as Hin.
  { intros t [Ht'|Ht']%elem_of_app; apply elem_of_app; [left; by apply Ht|right].
    apply list_elem_of_singleton in Ht' as ->. by left. }
  assert (length tokens = S (length (ps_tokens s))) as Hlen by (unfold tokens; rewrite length_app; cbn; lia).
  unfold gen_token_for. fold tokens. split; cbn; try done.
  - destruct (Z.ltb_spec (ps_max_remembered_tokens s) (Z.of_nat (length tokens))); [|lia].
    destruct tokens; cbn in *; lia.
  - intros t. case_match; [|apply Hin]. intros Htl. apply Hin. destruct tokens; [done|]. by right.
  - intros h l a Hh Hla. apply announced_grows. by eapply Ha.
Qed.

Lemma existsb_token announce addr tokens :
  existsb (token_matches announce addr) tokens = true -> mkToken (an_token announce) (an_id announce) addr ∈ tokens.
Proof.
  intros ([t1 t2 t3] & Hin & Hm)%existsb_exists. apply list_elem_of_In in Hin. unfold token_matches in Hm. cbn in Hm.
  rewrite !andb_true_iff, !bool_decide_eq_true in Hm. destruct Hm as [[-> ->] ->]. done.
Qed.

Lemma store_peer_cases now announce addr s :
  let a := announced_addr announce addr in
  let l := default [] (ps_peers s !! an_info_hash announce) in
  let '(s', stored) := store_peer now announce addr s in
  if stored then
    id_ltb (ps_max_distance s) (distance (an_info_hash announce) (ps_self_id s)) = false /\
    mkToken (an_token announce) (an_id announce) addr ∈ ps_tokens s /\
    exists l', ps_peers s' = <[an_info_hash announce := l']> (ps_peers s) /\
      ((a ∈ sp_addr <$> l /\ sp_addr <$> l' = sp_addr <$> l /\ ps_peers_len s' = ps_peers_len s) \/
       (a ∉ sp_addr <$> l /\ l' = l ++ [mkStoredPeer a now] /\ ps_peers_len s < ps_max_remembered_peers s /\
        ps_peers_len s' = u32 (ps_peers_len s + 1))) /\
      ps_tokens s' = ps_tokens s /\ ps_max_remembered_tokens s' = ps_max_remembered_tokens s /\
      ps_max_remembered_peers s' = ps_max_remembered_peers s /\ ps_max_distance s' = ps_max_distance s /\
      ps_self_id s' = ps_self_id s
  else s' = s.
Proof.
  intros a l. unfold store_peer. destruct (id_ltb _ _) eqn:Ed; [done|].
  destruct (existsb _ (ps_tokens s)) eqn:Et; cbn [negb]; [|done]. apply existsb_token in Et. fold (announced_addr announce addr).
  fold a. subst l. destruct (ps_peers s !! an_info_hash announce) as [occ|] eqn:El; cbn [default].
  - pose proof (touch_peer_spec a now occ) as Hs. destruct (touch_peer a now occ) as [occ'|].
    + destruct Hs as [Hin He]. do 2 (split; [done|]). exists occ'. split; [done|]. split; [by left|done].
    + destruct (Z.leb_spec (ps_max_remembered_peers s) (ps_peers_len s)); [done|]. do 2 (split; [done|]).
      eexists. split; [done|]. split; [right|done]. by split_and!.
  - destruct (Z.leb_spec (ps_max_remembered_peers s) (ps_peers_len s)); [done|]. do 2 (split; [done|]).
    eexists. split; [done|]. split; [right|done]. split_and!; try done. apply not_elem_of_nil.
Qed.

Lemma ps_ok_announce done s now announce addr :
  ps_ok done s -> ps_max_remembered_peers s < 2 ^ 32 ->
  ps_ok (done ++ [PsAnnounce now announce addr]) (store_peer now announce addr s).1.
Proof.
  intros [Hl Ht Hn Hm Hd Hf Ha] Hmax. pose proof (store_peer_cases now announce addr s) as Hc. cbn zeta in Hc.
  destruct (store_peer now announce addr s) as [s' stored]. cbn [fst]. destruct stored.
  2:{ subst s'. split; try done.
      - intros t Hin. apply elem_of_app. left. by apply Ht.
      - intros h l a Hh Hla. apply announced_grows. by eapply Ha. }
  destruct Hc as (Hnear & Htok & l' & Hp & Hcase & Et & Emt & Emp & Emd & Esi).
  set (a := announced_addr announce addr) in *. set (h0 := an_info_hash announce) in *.
  assert (Hnew : announced_with_token (done ++ [PsAnnounce now announce addr]) h0 a).
  { exists now, announce, addr, done, []. split_and!; try done. by apply Ht in Htok. }
  pose proof (total_peers_insert (ps_peers s) h0 l') as Htotal.
  assert (Hold : forall b, b ∈ sp_addr <$> default [] (ps_peers s !! h0) ->
    announced_with_token (done ++ [PsAnnounce now announce addr]) h0 b).
  { intros b Hb. destruct (ps_peers s !! h0) as [l|] eqn:El; cbn in Hb; [|by apply not_elem_of_nil in Hb].
    apply announced_grows. by eapply Ha. }
  assert (Hndl : NoDup (sp_addr <$> default [] (ps_peers s !! h0))).
  { destruct (ps_peers s !! h0) as [l|] eqn:El; cbn; [by eapply Hd|constructor]. }
  assert (Hl' : NoDup (sp_addr <$> l') /\ forall b, b ∈ sp_addr <$> l' -> announced_with_token (done ++ [PsAnnounce now announce addr]) h0 b).
  { destruct Hcase as [(Hin & -> & _)|(Hnin & -> & _)]; [by split|]. rewrite fmap_app. split.
    - apply NoDup_app. split_and!; [done|by intros b Hb ->%list_elem_of_singleton|apply NoDup_singleton].
    - intros b [Hb|Hb]%elem_of_app; [by apply Hold|]. apply list_elem_of_singleton in Hb as ->. exact Hnew. }
  split; rewrite ?Et, ?Emt, ?Emp, ?Emd, ?Esi, ?Hp.
  - done.
  - intros t Hin. apply elem_of_app. left. by apply Ht.
  - destruct Hcase as [(_ & El & ->)|(_ & -> & ? & ->)].
    + apply (f_equal length) in El. rewrite !length_fmap in El. lia.
    + rewrite length_app in Htotal. cbn in Htotal. rewrite wrap_id by (unfold is_uint; lia). lia.
  - destruct Hcase as [(_ & _ & ->)|(_ & _ & ? & ->)]; [done|]. rewrite wrap_id by (unfold is_uint; lia). lia.
  - intros h l [[<- <-]|[Hne Hh]]%lookup_insert_Some; [apply Hl'|by eapply Hd].
  - intros h l [[<- <-]|[Hne Hh]]%lookup_insert_Some; [done|by eapply Hf].
  - intros h l b [[<- <-]|[Hne Hh]]%lookup_insert_Some Hb; [by apply Hl'|]. apply announced_grows. by eapply Ha.
Qed.

Lemma ps_run_config s op :
  ps_max_remembered_peers (ps_run s op) = ps_max_remembered_peers s /\ ps_max_distance (ps_run s op) = ps_max_distance s /\
  ps_self_id (ps_run s op) = ps_self_id s /\ ps_max_remembered_tokens (ps_run s op) = ps_max_remembered_tokens s.
Proof.
  destruct op as [token node_id addr|now announce addr]; cbn; [done|].
  pose proof (store_peer_cases now announce addr s) as Hc. cbn zeta in Hc. destruct (store_peer now announce addr s) as [s' []].
  - destruct Hc as (_ & _ & l' & _ & _ & _ & ? & ? & ? & ?). by split_and!.
  - by rewrite Hc.
Qed.

Lemma ps_ok_new self_id : ps_ok [] (PeerStore_new self_id).
Proof.
  split; cbn; try done; try lia.
  - by intros t ?%not_elem_of_nil.
Qed.

Lemma ps_ok_run self_id ops :
  let s := foldl ps_run (PeerStore_new self_id) ops in
  ps_ok ops s /\ ps_max_remembered_peers s = 1000 /\ ps_max_distance s = MAX_DISTANCE /\ ps_self_id s = self_id /\
  ps_max_remembered_tokens s = 1000.
Proof.
  induction ops as [|op ops IH] using rev_ind; [by split; [apply ps_ok_new|]|]. cbn zeta in *.
  rewrite foldl_app. cbn [foldl]. destruct IH as (Hok & Hm & Hd & Hi & Ht).
  destruct (ps_run_config (foldl ps_run (PeerStore_new self_id) ops) op) as (-> & -> & -> & ->).
  split; [|done]. destruct op; [by apply ps_ok_token|]. apply ps_ok_announce; [done|]. rewrite Hm. lia.
Qed.

Lemma announced_addr_ip announce addr : sock_ip (announced_addr announce addr) = sock_ip addr.
Proof. unfold announced_addr. by destruct (an_implied_port announce =? 0), addr. Qed.

(** What can be asked for after a peer was stored. *)
Lemma store_peer_then_get now announce addr s :
  id_ltb (ps_max_distance s) (distance (an_info_hash announce) (ps_self_id s)) = false ->
  mkToken (an_token announce) (an_id announce) addr ∈ ps_tokens s ->
  ps_peers_len s < ps_max_remembered_peers s ->
  (store_peer now announce addr s).2 = true /\
  announced_addr announce addr ∈ get_for_info_hash (an_info_hash announce) WantBoth (store_peer now announce addr s).1.
Proof.
  intros Hd Ht Hm. pose proof (store_peer_cases now announce addr s) as Hc. cbn zeta in Hc.
  assert ((store_peer now announce addr s).2 = true) as Hs.
  { unfold store_peer. rewrite Hd.
    assert (existsb (token_matches announce addr) (ps_tokens s) = true) as ->.
    { apply existsb_exists. eexists. split; [by apply list_elem_of_In|]. unfold token_matches. cbn. by rewrite !bool_decide_eq_true_2. }
    cbn [negb]. destruct (Z.leb_spec (ps_max_remembered_peers s) (ps_peers_len s)); [lia|]. repeat case_match; done. }
  split; [done|]. destruct (store_peer now announce addr s) as [s' b]. cbn in Hs |- *. subst b.
  destruct Hc as (_ & _ & l' & Hp & Hcase & _). unfold get_for_info_hash. rewrite Hp, lookup_insert_eq.
  apply list_elem_of_filter. split; [by destruct (announced_addr announce addr)|].
  destruct Hcase as [(Hin & -> & _)|(_ & -> & _)]; [done|]. rewrite fmap_app. apply elem_of_app. right. by left.
Qed.

(** C33: whatever tokens are given out and whatever is announced, a new store never keeps
    more than 1000 tokens and 1000 peers, its counter is the number of peers, and what it
    answers for a torrent, which is near its own id, are different peers of the wanted kind, each
    announced for that torrent, with the IP address of the announcing node, by a node that had been given the
    token it used at that same address. A node that was just given a token can announce a
    torrent near the store's id, as long as there is room, and is then answered. *)
Theorem peer_store_safe (self_id : Id) (ops : list ps_op) :
  let s := foldl ps_run (PeerStore_new self_id) ops in
  Z.of_nat (length (ps_tokens s)) <= 1000 /\ ps_peers_len s = Z.of_nat (total_peers (ps_peers s)) /\ ps_peers_len s <= 1000 /\
  (forall h want, NoDup (get_for_info_hash h want s) /\
     forall a, a ∈ get_for_info_hash h want s -> wanted want a = true /\ announced_with_token ops h a /\
       id_ltb MAX_DISTANCE (distance h self_id) = false) /\
  (forall token now announce addr,
     id_ltb MAX_DISTANCE (distance (an_info_hash announce) self_id) = false -> ps_peers_len s < 1000 ->
     an_token announce = token ->
     let s' := gen_token_for token (an_id announce) addr s in
     (store_peer now announce addr s').2 = true /\
     announced_addr announce addr ∈ get_for_info_hash (an_info_hash announce) WantBoth (store_peer now announce addr s').1).
Proof.
  intros s. destruct (ps_ok_run self_id ops) as (Hok & Hm & Hd & Hi & Ht). fold s in Hok, Hm, Hd, Hi, Ht.
  destruct Hok as [Hl Htok Hn Hmax Hdup Hf Ha]. split_and!; [lia|done|lia| |].
  - intros h want. unfold get_for_info_hash. destruct (ps_peers s !! h) as [l|] eqn:El.
    + split; [apply NoDup_filter; by eapply Hdup|]. intros a [Hw Hin]%list_elem_of_filter. split; [done|]. split; [by eapply Ha|].
      rewrite <- Hd, <- Hi. by apply (Hf h l).
    + split; [constructor|]. by intros a ?%not_elem_of_nil.
  - intros token now announce addr Hnear Hroom Heq s'.
    apply store_peer_then_get; unfold s', gen_token_for; cbn; rewrite ?Hm, ?Hd, ?Hi; try done.
    rewrite Ht, Heq. case_match eqn:E; [|apply elem_of_app; right; by left].
    destruct (ps_tokens s); [cbn in E; done|]. cbn. apply elem_of_app. right. by left.
Qed.

Lemma peer_store_safe_witness :
  announced_addr (mkAnnounce (replicate 20 1) 0 (replicate 20 0) 6881 [1; 2; 3; 4]) (SockV4 5 6) ∈
  get_for_info_hash (replicate 20 0) WantBoth
    (store_peer 7 (mkAnnounce (replicate 20 1) 0 (replicate 20 0) 6881 [1; 2; 3; 4]) (SockV4 5 6)
       (gen_token_for [1; 2; 3; 4] (replicate 20 1) (SockV4 5 6) (PeerStore_new (replicate 20 0)))).1.
Proof.
  destruct (peer_store_safe (replicate 20 0) []) as (_ & _ & _ & _ & Hs).
  apply (Hs [1; 2; 3; 4] 7 (mkAnnounce (replicate 20 1) 0 (replicate 20 0) 6881 [1; 2; 3; 4]) (SockV4 5 6));
    [vm_compute; reflexivity|cbn; lia|reflexivity].
Defined.
