(* ===== verification/Dht.v ===== *)
(** * The DHT node ([dht::dht], [DhtState])

    Queries of other nodes are answered from the routing tables and the peer store;
    requests of our own are matched with their responses by transaction id and address.
    The messages to send are queued for the worker, which writes them out. *)

From stdpp Require Import base tactics option list list_numbers numbers decidable countable gmap fin_maps.
From Stdlib Require Import ZArith Lia.
From S2P Require Import Prelude Net HashId CompactIp RoutingTable Bencode BencodeTypes Extended DhtMessage PeerStore.
Open Scope Z_scope.

(** Code that may run out of fuel and may panic. *)
Definition run (A : Type) : Type := option (outcome A).

Definition run_bind {A B} (m : run A) (f : A -> run B) : run B :=
  match m with
  | Some (Ret a) => f a
  | Some Panic => Some Panic
  | None => None
  end.

Definition run_ret {A} (a : A) : run A := Some (Ret a).

Notation "x <~ m ; k" := (run_bind m (fun x => k)) (at level 100, m at next level, right associativity).

Record WorkerSendRequest := mkSend {
  ws_our_tid : option Z;
  ws_message : Message;
  ws_addr : SocketAddr
}.

Inductive DhtError :=
| BadTransactionId
| RequestNotFound
| DhtDead
| ResponseTimeout
| SendError
| ErrorResponse
| ReceiverDead
| NoSuccessfulLookups (errors : nat).

Inductive Request :=
| RqGetPeers (info_hash : Id)
| RqFindNode (target : Id)
| RqAnnounce (info_hash : Id) (token : bytes) (port : Z)
| RqPing.

Inductive ResponseOrError :=
| RoResponse (r : Response)
| RoError (e : ErrorDescription).

(** [ds_inflight] maps to the task that waits; [ds_results] are the answers that were
    handed to tasks; [ds_out] is the queue of the worker, which may be gone. *)
Record DhtState := mkDht {
  ds_id : Id;
  ds_next_transaction_id : Z;
  ds_inflight : gmap (Z * SocketAddr) nat;
  ds_routing_table_v4 : RoutingTable;
  ds_routing_table_v6 : RoutingTable;
  ds_peer_store : PeerStore;
  ds_worker_alive : bool;
  ds_out : list WorkerSendRequest;
  ds_results : list (nat * result DhtError ResponseOrError)
}.

Definition DhtState_new (id : Id) (rt4 rt6 : option RoutingTable) (peer_store : PeerStore) (now : Z) : DhtState :=
  mkDht id 0 ∅ (default (RoutingTable_new id None now) rt4) (default (RoutingTable_new id None now) rt6) peer_store true [] [].

Definition set_inflight (m : gmap (Z * SocketAddr) nat) (s : DhtState) : DhtState :=
  mkDht (ds_id s) (ds_next_transaction_id s) m (ds_routing_table_v4 s) (ds_routing_table_v6 s) (ds_peer_store s)
    (ds_worker_alive s) (ds_out s) (ds_results s).

Definition set_tid (t : Z) (s : DhtState) : DhtState :=
  mkDht (ds_id s) t (ds_inflight s) (ds_routing_table_v4 s) (ds_routing_table_v6 s) (ds_peer_store s)
    (ds_worker_alive s) (ds_out s) (ds_results s).

Definition set_store (p : PeerStore) (s : DhtState) : DhtState :=
  mkDht (ds_id s) (ds_next_transaction_id s) (ds_inflight s) (ds_routing_table_v4 s) (ds_routing_table_v6 s) p
    (ds_worker_alive s) (ds_out s) (ds_results s).

Definition give_result (r : nat) (x : result DhtError ResponseOrError) (s : DhtState) : DhtState :=
  mkDht (ds_id s) (ds_next_transaction_id s) (ds_inflight s) (ds_routing_table_v4 s) (ds_routing_table_v6 s) (ds_peer_store s)
    (ds_worker_alive s) (ds_out s) (ds_results s ++ [(r, x)]).

(** [worker_sender.send]. *)
Definition worker_send (m : WorkerSendRequest) (s : DhtState) : DhtState * result DhtError () :=
  if ds_worker_alive s then
    (mkDht (ds_id s) (ds_next_transaction_id s) (ds_inflight s) (ds_routing_table_v4 s) (ds_routing_table_v6 s)
       (ds_peer_store s) true (ds_out s ++ [m]) (ds_results s), Ok ())
  else (s, Err DhtDead).

Definition get_table_for_addr (addr : SocketAddr) (s : DhtState) : RoutingTable :=
  if is_v4 addr then ds_routing_table_v4 s else ds_routing_table_v6 s.

Definition set_table_for_addr (addr : SocketAddr) (rt : RoutingTable) (s : DhtState) : DhtState :=
  mkDht (ds_id s) (ds_next_transaction_id s) (ds_inflight s)
    (if is_v4 addr then rt else ds_routing_table_v4 s) (if is_v4 addr then ds_routing_table_v6 s else rt)
    (ds_peer_store s) (ds_worker_alive s) (ds_out s) (ds_results s).

(** An operation on the table of the family of [addr]: a round for every bit of the
    id and one more are enough. *)
Definition TABLE_FUEL : nat := 161.

Definition with_table (addr : SocketAddr) (op : rt_op) (s : DhtState) : run DhtState :=
  rt <~ run_op TABLE_FUEL (get_table_for_addr addr s) op; run_ret (set_table_for_addr addr rt s).

(** ** Requests of our own *)

Definition default_want (addr : SocketAddr) : Want := if is_v4 addr then WantV4 else WantV6.

(** The id is kept as [u16]; its two bytes go into the message. *)
Definition create_request (request : Request) (addr : SocketAddr) (s : DhtState) : DhtState * (Z * Message) :=
  let transaction_id := ds_next_transaction_id s in
  let buf := [Z.land (Z.shiftr transaction_id 8) 255; Z.land transaction_id 255] in
  let want := Some (default_want addr) in
  let kind :=
    match request with
    | RqGetPeers info_hash => MkGetPeersRequest (mkGetPeers (ds_id s) info_hash want)
    | RqFindNode target => MkFindNodeRequest (mkFindNode (ds_id s) target want)
    | RqPing => MkPingRequest (mkPing (ds_id s))
    | RqAnnounce info_hash token port => MkAnnouncePeer (mkAnnounce (ds_id s) 0 info_hash port token)
    end in
  (set_tid (u16 (transaction_id + 1)) s, (transaction_id, mkDhtMessage kind buf None None)).

(** [request], until it waits for its response: the transaction id it waits for, or
    the error. *)
Definition start_request (r : nat) (req : Request) (addr : SocketAddr) (s : DhtState) : DhtState * result DhtError Z :=
  let '(s, (tid, message)) := create_request req addr s in
  let s := set_inflight (<[(tid, addr) := r]> (ds_inflight s)) s in
  match worker_send (mkSend (Some tid) message addr) s with
  | (s, Ok _) => (s, Ok tid)
  | (s, Err _) => (set_inflight (delete (tid, addr) (ds_inflight s)) s, Err DhtDead)
  end.

(** [request], when nothing came in time or the sender of its channel is gone. *)
Definition give_up_request (tid : Z) (addr : SocketAddr) (s : DhtState) : DhtState :=
  set_inflight (delete (tid, addr) (ds_inflight s)) s.

Definition on_send_error (tid : Z) (addr : SocketAddr) (s : DhtState) : DhtState :=
  match ds_inflight s !! (tid, addr) with
  | Some r => give_result r (Err SendError) (set_inflight (delete (tid, addr) (ds_inflight s)) s)
  | None => s
  end.

(** ** Queries of others *)

Class FromSocketAddr (A : Type) := from_socket_addr : SocketAddr -> option A.

#[export] Instance FromSocketAddr_V4 : FromSocketAddr SocketAddrV4 := fun a =>
  match a with SockV4 ip port => Some (mkSock4 (mkV4 ip) port) | _ => None end.

#[export] Instance FromSocketAddr_V6 : FromSocketAddr SocketAddrV6 := fun a =>
  match a with SockV6 ip port fl sc => Some (mkSock6 (mkV6 ip) port fl sc) | _ => None end.

Definition compact_node {A} `{FromSocketAddr A} (n : RoutingTableNode) : option (Node A) :=
  a ← from_socket_addr (rn_addr n); Some (mkDhtNode (rn_id n) a).

Definition generate_compact_nodes (A : Type) `{CompactSerialize (Node A)} `{FromSocketAddr A} (fuel : nat) (target : Id)
    (table : RoutingTable) (now : Z) : run bytes :=
  match sorted_by_distance_from fuel table target now with
  | None => None
  | Some nodes => Some (new_from_iter (Node A) (take 8 (omap compact_node nodes)))
  end.

Definition generate_compact_nodes_both (fuel : nat) (target : Id) (want : Want) (now : Z) (s : DhtState)
    : run (option bytes * option bytes) :=
  match want with
  | WantV4 =>
      n <~ generate_compact_nodes SocketAddrV4 fuel target (ds_routing_table_v4 s) now; run_ret (Some n, None)
  | WantV6 =>
      n <~ generate_compact_nodes SocketAddrV6 fuel target (ds_routing_table_v6 s) now; run_ret (None, Some n)
  | WantBoth =>
      n <~ generate_compact_nodes SocketAddrV4 fuel target (ds_routing_table_v4 s) now;
      n6 <~ generate_compact_nodes SocketAddrV6 fuel target (ds_routing_table_v6 s) now;
      run_ret (Some n, Some n6)
  | WantNone => run_ret (None, None)
  end.

Definition response_message (m : Message) (addr : SocketAddr) (r : Response) : WorkerSendRequest :=
  mkSend None (mkDhtMessage (MkResponse r) (dm_transaction_id m) None (Some addr)) addr.

(** [now] is the clock and [token] the bytes a new token is made of. *)
Definition on_received_message (fuel : nat) (now : Z) (token : bytes) (m : Message) (addr : SocketAddr) (s : DhtState)
    : run (DhtState * result DhtError ()) :=
  match dm_kind m with
  | MkError _ | MkResponse _ =>
      match get_our_transaction_id m with
      | None => run_ret (s, Err BadTransactionId)
      | Some tid =>
          match ds_inflight s !! (tid, addr) with
          | None => run_ret (s, Err RequestNotFound)
          | Some request =>
              let s := set_inflight (delete (tid, addr) (ds_inflight s)) s in
              let response_or_error :=
                match dm_kind m with
                | MkError e => Some (RoError e)
                | MkResponse r => Some (RoResponse r)
                | _ => None
                end in
              match response_or_error with
              | Some x => run_ret (give_result request (Ok x) s, Ok ())
              | None => Some Panic
              end
          end
      end
  | MkPingRequest req =>
      let message := response_message m addr (Response_default (ds_id s)) in
      s <~ with_table addr (OpQuery (pg_id req) now) s;
      run_ret (worker_send message s)
  | MkAnnouncePeer ann =>
      s <~ with_table addr (OpQuery (an_id ann) now) s;
      let s := set_store (store_peer now ann addr (ds_peer_store s)).1 s in
      run_ret (worker_send (response_message m addr (Response_default (ds_id s))) s)
  | MkGetPeersRequest req =>
      let want := default (default_want addr) (gp_want req) in
      nodes <~ generate_compact_nodes_both fuel (gp_info_hash req) want now s;
      let compact_peer_info := get_for_info_hash (gp_info_hash req) want (ds_peer_store s) in
      s <~ with_table addr (OpQuery (gp_id req) now) s;
      let s := set_store (gen_token_for token (gp_id req) addr (ds_peer_store s)) s in
      run_ret (worker_send
        (response_message m addr (mkResponse (Some compact_peer_info) (ds_id s) nodes.1 nodes.2 (Some token))) s)
  | MkFindNodeRequest req =>
      let want := default (default_want addr) (fn_want req) in
      nodes <~ generate_compact_nodes_both fuel (fn_target req) want now s;
      s <~ with_table addr (OpQuery (fn_id req) now) s;
      run_ret (worker_send (response_message m addr (mkResponse None (ds_id s) nodes.1 nodes.2 None)) s)
  end.

Record DhtStats := mkStats {
  dst_id : Id;
  dst_outstanding_requests : nat;
  dst_routing_table_size : Z;
  dst_routing_table_size_v6 : Z
}.

Definition get_stats (s : DhtState) : DhtStats :=
  mkStats (ds_id s) (size (ds_inflight s)) (rt_len (ds_routing_table_v4 s)) (rt_len (ds_routing_table_v6 s)).

(** ** Tables and stores of valid addresses *)

Record table_ok (rt : RoutingTable) : Prop := {
  tb_wf : tree_wf (rt_buckets rt);
  tb_addrs n : holds_node (bt_data (rt_buckets rt)) n -> sock_valid (rn_addr n)
}.

Definition op_addr_ok (op : rt_op) : Prop := match op with OpAdd _ _ _ addr => sock_valid addr | _ => True end.

Lemma table_ok_new id now : table_ok (RoutingTable_new id None now).
Proof.
  split.
  - apply BucketTree_new_wf. unfold is_uint, DEFAULT_MAX_SIZE. cbn. lia.
  - intros n [_ (j & nj & b & Hl & Hj & Hd & Hin)]. cbn in Hj. destruct j as [|j]; [|done]. injection Hj as <-.
    injection Hd as <-. by apply not_elem_of_nil in Hin.
Qed.

Lemma update_table_ok fuel rt id refresh f :
  table_ok rt -> is_id 20 id -> (forall n, rn_id (f n) = rn_id n) -> (forall n, rn_addr (f n) = rn_addr n) -> (160 < fuel)%nat ->
  exists rt', table_of (rt_update fuel rt id refresh f) = Some (Ret rt') /\ table_ok rt'.
Proof.
  intros [Hwf Ha] Hid Hf Hfa Hfuel. unfold rt_update.
  destruct (tree_update_correct id f fuel (rt_buckets rt) refresh Hwf Hid Hf Hfuel)
    as (t' & found & ns & -> & Hwf' & _ & Hc & Hc' & _).
  eexists. split; [done|]. split; [done|]. cbn. intros n Hn.
  apply (contents_spec _ _ (tw_ok _ Hwf') Hc') in Hn as (n0 & -> & Hn0)%list_elem_of_fmap.
  apply (contents_spec _ _ (tw_ok _ Hwf) Hc) in Hn0. unfold apply_to.
  destruct (id_eqb _ _); [rewrite Hfa|]; by apply Ha.
Qed.

Lemma add_table_ok fuel now clock rt id addr :
  table_ok rt -> is_id 20 id -> sock_valid addr -> (160 < fuel)%nat ->
  exists rt', table_of (rt_add_node fuel now clock rt id addr) = Some (Ret rt') /\ table_ok rt'.
Proof.
  intros [Hwf Ha] Hid Hv Hfuel. unfold rt_add_node.
  destruct (tree_add_correct now clock (rt_id rt) id addr fuel (rt_buckets rt) Hwf Hid Hfuel)
    as (t' & r & ns & ns' & -> & Hwf' & _ & Hc & Hc' & He).
  eexists. split; [done|]. split; [done|]. cbn. intros n Hn.
  apply (contents_spec _ _ (tw_ok _ Hwf') Hc') in Hn.
  assert (forall x, x ∈ ns -> sock_valid (rn_addr x)) as Hns.
  { intros x Hx. apply Ha. by apply (contents_spec _ _ (tw_ok _ Hwf) Hc). }
  unfold add_effect in He. destruct r as [|bad| |].
  - destruct He as [_ ->]. auto.
  - destruct He as (_ & _ & rest & Hp & Hp'). rewrite Hp' in Hn. apply elem_of_cons in Hn as [->|Hn]; [done|].
    apply Hns. rewrite Hp. by right.
  - destruct He as [_ Hp']. rewrite Hp' in Hn. apply elem_of_cons in Hn as [->|Hn]; [done|auto].
  - destruct He as [_ ->]. auto.
Qed.

Lemma run_op_table_ok fuel rt op :
  table_ok rt -> is_id 20 (op_id op) -> op_addr_ok op -> (160 < fuel)%nat ->
  exists rt', run_op fuel rt op = Some (Ret rt') /\ table_ok rt'.
Proof.
  intros Hok Hid Hv Hfuel. destruct op; cbn in Hid; cbn [run_op];
    [by apply add_table_ok|apply update_table_ok; [done|done|by intros []|by intros []|done]..].
Qed.

(** The best eight nodes of a table, as they are sent. *)
Definition best_nodes (A : Type) `{CompactLaws (Node A)} `{FromSocketAddr A} (rt : RoutingTable) (target : Id) (now : Z)
    (ns : list (Node A)) : Prop :=
  exists sorted, NoDup sorted /\ (forall n, n ∈ sorted <-> holds_node (bt_data (rt_buckets rt)) n) /\
    sorted_by (node_key_leb target now) sorted /\ ns = compact_norm <$> take 8 (omap compact_node sorted).

Section CompactNodes.
Context (A : Type) `{CompactLaws (Node A)} `{FromSocketAddr A}.
Context (Hlen : (fixed_len (Node A) < 1000)%nat).
Context (Hvalid : forall n x, is_id 20 (rn_id n) -> sock_valid (rn_addr n) -> compact_node n = Some x -> compact_valid x).

Lemma generate_compact_nodes_ok rt target now :
  table_ok rt ->
  exists k b ns, (forall fuel, (k <= fuel)%nat -> generate_compact_nodes A fuel target rt now = Some (Ret b)) /\
    list_ok (Node A) b /\ compact_iter (Node A) b = Ret ns /\ best_nodes A rt target now ns.
Proof.
  intros [Hwf Ha]. destruct (sorted_by_distance_correct rt target now Hwf) as (k & sorted & Hk & Hnd & Hin & Hs).
  assert (Forall compact_valid (take 8 (omap (compact_node (A := A)) sorted))) as Hv.
  { apply Forall_take, list.Forall_forall. intros x (n & Hn & Hx)%list_elem_of_omap. apply Hin in Hn.
    eapply Hvalid; [apply Hn|by apply Ha|done]. }
  destruct (compact_list_encode _ Hv) as (b & Eb & _ & Hl & Hd & Hit & _).
  exists k, b, (compact_norm <$> take 8 (omap (compact_node (A := A)) sorted)). split_and!.
  - intros fuel Hf. unfold generate_compact_nodes. rewrite (Hk fuel Hf). by rewrite Eb.
  - split; [|unfold list_accept; by rewrite Hd]. unfold short.
    assert (length (take 8 (omap (compact_node (A := A)) sorted)) <= 8)%nat by (rewrite length_take; lia). nia.
  - exact Hit.
  - by exists sorted.
Qed.
End CompactNodes.

Lemma node4_valid n (x : Node SocketAddrV4) :
  is_id 20 (rn_id n) -> sock_valid (rn_addr n) -> compact_node n = Some x -> compact_valid x.
Proof.
  intros [Hl Hb] Hv. unfold compact_node, from_socket_addr, FromSocketAddr_V4.
  destruct (rn_addr n); cbn in *; [|done]. intros [= <-]. cbn. by destruct_and! Hv.
Qed.

Lemma node6_valid n (x : Node SocketAddrV6) :
  is_id 20 (rn_id n) -> sock_valid (rn_addr n) -> compact_node n = Some x -> compact_valid x.
Proof.
  intros [Hl Hb] Hv. unfold compact_node, from_socket_addr, FromSocketAddr_V6.
  destruct (rn_addr n); cbn in *; [done|]. intros [= <-]. cbn. by destruct_and! Hv.
Qed.

(** ** Answering queries *)

Definition store_ok (p : PeerStore) : Prop :=
  0 < ps_max_remembered_tokens p /\
  forall h l a, ps_peers p !! h = Some l -> a ∈ sp_addr <$> l -> sock_valid a.

Record dht_ok (s : DhtState) : Prop := {
  do_id : is_id 20 (ds_id s);
  do_tid : is_u16 (ds_next_transaction_id s);
  do_v4 : table_ok (ds_routing_table_v4 s);
  do_v6 : table_ok (ds_routing_table_v6 s);
  do_store : store_ok (ds_peer_store s);
  do_out : Forall (fun w => message_ok (ws_message w)) (ds_out s)
}.

(** A query as it comes from the network. *)
Definition query_ok (m : Message) : Prop :=
  short (dm_transaction_id m) /\
  match dm_kind m with
  | MkPingRequest req => is_id 20 (pg_id req)
  | MkFindNodeRequest req => is_id 20 (fn_id req)
  | MkGetPeersRequest req => is_id 20 (gp_id req)
  | MkAnnouncePeer ann => is_id 20 (an_id ann) /\ is_u16 (an_port ann)
  | _ => False
  end.

Lemma with_table_ok addr op s :
  dht_ok s -> is_id 20 (op_id op) -> op_addr_ok op ->
  exists rt, with_table addr op s = Some (Ret (set_table_for_addr addr rt s)) /\ dht_ok (set_table_for_addr addr rt s).
Proof.
  intros Hok Hid Hv.
  assert (table_ok (get_table_for_addr addr s)) as Ht by (unfold get_table_for_addr; destruct (is_v4 addr); apply Hok).
  destruct (run_op_table_ok TABLE_FUEL _ op Ht Hid Hv ltac:(unfold TABLE_FUEL; lia)) as (rt & E & Hrt). exists rt. unfold with_table. rewrite E.
  split; [done|]. destruct Hok. split; cbn; try done; by destruct (is_v4 addr).
Qed.

Lemma set_port_valid port a : sock_valid a -> is_u16 port -> sock_valid (set_port port a).
Proof. by destruct a; cbn; intros [? ?]. Qed.

Lemma store_peer_ok now ann addr p :
  store_ok p -> is_u16 (an_port ann) -> sock_valid addr -> store_ok (store_peer now ann addr p).1.
Proof.
  intros [Hm Hp] Hport Ha. pose proof (store_peer_cases now ann addr p) as Hc. cbn zeta in Hc.
  destruct (store_peer now ann addr p) as [p' []]; [|by subst]. cbn.
  destruct Hc as (_ & _ & l' & Ep & Hcase & _ & Emt & _ & _ & _). split; [by rewrite Emt|].
  assert (sock_valid (announced_addr ann addr)) as Haa.
  { unfold announced_addr. destruct (_ =? 0); [by apply set_port_valid|done]. }
  assert (forall a, a ∈ sp_addr <$> default [] (ps_peers p !! an_info_hash ann) -> sock_valid a) as Hold.
  { intros a. destruct (ps_peers p !! an_info_hash ann) as [l|] eqn:El; cbn; [by eapply Hp|by intros ?%not_elem_of_nil]. }
  intros h l a. rewrite Ep. intros [[<- <-]|[_ Hh]]%lookup_insert_Some Hin; [|by eapply Hp].
  destruct Hcase as [(_ & El & _)|(_ & -> & _)].
  - apply Hold. by rewrite <-El.
  - rewrite fmap_app in Hin. apply elem_of_app in Hin as [Hin|Hin]; [by apply Hold|].
    apply list_elem_of_singleton in Hin as ->. exact Haa.
Qed.

Lemma gen_token_in token node_id addr p :
  0 < ps_max_remembered_tokens p -> mkToken token node_id addr ∈ ps_tokens (gen_token_for token node_id addr p).
Proof.
  intros Hm. unfold gen_token_for. cbn. case_match eqn:E; [|apply elem_of_app; right; by left].
  apply Z.ltb_lt in E. rewrite length_app in E. destruct (ps_tokens p); cbn in E |- *; [lia|]. apply elem_of_app. right. by left.
Qed.

(** The nodes of an answer. *)
Definition nodes_answer (s : DhtState) (target : Id) (want : Want) (now : Z) (nodes : option bytes * option bytes) : Prop :=
  match want with
  | WantV4 | WantBoth =>
      exists b ns, nodes.1 = Some b /\ list_ok (Node SocketAddrV4) b /\ compact_iter (Node SocketAddrV4) b = Ret ns /\
        best_nodes SocketAddrV4 (ds_routing_table_v4 s) target now ns
  | _ => nodes.1 = None
  end /\
  match want with
  | WantV6 | WantBoth =>
      exists b ns, nodes.2 = Some b /\ list_ok (Node SocketAddrV6) b /\ compact_iter (Node SocketAddrV6) b = Ret ns /\
        best_nodes SocketAddrV6 (ds_routing_table_v6 s) target now ns
  | _ => nodes.2 = None
  end.

Lemma compact_nodes_both_ok s target want now :
  dht_ok s ->
  exists k nodes, (forall fuel, (k <= fuel)%nat -> generate_compact_nodes_both fuel target want now s = Some (Ret nodes)) /\
    nodes_answer s target want now nodes.
Proof.
  intros Hok.
  destruct (generate_compact_nodes_ok SocketAddrV4 ltac:(by apply Nat.ltb_lt) node4_valid _ target now (do_v4 s Hok))
    as (k4 & b4 & ns4 & E4 & H4).
  destruct (generate_compact_nodes_ok SocketAddrV6 ltac:(by apply Nat.ltb_lt) node6_valid _ target now (do_v6 s Hok))
    as (k6 & b6 & ns6 & E6 & H6).
  exists (k4 + k6)%nat. destruct want; cbn.
  - exists (Some b4, None). split; [intros fuel Hf; by rewrite E4 by lia|]. split; [by exists b4, ns4|done].
  - exists (None, Some b6). split; [intros fuel Hf; by rewrite E6 by lia|]. split; [done|by exists b6, ns6].
  - exists (Some b4, Some b6). split; [intros fuel Hf; rewrite E4 by lia; cbn; by rewrite E6 by lia|].
    split; [by exists b4, ns4|by exists b6, ns6].
  - by exists (None, None).
Qed.

Lemma nodes_answer_lists s target want now nodes :
  nodes_answer s target want now nodes ->
  opt_ok (list_ok (Node SocketAddrV4)) nodes.1 /\ opt_ok (list_ok (Node SocketAddrV6)) nodes.2.
Proof.
  intros [H1 H2]. split.
  - destruct want; (destruct H1 as (b & ns & -> & Hl & _) || rewrite H1); by intros ? [= <-].
  - destruct want; (destruct H2 as (b & ns & -> & Hl & _) || rewrite H2); by intros ? [= <-].
Qed.

Lemma reply_ok m addr r :
  short (dm_transaction_id m) -> sock_valid addr -> response_ok r -> message_ok (ws_message (response_message m addr r)).
Proof. intros Ht Ha Hr. split; cbn; [done|done|by intros ? [=]|by intros ? [= <-]]. Qed.

Lemma default_response_ok id : is_id 20 id -> response_ok (Response_default id).
Proof. intros [Hl _]. by split; cbn; try (by intros ? [=]). Qed.

(** The state after an answer. *)
Definition answered (s s' : DhtState) (m : Message) (addr : SocketAddr) (r : Response) : Prop :=
  dht_ok s' /\ ds_out s' = ds_out s ++ [response_message m addr r] /\ rs_id r = ds_id s /\
  message_ok (ws_message (response_message m addr r)) /\
  ds_inflight s' = ds_inflight s /\ ds_results s' = ds_results s /\ ds_next_transaction_id s' = ds_next_transaction_id s /\
  ds_worker_alive s' = true.

Lemma answer_sent s s1 m addr r :
  dht_ok s1 -> ds_worker_alive s1 = true -> ds_out s1 = ds_out s -> rs_id r = ds_id s ->
  ds_inflight s1 = ds_inflight s -> ds_results s1 = ds_results s -> ds_next_transaction_id s1 = ds_next_transaction_id s ->
  short (dm_transaction_id m) -> sock_valid addr -> response_ok r ->
  exists s', worker_send (response_message m addr r) s1 = (s', Ok ()) /\ answered s s' m addr r /\
    ds_peer_store s' = ds_peer_store s1.
Proof.
  intros [H1 H2 H3 H4 H5 H6] Hal Eo Ei Ef Er Et Ht Ha Hr. unfold worker_send. rewrite Hal. eexists. split; [done|].
  pose proof (reply_ok m addr r Ht Ha Hr) as Hm. split; [|done]. split.
  - split; cbn; try done. apply Forall_app. split; [done|]. by apply Forall_singleton.
  - cbn. by rewrite Eo, Ef, Er, Et.
Qed.

(** What an answer to a query says. *)
Definition query_answer (s s' : DhtState) (m : Message) (addr : SocketAddr) (now : Z) (token : bytes) (r : Response) : Prop :=
  match dm_kind m with
  | MkGetPeersRequest req =>
      let want := default (default_want addr) (gp_want req) in
      rs_values r = Some (get_for_info_hash (gp_info_hash req) want (ds_peer_store s)) /\
      nodes_answer s (gp_info_hash req) want now (rs_nodes r, rs_nodes6 r) /\
      rs_token r = Some token /\ mkToken token (gp_id req) addr ∈ ps_tokens (ds_peer_store s') /\
      ps_peers (ds_peer_store s') = ps_peers (ds_peer_store s)
  | MkFindNodeRequest req =>
      nodes_answer s (fn_target req) (default (default_want addr) (fn_want req)) now (rs_nodes r, rs_nodes6 r) /\
      ds_peer_store s' = ds_peer_store s
  | MkAnnouncePeer ann => ds_peer_store s' = (store_peer now ann addr (ds_peer_store s)).1
  | _ => ds_peer_store s' = ds_peer_store s
  end.

Lemma set_store_ok p s : dht_ok s -> store_ok p -> dht_ok (set_store p s).
Proof. intros [] Hp. by split. Qed.

Lemma values_valid s h want : dht_ok s -> Forall sock_valid (get_for_info_hash h want (ds_peer_store s)).
Proof.
  intros Hok. unfold get_for_info_hash. destruct (ps_peers (ds_peer_store s) !! h) as [l|] eqn:El; [|constructor].
  apply list.Forall_forall. intros a [_ Hin]%list_elem_of_filter. by eapply (do_store s Hok).
Qed.

Lemma on_query_spec (s : DhtState) (m : Message) (addr : SocketAddr) (now : Z) (token : bytes) :
  dht_ok s -> ds_worker_alive s = true -> query_ok m -> sock_valid addr -> length token = 4%nat ->
  exists k s' r, (forall fuel, (k <= fuel)%nat -> on_received_message fuel now token m addr s = Some (Ret (s', Ok ()))) /\
    answered s s' m addr r /\ query_answer s s' m addr now token r.
Proof.
  intros Hok Hal [Htid Hq] Ha Htok. unfold on_received_message, query_answer. pose proof (do_id s Hok) as Hid.
  destruct (dm_kind m) as [e|req|req|r|req|ann]; try done.
  - set (want := default (default_want addr) (gp_want req)).
    destruct (compact_nodes_both_ok s (gp_info_hash req) want now Hok) as (k & nodes & En & Hn).
    destruct (nodes_answer_lists _ _ _ _ _ Hn) as [Hn4 Hn6].
    destruct (with_table_ok addr (OpQuery (gp_id req) now) s Hok Hq I) as (rt & Ert & Hok1).
    edestruct (answer_sent s (set_store (gen_token_for token (gp_id req) addr (ds_peer_store s)) (set_table_for_addr addr rt s)) m addr)
      as (s' & E1 & Hs' & Ep); cycle -1.
    { eexists k, s', _. split; [|split; [exact Hs'|]].
      - intros fuel Hf. rewrite En by lia. cbn [run_bind]. rewrite Ert. cbn [run_bind]. unfold run_ret. f_equal. f_equal. exact E1.
      - rewrite Ep. split_and!; try done. apply gen_token_in. apply (do_store s Hok). }
    all: try done.
    + apply set_store_ok; [done|]. apply (do_store s Hok).
    + split; cbn; [intros ? [= <-]; by apply values_valid|apply Hid|done|done|]. intros ? [= <-]. unfold short. lia.
  - set (want := default (default_want addr) (fn_want req)).
    destruct (compact_nodes_both_ok s (fn_target req) want now Hok) as (k & nodes & En & Hn).
    destruct (nodes_answer_lists _ _ _ _ _ Hn) as [Hn4 Hn6].
    destruct (with_table_ok addr (OpQuery (fn_id req) now) s Hok Hq I) as (rt & Ert & Hok1).
    edestruct (answer_sent s (set_table_for_addr addr rt s) m addr) as (s' & E1 & Hs' & Ep); cycle -1.
    { eexists k, s', _. split.
      { intros fuel Hf. rewrite En by lia. cbn [run_bind]. rewrite Ert. cbn [run_bind]. unfold run_ret. f_equal. f_equal. exact E1. }
      split; [exact Hs'|by rewrite Ep]. }
    all: try done.
    split; cbn; [by intros ? [=]|apply Hid|done|done|by intros ? [=]].
  - destruct (with_table_ok addr (OpQuery (pg_id req) now) s Hok Hq I) as (rt & Ert & Hok1).
    edestruct (answer_sent s (set_table_for_addr addr rt s) m addr) as (s' & E1 & Hs' & Ep); cycle -1.
    { eexists 0%nat, s', _. split.
      { intros fuel _. rewrite Ert. cbn [run_bind]. unfold run_ret. f_equal. f_equal. exact E1. }
      split; [exact Hs'|by rewrite Ep]. }
    all: try done. by apply default_response_ok.
  - destruct Hq as [Hq Hp]. destruct (with_table_ok addr (OpQuery (an_id ann) now) s Hok Hq I) as (rt & Ert & Hok1).
    edestruct (answer_sent s (set_store (store_peer now ann addr (ds_peer_store s)).1 (set_table_for_addr addr rt s)) m addr)
      as (s' & E1 & Hs' & Ep); cycle -1.
    { eexists 0%nat, s', _. split.
      { intros fuel _. rewrite Ert. cbn [run_bind]. unfold run_ret. f_equal. f_equal. exact E1. }
      split; [exact Hs'|by rewrite Ep]. }
    all: try done.
    + apply set_store_ok; [done|]. apply store_peer_ok; [apply (do_store s Hok)|done|done].
    + by apply default_response_ok.
Qed.

(** C34: a query is answered: the node does not panic, whatever the query, and queues
    exactly one message for the sender, with its transaction id, the node's own id and
    the sender's address, which the worker can write. [get_peers] gets the stored peers
    of the torrent, the best eight nodes of the wanted families and a token that is
    remembered for this node and address; [find_node] the nodes; an announcement goes to
    the store. Tables, store and the requests in flight stay well-formed. *)
Theorem queries_answered (s : DhtState) (m : Message) (addr : SocketAddr) (now : Z) (token : bytes) :
  dht_ok s -> ds_worker_alive s = true -> query_ok m -> sock_valid addr -> length token = 4%nat ->
  exists k s' r, (forall fuel, (k <= fuel)%nat -> on_received_message fuel now token m addr s = Some (Ret (s', Ok ()))) /\
    answered s s' m addr r /\ query_answer s s' m addr now token r.
Proof. exact (on_query_spec s m addr now token). Qed.

(** ** Requests and their responses

    A task that waits for a response, with the number of its request among all requests
    of the node. *)

Record Task := mkTask {
  tk_tid : Z;
  tk_addr : SocketAddr;
  tk_index : nat
}.

(** [dw_issued] has all requests ever made, [dw_aborted] those whose task was aborted (the
    tasks of a [RequestPeersStream] are, when it is dropped). *)
Record DWorld := mkDW {
  dw_dht : DhtState;
  dw_tasks : gmap nat Task;
  dw_count : nat;
  dw_issued : gset nat;
  dw_aborted : gset nat
}.

Definition set_dw (s : DhtState) (tasks : gmap nat Task) (w : DWorld) : DWorld :=
  mkDW s tasks (dw_count w) (dw_issued w) (dw_aborted w).

Inductive d_ev :=
| DvRequest (r : nat) (req : Request) (addr : SocketAddr)
| DvAnnounce (info_hash : Id) (token : bytes) (port : Z) (addr : SocketAddr)
| DvReceive (now : Z) (token : bytes) (m : Message) (addr : SocketAddr)
| DvSendError (tid : Z) (addr : SocketAddr)
| DvTimeout (r : nat)
| DvDropped (r : nat)
| DvAbort (r : nat)
| DvTable (addr : SocketAddr) (op : rt_op)
| DvWorker.

(** The tasks that were given a result are done. *)
Definition waiting_tasks (s : DhtState) (tasks : gmap nat Task) : gmap nat Task :=
  filter (fun p => p.1 ∉ (ds_results s).*1) tasks.

Definition set_out (out : list WorkerSendRequest) (s : DhtState) : DhtState :=
  mkDht (ds_id s) (ds_next_transaction_id s) (ds_inflight s) (ds_routing_table_v4 s) (ds_routing_table_v6 s) (ds_peer_store s)
    (ds_worker_alive s) out (ds_results s).

(** The announcement at the end of [get_peers] waits for no response. *)
Definition announce_request (info_hash : Id) (token : bytes) (port : Z) (addr : SocketAddr) (s : DhtState) : DhtState :=
  let '(s, (tid, message)) := create_request (RqAnnounce info_hash token port) addr s in
  (worker_send (mkSend (Some tid) message addr) s).1.

Definition d_exec (fuel : nat) (ev : d_ev) (w : DWorld) : run DWorld :=
  let s := dw_dht w in
  match ev with
  | DvRequest r req addr =>
      match start_request r req addr s with
      | (s', Ok tid) =>
          run_ret (mkDW s' (<[r := mkTask tid addr (dw_count w)]> (dw_tasks w)) (S (dw_count w))
                     ({[ r ]} ∪ dw_issued w) (dw_aborted w))
      | (s', Err e) =>
          run_ret (mkDW (give_result r (Err e) s') (dw_tasks w) (S (dw_count w)) ({[ r ]} ∪ dw_issued w) (dw_aborted w))
      end
  | DvAnnounce info_hash token port addr =>
      run_ret (mkDW (announce_request info_hash token port addr s) (dw_tasks w) (S (dw_count w)) (dw_issued w) (dw_aborted w))
  | DvReceive now token m addr =>
      r <~ on_received_message fuel now token m addr s;
      run_ret (set_dw r.1 (waiting_tasks r.1 (dw_tasks w)) w)
  | DvSendError tid addr =>
      let s' := on_send_error tid addr s in run_ret (set_dw s' (waiting_tasks s' (dw_tasks w)) w)
  | DvTimeout r =>
      match dw_tasks w !! r with
      | Some t =>
          run_ret (set_dw (give_result r (Err ResponseTimeout) (give_up_request (tk_tid t) (tk_addr t) s))
                     (delete r (dw_tasks w)) w)
      | None => run_ret w
      end
  | DvDropped r =>
      match dw_tasks w !! r with
      | Some t =>
          run_ret (set_dw (give_result r (Err DhtDead) (give_up_request (tk_tid t) (tk_addr t) s)) (delete r (dw_tasks w)) w)
      | None => run_ret w
      end
  | DvAbort r =>
      match dw_tasks w !! r with
      | Some t => run_ret (mkDW s (delete r (dw_tasks w)) (dw_count w) (dw_issued w) ({[ r ]} ∪ dw_aborted w))
      | None => run_ret w
      end
  | DvTable addr op => s' <~ with_table addr op s; run_ret (set_dw s' (dw_tasks w) w)
  | DvWorker =>
      match ds_out s with
      | [] => run_ret w
      | m :: out =>
          match message_to_bytes (ws_message m) with
          | XOk _ => run_ret (set_dw (set_out out s) (dw_tasks w) w)
          | _ => Some Panic
          end
      end
  end.

Definition request_ok (req : Request) : Prop :=
  match req with
  | RqGetPeers info_hash => is_id 20 info_hash
  | RqFindNode target => is_id 20 target
  | RqAnnounce info_hash token port => is_id 20 info_hash /\ short token /\ is_u16 port
  | RqPing => True
  end.

(** No request waits while 65536 others are made: they wait ten seconds at most, and the
    rate of requests is limited. *)
Definition young (w : DWorld) : Prop :=
  forall r t, dw_tasks w !! r = Some t -> Z.of_nat (dw_count w) - Z.of_nat (tk_index t) < 2 ^ 16.

Definition d_guard (w : DWorld) (ev : d_ev) : Prop :=
  match ev with
  | DvRequest r req addr =>
      r ∉ dw_issued w /\ request_ok req /\ sock_valid addr /\ young w
  | DvAnnounce info_hash token port addr => request_ok (RqAnnounce info_hash token port) /\ sock_valid addr /\ young w
  | DvReceive now token m addr =>
      length token = 4%nat /\ sock_valid addr /\
      match dm_kind m with MkError _ | MkResponse _ => True | _ => query_ok m end
  | DvSendError _ _ | DvTimeout _ | DvAbort _ | DvWorker => True
  | DvDropped r => forall k, ds_inflight (dw_dht w) !! k <> Some r
  | DvTable addr op => is_id 20 (op_id op) /\ op_addr_ok op
  end.

Inductive d_reachable (w0 : DWorld) : DWorld -> Prop :=
| dr_start : d_reachable w0 w0
| dr_step w ev w' k : d_reachable w0 w -> d_guard w ev -> (forall fuel, (k <= fuel)%nat -> d_exec fuel ev w = Some (Ret w')) ->
    d_reachable w0 w'.

Record dw_ok (w : DWorld) : Prop := {
  dk_dht : dht_ok (dw_dht w);
  dk_alive : ds_worker_alive (dw_dht w) = true;
  dk_tid : ds_next_transaction_id (dw_dht w) = Z.of_nat (dw_count w) mod 2 ^ 16;
  dk_task r t : dw_tasks w !! r = Some t ->
    (tk_index t < dw_count w)%nat /\ tk_tid t = Z.of_nat (tk_index t) mod 2 ^ 16 /\
    Z.of_nat (dw_count w) - Z.of_nat (tk_index t) <= 2 ^ 16 /\ ds_inflight (dw_dht w) !! (tk_tid t, tk_addr t) = Some r;
  dk_inflight k r : ds_inflight (dw_dht w) !! k = Some r ->
    (exists t, dw_tasks w !! r = Some t /\ k = (tk_tid t, tk_addr t)) \/ (r ∈ dw_aborted w /\ dw_tasks w !! r = None);
  dk_inj k k' r : ds_inflight (dw_dht w) !! k = Some r -> ds_inflight (dw_dht w) !! k' = Some r -> k = k';
  dk_results : NoDup (ds_results (dw_dht w)).*1;
  dk_unsent k r : ds_inflight (dw_dht w) !! k = Some r -> r ∉ (ds_results (dw_dht w)).*1;
  dk_done r : r ∈ (ds_results (dw_dht w)).*1 -> dw_tasks w !! r = None;
  dk_aborted r : r ∈ dw_aborted w -> dw_tasks w !! r = None;
  dk_issued r : r ∈ dw_issued w <->
    is_Some (dw_tasks w !! r) \/ r ∈ (ds_results (dw_dht w)).*1 \/ r ∈ dw_aborted w
}.

Lemma dht_ok_frame s s' :
  dht_ok s -> ds_id s' = ds_id s -> is_u16 (ds_next_transaction_id s') ->
  ds_routing_table_v4 s' = ds_routing_table_v4 s -> ds_routing_table_v6 s' = ds_routing_table_v6 s ->
  ds_peer_store s' = ds_peer_store s -> Forall (fun w => message_ok (ws_message w)) (ds_out s') -> dht_ok s'.
Proof. intros [? ? ? ? ? ?] E1 ? E2 E3 E4 ?. split; congruence. Qed.

Lemma waiting_same s tasks : (forall r, r ∈ (ds_results s).*1 -> tasks !! r = None) -> waiting_tasks s tasks = tasks.
Proof.
  intros Hd. apply map_filter_id. intros r t Ht Hin. apply Hd in Hin. cbn in Hin. congruence.
Qed.

Lemma waiting_new s s' r x tasks :
  (forall r, r ∈ (ds_results s).*1 -> tasks !! r = None) -> ds_results s' = ds_results s ++ [(r, x)] ->
  waiting_tasks s' tasks = delete r tasks.
Proof.
  intros Hd Er. apply map_eq. intros i. unfold waiting_tasks. rewrite Er, fmap_app. cbn.
  destruct (decide (i = r)) as [->|Hne].
  - rewrite lookup_delete_eq. apply map_lookup_filter_None. right. intros t _. cbn. intros Hn. apply Hn.
    apply elem_of_app. right. by left.
  - rewrite lookup_delete_ne by done. destruct (tasks !! i) as [t|] eqn:Ei.
    + apply map_lookup_filter_Some. split; [done|]. cbn. intros [Hin|Hin]%elem_of_app.
      * apply Hd in Hin. congruence.
      * apply list_elem_of_singleton in Hin. congruence.
    + apply map_lookup_filter_None. by left.
Qed.

(** The task of a key gets its result, and the key is free again. *)
Lemma dw_ok_sent w k r x :
  dw_ok w -> ds_inflight (dw_dht w) !! k = Some r ->
  dw_ok (set_dw (give_result r x (set_inflight (delete k (ds_inflight (dw_dht w))) (dw_dht w))) (delete r (dw_tasks w)) w).
Proof.
  intros [Hok Hal Ht Htask Hin Hinj Hnd Hun Hdone Hab Hiss] Hr.
  assert (Hother : forall k' r', delete k (ds_inflight (dw_dht w)) !! k' = Some r' ->
    ds_inflight (dw_dht w) !! k' = Some r' /\ r' <> r).
  { intros k' r' [Hne Hk']%lookup_delete_Some. split; [done|]. intros ->. by destruct Hne; eapply Hinj. }
  split; cbn; try done.
  - eapply dht_ok_frame; cbn; try done; apply Hok.
  - intros r' t' [Hne Hr']%lookup_delete_Some. destruct (Htask r' t' Hr') as (? & ? & ? & E2). split_and!; try done.
    rewrite lookup_delete_ne; [done|]. intros ->. congruence.
  - intros k' r' [Hk' Hne]%Hother. rewrite lookup_delete_ne by done. by apply Hin.
  - intros k1 k2 r' [H1 _]%Hother [H2 _]%Hother. by eapply Hinj.
  - rewrite fmap_app. apply NoDup_app. split_and!; [done| |apply NoDup_singleton].
    intros r' Hr' ->%list_elem_of_singleton. by eapply Hun.
  - intros k' r' [Hk' Hne]%Hother. rewrite fmap_app, elem_of_app. cbn. rewrite list_elem_of_singleton.
    apply Hun in Hk'. tauto.
  - intros r'. rewrite fmap_app. intros [Hr'|Hr']%elem_of_app.
    + apply lookup_delete_None. right. by apply Hdone.
    + apply list_elem_of_singleton in Hr' as ->. apply lookup_delete_eq.
  - intros r' Hr'. apply lookup_delete_None. right. by apply Hab.
  - intros r'. rewrite Hiss, fmap_app, elem_of_app. cbn. rewrite list_elem_of_singleton.
    destruct (decide (r' = r)) as [->|Hne]; [|rewrite lookup_delete_ne by done; tauto].
    split; [tauto|]. intros _. destruct (Hin _ _ Hr) as [(t & Et & _)|[? _]]; [left; by eexists|tauto].
Qed.

Lemma dw_ok_result w r t x :
  dw_ok w -> dw_tasks w !! r = Some t ->
  dw_ok (set_dw (give_result r x (give_up_request (tk_tid t) (tk_addr t) (dw_dht w))) (delete r (dw_tasks w)) w).
Proof. intros Hok Hr. apply dw_ok_sent; [done|]. by apply (dk_task w Hok). Qed.

(** An aborted task leaves its key. *)
Lemma dw_ok_abort w r t :
  dw_ok w -> dw_tasks w !! r = Some t ->
  dw_ok (mkDW (dw_dht w) (delete r (dw_tasks w)) (dw_count w) (dw_issued w) ({[ r ]} ∪ dw_aborted w)).
Proof.
  intros [Hok Hal Ht Htask Hin Hinj Hnd Hun Hdone Hab Hiss] Hr. split; cbn; try done.
  - intros r' t' [Hne Hr']%lookup_delete_Some. by apply Htask.
  - intros k r' Hk. destruct (decide (r' = r)) as [->|Hne].
    + right. split; [set_solver|apply lookup_delete_eq].
    + rewrite lookup_delete_ne by done. destruct (Hin k r' Hk) as [?|[? ?]]; [by left|right; split; [set_solver|done]].
  - intros r' Hr'. apply lookup_delete_None. right. by apply Hdone.
  - intros r' [->%elem_of_singleton|Hr']%elem_of_union; [apply lookup_delete_eq|]. apply lookup_delete_None. right. by apply Hab.
  - intros r'. rewrite Hiss, elem_of_union, elem_of_singleton.
    destruct (decide (r' = r)) as [->|Hne]; [|rewrite lookup_delete_ne by done; tauto].
    split; [tauto|]. intros _. left. by eexists.
Qed.

Lemma create_request_message req addr s :
  is_id 20 (ds_id s) -> is_u16 (ds_next_transaction_id s) -> request_ok req ->
  let '(s', (tid, m)) := create_request req addr s in
  message_ok m /\ get_our_transaction_id m = Some tid.
Proof.
  intros [Hid _] Ht Hr. unfold create_request. split.
  - split; cbn; [|done|by intros ? [=]|by intros ? [=]].
    destruct req as [h|h|h tok port|]; cbn in *.
    + split; [done|apply Hr].
    + split; [done|apply Hr].
    + destruct Hr as (Hh & Htok & Hp). split_and!; try done. apply Hh.
    + done.
  - unfold get_our_transaction_id. cbn [dm_transaction_id]. f_equal. unfold is_uint in Ht.
    set (t := ds_next_transaction_id s) in *.

    assert (Z.land t 255 = t mod 256) as -> by (apply (Z.land_ones t 8); lia).
    assert (Z.land (Z.shiftr t 8) 255 = (t / 256) mod 256) as ->.
    { rewrite Z.shiftr_div_pow2 by lia. apply (Z.land_ones (t / 2 ^ 8) 8). lia. }
    rewrite Z.shiftl_mul_pow2 by lia.
    assert (0 <= t / 256 < 256) by (split; [apply Z.div_pos; lia|apply Z.div_lt_upper_bound; lia]).
    rewrite (Z.mod_small (t / 256)) by lia. pose proof (Z.div_mod t 256 ltac:(lia)).
    rewrite wrap_id by (unfold is_uint; lia). lia.
Qed.

(** No task that waits has the next transaction id. *)
Lemma next_tid_free w r t :
  dw_ok w -> young w -> dw_tasks w !! r = Some t -> tk_tid t <> ds_next_transaction_id (dw_dht w).
Proof.
  intros Hok Hy Ht Et. destruct (dk_task w Hok r t Ht) as (Hi & Htid & _ & _).
  specialize (Hy r t Ht). rewrite (dk_tid w Hok), Htid in Et.
  assert ((Z.of_nat (dw_count w) - Z.of_nat (tk_index t)) mod 2 ^ 16 = 0) as H0.
  { rewrite Zminus_mod, Et, Z.sub_diag. done. }
  rewrite Z.mod_small in H0 by lia. lia.
Qed.

(** The state after a request was queued. *)
Lemma sent_request_ok w (m : WorkerSendRequest) inflight :
  dw_ok w -> message_ok (ws_message m) ->
  dht_ok (mkDht (ds_id (dw_dht w)) (u16 (ds_next_transaction_id (dw_dht w) + 1)) inflight (ds_routing_table_v4 (dw_dht w))
    (ds_routing_table_v6 (dw_dht w)) (ds_peer_store (dw_dht w)) true (ds_out (dw_dht w) ++ [m]) (ds_results (dw_dht w)))
  /\ u16 (ds_next_transaction_id (dw_dht w) + 1) = Z.of_nat (S (dw_count w)) mod 2 ^ 16.
Proof.
  intros Hok Hm. pose proof (dk_dht w Hok) as Hd. split; [|rewrite (dk_tid w Hok)].
  - eapply dht_ok_frame; cbn; try done; [apply wrap_range; lia|]. apply Forall_app. split; [apply Hd|by apply Forall_singleton].
  - unfold wrap. rewrite Zplus_mod_idemp_l. f_equal. lia.
Qed.

(** Time passes for the tasks that wait. *)
Lemma task_ages w r t :
  dw_ok w -> young w -> dw_tasks w !! r = Some t ->
  (tk_index t < S (dw_count w))%nat /\ tk_tid t = Z.of_nat (tk_index t) mod 2 ^ 16 /\
  Z.of_nat (S (dw_count w)) - Z.of_nat (tk_index t) <= 2 ^ 16 /\ ds_inflight (dw_dht w) !! (tk_tid t, tk_addr t) = Some r.
Proof. intros Hok Hy Ht. destruct (dk_task w Hok r t Ht) as (? & ? & ? & ?). specialize (Hy r t Ht). split_and!; try done; lia. Qed.

Lemma dw_ok_request w r req addr :
  dw_ok w -> d_guard w (DvRequest r req addr) ->
  exists s' tid m, start_request r req addr (dw_dht w) = (s', Ok tid) /\
    dw_ok (mkDW s' (<[r := mkTask tid addr (dw_count w)]> (dw_tasks w)) (S (dw_count w)) ({[ r ]} ∪ dw_issued w) (dw_aborted w)) /\
    ds_out s' = ds_out (dw_dht w) ++ [mkSend (Some tid) m addr] /\ get_our_transaction_id m = Some tid.
Proof.
  intros Hok (Hfr & Hreq & Ha & Hy). pose proof (next_tid_free w) as Hfree.
  pose proof (dk_dht w Hok) as Hd. pose proof (create_request_message req addr (dw_dht w) (do_id _ Hd) (do_tid _ Hd) Hreq) as Hm.
  unfold start_request. destruct (create_request req addr (dw_dht w)) as [s1 [tid m]] eqn:Ec. destruct Hm as [Hm Hgt].
  unfold create_request in Ec. injection Ec as <- Etid Em. unfold worker_send. cbn. rewrite (dk_alive w Hok).
  eexists _, _, m. split; [done|]. split; [|split; [done|done]].
  destruct (sent_request_ok w (mkSend (Some tid) m addr) (<[(tid, addr) := r]> (ds_inflight (dw_dht w))) Hok Hm) as [Hd' Ht'].
  assert (dw_tasks w !! r = None /\ r ∉ (ds_results (dw_dht w)).*1 /\ r ∉ dw_aborted w) as (Hnt & Hnr & Hna).
  { rewrite (dk_issued w Hok) in Hfr. split_and!; [|tauto|tauto]. apply eq_None_not_Some. tauto. }
  assert (Hnk : forall k, ds_inflight (dw_dht w) !! k <> Some r).
  { intros k Hk. destruct (dk_inflight w Hok k r Hk) as [(t & ? & _)|[? _]]; [congruence|done]. }
  split; cbn; try done.
  - intros r' t' [[<- <-]|[Hne Hr']]%lookup_insert_Some.
    + cbn. split_and!; [lia|by rewrite <-Etid, (dk_tid w Hok)|lia|by rewrite lookup_insert_eq].
    + destruct (task_ages w r' t' Hok Hy Hr') as (? & ? & ? & E'). split_and!; try done.
      rewrite lookup_insert_ne; [done|]. intros [= Ek _]. apply (Hfree r' t' Hok Hy Hr'). congruence.
  - intros k r' [[<- <-]|[Hne Hk]]%lookup_insert_Some.
    + left. eexists. split; [apply lookup_insert_eq|done].
    + assert (r <> r') by (intros ->; by apply (Hnk k)). rewrite lookup_insert_ne by done. by apply (dk_inflight w Hok).
  - intros k k' r' [[<- <-]|[Hne Hk]]%lookup_insert_Some [[<- E2]|[Hne' Hk']]%lookup_insert_Some; try done.
    + by destruct (Hnk k').
    + subst r'. by destruct (Hnk k).
    + by eapply (dk_inj w Hok).
  - apply (dk_results w Hok).
  - intros k r' [[<- <-]|[Hne Hk]]%lookup_insert_Some; [done|]. by eapply (dk_unsent w Hok).
  - intros r' Hr'. rewrite lookup_insert_ne; [by apply (dk_done w Hok)|]. by intros <-.
  - intros r' Hr'. rewrite lookup_insert_ne; [by apply (dk_aborted w Hok)|]. by intros <-.
  - intros r'. rewrite elem_of_union, elem_of_singleton, (dk_issued w Hok).
    destruct (decide (r' = r)) as [->|Hne]; [rewrite lookup_insert_eq|rewrite lookup_insert_ne by done; tauto].
    split; [|tauto]. intros _. left. by eexists.
Qed.

Lemma dw_ok_announce w info_hash token port addr :
  dw_ok w -> d_guard w (DvAnnounce info_hash token port addr) ->
  dw_ok (mkDW (announce_request info_hash token port addr (dw_dht w)) (dw_tasks w) (S (dw_count w)) (dw_issued w) (dw_aborted w)).
Proof.
  intros Hok (Hreq & Ha & Hy). pose proof (dk_dht w Hok) as Hd.
  pose proof (create_request_message (RqAnnounce info_hash token port) addr (dw_dht w) (do_id _ Hd) (do_tid _ Hd) Hreq) as Hm.
  unfold announce_request. destruct (create_request _ addr (dw_dht w)) as [s1 [tid m]] eqn:Ec. destruct Hm as [Hm _].
  unfold create_request in Ec. injection Ec as <- Etid Em. unfold worker_send. cbn. rewrite (dk_alive w Hok).
  destruct (sent_request_ok w (mkSend (Some tid) m addr) (ds_inflight (dw_dht w)) Hok Hm) as [Hd' Ht'].
  split; cbn; try done; [|apply Hok..]. intros r t. by apply task_ages.
Qed.

(** A response to a request in flight. *)
Definition answer_of (m : Message) : option ResponseOrError :=
  match dm_kind m with MkError e => Some (RoError e) | MkResponse r => Some (RoResponse r) | _ => None end.

Lemma receive_response w fuel now token m addr x :
  dw_ok w -> answer_of m = Some x ->
  match get_our_transaction_id m with
  | Some tid =>
      match ds_inflight (dw_dht w) !! (tid, addr) with
      | Some r =>
          on_received_message fuel now token m addr (dw_dht w) =
            Some (Ret (give_result r (Ok x) (give_up_request tid addr (dw_dht w)), Ok ())) /\
          d_exec fuel (DvReceive now token m addr) w =
            Some (Ret (set_dw (give_result r (Ok x) (give_up_request tid addr (dw_dht w))) (delete r (dw_tasks w)) w))
      | None => on_received_message fuel now token m addr (dw_dht w) = Some (Ret (dw_dht w, Err RequestNotFound))
      end
  | None => on_received_message fuel now token m addr (dw_dht w) = Some (Ret (dw_dht w, Err BadTransactionId))
  end.
Proof.
  intros Hok Hx. unfold answer_of in Hx.
  assert (on_received_message fuel now token m addr (dw_dht w) =
    match get_our_transaction_id m with
    | None => run_ret (dw_dht w, Err BadTransactionId)
    | Some tid =>
        match ds_inflight (dw_dht w) !! (tid, addr) with
        | None => run_ret (dw_dht w, Err RequestNotFound)
        | Some r => run_ret (give_result r (Ok x) (give_up_request tid addr (dw_dht w)), Ok ())
        end
    end) as Em.
  { unfold on_received_message. destruct (dm_kind m); try done; injection Hx as <-; by repeat case_match. }
  cbn [d_exec]. rewrite Em. destruct (get_our_transaction_id m) as [tid|]; [|done].
  destruct (ds_inflight (dw_dht w) !! (tid, addr)) as [r|] eqn:Ei; [|done]. split; [done|]. cbn.
  unfold run_ret. do 3 f_equal. by apply (waiting_new (dw_dht w) _ r (Ok x)); [apply Hok|].
Qed.

(** A step, with enough fuel. *)
Definition d_steps (ev : d_ev) (w w' : DWorld) : Prop := exists k, forall fuel, (k <= fuel)%nat -> d_exec fuel ev w = Some (Ret w').

Lemma dw_ok_receive w now token m addr :
  dw_ok w -> d_guard w (DvReceive now token m addr) -> exists w', d_steps (DvReceive now token m addr) w w' /\ dw_ok w'.
Proof.
  intros Hok (Htok & Ha & Hm). pose proof Hok as Hok'. destruct Hok' as [Hd Hal Htid Htask Hin Hinj Hres Hun Hdone Hab Hiss].
  assert (dw_ok (set_dw (dw_dht w) (waiting_tasks (dw_dht w) (dw_tasks w)) w)) as Hsame.
  { rewrite waiting_same by done. by destruct w. }
  destruct (answer_of m) as [x|] eqn:Ex.
  - pose proof (fun fuel => receive_response w fuel now token m addr x Hok Ex) as Hr.
    destruct (get_our_transaction_id m) as [tid|].
    2:{ eexists. split; [|exact Hsame]. exists 0%nat. intros fuel _. cbn [d_exec]. by rewrite (Hr fuel). }
    destruct (ds_inflight (dw_dht w) !! (tid, addr)) as [r|] eqn:Ei.
    2:{ eexists. split; [|exact Hsame]. exists 0%nat. intros fuel _. cbn [d_exec]. by rewrite (Hr fuel). }
    eexists. split; [|by apply (dw_ok_sent w _ r (Ok x) Hok Ei)].
    exists 0%nat. intros fuel _. by destruct (Hr fuel) as [_ ->].
  - assert (query_ok m) as Hq by (unfold answer_of in Ex; by destruct (dm_kind m)).
    destruct (on_query_spec (dw_dht w) m addr now token Hd Hal Hq Ha Htok)
      as (k & s' & r & Hk & (Hd' & _ & _ & _ & Ei & Er & Et & Hal') & _).
    exists (set_dw s' (dw_tasks w) w). split.
    + exists k. intros fuel Hf. cbn [d_exec]. rewrite (Hk fuel Hf). cbn [run_bind fst]. by rewrite waiting_same by (by rewrite Er).
    + split; cbn; rewrite ?Ei, ?Er, ?Et; done.
Qed.

Lemma d_steps_now ev w w' : (forall fuel, d_exec fuel ev w = Some (Ret w')) -> d_steps ev w w'.
Proof. intros E. by exists 0%nat. Qed.

Lemma dw_ok_worker w : dw_ok w -> exists w', d_steps DvWorker w w' /\ dw_ok w'.
Proof.
  intros Hok. destruct (ds_out (dw_dht w)) as [|m out] eqn:Eo.
  - exists w. split; [|done]. apply d_steps_now. intros fuel. cbn. by rewrite Eo.
  - destruct Hok as [Hd Hal Htid Htask Hin Hinj Hres Hun Hdone Hab Hiss].
    pose proof (do_out _ Hd) as Hout. rewrite Eo in Hout. apply Forall_cons_1 in Hout as [Hm Hout].
    eexists. split; [apply d_steps_now; intros fuel; cbn; by rewrite Eo, (@message_written atoi_ref _ (ws_message m) Hm)|].
    split; cbn; try done. eapply dht_ok_frame; cbn; try done. apply Hd.
Qed.

Lemma dw_ok_exec w ev : dw_ok w -> d_guard w ev -> exists w', d_steps ev w w' /\ dw_ok w'.
Proof.
  intros Hok Hg. destruct ev as [r req addr|h tok port addr|now tok m addr|tid addr|r|r|r|addr op|].
  - destruct (dw_ok_request w r req addr Hok Hg) as (s' & tid & m & E & Hok' & _).
    eexists. split; [|exact Hok']. apply d_steps_now. intros fuel. cbn [d_exec]. by rewrite E.
  - eexists. split; [by apply d_steps_now|]. by apply dw_ok_announce.
  - by apply dw_ok_receive.
  - destruct (ds_inflight (dw_dht w) !! (tid, addr)) as [r|] eqn:Ei.
    + eexists. split; [|by apply (dw_ok_sent w _ r (Err SendError) Hok Ei)]. apply d_steps_now. intros fuel. cbn [d_exec].
      unfold on_send_error. rewrite Ei. cbn zeta. by rewrite (waiting_new (dw_dht w) _ r (Err SendError)) by (done || apply Hok).
    + exists w. split; [|done]. apply d_steps_now. intros fuel. cbn [d_exec]. unfold on_send_error. rewrite Ei. cbn zeta.
      rewrite waiting_same by apply Hok. by destruct w.
  - destruct (dw_tasks w !! r) as [t|] eqn:Et.
    + eexists. split; [|by apply (dw_ok_result w r t (Err ResponseTimeout))]. apply d_steps_now. intros fuel. cbn. by rewrite Et.
    + exists w. split; [|done]. apply d_steps_now. intros fuel. cbn. by rewrite Et.
  - destruct (dw_tasks w !! r) as [t|] eqn:Et.
    + eexists. split; [|by apply (dw_ok_result w r t (Err DhtDead))]. apply d_steps_now. intros fuel. cbn. by rewrite Et.
    + exists w. split; [|done]. apply d_steps_now. intros fuel. cbn. by rewrite Et.
  - destruct (dw_tasks w !! r) as [t|] eqn:Et.
    + eexists. split; [|by apply (dw_ok_abort w r t)]. apply d_steps_now. intros fuel. cbn. by rewrite Et.
    + exists w. split; [|done]. apply d_steps_now. intros fuel. cbn. by rewrite Et.
  - destruct Hg as [Hid Hv]. destruct (with_table_ok addr op (dw_dht w) (dk_dht w Hok) Hid Hv) as (rt & E & Hd').
    eexists. split; [apply d_steps_now; intros fuel; cbn [d_exec]; rewrite E; reflexivity|]. destruct Hok. by split.
  - by apply dw_ok_worker.
Qed.

Lemma dw_ok_reachable w0 w : dw_ok w0 -> d_reachable w0 w -> dw_ok w.
Proof.
  intros Hw0. induction 1 as [|w ev w' k _ IH Hg E]; [done|].
  destruct (dw_ok_exec w ev IH Hg) as (x & (k' & Ek) & Hx).
  assert (Some (Ret w') = Some (Ret x)) as [= ->]; [|done].
  rewrite <-(E (k + k')%nat) by lia. apply Ek. lia.
Qed.

Definition d_start (id : Id) (peer_store : PeerStore) (now : Z) : DWorld := mkDW (DhtState_new id None None peer_store now) ∅ 0 ∅ ∅.

Lemma dw_ok_start id peer_store now : is_id 20 id -> store_ok peer_store -> dw_ok (d_start id peer_store now).
Proof.
  intros Hid Hs. split; cbn; try done.
  - split; cbn; try done; by apply table_ok_new.
  - constructor.
  - intros r. rewrite lookup_empty, elem_of_nil, !elem_of_empty. split; [done|]. by intros [[? ?]|[?|?]].
Qed.

(** A task that waits ends in one step with each of the results its request can have. *)
Definition task_ends_with (ev : d_ev) (r : nat) (t : Task) (x : result DhtError ResponseOrError) (w : DWorld) : Prop :=
  d_steps ev w (set_dw (give_result r x (give_up_request (tk_tid t) (tk_addr t) (dw_dht w))) (delete r (dw_tasks w)) w).

(** C13: in every state a node gets into, no event makes it panic, and responses find their
    requests.  A response or error with the transaction id of a task that waits, from the
    address that was asked, is handed to exactly this task, which then no longer waits; so
    does the time-out give it its error and so does an error of the socket; nothing else
    changes.  Any other response changes no task: it is refused, or it removes the key that
    an aborted request left behind.  Every request made still waits, was aborted or has a
    result, and none has two; what is queued can be written.  A new request is made only
    while fewer than 65536 newer ones were made than the oldest that waits (the ids are of
    16 bits, and the code does not check it). *)
Theorem responses_matched (id : Id) (peer_store : PeerStore) (now0 : Z) (w : DWorld) :
  is_id 20 id -> store_ok peer_store -> d_reachable (d_start id peer_store now0) w ->
  (forall ev, d_guard w ev -> exists w', d_steps ev w w') /\
  (forall r t, dw_tasks w !! r = Some t ->
     (forall m x now token, answer_of m = Some x -> get_our_transaction_id m = Some (tk_tid t) ->
        task_ends_with (DvReceive now token m (tk_addr t)) r t (Ok x) w) /\
     task_ends_with (DvTimeout r) r t (Err ResponseTimeout) w /\
     task_ends_with (DvSendError (tk_tid t) (tk_addr t)) r t (Err SendError) w) /\
  (forall m x addr now token fuel, answer_of m = Some x ->
     (forall r t, dw_tasks w !! r = Some t -> get_our_transaction_id m = Some (tk_tid t) -> addr <> tk_addr t) ->
     (exists e, on_received_message fuel now token m addr (dw_dht w) = Some (Ret (dw_dht w, Err e))) \/
     (exists r tid, r ∈ dw_aborted w /\ ds_inflight (dw_dht w) !! (tid, addr) = Some r /\
        d_exec fuel (DvReceive now token m addr) w =
          Some (Ret (set_dw (give_result r (Ok x) (give_up_request tid addr (dw_dht w))) (dw_tasks w) w)))) /\
  (forall r, r ∈ dw_issued w <-> is_Some (dw_tasks w !! r) \/ r ∈ (ds_results (dw_dht w)).*1 \/ r ∈ dw_aborted w) /\
  (forall r, r ∈ (ds_results (dw_dht w)).*1 \/ r ∈ dw_aborted w -> dw_tasks w !! r = None) /\
  NoDup (ds_results (dw_dht w)).*1 /\
  Forall (fun m => exists b, message_to_bytes (ws_message m) = XOk b) (ds_out (dw_dht w)).
Proof.
  intros Hid Hs Hr. pose proof (dw_ok_reachable _ _ (dw_ok_start id peer_store now0 Hid Hs) Hr) as Hok. split_and!.
  - intros ev Hg. destruct (dw_ok_exec w ev Hok Hg) as (w' & E & _). by exists w'.
  - intros r t Ht. destruct (dk_task w Hok r t Ht) as (_ & _ & _ & Ei). split_and!.
    + intros m x now token Hx Hg. exists 0%nat. intros fuel _.
      pose proof (receive_response w fuel now token m (tk_addr t) x Hok Hx) as Hrr. rewrite Hg, Ei in Hrr. by destruct Hrr as [_ ->].
    + apply d_steps_now. intros fuel. cbn. by rewrite Ht.
    + apply d_steps_now. intros fuel. cbn [d_exec]. unfold on_send_error. rewrite Ei. cbn zeta.
      by rewrite (waiting_new (dw_dht w) _ r (Err SendError)) by (done || apply Hok).
  - intros m x addr now token fuel Hx Hno. pose proof (receive_response w fuel now token m addr x Hok Hx) as Hrr.
    destruct (get_our_transaction_id m) as [tid|]; [|left; by eexists].
    destruct (ds_inflight (dw_dht w) !! (tid, addr)) as [r|] eqn:Ei; [|left; by eexists].
    destruct (dk_inflight w Hok _ _ Ei) as [(t & Ht & [= -> ->])|[Hab Hn]]; [by destruct (Hno r t Ht eq_refl)|].
    right. exists r, tid. destruct Hrr as [_ ->]. by rewrite delete_id.
  - apply (dk_issued w Hok).
  - intros r [?|?]; [by apply (dk_done w Hok)|by apply (dk_aborted w Hok)].
  - apply Hok.
  - eapply list.Forall_impl; [apply (do_out _ (dk_dht w Hok))|]. intros m Hm. eexists. by apply (@message_written atoi_ref _).
Qed.

(** ** Examples *)

Definition ex_dht_id : Id := replicate 20 9.
Definition ex_dht : DWorld := d_start ex_dht_id (PeerStore_new ex_dht_id) 0.
Definition ex_addr : SocketAddr := SockV4 5 6.

Lemma ex_store_ok : store_ok (PeerStore_new ex_dht_id).
Proof. split; cbn; [lia|]. intros h l a. by rewrite lookup_empty. Qed.

Lemma ex_dht_id_ok : is_id 20 ex_dht_id.
Proof. split; [done|]. apply Forall_replicate. unfold is_uint. lia. Qed.

Lemma ex_addr_valid : sock_valid ex_addr.
Proof. split; unfold is_uint; lia. Qed.

Definition ex_get_peers : Message := mkDhtMessage (MkGetPeersRequest (mkGetPeers ex_dht_id ex_dht_id None)) [1; 2] None None.

Lemma queries_answered_witness :
  exists s' r, answered (dw_dht ex_dht) s' ex_get_peers ex_addr r /\ rs_token r = Some [1; 2; 3; 4] /\
    mkToken [1; 2; 3; 4] ex_dht_id ex_addr ∈ ps_tokens (ds_peer_store s').
Proof.
  destruct (queries_answered (dw_dht ex_dht) ex_get_peers ex_addr 7 [1; 2; 3; 4]) as (k & s' & r & _ & Ha & Hq).
  - apply (dk_dht ex_dht). apply dw_ok_start; [apply ex_dht_id_ok|apply ex_store_ok].
  - reflexivity.
  - split; [unfold short; cbn; lia|apply ex_dht_id_ok].
  - apply ex_addr_valid.
  - reflexivity.
  - exists s', r. split; [exact Ha|]. destruct Hq as (_ & _ & Ht & Htok & _). by split.
Defined.

(** A ping is sent and its response comes. *)
Definition ex_pinged : DWorld :=
  match d_exec 0 (DvRequest 3 RqPing ex_addr) ex_dht with Some (Ret w) => w | _ => ex_dht end.

Lemma ex_pinged_reachable : d_reachable ex_dht ex_pinged.
Proof.
  apply (dr_step _ ex_dht (DvRequest 3 RqPing ex_addr) _ 0); [apply dr_start| |intros fuel _; reflexivity].
  split_and!; [apply not_elem_of_empty|exact I|apply ex_addr_valid|]. intros r t. cbn. by rewrite lookup_empty.
Qed.

Definition ex_pong : Message := mkDhtMessage (MkResponse (Response_default ex_dht_id)) [0; 0] None None.

Lemma responses_matched_witness :
  (exists w', d_steps (DvReceive 8 [] ex_pong ex_addr) ex_pinged w' /\
    ds_results (dw_dht w') = [(3%nat, Ok (RoResponse (Response_default ex_dht_id)))]) /\
  (exists w', d_steps (DvTimeout 3) ex_pinged w' /\ ds_results (dw_dht w') = [(3%nat, Err ResponseTimeout)]).
Proof.
  destruct (responses_matched ex_dht_id (PeerStore_new ex_dht_id) 0 ex_pinged ex_dht_id_ok ex_store_ok ex_pinged_reachable)
    as (_ & Hr & _).
  destruct (Hr 3%nat (mkTask 0 ex_addr 0) eq_refl) as (Hrecv & Htime & _). split.
  - eexists. split; [apply (Hrecv ex_pong (RoResponse (Response_default ex_dht_id))); reflexivity|reflexivity].
  - eexists. split; [exact Htime|reflexivity].
Defined.

(** The key of an aborted request stays. *)
Lemma aborted_request_leaves_key :
  exists w, d_exec 0 (DvAbort 3) ex_pinged = Some (Ret w) /\ dw_tasks w = ∅ /\
    ds_inflight (dw_dht w) !! (0, ex_addr) = Some 3%nat.
Proof. eexists. split_and!; reflexivity. Qed.
