(* ===== verification/DhtLookup.v ===== *)
(** * Recursive lookups in the DHT ([dht::dht], [RecursiveRequest])

    A lookup asks nodes for nodes closer to a target, and those again, down to a depth.
    It remembers the nodes it found, best ones first, up to a limit, and asks no node
    twice within a minute.  The bootstrap and the refresh of buckets wait until nothing
    is left to ask; the search for peers goes on forever. *)

From stdpp Require Import base tactics option list list_numbers numbers decidable countable gmap fin_maps sorting.
From Stdlib Require Import ZArith Lia.
From S2P Require Import Prelude Net HashId CompactIp RoutingTable Bencode BencodeTypes Extended DhtMessage PeerStore Dht.
Open Scope Z_scope.

Record MaybeUsefulNode := mkUseful {
  un_id : Id;
  un_addr : SocketAddr;
  un_last_request : Z;
  un_last_response : option Z;
  un_errors_in_a_row : nat;
  un_returned_peers : bool
}.

(** [lc_peer_receiver]: the peers that are found are taken by somebody. *)
Record LookupConfig := mkLookupConfig {
  lc_max_depth : nat;
  lc_useful_nodes_limit : nat;
  lc_info_hash : Id;
  lc_peer_receiver : bool
}.

(** [iter_mut().find(..)] and what is done with what it finds. *)
Fixpoint update_node (p : MaybeUsefulNode -> bool) (f : MaybeUsefulNode -> MaybeUsefulNode) (l : list MaybeUsefulNode)
    : list MaybeUsefulNode * bool :=
  match l with
  | [] => ([], false)
  | n :: l => if p n then (f n :: l, true) else let r := update_node p f l in (n :: r.1, r.2)
  end.

Definition addr_is (addr : SocketAddr) (n : MaybeUsefulNode) : bool := bool_decide (un_addr n = addr).

Definition mark_node_error (addr : SocketAddr) (l : list MaybeUsefulNode) : list MaybeUsefulNode * bool :=
  update_node (addr_is addr)
    (fun n => mkUseful (un_id n) (un_addr n) (un_last_request n) (un_last_response n) (S (un_errors_in_a_row n)) (un_returned_peers n)) l.

Definition returned_peers (x : ResponseOrError) : bool :=
  match x with
  | RoResponse r => match rs_values r with Some c => negb (bool_decide (c = [])) | None => false end
  | RoError _ => false
  end.

Definition mark_node_responded (now : Z) (addr : SocketAddr) (response : ResponseOrError) (l : list MaybeUsefulNode)
    : list MaybeUsefulNode * bool :=
  update_node (addr_is addr)
    (fun n => mkUseful (un_id n) (un_addr n) (un_last_request n) (Some now) 0 (returned_peers response)) l.

Definition SECS_60 : Z := 60 * 1000000000.

(** [Instant - Instant], which is not negative. *)
Definition since (now t : Z) : Z := Z.max 0 (now - t).

Definition bool_rank (b : bool) : Z := if b then 0 else 1.
Definition responded (n : MaybeUsefulNode) : bool := match un_last_response n with Some _ => true | None => false end.

(** The comparison of the keys: nodes that returned peers first, then those that
    responded, then the closer ones, then the ones with the freshest response. *)
Definition useful_leb (info_hash : Id) (now : Z) (a b : MaybeUsefulNode) : bool :=
  let da := distance (un_id a) info_hash in
  let db := distance (un_id b) info_hash in
  let fresh :=
    match un_last_response a, un_last_response b with
    | Some ra, Some rb => since now ra <=? since now rb
    | _, None => true
    | None, Some _ => false
    end in
  let by_distance := if bool_decide (da = db) then fresh else id_leb da db in
  if bool_rank (un_returned_peers a) =? bool_rank (un_returned_peers b) then
    if bool_rank (responded a) =? bool_rank (responded b) then by_distance
    else bool_rank (responded a) <? bool_rank (responded b)
  else bool_rank (un_returned_peers a) <? bool_rank (un_returned_peers b).

Definition find_node (id : Id) (l : list MaybeUsefulNode) : option MaybeUsefulNode :=
  list_find (fun n => un_id n = id) l ≫= fun p => Some p.2.

Definition should_request_node (cfg : LookupConfig) (node_id : Id) (addr : SocketAddr) (depth : nat) (now : Z)
    (closest_nodes : list MaybeUsefulNode) : list MaybeUsefulNode * bool :=
  if (lc_max_depth cfg <=? depth)%nat then (closest_nodes, false)
  else
    match find_node node_id closest_nodes with
    | Some existing =>
        if SECS_60 <? since now (un_last_request existing) then
          ((update_node (fun n => bool_decide (un_id n = node_id))
              (fun n => mkUseful (un_id n) (un_addr n) now (un_last_response n) (un_errors_in_a_row n) (un_returned_peers n))
              closest_nodes).1, true)
        else (closest_nodes, false)
    | None =>
        let nodes := sort_by (useful_leb (lc_info_hash cfg) now) (closest_nodes ++ [mkUseful node_id addr now None 0 false]) in
        if (lc_useful_nodes_limit cfg <? length nodes)%nat then
          match last nodes with
          | Some popped => (removelast nodes, negb (bool_decide (un_id popped = node_id)))
          | None => (nodes, true)
          end
        else (nodes, true)
    end.

(** ** One request of a lookup *)

(** The nodes in a response, of the family of the node that was asked. *)
Definition response_nodes (r : Response) (addr : SocketAddr) : outcome (list (Id * SocketAddr)) :=
  n4 ← match rs_nodes r with
       | Some b => compact_iter (Node SocketAddrV4) b
       | None => Ret []
       end;
  n6 ← match rs_nodes6 r with
       | Some b => compact_iter (Node SocketAddrV6) b
       | None => Ret []
       end;
  let all := ((fun n => (nd_id n, s4_sock (nd_addr n))) <$> n4) ++ ((fun n => (nd_id n, s6_sock (nd_addr n))) <$> n6) in
  Ret (filter (fun n => is_v4 n.2 = is_v4 addr) all).

(** What is still to be asked, and at what depth. *)
Record Job := mkJob {
  jb_id : option Id;
  jb_addr : SocketAddr;
  jb_depth : nat
}.

(** [lk_queue] is [node_tx], [lk_peers] what was sent to [peer_tx]. *)
Record Lookup := mkLookup {
  lk_useful_nodes : list MaybeUsefulNode;
  lk_queue : list Job;
  lk_running : list Job;
  lk_peers : list SocketAddr;
  lk_successes : nat;
  lk_errors : nat
}.

(** The loop over the nodes of a response. *)
Fixpoint enqueue_nodes (cfg : LookupConfig) (now : Z) (depth : nat) (nodes : list (Id * SocketAddr))
    (useful : list MaybeUsefulNode) (queue : list Job) : list MaybeUsefulNode * list Job :=
  match nodes with
  | [] => (useful, queue)
  | (id, addr) :: nodes =>
      let '(useful, should_request) := should_request_node cfg id addr depth now useful in
      enqueue_nodes cfg now depth nodes useful (if should_request then queue ++ [mkJob (Some id) addr (S depth)] else queue)
  end.

(** [request_one], from its response on: the lookup after it and whether it succeeded. *)
Definition request_one_finish (cfg : LookupConfig) (now : Z) (j : Job) (response : result DhtError ResponseOrError) (lk : Lookup)
    : outcome (Lookup * result DhtError ()) :=
  let useful :=
    match response with
    | Ok x => (mark_node_responded now (jb_addr j) x (lk_useful_nodes lk)).1
    | Err _ => lk_useful_nodes lk
    end in
  match response with
  | Ok (RoError _) =>
      Ret (mkLookup useful (lk_queue lk) (lk_running lk) (lk_peers lk) (lk_successes lk) (lk_errors lk), Err ErrorResponse)
  | Err e =>
      Ret (mkLookup (mark_node_error (jb_addr j) useful).1 (lk_queue lk) (lk_running lk) (lk_peers lk) (lk_successes lk)
             (lk_errors lk), Err e)
  | Ok (RoResponse r) =>
      if negb (lc_peer_receiver cfg) && negb (bool_decide (default [] (rs_values r) = [])) then
        Ret (mkLookup useful (lk_queue lk) (lk_running lk) (lk_peers lk) (lk_successes lk) (lk_errors lk), Err ReceiverDead)
      else
      nodes ← response_nodes r (jb_addr j);
      let '(useful, queue) := enqueue_nodes cfg now (jb_depth j) nodes useful (lk_queue lk) in
      Ret (mkLookup useful queue (lk_running lk) (lk_peers lk ++ default [] (rs_values r)) (lk_successes lk) (lk_errors lk), Ok ())
  end.

(** ** [find_node_for_routing_table] *)

(** Nobody takes the peers of a search for nodes. *)
Definition find_node_config (target : Id) : LookupConfig := mkLookupConfig 4 32 target false.
Definition get_peers_config (info_hash : Id) : LookupConfig := mkLookupConfig 4 256 info_hash true.

Definition lookup_new (addrs : list SocketAddr) : Lookup := mkLookup [] [] ((fun a => mkJob None a 0) <$> addrs) [] 0 0.

(** A node that was found is asked. *)
Definition lookup_next (lk : Lookup) : option Lookup :=
  match lk_queue lk with
  | [] => None
  | j :: queue =>
      Some (mkLookup (lk_useful_nodes lk) queue (lk_running lk ++ [j]) (lk_peers lk) (lk_successes lk) (lk_errors lk))
  end.

(** The request at position [i] ends. *)
Definition lookup_finish (cfg : LookupConfig) (now : Z) (i : nat) (response : result DhtError ResponseOrError) (lk : Lookup)
    : outcome (option Lookup) :=
  match lk_running lk !! i with
  | None => Ret None
  | Some j =>
      let lk := mkLookup (lk_useful_nodes lk) (lk_queue lk) (delete i (lk_running lk)) (lk_peers lk) (lk_successes lk) (lk_errors lk) in
      r ← request_one_finish cfg now j response lk;
      let '(lk, res) := r in
      Ret (Some (mkLookup (lk_useful_nodes lk) (lk_queue lk) (lk_running lk) (lk_peers lk)
             (match res with Ok _ => S (lk_successes lk) | Err _ => lk_successes lk end)
             (match res with Ok _ => lk_errors lk | Err _ => S (lk_errors lk) end)))
  end.

(** What the lookup returns when nothing is left. *)
Definition lookup_result (lk : Lookup) : result DhtError () :=
  if (lk_successes lk =? 0)%nat then Err (NoSuccessfulLookups (lk_errors lk)) else Ok ().

(** ** Callbacks *)

(** [RecursiveRequestCallbacksFindNodes]. *)
Definition find_nodes_on_start (now1 now2 : Z) (clock : nat -> Z * Z) (target_node : Id) (addr : SocketAddr) (s : DhtState)
    : run DhtState :=
  r <~ rt_add_node TABLE_FUEL now1 clock (get_table_for_addr addr s) target_node addr;
  let s := set_table_for_addr addr r.1 s in
  match r.2 with
  | WasExisting | ReplacedBad _ | Added => with_table addr (OpRequest target_node now2) s
  | Ignored => run_ret s
  end.

Definition find_nodes_on_end (now : Z) (target_node : Id) (addr : SocketAddr) (resp : result DhtError ResponseOrError) (s : DhtState)
    : run DhtState :=
  match resp with
  | Ok _ => with_table addr (OpResponse target_node now) s
  | Err _ => with_table addr (OpError target_node) s
  end.

Definition MIN_DISTANCE_TO_ANNOUNCE : Id := [0; 0] ++ replicate 18 255.

(** [RecursiveRequestCallbacksGetPeers]. *)
Definition get_peers_on_end (min_distance : Id) (announce_port : option Z) (info_hash : Id) (target_node : Id) (addr : SocketAddr)
    (resp : result DhtError ResponseOrError) (s : DhtState) : DhtState :=
  match announce_port, resp with
  | Some port, Ok (RoResponse r) =>
      match rs_token r with
      | Some token =>
          if id_ltb min_distance (distance info_hash target_node) then s else announce_request info_hash token port addr s
      | None => s
      end
  | _, _ => s
  end.

(** [get_peers_root]: the best eight nodes are asked. *)
Definition get_peers_root (fuel : nat) (info_hash : Id) (now : Z) (rt : RoutingTable) (lk : Lookup) : option (Lookup * nat) :=
  nodes ← sorted_by_distance_from fuel rt info_hash now;
  let jobs := (fun n => mkJob (Some (rn_id n)) (rn_addr n) 0) <$> take 8 nodes in
  Some (mkLookup (lk_useful_nodes lk) (lk_queue lk ++ jobs) (lk_running lk) (lk_peers lk) (lk_successes lk) (lk_errors lk),
        length jobs).

(** ** The nodes that are remembered *)

Record useful_ok (cfg : LookupConfig) (l : list MaybeUsefulNode) : Prop := {
  uo_nodup : NoDup (un_id <$> l);
  uo_limit : (length l <= lc_useful_nodes_limit cfg)%nat
}.

Lemma update_node_ids p f l : (forall n, un_id (f n) = un_id n) -> un_id <$> (update_node p f l).1 = un_id <$> l.
Proof.
  intros Hf. induction l as [|n l IH]; [done|]. cbn. destruct (p n); cbn; [by rewrite Hf|by rewrite IH].
Qed.

Lemma useful_ok_ids cfg l l' : un_id <$> l' = un_id <$> l -> useful_ok cfg l -> useful_ok cfg l'.
Proof.
  intros E [Hn Hl]. apply (f_equal length) in E as El. rewrite !length_fmap in El. split; [by rewrite E|lia].
Qed.

Lemma find_node_None id l : find_node id l = None -> id ∉ un_id <$> l.
Proof.
  unfold find_node. destruct (list_find _ l) as [[i n]|] eqn:E; [done|]. intros _ (n & -> & Hn)%list_elem_of_fmap.
  apply list_find_None in E. by eapply list.Forall_forall in E.
Qed.

Lemma removelast_prefix {A} (l : list A) x : last l = Some x -> l = removelast l ++ [x].
Proof. intros (l' & ->)%last_Some. by rewrite removelast_last. Qed.

Lemma should_request_ok cfg id addr depth now l :
  useful_ok cfg l ->
  useful_ok cfg (should_request_node cfg id addr depth now l).1 /\
  ((should_request_node cfg id addr depth now l).2 = true -> (depth < lc_max_depth cfg)%nat).
Proof.
  intros Hok. unfold should_request_node. destruct (Nat.leb_spec (lc_max_depth cfg) depth); [by split|].
  destruct (find_node id l) as [ex|] eqn:Ef.
  { destruct (SECS_60 <? _); [|by split]. split; [|by intros]. eapply useful_ok_ids; [|exact Hok]. by apply update_node_ids. }
  apply find_node_None in Ef. set (nodes := sort_by _ _).
  assert (nodes ≡ₚ l ++ [mkUseful id addr now None 0 false]) as Hp by apply sort_by_perm.
  assert (NoDup (un_id <$> nodes)) as Hnd.
  { rewrite Hp, fmap_app. apply NoDup_app. split_and!; [apply Hok| |apply NoDup_singleton].
    intros x Hx ->%list_elem_of_singleton. done. }
  assert (length nodes = S (length l)) as Hlen by (rewrite Hp, length_app; cbn; lia).
  pose proof (uo_limit _ _ Hok) as Hlim.
  destruct (Nat.ltb_spec (lc_useful_nodes_limit cfg) (length nodes)).
  - destruct (last nodes) as [popped|] eqn:El.
    + split; [|by intros]. apply removelast_prefix in El. rewrite El in Hnd, Hlen. cbn [fst].
      rewrite fmap_app in Hnd. apply NoDup_app in Hnd as (Hnd & _ & _). rewrite length_app in Hlen. cbn in Hlen.
      split; [done|lia].
    + apply last_None in El. rewrite El in Hlen. done.
  - split; [|by intros]. cbn [fst]. split; [done|lia].
Qed.

(** ** Lookups end *)

(** What a request at [m] levels above the deepest costs at most, when a response has
    at most [K] nodes. *)
Fixpoint weight (K m : nat) : nat := match m with O => 1 | S m => 1 + K * S (weight K m) end.

Definition jobs_weight (K max_depth extra : nat) (l : list Job) : nat :=
  foldr (fun j acc => extra + weight K (max_depth - jb_depth j) + acc)%nat 0%nat l.

Definition measure (K : nat) (cfg : LookupConfig) (lk : Lookup) : nat :=
  (jobs_weight K (lc_max_depth cfg) 0 (lk_running lk) + jobs_weight K (lc_max_depth cfg) 1 (lk_queue lk))%nat.

Lemma jobs_weight_cons K m e j l :
  jobs_weight K m e (j :: l) = (e + weight K (m - jb_depth j) + jobs_weight K m e l)%nat.
Proof. done. Qed.

Lemma jobs_weight_app K m e a b : jobs_weight K m e (a ++ b) = (jobs_weight K m e a + jobs_weight K m e b)%nat.
Proof. induction a as [|j a IH]; [done|]. cbn [app]. rewrite !jobs_weight_cons, IH. lia. Qed.

Lemma jobs_weight_delete K m e l i j :
  l !! i = Some j -> jobs_weight K m e l = (e + weight K (m - jb_depth j) + jobs_weight K m e (delete i l))%nat.
Proof.
  revert i. induction l as [|x l IH]; intros [|i] Hi; try done; cbn in Hi; [by injection Hi as ->|].
  change (delete (S i) (x :: l)) with (x :: delete i l). rewrite !jobs_weight_cons, (IH i Hi). lia.
Qed.

Lemma weight_pos K m : (1 <= weight K m)%nat.
Proof. destruct m; cbn; lia. Qed.

(** The nodes of a response: at most one job each, one level deeper. *)
Lemma enqueue_nodes_ok K cfg now depth nodes useful queue :
  useful_ok cfg useful ->
  let '(useful', queue') := enqueue_nodes cfg now depth nodes useful queue in
  useful_ok cfg useful' /\
  (jobs_weight K (lc_max_depth cfg) 1 queue' <= jobs_weight K (lc_max_depth cfg) 1 queue +
     (if (depth <? lc_max_depth cfg)%nat then length nodes * S (weight K (lc_max_depth cfg - S depth)) else 0))%nat.
Proof.
  revert useful queue. induction nodes as [|[id addr] nodes IH]; intros useful queue Hok; cbn [enqueue_nodes]; [split; [done|lia]|].
  destruct (should_request_ok cfg id addr depth now useful Hok) as [Hok' Hd].
  destruct (should_request_node cfg id addr depth now useful) as [useful1 b]. cbn [fst snd] in *.
  specialize (IH useful1 (if b then queue ++ [mkJob (Some id) addr (S depth)] else queue) Hok').
  destruct (enqueue_nodes cfg now depth nodes useful1 _) as [useful2 queue2]. destruct IH as [Hok2 Hw]. split; [done|].
  destruct b.
  - specialize (Hd eq_refl). rewrite jobs_weight_app, jobs_weight_cons in Hw. cbn [jb_depth jobs_weight foldr] in Hw.
    destruct (Nat.ltb_spec depth (lc_max_depth cfg)); [|lia]. cbn [length]. lia.
  - destruct (depth <? lc_max_depth cfg)%nat; cbn [length]; lia.
Qed.

(** A response as it fits into a datagram: whole entries, at most 16384 bytes. *)
Definition DATAGRAM : nat := 16384.
Definition MAX_NODES : nat := DATAGRAM / 26 + DATAGRAM / 38.

Definition nodes_ok (A : Type) `{CompactSerializeFixedLen A} (b : bytes) : Prop :=
  is_bytes b /\ list_accept A b = true /\ (length b <= DATAGRAM)%nat.

Definition datagram_ok (x : result DhtError ResponseOrError) : Prop :=
  match x with
  | Ok (RoResponse r) => opt_ok (nodes_ok (Node SocketAddrV4)) (rs_nodes r) /\ opt_ok (nodes_ok (Node SocketAddrV6)) (rs_nodes6 r)
  | _ => True
  end.

Lemma nodes_iter (A : Type) `{CompactLaws A} (o : option bytes) :
  opt_ok (nodes_ok A) o ->
  exists ns, match o with Some b => compact_iter A b | None => Ret [] end = Ret ns /\ (length ns * fixed_len A <= DATAGRAM)%nat.
Proof.
  intros Ho. destruct o as [b|]; [|exists []; split; [done|cbn; lia]]. destruct (Ho b eq_refl) as (Hb & Ha & Hl).
  unfold list_accept in Ha. destruct (compact_deserialize A b) as [b'|] eqn:Ed; [|done].
  assert (b' = b) as -> by (unfold compact_deserialize in Ed; destruct (negb _); [done|by injection Ed]).
  destruct (compact_list_decode b Hb Ed) as (ns & Ei & Hv & En). exists ns. split; [done|].
  destruct (compact_list_encode ns Hv) as (b'' & En' & _ & Hl' & _). rewrite En in En'. injection En' as <-. lia.
Qed.

Lemma response_nodes_ok r addr :
  datagram_ok (Ok (RoResponse r)) -> exists nodes, response_nodes r addr = Ret nodes /\ (length nodes <= MAX_NODES)%nat.
Proof.
  intros [H4 H6]. destruct (nodes_iter (Node SocketAddrV4) _ H4) as (n4 & E4 & L4).
  destruct (nodes_iter (Node SocketAddrV6) _ H6) as (n6 & E6 & L6). unfold response_nodes. rewrite E4. cbn [mbind outcome_bind].
  rewrite E6. cbn [mbind outcome_bind]. eexists. split; [done|]. etransitivity; [apply length_filter|].
  rewrite length_app, !length_fmap. unfold MAX_NODES.
  change (fixed_len (Node SocketAddrV4)) with 26%nat in L4. change (fixed_len (Node SocketAddrV6)) with 38%nat in L6.
  apply Nat.add_le_mono; apply Nat.div_le_lower_bound; lia.
Qed.

(** A request ends: the work left gets less, and its nodes are remembered. *)
Lemma lookup_finish_ok cfg now i j x lk :
  useful_ok cfg (lk_useful_nodes lk) -> datagram_ok x -> lk_running lk !! i = Some j ->
  exists lk', lookup_finish cfg now i x lk = Ret (Some lk') /\ useful_ok cfg (lk_useful_nodes lk') /\
    (measure MAX_NODES cfg lk' < measure MAX_NODES cfg lk)%nat /\
    (lk_successes lk' + lk_errors lk' = S (lk_successes lk + lk_errors lk))%nat /\
    lk_running lk' = delete i (lk_running lk).
Proof.
  intros Hok Hx Hj. unfold lookup_finish. rewrite Hj. unfold request_one_finish. cbn [lk_useful_nodes lk_queue lk_running lk_peers lk_successes lk_errors].
  pose proof (jobs_weight_delete MAX_NODES (lc_max_depth cfg) 0 _ i j Hj) as Hw.
  pose proof (weight_pos MAX_NODES (lc_max_depth cfg - jb_depth j)) as Hwp.
  assert (forall y, useful_ok cfg (mark_node_responded now (jb_addr j) y (lk_useful_nodes lk)).1) as Hmr.
  { intros y. eapply useful_ok_ids; [|exact Hok]. by apply update_node_ids. }
  assert (useful_ok cfg (mark_node_error (jb_addr j) (lk_useful_nodes lk)).1) as Hme.
  { eapply useful_ok_ids; [|exact Hok]. by apply update_node_ids. }
  unfold measure.
  destruct x as [[r|er]|e].
  - destruct (_ && _).
    { eexists. split; [done|]. cbn [lk_useful_nodes lk_queue lk_running lk_successes lk_errors]. split_and!; [apply Hmr|lia|lia|done]. }
    destruct (response_nodes_ok r (jb_addr j) Hx) as (nodes & -> & Hn). cbn [mbind outcome_bind].
    pose proof (enqueue_nodes_ok MAX_NODES cfg now (jb_depth j) nodes _ (lk_queue lk) (Hmr (RoResponse r))) as He.
    destruct (enqueue_nodes cfg now (jb_depth j) nodes _ (lk_queue lk)) as [useful' queue']. destruct He as [Hu Hq].
    eexists. split; [done|]. cbn [lk_useful_nodes lk_queue lk_running lk_successes lk_errors]. split_and!; [done| |lia|done].
    destruct (Nat.ltb_spec (jb_depth j) (lc_max_depth cfg)) as [Hd|]; [|lia].
    replace (lc_max_depth cfg - jb_depth j)%nat with (S (lc_max_depth cfg - S (jb_depth j))) in Hw by lia. cbn [weight] in Hw.
    assert (length nodes * S (weight MAX_NODES (lc_max_depth cfg - S (jb_depth j))) <=
      MAX_NODES * S (weight MAX_NODES (lc_max_depth cfg - S (jb_depth j))))%nat by (by apply Nat.mul_le_mono_r). lia.
  - eexists. split; [done|]. cbn [lk_useful_nodes lk_queue lk_running lk_successes lk_errors]. split_and!; [apply Hmr|lia|lia|done].
  - eexists. split; [done|]. cbn [lk_useful_nodes lk_queue lk_running lk_successes lk_errors]. split_and!; [exact Hme|lia|lia|done].
Qed.

(** The nodes of a response are asked at one level deeper, and at most at the deepest. *)
Definition depth_ok (cfg : LookupConfig) (l : list Job) : Prop := Forall (fun j => (jb_depth j <= lc_max_depth cfg)%nat) l.

Lemma enqueue_nodes_depth cfg now depth nodes useful queue :
  useful_ok cfg useful -> depth_ok cfg queue -> depth_ok cfg (enqueue_nodes cfg now depth nodes useful queue).2.
Proof.
  revert useful queue. induction nodes as [|[id addr] nodes IH]; intros useful queue Hok Hq; cbn [enqueue_nodes]; [done|].
  destruct (should_request_ok cfg id addr depth now useful Hok) as [Hok' Hd].
  destruct (should_request_node cfg id addr depth now useful) as [useful1 b]. cbn [fst snd] in *. apply IH; [done|].
  destruct b; [|done]. apply Forall_app. split; [done|]. apply Forall_singleton. cbn. specialize (Hd eq_refl). lia.
Qed.

Lemma lookup_finish_depth cfg now i x lk lk' :
  useful_ok cfg (lk_useful_nodes lk) -> depth_ok cfg (lk_queue lk) -> lookup_finish cfg now i x lk = Ret (Some lk') ->
  depth_ok cfg (lk_queue lk').
Proof.
  intros Hok Hq. unfold lookup_finish, request_one_finish. destruct (lk_running lk !! i) as [j|]; [|done].
  cbn [lk_useful_nodes lk_queue lk_running lk_peers lk_successes lk_errors].
  destruct x as [[r|er]|e]; [|by intros [= <-]|by intros [= <-]].
  destruct (_ && _); [by intros [= <-]|]. destruct (response_nodes r (jb_addr j)) as [nodes|]; [|done]. cbn [mbind outcome_bind].
  assert (useful_ok cfg (mark_node_responded now (jb_addr j) (RoResponse r) (lk_useful_nodes lk)).1) as Hmr
    by (eapply useful_ok_ids; [|exact Hok]; by apply update_node_ids).
  pose proof (enqueue_nodes_depth cfg now (jb_depth j) nodes _ _ Hmr Hq) as He.
  destruct (enqueue_nodes cfg now (jb_depth j) nodes _ (lk_queue lk)) as [useful' queue']. by intros [= <-].
Qed.

(** The loop: a node that was found is asked, or a request ends, in any order. *)
Inductive lookup_step (cfg : LookupConfig) : Lookup -> Lookup -> Prop :=
| ls_next lk lk' : lookup_next lk = Some lk' -> lookup_step cfg lk lk'
| ls_finish now i x lk lk' : datagram_ok x -> lookup_finish cfg now i x lk = Ret (Some lk') -> lookup_step cfg lk lk'.

Record lookup_ok (cfg : LookupConfig) (budget asked n : nat) (lk : Lookup) : Prop := {
  lo_useful : useful_ok cfg (lk_useful_nodes lk);
  lo_depth : depth_ok cfg (lk_queue lk ++ lk_running lk);
  lo_measure : (n + measure MAX_NODES cfg lk <= budget)%nat;
  lo_count : (n + asked = length (lk_running lk) + 2 * (lk_successes lk + lk_errors lk))%nat
}.

Lemma jobs_weight_initial K m addrs : jobs_weight K m 0 ((fun a => mkJob None a 0) <$> addrs) = (length addrs * weight K m)%nat.
Proof.
  induction addrs as [|a addrs IH]; [done|]. cbn [fmap list_fmap length]. rewrite jobs_weight_cons, IH. cbn [jb_depth].
  rewrite Nat.sub_0_r. lia.
Qed.

Lemma lookup_ok_new cfg addrs :
  lookup_ok cfg (length addrs * weight MAX_NODES (lc_max_depth cfg)) (length addrs) 0 (lookup_new addrs).
Proof.
  split.
  - split; [apply NoDup_nil_2|cbn; lia].
  - apply Forall_fmap, Forall_true. cbn. lia.
  - unfold measure. cbn [lookup_new lk_running lk_queue]. rewrite jobs_weight_initial. cbn [jobs_weight foldr]. lia.
  - cbn. rewrite length_fmap. lia.
Qed.

Lemma lookup_ok_next cfg budget asked n lk lk' :
  lookup_ok cfg budget asked n lk -> lookup_next lk = Some lk' -> lookup_ok cfg budget asked (S n) lk'.
Proof.
  intros [Hu Hd Hm Hc]. unfold lookup_next, measure in *. destruct (lk_queue lk) as [|j queue]; [done|]. intros [= <-].
  rewrite jobs_weight_cons in Hm. split; cbn [lk_useful_nodes lk_queue lk_running lk_successes lk_errors]; [done| | |].
  - unfold depth_ok in *. cbn [app] in Hd. rewrite Forall_cons, Forall_app in Hd. rewrite !Forall_app, Forall_singleton. tauto.
  - unfold measure. cbn [lk_queue lk_running]. rewrite jobs_weight_app, jobs_weight_cons. cbn [jobs_weight foldr] in *. lia.
  - rewrite length_app. cbn [length]. lia.
Qed.

Lemma lookup_ok_finish cfg budget asked n now i x lk lk' :
  lookup_ok cfg budget asked n lk -> datagram_ok x -> lookup_finish cfg now i x lk = Ret (Some lk') ->
  lookup_ok cfg budget asked (S n) lk'.
Proof.
  intros [Hu Hd Hm Hc] Hx Hf. apply Forall_app in Hd as [Hq Hr].
  destruct (lk_running lk !! i) as [j|] eqn:Hj; [|unfold lookup_finish in Hf; by rewrite Hj in Hf].
  pose proof (lookup_finish_depth cfg now i x lk lk' Hu Hq Hf) as Hq'.
  destruct (lookup_finish_ok cfg now i j x lk Hu Hx Hj) as (lk1 & Hf' & Hu' & Hm' & Hc' & Hr').
  rewrite Hf in Hf'. injection Hf' as <-. split; [done| |lia|].
  - apply Forall_app. split; [done|]. rewrite Hr'. by apply Forall_delete.
  - rewrite Hr'. apply lookup_lt_Some in Hj as Hl. rewrite length_delete by done. cbn in Hc |- *. lia.
Qed.

Lemma lookup_ok_steps cfg budget asked n0 n lk lk' :
  lookup_ok cfg budget asked n0 lk -> nsteps (lookup_step cfg) n lk lk' -> lookup_ok cfg budget asked (n0 + n) lk'.
Proof.
  intros Hok Hs. revert n0 Hok. induction Hs as [lk|n lk lk1 lk' Hst Hs IH]; intros n0 Hok; [by rewrite Nat.add_0_r|].
  replace (n0 + S n)%nat with (S n0 + n)%nat by lia. apply IH. destruct Hst as [lk lk1 Hn|now i x lk lk1 Hx Hf].
  - by eapply lookup_ok_next.
  - by eapply lookup_ok_finish.
Qed.

(** When the loop can make no step, nothing is waiting or running. *)
Lemma lookup_stuck cfg lk :
  useful_ok cfg (lk_useful_nodes lk) -> (forall lk', ~ lookup_step cfg lk lk') -> lk_queue lk = [] /\ lk_running lk = [].
Proof.
  intros Hu Hno. split.
  - destruct (lk_queue lk) as [|j q] eqn:E; [done|]. exfalso. eapply Hno, ls_next. unfold lookup_next. by rewrite E.
  - destruct (lk_running lk) as [|j q] eqn:E; [done|]. exfalso.
    destruct (lookup_finish_ok cfg 0 0 j (Err ReceiverDead) lk Hu) as (lk' & Hf & _); [done|by rewrite E|].
    apply (Hno lk'), (ls_finish _ 0 0 (Err ReceiverDead)); done.
Qed.

(** C35: [find_node_for_routing_table] ends, whatever nodes answer in datagrams of at most
    16384 bytes: the loop makes at most a fixed number of steps for each initial address,
    no request panics, no node is asked below the fourth level, at most 32 distinct nodes
    are remembered, and when nothing is left every request has been counted once as a
    success or an error; it is [Ok] exactly when one succeeded. *)
Theorem lookup_terminates (target : Id) (addrs : list SocketAddr) (n : nat) (lk : Lookup) :
  nsteps (lookup_step (find_node_config target)) n (lookup_new addrs) lk ->
  (n <= length addrs * weight MAX_NODES 4)%nat /\
  (forall now i j x, lk_running lk !! i = Some j -> datagram_ok x ->
     exists lk', lookup_finish (find_node_config target) now i x lk = Ret (Some lk')) /\
  Forall (fun j => (jb_depth j <= 4)%nat) (lk_queue lk ++ lk_running lk) /\
  NoDup (un_id <$> lk_useful_nodes lk) /\ (length (lk_useful_nodes lk) <= 32)%nat /\
  ((forall lk', ~ lookup_step (find_node_config target) lk lk') ->
     (n + length addrs = 2 * (lk_successes lk + lk_errors lk))%nat /\
     lookup_result lk = if (0 <? lk_successes lk)%nat then Ok () else Err (NoSuccessfulLookups (lk_errors lk))).
Proof.
  intros Hs. pose proof (lookup_ok_steps _ _ _ 0 n _ _ (lookup_ok_new (find_node_config target) addrs) Hs) as [Hu Hd Hm Hc].
  cbn [lc_max_depth find_node_config] in Hm. split_and!; [lia| |exact Hd|apply Hu|apply Hu|].
  - intros now i j x Hj Hx. destruct (lookup_finish_ok _ now i j x lk Hu Hx Hj) as (lk' & Hf & _). by exists lk'.
  - intros Hno. destruct (lookup_stuck _ _ Hu Hno) as [_ Hr]. rewrite Hr in Hc. cbn [length] in Hc. split; [lia|].
    unfold lookup_result. destruct (lk_successes lk); done.
Qed.

(** ** What a lookup does to the tables *)

Lemma set_table_ok addr rt s : dht_ok s -> table_ok rt -> dht_ok (set_table_for_addr addr rt s).
Proof. intros [] Hrt. split; cbn; try done; by destruct (is_v4 addr). Qed.

(** A node that is about to be asked enters the table of its family, and its answer or
    its error is recorded there: no update fails or panics. *)
Lemma find_nodes_on_start_ok now1 now2 clock id addr s :
  dht_ok s -> is_id 20 id -> sock_valid addr ->
  exists s', find_nodes_on_start now1 now2 clock id addr s = Some (Ret s') /\ dht_ok s'.
Proof.
  intros Hok Hid Ha. unfold find_nodes_on_start.
  assert (table_ok (get_table_for_addr addr s)) as Ht by (unfold get_table_for_addr; destruct (is_v4 addr); apply Hok).
  destruct (add_table_ok TABLE_FUEL now1 clock _ id addr Ht Hid Ha ltac:(unfold TABLE_FUEL; lia)) as (rt & E & Hrt).
  unfold table_of in E. destruct (rt_add_node TABLE_FUEL now1 clock (get_table_for_addr addr s) id addr) as [[[rt' r]|]|]; try done.
  injection E as ->. cbn [run_bind fst snd]. pose proof (set_table_ok addr rt s Hok Hrt) as Hok'.
  destruct r; try (by eexists);
    destruct (with_table_ok addr (OpRequest id now2) _ Hok' Hid I) as (rt2 & E2 & Hok2); by eexists.
Qed.

Lemma find_nodes_on_end_ok now id addr x s :
  dht_ok s -> is_id 20 id -> exists s', find_nodes_on_end now id addr x s = Some (Ret s') /\ dht_ok s'.
Proof.
  intros Hok Hid. destruct x as [x|e]; cbn [find_nodes_on_end].
  - destruct (with_table_ok addr (OpResponse id now) _ Hok Hid I) as (rt & E & Hok'). by eexists.
  - destruct (with_table_ok addr (OpError id) _ Hok Hid I) as (rt & E & Hok'). by eexists.
Qed.

(** A node that answers [find_node] with peers besides its nodes counts as an error and
    its nodes are not followed: nobody holds the receiver of the peers. *)
Lemma find_node_values_rejected target now j r lk :
  default [] (rs_values r) <> [] ->
  exists lk', request_one_finish (find_node_config target) now j (Ok (RoResponse r)) lk = Ret (lk', Err ReceiverDead) /\
    lk_queue lk' = lk_queue lk.
Proof.
  intros Hv. unfold request_one_finish. cbn [lc_peer_receiver find_node_config negb andb].
  rewrite bool_decide_eq_false_2 by done. by eexists.
Qed.

(** ** Example: one node answers with another, which does not answer *)

Definition ex_found_bytes : bytes := replicate 20 7 ++ [0; 0; 0; 8; 0; 9].
Definition ex_response : Response := mkResponse None (replicate 20 3) (Some ex_found_bytes) None None.
Definition ex_lookup : Lookup := mkLookup [mkUseful (replicate 20 7) (SockV4 8 9) 5 None 1 false] [] [] [] 1 1.

Lemma ex_lookup_run : nsteps (lookup_step (find_node_config (replicate 20 1))) 3 (lookup_new [SockV4 1 2]) ex_lookup.
Proof.
  eapply nsteps_l; [apply (ls_finish _ 5 0 (Ok (RoResponse ex_response)));
    [|vm_compute; reflexivity]|].
  - split; [|by intros b]. intros b [= <-]. split_and!; [repeat constructor; lia|vm_compute; reflexivity|unfold DATAGRAM; cbn; lia].
  - eapply nsteps_l; [apply ls_next; vm_compute; reflexivity|].
    eapply nsteps_l; [apply (ls_finish _ 6 0 (Err ReceiverDead)); [done|vm_compute; reflexivity]|]. apply nsteps_O.
Qed.

Lemma lookup_terminates_witness :
  nsteps (lookup_step (find_node_config (replicate 20 1))) 3 (lookup_new [SockV4 1 2]) ex_lookup /\
  (length (lk_useful_nodes ex_lookup) <= 32)%nat /\ lookup_result ex_lookup = Ok ().
Proof.
  split; [exact ex_lookup_run|].
  destruct (lookup_terminates (replicate 20 1) [SockV4 1 2] 3 ex_lookup ex_lookup_run) as (_ & _ & _ & _ & Hl & Hr).
  split; [exact Hl|]. apply Hr. intros lk' Hst. inversion Hst as [? ? Hn|? ? ? ? ? ? Hf]; subst; done.
Defined.
