(* ===== verification/FsTree.v ===== *)
(** * A file system as a tree

    What [std::fs] does to directories, as far as the program uses it: looking at an
    entry without following links, listing, making, moving and removing.  Paths are the
    names from the root down ([PathBuf]s are compared by their components); a path that
    leads through a symbolic link is not found.  Every change of a directory sets its
    modification time. *)

From stdpp Require Import base tactics option list list_numbers numbers decidable sorting.
From Stdlib Require Import ZArith Lia.
From S2P Require Import Prelude.
Open Scope Z_scope.

Abbreviation path := (list bytes).

(** [FOther] is neither a file nor a directory nor a link; the metadata of [FNoStat]
    cannot be read.  A directory that is not [readable] cannot be listed. *)
Inductive fnode : Type :=
| FFile (data : bytes) (mtime : option Z)
| FDir (readable : bool) (mtime : option Z) (entries : list (bytes * fnode))
| FSymlink
| FOther (mtime : option Z)
| FNoStat.

Definition entries_of (t : fnode) : list (bytes * fnode) := match t with FDir _ _ es => es | _ => [] end.

Fixpoint find_entry (n : bytes) (l : list (bytes * fnode)) : option fnode :=
  match l with
  | [] => None
  | (k, v) :: l => if bool_decide (k = n) then Some v else find_entry n l
  end.

(** What is at a path. *)
Fixpoint tget (t : fnode) (p : path) : option fnode :=
  match p with
  | [] => Some t
  | n :: p => c ← find_entry n (entries_of t); tget c p
  end.

(** [symlink_metadata(p).is_ok()]. *)
Definition path_exists (t : fnode) (p : path) : bool :=
  match tget t p with Some FNoStat | None => false | Some _ => true end.

Definition read_dir (t : fnode) : option (list (bytes * fnode)) :=
  match t with FDir true _ es => Some es | _ => None end.

(** ** Changing a tree *)

Definition alter_entry (n : bytes) (f : fnode -> fnode) (l : list (bytes * fnode)) : list (bytes * fnode) :=
  (fun e => if bool_decide (e.1 = n) then (e.1, f e.2) else e) <$> l.

Fixpoint tupd (p : path) (f : fnode -> fnode) (t : fnode) : fnode :=
  match p with
  | [] => f t
  | n :: p => match t with FDir r m es => FDir r m (alter_entry n (tupd p f) es) | _ => t end
  end.

Definition dir_remove (now : Z) (n : bytes) (t : fnode) : fnode :=
  match t with FDir r _ es => FDir r (Some now) (filter (fun e => e.1 <> n) es) | _ => t end.

Definition dir_insert (now : Z) (n : bytes) (x : fnode) (t : fnode) : fnode :=
  match t with FDir r _ es => FDir r (Some now) (filter (fun e => e.1 <> n) es ++ [(n, x)]) | _ => t end.

(** The parent of a path and its last name. *)
Definition parent (p : path) : option path := match p with [] => None | _ => Some (removelast p) end.
Definition file_name (p : path) : option bytes := last p.

Definition fs_remove (now : Z) (p : path) (t : fnode) : fnode :=
  match file_name p with Some n => tupd (removelast p) (dir_remove now n) t | None => t end.

Definition fs_insert (now : Z) (p : path) (x : fnode) (t : fnode) : fnode :=
  match file_name p with Some n => tupd (removelast p) (dir_insert now n x) t | None => t end.

Definition is_dir (t : fnode) : bool := match t with FDir _ _ _ => true | _ => false end.

(** [create_dir_all]: the missing directories below [dir] are made from the top down,
    until one cannot be made. *)
Fixpoint create_dirs (io : path -> bool) (now : Z) (dir rest : path) (t : fnode) : fnode * bool :=
  match rest with
  | [] => (t, true)
  | n :: rest =>
      let p := dir ++ [n] in
      match tget t p with
      | Some c => if is_dir c then create_dirs io now p rest t else (t, false)
      | None => if io p then create_dirs io now p rest (fs_insert now p (FDir true (Some now) []) t) else (t, false)
      end
  end.

Definition create_dir_all (io : path -> bool) (now : Z) (p : path) (t : fnode) : fnode * bool := create_dirs io now [] p t.

(** [rename] to a path at which nothing is: that was looked at just before. *)
Definition rename (io : path -> bool) (now : Z) (src dst : path) (t : fnode) : fnode * bool :=
  match tget t src, parent dst ≫= tget t with
  | Some x, Some (FDir _ _ _) =>
      if io dst && negb (bool_decide (src `prefix_of` dst)) && negb (bool_decide (src = []))
      then (fs_insert now dst x (fs_remove now src t), true) else (t, false)
  | _, _ => (t, false)
  end.

(** ** Looking at a changed tree *)

Lemma tget_app t p q : tget t (p ++ q) = tget t p ≫= fun u => tget u q.
Proof.
  revert t. induction p as [|n p IH]; intros t; [done|]. cbn. destruct (find_entry n (entries_of t)); [apply IH|done].
Qed.

Lemma tget_prefix t p q x : tget t q = Some x -> p `prefix_of` q -> exists y, tget t p = Some y.
Proof. intros Hq [k ->]. rewrite tget_app in Hq. destruct (tget t p) as [y|]; [by exists y|done]. Qed.

(** Only directories have something below them. *)
Lemma tget_below t p n q x : tget t (p ++ n :: q) = Some x -> exists r m es, tget t p = Some (FDir r m es).
Proof.
  rewrite tget_app. destruct (tget t p) as [[d mt|r m es| |mt|]|]; try done. intros _. by exists r, m, es.
Qed.

Lemma find_entry_alter n f k l : find_entry k (alter_entry n f l) = if bool_decide (k = n) then f <$> find_entry k l else find_entry k l.
Proof.
  induction l as [|[j v] l IH]; [by destruct (bool_decide (k = n))|].
  change (alter_entry n f ((j, v) :: l)) with ((if bool_decide (j = n) then (j, f v) else (j, v)) :: alter_entry n f l).
  case_bool_decide; cbn [find_entry]; rewrite IH; repeat case_bool_decide; subst; try done.
Qed.

Lemma find_entry_filter n k l : find_entry k (filter (fun e => e.1 <> n) l) = if bool_decide (k = n) then None else find_entry k l.
Proof.
  induction l as [|[j v] l IH]; [by destruct (bool_decide (k = n))|].
  destruct (decide (j = n)) as [->|Hj].
  - rewrite filter_cons_False by (cbn; tauto). rewrite IH. cbn [find_entry]. repeat case_bool_decide; by subst.
  - rewrite filter_cons_True by done. cbn [find_entry]. rewrite IH. repeat case_bool_decide; by subst.
Qed.

Lemma find_entry_app k l l' : find_entry k (l ++ l') = match find_entry k l with Some x => Some x | None => find_entry k l' end.
Proof. induction l as [|[j v] l IH]; [done|]. cbn. by case_bool_decide. Qed.

Lemma tget_tupd_below p f t q : tget (tupd p f t) (p ++ q) = tget t p ≫= fun u => tget (f u) q.
Proof.
  revert t. induction p as [|n p IH]; intros t; [done|]. cbn [tupd tget app].
  destruct t as [d mt|r m es| |mt|]; try done. cbn [entries_of]. rewrite find_entry_alter, bool_decide_eq_true_2 by done.
  destruct (find_entry n es) as [c|]; [apply IH|done].
Qed.

Lemma tget_tupd_other p f t q : ~ p `prefix_of` q -> ~ q `prefix_of` p -> tget (tupd p f t) q = tget t q.
Proof.
  revert t q. induction p as [|n p IH]; intros t q Hp Hq; [by destruct Hp; apply prefix_nil|].
  destruct q as [|k q]; [by destruct Hq; apply prefix_nil|]. cbn [tupd tget].
  destruct t as [d mt|r m es| |mt|]; try done. cbn [entries_of]. rewrite find_entry_alter. case_bool_decide; [subst k|done].
  destruct (find_entry n es) as [c|]; [|done]. cbn. apply IH.
  - intros H. by apply Hp, prefix_cons.
  - intros H. by apply Hq, prefix_cons.
Qed.

Lemma tget_tupd_above f t q k : tget (tupd (q ++ k) f t) q = tupd k f <$> tget t q.
Proof.
  revert t. induction q as [|n q IH]; intros t; [done|]. cbn [tupd tget app].
  destruct t as [d mt|r m es| |mt|]; try done. cbn [entries_of]. rewrite find_entry_alter, bool_decide_eq_true_2 by done.
  destruct (find_entry n es) as [c|]; [apply IH|done].
Qed.

(** A change in the directory [p] by [f], which leaves everything but the entry [n]:
    all other paths keep what they had, unless they are [p] or lead to it. *)
Definition entry_only (n : bytes) (f : fnode -> fnode) : Prop :=
  (forall d k, k <> n -> find_entry k (entries_of (f d)) = find_entry k (entries_of d)) /\ (forall d, is_dir d = false -> f d = d).

Lemma dir_remove_only now n : entry_only n (dir_remove now n).
Proof.
  split; intros [] k; try done. intros Hk. cbn. by rewrite find_entry_filter, bool_decide_eq_false_2.
Qed.

Lemma dir_insert_only now n x : entry_only n (dir_insert now n x).
Proof.
  split; intros [] k; try done. intros Hk. cbn. rewrite find_entry_app, find_entry_filter, bool_decide_eq_false_2 by done.
  destruct (find_entry k entries); [done|]. cbn. by rewrite bool_decide_eq_false_2.
Qed.

Lemma tget_entry_only p n f t q :
  entry_only n f -> ~ (p ++ [n]) `prefix_of` q -> (~ q `prefix_of` p) \/ (exists d, tget t q = Some d /\ is_dir d = false) ->
  tget (tupd p f t) q = tget t q.
Proof.
  intros [Hf Hnd] Hn Hq. destruct (decide (p `prefix_of` q)) as [[k ->]|Hp].
  - rewrite tget_tupd_below, tget_app. destruct (tget t p) as [d|] eqn:Ed; [|done]. cbn.
    destruct k as [|j k].
    + rewrite app_nil_r in Hq. cbn. destruct Hq as [Hq|(d' & E & Hd')]; [by destruct Hq|].
      simplify_eq. by rewrite Hnd.
    + cbn. rewrite Hf; [done|]. intros ->. apply Hn. exists k. by rewrite <- app_assoc.
  - destruct (decide (q `prefix_of` p)) as [[k ->]|Hq']; [|by apply tget_tupd_other].
    destruct Hq as [Hq|(d & E & Hd)]; [by destruct Hq; exists k|]. rewrite tget_tupd_above, E.
    destruct k as [|j k]; cbn; [by rewrite Hnd|by destruct d].
Qed.

Lemma path_cases (p : path) : p = [] \/ exists d n, p = d ++ [n].
Proof. destruct p as [|n d _] using rev_ind; [by left|right; by exists d, n]. Qed.

(** [q] is not the directory that changes and does not lead to it, or it is no
    directory at all. *)
Definition aside (t : fnode) (p q : path) : Prop :=
  ~ q `prefix_of` removelast p \/ exists d, tget t q = Some d /\ is_dir d = false.

Lemma fs_remove_other now p t q : ~ p `prefix_of` q -> aside t p q -> tget (fs_remove now p t) q = tget t q.
Proof.
  unfold fs_remove, file_name, aside. destruct (path_cases p) as [->|(d & n & ->)]; [done|].
  rewrite last_snoc, removelast_last. intros. by apply (tget_entry_only d n); [apply dir_remove_only|..].
Qed.

Lemma fs_remove_gone now p t q : p <> [] -> tget (fs_remove now p t) (p ++ q) = None.
Proof.
  unfold fs_remove, file_name. destruct (path_cases p) as [->|(d & n & ->)]; [done|]. intros _.
  rewrite last_snoc, removelast_last, <- app_assoc, tget_tupd_below. destruct (tget t d) as [u|]; [|done].
  destruct u; try done. cbn. by rewrite find_entry_filter, bool_decide_eq_true_2.
Qed.

Lemma fs_insert_other now p x t q : ~ p `prefix_of` q -> aside t p q -> tget (fs_insert now p x t) q = tget t q.
Proof.
  unfold fs_insert, file_name, aside. destruct (path_cases p) as [->|(d & n & ->)]; [done|].
  rewrite last_snoc, removelast_last. intros. by apply (tget_entry_only d n); [apply dir_insert_only|..].
Qed.

Lemma fs_insert_new now p x t q :
  p <> [] -> (exists d, tget t (removelast p) = Some d /\ is_dir d = true) -> tget (fs_insert now p x t) (p ++ q) = tget x q.
Proof.
  unfold fs_insert, file_name. destruct (path_cases p) as [->|(d & n & ->)]; [done|]. intros _.
  rewrite last_snoc, removelast_last, <- app_assoc, tget_tupd_below. intros (u & -> & Hu). destruct u; try done. cbn.
  rewrite find_entry_app, find_entry_filter, bool_decide_eq_true_2 by done. cbn. by rewrite bool_decide_eq_true_2.
Qed.

(** What is no directory stays, and so does everything that does not lead to the
    directories that are made. *)
Lemma create_dirs_keeps io now dir rest t q :
  ~ q `prefix_of` (dir ++ rest) \/ (exists d, tget t q = Some d /\ is_dir d = false) ->
  tget (create_dirs io now dir rest t).1 q = tget t q.
Proof.
  revert dir t. induction rest as [|n rest IH]; intros dir t Hq; [done|]. cbn [create_dirs].
  assert (dir ++ n :: rest = (dir ++ [n]) ++ rest) as Ea by by rewrite <- app_assoc.
  destruct (tget t (dir ++ [n])) as [c|] eqn:Ec.
  - destruct (is_dir c); [|done]. apply IH. by rewrite <- Ea.
  - destruct (io (dir ++ [n])); [|done].
    assert (tget (fs_insert now (dir ++ [n]) (FDir true (Some now) []) t) q = tget t q) as E.
    { destruct (decide ((dir ++ [n]) `prefix_of` q)) as [[k ->]|Hp].
      - rewrite (tget_app t), Ec. cbn [mbind option_bind]. unfold fs_insert, file_name. rewrite last_snoc, removelast_last, <- app_assoc, tget_tupd_below.
        destruct (tget t dir) as [u|] eqn:Eu; [|done]. rewrite tget_app, Eu in Ec. cbn in Ec |- *.
        destruct (find_entry n (entries_of u)) as [c|] eqn:Eas; [done|]. destruct u; cbn in *; try done.
        rewrite find_entry_app, find_entry_filter, bool_decide_eq_true_2 by done. cbn. rewrite bool_decide_eq_true_2 by done. cbn.
        destruct k; [|done]. destruct Hq as [Hq|(d & Hd & _)].
        + destruct Hq. rewrite app_nil_r, Ea. by apply prefix_app_r.
        + by rewrite app_nil_r, tget_app, Eu in Hd; cbn in Hd; rewrite Eas in Hd.
      - apply fs_insert_other; [done|]. unfold aside. rewrite removelast_last. destruct Hq as [Hq|Hq]; [left|by right].
        intros Hd. apply Hq. etransitivity; [exact Hd|by apply prefix_app_r]. }
    rewrite <- E. apply IH. rewrite E. by rewrite <- Ea.
Qed.

(** When it succeeds, the directory is there. *)
Lemma create_dirs_made io now dir rest t t' :
  (exists d, tget t dir = Some d /\ is_dir d = true) -> create_dirs io now dir rest t = (t', true) ->
  exists d, tget t' (dir ++ rest) = Some d /\ is_dir d = true.
Proof.
  revert dir t. induction rest as [|n rest IH]; intros dir t Hd; cbn [create_dirs].
  - intros [= <-]. by rewrite app_nil_r.
  - assert (dir ++ n :: rest = (dir ++ [n]) ++ rest) as -> by by rewrite <- app_assoc.
    destruct (tget t (dir ++ [n])) as [c|] eqn:Ec.
    + destruct (is_dir c) eqn:Edir; [|done]. apply IH. by exists c.
    + destruct (io (dir ++ [n])); [|done]. apply IH. eexists. rewrite <- (app_nil_r (dir ++ [n])) at 2.
      rewrite fs_insert_new; [done|by destruct dir|by rewrite removelast_last].
Qed.

Lemma rename_other io now src dst t q :
  ~ src `prefix_of` q -> ~ dst `prefix_of` q -> aside t src q -> aside t dst q -> tget (rename io now src dst t).1 q = tget t q.
Proof.
  intros Hs Hd As Ad. unfold rename. destruct (tget t src) as [x|]; [|done].
  destruct (parent dst ≫= tget t) as [[d mt|r m es| |mt|]|]; try done. destruct (_ && _); [|done]. cbn [fst].
  assert (tget (fs_remove now src t) q = tget t q) as E by by apply fs_remove_other.
  rewrite fs_insert_other; [done|done|]. destruct Ad as [Ad|Ad]; [by left|right; by rewrite E].
Qed.

(** What is renamed is found, as a whole, at its new place only. *)
Lemma rename_moves io now src dst t t' :
  rename io now src dst t = (t', true) -> ~ dst `prefix_of` src ->
  (forall q, tget t' (dst ++ q) = tget t (src ++ q)) /\ forall q, tget t' (src ++ q) = None.
Proof.
  unfold rename. intros H Hds. destruct (tget t src) as [x|] eqn:Ex; [|done].
  destruct (parent dst ≫= tget t) as [[d mt|r m es| |mt|]|] eqn:Ep; try done.
  destruct (io dst && negb (bool_decide (src `prefix_of` dst)) && negb (bool_decide (src = []))) eqn:Eok; [|done].
  injection H as <-. apply andb_true_iff in Eok as [[_ Hsd]%andb_true_iff Hs].
  apply negb_true_iff, bool_decide_eq_false in Hsd, Hs.
  assert (dst <> []) as Hd by (intros ->; by destruct Hds; apply prefix_nil).
  assert (parent dst = Some (removelast dst)) as Epar by by destruct dst.
  rewrite Epar in Ep. cbn in Ep. split.
  - intros q. rewrite fs_insert_new; [by rewrite tget_app, Ex|done|].
    exists (if bool_decide (removelast dst = removelast src) then dir_remove now (default [] (file_name src)) (FDir r m es)
            else default (FDir r m es) (tget (fs_remove now src t) (removelast dst))).
    destruct (path_cases src) as [->|(ds & ns & ->)]; [done|]. unfold fs_remove, file_name. rewrite last_snoc, removelast_last. cbn [default].
    destruct (decide (removelast dst = ds)) as [E|E].
    + rewrite bool_decide_eq_true_2 by done. rewrite E in Ep |- *. rewrite <- (app_nil_r ds) at 2. by rewrite tget_tupd_below, Ep.
    + rewrite bool_decide_eq_false_2 by done. destruct (decide (removelast dst `prefix_of` ds)) as [[k Ek]|Hn].
      * rewrite Ek, tget_tupd_above, Ep. cbn. split; [done|]. destruct k as [|j k]; [by rewrite app_nil_r in Ek|done].
      * rewrite (tget_entry_only ds ns); [by rewrite Ep|apply dir_remove_only| |by left].
        intros Hp. apply Hsd. etransitivity; [exact Hp|]. destruct (path_cases dst) as [->|(dd & nd & ->)]; [done|].
        rewrite removelast_last. by apply prefix_app_r.
  - intros q. rewrite fs_insert_other.
    + by apply fs_remove_gone.
    + intros Hp. destruct (prefix_weak_total dst src (src ++ q)) as [|]; [done|by apply prefix_app_r|done|done].
    + left. intros Hp. apply Hsd. etransitivity; [|etransitivity; [exact Hp|]]; [by apply prefix_app_r|].
      destruct (path_cases dst) as [->|(dd & nd & ->)]; [done|]. rewrite removelast_last. by apply prefix_app_r.
Qed.

(** ** Directories stay directories *)

Definition dir_at (t : fnode) (a : path) : Prop := exists d, tget t a = Some d /\ is_dir d = true.

Lemma dir_at_above t p q x : tget t p = Some x -> q `prefix_of` p -> q <> p -> dir_at t q.
Proof.
  intros Hp [k ->] Hne. destruct k as [|n k]; [by rewrite app_nil_r in Hne|]. apply tget_below in Hp as (r & m & es & Hq).
  by exists (FDir r m es).
Qed.

Lemma tupd_dir_at p n f t a :
  entry_only n f -> (forall d, is_dir d = true -> is_dir (f d) = true) -> ~ (p ++ [n]) `prefix_of` a -> dir_at t a -> dir_at (tupd p f t) a.
Proof.
  intros Hf Hd Hn (d & E & Hdir). destruct (decide (a `prefix_of` p)) as [[k ->]|Ha].
  - unfold dir_at. rewrite tget_tupd_above, E. eexists. split; [done|]. destruct k; cbn; [by apply Hd|by destruct d].
  - exists d. split; [|done]. by rewrite (tget_entry_only p n); [|done|done|left].
Qed.

Lemma fs_remove_dir_at now p t a : ~ p `prefix_of` a -> dir_at t a -> dir_at (fs_remove now p t) a.
Proof.
  unfold fs_remove, file_name. destruct (path_cases p) as [->|(d & n & ->)]; [done|]. rewrite last_snoc, removelast_last. intros.
  apply (tupd_dir_at d n); [apply dir_remove_only|by intros []|done|done].
Qed.

Lemma fs_insert_dir_at now p x t a : ~ p `prefix_of` a -> dir_at t a -> dir_at (fs_insert now p x t) a.
Proof.
  unfold fs_insert, file_name. destruct (path_cases p) as [->|(d & n & ->)]; [done|]. rewrite last_snoc, removelast_last. intros.
  apply (tupd_dir_at d n); [apply dir_insert_only|by intros []|done|done].
Qed.

Lemma create_dirs_dir_at io now dir rest t a : dir_at t a -> dir_at (create_dirs io now dir rest t).1 a.
Proof.
  revert dir t. induction rest as [|n rest IH]; intros dir t Ha; [done|]. cbn [create_dirs].
  destruct (tget t (dir ++ [n])) as [c|] eqn:Ec; [destruct (is_dir c); [by apply IH|done]|].
  destruct (io (dir ++ [n])); [|done]. apply IH, fs_insert_dir_at; [|done]. intros Hp. destruct Ha as (d & E & _).
  destruct (tget_prefix _ _ _ _ E Hp) as [y Hy]. by rewrite Ec in Hy.
Qed.

Lemma rename_dir_at io now src dst t a :
  ~ src `prefix_of` a -> ~ dst `prefix_of` a -> dir_at t a -> dir_at (rename io now src dst t).1 a.
Proof.
  intros Hs Hd Ha. unfold rename. destruct (tget t src) as [x|]; [|done].
  destruct (parent dst ≫= tget t) as [[]|]; try done. destruct (_ && _); [|done].
  by apply fs_insert_dir_at, fs_remove_dir_at.
Qed.

(** Nothing is made where everything is there. *)
Lemma create_dirs_there io now dir rest t :
  (forall k, k `prefix_of` rest -> k <> [] -> dir_at t (dir ++ k)) -> create_dirs io now dir rest t = (t, true).
Proof.
  revert dir. induction rest as [|n rest IH]; intros dir Hk; [done|]. cbn [create_dirs].
  destruct (Hk [n]) as (d & -> & ->); [by apply prefix_cons, prefix_nil|done|]. apply IH. intros k Hp Hne.
  rewrite <- app_assoc. cbn. apply Hk; [by apply prefix_cons|done].
Qed.
