(* ===== verification/OrphanCleanup.v ===== *)
(** * Cleaning up orphaned downloads ([librqbit::orphan_cleanup])

    A scan looks through the download folders for files and folders that no torrent
    uses; what the user picks from it is checked again and moved to a quarantine folder,
    from which it can be restored, or deleted.  Names are valid UTF-8, the clock and
    failing calls of the file system are arguments. *)

From stdpp Require Import base tactics option list list_numbers numbers decidable countable gmap fin_maps strings sorting.
From Stdlib Require Import ZArith Lia.
From S2P Require Import Prelude RemovePolicy Bencode FsTree.
Open Scope Z_scope.

Definition str (s : string) : bytes := (fun c => Z.of_N (Ascii.N_of_ascii c)) <$> String.list_ascii_of_string s.

Definition QUARANTINE_DIR : bytes := Eval vm_compute in str ".rqbit-quarantine".
Definition MANIFEST : bytes := Eval vm_compute in str "manifest.json".
Definition FOREIGN_PARTIAL_SUFFIXES : list bytes :=
  Eval vm_compute in str <$> [".!qB"; ".part"; ".!ut"; ".!bt"; ".crdownload"]%string.
Definition DEFAULT_MIN_AGE_MINUTES : Z := 60.
Definition MAX_ITEMS : nat := 5000.
Definition MAX_ENTRIES : Z := 2000000.
Definition KEEP_SCANS : nat := 4.

Definition SYSTEM_NAMES : list bytes :=
  Eval vm_compute in
  (str <$> ["thumbs.db"; "desktop.ini"; "$recycle.bin"; "system volume information"; "@eadir"; "#recycle"; "#snapshot";
            "lost+found"]%string) ++ [str "icon" ++ [13]].

Definition to_ascii_lowercase (b : bytes) : bytes := (fun c => if (65 <=? c) && (c <=? 90) then c + 32 else c) <$> b.

Definition is_hidden_or_system (name : bytes) : bool :=
  if bool_decide (head name = Some DOT) then true else bool_decide (to_ascii_lowercase name ∈ SYSTEM_NAMES).

(** ** What the torrents use *)

Record OwnedSet := mkOwned {
  ow_files : gset path;
  ow_ancestors : gset path;
  ow_protected_dirs : list path;
  ow_torrents : nat
}.

Definition OwnedSet_default : OwnedSet := mkOwned ∅ ∅ [] 0.

(** From a folder up, given with its last name first, until one is known. *)
Fixpoint ancestors_up (rev_cur : path) (anc : gset path) : gset path :=
  if bool_decide (reverse rev_cur ∈ anc) then anc
  else
    let anc := {[reverse rev_cur]} ∪ anc in
    match rev_cur with
    | [] => anc
    | _ :: rev_cur => ancestors_up rev_cur anc
    end.

Definition add_ancestors (p : path) (anc : gset path) : gset path :=
  match reverse p with [] => anc | _ :: rev_cur => ancestors_up rev_cur anc end.

Definition add_file (p : path) (o : OwnedSet) : OwnedSet :=
  mkOwned ({[p]} ∪ ow_files o) (add_ancestors p (ow_ancestors o)) (ow_protected_dirs o) (ow_torrents o).

Definition add_protected_dir (p : path) (o : OwnedSet) : OwnedSet :=
  mkOwned (ow_files o) (add_ancestors p (ow_ancestors o)) (ow_protected_dirs o ++ [p]) (ow_torrents o).

Definition count_torrent (o : OwnedSet) : OwnedSet :=
  mkOwned (ow_files o) (ow_ancestors o) (ow_protected_dirs o) (S (ow_torrents o)).

(** [p.starts_with(d)]. *)
Definition starts_with (p d : path) : bool := bool_decide (d `prefix_of` p).

Definition is_protected (o : OwnedSet) (p : path) : bool := existsb (starts_with p) (ow_protected_dirs o).

Definition touches (o : OwnedSet) (p : path) : bool :=
  bool_decide (p ∈ ow_files o) || bool_decide (p ∈ ow_ancestors o) || is_protected o p.

(** ** Scanning *)

Inductive ItemKind := KFile | KDir.
Inductive Reason := EmptyFolder | UnusedFolder (files : Z) | PartialFile (suffix : bytes) | NotInTorrent.

Record ScanItem := mkItem {
  si_id : Z;
  si_path : path;
  si_root : path;
  si_kind : ItemKind;
  si_size : Z;
  si_mtime : option Z;
  si_files : Z;
  si_reason : Reason
}.

Record ScanSkipped := mkSkipped {
  sk_recent : Z;
  sk_symlinks : Z;
  sk_hidden : Z;
  sk_errors : list path;
  sk_truncated : bool
}.

Record DirSummary := mkSummary {
  ds_size : Z;
  ds_files : Z;
  ds_newest : option Z;
  ds_symlinks : Z
}.

Definition dir_mtime (t : fnode) : option Z :=
  match t with FFile _ m | FDir _ m _ | FOther m => m | _ => None end.

(** [Option::max]. *)
Definition opt_max (a b : option Z) : option Z :=
  match a, b with
  | Some x, Some y => Some (Z.max x y)
  | Some x, None => Some x
  | None, b => b
  end.

Definition see_mtime (m : option Z) (s : DirSummary) : DirSummary :=
  mkSummary (ds_size s) (ds_files s) (opt_max (ds_newest s) m) (ds_symlinks s).

(** One directory of the stack; the stack has the last one pushed in front. *)
Fixpoint summarize_entries (es : list (bytes * fnode)) (s : DirSummary) (budget : Z) (stack : list fnode)
    : DirSummary * Z * list fnode :=
  match es with
  | [] => (s, budget, stack)
  | (_, e) :: es =>
      if budget =? 0 then (s, budget, stack)
      else
        let budget := budget - 1 in
        match e with
        | FNoStat => summarize_entries es s budget stack
        | FSymlink => summarize_entries es (mkSummary (ds_size s) (ds_files s) (ds_newest s) (ds_symlinks s + 1)) budget stack
        | FDir _ m _ => summarize_entries es (see_mtime m s) budget (e :: stack)
        | FFile data m =>
            let s := see_mtime m s in
            summarize_entries es
              (mkSummary (ds_size s + Z.of_nat (length data)) (ds_files s + 1) (ds_newest s) (ds_symlinks s)) budget stack
        | FOther m => summarize_entries es (see_mtime m s) budget stack
        end
  end.

(** [None] is a directory that cannot be listed.  [fuel] is the number of rounds. *)
Fixpoint summarize_loop (fuel : nat) (stack : list fnode) (s : DirSummary) (budget : Z) : option (option DirSummary * Z) :=
  match stack with
  | [] => Some (Some s, budget)
  | d :: stack =>
      match fuel with
      | O => None
      | S fuel =>
          match read_dir d with
          | None => Some (None, budget)
          | Some es =>
              let '(s, budget, stack) := summarize_entries es s budget stack in
              summarize_loop fuel stack s budget
          end
      end
  end.

Definition summarize_dir (fuel : nat) (d : fnode) (budget : Z) : option (option DirSummary * Z) :=
  summarize_loop fuel [d] (mkSummary 0 0 (dir_mtime d) 0) budget.

Definition ends_with (name sfx : bytes) : bool := bool_decide (sfx `suffix_of` name).

Definition partial_suffix (name : bytes) (ext : option bytes) : option bytes :=
  head (filter (fun s => negb (bool_decide (s = [])) && ends_with name s = true) (option_list ext ++ FOREIGN_PARTIAL_SUFFIXES)).

(** What a scan has found so far and how many entries it may still look at. *)
Record ScanState := mkScan {
  sc_items : list ScanItem;
  sc_skipped : ScanSkipped;
  sc_budget : Z
}.

Definition on_skipped (f : ScanSkipped -> ScanSkipped) (st : ScanState) : ScanState :=
  mkScan (sc_items st) (f (sc_skipped st)) (sc_budget st).

Definition skip_recent (k : ScanSkipped) : ScanSkipped :=
  mkSkipped (sk_recent k + 1) (sk_symlinks k) (sk_hidden k) (sk_errors k) (sk_truncated k).
Definition skip_symlinks (n : Z) (k : ScanSkipped) : ScanSkipped :=
  mkSkipped (sk_recent k) (sk_symlinks k + n) (sk_hidden k) (sk_errors k) (sk_truncated k).
Definition skip_hidden (k : ScanSkipped) : ScanSkipped :=
  mkSkipped (sk_recent k) (sk_symlinks k) (sk_hidden k + 1) (sk_errors k) (sk_truncated k).
Definition skip_truncated (k : ScanSkipped) : ScanSkipped :=
  mkSkipped (sk_recent k) (sk_symlinks k) (sk_hidden k) (sk_errors k) true.
Definition skip_error (p : path) (k : ScanSkipped) : ScanSkipped :=
  if (length (sk_errors k) <? 20)%nat then
    mkSkipped (sk_recent k) (sk_symlinks k) (sk_hidden k) (sk_errors k ++ [p]) (sk_truncated k)
  else k.

Definition next_id (items : list ScanItem) : Z := Z.min (2 ^ 32 - 1) (Z.of_nat (length items)).

Definition push_item (p root : path) (kind : ItemKind) (size : Z) (mtime : option Z) (files : Z) (reason : Reason) (st : ScanState)
    : ScanState :=
  mkScan (sc_items st ++ [mkItem (next_id (sc_items st)) p root kind size mtime files reason]) (sc_skipped st) (sc_budget st).

Definition newer_than (cutoff : Z) (m : option Z) : bool := match m with Some t => cutoff <? t | None => false end.

(** One entry that is not hidden, with its path: what is found, and the directory to
    look into. *)
Definition scan_entry (fuel : nat) (owned : OwnedSet) (cutoff : Z) (ext : option bytes) (root p : path) (name : bytes) (e : fnode)
    (st : ScanState) : option (ScanState * option (path * fnode)) :=
  match e with
  | FNoStat => Some (on_skipped (skip_error p) st, None)
  | FSymlink => Some (on_skipped (skip_symlinks 1) st, None)
  | _ =>
      if is_protected owned p || bool_decide (p ∈ ow_files owned) then Some (st, None)
      else
        match e with
        | FDir _ _ _ =>
            if bool_decide (p ∈ ow_ancestors owned) then Some (st, Some (p, e))
            else
              r ← summarize_dir fuel e (sc_budget st);
              let st := mkScan (sc_items st) (sc_skipped st) r.2 in
              match r.1 with
              | None => Some (on_skipped (skip_error p) st, None)
              | Some s =>
                  if newer_than cutoff (ds_newest s) then Some (on_skipped skip_recent st, None)
                  else if 0 <? ds_symlinks s then Some (on_skipped (skip_symlinks (ds_symlinks s)) st, None)
                  else
                    Some (push_item p root KDir (ds_size s) (ds_newest s) (ds_files s)
                            (if ds_files s =? 0 then EmptyFolder else UnusedFolder (ds_files s)) st, None)
              end
        | FFile data m =>
            if newer_than cutoff m then Some (on_skipped skip_recent st, None)
            else
              Some (push_item p root KFile (Z.of_nat (length data)) m 1
                      (match partial_suffix name ext with Some sfx => PartialFile sfx | None => NotInTorrent end) st, None)
        | _ => Some (st, None)
        end
  end.

Fixpoint scan_entries (fuel : nat) (owned : OwnedSet) (cutoff : Z) (ext : option bytes) (root dir : path)
    (es : list (bytes * fnode)) (st : ScanState) (stack : list (path * fnode)) : option (ScanState * list (path * fnode)) :=
  match es with
  | [] => Some (st, stack)
  | (name, e) :: es =>
      if (sc_budget st =? 0) || (MAX_ITEMS <=? length (sc_items st))%nat then Some (on_skipped skip_truncated st, stack)
      else
        let st := mkScan (sc_items st) (sc_skipped st) (sc_budget st - 1) in
        if is_hidden_or_system name then scan_entries fuel owned cutoff ext root dir es (on_skipped skip_hidden st) stack
        else
          r ← scan_entry fuel owned cutoff ext root (dir ++ [name]) name e st;
          scan_entries fuel owned cutoff ext root dir es r.1 (option_list r.2 ++ stack)
  end.

Definition by_name (a b : bytes * fnode) : bool := bytes_leb a.1 b.1.

Fixpoint scan_loop (fuel : nat) (owned : OwnedSet) (cutoff : Z) (ext : option bytes) (root : path) (stack : list (path * fnode))
    (st : ScanState) : option ScanState :=
  match stack with
  | [] => Some st
  | (dir, d) :: stack =>
      match fuel with
      | O => None
      | S fuel =>
          match read_dir d with
          | None => scan_loop fuel owned cutoff ext root stack (on_skipped (skip_error dir) st)
          | Some es =>
              r ← scan_entries fuel owned cutoff ext root dir (sort_by by_name es) st stack;
              scan_loop fuel owned cutoff ext root r.2 r.1
          end
      end
  end.

Fixpoint scan_roots (fuel : nat) (fs : fnode) (owned : OwnedSet) (cutoff : Z) (ext : option bytes) (roots : list path) (st : ScanState)
    : option ScanState :=
  match roots with
  | [] => Some st
  | root :: roots =>
      if is_protected owned root then scan_roots fuel fs owned cutoff ext roots st
      else
        st ← match tget fs root with
             | Some d => scan_loop fuel owned cutoff ext root [(root, d)] st
             | None => Some (on_skipped (skip_error root) st)
             end;
        scan_roots fuel fs owned cutoff ext roots st
  end.

Definition scan (fuel : nat) (fs : fnode) (roots : list path) (owned : OwnedSet) (min_age : Z) (ext : option bytes) (now : Z)
    : option (list ScanItem * ScanSkipped) :=
  st ← scan_roots fuel fs owned (saturating_sub now min_age) ext roots (mkScan [] (mkSkipped 0 0 0 [] false) MAX_ENTRIES);
  Some (sc_items st, sc_skipped st).

(** ** Looking again before something is done *)

Inductive Why :=
| OutsideFolders | InQuarantine | IsSymlink | NoLongerExists | TorrentUsesIt | ContainsSymlinks | ChangedRecently | CantRead
| TorrentUsesInside.

(** Every component between root and item must be a real directory. *)
Fixpoint walk_components (fs : fnode) (cur rel : path) : option Why :=
  match rel with
  | [] => None
  | c :: rel =>
      match tget fs (cur ++ [c]) with
      | Some FSymlink => Some IsSymlink
      | Some FNoStat | None => Some NoLongerExists
      | Some _ => walk_components fs (cur ++ [c]) rel
      end
  end.

Definition find_root (roots : list path) (p : path) : option path :=
  head (filter (fun r => starts_with p r && negb (bool_decide (p = r)) = true) roots).

Definition some_why (w : Why) : option (option Why) := Some (Some w).

(** [Some None] is an item that is still an orphan. *)
Definition revalidate (fuel : nat) (fs : fnode) (item : ScanItem) (roots : list path) (owned : OwnedSet) (min_age now : Z)
    : option (option Why) :=
  let p := si_path item in
  match find_root roots p with
  | None => some_why OutsideFolders
  | Some root =>
      if bool_decide (QUARANTINE_DIR ∈ p) then some_why InQuarantine
      else
        match walk_components fs root (drop (length root) p) with
        | Some w => some_why w
        | None =>
            if touches owned p then some_why TorrentUsesIt
            else
              let cutoff := saturating_sub now min_age in
              match tget fs p with
              | None => Some None
              | Some (FDir _ _ _ as d) =>
                  r ← summarize_dir fuel d MAX_ENTRIES;
                  match r.1 with
                  | None => some_why CantRead
                  | Some s =>
                      if 0 <? ds_symlinks s then some_why ContainsSymlinks
                      else if newer_than cutoff (ds_newest s) then some_why ChangedRecently
                      else if existsb (fun f => starts_with f p) (elements (ow_files owned)) then some_why TorrentUsesInside
                      else Some None
                  end
              | Some e => if newer_than cutoff (dir_mtime e) then some_why ChangedRecently else Some None
              end
        end
  end.

(** ** Quarantine *)

Record QuarantineItem := mkQItem {
  qi_original : path;
  qi_stored : path;
  qi_kind : ItemKind;
  qi_size : Z;
  qi_files : Z
}.

Record QuarantineBatch := mkBatch {
  qb_id : bytes;
  qb_root : path;
  qb_dir : path;
  qb_created : Z;
  qb_items : list QuarantineItem
}.

Inductive ItemError := Skipped (w : Why) | DestinationExists | OriginalInUse | IoFailed.

Record ItemResult := mkResult {
  ir_id : option Z;
  ir_path : path;
  ir_error : option ItemError;
  ir_moved_to : option path;
  ir_size : Z
}.

Definition ir_ok (r : ItemResult) : bool := match ir_error r with None => true | Some _ => false end.

Record ScanResult := mkScanResult {
  sr_scan_id : bytes;
  sr_roots : list path;
  sr_min_age_minutes : Z;
  sr_items : list ScanItem
}.

(** The index is what its file holds. *)
Record CleanupState := mkCleanup {
  cs_scans : list ScanResult;
  cs_index : list QuarantineBatch
}.

Definition remember (s : ScanResult) (c : CleanupState) : CleanupState :=
  let v := cs_scans c ++ [s] in
  mkCleanup (drop (length v - KEEP_SCANS) v) (cs_index c).

Definition get_scan (id : bytes) (c : CleanupState) : option ScanResult :=
  head (filter (fun s => sr_scan_id s = id) (cs_scans c)).

Definition latest (c : CleanupState) : option ScanResult := last (cs_scans c).

(** [save_ok] says that the new index could be written and put in place of the old. *)
Definition save_index (save_ok : bool) (idx : list QuarantineBatch) (c : CleanupState) : CleanupState :=
  if save_ok then mkCleanup (cs_scans c) idx else c.

Inductive Action := AQuarantine | ADelete.

#[export] Instance Action_eq_dec : EqDecision Action.
Proof. solve_decision. Defined.

Section Effects.
(** Which calls of the file system on a path work, the manifest of a batch as text,
    and what a deletion that fails leaves behind. *)
Variable io : path -> bool.
Variable manifest : QuarantineBatch -> bytes.
Variable left_behind : path -> option fnode.

(** [std::fs::write], its errors ignored. *)
Definition fs_write (now : Z) (p : path) (data : bytes) (fs : fnode) : fnode :=
  match parent p ≫= tget fs, tget fs p with
  | Some (FDir _ _ _), (None | Some (FFile _ _)) => if io p then fs_insert now p (FFile data (Some now)) fs else fs
  | _, _ => fs
  end.

(** Where an item goes, or why it does not. *)
Definition quarantine_move (now : Z) (src dst : path) (fs : fnode) : fnode * option ItemError :=
  let '(fs, made) := create_dir_all io now (removelast dst) fs in
  if negb made then (fs, Some IoFailed)
  else if path_exists fs dst then (fs, Some DestinationExists)
  else
    let '(fs, moved) := rename io now src dst fs in
    (fs, if moved then None else Some IoFailed).

Fixpoint quarantine_items (now : Z) (root dir : path) (items : list ScanItem) (fs : fnode) (done : list QuarantineItem)
    (results : list ItemResult) : fnode * list QuarantineItem * list ItemResult :=
  match items with
  | [] => (fs, done, results)
  | it :: items =>
      let src := si_path it in
      if starts_with src root then
        let dst := dir ++ drop (length root) src in
        match quarantine_move now src dst fs with
        | (fs, None) =>
            quarantine_items now root dir items fs (done ++ [mkQItem src dst (si_kind it) (si_size it) (si_files it)])
              (results ++ [mkResult (Some (si_id it)) src None (Some dst) (si_size it)])
        | (fs, Some e) =>
            quarantine_items now root dir items fs done
              (results ++ [mkResult (Some (si_id it)) src (Some e) None (si_size it)])
        end
      else quarantine_items now root dir items fs done results
  end.

Definition batch_id (stamp : bytes) (n : nat) : bytes := if (n =? 0)%nat then stamp else stamp ++ [45] ++ digits (Z.of_nat n).

(** The roots are sorted and without duplicates. *)
Definition path_leb (a b : path) : bool := lex_leb (fun x y => negb (bytes_leb y x)) a b.

Fixpoint dedup (l : list path) : list path :=
  match l with
  | [] => []
  | x :: l' => match l' with
               | y :: _ => if bool_decide (x = y) then dedup l' else x :: dedup l'
               | [] => [x]
               end
  end.

(** One batch for each root, numbered from [n]. *)
Fixpoint quarantine_batches (now : Z) (stamp : bytes) (items : list (ScanItem * path)) (n : nat) (roots : list path) (fs : fnode)
    (idx : list QuarantineBatch) (results : list ItemResult) (ids : list bytes)
    : fnode * list QuarantineBatch * list ItemResult * list bytes :=
  match roots with
  | [] => (fs, idx, results, ids)
  | root :: roots =>
      let id := batch_id stamp n in
      let dir := root ++ [QUARANTINE_DIR; id] in
      let mine := fst <$> filter (fun ir => ir.2 = root) items in
      let '(fs, done, results) := quarantine_items now root dir mine fs [] results in
      let batch := mkBatch id root dir now done in
      if bool_decide (done = []) then quarantine_batches now stamp items (S n) roots fs idx results ids
      else
        let fs := fs_write now (dir ++ [MANIFEST]) (manifest batch) fs in
        quarantine_batches now stamp items (S n) roots fs (idx ++ [batch]) results (ids ++ [id])
  end.

Definition quarantine (now : Z) (stamp : bytes) (save_ok : bool) (items : list (ScanItem * path)) (results : list ItemResult)
    (c : CleanupState) (fs : fnode) : CleanupState * fnode * list ItemResult * list bytes :=
  let roots := dedup (sort_by path_leb (snd <$> items)) in
  let '(fs, idx, results, ids) := quarantine_batches now stamp items 0 roots fs (cs_index c) results [] in
  (save_index save_ok idx c, fs, results, ids).

(** ** Restoring and purging *)

Definition restore_item (now : Z) (it : QuarantineItem) (fs : fnode) : fnode * option ItemError :=
  let orig := qi_original it in
  if path_exists fs orig then (fs, Some OriginalInUse)
  else
    let '(fs, made) := match parent orig with Some d => create_dir_all io now d fs | None => (fs, true) end in
    if negb made then (fs, Some IoFailed)
    else
      let '(fs, moved) := rename io now (qi_stored it) orig fs in
      (fs, if moved then None else Some IoFailed).

Fixpoint restore_items (now : Z) (want : option (list nat)) (i : nat) (items : list QuarantineItem) (fs : fnode)
    : fnode * list QuarantineItem * list ItemResult :=
  match items with
  | [] => (fs, [], [])
  | it :: items =>
      if match want with Some w => negb (bool_decide (i ∈ w)) | None => false end then
        let '(fs, keep, results) := restore_items now want (S i) items fs in (fs, it :: keep, results)
      else
        let '(fs, err) := restore_item now it fs in
        let '(fs, keep, results) := restore_items now want (S i) items fs in
        let r := mkResult None (qi_original it) err None (qi_size it) in
        match err with
        | None => (fs, keep, r :: results)
        | Some _ => (fs, it :: keep, r :: results)
        end
  end.

(** [remove_empty_dirs]: directories below that hold nothing but such directories. *)
Fixpoint remove_empty_dirs (now : Z) (t : fnode) : fnode :=
  match t with
  | FDir true m es =>
      let es' :=
        (fix go (es : list (bytes * fnode)) : list (bytes * fnode) :=
           match es with
           | [] => []
           | (n, c) :: es =>
               let c' := remove_empty_dirs now c in
               match c' with
               | FDir _ _ [] => go es
               | _ => (n, c') :: go es
               end
           end) es in
      FDir true (if (length es' =? length es)%nat then m else Some now) es'
  | _ => t
  end.

(** [remove_dir], which only removes an empty directory. *)
Definition remove_dir (now : Z) (p : path) (fs : fnode) : fnode :=
  match tget fs p with Some (FDir _ _ []) => if io p then fs_remove now p fs else fs | _ => fs end.

Definition remove_file (now : Z) (p : path) (fs : fnode) : fnode :=
  match tget fs p with
  | Some (FDir _ _ _) | None => fs
  | Some _ => if io p then fs_remove now p fs else fs
  end.

Definition find_batch (id : bytes) (idx : list QuarantineBatch) : option (nat * QuarantineBatch) :=
  list_find (fun b => qb_id b = id) idx.

Inductive CleanupError := NoSuchBatch | NoConfirm | NotABatchFolder | DeleteFailed | SaveFailed | BadAction | ScanNotFound.

Definition restore (now : Z) (save_ok : bool) (batch : bytes) (items : option (list nat)) (c : CleanupState) (fs : fnode)
    : CleanupState * fnode * result CleanupError (list ItemResult) :=
  match find_batch batch (cs_index c) with
  | None => (c, fs, Err NoSuchBatch)
  | Some (pos, b) =>
      let want := match items with Some ((_ :: _) as v) => Some v | _ => None end in
      let '(fs, keep, results) := restore_items now want 0 (qb_items b) fs in
      let b := mkBatch (qb_id b) (qb_root b) (qb_dir b) (qb_created b) keep in
      let '(fs, idx) :=
        if bool_decide (keep = []) then
          let fs := remove_file now (qb_dir b ++ [MANIFEST]) fs in
          let fs := tupd (qb_dir b) (remove_empty_dirs now) fs in
          let fs := remove_dir now (qb_dir b) fs in
          (fs, filter (fun x => qb_id x <> qb_id b) (cs_index c))
        else (fs_write now (qb_dir b ++ [MANIFEST]) (manifest b) fs, <[pos := b]> (cs_index c)) in
      (save_index save_ok idx c, fs, if save_ok then Ok results else Err SaveFailed)
  end.

(** [remove_dir_all] and [remove_file]: a failure may leave a part. *)
Definition delete_item (now : Z) (p : path) (fs : fnode) : fnode * bool :=
  match tget fs p with
  | None | Some FNoStat => (fs, false)
  | Some _ =>
      match left_behind p with
      | None => (fs_remove now p fs, true)
      | Some t => (tupd p (fun _ => t) fs, false)
      end
  end.

Definition purge (now : Z) (save_ok confirm : bool) (batch : bytes) (c : CleanupState) (fs : fnode)
    : CleanupState * fnode * result CleanupError (nat * Z) :=
  if negb confirm then (c, fs, Err NoConfirm)
  else
    match find_batch batch (cs_index c) with
    | None => (c, fs, Err NoSuchBatch)
    | Some (pos, b) =>
        let idx := delete pos (cs_index c) in
        let dir := qb_dir b in
        if bool_decide (parent dir ≫= file_name = Some QUARANTINE_DIR) then
          let n := length (qb_items b) in
          let size := foldr Z.add 0 (qi_size <$> qb_items b) in
          let '(fs, deleted) := if path_exists fs dir then delete_item now dir fs else (fs, true) in
          if negb deleted then (c, fs, Err DeleteFailed)
          else (save_index save_ok idx c, fs, if save_ok then Ok (n, size) else Err SaveFailed)
        else (c, fs, Err NotABatchFolder)
    end.

(** ** Applying what the user picked *)

Record ApplyOutcome := mkApply {
  ao_ok : nat;
  ao_failed : nat;
  ao_bytes : Z;
  ao_batches : list bytes;
  ao_results : list ItemResult
}.

(** The items that may be touched, with their roots, and the results of the others. *)
Fixpoint check_items (fuel : nat) (fs : fnode) (roots : list path) (owned : OwnedSet) (min_age now : Z) (picked : list ScanItem)
    : option (list (ScanItem * path) * list ItemResult) :=
  match picked with
  | [] => Some ([], [])
  | it :: picked =>
      why ← revalidate fuel fs it roots owned min_age now;
      r ← check_items fuel fs roots owned min_age now picked;
      match why with
      | Some w => Some (r.1, mkResult (Some (si_id it)) (si_path it) (Some (Skipped w)) None (si_size it) :: r.2)
      | None =>
          let root := default [] (head (filter (fun r => starts_with (si_path it) r = true) roots)) in
          Some ((it, root) :: r.1, r.2)
      end
  end.

Fixpoint delete_items (now : Z) (items : list (ScanItem * path)) (fs : fnode) : fnode * list ItemResult :=
  match items with
  | [] => (fs, [])
  | (it, _) :: items =>
      let '(fs, deleted) := delete_item now (si_path it) fs in
      let '(fs, results) := delete_items now items fs in
      (fs, mkResult (Some (si_id it)) (si_path it) (if deleted then None else Some IoFailed) None (si_size it) :: results)
  end.

Definition outcome_of (results : list ItemResult) (batches : list bytes) : ApplyOutcome :=
  let good := filter (fun r => ir_ok r = true) results in
  mkApply (length good) (length results - length good) (foldr Z.add 0 (ir_size <$> good)) batches results.

Definition cleanup_apply (fuel : nat) (now : Z) (stamp : bytes) (save_ok : bool) (owned : OwnedSet) (scan_id : bytes)
    (item_ids : list Z) (action : Action) (confirm : bool) (c : CleanupState) (fs : fnode)
    : option (CleanupState * fnode * result CleanupError ApplyOutcome) :=
  if bool_decide (action = ADelete) && negb confirm then Some (c, fs, Err NoConfirm)
  else
    match get_scan scan_id c with
    | None => Some (c, fs, Err ScanNotFound)
    | Some s =>
        let picked := filter (fun it => si_id it ∈ item_ids) (sr_items s) in
        r ← check_items fuel fs (sr_roots s) owned (u64 (sr_min_age_minutes s * 60)) now picked;
        match action with
        | ADelete =>
            let '(fs, results) := delete_items now r.1 fs in
            Some (c, fs, Ok (outcome_of (r.2 ++ results) []))
        | AQuarantine =>
            let '(c, fs, results, ids) := quarantine now stamp save_ok r.1 r.2 c fs in
            Some (c, fs, Ok (outcome_of results ids))
        end
    end.
End Effects.

(** ** The torrents of a session *)

(** A torrent: its folder and, once they are known, its files with their padding mark
    and new names. *)
Record TorrentView := mkTView {
  tv_folder : bytes;
  tv_files : option (list (bytes * bool * option bytes))
}.

(** A magnet link that is still being resolved. *)
Record PendingView := mkPView {
  pv_output_folder : option bytes;
  pv_sub_folder : option bytes;
  pv_name : option bytes
}.

(** [Path::join]. *)
Definition join (a b : bytes) : bytes :=
  if bool_decide (head b = Some SLASH) then b
  else if bool_decide (a = []) || bool_decide (last a = Some SLASH) then a ++ b
  else a ++ [SLASH] ++ b.

Section Session.
(** [canon], the canonical path if there is one; [trim] is [str::trim]. *)
Variable canon : bytes -> path.
Variable trim : bytes -> bytes.

(** The paths a torrent may use for one of its files, with every suffix of a partial
    file and without. *)
Definition owned_paths (folder : path) (ext : option bytes) (f : bytes * bool * option bytes) : list path :=
  let '(rel, padding, renamed) := f in
  if (padding : bool) then []
  else
    c ← file_candidates trim rel renamed ext;
    ((fun sfx => resolve folder (components (c ++ sfx))) <$> FOREIGN_PARTIAL_SUFFIXES) ++ [resolve folder (components c)].

Definition own_torrent (ext : option bytes) (o : OwnedSet) (t : TorrentView) : OwnedSet :=
  let o := count_torrent o in
  let folder := canon (tv_folder t) in
  match tv_files t with
  | Some ((_ :: _) as infos) => foldl (fun o f => foldl (fun o p => add_file p o) o (owned_paths folder ext f)) o infos
  | _ => add_protected_dir folder o
  end.

Definition safe_name (n : option bytes) : option bytes := n ≫= fun n => if is_safe_relative n then Some n else None.

Definition pending_base (default_folder : bytes) (p : PendingView) : option bytes :=
  match pv_output_folder p, pv_sub_folder p with
  | Some o, _ => Some o
  | None, Some s => Some (join default_folder s)
  | None, None => join default_folder <$> safe_name (pv_name p)
  end.

Definition own_pending (default_folder : bytes) (o : OwnedSet) (p : PendingView) : OwnedSet :=
  let o := count_torrent o in
  match pending_base default_folder p with
  | None => o
  | Some base =>
      let o := add_protected_dir (canon base) o in
      match safe_name (pv_name p) with
      | Some n => add_protected_dir (canon (join base n)) o
      | None => o
      end
  end.

Definition cleanup_owned (ext : option bytes) (default_folder : bytes) (torrents : list TorrentView) (pending : list PendingView)
    : OwnedSet :=
  foldl (own_pending default_folder) (foldl (own_torrent ext) OwnedSet_default torrents) pending.

(** ** The folders that may be scanned *)

Record CleanupRoot := mkRoot { cr_path : bytes; cr_default_on : bool }.

Inductive RootError := NotAbsolute | NotAFolder | FilesystemRoot | NotAllowed | NoFolders.

Fixpoint split_comma (cur b : bytes) : list bytes :=
  match b with
  | [] => [cur]
  | c :: b => if c =? 44 then cur :: split_comma [] b else split_comma (cur ++ [c]) b
  end.

Definition non_empty (l : list bytes) : list bytes := filter (fun s => s <> []) l.

Definition requested_roots (known : list CleanupRoot) (requested : option bytes) : list bytes :=
  match non_empty (option_list (trim <$> requested)) with
  | raw :: _ => non_empty (trim <$> split_comma [] raw)
  | [] => cr_path <$> filter (fun r => cr_default_on r = true) known
  end.

Variable is_folder : bytes -> bool.

Fixpoint check_roots (known : list CleanupRoot) (allowed : list path) (l : list bytes) : result RootError (list path) :=
  match l with
  | [] => Ok []
  | p :: l =>
      if negb (bool_decide (head p = Some SLASH)) then Err NotAbsolute
      else if negb (is_folder p) then Err NotAFolder
      else
        let c := canon p in
        if bool_decide (c = []) then Err FilesystemRoot
        else if negb (existsb (fun k => bool_decide (canon (cr_path k) = c)) known) && negb (existsb (starts_with c) allowed)
        then Err NotAllowed
        else match check_roots known allowed l with Ok out => Ok (c :: out) | Err e => Err e end
  end.

Definition dedupe_roots (roots : list path) : list path :=
  let all := dedup (sort_by path_leb roots) in
  filter (fun r => existsb (fun o => negb (bool_decide (o = r)) && starts_with r o) all = false) all.

Definition cleanup_resolve_roots (known : list CleanupRoot) (allowed : list path) (requested : option bytes)
    : result RootError (list path) :=
  match check_roots known allowed (requested_roots known requested) with
  | Err e => Err e
  | Ok out => if bool_decide (out = []) then Err NoFolders else Ok (dedupe_roots out)
  end.
End Session.
