(* ===== verification/OrphanSafety.v ===== *)
(** * Cleaning up orphaned downloads is safe ([librqbit::orphan_cleanup])

    What the torrents use is known and spared by every clean-up, what was moved to
    quarantine can be restored when nothing fails and the batch keeps its own manifest,
    and examples show where that goes wrong. *)

From stdpp Require Import base tactics option list list_numbers numbers decidable countable gmap fin_maps strings sorting.
From Stdlib Require Import ZArith Lia.
From S2P Require Import Prelude RemovePolicy Bencode FsTree OrphanCleanup.
Open Scope Z_scope.

(** ** What is in use is known *)

Definition anc_closed (anc : gset path) (but : option path) : Prop :=
  forall a n, a ++ [n] ∈ anc -> a ∈ anc \/ but = Some a.

Lemma anc_closed_prefix anc x p : anc_closed anc None -> p ∈ anc -> x `prefix_of` p -> x ∈ anc.
Proof.
  intros Hc Hp [k ->]. induction k as [|n k IH] using rev_ind; [by rewrite app_nil_r in Hp|].
  rewrite app_assoc in Hp. destruct (Hc _ _ Hp); [by apply IH|done].
Qed.

Lemma ancestors_up_spec rc anc :
  anc_closed anc (Some (reverse rc)) ->
  anc_closed (ancestors_up rc anc) None /\ forall x, x ∈ ancestors_up rc anc <-> x ∈ anc \/ x `prefix_of` reverse rc.
Proof.
  revert anc. induction rc as [|k rc IH]; intros anc Hc; cbn [ancestors_up]; case_bool_decide as Hin.
  - assert (anc_closed anc None) as Hc' by (intros a n Ha; left; destruct (Hc a n Ha) as [|E]; [done|injection E as <-; done]).
    split; [done|]. intros x. split; [by left|]. intros [|Hx]; [done|]. by eapply anc_closed_prefix.
  - split.
    + intros a n [Ha|Ha]%elem_of_union; [by apply elem_of_singleton in Ha; destruct a|]. left. set_unfold.
      destruct (Hc a n Ha) as [|E]; [by right|injection E as <-; by left].
    + intros x. rewrite elem_of_union, elem_of_singleton. split; [intros [->|]; [by right|by left]|].
      intros [|Hx%prefix_nil_inv]; [by right|by left].
  - assert (anc_closed anc None) as Hc' by (intros a n Ha; left; destruct (Hc a n Ha) as [|E]; [done|injection E as <-; done]).
    split; [done|]. intros x. split; [by left|]. intros [|Hx]; [done|]. by eapply anc_closed_prefix.
  - destruct (IH ({[reverse (k :: rc)]} ∪ anc)) as [Hc' Hx].
    + intros a n [Ha|Ha]%elem_of_union.
      * apply elem_of_singleton in Ha. rewrite reverse_cons in Ha. apply app_inj_tail in Ha as [-> _]. by right.
      * left. set_unfold. destruct (Hc a n Ha) as [|E]; [by right|injection E as <-; by left].
    + split; [done|]. intros x. rewrite Hx, elem_of_union, elem_of_singleton, !reverse_cons. split.
      * intros [[->|]|Hp]; [by right|by left|]. right. by apply prefix_app_r.
      * intros [|[k' E]]; [tauto|]. destruct k' as [|n k' _] using rev_ind.
        -- rewrite app_nil_r in E. rewrite E. tauto.
        -- rewrite app_assoc in E. apply app_inj_tail in E as [E _]. right. by exists k'.
Qed.

Definition strictly_above (x u : path) : Prop := x `prefix_of` u /\ x <> u.

Lemma strictly_above_snoc x d n : strictly_above x (d ++ [n]) <-> x `prefix_of` d.
Proof.
  split.
  - intros [[k E] Hne]. destruct k as [|j k _] using rev_ind; [by rewrite app_nil_r in E; destruct Hne|].
    rewrite app_assoc in E. apply app_inj_tail in E as [-> _]. by exists k.
  - intros [k ->]. split; [by exists (k ++ [n]); rewrite app_assoc|]. intros E. apply (f_equal length) in E.
    rewrite !length_app in E. cbn in E. lia.
Qed.

Lemma add_ancestors_spec p anc :
  anc_closed anc None ->
  anc_closed (add_ancestors p anc) None /\ forall x, x ∈ add_ancestors p anc <-> x ∈ anc \/ strictly_above x p.
Proof.
  intros Hc. unfold add_ancestors. destruct (path_cases p) as [->|(d & n & ->)].
  - cbn. split; [done|]. intros x. split; [by left|]. intros [|[Hx%prefix_nil_inv Hn]]; done.
  - rewrite reverse_snoc. destruct (ancestors_up_spec (reverse d) anc) as [Hc' Hx].
    { intros a k Ha. left. destruct (Hc a k Ha); done. }
    split; [done|]. intros x. rewrite Hx, reverse_involutive, strictly_above_snoc. tauto.
Qed.

(** The paths in use: files and folders that are protected as a whole. *)
Definition in_use (o : OwnedSet) (u : path) : Prop := u ∈ ow_files o \/ u ∈ ow_protected_dirs o.

Record owned_ok (o : OwnedSet) : Prop := {
  oo_closed : anc_closed (ow_ancestors o) None;
  oo_ancestors x : x ∈ ow_ancestors o <-> exists u, in_use o u /\ strictly_above x u
}.

Lemma owned_ok_default : owned_ok OwnedSet_default.
Proof.
  split; [intros a n Ha; by apply not_elem_of_empty in Ha|]. intros x. split; [intros Hx; by apply not_elem_of_empty in Hx|].
  intros (u & [Hu|Hu] & _); [by apply not_elem_of_empty in Hu|by apply not_elem_of_nil in Hu].
Qed.

Lemma owned_ok_count o : owned_ok o -> owned_ok (count_torrent o).
Proof. by intros []. Qed.

Lemma owned_ok_add_file p o : owned_ok o -> owned_ok (add_file p o).
Proof.
  intros [Hc Ha]. destruct (add_ancestors_spec p _ Hc) as [Hc' Hx]. split; [done|]. intros x. cbn. rewrite Hx, Ha.
  unfold in_use. cbn. split.
  - intros [(u & Hu & Hs)|Hs]; [exists u|exists p]; set_solver.
  - intros (u & Hu & Hs). set_unfold. destruct Hu as [[->|Hu]|Hu]; [by right|left; exists u; tauto..].
Qed.

Lemma owned_ok_add_protected p o : owned_ok o -> owned_ok (add_protected_dir p o).
Proof.
  intros [Hc Ha]. destruct (add_ancestors_spec p _ Hc) as [Hc' Hx]. split; [done|]. intros x. cbn. rewrite Hx, Ha.
  unfold in_use. cbn. split.
  - intros [(u & Hu & Hs)|Hs]; [exists u|exists p]; set_solver.
  - intros (u & Hu & Hs). rewrite elem_of_app, list_elem_of_singleton in Hu.
    destruct Hu as [Hu|[Hu|Hu]]; [left; exists u; tauto..|]. subst u. by right.
Qed.

#[local] Hint Resolve owned_ok_default owned_ok_count owned_ok_add_file owned_ok_add_protected : core.

Lemma foldl_keeps {A B} (P : A -> Prop) (f : A -> B -> A) l a : (forall a b, P a -> P (f a b)) -> P a -> P (foldl f a l).
Proof. intros Hf. revert a. induction l; intros ? ?; cbn; auto. Qed.

Lemma cleanup_owned_ok canon trim ext folder torrents pending : owned_ok (cleanup_owned canon trim ext folder torrents pending).
Proof.
  unfold cleanup_owned. apply foldl_keeps; [|apply foldl_keeps; [|auto]].
  - intros o p Ho. unfold own_pending. destruct (pending_base folder p); [|auto]. destruct (safe_name (pv_name p)); auto.
  - intros o t Ho. unfold own_torrent. destruct (tv_files t) as [[|f l]|]; auto.
    apply foldl_keeps; [|auto]. intros o' f' Ho'. apply foldl_keeps; [|done]. auto.
Qed.

(** [touches] says what it should: the path, or something at or below it, is in use, or
    it is inside a protected folder. *)
Lemma touches_spec o p :
  owned_ok o ->
  touches o p = true <-> (exists u, in_use o u /\ p `prefix_of` u) \/ (exists d, d ∈ ow_protected_dirs o /\ d `prefix_of` p).
Proof.
  intros [_ Ha]. unfold touches, is_protected. rewrite !orb_true_iff, !bool_decide_eq_true, Ha, existsb_exists.
  assert (forall l x, List.In x l <-> x ∈ (l : list path)) as Hin by (intros; by rewrite list_elem_of_In).
  setoid_rewrite Hin. unfold starts_with. setoid_rewrite bool_decide_eq_true. split.
  - intros [[Hf|(u & Hu & Hs & _)]|Hd]; [left; exists p; by split; [left|]|left; by exists u|by right].
  - intros [(u & Hu & Hs)|Hd]; [|by right]. destruct (decide (p = u)) as [->|Hne].
    + destruct Hu as [Hu|Hu]; [by left; left|right; by exists u].
    + left. right. exists u. by split.
Qed.

(** What must not be changed by a clean-up: a file at a path a torrent may use, and
    everything in a protected folder. *)
Definition spared (o : OwnedSet) (fs : fnode) (q : path) : Prop :=
  (q ∈ ow_files o /\ exists d, tget fs q = Some d /\ is_dir d = false) \/ exists d, d ∈ ow_protected_dirs o /\ d `prefix_of` q.

Lemma spared_same o fs fs' q : tget fs' q = tget fs q -> spared o fs q -> spared o fs' q.
Proof. unfold spared. by intros ->. Qed.

Lemma removelast_prefix_of (p : path) : removelast p `prefix_of` p.
Proof. destruct (path_cases p) as [->|(d & n & ->)]; [done|]. rewrite removelast_last. by apply prefix_app_r. Qed.

Lemma untouched_aside o fs p q : owned_ok o -> touches o p = false -> spared o fs q -> ~ p `prefix_of` q /\ aside fs p q.
Proof.
  intros Ho Ht Hq. assert (~ touches o p = true) as Hn by by rewrite Ht. rewrite touches_spec in Hn by done.
  destruct Hq as [[Hf Hnd]|(d & Hd & Hdq)].
  - split; [|by right]. intros Hp. apply Hn. left. exists q. split; [by left|done].
  - assert (~ d `prefix_of` p) as Hdp by (intros ?; apply Hn; right; by exists d). split.
    + intros Hp. destruct (prefix_weak_total p d q Hp Hdq) as [Hpd|]; [|done]. apply Hn. left. exists d. split; [by right|done].
    + left. intros Hqp. apply Hdp. etransitivity; [exact Hdq|]. etransitivity; [exact Hqp|apply removelast_prefix_of].
Qed.

(** ** A clean-up spares what is in use *)

Section Spares.
Context (io : path -> bool) (manifest : QuarantineBatch -> bytes) (left_behind : path -> option fnode).
Context (o : OwnedSet) (Ho : owned_ok o) (q : path).

Lemma tupd_aside p f fs : ~ p `prefix_of` q -> aside fs p q -> tget (tupd p f fs) q = tget fs q.
Proof.
  intros Hp Ha. destruct (decide (q `prefix_of` p)) as [[k ->]|Hq]; [|by apply tget_tupd_other].
  destruct k as [|n k _] using rev_ind; [by destruct Hp; rewrite app_nil_r|]. unfold aside in Ha.
  rewrite app_assoc, removelast_last in Ha. destruct Ha as [Ha|(d & E & Hd)]; [destruct Ha; by exists k|].
  rewrite tget_tupd_above, E. destruct k; cbn; by destruct d.
Qed.

Lemma delete_item_spares now p fs : touches o p = false -> spared o fs q -> tget (delete_item left_behind now p fs).1 q = tget fs q.
Proof.
  intros Ht Hq. destruct (untouched_aside o fs p q Ho Ht Hq) as [Hp Ha]. unfold delete_item.
  destruct (tget fs p) as [[]|]; try done; destruct (left_behind p); cbn; by first [apply tupd_aside|apply fs_remove_other].
Qed.

Lemma delete_items_spares now items fs :
  Forall (fun ir => touches o (si_path ir.1) = false) items -> spared o fs q ->
  tget (delete_items left_behind now items fs).1 q = tget fs q.
Proof.
  intros Hi. revert fs. induction Hi as [|[it root] items Ht _ IH]; intros fs Hq; [done|]. cbn [delete_items].
  pose proof (delete_item_spares now (si_path it) fs Ht Hq) as E.
  destruct (delete_item left_behind now (si_path it) fs) as [fs1 b]. cbn [fst] in E.
  specialize (IH fs1 (spared_same _ _ _ _ E Hq)). destruct (delete_items left_behind now items fs1) as [fs2 rs].
  cbn in *. by rewrite IH.
Qed.

(** An item goes into the quarantine folder of its root. *)
Lemma quarantine_dir_aside root p rest fs :
  touches o p = false -> root `prefix_of` p -> ~ (root ++ [QUARANTINE_DIR]) `prefix_of` q -> spared o fs q ->
  ~ q `prefix_of` (root ++ QUARANTINE_DIR :: rest) \/ exists d, tget fs q = Some d /\ is_dir d = false.
Proof.
  intros Ht Hr Hout Hq. destruct Hq as [[_ Hnd]|(d & Hd & Hdq)]; [by right|left]. intros Hqd.
  assert ((root ++ [QUARANTINE_DIR]) `prefix_of` (root ++ QUARANTINE_DIR :: rest)) as Hrq
    by (exists rest; by rewrite <- app_assoc).
  destruct (prefix_weak_total q _ _ Hqd Hrq) as [Hq'|]; [|done].
  assert (q `prefix_of` root) as Hqr.
  { destruct (decide (q = root ++ [QUARANTINE_DIR])) as [->|Hne]; [by destruct Hout|]. by apply (strictly_above_snoc q root QUARANTINE_DIR). }
  assert (touches o p = true); [|congruence]. apply touches_spec; [done|]. right. exists d. split; [done|].
  by etransitivity; [|etransitivity].
Qed.

Lemma quarantine_move_spares now root rest p fs :
  touches o p = false -> root `prefix_of` p -> ~ (root ++ [QUARANTINE_DIR]) `prefix_of` q -> spared o fs q -> rest <> [] ->
  tget (quarantine_move io now p (root ++ QUARANTINE_DIR :: rest) fs).1 q = tget fs q.
Proof.
  intros Ht Hr Hout Hq Hrest. set (dst := root ++ QUARANTINE_DIR :: rest).
  assert (~ dst `prefix_of` q) as Hdst.
  { intros Hd. apply Hout. etransitivity; [|exact Hd]. exists rest. unfold dst. by rewrite <- app_assoc. }
  assert (removelast dst = root ++ QUARANTINE_DIR :: removelast rest) as Er.
  { unfold dst. rewrite removelast_app by done. by destruct rest. }
  unfold quarantine_move. rewrite Er.
  pose proof (create_dirs_keeps io now [] (root ++ QUARANTINE_DIR :: removelast rest) fs q) as Hmk.
  cbn [app] in Hmk. specialize (Hmk (quarantine_dir_aside root p _ fs Ht Hr Hout Hq)).
  unfold create_dir_all. destruct (create_dirs io now [] (root ++ QUARANTINE_DIR :: removelast rest) fs) as [fs1 made]. cbn [fst] in Hmk.
  destruct made; [cbn [negb]|done]. destruct (path_exists fs1 dst); [done|].
  assert (spared o fs1 q) as Hq1 by by eapply spared_same.
  pose proof (rename_other io now p dst fs1 q) as Hmv.
  destruct (rename io now p dst fs1) as [fs2 moved]. cbn [fst] in *. rewrite <- Hmk. apply Hmv; [|done| |].
  - by apply (untouched_aside o fs1).
  - by apply (untouched_aside o fs1).
  - unfold aside. rewrite Er. by apply (quarantine_dir_aside root p).
Qed.

Lemma quarantine_items_spares now root id items fs acc results :
  Forall (fun it => touches o (si_path it) = false /\ root `prefix_of` si_path it) items ->
  ~ (root ++ [QUARANTINE_DIR]) `prefix_of` q -> spared o fs q ->
  tget (quarantine_items io now root (root ++ [QUARANTINE_DIR; id]) items fs acc results).1.1 q = tget fs q.
Proof.
  intros Hi Hout. revert fs acc results. induction Hi as [|it items [Ht Hr] _ IH]; intros fs acc results Hq; [done|].
  cbn [quarantine_items]. destruct (starts_with (si_path it) root); [|by apply IH].
  rewrite <- app_assoc. cbn [app].
  pose proof (quarantine_move_spares now root (id :: drop (length root) (si_path it)) (si_path it) fs Ht Hr Hout Hq) as Hmv.
  destruct (quarantine_move io now (si_path it) _ fs) as [fs1 [e|]]; cbn [fst] in Hmv; rewrite IH; try by apply Hmv.
  all: eapply spared_same; [by apply Hmv|done].
Qed.

Lemma fs_write_spares now root p fs data rest :
  touches o p = false -> root `prefix_of` p -> ~ (root ++ [QUARANTINE_DIR]) `prefix_of` q -> spared o fs q -> rest <> [] ->
  tget (fs_write io now (root ++ QUARANTINE_DIR :: rest) data fs) q = tget fs q.
Proof.
  intros Ht Hr Hout Hq Hrest. unfold fs_write. set (dst := root ++ QUARANTINE_DIR :: rest).
  assert (tget (fs_insert now dst (FFile data (Some now)) fs) q = tget fs q) as E.
  { apply fs_insert_other.
    - intros Hd. apply Hout. etransitivity; [|exact Hd]. exists rest. unfold dst. by rewrite <- app_assoc.
    - unfold aside, dst. rewrite removelast_app by done. replace (removelast (QUARANTINE_DIR :: rest)) with
        (QUARANTINE_DIR :: removelast rest) by by destruct rest. by apply (quarantine_dir_aside root p). }
  destruct (parent dst ≫= tget fs) as [[]|]; try done. destruct (tget fs dst) as [[]|]; try done; by destruct (io dst).
Qed.

Lemma quarantine_batches_spares now stamp items n roots fs idx results ids :
  Forall (fun ir => touches o (si_path ir.1) = false /\ ir.2 `prefix_of` si_path ir.1) items ->
  Forall (fun r => ~ (r ++ [QUARANTINE_DIR]) `prefix_of` q) roots -> spared o fs q ->
  tget (quarantine_batches io manifest now stamp items n roots fs idx results ids).1.1.1 q = tget fs q.
Proof.
  intros Hi Hroots. revert n fs idx results ids.
  induction Hroots as [|root roots Hout _ IH]; intros n fs idx results ids Hq; [done|]. cbn [quarantine_batches].
  set (mine := fst <$> filter (fun ir => ir.2 = root) items).
  assert (Forall (fun it => touches o (si_path it) = false /\ root `prefix_of` si_path it) mine) as Hmine.
  { apply Forall_fmap, Forall_forall. intros ir [Hr Hin]%list_elem_of_filter.
    rewrite Forall_forall in Hi. destruct (Hi ir Hin) as [? Hp]. cbn. by rewrite Hr in Hp. }
  pose proof (quarantine_items_spares now root (batch_id stamp n) mine fs [] results Hmine Hout Hq) as E.
  destruct (quarantine_items io now root (root ++ [QUARANTINE_DIR; batch_id stamp n]) mine fs [] results) as [[fs1 moved] results1] eqn:Eq.
  cbn [fst] in E. case_bool_decide as Hm; [rewrite IH; [done|by eapply spared_same]|].
  assert (exists it, it ∈ mine) as [it Hit].
  { destruct mine as [|it mine']; [|exists it; by left]. cbn in Eq. by injection Eq as <- <- <-. }
  rewrite Forall_forall in Hmine. destruct (Hmine it Hit) as [Ht Hr].
  rewrite <- app_assoc. cbn [app]. assert (spared o fs1 q) as Hq1 by by eapply spared_same.
  pose proof (fs_write_spares now root (si_path it) fs1
    (manifest (mkBatch (batch_id stamp n) root (root ++ [QUARANTINE_DIR; batch_id stamp n]) now moved))
    [batch_id stamp n; MANIFEST] Ht Hr Hout Hq1 ltac:(done)) as Ew.
  rewrite IH; [by rewrite Ew|by eapply spared_same].
Qed.
End Spares.

Lemma dedup_elem l x : x ∈ dedup l <-> x ∈ l.
Proof.
  induction l as [|y l IH]; [done|]. cbn [dedup]. destruct l as [|z l]; [done|].
  case_bool_decide as E; [subst; rewrite IH; set_solver|]. rewrite !elem_of_cons, IH, elem_of_cons. tauto.
Qed.

(** ** Everything is looked at in a bounded number of rounds *)

Fixpoint fsize (t : fnode) : nat :=
  match t with
  | FDir _ _ es => S (foldr (fun e acc => (fsize e.2 + acc)%nat) 0%nat es)
  | _ => 1
  end.

Definition esize (es : list (bytes * fnode)) : nat := foldr (fun e acc => (fsize e.2 + acc)%nat) 0%nat es.
Definition ssize (l : list fnode) : nat := foldr (fun t acc => (fsize t + acc)%nat) 0%nat l.

Lemma ssize_cons t l : ssize (t :: l) = (fsize t + ssize l)%nat.
Proof. done. Qed.

Lemma find_entry_size n es c : find_entry n es = Some c -> (fsize c <= esize es)%nat.
Proof.
  induction es as [|[k v] es IH]; [done|]. cbn [find_entry]. unfold esize in *. cbn [foldr snd].
  case_bool_decide; [intros [= ->]; lia|]. intros H0. specialize (IH H0). lia.
Qed.

Lemma tget_size t p d : tget t p = Some d -> (fsize d <= fsize t)%nat.
Proof.
  revert t. induction p as [|n p IH]; intros t; [by intros [= ->]|]. cbn [tget].
  destruct t as [| r m es| | |]; try done. cbn [entries_of]. destruct (find_entry n es) as [c|] eqn:E; [|done]. cbn.
  intros Hd%IH. apply find_entry_size in E. unfold esize in E. lia.
Qed.

Lemma summarize_entries_size es s budget stack :
  (ssize (summarize_entries es s budget stack).2 <= esize es + ssize stack)%nat.
Proof.
  revert s budget stack. induction es as [|[n e] es IH]; intros s budget stack; [done|].
  cbn [summarize_entries]. change (esize ((n, e) :: es)) with (fsize e + esize es)%nat.
  destruct (budget =? 0); [cbn [snd]; lia|].
  destruct e as [data m|r m es'| |m|]; (etransitivity; [apply IH|]); rewrite ?ssize_cons; lia.
Qed.

Lemma summarize_total fuel stack s budget : (ssize stack <= fuel)%nat -> exists r, summarize_loop fuel stack s budget = Some r.
Proof.
  revert stack s budget. induction fuel as [|fuel IH]; intros stack s budget Hf.
  - destruct stack as [|d stack]; [by eexists|]. unfold ssize in Hf. cbn in Hf. destruct d; cbn in Hf; lia.
  - destruct stack as [|d stack]; [by eexists|]. cbn [summarize_loop].
    destruct (read_dir d) as [es|] eqn:Er; [|by eexists]. destruct d as [|[] m es'| | |]; try done. injection Er as <-.
    change (ssize (FDir true m es' :: stack)) with (S (esize es') + ssize stack)%nat in Hf.
    pose proof (summarize_entries_size es' s budget stack) as Hs.
    destruct (summarize_entries es' s budget stack) as [[s' budget'] stack']. cbn [snd] in Hs. apply IH. lia.
Qed.

Lemma summarize_dir_total fuel d budget : (fsize d <= fuel)%nat -> exists r, summarize_dir fuel d budget = Some r.
Proof. intros Hf. apply summarize_total. rewrite ssize_cons. cbn. lia. Qed.

(** What passes the second look is used by no torrent, below a root, and no link. *)
Lemma find_root_spec roots p root : find_root roots p = Some root -> root ∈ roots /\ root `prefix_of` p /\ p <> root.
Proof.
  unfold find_root. intros H. apply head_Some_elem_of, list_elem_of_filter in H as [[Hs Hn]%andb_true_iff Hin].
  split; [done|]. split; [by apply bool_decide_eq_true in Hs|]. by apply negb_true_iff, bool_decide_eq_false in Hn.
Qed.

Lemma revalidate_spec fuel fs item roots owned min_age now :
  (fsize fs <= fuel)%nat ->
  exists why, revalidate fuel fs item roots owned min_age now = Some why /\
    (why = None -> touches owned (si_path item) = false /\ QUARANTINE_DIR ∉ si_path item /\
       exists root, find_root roots (si_path item) = Some root).
Proof.
  intros Hf. unfold revalidate, some_why. destruct (find_root roots (si_path item)) as [root|]; [|by eexists].
  case_bool_decide as HQ; [by eexists|]. destruct (walk_components _ _ _); [by eexists|].
  destruct (touches owned (si_path item)) eqn:Ht; [by eexists|].
  assert (forall w : option Why, exists why : option Why, Some w = Some why /\ (why = None -> false = false /\ QUARANTINE_DIR ∉ si_path item /\
    exists r, Some root = Some r)) as Hok by (intros w; eexists; split; [done|]; intros _; by eauto).
  destruct (tget fs (si_path item)) as [d|] eqn:Ed; [|apply Hok].
  destruct d as [data m|r m es| |m|]; try (destruct (newer_than _ _); apply Hok).
  destruct (summarize_dir_total fuel (FDir r m es) MAX_ENTRIES) as [[[s|] b] ->];
    [apply tget_size in Ed; lia| |apply Hok]. cbn [mbind option_bind fst].
  destruct (0 <? ds_symlinks s); [apply Hok|]. destruct (newer_than _ _); [apply Hok|]. destruct (existsb _ _); apply Hok.
Qed.

Lemma check_items_spec fuel fs roots owned min_age now picked :
  (fsize fs <= fuel)%nat ->
  exists ok skipped, check_items fuel fs roots owned min_age now picked = Some (ok, skipped) /\
    (length ok + length skipped = length picked)%nat /\ Forall (fun r => ir_ok r = false) skipped /\
    Forall (fun ir => touches owned (si_path ir.1) = false /\ ir.2 `prefix_of` si_path ir.1 /\ ir.2 ∈ roots) ok.
Proof.
  intros Hf. induction picked as [|it picked (ok & skipped & IH & Hl & Hs & Hok)]; [by exists [], []; repeat split|].
  cbn [check_items]. destruct (revalidate_spec fuel fs it roots owned min_age now Hf) as (why & -> & Hw).
  cbn [mbind option_bind]. rewrite IH. cbn. destruct why as [w|].
  - eexists _, _. split; [done|]. split_and!; [cbn; lia|by constructor|done].
  - eexists _, _. split; [done|]. split_and!; [cbn; lia|done|]. constructor; [|done]. cbn.
    destruct (Hw eq_refl) as (Ht & _ & root & Hr). split; [done|]. apply find_root_spec in Hr as (Hin & Hp & _).
    destruct (filter (fun r => starts_with (si_path it) r = true) roots) as [|r0 l] eqn:El.
    + exfalso. assert (root ∈ filter (fun r => starts_with (si_path it) r = true) roots) as Hr.
      { apply list_elem_of_filter. split; [by apply bool_decide_eq_true|done]. }
      rewrite El in Hr. by apply not_elem_of_nil in Hr.
    + cbn. assert (r0 ∈ filter (fun r => starts_with (si_path it) r = true) roots) as Hr0 by (rewrite El; by left).
      apply list_elem_of_filter in Hr0 as [Hs0 Hin0]. by apply bool_decide_eq_true in Hs0.
Qed.

(** ** Roots in order *)

Lemma path_leb_total a b : path_leb a b = true \/ path_leb b a = true.
Proof.
  unfold path_leb. revert b. induction a as [|x a IH]; intros [|y b]; cbn; auto.
  destruct (bytes_leb y x) eqn:E1, (bytes_leb x y) eqn:E2; cbn; auto.
Qed.

Lemma path_leb_antisym a b : path_leb a b = true -> path_leb b a = true -> a = b.
Proof.
  unfold path_leb. revert b. induction a as [|x a IH]; intros [|y b]; cbn; try done.
  destruct (bytes_leb y x) eqn:E1, (bytes_leb x y) eqn:E2; cbn; try done.
  - intros H1 H2. f_equal; [by apply bytes_leb_antisym|auto].
  - destruct (bytes_leb_total x y); congruence.
Qed.

Lemma path_leb_trans a b c : path_leb a b = true -> path_leb b c = true -> path_leb a c = true.
Proof.
  unfold path_leb. revert b c. induction a as [|x a IH]; intros [|y b] [|z c]; cbn; try done.
  destruct (bytes_leb y x) eqn:Eyx, (bytes_leb x y) eqn:Exy, (bytes_leb z y) eqn:Ezy, (bytes_leb y z) eqn:Eyz; cbn; try done;
    destruct (bytes_leb z x) eqn:Ezx, (bytes_leb x z) eqn:Exz; cbn; try done; try apply IH;
    repeat match goal with
    | H : bytes_leb ?a ?b = true, H' : bytes_leb ?b ?c = true, H2 : bytes_leb ?a ?c = false |- _ =>
        by rewrite (bytes_leb_trans a b c H H') in H2
    | H : bytes_leb ?a ?b = false, H2 : bytes_leb ?b ?a = false |- _ => destruct (bytes_leb_total a b); congruence
    end.
Qed.

Lemma dedup_sorted_NoDup l : sorted_by path_leb l -> NoDup (dedup l).
Proof.
  induction l as [|x l IH]; [intros; apply NoDup_nil_2|]. intros [Hx Hs]. cbn [dedup].
  destruct l as [|y l]; [apply NoDup_singleton|]. case_bool_decide as Hxy; [by apply IH|].
  apply NoDup_cons. split; [|by apply IH]. rewrite dedup_elem, elem_of_cons. intros [|Hin]; [done|].
  destruct Hs as [Hy _]. apply Hxy, path_leb_antisym; [apply Hx; by left|by apply Hy].
Qed.

Definition root_order (l : list path) : list path := dedup (sort_by path_leb l).

Lemma root_order_spec l : NoDup (root_order l) /\ forall r, r ∈ root_order l <-> r ∈ l.
Proof.
  split.
  - apply dedup_sorted_NoDup, sort_by_sorted; [apply path_leb_total|apply path_leb_trans].
  - intros r. unfold root_order. rewrite dedup_elem. by rewrite sort_by_perm.
Qed.

(** No root that is scanned lies in another, and every one asked for lies in one. *)
Lemma dedupe_roots_spec roots :
  NoDup (dedupe_roots roots) /\
  (forall a b, a ∈ dedupe_roots roots -> b ∈ dedupe_roots roots -> a `prefix_of` b -> a = b) /\
  (forall r, r ∈ dedupe_roots roots -> r ∈ roots) /\
  (forall r, r ∈ roots -> exists a, a ∈ dedupe_roots roots /\ a `prefix_of` r).
Proof.
  unfold dedupe_roots. fold (root_order roots). destruct (root_order_spec roots) as [Hnd Hin].
  set (all := root_order roots) in *.
  assert (forall r, existsb (fun o => negb (bool_decide (o = r)) && starts_with r o) all = false <->
    (forall o, o ∈ all -> o `prefix_of` r -> o = r)) as Hex.
  { intros r. rewrite <- not_true_iff_false, existsb_exists. split.
    - intros Hn o Ho Hp. destruct (decide (o = r)); [done|]. exfalso. apply Hn. exists o. rewrite <- list_elem_of_In. split; [done|].
      rewrite bool_decide_eq_false_2 by done. by apply bool_decide_eq_true.
    - intros Ha (o & Ho%list_elem_of_In & Hb). apply andb_true_iff in Hb as [Hb1 Hb2%bool_decide_eq_true].
      rewrite (Ha o Ho Hb2) in Hb1. by rewrite bool_decide_eq_true_2 in Hb1. }
  split_and!.
  - by apply NoDup_filter.
  - intros a b [_ Ha]%list_elem_of_filter [Hb _]%list_elem_of_filter Hp. by apply (proj1 (Hex b)).
  - intros r [_ Hr]%list_elem_of_filter. by apply Hin.
  - intros r Hr%Hin. remember (length r) as n eqn:En. revert r Hr En.
    induction n as [n IH] using lt_wf_ind. intros r Hr ->.
    destruct (existsb (fun o => negb (bool_decide (o = r)) && starts_with r o) all) eqn:E.
    + apply existsb_exists in E as (o & Ho%list_elem_of_In & Hb). apply andb_true_iff in Hb as [Hb1 Hb2%bool_decide_eq_true].
      apply negb_true_iff, bool_decide_eq_false in Hb1.
      assert (length o < length r)%nat as Hl.
      { destruct Hb2 as [k ->]. rewrite length_app. destruct k; [by rewrite app_nil_r in Hb1|cbn; lia]. }
      destruct (IH _ Hl o Ho eq_refl) as (a & Ha & Hp). exists a. split; [done|]. by etransitivity.
    + exists r. split; [|done]. by apply list_elem_of_filter.
Qed.

(** ** Every item gets one result *)

Lemma quarantine_items_results io now root dir items fs acc results :
  Forall (fun it => root `prefix_of` si_path it) items ->
  length (quarantine_items io now root dir items fs acc results).2 = (length results + length items)%nat.
Proof.
  intros Hi. revert fs acc results. induction Hi as [|it items Hr _ IH]; intros fs acc results; cbn [quarantine_items length snd]; [lia|].
  assert (starts_with (si_path it) root = true) as -> by by apply bool_decide_eq_true.
  destruct (quarantine_move io now (si_path it) _ fs) as [fs1 [e|]]; rewrite IH, length_app; cbn; lia.
Qed.

Definition of_root (items : list (ScanItem * path)) (r : path) : list (ScanItem * path) := filter (fun ir => ir.2 = r) items.

Lemma quarantine_batches_results io manifest now stamp items n roots fs idx results ids :
  Forall (fun ir => ir.2 `prefix_of` si_path ir.1) items ->
  length (quarantine_batches io manifest now stamp items n roots fs idx results ids).1.2 =
    (length results + sum_list_with (fun r => length (of_root items r)) roots)%nat.
Proof.
  intros Hi. revert n fs idx results ids. induction roots as [|root roots IH]; intros n fs idx results ids; [cbn; lia|].
  cbn [quarantine_batches sum_list_with]. fold (of_root items root).
  pose proof (quarantine_items_results io now root (root ++ [QUARANTINE_DIR; batch_id stamp n]) (fst <$> of_root items root) fs [] results) as Hl.
  destruct (quarantine_items io now root _ (fst <$> of_root items root) fs [] results) as [[fs1 moved] results1]. cbn [snd] in Hl.
  rewrite length_fmap in Hl.
  assert (length results1 = length results + length (of_root items root))%nat as Hl1.
  { apply Hl, Forall_fmap, Forall_forall. intros ir [Hr Hin]%list_elem_of_filter. rewrite Forall_forall in Hi.
    cbn. rewrite <- Hr. by apply Hi. }
  case_bool_decide; rewrite IH; lia.
Qed.

Lemma sum_of_roots items roots :
  NoDup roots -> Forall (fun ir => ir.2 ∈ roots) items ->
  sum_list_with (fun r => length (of_root items r)) roots = length items.
Proof.
  intros Hnd Hi. induction Hi as [|[it r] items Hr _ IH].
  - clear Hnd. by induction roots.
  - cbn [length]. rewrite <- IH. cbn in Hr. clear IH.
    assert (forall l, r ∉ l -> sum_list_with (fun r0 => length (of_root ((it, r) :: items) r0)) l =
      sum_list_with (fun r0 => length (of_root items r0)) l) as Hno.
    { induction l as [|x l IHl]; [done|]. intros Hx%not_elem_of_cons. cbn [sum_list_with]. rewrite IHl by tauto. f_equal.
      unfold of_root. by rewrite filter_cons_False by (cbn; intros ->; tauto). }
    induction roots as [|x roots IHr]; [by apply not_elem_of_nil in Hr|]. apply NoDup_cons in Hnd as [Hx Hnd].
    cbn [sum_list_with]. destruct (decide (x = r)) as [->|Hne].
    + rewrite Hno by done. unfold of_root at 1. rewrite filter_cons_True by done. cbn [length]. unfold of_root. lia.
    + apply elem_of_cons in Hr as [|Hr]; [done|]. rewrite IHr by done. unfold of_root at 1.
      rewrite filter_cons_False by (cbn; congruence). unfold of_root. lia.
Qed.

Lemma quarantine_results io manifest now stamp save_ok items results c fs :
  Forall (fun ir => ir.2 `prefix_of` si_path ir.1) items ->
  length (quarantine io manifest now stamp save_ok items results c fs).1.2 = (length results + length items)%nat.
Proof.
  intros Hi. unfold quarantine. fold (root_order (snd <$> items)). destruct (root_order_spec (snd <$> items)) as [Hnd Hin].
  pose proof (quarantine_batches_results io manifest now stamp items 0 (root_order (snd <$> items)) fs (cs_index c) results [] Hi) as Hl.
  destruct (quarantine_batches io manifest now stamp items 0 _ fs (cs_index c) results []) as [[[fs1 idx] rs] ids]. cbn in *.
  rewrite Hl, sum_of_roots; [done|done|]. apply Forall_forall. intros ir Hir. apply Hin, list_elem_of_fmap. by exists ir.
Qed.

Lemma delete_items_results left_behind now items fs : length (delete_items left_behind now items fs).2 = length items.
Proof.
  revert fs. induction items as [|[it r] items IH]; intros fs; [done|]. cbn [delete_items].
  destruct (delete_item left_behind now (si_path it) fs) as [fs1 b]. specialize (IH fs1).
  destruct (delete_items left_behind now items fs1) as [fs2 rs]. cbn in *. lia.
Qed.

Lemma outcome_of_counts rs ids :
  (ao_ok (outcome_of rs ids) + ao_failed (outcome_of rs ids) = length rs)%nat.
Proof. unfold outcome_of. cbn. pose proof (length_filter (fun r => ir_ok r = true) rs). lia. Qed.

(** ** What the session's torrents use *)

Inductive session_uses (canon : bytes -> path) (trim : bytes -> bytes) (ext : option bytes) (folder : bytes)
    (torrents : list TorrentView) (pending : list PendingView) (fs : fnode) (q : path) : Prop :=
| su_file t infos f d :
    t ∈ torrents -> tv_files t = Some infos -> f ∈ infos -> q ∈ owned_paths trim (canon (tv_folder t)) ext f ->
    tget fs q = Some d -> is_dir d = false -> session_uses canon trim ext folder torrents pending fs q
| su_folder t :
    t ∈ torrents -> default [] (tv_files t) = [] -> canon (tv_folder t) `prefix_of` q ->
    session_uses canon trim ext folder torrents pending fs q
| su_pending p base :
    p ∈ pending -> pending_base folder p = Some base -> canon base `prefix_of` q ->
    session_uses canon trim ext folder torrents pending fs q.

Lemma foldl_reaches {A B} (P : A -> Prop) (f : A -> B -> A) l a b :
  (forall a b, P a -> P (f a b)) -> b ∈ l -> (forall a, P (f a b)) -> P (foldl f a l).
Proof.
  intros Hk Hb Hf. apply list_elem_of_split in Hb as (l1 & l2 & ->). rewrite foldl_app. cbn. by apply foldl_keeps.
Qed.

Definition known_at (q : path) (o : OwnedSet) : Prop := q ∈ ow_files o.
Definition protects (d : path) (o : OwnedSet) : Prop := d ∈ ow_protected_dirs o.

Lemma add_file_keeps q d p o : (known_at q o -> known_at q (add_file p o)) /\ (protects d o -> protects d (add_file p o)).
Proof. unfold known_at, protects. cbn. split; [set_solver|done]. Qed.

Lemma add_protected_keeps q d p o :
  (known_at q o -> known_at q (add_protected_dir p o)) /\ (protects d o -> protects d (add_protected_dir p o)).
Proof. unfold known_at, protects. cbn. split; [done|set_solver]. Qed.

Lemma own_torrent_keeps canon trim ext q d t o :
  (known_at q o -> known_at q (own_torrent canon trim ext o t)) /\ (protects d o -> protects d (own_torrent canon trim ext o t)).
Proof.
  unfold own_torrent. split; intros Hk; destruct (tv_files t) as [[|f l]|]; try (by apply (add_protected_keeps q d));
    (apply foldl_keeps; [|done]; intros o' f' Hk'; apply foldl_keeps; [|done]; intros o'' p' Hk''; by apply (add_file_keeps q d)).
Qed.

Lemma own_pending_keeps canon folder q d p o :
  (known_at q o -> known_at q (own_pending canon folder o p)) /\ (protects d o -> protects d (own_pending canon folder o p)).
Proof.
  unfold own_pending. split; intros Hk; (destruct (pending_base folder p); [|done]); destruct (safe_name (pv_name p));
    repeat apply (add_protected_keeps q d); done.
Qed.

Lemma session_uses_spared canon trim ext folder torrents pending fs q :
  session_uses canon trim ext folder torrents pending fs q -> spared (cleanup_owned canon trim ext folder torrents pending) fs q.
Proof.
  intros [t infos f d Ht Hi Hf Hq Hd Hn|t Ht Hi Hp|p base Hp Hb Hq].
  - left. split; [|by exists d]. apply (foldl_keeps (known_at q)); [intros; by apply (own_pending_keeps _ _ q [])|].
    apply (foldl_reaches (known_at q) _ _ _ t); [intros; by apply (own_torrent_keeps _ _ _ q [])|done|].
    intros o. unfold own_torrent. rewrite Hi. destruct infos as [|f0 infos]; [by apply not_elem_of_nil in Hf|].
    apply (foldl_reaches (known_at q) _ (f0 :: infos) _ f); [|done|].
    + intros o' f' Hk. apply (foldl_keeps (known_at q)); [|done]. intros. by apply (add_file_keeps q []).
    + intros o'. apply (foldl_reaches (known_at q) _ _ _ q); [intros; by apply (add_file_keeps q [])|done|].
      intros o''. unfold known_at. cbn. set_solver.
  - right. exists (canon (tv_folder t)). split; [|done].
    apply (foldl_keeps (protects (canon (tv_folder t)))); [intros; by apply (own_pending_keeps _ _ [])|].
    apply (foldl_reaches (protects (canon (tv_folder t))) _ _ _ t); [intros; by apply (own_torrent_keeps _ _ _ [])|done|].
    intros o. unfold own_torrent, protects. destruct (tv_files t) as [[|f l]|]; cbn in *; try done; set_solver.
  - right. exists (canon base). split; [|done].
    apply (foldl_reaches (protects (canon base)) _ _ _ p); [intros; by apply (own_pending_keeps _ _ [])|done|].
    intros o. unfold own_pending, protects. rewrite Hb. destruct (safe_name (pv_name p)); cbn; set_solver.
Qed.

(** What the user picked from a scan. *)
Definition picked_items (scan_id : bytes) (item_ids : list Z) (c : CleanupState) : list ScanItem :=
  match get_scan scan_id c with Some s => filter (fun it => si_id it ∈ item_ids) (sr_items s) | None => [] end.

Lemma quarantine_spares io manifest o now stamp save_ok items results c fs q :
  owned_ok o -> Forall (fun ir => touches o (si_path ir.1) = false /\ ir.2 `prefix_of` si_path ir.1) items ->
  (forall ir, ir ∈ items -> ~ (ir.2 ++ [QUARANTINE_DIR]) `prefix_of` q) -> spared o fs q ->
  tget (quarantine io manifest now stamp save_ok items results c fs).1.1.2 q = tget fs q.
Proof.
  intros Ho Hi Hout Hq. unfold quarantine. fold (root_order (snd <$> items)). destruct (root_order_spec (snd <$> items)) as [_ Hin].
  pose proof (quarantine_batches_spares io manifest o Ho q now stamp items 0 (root_order (snd <$> items)) fs (cs_index c) results [] Hi) as E.
  destruct (quarantine_batches io manifest now stamp items 0 _ fs (cs_index c) results []) as [[[fs1 idx] rs] ids]. cbn in *.
  apply E; [|done]. apply Forall_forall. intros r Hr%Hin. apply list_elem_of_fmap in Hr as (ir & -> & Hir). by apply Hout.
Qed.

(** C6: a clean-up never harms a torrent: whatever is picked from whatever earlier scan,
    whatever changed since and whichever calls of the file system fail, the files at all
    paths a torrent may use, and everything in the folders of torrents and magnet links
    without a list of files, are the same afterwards, in place and content; the call
    comes to an end, an error changes nothing, and every picked item has one result. *)
Theorem cleanup_spares_torrents (io : path -> bool) (manifest : QuarantineBatch -> bytes) (left_behind : path -> option fnode)
    (canon : bytes -> path) (trim : bytes -> bytes) (fuel : nat) (now : Z) (stamp : bytes) (save_ok : bool) (ext : option bytes)
    (folder : bytes) (torrents : list TorrentView) (pending : list PendingView) (scan_id : bytes) (item_ids : list Z)
    (action : Action) (confirm : bool) (c : CleanupState) (fs : fnode) :
  (fsize fs <= fuel)%nat ->
  exists c' fs' res,
    cleanup_apply io manifest left_behind fuel now stamp save_ok (cleanup_owned canon trim ext folder torrents pending)
      scan_id item_ids action confirm c fs = Some (c', fs', res) /\
    (forall q, session_uses canon trim ext folder torrents pending fs q ->
       (forall s r, get_scan scan_id c = Some s -> r ∈ sr_roots s -> ~ (r ++ [QUARANTINE_DIR]) `prefix_of` q) ->
       tget fs' q = tget fs q) /\
    match res with
    | Err _ => c' = c /\ fs' = fs
    | Ok out =>
        length (ao_results out) = length (picked_items scan_id item_ids c) /\
        (ao_ok out + ao_failed out = length (ao_results out))%nat
    end.
Proof.
  intros Hf. set (o := cleanup_owned canon trim ext folder torrents pending).
  assert (owned_ok o) as Ho by apply cleanup_owned_ok. unfold cleanup_apply, picked_items.
  destruct (_ && negb confirm); [by eexists _, _, _|]. destruct (get_scan scan_id c) as [s|]; [|by eexists _, _, _].
  set (picked := filter _ (sr_items s)).
  destruct (check_items_spec fuel fs (sr_roots s) o (u64 (sr_min_age_minutes s * 60)) now picked Hf) as (ok & skipped & -> & Hl & Hs & Hok).
  cbn [mbind option_bind fst snd].
  assert (Forall (fun ir => touches o (si_path ir.1) = false /\ ir.2 `prefix_of` si_path ir.1) ok) as Hok2
    by (eapply Forall_impl; [exact Hok|]; cbn; tauto).
  destruct action.
  - pose proof (quarantine_results io manifest now stamp save_ok ok skipped c fs) as Hr.
    pose proof (fun q => quarantine_spares io manifest o now stamp save_ok ok skipped c fs q Ho Hok2) as Hq.
    destruct (quarantine io manifest now stamp save_ok ok skipped c fs) as [[[c' fs'] rs] ids]. cbn [fst snd] in *.
    eexists _, _, _. split; [done|]. split; [|split; [cbn; rewrite Hr; [lia|]|apply outcome_of_counts]].
    + intros q Hu Hout. apply Hq; [|by apply session_uses_spared]. intros ir Hir. rewrite Forall_forall in Hok.
      by apply (Hout s); [|apply Hok].
    + eapply Forall_impl; [exact Hok2|]. cbn. tauto.
  - pose proof (delete_items_results left_behind now ok fs) as Hr.
    pose proof (fun q => delete_items_spares left_behind o Ho q now ok fs) as Hq.
    destruct (delete_items left_behind now ok fs) as [fs' rs]. cbn [fst snd] in *.
    eexists _, _, _. split; [done|]. split; [|split; [cbn; rewrite length_app, Hr; lia|apply outcome_of_counts]].
    intros q Hu _. apply Hq; [eapply Forall_impl; [exact Hok2|]; cbn; tauto|by apply session_uses_spared].
Qed.

(** ** Quarantine can be undone *)

Lemma fs_write_other io now p data fs q : ~ p `prefix_of` q -> aside fs p q -> tget (fs_write io now p data fs) q = tget fs q.
Proof.
  intros Hp Ha. unfold fs_write. destruct (parent p ≫= tget fs) as [[]|]; try done.
  destruct (tget fs p) as [[]|]; try done; (destruct (io p); [|done]); by apply fs_insert_other.
Qed.

Lemma fs_write_dir_at io now p data fs a : ~ p `prefix_of` a -> dir_at fs a -> dir_at (fs_write io now p data fs) a.
Proof.
  intros Hp Ha. unfold fs_write. destruct (parent p ≫= tget fs) as [[]|]; try done.
  destruct (tget fs p) as [[]|]; try done; (destruct (io p); [|done]); by apply fs_insert_dir_at.
Qed.

Lemma quarantine_move_spec io now src dst fs fs1 :
  quarantine_move io now src dst fs = (fs1, None) -> ~ dst `prefix_of` src ->
  ~ src `prefix_of` dst /\ src <> [] /\ (exists x, tget fs src = Some x) /\
  (forall q, tget fs1 (dst ++ q) = tget fs (src ++ q)) /\ (forall q, tget fs1 (src ++ q) = None) /\
  (forall a, dir_at fs a -> ~ src `prefix_of` a -> ~ dst `prefix_of` a -> dir_at fs1 a) /\
  (forall q d, tget fs q = Some d -> is_dir d = false -> ~ src `prefix_of` q -> ~ dst `prefix_of` q -> tget fs1 q = Some d).
Proof.
  intros Hm Hds. unfold quarantine_move, create_dir_all in Hm.
  pose proof (create_dirs_keeps io now [] (removelast dst) fs) as Hkeep.
  pose proof (create_dirs_dir_at io now [] (removelast dst) fs) as Hdir.
  destruct (create_dirs io now [] (removelast dst) fs) as [fs0 made]. cbn [fst app] in *. destruct made; [cbn [negb] in Hm|done].
  destruct (path_exists fs0 dst); [done|]. destruct (rename io now src dst fs0) as [fs' moved] eqn:Er.
  destruct moved; [injection Hm as <-|done]. destruct (rename_moves _ _ _ _ _ _ Er Hds) as [Hnew Hold].
  assert (~ src `prefix_of` dst /\ src <> []) as [Hsd Hs].
  { unfold rename in Er. destruct (tget fs0 src); [|done]. destruct (parent dst ≫= tget fs0) as [[]|]; try done.
    destruct (io dst && negb (bool_decide (src `prefix_of` dst)) && negb (bool_decide (src = []))) eqn:E; [|done].
    apply andb_true_iff in E as [[_ E1]%andb_true_iff E2]. by apply negb_true_iff, bool_decide_eq_false in E1, E2. }
  assert (forall q, tget fs0 (src ++ q) = tget fs (src ++ q)) as Hsrc.
  { intros q. apply Hkeep. left. intros Hp. apply Hsd. etransitivity; [by apply prefix_app_r|].
    etransitivity; [exact Hp|apply removelast_prefix_of]. }
  split_and!; [done|done| | |done| |].
  - unfold rename in Er. rewrite <- (app_nil_r src), <- Hsrc, app_nil_r. destruct (tget fs0 src) as [x|]; [by exists x|done].
  - intros q. by rewrite Hnew, Hsrc.
  - intros a Ha Hsa Hda. pose proof (rename_dir_at io now src dst fs0 a Hsa Hda (Hdir a Ha)) as H. by rewrite Er in H.
  - intros q d Hq Hd Hsq Hdq. assert (tget fs0 q = Some d) as Hq0 by (rewrite Hkeep; [done|right; by exists d]).
    pose proof (rename_other io now src dst fs0 q Hsq Hdq) as H. rewrite Er in H. cbn [fst] in H. rewrite <- Hq0. apply H; right; by exists d.
Qed.

(** The move into the quarantine and the move out of it are inverse when every system call
    succeeds and the manifest that is written in between is neither the item nor inside of
    it, nor the other way round: the item is at its old place again with all its content and
    gone from the quarantine, and no other file has changed. *)
Theorem quarantine_reversible (io : path -> bool) (now now' : Z) (src dst p : path) (data : bytes) (kind : ItemKind) (size files : Z)
    (fs fs1 : fnode) :
  (forall q, io q = true) -> quarantine_move io now src dst fs = (fs1, None) ->
  ~ dst `prefix_of` src -> ~ p `prefix_of` dst -> ~ dst `prefix_of` p -> ~ p `prefix_of` src -> ~ src `prefix_of` p ->
  exists fs3, restore_item io now' (mkQItem src dst kind size files) (fs_write io now p data fs1) = (fs3, None) /\
    (forall q, tget fs3 (src ++ q) = tget fs (src ++ q)) /\ (forall q, tget fs3 (dst ++ q) = None) /\
    (forall q d, tget fs q = Some d -> is_dir d = false -> ~ dst `prefix_of` q -> ~ p `prefix_of` q -> tget fs3 q = Some d).
Proof.
  intros Hio Hm Hds Hpd Hdp Hps Hsp.
  destruct (quarantine_move_spec io now src dst fs fs1 Hm Hds) as (Hsd & Hs & (x & Hx) & Hnew & Hold & Hdirs & Hfiles).
  set (fs2 := fs_write io now p data fs1).
  assert (forall q, tget fs2 (dst ++ q) = tget fs (src ++ q)) as Hst.
  { intros q. unfold fs2. rewrite fs_write_other; [done| |left; intros Hp].
    - intros Hp. by destruct (prefix_weak_total p dst (dst ++ q) Hp ltac:(by apply prefix_app_r)).
    - apply Hdp. etransitivity; [by apply prefix_app_r|]. etransitivity; [exact Hp|apply removelast_prefix_of]. }
  assert (tget fs2 src = None) as Hfree.
  { unfold fs2. rewrite fs_write_other; [by rewrite <- (app_nil_r src)|done|left; intros Hp]. apply Hsp.
    etransitivity; [exact Hp|apply removelast_prefix_of]. }
  assert (forall a, a `prefix_of` removelast src -> dir_at fs2 a) as Habove.
  { intros a Ha. assert (strictly_above a src) as [Hap Hane].
    { destruct (path_cases src) as [->|(d & n & ->)]; [done|]. rewrite removelast_last in Ha. by apply strictly_above_snoc. }
    apply fs_write_dir_at; [intros Hp; apply Hps; by etransitivity|]. apply Hdirs; [by eapply dir_at_above| |].
    - intros Hp. apply Hane. by apply (anti_symm prefix).
    - intros Hp. apply Hds. by etransitivity. }
  unfold restore_item. cbn [qi_original qi_stored]. unfold path_exists. rewrite Hfree.
  assert (parent src = Some (removelast src)) as -> by by destruct src. unfold create_dir_all.
  rewrite create_dirs_there by (intros k Hk _; by apply Habove). cbn [negb].
  destruct (rename io now' dst src fs2) as [fs3 moved] eqn:Er.
  assert (moved = true) as ->.
  { unfold rename in Er. rewrite <- (app_nil_r dst), Hst, app_nil_r, Hx in Er. rewrite app_nil_r in Er.
    assert (parent src = Some (removelast src)) as Ep by by destruct src. rewrite Ep in Er. cbn [mbind option_bind] in Er.
    destruct (Habove (removelast src) ltac:(done)) as (d & Ed & Hd). rewrite Ed in Er. destruct d; try done.
    rewrite Hio, !bool_decide_eq_false_2 in Er; [by injection Er|intros ->; by destruct Hds; apply prefix_nil|done]. }
  exists fs3. destruct (rename_moves _ _ _ _ _ _ Er Hsd) as [Hback Hgone]. split; [done|]. split_and!.
  - intros q. by rewrite Hback.
  - done.
  - intros q d Hq Hd Hdq Hpq. destruct (decide (src `prefix_of` q)) as [[k ->]|Hsq]; [by rewrite Hback, Hst|].
    assert (tget fs2 q = Some d) as Hq2.
    { pose proof (Hfiles q d Hq Hd Hsq Hdq) as Hq1. unfold fs2. rewrite fs_write_other; [done|done|right; by exists d]. }
    pose proof (rename_other io now' dst src fs2 q Hdq Hsq) as H. rewrite Er in H. cbn [fst] in H.
    rewrite H; [done|right; by exists d|right; by exists d].
Qed.

(** ** Example: a torrent with one file, and three files it does not have *)

Definition ex_dl : bytes := str "dl".
Definition ex_file (b : Z) : fnode := FFile [b; b] (Some 100).
Definition ex_tree : fnode :=
  FDir true (Some 100)
    [(ex_dl, FDir true (Some 100)
       [(str "old.iso", ex_file 1); (MANIFEST, ex_file 2);
        (str "Show", FDir true (Some 100) [(str "ep1.mkv", ex_file 3); (str "stray.nfo", ex_file 4)])])].
Definition ex_canon (b : bytes) : path := resolve [] (components b).
Definition ex_torrents : list TorrentView := [mkTView (str "/dl") (Some [(str "Show/ep1.mkv", false, None)])].
Definition ex_owned : OwnedSet := cleanup_owned ex_canon (fun b => b) None (str "/dl") ex_torrents [].
Definition ex_ep1 : path := [ex_dl; str "Show"; str "ep1.mkv"].
Definition ex_scan_items : list ScanItem := match scan 20 ex_tree [[ex_dl]] ex_owned 3600 None 10000 with Some r => r.1 | None => [] end.
Definition ex_cleanup : CleanupState := mkCleanup [mkScanResult [1] [[ex_dl]] 60 ex_scan_items] [].

Example ex_scan_finds :
  si_path <$> ex_scan_items = [[ex_dl; MANIFEST]; [ex_dl; str "old.iso"]; [ex_dl; str "Show"; str "stray.nfo"]].
Proof. vm_compute. reflexivity. Qed.

Lemma cleanup_spares_torrents_witness :
  (fsize ex_tree <= 20)%nat /\
  exists c' fs' res,
    cleanup_apply (fun _ => true) (fun _ => [0]) (fun _ => None) 20 10000 [7] true ex_owned [1] [0; 1; 2] ADelete true ex_cleanup ex_tree
      = Some (c', fs', res) /\
    tget fs' ex_ep1 = Some (ex_file 3) /\ tget fs' [ex_dl; str "old.iso"] = None.
Proof.
  assert (fsize ex_tree <= 20)%nat as Hf by (apply Nat.leb_le; vm_compute; reflexivity). split; [exact Hf|].
  destruct (cleanup_spares_torrents (fun _ => true) (fun _ => [0]) (fun _ => None) ex_canon (fun b => b) 20 10000 [7] true None (str "/dl")
    ex_torrents [] [1] [0; 1; 2] ADelete true ex_cleanup ex_tree Hf) as (c' & fs' & res & E & Hq & _).
  exists c', fs', res. split; [exact E|]. split.
  - rewrite Hq.
    + vm_compute. reflexivity.
    + apply (su_file _ _ _ _ _ _ _ _ (mkTView (str "/dl") (Some [(str "Show/ep1.mkv", false, None)])) [(str "Show/ep1.mkv", false, None)]
        (str "Show/ep1.mkv", false, None) (ex_file 3)); try (vm_compute; reflexivity); try (by left).
      apply (bool_decide_unpack _). vm_compute. exact I.
    + intros s r [= <-] ->%list_elem_of_singleton. apply (bool_decide_unpack _). vm_compute. exact I.
  - vm_compute in E. injection E as _ <- _. vm_compute. reflexivity.
Defined.

Definition ex_iso : path := [ex_dl; str "old.iso"].
Definition ex_stored : path := [ex_dl; QUARANTINE_DIR; [7]; str "old.iso"].
Definition ex_moved : fnode := (quarantine_move (fun _ => true) 10000 ex_iso ex_stored ex_tree).1.

Lemma quarantine_reversible_witness :
  quarantine_move (fun _ => true) 10000 ex_iso ex_stored ex_tree = (ex_moved, None) /\
  exists fs3, restore_item (fun _ => true) 10001 (mkQItem ex_iso ex_stored KFile 2 1)
      (fs_write (fun _ => true) 10000 [ex_dl; QUARANTINE_DIR; [7]; MANIFEST] [0] ex_moved) = (fs3, None) /\
    tget fs3 ex_iso = Some (ex_file 1) /\ tget fs3 ex_stored = None /\ tget fs3 ex_ep1 = Some (ex_file 3).
Proof.
  assert (quarantine_move (fun _ => true) 10000 ex_iso ex_stored ex_tree = (ex_moved, None)) as Hm by (vm_compute; reflexivity).
  split; [exact Hm|].
  destruct (quarantine_reversible (fun _ => true) 10000 10001 ex_iso ex_stored [ex_dl; QUARANTINE_DIR; [7]; MANIFEST] [0] KFile 2 1
    ex_tree ex_moved) as (fs3 & E & H1 & H2 & H3);
    [intros q; reflexivity|exact Hm|(apply (bool_decide_unpack _); vm_compute; exact I)..|].
  exists fs3. split; [exact E|]. split; [|split].
  - rewrite <- (app_nil_r ex_iso), H1. vm_compute. reflexivity.
  - rewrite <- (app_nil_r ex_stored), H2. reflexivity.
  - apply H3; [vm_compute; reflexivity|reflexivity|(apply (bool_decide_unpack _); vm_compute; exact I)..].
Defined.

(** ** Where it goes wrong *)

Definition ex_io : path -> bool := fun _ => true.

(** A file called [manifest.json] right below a root is overwritten by the manifest of
    its own batch when it is moved to quarantine; what is restored is the manifest. *)
Lemma quarantine_overwrites_manifest_json :
  exists c1 fs1 out c2 fs2 rs,
    cleanup_apply ex_io (fun _ => [0]) (fun _ => None) 20 10000 [7] true ex_owned [1] [0] AQuarantine false ex_cleanup ex_tree
      = Some (c1, fs1, Ok out) /\ ao_failed out = 0%nat /\
    restore ex_io (fun _ => [0]) 10001 true [7] None c1 fs1 = (c2, fs2, Ok rs) /\
    tget ex_tree [ex_dl; MANIFEST] = Some (ex_file 2) /\ tget fs2 [ex_dl; MANIFEST] = Some (FFile [0] (Some 10000)).
Proof. eexists _, _, _, _, _, _. split_and!; vm_compute; reflexivity. Qed.

(** Two clean-ups of different folders within one second give their batches the same
    id: restoring the one takes both from the index, and the files of the other can no
    longer be restored. *)
Definition ex_batch (root : bytes) : QuarantineBatch :=
  mkBatch [7] [root] [root; QUARANTINE_DIR; [7]] 0 [mkQItem [root; [1]] [root; QUARANTINE_DIR; [7]; [1]] KFile 1 1].

Definition ex_half (root : bytes) : bytes * fnode :=
  (root, FDir true None [(QUARANTINE_DIR, FDir true None [([7], FDir true None [([1], ex_file 1)])])]).

Lemma restore_forgets_other_batch :
  exists c fs rs,
    restore ex_io (fun _ => [0]) 10001 true [7] None (mkCleanup [] [ex_batch [65]; ex_batch [66]])
      (FDir true None [ex_half [65]; ex_half [66]]) = (c, fs, Ok rs) /\
    tget fs [[65]; [1]] = Some (ex_file 1) /\ cs_index c = [] /\
    tget fs [[66]; [1]] = None /\ tget fs [[66]; QUARANTINE_DIR; [7]; [1]] = Some (ex_file 1).
Proof. eexists _, _, _. split_and!; vm_compute; reflexivity. Qed.

(** Two clean-ups of one folder within one second share the folder of their batches:
    purging the one deletes the files of the other, which stays in the index. *)
Lemma purge_deletes_other_batch :
  let other := mkBatch [7] [[65]] [[65]; QUARANTINE_DIR; [7]] 0 [mkQItem [[65]; [2]] [[65]; QUARANTINE_DIR; [7]; [2]] KFile 1 1] in
  exists c fs r,
    purge (fun _ => None) 10001 true true [7] (mkCleanup [] [ex_batch [65]; other])
      (FDir true None [([65], FDir true None [(QUARANTINE_DIR, FDir true None [([7], FDir true None [([1], ex_file 1); ([2], ex_file 2)])])])])
      = (c, fs, Ok r) /\
    cs_index c = [other] /\ tget fs [[65]; QUARANTINE_DIR; [7]; [2]] = None.
Proof. eexists _, _, _. split_and!; vm_compute; reflexivity. Qed.

(** An age limit in minutes that is large enough wraps around to none at all. *)
Lemma min_age_wraps : u64 (2 ^ 62 * 60) = 0.
Proof. reflexivity. Qed.
