(* ===== verification/OrphanScan.v ===== *)
(** * What a scan for orphaned downloads reports ([librqbit::orphan_cleanup], [scan])

    The summary of a folder is that of everything in it, and what a scan reports is
    used by no torrent and old enough. *)

From stdpp Require Import base tactics option list list_numbers numbers decidable countable gmap fin_maps strings sorting.
From Stdlib Require Import ZArith Lia.
From S2P Require Import Prelude RemovePolicy FsTree OrphanCleanup OrphanSafety.
Open Scope Z_scope.

(** ** What a folder holds *)

Definition plus_summary (a b : DirSummary) : DirSummary :=
  mkSummary (ds_size a + ds_size b) (ds_files a + ds_files b) (opt_max (ds_newest a) (ds_newest b)) (ds_symlinks a + ds_symlinks b).

Definition zero_summary : DirSummary := mkSummary 0 0 None 0.

(** What one entry counts for. *)
Definition own_summary (t : fnode) : DirSummary :=
  match t with
  | FFile data m => mkSummary (Z.of_nat (length data)) 1 m 0
  | FDir _ m _ | FOther m => mkSummary 0 0 m 0
  | FSymlink => mkSummary 0 0 None 1
  | FNoStat => zero_summary
  end.

Fixpoint total_summary (t : fnode) : DirSummary :=
  match t with
  | FDir _ _ es => foldr (fun e acc => plus_summary (total_summary e.2) acc) (own_summary t) es
  | _ => own_summary t
  end.

Lemma opt_max_assoc a b c : opt_max a (opt_max b c) = opt_max (opt_max a b) c.
Proof. destruct a, b, c; cbn; try done. f_equal. lia. Qed.

Lemma opt_max_comm a b : opt_max a b = opt_max b a.
Proof. destruct a, b; cbn; try done. f_equal. lia. Qed.

#[export] Instance plus_summary_assoc : Assoc (=) plus_summary.
Proof. intros [] [] []. unfold plus_summary. cbn. rewrite opt_max_assoc. f_equal; lia. Qed.

#[export] Instance plus_summary_comm : Comm (=) plus_summary.
Proof. intros [] []. unfold plus_summary. cbn. rewrite opt_max_comm. f_equal; lia. Qed.

#[export] Instance plus_summary_left_id : LeftId (=) zero_summary plus_summary.
Proof. by intros []. Qed.

#[export] Instance plus_summary_right_id : RightId (=) zero_summary plus_summary.
Proof. intros x. by rewrite (comm plus_summary), (left_id zero_summary plus_summary). Qed.

(** Everything below the folders of a stack, without the folders themselves. *)
Definition inner_summary (t : fnode) : DirSummary :=
  foldr (fun e acc => plus_summary (total_summary e.2) acc) zero_summary (entries_of t).

Definition stack_summary (l : list fnode) : DirSummary := foldr (fun t acc => plus_summary (inner_summary t) acc) zero_summary l.

Definition entries_summary (es : list (bytes * fnode)) : DirSummary :=
  foldr (fun e acc => plus_summary (total_summary e.2) acc) zero_summary es.

Lemma foldr_plus_summary x es :
  foldr (fun e acc => plus_summary (total_summary e.2) acc) x es = plus_summary (entries_summary es) x.
Proof.
  unfold entries_summary. induction es as [|e es IH]; cbn [foldr]; [by rewrite (left_id zero_summary plus_summary)|].
  by rewrite IH, (assoc plus_summary).
Qed.

Lemma total_summary_inner t : total_summary t = plus_summary (own_summary t) (inner_summary t).
Proof.
  destruct t; try (by rewrite (right_id zero_summary plus_summary)). cbn [total_summary inner_summary entries_of].
  rewrite foldr_plus_summary. apply (comm plus_summary).
Qed.

(** The entries a stack still has to be charged for. *)
Definition wsize (l : list fnode) : nat := foldr (fun t acc => (fsize t - 1 + acc)%nat) 0%nat l.

Lemma fsize_pos t : (1 <= fsize t)%nat.
Proof. destruct t; cbn; lia. Qed.

Lemma summarize_entries_exact es s budget stack :
  Z.of_nat (esize es + wsize stack) <= budget ->
  let '(s', budget', stack') := summarize_entries es s budget stack in
  plus_summary s' (stack_summary stack') = plus_summary s (plus_summary (entries_summary es) (stack_summary stack)) /\
  budget - Z.of_nat (esize es + wsize stack) <= budget' - Z.of_nat (wsize stack').
Proof.
  revert s budget stack. induction es as [|[n e] es IH]; intros s budget stack Hb; cbn [summarize_entries].
  { cbn [esize foldr] in *. split; [|lia]. by rewrite (left_id zero_summary plus_summary). }
  change (esize ((n, e) :: es)) with (fsize e + esize es)%nat in *. pose proof (fsize_pos e) as Hpos.
  destruct (Z.eqb_spec budget 0); [lia|].
  change (entries_summary ((n, e) :: es)) with (plus_summary (total_summary e) (entries_summary es)).
  assert (forall s2, s2 = plus_summary s (own_summary e) -> inner_summary e = zero_summary ->
    let '(s', budget', stack') := summarize_entries es s2 (budget - 1) stack in
    plus_summary s' (stack_summary stack') =
      plus_summary s (plus_summary (plus_summary (total_summary e) (entries_summary es)) (stack_summary stack)) /\
    budget - Z.of_nat (fsize e + esize es + wsize stack) <= budget' - Z.of_nat (wsize stack')) as Hstep.
  { intros s2 -> Hin. specialize (IH (plus_summary s (own_summary e)) (budget - 1) stack ltac:(lia)).
    destruct (summarize_entries es _ (budget - 1) stack) as [[s' b'] st']. destruct IH as [E Hb']. split; [|lia].
    rewrite E, total_summary_inner, Hin, (right_id zero_summary plus_summary), !(assoc plus_summary). done. }
  assert (forall x, plus_summary x zero_summary = x) as Hz by (intros; by rewrite (right_id zero_summary plus_summary)).
  destruct e as [data m|r m es'| |m|].
  - apply Hstep; [|done]. destruct s. unfold plus_summary. cbn. f_equal; lia.
  - specialize (IH (see_mtime m s) (budget - 1) (FDir r m es' :: stack)).
    change (wsize (FDir r m es' :: stack)) with (fsize (FDir r m es') - 1 + wsize stack)%nat in IH. specialize (IH ltac:(lia)).
    destruct (summarize_entries es (see_mtime m s) (budget - 1) _) as [[s' b'] st']. destruct IH as [E Hb']. split; [|lia].
    rewrite E, total_summary_inner. change (stack_summary (FDir r m es' :: stack))
      with (plus_summary (inner_summary (FDir r m es')) (stack_summary stack)).
    assert (see_mtime m s = plus_summary s (own_summary (FDir r m es'))) as ->
      by (destruct s; unfold see_mtime, plus_summary; cbn; f_equal; lia).
    rewrite <- !(assoc plus_summary). do 2 f_equal. rewrite !(assoc plus_summary). f_equal. apply (comm plus_summary).
  - apply Hstep; [|done]. destruct s. unfold plus_summary. cbn. f_equal; [lia|lia|by rewrite opt_max_comm].
  - apply Hstep; [|done]. destruct s. unfold see_mtime, plus_summary. cbn. f_equal; lia.
  - apply Hstep; [|done]. by rewrite Hz.
Qed.

Lemma summarize_loop_exact fuel stack s budget r budget' :
  Z.of_nat (wsize stack) <= budget -> summarize_loop fuel stack s budget = Some (r, budget') ->
  budget - Z.of_nat (wsize stack) <= budget' /\ forall s', r = Some s' -> s' = plus_summary s (stack_summary stack).
Proof.
  revert stack s budget. induction fuel as [|fuel IH]; intros [|d stack] s budget Hb; cbn [summarize_loop]; try done;
    try (intros [= <- <-]; split; [cbn; lia|]; intros s' [= <-]; by rewrite (right_id zero_summary plus_summary)).
  destruct (read_dir d) as [es|] eqn:Er; [|intros [= <- <-]; split; [lia|done]].
  destruct d as [|[] m es'| | |]; try done. injection Er as <-.
  pose proof (summarize_entries_exact es' s budget stack) as He.
  change (wsize (FDir true m es' :: stack)) with (S (esize es') - 1 + wsize stack)%nat in *. specialize (He ltac:(lia)).
  destruct (summarize_entries es' s budget stack) as [[s1 b1] st1]. destruct He as [E Hb1]. intros Hl.
  destruct (IH st1 s1 b1 ltac:(lia) Hl) as [Hb' Hs]. split; [lia|]. intros s' Hr. rewrite (Hs s' Hr), E. done.
Qed.

(** With enough of the budget left, the summary is that of the whole folder. *)
Lemma summarize_dir_exact fuel d budget r budget' :
  Z.of_nat (fsize d) - 1 <= budget -> is_dir d = true -> summarize_dir fuel d budget = Some (r, budget') ->
  budget - (Z.of_nat (fsize d) - 1) <= budget' /\ forall s, r = Some s -> s = total_summary d.
Proof.
  intros Hb Hd Hs. unfold summarize_dir in Hs. pose proof (fsize_pos d).
  assert (wsize [d] = fsize d - 1)%nat as Hw by (unfold wsize; cbn [foldr]; lia).
  apply summarize_loop_exact in Hs as [Hb' Hs]; [|rewrite Hw; lia]. rewrite Hw in Hb'. split; [lia|].
  intros s Hr. rewrite (Hs s Hr), total_summary_inner. destruct d as [|rd m es| | |]; try done.
  change (stack_summary [FDir rd m es]) with (plus_summary (inner_summary (FDir rd m es)) zero_summary).
  by rewrite (right_id zero_summary plus_summary).
Qed.

Lemma summary_symlinks_pos n t : (fsize t <= n)%nat -> 0 <= ds_symlinks (total_summary t).
Proof.
  revert t. induction n as [|n IH]; intros t Hn; [pose proof (fsize_pos t); lia|].
  destruct t as [data m|r m es| |m|]; cbn; try lia. rewrite foldr_plus_summary. cbn. rewrite Z.add_0_r.
  change (fsize (FDir r m es)) with (S (esize es)) in Hn. assert (esize es <= n)%nat as He by lia. clear Hn.
  induction es as [|[k e] es IHe]; [done|]. change (esize ((k, e) :: es)) with (fsize e + esize es)%nat in He.
  change (entries_summary ((k, e) :: es)) with (plus_summary (total_summary e) (entries_summary es)). cbn [plus_summary ds_symlinks].
  pose proof (IH e ltac:(lia)). pose proof (IHe ltac:(lia)). lia.
Qed.

Lemma entries_summary_pos es : 0 <= ds_symlinks (entries_summary es).
Proof.
  pose proof (summary_symlinks_pos _ (FDir true None es) (Nat.le_refl _)) as H. cbn in H. rewrite foldr_plus_summary in H.
  cbn in H. lia.
Qed.

Lemma find_entry_summary n es c :
  find_entry n es = Some c -> exists rest, entries_summary es = plus_summary (total_summary c) rest /\ 0 <= ds_symlinks rest.
Proof.
  induction es as [|[k v] es IH]; [done|]. cbn [find_entry].
  change (entries_summary ((k, v) :: es)) with (plus_summary (total_summary v) (entries_summary es)). case_bool_decide.
  - intros [= ->]. exists (entries_summary es). split; [done|apply entries_summary_pos].
  - intros (rest & -> & Hr)%IH. exists (plus_summary (total_summary v) rest). split.
    + rewrite !(assoc plus_summary). f_equal. apply (comm plus_summary).
    + cbn. pose proof (summary_symlinks_pos _ v (Nat.le_refl _)). lia.
Qed.

(** Everything inside is part of the summary. *)
Lemma summary_covers t p e :
  tget t p = Some e -> exists rest, total_summary t = plus_summary (own_summary e) rest /\ 0 <= ds_symlinks rest.
Proof.
  revert t. induction p as [|n p IH]; intros t; cbn [tget].
  - intros [= ->]. exists (inner_summary e). split; [apply total_summary_inner|]. apply entries_summary_pos.
  - destruct t as [data m|r m es| |m|]; try done. cbn [entries_of]. destruct (find_entry n es) as [c|] eqn:Ec; [|done].
    cbn. intros (rest & E & Hr)%IH. apply find_entry_summary in Ec as (rest' & Ec & Hr'). rewrite foldr_plus_summary, Ec, E.
    eexists. rewrite <- !(assoc plus_summary). split; [done|]. cbn. lia.
Qed.

Lemma newer_than_max cutoff a b : newer_than cutoff (opt_max a b) = newer_than cutoff a || newer_than cutoff b.
Proof.
  destruct a as [a|], b as [b|]; cbn; try done; [|by rewrite orb_false_r].
  destruct (Z.ltb_spec cutoff a), (Z.ltb_spec cutoff b), (Z.ltb_spec cutoff (Z.max a b)); cbn; try done; lia.
Qed.

(** ** What a scan reports *)

(** Names in a directory are distinct. *)
Definition tree_wf (fs : fnode) : Prop := forall p r m es, tget fs p = Some (FDir r m es) -> NoDup es.*1.

Lemma find_entry_in n e es : NoDup es.*1 -> (n, e) ∈ es -> find_entry n es = Some e.
Proof.
  induction es as [|[k v] es IH]; [by intros _ ?%not_elem_of_nil|]. cbn [fmap list_fmap find_entry].
  intros [Hk Hnd]%NoDup_cons [[= <- <-]|Hin]%elem_of_cons; [by rewrite bool_decide_eq_true_2|].
  rewrite bool_decide_eq_false_2; [by apply IH|]. intros ->. apply Hk, list_elem_of_fmap. by exists (n, e).
Qed.

(** An item is what is at its path, visible, old enough, and used by no torrent; a
    folder has no links in it, and nothing in it is newer or used. *)
Record item_ok (fs : fnode) (roots : list path) (o : OwnedSet) (cutoff : Z) (it : ScanItem) : Prop := {
  io_root : si_root it ∈ roots;
  io_visible : exists rel, si_path it = si_root it ++ rel /\ rel <> [] /\ Forall (fun n => is_hidden_or_system n = false) rel;
  io_unused : si_path it ∉ ow_files o /\ is_protected o (si_path it) = false;
  io_old : newer_than cutoff (si_mtime it) = false;
  io_there :
    match si_kind it with
    | KFile => exists data, tget fs (si_path it) = Some (FFile data (si_mtime it)) /\ si_size it = Z.of_nat (length data)
    | KDir =>
        touches o (si_path it) = false /\
        exists d, tget fs (si_path it) = Some d /\ is_dir d = true /\ si_size it = ds_size (total_summary d) /\
          si_files it = ds_files (total_summary d) /\
          forall rel e, tget d rel = Some e -> e <> FSymlink /\ newer_than cutoff (dir_mtime e) = false
    end
}.

Section ScanSound.
Context (fs : fnode) (roots : list path) (o : OwnedSet) (cutoff : Z) (ext : option bytes).
Context (Hwf : tree_wf fs) (root : path) (Hroot : root ∈ roots).

Record scan_ok (st : ScanState) : Prop := {
  sn_items : Forall (item_ok fs roots o cutoff) (sc_items st);
  sn_limit : (length (sc_items st) <= MAX_ITEMS)%nat;
  sn_ids i it : sc_items st !! i = Some it -> si_id it = Z.of_nat i
}.

Definition visible_at (p : path) (d : fnode) : Prop :=
  tget fs p = Some d /\ exists rel, p = root ++ rel /\ Forall (fun n => is_hidden_or_system n = false) rel.

Lemma push_item_ok st p kind size mtime files reason :
  scan_ok st -> (length (sc_items st) < MAX_ITEMS)%nat ->
  item_ok fs roots o cutoff (mkItem (next_id (sc_items st)) p root kind size mtime files reason) ->
  scan_ok (push_item p root kind size mtime files reason st).
Proof.
  intros [Hi Hl Hids] Hlt Hit. unfold push_item. split; cbn.
  - apply Forall_app. split; [done|by apply Forall_singleton].
  - rewrite length_app. cbn. lia.
  - intros i it [[Hi' Hl']|[-> <-]]%lookup_snoc_Some; [by apply Hids|]. cbn. unfold next_id, MAX_ITEMS in *. lia.
Qed.

Lemma scan_ok_skipped f st : scan_ok st -> scan_ok (on_skipped f st).
Proof. by intros []. Qed.

Lemma scan_ok_budget b st : scan_ok st -> scan_ok (mkScan (sc_items st) (sc_skipped st) b).
Proof. by intros []. Qed.

Hint Resolve scan_ok_skipped scan_ok_budget : core.

Definition stack_ws (l : list (path * fnode)) : nat := wsize l.*2.

Lemma scan_entry_ok fuel p name e st :
  owned_ok o -> scan_ok st -> (length (sc_items st) < MAX_ITEMS)%nat -> visible_at p e -> p <> root ->
  (fsize e <= fuel)%nat -> Z.of_nat (fsize e) - 1 <= sc_budget st ->
  exists st' push, scan_entry fuel o cutoff ext root p name e st = Some (st', push) /\ scan_ok st' /\
    (push = None \/ push = Some (p, e) /\ is_dir e = true) /\
    sc_budget st - (Z.of_nat (fsize e) - 1) <= sc_budget st' - Z.of_nat (stack_ws (option_list push)).
Proof.
  intros Ho Hst Hlt [Hget (rel & Hp & Hvis)] Hne Hf Hb. unfold scan_entry. pose proof (fsize_pos e) as Hpos.
  assert (forall st', scan_ok st' -> sc_budget st - (Z.of_nat (fsize e) - 1) <= sc_budget st' ->
    exists st2 push, Some (st', None) = Some (st2, push) /\ scan_ok st2 /\ (push = None \/ push = Some (p, e) /\ is_dir e = true) /\
      sc_budget st - (Z.of_nat (fsize e) - 1) <= sc_budget st2 - Z.of_nat (stack_ws (option_list push))) as Hret.
  { intros st' Hok' Hb'. exists st', None. split_and!; [done|done|by left|cbn; lia]. }
  assert (rel <> []) as Hrel by (intros ->; rewrite app_nil_r in Hp; done).
  assert (is_protected o p || bool_decide (p ∈ ow_files o) = false -> p ∉ ow_files o /\ is_protected o p = false) as Hun.
  { intros [Hp1 Hp2%bool_decide_eq_false]%orb_false_iff. done. }
  destruct e as [data m|r m es| |m|]; try (apply Hret; [auto|cbn; lia]);
    (destruct (is_protected o p || bool_decide (p ∈ ow_files o)) eqn:Eun; [apply Hret; [done|lia]|]); specialize (Hun eq_refl).
  - destruct (newer_than cutoff m) eqn:En; [apply Hret; [auto|cbn; lia]|].
    apply Hret; [|cbn; lia]. apply push_item_ok; [done|done|]. split; cbn; [done|by exists rel|done|done|by exists data].
  - destruct (bool_decide_reflect (p ∈ ow_ancestors o)) as [Hanc|Hanc].
    { exists st, (Some (p, FDir r m es)). split_and!; [done|done|by right|cbn; lia]. }
    destruct (summarize_dir_total fuel (FDir r m es) (sc_budget st) Hf) as [[res b'] Hs]. rewrite Hs. cbn [mbind option_bind fst snd].
    apply summarize_dir_exact in Hs as [Hb' Hs]; [|done|done].
    destruct res as [s|]; [|apply Hret; [auto|cbn [on_skipped sc_budget]; lia]]. specialize (Hs s eq_refl).
    destruct (newer_than cutoff (ds_newest s)) eqn:En; [apply Hret; [auto|cbn [on_skipped sc_budget]; lia]|].
    destruct (Z.ltb_spec 0 (ds_symlinks s)) as [|Hsym]; [apply Hret; [auto|cbn [on_skipped sc_budget]; lia]|].
    apply Hret; [|cbn [push_item sc_budget]; lia]. apply push_item_ok; [auto|done|]. split; cbn -[total_summary]; [done|by exists rel|done|done|].
    split.
    { unfold touches. destruct Hun as [Hu1 ->]. by rewrite !bool_decide_eq_false_2. }
    exists (FDir r m es). rewrite Hs. split_and!; [done|done|done|done|]. intros rel' e Hg.
    apply summary_covers in Hg as (rest & E & Hr). rewrite Hs, E in En, Hsym. cbn in En, Hsym. rewrite newer_than_max in En.
    apply orb_false_iff in En as [En _]. split; [intros ->; cbn in Hsym; lia|]. by destruct e.
  - apply Hret; [done|lia].
Qed.

Definition all_visible (l : list (path * fnode)) : Prop := Forall (fun pd => visible_at pd.1 pd.2) l.

Lemma stack_ws_cons pd l : stack_ws (pd :: l) = (fsize pd.2 - 1 + stack_ws l)%nat.
Proof. done. Qed.

Lemma stack_ws_app a b : stack_ws (a ++ b) = (stack_ws a + stack_ws b)%nat.
Proof. induction a as [|x a IH]; [done|]. cbn [app]. rewrite !stack_ws_cons, IH. lia. Qed.

Lemma scan_entries_ok fuel dir es st stack :
  owned_ok o -> (exists rel, dir = root ++ rel /\ Forall (fun n => is_hidden_or_system n = false) rel) ->
  Forall (fun e => tget fs (dir ++ [e.1]) = Some e.2) es -> scan_ok st -> all_visible stack ->
  (esize es <= fuel)%nat -> Z.of_nat (esize es + stack_ws stack) <= sc_budget st ->
  exists st' stack', scan_entries fuel o cutoff ext root dir es st stack = Some (st', stack') /\ scan_ok st' /\ all_visible stack' /\
    sc_budget st - Z.of_nat (esize es + stack_ws stack) <= sc_budget st' - Z.of_nat (stack_ws stack') /\
    (ssize stack'.*2 <= esize es + ssize stack.*2)%nat.
Proof.
  intros Ho (rel & Hdir & Hvis) Hes. revert st stack.
  induction Hes as [|[name e] es Hget _ IH]; intros st stack Hst Hstack Hf Hb.
  { exists st, stack. split_and!; [done|done|done|cbn; lia|cbn; lia]. }
  cbn [scan_entries fst snd] in *. change (esize ((name, e) :: es)) with (fsize e + esize es)%nat in *. pose proof (fsize_pos e).
  destruct ((sc_budget st =? 0) || (MAX_ITEMS <=? length (sc_items st))%nat) eqn:Elim.
  { eexists _, _. split_and!; [done|auto|done|cbn [on_skipped sc_budget]; lia|lia]. }
  apply orb_false_iff in Elim as [_ Elim%Nat.leb_gt]. destruct (is_hidden_or_system name) eqn:Eh.
  - destruct (IH (on_skipped skip_hidden (mkScan (sc_items st) (sc_skipped st) (sc_budget st - 1))) stack) as (st' & stack' & E & H1 & H2 & H3 & H4);
      [auto|done|lia|cbn [on_skipped sc_budget]; lia|]. cbn [on_skipped sc_budget] in H3.
    exists st', stack'. split_and!; [exact E|done|done|lia|lia].
  - destruct (scan_entry_ok fuel (dir ++ [name]) name e (mkScan (sc_items st) (sc_skipped st) (sc_budget st - 1)))
      as (st1 & push & -> & Hst1 & Hpush & Hb1); [done|auto|done| | |lia|cbn [sc_budget]; lia|].
    { split; [done|]. exists (rel ++ [name]). rewrite Hdir, <- app_assoc. split; [done|]. apply Forall_app. split; [done|by apply Forall_singleton]. }
    { rewrite Hdir, <- app_assoc. intros E%(f_equal length). rewrite !length_app in E. cbn in E. lia. }
    cbn [mbind option_bind fst snd sc_budget] in *.
    assert (all_visible (option_list push ++ stack)) as Hstack1.
    { destruct Hpush as [->|[-> _]]; [done|]. constructor; [|done]. split; [done|].
      exists (rel ++ [name]). rewrite Hdir, <- app_assoc. split; [done|]. apply Forall_app. split; [done|by apply Forall_singleton]. }
    pose proof (stack_ws_app (option_list push) stack) as Ews.
    destruct (IH st1 (option_list push ++ stack)) as (st' & stack' & E & H1 & H2 & H3 & H4);
      [done|done|lia|lia|]. exists st', stack'. split_and!; [exact E|done|done|lia|].
    assert (ssize (option_list push ++ stack).*2 <= fsize e + ssize stack.*2)%nat; [|lia].
    destruct Hpush as [->|[-> _]]; [change (option_list None ++ stack) with stack; lia|].
    change (option_list (Some (dir ++ [name], e)) ++ stack) with ((dir ++ [name], e) :: stack).
    rewrite fmap_cons, ssize_cons. cbn [snd]. lia.
Qed.

Lemma esize_perm es es' : es ≡ₚ es' -> esize es = esize es'.
Proof. unfold esize. induction 1; cbn; lia. Qed.

Lemma scan_loop_ok fuel stack st :
  owned_ok o -> scan_ok st -> all_visible stack -> (ssize stack.*2 <= fuel)%nat -> Z.of_nat (stack_ws stack) <= sc_budget st ->
  exists st', scan_loop fuel o cutoff ext root stack st = Some st' /\ scan_ok st' /\
    sc_budget st - Z.of_nat (stack_ws stack) <= sc_budget st'.
Proof.
  intros Ho. revert stack st. induction fuel as [|fuel IH]; intros [|[dir d] stack] st Hst Hstack Hf Hb; cbn [scan_loop];
    try (exists st; split_and!; [done|done|lia]).
  { cbn in Hf. pose proof (fsize_pos d). lia. }
  cbn [fmap list_fmap snd] in Hf. rewrite ssize_cons in Hf. rewrite stack_ws_cons in *. cbn [snd] in *. pose proof (fsize_pos d).
  apply Forall_cons in Hstack as [[Hd Hv] Hstack]. cbn [fst snd] in *. destruct (read_dir d) as [es|] eqn:Er.
  - destruct d as [|[] m es'| | |]; try done. injection Er as <-.
    change (fsize (FDir true m es')) with (S (esize es')) in *.
    assert (esize (sort_by by_name es') = esize es') as Es by apply esize_perm, sort_by_perm.
    destruct (scan_entries_ok fuel dir (sort_by by_name es') st stack) as (st1 & stack1 & -> & H1 & H2 & H3 & H4); [done|done| |done|done|lia|lia|].
    { apply Forall_forall. intros [n e] Hin. rewrite sort_by_perm in Hin. rewrite tget_app, Hd. cbn.
      by rewrite (find_entry_in n e es' (Hwf _ _ _ _ Hd) Hin). }
    cbn [mbind option_bind fst snd]. destruct (IH stack1 st1) as (st' & E & Hok & Hb'); [done|done|lia|lia|].
    exists st'. split_and!; [done|done|lia].
  - destruct (IH stack (on_skipped (skip_error dir) st)) as (st' & E & Hok & Hb'); [auto|done|lia|cbn; lia|].
    exists st'. split_and!; [done|done|]. cbn in Hb'. lia.
Qed.
End ScanSound.

(** The entries below the roots. *)
Definition entries_below (fs : fnode) (roots : list path) : nat :=
  sum_list_with (fun r => match tget fs r with Some d => fsize d - 1 | None => 0 end)%nat roots.

Lemma scan_roots_ok fuel fs all o cutoff ext roots st :
  tree_wf fs -> owned_ok o -> (forall r, r ∈ roots -> r ∈ all) -> scan_ok fs all o cutoff st -> (fsize fs <= fuel)%nat ->
  Z.of_nat (entries_below fs roots) <= sc_budget st ->
  exists st', scan_roots fuel fs o cutoff ext roots st = Some st' /\ scan_ok fs all o cutoff st'.
Proof.
  intros Hwf Ho. revert st. induction roots as [|root roots IH]; intros st Hall Hst Hf Hb; cbn [scan_roots]; [by exists st|].
  change (entries_below fs (root :: roots)) with
    (match tget fs root with Some d => fsize d - 1 | None => 0 end + entries_below fs roots)%nat in Hb.
  destruct (is_protected o root).
  { apply IH; [set_solver|done|done|lia]. }
  destruct (tget fs root) as [d|] eqn:Ed; cbn [mbind option_bind].
  - destruct (scan_loop_ok fs all o cutoff ext Hwf root (Hall _ ltac:(by left)) fuel [(root, d)] st) as (st' & -> & Hok & Hb');
      [done|done| | | |].
    + apply Forall_singleton. split; [done|]. exists []. by rewrite app_nil_r.
    + apply tget_size in Ed. cbn. lia.
    + rewrite stack_ws_cons. cbn. lia.
    + cbn [mbind option_bind]. apply IH; [set_solver|done|done|]. rewrite stack_ws_cons in Hb'. cbn in Hb'. lia.
  - apply IH; [set_solver|by apply scan_ok_skipped|done|cbn; lia].
Qed.

(** C29: a scan of fewer than two million entries comes to an end and reports only what
    no torrent uses: visible files and folders below the roots, as they are on disk and
    with their size, nothing newer than the age limit in them, no links, and for a
    folder nothing in it that a torrent uses; at most 5000, numbered from 0. *)
Theorem scan_reports_orphans (fuel : nat) (fs : fnode) (roots : list path) (o : OwnedSet) (min_age : Z) (ext : option bytes) (now : Z) :
  tree_wf fs -> owned_ok o -> (fsize fs <= fuel)%nat -> Z.of_nat (entries_below fs roots) <= MAX_ENTRIES ->
  exists items skipped, scan fuel fs roots o min_age ext now = Some (items, skipped) /\
    Forall (item_ok fs roots o (saturating_sub now min_age)) items /\ (length items <= MAX_ITEMS)%nat /\
    (forall i it, items !! i = Some it -> si_id it = Z.of_nat i).
Proof.
  intros Hwf Ho Hf Hb. unfold scan.
  destruct (scan_roots_ok fuel fs roots o (saturating_sub now min_age) ext roots (mkScan [] (mkSkipped 0 0 0 [] false) MAX_ENTRIES))
    as (st & -> & [Hi Hl Hids]); try done.
  - split; [done|cbn; unfold MAX_ITEMS; lia|by intros].
  - by eexists _, _.
Qed.

(** ** Example *)

Fixpoint wf_tree (t : fnode) : bool :=
  match t with FDir _ _ es => bool_decide (NoDup es.*1) && forallb (fun e => wf_tree e.2) es | _ => true end.

Lemma wf_tree_sound t : wf_tree t = true -> tree_wf t.
Proof.
  intros Ht p. revert t Ht. induction p as [|n p IH]; intros t Ht r m es; cbn [tget].
  - intros [= ->]. cbn in Ht. by apply andb_true_iff in Ht as [Ht%bool_decide_eq_true _].
  - destruct t as [|r' m' es'| | |]; try done. cbn [entries_of wf_tree] in *. apply andb_true_iff in Ht as [_ Ht].
    destruct (find_entry n es') as [c|] eqn:Ec; [|done]. cbn. apply IH. clear -Ht Ec.
    induction es' as [|[k v] es' IH]; [done|]. cbn in *. apply andb_true_iff in Ht as [Hv Ht].
    destruct (bool_decide (k = n)); [by injection Ec as <-|auto].
Qed.

Lemma scan_reports_orphans_witness :
  tree_wf ex_tree /\ owned_ok ex_owned /\
  exists items skipped, scan 20 ex_tree [[ex_dl]] ex_owned 3600 None 10000 = Some (items, skipped) /\
    Forall (item_ok ex_tree [[ex_dl]] ex_owned 6400) items.
Proof.
  assert (tree_wf ex_tree) as Hwf by (apply wf_tree_sound; vm_compute; reflexivity).
  assert (owned_ok ex_owned) as Ho by apply cleanup_owned_ok. split; [exact Hwf|]. split; [exact Ho|].
  destruct (scan_reports_orphans 20 ex_tree [[ex_dl]] ex_owned 3600 None 10000 Hwf Ho) as (items & skipped & E & Hi & _).
  - apply Nat.leb_le. vm_compute. reflexivity.
  - apply Z.leb_le. vm_compute. reflexivity.
  - exists items, skipped. split; [exact E|exact Hi].
Defined.

(** A folder that has been a root before, with a quarantine folder in it, is reported as
    an orphan as a whole and passes the second look. *)
Lemma scan_reports_quarantine_inside :
  let fs := FDir true (Some 0) [([65], FDir true (Some 0) [ ([66], FDir true (Some 0)
    [(QUARANTINE_DIR, FDir true (Some 0) [([7], FDir true (Some 0) [([1], FFile [9] (Some 0))])])])])] in
  exists it skipped, scan 20 fs [[[65]]] OwnedSet_default 3600 None 10000 = Some ([it], skipped) /\ si_path it = [[65]; [66]] /\
    revalidate 20 fs it [[[65]]] OwnedSet_default 3600 10000 = Some None.
Proof. eexists _, _. split_and!; vm_compute; reflexivity. Qed.
