(* ===== verification/IpRanges.v ===== *)
(** * Lists of addresses ([librqbit::ip_ranges])

    A block or allow list is read line by line, [name:first-last], into one interval tree
    for each family.  [str::trim], the check for UTF-8, gunzip and the parser of IPv6
    addresses are arguments; the interval tree is third-party and known by its law. *)

From stdpp Require Import base tactics option list list_numbers numbers decidable sets strings.
From Stdlib Require Import ZArith Lia.
From S2P Require Import Prelude Net FsTree OrphanCleanup.
Open Scope Z_scope.

(** A tree of half-open intervals: a point is found when one of them holds it. *)
Class IntervalTree (T : Type) := {
  tree_from_iter : list (Z * Z) -> T;
  query_point : T -> Z -> bool
}.

Class IntervalTreeLaws (T : Type) `{IntervalTree T} : Prop :=
  query_point_spec l x : query_point (tree_from_iter l) x = true <-> exists r, r ∈ l /\ r.1 <= x < r.2.

(** ** Addresses as text *)

Definition is_digit (c : Z) : bool := (48 <=? c) && (c <=? 57).

(** An octet: one to three digits without a needless zero. *)
Definition parse_octet (s : bytes) : option Z :=
  if forallb is_digit s && (0 <? length s)%nat && (length s <=? 3)%nat
     && negb (bool_decide (head s = Some 48) && (1 <? length s)%nat)
  then
    let v := foldl (fun acc c => acc * 10 + (c - 48)) 0 s in
    if v <=? 255 then Some v else None
  else None.

Fixpoint split_on (sep : Z) (cur s : bytes) : list bytes :=
  match s with
  | [] => [cur]
  | c :: s => if c =? sep then cur :: split_on sep [] s else split_on sep (cur ++ [c]) s
  end.

(** [Ipv4Addr::from_str]. *)
Definition parse_v4 (s : bytes) : option Z :=
  match split_on 46 [] s with
  | [a; b; c; d] =>
      a ← parse_octet a; b ← parse_octet b; c ← parse_octet c; d ← parse_octet d;
      Some (((a * 256 + b) * 256 + c) * 256 + d)
  | _ => None
  end.

(** [split_once] and [rsplit_once]. *)
Fixpoint split_once (sep : Z) (pre s : bytes) : option (bytes * bytes) :=
  match s with
  | [] => None
  | c :: s => if c =? sep then Some (pre, s) else split_once sep (pre ++ [c]) s
  end.

Definition rsplit_once (sep : Z) (s : bytes) : option (bytes * bytes) :=
  match split_once sep [] (reverse s) with
  | Some (a, b) => Some (reverse b, reverse a)
  | None => None
  end.

Definition COLON : Z := 58.
Definition DASH : Z := 45.
Definition HASH : Z := 35.

Inductive IpRange := RangeV4 (start stop : Z) | RangeV6 (start stop : Z).

Section Lists.
Context {T : Type} `{IntervalTree T}.
Variable trim : bytes -> bytes.
Variable parse_v6 : bytes -> option Z.

Definition ip_from_str (s : bytes) : option IpAddr :=
  match parse_v4 s with
  | Some b => Some (IpV4 b)
  | None => IpV6 <$> parse_v6 s
  end.

(** The first and the last address of a line. *)
Definition line_addrs (line : bytes) : option (IpAddr * IpAddr) :=
  let line := trim line in
  if bool_decide (head line = Some HASH) || bool_decide (line = []) then None
  else
    let is_ipv6 := (2 <? length (filter (fun c => c = COLON) line))%nat in
    p ← if is_ipv6 then split_once COLON [] line else rsplit_once COLON line;
    q ← split_once DASH [] p.2;
    a ← ip_from_str q.1;
    b ← ip_from_str q.2;
    Some (a, b).

Definition parse_ip_range (line : bytes) : option IpRange :=
  ab ← line_addrs line;
  match ab with
  | (IpV4 start, IpV4 stop) => Some (RangeV4 start (saturating_add 32 stop 1))
  | (IpV6 start, IpV6 stop) => Some (RangeV6 start (saturating_add 128 stop 1))
  | _ => None
  end.

Record IpRanges := mkRanges {
  ir_v4 : T;
  ir_v4_len : nat;
  ir_v6 : T;
  ir_v6_len : nat
}.

Definition IpRanges_new (v4 v6 : list (Z * Z)) : IpRanges := mkRanges (tree_from_iter v4) (length v4) (tree_from_iter v6) (length v6).

Definition IpRanges_default : IpRanges := IpRanges_new [] [].

Definition ranges_len (r : IpRanges) : nat := (ir_v4_len r + ir_v6_len r)%nat.

Definition has (r : IpRanges) (ip : IpAddr) : bool :=
  match ip with
  | IpV4 a => query_point (ir_v4 r) a
  | IpV6 a => query_point (ir_v6 r) a
  end.

(** ** What is on the list *)

(** The addresses from the first to the last of a line, of one family. *)
Definition line_covers (ip : IpAddr) (line : bytes) : Prop :=
  match line_addrs line, ip with
  | Some (IpV4 a, IpV4 b), IpV4 x | Some (IpV6 a, IpV6 b), IpV6 x => a <= x <= b
  | _, _ => False
  end.

Definition top_address (ip : IpAddr) : Prop :=
  match ip with IpV4 x => x = 2 ^ 32 - 1 | IpV6 x => x = 2 ^ 128 - 1 end.

Definition ip_ok (ip : IpAddr) : Prop :=
  match ip with IpV4 x => 0 <= x < 2 ^ 32 | IpV6 x => 0 <= x < 2 ^ 128 end.

(** The half-open range a line is stored as. *)
Definition line_range (ip : IpAddr) (line : bytes) : Prop :=
  match parse_ip_range line, ip with
  | Some (RangeV4 a b), IpV4 x | Some (RangeV6 a b), IpV6 x => a <= x < b
  | _, _ => False
  end.

Lemma line_range_covers ip line : ip_ok ip -> line_range ip line <-> line_covers ip line /\ ~ top_address ip.
Proof.
  intros Hip. unfold line_range, line_covers, parse_ip_range. destruct (line_addrs line) as [[[a|a] [b|b]]|], ip as [x|x]; cbn in *;
    unfold saturating_add; try tauto; lia.
Qed.

(** ** Reading a list *)

Inductive ListError := TooShort | BadText | BadGzip.

Variable is_utf8 : bytes -> bool.

(** [read_line] until nothing is left: a line has its line feed with it. *)
Fixpoint lines_of (cur s : bytes) : list bytes :=
  match s with
  | [] => if bool_decide (cur = []) then [] else [cur]
  | c :: s => if c =? 10 then (cur ++ [c]) :: lines_of [] s else lines_of (cur ++ [c]) s
  end.

Fixpoint read_ranges (lines : list bytes) (v4 v6 : list (Z * Z)) : result ListError IpRanges :=
  match lines with
  | [] => Ok (IpRanges_new v4 v6)
  | line :: lines =>
      if negb (is_utf8 line) then Err BadText
      else
        match parse_ip_range line with
        | Some (RangeV4 a b) => read_ranges lines (v4 ++ [(a, b)]) v6
        | Some (RangeV6 a b) => read_ranges lines v4 (v6 ++ [(a, b)])
        | None => read_ranges lines v4 v6
        end
  end.

Definition create_from_decoded_stream (s : bytes) : result ListError IpRanges := read_ranges (lines_of [] s) [] [].

(** [first] is how much the reader has at first. *)
Definition create_from_stream (gunzip : bytes -> option bytes) (first : nat) (s : bytes) : result ListError IpRanges :=
  let buffer := take first s in
  if (length buffer <? 2)%nat then Err TooShort
  else if bool_decide (take 2 buffer = [31; 139]) then
    match gunzip s with Some d => create_from_decoded_stream d | None => Err BadGzip end
  else create_from_decoded_stream s.

Context `{!IntervalTreeLaws T}.

Lemma read_ranges_spec lines v4 v6 ip :
  forallb is_utf8 lines = true ->
  exists r, read_ranges lines v4 v6 = Ok r /\
    (has r ip = true <->
      (exists r, r ∈ match ip with IpV4 _ => v4 | IpV6 _ => v6 end /\ r.1 <= match ip with IpV4 x | IpV6 x => x end < r.2) \/
      exists line, line ∈ lines /\ line_range ip line).
Proof.
  revert v4 v6. induction lines as [|line lines IH]; intros v4 v6 Hu; cbn [read_ranges forallb] in *.
  - eexists. split; [done|]. unfold has. destruct ip as [x|x]; cbn; rewrite query_point_spec;
      (split; [by left|]; intros [?|(l & Hl & _)]; [done|by apply not_elem_of_nil in Hl]).
  - apply andb_true_iff in Hu as [-> Hu]. cbn [negb].
    assert ((exists l, l ∈ line :: lines /\ line_range ip l) <->
      line_range ip line \/ exists l, l ∈ lines /\ line_range ip l) as Hcons.
    { split.
      - intros (l & [->|Hl]%elem_of_cons & Hr); [by left|right; by exists l].
      - intros [Hr|(l & Hl & Hr)]; [exists line|exists l]; (split; [set_solver|done]). }
    setoid_rewrite Hcons. clear Hcons. destruct (parse_ip_range line) as [[a b|a b]|] eqn:Ep.
    + destruct (IH (v4 ++ [(a, b)]) v6 Hu) as (r & E & Hr). exists r. split; [done|]. rewrite Hr. unfold line_range at 2. rewrite Ep.
      destruct ip as [x|x]; [|tauto]. setoid_rewrite elem_of_app. setoid_rewrite list_elem_of_singleton. split.
      * intros [(p & [Hp| ->] & Hx)|Hl]; [left; by exists p|right; by left|tauto].
      * intros [(p & Hp & Hx)|[Hx|Hl]]; [left; exists p; tauto|left; exists (a, b); tauto|tauto].
    + destruct (IH v4 (v6 ++ [(a, b)]) Hu) as (r & E & Hr). exists r. split; [done|]. rewrite Hr. unfold line_range at 2. rewrite Ep.
      destruct ip as [x|x]; [tauto|]. setoid_rewrite elem_of_app. setoid_rewrite list_elem_of_singleton. split.
      * intros [(p & [Hp| ->] & Hx)|Hl]; [left; by exists p|right; by left|tauto].
      * intros [(p & Hp & Hx)|[Hx|Hl]]; [left; exists p; tauto|left; exists (a, b); tauto|tauto].
    + destruct (IH v4 v6 Hu) as (r & E & Hr). exists r. split; [done|]. rewrite Hr. unfold line_range at 2. rewrite Ep. tauto.
Qed.
End Lists.

Section Exact.
Context {T : Type} `{IntervalTree T} `{!IntervalTreeLaws T}.
Context (trim : bytes -> bytes) (parse_v6 : bytes -> option Z) (is_utf8 : bytes -> bool).

(** An address is on a list that was read exactly when a line of it names a range
    that holds the address, the highest address of a family excepted; lines that are no
    ranges are passed over. *)
Theorem ip_list_exact (s : bytes) (ip : IpAddr) :
  forallb is_utf8 (lines_of [] s) = true -> ip_ok ip ->
  exists r, create_from_decoded_stream trim parse_v6 is_utf8 s = Ok r /\
    (has r ip = true <-> (exists line, line ∈ lines_of [] s /\ line_covers trim parse_v6 ip line) /\ ~ top_address ip).
Proof.
  intros Hu Hip. destruct (read_ranges_spec trim parse_v6 is_utf8 (lines_of [] s) [] [] ip Hu) as (r & E & Hr).
  exists r. split; [done|]. rewrite Hr.
  setoid_rewrite (fun l => line_range_covers trim parse_v6 ip l Hip). split.
  - intros [(p & Hp & _)|(l & Hl & Hc & Ht)]; [destruct ip; by apply not_elem_of_nil in Hp|]. split; [by exists l|done].
  - intros [(l & Hl & Hc) Ht]. right. by exists l.
Qed.
End Exact.

(** ** Example: the intervals as a list *)

#[local] Instance list_tree : IntervalTree (list (Z * Z)) := {
  tree_from_iter l := l;
  query_point l x := existsb (fun r => (r.1 <=? x) && (x <? r.2)) l
}.

#[local] Instance list_tree_laws : IntervalTreeLaws (list (Z * Z)).
Proof.
  intros l x. cbn. rewrite existsb_exists. setoid_rewrite <- list_elem_of_In. setoid_rewrite andb_true_iff.
  setoid_rewrite Z.leb_le. setoid_rewrite Z.ltb_lt. done.
Qed.

Definition ex_list : bytes := str "# local" ++ [10] ++ str "lan:192.168.1.1-192.168.1.255" ++ [10].

Definition strip (s : bytes) : bytes := match last s with Some 10 => removelast s | _ => s end.

Lemma ip_list_exact_witness :
  ip_ok (IpV4 3232235777) /\
  exists r, create_from_decoded_stream (T := list (Z * Z)) strip (fun _ => None) (fun _ => true) ex_list = Ok r /\
    has r (IpV4 3232235777) = true /\ has r (IpV4 134744072) = false.
Proof.
  assert (ip_ok (IpV4 3232235777)) as Hip by (cbn; lia). split; [exact Hip|].
  destruct (ip_list_exact (T := list (Z * Z)) strip (fun _ => None) (fun _ => true) ex_list (IpV4 3232235777)) as (r & E & Hr);
    [vm_compute; reflexivity|exact Hip|].
  exists r. split; [exact E|]. split.
  - apply Hr. split; [|cbn; lia]. exists (str "lan:192.168.1.1-192.168.1.255" ++ [10]). split.
    + apply (bool_decide_unpack _). vm_compute. exact I.
    + assert (line_addrs strip (fun _ => None) (str "lan:192.168.1.1-192.168.1.255" ++ [10]) = Some (IpV4 3232235777, IpV4 3232236031)) as El
        by (vm_compute; reflexivity).
      unfold line_covers. rewrite El. lia.
  - vm_compute in E. injection E as <-. vm_compute. reflexivity.
Defined.

(** The broadcast address is not on the list even if a line ends with it. *)
Definition ex_all : bytes := str "all:0.0.0.0-255.255.255.255".

Lemma top_address_left_out :
  match create_from_decoded_stream (T := list (Z * Z)) strip (fun _ => None) (fun _ => true) ex_all with
  | Ok r => has r (IpV4 4294967294) = true /\ has r (IpV4 4294967295) = false
  | Err _ => False
  end.
Proof. vm_compute. split; reflexivity. Qed.

(** A range of IPv4 addresses whose name has two colons is taken for IPv6 and lost. *)
Lemma colons_in_name_lost :
  line_addrs strip (fun _ => None) (str "Evil: Corp: 1:1.2.3.4-1.2.3.5") = None /\
  line_addrs strip (fun _ => None) (str "Evil: Corp:1.2.3.4-1.2.3.5") = Some (IpV4 16909060, IpV4 16909061).
Proof. split; vm_compute; reflexivity. Qed.
