(* ===== verification/Magnet.v ===== *)
(** * Magnet links and peer ids ([librqbit_core::magnet], [librqbit_core::peer_id])

    Reading and writing magnet links, and the names clients give themselves in their
    peer ids.  Hexadecimal and base32 text and URLs are read by third-party code, known
    by its laws. *)

From stdpp Require Import base tactics option list list_numbers numbers decidable sets strings.
From Stdlib Require Import ZArith Lia.
From S2P Require Import Prelude HashId FsTree OrphanCleanup IpRanges Bencode.
Open Scope Z_scope.

(** ** Ids as text *)

Class TextCodecs := {
  hex_encode : bytes -> bytes;
  hex_decode : bytes -> option bytes;
  base32_decode : bytes -> option bytes;
  (** the scheme of a URL and the pairs of its query *)
  url_parse : bytes -> option (bytes * list (bytes * bytes))
}.

(** What means itself in a query. *)
Definition plain_char (c : Z) : bool :=
  ((48 <=? c) && (c <=? 57)) || ((65 <=? c) && (c <=? 90)) || ((97 <=? c) && (c <=? 122)) || bool_decide (c ∈ [45; 46; 95; 58; 47; 44]).

Definition plain (b : bytes) : Prop := forallb plain_char b = true.

Definition query_text (pairs : list (bytes * bytes)) : bytes :=
  foldr (fun kv acc => kv.1 ++ [61] ++ kv.2 ++ (if bool_decide (acc = []) then [] else [38] ++ acc)) [] pairs.

Definition MAGNET : bytes := Eval vm_compute in str "magnet".
Definition BTIH : bytes := Eval vm_compute in str "urn:btih:".
Definition BTMH : bytes := Eval vm_compute in str "urn:btmh:1220".
Definition XT : bytes := Eval vm_compute in str "xt".
Definition TR : bytes := Eval vm_compute in str "tr".
Definition DN : bytes := Eval vm_compute in str "dn".
Definition SO : bytes := Eval vm_compute in str "so".

Class TextLaws `{TextCodecs} : Prop := {
  hex_roundtrip b : is_bytes b -> hex_decode (hex_encode b) = Some b;
  hex_length b : length (hex_encode b) = (2 * length b)%nat;
  hex_plain b : plain (hex_encode b);
  url_plain pairs :
    pairs <> [] -> Forall (fun kv => kv.1 <> [] /\ plain kv.1 /\ plain kv.2) pairs ->
    url_parse (MAGNET ++ [58; 63] ++ query_text pairs) = Some (MAGNET, pairs)
}.

Section Links.
Context `{TextCodecs}.

(** [FromStr for Id<N>]: base32 text that stands for another number of bytes panics. *)
Definition id_from_str (n : nat) (s : bytes) : outcome (option Id) :=
  if (length s =? n * 2)%nat then
    Ret (match hex_decode s with
         | Some b => if (length b =? n)%nat then Some b else None
         | None => None
         end)
  else if (length s =? (n + 4) / 5 * 8)%nat then
    match base32_decode s with
    | Some b => if (length b =? n)%nat then Ret (Some b) else Panic
    | None => Ret None
    end
  else Ret None.

Definition as_string (id : Id) : bytes := hex_encode id.

(** ** Magnet links *)

Record Magnet := mkMagnet {
  mg_id20 : option Id;
  mg_id32 : option Id;
  mg_trackers : list bytes;
  mg_name : option bytes;
  mg_select_only : option (list Z)
}.

Definition from_id20 (id20 : Id) (trackers : list bytes) (select_only : option (list Z)) : Magnet :=
  mkMagnet (Some id20) None trackers None select_only.

Definition Magnet_new (id20 id32 : option Id) (trackers : list bytes) (select_only : option (list Z)) : option Magnet :=
  match id20, id32 with
  | None, None => None
  | _, _ => Some (mkMagnet id20 id32 trackers None select_only)
  end.

(** [str::parse::<usize>]. *)
Definition parse_usize (s : bytes) : option Z :=
  let ds := match s with 43 :: ds => ds | _ => s end in
  if bool_decide (ds = []) then None
  else if forallb (fun c => (48 <=? c) && (c <=? 57)) ds then
    if dec_value ds <? 2 ^ 64 then Some (dec_value ds) else None
  else None.

(** [start..=end]. *)
Definition range_inclusive (a b : Z) : list Z := seqZ a (b - a + 1).

(** One element of [so]. *)
Definition file_desc (s : bytes) : list Z :=
  if bool_decide (s = []) then []
  else
    match split_once 45 [] s with
    | Some (a, b) => match parse_usize a, parse_usize b with Some a, Some b => range_inclusive a b | _, _ => [] end
    | None => match parse_usize s with Some i => [i] | None => [] end
    end.

Definition strip_prefix (pre s : bytes) : option bytes :=
  if bool_decide (take (length pre) s = pre) then Some (drop (length pre) s) else None.

Inductive MagnetError := BadUrl | BadScheme | BadInfoHash | BadXt | NoInfoHash.

Record ParseState := mkPS {
  ps_found : bool;
  ps_id20 : option Id;
  ps_id32 : option Id;
  ps_name : option bytes;
  ps_trackers : list bytes;
  ps_files : list Z
}.

(** One pair of the query. *)
Definition parse_pair (st : ParseState) (kv : bytes * bytes) : outcome (result MagnetError ParseState) :=
  let '(key, value) := kv in
  if bool_decide (key = XT) then
    match strip_prefix BTIH value with
    | Some ih =>
        i ← id_from_str 20 ih;
        Ret (match i with
             | Some i => Ok (mkPS true (Some i) (ps_id32 st) (ps_name st) (ps_trackers st) (ps_files st))
             | None => Err BadInfoHash
             end)
    | None =>
        match strip_prefix BTMH value with
        | Some ih =>
            i ← id_from_str 32 ih;
            Ret (match i with
                 | Some i => Ok (mkPS true (ps_id20 st) (Some i) (ps_name st) (ps_trackers st) (ps_files st))
                 | None => Err BadInfoHash
                 end)
        | None => Ret (Err BadXt)
        end
    end
  else if bool_decide (key = TR) then
    Ret (Ok (mkPS (ps_found st) (ps_id20 st) (ps_id32 st) (ps_name st) (ps_trackers st ++ [value]) (ps_files st)))
  else if bool_decide (key = DN) then
    Ret (Ok (if bool_decide (value = []) then st
             else mkPS (ps_found st) (ps_id20 st) (ps_id32 st) (Some value) (ps_trackers st) (ps_files st)))
  else if bool_decide (key = SO) then
    Ret (Ok (mkPS (ps_found st) (ps_id20 st) (ps_id32 st) (ps_name st) (ps_trackers st)
               (ps_files st ++ (split_on 44 [] value ≫= file_desc))))
  else Ret (Ok st).

Fixpoint parse_pairs (st : ParseState) (pairs : list (bytes * bytes)) : outcome (result MagnetError ParseState) :=
  match pairs with
  | [] => Ret (Ok st)
  | kv :: pairs =>
      r ← parse_pair st kv;
      match r with Ok st => parse_pairs st pairs | Err e => Ret (Err e) end
  end.

Definition parse_url (url : bytes) : outcome (result MagnetError Magnet) :=
  match url_parse url with
  | None => Ret (Err BadUrl)
  | Some (scheme, pairs) =>
      if negb (bool_decide (scheme = MAGNET)) then Ret (Err BadScheme)
      else
        r ← parse_pairs (mkPS false None None None [] []) pairs;
        Ret (match r with
             | Err e => Err e
             | Ok st =>
                 if ps_found st then
                   Ok (mkMagnet (ps_id20 st) (ps_id32 st) (ps_trackers st) (ps_name st)
                         (if bool_decide (ps_files st = []) then None else Some (ps_files st)))
                 else Err NoInfoHash
             end)
  end.

Definition parse (url : bytes) : outcome (result MagnetError Magnet) :=
  if (length url =? 40)%nat then
    i ← id_from_str 20 url;
    match i with
    | Some id20 => Ret (Ok (mkMagnet (Some id20) None [] None None))
    | None => parse_url url
    end
  else parse_url url.

(** [Display]. *)
Definition commas (l : list Z) : bytes :=
  match l with [] => [] | x :: l => digits x ++ (l ≫= fun y => 44 :: digits y) end.

Definition magnet_pairs (m : Magnet) : list (bytes * bytes) :=
  option_list ((fun i => (XT, BTIH ++ as_string i)) <$> mg_id20 m) ++
  option_list ((fun i => (XT, BTMH ++ as_string i)) <$> mg_id32 m) ++
  ((fun t => (TR, t)) <$> mg_trackers m) ++
  match mg_select_only m with
  | Some ((_ :: _) as l) => [(SO, commas l)]
  | _ => []
  end.

Definition to_string (m : Magnet) : bytes :=
  MAGNET ++ [58] ++ match magnet_pairs m with [] => [] | l => [63] ++ query_text l end.
End Links.

(** ** Links can be read back *)

Lemma split_on_app sep cur a s : sep ∉ a -> split_on sep cur (a ++ sep :: s) = (cur ++ a) :: split_on sep [] s.
Proof.
  revert cur. induction a as [|c a IH]; intros cur Ha; cbn.
  - by rewrite Z.eqb_refl, app_nil_r.
  - apply not_elem_of_cons in Ha as [Hc Ha]. destruct (Z.eqb_spec c sep); [congruence|]. rewrite IH by done. by rewrite <- app_assoc.
Qed.

Lemma split_on_last sep cur a : sep ∉ a -> split_on sep cur a = [cur ++ a].
Proof.
  revert cur. induction a as [|c a IH]; intros cur Ha; cbn; [by rewrite app_nil_r|].
  apply not_elem_of_cons in Ha as [Hc Ha]. destruct (Z.eqb_spec c sep); [congruence|]. rewrite IH by done. by rewrite <- app_assoc.
Qed.

Lemma split_once_none sep pre a : sep ∉ a -> split_once sep pre a = None.
Proof.
  revert pre. induction a as [|c a IH]; intros pre Ha; [done|]. apply not_elem_of_cons in Ha as [Hc Ha]. cbn.
  destruct (Z.eqb_spec c sep); [congruence|]. by apply IH.
Qed.

Lemma digits_free n c : 0 <= n -> ~ is_digit c -> c ∉ digits n.
Proof. intros Hn Hc Hin. destruct (digits_spec n Hn) as (_ & Hd & _). rewrite Forall_forall in Hd. by apply Hc, Hd. Qed.

Lemma forallb_digits n : 0 <= n -> forallb (fun c => (48 <=? c) && (c <=? 57)) (digits n) = true.
Proof.
  intros Hn. destruct (digits_spec n Hn) as (_ & Hd & _). induction Hd as [|c l Hc _ IH]; [done|]. cbn [forallb].
  rewrite IH, andb_true_r. unfold is_digit in Hc. apply andb_true_iff. rewrite !Z.leb_le. lia.
Qed.

Definition is_index (n : Z) : Prop := 0 <= n < 2 ^ 64.

Lemma file_desc_digits n : is_index n -> file_desc (digits n) = [n].
Proof.
  intros [Hn Hm]. unfold file_desc. destruct (digits_spec n Hn) as (Hne & Hd & Hv). rewrite bool_decide_eq_false_2 by done.
  rewrite split_once_none by (apply digits_free; [done|unfold is_digit; lia]). unfold parse_usize.
  assert (match digits n with 43 :: ds => ds | _ => digits n end = digits n) as ->.
  { destruct (digits n) as [|c l]; [done|]. apply Forall_cons in Hd as [Hc _]. unfold is_digit in Hc.
    destruct (Z.eq_dec c 43); [lia|]. destruct c as [|p|p]; try done. repeat (destruct p as [p|p|]; try done). }
  rewrite bool_decide_eq_false_2 by done. rewrite forallb_digits by done. rewrite Hv.
  destruct (Z.ltb_spec n (2 ^ 64)); [done|lia].
Qed.

Lemma split_commas l : l <> [] -> Forall is_index l -> split_on 44 [] (commas l) = digits <$> l.
Proof.
  intros Hne Hl. destruct l as [|x l]; [done|]. cbn [commas]. apply Forall_cons in Hl as [Hx Hl].
  assert (forall y, is_index y -> 44 ∉ digits y) as Hf by (intros y Hy; apply digits_free; [apply Hy|unfold is_digit; lia]).
  revert x Hx Hne. induction Hl as [|y l Hy _ IH]; intros x Hx _; cbn [mbind list_bind].
  - rewrite app_nil_r, split_on_last by auto. done.
  - cbn [app]. rewrite split_on_app by auto. cbn [app fmap list_fmap]. f_equal. by apply IH.
Qed.

Lemma strip_prefix_app a b : strip_prefix a (a ++ b) = Some b.
Proof. unfold strip_prefix. rewrite take_app_length, drop_app_length. by rewrite bool_decide_eq_true_2. Qed.

Lemma strip_btih_btmh b : strip_prefix BTIH (BTMH ++ b) = None.
Proof. reflexivity. Qed.

Section Roundtrip.
Context `{TextLaws}.

Lemma id_from_str_hex n i : is_id n i -> id_from_str n (as_string i) = Ret (Some i).
Proof.
  intros [Hl Hb]. unfold id_from_str, as_string. rewrite hex_length, Hl.
  rewrite (proj2 (Nat.eqb_eq (2 * n) (n * 2))) by lia. by rewrite hex_roundtrip, Hl, Nat.eqb_refl.
Qed.

Lemma parse_pairs_app st a b :
  parse_pairs st (a ++ b) = (r ← parse_pairs st a; match r with Ok st => parse_pairs st b | Err e => Ret (Err e) end).
Proof.
  revert st. induction a as [|kv a IH]; intros st; [done|]. cbn [app parse_pairs]. destruct (parse_pair st kv) as [[st'|e]|]; [|done..].
  cbn [mbind outcome_bind]. apply IH.
Qed.

Lemma parse_trackers st l :
  parse_pairs st ((fun t => (TR, t)) <$> l) =
  Ret (Ok (mkPS (ps_found st) (ps_id20 st) (ps_id32 st) (ps_name st) (ps_trackers st ++ l) (ps_files st))).
Proof.
  revert st. induction l as [|t l IH]; intros st; [rewrite app_nil_r; by destruct st|].
  cbn [fmap list_fmap parse_pairs]. change (parse_pair st (TR, t)) with
    (Ret (Ok (mkPS (ps_found st) (ps_id20 st) (ps_id32 st) (ps_name st) (ps_trackers st ++ [t]) (ps_files st))) : outcome (result MagnetError _)).
  cbn [mbind outcome_bind]. rewrite IH. cbn. by rewrite <- app_assoc.
Qed.

Lemma parse_id20_pair st i :
  is_id 20 i ->
  parse_pairs st [(XT, BTIH ++ as_string i)] = Ret (Ok (mkPS true (Some i) (ps_id32 st) (ps_name st) (ps_trackers st) (ps_files st))).
Proof.
  intros Hi. cbn [parse_pairs parse_pair]. rewrite bool_decide_eq_true_2 by done.
  rewrite strip_prefix_app, id_from_str_hex by done. done.
Qed.

Lemma parse_id32_pair st i :
  is_id 32 i ->
  parse_pairs st [(XT, BTMH ++ as_string i)] = Ret (Ok (mkPS true (ps_id20 st) (Some i) (ps_name st) (ps_trackers st) (ps_files st))).
Proof.
  intros Hi. cbn [parse_pairs parse_pair]. rewrite bool_decide_eq_true_2 by done.
  rewrite strip_btih_btmh, strip_prefix_app, id_from_str_hex by done. done.
Qed.

Lemma parse_so_pair st l :
  l <> [] -> Forall is_index l ->
  parse_pairs st [(SO, commas l)] =
  Ret (Ok (mkPS (ps_found st) (ps_id20 st) (ps_id32 st) (ps_name st) (ps_trackers st) (ps_files st ++ l))).
Proof.
  intros Hne Hl. change (parse_pairs st [(SO, commas l)]) with
    (Ret (Ok (mkPS (ps_found st) (ps_id20 st) (ps_id32 st) (ps_name st) (ps_trackers st)
       (ps_files st ++ (split_on 44 [] (commas l) ≫= file_desc)))) : outcome (result MagnetError _)).
  rewrite split_commas by done. do 4 f_equal. clear Hne. induction Hl as [|x l Hx _ IH]; [done|]. cbn.
  by rewrite file_desc_digits, IH.
Qed.

(** What a link that is written holds: an info hash, trackers without special
    characters, and file numbers if files are chosen. *)
Record magnet_ok (m : Magnet) : Prop := {
  mo_id20 : forall i, mg_id20 m = Some i -> is_id 20 i;
  mo_id32 : forall i, mg_id32 m = Some i -> is_id 32 i;
  mo_some : mg_id20 m <> None \/ mg_id32 m <> None;
  mo_trackers : Forall plain (mg_trackers m);
  mo_name : mg_name m = None;
  mo_select : forall l, mg_select_only m = Some l -> l <> [] /\ Forall is_index l
}.

Lemma parse_magnet_pairs m :
  magnet_ok m ->
  parse_pairs (mkPS false None None None [] []) (magnet_pairs m) =
  Ret (Ok (mkPS true (mg_id20 m) (mg_id32 m) None (mg_trackers m) (default [] (mg_select_only m)))).
Proof.
  intros [H20 H32 Hs _ _ Hsel]. destruct m as [i20 i32 ts nm so]. cbn in *. unfold magnet_pairs. cbn [mg_id20 mg_id32 mg_trackers mg_select_only].
  rewrite parse_pairs_app.
  assert (exists st, parse_pairs (mkPS false None None None [] []) (option_list ((fun i => (XT, BTIH ++ as_string i)) <$> i20)) = Ret (Ok st) /\
    st = mkPS (bool_decide (i20 <> None)) i20 None None [] []) as (st & -> & ->).
  { destruct i20 as [i|]; [|by eexists]. cbn [fmap option_fmap option_map]. change (option_list (Some ?x)) with [x].
    rewrite parse_id20_pair by auto. by eexists. }
  cbn [mbind outcome_bind]. rewrite parse_pairs_app.
  assert (parse_pairs (mkPS (bool_decide (i20 <> None)) i20 None None [] []) (option_list ((fun i => (XT, BTMH ++ as_string i)) <$> i32))
    = Ret (Ok (mkPS true i20 i32 None [] []))) as ->.
  { destruct i32 as [i|]; [|by rewrite bool_decide_eq_true_2 by tauto].
    cbn [fmap option_fmap option_map]. change (option_list (Some ?x)) with [x]. by rewrite parse_id32_pair by auto. }
  cbn [mbind outcome_bind]. rewrite parse_pairs_app, parse_trackers. cbn [mbind outcome_bind ps_found ps_id20 ps_id32 ps_name ps_trackers ps_files app].
  destruct so as [[|x l]|]; [|destruct (Hsel _ eq_refl) as [Hne Hl]; by rewrite parse_so_pair|done].
  by destruct (Hsel [] eq_refl).
Qed.

Lemma plain_app a b : plain a -> plain b -> plain (a ++ b).
Proof. unfold plain. intros Ha Hb. by rewrite forallb_app, Ha, Hb. Qed.

Lemma digits_plain n : 0 <= n -> plain (digits n).
Proof.
  intros Hn. destruct (digits_spec n Hn) as (_ & Hd & _). unfold plain. induction Hd as [|c l Hc _ IH]; [done|]. cbn [forallb].
  rewrite IH, andb_true_r. unfold is_digit in Hc. unfold plain_char.
  by destruct (Z.leb_spec 48 c), (Z.leb_spec c 57); try lia.
Qed.

Lemma commas_plain l : Forall is_index l -> plain (commas l).
Proof.
  intros Hl. destruct Hl as [|x l Hx Hl]; [done|]. cbn [commas]. apply plain_app; [apply digits_plain, Hx|].
  induction Hl as [|y l Hy _ IH]; [done|]. cbn [mbind list_bind]. apply plain_app; [|done].
  change (44 :: digits y) with ([44] ++ digits y). apply plain_app; [done|apply digits_plain, Hy].
Qed.

Lemma magnet_pairs_plain m : magnet_ok m -> Forall (fun kv => kv.1 <> [] /\ plain kv.1 /\ plain kv.2) (magnet_pairs m).
Proof.
  intros [H20 H32 Hs Ht _ Hsel]. unfold magnet_pairs. repeat apply Forall_app_2.
  - destruct (mg_id20 m); [|constructor]. apply Forall_singleton. split_and!; [done|done|]. by apply plain_app, hex_plain.
  - destruct (mg_id32 m); [|constructor]. apply Forall_singleton. split_and!; [done|done|]. by apply plain_app, hex_plain.
  - apply Forall_fmap. eapply Forall_impl; [exact Ht|]. intros t Hp. done.
  - destruct (mg_select_only m) as [[|x l]|]; [constructor| |constructor]. destruct (Hsel _ eq_refl) as [_ Hl].
    apply Forall_singleton. split_and!; [done|done|by apply commas_plain].
Qed.

Lemma query_text_length kv l : (length kv.2 <= length (query_text (kv :: l)))%nat.
Proof. unfold query_text. cbn [foldr]. rewrite !length_app. lia. Qed.

Lemma magnet_pairs_first m : magnet_ok m -> exists kv l, magnet_pairs m = kv :: l /\ (40 < length kv.2)%nat.
Proof.
  intros [H20 H32 Hs _ _ _]. unfold magnet_pairs. destruct (mg_id20 m) as [i|].
  - eexists _, _. split; [done|]. cbn [snd]. unfold as_string. rewrite length_app, hex_length. destruct (H20 i eq_refl) as [-> _]. cbn. lia.
  - destruct (mg_id32 m) as [i|]; [|tauto]. eexists _, _. split; [done|]. cbn [snd]. unfold as_string. rewrite length_app, hex_length.
    destruct (H32 i eq_refl) as [-> _]. cbn. lia.
Qed.

(** A magnet link that was written from an info hash of either version, trackers and
    chosen files is read back as the same link. *)
Theorem magnet_roundtrip (m : Magnet) : magnet_ok m -> parse (to_string m) = Ret (Ok m).
Proof.
  intros Hm. destruct (magnet_pairs_first m Hm) as (kv & l & Ep & Hlen). unfold parse, to_string. rewrite Ep.
  assert (Nat.eqb (length (MAGNET ++ [58] ++ [63] ++ query_text (kv :: l))) 40 = false) as ->.
  { apply Nat.eqb_neq. rewrite !length_app. pose proof (query_text_length kv l). lia. }
  unfold parse_url. rewrite <- Ep. change ([58] ++ [63] ++ query_text (magnet_pairs m)) with ([58; 63] ++ query_text (magnet_pairs m)).
  rewrite url_plain; [|by rewrite Ep|by apply magnet_pairs_plain]. rewrite bool_decide_eq_true_2 by done. cbn [negb].
  rewrite parse_magnet_pairs by done. cbn [mbind outcome_bind ps_found ps_id20 ps_id32 ps_name ps_trackers ps_files].
  do 2 f_equal. destruct Hm as [_ _ _ _ Hn Hsel]. destruct m as [i20 i32 ts nm so]. cbn in *. subst nm. f_equal.
  destruct so as [l'|]; [|done]. destruct (Hsel l' eq_refl) as [Hne _]. cbn. by rewrite bool_decide_eq_false_2.
Qed.
End Roundtrip.

(** ** Codecs for examples *)

Definition hex_digit (d : Z) : Z := if d <? 10 then 48 + d else 87 + d.
Definition hex_value (c : Z) : option Z :=
  if (48 <=? c) && (c <=? 57) then Some (c - 48)
  else if (97 <=? c) && (c <=? 102) then Some (c - 87)
  else if (65 <=? c) && (c <=? 70) then Some (c - 55)
  else None.

Definition ex_hex_encode (b : bytes) : bytes := b ≫= fun x => [hex_digit (x / 16 mod 16); hex_digit (x mod 16)].

Fixpoint ex_hex_decode (s : bytes) : option bytes :=
  match s with
  | [] => Some []
  | a :: b :: s => x ← hex_value a; y ← hex_value b; l ← ex_hex_decode s; Some (x * 16 + y :: l)
  | _ => None
  end.

Definition ex_url_parse (s : bytes) : option (bytes * list (bytes * bytes)) :=
  q ← strip_prefix (MAGNET ++ [58; 63]) s;
  Some (MAGNET, default [] (mapM (fun p => split_once 61 [] p) (split_on 38 [] q))).

#[local] Instance ex_codecs : TextCodecs := {
  hex_encode := ex_hex_encode;
  hex_decode := ex_hex_decode;
  base32_decode s := Some (replicate (length s * 5 / 8) 0);
  url_parse := ex_url_parse
}.

Lemma hex_value_digit d : 0 <= d < 16 -> hex_value (hex_digit d) = Some d /\ plain_char (hex_digit d) = true.
Proof.
  intros Hd.
  assert (Forall (fun d => hex_value (hex_digit d) = Some d /\ plain_char (hex_digit d) = true) (seqZ 0 16)) as Ha by repeat constructor.
  rewrite Forall_forall in Ha. apply Ha, elem_of_seqZ. lia.
Qed.

Lemma ex_hex_roundtrip b : is_bytes b -> ex_hex_decode (ex_hex_encode b) = Some b.
Proof.
  induction 1 as [|x b Hx _ IH]; [done|].
  change (ex_hex_encode (x :: b)) with (hex_digit (x / 16 mod 16) :: hex_digit (x mod 16) :: ex_hex_encode b). cbn [ex_hex_decode].
  destruct (hex_value_digit (x / 16 mod 16)) as [-> _]; [apply Z.mod_pos_bound; lia|].
  destruct (hex_value_digit (x mod 16)) as [-> _]; [apply Z.mod_pos_bound; lia|]. cbn [mbind option_bind]. rewrite IH. cbn.
  f_equal. f_equal. assert (0 <= x < 256) as Hx' by exact Hx. pose proof (Z.div_mod x 16 ltac:(lia)). pose proof (Z.mod_pos_bound x 16).
  rewrite (Z.mod_small (x / 16)); lia.
Qed.

Lemma ex_hex_plain b : plain (ex_hex_encode b).
Proof.
  unfold plain. induction b as [|x b IH]; [done|].
  change (ex_hex_encode (x :: b)) with (hex_digit (x / 16 mod 16) :: hex_digit (x mod 16) :: ex_hex_encode b). cbn [forallb].
  destruct (hex_value_digit (x / 16 mod 16)) as [_ ->]; [apply Z.mod_pos_bound; lia|].
  destruct (hex_value_digit (x mod 16)) as [_ ->]; [apply Z.mod_pos_bound; lia|]. done.
Qed.

Lemma plain_free c b : plain_char c = false -> plain b -> c ∉ b.
Proof.
  unfold plain. intros Hc Hb Hin. rewrite forallb_forall in Hb. apply list_elem_of_In, Hb in Hin. congruence.
Qed.

Lemma split_once_app sep pre a s : sep ∉ a -> split_once sep pre (a ++ sep :: s) = Some (pre ++ a, s).
Proof.
  revert pre. induction a as [|c a IH]; intros pre Ha; cbn.
  - by rewrite Z.eqb_refl, app_nil_r.
  - apply not_elem_of_cons in Ha as [Hc Ha]. destruct (Z.eqb_spec c sep); [congruence|]. rewrite IH by done. by rewrite <- app_assoc.
Qed.

Lemma split_query pairs :
  pairs <> [] -> Forall (fun kv => kv.1 <> [] /\ plain kv.1 /\ plain kv.2) pairs ->
  split_on 38 [] (query_text pairs) = (fun kv => kv.1 ++ [61] ++ kv.2) <$> pairs.
Proof.
  intros Hne Hp. induction Hp as [|[k v] pairs (Hk & Pk & Pv) Hp IH]; [done|]. clear Hne. cbn [fst snd] in *.
  assert (38 ∉ k ++ [61] ++ v) as Hfree.
  { rewrite !elem_of_app, list_elem_of_singleton. intros [Hin|[Hin|Hin]]; [|done|];
      by revert Hin; apply plain_free. }
  cbn [query_text foldr fst snd]. fold (query_text pairs). destruct pairs as [|kv pairs].
  - cbn [query_text foldr]. rewrite bool_decide_eq_true_2 by done. rewrite app_nil_r, split_on_last by done. done.
  - rewrite bool_decide_eq_false_2.
    + replace (k ++ [61] ++ v ++ [38] ++ query_text (kv :: pairs)) with ((k ++ [61] ++ v) ++ 38 :: query_text (kv :: pairs))
        by by rewrite <- !app_assoc. rewrite split_on_app by done. rewrite IH by done. done.
    + cbn [query_text foldr]. intros E. apply app_eq_nil in E as [_ E]. done.
Qed.

#[local] Instance ex_laws : TextLaws.
Proof.
  split.
  - exact ex_hex_roundtrip.
  - intros b. cbn. induction b as [|x b IH]; [done|]. cbn. unfold ex_hex_encode in IH. cbn in IH. lia.
  - exact ex_hex_plain.
  - intros pairs Hne Hp. cbn [url_parse ex_codecs]. unfold ex_url_parse. rewrite app_assoc, strip_prefix_app. cbn [mbind option_bind].
    rewrite split_query by done. do 2 f_equal. clear Hne.
    assert (mapM (fun p => split_once 61 [] p) ((fun kv => kv.1 ++ [61] ++ kv.2) <$> pairs) = Some pairs) as ->; [|done].
    apply mapM_Some_2, Forall2_fmap_l, Forall_Forall2_diag. eapply Forall_impl; [exact Hp|]. intros [k v] (Hk & Pk & Pv).
    cbn [fst snd] in *. exact (split_once_app 61 [] k v (plain_free 61 k eq_refl Pk)).
Qed.

Definition ex_magnet : Magnet := mkMagnet (Some (replicate 20 171)) None [str "udp://tracker:80"] None (Some [1; 2; 30]).

Lemma magnet_roundtrip_witness : magnet_ok ex_magnet /\ parse (to_string ex_magnet) = Ret (Ok ex_magnet).
Proof.
  assert (magnet_ok ex_magnet) as Hm.
  { split.
    - intros i [= <-]. split; [reflexivity|]. repeat constructor; lia.
    - by intros i.
    - by left.
    - by repeat constructor.
    - reflexivity.
    - intros l [= <-]. split; [done|]. repeat constructor; unfold is_index; lia. }
  split; [exact Hm|exact (magnet_roundtrip ex_magnet Hm)].
Defined.

(** ** Where it goes wrong *)

(** Base32 text of the length that is expected, but with padding, stands for fewer
    bytes: reading a link with it panics. *)
Lemma magnet_base32_panics `{TextCodecs} (ih b : bytes) pairs :
  length ih = 32%nat -> base32_decode ih = Some b -> length b <> 20%nat ->
  url_parse (MAGNET ++ [58; 63] ++ query_text [(XT, BTIH ++ ih)]) = Some (MAGNET, (XT, BTIH ++ ih) :: pairs) ->
  parse (MAGNET ++ [58; 63] ++ query_text [(XT, BTIH ++ ih)]) = Panic.
Proof.
  intros Hl Hb Hn Hu. unfold parse.
  assert (length (MAGNET ++ [58; 63] ++ query_text [(XT, BTIH ++ ih)]) = 52%nat) as ->.
  { cbn [query_text foldr fst snd]. rewrite bool_decide_eq_true_2 by done. rewrite !length_app, Hl. reflexivity. }
  unfold parse_url. cbn [Nat.eqb]. rewrite Hu. rewrite bool_decide_eq_true_2 by done. cbn [negb parse_pairs parse_pair].
  rewrite bool_decide_eq_true_2 by done. rewrite strip_prefix_app. unfold id_from_str. rewrite Hl.
  change (32 =? 20 * 2)%nat with false. change (32 =? (20 + 4) / 5 * 8)%nat with true. cbn iota. rewrite Hb.
  destruct (Nat.eqb_spec (length b) 20); [done|]. done.
Qed.

(** One element of [so] stands for as many files as it says, up to 2{^64}. *)
Lemma file_range_unbounded :
  parse_usize (str "18446744073709551614") = Some 18446744073709551614 /\
  forall n, 0 <= n < 2 ^ 64 -> length (range_inclusive 0 n) = Z.to_nat (n + 1).
Proof. split; [vm_compute; reflexivity|]. intros n Hn. unfold range_inclusive. rewrite length_seqZ. f_equal. lia. Qed.

(** A tracker with an ampersand does not come back. *)
Definition ex_tracker : bytes := str "http://t/a?x=1&y=2".

Lemma tracker_not_escaped :
  exists m, parse (to_string (from_id20 (replicate 20 171) [ex_tracker] None)) = Ret (Ok m) /\ mg_trackers m <> [ex_tracker].
Proof. eexists. split; [vm_compute; reflexivity|]. vm_compute. congruence. Qed.

(** ** Peer ids *)

Inductive AzureusStyleKind := Deluge | LibTorrent | Transmission | QBittorrent | UTorrent | RQBit | OtherClient (b1 b2 : Z).

Record AzureusStyle := mkAzureus {
  az_kind : AzureusStyleKind;
  az_version : list Z
}.

Definition kind_from_bytes (b1 b2 : Z) : AzureusStyleKind :=
  match (b1, b2) with
  | (68, 69) => Deluge
  | (108, 116) | (76, 84) => LibTorrent
  | (84, 82) => Transmission
  | (113, 66) => QBittorrent
  | (85, 84) => UTorrent
  | (114, 81) => RQBit
  | _ => OtherClient b1 b2
  end.

Definition VERSION_MAP : bytes :=
  Eval vm_compute in str "0123456789ABCDEFGHIJKLMNOPQRSTUVWXYZabcdefghijklmnopqrstuvwxyz.-".

Definition version_digit_to_id (d : Z) : option Z := VERSION_MAP !! Z.to_nat d.

Definition version_digit_from_id (d : Z) : option Z :=
  if (48 <=? d) && (d <=? 57) then Some (d - 48)
  else if (65 <=? d) && (d <=? 90) then Some (d - 48 - 10)
  else if (97 <=? d) && (d <=? 122) then Some (d - 48 - 10 - 26)
  else if d =? 46 then Some 62
  else if d =? 45 then Some 63
  else None.

(** The id has twenty bytes. *)
Definition try_decode_azureus_style (p : Id) : option AzureusStyle :=
  if bool_decide (p !! 0%nat = Some 45) && bool_decide (p !! 7%nat = Some 45) then
    version ← mapM version_digit_from_id (take 4 (drop 3 p));
    b1 ← p !! 1%nat; b2 ← p !! 2%nat;
    Some (mkAzureus (kind_from_bytes b1 b2) version)
  else None.

Definition unwrap {A} (o : option A) : outcome A := match o with Some a => Ret a | None => Panic end.

(** [random] are the twelve bytes behind the fingerprint. *)
Definition generate_peer_id (fingerprint random : bytes) : outcome Id :=
  if (length fingerprint =? 8)%nat then Ret (fingerprint ++ random) else Panic.

Definition generate_azereus_style (c1 c2 : Z) (v : Z * Z * Z * Z) (random : bytes) : outcome Id :=
  let '(v0, v1, v2, v3) := v in
  d0 ← unwrap (version_digit_to_id v0);
  d1 ← unwrap (version_digit_to_id v1);
  d2 ← unwrap (version_digit_to_id v2);
  d3 ← unwrap (version_digit_to_id v3);
  generate_peer_id [45; c1; c2; d0; d1; d2; d3; 45] random.

(** What a digit of a version is read back as. *)
Definition digit_read (d : Z) : Z := if d <? 10 then d else if d <? 36 then d - 3 else if d <? 62 then d - 23 else d.

Lemma version_digit_read d :
  0 <= d < 64 -> exists c, version_digit_to_id d = Some c /\ version_digit_from_id c = Some (digit_read d).
Proof.
  intros Hd.
  assert (Forall (fun d => exists c, version_digit_to_id d = Some c /\ version_digit_from_id c = Some (digit_read d)) (seqZ 0 64)) as Ha
    by (repeat constructor; eexists; split; vm_compute; reflexivity).
  rewrite Forall_forall in Ha. apply Ha, elem_of_seqZ. lia.
Qed.

(** The name and the version a client puts into its id: generating never panics below
    64, and reading gives the client back, and the version if its numbers are below 10;
    numbers from 10 to 61 come back smaller. *)
Lemma peer_id_decoded c1 c2 v0 v1 v2 v3 random :
  0 <= v0 < 64 -> 0 <= v1 < 64 -> 0 <= v2 < 64 -> 0 <= v3 < 64 ->
  exists p, generate_azereus_style c1 c2 (v0, v1, v2, v3) random = Ret p /\
    try_decode_azureus_style p = Some (mkAzureus (kind_from_bytes c1 c2) (digit_read <$> [v0; v1; v2; v3])).
Proof.
  intros H0 H1 H2 H3. unfold generate_azereus_style.
  destruct (version_digit_read v0 H0) as (d0 & -> & E0), (version_digit_read v1 H1) as (d1 & -> & E1).
  destruct (version_digit_read v2 H2) as (d2 & -> & E2), (version_digit_read v3 H3) as (d3 & -> & E3).
  eexists. split; [done|]. unfold try_decode_azureus_style. cbn [app lookup list_lookup take drop].
  rewrite !bool_decide_eq_true_2 by done. cbn [andb mapM]. by rewrite E0, E1, E2, E3.
Qed.

(** Version 10.2 is read as 7.2. *)
Lemma version_ten_misread :
  exists p, generate_azereus_style 114 81 (10, 2, 0, 0) (replicate 12 0) = Ret p /\
    try_decode_azureus_style p = Some (mkAzureus RQBit [7; 2; 0; 0]).
Proof. eexists. split; vm_compute; reflexivity. Qed.
