(* ===== verification/Relocate.v ===== *)
(** * Moving the files of a torrent ([librqbit::relocate])

    A move is a rename where that is possible, and otherwise a copy that is read back and
    compared before anything is removed.  The copy of a tree is built as a tree and put
    at its temporary path in one step.  What the file system does is given by
    arguments: which calls on a path work, which paths are on one device, and what the
    copy of a file holds when it is read back.  Links are not followed. *)

From stdpp Require Import base tactics option list list_numbers numbers decidable sets strings sorting.
From Stdlib Require Import ZArith Lia.
From S2P Require Import Prelude Bencode FsTree OrphanCleanup.
Open Scope Z_scope.

Inductive MoveMethod := MNone | MRename | MCopy.

Definition merge (a b : MoveMethod) : MoveMethod :=
  match a, b with
  | MCopy, _ | _, MCopy => MCopy
  | MRename, _ | _, MRename => MRename
  | _, _ => MNone
  end.

Inductive MoveError := AlreadyExists | CrossDevice | IoError | NotFound | CopyFailed | IntoItself.

Record Disk := mkDisk {
  (** making an entry at this path works *)
  dk_io : path -> bool;
  (** removing the entry at this path works *)
  dk_rm : path -> bool;
  dk_same_device : path -> path -> bool;
  (** what the copy of this file holds when it is read back, if nothing failed before *)
  dk_copy : path -> option bytes;
  (** what is left of a copy that failed and could not be removed *)
  dk_left : path -> option fnode;
  dk_now : Z;
  (** process id and sequence number of temporary names *)
  dk_tag : path -> bytes;
  dk_sha1 : bytes -> bytes
}.

Section Moves.
Variable dk : Disk.

(** Nothing is replaced, whether the kernel has [RENAME_NOREPLACE] or not. *)
Definition rename_no_clobber (src dst : path) (fs : fnode) : fnode * result MoveError () :=
  match tget fs dst with
  | Some _ => (fs, Err AlreadyExists)
  | None =>
      if negb (dk_same_device dk src dst) then (fs, Err CrossDevice)
      else
        let '(fs, ok) := rename (dk_io dk) (dk_now dk) src dst fs in
        (fs, if ok then Ok () else Err IoError)
  end.

(** The bytes that were written, read back and compared with what was read. *)
Definition verified (data : bytes) (p : path) : option bytes :=
  w ← dk_copy dk p;
  if bool_decide (dk_sha1 dk w = dk_sha1 dk data) && (length w =? length data)%nat then Some w else None.

(** [copy_file_verified] and [copy_tree_verified]: the copy of what is at [p], and the
    paths that were copied.  Special files stay behind. *)
Fixpoint copy_node (p : path) (t : fnode) : option (option fnode * list path) :=
  match t with
  | FFile data m => w ← verified data p; Some (Some (FFile w m), [p])
  | FSymlink => if dk_io dk p then Some (Some FSymlink, [p]) else None
  | FOther _ => Some (None, [])
  | FNoStat => None
  | FDir readable _ es =>
      if readable then
        r ← (fix go (es : list (bytes * fnode)) : option (list (bytes * fnode) * list path) :=
               match es with
               | [] => Some ([], [])
               | (n, c) :: es =>
                   a ← copy_node (p ++ [n]) c;
                   b ← go es;
                   Some (match a.1 with Some c => (n, c) :: b.1 | None => b.1 end, a.2 ++ b.2)
               end) es;
        Some (Some (FDir true (Some (dk_now dk)) r.1), r.2)
      else None
  end.

Definition MOVING : bytes := Eval vm_compute in str ".rqbit-moving-".

Definition tmp_name (name tag : bytes) : bytes := [46] ++ name ++ MOVING ++ tag.

Definition temp_sibling (dst : path) : path := removelast dst ++ [tmp_name (default [] (file_name dst)) (dk_tag dk dst)].

(** A copy that failed is removed, if that works. *)
Definition drop_copy (tmp : path) (fs : fnode) : fnode :=
  match dk_left dk tmp with
  | None => fs_remove (dk_now dk) tmp fs
  | Some t => fs_insert (dk_now dk) tmp t fs
  end.

Definition remove_source (p : path) (fs : fnode) : fnode :=
  match tget fs p with
  | Some (FDir _ _ _) | None => fs
  | Some _ => if dk_rm dk p then fs_remove (dk_now dk) p fs else fs
  end.

Definition remove_sources (l : list path) (fs : fnode) : fnode := foldl (fun fs p => remove_source p fs) fs l.

Definition remove_dir_at (p : path) (fs : fnode) : fnode :=
  match tget fs p with Some (FDir _ _ []) => if dk_rm dk p then fs_remove (dk_now dk) p fs else fs | _ => fs end.

Definition remove_empty_tree (p : path) (fs : fnode) : fnode := remove_dir_at p (tupd p (remove_empty_dirs (dk_now dk)) fs).

(** The copy at [tmp] is put in place, and the sources removed. *)
Definition finish_copy (src dst tmp : path) (copy dir : bool) (copied : list path) (fs : fnode)
    : fnode * result MoveError MoveMethod :=
  match rename_no_clobber tmp dst fs with
  | (fs, Err e) => (drop_copy tmp fs, Err e)
  | (fs, Ok _) =>
      let fs :=
        if copy then fs
        else
          let fs := remove_sources copied fs in
          if dir then remove_empty_tree src fs else fs in
      (fs, Ok MCopy)
  end.

Definition copy_and_remove (src dst : path) (copy : bool) (fs : fnode) : fnode * result MoveError MoveMethod :=
  let tmp := temp_sibling dst in
  match tget fs src with
  | None | Some FNoStat => (fs, Err NotFound)
  | Some t =>
      let copy_of := if is_dir t then copy_node src t else match t with FFile _ _ => copy_node src t | _ => None end in
      match tget fs tmp, copy_of with
      | None, Some (Some c, copied) =>
          if dk_io dk tmp then finish_copy src dst tmp copy (is_dir t) copied (fs_insert (dk_now dk) tmp c fs)
          else (drop_copy tmp fs, Err CopyFailed)
      | _, _ => (drop_copy tmp fs, Err CopyFailed)
      end
  end.

Definition move_path (src dst : path) (copy : bool) (fs : fnode) : fnode * result MoveError MoveMethod :=
  let '(fs, made) := match parent dst with Some p => create_dir_all (dk_io dk) (dk_now dk) p fs | None => (fs, true) end in
  if negb made then (fs, Err IoError)
  else if path_exists fs dst then (fs, Err AlreadyExists)
  else if copy then copy_and_remove src dst copy fs
  else
    match rename_no_clobber src dst fs with
    | (fs, Ok _) => (fs, Ok MRename)
    | (fs, Err CrossDevice) => copy_and_remove src dst copy fs
    | (fs, Err e) => (fs, Err e)
    end.

(** ** Merging folders *)

Fixpoint find_conflicts (fs t : fnode) (dst rel : path) : list path :=
  match t with
  | FDir true _ es =>
      (fix go (es : list (bytes * fnode)) : list path :=
         match es with
         | [] => []
         | (n, c) :: es =>
             match tget fs (dst ++ rel ++ [n]) with
             | None | Some FNoStat => go es
             | Some tm => (if is_dir c && is_dir tm then find_conflicts fs c dst (rel ++ [n]) else [rel ++ [n]]) ++ go es
             end
         end) es
  | _ => []
  end.

Definition dir_there (fs : fnode) (p : path) : bool := match tget fs p with Some t => is_dir t | None => false end.

(** [t] is what is listed at [src]. *)
Fixpoint merge_dir (t : fnode) (src dst : path) (copy : bool) (fs : fnode) : fnode * result MoveError MoveMethod :=
  match t with
  | FDir true _ es =>
      let '(fs, r) :=
        (fix go (es : list (bytes * fnode)) (method : MoveMethod) (fs : fnode) : fnode * result MoveError MoveMethod :=
           match es with
           | [] => (fs, Ok method)
           | (n, c) :: es =>
               let from := src ++ [n] in
               let to := dst ++ [n] in
               let '(fs, r) := if is_dir c && dir_there fs to then merge_dir c from to copy fs else move_path from to copy fs in
               match r with
               | Ok m => go es (merge method m) fs
               | Err e => (fs, Err e)
               end
           end) es MNone fs in
      match r with
      | Ok m => (if copy then fs else remove_dir_at src fs, Ok m)
      | Err e => (fs, Err e)
      end
  | _ => (fs, Err IoError)
  end.

(** ** Names that are free *)

(** The last dot of a name and what is before it. *)
Fixpoint rfind_dot (pre s : bytes) : option (bytes * bytes) :=
  match s with
  | [] => None
  | c :: s' =>
      match rfind_dot (pre ++ [c]) s' with
      | Some r => Some r
      | None => if c =? 46 then Some (pre, s) else None
      end
  end.

Definition suffixed (p : path) (n : Z) (is_file : bool) : path :=
  let name := default [] (file_name p) in
  let tail := [32; 40] ++ digits n ++ [41] in
  let new :=
    match is_file, rfind_dot [] name with
    | true, Some ((_ :: _) as stem, ext) => stem ++ tail ++ ext
    | _, _ => name ++ tail
    end in
  removelast p ++ [new].

Definition free_path (pid : Z) (fs : fnode) (p : path) (is_file : bool) : path :=
  if negb (path_exists fs p) then p
  else
    match list_find (fun n => path_exists fs (suffixed p n is_file) = false) (seqZ 2 9998) with
    | Some (_, n) => suffixed p n is_file
    | None => suffixed p pid is_file
    end.

(** ** Carrying out a relocation *)

Record FileLoc := mkLoc {
  fl_id : nat;
  fl_current : path;
  fl_rel : path
}.

Record Plan := mkPlan {
  pl_old_output : path;
  pl_new_output : path;
  pl_files : list FileLoc;
  pl_whole_folder : bool;
  pl_own_folder : bool;
  pl_single_file : bool;
  pl_copy : bool
}.

Record Outcome := mkOutcome {
  oc_output_folder : path;
  oc_paths : list (nat * path);
  oc_method : MoveMethod;
  oc_whole_folder : bool;
  oc_moved_files : nat;
  oc_error : option MoveError
}.

Definition unchanged (plan : Plan) (error : option MoveError) : Outcome :=
  mkOutcome (pl_old_output plan) ((fun f => (fl_id f, fl_current f)) <$> pl_files plan) MNone false 0 error.

(** [p.strip_prefix(base)]. *)
Definition strip_base (base p : path) : option path := if starts_with p base then Some (drop (length base) p) else None.

(** Where a file is after a merge that stopped halfway. *)
Definition halfway_path (old dest : path) (merging : bool) (fs : fnode) (f : FileLoc) : path :=
  match strip_base old (fl_current f) with
  | Some r => if merging && path_exists fs (dest ++ r) && negb (path_exists fs (fl_current f)) then dest ++ r else fl_current f
  | None => fl_current f
  end.

(** The progress of the moves one by one: paths, method, number, error and sources. *)
Record Progress := mkProgress {
  pg_paths : list (nat * path);
  pg_method : MoveMethod;
  pg_moved : nat;
  pg_error : option MoveError;
  pg_sources : list path
}.

Definition at_path (f : FileLoc) (p : path) (g : Progress) : Progress :=
  mkProgress (pg_paths g ++ [(fl_id f, p)]) (pg_method g) (pg_moved g) (pg_error g) (pg_sources g).

Definition has_error (g : Progress) : bool := match pg_error g with Some _ => true | None => false end.

(** A file is moved to [to], or stays. *)
Definition move_one (f : FileLoc) (to : path) (copy : bool) (fs : fnode) (g : Progress) : fnode * Progress :=
  match move_path (fl_current f) to copy fs with
  | (fs, Ok m) =>
      (fs, mkProgress (pg_paths g ++ [(fl_id f, to)]) (merge (pg_method g) m) (S (pg_moved g)) (pg_error g) (pg_sources g ++ [fl_current f]))
  | (fs, Err e) =>
      (fs, mkProgress (pg_paths g ++ [(fl_id f, fl_current f)]) (pg_method g) (pg_moved g) (Some e) (pg_sources g))
  end.

(** Files that were elsewhere join the folder that was moved. *)
Fixpoint join_files (old dest : path) (copy : bool) (files : list FileLoc) (fs : fnode) (g : Progress) : fnode * Progress :=
  match files with
  | [] => (fs, g)
  | f :: files =>
      match strip_base old (fl_current f) with
      | Some r =>
          join_files old dest copy files fs
            (mkProgress (pg_paths g ++ [(fl_id f, dest ++ r)]) (pg_method g) (S (pg_moved g)) (pg_error g) (pg_sources g))
      | None =>
          let to := dest ++ fl_rel f in
          if bool_decide (fl_current f = to) || has_error g || negb (path_exists fs (fl_current f)) then
            join_files old dest copy files fs (at_path f (if path_exists fs (fl_current f) then fl_current f else to) g)
          else
            let '(fs, g) := move_one f to copy fs g in
            join_files old dest copy files fs g
      end
  end.

(** Where the folder goes, and whether it is merged into one that is there. *)
Definition whole_dest (pid : Z) (plan : Plan) (t fs : fnode) : path * bool :=
  let target := pl_new_output plan in
  if negb (path_exists fs target) then (target, false)
  else if dir_there fs target && bool_decide (find_conflicts fs t target [] = []) then (target, true)
  else (free_path pid fs target false, false).

Definition execute_whole (pid : Z) (plan : Plan) (t fs : fnode) : fnode * Outcome :=
  let old := pl_old_output plan in
  let '(dest, merging) := whole_dest pid plan t fs in
  let '(fs, r) := if merging then merge_dir t old dest (pl_copy plan) fs else move_path old dest (pl_copy plan) fs in
  match r with
  | Err e =>
      (fs, mkOutcome old ((fun f => (fl_id f, halfway_path old dest merging fs f)) <$> pl_files plan) MNone true 0 (Some e))
  | Ok method =>
      let '(fs, g) := join_files old dest (pl_copy plan) (pl_files plan) fs (mkProgress [] method 0 None []) in
      (fs, mkOutcome dest (pg_paths g) (pg_method g) true (pg_moved g) (pg_error g))
  end.

(** One file after the other, to [to f]. *)
Fixpoint move_files (to : FileLoc -> path) (copy : bool) (files : list FileLoc) (fs : fnode) (g : Progress) : fnode * Progress :=
  match files with
  | [] => (fs, g)
  | f :: files =>
      if bool_decide (fl_current f = to f) || has_error g then move_files to copy files fs (at_path f (fl_current f) g)
      else if negb (path_exists fs (fl_current f)) then move_files to copy files fs (at_path f (to f) g)
      else
        let '(fs, g) := move_one f (to f) copy fs g in
        move_files to copy files fs g
  end.

(** [remove_empty_dirs]: from a folder up to [stop], while they are empty.  The folder is
    given with its last name first. *)
Fixpoint remove_empty_up (rev_cur stop : path) (include_stop : bool) (fs : fnode) : fnode :=
  let cur := reverse rev_cur in
  if negb (starts_with cur stop) || (bool_decide (cur = stop) && negb include_stop) then fs
  else
    match tget fs cur with
    | Some (FDir true _ []) =>
        if dk_rm dk cur then
          let fs := fs_remove (dk_now dk) cur fs in
          if bool_decide (cur = stop) then fs
          else match rev_cur with [] => fs | _ :: rev_cur => remove_empty_up rev_cur stop include_stop fs end
        else fs
    | _ => fs
    end.

Definition remove_empty_parents (old : path) (own : bool) (sources : list path) (fs : fnode) : fnode :=
  foldl (fun fs s => match parent s with Some p => remove_empty_up (reverse p) old own fs | None => fs end) fs sources.

Definition clashes (fs : fnode) (target : path) (f : FileLoc) : bool :=
  let to := target ++ fl_rel f in
  negb (starts_with (fl_current f) target) && negb (bool_decide (to = fl_current f)) && path_exists fs to.

(** The folder the files go to, and the name of a single file when its own is taken. *)
Definition files_dest (pid : Z) (plan : Plan) (fs : fnode) : path * option path :=
  let target := pl_new_output plan in
  let clash := existsb (clashes fs target) (pl_files plan) in
  let single_rename :=
    if clash && pl_single_file plan then
      match pl_files plan with f :: _ => Some (free_path pid fs (target ++ fl_rel f) true) | [] => None end
    else None in
  (if clash && negb (pl_single_file plan) then free_path pid fs target false else target, single_rename).

Definition file_target (d : path * option path) (f : FileLoc) : path :=
  match d.2 with Some p => p | None => d.1 ++ fl_rel f end.

Definition execute_files (pid : Z) (plan : Plan) (fs : fnode) : fnode * Outcome :=
  let old := pl_old_output plan in
  let d := files_dest pid plan fs in
  let '(fs, g) := move_files (file_target d) (pl_copy plan) (pl_files plan) fs (mkProgress [] MNone 0 None []) in
  let fs := if pl_copy plan then fs else remove_empty_parents old (pl_own_folder plan) (pg_sources g) fs in
  (fs, mkOutcome (if has_error g && (pg_moved g =? 0)%nat then old else d.1) (pg_paths g) (pg_method g) false (pg_moved g) (pg_error g)).

Definition execute (pid : Z) (plan : Plan) (fs : fnode) : fnode * Outcome :=
  let old := pl_old_output plan in
  if bool_decide (pl_new_output plan = old) then (fs, unchanged plan None)
  else if pl_whole_folder plan && starts_with (pl_new_output plan) old then (fs, unchanged plan (Some IntoItself))
  else
    match pl_whole_folder plan, tget fs old with
    | true, Some (FDir _ _ _ as t) => execute_whole pid plan t fs
    | _, _ => execute_files pid plan fs
    end.
End Moves.
