(* ===== verification/RelocateSafety.v ===== *)
(** * Moving files loses and overwrites nothing ([librqbit::relocate])

    One move of a file or folder, by rename or by a copy that is compared: at every
    point where it can fail the source or the destination holds the content, and
    nothing else changes. *)

From stdpp Require Import base tactics option list list_numbers numbers decidable sets strings sorting.
From Stdlib Require Import ZArith Lia.
From S2P Require Import Prelude Bencode FsTree OrphanCleanup OrphanSafety OrphanScan Relocate.
Open Scope Z_scope.

(** ** Changes that only take away *)

(** On the paths of [P] nothing appears, and nothing but directories changes. *)
Definition shrinks (P : path -> Prop) (t t' : fnode) : Prop :=
  forall q d, P q -> tget t' q = Some d -> exists d0, tget t q = Some d0 /\ is_dir d = is_dir d0 /\ (is_dir d = false -> d0 = d).

(** On the paths of [P], what is no directory stays. *)
Definition keeps (P : path -> Prop) (t t' : fnode) : Prop :=
  forall q d, P q -> tget t q = Some d -> is_dir d = false -> tget t' q = Some d.

Lemma shrinks_refl P t : shrinks P t t.
Proof. intros q d _ Hq. by exists d. Qed.

Lemma shrinks_trans P t1 t2 t3 : shrinks P t1 t2 -> shrinks P t2 t3 -> shrinks P t1 t3.
Proof.
  intros H12 H23 q d HP Hq. destruct (H23 q d HP Hq) as (d2 & H2 & E2 & N2). destruct (H12 q d2 HP H2) as (d1 & H1 & E1 & N1).
  exists d1. split; [done|]. split; [congruence|]. intros Hd. rewrite N1 by congruence. by apply N2.
Qed.

Lemma shrinks_same P t t' : (forall q, P q -> tget t' q = tget t q) -> shrinks P t t'.
Proof. intros H q d HP Hq. rewrite H in Hq by done. by exists d. Qed.

Lemma tree_keeps_trans P t1 t2 t3 : keeps P t1 t2 -> keeps P t2 t3 -> keeps P t1 t3.
Proof. intros H12 H23 q d HP Hq Hd. apply H23; [done| |done]. by apply H12. Qed.

Lemma keeps_impl (P Q : path -> Prop) t t' : (forall q, Q q -> P q) -> keeps P t t' -> keeps Q t t'.
Proof. intros HPQ H q d HQ. apply H. by apply HPQ. Qed.

Lemma fs_remove_shrinks P now p t : shrinks P t (fs_remove now p t).
Proof.
  intros q d _ Hq. destruct (decide (p = [])) as [->|Hne]; [by exists d|].
  destruct (decide (p `prefix_of` q)) as [[k ->]|Hp]; [by rewrite fs_remove_gone in Hq|].
  destruct (decide (q `prefix_of` removelast p)) as [Hqp|Hqp].
  - unfold fs_remove, file_name in *. destruct (path_cases p) as [->|(b & n & ->)]; [done|].
    rewrite last_snoc, removelast_last in *. destruct Hqp as [k ->]. rewrite tget_tupd_above in Hq.
    destruct (tget t q) as [d0|]; [|done]. injection Hq as <-. exists d0. split; [done|].
    destruct k as [|j k]; cbn; destruct d0; cbn; split; try done.
  - rewrite fs_remove_other in Hq; [by exists d|done|by left].
Qed.

(** [remove_empty_dirs] only takes directories away. *)
Definition empty_dir (t : fnode) : bool := match t with FDir _ _ [] => true | _ => false end.

Fixpoint prune_entries (now : Z) (es : list (bytes * fnode)) : list (bytes * fnode) :=
  match es with
  | [] => []
  | (n, c) :: es =>
      let c' := remove_empty_dirs now c in
      if empty_dir c' then prune_entries now es else (n, c') :: prune_entries now es
  end.

Lemma remove_empty_dirs_eq now m es :
  remove_empty_dirs now (FDir true m es) =
  FDir true (if (length (prune_entries now es) =? length es)%nat then m else Some now) (prune_entries now es).
Proof.
  cbn [remove_empty_dirs]. match goal with |- context [(?f es)] => assert (f es = prune_entries now es) as -> end; [|done].
  induction es as [|[n c] es IH]; [done|]. cbn [prune_entries]. rewrite <- IH.
  destruct (remove_empty_dirs now c) as [|? ? []| | |]; done.
Qed.

Lemma remove_empty_dirs_not now t : is_dir t = false -> remove_empty_dirs now t = t.
Proof. by destruct t. Qed.

Lemma remove_empty_dirs_is_dir now t : is_dir (remove_empty_dirs now t) = is_dir t.
Proof. destruct t as [|[]| | |]; [done|by rewrite remove_empty_dirs_eq|done..]. Qed.

(** What is left below was there: names are distinct. *)
Lemma prune_found now n es c' :
  NoDup es.*1 -> find_entry n (prune_entries now es) = Some c' -> exists c, find_entry n es = Some c /\ c' = remove_empty_dirs now c.
Proof.
  induction es as [|[k v] es IH]; [done|]. cbn [prune_entries find_entry fmap list_fmap fst]. intros [Hk Hnd]%NoDup_cons.
  destruct (bool_decide_reflect (k = n)) as [->|Hne].
  - destruct (empty_dir _).
    + intros Hf. destruct (IH Hnd Hf) as (c & Hc & _). destruct Hk. clear -Hc. induction es as [|[k v'] es IH]; [done|].
      cbn in *. case_bool_decide; [subst; left|right; auto].
    + cbn. rewrite bool_decide_eq_true_2 by done. intros [= <-]. by exists v.
  - destruct (empty_dir _); [by apply IH|]. cbn. rewrite bool_decide_eq_false_2 by done. by apply IH.
Qed.

Lemma remove_empty_dirs_shrinks now t q d :
  tree_wf t -> tget (remove_empty_dirs now t) q = Some d ->
  exists d0, tget t q = Some d0 /\ is_dir d = is_dir d0 /\ (is_dir d = false -> d0 = d).
Proof.
  revert t. induction q as [|n q IH]; intros t Hwf; cbn [tget].
  - intros [= <-]. exists t. rewrite remove_empty_dirs_is_dir. split; [done|]. split; [done|]. intros. by rewrite remove_empty_dirs_not.
  - destruct t as [|[] m es| | |]; try done; [|by exists d]. rewrite remove_empty_dirs_eq. cbn [entries_of].
    destruct (find_entry n (prune_entries now es)) as [c'|] eqn:Ec; [|done]. cbn [mbind option_bind].
    apply prune_found in Ec as (c & Ec & ->); [|by apply (Hwf [] true m)]. rewrite Ec. cbn [mbind option_bind]. apply IH.
    intros p r m' es' Hp. apply (Hwf (n :: p) r m'). cbn. by rewrite Ec.
Qed.

(** ** Names stay distinct *)

Lemma tree_wf_dir r m es : tree_wf (FDir r m es) <-> NoDup es.*1 /\ forall n c, find_entry n es = Some c -> tree_wf c.
Proof.
  split.
  - intros H. split; [by apply (H [] r m)|]. intros n c Hc p r' m' es' Hp. apply (H (n :: p) r' m'). cbn. by rewrite Hc.
  - intros [Hnd Hc] [|n p] r' m' es'; cbn; [by intros [= <- <- <-]|]. destruct (find_entry n es) as [c|] eqn:E; [|done]. cbn.
    by apply Hc with n.
Qed.

Lemma tree_wf_leaf t : is_dir t = false -> tree_wf t.
Proof. intros Ht [|n p] r m es; destruct t; done. Qed.

Lemma tree_wf_sub t p u : tree_wf t -> tget t p = Some u -> tree_wf u.
Proof. intros Ht Hp q r m es Hq. apply (Ht (p ++ q) r m). by rewrite tget_app, Hp. Qed.

Lemma alter_entry_names n f es : (alter_entry n f es).*1 = es.*1.
Proof. unfold alter_entry. rewrite <- list_fmap_compose. apply list_fmap_ext. intros i e _. cbn. by case_bool_decide. Qed.

Lemma tupd_wf p f t : (forall d, tget t p = Some d -> tree_wf d -> tree_wf (f d)) -> tree_wf t -> tree_wf (tupd p f t).
Proof.
  revert t. induction p as [|n p IH]; intros t Hf Ht; cbn [tupd]; [by apply Hf|]. destruct t as [|r m es| | |]; try done.
  apply tree_wf_dir in Ht as [Hnd Hc]. apply tree_wf_dir. rewrite alter_entry_names. split; [done|]. intros k c.
  rewrite find_entry_alter. case_bool_decide; [subst k|by apply Hc]. destruct (find_entry n es) as [c0|] eqn:E; [|done].
  intros [= <-]. apply IH; [|by apply (Hc n)]. intros d Hd. apply Hf. cbn. by rewrite E.
Qed.

Lemma filter_names_NoDup (n : bytes) (es : list (bytes * fnode)) : NoDup es.*1 -> NoDup (filter (fun e => e.1 <> n) es).*1.
Proof.
  induction es as [|[k v] es IH]; [done|]. rewrite fmap_cons. intros [Hk Hnd]%NoDup_cons. destruct (decide (k = n)) as [->|Hne].
  - rewrite filter_cons_False by (cbn; tauto). auto.
  - rewrite filter_cons_True by done. rewrite fmap_cons. apply NoDup_cons. split; [|auto]. rewrite list_elem_of_fmap. intros (e & E & He). cbn in E. subst k.
    apply list_elem_of_filter in He as [_ He]. apply Hk. cbn. apply list_elem_of_fmap. by exists e.
Qed.

Lemma dir_remove_wf now n t : tree_wf t -> tree_wf (dir_remove now n t).
Proof.
  destruct t as [|r m es| | |]; try done. cbn [dir_remove]. rewrite !tree_wf_dir. intros [Hnd Hc]. split; [by apply filter_names_NoDup|].
  intros k c. rewrite find_entry_filter. case_bool_decide; [done|by apply Hc].
Qed.

Lemma dir_insert_wf now n x t : tree_wf x -> tree_wf t -> tree_wf (dir_insert now n x t).
Proof.
  intros Hx. destruct t as [|r m es| | |]; try done. cbn [dir_insert]. rewrite !tree_wf_dir. intros [Hnd Hc]. split.
  - rewrite fmap_app. apply NoDup_app. split; [by apply filter_names_NoDup|]. split; [|by apply NoDup_singleton].
    intros k (e & -> & He)%list_elem_of_fmap E%list_elem_of_singleton. by apply list_elem_of_filter in He as [He _].
  - intros k c. rewrite find_entry_app, find_entry_filter. case_bool_decide; cbn.
    + rewrite bool_decide_eq_true_2 by done. by intros [= <-].
    + destruct (find_entry k es) eqn:E; [intros [= <-]; by apply (Hc k)|]. case_bool_decide; congruence.
Qed.

Lemma fs_remove_wf now p t : tree_wf t -> tree_wf (fs_remove now p t).
Proof. unfold fs_remove. intros Ht. destruct (file_name p); [|done]. apply tupd_wf; [|done]. intros d _. apply dir_remove_wf. Qed.

Lemma fs_insert_wf now p x t : tree_wf x -> tree_wf t -> tree_wf (fs_insert now p x t).
Proof. unfold fs_insert. intros Hx Ht. destruct (file_name p); [|done]. apply tupd_wf; [|done]. intros d _. by apply dir_insert_wf. Qed.

Lemma create_dirs_wf io now dir rest t : tree_wf t -> tree_wf (create_dirs io now dir rest t).1.
Proof.
  revert dir t. induction rest as [|n rest IH]; intros dir t Ht; [done|]. cbn [create_dirs].
  destruct (tget t (dir ++ [n])) as [c|]; [destruct (is_dir c); [by apply IH|done]|]. destruct (io (dir ++ [n])); [|done].
  apply IH, fs_insert_wf; [|done]. apply tree_wf_dir. split; [constructor|done].
Qed.

Lemma rename_wf io now src dst t : tree_wf t -> tree_wf (rename io now src dst t).1.
Proof.
  intros Ht. unfold rename. destruct (tget t src) as [x|] eqn:Ex; [|done].
  destruct (parent dst ≫= tget t) as [[]|]; try done. destruct (_ && _); [|done].
  apply fs_insert_wf; [by apply (tree_wf_sub t src)|by apply fs_remove_wf].
Qed.

Lemma prune_names now es k : k ∈ (prune_entries now es).*1 -> k ∈ es.*1.
Proof.
  induction es as [|[n c] es IH]; [done|]. cbn. destruct (empty_dir _); [intros; right; auto|]. cbn.
  intros [->|?]%elem_of_cons; [left|right; auto].
Qed.

Lemma remove_empty_dirs_wf now t : tree_wf t -> tree_wf (remove_empty_dirs now t).
Proof.
  intros Ht p. revert t Ht. induction p as [|n p IH]; intros t Ht r m es.
  - destruct t as [|[] m' es'| | |]; [done| |intros [= <- <- <-]; by apply (Ht [] false m')|done..]. rewrite remove_empty_dirs_eq.
    intros [= <- _ <-]. apply tree_wf_dir in Ht as [Hnd _]. clear -Hnd. induction es' as [|[n c] es IH]; [done|]. cbn in *.
    apply NoDup_cons in Hnd as [Hn Hnd]. destruct (empty_dir _); [auto|]. cbn. apply NoDup_cons. split; [|auto].
    by intros ?%prune_names.
  - destruct t as [|[] m' es'| | |]; try done; [|by apply Ht]. rewrite remove_empty_dirs_eq. cbn.
    destruct (find_entry n (prune_entries now es')) as [c'|] eqn:E; [|done]. cbn. apply tree_wf_dir in Ht as [Hnd Hc].
    apply prune_found in E as (c & E & ->); [|done]. apply IH. by apply (Hc n).
Qed.

(** ** Copies *)

Lemma esize_in es k v : (k, v) ∈ es -> (fsize v <= esize es)%nat.
Proof.
  unfold esize. induction es as [|[j u] es IH]; [by intros ?%elem_of_nil|]. cbn [foldr snd].
  intros [[= <- <-]|Hin]%elem_of_cons; [lia|]. apply IH in Hin. lia.
Qed.

(** Equal as far as the check of a copy can tell. *)
Definition same_content (dk : Disk) (w data : bytes) : Prop := dk_sha1 dk w = dk_sha1 dk data /\ length w = length data.

(** A file with the content [data] is at [p]. *)
Definition holds (dk : Disk) (t : fnode) (p : path) (data : bytes) : Prop :=
  exists w m, tget t p = Some (FFile w m) /\ same_content dk w data.

Lemma same_content_trans dk a b c : same_content dk a b -> same_content dk b c -> same_content dk a c.
Proof. intros [] []. split; congruence. Qed.

Section Copying.
Variable dk : Disk.

Lemma verified_same data p w : verified dk data p = Some w -> same_content dk w data.
Proof.
  unfold verified. destruct (dk_copy dk p) as [w'|]; [|done]. cbn. case_bool_decide as Es; [|done]. cbn.
  destruct (Nat.eqb_spec (length w') (length data)); [|done]. by intros [= <-].
Qed.

Fixpoint copy_entries (p : path) (es : list (bytes * fnode)) : option (list (bytes * fnode) * list path) :=
  match es with
  | [] => Some ([], [])
  | (n, c) :: es =>
      a ← copy_node dk (p ++ [n]) c;
      b ← copy_entries p es;
      Some (match a.1 with Some c => (n, c) :: b.1 | None => b.1 end, a.2 ++ b.2)
  end.

Lemma copy_node_dir p r m es :
  copy_node dk p (FDir r m es) = if r then b ← copy_entries p es; Some (Some (FDir true (Some (dk_now dk)) b.1), b.2) else None.
Proof.
  destruct r; [|done]. cbn [copy_node]. match goal with |- context [(?f es)] => assert (f es = copy_entries p es) as -> end; [|done].
  induction es as [|[n c] es IH]; [done|]. cbn [copy_entries]. by rewrite <- IH.
Qed.

Record copy_ok (p : path) (t : fnode) (c : option fnode) (copied : list path) : Prop := {
  co_files : forall rel data m, tget t rel = Some (FFile data m) -> exists c', c = Some c' /\ holds dk c' rel data;
  co_under : Forall (fun x => p `prefix_of` x) copied;
  co_wf : forall c', c = Some c' -> tree_wf t -> tree_wf c'
}.

Lemma copy_entries_ok p es es' copied :
  (forall n c a l, (n, c) ∈ es -> copy_node dk (p ++ [n]) c = Some (a, l) -> copy_ok (p ++ [n]) c a l) ->
  copy_entries p es = Some (es', copied) ->
  (forall n c a rel data m, find_entry n es = Some c -> tget c rel = Some (FFile data m) ->
     (find_entry n es' ≫= fun c' => tget c' rel) = a -> exists w m', a = Some (FFile w m') /\ same_content dk w data) /\
  Forall (fun x => p `prefix_of` x) copied /\
  (forall k, k ∈ es'.*1 -> k ∈ es.*1) /\
  (NoDup es.*1 -> (forall n c, find_entry n es = Some c -> tree_wf c) ->
   NoDup es'.*1 /\ forall n c, find_entry n es' = Some c -> tree_wf c).
Proof.
  revert es' copied. induction es as [|[n c] es IH]; intros es' copied Hes; cbn [copy_entries].
  { intros [= <- <-]. split; [done|]. split; [constructor|]. split; [done|]. intros. split; [constructor|done]. }
  destruct (copy_node dk (p ++ [n]) c) as [[a l]|] eqn:Ea; [|done]. cbn.
  destruct (copy_entries p es) as [[es1 l1]|]; [|done]. cbn. intros [= <- <-].
  destruct (Hes n c a l ltac:(left) Ea) as [Hfiles Hunder Hwf].
  destruct (IH es1 l1) as (IHf & IHu & IHn & IHw); [intros; eapply Hes; [by right|done]|done|]. split; [|split; [|split]].
  - intros k c0 x rel data m Hk Hrel Hx. cbn [find_entry] in Hk. destruct (bool_decide_reflect (n = k)) as [->|Hne].
    + injection Hk as ->. destruct (Hfiles rel data m Hrel) as (c' & -> & w & m' & Hw & Hs). cbn in Hx.
      rewrite bool_decide_eq_true_2 in Hx by done. cbn in Hx. exists w, m'. by rewrite <- Hx.
    + apply (IHf k c0 x rel data m Hk Hrel). destruct a as [c'|]; [|done]. cbn in Hx. by rewrite bool_decide_eq_false_2 in Hx.
  - apply Forall_app. split; [|done]. eapply Forall_impl; [exact Hunder|]. intros x [k ->]. rewrite <- app_assoc. by apply prefix_app_r.
  - intros k. destruct a; cbn; [intros [->|?]%elem_of_cons; [left|right; auto]|right; auto].
  - cbn. intros [Hn Hnd]%NoDup_cons Hc. destruct IHw as [Hnd1 Hc1]; [done| |].
    { intros k c0 Hk. apply (Hc k). destruct (bool_decide_reflect (n = k)) as [->|]; [|done]. destruct Hn.
      clear -Hk. induction es as [|[j v] es IH]; [done|]. cbn in *. case_bool_decide; [subst; left|right; auto]. }
    destruct a as [c'|]; [|done]. cbn. split.
    + apply NoDup_cons. split; [|done]. by intros ?%IHn.
    + intros k c0. case_bool_decide; [|by apply Hc1]. intros [= <-]. apply Hwf; [done|]. apply (Hc n). by rewrite bool_decide_eq_true_2.
Qed.

Lemma copy_node_ok p t c copied : copy_node dk p t = Some (c, copied) -> copy_ok p t c copied.
Proof.
  enough (forall n p t c copied, (fsize t <= n)%nat -> copy_node dk p t = Some (c, copied) -> copy_ok p t c copied) by eauto.
  clear. induction n as [|n IH]; intros p t c copied Hn; [pose proof (fsize_pos t); lia|].
  destruct t as [data m|r m es| |mt|]; try done.
  - cbn. destruct (verified dk data p) as [w|] eqn:Ew; [|done]. intros [= <- <-]. split.
    + intros [|? ?] d m'; [|done]. intros [= <- <-]. exists (FFile w m). split; [done|]. exists w, m. split; [done|by apply verified_same in Ew].
    + by repeat constructor.
    + intros c' [= <-] _. by apply tree_wf_leaf.
  - rewrite copy_node_dir. destruct r; [|done]. destruct (copy_entries p es) as [[es' l]|] eqn:Ees; [|done]. intros [= <- <-].
    apply copy_entries_ok in Ees as (Hf & Hu & _ & Hw).
    + split; [|done|].
      * intros [|k rel] d m'; [done|]. cbn. destruct (find_entry k es) as [c|] eqn:Ek; [|done]. cbn. intros Hrel. eexists. split; [done|].
        destruct (Hf k c _ rel d m' Ek Hrel eq_refl) as (w & m0 & Hget & Hs). by exists w, m0.
      * intros c' [= <-]. rewrite !tree_wf_dir. cbn. intros []. by apply Hw.
    + intros k c a l' Hin Hc. apply IH; [|done]. cbn in Hn.
      pose proof (esize_in es k c Hin) as Hsz. unfold esize in Hsz. lia.
  - cbn. destruct (dk_io dk p); [|done]. intros [= <- <-]. split; [by intros []|by repeat constructor|].
    intros c' [= <-] _. by apply tree_wf_leaf.
  - cbn. intros [= <- <-]. split; [by intros []|constructor|done].
Qed.
End Copying.

(** ** Where a change can be seen *)

Definition apart (a b : path) : Prop := ~ a `prefix_of` b /\ ~ b `prefix_of` a.

Lemma apart_sym a b : apart a b -> apart b a.
Proof. unfold apart. tauto. Qed.

Lemma apart_below a b q : apart a b -> a `prefix_of` q -> apart q b.
Proof.
  intros [Hab Hba] Hq. split; [intros H; apply Hab; by etransitivity|]. intros H.
  destruct (prefix_weak_total a b q Hq H); contradiction.
Qed.

Lemma apart_app a b k j : apart a b -> apart (a ++ k) (b ++ j).
Proof. intros H. eapply apart_below, prefix_app_r; [|done]. apply apart_sym. eapply apart_below, prefix_app_r; [|done]. by apply apart_sym. Qed.

(** Only what is at one of the paths of [A], below it or leading to it may differ, and
    what leads to it only if it is a directory. *)
Definition confined (A : list path) (t t' : fnode) : Prop :=
  forall q, Forall (fun a => ~ a `prefix_of` q) A ->
    Forall (fun a => ~ q `prefix_of` a) A \/ (exists d, tget t q = Some d /\ is_dir d = false) -> tget t' q = tget t q.

Lemma confined_trans A t1 t2 t3 : confined A t1 t2 -> confined A t2 t3 -> confined A t1 t3.
Proof. intros H12 H23 q Ha Hq. rewrite H23; [by apply H12|done|]. rewrite H12 by done. done. Qed.

Lemma confined_under A B t t' : Forall (fun b => exists a, a ∈ A /\ a `prefix_of` b) B -> confined B t t' -> confined A t t'.
Proof.
  intros HB H q Ha Hq. rewrite Forall_forall in Ha, HB. apply H.
  - apply Forall_forall. intros b (a & Hin & Hab)%HB Hbq. apply (Ha a Hin). by etransitivity.
  - destruct Hq as [Hq|Hq]; [left|by right]. rewrite Forall_forall in Hq. apply Forall_forall. intros b (a & Hin & Hab)%HB Hqb.
    destruct (prefix_weak_total a q b Hab Hqb); [by apply (Ha a)|by apply (Hq a)].
Qed.

Lemma confined_apart A t t' q : confined A t t' -> Forall (fun a => apart a q) A -> tget t' q = tget t q.
Proof. intros H Hq. apply H; [|left]; eapply Forall_impl; try exact Hq; by intros a []. Qed.

Lemma confined_file A t t' q d : confined A t t' -> Forall (fun a => ~ a `prefix_of` q) A -> tget t q = Some d -> is_dir d = false -> tget t' q = Some d.
Proof. intros H Ha Hd Hn. rewrite H; [done|done|right; by exists d]. Qed.

Lemma fs_remove_confined now p t : confined [p] t (fs_remove now p t).
Proof.
  intros q [Hp _]%Forall_cons Hq. apply fs_remove_other; [done|]. destruct Hq as [[Hq _]%Forall_cons|Hq]; [left|by right].
  intros H. apply Hq. etransitivity; [exact H|apply removelast_prefix_of].
Qed.

Lemma fs_insert_confined now p x t : confined [p] t (fs_insert now p x t).
Proof.
  intros q [Hp _]%Forall_cons Hq. apply fs_insert_other; [done|]. destruct Hq as [[Hq _]%Forall_cons|Hq]; [left|by right].
  intros H. apply Hq. etransitivity; [exact H|apply removelast_prefix_of].
Qed.

Lemma tupd_confined p f t : confined [p] t (tupd p f t).
Proof.
  intros q [Hp _]%Forall_cons Hq. destruct (decide (q `prefix_of` p)) as [[k ->]|Hn]; [|by apply tget_tupd_other].
  rewrite tget_tupd_above. destruct Hq as [[Hq _]%Forall_cons|(d & -> & Hd)]; [by destruct Hq; apply prefix_app_r|].
  destruct k as [|n k]; [|by destruct d]. destruct Hp. by rewrite app_nil_r.
Qed.

(** Removing an empty folder takes no file away. *)
Lemma remove_empty_keeps now fs c r m : tget fs c = Some (FDir r m []) -> keeps (fun _ => True) fs (fs_remove now c fs).
Proof.
  intros Hc q d _ Hq Hd. apply (confined_file [c] fs _ q d (fs_remove_confined _ _ _)); [|done|done]. constructor; [|done].
  intros [[|j k] ->]; [rewrite app_nil_r, Hc in Hq; by injection Hq as <-|by rewrite tget_app, Hc in Hq].
Qed.

(** ** One move *)

Section OneMove.
Variable dk : Disk.

Lemma temp_sibling_apart dst : dst <> [] -> apart (temp_sibling dk dst) dst.
Proof.
  intros Hne. destruct (path_cases dst) as [->|(d & n & ->)]; [done|]. unfold temp_sibling, file_name. rewrite last_snoc, removelast_last. cbn [default from_option id].
  assert (tmp_name n (dk_tag dk (d ++ [n])) <> n) as Hd.
  { intros E. apply (f_equal length) in E. unfold tmp_name in E. rewrite !length_app in E. cbn in E. lia. }
  generalize dependent (tmp_name n (dk_tag dk (d ++ [n]))). intros x Hd.
  split; intros [k E]; rewrite <- app_assoc in E; apply app_inv_head in E; injection E; intros; subst; by apply Hd.
Qed.

Lemma temp_sibling_parent dst : removelast (temp_sibling dk dst) = removelast dst.
Proof. unfold temp_sibling. by rewrite removelast_last. Qed.

Lemma temp_sibling_not_root dst : temp_sibling dk dst <> [].
Proof. unfold temp_sibling. by destruct (removelast dst). Qed.

Lemma drop_copy_confined tmp fs : confined [tmp] fs (drop_copy dk tmp fs).
Proof. unfold drop_copy. destruct (dk_left dk tmp); [apply fs_insert_confined|apply fs_remove_confined]. Qed.

Lemma remove_source_confined p fs : confined [p] fs (remove_source dk p fs).
Proof. unfold remove_source. destruct (tget fs p) as [[]|]; try done; destruct (dk_rm dk p); try done; apply fs_remove_confined. Qed.

Lemma remove_source_wf p fs : tree_wf fs -> tree_wf (remove_source dk p fs).
Proof. intros. unfold remove_source. destruct (tget fs p) as [[]|]; try done; destruct (dk_rm dk p); try done; by apply fs_remove_wf. Qed.

Lemma remove_source_shrinks P p fs : shrinks P fs (remove_source dk p fs).
Proof.
  unfold remove_source. destruct (tget fs p) as [[]|]; try apply shrinks_refl; (destruct (dk_rm dk p); [apply fs_remove_shrinks|apply shrinks_refl]).
Qed.

Lemma remove_sources_ok l src fs :
  Forall (fun x => src `prefix_of` x) l -> tree_wf fs ->
  confined [src] fs (remove_sources dk l fs) /\ tree_wf (remove_sources dk l fs) /\ forall P, shrinks P fs (remove_sources dk l fs).
Proof.
  revert fs. induction l as [|x l IH]; intros fs Hl Hwf; [split; [done|split; [done|intros; apply shrinks_refl]]|].
  apply Forall_cons in Hl as [Hx Hl]. destruct (IH (remove_source dk x fs) Hl) as (Hc & Hw & Hs); [by apply remove_source_wf|].
  split; [|split; [done|]].
  - eapply confined_trans; [|exact Hc]. eapply confined_under; [|apply remove_source_confined].
    constructor; [|done]. exists src. split; [left|done].
  - intros P. eapply shrinks_trans; [apply remove_source_shrinks|apply Hs].
Qed.

Lemma remove_dir_at_ok p fs :
  tree_wf fs -> confined [p] fs (remove_dir_at dk p fs) /\ tree_wf (remove_dir_at dk p fs) /\ forall P, shrinks P fs (remove_dir_at dk p fs).
Proof.
  intros Hwf. unfold remove_dir_at.
  destruct (tget fs p) as [[|? ? []| | |]|]; try (split; [done|split; [done|intros; apply shrinks_refl]]).
  destruct (dk_rm dk p); [|split; [done|split; [done|intros; apply shrinks_refl]]].
  split; [apply fs_remove_confined|]. split; [by apply fs_remove_wf|]. intros. apply fs_remove_shrinks.
Qed.

Lemma remove_empty_tree_ok p fs :
  tree_wf fs -> confined [p] fs (remove_empty_tree dk p fs) /\ tree_wf (remove_empty_tree dk p fs) /\
  shrinks (fun q => p `prefix_of` q) fs (remove_empty_tree dk p fs).
Proof.
  intros Hwf. unfold remove_empty_tree.
  assert (tree_wf (tupd p (remove_empty_dirs (dk_now dk)) fs)) as Hwf'.
  { apply tupd_wf; [|done]. intros d _. apply remove_empty_dirs_wf. }
  destruct (remove_dir_at_ok p _ Hwf') as (Hc & Hw & Hs). split; [|split; [done|]].
  - eapply confined_trans; [apply tupd_confined|exact Hc].
  - eapply shrinks_trans; [|apply Hs]. intros q d [k ->]. rewrite tget_tupd_below, tget_app.
    destruct (tget fs p) as [u|] eqn:Eu; [|done]. cbn. apply remove_empty_dirs_shrinks. by apply (tree_wf_sub fs p).
Qed.

(** What holds after [src] was moved or copied to [dst]. *)
Record moved (src dst : path) (copy : bool) (fs fs' : fnode) : Prop := {
  mv_free : tget fs dst = None;
  mv_wf : tree_wf fs';
  mv_copy : copy = true -> confined [dst; temp_sibling dk dst] fs fs';
  mv_files : forall rel data m, tget fs (src ++ rel) = Some (FFile data m) -> holds dk fs' (dst ++ rel) data;
  mv_shrinks : shrinks (fun q => src `prefix_of` q) fs fs'
}.

Definition move_post (src dst : path) (copy : bool) (fs fs' : fnode) (r : result MoveError MoveMethod) : Prop :=
  confined [src; dst; temp_sibling dk dst] fs fs' /\
  match r with Ok _ => moved src dst copy fs fs' | Err _ => confined [temp_sibling dk dst] fs fs' end.

Lemma rename_confined io now src dst t : confined [src; dst] t (rename io now src dst t).1.
Proof.
  unfold rename. destruct (tget t src) as [x|]; [|done]. destruct (parent dst ≫= tget t) as [[]|]; try done. destruct (_ && _); [|done]. cbn [fst].
  eapply confined_trans; (eapply confined_under; [|first [apply fs_remove_confined|apply fs_insert_confined]]); constructor; try done.
  - exists src. split; [left|done].
  - exists dst. split; [right; left|done].
Qed.

Lemma rename_failed io now src dst t t' : rename io now src dst t = (t', false) -> t' = t.
Proof.
  unfold rename. destruct (tget t src) as [x|]; [|by intros [= <-]]. destruct (parent dst ≫= tget t) as [[]|]; try by intros [= <-].
  destruct (_ && _); [done|by intros [= <-]].
Qed.

Lemma rename_no_clobber_ok src dst fs fs' :
  rename_no_clobber dk src dst fs = (fs', Ok ()) -> tget fs dst = None /\ rename (dk_io dk) (dk_now dk) src dst fs = (fs', true).
Proof.
  unfold rename_no_clobber. destruct (tget fs dst); [done|]. destruct (negb _); [done|]. destruct (rename _ _ _ _ _) as [fs1 []]; [|done]. by intros [= <-].
Qed.

Lemma rename_no_clobber_err src dst fs fs' e : rename_no_clobber dk src dst fs = (fs', Err e) -> fs' = fs.
Proof.
  unfold rename_no_clobber. destruct (tget fs dst); [by intros [= <-]|]. destruct (negb _); [by intros [= <-]|].
  destruct (rename _ _ _ _ _) as [fs1 []] eqn:E; [done|]. apply rename_failed in E as ->. by intros [= <-].
Qed.

Lemma sub_paths (A B : list path) t t' : (forall b, b ∈ B -> b ∈ A) -> confined B t t' -> confined A t t'.
Proof. intros H. apply confined_under. apply Forall_forall. intros b Hb. exists b. split; [by apply H|done]. Qed.

Lemma holds_same fs fs' p data : tget fs' p = tget fs p -> holds dk fs p data -> holds dk fs' p data.
Proof. intros E (w & m & H & Hs). exists w, m. by rewrite E. Qed.

Section Between.
Variables src dst : path.
Abbreviation tmp := (temp_sibling dk dst).
Hypothesis Hne : dst <> [].
Hypothesis Hsd : apart src dst.
Hypothesis Hst : apart src tmp.

(** The copy is in place, the sources are still there. *)
Lemma copy_in_place c fs fs2 :
  tree_wf fs -> tree_wf c -> dir_at fs (removelast dst) ->
  rename_no_clobber dk tmp dst (fs_insert (dk_now dk) tmp c fs) = (fs2, Ok ()) ->
  tget fs dst = None /\ tree_wf fs2 /\ confined [dst; tmp] fs fs2 /\ forall q, tget fs2 (dst ++ q) = tget c q.
Proof.
  intros Hwf Hc Hdir [Hfree Hren]%rename_no_clobber_ok. pose proof (temp_sibling_apart dst Hne) as Htd.
  pose proof (fs_insert_confined (dk_now dk) tmp c fs) as Hins.
  split; [|split; [|split]].
  - rewrite <- Hfree. symmetry. apply (confined_apart _ _ _ _ Hins). by constructor.
  - change fs2 with (fs2, true).1. rewrite <- Hren. by apply rename_wf, fs_insert_wf.
  - eapply confined_trans; [eapply sub_paths, Hins|].
    { intros b ->%list_elem_of_singleton. right. left. }
    change fs2 with (fs2, true).1. rewrite <- Hren. eapply sub_paths, rename_confined.
    intros b. rewrite !elem_of_cons. tauto.
  - intros q. apply rename_moves in Hren as [-> _]; [|by apply Htd].
    rewrite fs_insert_new; [done|apply temp_sibling_not_root|]. by rewrite temp_sibling_parent.
Qed.

Lemma in_place_moved copy c t copied fs fs2 fs' :
  tget fs src = Some t -> copy_ok dk src t (Some c) copied ->
  tget fs dst = None -> tree_wf fs' -> confined [dst; tmp] fs fs2 -> (forall q, tget fs2 (dst ++ q) = tget c q) ->
  (copy = true -> fs' = fs2) -> confined [src] fs2 fs' -> shrinks (fun q => src `prefix_of` q) fs2 fs' ->
  moved src dst copy fs fs'.
Proof.
  intros Hsrc [Hfiles _ _] Hfree Hwf Hconf Hget Hcopy Hc Hs. split; [done|done| | |].
  - by intros ->%Hcopy.
  - intros rel data m Hf. rewrite tget_app, Hsrc in Hf. destruct (Hfiles rel data m Hf) as (c' & [= <-] & Hh).
    apply holds_same with fs2.
    + apply (confined_apart _ _ _ _ Hc). constructor; [|done]. apply apart_sym. eapply apart_below, prefix_app_r; [|done]. by apply apart_sym.
    + destruct Hh as (w & m' & Hw & Hsame). exists w, m'. by rewrite Hget.
  - eapply shrinks_trans; [|exact Hs]. apply shrinks_same. intros q Hq. apply (confined_apart _ _ _ _ Hconf).
    rewrite !Forall_cons. split; [|split; [|done]]; apply apart_sym; by apply (apart_below src).
Qed.

Lemma finish_copy_post copy dir c t copied fs fs' r :
  tree_wf fs -> dir_at fs (removelast dst) -> tget fs src = Some t -> copy_ok dk src t (Some c) copied ->
  finish_copy dk src dst tmp copy dir copied (fs_insert (dk_now dk) tmp c fs) = (fs', r) -> move_post src dst copy fs fs' r.
Proof.
  intros Hwf Hdir Hsrc Hcopy. unfold finish_copy.
  assert (tree_wf c) as Hc by (apply Hcopy; [done|by apply (tree_wf_sub fs src)]).
  destruct (rename_no_clobber dk tmp dst _) as [fs2 [[]|e]] eqn:Eren.
  - destruct (copy_in_place c fs fs2 Hwf Hc Hdir Eren) as (Hfree & Hwf2 & Hconf & Hget). intros [= <- <-].
    match goal with |- move_post _ _ _ _ ?x _ => set (fs' := x) end.
    assert (confined [src] fs2 fs' /\ tree_wf fs' /\ shrinks (fun q => src `prefix_of` q) fs2 fs') as (Hc' & Hw' & Hs').
    { subst fs'. destruct copy; [split; [done|split; [done|apply shrinks_refl]]|].
      destruct (remove_sources_ok copied src fs2) as (H1 & H2 & H3); [apply Hcopy|done|]. destruct dir; [|by auto].
      destruct (remove_empty_tree_ok src _ H2) as (H4 & H5 & H6). split; [by eapply confined_trans|]. split; [done|].
      eapply shrinks_trans; [apply H3|done]. }
    split.
    + eapply confined_trans; [eapply sub_paths, Hconf|eapply sub_paths, Hc']; intros b; rewrite !elem_of_cons; tauto.
    + eapply in_place_moved; try done. subst fs'. by intros ->.
  - apply rename_no_clobber_err in Eren as ->. intros [= <- <-].
    assert (confined [tmp] fs (drop_copy dk tmp (fs_insert (dk_now dk) tmp c fs))) as H.
    { eapply confined_trans; [apply fs_insert_confined|apply drop_copy_confined]. }
    split; [|done]. eapply sub_paths, H. intros b ->%list_elem_of_singleton. right. right. left.
Qed.

Lemma copy_and_remove_post copy fs fs' r :
  tree_wf fs -> dir_at fs (removelast dst) -> copy_and_remove dk src dst copy fs = (fs', r) -> move_post src dst copy fs fs' r.
Proof.
  intros Hwf Hdir. unfold copy_and_remove.
  assert (forall e, move_post src dst copy fs fs (Err e)) as Hsame by done.
  assert (forall e, move_post src dst copy fs (drop_copy dk tmp fs) (Err e)) as Hdrop.
  { intros e. split; [|apply drop_copy_confined]. eapply sub_paths, drop_copy_confined. intros b ->%list_elem_of_singleton. right. right. left. }
  destruct (tget fs src) as [t|] eqn:Et; [|by intros [= <- <-]].
  assert (forall o, o = copy_node dk src t \/ o = None ->
    match tget fs tmp, o with
    | None, Some (Some c, copied) =>
        if dk_io dk tmp then finish_copy dk src dst tmp copy (is_dir t) copied (fs_insert (dk_now dk) tmp c fs)
        else (drop_copy dk tmp fs, Err CopyFailed)
    | _, _ => (drop_copy dk tmp fs, Err CopyFailed)
    end = (fs', r) -> move_post src dst copy fs fs' r) as Hcopy.
  { intros o Ho. destruct (tget fs tmp); [by intros [= <- <-]|]. destruct o as [[[c|] copied]|]; try by intros [= <- <-].
    destruct Ho as [Ho|]; [|done]. destruct (dk_io dk tmp); [|by intros [= <- <-]]. apply (finish_copy_post copy _ c t); try done.
    by apply copy_node_ok. }
  destruct t; [eapply Hcopy; by left|eapply Hcopy; by left|apply (Hcopy None); by right|apply (Hcopy None); by right|by intros [= <- <-]].
Qed.

Lemma rename_post fs fs' :
  tree_wf fs -> rename_no_clobber dk src dst fs = (fs', Ok ()) -> move_post src dst false fs fs' (Ok MRename).
Proof.
  intros Hwf [Hfree Hren]%rename_no_clobber_ok. destruct Hsd as [_ Hds].
  assert (fs' = (rename (dk_io dk) (dk_now dk) src dst fs).1) as E by by rewrite Hren.
  destruct (rename_moves _ _ _ _ _ _ Hren Hds) as [Hnew Hgone]. split.
  - rewrite E. eapply sub_paths, rename_confined. intros b. rewrite !elem_of_cons. tauto.
  - split; [done|rewrite E; by apply rename_wf|done| |].
    + intros rel data m Hf. exists data, m. by rewrite Hnew.
    + intros q d [k ->]. by rewrite Hgone.
Qed.

(** The folders that are made first change nothing of this. *)
Lemma post_after_dirs copy fs fs1 fs' r :
  confined [dst] fs fs1 -> (forall q d, tget fs q = Some d -> is_dir d = false -> tget fs1 q = Some d) ->
  (tget fs1 dst = None -> tget fs dst = None) -> move_post src dst copy fs1 fs' r ->
  confined [src; dst; tmp] fs fs' /\
  (forall q d, tget fs q = Some d -> is_dir d = false -> ~ tmp `prefix_of` q ->
     (forall m, r = Ok m -> copy = false -> ~ src `prefix_of` q) -> tget fs' q = Some d) /\
  (forall m, r = Ok m -> moved src dst copy fs fs').
Proof.
  intros Hc1 Hk1 Hnone [Hc Hr]. split; [|split].
  - eapply confined_trans; [eapply sub_paths, Hc1|exact Hc]. intros b ->%list_elem_of_singleton. right. left.
  - intros q d Hq Hd Ht Hs. apply Hk1 in Hq; [|done]. destruct r as [m|e].
    + destruct Hr as [Hfree _ Hcopy _ _].
      assert (~ dst `prefix_of` q) as Hdq.
      { intros Hdq. destruct (tget_prefix _ _ _ _ Hq Hdq) as [y Hy]. congruence. }
      destruct copy; [eapply (confined_file [dst; tmp])|eapply (confined_file [src; dst; tmp])]; eauto.
    + eapply (confined_file [tmp]); eauto.
  - intros m ->. destruct Hr as [Hfree Hwf Hcopy Hfiles Hs]. split; [by apply Hnone|done| | |].
    + intros Hy. eapply confined_trans; [eapply sub_paths, Hc1|by apply Hcopy]. intros b ->%list_elem_of_singleton. left.
    + intros rel data m' Hf. apply (Hfiles rel data m'). by apply Hk1.
    + eapply shrinks_trans; [|exact Hs]. apply shrinks_same. intros q Hq. apply (confined_apart _ _ _ _ Hc1).
      constructor; [|done]. apply apart_sym. by apply (apart_below src).
Qed.

(** [move_path] loses and overwrites nothing. *)
Lemma move_path_post copy fs fs' r :
  tree_wf fs -> is_dir fs = true -> move_path dk src dst copy fs = (fs', r) ->
  confined [src; dst; tmp] fs fs' /\
  (forall q d, tget fs q = Some d -> is_dir d = false -> ~ tmp `prefix_of` q ->
     (forall m, r = Ok m -> copy = false -> ~ src `prefix_of` q) -> tget fs' q = Some d) /\
  (forall m, r = Ok m -> moved src dst copy fs fs').
Proof.
  intros Hwf Hroot. unfold move_path. assert (parent dst = Some (removelast dst)) as -> by by destruct dst.
  unfold create_dir_all. destruct (create_dirs (dk_io dk) (dk_now dk) [] (removelast dst) fs) as [fs1 made] eqn:Emk.
  assert (fs1 = (create_dirs (dk_io dk) (dk_now dk) [] (removelast dst) fs).1) as E1 by by rewrite Emk.
  intros Hmove. apply post_after_dirs with fs1.
  - intros q _ Hq. rewrite E1. apply create_dirs_keeps. destruct Hq as [[Hq _]%Forall_cons|Hq]; [left|by right].
    intros H. apply Hq. etransitivity; [exact H|apply removelast_prefix_of].
  - intros q d Hq Hd. rewrite E1, create_dirs_keeps; [done|]. right. by exists d.
  - intros Hn. destruct (tget fs dst) as [d|] eqn:Ed; [|done]. destruct (is_dir d) eqn:Edir.
    + destruct (create_dirs_dir_at (dk_io dk) (dk_now dk) [] (removelast dst) fs dst) as (d' & Hd' & _); [by exists d|]. congruence.
    + rewrite E1, create_dirs_keeps in Hn; [congruence|]. right. by exists d.
  - assert (tree_wf fs1) as Hwf1 by (rewrite E1; by apply create_dirs_wf).
    destruct made; cbn [negb] in Hmove; [|by injection Hmove as <- <-].
    assert (dir_at fs1 (removelast dst)) as Hdir by (apply create_dirs_made in Emk; [done|by exists fs]).
    destruct (path_exists fs1 dst); [by injection Hmove as <- <-|].
    destruct copy; [by apply copy_and_remove_post|].
    destruct (rename_no_clobber dk src dst fs1) as [fs2 [[]|e]] eqn:Eren.
    + injection Hmove as <- <-. by apply rename_post.
    + apply rename_no_clobber_err in Eren as ->. destruct e; try (by injection Hmove as <- <-). by apply copy_and_remove_post.
Qed.
End Between.
End OneMove.

(** ** The root stays a directory *)

Lemma tupd_root p f t : (forall d, is_dir (f d) = is_dir d) -> is_dir (tupd p f t) = is_dir t.
Proof. intros Hf. destruct p; [apply Hf|by destruct t]. Qed.

Lemma fs_remove_root now p t : is_dir (fs_remove now p t) = is_dir t.
Proof. unfold fs_remove. destruct (file_name p); [|done]. apply tupd_root. by intros []. Qed.

Lemma fs_insert_root now p x t : is_dir (fs_insert now p x t) = is_dir t.
Proof. unfold fs_insert. destruct (file_name p); [|done]. apply tupd_root. by intros []. Qed.

Lemma create_dirs_root io now dir rest t : is_dir (create_dirs io now dir rest t).1 = is_dir t.
Proof.
  revert dir t. induction rest as [|n rest IH]; intros dir t; [done|]. cbn [create_dirs].
  destruct (tget t (dir ++ [n])) as [c|]; [destruct (is_dir c); [apply IH|done]|]. destruct (io (dir ++ [n])); [|done].
  by rewrite IH, fs_insert_root.
Qed.

Lemma rename_root io now src dst t : is_dir (rename io now src dst t).1 = is_dir t.
Proof.
  unfold rename. destruct (tget t src); [|done]. destruct (parent dst ≫= tget t) as [[]|]; try done. destruct (_ && _); [|done].
  cbn [fst]. by rewrite fs_insert_root, fs_remove_root.
Qed.

Section Root.
Variable dk : Disk.

Lemma rename_no_clobber_root src dst fs : is_dir (rename_no_clobber dk src dst fs).1 = is_dir fs.
Proof.
  unfold rename_no_clobber. destruct (tget fs dst); [done|]. destruct (negb _); [done|].
  pose proof (rename_root (dk_io dk) (dk_now dk) src dst fs) as H. by destruct (rename _ _ _ _ _).
Qed.

Lemma remove_dir_at_root p fs : is_dir (remove_dir_at dk p fs) = is_dir fs.
Proof. unfold remove_dir_at. destruct (tget fs p) as [[|? ? []| | |]|]; try done. destruct (dk_rm dk p); [apply fs_remove_root|done]. Qed.

Lemma remove_sources_root l fs : is_dir (remove_sources dk l fs) = is_dir fs.
Proof.
  revert fs. induction l as [|p l IH]; intros fs; [done|]. cbn. unfold remove_sources in IH. rewrite IH. unfold remove_source.
  destruct (tget fs p) as [[]|]; try done; destruct (dk_rm dk p); try done; apply fs_remove_root.
Qed.

Lemma drop_copy_root p fs : is_dir (drop_copy dk p fs) = is_dir fs.
Proof. unfold drop_copy. destruct (dk_left dk p); [apply fs_insert_root|apply fs_remove_root]. Qed.

Lemma finish_copy_root src dst tmp copy dir copied fs : is_dir (finish_copy dk src dst tmp copy dir copied fs).1 = is_dir fs.
Proof.
  unfold finish_copy. pose proof (rename_no_clobber_root tmp dst fs) as H. destruct (rename_no_clobber dk tmp dst fs) as [fs1 [[]|e]]; cbn in *.
  - destruct copy; [done|]. destruct dir; [|by rewrite remove_sources_root]. unfold remove_empty_tree.
    rewrite remove_dir_at_root, tupd_root; [by rewrite remove_sources_root|apply remove_empty_dirs_is_dir].
  - by rewrite drop_copy_root.
Qed.

Lemma copy_and_remove_root src dst copy fs : is_dir (copy_and_remove dk src dst copy fs).1 = is_dir fs.
Proof.
  unfold copy_and_remove. destruct (tget fs src) as [t|]; [|done].
  destruct t; try done; destruct (tget fs (temp_sibling dk dst)); try apply drop_copy_root;
    match goal with |- context [match ?o with Some _ => _ | None => _ end] => destruct o as [[[c|] l]|] end; try apply drop_copy_root;
    (destruct (dk_io dk (temp_sibling dk dst)); [rewrite finish_copy_root; apply fs_insert_root|apply drop_copy_root]).
Qed.

Lemma move_path_root src dst copy fs : is_dir (move_path dk src dst copy fs).1 = is_dir fs.
Proof.
  unfold move_path. set (mk := match parent dst with Some p => _ | None => _ end).
  assert (is_dir mk.1 = is_dir fs) as Hmk by (subst mk; destruct (parent dst); [apply create_dirs_root|done]).
  destruct mk as [fs1 made]. cbn in Hmk. rewrite <- Hmk. destruct (negb made); [done|]. destruct (path_exists fs1 dst); [done|].
  destruct copy; [apply copy_and_remove_root|]. pose proof (rename_no_clobber_root src dst fs1) as H.
  destruct (rename_no_clobber dk src dst fs1) as [fs2 [|[]]]; cbn in *; try done. by rewrite copy_and_remove_root.
Qed.
End Root.
