(* ===== verification/RelocateRun.v ===== *)
(** * Relocations: where every file is afterwards ([librqbit::relocate::execute])

    The moves of a plan one after the other, file by file or as a folder, with the
    path that is recorded for each file after each of them. *)

From stdpp Require Import base tactics option list list_numbers numbers decidable sets strings sorting.
From Stdlib Require Import ZArith Lia.
From S2P Require Import Prelude Bencode FsTree OrphanCleanup OrphanSafety OrphanScan Relocate RelocateSafety.
Open Scope Z_scope.

(** ** Ordinary paths *)

(** No name on the path has the form of a temporary one. *)
Definition ordinary (q : path) : Prop := Forall (fun n => forall a b, n <> tmp_name a b) q.

Section Run.
Variable dk : Disk.

Lemma ordinary_no_temp dst q : ordinary q -> ~ temp_sibling dk dst `prefix_of` q.
Proof.
  intros Hq [k ->]. unfold temp_sibling, ordinary in Hq. rewrite !Forall_app in Hq. destruct Hq as [[_ H] _].
  apply Forall_cons in H as [H _]. by apply (H (default [] (file_name dst)) (dk_tag dk dst)).
Qed.

Lemma prefix_of_temp dst q : q `prefix_of` temp_sibling dk dst -> q = temp_sibling dk dst \/ q `prefix_of` removelast dst.
Proof.
  unfold temp_sibling. intros [k E]. destruct (path_cases k) as [->|(k' & n & ->)]; [left; by rewrite app_nil_r in E|].
  right. rewrite app_assoc in E. apply app_inj_tail in E as [-> _]. by apply prefix_app_r.
Qed.

Lemma ordinary_apart_temp src dst : ordinary src -> ~ src `prefix_of` dst -> apart src (temp_sibling dk dst).
Proof.
  intros Ho Hsd. split; [|by apply ordinary_no_temp]. intros [->|H]%prefix_of_temp.
  - by apply (ordinary_no_temp dst _ Ho).
  - apply Hsd. etransitivity; [exact H|apply removelast_prefix_of].
Qed.

Lemma parent_snoc (b : path) n : parent (b ++ [n]) = Some b.
Proof. unfold parent. destruct (b ++ [n]) eqn:E; [by destruct b|]. by rewrite <- E, removelast_last. Qed.

(** ** Moving one file *)

Definition is_file_at (fs : fnode) (p : path) : Prop := exists data m, tget fs p = Some (FFile data m).

(** Nothing is below what is no directory. *)
Lemma leaf_prefix fs p q x d : tget fs p = Some x -> is_dir x = false -> tget fs q = Some d -> p `prefix_of` q -> q = p.
Proof.
  intros Hp Hx Hq [[|n k] ->]; [by rewrite app_nil_r|]. apply tget_below in Hq as (r & m & es & E). rewrite Hp in E. by injection E as ->.
Qed.

(** A move to a path that leads through a file or to the file fails. *)
Lemma move_path_related src dst copy fs fs' r x :
  is_dir fs = true -> tget fs src = Some x -> is_dir x = false -> src <> dst -> ~ apart src dst ->
  move_path dk src dst copy fs = (fs', r) ->
  (exists e, r = Err e) /\ forall q d, tget fs q = Some d -> is_dir d = false -> tget fs' q = Some d.
Proof.
  intros Hroot Hsrc Hx Hne Hrel. unfold move_path.
  set (mk := match parent dst with Some p => _ | None => _ end).
  assert (forall q d, tget fs q = Some d -> is_dir d = false -> tget mk.1 q = Some d) as Hk.
  { intros q d Hq Hd. subst mk. destruct (parent dst); [|done]. unfold create_dir_all. rewrite create_dirs_keeps; [done|]. right. by exists d. }
  assert (mk.2 = true -> path_exists mk.1 dst = true) as Hex.
  { intros Hmade. destruct (decide (dst `prefix_of` src)) as [Hds|Hds].
    - assert (dir_at fs dst) as Hdir by (apply (dir_at_above fs src dst x); [done|done|congruence]).
      assert (dir_at mk.1 dst) as (d & Hd & Hdd).
      { subst mk. destruct (parent dst); [by apply create_dirs_dir_at|done]. }
      unfold path_exists. rewrite Hd. by destruct d.
    - exfalso. assert (src `prefix_of` dst) as Hsd by (destruct (decide (src `prefix_of` dst)); [done|by destruct Hrel]).
      destruct (path_cases dst) as [->|(b & n & ->)]; [by destruct Hsd as [[] E]; destruct src|].
      assert (src `prefix_of` b) as Hsb.
      { destruct Hsd as [k E]. destruct (path_cases k) as [->|(k' & j & ->)]; [by rewrite app_nil_r in E|].
        rewrite app_assoc in E. apply app_inj_tail in E as [-> _]. by apply prefix_app_r. }
      assert (dir_at mk.1 b) as (d & Hd & Hdd).
      { revert Hmade. subst mk. rewrite parent_snoc.
        unfold create_dir_all. destruct (create_dirs _ _ _ _ _) as [fs1 made] eqn:E. cbn. intros ->. apply create_dirs_made in E; [done|by exists fs]. }
      assert (b = src) as -> by (apply (leaf_prefix mk.1 src b x d); auto). rewrite (Hk src x Hsrc Hx) in Hd. congruence. }
  destruct mk as [fs1 made]. cbn in *. destruct made; cbn [negb].
  - rewrite Hex by done. intros [= <- <-]. eauto.
  - intros [= <- <-]. eauto.
Qed.

Record file_moved (src dst : path) (copy : bool) (data : bytes) (fs fs' : fnode) : Prop := {
  fm_wf : tree_wf fs';
  fm_free : tget fs dst = None;
  fm_holds : holds dk fs' dst data;
  fm_missing : forall q, ordinary q -> tget fs q = None -> ~ q `prefix_of` dst -> tget fs' q = None
}.

Lemma move_file_post src dst copy fs fs' r data m :
  tree_wf fs -> is_dir fs = true -> ordinary src -> src <> dst -> tget fs src = Some (FFile data m) ->
  move_path dk src dst copy fs = (fs', r) ->
  (forall q d, tget fs q = Some d -> is_dir d = false -> ordinary q -> (forall k, r = Ok k -> copy = false -> q <> src) -> tget fs' q = Some d) /\
  (forall k, r = Ok k -> file_moved src dst copy data fs fs').
Proof.
  intros Hwf Hroot Ho Hne Hsrc Hmove.
  destruct (decide (src `prefix_of` dst)) as [H|Hsd].
  { destruct (move_path_related src dst copy fs fs' r (FFile data m)) as [[e ->] Hk]; try done; [by intros []|]. split; [eauto|done]. }
  destruct (decide (dst `prefix_of` src)) as [H|Hds].
  { destruct (move_path_related src dst copy fs fs' r (FFile data m)) as [[e ->] Hk]; try done; [by intros []|]. split; [eauto|done]. }
  assert (dst <> []) as Hd by (intros ->; by destruct Hds; apply prefix_nil).
  pose proof (ordinary_apart_temp src dst Ho Hsd) as Hst.
  destruct (move_path_post dk src dst Hd (conj Hsd Hds) Hst copy fs fs' r Hwf Hroot Hmove) as (Hc & Hk & Hm). split.
  - intros q d Hq Hn Hoq Hs. apply Hk; [done|done|by apply ordinary_no_temp|]. intros k Hr Hcp Hp. apply (Hs k Hr Hcp).
    by apply (leaf_prefix fs src q (FFile data m) d).
  - intros k Hr. destruct (Hm k Hr) as [Hfree Hwf' _ Hfiles Hs]. specialize (Hfiles [] data m). rewrite !app_nil_r in Hfiles.
    specialize (Hfiles Hsrc). split; [done..|]. intros q Hoq Hq Hqd.
    destruct (decide (src `prefix_of` q)) as [Hsq|Hsq].
    { destruct (tget fs' q) as [d|] eqn:E; [|done]. destruct (Hs q d Hsq E) as (d0 & E0 & _). congruence. }
    destruct (decide (dst `prefix_of` q)) as [Hdq|Hdq].
    { destruct (tget fs' q) as [d|] eqn:E; [|done]. destruct Hfiles as (w & m' & Hw & _). destruct Hqd.
      by rewrite (leaf_prefix fs' dst q (FFile w m') d). }
    rewrite (confined_apart _ _ _ q Hc); [done|]. rewrite !Forall_cons. split; [|split; [|split; [|done]]].
    + split; [done|]. intros H. destruct (tget_prefix _ _ _ _ Hsrc H) as [y Hy]. congruence.
    + by split.
    + apply apart_sym. by apply ordinary_apart_temp.
Qed.

(** ** Moving files one by one *)

Lemma holds_file fs p data m : tget fs p = Some (FFile data m) -> holds dk fs p data.
Proof. intros H. by exists data, m. Qed.

(** [l] tells where the files of the plan are in [fs'], with what they held in [fs]. *)
Definition located (fs fs' : fnode) : list FileLoc -> list (nat * path) -> Prop :=
  Forall2 (fun f ip => ip.1 = fl_id f /\ forall data m, tget fs (fl_current f) = Some (FFile data m) -> holds dk fs' ip.2 data).

(** A run over the files of a plan: [to] is where a file is to go, the flag tells that a
    move failed before, and the list where each file is reported to be. *)
Inductive run (to : FileLoc -> path) (copy : bool) : bool -> list FileLoc -> fnode -> list (nat * path) -> fnode -> Prop :=
| run_nil e fs : run to copy e [] fs [] fs
| run_idle e f files fs p l fs' :
    p = fl_current f \/ path_exists fs (fl_current f) = false -> run to copy e files fs l fs' ->
    run to copy e (f :: files) fs ((fl_id f, p) :: l) fs'
| run_moved f files fs fs1 k l fs' :
    fl_current f <> to f -> path_exists fs (fl_current f) = true ->
    move_path dk (fl_current f) (to f) copy fs = (fs1, Ok k) -> run to copy false files fs1 l fs' ->
    run to copy false (f :: files) fs ((fl_id f, to f) :: l) fs'
| run_failed f files fs fs1 e l fs' :
    fl_current f <> to f -> path_exists fs (fl_current f) = true ->
    move_path dk (fl_current f) (to f) copy fs = (fs1, Err e) -> run to copy true files fs1 l fs' ->
    run to copy false (f :: files) fs ((fl_id f, fl_current f) :: l) fs'.

Lemma move_files_run to copy files fs g :
  exists l, pg_paths (move_files dk to copy files fs g).2 = pg_paths g ++ l /\
            run to copy (has_error g) files fs l (move_files dk to copy files fs g).1.
Proof.
  revert fs g. induction files as [|f files IH]; intros fs g; cbn [move_files].
  { exists []. rewrite app_nil_r. split; [done|constructor]. }
  assert (forall p, p = fl_current f \/ path_exists fs (fl_current f) = false -> exists l,
    pg_paths (move_files dk to copy files fs (at_path f p g)).2 = pg_paths g ++ l /\
    run to copy (has_error g) (f :: files) fs l (move_files dk to copy files fs (at_path f p g)).1) as Hidle.
  { intros p Hp. destruct (IH fs (at_path f p g)) as (l & El & Hl). exists ((fl_id f, p) :: l). split; [rewrite El; cbn; by rewrite <- app_assoc|by constructor]. }
  case_bool_decide as Eto; [apply Hidle; by left|]. destruct (has_error g) eqn:Eg; [apply Hidle; by left|]. cbn [orb].
  destruct (path_exists fs (fl_current f)) eqn:Eex; cbn [negb]; [|apply Hidle; by right].
  unfold move_one. destruct (move_path dk (fl_current f) (to f) copy fs) as [fs1 [k|e]] eqn:Emv.
  - match goal with |- context [move_files dk to copy files fs1 ?x] => destruct (IH fs1 x) as (l & El & Hl) end.
    exists ((fl_id f, to f) :: l). split; [rewrite El; cbn; by rewrite <- app_assoc|]. unfold has_error in Hl. cbn in Hl. fold (has_error g) in Hl.
    rewrite Eg in Hl. by eapply run_moved.
  - match goal with |- context [move_files dk to copy files fs1 ?x] => destruct (IH fs1 x) as (l & El & Hl) end.
    exists ((fl_id f, fl_current f) :: l). split; [rewrite El; cbn; by rewrite <- app_assoc|by eapply run_failed].
Qed.

(** What the plan asks of the disk: the files that are to be moved are there or missing,
    and none is moved to where a missing one is supposed to be. *)
Record plan_ok (to : FileLoc -> path) (files : list FileLoc) (fs : fnode) : Prop := {
  po_distinct : NoDup (fl_current <$> files);
  po_ordinary : forall f, f ∈ files -> ordinary (fl_current f) /\ ordinary (to f);
  po_files : forall f, f ∈ files -> fl_current f <> to f -> tget fs (fl_current f) = None \/ is_file_at fs (fl_current f);
  po_missing : forall f h, f ∈ files -> h ∈ files -> fl_current h <> to h ->
    is_file_at fs (fl_current f) -> tget fs (fl_current h) = None -> ~ fl_current h `prefix_of` to f
}.

(** Files at ordinary paths stay, but for the ones that are to be moved. *)
Definition kept (to : FileLoc -> path) (copy : bool) (files : list FileLoc) (fs fs' : fnode) : Prop :=
  keeps (fun q => ordinary q /\ (copy = true \/ forall f, f ∈ files -> fl_current f <> to f -> q <> fl_current f)) fs fs'.

Lemma plan_ok_tail to f files fs : plan_ok to (f :: files) fs -> plan_ok to files fs.
Proof.
  intros [H1 H2 H3 H4]. apply NoDup_cons in H1 as [_ H1]. split; [done|..].
  - intros h Hh. apply H2. by right.
  - intros h Hh. apply H3. by right.
  - intros a b Ha Hb. apply H4; by right.
Qed.

Lemma Forall2_weaken {A B} (P Q : A -> B -> Prop) l k : (forall x y, x ∈ l -> P x y -> Q x y) -> Forall2 P l k -> Forall2 Q l k.
Proof. intros H. induction 1 as [|x y l k Hxy _ IH]; constructor; [apply H; [left|done]|apply IH; intros; apply H; [by right|done]]. Qed.

(** Once [f] is dealt with: it stays where it is reported, and the rest follows. *)
Lemma located_step to copy f p files fs fs1 fs' l :
  plan_ok to (f :: files) fs ->
  (forall data m, tget fs (fl_current f) = Some (FFile data m) ->
     exists w m', tget fs1 p = Some (FFile w m') /\ same_content dk w data /\ ordinary p /\
       forall h, h ∈ files -> fl_current h <> to h -> p <> fl_current h) ->
  keeps (fun q => ordinary q /\ (copy = true \/ fl_current f = to f \/ q <> fl_current f)) fs fs1 ->
  located fs1 fs' files l -> kept to copy files fs1 fs' ->
  located fs fs' (f :: files) ((fl_id f, p) :: l) /\ kept to copy (f :: files) fs fs'.
Proof.
  intros [[Hf Hnd]%NoDup_cons Ho _ _] Hip Hk Hl Hkept. split.
  - constructor.
    + split; [done|]. intros data m Hd. destruct (Hip data m Hd) as (w & m' & Hw & Hs & Hord & Hin).
      exists w, m'. split; [|done]. apply (Hkept p (FFile w m')); auto.
    + eapply Forall2_weaken; [|exact Hl]. cbn. intros h x Hh [E H]. split; [done|]. intros data m Hd.
      apply (H data m). apply (Hk (fl_current h)); [|done|done]. split; [apply Ho; by right|]. right. right. intros E'. apply Hf. rewrite <- E'.
      by apply list_elem_of_fmap_2.
  - intros q d [Hoq Hq] Hd Hn. apply Hkept; [split; [done|]| |done].
    + destruct Hq as [|Hq]; [by left|right]. intros h Hh. apply Hq. by right.
    + apply Hk; [|done|done]. split; [done|]. destruct Hq as [|Hq]; [by left|right]. destruct (decide (fl_current f = to f)); [by left|right].
      apply Hq; [left|done].
Qed.

(** A file that was moved does not get into the way of the others. *)
Lemma plan_ok_moved to f files copy data m fs fs1 :
  plan_ok to (f :: files) fs -> tget fs (fl_current f) = Some (FFile data m) ->
  keeps (fun q => ordinary q /\ (copy = true \/ q <> fl_current f)) fs fs1 -> file_moved (fl_current f) (to f) copy data fs fs1 ->
  (forall h, h ∈ files -> fl_current h <> to h -> to f <> fl_current h) /\ plan_ok to files fs1.
Proof.
  intros [[Hf Hnd]%NoDup_cons Ho Hst Hmiss] Hd Hk [_ Hfree Hh Hgone].
  assert (is_file_at fs (fl_current f)) as Hff by by exists data, m.
  assert (forall h, h ∈ files -> fl_current h <> to h -> tget fs1 (fl_current h) = tget fs (fl_current h)) as Hsame.
  { intros h Hin Hne. destruct (Hst h ltac:(by right) Hne) as [Hn|(w & m' & Hw)].
    - rewrite Hn. apply Hgone; [apply Ho; by right|done|]. apply Hmiss; try done; [left|by right].
    - rewrite Hw. apply Hk; [|done|done]. split; [apply Ho; by right|]. right. intros E. apply Hf. rewrite <- E. by apply list_elem_of_fmap_2. }
  split.
  - intros h Hin Hne E. destruct (Hst h ltac:(by right) Hne) as [Hn|(w & m' & Hw)]; [|congruence].
    apply (Hmiss f h); [left|by right|done|done|done|by rewrite E].
  - split; [done|intros h ?; apply Ho; by right| |].
    + intros h Hin Hne. destruct (Hst h ltac:(by right) Hne) as [Hn|(w & m' & Hw)]; [left|right; exists w, m']; by rewrite Hsame.
    + intros a h Ha Hin Hne (w & m' & Hw) Hn. rewrite Hsame in Hn by done. destruct (decide (fl_current a = to a)) as [Ea|Ea].
      * rewrite <- Ea. intros Hp. destruct (tget_prefix _ _ _ _ Hw Hp) as [y Hy]. rewrite Hsame in Hy by done. congruence.
      * apply Hmiss; [by right|by right|done| |done]. exists w, m'. by rewrite <- Hsame.
Qed.

(** After a failure nothing moves. *)
Lemma run_stopped to copy files fs l fs' : run to copy true files fs l fs' -> fs' = fs /\ located fs fs files l.
Proof.
  remember true as e eqn:Ee. induction 1 as [| e f files fs p l fs' Hp Hrun IH| |]; try done; [split; [done|constructor]|].
  destruct (IH Ee) as [-> Hl]. split; [done|]. constructor; [|done]. split; [done|]. intros data m Hd. cbn.
  destruct Hp as [->|Hp]; [by apply holds_file with m|]. unfold path_exists in Hp. by rewrite Hd in Hp.
Qed.

Lemma run_ok to copy e files fs l fs' :
  run to copy e files fs l fs' -> e = false -> plan_ok to files fs -> tree_wf fs -> is_dir fs = true ->
  located fs fs' files l /\ kept to copy files fs fs'.
Proof.
  intros Hrun. induction Hrun as [e fs|e f files fs p l fs' Hp Hrun IH|f files fs fs1 k l fs' Hne Hex Hmv Hrun IH|f files fs fs1 e l fs' Hne Hex Hmv Hrun IH];
    intros Ee Hplan Hwf Hroot; [split; [constructor|by intros q d _]|..].
  all: pose proof Hplan as [[Hnin _]%NoDup_cons Hord Hst _].
  all: assert (forall h, h ∈ files -> fl_current f <> fl_current h) as Hdiff by
    (intros h Hh E; apply Hnin; rewrite E; by apply list_elem_of_fmap_2).
  all: assert (ordinary (fl_current f) /\ ordinary (to f)) as [Hoc Hot] by (apply Hord; left).
  - destruct IH as [Hl Hk]; [done|by eapply plan_ok_tail|done|done|]. apply located_step with fs; try done; [|by intros q d _].
    intros data m Hd. assert (p = fl_current f) as ->.
    { destruct Hp as [|Hp]; [done|]. unfold path_exists in Hp. by rewrite Hd in Hp. }
    exists data, m. split; [done|]. split; [done|]. auto.
  - destruct (Hst f ltac:(left) Hne) as [Hn|(data & m & Hd)]; [unfold path_exists in Hex; by rewrite Hn in Hex|].
    destruct (move_file_post _ _ _ _ _ _ _ _ Hwf Hroot Hoc Hne Hd Hmv) as [Hk Hm]. specialize (Hm k eq_refl).
    assert (keeps (fun q => ordinary q /\ (copy = true \/ q <> fl_current f)) fs fs1) as Hk1.
    { intros q d [Ho Hq] Hqd Hn. apply Hk; try done. intros k' _ -> E. by destruct Hq. }
    destruct (plan_ok_moved to f files copy data m fs fs1 Hplan Hd Hk1 Hm) as [Hto Hplan1].
    destruct IH as [Hl Hkept]; [done|done|by apply Hm|change fs1 with (fs1, @Ok MoveError _ k).1; by rewrite <- Hmv, move_path_root|].
    apply located_step with fs1; try done.
    + intros data' m' Hd'. rewrite Hd in Hd'. injection Hd' as <- <-. destruct Hm as [_ _ (w & m' & Hw & Hs) _]. exists w, m'. auto.
    + intros q d [Ho Hq]. apply Hk1. split; [done|]. by destruct Hq as [|[|]]; auto.
  - destruct (Hst f ltac:(left) Hne) as [Hn|(data & m & Hd)]; [unfold path_exists in Hex; by rewrite Hn in Hex|].
    destruct (move_file_post _ _ _ _ _ _ _ _ Hwf Hroot Hoc Hne Hd Hmv) as [Hk _].
    destruct (run_stopped _ _ _ _ _ _ Hrun) as [-> Hl]. apply located_step with fs1; try done; [| |by intros q d _].
    + intros data' m' Hd'. exists data', m'. split; [by apply Hk|]. split; [done|]. auto.
    + intros q d [Ho _] Hq Hd'. by apply Hk.
Qed.

(** ** Merging a folder *)

(** [c], which was at [src], is on its way to [dst]; only [src] and [lims] change. *)
Record merge_post (src dst : path) (lims : list path) (copy : bool) (c fs fs' : fnode) (r : result MoveError MoveMethod) : Prop := {
  mp_confined : confined (src :: lims) fs fs';
  mp_keeps : keeps (fun q => ordinary q /\ (copy = true \/ ~ src `prefix_of` q)) fs fs';
  mp_source : forall rel data m, tget c rel = Some (FFile data m) ->
    tget fs' (src ++ rel) = None \/ tget fs' (src ++ rel) = Some (FFile data m);
  mp_dest : forall rel data m, tget c rel = Some (FFile data m) -> ordinary (dst ++ rel) ->
    (exists k, r = Ok k) \/ tget fs' (src ++ rel) = None -> holds dk fs' (dst ++ rel) data;
  mp_wf : forall k, r = Ok k -> tree_wf fs';
  mp_root : is_dir fs' = true
}.

Lemma move_path_merges src dst c copy fs fs' r :
  tree_wf fs -> is_dir fs = true -> dst <> [] -> apart src dst -> apart src (temp_sibling dk dst) -> tget fs src = Some c ->
  move_path dk src dst copy fs = (fs', r) -> merge_post src dst [dst; temp_sibling dk dst] copy c fs fs' r.
Proof.
  intros Hwf Hroot Hne Ha Hst Hc Hmove.
  destruct (move_path_post dk _ _ Hne Ha Hst copy fs fs' r Hwf Hroot Hmove) as (Hconf & Hk & Hm).
  assert (forall rel data m, tget c rel = Some (FFile data m) -> tget fs (src ++ rel) = Some (FFile data m)) as Hget.
  { intros rel data m H. by rewrite tget_app, Hc. }
  assert (forall rel, ~ temp_sibling dk dst `prefix_of` src ++ rel) as Hnt.
  { intros rel. apply (apart_below _ _ _ Hst). by apply prefix_app_r. }
  split.
  - done.
  - intros q d [Ho Hq] Hd Hn. apply Hk; [done|done|by apply ordinary_no_temp|]. intros k _ -> Hp. by destruct Hq.
  - intros rel data m H. destruct r as [k|e].
    + destruct (Hm k eq_refl) as [_ _ _ _ Hs]. destruct (tget fs' (src ++ rel)) as [d|] eqn:E; [right|by left].
      destruct (Hs _ d (prefix_app_r _ _ _ (reflexivity _)) E) as (d0 & E0 & Edir & Esame). rewrite (Hget rel data m H) in E0. injection E0 as <-.
      by rewrite <- Esame.
    + right. apply Hk; [by apply Hget|done|apply Hnt|done].
  - intros rel data m H Ho Hr. destruct r as [k|e].
    + destruct (Hm k eq_refl) as [_ _ _ Hf _]. by apply (Hf rel data m), Hget.
    + destruct Hr as [[k ?]|Hr]; [done|]. rewrite (Hk _ (FFile data m)) in Hr; [done|by apply Hget|done|apply Hnt|done].
  - intros k Hr. by apply (Hm k).
  - change fs' with (fs', r).1. by rewrite <- Hmove, move_path_root.
Qed.

Lemma merge_post_under src dst lims lims' copy c fs fs' r :
  Forall (fun b => exists a, a ∈ lims' /\ a `prefix_of` b) lims -> merge_post src dst lims copy c fs fs' r -> merge_post src dst lims' copy c fs fs' r.
Proof.
  intros Hl [C K S D W R]. split; try done. eapply confined_under, C. apply Forall_cons. split; [exists src; split; [left|done]|].
  eapply Forall_impl; [exact Hl|]. intros b (a & Ha & Hb). exists a. split; [by right|done].
Qed.

Lemma move_entry_post src dst n c copy fs fs' r :
  tree_wf fs -> is_dir fs = true -> apart src dst -> tget fs (src ++ [n]) = Some c ->
  move_path dk (src ++ [n]) (dst ++ [n]) copy fs = (fs', r) -> merge_post (src ++ [n]) (dst ++ [n]) [dst] copy c fs fs' r.
Proof.
  intros Hwf Hroot Hsd Hc Hmove.
  assert (dst `prefix_of` temp_sibling dk (dst ++ [n])) as Hdt by (unfold temp_sibling; rewrite removelast_last; by apply prefix_app_r).
  apply merge_post_under with [dst ++ [n]; temp_sibling dk (dst ++ [n])].
  - rewrite !Forall_cons. split; [|split; [|done]]; exists dst; (split; [left|]); [by apply prefix_app_r|done].
  - apply move_path_merges; try done; [by destruct dst|by apply apart_app|]. destruct Hdt as [k ->]. by apply apart_app.
Qed.

Fixpoint merge_entries (src dst : path) (copy : bool) (es : list (bytes * fnode)) (method : MoveMethod) (fs : fnode)
    : fnode * result MoveError MoveMethod :=
  match es with
  | [] => (fs, Ok method)
  | (n, c) :: es =>
      let '(fs, r) :=
        if is_dir c && dir_there fs (dst ++ [n]) then merge_dir dk c (src ++ [n]) (dst ++ [n]) copy fs
        else move_path dk (src ++ [n]) (dst ++ [n]) copy fs in
      match r with Ok m => merge_entries src dst copy es (merge method m) fs | Err e => (fs, Err e) end
  end.

Lemma merge_dir_eq m es src dst copy fs :
  merge_dir dk (FDir true m es) src dst copy fs =
  match merge_entries src dst copy es MNone fs with
  | (fs, Ok k) => (if copy then fs else remove_dir_at dk src fs, Ok k)
  | (fs, Err e) => (fs, Err e)
  end.
Proof.
  cbn [merge_dir]. match goal with |- (let '(_, _) := ?f es MNone fs in _) = _ => assert (forall k fs, f es k fs = merge_entries src dst copy es k fs) as -> end.
  - induction es as [|[n c] es IH]; intros k fs0; [done|]. cbn [merge_entries].
    destruct (if is_dir c && _ then _ else _) as [fs1 []]; [apply IH|done].
  - by destruct (merge_entries src dst copy es MNone fs) as [fs1 []].
Qed.

(** The entries [es] of [src], one after the other. *)
Record entries_post (src dst : path) (copy : bool) (es : list (bytes * fnode)) (fs fs' : fnode) (r : result MoveError MoveMethod) : Prop := {
  ep_confined : confined (dst :: ((fun e => src ++ [e.1]) <$> es)) fs fs';
  ep_keeps : keeps (fun q => ordinary q /\ (copy = true \/ ~ src `prefix_of` q)) fs fs';
  ep_source : forall n c rel data m, (n, c) ∈ es -> tget c rel = Some (FFile data m) ->
    tget fs' (src ++ n :: rel) = None \/ tget fs' (src ++ n :: rel) = Some (FFile data m);
  ep_dest : forall n c rel data m, (n, c) ∈ es -> tget c rel = Some (FFile data m) -> ordinary (dst ++ n :: rel) ->
    (exists k, r = Ok k) \/ tget fs' (src ++ n :: rel) = None -> holds dk fs' (dst ++ n :: rel) data;
  ep_wf : forall k, r = Ok k -> tree_wf fs';
  ep_root : is_dir fs' = true
}.

Lemma cons_snoc (p : path) n rel : p ++ n :: rel = (p ++ [n]) ++ rel.
Proof. by rewrite <- app_assoc. Qed.

Lemma apart_names (p : path) n k q : n <> k -> apart (p ++ [n]) (p ++ k :: q).
Proof.
  intros Hne. split; intros [j E]; rewrite <- !app_assoc in E; apply app_inv_head in E; cbn in E; by injection E as E _; congruence.
Qed.

(** One entry is done, and now the others. *)
Lemma entries_step src dst n c copy es fs fs1 fs' k r :
  apart src dst -> n ∉ es.*1 ->
  merge_post (src ++ [n]) (dst ++ [n]) [dst] copy c fs fs1 (Ok k) -> entries_post src dst copy es fs1 fs' r ->
  entries_post src dst copy ((n, c) :: es) fs fs' r.
Proof.
  intros Hsd Hn [C1 K1 S1 D1 W1 R1] [C2 K2 S2 D2 W2 R2].
  assert (forall rel, tget fs' (src ++ n :: rel) = tget fs1 (src ++ n :: rel)) as Hsame.
  { intros rel. apply (confined_apart _ _ _ _ C2), Forall_cons. split.
    - apply apart_sym. eapply apart_below, prefix_app_r; [exact Hsd|done].
    - apply Forall_fmap, Forall_forall. intros [k0 v] Hin. cbn. apply apart_names. intros ->. apply Hn. apply list_elem_of_fmap. by exists (n, v). }
  split; [| | | |done|done].
  - eapply confined_trans; [eapply sub_paths, C1|eapply sub_paths, C2]; intros b; cbn; rewrite !elem_of_cons; [|tauto].
    intros [->|[->|?%elem_of_nil]]; tauto.
  - intros q d [Ho Hq] Hd Hdn. apply K2; [done| |done]. apply K1; [|done|done]. split; [done|]. destruct Hq as [|Hq]; [by left|right].
    intros Hp. apply Hq. etransitivity; [|exact Hp]. by apply prefix_app_r.
  - intros n0 c0 rel data m [[= -> ->]|Hin]%elem_of_cons Hc; [|by apply (S2 n0 c0)]. rewrite Hsame, cons_snoc. by apply (S1 rel).
  - intros n0 c0 rel data m [[= -> ->]|Hin]%elem_of_cons Hc Ho Hr; [|by apply (D2 n0 c0 rel data m)].
    rewrite cons_snoc in Ho |- *. destruct (D1 rel data m Hc Ho) as (w & m' & Hw & Hs); [left; by exists k|].
    exists w, m'. split; [|done]. apply K2; [|done|done]. split; [done|]. right. rewrite <- cons_snoc. intros Hp.
    apply (apart_below _ _ (dst ++ n :: rel)) in Hsd as [_ H]; [|done]. apply H. by apply prefix_app_r.
Qed.

Definition listed (src : path) (es : list (bytes * fnode)) (fs : fnode) : Prop :=
  forall n c, (n, c) ∈ es -> tget fs (src ++ [n]) = Some c.

Lemma listed_file src es fs n c rel data m :
  listed src es fs -> (n, c) ∈ es -> tget c rel = Some (FFile data m) -> tget fs (src ++ n :: rel) = Some (FFile data m).
Proof. intros Hl Hin Hc. by rewrite cons_snoc, tget_app, (Hl n c Hin). Qed.

(** The other entries of [src] do not change with one of them. *)
Lemma listed_next src dst n c copy es fs fs1 r :
  apart src dst -> n ∉ es.*1 -> merge_post (src ++ [n]) (dst ++ [n]) [dst] copy c fs fs1 r -> listed src es fs -> listed src es fs1.
Proof.
  intros Hsd Hn [C1 _ _ _ _ _] Hl k v Hin. rewrite (confined_apart _ _ _ _ C1); [by apply Hl|].
  rewrite !Forall_cons. split; [|split; [|done]].
  - apply apart_names. intros ->. apply Hn. apply list_elem_of_fmap. by exists (k, v).
  - apply apart_sym. eapply apart_below, prefix_app_r; [exact Hsd|done].
Qed.

(** Nothing happened to the entries [es]. *)
Lemma entries_idle src dst copy es fs e :
  is_dir fs = true -> listed src es fs -> entries_post src dst copy es fs fs (Err e).
Proof.
  intros Hroot Hl. split; [done|by intros q d _| | |done|done].
  - intros n c rel data m Hin Hc. right. by apply (listed_file src es fs n c).
  - intros n c rel data m Hin Hc _ [[k ?]|Hn]; [done|]. by rewrite (listed_file src es fs n c rel data m) in Hn.
Qed.

Lemma entries_stop src dst n c copy es fs fs1 e :
  apart src dst -> n ∉ es.*1 -> listed src es fs ->
  merge_post (src ++ [n]) (dst ++ [n]) [dst] copy c fs fs1 (Err e) -> entries_post src dst copy ((n, c) :: es) fs fs1 (Err e).
Proof.
  intros Hsd Hn Hl Hpost. pose proof (listed_next _ _ _ _ _ _ _ _ _ Hsd Hn Hpost Hl) as Hl1. destruct Hpost as [C1 K1 S1 D1 W1 R1].
  destruct (entries_idle src dst copy es fs1 e R1 Hl1) as [C2 K2 S2 D2 W2 R2]. split; [| | | |done|done].
  - eapply sub_paths, C1. intros b. cbn. rewrite !elem_of_cons. intros [->|[->|?%elem_of_nil]]; tauto.
  - intros q d [Ho Hq] Hd Hdn. apply K1; [|done|done]. split; [done|]. destruct Hq as [|Hq]; [by left|right].
    intros Hp. apply Hq. etransitivity; [|exact Hp]. by apply prefix_app_r.
  - intros n0 c0 rel data m [[= -> ->]|Hin]%elem_of_cons Hc; [|by apply (S2 n0 c0)]. rewrite cons_snoc. by apply (S1 rel).
  - intros n0 c0 rel data m [[= -> ->]|Hin]%elem_of_cons Hc Ho Hr; [|by apply (D2 n0 c0 rel data m)].
    rewrite cons_snoc in Ho, Hr |- *. by apply (D1 rel data m).
Qed.

(** What [merge_dir] promises for [c]. *)
Definition merges (c : fnode) (copy : bool) : Prop :=
  forall src dst fs fs' r, tree_wf fs -> is_dir fs = true -> apart src dst -> tget fs src = Some c ->
    merge_dir dk c src dst copy fs = (fs', r) -> merge_post src dst [dst] copy c fs fs' r.

Lemma merge_entries_post src dst copy es method fs fs' r :
  (forall n c, (n, c) ∈ es -> merges c copy) ->
  NoDup es.*1 -> tree_wf fs -> is_dir fs = true -> apart src dst -> listed src es fs ->
  merge_entries src dst copy es method fs = (fs', r) -> entries_post src dst copy es fs fs' r.
Proof.
  revert method fs. induction es as [|[n c] es IH]; intros method fs Hrec Hnd Hwf Hroot Hsd Hl; cbn [merge_entries].
  { intros [= <- <-]. split; [done|by intros q d _| | |done|done]; by intros n c rel data m ?%elem_of_nil. }
  rewrite fmap_cons in Hnd. apply NoDup_cons in Hnd as [Hn Hnd]. cbn in Hn.
  assert (listed src es fs) as Hl' by (intros k v Hin; apply Hl; by right).
  assert (tget fs (src ++ [n]) = Some c) as Hc by (apply Hl; left).
  destruct (if is_dir c && dir_there fs (dst ++ [n]) then _ else _) as [fs1 r1] eqn:E1.
  assert (merge_post (src ++ [n]) (dst ++ [n]) [dst] copy c fs fs1 r1) as Hpost.
  { destruct (is_dir c && dir_there fs (dst ++ [n])); [|by apply move_entry_post].
    apply merge_post_under with [dst ++ [n]].
    - constructor; [|done]. exists dst. split; [left|by apply prefix_app_r].
    - apply (Hrec n c ltac:(left)); try done. by apply apart_app. }
  destruct r1 as [k|e].
  - intros Hrest. apply (entries_step src dst n c copy es fs fs1 fs' k r Hsd Hn Hpost).
    apply (IH (merge method k) fs1); try done; [by intros; eapply Hrec; right|by apply Hpost with k|by apply Hpost|].
    by apply (listed_next src dst n c copy es fs fs1 (Ok k)).
  - intros [= <- <-]. by apply entries_stop.
Qed.

Lemma find_entry_elem k es v : find_entry k es = Some v -> (k, v) ∈ es.
Proof. induction es as [|[j u] es IH]; [done|]. cbn. case_bool_decide; [intros [= <-]; subst; left|right; auto]. Qed.

(** The emptied folder goes last. *)
Lemma merge_then_remove src dst copy c fs fs1 k :
  apart src dst -> merge_post src dst [dst] copy c fs fs1 (Ok k) -> merge_post src dst [dst] copy c fs (remove_dir_at dk src fs1) (Ok k).
Proof.
  intros Hsd [C K S D W R]. destruct (remove_dir_at_ok dk src fs1 (W k eq_refl)) as (Hc & Hw & Hs).
  assert (keeps (fun _ => True) fs1 (remove_dir_at dk src fs1)) as Hk.
  { intros q d _ Hq Hd. unfold remove_dir_at. destruct (tget fs1 src) as [[|? ? []| | |]|] eqn:Esrc; try done.
    destruct (dk_rm dk src); [|done]. by apply (remove_empty_keeps _ _ _ _ _ Esrc). }
  split; [| | | |done|by rewrite remove_dir_at_root].
  - eapply confined_trans; [exact C|]. eapply sub_paths, Hc. intros b ->%list_elem_of_singleton. left.
  - eapply tree_keeps_trans; [exact K|]. by eapply keeps_impl, Hk.
  - intros rel data m H. destruct (tget (remove_dir_at dk src fs1) (src ++ rel)) as [d|] eqn:E; [|by left]. right.
    destruct (Hs (fun _ => True) _ d I E) as (d0 & E0 & Edir & Esame). destruct (S rel data m H) as [S0|S0]; rewrite E0 in S0; [done|].
    injection S0 as ->. by rewrite <- Esame.
  - intros rel data m H Ho _. destruct (D rel data m H Ho) as (w & m' & Hw' & Hsame); [left; by exists k|]. exists w, m'. split; [|done]. by apply Hk.
Qed.

Lemma merge_dir_post c copy : merges c copy.
Proof.
  enough (forall n c, (fsize c <= n)%nat -> merges c copy) by eauto. clear c. induction n as [|n IH]; intros c Hsize; [pose proof (fsize_pos c); lia|].
  intros src dst fs fs' r Hwf Hroot Hsd Hc Hm.
  assert (forall e, merge_post src dst [dst] copy c fs fs (Err e)) as Hidle.
  { intros e. split; [done|by intros q d _| | |done|done].
    - intros rel data m H. right. by rewrite tget_app, Hc.
    - intros rel data m H _ [[k ?]|Hn]; [done|]. by rewrite tget_app, Hc in Hn; cbn in Hn; rewrite H in Hn. }
  destruct c as [d m|[] m es| |m|]; try (by injection Hm as <- <-). rewrite merge_dir_eq in Hm.
  destruct (merge_entries src dst copy es MNone fs) as [fs1 r1] eqn:E1.
  assert (entries_post src dst copy es fs fs1 r1) as [C K S D W R].
  { pose proof (Hwf src true m es Hc) as Hnd. eapply merge_entries_post; try done.
    - intros k v Hin. apply IH. cbn in Hsize. pose proof (esize_in es k v Hin) as Hs. unfold esize in Hs. lia.
    - intros k v Hin. rewrite tget_app, Hc. cbn. by rewrite (find_entry_in k v es). }
  assert (confined [src; dst] fs fs1) as C'.
  { eapply confined_under, C. apply Forall_cons. split; [exists dst; split; [right; left|done]|].
    apply Forall_fmap, Forall_forall. intros [k v] _. exists src. split; [left|by apply prefix_app_r]. }
  assert (forall rel data m', tget (FDir true m es) rel = Some (FFile data m') -> exists k v rel', rel = k :: rel' /\ (k, v) ∈ es /\ tget v rel' = Some (FFile data m')) as Hin.
  { intros [|k rel] data m'; [done|]. cbn. destruct (find_entry k es) as [v|] eqn:E; [|done]. cbn. exists k, v, rel. split; [done|]. split; [|done].
    by apply find_entry_elem. }
  assert (merge_post src dst [dst] copy (FDir true m es) fs fs1 r1) as Hpost.
  { split; [done|done| | |done|done].
    - intros rel data m' (k & v & rel' & -> & Hkv & Hv)%Hin. by apply (S k v).
    - intros rel data m' (k & v & rel' & -> & Hkv & Hv)%Hin. by apply (D k v rel' data m'). }
  destruct r1 as [k|e]; [|by injection Hm as <- <-]. destruct copy; injection Hm as <- <-; [done|].
  apply (merge_then_remove src dst false _ fs fs1 k Hsd Hpost).
Qed.
End Run.
