(* ===== verification/RelocateExecute.v ===== *)
(** * A relocation as a whole ([librqbit::relocate::execute])

    Which plans fit the disk, what [execute] reports for one that does, and an example
    of one that does not. *)

From stdpp Require Import base tactics option list list_numbers numbers decidable sets strings sorting.
From Stdlib Require Import ZArith Lia.
From S2P Require Import Prelude Bencode FsTree OrphanCleanup OrphanSafety OrphanScan Relocate RelocateSafety RelocateRun.
Open Scope Z_scope.

Section Execute.
Variable dk : Disk.

(** ** File by file *)

Lemma remove_empty_up_keeps rev_cur stop incl fs : keeps (fun _ => True) fs (remove_empty_up dk rev_cur stop incl fs).
Proof.
  revert fs. induction rev_cur as [|n rc IH]; intros fs; cbn [remove_empty_up].
  all: destruct (_ || _); [by intros q d _|]. all: destruct (tget fs (reverse _)) as [[|[] ? []| | |]|] eqn:Ecur; try (by intros q d _).
  all: destruct (dk_rm dk _); [|by intros q d _].
  all: pose proof (remove_empty_keeps (dk_now dk) _ _ _ _ Ecur) as Hk.
  - by destruct (bool_decide _).
  - destruct (bool_decide _); [done|]. eapply tree_keeps_trans; [exact Hk|apply IH].
Qed.

Lemma remove_empty_parents_keeps old own sources fs : keeps (fun _ => True) fs (remove_empty_parents dk old own sources fs).
Proof.
  unfold remove_empty_parents. revert fs. induction sources as [|s sources IH]; intros fs; [by intros q d _|]. cbn.
  eapply tree_keeps_trans; [|apply IH]. destruct (parent s); [apply remove_empty_up_keeps|by intros q d _].
Qed.

Lemma holds_keeps fs fs' p data : keeps (fun _ => True) fs fs' -> holds dk fs p data -> holds dk fs' p data.
Proof. intros Hk (w & m & Hw & Hs). exists w, m. split; [|done]. by apply Hk. Qed.

Lemma located_keeps fs fs1 fs' files l : keeps (fun _ => True) fs1 fs' -> located dk fs fs1 files l -> located dk fs fs' files l.
Proof. intros Hk. apply Forall2_weaken. intros f ip _ [E H]. split; [done|]. intros. by eapply holds_keeps, H. Qed.

Lemma located_elem fs fs' files l f data m :
  located dk fs fs' files l -> f ∈ files -> tget fs (fl_current f) = Some (FFile data m) -> exists p, holds dk fs' p data.
Proof.
  intros Hl Hf Hd. induction Hl as [|g ip files l [_ H] _ IH]; [by apply elem_of_nil in Hf|].
  apply elem_of_cons in Hf as [->|Hf]; [exists ip.2; by apply (H data m)|by apply IH].
Qed.

(** What a relocation promises. *)
Record relocated (plan : Plan) (fs fs' : fnode) (paths : list (nat * path)) : Prop := {
  (** the files of the plan are where it says *)
  rl_files : located dk fs fs' (pl_files plan) paths;
  (** nothing that is not part of the move is changed, overwritten or removed *)
  rl_others : keeps (fun q => ordinary q /\ (pl_copy plan = true \/
    q ∉ fl_current <$> pl_files plan /\ (pl_whole_folder plan = true -> ~ pl_old_output plan `prefix_of` q))) fs fs';
  (** and no content is lost *)
  rl_lost : forall q data m, ordinary q -> tget fs q = Some (FFile data m) -> exists p, holds dk fs' p data
}.

(** Nothing gets lost on the way. *)
Lemma run_lost to copy files fs l fs' q data m :
  located dk fs fs' files l -> kept to copy files fs fs' -> ordinary q -> tget fs q = Some (FFile data m) -> exists p, holds dk fs' p data.
Proof.
  intros Hl Hk Ho Hq. destruct (decide (q ∈ fl_current <$> files)) as [(f & -> & Hf)%list_elem_of_fmap|Hn].
  - by eapply located_elem.
  - exists q. apply holds_file with m. apply Hk; [|done|done]. split; [done|]. right. intros f Hf _ ->. apply Hn. by apply list_elem_of_fmap_2.
Qed.

Lemma execute_files_ok pid plan fs :
  tree_wf fs -> is_dir fs = true -> plan_ok (file_target (files_dest pid plan fs)) (pl_files plan) fs ->
  relocated plan fs (execute_files dk pid plan fs).1 (oc_paths (execute_files dk pid plan fs).2).
Proof.
  intros Hwf Hroot Hplan. unfold execute_files. set (to := file_target _) in *.
  destruct (move_files_run dk to (pl_copy plan) (pl_files plan) fs (mkProgress [] MNone 0 None [])) as (l & El & Hrun).
  destruct (move_files dk to _ _ _ _) as [fs1 g]. cbn in El, Hrun. cbn [fst snd oc_paths]. rewrite El.
  destruct (run_ok dk _ _ _ _ _ _ _ Hrun eq_refl Hplan Hwf Hroot) as [Hl Hk].
  match goal with |- relocated _ _ ?x _ => set (fs2 := x) end.
  assert (keeps (fun _ => True) fs1 fs2) as Hk2.
  { subst fs2. destruct (pl_copy plan); [by intros q d _|apply remove_empty_parents_keeps]. }
  pose proof (located_keeps _ _ _ _ _ Hk2 Hl) as Hl2.
  assert (keeps (fun q => ordinary q /\ (pl_copy plan = true \/ q ∉ fl_current <$> pl_files plan)) fs fs2) as Hothers.
  { eapply tree_keeps_trans; [|eapply keeps_impl, Hk2; done]. eapply keeps_impl, Hk. cbn. intros q [Ho Hq]. split; [done|].
    destruct Hq as [|Hq]; [by left|right]. intros f Hf _ ->. apply Hq. by apply list_elem_of_fmap_2. }
  split; [done| |].
  - eapply keeps_impl, Hothers. cbn. tauto.
  - intros q data m Ho Hq. destruct (run_lost _ _ _ _ _ _ q data m Hl Hk Ho Hq) as [p Hp]. exists p. by eapply holds_keeps.
Qed.

(** ** The folder as a whole *)

(** A file of the folder, where it is after the move. *)
Definition joined (old dest : path) (f : FileLoc) : FileLoc :=
  match strip_base old (fl_current f) with Some r => mkLoc (fl_id f) (dest ++ r) r | None => f end.

Lemma strip_base_some old p r : strip_base old p = Some r <-> p = old ++ r.
Proof.
  unfold strip_base, starts_with. case_bool_decide as H.
  - destruct H as [k ->]. rewrite drop_app_length. split; [by intros [= ->]|intros E; by apply app_inv_head in E as ->].
  - split; [done|]. intros ->. destruct H. by apply prefix_app_r.
Qed.

Lemma strip_base_none old p : strip_base old p = None <-> ~ old `prefix_of` p.
Proof. unfold strip_base, starts_with. by case_bool_decide. Qed.

Lemma join_files_run old dest copy files fs g :
  exists l, pg_paths (join_files dk old dest copy files fs g).2 = pg_paths g ++ l /\
    run dk (fun f => dest ++ fl_rel f) copy (has_error g) (joined old dest <$> files) fs l (join_files dk old dest copy files fs g).1.
Proof.
  revert fs g. induction files as [|f files IH]; intros fs g; cbn [join_files].
  { exists []. rewrite app_nil_r. split; [done|constructor]. }
  rewrite fmap_cons. assert (joined old dest f = match strip_base old (fl_current f) with Some r => mkLoc (fl_id f) (dest ++ r) r | None => f end) as -> by done.
  destruct (strip_base old (fl_current f)) as [r|].
  { match goal with |- context [join_files dk old dest copy files fs ?x] => destruct (IH fs x) as (l & El & Hl) end.
    exists ((fl_id f, dest ++ r) :: l). split; [rewrite El; cbn; by rewrite <- app_assoc|].
    apply (run_idle dk _ _ _ (mkLoc (fl_id f) (dest ++ r) r)); [by left|done]. }
  destruct (bool_decide (fl_current f = dest ++ fl_rel f) || has_error g || negb (path_exists fs (fl_current f))) eqn:Eidle.
  { match goal with |- context [join_files dk old dest copy files fs (at_path f ?p g)] => destruct (IH fs (at_path f p g)) as (l & El & Hl);
      exists ((fl_id f, p) :: l) end.
    split; [rewrite El; cbn; by rewrite <- app_assoc|]. apply run_idle; [|done]. destruct (path_exists fs (fl_current f)); auto. }
  apply orb_false_iff in Eidle as [[Hne%bool_decide_eq_false Eg]%orb_false_iff Hex%negb_false_iff].
  unfold move_one. destruct (move_path dk (fl_current f) (dest ++ fl_rel f) copy fs) as [fs1 [k|e]] eqn:Emv.
  - match goal with |- context [join_files dk old dest copy files fs1 ?x] => destruct (IH fs1 x) as (l & El & Hl) end.
    exists ((fl_id f, dest ++ fl_rel f) :: l). split; [rewrite El; cbn; by rewrite <- app_assoc|].
    unfold has_error in Hl. cbn in Hl. fold (has_error g) in Hl. rewrite Eg in *. by eapply (run_moved dk (fun f => dest ++ fl_rel f)).
  - match goal with |- context [join_files dk old dest copy files fs1 ?x] => destruct (IH fs1 x) as (l & El & Hl) end.
    exists ((fl_id f, fl_current f) :: l). split; [rewrite El; cbn; by rewrite <- app_assoc|]. rewrite Eg. by eapply run_failed.
Qed.

(** What moving a whole folder asks: no two files meet at one path, the files that are
    elsewhere are on the disk (or have nothing to do with [dest]), and a folder that is
    merged into another is not inside it. *)
Record folder_ok (dest : path) (merging : bool) (plan : Plan) (fs : fnode) : Prop := {
  fo_old : ordinary (pl_old_output plan);
  fo_dest : ordinary dest;
  fo_apart : merging = true -> ~ dest `prefix_of` pl_old_output plan;
  fo_distinct : NoDup (fl_current <$> (joined (pl_old_output plan) dest <$> pl_files plan));
  fo_ordinary : forall f, f ∈ pl_files plan -> ordinary (fl_current f) /\ ordinary (dest ++ fl_rel f);
  fo_outside : forall f, f ∈ pl_files plan -> ~ pl_old_output plan `prefix_of` fl_current f ->
    is_file_at fs (fl_current f) \/ tget fs (fl_current f) = None /\ apart (fl_current f) dest
}.

Lemma ordinary_app p q : ordinary (p ++ q) <-> ordinary p /\ ordinary q.
Proof. apply Forall_app. Qed.

(** A move to a folder that is there fails. *)
Lemma move_path_taken src dst c copy fs fs' r :
  is_dir fs = true -> dir_at fs dst -> tget fs src = Some c ->
  move_path dk src dst copy fs = (fs', r) -> merge_post dk src dst [dst; temp_sibling dk dst] copy c fs fs' r /\ keeps ordinary fs fs'.
Proof.
  intros Hroot Hdir Hc Hmove. pose proof (move_path_root dk src dst copy fs) as Hr. rewrite Hmove, Hroot in Hr. cbn in Hr.
  unfold move_path in Hmove. set (mk := match parent dst with Some p => _ | None => _ end) in Hmove.
  assert (forall q, ~ q `prefix_of` removelast dst \/ (exists d, tget fs q = Some d /\ is_dir d = false) -> tget mk.1 q = tget fs q) as Hk.
  { intros q Hq. subst mk. destruct dst; [done|]. by apply create_dirs_keeps. }
  assert (path_exists mk.1 dst = true) as Hex.
  { assert (dir_at mk.1 dst) as (d & Hd & Hdd) by (subst mk; destruct (parent dst); [by apply create_dirs_dir_at|done]).
    unfold path_exists. rewrite Hd. by destruct d. }
  destruct mk as [fs1 made]. cbn in Hk, Hex. rewrite Hex in Hmove.
  assert (exists e, (fs', r) = (fs1, Err e)) as [e [= -> ->]] by (destruct made; injection Hmove as <- <-; eauto).
  assert (forall rel data m, tget c rel = Some (FFile data m) -> tget fs1 (src ++ rel) = Some (FFile data m)) as Hs.
  { intros rel data m H. rewrite Hk; [by rewrite tget_app, Hc|]. right. exists (FFile data m). by rewrite tget_app, Hc. }
  assert (keeps ordinary fs fs1) as Hkeep.
  { intros q d _ Hq Hd. rewrite Hk; [done|]. right. by exists d. }
  split; [|done]. split; [| | | |done|done].
  - intros q _ Hq. apply Hk. destruct Hq as [Hq|Hq]; [left|by right]. rewrite !Forall_cons in Hq. destruct Hq as (_ & Hq & _).
    intros H. apply Hq. etransitivity; [exact H|apply removelast_prefix_of].
  - eapply keeps_impl, Hkeep. by intros q [].
  - intros rel data m H. right. by apply Hs.
  - intros rel data m H _ [[k ?]|Hn]; [done|]. by rewrite (Hs rel data m) in Hn.
Qed.

Lemma suffixed_parent p n is_file : exists k, suffixed p n is_file = removelast p ++ [k].
Proof. unfold suffixed. eauto. Qed.

Lemma free_path_parent pid fs p is_file : free_path pid fs p is_file = p \/ exists k, free_path pid fs p is_file = removelast p ++ [k].
Proof.
  unfold free_path. destruct (negb _); [by left|right]. destruct (list_find _ _) as [[i n]|]; apply suffixed_parent.
Qed.

Lemma whole_dest_spec pid plan t fs :
  let '(dest, merging) := whole_dest pid plan t fs in
  (merging = true -> dest = pl_new_output plan) /\ (dest = pl_new_output plan \/ exists k, dest = removelast (pl_new_output plan) ++ [k]).
Proof.
  unfold whole_dest. destruct (negb _); [by auto|]. destruct (_ && _); [by auto|]. split; [done|apply free_path_parent].
Qed.

(** The folder is moved, or merged into the one that is there. *)
Lemma folder_moved pid plan t dest merging fs fs' r :
  tree_wf fs -> is_dir fs = true -> is_dir t = true -> tget fs (pl_old_output plan) = Some t ->
  ~ pl_old_output plan `prefix_of` pl_new_output plan -> whole_dest pid plan t fs = (dest, merging) -> folder_ok dest merging plan fs ->
  (if merging then merge_dir dk t (pl_old_output plan) dest (pl_copy plan) fs else move_path dk (pl_old_output plan) dest (pl_copy plan) fs) = (fs', r) ->
  merge_post dk (pl_old_output plan) dest [dest; temp_sibling dk dest] (pl_copy plan) t fs fs' r /\
  (merging = false -> forall e, r = Err e -> keeps ordinary fs fs').
Proof.
  intros Hwf Hroot Hdir Hold Hinto Hdest [Ho Hod Hap _ _ _] Hmove. pose proof (whole_dest_spec pid plan t fs) as Hspec. rewrite Hdest in Hspec.
  destruct Hspec as [Hmerge Hnew]. destruct merging.
  - split; [|done]. rewrite Hmerge in * by done. apply merge_post_under with [pl_new_output plan].
    + constructor; [|done]. exists (pl_new_output plan). split; [left|done].
    + apply merge_dir_post; try done. split; [done|by apply Hap].
  - destruct (tget fs dest) as [d|] eqn:Ed; [destruct (is_dir d) eqn:Edir|].
    { destruct (move_path_taken (pl_old_output plan) dest t (pl_copy plan) fs fs' r) as [H Hk]; try done. by exists d. }
    all: assert (~ dest `prefix_of` pl_old_output plan) as Hds by
      (intros Hp; destruct (decide (dest = pl_old_output plan)) as [E|E]; [rewrite E in Ed; congruence|];
       destruct (dir_at_above _ _ _ _ Hold Hp E) as (d' & Hd' & ?); congruence).
    all: assert (~ pl_old_output plan `prefix_of` dest) as Hsd by
      (destruct Hnew as [->|[k ->]]; [done|]; intros [j E]; destruct (path_cases j) as [->|(j' & n & ->)];
       [rewrite app_nil_r in E; apply Hds; by rewrite E|]; rewrite app_assoc in E; apply app_inj_tail in E as [E _];
       apply Hinto; etransitivity; [|apply removelast_prefix_of]; rewrite E; by apply prefix_app_r).
    all: assert (dest <> []) as Hne by (intros ->; by destruct Hds; apply prefix_nil).
    all: pose proof (ordinary_apart_temp dk _ _ Ho Hsd) as Hst.
    all: split; [by apply move_path_merges|]. all: intros _ e -> q d' Hq Hqd Hn.
    all: destruct (move_path_post dk _ _ Hne (conj Hsd Hds) Hst _ _ _ _ Hwf Hroot Hmove) as (_ & Hk & _).
    all: by apply Hk; [done|done|apply ordinary_no_temp|].
Qed.

Section Folder.
Variables (plan : Plan) (dest : path) (merging : bool) (t fs fs1 : fnode) (r : result MoveError MoveMethod).
Abbreviation old := (pl_old_output plan).
Hypothesis Hold : tget fs old = Some t.
Hypothesis Hdir : is_dir t = true.
Hypothesis Hwhole : pl_whole_folder plan = true.
Hypothesis Hok : folder_ok dest merging plan fs.
Hypothesis Hpost : merge_post dk old dest [dest; temp_sibling dk dest] (pl_copy plan) t fs fs1 r.

Lemma inside_file rel data m : tget fs (old ++ rel) = Some (FFile data m) -> tget t rel = Some (FFile data m).
Proof. by rewrite tget_app, Hold. Qed.

Lemma others_kept q d : ordinary q -> ~ old `prefix_of` q -> tget fs q = Some d -> is_dir d = false -> tget fs1 q = Some d.
Proof. intros Ho Hq. apply (mp_keeps _ _ _ _ _ _ _ _ _ Hpost). auto. Qed.

(** A file of the old folder or elsewhere is somewhere after a move that failed. *)
Lemma failed_located e (Herr : r = Err e) (Hstill : merging = false -> keeps ordinary fs fs1) :
  located dk fs fs1 (pl_files plan) ((fun f => (fl_id f, halfway_path old dest merging fs1 f)) <$> pl_files plan).
Proof.
  unfold located. rewrite Forall2_fmap_r. apply Forall_Forall2_diag, Forall_forall. intros f Hf. split; [done|]. cbn. intros data m Hd.
  destruct (fo_ordinary _ _ _ _ Hok f Hf) as [Hof _]. unfold halfway_path. destruct (strip_base old (fl_current f)) as [rel|] eqn:Er.
  - apply strip_base_some in Er. rewrite Er in Hd, Hof |- *. destruct Hpost as [_ _ S D _ _]. pose proof (inside_file _ _ _ Hd) as Ht.
    destruct merging; [|cbn; by eapply holds_file, Hstill]. cbn [andb].
    destruct (S rel data m Ht) as [Hn|Hs].
    + assert (ordinary (dest ++ rel)) as Hor by (apply ordinary_app in Hof as [_ ?]; apply ordinary_app; split; [apply Hok|done]).
      pose proof (D rel data m Ht Hor (or_intror Hn)) as Hh. unfold path_exists. rewrite Hn. destruct Hh as (w & m' & Hw & Hsame). rewrite Hw. cbn.
      by exists w, m'.
    + assert (path_exists fs1 (old ++ rel) = true) as -> by (unfold path_exists; by rewrite Hs). rewrite andb_false_r. by eapply holds_file.
  - apply strip_base_none in Er. by eapply holds_file, others_kept.
Qed.

Lemma failed_lost q data m : ordinary q -> tget fs q = Some (FFile data m) -> exists p, holds dk fs1 p data.
Proof.
  intros Ho Hq. destruct (decide (old `prefix_of` q)) as [[rel ->]|Hn]; [|exists q; by eapply holds_file, others_kept].
  pose proof (inside_file _ _ _ Hq) as Ht. destruct Hpost as [_ _ S D _ _]. apply ordinary_app in Ho as [_ Hor].
  destruct (S rel data m Ht) as [Hg|Hs]; [|eauto using holds_file]. exists (dest ++ rel). apply (D rel data m Ht); [|by right].
  apply ordinary_app. split; [apply Hok|done].
Qed.

(** The plan of the files that are still to join the folder. *)
Lemma joined_plan_ok k (Hr : r = Ok k) : plan_ok (fun f => dest ++ fl_rel f) (joined old dest <$> pl_files plan) fs1.
Proof.
  destruct Hok as [_ Hod _ Hnd Hord Hout]. destruct Hpost as [C _ _ _ _ _].
  assert (forall f, f ∈ joined old dest <$> pl_files plan -> fl_current f <> dest ++ fl_rel f ->
    f ∈ pl_files plan /\ ~ old `prefix_of` fl_current f /\
    (is_file_at fs1 (fl_current f) \/ tget fs1 (fl_current f) = None /\ apart (fl_current f) dest)) as Hmov.
  { intros f (f0 & -> & Hf)%list_elem_of_fmap. unfold joined. destruct (strip_base old (fl_current f0)) as [rel|] eqn:Er; [done|]. intros Hne.
    apply strip_base_none in Er. split; [done|]. split; [done|]. destruct (Hord f0 Hf) as [Hof _].
    destruct (Hout f0 Hf Er) as [(data & m & Hd)|[Hn Ha]]; [left; exists data, m; by apply others_kept|right]. split; [|done].
    rewrite (confined_apart _ _ _ _ C); [done|]. rewrite !Forall_cons. split; [split; [done|]|split; [by apply apart_sym|split; [|done]]].
    - intros Hp. destruct (tget_prefix _ _ _ _ Hold Hp) as [y Hy]. congruence.
    - apply apart_sym, ordinary_apart_temp; [done|apply Ha]. }
  split; [done|..].
  - intros f (f0 & -> & Hf)%list_elem_of_fmap. unfold joined. destruct (strip_base old (fl_current f0)) as [rel|] eqn:Er; [|by apply Hord].
    apply strip_base_some in Er. destruct (Hord f0 Hf) as [Hof _]. rewrite Er in Hof. apply ordinary_app in Hof as [_ Hof]. cbn.
    split; by apply ordinary_app.
  - intros f Hf Hne. destruct (Hmov f Hf Hne) as (_ & _ & [|[]]); auto.
  - intros f h _ Hh Hne _ Hn. destruct (Hmov h Hh Hne) as (_ & _ & [(data & m & Hd)|[_ Ha]]); [congruence|].
    intros Hp. by apply (apart_below _ _ (dest ++ fl_rel f)) in Ha as [_ H]; [apply H; apply prefix_app_r|].
Qed.

Lemma joined_located fs' l k (Hr : r = Ok k) :
  located dk fs1 fs' (joined old dest <$> pl_files plan) l -> located dk fs fs' (pl_files plan) l.
Proof.
  unfold located. rewrite Forall2_fmap_l. apply Forall2_weaken. intros f ip Hf [Eid H]. unfold joined in Eid, H.
  destruct (fo_ordinary _ _ _ _ Hok f Hf) as [Hof _]. destruct (strip_base old (fl_current f)) as [rel|] eqn:Er.
  - split; [done|]. intros data m Hd. apply strip_base_some in Er. rewrite Er in Hd, Hof. apply ordinary_app in Hof as [_ Hof].
    destruct (mp_dest _ _ _ _ _ _ _ _ _ Hpost rel data m) as (w & m' & Hw & Hs); [by apply inside_file| |left; by exists k|].
    { apply ordinary_app. split; [apply Hok|done]. }
    destruct (H w m' Hw) as (w2 & m2 & Hw2 & Hs2). exists w2, m2. split; [done|]. by apply (same_content_trans dk _ w).
  - split; [done|]. intros data m Hd. apply (H data m). apply strip_base_none in Er. by apply others_kept.
Qed.

Lemma joined_relocated fs' l k (Hr : r = Ok k) :
  located dk fs1 fs' (joined old dest <$> pl_files plan) l ->
  kept (fun f => dest ++ fl_rel f) (pl_copy plan) (joined old dest <$> pl_files plan) fs1 fs' ->
  relocated plan fs fs' l.
Proof.
  intros Hl Hk. split; [by apply (joined_located fs' l k)| |].
  - intros q d [Ho Hq] Hd Hn. apply Hk; [| |done].
    + split; [done|]. destruct Hq as [|[Hq _]]; [by left|right]. intros f (f0 & -> & Hf)%list_elem_of_fmap. unfold joined.
      destruct (strip_base old (fl_current f0)); [done|]. intros _ ->. apply Hq. by apply list_elem_of_fmap_2.
    + apply (mp_keeps _ _ _ _ _ _ _ _ _ Hpost); [|done|done]. split; [done|]. destruct Hq as [|[_ Hq]]; [by left|right; by apply Hq].
  - intros q data m Ho Hq. destruct (decide (old `prefix_of` q)) as [[rel ->]|Hn].
    + apply ordinary_app in Ho as [_ Ho]. assert (ordinary (dest ++ rel)) as Hor by (apply ordinary_app; split; [apply Hok|done]).
      destruct (mp_dest _ _ _ _ _ _ _ _ _ Hpost rel data m) as (w & m' & Hw & Hs); [by apply inside_file|done|left; by exists k|].
      destruct (run_lost _ _ _ _ _ _ (dest ++ rel) w m' Hl Hk Hor Hw) as (p & w2 & m2 & Hw2 & Hs2).
      exists p, w2, m2. split; [done|]. by apply (same_content_trans dk _ w).
    + apply (run_lost _ _ _ _ _ _ q data m Hl Hk Ho). by apply others_kept.
Qed.

Lemma failed_relocated e (Herr : r = Err e) (Hstill : merging = false -> keeps ordinary fs fs1) :
  relocated plan fs fs1 ((fun f => (fl_id f, halfway_path old dest merging fs1 f)) <$> pl_files plan).
Proof.
  split; [by apply (failed_located e)| |intros q data m; apply failed_lost].
  intros q d [Ho Hq] Hd Hn. apply (mp_keeps _ _ _ _ _ _ _ _ _ Hpost); [|done|done]. split; [done|].
  destruct Hq as [|[_ Hq]]; [by left|right; by apply Hq].
Qed.
End Folder.

Lemma execute_whole_ok pid plan t fs :
  tree_wf fs -> is_dir fs = true -> is_dir t = true -> tget fs (pl_old_output plan) = Some t -> pl_whole_folder plan = true ->
  ~ pl_old_output plan `prefix_of` pl_new_output plan ->
  folder_ok (whole_dest pid plan t fs).1 (whole_dest pid plan t fs).2 plan fs ->
  relocated plan fs (execute_whole dk pid plan t fs).1 (oc_paths (execute_whole dk pid plan t fs).2).
Proof.
  intros Hwf Hroot Hdir Hold Hwhole Hinto Hok. unfold execute_whole.
  destruct (whole_dest pid plan t fs) as [dest merging] eqn:Edest. cbn [fst snd] in Hok.
  destruct (if merging then _ else _) as [fs1 r] eqn:Emv.
  destruct (folder_moved pid plan t dest merging fs fs1 r Hwf Hroot Hdir Hold Hinto Edest Hok Emv) as [Hpost Hstill].
  destruct r as [k|e]; [|apply (failed_relocated plan dest merging t fs fs1 (Err e) Hold Hwhole Hok Hpost e); eauto].
  destruct (join_files_run (pl_old_output plan) dest (pl_copy plan) (pl_files plan) fs1 (mkProgress [] k 0 None [])) as (l & El & Hrun).
  destruct (join_files dk _ _ _ _ _ _) as [fs' g]. cbn in El, Hrun |- *. rewrite El.
  destruct (run_ok dk _ _ _ _ _ _ _ Hrun eq_refl) as [Hl Hk].
  - by apply (joined_plan_ok plan dest merging t fs fs1 (Ok k) Hold Hok Hpost k).
  - by apply (mp_wf _ _ _ _ _ _ _ _ _ Hpost k).
  - by apply (mp_root _ _ _ _ _ _ _ _ _ Hpost).
  - by apply (joined_relocated plan dest merging t fs fs1 (Ok k) Hold Hwhole Hok Hpost fs' l k).
Qed.
End Execute.

(** What a plan asks of the disk, by the way it is carried out. *)
Definition plan_fits (pid : Z) (plan : Plan) (fs : fnode) : Prop :=
  match pl_whole_folder plan, tget fs (pl_old_output plan) with
  | true, Some (FDir _ _ _ as t) => folder_ok (whole_dest pid plan t fs).1 (whole_dest pid plan t fs).2 plan fs
  | _, _ => plan_ok (file_target (files_dest pid plan fs)) (pl_files plan) fs
  end.

(** C7: A relocation loses and overwrites nothing, whatever fails on the way: [execute]
    ends with a list that gives, for every file of the plan that is on the disk, in order, a
    path at which a file of the same length and SHA-1 is; every other file, link and special
    file at an ordinary path (no name like that of a temporary copy) is as it was, unless it
    is in a folder that is moved as a whole; and the content of every file at an ordinary
    path is still on the disk.  This is so for every behaviour of the disk: which calls fail,
    which paths are on one device, what a copy holds when it is read back, what is left
    of a failed copy.  The plan has to fit the disk ([plan_fits]): the paths of the files are
    ordinary and different (also after the folder was moved), what is to be moved is a file
    or missing, no file is moved onto the path of a missing one or into it, a file outside of
    a folder that is moved as a whole is there or its path has nothing to do with the new
    folder, and a folder is not merged into one that it is inside of.  (Where a file is moved
    onto the path of a missing one, the list can name a path at which nothing is, see
    [relocation_carries_off].) *)
Theorem relocation_safe (dk : Disk) (pid : Z) (plan : Plan) (fs : fnode) :
  tree_wf fs -> is_dir fs = true -> plan_fits pid plan fs ->
  relocated dk plan fs (execute dk pid plan fs).1 (oc_paths (execute dk pid plan fs).2).
Proof.
  intros Hwf Hroot Hfits.
  assert (forall e, relocated dk plan fs fs (oc_paths (unchanged plan e))) as Hsame.
  { intros e. split; [|by intros q d _|intros q data m _ Hq; exists q; by eapply holds_file].
    unfold located. cbn. rewrite Forall2_fmap_r. apply Forall_Forall2_diag, Forall_forall. intros f _. cbn. eauto using holds_file. }
  unfold execute. case_bool_decide; [apply Hsame|].
  destruct (pl_whole_folder plan && starts_with (pl_new_output plan) (pl_old_output plan)) eqn:Einto; [apply Hsame|].
  unfold plan_fits in Hfits. destruct (pl_whole_folder plan) eqn:Ewh; [|by apply execute_files_ok].
  destruct (tget fs (pl_old_output plan)) as [t|] eqn:Et; [|by apply execute_files_ok].
  destruct t; try (by apply execute_files_ok).
  apply execute_whole_ok; try done. unfold starts_with in Einto. cbn in Einto. by apply bool_decide_eq_false in Einto.
Qed.

(** ** Examples *)

Definition no_dot (n : bytes) : bool := match n with 46 :: _ => false | _ => true end.

Lemma ordinary_no_dot (q : path) : forallb no_dot q = true -> ordinary q.
Proof.
  intros H. apply Forall_forall. intros n Hn a b ->. rewrite forallb_forall in H.
  specialize (H (tmp_name a b)). rewrite list_elem_of_In in Hn. by specialize (H Hn).
Qed.

(** The folder [/inc/Show], with a file that is not of the torrent, is moved to another
    device where there is a folder of that name; the torrent has another file on that
    device. *)
Definition rl_file (b : Z) : fnode := FFile [b] (Some 5).
Definition rl_disk : Disk :=
  mkDisk (fun _ => true) (fun _ => true) (fun a b => bool_decide (head a = head b))
    (fun p => match last p with Some [97] => Some [1] | Some [101] => Some [2] | _ => None end) (fun _ => None) 9 (fun _ => [55]) (fun b => b).
Definition rl_tree : fnode :=
  FDir true (Some 1)
    [(str "inc", FDir true (Some 1) [(str "Show", FDir true (Some 1) [([97], rl_file 1); ([101], rl_file 2)])]);
     (str "done", FDir true (Some 1) [([98], rl_file 3); (str "Show", FDir true (Some 1) [([111], rl_file 4)])])].
Definition rl_plan : Plan :=
  mkPlan [str "inc"; str "Show"] [str "done"; str "Show"]
    [mkLoc 0 [str "inc"; str "Show"; [97]] [[97]]; mkLoc 1 [str "done"; [98]] [[98]]] true true false false.

Lemma relocation_safe_witness :
  relocated rl_disk rl_plan rl_tree (execute rl_disk 1 rl_plan rl_tree).1 (oc_paths (execute rl_disk 1 rl_plan rl_tree).2) /\
  oc_paths (execute rl_disk 1 rl_plan rl_tree).2 = [(0%nat, [str "done"; str "Show"; [97]]); (1%nat, [str "done"; str "Show"; [98]])] /\
  oc_error (execute rl_disk 1 rl_plan rl_tree).2 = None.
Proof.
  split; [|split; vm_compute; reflexivity]. apply relocation_safe.
  - apply wf_tree_sound. vm_compute. reflexivity.
  - reflexivity.
  - unfold plan_fits. cbn [pl_whole_folder rl_plan].
    assert (whole_dest 1 rl_plan (FDir true (Some 1) [([97], rl_file 1); ([101], rl_file 2)]) rl_tree = ([str "done"; str "Show"], true)) as E
      by (vm_compute; reflexivity).
    change (tget rl_tree (pl_old_output rl_plan)) with (Some (FDir true (Some 1) [([97], rl_file 1); ([101], rl_file 2)])). cbv beta iota.
    rewrite E. cbn [fst snd]. split.
    + apply ordinary_no_dot. vm_compute. reflexivity.
    + apply ordinary_no_dot. vm_compute. reflexivity.
    + intros _. apply (bool_decide_eq_false_1 _). vm_compute. reflexivity.
    + apply (bool_decide_eq_true_1 _). vm_compute. reflexivity.
    + intros f. cbn. rewrite !elem_of_cons, elem_of_nil. intros [->|[->|[]]]; split; apply ordinary_no_dot; vm_compute; reflexivity.
    + intros f. cbn. rewrite !elem_of_cons, elem_of_nil. intros [->|[->|[]]] Hout.
      * destruct Hout. apply (bool_decide_eq_true_1 _). vm_compute. reflexivity.
      * left. by exists [3], (Some 5).
Defined.

(** Three letters: the folder [/a/T] of a torrent that has a folder of the same name. *)
Definition rl_carried (copy : bool) : Plan :=
  mkPlan [[1]; [2]] [[1]] [mkLoc 0 [[1]; [2]; [2]; [3]] [[2]; [3]]; mkLoc 1 [[1]; [2]; [3]] [[3]]] false true false copy.
Definition rl_carried_tree : fnode := FDir true None [([1], FDir true None [([2], FDir true None [([2], FDir true None [([3], rl_file 7)])])])].

(** A file that is moved to the path of a missing one is taken for it and moved on: the
    list does not tell where it is. *)
Lemma relocation_carries_off :
  let '(fs, o) := execute rl_disk 1 (rl_carried false) rl_carried_tree in
  oc_paths o = [(0%nat, [[1]; [2]; [3]]); (1%nat, [[1]; [3]])] /\ oc_error o = None /\
  tget fs [[1]; [2]; [3]] = None /\ tget fs [[1]; [3]] = Some (rl_file 7).
Proof. vm_compute. repeat split. Qed.

(** The second of two files cannot be moved, and still the folder is the new one. *)
Definition rl_halfway : Plan := mkPlan [[1]] [[2]] [mkLoc 0 [[1]; [3]] [[3]]; mkLoc 1 [[1]; [4]] [[4]]] false true false false.
Definition rl_halfway_disk : Disk :=
  mkDisk (fun p => negb (bool_decide (p = [[2]; [4]]))) (fun _ => true) (fun _ _ => true) (fun _ => None) (fun _ => None) 9 (fun _ => [55]) (fun b => b).

Lemma halfway_folder_changes :
  let '(fs, o) := execute rl_halfway_disk 1 rl_halfway (FDir true None [([1], FDir true None [([3], rl_file 1); ([4], rl_file 2)])]) in
  oc_error o = Some IoError /\ oc_output_folder o = [[2]] /\ oc_paths o = [(0%nat, [[2]; [3]]); (1%nat, [[1]; [4]])].
Proof. vm_compute. repeat split. Qed.
